(* ===== verification/_CoqProject ===== *)
-Q . S2P
Prelude.v
Protocol.v
Reader.v
Frame.v
Net.v
Datagram.v
Carrier.v
Carriers.v
Crypto.v
Policy.v
Session.v
Dispatcher.v
Simulator.v
Delivery.v
Campaign.v
Admission.v
HelperProtocol.v
TrafficHost.v
Journal.v
Str.v
FakeDns.v
Runtime.v
TunPacket.v
Utf8.v
IpText.v
SocketText.v
Routing.v
Tun.v
Proxy.v
Forest.v
Relay.v
Copying.v
DatagramRelay.v
TunStack.v
AndroidTun.v
ClientProfile.v
Enrollment.v
NodePool.v
ProxyListeners.v
NodeFiles.v
NodeSocket.v
NodeConfig.v
NodeEnrollment.v
NodeAcme.v
NodeServe.v
NodeService.v
NodeDeployment.v
NodeCommands.v
NodeSetup.v
NodeExamples.v
ServiceExamples.v
DeploymentExamples.v
ClientApi.v
ClientAbi.v
ClientHandles.v
TunHandles.v
EngineHandles.v
ClientExamples.v
Architecture.v
Docs.v
CiMetrics.v
Examples.v
