(* ===== verification/Prelude.v ===== *)
(** * The Velum core, verified

    Velum is a censorship-resistant tunnel: a client and a node run one
    session over replaceable carriers (QUIC or TLS), a privileged host installs
    routes and DNS on the client's machine, and local adapters feed flows into
    the session.  This development models the parts of the Rust workspace
    ([src/crates]) that carry that logic, and proves what they promise.

    ** Parts and files

    In the order of [_CoqProject], but for the helpers of a part, which come
    before it; paths are under [src/crates] unless they begin with [src].

    - [Prelude]: results, panics and fuel as values, the state-and-error monad
      [M] with its total-correctness triples [wp], machine-width integers as
      [N] with checked arithmetic, big-endian bytes, slices, ordered maps.
    - [Protocol]: [velum-protocol/src/types.rs] and the error codes of
      [lib.rs]: identifiers, version ranges, capabilities, negotiation.
    - [Reader]: the byte cursor of both codecs ([frame.rs], [datagram.rs]).
    - [Frame]: [velum-protocol/src/frame.rs]: encoder, exact decoder,
      incremental decoder.
    - [Net], [Str], [Utf8], [IpText], [SocketText]: what the program uses of
      [std::net], [str], UTF-8 and the address parsers and printers of the
      standard library.
    - [Datagram]: [velum-protocol/src/datagram.rs].
    - [Carrier]: the values of [velum-carrier-api] and [velum-telemetry].
    - [Carriers]: [velum-carrier-quic], [velum-carrier-tls]: transport limits,
      loss and health, datagrams, the one stream of a TLS carrier.
    - [Crypto]: [velum-crypto]: attachment proofs and the replay window.
    - [Policy]: [velum-policy]: when a session changes its carrier.
    - [Session]: [velum-session/src/lib.rs] and [transition.rs]: flows,
      acknowledgement, epochs, attachments.
    - [Dispatcher]: [velum-session/src/dispatcher.rs]: frames of one carrier
      become operations of a session.
    - [Simulator], [Delivery], [Campaign]: [velum-session/src/simulator.rs] and
      [campaign.rs]: the simulated carrier, two sessions over an adversarial
      one, and the seeded campaign.
    - [Admission]: [velum-server]: authentication, destinations, quotas.
    - [HelperProtocol]: [velum-helper-protocol]: framed requests to the host.
    - [TrafficHost], [Journal]: [velum-desktop-traffic-host]: the host over two
      interfaces, and its file journal, which implements one of them.
    - [FakeDns]: [velum-adapter-tun/src/fake_dns.rs].
    - [Runtime]: [velum-client-runtime]: the client's connection lifecycle and
      the tasks it spawns.
    - [Routing]: [velum-client-routing]: rules and policies.
    - [TunPacket], [Tun]: [velum-adapter-tun/src/lib.rs]: packets and flows;
      frame queues, leases, UDP associations, the UDP engine, routing of fake
      addresses.  [TunStack]: its polling core.  [AndroidTun]: the packet engine
      of [android.rs].
    - [Proxy]: [velum-adapter-proxy]: targets ([target.rs]), the rewriting of
      HTTP requests ([http.rs]), SOCKS5 and HTTP handshakes and serving
      ([lib.rs]).  [ProxyListeners]: its listeners, started, supervised and
      stopped.
    - [Forest]: [velum-forest]: the cover service and traffic profiles.
    - [Relay]: [src/apps/velum-node/src/lib.rs]: control records, admission and
      the leases of concurrent streams.
    - [Copying]: the copying of bytes in both directions, [relay_parts] of the
      node and [relay_halves] of the proxy.
    - [DatagramRelay]: [src/apps/velum-node/src/datagram.rs], and the handling
      of one datagram in [listener.rs].
    - [ClientProfile], [Enrollment]: [velum-client-profile/src/lib.rs] and
      [enrollment.rs]: profiles, and the bundles that enrol a client.
    - [NodePool]: [velum-client-engine]: the connections of a profile's nodes,
      replaced as a whole while lookups are under way.
    - [NodeFiles]: the files the node keeps, over [std::fs] with calls that
      fail; [NodeConfig]: [src/apps/velum-node/src/config.rs]: its configuration
      and credential files; [NodeEnrollment]: [enrollment.rs]: issuing and
      revoking clients; [NodeAcme]: [acme.rs]: activating certificates.
    - [NodeService]: [listener.rs], [admin.rs], [cover_listener.rs] and the
      reload of [cli.rs]: the running node as tasks whose steps interleave;
      [NodeSocket]: the socket file of [admin.rs] and a request over it;
      [NodeServe]: [serve] of [cli.rs], which starts the tasks and ends them.
    - [NodeDeployment]: [deployment.rs], [uninstall.rs]: the node as a user
      service of systemd; [NodeCommands]: [cli.rs]: its command line;
      [NodeSetup]: [terminal.rs], [setup.rs], [public_ip.rs] and the console of
      [cli.rs]: the prompts, the guided setup, what an operator chooses.
    - [ClientApi]: [velum-client-api]: the configuration of a connection, its
      control records and datagrams.
    - [ClientAbi], [ClientHandles]: [velum-client-ffi]: the values and texts of
      the C interface ([abi.rs], [configuration.rs], [profile.rs],
      [enrollment.rs]); its table of handles and the calls on clients and
      streams ([handles.rs], [control.rs], [streams.rs]).  [EngineHandles]: the
      calls on engines ([engine.rs]).  [TunHandles]: the calls that run and stop
      the packet engine of Android ([tun.rs]).
    - [Architecture]: [src/xtask/src/architecture.rs]: the check that the
      workspace keeps to its architecture contract.  [Docs], [CiMetrics]:
      [docs.rs] and [ci_metrics.rs] beside it: the links of the documentation,
      the health of continuous integration.
    - [NodeExamples], [ServiceExamples], [DeploymentExamples],
      [ClientExamples], [Examples]: concrete runs of the stateful components.

    ** How the parts meet

    [Dispatcher] decodes nothing: it is handed the frames of [Frame] and calls
    [Session], whose attachments are authenticated by [Crypto] and whose
    parameters come from [Protocol].  [Delivery] composes two sessions.
    [TrafficHost] is handed the requests of [HelperProtocol] and is generic in
    a platform and a journal, stated as classes with laws
    ([RecoveryJournal]/[JournalLaws], [PlatformBackend]/[BackendLaws]);
    [Journal] discharges the journal's.  [Relay] authenticates and counts with
    [Admission]; [DatagramRelay] adds the datagrams of [Datagram] to the
    connections of [Relay].  [Proxy] and [Tun] decide with [Routing], [Tun]
    also with [FakeDns] and the generations of [Runtime].  [ClientProfile]
    compiles to a policy of [Routing], and [Enrollment] to its secret
    references.  [NodeConfig] loads the admission of [Admission] and [Relay],
    the transport of [Carriers] and the cover service of [Forest];
    [NodeEnrollment] writes it and issues the bundles of [Enrollment];
    [NodeAcme] replaces the certificate it names and asks for the reload that
    [NodeService] does with [NodeConfig]'s load; [NodeServe] starts [NodeService]'s tasks from that
    load and [NodeSocket].  [NodeDeployment] deploys what [NodeConfig] loads, and
    [NodeCommands] calls both.  [ProxyListeners] runs [Proxy] over a runtime of
    [Runtime] or a pool of [NodePool].
    [ClientApi] speaks the control records of [Relay] and the datagrams of
    [Datagram]; [ClientHandles] puts the runtimes of [Runtime] behind handles,
    [EngineHandles] the pools of [NodePool] behind handles of the same table,
    [TunHandles] the engine of [AndroidTun] behind a place for one,
    and [ClientAbi] the texts of [ClientProfile] and [Enrollment] into the
    caller's buffers, through one interface ([CanonicalText]).

    ** State and operations

    A method on [&mut self] that returns a [Result] is a computation in
    [M State Error A]: it keeps the state changes made before an early return,
    and a failed [expect], an overflow or an index out of range is [Panic].
    A [BTreeMap] is a [gmap] iterated in the order of its keys.  Integers are
    [N]; where the source adds or subtracts, the model checks the width.  A
    record is a record, an enumeration an inductive type, under the names of
    the source, with a prefix where two crates share a name.  Concurrency
    ([Runtime], [Relay], [Copying], [DatagramRelay], [NodePool],
    [AndroidTun], [ProxyListeners], [NodeService], [ClientHandles],
    [EngineHandles], [TunHandles]) is a step relation in which every critical section is one
    step, or several where others look at its state without the mutex: a
    [stop] publishes twice ([Runtime]), a status is loaded number by number
    ([NodeService]).  What an [await] or a socket answers is an
    input of the operation ([CoverIo], [ForwardIo], ...); what was sent is
    recorded in the state where the source only sends it.

    ** What is proved

    - Codecs: whatever is accepted re-encodes to the input, whatever is encoded
      decodes, for any fragmentation of the stream, within the advertised
      memory bound ([Frame], [Datagram], [HelperProtocol]).
    - Session: an invariant of every reachable state and the absence of panics,
      with the exact effect of sending, acknowledging, resuming, expiring and
      changing the carrier ([Session]); nothing moves for a carrier that did
      not attach ([Dispatcher], [Crypto]); what the peer delivers is a prefix
      of what was sent, and a resumed flow completes it ([Delivery]); no
      assertion of the campaign can fail, for any seed ([Campaign]).
    - Negotiation and policy: soundness of the selection, and an exact
      account of when the carrier changes ([Protocol], [Policy]).
    - Admission: exact authentication and quotas over every history.
    - Host: a state machine without a lost transaction across crashes, an
      idempotent response cache, an atomic journal.
    - Node: the quotas hold exactly what live connections hold, a stream or
      datagram reaches only an allowed target with the credential of its
      session, and releases what it took ([Relay], [DatagramRelay]); a datagram
      that comes back carries the session and the source of its socket
      ([DatagramRelay]); the two
      directions of a stream are copied byte for byte, and the relay ends
      ([Copying]); a cover
      connection answers as an ordinary web server would, with a bounded
      head ([Forest]).
    - Local adapters: handshakes end within their bound, the proxy and the
      TUN adapter act as the routing policy decides, the proxy event by event
      and with writes that fail part of the way, responses return to the
      flow they answer, sessions are never shared between destinations
      ([Proxy], [TunPacket], [Tun]); the proxy listens on the loopback interface
      only, and after a stop nobody is taken in any more ([ProxyListeners]); the
      packet engine of Android gives every response to the flow it answers, and
      can always be brought to its end ([AndroidTun]); its queues stay within
      their bounds whatever a stack does in a poll ([TunStack]).
    - Configuration: validation normalises and is idempotent, a valid profile
      always compiles to a policy, bundles and identifiers survive their
      text form ([ClientProfile], [Enrollment]).
    - Client: fake addresses that resolve to what they stand for until they
      expire or, the oldest of a full table, are evicted ([FakeDns]), a
      lifecycle that loses no connection and lets no stale one through, also
      while it is stopping ([Runtime]), a pool that leaks no connection and cannot deadlock
      ([NodePool]), routing decisions that refine a declarative reading
      ([Routing]).

    - Node configuration: files are replaced as a whole or not at all, a file
      that loads is exactly what the node then admits, a client is issued
      completely or not at all, and what a rollback that fails leaves behind
      ([NodeConfig], [NodeEnrollment]); a certificate and its key are replaced
      together, and restored together where the rollback can see them and does
      not fail ([NodeAcme]).
    - Running node: permits and counters account for every task, a reload
      that fails keeps the last good configuration, and a listener that stops
      returns ([NodeService]); the socket of its administration is private and
      goes with it ([NodeSocket]), and a node that ends has ended all it started
      ([NodeServe]).
    - Operating a node: the options read are exactly those of the command line
      ([NodeCommands]); the unit of a deployed node has the lines it is meant
      to have whatever its paths are, is there before the service starts and goes after it stopped
      ([NodeDeployment]); the guided setup saves the configuration that was put
      together or leaves the old one, and no failing action ends the console
      ([NodeSetup]).
    - Workspace: the architecture check accepts exactly what conforms to the
      contract ([Architecture]), the link check exactly what leads somewhere
      ([Docs]); the percentile and the rate that are published, and their
      budgets, are what they are called ([CiMetrics]).
    - Client interfaces: what the client sends the node reads as it was meant
      ([ClientApi]); handles are never given out twice, destroying and stopping
      are final for the streams and engines there were, whose streams are
      cancelled, no call waits for ever for another ([ClientHandles],
      [EngineHandles]); at most one packet engine runs, and a call to stop it
      is not lost ([TunHandles]); texts come back in their canonical form, and
      are written only where they fit ([ClientAbi]).

    ** Fuel and bounds

    The loops of the decoders take fuel: one more than the bytes left, each
    iteration consuming one ([Frame], [HelperProtocol]); the theorems state
    that the result is a [Ret], so the fuel always suffices.  The response
    cache evicts with the number of its entries as fuel, the fake-address
    search with the source's own bound on attempts, the IPv6 parser with the
    eight groups of an address, decimal printing with the binary digits of the
    number.  The proxy handshake and the head of a cover request take one unit
    of fuel for each byte up to their limit of 16384; the search for a free
    datagram session takes one more than there are sessions.  Walking a
    tree takes one unit for each directory and one more, the search for a cycle
    one more than there are modules; the loops over arguments are structural.
    Reading the links of a line takes one more than it has characters.

    ** What the theorems assume

    HMAC-SHA256 ([ring]) signs with 32 bytes and verifies exactly its own
    tags; a constant-time comparison ([subtle]) compares; JSON ([serde_json])
    and YAML ([serde_yaml]) parse back what they wrote; packet headers
    ([smoltcp]) that fit their length field are read back as written, and its
    interface has room for one address; TOML
    ([toml]) parses back what it wrote, and the texts of JSON are Unicode; the
    platform behind the host keeps what it reports.  Where [metadata] fails on
    a path [Path::exists] takes it for absent; whether it does is a parameter
    without laws ([Stat]), and the theorem on a rollback has a premise for the
    two files concerned ([NodeAcme]).  Glob matching and
    [cargo metadata] are parameters of [Architecture] without laws, and so are the
    alphanumeric characters of Unicode ([Docs]) and the parser of dates
    ([CiMetrics]).  Each assumption is a class with a concrete instance among the
    examples.  Operations that need a counter below 2^64 say so.

    ** What is not modelled

    The sockets below the carriers ([quinn], [rustls]), the user-space stacks
    ([smoltcp], [ipstack]) and the copying of a direct connection, which [tokio]
    does, are the system or a library.  The Flutter application is not Rust; the
    benchmark and the commands of the build tooling run other programs.  A call
    that is dropped half-way (cancelled) is not modelled either, nor a poisoned
    mutex. *)
From stdpp Require Export base tactics numbers list gmap sets strings sorting.
From Stdlib Require Export Strings.Byte.
From Stdlib Require Export ZifyN ZifyNat.

Declare Scope velum_scope.
Delimit Scope velum_scope with velum.
#[global] Open Scope N_scope.
#[global] Open Scope velum_scope.

Create Rewrite HintDb velum_simpl.

(** ** Results, panics and fuel

    [result] is Rust's [Result].  [outcome] is what running a piece of the
    program yields: a value, a panic ([expect] on [None], an arithmetic
    overflow, a slice out of range) or, for the loops that are written with
    fuel, the marker that the fuel ran out.  Every totality theorem states
    that the outcome is a [Ret]. *)

Inductive result (A E : Type) : Type :=
| Ok (a : A)
| Err (e : E).
Arguments Ok {A E} a.
Arguments Err {A E} e.

Inductive outcome (A : Type) : Type :=
| Ret (a : A)
| Panic
| OutOfFuel.
Arguments Ret {A} a.
Arguments Panic {A}.
Arguments OutOfFuel {A}.

#[export] Instance result_eq_dec `{EqDecision A, EqDecision E} : EqDecision (result A E).
Proof. solve_decision. Defined.

(** Injectivity without the normalisation that [injection] performs. *)
Lemma Ret_Ok_inj {A E} (x y : A) : Ret (A := result A E) (Ok x) = Ret (Ok y) -> x = y.
Proof. by intros [= ->]. Qed.
Lemma Ret_inj {A} (x y : A) : Ret x = Ret y -> x = y.
Proof. by intros [= ->]. Qed.
Lemma Ok_inj {A E} (x y : A) : Ok (E := E) x = Ok y -> x = y.
Proof. by intros [= ->]. Qed.

Definition is_ok {A E} (r : result A E) : bool :=
  match r with Ok _ => true | Err _ => false end.

(** [r?] in a function that keeps no state. *)
Definition and_then {A B E} (r : result A E) (f : A -> result B E) : result B E :=
  match r with Ok a => f a | Err e => Err e end.
Notation "'let?' x ':=' r 'in' k" := (and_then r (fun x => k))
  (at level 10, x name, r at level 200, k at level 200,
   format "'[v' 'let?'  x  ':='  r  'in'  '/' k ']'") : velum_scope.

Lemma and_then_Ok {A B E} (r : result A E) (f : A -> result B E) b :
  and_then r f = Ok b <-> exists a, r = Ok a /\ f a = Ok b.
Proof. destruct r; cbn; naive_solver. Qed.

(** A method taking [&mut self] and returning [Result<A, E>]: state changes
    made before an early return are kept, as in the source. *)
Definition M (S E A : Type) : Type := S -> outcome (result A E * S).

Section monad.
Context {S E : Type}.

Definition ret {A} (a : A) : M S E A := fun s => Ret (Ok a, s).
Definition throw {A} (e : E) : M S E A := fun s => Ret (Err e, s).
Definition panic {A} : M S E A := fun _ => Panic.
Definition bind {A B} (m : M S E A) (f : A -> M S E B) : M S E B := fun s =>
  match m s with
  | Ret (Ok a, s') => f a s'
  | Ret (Err e, s') => Ret (Err e, s')
  | Panic => Panic
  | OutOfFuel => OutOfFuel
  end.
Definition get : M S E S := fun s => Ret (Ok s, s).
Definition gets {A} (f : S -> A) : M S E A := fun s => Ret (Ok (f s), s).
Definition modify (f : S -> S) : M S E unit := fun s => Ret (Ok tt, f s).
(** [option.ok_or(e)?] *)
Definition ok_or {A} (o : option A) (e : E) : M S E A :=
  match o with Some a => ret a | None => throw e end.
(** [option.expect(..)] *)
Definition expect {A} (o : option A) : M S E A :=
  match o with Some a => ret a | None => panic end.
(** [if b { return Err(e) }] *)
Definition reject_if (b : bool) (e : E) : M S E unit :=
  if b then throw e else ret tt.
End monad.

(** A computation on a part of the state. *)
Definition zoom {S T E A} (part : S -> T) (put : T -> S -> S) (m : M T E A) : M S E A := fun s =>
  match m (part s) with
  | Ret (r, t) => Ret (r, put t s)
  | Panic => Panic
  | OutOfFuel => OutOfFuel
  end.

(** [result.map_err(f)] *)
Definition map_err {S E F A} (f : E -> F) (m : M S E A) : M S F A := fun s =>
  match m s with
  | Ret (Ok a, s') => Ret (Ok a, s')
  | Ret (Err e, s') => Ret (Err (f e), s')
  | Panic => Panic
  | OutOfFuel => OutOfFuel
  end.

(** [result.map_err(f)?] for a result that does not touch the state. *)
Definition lift_result {S E F A} (f : E -> F) (r : result A E) : M S F A :=
  match r with Ok a => ret a | Err e => throw (f e) end.

Notation "'let!' x ':=' m 'in' k" := (bind m (fun x => k))
  (at level 10, x name, m at level 200, k at level 200,
   format "'[v' 'let!'  x  ':='  m  'in'  '/' k ']'") : velum_scope.
Notation "m1 ';!' m2" := (bind m1 (fun _ => m2))
  (at level 100, m2 at level 200, right associativity) : velum_scope.

(** ** Total-correctness triples

    [wp m s Q]: running [m] from [s] terminates without a panic in a result
    and a state that satisfy [Q]. *)
Definition wp {S E A} (m : M S E A) (s : S) (Q : result A E -> S -> Prop) : Prop :=
  match m s with Ret (r, s') => Q r s' | _ => False end.

Lemma wp_bind {S E A B} (m : M S E A) (f : A -> M S E B) s Q :
  wp m s (fun r s' => match r with Ok a => wp (f a) s' Q | Err e => Q (Err e) s' end) ->
  wp (bind m f) s Q.
Proof. unfold wp, bind. by destruct (m s) as [[[a|e] s']| |]. Qed.

Lemma wp_mono {S E A} (m : M S E A) s (Q R : result A E -> S -> Prop) :
  wp m s Q -> (forall r s', Q r s' -> R r s') -> wp m s R.
Proof. unfold wp. destruct (m s) as [[r s']| |]; naive_solver. Qed.

Lemma wp_and {S E A} (m : M S E A) s (Q R : result A E -> S -> Prop) :
  wp m s Q -> wp m s R -> wp m s (fun r s' => Q r s' /\ R r s').
Proof. unfold wp. by destruct (m s) as [[r s']| |]. Qed.

Lemma wp_run {S E A} (m : M S E A) s Q :
  wp m s Q -> exists r s', m s = Ret (r, s') /\ Q r s'.
Proof. unfold wp. destruct (m s) as [[r s']| |]; naive_solver. Qed.

Lemma wp_elim {S E A} (m : M S E A) s Q r s' :
  wp m s Q -> m s = Ret (r, s') -> Q r s'.
Proof. unfold wp. intros H Heq. by rewrite Heq in H. Qed.

Lemma wp_map_err {S E F A} (f : E -> F) (m : M S E A) s Q :
  wp m s (fun r s' => match r with Ok a => Q (Ok a) s' | Err e => Q (Err (f e)) s' end) ->
  wp (map_err f m) s Q.
Proof. unfold wp, map_err. by destruct (m s) as [[[a|e] s']| |]. Qed.

Lemma wp_zoom {S T E A} (part : S -> T) put (m : M T E A) s (Q : result A E -> S -> Prop) :
  wp m (part s) (fun r t => Q r (put t s)) -> wp (zoom part put m) s Q.
Proof. unfold wp, zoom. by destruct (m (part s)) as [[r t]| |]. Qed.

(** [wp_or_panic m s Q P]: [m] terminates as in [wp], or it panics and [P]
    holds. *)
Definition wp_or_panic {S E A} (m : M S E A) (s : S) (Q : result A E -> S -> Prop) (P : Prop) : Prop :=
  match m s with Ret (r, s') => Q r s' | Panic => P | OutOfFuel => False end.

Lemma wp_may_panic {S E A} (m : M S E A) s Q P : wp m s Q -> wp_or_panic m s Q P.
Proof. unfold wp, wp_or_panic. by destruct (m s) as [[r s']| |]. Qed.
Lemma wpp_bind {S E A B} (m : M S E A) (f : A -> M S E B) s Q P :
  wp_or_panic m s (fun r s' => match r with Ok a => wp_or_panic (f a) s' Q P | Err e => Q (Err e) s' end) P ->
  wp_or_panic (bind m f) s Q P.
Proof. unfold wp_or_panic, bind. by destruct (m s) as [[[a|e] s']| |]. Qed.
Lemma wpp_bind_wp {S E A B} (m : M S E A) (f : A -> M S E B) s Q P :
  wp m s (fun r s' => match r with Ok a => wp_or_panic (f a) s' Q P | Err e => Q (Err e) s' end) ->
  wp_or_panic (bind m f) s Q P.
Proof. intros H. by apply wpp_bind, wp_may_panic. Qed.
Lemma wpp_mono {S E A} (m : M S E A) s (Q R : result A E -> S -> Prop) (P P' : Prop) :
  wp_or_panic m s Q P -> (forall r s', Q r s' -> R r s') -> (P -> P') -> wp_or_panic m s R P'.
Proof. unfold wp_or_panic. destruct (m s) as [[r s']| |]; naive_solver. Qed.

Lemma wpp_bind_reject_if {S E B} (b : bool) e (f : unit -> M S E B) s (Q : result B E -> S -> Prop) P :
  (b = true -> Q (Err e) s) -> (b = false -> wp_or_panic (f tt) s Q P) ->
  wp_or_panic (bind (reject_if b e) f) s Q P.
Proof. intros Ht Hf. destruct b; [by apply Ht|by apply Hf]. Qed.
Lemma wpp_bind_lift_result {S E F A B} (g : E -> F) (r : result A E) (f : A -> M S F B) s (Q : result B F -> S -> Prop) P :
  (forall e, r = Err e -> Q (Err (g e)) s) -> (forall a, r = Ok a -> wp_or_panic (f a) s Q P) ->
  wp_or_panic (bind (lift_result g r) f) s Q P.
Proof. intros He Ho. destruct r as [a|e]; [by apply Ho|by apply He]. Qed.

(** ** Machine-width integers

    A [u8] held in a buffer is a [byte]; the wider unsigned types are an [N]
    with the bound carried by the well-formedness predicates, and every
    operation that can leave the range is written with the check that the
    source performs. *)
Definition U16_MAX : N := 65535.
Definition U32_MAX : N := 4294967295.
Definition U64_MAX : N := 18446744073709551615.
Definition U128_MAX : N := 340282366920938463463374607431768211455.

Definition u16 (n : N) : Prop := n <= U16_MAX.
Definition u32 (n : N) : Prop := n <= U32_MAX.
Definition u64 (n : N) : Prop := n <= U64_MAX.
Definition u128 (n : N) : Prop := n <= U128_MAX.

(** [a.checked_add(b)] at the width whose largest value is [max]. *)
Definition checked_add (max a b : N) : option N :=
  if a + b <=? max then Some (a + b) else None.
(** [a.checked_sub(b)] *)
Definition checked_sub (a b : N) : option N :=
  if b <=? a then Some (a - b) else None.

Lemma checked_add_Some max a b c :
  checked_add max a b = Some c <-> c = a + b /\ a + b <= max.
Proof. unfold checked_add. case_match eqn:E; [apply N.leb_le in E|apply N.leb_gt in E]; split; intros; [simplify_eq; lia|f_equal; lia|done|lia]. Qed.

Lemma checked_sub_Some a b c :
  checked_sub a b = Some c <-> c = a - b /\ b <= a.
Proof. unfold checked_sub. case_match eqn:E; [apply N.leb_le in E|apply N.leb_gt in E]; split; intros; [simplify_eq; lia|f_equal; lia|done|lia]. Qed.

(** ** Lists and byte buffers *)
Definition len {A} (l : list A) : N := N.of_nat (length l).

Lemma len_nil {A} : len (@nil A) = 0.
Proof. done. Qed.
Lemma len_cons {A} (x : A) l : len (x :: l) = 1 + len l.
Proof. unfold len. simpl. lia. Qed.
Lemma len_app {A} (l k : list A) : len (l ++ k) = len l + len k.
Proof. unfold len. rewrite length_app. lia. Qed.
#[export] Hint Rewrite @len_nil @len_cons @len_app : velum_simpl.

(** [&l[..n]] and [&l[n..]], for [n] in range. *)
Definition prefix_to {A} (n : N) (l : list A) : list A := take (N.to_nat n) l.
Definition suffix_from {A} (n : N) (l : list A) : list A := drop (N.to_nat n) l.

Lemma prefix_to_app {A} (l k : list A) : prefix_to (len l) (l ++ k) = l.
Proof. unfold prefix_to, len. rewrite Nnat.Nat2N.id. apply take_app_length. Qed.
Lemma suffix_from_app {A} (l k : list A) : suffix_from (len l) (l ++ k) = k.
Proof. unfold suffix_from, len. rewrite Nnat.Nat2N.id. apply drop_app_length. Qed.
Lemma len_prefix_to {A} n (l : list A) : n <= len l -> len (prefix_to n l) = n.
Proof. unfold prefix_to, len. rewrite length_take. lia. Qed.
Lemma len_suffix_from {A} n (l : list A) : len (suffix_from n l) = len l - n.
Proof. unfold suffix_from, len. rewrite length_drop. lia. Qed.
Lemma prefix_suffix {A} n (l : list A) : prefix_to n l ++ suffix_from n l = l.
Proof. apply take_drop. Qed.

#[export] Instance byte_eq_dec : EqDecision byte := Byte.byte_eq_dec.

#[global] Arguments Byte.eqb : simpl never.
#[global] Arguments Byte.to_N : simpl never.

Definition byte_of_N (n : N) : byte := default x00 (Byte.of_N n).

Lemma to_N_byte_of_N n : n < 256 -> Byte.to_N (byte_of_N n) = n.
Proof.
  intros Hn. unfold byte_of_N. destruct (Byte.of_N n) as [b|] eqn:Hb; simpl.
  - by apply Byte.to_of_N.
  - apply Byte.of_N_None_iff in Hb. lia.
Qed.
Lemma byte_of_N_to_N b : byte_of_N (Byte.to_N b) = b.
Proof. unfold byte_of_N. by rewrite Byte.of_to_N. Qed.
Lemma to_N_lt b : Byte.to_N b < 256.
Proof. pose proof (Byte.to_N_bounded b). lia. Qed.

#[global] Arguments byte_of_N : simpl never.

(** [v.to_be_bytes()] at a width of [n] bytes, and [from_be_bytes]. *)
Fixpoint to_be_bytes (n : nat) (v : N) : list byte :=
  match n with
  | O => []
  | S n' => to_be_bytes n' (v / 256) ++ [byte_of_N (v mod 256)]
  end.

Definition from_be_bytes (l : list byte) : N :=
  fold_left (fun acc b => acc * 256 + Byte.to_N b) l 0.

Lemma from_be_bytes_snoc l b :
  from_be_bytes (l ++ [b]) = from_be_bytes l * 256 + Byte.to_N b.
Proof. unfold from_be_bytes. by rewrite fold_left_app. Qed.

Lemma length_to_be_bytes n v : length (to_be_bytes n v) = n.
Proof.
  revert v. induction n as [|n IH]; intros v; cbn [to_be_bytes]; [done|].
  rewrite length_app, IH. simpl. lia.
Qed.
Lemma to_be_bytes_2 v : exists hi lo, to_be_bytes 2 v = [hi; lo].
Proof. by do 2 eexists. Qed.
Lemma len_to_be_bytes n v : len (to_be_bytes n v) = N.of_nat n.
Proof. unfold len. by rewrite length_to_be_bytes. Qed.

Lemma from_to_be_bytes n v :
  v < 256 ^ N.of_nat n -> from_be_bytes (to_be_bytes n v) = v.
Proof.
  revert v. induction n as [|n IH]; intros v Hv.
  - simpl in *. change (256 ^ N.of_nat 0) with 1 in Hv. unfold from_be_bytes. cbn. lia.
  - cbn [to_be_bytes]. rewrite from_be_bytes_snoc.
    rewrite Nnat.Nat2N.inj_succ, N.pow_succ_r' in Hv.
    rewrite IH by (apply N.Div0.div_lt_upper_bound; lia).
    rewrite to_N_byte_of_N by (apply N.mod_lt; lia).
    pose proof (N.div_mod' v 256). lia.
Qed.

Lemma from_be_bytes_bound l : from_be_bytes l < 256 ^ len l.
Proof.
  induction l as [|b l IH] using rev_ind; [done|].
  rewrite from_be_bytes_snoc, len_app, N.pow_add_r. pose proof (to_N_lt b).
  change (256 ^ len [b]) with 256. nia.
Qed.

Lemma to_from_be_bytes l : to_be_bytes (length l) (from_be_bytes l) = l.
Proof.
  induction l as [|b l IH] using rev_ind; [done|].
  rewrite length_app, Nat.add_comm. cbn [length Nat.add to_be_bytes].
  rewrite from_be_bytes_snoc. pose proof (to_N_lt b).
  rewrite N.add_comm, N.Div0.mod_add, N.mod_small by lia.
  rewrite N.div_add, N.div_small by lia.
  by rewrite N.add_0_l, IH, byte_of_N_to_N.
Qed.

Lemma to_be_bytes_inj n v w :
  v < 256 ^ N.of_nat n -> w < 256 ^ N.of_nat n ->
  to_be_bytes n v = to_be_bytes n w -> v = w.
Proof.
  intros Hv Hw Heq. rewrite <-(from_to_be_bytes n v), <-(from_to_be_bytes n w) by done.
  by rewrite Heq.
Qed.

#[global] Arguments to_be_bytes : simpl never.
#[global] Arguments from_be_bytes : simpl never.

(** ** Slices *)

(** [l.get(a..b)] *)
Definition slice_get {A} (l : list A) (a b : N) : option (list A) :=
  if (a <=? b) && (b <=? len l) then Some (prefix_to (b - a) (suffix_from a l)) else None.
(** [&l[a..]], which panics when [a] is past the end. *)
Definition slice_from {A} (l : list A) (a : N) : option (list A) :=
  if a <=? len l then Some (suffix_from a l) else None.

Lemma slice_get_app {A} (pre a rest : list A) :
  slice_get (pre ++ a ++ rest) (len pre) (len pre + len a) = Some a.
Proof.
  unfold slice_get. rewrite !len_app, suffix_from_app.
  replace (len pre <=? len pre + len a) with true by (symmetry; apply N.leb_le; lia).
  replace (len pre + len a <=? _) with true by (symmetry; apply N.leb_le; lia).
  simpl. replace (len pre + len a - len pre) with (len a) by lia.
  by rewrite prefix_to_app.
Qed.

Lemma slice_from_app {A} (pre rest : list A) : slice_from (pre ++ rest) (len pre) = Some rest.
Proof.
  unfold slice_from. rewrite len_app, suffix_from_app.
  by replace (len pre <=? len pre + len rest) with true by (symmetry; apply N.leb_le; lia).
Qed.

Lemma slice_get_Some {A} (pre rest s : list A) n :
  slice_get (pre ++ rest) (len pre) (len pre + n) = Some s ->
  len s = n /\ exists rest', rest = s ++ rest'.
Proof.
  unfold slice_get. rewrite suffix_from_app, len_app. case_match eqn:E; [|done].
  intros [= <-]. apply andb_true_iff in E as [_ E%N.leb_le].
  replace (len pre + n - len pre) with n by lia.
  split; [apply len_prefix_to; lia|]. exists (suffix_from n rest). by rewrite prefix_suffix.
Qed.

(** A computation that carries no state, run inside [M]. *)
Definition run_outcome {S E A} (o : outcome (result A E)) : M S E A := fun s =>
  match o with Ret r => Ret (r, s) | Panic => Panic | OutOfFuel => OutOfFuel end.
(** The value of a computation that cannot fail. *)
Definition run_value {S E A} (o : outcome A) : M S E A := fun s =>
  match o with Ret a => Ret (Ok a, s) | Panic => Panic | OutOfFuel => OutOfFuel end.
Definition out_of_fuel {S E A} : M S E A := fun _ => OutOfFuel.
(** Runs a computation on a local state and keeps only its result. *)
Definition eval {S E A} (m : M S E A) (s : S) : outcome (result A E) :=
  match m s with Ret (r, _) => Ret r | Panic => Panic | OutOfFuel => OutOfFuel end.

Lemma eval_Ok {S E A} (m : M S E A) s r s' : m s = Ret (r, s') -> eval m s = Ret r.
Proof. unfold eval. by intros ->. Qed.

Definition is_empty {A} (l : list A) : bool := match l with [] => true | _ => false end.
Lemma is_empty_true {A} (l : list A) : is_empty l = true <-> l = [].
Proof. by destruct l. Qed.

(** [u16::try_from(n)] *)
Definition u16_try_from (n : N) : option N := if n <=? U16_MAX then Some n else None.

(** ** Rules of the triples, one per primitive *)
Section wp_rules.
Context {S E : Type}.
Implicit Types (s : S).

Lemma wp_ret {A} (a : A) s (Q : result A E -> S -> Prop) : Q (Ok a) s -> wp (ret a) s Q.
Proof. done. Qed.
Lemma wp_throw {A} (e : E) s (Q : result A E -> S -> Prop) : Q (Err e) s -> wp (throw e) s Q.
Proof. done. Qed.
Lemma wp_modify f s (Q : result unit E -> S -> Prop) : Q (Ok tt) (f s) -> wp (modify f) s Q.
Proof. done. Qed.
Lemma wp_bind_get {B} (f : S -> M S E B) s Q : wp (f s) s Q -> wp (bind get f) s Q.
Proof. done. Qed.
Lemma wp_bind_gets {A B} (g : S -> A) (f : A -> M S E B) s Q :
  wp (f (g s)) s Q -> wp (bind (gets g) f) s Q.
Proof. done. Qed.
Lemma wp_bind_ret {A B} (a : A) (f : A -> M S E B) s Q : wp (f a) s Q -> wp (bind (ret a) f) s Q.
Proof. done. Qed.
Lemma wp_bind_throw {A B} (e : E) (f : A -> M S E B) s Q :
  Q (Err e) s -> wp (bind (throw e) f) s Q.
Proof. done. Qed.
Lemma wp_bind_modify {B} g (f : unit -> M S E B) s Q :
  wp (f tt) (g s) Q -> wp (bind (modify g) f) s Q.
Proof. done. Qed.
Lemma wp_bind_ok_or {A B} (o : option A) e (f : A -> M S E B) s Q :
  (o = None -> Q (Err e) s) -> (forall a, o = Some a -> wp (f a) s Q) ->
  wp (bind (ok_or o e) f) s Q.
Proof. intros Hn Hs. destruct o; [by apply Hs|by apply Hn]. Qed.
Lemma wp_bind_expect {A B} (o : option A) (f : A -> M S E B) s Q :
  (exists a, o = Some a /\ wp (f a) s Q) -> wp (bind (expect o) f) s Q.
Proof. by intros (a & -> & H). Qed.
Lemma wp_bind_checked_add {B} max a b (f : N -> M S E B) s Q :
  a + b <= max -> wp (f (a + b)) s Q -> wp (bind (expect (checked_add max a b)) f) s Q.
Proof. intros Hle Hwp. apply wp_bind_expect. exists (a + b). by rewrite checked_add_Some. Qed.
Lemma wp_bind_checked_sub {B} a b (f : N -> M S E B) s Q :
  b <= a -> wp (f (a - b)) s Q -> wp (bind (expect (checked_sub a b)) f) s Q.
Proof. intros Hle Hwp. apply wp_bind_expect. exists (a - b). by rewrite checked_sub_Some. Qed.
Lemma wp_bind_reject_if {B} (b : bool) e (f : unit -> M S E B) s Q :
  (b = true -> Q (Err e) s) -> (b = false -> wp (f tt) s Q) ->
  wp (bind (reject_if b e) f) s Q.
Proof. intros Ht Hf. destruct b; [by apply Ht|by apply Hf]. Qed.
Lemma wp_if {A} (b : bool) (m n : M S E A) s Q :
  (b = true -> wp m s Q) -> (b = false -> wp n s Q) -> wp (if b then m else n) s Q.
Proof. destruct b; auto. Qed.
End wp_rules.

(** One step of symbolic execution; [wp_steps] runs as far as it can,
    leaving a goal for every branch. *)
Ltac wp_step :=
  lazymatch goal with
  | |- wp (ret _) _ _ => apply wp_ret
  | |- wp (throw _) _ _ => apply wp_throw
  | |- wp (modify _) _ _ => apply wp_modify
  | |- wp (bind get _) _ _ => apply wp_bind_get
  | |- wp (bind (gets _) _) _ _ => apply wp_bind_gets
  | |- wp (bind (ret _) _) _ _ => apply wp_bind_ret
  | |- wp (bind (throw _) _) _ _ => apply wp_bind_throw
  | |- wp (bind (modify _) _) _ _ => apply wp_bind_modify
  | |- wp (bind (ok_or _ _) _) _ _ => apply wp_bind_ok_or; [intro|intros ? ?]
  | |- wp (bind (expect (checked_add _ _ _)) _) _ _ => apply wp_bind_checked_add
  | |- wp (bind (expect (checked_sub _ _)) _) _ _ => apply wp_bind_checked_sub
  | |- wp (bind (expect _) _) _ _ => apply wp_bind_expect
  | |- wp (bind (reject_if _ _) _) _ _ => apply wp_bind_reject_if; intro
  | |- wp (if _ then _ else _) _ _ => apply wp_if; intro
  end; cbv beta.
Ltac wp_steps := repeat wp_step.

(** ** State relations every run respects, whatever its result *)
Definition preserves {S E A} (R : S -> S -> Prop) (m : M S E A) : Prop :=
  forall s r s', m s = Ret (r, s') -> R s s'.

Create HintDb preserves.

Section preserves.
Context {S E : Type} (R : S -> S -> Prop) `{!PreOrder R}.

Lemma preserves_ret {A} (a : A) : preserves R (ret (E := E) a).
Proof. intros s r s' [= <- <-]. reflexivity. Qed.
Lemma preserves_throw {A} (e : E) : preserves R (throw (A := A) e).
Proof. intros s r s' [= <- <-]. reflexivity. Qed.
Lemma preserves_panic {A} : preserves R (panic (E := E) (A := A)).
Proof. by intros s r s'. Qed.
Lemma preserves_get : preserves R (get (E := E)).
Proof. intros s r s' [= <- <-]. reflexivity. Qed.
Lemma preserves_gets {A} (g : S -> A) : preserves R (gets (E := E) g).
Proof. intros s r s' [= <- <-]. reflexivity. Qed.
Lemma preserves_ok_or {A} (o : option A) (e : E) : preserves R (ok_or o e).
Proof. destruct o; [apply preserves_ret|apply preserves_throw]. Qed.
Lemma preserves_expect {A} (o : option A) : preserves R (expect (E := E) o).
Proof. destruct o; [apply preserves_ret|apply preserves_panic]. Qed.
Lemma preserves_reject_if b (e : E) : preserves R (reject_if b e).
Proof. destruct b; [apply preserves_throw|apply preserves_ret]. Qed.
Lemma preserves_modify g : (forall s, R s (g s)) -> preserves R (modify (E := E) g).
Proof. intros Hg s r s' [= <- <-]. apply Hg. Qed.
Lemma preserves_bind {A B} (m : M S E A) (f : A -> M S E B) :
  preserves R m -> (forall a, preserves R (f a)) -> preserves R (bind m f).
Proof.
  intros Hm Hf s r s'. unfold bind. destruct (m s) as [[[a|e] s1]| |] eqn:Hs; try done.
  - intros Hrun. etransitivity; [by eapply Hm|by eapply Hf].
  - intros [= <- <-]. by eapply Hm.
Qed.
Lemma preserves_if {A} (b : bool) (m n : M S E A) :
  preserves R m -> preserves R n -> preserves R (if b then m else n).
Proof. by destruct b. Qed.
End preserves.

#[export] Hint Resolve preserves_ret preserves_throw preserves_panic preserves_get preserves_gets
  preserves_ok_or preserves_expect preserves_reject_if preserves_if : preserves.

(** Decomposes a computation down to its state changes. *)
Ltac preserves_steps :=
  repeat first
    [ progress eauto 3 with preserves typeclass_instances
    | apply preserves_bind; [try typeclasses eauto|..|intros ?]
    | apply preserves_modify; intros ?
    | apply preserves_if
    | match goal with |- preserves _ (match ?x with _ => _ end) => destruct x end ].

(** ** Sums over a map *)
Definition map_sum {A} (weight : A -> N) (m : gmap N A) : N := map_fold (fun _ f n => weight f + n) 0 m.
Lemma map_sum_insert {A} (weight : A -> N) m id f : m !! id = None -> map_sum weight (<[id := f]> m) = weight f + map_sum weight m.
Proof. intros Hid. unfold map_sum. rewrite map_fold_insert_L; [done| |done]. intros. lia. Qed.
Lemma map_sum_update {A} (weight : A -> N) m id f g :
  m !! id = Some f -> map_sum weight (<[id := g]> m) + weight f = map_sum weight m + weight g.
Proof.
  intros Hid. rewrite <-insert_delete_eq, map_sum_insert by apply lookup_delete_eq.
  rewrite <-(insert_delete_id m id f Hid) at 2. rewrite map_sum_insert by apply lookup_delete_eq. lia.
Qed.
Lemma map_sum_zero {A} (weight : A -> N) m : map_sum weight m = 0 <-> forall id f, m !! id = Some f -> weight f = 0.
Proof.
  induction m as [|id f m Hid IH] using map_ind; [by split|]. rewrite map_sum_insert by done. split.
  - intros Hz i g [[<- <-]|[_ Hl]]%lookup_insert_Some; [lia|]. apply (proj1 IH ltac:(lia) i g Hl).
  - intros Hall. rewrite (Hall id f) by by rewrite lookup_insert_eq. apply IH. intros i g Hl. apply (Hall i g).
    by rewrite lookup_insert_ne by congruence.
Qed.
Lemma map_sum_pos {A} (weight : A -> N) m : 0 < map_sum weight m -> exists id f, m !! id = Some f /\ 0 < weight f.
Proof.
  induction m as [|id f m Hid IH] using map_ind; [done|]. rewrite map_sum_insert by done. intros Hpos.
  destruct (decide (0 < weight f)); [exists id, f; by rewrite lookup_insert_eq|]. destruct IH as (i & g & Hl & Hg); [lia|].
  exists i, g. by rewrite lookup_insert_ne by congruence.
Qed.
Lemma map_sum_scale {A} (weight weight' : A -> N) k m :
  (forall id f, m !! id = Some f -> weight f <= k * weight' f) -> map_sum weight m <= k * map_sum weight' m.
Proof.
  induction m as [|id f m Hid IH] using map_ind; [unfold map_sum; rewrite !map_fold_empty; lia|]. rewrite !map_sum_insert by done. intros Hall.
  pose proof (Hall id f ltac:(by rewrite lookup_insert_eq)). specialize (IH ltac:(intros i g Hl; apply (Hall i g); by rewrite lookup_insert_ne by congruence)). lia.
Qed.

(** ** Ordered maps

    A [BTreeMap] keyed by a number is a [gmap]; where the source iterates
    over one, the entries come in increasing order of their keys. *)
Section btree.
Context {A : Type}.
Implicit Types (m : gmap N A).

Definition key_le (p q : N * A) : Prop := p.1 <= q.1.
#[export] Instance key_le_dec p q : Decision (key_le p q).
Proof. unfold key_le. apply _. Defined.

Definition entries m : list (N * A) := merge_sort key_le (map_to_list m).
Definition keys m : list N := (entries m).*1.

#[export] Instance key_le_total : Total key_le.
Proof. intros x y. unfold key_le. lia. Qed.
#[export] Instance key_le_trans : Transitive key_le.
Proof. intros x y z. unfold key_le. lia. Qed.

Lemma elem_of_entries m k a : (k, a) ∈ entries m <-> m !! k = Some a.
Proof. unfold entries. by rewrite merge_sort_Permutation, elem_of_map_to_list. Qed.

Lemma entries_Permutation m : entries m ≡ₚ map_to_list m.
Proof. apply merge_sort_Permutation. Qed.

Lemma elem_of_keys m k : k ∈ keys m <-> is_Some (m !! k).
Proof.
  unfold keys. rewrite list_elem_of_fmap. split.
  - intros ([i a] & -> & Hin). apply elem_of_entries in Hin. eauto.
  - intros [a Ha]. exists (k, a). by rewrite elem_of_entries.
Qed.

Lemma keys_NoDup m : NoDup (keys m).
Proof. unfold keys. rewrite entries_Permutation. apply NoDup_fst_map_to_list. Qed.

Lemma keys_sorted m : StronglySorted N.lt (keys m).
Proof.
  pose proof (keys_NoDup m) as Hnd. unfold keys in *.
  assert (StronglySorted key_le (entries m)) as Hs by (apply StronglySorted_merge_sort; apply _).
  induction Hs as [|x l Hl IH Hall]; [constructor|]. apply NoDup_cons in Hnd as [Hx Hnd].
  cbn [fmap list_fmap]. constructor; [by apply IH|].
  apply Forall_fmap. rewrite Forall_forall in *. intros y Hy. cbn.
  specialize (Hall y Hy). unfold key_le in Hall.
  assert (x.1 <> y.1); [|lia]. intros Heq. apply Hx. rewrite Heq.
  by apply list_elem_of_fmap_2.
Qed.
End btree.

Lemma filter_sorted {A} (R : A -> A -> Prop) (P : A -> Prop) `{forall x, Decision (P x)} l :
  StronglySorted R l -> StronglySorted R (filter P l).
Proof.
  induction 1 as [|x l Hl IH Hall]; [constructor|]. rewrite filter_cons.
  case_decide; [|done]. constructor; [done|].
  rewrite Forall_forall in *. intros y Hy. apply Hall. by apply list_elem_of_filter in Hy as [_ ?].
Qed.

Lemma sorted_lt_NoDup l : StronglySorted N.lt l -> NoDup l.
Proof.
  induction 1 as [|x l Hl IH Hall]; constructor; [|done].
  intros Hx. rewrite Forall_forall in Hall. specialize (Hall x Hx). lia.
Qed.
