(* ===== verification/Protocol.v ===== *)
(** Protocol identifiers, version and capability negotiation, and the stable
    error codes of [velum-protocol] ([types.rs] and the error code table of
    [lib.rs]). *)
From S2P Require Import Prelude.

(** The newtypes [FlowId], [Epoch], [Sequence] and [Capabilities] wrap a
    [u64]; [SessionId] wraps sixteen bytes. *)
Abbreviation FlowId := N (only parsing).
Abbreviation Epoch := N (only parsing).
Abbreviation Sequence := N (only parsing).
Abbreviation Capabilities := N (only parsing).
Abbreviation SessionId := (list byte) (only parsing).

(** ** Versions *)
Record VersionRange := { minimum : N; maximum : N }.

Inductive VersionRangeError := InvalidRange.

#[export] Instance VersionRange_eq_dec : EqDecision VersionRange.
Proof. solve_decision. Defined.

Module VersionRange.
Definition new (minimum maximum : N) : result VersionRange VersionRangeError :=
  if maximum <? minimum then Err InvalidRange
  else Ok {| minimum := minimum; maximum := maximum |}.

Definition is_valid (self : VersionRange) : bool := minimum self <=? maximum self.

Definition negotiate (self peer : VersionRange) : option N :=
  if negb (is_valid self) || negb (is_valid peer) then None
  else
    let minimum := if minimum peer <? minimum self then minimum self else minimum peer in
    let maximum := if maximum self <? maximum peer then maximum self else maximum peer in
    if minimum <=? maximum then Some maximum else None.

Definition wf (r : VersionRange) : Prop := u16 (minimum r) /\ u16 (maximum r).

(** The versions of a range. *)
Definition contains (r : VersionRange) (v : N) : Prop := minimum r <= v <= maximum r.
End VersionRange.

(** ** Capabilities *)
Module Capabilities.
Definition RELIABLE_STREAM : Capabilities := N.shiftl 1 0.
Definition UNRELIABLE_DATAGRAM : Capabilities := N.shiftl 1 1.
Definition KNOWN : Capabilities := N.lor RELIABLE_STREAM UNRELIABLE_DATAGRAM.

Definition contains (self other : Capabilities) : bool := N.land self other =? other.
Definition intersects (self other : Capabilities) : bool := negb (N.land self other =? 0).
Definition intersection (self other : Capabilities) : Capabilities := N.land self other.
Definition unknown (self : Capabilities) : Capabilities :=
  N.land self (N.lxor U64_MAX KNOWN).
End Capabilities.

Record CapabilityAdvertisement := { required : Capabilities; optional : Capabilities }.

Inductive CapabilityAdvertisementError := OverlappingBits.

#[export] Instance CapabilityAdvertisement_eq_dec : EqDecision CapabilityAdvertisement.
Proof. solve_decision. Defined.

Module CapabilityAdvertisement.
Definition new (required optional : Capabilities)
  : result CapabilityAdvertisement CapabilityAdvertisementError :=
  if Capabilities.intersects required optional then Err OverlappingBits
  else Ok {| required := required; optional := optional |}.

Definition offered (self : CapabilityAdvertisement) : Capabilities :=
  N.lor (required self) (optional self).

Definition wf (a : CapabilityAdvertisement) : Prop := u64 (required a) /\ u64 (optional a).
End CapabilityAdvertisement.

(** ** Non-zero sixteen-byte identifiers *)
Definition all_zero (bytes : list byte) : bool := forallb (fun b => Byte.eqb b x00) bytes.

Record HandshakeNonce := { nonce_bytes : list byte }.
Inductive HandshakeNonceError := NonceAllZero.

Record AttachmentId := { attachment_bytes : list byte }.
Inductive AttachmentIdError := AttachmentAllZero.

#[export] Instance HandshakeNonce_eq_dec : EqDecision HandshakeNonce.
Proof. solve_decision. Defined.
#[export] Instance AttachmentId_eq_dec : EqDecision AttachmentId.
Proof. solve_decision. Defined.

Module HandshakeNonce.
Definition new (bytes : list byte) : result HandshakeNonce HandshakeNonceError :=
  if all_zero bytes then Err NonceAllZero else Ok {| nonce_bytes := bytes |}.
Definition bytes (self : HandshakeNonce) : list byte := nonce_bytes self.
Definition wf (n : HandshakeNonce) : Prop :=
  len (nonce_bytes n) = 16 /\ all_zero (nonce_bytes n) = false.
End HandshakeNonce.

Module AttachmentId.
Definition new (bytes : list byte) : result AttachmentId AttachmentIdError :=
  if all_zero bytes then Err AttachmentAllZero else Ok {| attachment_bytes := bytes |}.
Definition bytes (self : AttachmentId) : list byte := attachment_bytes self.
Definition wf (i : AttachmentId) : Prop :=
  len (attachment_bytes i) = 16 /\ all_zero (attachment_bytes i) = false.
End AttachmentId.

(** ** Negotiation *)
Record NegotiationOffer := {
  versions : VersionRange;
  capabilities : CapabilityAdvertisement;
  client_nonce : HandshakeNonce
}.

Record NegotiatedParameters := {
  np_version : N;
  np_capabilities : Capabilities;
  np_client_nonce : HandshakeNonce;
  np_server_nonce : HandshakeNonce
}.

Inductive NegotiationError :=
| InvalidVersionRange
| InvalidCapabilityAdvertisement
| NoSharedVersion
| UnsupportedRequiredCapability
| MissingReliableStream
| InvalidSelection.

#[export] Instance NegotiationOffer_eq_dec : EqDecision NegotiationOffer.
Proof. solve_decision. Defined.
#[export] Instance NegotiatedParameters_eq_dec : EqDecision NegotiatedParameters.
Proof. solve_decision. Defined.

Module NegotiationOffer.
Definition new (versions : VersionRange) (capabilities : CapabilityAdvertisement)
    (client_nonce : HandshakeNonce) : result NegotiationOffer NegotiationError :=
  if negb (VersionRange.is_valid versions) then Err InvalidVersionRange
  else if Capabilities.intersects (required capabilities) (optional capabilities)
  then Err InvalidCapabilityAdvertisement
  else if negb (Capabilities.contains (required capabilities) Capabilities.RELIABLE_STREAM)
  then Err MissingReliableStream
  else Ok {| versions := versions; capabilities := capabilities;
             client_nonce := client_nonce |}.

Definition negotiate (self : NegotiationOffer) (server_versions : VersionRange)
    (server_capabilities : Capabilities) (server_nonce : HandshakeNonce)
  : result NegotiatedParameters NegotiationError :=
  match VersionRange.negotiate (versions self) server_versions with
  | None => Err NoSharedVersion
  | Some version =>
    if negb (Capabilities.contains server_capabilities (required (capabilities self)))
    then Err UnsupportedRequiredCapability
    else
      let enabled := Capabilities.intersection
        (CapabilityAdvertisement.offered (capabilities self)) server_capabilities in
      if negb (Capabilities.contains enabled Capabilities.RELIABLE_STREAM)
      then Err MissingReliableStream
      else Ok {| np_version := version; np_capabilities := enabled;
                 np_client_nonce := client_nonce self;
                 np_server_nonce := server_nonce |}
  end.

(** What [NegotiationOffer::new] establishes, with the field widths. *)
Definition wf (o : NegotiationOffer) : Prop :=
  VersionRange.wf (versions o) /\ CapabilityAdvertisement.wf (capabilities o) /\
  HandshakeNonce.wf (client_nonce o) /\
  new (versions o) (capabilities o) (client_nonce o) = Ok o.
End NegotiationOffer.

Definition NEGOTIATED_PARAMETERS_BYTES : N := 42.

Module NegotiatedParameters.
Definition validate_for (self : NegotiatedParameters) (offer : NegotiationOffer)
  : result unit NegotiationError :=
  if negb (VersionRange.is_valid (versions offer))
     || (np_version self <? minimum (versions offer))
     || (maximum (versions offer) <? np_version self)
     || negb (Capabilities.contains
                (CapabilityAdvertisement.offered (capabilities offer)) (np_capabilities self))
     || negb (Capabilities.contains (np_capabilities self) (required (capabilities offer)))
     || negb (Capabilities.contains (np_capabilities self) Capabilities.RELIABLE_STREAM)
     || negb (bool_decide (nonce_bytes (np_client_nonce self)
                           = nonce_bytes (client_nonce offer)))
  then Err InvalidSelection
  else Ok tt.

Definition canonical_bytes (self : NegotiatedParameters) : list byte :=
  to_be_bytes 2 (np_version self) ++ to_be_bytes 8 (np_capabilities self)
  ++ HandshakeNonce.bytes (np_client_nonce self)
  ++ HandshakeNonce.bytes (np_server_nonce self).

Definition wf (p : NegotiatedParameters) : Prop :=
  u16 (np_version p) /\ u64 (np_capabilities p) /\
  HandshakeNonce.wf (np_client_nonce p) /\ HandshakeNonce.wf (np_server_nonce p).
End NegotiatedParameters.

(** ** Error codes *)
Inductive ProtocolErrorCode :=
| CodeNoSharedVersion
| CodeIncompatibleCapabilities
| CodeAuthenticationFailed
| CodeReplayDetected
| CodeProtocolViolation
| CodeResourceLimit
| CodeFlowNotFound
| CodeFlowState
| CodeResumeUnsupported
| CodeInternal
| CodeUnknown (value : N).

#[export] Instance ProtocolErrorCode_eq_dec : EqDecision ProtocolErrorCode.
Proof. solve_decision. Defined.

Module ProtocolErrorCode.
Definition as_u16 (self : ProtocolErrorCode) : N :=
  match self with
  | CodeNoSharedVersion => 1
  | CodeIncompatibleCapabilities => 2
  | CodeAuthenticationFailed => 3
  | CodeReplayDetected => 4
  | CodeProtocolViolation => 5
  | CodeResourceLimit => 6
  | CodeFlowNotFound => 7
  | CodeFlowState => 8
  | CodeResumeUnsupported => 9
  | CodeInternal => 255
  | CodeUnknown value => value
  end.

Definition from_u16 (value : N) : ProtocolErrorCode :=
  match value with
  | 1 => CodeNoSharedVersion
  | 2 => CodeIncompatibleCapabilities
  | 3 => CodeAuthenticationFailed
  | 4 => CodeReplayDetected
  | 5 => CodeProtocolViolation
  | 6 => CodeResourceLimit
  | 7 => CodeFlowNotFound
  | 8 => CodeFlowState
  | 9 => CodeResumeUnsupported
  | 255 => CodeInternal
  | unknown => CodeUnknown unknown
  end.

(** A code that [from_u16] can produce: [Unknown] does not hold a value the
    table names. *)
Definition canonical (c : ProtocolErrorCode) : Prop :=
  u16 (as_u16 c) /\ from_u16 (as_u16 c) = c.
End ProtocolErrorCode.

(** ** Lemmas *)
Lemma VersionRange_is_valid_spec r : VersionRange.is_valid r = true <-> minimum r <= maximum r.
Proof. apply N.leb_le. Qed.

Lemma VersionRange_negotiate_Some a b v :
  VersionRange.negotiate a b = Some v ->
  VersionRange.contains a v /\ VersionRange.contains b v.
Proof.
  unfold VersionRange.negotiate, VersionRange.is_valid, VersionRange.contains.
  repeat case_match; intros; simplify_eq;
    rewrite ?orb_false_iff, ?negb_false_iff, ?N.leb_le, ?N.ltb_lt, ?N.ltb_ge in *; lia.
Qed.

Lemma VersionRange_negotiate_None a b :
  VersionRange.negotiate a b = None ->
  forall v, VersionRange.contains a v -> ~ VersionRange.contains b v.
Proof.
  unfold VersionRange.negotiate, VersionRange.is_valid, VersionRange.contains.
  repeat case_match; intros; simplify_eq;
    rewrite ?orb_true_iff, ?orb_false_iff, ?negb_true_iff, ?negb_false_iff, ?N.leb_le,
      ?N.leb_gt, ?N.ltb_lt, ?N.ltb_ge in *; lia.
Qed.

Lemma Capabilities_contains_spec a b :
  Capabilities.contains a b = true <->
  forall i, N.testbit b i = true -> N.testbit a i = true.
Proof.
  unfold Capabilities.contains. rewrite N.eqb_eq. split.
  - intros H i Hi. rewrite <-H, N.land_spec in Hi. by apply andb_true_iff in Hi as [].
  - intros H. apply N.bits_inj. intros i. rewrite N.land_spec.
    specialize (H i). destruct (N.testbit b i); [by rewrite H|by rewrite andb_false_r].
Qed.

Lemma Capabilities_contains_trans a b c :
  Capabilities.contains a b = true -> Capabilities.contains b c = true ->
  Capabilities.contains a c = true.
Proof. rewrite !Capabilities_contains_spec. naive_solver. Qed.

Lemma Capabilities_contains_intersection a b c :
  Capabilities.contains (Capabilities.intersection a b) c = true <->
  Capabilities.contains a c = true /\ Capabilities.contains b c = true.
Proof.
  rewrite !Capabilities_contains_spec. unfold Capabilities.intersection.
  setoid_rewrite N.land_spec. setoid_rewrite andb_true_iff. naive_solver.
Qed.

Lemma Capabilities_offered_required a :
  Capabilities.contains (CapabilityAdvertisement.offered a) (required a) = true.
Proof.
  apply Capabilities_contains_spec. intros i Hi.
  unfold CapabilityAdvertisement.offered. by rewrite N.lor_spec, Hi.
Qed.

Lemma u64_land a b : u64 a -> u64 (N.land a b).
Proof.
  unfold u64, U64_MAX. intros Ha.
  enough (N.land a b < 2 ^ 64) by lia.
  destruct (decide (N.land a b = 0)) as [->|Hne]; [done|].
  apply N.log2_lt_pow2; [lia|]. eapply N.le_lt_trans; [apply N.log2_land|].
  apply N.min_lt_iff. left. destruct (decide (a = 0)) as [->|]; [done|].
  apply N.log2_lt_pow2; lia.
Qed.

Lemma canonical_bytes_len p :
  NegotiatedParameters.wf p ->
  len (NegotiatedParameters.canonical_bytes p) = NEGOTIATED_PARAMETERS_BYTES.
Proof.
  intros (_ & _ & [Hc _] & [Hs _]). unfold NegotiatedParameters.canonical_bytes.
  rewrite !len_app, !len_to_be_bytes. unfold HandshakeNonce.bytes. rewrite Hc, Hs. done.
Qed.

Lemma app_inj_len {A} (l1 l2 k1 k2 : list A) :
  len l1 = len l2 -> l1 ++ k1 = l2 ++ k2 -> l1 = l2 /\ k1 = k2.
Proof. unfold len. intros ? ?. apply app_inj_1; [lia|done]. Qed.

Lemma canonical_bytes_inj p q :
  NegotiatedParameters.wf p -> NegotiatedParameters.wf q ->
  NegotiatedParameters.canonical_bytes p = NegotiatedParameters.canonical_bytes q -> p = q.
Proof.
  intros (Hv & Hc & [Hn _] & [Hs _]) (Hv' & Hc' & [Hn' _] & [Hs' _]) Heq.
  unfold NegotiatedParameters.canonical_bytes, HandshakeNonce.bytes in Heq.
  apply app_inj_len in Heq as [Heq1 Heq]; [|by rewrite !len_to_be_bytes].
  apply app_inj_len in Heq as [Heq2 Heq]; [|by rewrite !len_to_be_bytes].
  apply app_inj_len in Heq as [Heq3 Heq4]; [|congruence].
  apply to_be_bytes_inj in Heq1; [|unfold u16, U16_MAX in *; simpl; lia..].
  apply to_be_bytes_inj in Heq2; [|unfold u64, U64_MAX in *; simpl; lia..].
  destruct p as [? ? [] []], q as [? ? [] []]; simpl in *. by subst.
Qed.

Lemma as_u16_from_u16 v : ProtocolErrorCode.as_u16 (ProtocolErrorCode.from_u16 v) = v.
Proof.
  unfold ProtocolErrorCode.from_u16.
  repeat match goal with |- context [match ?p with _ => _ end] => destruct p end; reflexivity.
Qed.

(** ** Properties of negotiation *)

(** Version negotiation returns the newest version that both ranges
    contain, and fails exactly when they share none. *)
Theorem version_negotiation_newest a b v :
  VersionRange.negotiate a b = Some v <->
  VersionRange.contains a v /\ VersionRange.contains b v /\
  forall w, VersionRange.contains a w -> VersionRange.contains b w -> w <= v.
Proof.
  unfold VersionRange.negotiate, VersionRange.is_valid, VersionRange.contains.
  repeat case_match; rewrite ?orb_true_iff, ?orb_false_iff, ?negb_true_iff, ?negb_false_iff,
    ?N.leb_le, ?N.leb_gt, ?N.ltb_lt, ?N.ltb_ge in *;
    (split; [intros ?; simplify_eq; split_and!; intros; lia|]);
    intros (? & ? & Hnewest); try lia; f_equal; apply N.le_antisymm; try lia;
    apply Hnewest; lia.
Qed.

(** A selection the server makes is one the client accepts: it passes
    [validate_for] for the offer, stays within the server's versions and
    capabilities, and enables only what was offered.  The server refuses
    exactly when no version is shared, a required capability is missing, or
    reliable streams are not common. *)
Theorem negotiation_sound o sv sc nonce :
  match NegotiationOffer.negotiate o sv sc nonce with
  | Ok p =>
    NegotiatedParameters.validate_for p o = Ok tt /\
    VersionRange.contains sv (np_version p) /\
    (forall i, N.testbit (np_capabilities p) i =
       N.testbit (CapabilityAdvertisement.offered (capabilities o)) i && N.testbit sc i) /\
    np_server_nonce p = nonce
  | Err NoSharedVersion =>
    forall v, VersionRange.contains (versions o) v -> ~ VersionRange.contains sv v
  | Err UnsupportedRequiredCapability =>
    Capabilities.contains sc (required (capabilities o)) = false
  | Err MissingReliableStream =>
    Capabilities.contains
      (Capabilities.intersection (CapabilityAdvertisement.offered (capabilities o)) sc)
      Capabilities.RELIABLE_STREAM = false
  | Err _ => False
  end.
Proof.
  unfold NegotiationOffer.negotiate.
  destruct (VersionRange.negotiate (versions o) sv) as [v|] eqn:Hv.
  - apply VersionRange_negotiate_Some in Hv as [Ho Hs].
    destruct (Capabilities.contains sc _) eqn:Hreq; [|done].
    destruct (Capabilities.contains (Capabilities.intersection _ _) _) eqn:Hrel; [|done].
    cbn [negb]. split_and!; [|done| |done].
    + unfold NegotiatedParameters.validate_for.
      cbn [np_version np_capabilities np_client_nonce np_server_nonce].
      destruct Ho as [Hlo Hhi]. unfold VersionRange.is_valid.
      replace (minimum (versions o) <=? maximum (versions o)) with true
        by (symmetry; apply N.leb_le; lia).
      apply N.ltb_ge in Hlo, Hhi. rewrite Hlo, Hhi, Hrel.
      rewrite bool_decide_eq_true_2 by done.
      assert (Capabilities.contains (CapabilityAdvertisement.offered (capabilities o))
        (Capabilities.intersection (CapabilityAdvertisement.offered (capabilities o)) sc)
        = true) as -> by (apply Capabilities_contains_spec; intros i;
          unfold Capabilities.intersection; rewrite N.land_spec, andb_true_iff; tauto).
      by rewrite (proj2 (Capabilities_contains_intersection _ _ _)
        (conj (Capabilities_offered_required _) Hreq)).
    + intros i. apply N.land_spec.
  - intros v Ho Hs. by apply (VersionRange_negotiate_None _ _ Hv v).
Qed.
