(* ===== verification/Reader.v ===== *)
(** The byte cursor that both codecs of [velum-protocol] read with
    ([struct Reader] of [frame.rs] and of [datagram.rs]), generic in the
    error type, and the two properties of readers that compose:
    [reads] (the reader accepts exactly these bytes) and [consumes] (whatever
    the reader accepts, it accepted bytes that satisfy a predicate). *)
From S2P Require Import Prelude.

Record Reader := mkReader { rd_bytes : list byte; rd_offset : N }.

Module Reader.
Section reader.
Context {E : Type}.

Definition new (bytes : list byte) : Reader := mkReader bytes 0.

(** [array::<N>], [take::<N>] and [take_slice]. *)
Definition take (short : E) (n : N) : M Reader E (list byte) :=
  let! self := get in
  let! e := ok_or (checked_add U64_MAX (rd_offset self) n) short in
  let! slice := ok_or (slice_get (rd_bytes self) (rd_offset self) e) short in
  modify (fun s => mkReader (rd_bytes s) e) ;!
  ret slice.

Definition remaining : M Reader E (list byte) :=
  let! self := get in
  expect (slice_from (rd_bytes self) (rd_offset self)).

Definition take_remaining : M Reader E (list byte) :=
  let! rest := remaining in
  modify (fun s => mkReader (rd_bytes s) (len (rd_bytes s))) ;!
  ret rest.

Definition u16 (short : E) : M Reader E N :=
  let! b := take short 2 in ret (from_be_bytes b).
Definition u64 (short : E) : M Reader E N :=
  let! b := take short 8 in ret (from_be_bytes b).
End reader.
End Reader.

Section readers.
Context {E : Type}.

(** [m] started in front of [a] returns [v] and stops right after [a]. *)
Definition reads {A} (m : M Reader E A) (v : A) (a : list byte) : Prop :=
  forall pre rest, len (pre ++ a ++ rest) <= U64_MAX ->
  m (mkReader (pre ++ a ++ rest) (len pre)) =
    Ret (Ok v, mkReader (pre ++ a ++ rest) (len (pre ++ a))).

(** [m] never panics, and when it returns [v] the bytes it moved over
    satisfy [P v]. *)
Definition consumes {A} (m : M Reader E A) (P : A -> list byte -> Prop) : Prop :=
  forall pre rest, len (pre ++ rest) <= U64_MAX ->
  wp m (mkReader (pre ++ rest) (len pre)) (fun r s' =>
    match r with
    | Ok v => exists a rest', rest = a ++ rest' /\
              s' = mkReader (pre ++ rest) (len (pre ++ a)) /\ P v a
    | Err _ => True
    end).

Lemma reads_ret {A} (v : A) : reads (ret v) v [].
Proof. intros pre rest _. by rewrite app_nil_r. Qed.

Lemma reads_bind {A B} (m : M Reader E A) (f : A -> M Reader E B) v w a b :
  reads m v a -> reads (f v) w b -> reads (bind m f) w (a ++ b).
Proof.
  intros Hm Hf pre rest Hlen. unfold bind. rewrite <-app_assoc.
  rewrite (Hm pre (b ++ rest)) by (by rewrite app_assoc in Hlen |- *; rewrite <-!app_assoc in *).
  specialize (Hf (pre ++ a) rest). rewrite <-!app_assoc in *. by apply Hf.
Qed.

Lemma reads_app_nil {A} (m : M Reader E A) v a : reads m v (a ++ []) -> reads m v a.
Proof. by rewrite app_nil_r. Qed.

Lemma reads_take short n a : len a = n -> reads (Reader.take short n) a a.
Proof.
  intros <- pre rest Hlen. unfold Reader.take, bind, get. cbn [rd_offset rd_bytes].
  rewrite !len_app in Hlen. unfold checked_add.
  replace (len pre + len a <=? U64_MAX) with true by (symmetry; apply N.leb_le; lia).
  cbn. rewrite slice_get_app. cbn. by rewrite len_app.
Qed.

Lemma reads_u16 short v : u16 v -> reads (Reader.u16 short) v (to_be_bytes 2 v).
Proof.
  intros Hv. apply reads_app_nil. eapply reads_bind; [by apply reads_take|].
  rewrite from_to_be_bytes; [apply reads_ret|]. unfold Prelude.u16, U16_MAX in Hv. simpl. lia.
Qed.

Lemma reads_u64 short v : u64 v -> reads (Reader.u64 short) v (to_be_bytes 8 v).
Proof.
  intros Hv. apply reads_app_nil. eapply reads_bind; [by apply reads_take|].
  rewrite from_to_be_bytes; [apply reads_ret|]. unfold Prelude.u64, U64_MAX in Hv. simpl. lia.
Qed.

Lemma reads_lift_result {A F} (f : F -> E) (r : result A F) v :
  r = Ok v -> reads (lift_result f r) v [].
Proof. intros ->. apply reads_ret. Qed.

(** Reading everything that is left. *)
Lemma remaining_eq pre rest :
  Reader.remaining (E := E) (mkReader (pre ++ rest) (len pre)) =
    Ret (Ok rest, mkReader (pre ++ rest) (len pre)).
Proof. unfold Reader.remaining, bind, get. cbn. by rewrite slice_from_app. Qed.

Lemma take_remaining_eq pre rest :
  Reader.take_remaining (E := E) (mkReader (pre ++ rest) (len pre)) =
    Ret (Ok rest, mkReader (pre ++ rest) (len (pre ++ rest))).
Proof. unfold Reader.take_remaining, bind. by rewrite remaining_eq. Qed.

Lemma consumes_ret {A} (v : A) (P : A -> list byte -> Prop) : P v [] -> consumes (ret v) P.
Proof. intros HP pre rest _. exists [], rest. by rewrite app_nil_r. Qed.

Lemma consumes_throw {A} (e : E) (P : A -> list byte -> Prop) : consumes (throw e) P.
Proof. by intros pre rest _. Qed.

Lemma consumes_bind {A B} (m : M Reader E A) (f : A -> M Reader E B) P Q :
  consumes m P ->
  (forall v a, P v a -> consumes (f v) (fun w b => Q w (a ++ b))) ->
  consumes (bind m f) Q.
Proof.
  intros Hm Hf pre rest Hlen. apply wp_bind. eapply wp_mono; [by apply Hm|].
  intros [v|e] s'; [|done]. intros (a & rest' & -> & -> & HP).
  rewrite app_assoc in Hlen |- *.
  eapply wp_mono; [by apply (Hf v a HP (pre ++ a) rest')|].
  intros [w|e] s''; [|done]. intros (b & rest'' & -> & -> & HQ).
  exists (a ++ b), rest''. by rewrite <-!app_assoc.
Qed.

Lemma consumes_mono {A} (m : M Reader E A) (P Q : A -> list byte -> Prop) :
  consumes m P -> (forall v a, P v a -> Q v a) -> consumes m Q.
Proof.
  intros Hm HPQ pre rest Hlen. eapply wp_mono; [by apply Hm|].
  intros [v|e] s'; [|done]. naive_solver.
Qed.

Lemma consumes_take short n :
  consumes (Reader.take short n) (fun v a => v = a /\ len a = n).
Proof.
  intros pre rest Hlen. unfold Reader.take, wp, bind, get. cbn [rd_offset rd_bytes].
  destruct (checked_add _ _ _) as [e|] eqn:He; [|done].
  apply checked_add_Some in He as [-> He]. cbn.
  destruct (slice_get _ _ _) as [s|] eqn:Hs; [|done]. cbn.
  apply slice_get_Some in Hs as (Hn & rest' & ->).
  exists s, rest'. by rewrite len_app, Hn.
Qed.

Lemma consumes_u16 short :
  consumes (Reader.u16 short) (fun v a => u16 v /\ a = to_be_bytes 2 v).
Proof.
  eapply consumes_bind; [apply consumes_take|]. intros v a [-> Hl]. apply consumes_ret.
  rewrite app_nil_r. pose proof (from_be_bytes_bound a) as Hb. rewrite Hl in Hb.
  split; [unfold Prelude.u16, U16_MAX; change (256 ^ 2) with 65536 in Hb; lia|].
  rewrite <-(to_from_be_bytes a) at 1. f_equal. unfold len in Hl. lia.
Qed.

Lemma consumes_u64 short :
  consumes (Reader.u64 short) (fun v a => u64 v /\ a = to_be_bytes 8 v).
Proof.
  eapply consumes_bind; [apply consumes_take|]. intros v a [-> Hl]. apply consumes_ret.
  rewrite app_nil_r. pose proof (from_be_bytes_bound a) as Hb. rewrite Hl in Hb.
  split; [unfold Prelude.u64, U64_MAX; change (256 ^ 8) with 18446744073709551616 in Hb; lia|].
  rewrite <-(to_from_be_bytes a) at 1. f_equal. unfold len in Hl. lia.
Qed.

Lemma consumes_lift_result {A F} (f : F -> E) (r : result A F) (P : A -> list byte -> Prop) :
  (forall v, r = Ok v -> P v []) -> consumes (lift_result f r) P.
Proof. destruct r; intros HP; [by apply consumes_ret, HP|apply consumes_throw]. Qed.

Lemma consumes_remaining : consumes Reader.remaining (fun _ a => a = []).
Proof.
  intros pre rest Hlen. unfold wp. rewrite remaining_eq. exists [], rest.
  by rewrite app_nil_r.
Qed.

Lemma consumes_take_remaining : consumes Reader.take_remaining (fun v a => v = a).
Proof.
  intros pre rest Hlen. unfold wp. rewrite take_remaining_eq. exists rest, [].
  by rewrite app_nil_r.
Qed.
End readers.

(** A reader that may take everything that is left: like [reads], at the end
    of the buffer. *)
Definition finishes {E A} (m : M Reader E A) (v : A) (a : list byte) : Prop :=
  forall pre, len (pre ++ a) <= U64_MAX ->
  m (mkReader (pre ++ a) (len pre)) = Ret (Ok v, mkReader (pre ++ a) (len (pre ++ a))).

Lemma reads_finishes {E A} (m : M Reader E A) v a : reads m v a -> finishes m v a.
Proof. intros Hm pre Hlen. specialize (Hm pre []). rewrite !app_nil_r in Hm. auto. Qed.

Lemma finishes_bind {E A B} (m : M Reader E A) (f : A -> M Reader E B) v w a b :
  reads m v a -> finishes (f v) w b -> finishes (bind m f) w (a ++ b).
Proof.
  intros Hm Hf pre Hlen. unfold bind. rewrite (Hm pre b Hlen).
  rewrite app_assoc in *. by apply Hf.
Qed.

Lemma finishes_take_remaining {E A} (f : list byte -> M Reader E A) w a :
  f a = ret w -> finishes (bind Reader.take_remaining f) w a.
Proof. intros Hf pre Hlen. unfold bind. by rewrite take_remaining_eq, Hf. Qed.

(** Readers whose last step looks at everything that is left: [yields] says
    what they return in front of [a], [accepts] what any result satisfies. *)
Definition yields {E A} (m : M Reader E A) (v : A) (a : list byte) : Prop :=
  forall pre, len (pre ++ a) <= U64_MAX ->
  exists s', m (mkReader (pre ++ a) (len pre)) = Ret (Ok v, s').

Definition accepts {E A} (m : M Reader E A) (P : A -> list byte -> Prop) : Prop :=
  forall pre rest, len (pre ++ rest) <= U64_MAX ->
  wp m (mkReader (pre ++ rest) (len pre)) (fun r _ =>
    match r with Ok v => P v rest | Err _ => True end).

Lemma yields_bind {E A B} (m : M Reader E A) (f : A -> M Reader E B) v w a b :
  reads m v a -> yields (f v) w b -> yields (bind m f) w (a ++ b).
Proof.
  intros Hm Hf pre Hlen. unfold bind. rewrite (Hm pre b Hlen).
  rewrite app_assoc in *. by apply Hf.
Qed.

Lemma yields_bind_nil {E A B} (m : M Reader E A) (f : A -> M Reader E B) v w b :
  reads m v [] -> yields (f v) w b -> yields (bind m f) w b.
Proof. intros Hm Hf. rewrite <-(app_nil_l b). by eapply yields_bind. Qed.

Lemma yields_remaining {E A} (f : list byte -> M Reader E A) w a :
  f a = ret w -> yields (bind Reader.remaining f) w a.
Proof. intros Hf pre Hlen. unfold bind. rewrite remaining_eq, Hf. by eexists. Qed.

Lemma accepts_bind {E A B} (m : M Reader E A) (f : A -> M Reader E B) P Q :
  consumes m P -> (forall v a, P v a -> accepts (f v) (fun w b => Q w (a ++ b))) ->
  accepts (bind m f) Q.
Proof.
  intros Hm Hf pre rest Hlen. apply wp_bind. eapply wp_mono; [by apply Hm|].
  intros [v|e] s'; [|done]. intros (a & rest' & -> & -> & HP).
  rewrite app_assoc in Hlen |- *. by apply (Hf v a HP (pre ++ a) rest').
Qed.

Lemma accepts_remaining {E A} (f : list byte -> M Reader E A) P :
  (forall rest s, wp (f rest) s (fun r _ => match r with Ok v => P v rest | Err _ => True end)) ->
  accepts (bind Reader.remaining f) P.
Proof.
  intros Hf pre rest Hlen. unfold wp, bind. rewrite remaining_eq. apply Hf.
Qed.

Create HintDb reads.
#[export] Hint Resolve reads_ret reads_take reads_u16 reads_u64 reads_lift_result : reads.
Create HintDb consumes.
#[export] Hint Resolve consumes_take consumes_u16 consumes_u64 consumes_take_remaining : consumes.

(** Splits a sequence of binds, reading each field with the hint database. *)
Ltac reads_steps :=
  repeat first
    [ apply reads_ret
    | eapply reads_bind; [solve [eauto with reads]|]
    | eapply finishes_bind; [solve [eauto with reads]|]
    | eapply yields_bind; [solve [eauto with reads]|] ].
(** Walks a sequence of binds, collecting what each field guarantees. *)
Ltac consumes_steps :=
  repeat first
    [ apply consumes_throw
    | eapply consumes_bind; [solve [eauto with consumes]|];
        intros ? ? ?; cbv beta in *; destruct_and?
    | eapply accepts_bind; [solve [eauto with consumes]|];
        intros ? ? ?; cbv beta in *; destruct_and? ].
