(* ===== verification/Frame.v ===== *)
(** The v0 frame codec of [velum-protocol] ([frame.rs]): the frame type, the
    bounded canonical encoding, the exact decoder and the incremental
    decoder. *)
From S2P Require Import Prelude Protocol Reader.

Definition FRAME_HEADER_BYTES : N := 4.
Definition MAX_FRAME_PAYLOAD : N := U16_MAX.

Definition NEGOTIATION_OFFER : byte := x01.
Definition NEGOTIATION_ACCEPT : byte := x02.
Definition ATTACH : byte := x03.
Definition ATTACH_ACCEPTED : byte := x04.
Definition STREAM_OPEN : byte := x10.
Definition STREAM_DATA : byte := x11.
Definition STREAM_ACK : byte := x12.
Definition STREAM_FINISH : byte := x13.
Definition STREAM_RESET : byte := x14.
Definition CONNECTION_CLOSE : byte := x20.
Definition OPTIONAL_FRAME_BIT : N := 128.

Inductive Frame :=
| FNegotiationOffer (offer : NegotiationOffer)
| FNegotiationAccept (parameters : NegotiatedParameters)
| FAttach (session_id : SessionId) (epoch : Epoch) (attachment_id : AttachmentId)
    (parameters : NegotiatedParameters) (proof : list byte)
| FAttachAccepted (session_id : SessionId) (epoch : Epoch) (attachment_id : AttachmentId)
| FStreamOpen (flow_id : FlowId)
| FStreamData (flow_id : FlowId) (epoch : Epoch) (sequence : Sequence) (bytes : list byte)
| FStreamAcknowledgement (flow_id : FlowId) (epoch : Epoch) (through : Sequence)
| FStreamFinish (flow_id : FlowId) (epoch : Epoch) (final_next_sequence : Sequence)
| FStreamReset (flow_id : FlowId) (error : ProtocolErrorCode)
| FConnectionClose (error : ProtocolErrorCode)
| FUnknownOptional (frame_type : byte) (payload : list byte).

#[export] Instance Frame_eq_dec : EqDecision Frame.
Proof. solve_decision. Defined.

Inductive FrameEncodeError :=
| EncodePayloadTooLarge (maximum actual : N)
| EncodeEmptyStreamData
| InvalidOptionalFrameType (frame_type : byte).

Inductive FrameDecodeError :=
| TruncatedHeader
| LengthMismatch (advertised actual : N)
| DecodePayloadTooLarge (maximum actual : N)
| UnknownMandatoryFrame (frame_type : byte)
| DecodeEmptyStreamData
| InvalidPayload.

Definition is_optional (frame_type : byte) : bool :=
  negb (N.land (Byte.to_N frame_type) OPTIONAL_FRAME_BIT =? 0).

#[global] Arguments is_optional : simpl never.

(** ** Encoding *)
Definition push_version_range (bytes : list byte) (range : VersionRange) : list byte :=
  (bytes ++ to_be_bytes 2 (minimum range)) ++ to_be_bytes 2 (maximum range).
Definition push_capabilities (bytes : list byte) (capabilities : Capabilities) : list byte :=
  bytes ++ to_be_bytes 8 capabilities.
Definition push_u64 (bytes : list byte) (value : N) : list byte :=
  bytes ++ to_be_bytes 8 value.
Definition push_flow_id (bytes : list byte) (flow_id : FlowId) : list byte :=
  push_u64 bytes flow_id.
Definition push_epoch (bytes : list byte) (epoch : Epoch) : list byte :=
  push_u64 bytes epoch.
Definition push_sequence (bytes : list byte) (sequence : Sequence) : list byte :=
  push_u64 bytes sequence.
Definition push_error (bytes : list byte) (error : ProtocolErrorCode) : list byte :=
  bytes ++ to_be_bytes 2 (ProtocolErrorCode.as_u16 error).

Definition encode_payload (self : Frame) : result (byte * list byte) FrameEncodeError :=
  let payload := [] in
  match self with
  | FNegotiationOffer offer =>
    let payload := push_version_range payload (versions offer) in
    let payload := push_capabilities payload (required (capabilities offer)) in
    let payload := push_capabilities payload (optional (capabilities offer)) in
    let payload := payload ++ HandshakeNonce.bytes (client_nonce offer) in
    Ok (NEGOTIATION_OFFER, payload)
  | FNegotiationAccept parameters =>
    let payload := payload ++ NegotiatedParameters.canonical_bytes parameters in
    Ok (NEGOTIATION_ACCEPT, payload)
  | FAttach session_id epoch attachment_id parameters proof =>
    let payload := payload ++ session_id in
    let payload := push_epoch payload epoch in
    let payload := payload ++ AttachmentId.bytes attachment_id in
    let payload := payload ++ NegotiatedParameters.canonical_bytes parameters in
    let payload := payload ++ proof in
    Ok (ATTACH, payload)
  | FAttachAccepted session_id epoch attachment_id =>
    let payload := payload ++ session_id in
    let payload := push_epoch payload epoch in
    let payload := payload ++ AttachmentId.bytes attachment_id in
    Ok (ATTACH_ACCEPTED, payload)
  | FStreamOpen flow_id => Ok (STREAM_OPEN, push_flow_id payload flow_id)
  | FStreamData flow_id epoch sequence bytes =>
    if is_empty bytes then Err EncodeEmptyStreamData
    else
      let payload := push_flow_id payload flow_id in
      let payload := push_epoch payload epoch in
      let payload := push_sequence payload sequence in
      let payload := payload ++ bytes in
      Ok (STREAM_DATA, payload)
  | FStreamAcknowledgement flow_id epoch through =>
    let payload := push_flow_id payload flow_id in
    let payload := push_epoch payload epoch in
    let payload := push_sequence payload through in
    Ok (STREAM_ACK, payload)
  | FStreamFinish flow_id epoch final_next_sequence =>
    let payload := push_flow_id payload flow_id in
    let payload := push_epoch payload epoch in
    let payload := push_sequence payload final_next_sequence in
    Ok (STREAM_FINISH, payload)
  | FStreamReset flow_id error =>
    let payload := push_flow_id payload flow_id in
    let payload := push_error payload error in
    Ok (STREAM_RESET, payload)
  | FConnectionClose error => Ok (CONNECTION_CLOSE, push_error payload error)
  | FUnknownOptional frame_type unknown_payload =>
    if negb (is_optional frame_type) then Err (InvalidOptionalFrameType frame_type)
    else Ok (frame_type, payload ++ unknown_payload)
  end.

Definition encode (self : Frame) : result (list byte) FrameEncodeError :=
  match encode_payload self with
  | Err e => Err e
  | Ok (frame_type, payload) =>
    if MAX_FRAME_PAYLOAD <? len payload
    then Err (EncodePayloadTooLarge MAX_FRAME_PAYLOAD (len payload))
    else
      match u16_try_from (len payload) with
      | None => Err (EncodePayloadTooLarge MAX_FRAME_PAYLOAD (len payload))
      | Some payload_length =>
        Ok ([frame_type] ++ [x00] ++ to_be_bytes 2 payload_length ++ payload)
      end
  end.

(** ** Decoding *)
Definition reader_array (n : N) : M Reader FrameDecodeError (list byte) :=
  Reader.take InvalidPayload n.
Definition reader_u16 : M Reader FrameDecodeError N := Reader.u16 InvalidPayload.
Definition reader_u64 : M Reader FrameDecodeError N := Reader.u64 InvalidPayload.

Definition reader_version_range : M Reader FrameDecodeError VersionRange :=
  let! minimum := reader_u16 in
  let! maximum := reader_u16 in
  lift_result (fun _ => InvalidPayload) (VersionRange.new minimum maximum).

Definition reader_capabilities : M Reader FrameDecodeError Capabilities := reader_u64.

Definition reader_nonce : M Reader FrameDecodeError HandshakeNonce :=
  let! bytes := reader_array 16 in
  lift_result (fun _ => InvalidPayload) (HandshakeNonce.new bytes).

Definition reader_attachment_id : M Reader FrameDecodeError AttachmentId :=
  let! bytes := reader_array 16 in
  lift_result (fun _ => InvalidPayload) (AttachmentId.new bytes).

Definition reader_parameters : M Reader FrameDecodeError NegotiatedParameters :=
  let! version := reader_u16 in
  let! capabilities := reader_capabilities in
  let! client_nonce := reader_nonce in
  let! server_nonce := reader_nonce in
  ret {| np_version := version; np_capabilities := capabilities;
         np_client_nonce := client_nonce; np_server_nonce := server_nonce |}.

Definition reader_error : M Reader FrameDecodeError ProtocolErrorCode :=
  let! value := reader_u16 in ret (ProtocolErrorCode.from_u16 value).

Definition decode_frame (frame_type : byte) : M Reader FrameDecodeError Frame :=
  if Byte.eqb frame_type NEGOTIATION_OFFER then
    let! versions := reader_version_range in
    let! required := reader_capabilities in
    let! optional := reader_capabilities in
    let! client_nonce := reader_nonce in
    let! capabilities :=
      lift_result (fun _ => InvalidPayload) (CapabilityAdvertisement.new required optional) in
    let! offer :=
      lift_result (fun _ => InvalidPayload)
        (NegotiationOffer.new versions capabilities client_nonce) in
    ret (FNegotiationOffer offer)
  else if Byte.eqb frame_type NEGOTIATION_ACCEPT then
    let! parameters := reader_parameters in
    ret (FNegotiationAccept parameters)
  else if Byte.eqb frame_type ATTACH then
    let! session_id := reader_array 16 in
    let! epoch := reader_u64 in
    let! attachment_id := reader_attachment_id in
    let! parameters := reader_parameters in
    let! proof := reader_array 32 in
    ret (FAttach session_id epoch attachment_id parameters proof)
  else if Byte.eqb frame_type ATTACH_ACCEPTED then
    let! session_id := reader_array 16 in
    let! epoch := reader_u64 in
    let! attachment_id := reader_attachment_id in
    ret (FAttachAccepted session_id epoch attachment_id)
  else if Byte.eqb frame_type STREAM_OPEN then
    let! flow_id := reader_u64 in
    ret (FStreamOpen flow_id)
  else if Byte.eqb frame_type STREAM_DATA then
    let! flow_id := reader_u64 in
    let! epoch := reader_u64 in
    let! sequence := reader_u64 in
    let! bytes := Reader.take_remaining in
    if is_empty bytes then throw DecodeEmptyStreamData
    else ret (FStreamData flow_id epoch sequence bytes)
  else if Byte.eqb frame_type STREAM_ACK then
    let! flow_id := reader_u64 in
    let! epoch := reader_u64 in
    let! through := reader_u64 in
    ret (FStreamAcknowledgement flow_id epoch through)
  else if Byte.eqb frame_type STREAM_FINISH then
    let! flow_id := reader_u64 in
    let! epoch := reader_u64 in
    let! final_next_sequence := reader_u64 in
    ret (FStreamFinish flow_id epoch final_next_sequence)
  else if Byte.eqb frame_type STREAM_RESET then
    let! flow_id := reader_u64 in
    let! error := reader_error in
    ret (FStreamReset flow_id error)
  else if Byte.eqb frame_type CONNECTION_CLOSE then
    let! error := reader_error in
    ret (FConnectionClose error)
  else if is_optional frame_type then
    let! payload := Reader.take_remaining in
    ret (FUnknownOptional frame_type payload)
  else throw (UnknownMandatoryFrame frame_type).

Definition decode_payload (frame_type : byte) (payload : list byte)
  : outcome (result Frame FrameDecodeError) :=
  eval (let! frame := decode_frame frame_type in
        let! rest := Reader.remaining in
        if is_empty rest then ret frame else throw InvalidPayload)
       (Reader.new payload).

Definition decode_exact (bytes : list byte) (maximum_payload : N)
  : outcome (result Frame FrameDecodeError) :=
  match bytes with
  | frame_type :: flags :: length_high :: length_low :: payload =>
    let advertised := from_be_bytes [length_high; length_low] in
    if maximum_payload <? advertised
    then Ret (Err (DecodePayloadTooLarge maximum_payload advertised))
    else
      let actual := len payload in
      if negb (actual =? advertised) then Ret (Err (LengthMismatch advertised actual))
      else if negb (Byte.eqb flags x00) then Ret (Err InvalidPayload)
      else decode_payload frame_type payload
  | _ => Ret (Err TruncatedHeader)
  end.

(** ** Incremental decoding *)
Record FrameDecoder := { maximum_payload : N; buffered : list byte }.

Definition set_buffered (f : list byte -> list byte) (self : FrameDecoder) : FrameDecoder :=
  {| maximum_payload := maximum_payload self; buffered := f (buffered self) |}.

Module FrameDecoder.
Definition new (maximum_payload : N) : result FrameDecoder FrameDecodeError :=
  if MAX_FRAME_PAYLOAD <? maximum_payload
  then Err (DecodePayloadTooLarge MAX_FRAME_PAYLOAD maximum_payload)
  else Ok {| maximum_payload := maximum_payload; buffered := [] |}.

(** The [loop] of [push]: extracts frames until the buffer holds no
    complete one.  Every turn drains at least a header, so the buffer's
    length is enough fuel. *)
Fixpoint drain (fuel : nat) : M FrameDecoder FrameDecodeError (list Frame) :=
  match fuel with
  | O => out_of_fuel
  | S fuel =>
    let! self := get in
    match buffered self with
    | _ :: _ :: length_high :: length_low :: _ =>
      let advertised := from_be_bytes [length_high; length_low] in
      if maximum_payload self <? advertised then
        modify (set_buffered (fun _ => [])) ;!
        throw (DecodePayloadTooLarge (maximum_payload self) advertised)
      else
        let total := FRAME_HEADER_BYTES + advertised in
        if len (buffered self) <? total then ret []
        else
          let! frame :=
            run_outcome (decode_exact (prefix_to total (buffered self)) (maximum_payload self)) in
          modify (set_buffered (suffix_from total)) ;!
          let! frames := drain fuel in
          ret (frame :: frames)
    | _ => ret []
    end
  end.

Definition push_byte (byte : byte) : M FrameDecoder FrameDecodeError (list Frame) :=
  modify (set_buffered (fun buffered => buffered ++ [byte])) ;!
  let! self := get in
  drain (S (length (buffered self))).

Fixpoint push (bytes : list byte) : M FrameDecoder FrameDecodeError (list Frame) :=
  match bytes with
  | [] => ret []
  | byte :: bytes =>
    let! frames := push_byte byte in
    let! more := push bytes in
    ret (frames ++ more)
  end.

Definition buffered_len (self : FrameDecoder) : N := len (buffered self).
End FrameDecoder.

(** ** Well-formed frames

    The type invariant of the Rust types: field widths, array lengths, the
    validated wrappers, and error codes that the table can produce. *)
Definition wf_frame (f : Frame) : Prop :=
  match f with
  | FNegotiationOffer o => NegotiationOffer.wf o
  | FNegotiationAccept p => NegotiatedParameters.wf p
  | FAttach s e i p proof =>
    len s = 16 /\ u64 e /\ AttachmentId.wf i /\ NegotiatedParameters.wf p /\ len proof = 32
  | FAttachAccepted s e i => len s = 16 /\ u64 e /\ AttachmentId.wf i
  | FStreamOpen i => u64 i
  | FStreamData i e s _ => u64 i /\ u64 e /\ u64 s
  | FStreamAcknowledgement i e s => u64 i /\ u64 e /\ u64 s
  | FStreamFinish i e s => u64 i /\ u64 e /\ u64 s
  | FStreamReset i c => u64 i /\ ProtocolErrorCode.canonical c
  | FConnectionClose c => ProtocolErrorCode.canonical c
  | FUnknownOptional _ _ => True
  end.

(** ** Reading what was encoded *)
Lemma reads_version_range r :
  VersionRange.wf r -> VersionRange.is_valid r = true ->
  reads reader_version_range r (to_be_bytes 2 (minimum r) ++ to_be_bytes 2 (maximum r)).
Proof.
  intros [Hmin Hmax] Hv. rewrite <-(app_nil_r (to_be_bytes 2 (maximum r))).
  unfold reader_version_range, reader_u16. reads_steps.
  apply reads_lift_result. unfold VersionRange.new.
  apply VersionRange_is_valid_spec, N.ltb_ge in Hv. rewrite Hv. by destruct r.
Qed.

Lemma reads_capabilities c : u64 c -> reads reader_capabilities c (to_be_bytes 8 c).
Proof. apply reads_u64. Qed.

Lemma reads_nonce n : HandshakeNonce.wf n -> reads reader_nonce n (nonce_bytes n).
Proof.
  intros [Hl Hz]. apply reads_app_nil. unfold reader_nonce, reader_array. reads_steps.
  apply reads_lift_result. unfold HandshakeNonce.new. rewrite Hz. by destruct n.
Qed.

Lemma reads_attachment_id i :
  AttachmentId.wf i -> reads reader_attachment_id i (attachment_bytes i).
Proof.
  intros [Hl Hz]. apply reads_app_nil. unfold reader_attachment_id, reader_array. reads_steps.
  apply reads_lift_result. unfold AttachmentId.new. rewrite Hz. by destruct i.
Qed.

#[export] Hint Resolve reads_version_range reads_capabilities reads_nonce reads_attachment_id
  : reads.

Lemma reads_parameters p :
  NegotiatedParameters.wf p ->
  reads reader_parameters p (NegotiatedParameters.canonical_bytes p).
Proof.
  intros (Hv & Hc & Hn & Hs). unfold NegotiatedParameters.canonical_bytes, HandshakeNonce.bytes.
  rewrite <-(app_nil_r (nonce_bytes (np_server_nonce p))).
  unfold reader_parameters, reader_u16. reads_steps. destruct p. apply reads_ret.
Qed.

Lemma reads_error c :
  ProtocolErrorCode.canonical c ->
  reads reader_error c (to_be_bytes 2 (ProtocolErrorCode.as_u16 c)).
Proof.
  intros [Hc Hf]. apply reads_app_nil. unfold reader_error, reader_u16. reads_steps.
  rewrite Hf. apply reads_ret.
Qed.

#[export] Hint Resolve reads_parameters reads_error : reads.

Lemma NegotiationOffer_new_inv v c n o :
  NegotiationOffer.new v c n = Ok o ->
  VersionRange.is_valid v = true /\
  Capabilities.intersects (required c) (optional c) = false /\
  o = {| versions := v; capabilities := c; client_nonce := n |}.
Proof.
  unfold NegotiationOffer.new. destruct (VersionRange.is_valid v); [|done].
  destruct (Capabilities.intersects _ _); [done|]. simpl. case_match; naive_solver.
Qed.

(** Decides the frame-type tests of [decode_frame] at a concrete type. *)
Ltac eval_frame_type :=
  unfold decode_frame;
  repeat match goal with
    | |- context [Byte.eqb ?a ?b] =>
      let v := eval vm_compute in (Byte.eqb a b) in change (Byte.eqb a b) with v
    end;
  cbv match.

Lemma optional_eqb_known t k :
  is_optional t = true -> is_optional k = false -> Byte.eqb t k = false.
Proof.
  intros Ht Hk. apply not_true_is_false. intros ->%Byte.byte_dec_bl. congruence.
Qed.

Lemma decode_frame_optional t :
  is_optional t = true ->
  decode_frame t = (let! payload := Reader.take_remaining in ret (FUnknownOptional t payload)).
Proof.
  intros Ht. unfold decode_frame. by rewrite !(optional_eqb_known t), Ht by done.
Qed.

Lemma Ok_pair_inj {A B E} (a c : A) (b d : B) :
  @Ok (A * B) E (a, b) = Ok (c, d) -> a = c /\ b = d.
Proof. by intros [= -> ->]. Qed.

Lemma decode_frame_finishes f t p :
  wf_frame f -> encode_payload f = Ok (t, p) -> finishes (decode_frame t) f p.
Proof.
  intros Hwf Henc.
  destruct f; simpl in Hwf; unfold encode_payload in Henc; cbv beta iota zeta in Henc;
    repeat match type of Henc with context [if ?b then _ else _] => destruct b eqn:? end;
    try discriminate Henc; apply Ok_pair_inj in Henc as [<- <-]; destruct_and?;
    unfold push_version_range, push_capabilities, push_sequence, push_epoch, push_flow_id,
      push_error, push_u64, HandshakeNonce.bytes, AttachmentId.bytes;
    rewrite <-?app_assoc, ?app_nil_l;
    try (by rewrite decode_frame_optional by (by apply negb_false_iff);
            apply finishes_take_remaining);
    eval_frame_type; unfold reader_array, reader_u64;
    try (apply reads_finishes, reads_app_nil; rewrite <-?app_assoc; by reads_steps).
  - destruct Hwf as (Hv & [Hr Ho] & Hn & Hnew).
    apply NegotiationOffer_new_inv in Hnew as Hinv. destruct Hinv as (Hvalid & Hdisj & _).
    apply reads_finishes, reads_app_nil. rewrite <-!app_assoc.
    rewrite (app_assoc (to_be_bytes 2 _)). reads_steps.
    eapply (reads_bind _ _ _ _ [] []); [apply reads_lift_result|].
    + unfold CapabilityAdvertisement.new. by rewrite Hdisj.
    + eapply (reads_bind _ _ _ _ [] []); [|apply reads_ret].
      apply reads_lift_result. by destruct offer as [? [] ?].
  - reads_steps. apply finishes_take_remaining. by rewrite Heqb.
Qed.

Lemma decode_payload_encoded f t p :
  len p <= U64_MAX -> wf_frame f -> encode_payload f = Ok (t, p) ->
  decode_payload t p = Ret (Ok f).
Proof.
  intros Hlen Hwf Henc. unfold decode_payload. eapply eval_Ok.
  pose proof (decode_frame_finishes f t p Hwf Henc [] Hlen) as Hd.
  rewrite app_nil_l, len_nil in Hd.
  unfold bind at 1, Reader.new. rewrite Hd. unfold bind.
  pose proof (remaining_eq (E := FrameDecodeError) p []) as Hr.
  rewrite app_nil_r in Hr. by rewrite Hr.
Qed.

(** ** What the decoder accepts *)
Lemma consumes_version_range :
  consumes reader_version_range (fun r a =>
    VersionRange.wf r /\ VersionRange.is_valid r = true /\
    a = to_be_bytes 2 (minimum r) ++ to_be_bytes 2 (maximum r)).
Proof.
  unfold reader_version_range, reader_u16. consumes_steps. subst.
  apply consumes_lift_result. unfold VersionRange.new. intros r Hr.
  case_match eqn:E; simplify_eq. rewrite app_nil_r.
  split_and!; try done. by apply VersionRange_is_valid_spec, N.ltb_ge.
Qed.

Lemma consumes_capabilities :
  consumes reader_capabilities (fun c a => u64 c /\ a = to_be_bytes 8 c).
Proof. apply consumes_u64. Qed.

Lemma consumes_nonce :
  consumes reader_nonce (fun n a => HandshakeNonce.wf n /\ a = nonce_bytes n).
Proof.
  unfold reader_nonce, reader_array. consumes_steps. subst.
  apply consumes_lift_result. unfold HandshakeNonce.new. intros n Hn.
  case_match eqn:E; simplify_eq. by rewrite app_nil_r.
Qed.

Lemma consumes_attachment_id :
  consumes reader_attachment_id (fun i a => AttachmentId.wf i /\ a = attachment_bytes i).
Proof.
  unfold reader_attachment_id, reader_array. consumes_steps. subst.
  apply consumes_lift_result. unfold AttachmentId.new. intros n Hn.
  case_match eqn:E; simplify_eq. by rewrite app_nil_r.
Qed.

#[export] Hint Resolve consumes_version_range consumes_capabilities consumes_nonce
  consumes_attachment_id : consumes.

Lemma consumes_parameters :
  consumes reader_parameters (fun p a =>
    NegotiatedParameters.wf p /\ a = NegotiatedParameters.canonical_bytes p).
Proof.
  unfold reader_parameters, reader_u16. consumes_steps. subst.
  apply consumes_ret. by rewrite app_nil_r.
Qed.

Lemma consumes_error :
  consumes reader_error (fun c a =>
    ProtocolErrorCode.canonical c /\ a = to_be_bytes 2 (ProtocolErrorCode.as_u16 c)).
Proof.
  unfold reader_error, reader_u16. consumes_steps. subst. apply consumes_ret.
  rewrite app_nil_r. unfold ProtocolErrorCode.canonical. by rewrite !as_u16_from_u16.
Qed.

#[export] Hint Resolve consumes_parameters consumes_error : consumes.

(** Whatever [decode_frame] accepts is well formed and re-encodes to the
    bytes it was read from. *)
Lemma decode_frame_consumes t :
  consumes (decode_frame t) (fun f a => wf_frame f /\ encode_payload f = Ok (t, a)).
Proof.
  unfold decode_frame, reader_array, reader_u64.
  repeat case_match;
    repeat match goal with H : Byte.eqb _ _ = true |- _ =>
      apply Byte.byte_dec_bl in H; subst end;
    consumes_steps; subst;
    try (apply consumes_ret; unfold encode_payload, push_epoch, push_u64;
         rewrite ?app_nil_l, ?app_nil_r, <-?app_assoc; done).
  - eapply consumes_bind with (P := fun c a => a = [] /\ CapabilityAdvertisement.new v0 v1 = Ok c).
    { by apply consumes_lift_result. }
    intros c a' [-> Hc]. unfold CapabilityAdvertisement.new in Hc. case_match; simplify_eq.
    eapply consumes_bind with (P := fun o a => a = [] /\ NegotiationOffer.new v _ v2 = Ok o).
    { by apply consumes_lift_result. }
    intros o a' [-> Hnew]. apply NegotiationOffer_new_inv in Hnew as Hinv.
    destruct Hinv as (_ & _ & ->). apply consumes_ret. rewrite !app_nil_l, app_nil_r.
    unfold encode_payload, push_version_range, push_capabilities. cbn [versions capabilities
      client_nonce required optional]. rewrite app_nil_l, <-!app_assoc. split; [|done].
    unfold wf_frame, NegotiationOffer.wf. by cbn [versions capabilities client_nonce].
  - case_match eqn:He; [apply consumes_throw|]. apply consumes_ret.
    unfold encode_payload. by rewrite He, app_nil_r.
  - apply consumes_ret. unfold encode_payload. rewrite app_nil_r.
    by match goal with H : is_optional t = true |- _ => rewrite H end.
Qed.

Lemma decode_payload_consumes t p :
  len p <= U64_MAX ->
  exists r, decode_payload t p = Ret r /\
    forall f, r = Ok f -> wf_frame f /\ encode_payload f = Ok (t, p).
Proof.
  intros Hlen. pose proof (decode_frame_consumes t [] p Hlen) as Hc.
  apply wp_run in Hc as (r & s' & Hrun & HQ). rewrite app_nil_l, len_nil in Hrun.
  unfold decode_payload, eval, Reader.new. unfold bind at 1. rewrite Hrun.
  destruct r as [f|e]; [|by eexists; split; [done|]].
  destruct HQ as (a & rest & -> & -> & Hf). rewrite !app_nil_l.
  unfold bind. rewrite remaining_eq. destruct rest as [|b rest]; eexists; (split; [done|]); [|done].
  intros f' [= <-]. by rewrite app_nil_r.
Qed.

Lemma encode_payload_len_bound f b : encode f = Ok b -> exists t p,
  encode_payload f = Ok (t, p) /\ len p <= MAX_FRAME_PAYLOAD /\
  b = t :: x00 :: to_be_bytes 2 (len p) ++ p.
Proof.
  unfold encode. destruct (encode_payload f) as [[t p]|e]; [|done].
  case_match eqn:Hl; [done|]. apply N.ltb_ge in Hl.
  unfold u16_try_from, MAX_FRAME_PAYLOAD in *. apply N.leb_le in Hl as Hl'. rewrite Hl'.
  intros [= <-]. eauto.
Qed.

Lemma decode_exact_header t hi lo p max :
  decode_exact (t :: x00 :: [hi; lo] ++ p) max =
    let advertised := from_be_bytes [hi; lo] in
    if max <? advertised then Ret (Err (DecodePayloadTooLarge max advertised))
    else if negb (len p =? advertised) then Ret (Err (LengthMismatch advertised (len p)))
    else decode_payload t p.
Proof. reflexivity. Qed.

(** Every input is answered, and an accepted frame re-encodes to it. *)
Lemma decode_exact_accepts bytes max :
  len bytes <= U64_MAX ->
  exists r, decode_exact bytes max = Ret r /\
    forall f, r = Ok f -> wf_frame f /\ encode f = Ok bytes.
Proof.
  intros Hlen. unfold decode_exact.
  destruct bytes as [|t [|flags [|hi [|lo p]]]]; try (by eexists).
  rewrite !len_cons in Hlen.
  case_match; [by eexists|]. case_match eqn:Hl; [by eexists|].
  case_match eqn:Hflags; [by eexists|].
  apply negb_false_iff in Hflags, Hl. apply Byte.byte_dec_bl in Hflags as ->.
  apply N.eqb_eq in Hl.
  destruct (decode_payload_consumes t p) as (r & -> & Hr); [lia|].
  exists r. split; [done|]. intros f Hf. destruct (Hr f Hf) as [Hwf Henc].
  split; [done|]. unfold encode. rewrite Henc.
  pose proof (from_be_bytes_bound [hi; lo]) as Hb. change (256 ^ len [hi; lo]) with 65536 in Hb.
  unfold MAX_FRAME_PAYLOAD, u16_try_from, U16_MAX.
  replace (65535 <? len p) with false by (symmetry; apply N.ltb_ge; lia).
  replace (len p <=? 65535) with true by (symmetry; apply N.leb_le; lia).
  pose proof (to_from_be_bytes [hi; lo]) as Hbe. change (length [hi; lo]) with 2%nat in Hbe.
  by rewrite Hl, Hbe.
Qed.

(** ** The incremental decoder *)
Definition advertised (b : list byte) : option N :=
  match b with
  | _ :: _ :: hi :: lo :: _ => Some (from_be_bytes [hi; lo])
  | _ => None
  end.

(** The buffer is a proper prefix of one frame of an accepted size. *)
Definition incomplete (max : N) (b : list byte) : Prop :=
  match advertised b with
  | Some n => n <= max /\ len b < FRAME_HEADER_BYTES + n
  | None => True
  end.

(** The buffer starts with a whole frame of an accepted size. *)
Definition complete (max : N) (b : list byte) (total : N) : Prop :=
  exists n, advertised b = Some n /\ n <= max /\ total = FRAME_HEADER_BYTES + n /\ total <= len b.

Lemma incomplete_len max b : incomplete max b -> len b <= FRAME_HEADER_BYTES + max.
Proof.
  unfold incomplete, FRAME_HEADER_BYTES.
  destruct b as [|? [|? [|? [|? ?]]]]; cbn [advertised];
    rewrite ?len_cons, ?len_nil; intros; lia.
Qed.

Lemma advertised_app b c n : advertised b = Some n -> advertised (b ++ c) = Some n.
Proof. by destruct b as [|? [|? [|? [|? ?]]]]. Qed.

Lemma advertised_None b : advertised b = None <-> len b < FRAME_HEADER_BYTES.
Proof.
  unfold FRAME_HEADER_BYTES.
  destruct b as [|? [|? [|? [|? ?]]]]; cbn [advertised]; rewrite ?len_cons, ?len_nil;
    split; intros; try done; lia.
Qed.

Lemma frame_roundtrip_aux f bytes max :
  wf_frame f -> encode f = Ok bytes -> len bytes <= FRAME_HEADER_BYTES + max ->
  decode_exact bytes max = Ret (Ok f) /\
  exists n, advertised bytes = Some n /\ n <= max /\ len bytes = FRAME_HEADER_BYTES + n.
Proof.
  intros Hwf Henc Hmax. apply encode_payload_len_bound in Henc as (t & p & Henc & Hl & ->).
  destruct (to_be_bytes_2 (len p)) as (hi & lo & Hb). rewrite Hb in *.
  unfold MAX_FRAME_PAYLOAD, FRAME_HEADER_BYTES, U16_MAX in *.
  rewrite !len_cons, len_app in *. change (len [hi; lo]) with 2 in *.
  assert (from_be_bytes [hi; lo] = len p) as Hbe.
  { rewrite <-Hb. apply from_to_be_bytes. simpl. lia. }
  rewrite decode_exact_header. cbv zeta. rewrite Hbe. split.
  - replace (max <? len p) with false by (symmetry; apply N.ltb_ge; lia).
    rewrite N.eqb_refl. simpl. apply decode_payload_encoded; [unfold U64_MAX; lia|done..].
  - exists (len p). cbn [app advertised]. rewrite Hbe. split_and!; [done|lia..].
Qed.

Section decoder.
Import FrameDecoder.

Lemma drain_incomplete k st :
  incomplete (maximum_payload st) (buffered st) -> drain (S k) st = Ret (Ok [], st).
Proof.
  unfold incomplete. intros Hi. cbn [drain]. unfold bind, get.
  destruct (buffered st) as [|b0 [|b1 [|hi [|lo rest]]]] eqn:Hb; try done.
  cbn [advertised] in Hi. destruct Hi as [Hmax Hlen].
  apply N.ltb_ge in Hmax. apply N.ltb_lt in Hlen. by rewrite Hmax, Hlen.
Qed.

Lemma drain_oversized k st n :
  advertised (buffered st) = Some n -> maximum_payload st < n ->
  drain (S k) st = Ret (Err (DecodePayloadTooLarge (maximum_payload st) n),
                        set_buffered (fun _ => []) st).
Proof.
  intros Ha Hn. cbn [drain]. unfold bind, get.
  destruct (buffered st) as [|b0 [|b1 [|hi [|lo rest]]]] eqn:Hb; try done.
  simplify_eq/=. apply N.ltb_lt in Hn. by rewrite Hn.
Qed.

Lemma drain_complete k st total :
  complete (maximum_payload st) (buffered st) total ->
  drain (S k) st =
    (let! frame := run_outcome (decode_exact (prefix_to total (buffered st))
                                  (maximum_payload st)) in
     modify (set_buffered (suffix_from total)) ;!
     let! frames := drain k in
     ret (frame :: frames)) st.
Proof.
  intros (n & Ha & Hmax & -> & Hlen). cbn [drain]. unfold bind at 1, get.
  destruct (buffered st) as [|b0 [|b1 [|hi [|lo rest]]]] eqn:Hb; try done.
  cbn [advertised] in Ha. injection Ha as <-.
  apply N.ltb_ge in Hmax, Hlen. by rewrite Hmax, Hlen.
Qed.

Lemma push_byte_eq x st :
  push_byte x st =
    drain (S (length (buffered st ++ [x]))) (set_buffered (fun b => b ++ [x]) st).
Proof. reflexivity. Qed.

Lemma push_app a b st :
  push (a ++ b) st =
    (let! f := push a in let! g := push b in ret (f ++ g)) st.
Proof.
  revert st. induction a as [|x a IH]; intros st.
  - cbn. unfold bind, ret. by destruct (push b st) as [[[?|?] ?]| |].
  - cbn [app push]. unfold bind at 1 3. unfold bind at 2.
    destruct (push_byte x st) as [[[f|e] st']| |]; try done.
    unfold bind at 1. rewrite IH. unfold bind, ret.
    destruct (push a st') as [[[g|e] st'']| |]; try done.
    destruct (push b st'') as [[[h|e] ?]| |]; try done. by rewrite app_assoc.
Qed.

Lemma push_one x st : push [x] st = push_byte x st.
Proof.
  cbn [push]. unfold bind, ret. destruct (push_byte x st) as [[[f|e] st']| |]; try done.
  by rewrite app_nil_r.
Qed.
Lemma push_byte_incomplete x st :
  incomplete (maximum_payload st) (buffered st ++ [x]) ->
  push_byte x st = Ret (Ok [], set_buffered (fun b => b ++ [x]) st).
Proof. intros Hi. rewrite push_byte_eq. by apply drain_incomplete. Qed.

(** A byte that completes the frame in the buffer. *)
Lemma push_byte_complete x st :
  complete (maximum_payload st) (buffered st ++ [x]) (len (buffered st ++ [x])) ->
  push_byte x st =
    match decode_exact (buffered st ++ [x]) (maximum_payload st) with
    | Ret (Ok f) => Ret (Ok [f], set_buffered (fun _ => []) st)
    | Ret (Err e) => Ret (Err e, set_buffered (fun b => b ++ [x]) st)
    | Panic => Panic
    | OutOfFuel => OutOfFuel
    end.
Proof.
  intros Hc. rewrite push_byte_eq.
  rewrite (drain_complete _ _ (len (buffered st ++ [x]))) by done.
  unfold bind, run_outcome, modify. cbn [set_buffered buffered maximum_payload].
  pose proof (prefix_to_app (buffered st ++ [x]) []) as Hp.
  pose proof (suffix_from_app (buffered st ++ [x]) []) as Hs.
  rewrite app_nil_r in Hp, Hs. rewrite Hp.
  destruct (decode_exact _ _) as [[f|e]| |]; try done.
  unfold set_buffered. cbn [buffered maximum_payload]. rewrite Hs.
  rewrite length_app, Nat.add_comm. cbn [length Nat.add].
  by rewrite drain_incomplete.
Qed.

Lemma push_byte_oversized x st n :
  advertised (buffered st ++ [x]) = Some n -> maximum_payload st < n ->
  push_byte x st = Ret (Err (DecodePayloadTooLarge (maximum_payload st) n),
                        set_buffered (fun _ => []) st).
Proof. intros Ha Hn. rewrite push_byte_eq. by erewrite drain_oversized. Qed.

(** One more byte after an incomplete buffer: still incomplete, complete,
    or a header that advertises too much. *)
Lemma incomplete_snoc max b x :
  incomplete max b ->
  incomplete max (b ++ [x]) \/ complete max (b ++ [x]) (len (b ++ [x])) \/
  exists n, advertised (b ++ [x]) = Some n /\ max < n.
Proof.
  intros Hb. unfold incomplete at 1.
  destruct (advertised (b ++ [x])) as [n|] eqn:Ha; [|auto].
  destruct (N.le_gt_cases n max) as [Hn|Hn]; [|eauto].
  destruct (N.lt_ge_cases (len (b ++ [x])) (FRAME_HEADER_BYTES + n)) as [Hl|Hl]; [eauto|].
  right; left. exists n. split_and!; [done|done| |lia].
  rewrite len_app in *. change (len [x]) with 1 in *. unfold incomplete in Hb.
  destruct (advertised b) as [m|] eqn:Hm.
  - apply (advertised_app _ [x]) in Hm. simplify_eq. unfold FRAME_HEADER_BYTES in *. lia.
  - apply advertised_None in Hm. unfold FRAME_HEADER_BYTES in *. lia.
Qed.

(** Pushing the rest of an encoded frame yields that frame. *)
Lemma push_rest_of_frame f enc suf pre max :
  wf_frame f -> encode f = Ok enc -> len enc <= FRAME_HEADER_BYTES + max ->
  pre ++ suf = enc -> suf <> [] ->
  push suf {| maximum_payload := max; buffered := pre |} =
    Ret (Ok [f], {| maximum_payload := max; buffered := [] |}).
Proof.
  intros Hwf Henc Hmax. revert pre. induction suf as [|x suf IH]; intros pre Hpre Hne; [done|].
  pose proof (frame_roundtrip_aux f enc max Hwf Henc Hmax) as (Hdec & n & Ha & Hn & Hlen).
  cbn [push]. unfold bind. destruct suf as [|y suf].
  - rewrite push_byte_complete; cbn [buffered maximum_payload]; rewrite ?Hpre.
    + by rewrite Hdec.
    + exists n. split_and!; [done|lia..].
  - assert (pre ++ [x] ++ y :: suf = enc) as Hpre' by done.
    rewrite app_assoc in Hpre'.
    rewrite push_byte_incomplete; cbn [buffered maximum_payload].
    + unfold set_buffered. cbn [buffered maximum_payload]. by rewrite (IH (pre ++ [x]) Hpre').
    + unfold incomplete. destruct (advertised (pre ++ [x])) as [m|] eqn:Hm; [|done].
      apply (advertised_app _ (y :: suf)) in Hm. rewrite Hpre' in Hm. simplify_eq.
      rewrite !len_app, !len_cons in *. rewrite len_nil.
      unfold FRAME_HEADER_BYTES in *. lia.
Qed.
End decoder.

(** ** Properties of the frame codec *)

(** Every well-formed frame that encodes decodes back to itself, under
    any payload limit that its payload fits. *)
Theorem frame_roundtrip f bytes max :
  wf_frame f -> encode f = Ok bytes -> len bytes <= FRAME_HEADER_BYTES + max ->
  decode_exact bytes max = Ret (Ok f).
Proof. intros. by eapply frame_roundtrip_aux. Qed.

(** C5. The decoder is canonical and total: on every input it returns
    without a panic, and a frame it accepts is well formed and encodes to
    exactly the input bytes. *)
Theorem decode_exact_canonical bytes max :
  len bytes <= U64_MAX ->
  exists r, decode_exact bytes max = Ret r /\
    forall f, r = Ok f -> wf_frame f /\ encode f = Ok bytes.
Proof. apply decode_exact_accepts. Qed.

(** The caller's loop: one [push] per chunk read from the carrier. *)
Fixpoint push_chunks (chunks : list (list byte)) : M FrameDecoder FrameDecodeError (list Frame) :=
  match chunks with
  | [] => ret []
  | chunk :: chunks =>
    let! frames := FrameDecoder.push chunk in
    let! more := push_chunks chunks in
    ret (frames ++ more)
  end.

Lemma push_chunks_concat chunks st :
  push_chunks chunks st = FrameDecoder.push (concat chunks) st.
Proof.
  revert st. induction chunks as [|c chunks IH]; intros st; [done|].
  cbn [push_chunks concat]. rewrite push_app. unfold bind.
  destruct (FrameDecoder.push c st) as [[[f|e] st']| |]; try done. by rewrite IH.
Qed.

(** C6. The incremental decoder is insensitive to fragmentation: feeding
    the concatenation of encoded frames in any chunks to a fresh decoder
    yields exactly those frames, in order, and leaves it empty. *)
Theorem decoder_stream max d fs encs chunks :
  FrameDecoder.new max = Ok d ->
  Forall wf_frame fs ->
  Forall2 (fun f e => encode f = Ok e /\ len e <= FRAME_HEADER_BYTES + max) fs encs ->
  concat chunks = concat encs ->
  push_chunks chunks d = Ret (Ok fs, d).
Proof.
  intros Hd Hwf Henc Hchunks. rewrite push_chunks_concat, Hchunks.
  unfold FrameDecoder.new in Hd. case_match; simplify_eq. clear chunks Hchunks.
  revert Hwf. induction Henc as [|f e fs encs [He Hmax] _ IH]; intros Hwf; [done|].
  apply Forall_cons in Hwf as [Hf Hwf]. cbn [concat]. rewrite push_app. unfold bind.
  rewrite (push_rest_of_frame f e e [] max); [by rewrite IH|done..|].
  apply encode_payload_len_bound in He as (? & ? & _ & _ & ->). done.
Qed.

(** The incremental decoder is total and bounded: from a buffer that
    holds at most an incomplete frame, one [push] of any bytes returns, keeps
    an incomplete buffer when it succeeds, and never retains more than one
    declared frame. *)
Theorem decoder_push_bounded st bytes :
  maximum_payload st <= MAX_FRAME_PAYLOAD -> incomplete (maximum_payload st) (buffered st) ->
  exists r st', FrameDecoder.push bytes st = Ret (r, st') /\
    maximum_payload st' = maximum_payload st /\
    (is_ok r = true -> incomplete (maximum_payload st) (buffered st')) /\
    FrameDecoder.buffered_len st' <= FRAME_HEADER_BYTES + maximum_payload st.
Proof.
  intros Hmax. revert st Hmax. induction bytes as [|x bytes IH]; intros st Hmax Hi.
  { exists (Ok []), st. split_and!; [done..|]. by apply incomplete_len. }
  assert (forall fs st', maximum_payload st' = maximum_payload st ->
    incomplete (maximum_payload st) (buffered st') ->
    FrameDecoder.push_byte x st = Ret (Ok fs, st') ->
    exists r st'', FrameDecoder.push (x :: bytes) st = Ret (r, st'') /\
      maximum_payload st'' = maximum_payload st /\
      (is_ok r = true -> incomplete (maximum_payload st) (buffered st'')) /\
      FrameDecoder.buffered_len st'' <= FRAME_HEADER_BYTES + maximum_payload st) as Hgo.
  { intros fs st' Hm Hi' Hpush. rewrite <-Hm in *.
    destruct (IH st' Hmax Hi') as (r & st'' & Hr & Hm' & Hok & Hlen).
    cbn [FrameDecoder.push]. unfold bind. rewrite Hpush, Hr.
    destruct r as [gs|e]; do 2 eexists; (split; [done|]); naive_solver. }
  destruct (incomplete_snoc _ _ x Hi) as [Hi'|[Hc|(n & Ha & Hn)]].
  - eapply Hgo; [| |by apply push_byte_incomplete]; done.
  - apply push_byte_complete in Hc as Hp.
    assert (len (buffered st ++ [x]) <= FRAME_HEADER_BYTES + maximum_payload st) as Hlen.
    { destruct Hc as (n & _ & ? & -> & _). lia. }
    destruct (decode_exact_accepts (buffered st ++ [x]) (maximum_payload st))
      as (r & Hdec & _).
    { unfold MAX_FRAME_PAYLOAD, U16_MAX, FRAME_HEADER_BYTES, U64_MAX in *. lia. }
    rewrite Hdec in Hp. destruct r as [f|e].
    + eapply Hgo; [| |exact Hp]; done.
    + cbn [FrameDecoder.push]. unfold bind. rewrite Hp. by do 2 eexists.
  - apply push_byte_oversized in Ha as Hp; [|done].
    cbn [FrameDecoder.push]. unfold bind. rewrite Hp.
    do 2 eexists. split; [done|]. split_and!; [done..|].
    unfold FrameDecoder.buffered_len. cbn [set_buffered buffered]. rewrite len_nil. lia.
Qed.

(** A malformed frame poisons the incremental decoder: its bytes stay in
    the buffer, so every later non-empty [push] fails with the same error,
    whatever it carries, and leaves one byte more in the buffer. *)
Theorem decoder_poisoned st total e :
  complete (maximum_payload st) (buffered st) total ->
  decode_exact (prefix_to total (buffered st)) (maximum_payload st) = Ret (Err e) ->
  forall x bytes,
    FrameDecoder.push (x :: bytes) st = Ret (Err e, set_buffered (fun b => b ++ [x]) st) /\
    complete (maximum_payload st) (buffered st ++ [x]) total /\
    decode_exact (prefix_to total (buffered st ++ [x])) (maximum_payload st) = Ret (Err e).
Proof.
  intros Hc Hdec x bytes.
  assert (complete (maximum_payload st) (buffered st ++ [x]) total) as Hc'.
  { destruct Hc as (n & Ha & Hn & -> & Hlen). exists n. rewrite len_app.
    split_and!; [by apply advertised_app|done|done|lia]. }
  assert (prefix_to total (buffered st ++ [x]) = prefix_to total (buffered st)) as Hpre.
  { destruct Hc as (n & _ & _ & -> & Hlen). unfold prefix_to, len in *.
    apply take_app_le. lia. }
  rewrite Hpre. split_and!; [|done..].
  cbn [FrameDecoder.push]. unfold bind at 1. rewrite push_byte_eq.
  rewrite (drain_complete _ _ total) by done.
  unfold bind, run_outcome. cbn [set_buffered buffered maximum_payload].
  by rewrite Hpre, Hdec.
Qed.

(** ** At concrete inputs *)
Definition test_data : Frame := FStreamData 1 2 3 [x41; x42].
Definition test_data_bytes : list byte :=
  [STREAM_DATA; x00; x00; x1a] ++ to_be_bytes 8 1 ++ to_be_bytes 8 2 ++ to_be_bytes 8 3 ++ [x41; x42].
Definition test_close : Frame := FConnectionClose CodeProtocolViolation.

Lemma frame_roundtrip_witness :
  encode test_data = Ok test_data_bytes /\ decode_exact test_data_bytes 64 = Ret (Ok test_data).
Proof.
  split; [by vm_compute|].
  apply (frame_roundtrip test_data test_data_bytes 64); [done|by vm_compute|by vm_compute].
Defined.

Lemma decode_exact_canonical_witness :
  exists r, decode_exact test_data_bytes 64 = Ret r /\
    forall f, r = Ok f -> wf_frame f /\ encode f = Ok test_data_bytes.
Proof. apply (decode_exact_canonical test_data_bytes 64). by vm_compute. Defined.

(** Two frames, fed in chunks that cut both of them. *)
Definition test_close_bytes : list byte :=
  match encode test_close with Ok b => b | Err _ => [] end.
Definition test_chunks : list (list byte) :=
  [take 3 test_data_bytes; drop 3 test_data_bytes ++ take 1 test_close_bytes;
   drop 1 test_close_bytes].

Lemma decoder_stream_witness :
  push_chunks test_chunks {| maximum_payload := 64; buffered := [] |} =
    Ret (Ok [test_data; test_close], {| maximum_payload := 64; buffered := [] |}).
Proof.
  apply (decoder_stream 64 _ _ [test_data_bytes; test_close_bytes]).
  - by vm_compute.
  - repeat (apply Forall_cons; split; [by vm_compute|]). done.
  - repeat (apply Forall2_cons; split; [by vm_compute|]). done.
  - by vm_compute.
Defined.

Lemma decoder_push_bounded_witness :
  exists r st', FrameDecoder.push [x11; x00; x00]
      {| maximum_payload := 64; buffered := [] |} = Ret (r, st') /\
    FrameDecoder.buffered_len st' <= 68.
Proof.
  destruct (decoder_push_bounded {| maximum_payload := 64; buffered := [] |} [x11; x00; x00])
    as (r & st' & Hrun & _ & _ & Hlen); [done|done|].
  exists r, st'. exact (conj Hrun Hlen).
Defined.

(** An unknown mandatory frame without a payload. *)
Definition poisoned : FrameDecoder := {| maximum_payload := 64; buffered := [x30; x00; x00; x00] |}.

Lemma decoder_poisoned_witness :
  FrameDecoder.push test_data_bytes poisoned =
    Ret (Err (UnknownMandatoryFrame x30), set_buffered (fun b => b ++ [x11]) poisoned).
Proof.
  refine (proj1 (decoder_poisoned poisoned 4 (UnknownMandatoryFrame x30) _ _ x11
                   (tail test_data_bytes))).
  - by exists 0.
  - by vm_compute.
Defined.
