(* ===== verification/Net.v ===== *)
(** The parts of [std::net] the components share: IP and socket addresses,
    held as the integers and octets the standard library exposes. *)
From S2P Require Import Prelude.

Inductive IpAddr :=
| V4 (bits : N)
| V6 (bits : N).

#[export] Instance IpAddr_eq_dec : EqDecision IpAddr.
Proof. solve_decision. Defined.
#[export] Instance IpAddr_countable : Countable IpAddr.
Proof.
  refine (inj_countable' (fun a => match a with V4 n => inl n | V6 n => inr n end)
            (fun s => match s with inl n => V4 n | inr n => V6 n end) _).
  by intros [].
Defined.

Definition wf_ip (a : IpAddr) : Prop :=
  match a with V4 n => u32 n | V6 n => u128 n end.

Definition is_ipv4 (a : IpAddr) : bool := match a with V4 _ => true | V6 _ => false end.
Definition is_ipv6 (a : IpAddr) : bool := match a with V4 _ => false | V6 _ => true end.

(** [octets()] and the conversions from octet arrays. *)
Definition octets (a : IpAddr) : list byte :=
  match a with V4 n => to_be_bytes 4 n | V6 n => to_be_bytes 16 n end.

(** [Ipv4Addr::new(a, b, c, d)] *)
Definition ipv4 (a b c d : N) : N := ((a * 256 + b) * 256 + c) * 256 + d.

(** An IPv6 socket address also carries a flow label and a scope. *)
Inductive SocketAddr :=
| SocketV4 (bits port : N)
| SocketV6 (bits port flowinfo scope_id : N).

#[export] Instance SocketAddr_eq_dec : EqDecision SocketAddr.
Proof. solve_decision. Defined.
#[export] Instance SocketAddr_countable : Countable SocketAddr.
Proof.
  refine (inj_countable'
    (fun a => match a with
              | SocketV4 n p => inl (n, p) | SocketV6 n p f s => inr (n, p, f, s) end)
    (fun s => match s with
              | inl (n, p) => SocketV4 n p | inr (n, p, f, s) => SocketV6 n p f s end) _).
  by intros [].
Defined.

Module SocketAddr.
Definition new (ip : IpAddr) (port : N) : SocketAddr :=
  match ip with V4 n => SocketV4 n port | V6 n => SocketV6 n port 0 0 end.
Definition ip (self : SocketAddr) : IpAddr :=
  match self with SocketV4 n _ => V4 n | SocketV6 n _ _ _ => V6 n end.
Definition port (self : SocketAddr) : N :=
  match self with SocketV4 _ p => p | SocketV6 _ p _ _ => p end.
Definition wf (a : SocketAddr) : Prop := wf_ip (ip a) /\ u16 (port a).
(** The address is determined by its IP and port. *)
Definition plain (a : SocketAddr) : Prop := new (ip a) (port a) = a.
End SocketAddr.
