(* ===== verification/Datagram.v ===== *)
(** The envelope of unreliable datagrams ([datagram.rs] of
    [velum-protocol]). *)
From S2P Require Import Prelude Reader Net.

Definition MAX_DATAGRAM_PAYLOAD_BYTES : N := 60 * 1024.
Definition MAX_DATAGRAM_CREDENTIAL_BYTES : N := 128.
Definition MAX_DATAGRAM_ENVELOPE_BYTES : N :=
  MAX_DATAGRAM_PAYLOAD_BYTES + 29 + MAX_DATAGRAM_CREDENTIAL_BYTES.

Definition CLIENT_TO_SERVER : byte := x01.
Definition SERVER_TO_CLIENT : byte := x02.
Definition IPV4 : byte := x04.
Definition IPV6 : byte := x06.

Record DatagramSessionId := { datagram_session_value : N }.
Inductive DatagramSessionIdError := ZeroId.

#[export] Instance DatagramSessionId_eq_dec : EqDecision DatagramSessionId.
Proof. solve_decision. Defined.
#[export] Instance DatagramSessionId_countable : Countable DatagramSessionId.
Proof.
  refine (inj_countable' datagram_session_value (fun n => {| datagram_session_value := n |}) _).
  by intros [].
Defined.

Module DatagramSessionId.
Definition new (value : N) : result DatagramSessionId DatagramSessionIdError :=
  if value =? 0 then Err ZeroId else Ok {| datagram_session_value := value |}.
Definition get (self : DatagramSessionId) : N := datagram_session_value self.
Definition wf (i : DatagramSessionId) : Prop :=
  u64 (datagram_session_value i) /\ datagram_session_value i <> 0.
End DatagramSessionId.

Inductive Datagram :=
| ClientToServer (credential : list byte) (session_id : DatagramSessionId)
    (destination : SocketAddr) (payload : list byte)
| ServerToClient (session_id : DatagramSessionId) (source : SocketAddr) (payload : list byte).

#[export] Instance Datagram_eq_dec : EqDecision Datagram.
Proof. solve_decision. Defined.

Inductive DatagramEncodeError :=
| EncodeInvalidCredentialLength (minimum maximum actual : N)
| PayloadTooLarge (maximum actual : N).

Inductive DatagramDecodeError :=
| TooShort
| TooLarge (maximum actual : N)
| UnknownDirection (direction : byte)
| DecodeInvalidCredentialLength (minimum maximum actual : N)
| InvalidAddressFamily (family : byte)
| ZeroSessionId.

Definition credential_length_ok (n : N) : bool :=
  (1 <=? n) && (n <=? MAX_DATAGRAM_CREDENTIAL_BYTES).

Definition push_address (bytes : list byte) (address : SocketAddr) : list byte :=
  let bytes :=
    match SocketAddr.ip address with
    | V4 _ => (bytes ++ [IPV4]) ++ octets (SocketAddr.ip address)
    | V6 _ => (bytes ++ [IPV6]) ++ octets (SocketAddr.ip address)
    end in
  bytes ++ to_be_bytes 2 (SocketAddr.port address).

(** [u8::try_from(n)] *)
Definition u8_try_from (n : N) : option byte := Byte.of_N n.

Definition encode (self : Datagram) : outcome (result (list byte) DatagramEncodeError) :=
  let '(direction, credential, session_id, address, payload) :=
    match self with
    | ClientToServer credential session_id destination payload =>
      (CLIENT_TO_SERVER, Some credential, session_id, destination, payload)
    | ServerToClient session_id source payload =>
      (SERVER_TO_CLIENT, None, session_id, source, payload)
    end in
  let body (encoded : list byte) :=
    let encoded := encoded ++ to_be_bytes 8 (DatagramSessionId.get session_id) in
    let encoded := push_address encoded address in
    encoded ++ payload in
  match credential with
  | Some credential =>
    if negb (credential_length_ok (len credential))
    then Ret (Err (EncodeInvalidCredentialLength 1 MAX_DATAGRAM_CREDENTIAL_BYTES (len credential)))
    else if MAX_DATAGRAM_PAYLOAD_BYTES <? len payload
    then Ret (Err (PayloadTooLarge MAX_DATAGRAM_PAYLOAD_BYTES (len payload)))
    else
      match u8_try_from (len credential) with
      | None => Panic
      | Some length => Ret (Ok (body (([direction] ++ [length]) ++ credential)))
      end
  | None =>
    if MAX_DATAGRAM_PAYLOAD_BYTES <? len payload
    then Ret (Err (PayloadTooLarge MAX_DATAGRAM_PAYLOAD_BYTES (len payload)))
    else Ret (Ok (body [direction]))
  end.

Definition reader_u8 : M Reader DatagramDecodeError byte :=
  let! self := get in
  let! byte := ok_or (rd_bytes self !! N.to_nat (rd_offset self)) TooShort in
  modify (fun s => mkReader (rd_bytes s) (rd_offset s + 1)) ;!
  ret byte.

Definition reader_address : M Reader DatagramDecodeError SocketAddr :=
  let! family := reader_u8 in
  let! ip :=
    (if Byte.eqb family IPV4 then
       let! b := Reader.take TooShort 4 in ret (V4 (from_be_bytes b))
     else if Byte.eqb family IPV6 then
       let! b := Reader.take TooShort 16 in ret (V6 (from_be_bytes b))
     else throw (InvalidAddressFamily family)) in
  let! port := Reader.u16 TooShort in
  ret (SocketAddr.new ip port).

Definition decode_body : M Reader DatagramDecodeError Datagram :=
  let! direction := reader_u8 in
  let! credential :=
    (if Byte.eqb direction CLIENT_TO_SERVER then
       let! length := reader_u8 in
       let length := Byte.to_N length in
       if negb (credential_length_ok length)
       then throw (DecodeInvalidCredentialLength 1 MAX_DATAGRAM_CREDENTIAL_BYTES length)
       else Reader.take TooShort length
     else ret []) in
  let! id := Reader.u64 TooShort in
  let! session_id := lift_result (fun _ => ZeroSessionId) (DatagramSessionId.new id) in
  let! address := reader_address in
  let! payload := Reader.remaining in
  if MAX_DATAGRAM_PAYLOAD_BYTES <? len payload
  then throw (TooLarge MAX_DATAGRAM_PAYLOAD_BYTES (len payload))
  else if Byte.eqb direction CLIENT_TO_SERVER
  then ret (ClientToServer credential session_id address payload)
  else if Byte.eqb direction SERVER_TO_CLIENT
  then ret (ServerToClient session_id address payload)
  else throw (UnknownDirection direction).

Definition decode (bytes : list byte) : outcome (result Datagram DatagramDecodeError) :=
  if MAX_DATAGRAM_ENVELOPE_BYTES <? len bytes
  then Ret (Err (TooLarge MAX_DATAGRAM_ENVELOPE_BYTES (len bytes)))
  else eval decode_body (Reader.new bytes).

(** The type invariant: widths, a non-zero session, and addresses without
    the IPv6 flow label and scope that the envelope does not carry. *)
Definition wf_datagram (d : Datagram) : Prop :=
  match d with
  | ClientToServer _ i a _ | ServerToClient i a _ =>
    DatagramSessionId.wf i /\ SocketAddr.wf a /\ SocketAddr.plain a
  end.

(** ** Reading the fields *)
Lemma lookup_len {A} (pre rest : list A) : (pre ++ rest) !! N.to_nat (len pre) = head rest.
Proof.
  unfold len. rewrite Nnat.Nat2N.id, lookup_app_r, Nat.sub_diag by lia. by destruct rest.
Qed.

Lemma reads_u8 b : reads reader_u8 b [b].
Proof.
  intros pre rest Hlen. unfold reader_u8, bind, get. cbn [rd_bytes rd_offset].
  rewrite lookup_len. cbn. by rewrite len_app.
Qed.

Lemma consumes_u8 : consumes reader_u8 (fun b a => a = [b]).
Proof.
  intros pre rest Hlen. unfold reader_u8, wp, bind, get. cbn [rd_bytes rd_offset].
  rewrite lookup_len. destruct rest as [|b rest]; cbn; [done|]. exists [b], rest.
  by rewrite len_app.
Qed.

#[export] Hint Resolve reads_u8 : reads.
#[export] Hint Resolve consumes_u8 : consumes.

Lemma push_address_app bytes a : push_address bytes a = bytes ++ push_address [] a.
Proof. unfold push_address. by destruct a; cbn [SocketAddr.ip]; rewrite <-!app_assoc. Qed.

Lemma reads_address a :
  SocketAddr.wf a -> SocketAddr.plain a -> reads reader_address a (push_address [] a).
Proof.
  intros [Hip Hport] Hplain. unfold SocketAddr.plain in Hplain.
  enough (reads reader_address (SocketAddr.new (SocketAddr.ip a) (SocketAddr.port a))
            (push_address [] a)) as Hr by (by rewrite Hplain in Hr).
  clear Hplain. unfold push_address, reader_address.
  destruct (SocketAddr.ip a) as [n|n]; cbn [octets wf_ip] in *; rewrite <-app_assoc, app_nil_l.
  - eapply reads_bind; [apply reads_u8|]. cbn [Byte.eqb].
    change (Byte.eqb IPV4 IPV4) with true. cbv match.
    eapply reads_bind.
    { apply reads_app_nil. eapply reads_bind; [apply reads_take, len_to_be_bytes|].
      rewrite from_to_be_bytes; [apply reads_ret|]. unfold u32, U32_MAX in Hip. simpl. lia. }
    apply reads_app_nil. reads_steps.
  - eapply reads_bind; [apply reads_u8|].
    change (Byte.eqb IPV6 IPV4) with false. change (Byte.eqb IPV6 IPV6) with true. cbv match.
    eapply reads_bind.
    { apply reads_app_nil. eapply reads_bind; [apply reads_take, len_to_be_bytes|].
      rewrite from_to_be_bytes; [apply reads_ret|]. unfold u128, U128_MAX in Hip. simpl. lia. }
    apply reads_app_nil. reads_steps.
Qed.

Lemma consumes_ip (mk : N -> IpAddr) n :
  consumes (E := DatagramDecodeError)
    (let! b := Reader.take TooShort n in ret (mk (from_be_bytes b)))
    (fun ip a => exists v, ip = mk v /\ v < 256 ^ n /\ a = to_be_bytes (N.to_nat n) v).
Proof.
  eapply consumes_bind; [apply consumes_take|]. intros v a [-> Hl]. apply consumes_ret.
  exists (from_be_bytes a). rewrite app_nil_r, <-Hl. split_and!; [done|apply from_be_bytes_bound|].
  unfold len. by rewrite Nnat.Nat2N.id, to_from_be_bytes.
Qed.

Lemma consumes_address :
  consumes reader_address (fun d a =>
    SocketAddr.wf d /\ SocketAddr.plain d /\ a = push_address [] d).
Proof.
  unfold reader_address. consumes_steps. subst.
  eapply consumes_bind with (P := fun ip a => wf_ip ip /\
    [v] ++ a = (match ip with V4 _ => [IPV4] | V6 _ => [IPV6] end) ++ octets ip).
  { case_match eqn:H4; [|case_match eqn:H6].
    - apply Byte.byte_dec_bl in H4 as ->. eapply consumes_mono; [apply (consumes_ip V4)|].
      cbv beta. intros ip a (n & -> & Hn & ->). split; [|done].
      unfold wf_ip, u32, U32_MAX. change (256 ^ 4) with 4294967296 in Hn. lia.
    - apply Byte.byte_dec_bl in H6 as ->. eapply consumes_mono; [apply (consumes_ip V6)|].
      cbv beta. intros ip a (n & -> & Hn & ->). split; [|done].
      unfold wf_ip, u128, U128_MAX.
      change (256 ^ 16) with 340282366920938463463374607431768211456 in Hn. lia.
    - apply consumes_throw. }
  cbv beta. intros ip a [Hip Ha]. consumes_steps. subst. apply consumes_ret.
  rewrite app_nil_r, app_assoc, Ha. unfold SocketAddr.wf, SocketAddr.plain, push_address.
  destruct ip; cbn; split_and!; rewrite ?app_nil_r; done.
Qed.

#[export] Hint Resolve reads_address : reads.
#[export] Hint Resolve consumes_address : consumes.

Lemma credential_length_ok_spec n :
  credential_length_ok n = true <-> 1 <= n <= MAX_DATAGRAM_CREDENTIAL_BYTES.
Proof. unfold credential_length_ok. rewrite andb_true_iff, !N.leb_le. done. Qed.

Lemma u8_try_from_byte n b : u8_try_from n = Some b -> Byte.to_N b = n.
Proof. apply Byte.to_of_N. Qed.

Lemma u8_try_from_small n : n < 256 -> exists b, u8_try_from n = Some b.
Proof.
  intros Hn. unfold u8_try_from. destruct (Byte.of_N n) eqn:E; [eauto|].
  apply Byte.of_N_None_iff in E. lia.
Qed.

Lemma len_push_address_bound a : len (push_address [] a) <= 19.
Proof.
  unfold push_address. destruct (SocketAddr.ip a); cbn [octets];
    rewrite !len_app, !len_to_be_bytes, ?len_cons, ?len_nil; lia.
Qed.

Lemma lift_session_id i :
  DatagramSessionId.wf i ->
  reads (E := DatagramDecodeError)
    (lift_result (fun _ => ZeroSessionId) (DatagramSessionId.new (DatagramSessionId.get i))) i [].
Proof.
  intros [Hw Hz]. apply reads_lift_result. unfold DatagramSessionId.new, DatagramSessionId.get.
  apply N.eqb_neq in Hz. rewrite Hz. by destruct i.
Qed.

Lemma consumes_lift_session_id v :
  u64 v ->
  consumes (E := DatagramDecodeError)
    (lift_result (fun _ => ZeroSessionId) (DatagramSessionId.new v))
    (fun i a => a = [] /\ DatagramSessionId.wf i /\ DatagramSessionId.get i = v).
Proof.
  intros Hv. apply consumes_lift_result. unfold DatagramSessionId.new. intros i Hi.
  case_match eqn:Hz; simplify_eq. apply N.eqb_neq in Hz. done.
Qed.

#[export] Hint Resolve lift_session_id : reads.
#[export] Hint Resolve consumes_lift_session_id : consumes.

(** The two envelopes as flat byte strings. *)
Lemma encode_client c i a p b :
  encode (ClientToServer c i a p) = Ret (Ok b) ->
  1 <= len c <= MAX_DATAGRAM_CREDENTIAL_BYTES /\ len p <= MAX_DATAGRAM_PAYLOAD_BYTES /\
  exists l, Byte.to_N l = len c /\
    b = [CLIENT_TO_SERVER] ++ [l] ++ c ++ to_be_bytes 8 (DatagramSessionId.get i) ++
        push_address [] a ++ p.
Proof.
  unfold encode. destruct (credential_length_ok (len c)) eqn:Hc; [|done].
  apply credential_length_ok_spec in Hc. cbv [negb].
  case_match eqn:Hp; [done|]. apply N.ltb_ge in Hp.
  destruct (u8_try_from (len c)) as [l|] eqn:Hl; [|done].
  rewrite push_address_app, <-!app_assoc. intros Hb.
  apply Ret_Ok_inj in Hb. subst b. split_and!; [lia..|].
  exists l. split; [by apply u8_try_from_byte|done].
Qed.

Lemma encode_client_eq c i a p l :
  1 <= len c <= MAX_DATAGRAM_CREDENTIAL_BYTES -> len p <= MAX_DATAGRAM_PAYLOAD_BYTES ->
  Byte.to_N l = len c ->
  encode (ClientToServer c i a p) =
    Ret (Ok ([CLIENT_TO_SERVER] ++ [l] ++ c ++ to_be_bytes 8 (DatagramSessionId.get i) ++
             push_address [] a ++ p)).
Proof.
  intros Hc Hp Hl. unfold encode.
  apply credential_length_ok_spec in Hc. rewrite Hc. apply N.ltb_ge in Hp. rewrite Hp.
  cbv [negb]. unfold u8_try_from. rewrite <-Hl, Byte.of_to_N.
  by rewrite push_address_app, <-!app_assoc.
Qed.

Lemma encode_server_eq i a p :
  len p <= MAX_DATAGRAM_PAYLOAD_BYTES ->
  encode (ServerToClient i a p) =
    Ret (Ok ([SERVER_TO_CLIENT] ++ to_be_bytes 8 (DatagramSessionId.get i) ++
             push_address [] a ++ p)).
Proof.
  intros Hp. unfold encode. apply N.ltb_ge in Hp. rewrite Hp.
  by rewrite push_address_app, <-!app_assoc.
Qed.

Lemma encode_server_payload i a p b :
  encode (ServerToClient i a p) = Ret (Ok b) -> len p <= MAX_DATAGRAM_PAYLOAD_BYTES.
Proof. unfold encode. case_match eqn:Hp; [done|]. intros _. by apply N.ltb_ge in Hp. Qed.

Lemma decode_envelope b d :
  len b <= MAX_DATAGRAM_ENVELOPE_BYTES -> yields decode_body d b -> decode b = Ret (Ok d).
Proof.
  intros Hlen Hy. unfold decode. apply N.ltb_ge in Hlen as Hlt. rewrite Hlt.
  destruct (Hy []) as [s' Hs].
  { unfold MAX_DATAGRAM_ENVELOPE_BYTES, MAX_DATAGRAM_PAYLOAD_BYTES,
      MAX_DATAGRAM_CREDENTIAL_BYTES, U64_MAX in *. rewrite app_nil_l. lia. }
  unfold eval, Reader.new. rewrite app_nil_l, len_nil in Hs. by rewrite Hs.
Qed.

Lemma encode_len d b : encode d = Ret (Ok b) -> len b <= MAX_DATAGRAM_ENVELOPE_BYTES.
Proof.
  unfold MAX_DATAGRAM_ENVELOPE_BYTES, MAX_DATAGRAM_PAYLOAD_BYTES.
  intros He. destruct d as [c i a p|i a p];
    [apply encode_client in He as (Hc & Hp & l & _ & ->)
    |apply encode_server_payload in He as Hp; rewrite encode_server_eq in He by done;
     apply Ret_Ok_inj in He; subst b];
    pose proof (len_push_address_bound a);
    rewrite !len_app, len_to_be_bytes, !len_cons, !len_nil;
    unfold MAX_DATAGRAM_CREDENTIAL_BYTES, MAX_DATAGRAM_PAYLOAD_BYTES in *; lia.
Qed.

Lemma decode_encode d b :
  wf_datagram d -> encode d = Ret (Ok b) -> decode b = Ret (Ok d).
Proof.
  intros Hwf He. apply encode_len in He as Hlen. apply decode_envelope; [done|].
  destruct d as [c i a p|i a p]; destruct Hwf as (Hi & Ha & Hplain).
  - apply encode_client in He as (Hc & Hp & l & Hl & ->). unfold decode_body.
    eapply yields_bind; [apply reads_u8|].
    rewrite (app_assoc [l] c). eapply yields_bind.
    { change (Byte.eqb CLIENT_TO_SERVER CLIENT_TO_SERVER) with true. cbv match.
      eapply reads_bind; [apply reads_u8|]. cbv zeta.
      rewrite Hl. apply credential_length_ok_spec in Hc. rewrite Hc.
      by apply reads_take. }
    eapply yields_bind; [by apply reads_u64, Hi|].
    eapply yields_bind_nil; [by apply lift_session_id|].
    eapply yields_bind; [by apply reads_address|].
    apply yields_remaining. apply N.ltb_ge in Hp. by rewrite Hp.
  - apply encode_server_payload in He as Hp. rewrite encode_server_eq in He by done.
    apply Ret_Ok_inj in He. subst b. unfold decode_body.
    eapply yields_bind; [apply reads_u8|].
    change (Byte.eqb SERVER_TO_CLIENT CLIENT_TO_SERVER) with false. cbv match.
    eapply yields_bind_nil; [apply reads_ret|].
    eapply yields_bind; [by apply reads_u64, Hi|].
    eapply yields_bind_nil; [by apply lift_session_id|].
    eapply yields_bind; [by apply reads_address|].
    apply yields_remaining. apply N.ltb_ge in Hp. by rewrite Hp.
Qed.

Lemma decode_body_accepts :
  accepts decode_body (fun d b => wf_datagram d /\ encode d = Ret (Ok b)).
Proof.
  unfold decode_body. eapply accepts_bind; [apply consumes_u8|]. intros dir a ->.
  eapply accepts_bind with (P := fun c a =>
    (dir = CLIENT_TO_SERVER /\ exists l, a = [l] ++ c /\ Byte.to_N l = len c /\
       1 <= len c <= MAX_DATAGRAM_CREDENTIAL_BYTES) \/
    (dir <> CLIENT_TO_SERVER /\ a = [] /\ c = [])).
  { case_match eqn:Hd.
    - apply Byte.byte_dec_bl in Hd. eapply consumes_bind; [apply consumes_u8|].
      intros l a ->. cbv zeta. case_match eqn:Hc; [apply consumes_throw|].
      apply negb_false_iff, credential_length_ok_spec in Hc.
      eapply consumes_mono; [apply consumes_take|]. cbv beta. intros c a [-> Hl].
      left. split; [done|]. exists l. rewrite Hl. done.
    - apply consumes_ret. right. split_and!; [|done..]. intros ->. done. }
  cbv beta. intros c a Hca. consumes_steps. subst.
  apply accepts_remaining. intros rest s.
  case_match eqn:Hp; [done|]. apply N.ltb_ge in Hp.
  destruct Hca as [(-> & l & -> & Hl & Hc)|(Hdir & -> & ->)].
  - change (Byte.eqb CLIENT_TO_SERVER CLIENT_TO_SERVER) with true. cbv match.
    split; [done|]. rewrite (encode_client_eq _ _ _ _ l) by done.
    by rewrite <-?app_assoc.
  - assert (Byte.eqb dir CLIENT_TO_SERVER = false) as ->.
    { apply not_true_is_false. intros ?%Byte.byte_dec_bl. done. }
    case_match eqn:Hs; [|done]. apply Byte.byte_dec_bl in Hs as ->.
    split; [done|]. by rewrite encode_server_eq.
Qed.

Lemma decode_spec b :
  exists r, decode b = Ret r /\ forall d, r = Ok d -> wf_datagram d /\ encode d = Ret (Ok b).
Proof.
  unfold decode. case_match eqn:Hlen; [by eexists|]. apply N.ltb_ge in Hlen.
  assert (len b <= U64_MAX) as Hb.
  { unfold MAX_DATAGRAM_ENVELOPE_BYTES, MAX_DATAGRAM_PAYLOAD_BYTES,
      MAX_DATAGRAM_CREDENTIAL_BYTES, U64_MAX in *. lia. }
  destruct (wp_run _ _ _ (decode_body_accepts [] b Hb)) as (r & s' & Hrun & HQ).
  rewrite app_nil_l, len_nil in Hrun. exists r. split; [by eapply eval_Ok|].
  by intros d ->.
Qed.
Lemma decode_accepts b d : decode b = Ret (Ok d) -> wf_datagram d /\ encode d = Ret (Ok b).
Proof. destruct (decode_spec b) as (r & -> & H). intros ->%Ret_inj. by apply H. Qed.

(** ** Properties of the datagram envelope *)

(** Every well-formed datagram that encodes decodes back to itself: no
    encoded envelope is rejected for its size. *)
Theorem datagram_roundtrip d b :
  wf_datagram d -> encode d = Ret (Ok b) ->
  len b <= MAX_DATAGRAM_ENVELOPE_BYTES /\ decode b = Ret (Ok d).
Proof. intros Hwf He. split; [by eapply encode_len|by apply decode_encode]. Qed.

(** Decoding a datagram envelope is total and canonical: it never
    panics, an accepted envelope is well formed and is the encoding of what
    was decoded, and so two envelopes never decode to the same datagram. *)
Theorem datagram_decode_canonical b :
  (exists r, decode b = Ret r) /\
  (forall d, decode b = Ret (Ok d) -> wf_datagram d /\ encode d = Ret (Ok b) /\
     forall b', decode b' = Ret (Ok d) -> b' = b).
Proof.
  split; [destruct (decode_spec b) as (r & Hr & _); by exists r|].
  intros d Hd. apply decode_accepts in Hd as [Hwf He]. split_and!; [done|done|].
  intros b' [_ He']%decode_accepts. rewrite He in He'. by apply Ret_Ok_inj in He'.
Qed.

(** ** At concrete inputs *)
Definition test_datagram : Datagram :=
  ServerToClient {| datagram_session_value := 7 |} (SocketV4 (ipv4 192 0 2 1) 53) [x41].

Lemma datagram_roundtrip_witness :
  exists b, encode test_datagram = Ret (Ok b) /\ decode b = Ret (Ok test_datagram).
Proof.
  eexists. split; [vm_compute; reflexivity|].
  apply (datagram_roundtrip test_datagram); [|by vm_compute].
  by vm_compute.
Defined.
