(* ===== verification/Carrier.v ===== *)
(** The carrier contract's values ([velum-carrier-api]) and the redacted
    event vocabulary of a session ([velum-telemetry]). *)
From S2P Require Import Prelude.

Abbreviation CarrierId := N (only parsing).

Inductive CarrierKind := Quic | Tls.
Inductive Reliability := StreamReliability | DatagramReliability.

#[export] Instance CarrierKind_eq_dec : EqDecision CarrierKind.
Proof. solve_decision. Defined.
#[export] Instance Reliability_eq_dec : EqDecision Reliability.
Proof. solve_decision. Defined.

Record CarrierCapabilities := {
  streams : bool;
  datagrams : bool;
  max_datagram_payload : option N
}.

Definition supports (self : CarrierCapabilities) (reliability : Reliability) : bool :=
  match reliability with
  | StreamReliability => streams self
  | DatagramReliability => datagrams self
  end.

Record CarrierHealth := {
  round_trip_time_millis : option N;
  loss_parts_per_million : option N;
  is_healthy : bool
}.

(** ** Telemetry *)
Inductive CarrierClass := ClassQuic | ClassTls.

Inductive TransitionReason :=
| PrimaryUnhealthy
| PrimaryRecovered
| LossThresholdExceeded
| LatencyThresholdExceeded.

Inductive TransitionRejection :=
| IncompatibleVersion
| DatagramFlow
| FlowControlExhausted
| AttachmentRejected.

Inductive SessionEvent :=
| FlowOpened
| FlowTimedOut
| PendingLimitReached
| DuplicateIgnored
| OutOfOrderRejected
| TransitionStarted (from to : CarrierClass) (reason : TransitionReason)
| TransitionCompleted
| TransitionRejected (reason : TransitionRejection).

#[export] Instance CarrierClass_eq_dec : EqDecision CarrierClass.
Proof. solve_decision. Defined.
#[export] Instance TransitionReason_eq_dec : EqDecision TransitionReason.
Proof. solve_decision. Defined.
#[export] Instance TransitionRejection_eq_dec : EqDecision TransitionRejection.
Proof. solve_decision. Defined.
#[export] Instance SessionEvent_eq_dec : EqDecision SessionEvent.
Proof. solve_decision. Defined.
