(* ===== verification/Carriers.v ===== *)
(** The two carriers ([velum-carrier-quic/src/lib.rs],
    [velum-carrier-tls/src/lib.rs]): transport limits, health, and the carrier
    contract over a connection whose answers are inputs ([quinn], [rustls]). *)
From S2P Require Import Prelude Carrier.

(** [velum-carrier-api] *)
Inductive CarrierError :=
| Closed
| UnsupportedReliability (r : Reliability)
| DatagramTooLarge (maximum actual : N)
| Transport.

(** ** QUIC transport limits

    A [Duration] is a number of nanoseconds. *)
Record QuicTransportProfile := {
  max_bidirectional_streams : N;
  stream_receive_window : N;
  connection_receive_window : N;
  send_window : N;
  idle_timeout : N;
  keep_alive_interval : option N;
  datagram_receive_buffer_bytes : N;
  datagram_send_buffer_bytes : N
}.
Definition profile_default : QuicTransportProfile :=
  {| max_bidirectional_streams := 64; stream_receive_window := 256 * 1024;
     connection_receive_window := 4 * 1024 * 1024; send_window := 4 * 1024 * 1024;
     idle_timeout := 30000000000; keep_alive_interval := None;
     datagram_receive_buffer_bytes := 256 * 1024; datagram_send_buffer_bytes := 256 * 1024 |}.

(** [QuicTransportProfile { max_bidirectional_streams, ..profile }] *)
Definition set_max_bidirectional_streams (n : N) (profile : QuicTransportProfile) : QuicTransportProfile :=
  {| max_bidirectional_streams := n; stream_receive_window := stream_receive_window profile;
     connection_receive_window := connection_receive_window profile; send_window := send_window profile;
     idle_timeout := idle_timeout profile; keep_alive_interval := keep_alive_interval profile;
     datagram_receive_buffer_bytes := datagram_receive_buffer_bytes profile;
     datagram_send_buffer_bytes := datagram_send_buffer_bytes profile |}.

Inductive QuicTransportProfileError :=
| ZeroStreamLimit
| ZeroStreamWindow
| ConnectionWindowTooSmall
| ZeroSendWindow
| ZeroIdleTimeout
| KeepAliveNotShorterThanIdleTimeout
| ZeroDatagramBuffer
| ValueOutOfRange.

(** The transport parameters that [quinn] gets. *)
Record TransportConfig := {
  max_concurrent_bidi_streams : N;
  max_concurrent_uni_streams : N;
  receive_window : N;
  per_stream_receive_window : N;
  transport_send_window : N;
  max_idle_timeout : N;
  transport_keep_alive : option N;
  datagram_receive_buffer : N;
  datagram_send_buffer : N
}.
Module QuicTransportProfile.
Definition validate (self : QuicTransportProfile) : result unit QuicTransportProfileError :=
  if max_bidirectional_streams self =? 0 then Err ZeroStreamLimit
  else if stream_receive_window self =? 0 then Err ZeroStreamWindow
  else if connection_receive_window self <? stream_receive_window self then Err ConnectionWindowTooSmall
  else if send_window self =? 0 then Err ZeroSendWindow
  else if idle_timeout self =? 0 then Err ZeroIdleTimeout
  else if match keep_alive_interval self with
          | Some interval => (interval =? 0) || (idle_timeout self <=? interval)
          | None => false
          end
  then Err KeepAliveNotShorterThanIdleTimeout
  else if (datagram_receive_buffer_bytes self =? 0) || (datagram_send_buffer_bytes self =? 0)
  then Err ZeroDatagramBuffer
  else Ok tt.

(** [idle_timeout_fits]: whether [quinn] takes the duration for an idle timeout. *)
Definition build (idle_timeout_fits : N -> bool) (self : QuicTransportProfile) : result TransportConfig QuicTransportProfileError :=
  let? _ := validate self in
  if negb (idle_timeout_fits (idle_timeout self)) then Err ValueOutOfRange
  else Ok {| max_concurrent_bidi_streams := max_bidirectional_streams self; max_concurrent_uni_streams := 0;
             receive_window := connection_receive_window self;
             per_stream_receive_window := stream_receive_window self;
             transport_send_window := send_window self; max_idle_timeout := idle_timeout self;
             transport_keep_alive := keep_alive_interval self;
             datagram_receive_buffer := datagram_receive_buffer_bytes self;
             datagram_send_buffer := datagram_send_buffer_bytes self |}.
End QuicTransportProfile.

(** ** QUIC health *)
Definition saturating_mul (max a b : N) : N := N.min max (a * b).

(** [saturating_sub] is [N.sub]. *)
Definition loss_parts_per_million_of (lost_packets sent_packets : N) : option N :=
  if sent_packets =? 0 then None
  else Some (N.min (saturating_mul U64_MAX lost_packets 1000000 / sent_packets) U32_MAX).

Record HealthCounters := { sent_packets : N; lost_packets : N; sent_plpmtud_probes : N }.
Definition counters_default : HealthCounters := {| sent_packets := 0; lost_packets := 0; sent_plpmtud_probes := 0 |}.

Module HealthCounters.
Definition observe (now : HealthCounters) (self : HealthCounters) : option N * HealthCounters :=
  let application_packets := sent_packets now - sent_plpmtud_probes now in
  let prior_application_packets := sent_packets self - sent_plpmtud_probes self in
  (loss_parts_per_million_of (lost_packets now - lost_packets self)
     (application_packets - prior_application_packets), now).
End HealthCounters.

(** What a connection answers when asked. *)
Record QuicConnection := {
  rtt_millis : N;
  stats : HealthCounters;
  close_reason : bool;
  max_datagram_size : option N;
  datagram_sent : bool;
  stream_opened : bool;
  stream_accepted : bool;
  datagram_read : option (list byte)
}.
(** What a session says of the stream it opens; neither carrier reads it. *)
Record StreamRequest := { request_flow_id : N; request_epoch : N }.

Module QuicCarrier.
Definition capabilities (connection : QuicConnection) : CarrierCapabilities :=
  {| streams := true;
     datagrams := bool_decide (is_Some (max_datagram_size connection));
     max_datagram_payload := max_datagram_size connection |}.
Definition kind : CarrierKind := Quic.
Definition sample_loss (stats : HealthCounters) (self : HealthCounters) : option N * HealthCounters :=
  HealthCounters.observe stats self.
Definition health (connection : QuicConnection) (self : HealthCounters) : CarrierHealth * HealthCounters :=
  let '(loss, counters) := sample_loss (stats connection) self in
  ({| round_trip_time_millis := Some (N.min (rtt_millis connection) U64_MAX);
      loss_parts_per_million := loss;
      is_healthy := negb (close_reason connection) |}, counters).
Definition datagram_limit (connection : QuicConnection) : result N CarrierError :=
  match max_datagram_size connection with
  | Some maximum => Ok maximum
  | None => Err (UnsupportedReliability DatagramReliability)
  end.
Definition send_datagram (connection : QuicConnection) (bytes : list byte) : result unit CarrierError :=
  let? maximum := datagram_limit connection in
  if maximum <? len bytes then Err (DatagramTooLarge maximum (len bytes))
  else if datagram_sent connection then Ok tt else Err Transport.
Definition receive_datagram (connection : QuicConnection) : result (list byte) CarrierError :=
  match datagram_read connection with Some bytes => Ok bytes | None => Err Closed end.
Definition open_reliable_stream (request : StreamRequest) (connection : QuicConnection) : result unit CarrierError :=
  if stream_opened connection then Ok tt else Err Closed.
Definition accept_stream (connection : QuicConnection) : result unit CarrierError :=
  if stream_accepted connection then Ok tt else Err Closed.
Definition accept_reliable_stream (connection : QuicConnection) : result unit CarrierError := accept_stream connection.
(** A connection that was closed here fails every call from then on. *)
Definition close (connection : QuicConnection) : QuicConnection :=
  {| rtt_millis := rtt_millis connection; stats := stats connection; close_reason := true;
     max_datagram_size := max_datagram_size connection; datagram_sent := false; stream_opened := false;
     stream_accepted := false; datagram_read := None |}.
End QuicCarrier.

(** A stream: the codes it was reset and stopped with. *)
Record QuicStream := { reset_code : option N; stop_code : option N }.
Module QuicStream.
Definition write_all (written : bool) : result unit CarrierError := if written then Ok tt else Err Transport.
(** [received]: a chunk, or the end of the stream, or a failure. *)
Definition read_chunk (received : option (option (list byte))) : result (option (list byte)) CarrierError :=
  match received with Some chunk => Ok chunk | None => Err Transport end.
Definition finish (finished : bool) : result unit CarrierError := if finished then Ok tt else Err Transport.
(** Either call fails where its side is over already. *)
Definition reject (resets stops : bool) (self : QuicStream) : QuicStream :=
  {| reset_code := if resets then Some 0 else reset_code self; stop_code := if stops then Some 0 else stop_code self |}.
End QuicStream.

(** ** TLS

    [stream] is whether the mutex still holds the stream; the stream shares
    [closed] and [healthy] with the carrier.  [calls] counts what was asked of
    the TLS connection. *)
Record TlsCarrier := { stream : bool; healthy : bool; closed : bool; calls : N }.

Inductive TlsTransportProfileError := ZeroHandshakeTimeout.
Definition handshake_timeout_default : N := 10000000000.
Definition tls_profile_validate (handshake_timeout : N) : result unit TlsTransportProfileError :=
  if handshake_timeout =? 0 then Err ZeroHandshakeTimeout else Ok tt.

(** How a handshake ends within its timeout. *)
Inductive Handshake := HandshakeFailed | Handshaken (tls13 : bool).

Module TlsCarrier.
Definition new : TlsCarrier := {| stream := true; healthy := true; closed := false; calls := 0 |}.
Definition set_stream (b : bool) (self : TlsCarrier) : TlsCarrier :=
  {| stream := b; healthy := healthy self; closed := closed self; calls := calls self |}.
Definition set_healthy (b : bool) (self : TlsCarrier) : TlsCarrier :=
  {| stream := stream self; healthy := b; closed := closed self; calls := calls self |}.
Definition set_closed (b : bool) (self : TlsCarrier) : TlsCarrier :=
  {| stream := stream self; healthy := healthy self; closed := b; calls := calls self |}.
Definition count_call (self : TlsCarrier) : TlsCarrier :=
  {| stream := stream self; healthy := healthy self; closed := closed self; calls := calls self + 1 |}.

Definition kind : CarrierKind := Tls.
(** [connect_with_profile] and [accept_with_profile]. *)
Definition establish (handshake_timeout : N) (handshake : Handshake) : result TlsCarrier CarrierError :=
  match tls_profile_validate handshake_timeout with
  | Err _ => Err Transport
  | Ok _ =>
    match handshake with
    | HandshakeFailed => Err Transport
    | Handshaken tls13 => if negb tls13 then Err Transport else Ok new
    end
  end.

Definition accept_with_profile (handshake_timeout : N) (handshake : Handshake) : result TlsCarrier CarrierError :=
  establish handshake_timeout handshake.
Definition connect (handshake : Handshake) : result TlsCarrier CarrierError := establish handshake_timeout_default handshake.
Definition accept (handshake : Handshake) : result TlsCarrier CarrierError := accept_with_profile handshake_timeout_default handshake.

Definition take_stream : M TlsCarrier CarrierError unit :=
  let! self := get in
  reject_if (negb (stream self)) Closed ;!
  modify (set_stream false).
Definition open_reliable_stream (request : StreamRequest) : M TlsCarrier CarrierError unit := take_stream.
Definition accept_reliable_stream : M TlsCarrier CarrierError unit := take_stream.

Definition capabilities : CarrierCapabilities :=
  {| streams := true; datagrams := false; max_datagram_payload := None |}.
Definition health (self : TlsCarrier) : CarrierHealth :=
  {| round_trip_time_millis := None; loss_parts_per_million := None; is_healthy := healthy self |}.
Definition send_datagram : result unit CarrierError := Err (UnsupportedReliability DatagramReliability).
Definition receive_datagram : result (list byte) CarrierError := Err (UnsupportedReliability DatagramReliability).
Definition close (self : TlsCarrier) : TlsCarrier :=
  set_healthy false (set_stream false (set_closed true self)).
End TlsCarrier.

Module TlsStream.
Definition write_all (written : bool) : M TlsCarrier CarrierError unit :=
  let! self := get in
  reject_if (closed self) Closed ;!
  modify TlsCarrier.count_call ;!
  if written then ret tt else modify (TlsCarrier.set_healthy false) ;! throw Transport.

(** [received]: the bytes one read yields, none of them at the end of the
    stream, or its failure. *)
Definition read_chunk (maximum : N) (received : option (list byte)) : M TlsCarrier CarrierError (option (list byte)) :=
  let! self := get in
  reject_if (closed self) Closed ;!
  if maximum =? 0 then ret (Some [])
  else
    modify TlsCarrier.count_call ;!
    match received with
    | None => modify (TlsCarrier.set_healthy false) ;! throw Transport
    | Some [] => modify (TlsCarrier.set_healthy false) ;! ret None
    | Some bytes => ret (Some bytes)
    end.

Definition finish (shut : bool) : M TlsCarrier CarrierError unit :=
  let! self := get in
  reject_if (closed self) Closed ;!
  modify TlsCarrier.count_call ;!
  if shut then ret tt else modify (TlsCarrier.set_healthy false) ;! throw Transport.
End TlsStream.

(** ** The contract

    The trait both carriers implement, and what the session and its policy rely
    on: a capability a carrier does not have is refused as such, and one it has
    never is; what was sent fitted; and a carrier that was closed is not healthy
    and gives out no stream. *)
Class CarrierContract (C : Type) := {
  contract_kind : CarrierKind;
  contract_capabilities : C -> CarrierCapabilities;
  contract_healthy : C -> bool;
  contract_open : StreamRequest -> M C CarrierError unit;
  contract_accept : M C CarrierError unit;
  contract_send : C -> list byte -> result unit CarrierError;
  contract_receive : C -> result (list byte) CarrierError;
  contract_close : C -> C;
  contract_laws : forall c bytes,
    (supports (contract_capabilities c) DatagramReliability = false <->
     contract_send c bytes = Err (UnsupportedReliability DatagramReliability)) /\
    (contract_send c bytes = Ok tt ->
     exists maximum, max_datagram_payload (contract_capabilities c) = Some maximum /\ len bytes <= maximum);
  contract_closed : forall c,
    contract_healthy (contract_close c) = false /\
    (forall request, contract_open request (contract_close c) = Ret (Err Closed, contract_close c)) /\
    contract_accept (contract_close c) = Ret (Err Closed, contract_close c)
}.
#[export] Program Instance quic_contract : CarrierContract QuicConnection := {
  contract_kind := QuicCarrier.kind;
  contract_capabilities := QuicCarrier.capabilities;
  contract_healthy c := is_healthy (QuicCarrier.health c counters_default).1;
  contract_open request c := Ret (QuicCarrier.open_reliable_stream request c, c);
  contract_accept c := Ret (QuicCarrier.accept_reliable_stream c, c);
  contract_send := QuicCarrier.send_datagram;
  contract_receive := QuicCarrier.receive_datagram;
  contract_close := QuicCarrier.close
}.
Next Obligation.
  intros c bytes. unfold QuicCarrier.send_datagram, QuicCarrier.datagram_limit. cbn.
  destruct (max_datagram_size c) as [m|]; cbn.
  - split; [split; [done|destruct (m <? len bytes); [done|by destruct (datagram_sent c)]]|].
    destruct (N.ltb_spec m (len bytes)); [done|]. intros _. by exists m.
  - done.
Qed.
Next Obligation. done. Qed.
#[export] Program Instance tls_contract : CarrierContract TlsCarrier := {
  contract_kind := TlsCarrier.kind;
  contract_capabilities _ := TlsCarrier.capabilities;
  contract_healthy c := is_healthy (TlsCarrier.health c);
  contract_open := TlsCarrier.open_reliable_stream;
  contract_accept := TlsCarrier.accept_reliable_stream;
  contract_send _ _ := TlsCarrier.send_datagram;
  contract_receive _ := TlsCarrier.receive_datagram;
  contract_close := TlsCarrier.close
}.
Next Obligation. intros c bytes. by split. Qed.
Next Obligation. done. Qed.

(** ** QUIC *)
Lemma loss_bound lost sent loss : loss_parts_per_million_of lost sent = Some loss -> loss <= U32_MAX.
Proof. unfold loss_parts_per_million_of. destruct (sent =? 0); [done|]. intros [= <-]. apply N.le_min_r. Qed.

(** The loss a carrier reports is that of the application packets since its
    last report, in parts per million rounded down: nothing while none was
    sent, no more than a million as long as no more were lost than sent, and
    at most [u32::MAX] whatever the counters say. *)
Theorem quic_loss_exact now prior :
  let sent := (sent_packets now - sent_plpmtud_probes now) - (sent_packets prior - sent_plpmtud_probes prior) in
  let lost := lost_packets now - lost_packets prior in
  let '(loss, counters) := HealthCounters.observe now prior in
  counters = now /\
  (loss = None <-> sent = 0) /\
  (forall n, loss = Some n -> n <= U32_MAX) /\
  (sent <> 0 -> lost <= sent -> lost * 1000000 <= U64_MAX ->
   exists n, loss = Some n /\ n <= 1000000 /\ n * sent <= lost * 1000000 < (n + 1) * sent).
Proof.
  intros sent lost. unfold HealthCounters.observe. cbn [fst snd]. fold sent lost. split; [done|].
  split_and!.
  - unfold loss_parts_per_million_of. destruct (N.eqb_spec sent 0); [done|]. by split.
  - intros n. apply loss_bound.
  - intros Hs Hl Hm. unfold loss_parts_per_million_of. rewrite (proj2 (N.eqb_neq sent 0) Hs).
    unfold saturating_mul. rewrite (N.min_r U64_MAX) by done.
    assert (lost * 1000000 / sent <= 1000000) as Hq.
    { apply N.Div0.div_le_upper_bound. by apply N.mul_le_mono_r. }
    rewrite N.min_l by (unfold U32_MAX; lia). eexists. split; [done|]. split; [done|].
    pose proof (N.div_mod (lost * 1000000) sent Hs) as Hd. pose proof (N.mod_lt (lost * 1000000) sent Hs) as Hr.
    revert Hd Hr. generalize (lost * 1000000 / sent). intros q. generalize (lost * 1000000 mod sent). intros r.
    generalize (lost * 1000000). intros x Hd Hr. rewrite N.mul_add_distr_r, N.mul_1_l, (N.mul_comm q sent). lia.
Qed.

(** ** TLS histories *)
Inductive TlsOp :=
| OpTake
| OpWrite (written : bool)
| OpRead (maximum : N) (received : option (list byte))
| OpFinish (shut : bool)
| OpClose.
(** What a call did: gave out the stream, or ended with [Closed]. *)
Inductive TlsEvent := GaveStream | RefusedClosed | Other.

Definition event_of {A} (stream : bool) (r : result A CarrierError) : TlsEvent :=
  match r with Ok _ => if stream then GaveStream else Other | Err Closed => RefusedClosed | Err _ => Other end.
Definition tls_call (op : TlsOp) (c : TlsCarrier) : TlsEvent * TlsCarrier :=
  let on {A} stream (m : M TlsCarrier CarrierError A) :=
    match m c with Ret (r, c') => (event_of stream r, c') | _ => (Other, c) end in
  match op with
  | OpTake => on true TlsCarrier.take_stream
  | OpWrite written => on false (TlsStream.write_all written)
  | OpRead maximum received => on false (TlsStream.read_chunk maximum received)
  | OpFinish shut => on false (TlsStream.finish shut)
  | OpClose => (Other, TlsCarrier.close c)
  end.
Fixpoint tls_run (ops : list TlsOp) (c : TlsCarrier) : list TlsEvent * TlsCarrier :=
  match ops with
  | [] => ([], c)
  | op :: ops =>
    let '(event, c) := tls_call op c in
    let '(events, c) := tls_run ops c in (event :: events, c)
  end.

Fixpoint given (events : list TlsEvent) : nat :=
  match events with [] => 0 | GaveStream :: l => S (given l) | _ :: l => given l end.
Lemma given_app l l' : given (l ++ l') = (given l + given l')%nat.
Proof. induction l as [|[]]; cbn; lia. Qed.

Lemma tls_call_spec op c :
  let '(event, c') := tls_call op c in
  (event = GaveStream -> stream c = true /\ stream c' = false) /\
  (stream c = false -> stream c' = false) /\ (healthy c = false -> healthy c' = false).
Proof.
  destruct c as [s h cl n]. destruct op as [|[]|m [[|b l]|]|[]|]; destruct s, cl; cbn;
    try destruct (m =? 0); cbn; auto; naive_solver.
Qed.
Lemma tls_call_closed op c : closed c = true -> stream c = false ->
  let '(event, c') := tls_call op c in
  event = match op with OpClose => Other | _ => RefusedClosed end /\
  closed c' = true /\ stream c' = false /\ calls c' = calls c.
Proof. destruct c as [s h cl n]. cbn. intros -> ->. by destruct op. Qed.

Lemma tls_run_given ops c : (given (fst (tls_run ops c)) <= if stream c then 1 else 0)%nat.
Proof.
  revert c. induction ops as [|op ops IH]; intros c; [cbn; destruct (stream c); cbn; lia|].
  pose proof (tls_call_spec op c) as Hc. cbn. destruct (tls_call op c) as [event c'].
  destruct Hc as (H1 & H2 & _). specialize (IH c'). destruct (tls_run ops c') as [events c'']. cbn in *.
  destruct event; [destruct (H1 eq_refl) as [-> Hs]; rewrite Hs in IH; lia|..];
    (destruct (stream c), (stream c'); try lia; by specialize (H2 eq_refl)).
Qed.
Lemma tls_run_unhealthy ops c : healthy c = false -> healthy (snd (tls_run ops c)) = false.
Proof.
  revert c. induction ops as [|op ops IH]; intros c Hc; [done|]. cbn.
  pose proof (tls_call_spec op c) as H. destruct (tls_call op c) as [event c']. specialize (IH c').
  destruct (tls_run ops c'). cbn in *. tauto.
Qed.
Lemma tls_run_closed ops c : closed c = true -> stream c = false ->
  let '(events, c') := tls_run ops c in
  events = map (fun op => match op with OpClose => Other | _ => RefusedClosed end) ops /\ calls c' = calls c.
Proof.
  revert c. induction ops as [|op ops IH]; intros c Hc Hs; [done|]. cbn.
  pose proof (tls_call_closed op c Hc Hs) as H. destruct (tls_call op c) as [event c'].
  destruct H as (-> & Hc' & Hs' & Hn). specialize (IH c' Hc' Hs'). destruct (tls_run ops c') as [events c''].
  destruct IH as [-> ->]. by rewrite Hn.
Qed.

(** A TLS carrier gives its one stream out at most once, whatever is called on
    it and however the connection answers; once closed, every attempt to take
    the stream and every use of a stream taken before is refused as [Closed]
    without touching the connection; and it is not healthy again. *)
Theorem tls_stream_once ops later :
  let '(events, c) := tls_run ops TlsCarrier.new in
  let '(events', c') := tls_run later (TlsCarrier.close c) in
  (given (events ++ events') <= 1)%nat /\
  events' = map (fun op => match op with OpClose => Other | _ => RefusedClosed end) later /\
  calls c' = calls c /\ is_healthy (TlsCarrier.health c') = false.
Proof.
  pose proof (tls_run_given ops TlsCarrier.new) as H1. destruct (tls_run ops TlsCarrier.new) as [events c].
  pose proof (tls_run_given later (TlsCarrier.close c)) as H2.
  pose proof (tls_run_unhealthy later (TlsCarrier.close c) eq_refl) as H3.
  pose proof (tls_run_closed later (TlsCarrier.close c) eq_refl eq_refl) as H4.
  destruct (tls_run later (TlsCarrier.close c)) as [events' c']. destruct H4 as [He Hc]. cbn in *.
  split_and!; [|done..]. rewrite given_app. lia.
Qed.
