(* ===== verification/Crypto.v ===== *)
(** Attachment proofs and the replay window ([velum-crypto]).

    HMAC-SHA256 belongs to the [ring] crate: it is the interface [Hmac], and
    what the code relies on is the class [HmacLaws]. *)
From S2P Require Import Prelude Protocol.

Class Hmac := {
  hmac_key : Type;
  hmac_key_new : list byte -> hmac_key;
  hmac_sign : hmac_key -> list byte -> list byte;
  hmac_verify : hmac_key -> list byte -> list byte -> bool
}.

(** [ring::hmac]: an HMAC-SHA256 tag has 32 bytes, and [verify] accepts a
    tag when it is the one [sign] computes. *)
Class HmacLaws (H : Hmac) : Prop := {
  hmac_sign_len : forall k m, len (hmac_sign k m) = 32;
  hmac_verify_spec : forall k m t, hmac_verify k m t = true <-> t = hmac_sign k m
}.

(** The two label strings, byte by byte. *)
Definition bytes_of_string (s : string) : list byte := String.list_byte_of_string s.
Definition ATTACHMENT_KEY_LABEL : list byte := bytes_of_string "velum v0 attachment key".
Definition ATTACHMENT_CONTEXT_LABEL : list byte := bytes_of_string "velum v0 carrier attachment".
Definition ATTACHMENT_PROOF_BYTES : N := 32.

Record AttachmentProof := { proof_bytes : list byte }.

#[export] Instance AttachmentProof_eq_dec : EqDecision AttachmentProof.
Proof. solve_decision. Defined.

Inductive AttachmentAuthenticationError := EmptySecret | InvalidProof.

#[export] Instance AttachmentAuthenticationError_eq_dec : EqDecision AttachmentAuthenticationError.
Proof. solve_decision. Defined.

Definition attachment_context (session : SessionId) (epoch : Epoch)
    (attachment_id : AttachmentId) (parameters : NegotiatedParameters) : list byte :=
  let context := [] in
  let context := context ++ ATTACHMENT_CONTEXT_LABEL in
  let context := context ++ session in
  let context := context ++ to_be_bytes 8 epoch in
  let context := context ++ AttachmentId.bytes attachment_id in
  context ++ NegotiatedParameters.canonical_bytes parameters.

Record AttachmentAuthenticator `{Hmac} := { key : hmac_key }.

Module AttachmentAuthenticator.
Section authenticator.
Context `{Hmac}.

Definition new (secret : list byte)
  : result AttachmentAuthenticator AttachmentAuthenticationError :=
  if is_empty secret then Err EmptySecret
  else
    let root := hmac_key_new secret in
    let derived := hmac_sign root ATTACHMENT_KEY_LABEL in
    Ok {| key := hmac_key_new derived |}.

(** [copy_from_slice] panics unless the tag has the proof's length. *)
Definition prove (self : AttachmentAuthenticator) (session : SessionId) (epoch : Epoch)
    (attachment_id : AttachmentId) (parameters : NegotiatedParameters)
  : outcome AttachmentProof :=
  let tag := hmac_sign (key self) (attachment_context session epoch attachment_id parameters) in
  if len tag =? ATTACHMENT_PROOF_BYTES then Ret {| proof_bytes := tag |} else Panic.

Definition verify (self : AttachmentAuthenticator) (session : SessionId) (epoch : Epoch)
    (attachment_id : AttachmentId) (parameters : NegotiatedParameters)
    (proof : AttachmentProof) : result unit AttachmentAuthenticationError :=
  if hmac_verify (key self) (attachment_context session epoch attachment_id parameters)
       (proof_bytes proof)
  then Ok tt else Err InvalidProof.
End authenticator.
End AttachmentAuthenticator.

(** ** Replay window *)
Record ReplayWindow := { latest : option Epoch }.

Module ReplayWindow.
Definition default : ReplayWindow := {| latest := None |}.
Definition is_empty (self : ReplayWindow) : bool :=
  match latest self with None => true | Some _ => false end.
Definition accepts (self : ReplayWindow) (epoch : Epoch) : bool :=
  match latest self with None => true | Some latest => latest <? epoch end.
Definition accept (self : ReplayWindow) (epoch : Epoch) : bool * ReplayWindow :=
  if negb (accepts self epoch) then (false, self)
  else (true, {| latest := Some epoch |}).
End ReplayWindow.

(** ** Lemmas and properties *)
Lemma attachment_context_inj s e i p s' e' i' p' :
  len s = 16 -> len s' = 16 -> u64 e -> u64 e' ->
  AttachmentId.wf i -> AttachmentId.wf i' ->
  NegotiatedParameters.wf p -> NegotiatedParameters.wf p' ->
  attachment_context s e i p = attachment_context s' e' i' p' ->
  s = s' /\ e = e' /\ i = i' /\ p = p'.
Proof.
  intros Hs Hs' He He' [Hi _] [Hi' _] Hp Hp' Heq.
  unfold attachment_context, AttachmentId.bytes in Heq. cbv zeta in Heq.
  rewrite <-!app_assoc, !app_nil_l in Heq. apply app_inv_head in Heq.
  apply app_inj_len in Heq as [Hses Heq]; [|congruence].
  apply app_inj_len in Heq as [Hep Heq]; [|by rewrite !len_to_be_bytes].
  apply app_inj_len in Heq as [Hid Heq]; [|congruence].
  apply to_be_bytes_inj in Hep; [|unfold u64, U64_MAX in *; simpl; lia..].
  apply canonical_bytes_inj in Heq; [|done..].
  destruct i, i'; simpl in *. by subst.
Qed.

Section proofs.
Context `{HL : HmacLaws}.

(** Attachment proofs: proving never panics and the proof verifies
    for its own session, epoch, attachment and parameters. *)
Theorem prove_verifies a s e i p :
  exists t, AttachmentAuthenticator.prove a s e i p = Ret t /\
    AttachmentAuthenticator.verify a s e i p t = Ok tt.
Proof.
  unfold AttachmentAuthenticator.prove, AttachmentAuthenticator.verify, ATTACHMENT_PROOF_BYTES.
  rewrite hmac_sign_len. eexists. split; [done|]. cbn [proof_bytes].
  by rewrite (proj2 (hmac_verify_spec _ _ _)).
Qed.

(** Binding: a proof made for one session, epoch, attachment and
    transcript verifies for another only where HMAC gives those two very
    contexts, which differ, the same tag. *)
Theorem proof_binds_context a s e i p t s' e' i' p' :
  len s = 16 -> len s' = 16 -> u64 e -> u64 e' ->
  AttachmentId.wf i -> AttachmentId.wf i' ->
  NegotiatedParameters.wf p -> NegotiatedParameters.wf p' ->
  AttachmentAuthenticator.prove a s e i p = Ret t ->
  AttachmentAuthenticator.verify a s' e' i' p' t = Ok tt ->
  (s = s' /\ e = e' /\ i = i' /\ p = p') \/
  (attachment_context s e i p <> attachment_context s' e' i' p' /\
   hmac_sign (key a) (attachment_context s e i p) =
   hmac_sign (key a) (attachment_context s' e' i' p')).
Proof.
  intros Hs Hs' He He' Hi Hi' Hp Hp'.
  unfold AttachmentAuthenticator.prove, AttachmentAuthenticator.verify.
  case_match; [|done]. intros [= <-]. cbn [proof_bytes].
  case_match eqn:Hv; [|done]. intros _. apply hmac_verify_spec in Hv.
  destruct (decide (attachment_context s e i p = attachment_context s' e' i' p')) as [Heq|Hne].
  - left. by apply attachment_context_inj.
  - by right.
Qed.
End proofs.

(** ** At concrete inputs

    A tag that is the last 32 bytes of the message stands in for HMAC. *)
Definition test_sign (k m : list byte) : list byte :=
  take 32 (rev m ++ replicate 32 x00).
Definition test_hmac : Hmac :=
  {| hmac_key := list byte; hmac_key_new := id; hmac_sign := test_sign;
     hmac_verify := fun k m t => bool_decide (t = test_sign k m) |}.
Lemma test_hmac_laws : HmacLaws test_hmac.
Proof.
  split; cbn.
  - intros k m. unfold test_sign, len. rewrite length_take, length_app, length_replicate. lia.
  - intros k m t. apply bool_decide_eq_true.
Qed.

Definition test_session : SessionId := replicate 16 x07.
Definition test_attachment : AttachmentId := {| attachment_bytes := replicate 16 x01 |}.
Definition test_parameters : NegotiatedParameters :=
  {| np_version := 1; np_capabilities := 1;
     np_client_nonce := {| nonce_bytes := replicate 16 x02 |};
     np_server_nonce := {| nonce_bytes := replicate 16 x03 |} |}.
Lemma test_attachment_wf : AttachmentId.wf test_attachment.
Proof. done. Qed.
Lemma test_parameters_wf : NegotiatedParameters.wf test_parameters.
Proof. done. Qed.

Definition test_authenticator : AttachmentAuthenticator (H := test_hmac) :=
  {| key := [x05] : @hmac_key test_hmac |}.

Lemma prove_verifies_witness :
  exists t, AttachmentAuthenticator.prove test_authenticator test_session 0 test_attachment
      test_parameters = Ret t /\
    AttachmentAuthenticator.verify test_authenticator test_session 0 test_attachment
      test_parameters t = Ok tt.
Proof.
  exact (prove_verifies (HL := test_hmac_laws) test_authenticator test_session 0
           test_attachment test_parameters).
Defined.

(** The stand-in ignores the session, so a proof for one session serves for
    another: the two contexts differ and have the same tag. *)
Definition other_session : SessionId := replicate 16 x09.

Lemma proof_binds_context_witness :
  (test_session = other_session /\ 0 = 0 /\ test_attachment = test_attachment /\
   test_parameters = test_parameters) \/
  (attachment_context test_session 0 test_attachment test_parameters
     <> attachment_context other_session 0 test_attachment test_parameters /\
   test_sign [x05] (attachment_context test_session 0 test_attachment test_parameters) =
   test_sign [x05] (attachment_context other_session 0 test_attachment test_parameters)).
Proof.
  eapply (proof_binds_context (HL := test_hmac_laws) test_authenticator test_session 0
            test_attachment test_parameters _ other_session 0 test_attachment test_parameters
            eq_refl eq_refl ltac:(done) ltac:(done) test_attachment_wf test_attachment_wf
            test_parameters_wf test_parameters_wf); [reflexivity|].
  by vm_compute.
Defined.
