(* ===== verification/Policy.v ===== *)
(** Carrier transition policy ([velum-policy]). *)
From S2P Require Import Prelude Carrier.

Record FlowRequirement := { reliability : Reliability }.

Definition fallback_supports (requirement : FlowRequirement) : bool :=
  bool_decide (reliability requirement = StreamReliability).

Inductive FallbackMode := Cold | Warm.

(** The policy's own reasons; telemetry has an enum of the same shape. *)
Inductive TransitionReason :=
| PrimaryUnhealthy
| PrimaryRecovered
| LossThresholdExceeded
| LatencyThresholdExceeded.

Inductive TransitionDecision :=
| Stay
| Transition (mode : FallbackMode) (reason : TransitionReason) (to : CarrierKind).

#[export] Instance FallbackMode_eq_dec : EqDecision FallbackMode.
Proof. solve_decision. Defined.
#[export] Instance TransitionReason_eq_dec : EqDecision TransitionReason.
Proof. solve_decision. Defined.
#[export] Instance TransitionDecision_eq_dec : EqDecision TransitionDecision.
Proof. solve_decision. Defined.

Record CarrierObservation := { kind : CarrierKind; health : CarrierHealth; at_millis : N }.

Record TransitionPolicy := {
  fallback_mode : FallbackMode;
  unhealthy_observations : N;
  recovery_observations : N;
  minimum_transition_interval_millis : N;
  maximum_loss_parts_per_million : N;
  maximum_round_trip_time_millis : N
}.

(** [option.is_some_and(f)] *)
Definition is_some_and {A} (o : option A) (f : A -> bool) : bool :=
  match o with Some a => f a | None => false end.

Definition decide_transition (self : TransitionPolicy) (active : CarrierKind)
    (primary fallback : CarrierObservation)
    (consecutive_unhealthy consecutive_recovered : N)
    (last_transition_at_millis : option N) : TransitionDecision :=
  if bool_decide (active = Quic)
     && (negb (bool_decide (kind fallback = Tls)) || negb (is_healthy (health fallback)))
  then Stay
  else if is_some_and last_transition_at_millis (fun last =>
            (* [saturating_sub] is truncated subtraction *)
            at_millis primary - last <? minimum_transition_interval_millis self)
  then Stay
  else
    let reason :=
      if bool_decide (active = Quic) && negb (is_healthy (health primary))
         && (unhealthy_observations self <=? consecutive_unhealthy)
      then Some (PrimaryUnhealthy, Tls)
      else if bool_decide (active = Quic)
         && is_some_and (loss_parts_per_million (health primary)) (fun loss =>
              maximum_loss_parts_per_million self <? loss)
         && (unhealthy_observations self <=? consecutive_unhealthy)
      then Some (LossThresholdExceeded, Tls)
      else if bool_decide (active = Quic)
         && is_some_and (round_trip_time_millis (health primary)) (fun rtt =>
              maximum_round_trip_time_millis self <? rtt)
         && (unhealthy_observations self <=? consecutive_unhealthy)
      then Some (LatencyThresholdExceeded, Tls)
      else if bool_decide (active = Tls) && is_healthy (health primary)
         && (recovery_observations self <=? consecutive_recovered)
      then Some (PrimaryRecovered, Quic)
      else None in
    match reason with
    | None => Stay
    | Some (reason, to) => Transition (fallback_mode self) reason to
    end.

(** What a decision to move promises. *)
Definition justified (self : TransitionPolicy) (active : CarrierKind)
    (primary fallback : CarrierObservation) (unhealthy recovered : N)
    (reason : TransitionReason) (to : CarrierKind) : Prop :=
  match active, to with
  | Quic, Tls =>
    kind fallback = Tls /\ is_healthy (health fallback) = true /\
    unhealthy_observations self <= unhealthy /\
    match reason with
    | PrimaryUnhealthy => is_healthy (health primary) = false
    | LossThresholdExceeded => exists loss,
        loss_parts_per_million (health primary) = Some loss /\
        maximum_loss_parts_per_million self < loss
    | LatencyThresholdExceeded => exists rtt,
        round_trip_time_millis (health primary) = Some rtt /\
        maximum_round_trip_time_millis self < rtt
    | PrimaryRecovered => False
    end
  | Tls, Quic =>
    reason = PrimaryRecovered /\ is_healthy (health primary) = true /\
    recovery_observations self <= recovered
  | _, _ => False
  end.

(** The rate limit: the last transition is at least the configured interval
    in the past. *)
Definition interval_elapsed (self : TransitionPolicy) (primary : CarrierObservation)
    (last : option N) : Prop :=
  forall l, last = Some l -> minimum_transition_interval_millis self <= at_millis primary - l.

Lemma exceeds_true (o : option N) m :
  is_some_and o (fun x => m <? x) = true -> exists x, o = Some x /\ m < x.
Proof. destruct o as [x|]; cbn; [|done]. intros ?%N.ltb_lt. by exists x. Qed.
Lemma exceeds_false (o : option N) m :
  is_some_and o (fun x => m <? x) = false -> ~ exists x, o = Some x /\ m < x.
Proof. destruct o as [x|]; cbn; intros H (y & Heq & Hy); [|done]. simplify_eq. apply N.ltb_ge in H. lia. Qed.

Lemma rate_limit_spec self primary last :
  is_some_and last (fun l =>
    at_millis primary - l <? minimum_transition_interval_millis self) = false <->
  interval_elapsed self primary last.
Proof.
  unfold interval_elapsed. destruct last as [l|]; cbn; [|done].
  rewrite N.ltb_ge. split; [by intros H ? [= <-]|by intros H; apply H].
Qed.

(** The policy moves exactly when it may and must: it stays when no
    move is justified or the rate limit has not elapsed, and every move it
    makes goes to the other carrier, for a reason its observations and
    hysteresis counters justify, in the configured mode. *)
Theorem policy_decision self active primary fallback u r last :
  match decide_transition self active primary fallback u r last with
  | Transition mode reason to =>
    mode = fallback_mode self /\ to <> active /\ interval_elapsed self primary last /\
    justified self active primary fallback u r reason to
  | Stay =>
    ~ interval_elapsed self primary last \/
    forall reason to, ~ justified self active primary fallback u r reason to
  end.
Proof.
  pose proof (rate_limit_spec self primary last) as Hel.
  unfold decide_transition, justified.
  destruct (is_some_and last _) eqn:Hlast.
  { assert (~ interval_elapsed self primary last) as Hni by (by intros ?%Hel).
    destruct (_ && _); by left. }
  apply proj1 in Hel. specialize (Hel eq_refl). clear Hlast. destruct active.
  - rewrite (bool_decide_eq_true_2 (Quic = Quic)), (bool_decide_eq_false_2 (Quic = Tls)) by done.
    cbn [andb].
    destruct (bool_decide_reflect (kind fallback = Tls)) as [Hk|Hk]; cbn [negb orb];
      [|right; intros ? []; [by intros []|]; by intros [? _]].
    destruct (is_healthy (health fallback)); cbn [negb];
      [|right; intros ? []; [by intros []|]; by intros (_ & ? & _)].
    destruct (N.leb_spec (unhealthy_observations self) u) as [Hu|Hu];
      rewrite ?andb_true_r, ?andb_false_r;
      [|right; intros ? []; [by intros []|]; intros (_ & _ & ? & _); lia].
    destruct (is_healthy (health primary)); cbn [negb]; [|by split_and!].
    destruct (is_some_and (loss_parts_per_million _) _) eqn:Hl;
      [split_and!; try done; by apply exceeds_true|].
    destruct (is_some_and (round_trip_time_millis _) _) eqn:Hr;
      [split_and!; try done; by apply exceeds_true|].
    apply exceeds_false in Hl, Hr.
    right. intros r' []; [by intros []|]. intros (_ & _ & _ & Hj). by destruct r'.
  - rewrite (bool_decide_eq_false_2 (Tls = Quic)), (bool_decide_eq_true_2 (Tls = Tls)) by done.
    cbn [andb].
    destruct (is_healthy (health primary)); cbn [andb];
      [|right; intros ? [|]; [by intros (_ & ? & _)|by intros []]].
    destruct (N.leb_spec (recovery_observations self) r); [by split_and!|].
    right. intros ? [|]; [|by intros []]. intros (_ & _ & ?). lia.
Qed.
