(* ===== verification/Session.v ===== *)
(** The reliable session tracer ([velum-session/src/lib.rs] and
    [transition.rs]): flow sequence allocation, cumulative acknowledgement,
    receive delivery, pending limits, epochs and carrier attachments. *)
From S2P Require Import Prelude Protocol Carrier Crypto.

(** ** Epoch validity during a carrier transition *)
Record TransitionState := { current : Epoch; retiring : option Epoch }.

Inductive EpochValidity := Current | Retiring | Stale | Future.

#[export] Instance EpochValidity_eq_dec : EqDecision EpochValidity.
Proof. solve_decision. Defined.

Module TransitionState.
Definition new (current : Epoch) : TransitionState :=
  {| current := current; retiring := None |}.

(** [advance]: [None] while a transition is in progress; the new epoch
    number panics when the epochs are exhausted. *)
Definition advance (self : TransitionState) : outcome (option Epoch * TransitionState) :=
  match retiring self with
  | Some _ => Ret (None, self)
  | None =>
    match checked_add U64_MAX (current self) 1 with
    | None => Panic
    | Some next => Ret (Some next, {| current := next; retiring := Some (current self) |})
    end
  end.

Definition retire_previous (self : TransitionState) : TransitionState :=
  {| current := current self; retiring := None |}.

Definition validate (self : TransitionState) (epoch : Epoch) : EpochValidity :=
  if epoch =? current self then Current
  else if bool_decide (Some epoch = retiring self) then Retiring
  else if epoch <? current self then Stale
  else Future.
End TransitionState.

(** ** Data *)
Record Segment := {
  flow_id : FlowId;
  epoch : Epoch;
  sequence : Sequence;
  bytes : list byte
}.

Record Acknowledgement := {
  ack_flow_id : FlowId;
  ack_epoch : Epoch;
  through : Sequence
}.

Record FlowLimits := {
  max_flows : N;
  max_pending_segments : N;
  max_pending_bytes : N;
  max_session_pending_segments : N;
  max_session_pending_bytes : N;
  max_pending_age : N;
  max_events : N
}.

Inductive TraceError :=
| UnknownFlow
| FlowLimit
| PendingSegmentLimit
| PendingByteLimit
| SessionPendingSegmentLimit
| SessionPendingByteLimit
| FlowHasPendingSegments
| FlowFinished
| InvalidAcknowledgement
| TransitionInProgress
| StaleEpoch
| FutureEpoch.

Record CarrierAttachment := {
  att_carrier : CarrierId;
  att_epoch : Epoch;
  att_attachment_id : AttachmentId;
  att_parameters : NegotiatedParameters;
  att_proof : AttachmentProof
}.

Inductive AttachmentError :=
| MissingNegotiation
| NegotiationMismatch
| Authentication (error : AttachmentAuthenticationError)
| AttachmentStaleEpoch
| AttachmentFutureEpoch
| Replay.

Inductive AttachmentAcceptance := Accepted | AlreadyAccepted.

Inductive NegotiationBindingError := AlreadyBound | AttachmentAlreadyAccepted.

Inductive TransitionCompatibilityError := IncompatibleNoSharedVersion.

Inductive ReceiveResult :=
| Delivered (bytes : list byte)
| Duplicate
| OutOfOrder.

Record PendingSegment := { segment : Segment; expires_at : N }.

Record ReliableFlow := {
  next_send : Sequence;
  next_receive : Sequence;
  receive_final_next : option Sequence;
  pending : list PendingSegment;
  flow_pending_bytes : N
}.

Record AcceptedCarrierAttachment := {
  acc_carrier : CarrierId;
  acc_epoch : Epoch;
  acc_attachment_id : AttachmentId
}.

Record SessionTracer := {
  transition : TransitionState;
  attachment_replay : ReplayWindow;
  negotiated : option NegotiatedParameters;
  accepted_attachment : option AcceptedCarrierAttachment;
  retiring_attachment : option AcceptedCarrierAttachment;
  tick : N;
  next_flow : N;
  pending_segments : N;
  pending_bytes : N;
  limits : FlowLimits;
  flows : gmap FlowId ReliableFlow;
  events : list SessionEvent
}.

#[export] Instance Segment_eq_dec : EqDecision Segment.
Proof. solve_decision. Defined.
#[export] Instance AcceptedCarrierAttachment_eq_dec : EqDecision AcceptedCarrierAttachment.
Proof. solve_decision. Defined.

(** ** Field assignments *)
Definition set_transition (t : TransitionState) (s : SessionTracer) : SessionTracer :=
  {| transition := t; attachment_replay := attachment_replay s; negotiated := negotiated s;
     accepted_attachment := accepted_attachment s; retiring_attachment := retiring_attachment s;
     tick := tick s; next_flow := next_flow s; pending_segments := pending_segments s;
     pending_bytes := pending_bytes s; limits := limits s; flows := flows s;
     events := events s |}.
Definition set_attachments (replay : ReplayWindow)
    (accepted retiring : option AcceptedCarrierAttachment) (s : SessionTracer) : SessionTracer :=
  {| transition := transition s; attachment_replay := replay; negotiated := negotiated s;
     accepted_attachment := accepted; retiring_attachment := retiring;
     tick := tick s; next_flow := next_flow s; pending_segments := pending_segments s;
     pending_bytes := pending_bytes s; limits := limits s; flows := flows s;
     events := events s |}.
Definition set_negotiated (p : NegotiatedParameters) (s : SessionTracer) : SessionTracer :=
  {| transition := transition s; attachment_replay := attachment_replay s;
     negotiated := Some p;
     accepted_attachment := accepted_attachment s; retiring_attachment := retiring_attachment s;
     tick := tick s; next_flow := next_flow s; pending_segments := pending_segments s;
     pending_bytes := pending_bytes s; limits := limits s; flows := flows s;
     events := events s |}.
Definition set_tick (n : N) (s : SessionTracer) : SessionTracer :=
  {| transition := transition s; attachment_replay := attachment_replay s;
     negotiated := negotiated s;
     accepted_attachment := accepted_attachment s; retiring_attachment := retiring_attachment s;
     tick := n; next_flow := next_flow s; pending_segments := pending_segments s;
     pending_bytes := pending_bytes s; limits := limits s; flows := flows s;
     events := events s |}.
Definition set_next_flow (n : N) (s : SessionTracer) : SessionTracer :=
  {| transition := transition s; attachment_replay := attachment_replay s;
     negotiated := negotiated s;
     accepted_attachment := accepted_attachment s; retiring_attachment := retiring_attachment s;
     tick := tick s; next_flow := n; pending_segments := pending_segments s;
     pending_bytes := pending_bytes s; limits := limits s; flows := flows s;
     events := events s |}.
Definition set_pending (segments bytes : N) (s : SessionTracer) : SessionTracer :=
  {| transition := transition s; attachment_replay := attachment_replay s;
     negotiated := negotiated s;
     accepted_attachment := accepted_attachment s; retiring_attachment := retiring_attachment s;
     tick := tick s; next_flow := next_flow s; pending_segments := segments;
     pending_bytes := bytes; limits := limits s; flows := flows s;
     events := events s |}.
Definition set_flows (m : gmap FlowId ReliableFlow) (s : SessionTracer) : SessionTracer :=
  {| transition := transition s; attachment_replay := attachment_replay s;
     negotiated := negotiated s;
     accepted_attachment := accepted_attachment s; retiring_attachment := retiring_attachment s;
     tick := tick s; next_flow := next_flow s; pending_segments := pending_segments s;
     pending_bytes := pending_bytes s; limits := limits s; flows := m;
     events := events s |}.
Definition set_events (l : list SessionEvent) (s : SessionTracer) : SessionTracer :=
  {| transition := transition s; attachment_replay := attachment_replay s;
     negotiated := negotiated s;
     accepted_attachment := accepted_attachment s; retiring_attachment := retiring_attachment s;
     tick := tick s; next_flow := next_flow s; pending_segments := pending_segments s;
     pending_bytes := pending_bytes s; limits := limits s; flows := flows s;
     events := l |}.

(** ** Operations *)
Definition carrier_class (kind : CarrierKind) : CarrierClass :=
  match kind with Quic => ClassQuic | Tls => ClassTls end.

(** [if !condition { panic }] *)
Definition assert (condition : bool) {A} (k : outcome A) : outcome A :=
  if condition then k else Panic.

Module SessionTracer.
Definition new (epoch : Epoch) (limits : FlowLimits) : outcome SessionTracer :=
  assert (0 <? max_pending_segments limits) (
  assert (0 <? max_pending_bytes limits) (
  assert (0 <? max_session_pending_segments limits) (
  assert (0 <? max_session_pending_bytes limits) (
  assert (0 <? max_pending_age limits) (
  assert (0 <? max_flows limits) (
  assert (0 <? max_events limits) (
  Ret {|
    transition := TransitionState.new epoch;
    attachment_replay := ReplayWindow.default;
    negotiated := None;
    accepted_attachment := None;
    retiring_attachment := None;
    tick := 0;
    next_flow := 0;
    pending_segments := 0;
    pending_bytes := 0;
    limits := limits;
    flows := ∅;
    events := [] |}))))))).

Definition epoch (self : SessionTracer) : Epoch := current (transition self).

Definition carrier_attachment_is_active (self : SessionTracer) (carrier : CarrierId) : bool :=
  match accepted_attachment self with
  | None => false
  | Some attachment => (acc_carrier attachment =? carrier) && (acc_epoch attachment =? epoch self)
  end.

Definition carrier_attachment_is_dispatchable (self : SessionTracer) (carrier : CarrierId)
  : bool :=
  carrier_attachment_is_active self carrier
  || match retiring_attachment self with
     | None => false
     | Some attachment => acc_carrier attachment =? carrier
     end.

(** [events.remove(0)] panics on an empty vector. *)
Definition record_event {E} (event : SessionEvent) : M SessionTracer E unit :=
  let! self := get in
  (if max_events (limits self) <=? len (events self) then
     match events self with
     | [] => panic
     | _ :: rest => modify (set_events rest)
     end
   else ret tt) ;!
  let! self := get in
  modify (set_events (events self ++ [event])).

Definition require_valid_epoch (epoch : Epoch) : M SessionTracer TraceError unit :=
  let! self := get in
  match TransitionState.validate (transition self) epoch with
  | Current | Retiring => ret tt
  | Stale => throw StaleEpoch
  | Future => throw FutureEpoch
  end.

Definition reject_attachment {A} (error : AttachmentError) : M SessionTracer AttachmentError A :=
  record_event (TransitionRejected AttachmentRejected) ;!
  throw error.

Definition bind_negotiated_parameters (parameters : NegotiatedParameters)
  : M SessionTracer NegotiationBindingError unit :=
  let! self := get in
  if bool_decide (is_Some (accepted_attachment self))
     || negb (ReplayWindow.is_empty (attachment_replay self))
  then throw AttachmentAlreadyAccepted
  else if bool_decide (is_Some (negotiated self)) then throw AlreadyBound
  else modify (set_negotiated parameters).

Definition new_flow : ReliableFlow :=
  {| next_send := 0; next_receive := 0; receive_final_next := None;
     pending := []; flow_pending_bytes := 0 |}.

Definition open_reliable_flow_with_id (flow_id : FlowId) : M SessionTracer TraceError unit :=
  let! self := get in
  reject_if (max_flows (limits self) <=? N.of_nat (size (flows self))) FlowLimit ;!
  reject_if ((flow_id <? next_flow self) || (flow_id =? U64_MAX)) FlowFinished ;!
  modify (set_next_flow (flow_id + 1)) ;!
  modify (set_flows (<[flow_id := new_flow]> (flows self))) ;!
  record_event FlowOpened.

Definition open_reliable_flow : M SessionTracer TraceError FlowId :=
  let! flow_id := gets next_flow in
  open_reliable_flow_with_id flow_id ;!
  ret flow_id.

Definition close_reliable_flow (flow_id : FlowId) : M SessionTracer TraceError unit :=
  let! self := get in
  let! flow := ok_or (flows self !! flow_id) UnknownFlow in
  reject_if (negb (is_empty (pending flow))) FlowHasPendingSegments ;!
  modify (set_flows (delete flow_id (flows self))).

(** [usize] arithmetic at its 64-bit width. *)
Definition usize_add {S E} (a b : N) : M S E N := expect (checked_add U64_MAX a b).

Definition send (flow_id : FlowId) (bytes : list byte) : M SessionTracer TraceError Segment :=
  let! self := get in
  let epoch := epoch self in
  match flows self !! flow_id with
  | None => throw UnknownFlow
  | Some flow =>
    if max_session_pending_segments (limits self) <=? pending_segments self then
      record_event PendingLimitReached ;! throw SessionPendingSegmentLimit
    else if max_session_pending_bytes (limits self) - pending_bytes self <? len bytes then
      record_event PendingLimitReached ;! throw SessionPendingByteLimit
    else if len (pending flow) =? max_pending_segments (limits self) then
      record_event PendingLimitReached ;! throw PendingSegmentLimit
    else if max_pending_bytes (limits self) - flow_pending_bytes flow <? len bytes then
      record_event PendingLimitReached ;! throw PendingByteLimit
    else
      let segment := {| flow_id := flow_id; Session.epoch := epoch;
                        sequence := next_send flow; bytes := bytes |} in
      let! next_send' := expect (checked_add U64_MAX (next_send flow) 1) in
      let! flow_bytes := usize_add (flow_pending_bytes flow) (len bytes) in
      let! expires := expect (checked_add U64_MAX (tick self) (max_pending_age (limits self))) in
      modify (set_flows (<[flow_id :=
        {| next_send := next_send';
           next_receive := next_receive flow;
           receive_final_next := receive_final_next flow;
           pending := pending flow ++ [{| segment := segment; expires_at := expires |}];
           flow_pending_bytes := flow_bytes |}]> (flows self))) ;!
      let! segments := usize_add (pending_segments self) 1 in
      let! session_bytes := usize_add (pending_bytes self) (len bytes) in
      modify (set_pending segments session_bytes) ;!
      ret segment
  end.

(** The loop of [acknowledge]: pops the front while its sequence is at most
    [through], returning what is left, the flow's byte count and the
    released counts. *)
Fixpoint pop_acknowledged {S E} (through : Sequence) (pending : list PendingSegment)
    (flow_bytes released_segments released_bytes : N)
  : M S E (list PendingSegment * N * (N * N)) :=
  match pending with
  | [] => ret ([], flow_bytes, (released_segments, released_bytes))
  | p :: rest =>
    if sequence (segment p) <=? through then
      let! flow_bytes := expect (checked_sub flow_bytes (len (bytes (segment p)))) in
      let! released_segments := usize_add released_segments 1 in
      let! released_bytes := usize_add released_bytes (len (bytes (segment p))) in
      pop_acknowledged through rest flow_bytes released_segments released_bytes
    else ret (p :: rest, flow_bytes, (released_segments, released_bytes))
  end.

(** The session accounting that [acknowledge], [reset_reliable_flow] and
    [advance_time] share. *)
Definition release_pending {E} (released_segments released_bytes : N)
  : M SessionTracer E unit :=
  let! self := get in
  let! segments := expect (checked_sub (pending_segments self) released_segments) in
  let! session_bytes := expect (checked_sub (pending_bytes self) released_bytes) in
  modify (set_pending segments session_bytes).

Definition acknowledge (acknowledgement : Acknowledgement) : M SessionTracer TraceError unit :=
  require_valid_epoch (ack_epoch acknowledgement) ;!
  let! self := get in
  let! flow := ok_or (flows self !! ack_flow_id acknowledgement) UnknownFlow in
  reject_if (next_send flow <=? through acknowledgement) InvalidAcknowledgement ;!
  reject_if (existsb (fun p =>
      (sequence (segment p) <=? through acknowledgement)
      && (ack_epoch acknowledgement <? Session.epoch (segment p))) (pending flow))
    InvalidAcknowledgement ;!
  let! popped := pop_acknowledged (through acknowledgement) (pending flow)
    (flow_pending_bytes flow) 0 0 in
  modify (set_flows (<[ack_flow_id acknowledgement :=
    {| next_send := next_send flow;
       next_receive := next_receive flow;
       receive_final_next := receive_final_next flow;
       pending := popped.1.1;
       flow_pending_bytes := popped.1.2 |}]> (flows self))) ;!
  release_pending popped.2.1 popped.2.2.

Definition receive (segment : Segment) : M SessionTracer TraceError ReceiveResult :=
  require_valid_epoch (Session.epoch segment) ;!
  let! self := get in
  let! flow := ok_or (flows self !! flow_id segment) UnknownFlow in
  reject_if (match receive_final_next flow with
             | None => false
             | Some final_next => final_next <=? sequence segment
             end) FlowFinished ;!
  if sequence segment <? next_receive flow then
    record_event DuplicateIgnored ;! ret Duplicate
  else if next_receive flow <? sequence segment then
    record_event OutOfOrderRejected ;! ret OutOfOrder
  else
    let! next_receive' := expect (checked_add U64_MAX (next_receive flow) 1) in
    modify (set_flows (<[flow_id segment :=
      {| next_send := next_send flow;
         next_receive := next_receive';
         receive_final_next := receive_final_next flow;
         pending := pending flow;
         flow_pending_bytes := flow_pending_bytes flow |}]> (flows self))) ;!
    ret (Delivered (bytes segment)).

Definition finish_receiving (flow_id : FlowId) (epoch : Epoch)
    (final_next_sequence : Sequence) : M SessionTracer TraceError unit :=
  require_valid_epoch epoch ;!
  let! self := get in
  let! flow := ok_or (flows self !! flow_id) UnknownFlow in
  reject_if (final_next_sequence <? next_receive flow) FlowFinished ;!
  match receive_final_next flow with
  | Some existing => if existing =? final_next_sequence then ret tt else throw FlowFinished
  | None =>
    modify (set_flows (<[flow_id :=
      {| next_send := next_send flow;
         next_receive := next_receive flow;
         receive_final_next := Some final_next_sequence;
         pending := pending flow;
         flow_pending_bytes := flow_pending_bytes flow |}]> (flows self)))
  end.

Definition reset_reliable_flow (flow_id : FlowId) : M SessionTracer TraceError unit :=
  let! self := get in
  let! flow := ok_or (flows self !! flow_id) UnknownFlow in
  modify (set_flows (delete flow_id (flows self))) ;!
  release_pending (len (pending flow)) (flow_pending_bytes flow).

(** [pending(&self, flow_id)] *)
Definition pending_of (self : SessionTracer) (flow_id : FlowId)
  : result (list Segment) TraceError :=
  match flows self !! flow_id with
  | None => Err UnknownFlow
  | Some flow => Ok (segment <$> pending flow)
  end.

Definition with_epoch (epoch : Epoch) (s : Segment) : Segment :=
  {| flow_id := flow_id s; Session.epoch := epoch; sequence := sequence s; bytes := bytes s |}.

Definition resume_unacknowledged (self : SessionTracer) (flow_id : FlowId)
  : result (list Segment) TraceError :=
  match flows self !! flow_id with
  | None => Err UnknownFlow
  | Some flow => Ok ((fun p => with_epoch (epoch self) (segment p)) <$> pending flow)
  end.

Definition front_expired (now : N) (flow : ReliableFlow) : bool :=
  match pending flow with
  | [] => false
  | p :: _ => expires_at p <=? now
  end.

Definition is_timed_out (self : SessionTracer) (id : FlowId) : bool :=
  match flows self !! id with
  | None => false
  | Some flow => front_expired (tick self) flow
  end.

Definition timed_out_flows (self : SessionTracer) : list FlowId :=
  filter (fun id => is_timed_out self id = true) (keys (flows self)).

Fixpoint remove_timed_out {E} (timed_out : list FlowId) : M SessionTracer E unit :=
  match timed_out with
  | [] => ret tt
  | flow_id :: rest =>
    let! self := get in
    let! flow := expect (flows self !! flow_id) in
    modify (set_flows (delete flow_id (flows self))) ;!
    release_pending (len (pending flow)) (flow_pending_bytes flow) ;!
    remove_timed_out rest
  end.

Fixpoint record_timed_out {E} (timed_out : list FlowId) : M SessionTracer E unit :=
  match timed_out with
  | [] => ret tt
  | _ :: rest => record_event FlowTimedOut ;! record_timed_out rest
  end.

Definition advance_time {E} (ticks : N) : M SessionTracer E (list FlowId) :=
  let! self := get in
  let! now := expect (checked_add U64_MAX (tick self) ticks) in
  modify (set_tick now) ;!
  let! timed_out := gets timed_out_flows in
  remove_timed_out timed_out ;!
  record_timed_out timed_out ;!
  ret timed_out.

Definition begin_transition : M SessionTracer TraceError Epoch := fun self =>
  match TransitionState.advance (transition self) with
  | Ret (None, _) => Ret (Err TransitionInProgress, self)
  | Ret (Some next, t) =>
    Ret (Ok next,
         set_attachments (attachment_replay self) None (accepted_attachment self)
           (set_transition t self))
  | Panic => Panic
  | OutOfFuel => OutOfFuel
  end.

Definition begin_explained_transition (from to : CarrierKind) (reason : TransitionReason)
  : M SessionTracer TraceError Epoch :=
  let! epoch := begin_transition in
  record_event (TransitionStarted (carrier_class from) (carrier_class to) reason) ;!
  ret epoch.

Definition negotiate_transition_version (local peer : VersionRange)
  : M SessionTracer TransitionCompatibilityError N :=
  match VersionRange.negotiate local peer with
  | Some version => ret version
  | None =>
    record_event (TransitionRejected IncompatibleVersion) ;!
    throw IncompatibleNoSharedVersion
  end.

Definition authenticate_carrier_attachment `{Hmac} (authenticator : AttachmentAuthenticator)
    (session : SessionId) (attachment : CarrierAttachment)
  : M SessionTracer AttachmentError AttachmentAcceptance :=
  let! self := get in
  let! negotiated := ok_or (negotiated self) MissingNegotiation in
  if negb (bool_decide (att_parameters attachment = negotiated))
  then reject_attachment NegotiationMismatch
  else
    match TransitionState.validate (transition self) (att_epoch attachment) with
    | Retiring | Stale => reject_attachment AttachmentStaleEpoch
    | Future => reject_attachment AttachmentFutureEpoch
    | Current =>
      match AttachmentAuthenticator.verify authenticator session (att_epoch attachment)
              (att_attachment_id attachment) negotiated (att_proof attachment) with
      | Err error => reject_attachment (Authentication error)
      | Ok _ =>
        let accepted := {| acc_carrier := att_carrier attachment;
                           acc_epoch := att_epoch attachment;
                           acc_attachment_id := att_attachment_id attachment |} in
        if bool_decide (accepted_attachment self = Some accepted)
        then ret AlreadyAccepted
        else
          let '(fresh, replay) :=
            ReplayWindow.accept (attachment_replay self) (att_epoch attachment) in
          if negb fresh then reject_attachment Replay
          else
            modify (set_attachments replay (Some accepted) (retiring_attachment self)) ;!
            ret Accepted
      end
    end.

Definition complete_transition {E} : M SessionTracer E unit :=
  modify (fun self => set_transition (TransitionState.retire_previous (transition self)) self) ;!
  modify (fun self => set_attachments (attachment_replay self) (accepted_attachment self) None self) ;!
  record_event TransitionCompleted.
End SessionTracer.

(** ** Invariant *)

(** The sum of a measure over the flows of a session. *)
Definition total (g : ReliableFlow -> N) (m : gmap FlowId ReliableFlow) : N :=
  map_fold (fun _ f acc => g f + acc) 0 m.

Definition segment_count (f : ReliableFlow) : N := len (pending f).

Definition payload (p : PendingSegment) : N := len (bytes (segment p)).

Fixpoint bytes_total (ps : list PendingSegment) : N :=
  match ps with
  | [] => 0
  | p :: ps => payload p + bytes_total ps
  end.

(** Consecutive sequence numbers from [start]. *)
Fixpoint contiguous (start : N) (ps : list PendingSegment) : Prop :=
  match ps with
  | [] => True
  | p :: ps => sequence (segment p) = start /\ contiguous (start + 1) ps
  end.

(** [p] was sent no later than [q]. *)
Definition older (p q : PendingSegment) : Prop :=
  epoch (segment p) <= epoch (segment q) /\ expires_at p <= expires_at q.

Record flow_ok (lim : FlowLimits) (cur now nf : N) (id : FlowId) (f : ReliableFlow) : Prop := {
  fl_id : id < nf;
  fl_pending : Forall (fun p => flow_id (segment p) = id /\ epoch (segment p) <= cur /\
                                expires_at p <= now + max_pending_age lim) (pending f);
  fl_count : len (pending f) <= next_send f;
  fl_contiguous : contiguous (next_send f - len (pending f)) (pending f);
  fl_older : StronglySorted older (pending f);
  fl_bytes : flow_pending_bytes f = bytes_total (pending f);
  fl_max_segments : len (pending f) <= max_pending_segments lim;
  fl_max_bytes : flow_pending_bytes f <= max_pending_bytes lim;
  fl_next_send : u64 (next_send f);
  fl_next_receive : u64 (next_receive f);
  fl_final : forall n, receive_final_next f = Some n -> next_receive f <= n
}.

Record flows_ok (lim : FlowLimits) (cur now nf ps pb : N) (m : gmap FlowId ReliableFlow)
  : Prop := {
  fs_flow : map_Forall (flow_ok lim cur now nf) m;
  fs_segments : ps = total segment_count m;
  fs_bytes : pb = total flow_pending_bytes m;
  fs_max_segments : ps <= max_session_pending_segments lim;
  fs_max_bytes : pb <= max_session_pending_bytes lim;
  fs_size : N.of_nat (size m) <= max_flows lim
}.

Record attachments_ok (t : TransitionState) (replay : ReplayWindow)
    (neg : option NegotiatedParameters) (acc ret : option AcceptedCarrierAttachment) : Prop := {
  at_retiring : forall e, retiring t = Some e -> current t = e + 1;
  at_replay : forall e, latest replay = Some e -> e <= current t;
  at_accepted : forall a, acc = Some a ->
    acc_epoch a = current t /\ latest replay = Some (current t);
  at_retiring_attachment : forall a, ret = Some a -> retiring t = Some (acc_epoch a);
  at_negotiated : neg = None -> latest replay = None
}.

Record limits_ok (lim : FlowLimits) : Prop := {
  lim_segments : u64 (max_session_pending_segments lim);
  lim_bytes : u64 (max_session_pending_bytes lim);
  lim_flow_bytes : u64 (max_pending_bytes lim);
  lim_flow_segments : u64 (max_pending_segments lim);
  lim_events : 0 < max_events lim;
  lim_flow_segments_pos : 0 < max_pending_segments lim;
  lim_flows_pos : 0 < max_flows lim
}.

Record Inv (s : SessionTracer) : Prop := {
  inv_limits : limits_ok (limits s);
  inv_flows : flows_ok (limits s) (current (transition s)) (tick s) (next_flow s)
    (pending_segments s) (pending_bytes s) (flows s);
  inv_attachments : attachments_ok (transition s) (attachment_replay s) (negotiated s)
    (accepted_attachment s) (retiring_attachment s);
  inv_events : len (events s) <= max_events (limits s);
  inv_epoch : u64 (current (transition s))
}.

(** *** Sums *)
Lemma total_empty g : total g ∅ = 0.
Proof. apply map_fold_empty. Qed.
Lemma total_insert g m id f : m !! id = None -> total g (<[id:=f]> m) = g f + total g m.
Proof. intros. unfold total. rewrite map_fold_insert_L; [done| |done]. intros. lia. Qed.
Lemma total_delete g m id f : m !! id = Some f -> total g m = g f + total g (delete id m).
Proof. intros. unfold total. apply (map_fold_delete_L (fun _ f acc => g f + acc)); [|done]. intros. lia. Qed.
Lemma total_update g m id f f' :
  m !! id = Some f -> total g (<[id:=f']> m) + g f = total g m + g f'.
Proof.
  intros Hf. rewrite (total_delete g m id f Hf), <-insert_delete_eq.
  rewrite total_insert by apply lookup_delete_eq. lia.
Qed.

(** *** Pending segments *)
Lemma contiguous_app start l k :
  contiguous start (l ++ k) <-> contiguous start l /\ contiguous (start + len l) k.
Proof.
  revert start. induction l as [|p l IH]; intros start; cbn [app contiguous].
  - rewrite len_nil, N.add_0_r. tauto.
  - rewrite IH, len_cons, N.add_assoc. tauto.
Qed.
Lemma bytes_total_app l k : bytes_total (l ++ k) = bytes_total l + bytes_total k.
Proof. induction l as [|p l IH]; cbn [app bytes_total]; lia. Qed.

Lemma contiguous_lookup start ps i p :
  contiguous start ps -> ps !! i = Some p -> sequence (segment p) = start + N.of_nat i.
Proof.
  revert start i. induction ps as [|q ps IH]; intros start i; [done|].
  intros [Hq Hps]. destruct i as [|i]; cbn; [intros [= <-]; lia|].
  intros Hi. rewrite (IH _ _ Hps Hi). lia.
Qed.

(** *** Growth *)
Lemma flow_ok_mono lim cur now nf cur' now' nf' id f :
  cur <= cur' -> now <= now' -> nf <= nf' ->
  flow_ok lim cur now nf id f -> flow_ok lim cur' now' nf' id f.
Proof.
  intros Hc Hn Hf []. constructor; try done; [lia|].
  eapply Forall_impl; [done|]. cbv beta. intros p (? & ? & ?). split_and!; [done|lia..].
Qed.

Lemma flows_ok_mono lim cur now nf cur' now' nf' ps pb m :
  cur <= cur' -> now <= now' -> nf <= nf' ->
  flows_ok lim cur now nf ps pb m -> flows_ok lim cur' now' nf' ps pb m.
Proof.
  intros ??? []. constructor; try done.
  eapply map_Forall_impl; [done|]. intros id f. by apply flow_ok_mono.
Qed.

Lemma flows_ok_update lim cur now nf ps pb ps' pb' m id f f' :
  flows_ok lim cur now nf ps pb m -> m !! id = Some f ->
  flow_ok lim cur now nf id f' ->
  ps' + len (pending f) = ps + len (pending f') ->
  pb' + flow_pending_bytes f = pb + flow_pending_bytes f' ->
  ps' <= max_session_pending_segments lim -> pb' <= max_session_pending_bytes lim ->
  flows_ok lim cur now nf ps' pb' (<[id:=f']> m).
Proof.
  intros [] Hf Hok Hps Hpb ??. constructor; try done.
  - by apply map_Forall_insert_2.
  - pose proof (total_update segment_count m id f f' Hf) as Htot.
    change (segment_count f) with (len (pending f)) in Htot.
    change (segment_count f') with (len (pending f')) in Htot. lia.
  - pose proof (total_update flow_pending_bytes m id f f' Hf). lia.
  - by rewrite map_size_insert_Some by done.
Qed.

Lemma flows_ok_delete lim cur now nf ps pb m id f :
  flows_ok lim cur now nf ps pb m -> m !! id = Some f ->
  len (pending f) <= ps /\ flow_pending_bytes f <= pb /\
  flows_ok lim cur now nf (ps - len (pending f)) (pb - flow_pending_bytes f) (delete id m).
Proof.
  intros [] Hf.
  pose proof (total_delete segment_count m id f Hf) as Htot1.
  pose proof (total_delete flow_pending_bytes m id f Hf) as Htot2.
  change (segment_count f) with (len (pending f)) in Htot1. split_and!; [lia..|]. constructor; try lia.
  - by apply map_Forall_delete.
  - rewrite map_size_delete_Some by done. lia.
Qed.

Lemma flow_in_range lim cur now nf ps pb m id f :
  flows_ok lim cur now nf ps pb m -> m !! id = Some f -> flow_ok lim cur now nf id f.
Proof. intros [Hm] Hf. by apply (Hm id). Qed.

(** *** Events *)
Definition push_event (max : N) (l : list SessionEvent) (e : SessionEvent) : list SessionEvent :=
  (if max <=? len l then tail l else l) ++ [e].

(** The state after [record_event]. *)
Definition logged (e : SessionEvent) (s : SessionTracer) : SessionTracer :=
  set_events (push_event (max_events (limits s)) (events s) e) s.

Lemma len_push_event max l e : 0 < max -> len l <= max -> len (push_event max l e) <= max.
Proof.
  intros. unfold push_event. rewrite len_app. change (len [e]) with 1.
  destruct (N.leb_spec max (len l)); [|lia].
  destruct l; cbn [tail]; rewrite ?len_cons, ?len_nil in *; lia.
Qed.


Lemma record_event_run {E} e s : 0 < max_events (limits s) ->
  SessionTracer.record_event (E := E) e s = Ret (Ok tt, logged e s).
Proof.
  intros Hpos. unfold SessionTracer.record_event, logged, push_event, bind, get, modify, ret, panic.
  destruct (N.leb_spec (max_events (limits s)) (len (events s))) as [Hle|]; [|done].
  destruct (events s) as [|x l]; [rewrite len_nil in Hle; lia|done].
Qed.

Lemma Inv_logged e s : Inv s -> Inv (logged e s).
Proof.
  intros [[] ? ? ? ?]. constructor; try done. by apply len_push_event.
Qed.

Lemma wp_record_event {E} e s (Q : result unit E -> SessionTracer -> Prop) :
  Inv s -> (Inv (logged e s) -> Q (Ok tt) (logged e s)) -> wp (SessionTracer.record_event e) s Q.
Proof.
  intros HI HQ. unfold wp. rewrite record_event_run by apply HI. by apply HQ, Inv_logged.
Qed.

Lemma wp_bind_record_event {E B} e (k : unit -> M SessionTracer E B) s Q :
  Inv s -> (Inv (logged e s) -> wp (k tt) (logged e s) Q) ->
  wp (bind (SessionTracer.record_event e) k) s Q.
Proof. intros HI HQ. apply wp_bind, wp_record_event; [done|exact HQ]. Qed.

(** The epochs a session takes frames of. *)
Definition epoch_valid (s : SessionTracer) (e : Epoch) : Prop :=
  e = current (transition s) \/ retiring (transition s) = Some e.

Lemma wp_require_valid_epoch {B} ep (k : unit -> M SessionTracer TraceError B) s Q :
  (forall e, ~ epoch_valid s ep -> Q (Err e) s) ->
  (epoch_valid s ep -> wp (k tt) s Q) ->
  wp (bind (SessionTracer.require_valid_epoch ep) k) s Q.
Proof.
  unfold epoch_valid. intros He Hk. apply wp_bind. unfold SessionTracer.require_valid_epoch. wp_steps.
  unfold TransitionState.validate.
  destruct (N.eqb_spec ep (current (transition s))); [apply wp_ret, Hk; auto|].
  destruct (bool_decide_reflect (Some ep = retiring (transition s))); [apply wp_ret, Hk; auto|].
  destruct (_ <? _); wp_steps; apply He; intros [?|?]; congruence.
Qed.

Ltac session_step :=
  first
    [ wp_step
    | apply wp_bind_record_event; [done|intro]
    | apply wp_record_event; [done|intro]
    | apply wp_require_valid_epoch; [intros ? ?|intro] ]; cbv beta.
Ltac session_steps := repeat session_step.

(** *** The acknowledgement loop *)

(** The pending segments an acknowledgement covers, and those it leaves. *)
Definition acked (th : Sequence) (ps : list PendingSegment) : list PendingSegment :=
  filter (fun p => sequence (segment p) <= th) ps.
Definition unacked (th : Sequence) (ps : list PendingSegment) : list PendingSegment :=
  filter (fun p => th < sequence (segment p)) ps.

Lemma acked_cons th p ps : sequence (segment p) <= th -> acked th (p :: ps) = p :: acked th ps.
Proof. intros. unfold acked. by rewrite filter_cons_True. Qed.
Lemma unacked_cons th p ps : sequence (segment p) <= th -> unacked th (p :: ps) = unacked th ps.
Proof. intros. unfold unacked. by rewrite filter_cons_False by lia. Qed.

Lemma contiguous_above start th ps :
  contiguous start ps -> th < start -> acked th ps = [] /\ unacked th ps = ps.
Proof.
  revert start. induction ps as [|p ps IH]; intros start; [done|].
  intros [Hp Hps] Hlt. destruct (IH _ Hps) as [H1 H2]; [lia|]. unfold acked, unacked in *.
  rewrite filter_cons_False, filter_cons_True by lia. by rewrite H1, H2.
Qed.

Lemma acked_unacked start th ps : contiguous start ps -> ps = acked th ps ++ unacked th ps.
Proof.
  revert start. induction ps as [|p ps IH]; intros start Hc; [done|].
  destruct (decide (sequence (segment p) <= th)) as [Hle|Hgt].
  - rewrite acked_cons, unacked_cons by done. cbn [app]. f_equal. by eapply IH, Hc.
  - destruct (contiguous_above start th (p :: ps)) as [-> ->]; [done|destruct Hc; lia|done].
Qed.

Lemma pop_acknowledged_run {S E} (s : S) start th ps fb rs rb :
  contiguous start ps -> bytes_total ps <= fb ->
  rs + len ps <= U64_MAX -> rb + bytes_total ps <= U64_MAX ->
  SessionTracer.pop_acknowledged (E := E) th ps fb rs rb s =
    Ret (Ok (unacked th ps, fb - bytes_total (acked th ps),
             (rs + len (acked th ps), rb + bytes_total (acked th ps))), s).
Proof.
  revert start fb rs rb. induction ps as [|p ps IH]; intros start fb rs rb Hc Hfb Hrs Hrb.
  - change (acked th []) with (@nil PendingSegment).
    change (unacked th []) with (@nil PendingSegment).
    cbn [SessionTracer.pop_acknowledged bytes_total]. unfold ret.
    change (len (@nil PendingSegment)) with 0.
    by rewrite N.sub_0_r, (N.add_0_r rs), (N.add_0_r rb).
  - destruct (decide (sequence (segment p) <= th)) as [Hle|Hgt].
    + cbn [SessionTracer.pop_acknowledged]. rewrite (proj2 (N.leb_le _ _) Hle).
      rewrite acked_cons, unacked_cons by done. rewrite len_cons in Hrs.
      cbn [bytes_total] in *. rewrite len_cons. unfold payload in *.
      unfold SessionTracer.usize_add.
      rewrite (proj2 (checked_sub_Some _ _ (fb - len (bytes (segment p))))) by (split; [done|lia]).
      rewrite (proj2 (checked_add_Some _ _ _ (rs + 1))) by (split; [done|lia]).
      rewrite (proj2 (checked_add_Some _ _ _ (rb + len (bytes (segment p))))) by (split; [done|lia]).
      cbn [expect]. unfold bind, ret. rewrite (IH (start + 1)) by (try apply Hc; lia).
      do 2 f_equal. by rewrite N.sub_add_distr, !N.add_assoc.
    + destruct (contiguous_above start th (p :: ps)) as [-> ->]; [done|destruct Hc; lia|].
      cbn [SessionTracer.pop_acknowledged]. rewrite (proj2 (N.leb_gt _ _)) by lia.
      cbn [bytes_total]. unfold ret. change (len (@nil PendingSegment)) with 0.
    by rewrite N.sub_0_r, (N.add_0_r rs), (N.add_0_r rb).
Qed.

Lemma contiguous_unacked start th ps :
  contiguous start ps ->
  contiguous (start + len ps - len (unacked th ps)) (unacked th ps).
Proof.
  intros Hc. pose proof Hc as Heq. apply (acked_unacked start th) in Heq.
  rewrite Heq in Hc. apply contiguous_app in Hc as [_ Hc].
  rewrite Heq at 1. rewrite len_app.
  by replace (start + _ - _) with (start + len (acked th ps)) by lia.
Qed.

(** *** Preservation by the operations *)
Lemma release_pending_run {E} s n b :
  n <= pending_segments s -> b <= pending_bytes s ->
  SessionTracer.release_pending (E := E) n b s =
    Ret (Ok tt, set_pending (pending_segments s - n) (pending_bytes s - b) s).
Proof.
  intros Hn Hb. unfold SessionTracer.release_pending, bind, get, modify.
  rewrite (proj2 (checked_sub_Some _ _ (pending_segments s - n))) by (split; [done|lia]).
  by rewrite (proj2 (checked_sub_Some _ _ (pending_bytes s - b))) by (split; [done|lia]).
Qed.

Lemma wp_release_pending {E} s n b (Q : result unit E -> SessionTracer -> Prop) :
  n <= pending_segments s -> b <= pending_bytes s ->
  Q (Ok tt) (set_pending (pending_segments s - n) (pending_bytes s - b) s) ->
  wp (SessionTracer.release_pending n b) s Q.
Proof. intros Hn Hb HQ. unfold wp. by rewrite release_pending_run. Qed.

Lemma Inv_update_flow s id f f' ps pb :
  Inv s -> flows s !! id = Some f ->
  flow_ok (limits s) (current (transition s)) (tick s) (next_flow s) id f' ->
  ps + len (pending f) = pending_segments s + len (pending f') ->
  pb + flow_pending_bytes f = pending_bytes s + flow_pending_bytes f' ->
  ps <= max_session_pending_segments (limits s) -> pb <= max_session_pending_bytes (limits s) ->
  Inv (set_pending ps pb (set_flows (<[id := f']> (flows s)) s)).
Proof.
  intros [] ??????. constructor; try done. by eapply flows_ok_update.
Qed.

(** An update that keeps the pending segments. *)
Lemma Inv_update_receive s id f f' :
  Inv s -> flows s !! id = Some f -> pending f' = pending f ->
  flow_ok (limits s) (current (transition s)) (tick s) (next_flow s) id f' ->
  Inv (set_flows (<[id := f']> (flows s)) s).
Proof.
  intros HI Hf Hp Hok. pose proof (flow_in_range _ _ _ _ _ _ _ _ _ (inv_flows _ HI) Hf) as Hok0.
  destruct HI. constructor; try done.
  eapply flows_ok_update; [done..| | | |].
  - by rewrite Hp.
  - by rewrite (fl_bytes _ _ _ _ _ _ Hok), (fl_bytes _ _ _ _ _ _ Hok0), Hp.
  - by destruct inv_flows0.
  - by destruct inv_flows0.
Qed.

Lemma Inv_delete_flow s id f :
  Inv s -> flows s !! id = Some f ->
  len (pending f) <= pending_segments s /\ flow_pending_bytes f <= pending_bytes s /\
  Inv (set_pending (pending_segments s - len (pending f))
         (pending_bytes s - flow_pending_bytes f) (set_flows (delete id (flows s)) s)).
Proof.
  intros [] Hf. destruct (flows_ok_delete _ _ _ _ _ _ _ _ _ inv_flows0 Hf) as (? & ? & ?).
  split_and!; [done..|]. by constructor.
Qed.

Lemma flow_ok_send lim cur now nf id f b :
  flow_ok lim cur now nf id f ->
  len (pending f) + 1 <= max_pending_segments lim ->
  flow_pending_bytes f + len b <= max_pending_bytes lim ->
  next_send f < U64_MAX ->
  flow_ok lim cur now nf id
    {| next_send := next_send f + 1;
       next_receive := next_receive f;
       receive_final_next := receive_final_next f;
       pending := pending f ++ [{| segment := {| flow_id := id; epoch := cur;
                                                 sequence := next_send f; bytes := b |};
                                   expires_at := now + max_pending_age lim |}];
       flow_pending_bytes := flow_pending_bytes f + len b |}.
Proof.
  intros [] Hs Hb Hn.
  constructor; cbn [next_send next_receive receive_final_next pending flow_pending_bytes]; try done.
  - apply Forall_app. split; [done|]. by repeat constructor.
  - rewrite len_app. change (len [_]) with 1. lia.
  - rewrite len_app. change (len [_]) with 1. apply contiguous_app. split.
    + by replace (next_send f + 1 - (len (pending f) + 1))
        with (next_send f - len (pending f)) by lia.
    + cbn [contiguous segment sequence]. split; [lia|done].
  - apply StronglySorted_app_2; [|done|by repeat constructor].
    intros p q Hp ->%list_elem_of_singleton.
    rewrite Forall_forall in fl_pending0. destruct (fl_pending0 p Hp) as (_ & ? & ?).
    by split.
  - rewrite bytes_total_app. cbn [bytes_total payload segment bytes]. unfold payload. cbn. lia.
  - rewrite len_app. change (len [_]) with 1. lia.
  - unfold u64. lia.
Qed.

Lemma send_preserves s id b :
  Inv s ->
  (forall f, flows s !! id = Some f -> next_send f < U64_MAX) ->
  tick s + max_pending_age (limits s) <= U64_MAX ->
  wp (SessionTracer.send id b) s (fun _ s' => Inv s').
Proof.
  intros HI Hn Ht. unfold SessionTracer.send. wp_step.
  destruct (flows s !! id) as [f|] eqn:Hf; [|by wp_steps].
  pose proof (flow_in_range _ _ _ _ _ _ _ _ _ (inv_flows _ HI) Hf) as Hok.
  specialize (Hn f eq_refl). pose proof (inv_limits s HI) as [].
  destruct (inv_flows _ HI) as [_ _ _ Hms Hmb _]. pose proof Hok as []. unfold u64 in *.
  unfold SessionTracer.usize_add. session_steps; try done;
    rewrite N.leb_gt, N.ltb_ge, N.eqb_neq in *; try lia.
  apply (Inv_update_flow s id f); cbn [pending flow_pending_bytes]; try done.
  - apply flow_ok_send; [done|lia..].
  - rewrite len_app. change (len [_]) with 1. lia.
  - lia.
  - lia.
  - lia.
Qed.

(** What [acknowledge] does to a flow it accepts. *)
Definition ack_flow (th : Sequence) (f : ReliableFlow) : ReliableFlow :=
  {| next_send := next_send f;
     next_receive := next_receive f;
     receive_final_next := receive_final_next f;
     pending := unacked th (pending f);
     flow_pending_bytes := flow_pending_bytes f - bytes_total (acked th (pending f)) |}.

Lemma flow_ok_ack lim cur now nf id f th :
  flow_ok lim cur now nf id f -> flow_ok lim cur now nf id (ack_flow th f).
Proof.
  intros [].
  pose proof (acked_unacked _ th _ fl_contiguous0) as Heq.
  assert (len (pending f) = len (acked th (pending f)) + len (unacked th (pending f))) as Hlen
    by (rewrite Heq at 1; by rewrite len_app).
  assert (bytes_total (pending f)
          = bytes_total (acked th (pending f)) + bytes_total (unacked th (pending f))) as Hbytes
    by (rewrite Heq at 1; by rewrite bytes_total_app).
  unfold ack_flow.
  constructor; cbn [next_send next_receive receive_final_next pending flow_pending_bytes];
    try done; try lia.
  - rewrite Heq in fl_pending0. by apply Forall_app in fl_pending0 as [_ ?].
  - apply (contiguous_unacked _ th) in fl_contiguous0.
    by replace (next_send f - len (unacked th (pending f)))
      with (next_send f - len (pending f) + len (pending f) - len (unacked th (pending f))) by lia.
  - rewrite Heq in fl_older0. by apply StronglySorted_app_1_r in fl_older0.
Qed.

Lemma in_session_counts s id f :
  Inv s -> flows s !! id = Some f ->
  len (pending f) <= pending_segments s /\ flow_pending_bytes f <= pending_bytes s /\
  pending_segments s <= U64_MAX /\ pending_bytes s <= U64_MAX.
Proof.
  intros HI Hf. pose proof (inv_flows _ HI) as Hfs. pose proof (inv_limits _ HI) as [].
  destruct (flows_ok_delete _ _ _ _ _ _ _ _ _ Hfs Hf) as (? & ? & _).
  destruct Hfs. unfold u64 in *. split_and!; [done|done|lia|lia].
Qed.

(** What [acknowledge] does to a session that accepts it. *)
Definition acked_session (id : FlowId) (th : Sequence) (f : ReliableFlow) (s : SessionTracer)
  : SessionTracer :=
  set_pending (pending_segments s - len (acked th (pending f)))
    (pending_bytes s - bytes_total (acked th (pending f)))
    (set_flows (<[id := ack_flow th f]> (flows s)) s).

(** What an acknowledgement has to be to count. *)
Definition acknowledges (s : SessionTracer) (a : Acknowledgement) : Prop :=
  epoch_valid s (ack_epoch a) /\
  exists f, flows s !! ack_flow_id a = Some f /\ through a < next_send f /\
    Forall (fun p => sequence (segment p) <= through a -> epoch (segment p) <= ack_epoch a) (pending f).
Lemma no_newer_segment th e (ps : list PendingSegment) :
  Forall (fun p => sequence (segment p) <= th -> epoch (segment p) <= e) ps <->
  existsb (fun p => (sequence (segment p) <=? th) && (e <? epoch (segment p))) ps = false.
Proof.
  rewrite Forall_forall, <- not_true_iff_false, existsb_exists. setoid_rewrite list_elem_of_In. split.
  - intros Hall (p & Hp & [Hs%N.leb_le He%N.ltb_lt]%andb_true_iff). specialize (Hall p Hp Hs). lia.
  - intros Hno p Hp Hs. destruct (N.leb_spec (epoch (segment p)) e) as [|Hlt]; [done|]. exfalso. apply Hno. exists p.
    split; [done|]. by rewrite andb_true_iff, N.leb_le, N.ltb_lt.
Qed.

Lemma wp_acknowledge s a (Q : result unit TraceError -> SessionTracer -> Prop) :
  Inv s ->
  (forall e, ~ acknowledges s a -> Q (Err e) s) ->
  (forall f, flows s !! ack_flow_id a = Some f -> through a < next_send f ->
    (ack_epoch a = current (transition s) \/ retiring (transition s) = Some (ack_epoch a)) ->
    Forall (fun p => sequence (segment p) <= through a ->
                     epoch (segment p) <= ack_epoch a) (pending f) ->
    Q (Ok tt) (acked_session (ack_flow_id a) (through a) f s)) ->
  wp (SessionTracer.acknowledge a) s Q.
Proof.
  intros HI He HQ. unfold SessionTracer.acknowledge. session_steps;
    try (apply He; intros (Hv & f & Hf & Hth & Hall%no_newer_segment); rewrite ?N.leb_le in *; simplify_eq; (done || lia || congruence)).
  rename a0 into f.
  match goal with H : flows s !! _ = Some f |- _ => rename H into Hf end.
  match goal with H : (_ <=? _) = false |- _ => apply N.leb_gt in H; rename H into Hth end.
  match goal with H : existsb _ _ = false |- _ => rename H into Hex end.
  pose proof (flow_in_range _ _ _ _ _ _ _ _ _ (inv_flows _ HI) Hf) as [].
  destruct (in_session_counts _ _ _ HI Hf) as (? & ? & ? & ?).
  pose proof (acked_unacked _ (through a) _ fl_contiguous0) as Heq.
  assert (len (acked (through a) (pending f)) <= len (pending f)) as Hl
    by (rewrite Heq at 2; rewrite len_app; lia).
  assert (bytes_total (acked (through a) (pending f)) <= bytes_total (pending f)) as Hb
    by (rewrite Heq at 2; rewrite bytes_total_app; lia).
  apply wp_bind. unfold wp at 1.
  rewrite (pop_acknowledged_run _ _ _ _ _ _ _ fl_contiguous0) by lia.
  wp_steps. rewrite !N.add_0_l in *. cbn [fst snd].
  apply wp_release_pending;
    cbn [pending_segments pending_bytes set_flows]; [lia|lia|].
  apply HQ; [done|done|done|].
  by apply no_newer_segment.
Qed.

Lemma acked_session_inv s id th f :
  Inv s -> flows s !! id = Some f -> Inv (acked_session id th f s).
Proof.
  intros HI Hf. pose proof (flow_in_range _ _ _ _ _ _ _ _ _ (inv_flows _ HI) Hf) as Hok.
  destruct (in_session_counts _ _ _ HI Hf) as (? & ? & ? & ?).
  pose proof (inv_flows _ HI) as [_ _ _ ? ? _].
  pose proof (acked_unacked _ th _ (fl_contiguous _ _ _ _ _ _ Hok)) as Heq.
  assert (len (pending f) = len (acked th (pending f)) + len (unacked th (pending f))) as Hlen
    by (rewrite Heq at 1; by rewrite len_app).
  assert (bytes_total (acked th (pending f)) <= bytes_total (pending f)) as Hb
    by (rewrite Heq at 2; rewrite bytes_total_app; lia).
  rewrite <-(fl_bytes _ _ _ _ _ _ Hok) in Hb.
  apply (Inv_update_flow s id f); cbn [ack_flow pending flow_pending_bytes]; try done; try lia.
  by apply flow_ok_ack.
Qed.

Lemma acknowledge_preserves s a : Inv s -> wp (SessionTracer.acknowledge a) s (fun _ s' => Inv s').
Proof. intros HI. apply wp_acknowledge; [done..|]. intros. by apply acked_session_inv. Qed.

Lemma receive_preserves s g :
  Inv s -> (forall f, flows s !! flow_id g = Some f -> next_receive f < U64_MAX) ->
  wp (SessionTracer.receive g) s (fun _ s' => Inv s').
Proof.
  intros HI Hn. unfold SessionTracer.receive. session_steps; try done;
    specialize (Hn _ ltac:(eassumption)); [lia|].
  match goal with H : flows s !! _ = Some ?f |- _ => rename H into Hf end.
  pose proof (flow_in_range _ _ _ _ _ _ _ _ _ (inv_flows _ HI) Hf) as [].
  eapply Inv_update_receive; [done|exact Hf|done|].
  constructor; try done; cbn [next_receive receive_final_next]; [unfold u64; lia|].
  intros n Hfin. rewrite Hfin in *.
  rewrite N.leb_gt, N.ltb_ge in *. lia.
Qed.

(** The flow after a final cursor was recorded. *)
Definition finished_flow (n : Sequence) (f : ReliableFlow) : ReliableFlow :=
  {| next_send := next_send f;
     next_receive := next_receive f;
     receive_final_next := Some n;
     pending := pending f;
     flow_pending_bytes := flow_pending_bytes f |}.

Lemma wp_finish s id e n (Q : result unit TraceError -> SessionTracer -> Prop) :
  Inv s -> (forall r, Q r s) ->
  (forall f, flows s !! id = Some f -> Inv (set_flows (<[id := finished_flow n f]> (flows s)) s) ->
   Q (Ok tt) (set_flows (<[id := finished_flow n f]> (flows s)) s)) ->
  wp (SessionTracer.finish_receiving id e n) s Q.
Proof.
  intros HI He HQ. unfold SessionTracer.finish_receiving. session_steps; try apply He.
  destruct (receive_final_next a) eqn:Hfin; session_steps; try apply He.
  match goal with H : flows s !! _ = Some a |- _ => rename H into Hf end.
  pose proof (flow_in_range _ _ _ _ _ _ _ _ _ (inv_flows _ HI) Hf) as [].
  apply (HQ a Hf). eapply Inv_update_receive; [done|exact Hf|done|].
  constructor; try done; cbn [finished_flow next_receive receive_final_next].
  intros ? [= <-]. by apply N.ltb_ge.
Qed.

Lemma finish_preserves s id e n :
  Inv s -> wp (SessionTracer.finish_receiving id e n) s (fun _ s' => Inv s').
Proof. intros HI. by apply wp_finish. Qed.

(** The session after a flow was dropped with its pending segments. *)
Definition dropped_session (id : FlowId) (f : ReliableFlow) (s : SessionTracer) : SessionTracer :=
  set_pending (pending_segments s - len (pending f))
    (pending_bytes s - flow_pending_bytes f) (set_flows (delete id (flows s)) s).

Lemma wp_reset s id (Q : result unit TraceError -> SessionTracer -> Prop) :
  Inv s -> (forall e, Q (Err e) s) ->
  (forall f, flows s !! id = Some f -> Inv (dropped_session id f s) ->
   Q (Ok tt) (dropped_session id f s)) ->
  wp (SessionTracer.reset_reliable_flow id) s Q.
Proof.
  intros HI He HQ. unfold SessionTracer.reset_reliable_flow. session_steps; [apply He|].
  destruct (Inv_delete_flow s id a) as (? & ? & ?); [done..|].
  apply wp_release_pending; [done..|]. by apply HQ.
Qed.

Lemma reset_preserves s id :
  Inv s -> wp (SessionTracer.reset_reliable_flow id) s (fun _ s' => Inv s').
Proof. intros HI. by apply wp_reset. Qed.

Lemma flow_ok_new lim cur now nf id :
  limits_ok lim -> id < nf -> flow_ok lim cur now nf id SessionTracer.new_flow.
Proof.
  intros [] Hid. constructor; cbn; try done; try constructor;
    change (len (@nil PendingSegment)) with 0; unfold u64, U64_MAX; lia.
Qed.

(** The state after a flow opened. *)
Definition opened_session (id : FlowId) (s : SessionTracer) : SessionTracer :=
  set_flows (<[id:=SessionTracer.new_flow]> (flows s)) (set_next_flow (id + 1) s).

Lemma opened_session_inv s id :
  Inv s -> next_flow s <= id -> N.of_nat (size (flows s)) < max_flows (limits s) ->
  flows s !! id = None /\ Inv (opened_session id s).
Proof.
  intros HI Hid Hsize.
  assert (flows s !! id = None) as Hnone.
  { destruct (flows s !! id) as [f|] eqn:Hf; [|done].
    destruct (flow_in_range _ _ _ _ _ _ _ _ _ (inv_flows _ HI) Hf). lia. }
  split; [done|].
  destruct HI as [HL [] ? ? ?]. constructor; try done.
  cbn [opened_session limits transition tick next_flow pending_segments pending_bytes flows
    set_flows set_next_flow].
  constructor; try done.
  - apply map_Forall_insert_2; [apply flow_ok_new; [done|lia]|].
    eapply map_Forall_impl; [done|]. intros i f. apply flow_ok_mono; lia.
  - by rewrite total_insert.
  - by rewrite total_insert.
  - rewrite map_size_insert_None by done. lia.
Qed.

Lemma wp_open_with_id s id (Q : result unit TraceError -> SessionTracer -> Prop) :
  Inv s -> (forall e, Q (Err e) s) ->
  (next_flow s <= id -> flows s !! id = None ->
   Inv (logged FlowOpened (opened_session id s)) ->
   Q (Ok tt) (logged FlowOpened (opened_session id s))) ->
  wp (SessionTracer.open_reliable_flow_with_id id) s Q.
Proof.
  intros HI He HQ. unfold SessionTracer.open_reliable_flow_with_id. wp_steps; [apply He..|].
  match goal with H : (_ || _) = false |- _ => apply orb_false_iff in H as [Hid%N.ltb_ge Hmax] end.
  match goal with H : (_ <=? N.of_nat _) = false |- _ => apply N.leb_gt in H; rename H into Hsize end.
  destruct (opened_session_inv s id) as [Hnone HI']; [done..|].
  apply wp_record_event; [done|auto].
Qed.

Lemma open_with_id_preserves s id :
  Inv s -> wp (SessionTracer.open_reliable_flow_with_id id) s (fun _ s' => Inv s').
Proof. intros HI. by apply wp_open_with_id. Qed.

Lemma open_preserves s : Inv s -> wp SessionTracer.open_reliable_flow s (fun _ s' => Inv s').
Proof.
  intros HI. unfold SessionTracer.open_reliable_flow. wp_steps. apply wp_bind.
  eapply wp_mono; [by apply open_with_id_preserves|]. by intros [] s' ?.
Qed.

Lemma wp_close s id (Q : result unit TraceError -> SessionTracer -> Prop) :
  Inv s -> (forall e, Q (Err e) s) ->
  (forall f, flows s !! id = Some f -> Inv (set_flows (delete id (flows s)) s) ->
   Q (Ok tt) (set_flows (delete id (flows s)) s)) ->
  wp (SessionTracer.close_reliable_flow id) s Q.
Proof.
  intros HI He HQ. unfold SessionTracer.close_reliable_flow. session_steps; try apply He.
  match goal with H : flows s !! _ = Some _ |- _ => rename H into Hf end.
  destruct (Inv_delete_flow s id a) as (_ & _ & HI'); [done..|]. apply (HQ a Hf).
  match goal with H : negb _ = false |- _ => apply negb_false_iff, is_empty_true in H as Hp end.
  pose proof (flow_in_range _ _ _ _ _ _ _ _ _ (inv_flows _ HI) Hf) as [].
  rewrite fl_bytes0, Hp in HI'. cbn [bytes_total] in HI'.
  change (len (@nil PendingSegment)) with 0 in HI'. rewrite !N.sub_0_r in HI'.
  exact HI'.
Qed.

Lemma close_preserves s id :
  Inv s -> wp (SessionTracer.close_reliable_flow id) s (fun _ s' => Inv s').
Proof. intros HI. by apply wp_close. Qed.

Lemma attachments_preserved_frame s s' :
  Inv s -> flows s' = flows s -> limits s' = limits s -> tick s' = tick s ->
  next_flow s' = next_flow s -> pending_segments s' = pending_segments s ->
  pending_bytes s' = pending_bytes s -> events s' = events s ->
  current (transition s) <= current (transition s') -> u64 (current (transition s')) ->
  attachments_ok (transition s') (attachment_replay s') (negotiated s')
    (accepted_attachment s') (retiring_attachment s') ->
  Inv s'.
Proof.
  intros [] Hf Hl Ht Hn Hps Hpb He Hc Hu Ha. constructor; rewrite ?Hl, ?He; try done.
  rewrite Hf, Ht, Hn, Hps, Hpb. by eapply flows_ok_mono; [| | |eassumption].
Qed.

Lemma begin_transition_preserves s :
  Inv s -> current (transition s) < U64_MAX ->
  wp SessionTracer.begin_transition s (fun _ s' => Inv s').
Proof.
  intros HI Hc. unfold wp, SessionTracer.begin_transition, TransitionState.advance.
  destruct (retiring (transition s)) as [r|] eqn:Hr; [done|].
  rewrite (proj2 (checked_add_Some _ _ _ (current (transition s) + 1))) by (split; [done|lia]).
  cbv iota. apply (attachments_preserved_frame s); cbn; try done; [lia|unfold u64; lia|].
  destruct (inv_attachments _ HI). constructor; cbn; try done.
  - by intros ? [= <-].
  - intros e He. specialize (at_replay0 e He). lia.
  - intros a Ha. by destruct (at_accepted0 a Ha) as [-> _].
Qed.

Lemma begin_explained_transition_preserves s from to reason :
  Inv s -> current (transition s) < U64_MAX ->
  wp (SessionTracer.begin_explained_transition from to reason) s (fun _ s' => Inv s').
Proof.
  intros HI Hc. unfold SessionTracer.begin_explained_transition. apply wp_bind.
  eapply wp_mono; [by apply begin_transition_preserves|].
  intros [e|] s' HI'; [|done]. by session_steps.
Qed.

Lemma negotiate_transition_version_preserves s local peer :
  Inv s -> wp (SessionTracer.negotiate_transition_version local peer) s (fun _ s' => Inv s').
Proof.
  intros HI. unfold SessionTracer.negotiate_transition_version.
  destruct (VersionRange.negotiate local peer); by session_steps.
Qed.

Lemma complete_transition_preserves {E} s :
  Inv s -> wp (SessionTracer.complete_transition (E := E)) s (fun _ s' => Inv s').
Proof.
  intros HI. unfold SessionTracer.complete_transition. wp_steps.
  assert (Inv (set_attachments (attachment_replay s) (accepted_attachment s) None
    (set_transition (TransitionState.retire_previous (transition s)) s))) as HI';
    [|apply wp_record_event; [done|auto]].
  apply (attachments_preserved_frame s); cbn; try done; [by destruct HI|].
  destruct (inv_attachments _ HI). by constructor.
Qed.

Lemma bind_preserves s p :
  Inv s -> wp (SessionTracer.bind_negotiated_parameters p) s (fun _ s' => Inv s').
Proof.
  intros HI. unfold SessionTracer.bind_negotiated_parameters. session_steps; try done.
  match goal with H : (_ || _) = false |- _ => apply orb_false_iff in H as [Ha Hr] end.
  apply (attachments_preserved_frame s); cbn; try done; [by destruct HI|].
  destruct (inv_attachments _ HI). by constructor.
Qed.

Lemma reject_attachment_wp {A} s e (Q : result A AttachmentError -> SessionTracer -> Prop) :
  Inv s -> (Inv (logged (TransitionRejected AttachmentRejected) s) ->
            Q (Err e) (logged (TransitionRejected AttachmentRejected) s)) ->
  wp (SessionTracer.reject_attachment e) s Q.
Proof. intros HI HQ. unfold SessionTracer.reject_attachment. session_steps. auto. Qed.

(** The attachment a session records. *)
Definition identity (a : CarrierAttachment) : AcceptedCarrierAttachment :=
  {| acc_carrier := att_carrier a; acc_epoch := att_epoch a;
     acc_attachment_id := att_attachment_id a |}.

Definition attached_session (a : CarrierAttachment) (s : SessionTracer) : SessionTracer :=
  set_attachments {| latest := Some (att_epoch a) |} (Some (identity a)) (retiring_attachment s) s.

(** Every branch of the attachment: what it takes to be accepted, and what a
    rejection leaves. *)
Lemma wp_authenticate `{Hmac} s auth sid a
    (Q : result AttachmentAcceptance AttachmentError -> SessionTracer -> Prop) :
  Inv s ->
  (forall e, Q (Err e) s) ->
  (forall e, Inv (logged (TransitionRejected AttachmentRejected) s) ->
             Q (Err e) (logged (TransitionRejected AttachmentRejected) s)) ->
  (negotiated s = Some (att_parameters a) -> att_epoch a = current (transition s) ->
   AttachmentAuthenticator.verify auth sid (att_epoch a) (att_attachment_id a)
     (att_parameters a) (att_proof a) = Ok tt ->
   (accepted_attachment s = Some (identity a) -> Q (Ok AlreadyAccepted) s) /\
   (accepted_attachment s = None -> ReplayWindow.accepts (attachment_replay s) (att_epoch a) = true ->
    Q (Ok Accepted) (attached_session a s))) ->
  wp (SessionTracer.authenticate_carrier_attachment auth sid a) s Q.
Proof.
  intros HI He Hrej HQ. unfold SessionTracer.authenticate_carrier_attachment. wp_step.
  wp_step; [apply He|]. rename a0 into neg.
  match goal with Hx : negotiated s = _ |- _ => rename Hx into Hneg end.
  destruct (bool_decide_reflect (att_parameters a = neg)) as [Hp|Hp]; cbn [negb];
    [|by apply reject_attachment_wp; auto]. subst neg.
  unfold TransitionState.validate.
  destruct (N.eqb_spec (att_epoch a) (current (transition s))) as [Hep|Hep].
  2:{ destruct (bool_decide _); [by apply reject_attachment_wp; auto|].
      destruct (_ <? _); by apply reject_attachment_wp; auto. }
  destruct (AttachmentAuthenticator.verify _ _ _ _ _ _) as [[]|err] eqn:Hv;
    [|by apply reject_attachment_wp; auto].
  destruct (HQ Hneg Hep eq_refl) as [HQ1 HQ2].
  cbv zeta. fold (identity a).
  destruct (bool_decide_reflect (accepted_attachment s = Some (identity a))) as [Hacc|Hacc];
    [apply wp_ret; auto|].
  unfold ReplayWindow.accept.
  destruct (ReplayWindow.accepts _ _) eqn:Hr; cbn [negb];
    [|by apply reject_attachment_wp; auto].
  wp_steps. apply HQ2; [|done].
  destruct (accepted_attachment s) as [b|] eqn:Hb; [|done].
  destruct (at_accepted _ _ _ _ _ (inv_attachments _ HI) b Hb) as [_ Hl].
  unfold ReplayWindow.accepts in Hr. rewrite Hl in Hr. apply N.ltb_lt in Hr. lia.
Qed.

Lemma authenticate_preserves `{Hmac} s auth sid a :
  Inv s -> wp (SessionTracer.authenticate_carrier_attachment auth sid a) s (fun _ s' => Inv s').
Proof.
  intros HI. apply wp_authenticate; [done..|]. intros Hneg Hep Hv. split; [done|].
  intros Hacc Hr. apply (attachments_preserved_frame s); cbn; try done; [by destruct HI|].
  destruct (inv_attachments _ HI). constructor; cbn; try done.
  - intros e [= <-]. lia.
  - intros b [= <-]. cbn [identity acc_epoch]. by rewrite Hep.
  - by rewrite Hneg.
Qed.

(** *** Time *)
(** A flow's front is its oldest segment. *)
Lemma front_expired_spec lim cur nw nf id f now :
  flow_ok lim cur nw nf id f ->
  SessionTracer.front_expired now f = true <->
  exists p, p ∈ pending f /\ expires_at p <= now.
Proof.
  intros []. unfold SessionTracer.front_expired. destruct (pending f) as [|p ps] eqn:Hp.
  - split; [done|]. intros (p & Hin & _). by apply not_elem_of_nil in Hin.
  - rewrite N.leb_le. split.
    + intros Hle. exists p. split; [by left|done].
    + intros (q & Hin & Hle). apply elem_of_cons in Hin as [->|Hin]; [done|].
      apply StronglySorted_inv in fl_older0 as [_ Hall].
      rewrite Forall_forall in Hall. destruct (Hall q Hin). lia.
Qed.

Lemma remove_timed_out_wp {E} ids s :
  Inv s -> NoDup ids -> (forall id, id ∈ ids -> is_Some (flows s !! id)) ->
  wp (SessionTracer.remove_timed_out (E := E) ids) s (fun r s' =>
    r = Ok tt /\ Inv s' /\
    s' = set_pending (pending_segments s') (pending_bytes s') (set_flows (flows s') s) /\
    (forall id, flows s' !! id = if decide (id ∈ ids) then None else flows s !! id)).
Proof.
  revert s. induction ids as [|i ids IH]; intros s HI Hnd Hin;
    cbn [SessionTracer.remove_timed_out].
  { apply wp_ret. split_and!; [done|done|by destruct s|].
    intros id. by rewrite decide_False by apply not_elem_of_nil. }
  apply NoDup_cons in Hnd as [Hi Hnd]. destruct (Hin i) as [f Hf]; [by left|].
  destruct (Inv_delete_flow s i f) as (? & ? & HI'); [done..|].
  wp_step. apply wp_bind_expect. exists f. split; [done|]. wp_steps.
  apply wp_bind, wp_release_pending; [done..|].
  eapply wp_mono; [apply (IH _ HI' Hnd)|].
  - intros id Hid. cbn [flows set_pending set_flows].
    rewrite lookup_delete_ne by (by intros ->). apply Hin. by right.
  - intros r s' (-> & HI2 & Hs' & Hlook). split_and!; [done|done| |].
    + rewrite Hs' at 1. done.
    + intros id. rewrite Hlook. cbn [flows set_pending set_flows].
      destruct (decide (id ∈ ids)), (decide (id ∈ i :: ids)) as [Hel|Hel]; try done.
      * exfalso. apply Hel. by right.
      * apply elem_of_cons in Hel as [->|]; [|done]. by rewrite lookup_delete_eq.
      * rewrite lookup_delete_ne; [done|]. intros ->. apply Hel. by left.
Qed.

Lemma record_timed_out_wp {E} (ids : list FlowId) s :
  Inv s ->
  wp (SessionTracer.record_timed_out (E := E) ids) s (fun r s' =>
    r = Ok tt /\ Inv s' /\ s' = set_events (events s') s).
Proof.
  revert s. induction ids as [|i ids IH]; intros s HI; cbn [SessionTracer.record_timed_out].
  { apply wp_ret. by destruct s. }
  session_steps. eapply wp_mono; [by apply IH|].
  intros r s' (-> & ? & Hs'). split_and!; [done|done|]. by rewrite Hs' at 1.
Qed.

Lemma Inv_set_tick s t : Inv s -> tick s <= t -> Inv (set_tick t s).
Proof.
  intros [] Ht. constructor; try done.
  eapply flows_ok_mono; [| | |eassumption]; cbn; lia.
Qed.

(** The flows [advance_time] evicts. *)
Definition expired (s : SessionTracer) (now : N) (id : FlowId) : Prop :=
  exists f p, flows s !! id = Some f /\ p ∈ pending f /\ expires_at p <= now.

Lemma advance_time_wp {E} s t :
  Inv s -> tick s + t <= U64_MAX ->
  wp (SessionTracer.advance_time (E := E) t) s (fun r s' =>
    Inv s' /\ exists ids, r = Ok ids /\ StronglySorted N.lt ids /\
      (forall id, id ∈ ids <-> expired s (tick s + t) id) /\
      (forall id, flows s' !! id = if decide (id ∈ ids) then None else flows s !! id) /\
      s' = set_events (events s') (set_pending (pending_segments s') (pending_bytes s')
             (set_flows (flows s') (set_tick (tick s + t) s)))).
Proof.
  intros HI Ht. unfold SessionTracer.advance_time. wp_steps; [done|].
  assert (HI1 : Inv (set_tick (tick s + t) s)) by (apply Inv_set_tick; [done|lia]).
  set (s1 := set_tick (tick s + t) s) in *. set (ids := SessionTracer.timed_out_flows s1).
  assert (Hsort : StronglySorted N.lt ids) by apply filter_sorted, keys_sorted.
  assert (Hids : forall id, id ∈ ids <-> expired s (tick s + t) id).
  { intros id. unfold ids, SessionTracer.timed_out_flows, SessionTracer.is_timed_out.
    rewrite list_elem_of_filter, elem_of_keys. change (flows s1) with (flows s).
    change (tick s1) with (tick s + t). split.
    - intros [Hexp [f Hf]]. rewrite Hf in Hexp.
      pose proof (flow_in_range _ _ _ _ _ _ _ _ _ (inv_flows _ HI) Hf) as Hok.
      apply (front_expired_spec _ _ _ _ _ _ _ Hok) in Hexp as (p & ? & ?). by exists f, p.
    - intros (f & p & Hf & Hp). rewrite Hf. split; [|done].
      pose proof (flow_in_range _ _ _ _ _ _ _ _ _ (inv_flows _ HI) Hf) as Hok.
      apply (front_expired_spec _ _ _ _ _ _ _ Hok). by exists p. }
  apply wp_bind. eapply wp_mono.
  { apply (remove_timed_out_wp ids s1 HI1); [by apply sorted_lt_NoDup|].
    intros id Hid. apply Hids in Hid as (f & p & Hf & _). by exists f. }
  intros r s2 (-> & HI2 & Hs2 & Hlook). apply wp_bind.
  eapply wp_mono; [by apply record_timed_out_wp|].
  intros r s3 (-> & HI3 & Hs3). apply wp_ret. split; [done|]. exists ids.
  split_and!; try done.
  - intros id. rewrite Hs3. apply Hlook.
  - rewrite Hs3 at 1. rewrite Hs2 at 1. rewrite Hs3. done.
Qed.

(** ** What no operation undoes *)
Definition opt_le (a b : option N) : Prop :=
  match a, b with
  | None, _ => True
  | Some a, Some b => a <= b
  | Some _, None => False
  end.

#[export] Instance opt_le_preorder : PreOrder opt_le.
Proof.
  split.
  - intros [a|]; cbn; [lia|done].
  - intros [a|] [b|] [c|]; cbn; try done. lia.
Qed.

(** Flow identifiers, epochs and the attachment replay window only grow. *)
Record grows (s s' : SessionTracer) : Prop := {
  gr_next_flow : next_flow s <= next_flow s';
  gr_current : current (transition s) <= current (transition s');
  gr_replay : opt_le (latest (attachment_replay s)) (latest (attachment_replay s'))
}.

#[export] Instance grows_preorder : PreOrder grows.
Proof.
  split.
  - intros s. by constructor.
  - intros s t u [] []. constructor; [lia|lia|by etransitivity].
Qed.

(** State changes that leave the identifiers, epochs and window alone. *)
Lemma grows_frame s s' :
  next_flow s' = next_flow s -> transition s' = transition s ->
  attachment_replay s' = attachment_replay s -> grows s s'.
Proof. intros H1 H2 H3. constructor; rewrite ?H1, ?H2, ?H3; done. Qed.

#[export] Hint Resolve grows_preorder : preserves.

Ltac grows_steps := preserves_steps; try (apply grows_frame; reflexivity).

Lemma record_event_grows {E} e : preserves grows (SessionTracer.record_event (E := E) e).
Proof. unfold SessionTracer.record_event. grows_steps. Qed.
#[export] Hint Resolve record_event_grows : preserves.

Lemma require_valid_epoch_grows e : preserves grows (SessionTracer.require_valid_epoch e).
Proof. unfold SessionTracer.require_valid_epoch. grows_steps. Qed.
Lemma release_pending_grows {E} n b : preserves grows (SessionTracer.release_pending (E := E) n b).
Proof. unfold SessionTracer.release_pending. grows_steps. Qed.
Lemma pop_acknowledged_grows {E} th ps fb n b :
  preserves grows (SessionTracer.pop_acknowledged (E := E) th ps fb n b).
Proof.
  revert fb n b. induction ps as [|p ps IH]; intros fb n b; cbn [SessionTracer.pop_acknowledged];
    unfold SessionTracer.usize_add; grows_steps.
Qed.
Lemma reject_attachment_grows {A} e : preserves grows (SessionTracer.reject_attachment (A := A) e).
Proof. unfold SessionTracer.reject_attachment. grows_steps. Qed.
#[export] Hint Resolve require_valid_epoch_grows release_pending_grows pop_acknowledged_grows
  reject_attachment_grows : preserves.

(** ** Runs of a session *)
Inductive Operation `{Hmac} :=
| OpBind (p : NegotiatedParameters)
| OpOpen
| OpOpenWithId (id : FlowId)
| OpClose (id : FlowId)
| OpSend (id : FlowId) (b : list byte)
| OpAcknowledge (a : Acknowledgement)
| OpReceive (g : Segment)
| OpFinish (id : FlowId) (e : Epoch) (n : Sequence)
| OpReset (id : FlowId)
| OpAdvanceTime (t : N)
| OpBegin
| OpBeginExplained (from to : CarrierKind) (reason : TransitionReason)
| OpNegotiateVersion (local peer : VersionRange)
| OpAuthenticate (auth : AttachmentAuthenticator) (sid : SessionId) (a : CarrierAttachment)
| OpComplete.

Definition final {E A} (m : M SessionTracer E A) (s : SessionTracer) : outcome SessionTracer :=
  match m s with Ret (_, s') => Ret s' | Panic => Panic | OutOfFuel => OutOfFuel end.

(** The state after an operation, whatever it returned. *)
Definition step `{Hmac} (op : Operation) (s : SessionTracer) : outcome SessionTracer :=
  match op with
  | OpBind p => final (SessionTracer.bind_negotiated_parameters p) s
  | OpOpen => final SessionTracer.open_reliable_flow s
  | OpOpenWithId id => final (SessionTracer.open_reliable_flow_with_id id) s
  | OpClose id => final (SessionTracer.close_reliable_flow id) s
  | OpSend id b => final (SessionTracer.send id b) s
  | OpAcknowledge a => final (SessionTracer.acknowledge a) s
  | OpReceive g => final (SessionTracer.receive g) s
  | OpFinish id e n => final (SessionTracer.finish_receiving id e n) s
  | OpReset id => final (SessionTracer.reset_reliable_flow id) s
  | OpAdvanceTime t => final (SessionTracer.advance_time (E := Empty_set) t) s
  | OpBegin => final SessionTracer.begin_transition s
  | OpBeginExplained from to reason =>
    final (SessionTracer.begin_explained_transition from to reason) s
  | OpNegotiateVersion local peer =>
    final (SessionTracer.negotiate_transition_version local peer) s
  | OpAuthenticate auth sid a =>
    final (SessionTracer.authenticate_carrier_attachment auth sid a) s
  | OpComplete => final (SessionTracer.complete_transition (E := Empty_set)) s
  end.

Fixpoint run `{Hmac} (ops : list Operation) (s : SessionTracer) : outcome SessionTracer :=
  match ops with
  | [] => Ret s
  | op :: ops => match step op s with Ret s' => run ops s' | Panic => Panic | OutOfFuel => OutOfFuel end
  end.

(** The operations whose 64-bit counter is not exhausted: a sequence number,
    an epoch or the clock would have to reach 2^64. *)
Definition can_run `{Hmac} (op : Operation) (s : SessionTracer) : Prop :=
  match op with
  | OpSend id _ =>
    (forall f, flows s !! id = Some f -> next_send f < U64_MAX) /\
    tick s + max_pending_age (limits s) <= U64_MAX
  | OpReceive g => forall f, flows s !! flow_id g = Some f -> next_receive f < U64_MAX
  | OpAdvanceTime t => tick s + t <= U64_MAX
  | OpBegin | OpBeginExplained _ _ _ => current (transition s) < U64_MAX
  | _ => True
  end.

Lemma final_wp {E A} (m : M SessionTracer E A) s (P : SessionTracer -> Prop) :
  wp m s (fun _ s' => P s') -> exists s', final m s = Ret s' /\ P s'.
Proof.
  intros Hwp. apply wp_run in Hwp as (r & s' & Hrun & HP). exists s'. unfold final.
  by rewrite Hrun.
Qed.

Lemma step_preserves `{Hmac} op s :
  Inv s -> can_run op s -> exists s', step op s = Ret s' /\ Inv s'.
Proof.
  intros HI Hc. destruct op; cbn [step can_run] in *; apply final_wp.
  - by apply bind_preserves.
  - by apply open_preserves.
  - by apply open_with_id_preserves.
  - by apply close_preserves.
  - destruct Hc. by apply send_preserves.
  - by apply acknowledge_preserves.
  - by apply receive_preserves.
  - by apply finish_preserves.
  - by apply reset_preserves.
  - eapply wp_mono; [by apply advance_time_wp|]. by intros r s' [? _].
  - by apply begin_transition_preserves.
  - by apply begin_explained_transition_preserves.
  - by apply negotiate_transition_version_preserves.
  - by apply authenticate_preserves.
  - by apply complete_transition_preserves.
Qed.

Lemma final_grows {E A} (m : M SessionTracer E A) s s' :
  preserves grows m -> final m s = Ret s' -> grows s s'.
Proof.
  unfold final. destruct (m s) as [[r s1]| |] eqn:Hm; [|done|done].
  intros Hp [= <-]. by eapply Hp.
Qed.

Lemma open_with_id_grows id : preserves grows (SessionTracer.open_reliable_flow_with_id id).
Proof.
  intros s r s' Hrun. unfold SessionTracer.open_reliable_flow_with_id in Hrun.
  unfold bind at 1, get in Hrun. unfold bind at 1 in Hrun. unfold reject_if at 1 in Hrun.
  destruct (_ <=? _); [by injection Hrun as <- <-|]. unfold ret at 1, bind at 1 in Hrun.
  unfold reject_if in Hrun. destruct (_ || _) eqn:Hid; [by injection Hrun as <- <-|].
  apply orb_false_iff in Hid as [Hid%N.ltb_ge _].
  unfold ret, bind at 1, modify in Hrun. unfold bind at 1 in Hrun.
  apply record_event_grows in Hrun. etransitivity; [|exact Hrun].
  constructor; cbn; [lia|lia|reflexivity].
Qed.

Lemma begin_transition_grows : preserves grows SessionTracer.begin_transition.
Proof.
  intros s r s'. unfold SessionTracer.begin_transition, TransitionState.advance.
  destruct (retiring _); [by intros [= <- <-]|].
  destruct (checked_add _ _ _) as [n|] eqn:Hn; [|done].
  apply checked_add_Some in Hn as [-> _]. intros [= <- <-].
  constructor; cbn; [lia|lia|reflexivity].
Qed.
#[export] Hint Resolve open_with_id_grows begin_transition_grows : preserves.

Lemma authenticate_grows `{Hmac} auth sid a :
  preserves grows (SessionTracer.authenticate_carrier_attachment auth sid a).
Proof.
  intros s r s'. unfold SessionTracer.authenticate_carrier_attachment, bind at 1, get.
  destruct (negotiated s) as [neg|]; cbn [ok_or]; unfold bind at 1; [|by intros [= <- <-]].
  unfold ret at 1. destruct (negb _); [apply reject_attachment_grows|].
  destruct (TransitionState.validate _ _); try apply reject_attachment_grows.
  destruct (AttachmentAuthenticator.verify _ _ _ _ _ _); [|apply reject_attachment_grows].
  cbv zeta. case_bool_decide; [by intros [= <- <-]|].
  unfold ReplayWindow.accept. destruct (ReplayWindow.accepts _ _) eqn:Hacc; cbn [negb];
    [|apply reject_attachment_grows].
  intros [= <- <-]. constructor; cbn; [lia|lia|]. unfold ReplayWindow.accepts in Hacc.
  destruct (latest _); cbn; [|done]. apply N.ltb_lt in Hacc. lia.
Qed.

Lemma remove_timed_out_grows {E} ids : preserves grows (SessionTracer.remove_timed_out (E := E) ids).
Proof. induction ids; cbn [SessionTracer.remove_timed_out]; grows_steps. Qed.
Lemma record_timed_out_grows {E} ids : preserves grows (SessionTracer.record_timed_out (E := E) ids).
Proof. induction ids; cbn [SessionTracer.record_timed_out]; grows_steps. Qed.
#[export] Hint Resolve remove_timed_out_grows record_timed_out_grows : preserves.

Lemma complete_transition_grows {E} :
  preserves grows (SessionTracer.complete_transition (E := E)).
Proof.
  unfold SessionTracer.complete_transition. grows_steps.
  all: by constructor.
Qed.

Lemma step_grows `{Hmac} op s s' : step op s = Ret s' -> grows s s'.
Proof.
  destruct op; cbn [step]; apply final_grows;
    try first [apply open_with_id_grows|apply begin_transition_grows|apply authenticate_grows
              |apply complete_transition_grows].
  - unfold SessionTracer.bind_negotiated_parameters. grows_steps.
  - unfold SessionTracer.open_reliable_flow. grows_steps.
  - unfold SessionTracer.close_reliable_flow. grows_steps.
  - unfold SessionTracer.send, SessionTracer.usize_add. grows_steps.
  - unfold SessionTracer.acknowledge. grows_steps.
  - unfold SessionTracer.receive. grows_steps.
  - unfold SessionTracer.finish_receiving. grows_steps.
  - unfold SessionTracer.reset_reliable_flow. grows_steps.
  - unfold SessionTracer.advance_time. grows_steps.
  - unfold SessionTracer.begin_explained_transition. grows_steps.
  - unfold SessionTracer.negotiate_transition_version. grows_steps.
Qed.

Lemma run_grows `{Hmac} ops s s' : run ops s = Ret s' -> grows s s'.
Proof.
  revert s. induction ops as [|op ops IH]; intros s; cbn [run]; [by intros [= <-]|].
  destruct (step op s) as [s1| |] eqn:Hs; [|done|done]. intros Hr.
  etransitivity; [by eapply step_grows|by apply IH].
Qed.

(** ** Properties *)
Inductive reachable `{Hmac} (lim : FlowLimits) : SessionTracer -> Prop :=
| reachable_new e s : u64 e -> SessionTracer.new e lim = Ret s -> reachable lim s
| reachable_step op s s' :
    reachable lim s -> can_run op s -> step op s = Ret s' -> reachable lim s'.

(** Every limit is a [usize]. *)
Definition usize_limits (lim : FlowLimits) : Prop :=
  u64 (max_session_pending_segments lim) /\ u64 (max_session_pending_bytes lim) /\
  u64 (max_pending_bytes lim) /\ u64 (max_pending_segments lim).

Lemma new_Inv e lim s :
  usize_limits lim -> u64 e -> SessionTracer.new e lim = Ret s -> Inv s.
Proof.
  intros (? & ? & ? & ?) He Hnew. unfold SessionTracer.new, assert in Hnew.
  repeat (case_match; [|done]). injection Hnew as <-. rewrite N.ltb_lt in *.
  constructor; [by constructor| | |change (0 <= max_events lim); lia|done]; cbn.
  - constructor; cbn; try lia; [apply map_Forall_empty|done|done|].
    rewrite map_size_empty. lia.
  - by constructor.
Qed.

(** C1. Safety of every history of a session: the invariant (accounting,
    limits, contiguous retransmission queues, epoch and attachment
    bookkeeping, bounded events) holds in every reachable state, and from
    there no operation panics short of the exhaustion of a 64-bit counter. *)
Theorem session_safety `{Hmac} lim s :
  usize_limits lim -> reachable lim s ->
  Inv s /\ forall op, can_run op s -> exists s', step op s = Ret s'.
Proof.
  intros Hlim Hr.
  assert (Inv s) as HI.
  { induction Hr as [e s He Hnew|op s s' _ IH Hc Hstep]; [by eapply new_Inv|].
    destruct (step_preserves op s IH Hc) as (s1 & Heq & HI). congruence. }
  split; [done|]. intros op Hc. destruct (step_preserves op s HI Hc) as (s' & ? & _). by exists s'.
Qed.

Lemma acknowledge_Ok s a s' :
  Inv s -> SessionTracer.acknowledge a s = Ret (Ok tt, s') ->
  exists f, flows s !! ack_flow_id a = Some f /\ through a < next_send f /\
    Forall (fun p => sequence (segment p) <= through a ->
                     epoch (segment p) <= ack_epoch a) (pending f) /\
    s' = acked_session (ack_flow_id a) (through a) f s.
Proof.
  intros HI Hrun.
  refine (wp_elim (SessionTracer.acknowledge a) s (fun r s1 => r = Ok tt -> exists f,
    flows s !! ack_flow_id a = Some f /\ through a < next_send f /\
    Forall (fun p => sequence (segment p) <= through a ->
                     epoch (segment p) <= ack_epoch a) (pending f) /\
    s1 = acked_session (ack_flow_id a) (through a) f s) _ _ _ Hrun eq_refl).
  apply wp_acknowledge; [done|done|]. intros f Hf Hth _ Hep _. by exists f.
Qed.

(** C4. A successful acknowledgement releases exactly the pending segments
    it covers. They were all sent no later than the acknowledging epoch, so
    the retiring carrier can never acknowledge a segment of the current one;
    the session's counts fall by what was released, and every other flow and
    the rest of the session are untouched. *)
Theorem acknowledge_exact s a s' :
  Inv s -> SessionTracer.acknowledge a s = Ret (Ok tt, s') ->
  exists f released,
    flows s !! ack_flow_id a = Some f /\ through a < next_send f /\
    pending f = released ++ unacked (through a) (pending f) /\
    Forall (fun p => sequence (segment p) <= through a /\
                     epoch (segment p) <= ack_epoch a) released /\
    flows s' = <[ack_flow_id a := ack_flow (through a) f]> (flows s) /\
    pending_segments s' + len released = pending_segments s /\
    pending_bytes s' + bytes_total released = pending_bytes s /\
    s' = set_pending (pending_segments s') (pending_bytes s') (set_flows (flows s') s).
Proof.
  intros HI Hrun. destruct (acknowledge_Ok _ _ _ HI Hrun) as (f & Hf & Hth & Hep & ->).
  pose proof (flow_in_range _ _ _ _ _ _ _ _ _ (inv_flows _ HI) Hf) as Hok.
  destruct (in_session_counts _ _ _ HI Hf) as (Hc1 & Hc2 & _).
  rewrite (fl_bytes _ _ _ _ _ _ Hok) in Hc2.
  pose proof (acked_unacked _ (through a) _ (fl_contiguous _ _ _ _ _ _ Hok)) as Heq.
  rewrite Heq in Hc1, Hc2. rewrite len_app in Hc1. rewrite bytes_total_app in Hc2.
  exists f, (acked (through a) (pending f)).
  split_and!; try done; cbn [acked_session set_pending set_flows pending_segments pending_bytes];
    try lia.
  apply Forall_forall. intros p [Hp Hin]%list_elem_of_filter. split; [done|].
  rewrite Forall_forall in Hep. by apply Hep.
Qed.

Lemma open_with_id_Ok id s s' :
  SessionTracer.open_reliable_flow_with_id id s = Ret (Ok tt, s') -> next_flow s' = id + 1.
Proof.
  unfold SessionTracer.open_reliable_flow_with_id, bind at 1, get.
  unfold bind at 1, reject_if at 1. destruct (_ <=? _); [done|]. unfold ret at 1, bind at 1, reject_if.
  destruct (_ || _); [done|]. unfold ret, bind, modify, SessionTracer.record_event, bind, get.
  cbn. destruct (_ <=? _); cbn; [destruct (events s); [done|]|]; cbn; by intros [= <-].
Qed.

(** A flow identifier that was opened once is never opened again in the
    lifetime of the session, whatever is done in between: closing, resets,
    timeouts and carrier transitions included. *)
Theorem flow_id_never_reused `{Hmac} id s s1 ops s2 s3 :
  SessionTracer.open_reliable_flow_with_id id s = Ret (Ok tt, s1) ->
  run ops s1 = Ret s2 ->
  SessionTracer.open_reliable_flow_with_id id s2 <> Ret (Ok tt, s3).
Proof.
  intros Hopen%open_with_id_Ok Hrun%run_grows. destruct Hrun as [Hgrow _ _].
  unfold SessionTracer.open_reliable_flow_with_id, bind at 1, get.
  unfold bind at 1, reject_if at 1. destruct (_ <=? _); [done|].
  unfold ret at 1, bind at 1, reject_if.
  replace (id <? next_flow s2) with true by (symmetry; apply N.ltb_lt; lia). done.
Qed.

Lemma authenticate_Ok `{Hmac} auth sid a s s' :
  Inv s ->
  SessionTracer.authenticate_carrier_attachment auth sid a s = Ret (Ok Accepted, s') ->
  negotiated s = Some (att_parameters a) /\ att_epoch a = SessionTracer.epoch s /\
  AttachmentAuthenticator.verify auth sid (att_epoch a) (att_attachment_id a)
    (att_parameters a) (att_proof a) = Ok tt /\
  ReplayWindow.accepts (attachment_replay s) (att_epoch a) = true /\
  s' = attached_session a s.
Proof.
  intros HI Hrun.
  refine (wp_elim (SessionTracer.authenticate_carrier_attachment auth sid a) s
    (fun r s1 => r = Ok Accepted ->
      negotiated s = Some (att_parameters a) /\ att_epoch a = SessionTracer.epoch s /\
      AttachmentAuthenticator.verify auth sid (att_epoch a) (att_attachment_id a)
        (att_parameters a) (att_proof a) = Ok tt /\
      ReplayWindow.accepts (attachment_replay s) (att_epoch a) = true /\
      s1 = attached_session a s) _ _ _ Hrun eq_refl).
  apply wp_authenticate; [done|done|done|]. intros Hneg Hep Hv. split; [done|]. by intros.
Qed.

(** C8. Carrier attachment: one that is accepted carries the session's
    negotiated parameters, its current epoch and a proof that verifies for
    them, becomes the session's attachment, and closes its epoch: as long as
    the epoch stands, no other attachment is accepted, and only the accepted
    one is acknowledged again. *)
Theorem attachment_accepted_once `{Hmac} auth sid a s s1 ops s2 auth' sid' b s3 :
  Inv s ->
  SessionTracer.authenticate_carrier_attachment auth sid a s = Ret (Ok Accepted, s1) ->
  run ops s1 = Ret s2 -> Inv s2 -> current (transition s2) = current (transition s) ->
  (negotiated s = Some (att_parameters a) /\ att_epoch a = SessionTracer.epoch s /\
   AttachmentAuthenticator.verify auth sid (att_epoch a) (att_attachment_id a)
     (att_parameters a) (att_proof a) = Ok tt /\
   accepted_attachment s1 = Some (identity a)) /\
  SessionTracer.authenticate_carrier_attachment auth' sid' b s2 <> Ret (Ok Accepted, s3).
Proof.
  intros HI Hacc Hrun HI2 Hcur.
  destruct (authenticate_Ok _ _ _ _ _ HI Hacc) as (Hneg & Hep & Hv & _ & ->). split; [done|].
  intros Hacc2. apply run_grows in Hrun as [_ _ Hlatest]. cbn in Hlatest.
  destruct (authenticate_Ok _ _ _ _ _ HI2 Hacc2) as (_ & Hb & _ & Hfresh & _).
  unfold ReplayWindow.accepts in Hfresh. unfold SessionTracer.epoch in *.
  destruct (latest (attachment_replay s2)) as [l|]; [|done]. apply N.ltb_lt in Hfresh. lia.
Qed.

(** Advancing time evicts exactly the flows with a segment whose
    lifetime is over, in increasing order of their identifiers, and changes
    nothing else in the flows that stay. *)
Theorem advance_time_evicts {E} s t :
  Inv s -> tick s + t <= U64_MAX ->
  exists ids s', SessionTracer.advance_time (E := E) t s = Ret (Ok ids, s') /\ Inv s' /\
    tick s' = tick s + t /\ StronglySorted N.lt ids /\
    (forall id, id ∈ ids <-> expired s (tick s + t) id) /\
    (forall id, flows s' !! id = if decide (id ∈ ids) then None else flows s !! id) /\
    (forall id, ~ expired s' (tick s') id).
Proof.
  intros HI Ht. destruct (wp_run _ _ _ (advance_time_wp (E := E) s t HI Ht))
    as (r & s' & Hrun & HI' & ids & -> & Hsort & Hids & Hlook & Hs').
  assert (tick s' = tick s + t) as Htick by (by rewrite Hs').
  exists ids, s'. split_and!; try done.
  intros id (f & p & Hf & Hp & Hexp). rewrite Hlook in Hf.
  case_decide as Hin; [done|]. apply Hin, Hids. rewrite Htick in Hexp. by exists f, p.
Qed.

(** *** Sending *)
Definition sent_segment (s : SessionTracer) (id : FlowId) (f : ReliableFlow) (b : list byte)
  : Segment :=
  {| flow_id := id; epoch := current (transition s); sequence := next_send f; bytes := b |}.

Definition sent_flow (s : SessionTracer) (id : FlowId) (f : ReliableFlow) (b : list byte)
  : ReliableFlow :=
  {| next_send := next_send f + 1;
     next_receive := next_receive f;
     receive_final_next := receive_final_next f;
     pending := pending f ++ [{| segment := sent_segment s id f b;
                                 expires_at := tick s + max_pending_age (limits s) |}];
     flow_pending_bytes := flow_pending_bytes f + len b |}.

Definition sent_session (s : SessionTracer) (id : FlowId) (f : ReliableFlow) (b : list byte)
  : SessionTracer :=
  set_pending (pending_segments s + 1) (pending_bytes s + len b)
    (set_flows (<[id := sent_flow s id f b]> (flows s)) s).

(** The limits that admit [b] on the flow [f]. *)
Definition admits (s : SessionTracer) (f : ReliableFlow) (b : list byte) : Prop :=
  pending_segments s + 1 <= max_session_pending_segments (limits s) /\
  pending_bytes s + len b <= max_session_pending_bytes (limits s) /\
  len (pending f) + 1 <= max_pending_segments (limits s) /\
  flow_pending_bytes f + len b <= max_pending_bytes (limits s).

Lemma wp_send s id b (Q : result Segment TraceError -> SessionTracer -> Prop) :
  Inv s ->
  (forall f, flows s !! id = Some f -> next_send f < U64_MAX) ->
  tick s + max_pending_age (limits s) <= U64_MAX ->
  (flows s !! id = None -> Q (Err UnknownFlow) s) ->
  (forall f e, flows s !! id = Some f -> ~ admits s f b ->
    e ∈ [SessionPendingSegmentLimit; SessionPendingByteLimit; PendingSegmentLimit;
         PendingByteLimit] ->
    Q (Err e) (logged PendingLimitReached s)) ->
  (forall f, flows s !! id = Some f -> admits s f b ->
    Q (Ok (sent_segment s id f b)) (sent_session s id f b)) ->
  wp (SessionTracer.send id b) s Q.
Proof.
  intros HI Hn Ht Hu He HQ. unfold SessionTracer.send. wp_step.
  destruct (flows s !! id) as [f|] eqn:Hf; [|wp_steps; auto].
  pose proof (flow_in_range _ _ _ _ _ _ _ _ _ (inv_flows _ HI) Hf) as [].
  specialize (Hn f eq_refl). pose proof (inv_limits s HI) as [].
  destruct (inv_flows _ HI) as [_ _ _ Hms Hmb _]. unfold u64 in *.
  unfold SessionTracer.usize_add. session_steps;
    rewrite ?N.leb_gt, ?N.ltb_ge, ?N.eqb_neq, ?N.leb_le, ?N.ltb_lt, ?N.eqb_eq in *; try lia.
  1-4: (apply (He f); [done|unfold admits; lia|set_solver]).
  apply (HQ f); [done|]. unfold admits. lia.
Qed.

(** *** Receiving *)
Definition advanced_flow (f : ReliableFlow) : ReliableFlow :=
  {| next_send := next_send f;
     next_receive := next_receive f + 1;
     receive_final_next := receive_final_next f;
     pending := pending f;
     flow_pending_bytes := flow_pending_bytes f |}.

(** [n] is below the final cursor, where the peer has announced one. *)
Definition below_final (f : ReliableFlow) (n : Sequence) : Prop :=
  forall fin, receive_final_next f = Some fin -> n < fin.

Lemma wp_receive s g (Q : result ReceiveResult TraceError -> SessionTracer -> Prop) :
  Inv s ->
  (forall f, flows s !! flow_id g = Some f -> next_receive f < U64_MAX) ->
  (forall e, ~ epoch_valid s (epoch g) -> Q (Err e) s) ->
  (epoch_valid s (epoch g) -> flows s !! flow_id g = None -> Q (Err UnknownFlow) s) ->
  (forall f, epoch_valid s (epoch g) -> flows s !! flow_id g = Some f ->
    (~ below_final f (sequence g) -> Q (Err FlowFinished) s) /\
    (below_final f (sequence g) ->
      (sequence g < next_receive f -> Q (Ok Duplicate) (logged DuplicateIgnored s)) /\
      (next_receive f < sequence g -> Q (Ok OutOfOrder) (logged OutOfOrderRejected s)) /\
      (sequence g = next_receive f ->
       Q (Ok (Delivered (bytes g)))
         (set_flows (<[flow_id g := advanced_flow f]> (flows s)) s)))) ->
  wp (SessionTracer.receive g) s Q.
Proof.
  intros HI Hn Hinv Hu HQ. unfold SessionTracer.receive. session_steps; [auto|auto|..];
    match goal with H : epoch_valid _ _ |- _ => rename H into Hv end;
    match goal with H : flows s !! _ = Some _ |- _ => rename H into Hf end;
    destruct (HQ _ Hv Hf) as [HQ1 HQ2].
  - apply HQ1. intros Hb. destruct (receive_final_next a) as [fin|] eqn:Hfin; [|done].
    specialize (Hb fin Hfin). rewrite N.leb_le in *. lia.
  - assert (below_final a (sequence g)) as Hb by
      (intros fin Hfin; rewrite Hfin in *; by apply N.leb_gt).
    apply HQ2; [done|]. by apply N.ltb_lt.
  - assert (below_final a (sequence g)) as Hb by
      (intros fin Hfin; rewrite Hfin in *; by apply N.leb_gt).
    apply HQ2; [done|]. by apply N.ltb_lt.
  - specialize (Hn a Hf). lia.
  - assert (below_final a (sequence g)) as Hb by
      (intros fin Hfin; rewrite Hfin in *; by apply N.leb_gt).
    apply HQ2; [done|]. rewrite !N.ltb_ge in *. lia.
Qed.

(** Sending, on every branch: within the limits the segment takes the
    flow's next sequence number and the current epoch and joins the flow's
    retransmission queue; outside them nothing but the event log changes. *)
Theorem send_spec s id b :
  Inv s ->
  (forall f, flows s !! id = Some f -> next_send f < U64_MAX) ->
  tick s + max_pending_age (limits s) <= U64_MAX ->
  exists r s', SessionTracer.send id b s = Ret (r, s') /\
    match flows s !! id with
    | None => r = Err UnknownFlow /\ s' = s
    | Some f =>
      (admits s f b /\ r = Ok (sent_segment s id f b) /\ s' = sent_session s id f b) \/
      (~ admits s f b /\ (exists e, r = Err e) /\ s' = logged PendingLimitReached s)
    end.
Proof.
  intros HI Hn Ht. apply wp_run, wp_send; [done|done|done| | |].
  - by intros ->.
  - intros f e -> Ha _. right. split_and!; [done|by exists e|done].
  - intros f -> Ha. by left.
Qed.

(** Recovery: the segments a resumed flow reissues are its
    unacknowledged bytes, in order, under their original consecutive sequence
    numbers up to the next one to be sent, and under the current epoch. *)
Theorem resume_spec s id f :
  Inv s -> flows s !! id = Some f ->
  exists gs, SessionTracer.resume_unacknowledged s id = Ok gs /\
    bytes <$> gs = (fun p => bytes (segment p)) <$> pending f /\
    forall i g, gs !! i = Some g ->
      flow_id g = id /\ epoch g = current (transition s) /\
      sequence g + len gs = next_send f + N.of_nat i.
Proof.
  intros HI Hf. pose proof (flow_in_range _ _ _ _ _ _ _ _ _ (inv_flows _ HI) Hf) as [].
  unfold SessionTracer.resume_unacknowledged. rewrite Hf. eexists. split; [done|]. split.
  { rewrite <-list_fmap_compose. done. }
  intros i g. rewrite list_lookup_fmap_Some. intros (p & -> & Hi).
  pose proof (contiguous_lookup _ _ _ _ fl_contiguous0 Hi) as Hseq.
  rewrite Forall_lookup in fl_pending0. destruct (fl_pending0 i p Hi) as (Hid & _ & _).
  cbn [SessionTracer.with_epoch flow_id epoch sequence]. split_and!; [done|done|].
  unfold len in *. rewrite length_fmap. lia.
Qed.

(** The transition window: beginning a transition opens the next epoch
    and keeps exactly the previous one acceptable, detaches the session's
    carrier from everything but that epoch, and excludes a second transition;
    completing it makes the previous epoch stale and leaves no carrier that
    may dispatch until one attaches. *)
Theorem transition_window s s1 e :
  Inv s -> SessionTracer.begin_transition s = Ret (Ok e, s1) ->
  e = SessionTracer.epoch s + 1 /\ SessionTracer.epoch s1 = e /\
  TransitionState.validate (transition s1) e = Current /\
  TransitionState.validate (transition s1) (SessionTracer.epoch s) = Retiring /\
  SessionTracer.begin_transition s1 = Ret (Err TransitionInProgress, s1) /\
  (forall c, SessionTracer.carrier_attachment_is_active s1 c = false) /\
  (forall c, SessionTracer.carrier_attachment_is_dispatchable s1 c =
             SessionTracer.carrier_attachment_is_active s c) /\
  exists s2, SessionTracer.complete_transition (E := Empty_set) s1 = Ret (Ok tt, s2) /\
    TransitionState.validate (transition s2) (SessionTracer.epoch s) = Stale /\
    (forall c, SessionTracer.carrier_attachment_is_dispatchable s2 c = false).
Proof.
  intros HI. unfold SessionTracer.begin_transition at 1, TransitionState.advance.
  destruct (retiring (transition s)) as [r|] eqn:Hr; [done|].
  destruct (checked_add _ _ _) as [n|] eqn:Hn; [|done].
  apply checked_add_Some in Hn as [-> Hmax]. intros [= <- <-].
  assert ((current (transition s) + 1 =? current (transition s)) = false) as Hne
    by (apply N.eqb_neq; lia).
  assert ((current (transition s) =? current (transition s) + 1) = false) as Hne'
    by (apply N.eqb_neq; lia).
  unfold SessionTracer.epoch, TransitionState.validate. cbn [set_attachments set_transition
    transition current retiring]. rewrite N.eqb_refl, Hne'.
  rewrite bool_decide_eq_true_2 by done. split_and!; try done.
  - intros c. unfold SessionTracer.carrier_attachment_is_dispatchable,
      SessionTracer.carrier_attachment_is_active. cbn.
    destruct (accepted_attachment s) as [a|] eqn:Ha; [|done].
    destruct (at_accepted _ _ _ _ _ (inv_attachments _ HI) a Ha) as [Hep _].
    unfold SessionTracer.epoch. rewrite Hep, N.eqb_refl. by rewrite andb_true_r.
  - unfold SessionTracer.complete_transition, bind, modify.
    rewrite record_event_run by apply HI. eexists. split; [done|]. cbn.
    rewrite Hne'. split; [|done].
    by replace (_ <? _) with true by (symmetry; apply N.ltb_lt; lia).
Qed.
