(* ===== verification/Dispatcher.v ===== *)
(** The frame dispatcher ([velum-session/src/dispatcher.rs]): maps v0 frames
    of one carrier into operations of a session. *)
From S2P Require Import Prelude Protocol Carrier Crypto Frame Session.

(** ** Data *)
Inductive DispatchOutcome :=
| AttachmentAccepted (response : Frame)
| AttachmentAlreadyAccepted (response : Frame)
| DispatchFlowOpened
| Acknowledged
| DispatchDelivered (bytes : list byte)
| DispatchDuplicate
| DispatchOutOfOrder
| DispatchFlowFinished
| FlowReset (error : ProtocolErrorCode)
| ConnectionClosed (error : ProtocolErrorCode)
| OptionalFrameIgnored.

Inductive DispatchError :=
| Closed
| CarrierNotAttached
| SessionMismatch
| UnexpectedFrame
| Attachment (error : AttachmentError)
| Trace (error : TraceError).

Module DispatchError.
Definition error_code (self : DispatchError) : ProtocolErrorCode :=
  match self with
  | Closed | CarrierNotAttached | SessionMismatch | UnexpectedFrame => CodeProtocolViolation
  | Attachment (Authentication _) | Attachment NegotiationMismatch
  | Attachment MissingNegotiation => CodeAuthenticationFailed
  | Attachment Replay => CodeReplayDetected
  | Attachment AttachmentStaleEpoch | Attachment AttachmentFutureEpoch => CodeProtocolViolation
  | Trace UnknownFlow => CodeFlowNotFound
  | Trace FlowLimit | Trace PendingSegmentLimit | Trace PendingByteLimit
  | Trace SessionPendingSegmentLimit | Trace SessionPendingByteLimit => CodeResourceLimit
  | Trace _ => CodeFlowState
  end.
End DispatchError.

Record SessionFrameDispatcher `{Hmac} := {
  session_id : SessionId;
  carrier : CarrierId;
  authenticator : AttachmentAuthenticator;
  closed : bool
}.

(** ** Operations *)
Module SessionFrameDispatcher.
Section dispatcher.
Context `{Hmac}.

Definition new (session_id : SessionId) (carrier : CarrierId)
    (authenticator : AttachmentAuthenticator) : SessionFrameDispatcher :=
  {| session_id := session_id; carrier := carrier; authenticator := authenticator;
     closed := false |}.

Definition is_closed (self : SessionFrameDispatcher) : bool := closed self.

Definition set_closed (self : SessionFrameDispatcher) : SessionFrameDispatcher :=
  {| session_id := session_id self; carrier := carrier self;
     authenticator := authenticator self; closed := true |}.

(** [condition.then_some(()).ok_or(CarrierNotAttached)?] on the session. *)
Definition require_active_attachment (self : SessionFrameDispatcher)
  : M SessionTracer DispatchError unit :=
  let! session := get in
  reject_if (negb (SessionTracer.carrier_attachment_is_active session (carrier self)))
    CarrierNotAttached.

Definition require_dispatchable_attachment (self : SessionFrameDispatcher)
  : M SessionTracer DispatchError unit :=
  let! session := get in
  reject_if (negb (SessionTracer.carrier_attachment_is_dispatchable session (carrier self)))
    CarrierNotAttached.

Definition attach (self : SessionFrameDispatcher) (frame_session_id : SessionId)
    (epoch : Epoch) (attachment_id : AttachmentId) (parameters : NegotiatedParameters)
    (proof : list byte) : M SessionTracer DispatchError DispatchOutcome :=
  reject_if (negb (bool_decide (frame_session_id = session_id self))) SessionMismatch ;!
  let! acceptance := map_err Attachment
    (SessionTracer.authenticate_carrier_attachment (authenticator self) (session_id self)
      {| att_carrier := carrier self; att_epoch := epoch;
         att_attachment_id := attachment_id; att_parameters := parameters;
         att_proof := {| proof_bytes := proof |} |}) in
  let response := FAttachAccepted (session_id self) epoch attachment_id in
  match acceptance with
  | Accepted => ret (AttachmentAccepted response)
  | AlreadyAccepted => ret (AttachmentAlreadyAccepted response)
  end.

(** The session part of [dispatch], for a dispatcher that is open. *)
Definition dispatch_frame (self : SessionFrameDispatcher) (frame : Frame)
  : M SessionTracer DispatchError DispatchOutcome :=
  match frame with
  | FAttach frame_session_id epoch attachment_id parameters proof =>
    attach self frame_session_id epoch attachment_id parameters proof
  | FStreamOpen flow_id =>
    require_active_attachment self ;!
    map_err Trace (SessionTracer.open_reliable_flow_with_id flow_id) ;!
    ret DispatchFlowOpened
  | FStreamData flow_id epoch sequence bytes =>
    require_dispatchable_attachment self ;!
    let! received := map_err Trace (SessionTracer.receive
      {| flow_id := flow_id; Session.epoch := epoch; sequence := sequence;
         bytes := bytes |}) in
    match received with
    | Delivered bytes => ret (DispatchDelivered bytes)
    | Duplicate => ret DispatchDuplicate
    | OutOfOrder => ret DispatchOutOfOrder
    end
  | FStreamAcknowledgement flow_id epoch through =>
    require_dispatchable_attachment self ;!
    map_err Trace (SessionTracer.acknowledge
      {| ack_flow_id := flow_id; ack_epoch := epoch; through := through |}) ;!
    ret Acknowledged
  | FStreamFinish flow_id epoch final_next_sequence =>
    require_dispatchable_attachment self ;!
    map_err Trace (SessionTracer.finish_receiving flow_id epoch final_next_sequence) ;!
    ret DispatchFlowFinished
  | FStreamReset flow_id error =>
    require_dispatchable_attachment self ;!
    map_err Trace (SessionTracer.reset_reliable_flow flow_id) ;!
    ret (FlowReset error)
  | FConnectionClose error =>
    require_dispatchable_attachment self ;!
    ret (ConnectionClosed error)
  | FUnknownOptional _ _ =>
    require_dispatchable_attachment self ;!
    ret OptionalFrameIgnored
  | FNegotiationOffer _ | FNegotiationAccept _ | FAttachAccepted _ _ _ =>
    throw UnexpectedFrame
  end.

(** [dispatch] borrows the dispatcher and the session: its state is the
    pair of both.  [self.closed = true] runs on the one branch that returns
    [ConnectionClosed]. *)
Definition dispatch (frame : Frame)
  : M (SessionFrameDispatcher * SessionTracer) DispatchError DispatchOutcome :=
  fun '(self, session) =>
  if closed self then Ret (Err Closed, (self, session))
  else
    match dispatch_frame self frame session with
    | Ret (Ok (ConnectionClosed error), session) =>
      Ret (Ok (ConnectionClosed error), (set_closed self, session))
    | Ret (r, session) => Ret (r, (self, session))
    | Panic => Panic
    | OutOfFuel => OutOfFuel
    end.
End dispatcher.
End SessionFrameDispatcher.

(** ** Lemmas *)
Section proofs.
Context `{Hmac}.
Implicit Types (d : SessionFrameDispatcher) (s : SessionTracer).

(** The counters a frame needs to be below 2^64. *)
Definition frame_can_run (frame : Frame) (s : SessionTracer) : Prop :=
  match frame with
  | FStreamData id _ _ _ => forall f, flows s !! id = Some f -> next_receive f < U64_MAX
  | _ => True
  end.

Lemma wp_require_active {B} d (k : unit -> M SessionTracer DispatchError B) s Q :
  (SessionTracer.carrier_attachment_is_active s (carrier d) = false ->
   Q (Err CarrierNotAttached) s) ->
  (SessionTracer.carrier_attachment_is_active s (carrier d) = true -> wp (k tt) s Q) ->
  wp (bind (SessionFrameDispatcher.require_active_attachment d) k) s Q.
Proof.
  intros He Hk. apply wp_bind. unfold SessionFrameDispatcher.require_active_attachment.
  wp_step. destruct (SessionTracer.carrier_attachment_is_active _ _); [by apply Hk|by apply He].
Qed.

Lemma wp_require_dispatchable {B} d (k : unit -> M SessionTracer DispatchError B) s Q :
  (SessionTracer.carrier_attachment_is_dispatchable s (carrier d) = false ->
   Q (Err CarrierNotAttached) s) ->
  (SessionTracer.carrier_attachment_is_dispatchable s (carrier d) = true -> wp (k tt) s Q) ->
  wp (bind (SessionFrameDispatcher.require_dispatchable_attachment d) k) s Q.
Proof.
  intros He Hk. apply wp_bind. unfold SessionFrameDispatcher.require_dispatchable_attachment.
  wp_step.
  destruct (SessionTracer.carrier_attachment_is_dispatchable _ _); [by apply Hk|by apply He].
Qed.

(** A session operation whose every result keeps [P] keeps it inside the
    dispatcher. *)
Lemma wp_trace {A B} (m : M SessionTracer TraceError A) s (P : SessionTracer -> Prop) (Q : result B DispatchError -> SessionTracer -> Prop)
    (c : A -> M SessionTracer DispatchError B) :
  wp m s (fun _ s' => P s') -> (forall e s', P s' -> Q (Err e) s') ->
  (forall a s', P s' -> wp (c a) s' Q) ->
  wp (bind (map_err Trace m) c) s Q.
Proof.
  intros Hm He Hc. apply wp_bind, wp_map_err. eapply wp_mono; [exact Hm|].
  intros [a|e] s' HP; auto.
Qed.

Lemma dispatch_frame_preserves d s frame :
  Inv s -> frame_can_run frame s ->
  wp (SessionFrameDispatcher.dispatch_frame d frame) s (fun _ s' => Inv s').
Proof.
  intros HI Hc. destruct frame; cbn [SessionFrameDispatcher.dispatch_frame];
    try (by apply wp_throw);
    try (first [apply wp_require_dispatchable|apply wp_require_active]; [done|intros _]).
  - unfold SessionFrameDispatcher.attach. wp_steps; [done|].
    apply wp_bind, wp_map_err. eapply wp_mono; [by apply authenticate_preserves|].
    intros [[]|e] s' HI'; [by apply wp_ret..|done].
  - by eapply wp_trace; [apply open_with_id_preserves|..].
  - eapply wp_trace; [by apply receive_preserves|done|].
    intros [] s' HI'; by apply wp_ret.
  - by eapply wp_trace; [apply acknowledge_preserves|..].
  - by eapply wp_trace; [apply finish_preserves|..].
  - by eapply wp_trace; [apply reset_preserves|..].
  - by apply wp_ret.
  - by apply wp_ret.
Qed.

(** Only the event log differs. *)
Definition only_events (s s' : SessionTracer) : Prop := s' = set_events (events s') s.

Lemma only_events_refl s : only_events s s.
Proof. by destruct s. Qed.
Lemma only_events_trans s t u : only_events s t -> only_events t u -> only_events s u.
Proof. unfold only_events. intros Ht Hu. rewrite Hu at 1. rewrite Ht. done. Qed.
Lemma only_events_logged e s : only_events s (logged e s).
Proof. done. Qed.
Lemma only_events_dispatchable s s' c :
  only_events s s' ->
  SessionTracer.carrier_attachment_is_dispatchable s' c
    = SessionTracer.carrier_attachment_is_dispatchable s c.
Proof. by intros ->. Qed.

Definition is_attach_outcome (o : DispatchOutcome) : bool :=
  match o with AttachmentAccepted _ => true | _ => false end.

(** What a carrier without an attachment can do in one frame: attach, or
    fail. *)
Lemma unattached_frame d s frame :
  Inv s -> SessionTracer.carrier_attachment_is_dispatchable s (carrier d) = false ->
  wp (SessionFrameDispatcher.dispatch_frame d frame) s (fun r s' => Inv s' /\
    match r with
    | Ok o => is_attach_outcome o = true
    | Err _ => only_events s s'
    end).
Proof.
  intros HI Hd.
  assert (SessionTracer.carrier_attachment_is_active s (carrier d) = false) as Ha.
  { unfold SessionTracer.carrier_attachment_is_dispatchable in Hd.
    by apply orb_false_iff in Hd as [? _]. }
  destruct frame; cbn [SessionFrameDispatcher.dispatch_frame];
    try (apply wp_throw; split; [done|apply only_events_refl]);
    try (first [apply wp_require_dispatchable|apply wp_require_active];
         [split; [done|apply only_events_refl]|congruence]).
  unfold SessionFrameDispatcher.attach. wp_steps; [by split; [|apply only_events_refl]|].
  apply wp_bind, wp_map_err.
  eapply wp_mono; [apply wp_and; [by apply authenticate_preserves|]|].
  { apply (wp_authenticate _ _ _ _ (fun r s' => match r with
      | Ok AlreadyAccepted => False | Ok Accepted => True | Err _ => only_events s s' end));
      [done|intros; apply only_events_refl|intros; apply only_events_logged|].
    intros _ Hep _. split; [|done]. intros Hacc.
    unfold SessionTracer.carrier_attachment_is_active, SessionTracer.epoch in Ha.
    rewrite Hacc in Ha. cbn in Ha, Hep. by rewrite Hep, !N.eqb_refl in Ha. }
  intros [[]|e] s' [HI' Hr]; [|done|done].
  by apply wp_ret.
Qed.

(** The frames a carrier delivers, one after the other. *)
Fixpoint dispatch_all (frames : list Frame) (ds : SessionFrameDispatcher * SessionTracer)
  : outcome (list (result DispatchOutcome DispatchError)
             * (SessionFrameDispatcher * SessionTracer)) :=
  match frames with
  | [] => Ret ([], ds)
  | frame :: frames =>
    match SessionFrameDispatcher.dispatch frame ds with
    | Ret (r, ds) =>
      match dispatch_all frames ds with
      | Ret (rs, ds) => Ret (r :: rs, ds)
      | Panic => Panic
      | OutOfFuel => OutOfFuel
      end
    | Panic => Panic
    | OutOfFuel => OutOfFuel
    end
  end.

Lemma dispatch_unattached d s frame r d' s' :
  Inv s -> SessionTracer.carrier_attachment_is_dispatchable s (carrier d) = false ->
  SessionFrameDispatcher.dispatch frame (d, s) = Ret (r, (d', s')) ->
  d' = d /\ Inv s' /\
  match r with Ok o => is_attach_outcome o = true | Err _ => only_events s s' end.
Proof.
  intros HI Hd. cbn. destruct (closed d).
  { intros [= <- <- <-]. split_and!; [done|done|apply only_events_refl]. }
  destruct (SessionFrameDispatcher.dispatch_frame d frame s) as [[r1 s1]| |] eqn:Hf;
    [|done|done].
  destruct (wp_elim _ _ _ _ _ (unattached_frame d s frame HI Hd) Hf) as [HI' Hr].
  destruct r1 as [[]|]; try done; by intros [= <- <- <-].
Qed.

(** C9. Authorisation: whatever frames a carrier without an attachment
    sends, until one of them attaches it every frame is refused, no payload
    is delivered, and nothing of the session but its event log changes. *)
Theorem unattached_carrier_powerless d s frames rs d' s' :
  Inv s -> SessionTracer.carrier_attachment_is_dispatchable s (carrier d) = false ->
  dispatch_all frames (d, s) = Ret (rs, (d', s')) ->
  (exists response, Ok (AttachmentAccepted response) ∈ rs) \/
  (Forall (fun r => is_ok r = false) rs /\ d' = d /\ only_events s s').
Proof.
  revert s rs. induction frames as [|frame frames IH]; intros s rs HI Hd; cbn [dispatch_all].
  { intros [= <- <- <-]. right. split_and!; [constructor|done|apply only_events_refl]. }
  destruct (SessionFrameDispatcher.dispatch frame (d, s)) as [[r [d1 s1]]| |] eqn:Hr; [|done|done].
  destruct (dispatch_unattached _ _ _ _ _ _ HI Hd Hr) as (-> & HI1 & Hres).
  destruct (dispatch_all frames (d, s1)) as [[rs1 [d2 s2]]| |] eqn:Hrs; [|done|done].
  intros [= <- <- <-]. destruct r as [o|e].
  { left. destruct o; try done. eexists. by left. }
  destruct (IH s1 rs1 HI1) as [[resp Hin]|(Hall & -> & Hev)]; [|done| |].
  - by rewrite (only_events_dispatchable s s1).
  - left. exists resp. by right.
  - right. split_and!; [by constructor|done|by eapply only_events_trans].
Qed.

(** Dispatch is total and keeps the session's invariant; a closed
    dispatcher refuses every frame and changes nothing, and a dispatcher
    closes exactly when it reports a connection close. *)
Theorem dispatch_safe d s frame :
  Inv s -> frame_can_run frame s ->
  exists r d' s', SessionFrameDispatcher.dispatch frame (d, s) = Ret (r, (d', s')) /\ Inv s' /\
    (closed d = true -> r = Err Closed /\ d' = d /\ s' = s) /\
    (closed d = false ->
     closed d' = match r with Ok (ConnectionClosed _) => true | _ => false end).
Proof.
  intros HI Hc. cbn. destruct (closed d) eqn:Hcl.
  { by exists (Err Closed), d, s. }
  destruct (wp_run _ _ _ (dispatch_frame_preserves d s frame HI Hc)) as (r & s' & -> & HI').
  destruct r as [[]|]; eexists _, _, _; (split; [done|]); by split_and!.
Qed.
End proofs.
