(* ===== verification/Simulator.v ===== *)
(** The deterministic in-memory carrier ([velum-session/src/simulator.rs]):
    loss, duplication, reordering, delay and black holes. *)
From S2P Require Import Prelude Session.

Inductive CarrierDisposition :=
| Deliver
| Drop
| DuplicateSegment
| Delay (ticks : N).

#[export] Instance CarrierDisposition_eq_dec : EqDecision CarrierDisposition.
Proof. solve_decision. Defined.

Record ScheduledSegment := { ready_at : N; scheduled_segment : Segment }.

Record InMemoryCarrier := {
  sim_tick : N;
  available : bool;
  scheduled : list ScheduledSegment
}.

Module InMemoryCarrier.
Definition new : InMemoryCarrier := {| sim_tick := 0; available := true; scheduled := [] |}.

Definition set_available (available : bool) (self : InMemoryCarrier) : InMemoryCarrier :=
  {| sim_tick := sim_tick self; available := available; scheduled := scheduled self |}.

Definition schedule {E} (segment : Segment) (delay : N) : M InMemoryCarrier E unit :=
  let! self := get in
  let! ready_at := expect (checked_add U64_MAX (sim_tick self) delay) in
  modify (fun self =>
    {| sim_tick := sim_tick self; available := available self;
       scheduled := scheduled self ++
         [{| ready_at := ready_at; scheduled_segment := segment |}] |}).

(** The last branch of the inner match is [unreachable!]. *)
Definition transmit {E} (segment : Segment) (disposition : CarrierDisposition)
  : M InMemoryCarrier E unit :=
  let! self := get in
  if negb (available self) || bool_decide (disposition = Drop) then ret tt
  else
    let! delay := match disposition with
                  | Delay delay => ret delay
                  | Deliver | DuplicateSegment => ret 0
                  | Drop => panic
                  end in
    schedule segment delay ;!
    if bool_decide (disposition = DuplicateSegment) then schedule segment delay else ret tt.

(** The loop of [advance], moving every scheduled segment to [ready] or to
    [waiting]. *)
Fixpoint partition_ready (now : N) (scheduled : list ScheduledSegment)
    (ready : list Segment) (waiting : list ScheduledSegment)
  : list Segment * list ScheduledSegment :=
  match scheduled with
  | [] => (ready, waiting)
  | s :: rest =>
    if ready_at s <=? now
    then partition_ready now rest (ready ++ [scheduled_segment s]) waiting
    else partition_ready now rest ready (waiting ++ [s])
  end.

Definition advance {E} (ticks : N) : M InMemoryCarrier E (list Segment) :=
  let! self := get in
  let! now := expect (checked_add U64_MAX (sim_tick self) ticks) in
  let '(ready, waiting) := partition_ready now (scheduled self) [] [] in
  modify (fun self =>
    {| sim_tick := now; available := available self; scheduled := waiting |}) ;!
  ret ready.

Definition pending (self : InMemoryCarrier) : N := len (scheduled self).
End InMemoryCarrier.

(** ** Lemmas *)
Lemma partition_ready_spec now l r w :
  InMemoryCarrier.partition_ready now l r w =
    (r ++ (scheduled_segment <$> filter (fun s => ready_at s <= now) l),
     w ++ filter (fun s => now < ready_at s) l).
Proof.
  revert r w. induction l as [|s l IH]; intros r w; cbn [InMemoryCarrier.partition_ready].
  { by rewrite !app_nil_r. }
  destruct (N.leb_spec (ready_at s) now).
  - rewrite IH, filter_cons_True, filter_cons_False by lia. by rewrite <-app_assoc.
  - rewrite IH, filter_cons_False, filter_cons_True by lia. by rewrite <-app_assoc.
Qed.

(** The copies of a segment one attempt puts on an available carrier. *)
Definition copies (d : CarrierDisposition) : nat :=
  match d with Drop => 0 | DuplicateSegment => 2 | Deliver | Delay _ => 1 end.

(** ** Runs of the carrier *)
Inductive CarrierOp :=
| SetAvailable (b : bool)
| Transmit (g : Segment) (d : CarrierDisposition)
| Advance (ticks : N).

(** What one operation accepts from the sender and hands to the receiver. *)
Definition carrier_step (op : CarrierOp) (c : InMemoryCarrier)
  : outcome (list Segment * list Segment * InMemoryCarrier) :=
  match op with
  | SetAvailable b => Ret ([], [], InMemoryCarrier.set_available b c)
  | Transmit g d =>
    match InMemoryCarrier.transmit (E := Empty_set) g d c with
    | Ret (_, c') => Ret (if available c then repeat g (copies d) else [], [], c')
    | _ => Panic
    end
  | Advance t =>
    match InMemoryCarrier.advance (E := Empty_set) t c with
    | Ret (Ok out, c') => Ret ([], out, c')
    | _ => Panic
    end
  end.

Fixpoint carrier_run (ops : list CarrierOp) (c : InMemoryCarrier)
  : outcome (list Segment * list Segment * InMemoryCarrier) :=
  match ops with
  | [] => Ret ([], [], c)
  | op :: ops =>
    match carrier_step op c with
    | Ret (i, o, c) =>
      match carrier_run ops c with
      | Ret (i', o', c') => Ret (i ++ i', o ++ o', c')
      | _ => Panic
      end
    | _ => Panic
    end
  end.

Definition in_flight (c : InMemoryCarrier) : list Segment := scheduled_segment <$> scheduled c.

Lemma filter_split {A} (P Q : A -> Prop) `{!forall x, Decision (P x)} `{!forall x, Decision (Q x)} l :
  (forall x, Q x <-> ~ P x) -> filter P l ++ filter Q l ≡ₚ l.
Proof.
  intros HPQ. induction l as [|x l IH]; [done|].
  destruct (decide (P x)) as [HP|HP].
  - rewrite filter_cons_True, filter_cons_False by naive_solver. cbn [app]. by rewrite IH.
  - rewrite filter_cons_False, filter_cons_True by naive_solver.
    by rewrite <-Permutation_middle, IH.
Qed.

Lemma carrier_step_conserves op c i o c' :
  carrier_step op c = Ret (i, o, c') -> in_flight c ++ i ≡ₚ o ++ in_flight c'.
Proof.
  destruct op as [b|g d|t]; cbn [carrier_step].
  - intros [= <- <- <-]. by rewrite app_nil_r.
  - unfold InMemoryCarrier.transmit, InMemoryCarrier.schedule, bind, get, modify, ret, panic.
    destruct (available c); cbn [negb orb]; [|intros [= <- <- <-]; by rewrite app_nil_r].
    destruct d as [| | |n]; cbn [copies repeat];
      repeat first [rewrite bool_decide_eq_false_2 by done|rewrite bool_decide_eq_true_2 by done].
    all: try (destruct (checked_add _ _ _); cbn [expect]; [|done]).
    all: unfold ret; cbn [sim_tick].
    all: try (destruct (checked_add _ _ _); cbn [expect]; [|done]).
    all: intros [= <- <- <-]; unfold in_flight; cbn [scheduled];
      rewrite ?app_nil_r, ?fmap_app; cbn; by rewrite <-?app_assoc.
  - unfold InMemoryCarrier.advance, bind, get, modify, ret.
    destruct (checked_add _ _ _) as [now|]; cbn [expect]; [|done]. unfold ret.
    rewrite partition_ready_spec. intros [= <- <- <-]. unfold in_flight. cbn [scheduled app].
    rewrite app_nil_r, <-fmap_app. apply fmap_Permutation. symmetry. apply filter_split.
    intros x. lia.
Qed.

(** ** Properties *)

(** Conservation: over any run, every copy the carrier accepted is
    handed over at most once, and what was not handed over is still in
    flight; nothing is invented or lost after its acceptance. *)
Theorem carrier_conserves ops c i o c' :
  carrier_run ops c = Ret (i, o, c') -> in_flight c ++ i ≡ₚ o ++ in_flight c'.
Proof.
  revert c i o. induction ops as [|op ops IH]; intros c i o; cbn [carrier_run].
  { intros [= <- <- <-]. by rewrite app_nil_r. }
  destruct (carrier_step op c) as [[[i1 o1] c1]| |] eqn:Hstep; [|done|done].
  destruct (carrier_run ops c1) as [[[i2 o2] c2]| |] eqn:Hrun; [|done|done].
  intros [= <- <- <-]. apply carrier_step_conserves in Hstep. apply IH in Hrun.
  by rewrite app_assoc, Hstep, <-app_assoc, Hrun, app_assoc.
Qed.

(** Timeliness: [advance] hands over exactly the segments whose delay
    has ended, in the order they were scheduled, and keeps the others in
    order. *)
Theorem advance_timely {E} t c :
  sim_tick c + t <= U64_MAX ->
  exists c', InMemoryCarrier.advance (E := E) t c =
      Ret (Ok (scheduled_segment <$> filter (fun s => ready_at s <= sim_tick c + t) (scheduled c)), c') /\
    sim_tick c' = sim_tick c + t /\ available c' = available c /\
    scheduled c' = filter (fun s => sim_tick c + t < ready_at s) (scheduled c).
Proof.
  intros Ht. unfold InMemoryCarrier.advance, bind, get, modify, ret.
  rewrite (proj2 (checked_add_Some _ _ _ (sim_tick c + t))) by (split; [done|lia]).
  cbn [expect]. unfold ret. rewrite partition_ready_spec. eexists. by split.
Qed.
