(* ===== verification/Delivery.v ===== *)
(** End-to-end delivery between two sessions over an adversarial carrier, and
    across carrier transitions: the contract the seeded campaign
    ([velum-session/src/campaign.rs]) samples, for every schedule. *)
From S2P Require Import Prelude Protocol Carrier Crypto Session.

(** [deliver]: feeds segments to a receiver and collects what it delivers;
    an error of [receive] is an [expect] that panics. *)
Fixpoint deliver (receiver : SessionTracer) (segments : list Segment) (output : list (list byte))
  : outcome (SessionTracer * list (list byte)) :=
  match segments with
  | [] => Ret (receiver, output)
  | segment :: rest =>
    match SessionTracer.receive segment receiver with
    | Ret (Ok (Delivered bytes), receiver) => deliver receiver rest (output ++ [bytes])
    | Ret (Ok _, receiver) => deliver receiver rest output
    | _ => Panic
    end
  end.

(** ** The effect of other operations on a flow *)

(** The part of a flow that the stream of its bytes depends on. *)
Definition same_stream (f f' : ReliableFlow) : Prop :=
  next_send f = next_send f' /\ next_receive f = next_receive f' /\ pending f = pending f'.

(** The operations that move the flow's stream forward. *)
Definition moves `{Hmac} (id : FlowId) (op : Operation) : Prop :=
  match op with
  | OpSend i _ => i = id
  | OpAcknowledge a => ack_flow_id a = id
  | OpReceive g => flow_id g = id
  | _ => False
  end.

(** A flow keeps its stream, or is gone. *)
Definition keeps_stream (id : FlowId) (s s' : SessionTracer) : Prop :=
  next_flow s <= next_flow s' /\
  forall f', flows s' !! id = Some f' -> exists f, flows s !! id = Some f /\ same_stream f f'.

Lemma keeps_stream_flows id s s' :
  next_flow s <= next_flow s' -> flows s' = flows s -> keeps_stream id s s'.
Proof. intros ? Hf. split; [done|]. rewrite Hf. intros f ?. by exists f. Qed.

Lemma keeps_stream_insert id i f f' s s' :
  next_flow s' = next_flow s -> flows s' = <[i := f']> (flows s) ->
  flows s !! i = Some f -> (i = id -> same_stream f f') -> keeps_stream id s s'.
Proof.
  intros Hn Hs Hf Hsame. split; [lia|]. rewrite Hs. intros f2.
  destruct (decide (i = id)) as [->|Hne].
  - rewrite lookup_insert_eq. intros [= <-]. exists f. auto.
  - rewrite lookup_insert_ne by done. intros ?. by exists f2.
Qed.

Lemma keeps_stream_delete id i s s' :
  next_flow s' = next_flow s -> flows s' = delete i (flows s) -> keeps_stream id s s'.
Proof.
  intros Hn Hs. split; [lia|]. rewrite Hs. intros f [_ Hf]%lookup_delete_Some. by exists f.
Qed.

(** Operations that leave every flow as it is. *)
Definition same_flows (s s' : SessionTracer) : Prop :=
  flows s' = flows s /\ next_flow s' = next_flow s.

#[export] Instance same_flows_preorder : PreOrder same_flows.
Proof. split; [by split|]. intros s t u [H1 H2] [H3 H4]. split; congruence. Qed.
#[export] Hint Resolve same_flows_preorder : preserves.

Lemma record_event_same_flows {E} e :
  preserves same_flows (SessionTracer.record_event (E := E) e).
Proof. unfold SessionTracer.record_event. preserves_steps; by split. Qed.
#[export] Hint Resolve record_event_same_flows : preserves.
Lemma reject_attachment_same_flows {A} e :
  preserves same_flows (SessionTracer.reject_attachment (A := A) e).
Proof. unfold SessionTracer.reject_attachment. preserves_steps. Qed.
#[export] Hint Resolve reject_attachment_same_flows : preserves.

Lemma begin_transition_same_flows : preserves same_flows SessionTracer.begin_transition.
Proof.
  intros s r s'. unfold SessionTracer.begin_transition, TransitionState.advance.
  destruct (retiring _); [by intros [= <- <-]|].
  destruct (checked_add _ _ _); [|done]. by intros [= <- <-].
Qed.
#[export] Hint Resolve begin_transition_same_flows : preserves.

Lemma authenticate_same_flows `{Hmac} auth sid a :
  preserves same_flows (SessionTracer.authenticate_carrier_attachment auth sid a).
Proof.
  unfold SessionTracer.authenticate_carrier_attachment, ReplayWindow.accept.
  preserves_steps; by split.
Qed.

Lemma step_keeps_stream `{Hmac} op s s' id :
  Inv s -> can_run op s -> ~ moves id op -> id < next_flow s -> step op s = Ret s' ->
  keeps_stream id s s'.
Proof.
  intros HI Hc Hm Hid.
  assert (forall E A (m : M SessionTracer E A), preserves same_flows m ->
    final m s = Ret s' -> keeps_stream id s s') as Hsame.
  { intros E A m Hp. unfold final. destruct (m s) as [[r s1]| |] eqn:Hrun; [|done|done].
    intros [= <-]. destruct (Hp _ _ _ Hrun) as [Hf Hn]. apply keeps_stream_flows; [lia|done]. }
  assert (forall E A (m : M SessionTracer E A),
    wp m s (fun _ s1 => keeps_stream id s s1) -> final m s = Ret s' -> keeps_stream id s s') as Hwp.
  { intros E A m Hm'. destruct (final_wp _ _ _ Hm') as (s1 & -> & ?). by intros [= <-]. }
  assert (keeps_stream id s s) as Hrefl by by apply keeps_stream_flows.
  assert (forall s1, flows s1 = flows s -> next_flow s1 = next_flow s -> keeps_stream id s s1)
    as Hflows by (intros; apply keeps_stream_flows; [lia|done]).
  assert (forall i, next_flow s <= i ->
    keeps_stream id s (logged FlowOpened (opened_session i s))) as Hopen.
  { intros i Hi. split; cbn; [lia|]. intros f'. rewrite lookup_insert_ne by lia.
    intros Hf. by exists f'. }
  destruct op; cbn [step moves can_run] in *.
  - apply Hsame. unfold SessionTracer.bind_negotiated_parameters. preserves_steps; by split.
  - apply Hwp. unfold SessionTracer.open_reliable_flow. wp_steps. apply wp_bind.
    apply wp_open_with_id; auto. intros. apply wp_ret. auto.
  - apply Hwp. apply wp_open_with_id; auto.
  - apply Hwp. apply wp_close; auto. intros f Hf _. by eapply keeps_stream_delete.
  - destruct Hc. apply Hwp. apply wp_send; auto. intros f Hf _.
    by eapply keeps_stream_insert; [| |exact Hf|].
  - apply Hwp. apply wp_acknowledge; auto. intros f Hf _ _ _.
    by eapply keeps_stream_insert; [| |exact Hf|].
  - apply Hwp. apply wp_receive; auto. intros f _ Hf. split; [auto|]. intros _.
    split_and!; intros _; [by apply Hflows..|].
    by eapply keeps_stream_insert; [| |exact Hf|].
  - apply Hwp. apply wp_finish; auto. intros f Hf _.
    by eapply keeps_stream_insert; [| |exact Hf|].
  - apply Hwp. apply wp_reset; auto. intros f Hf _. by eapply keeps_stream_delete.
  - apply Hwp. eapply wp_mono; [by apply advance_time_wp|].
    intros r s1 (_ & ids & _ & _ & _ & Hlook & Hs1). split; [by rewrite Hs1|].
    intros f'. rewrite Hlook. case_decide; [done|]. intros Hf. by exists f'.
  - apply Hsame, begin_transition_same_flows.
  - apply Hsame. unfold SessionTracer.begin_explained_transition. preserves_steps.
  - apply Hsame. unfold SessionTracer.negotiate_transition_version. preserves_steps.
  - apply Hsame, authenticate_same_flows.
  - apply Hsame. unfold SessionTracer.complete_transition. preserves_steps; by split.
Qed.

(** ** Two sessions and an adversarial carrier *)
Record World := {
  sender : SessionTracer;
  receiver : SessionTracer;
  (** The chunks handed to [send], and those [receive] delivered. *)
  sent : list (list byte);
  delivered : list (list byte);
  (** Every segment put on a carrier. The network may deliver any of them, at
      any time, any number of times. *)
  wire : list Segment
}.

Section world.
Context `{Hmac} (id : FlowId).

(** Any carrier transition, attachment, time step or operation on another
    flow may happen on either side; the flow may also finish, be reset or
    time out. An acknowledgement is for something the peer delivered. *)
Inductive world_step (w : World) : World -> Prop :=
| step_send b g s' :
    can_run (OpSend id b) (sender w) ->
    SessionTracer.send id b (sender w) = Ret (Ok g, s') ->
    world_step w {| sender := s'; receiver := receiver w; sent := sent w ++ [b];
                    delivered := delivered w; wire := wire w ++ [g] |}
| step_resume gs :
    SessionTracer.resume_unacknowledged (sender w) id = Ok gs ->
    world_step w {| sender := sender w; receiver := receiver w; sent := sent w;
                    delivered := delivered w; wire := wire w ++ gs |}
| step_receive g r r' :
    g ∈ wire w -> flow_id g = id ->
    can_run (OpReceive g) (receiver w) ->
    SessionTracer.receive g (receiver w) = Ret (r, r') ->
    world_step w {| sender := sender w; receiver := r'; sent := sent w;
                    delivered := match r with
                                 | Ok (Delivered b) => delivered w ++ [b]
                                 | _ => delivered w
                                 end;
                    wire := wire w |}
| step_acknowledge a r s' :
    ack_flow_id a = id -> through a < len (delivered w) ->
    SessionTracer.acknowledge a (sender w) = Ret (r, s') ->
    world_step w {| sender := s'; receiver := receiver w; sent := sent w;
                    delivered := delivered w; wire := wire w |}
| step_sender op s' :
    ~ moves id op -> can_run op (sender w) -> step op (sender w) = Ret s' ->
    world_step w {| sender := s'; receiver := receiver w; sent := sent w;
                    delivered := delivered w; wire := wire w |}
| step_receiver op r' :
    ~ moves id op -> can_run op (receiver w) -> step op (receiver w) = Ret r' ->
    world_step w {| sender := sender w; receiver := r'; sent := sent w;
                    delivered := delivered w; wire := wire w |}.

(** Both sides have just opened the flow. *)
Definition initial (w : World) : Prop :=
  Inv (sender w) /\ Inv (receiver w) /\
  flows (sender w) !! id = Some SessionTracer.new_flow /\
  flows (receiver w) !! id = Some SessionTracer.new_flow /\
  sent w = [] /\ delivered w = [] /\ wire w = [].

Inductive world_reachable (w0 : World) : World -> Prop :=
| world_refl : world_reachable w0 w0
| world_next w w' : world_reachable w0 w -> world_step w w' -> world_reachable w0 w'.

(** The sender's queue is the unacknowledged end of what was sent. *)
Definition sender_ok (w : World) (f : ReliableFlow) : Prop :=
  next_send f = len (sent w) /\
  len (sent w) - len (pending f) <= len (delivered w) /\
  forall p, p ∈ pending f ->
    sent w !! N.to_nat (sequence (segment p)) = Some (bytes (segment p)).

Record world_ok (w : World) : Prop := {
  wo_sender : Inv (sender w);
  wo_receiver : Inv (receiver w);
  wo_sender_id : id < next_flow (sender w);
  wo_receiver_id : id < next_flow (receiver w);
  wo_sent : forall f, flows (sender w) !! id = Some f -> sender_ok w f;
  wo_delivered : forall f, flows (receiver w) !! id = Some f ->
    next_receive f = len (delivered w);
  wo_wire : forall g, g ∈ wire w -> flow_id g = id ->
    sent w !! N.to_nat (sequence g) = Some (bytes g);
  wo_prefix : delivered w `prefix_of` sent w
}.

Lemma prefix_snoc {A} (l k : list A) x :
  l `prefix_of` k -> k !! length l = Some x -> l ++ [x] `prefix_of` k.
Proof.
  intros [m ->] Hx. rewrite lookup_app_r, Nat.sub_diag in Hx by done.
  destruct m as [|y m]; [done|]. injection Hx as ->. exists m. by rewrite <-app_assoc.
Qed.

Lemma in_range s i f : Inv s -> flows s !! i = Some f ->
  flow_ok (limits s) (current (transition s)) (tick s) (next_flow s) i f.
Proof. intros HI Hf. eapply flow_in_range; [apply HI|done]. Qed.

Lemma sender_ok_stream w f f' : same_stream f f' -> sender_ok w f -> sender_ok w f'.
Proof. intros (Hn & _ & Hp). unfold sender_ok. by rewrite Hn, Hp. Qed.

Lemma initial_ok w : initial w -> world_ok w.
Proof.
  intros (HS & HR & HfS & HfR & Hs & Hd & Hw).
  constructor; rewrite ?Hs, ?Hd, ?Hw; try done.
  - by destruct (in_range _ _ _ HS HfS).
  - by destruct (in_range _ _ _ HR HfR).
  - intros f. rewrite HfS. intros [= <-]. unfold sender_ok. rewrite Hs, Hd.
    split_and!; [done|done|]. intros p Hp. by apply not_elem_of_nil in Hp.
  - intros f. rewrite HfR. by intros [= <-].
  - intros g Hg. by apply not_elem_of_nil in Hg.
Qed.

Lemma send_Ok b g s s' :
  Inv s -> can_run (OpSend id b) s -> SessionTracer.send id b s = Ret (Ok g, s') ->
  exists f, flows s !! id = Some f /\ g = sent_segment s id f b /\ s' = sent_session s id f b.
Proof.
  intros HI [Hn Ht] Hrun.
  refine (wp_elim (SessionTracer.send id b) s (fun r s1 => forall g, r = Ok g ->
    exists f, flows s !! id = Some f /\ g = sent_segment s id f b /\
              s1 = sent_session s id f b) _ _ _ Hrun g eq_refl).
  apply wp_send; try done. intros f Hf _ ? [= <-]. by exists f.
Qed.

Lemma lookup_snoc_len {A} (l : list A) x n : n = len l -> (l ++ [x]) !! N.to_nat n = Some x.
Proof. intros ->. unfold len. rewrite Nat2N.id. by rewrite lookup_app_r, Nat.sub_diag. Qed.

Lemma lookup_snoc_l {A} (l : list A) x i y : l !! i = Some y -> (l ++ [x]) !! i = Some y.
Proof. intros Hi. by apply lookup_app_l_Some. Qed.

Lemma world_ok_send w b g s' :
  world_ok w -> can_run (OpSend id b) (sender w) ->
  SessionTracer.send id b (sender w) = Ret (Ok g, s') ->
  world_ok {| sender := s'; receiver := receiver w; sent := sent w ++ [b];
              delivered := delivered w; wire := wire w ++ [g] |}.
Proof.
  intros [] Hc Hrun. destruct (send_Ok _ _ _ _ wo_sender0 Hc Hrun) as (f & Hf & -> & ->).
  destruct (step_preserves (OpSend id b) (sender w) wo_sender0 Hc) as (s1 & Hs1 & HI1).
  cbn [step] in Hs1. unfold final in Hs1. rewrite Hrun in Hs1. injection Hs1 as <-.
  destruct (wo_sent0 f Hf) as (Hn & Hle & Hp).
  constructor; cbn [sender receiver sent delivered wire]; try done.
  - intros f'. cbn. rewrite lookup_insert_eq. intros [= <-].
    split_and!; cbn [sent_flow next_send pending sent delivered].
    + rewrite len_app. change (len [b]) with 1. by rewrite Hn.
    + rewrite !len_app. change (len [b]) with 1. change (len [_]) with 1. lia.
    + intros p [Hi|Hi]%elem_of_app.
      * apply lookup_snoc_l. by apply Hp.
      * apply list_elem_of_singleton in Hi as ->.
        cbn [segment sent_segment sequence bytes]. by apply lookup_snoc_len.
  - intros g [Hg|Hg]%elem_of_app Hid.
    + apply lookup_snoc_l. by apply wo_wire0.
    + apply list_elem_of_singleton in Hg as ->. cbn [sent_segment sequence bytes].
      by apply lookup_snoc_len.
  - etransitivity; [done|]. by eexists.
Qed.

Lemma world_ok_resume w gs :
  world_ok w -> SessionTracer.resume_unacknowledged (sender w) id = Ok gs ->
  world_ok {| sender := sender w; receiver := receiver w; sent := sent w;
              delivered := delivered w; wire := wire w ++ gs |}.
Proof.
  intros [] Hgs. constructor; cbn [sender receiver sent delivered wire]; try done.
  intros g [Hg|Hg]%elem_of_app Hid; [by apply wo_wire0|].
  unfold SessionTracer.resume_unacknowledged in Hgs.
  destruct (flows (sender w) !! id) as [f|] eqn:Hf; [|done]. injection Hgs as <-.
  destruct (wo_sent0 f eq_refl) as (_ & _ & Hp).
  apply list_elem_of_fmap in Hg as (p & -> & Hin).
  by apply Hp.
Qed.

Lemma world_ok_receive w g r r' :
  world_ok w -> g ∈ wire w -> flow_id g = id -> can_run (OpReceive g) (receiver w) ->
  SessionTracer.receive g (receiver w) = Ret (r, r') ->
  world_ok {| sender := sender w; receiver := r'; sent := sent w;
              delivered := match r with
                           | Ok (Delivered b) => delivered w ++ [b]
                           | _ => delivered w
                           end;
              wire := wire w |}.
Proof.
  intros Hok Hg Hid Hc Hrun. pose proof Hok as [].
  destruct (step_preserves (OpReceive g) (receiver w) wo_receiver0 Hc) as (s1 & Hs1 & HI1).
  cbn [step] in Hs1. unfold final in Hs1. rewrite Hrun in Hs1. injection Hs1 as <-.
  refine (wp_elim (SessionTracer.receive g) (receiver w) (fun r s1 => Inv s1 ->
    world_ok {| sender := sender w; receiver := s1; sent := sent w;
                delivered := match r with
                             | Ok (Delivered b) => delivered w ++ [b]
                             | _ => delivered w
                             end;
                wire := wire w |}) _ _ _ Hrun HI1).
  apply wp_receive; [done|exact Hc|by intros; destruct w|by intros; destruct w|].
  intros f _ Hf. split; [by intros; destruct w|]. intros _.
  split_and!; intros Hseq HI'; [by constructor; try done; apply wo_sent0..|].
  rewrite Hid in Hf. rewrite (wo_delivered0 f Hf) in Hseq.
  specialize (wo_wire0 g Hg Hid). rewrite Hseq in wo_wire0. unfold len in wo_wire0.
  rewrite Nat2N.id in wo_wire0.
  constructor; cbn [sender receiver sent delivered wire]; try done.
  - intros f' Hf'. destruct (wo_sent0 f' Hf') as (H1 & H2 & H3).
    split_and!; cbn [sent delivered]; [done| |done]. rewrite len_app. lia.
  - intros f'. cbn. rewrite Hid, lookup_insert_eq. intros [= <-]. cbn [advanced_flow next_receive].
    rewrite len_app. change (len [_]) with 1. by rewrite (wo_delivered0 f Hf).
  - by apply wo_wire.
  - by apply prefix_snoc.
Qed.

Lemma acked_bound start th ps :
  contiguous start ps -> start + len (acked th ps) <= N.max start (th + 1).
Proof.
  intros Hc. pose proof (acked_unacked start th ps Hc) as Heq.
  destruct (acked th ps) as [|q l] eqn:Ha; [rewrite len_nil; lia|].
  assert (exists p, last (acked th ps) = Some p) as [p Hp].
  { rewrite Ha. apply last_is_Some. done. }
  pose proof Hp as Hin. apply last_Some_elem_of, list_elem_of_filter in Hin as [Hle _].
  rewrite last_lookup in Hp. rewrite <-Ha in *.
  assert (ps !! Nat.pred (length (acked th ps)) = Some p) as Hlook.
  { apply (f_equal (lookup (Nat.pred (length (acked th ps))))) in Heq.
    rewrite Heq. by apply lookup_app_l_Some. }
  rewrite (contiguous_lookup _ _ _ _ Hc Hlook) in Hle. unfold len. lia.
Qed.

Lemma sender_ok_ack w f th :
  Inv (sender w) -> flows (sender w) !! id = Some f -> th < len (delivered w) ->
  sender_ok w f -> sender_ok w (ack_flow th f).
Proof.
  intros HI Hf Hth (H1 & H2 & H3).
  pose proof (fl_contiguous _ _ _ _ _ _ (in_range _ _ _ HI Hf)) as Hc.
  pose proof (acked_bound _ th _ Hc) as Hb.
  pose proof (acked_unacked _ th _ Hc) as Heq.
  assert (len (pending f) = len (acked th (pending f)) + len (unacked th (pending f))) as Hlen
    by (rewrite Heq at 1; by rewrite len_app).
  split_and!; cbn [ack_flow next_send pending]; [done|lia|].
  intros p Hp. apply H3. rewrite Heq. apply elem_of_app. by right.
Qed.

Lemma world_ok_acknowledge w a r s' :
  world_ok w -> ack_flow_id a = id -> through a < len (delivered w) ->
  SessionTracer.acknowledge a (sender w) = Ret (r, s') ->
  world_ok {| sender := s'; receiver := receiver w; sent := sent w;
              delivered := delivered w; wire := wire w |}.
Proof.
  intros Hok Hid Hth Hrun. pose proof Hok as [].
  refine (wp_elim (SessionTracer.acknowledge a) (sender w) (fun _ s1 =>
    world_ok {| sender := s1; receiver := receiver w; sent := sent w;
                delivered := delivered w; wire := wire w |}) _ _ _ Hrun).
  apply wp_acknowledge; [done|by intros; destruct w|].
  intros f Hf _ _ _. constructor; cbn [sender receiver sent delivered wire]; try done.
  - by apply acked_session_inv.
  - intros f'. cbn. rewrite Hid, lookup_insert_eq. intros [= <-]. rewrite Hid in Hf.
    apply (sender_ok_ack w); auto.
Qed.

Lemma world_ok_sender w op s' :
  world_ok w -> ~ moves id op -> can_run op (sender w) -> step op (sender w) = Ret s' ->
  world_ok {| sender := s'; receiver := receiver w; sent := sent w;
              delivered := delivered w; wire := wire w |}.
Proof.
  intros [] Hm Hc Hstep.
  destruct (step_preserves op _ wo_sender0 Hc) as (s1 & Hs1 & HI1).
  rewrite Hstep in Hs1. injection Hs1 as <-.
  destruct (step_keeps_stream op _ s' id wo_sender0 Hc Hm wo_sender_id0 Hstep) as [Hn Hk].
  constructor; cbn [sender receiver sent delivered wire]; try done; [lia|].
  intros f' Hf'. destruct (Hk f' Hf') as (f & Hf & Hs).
  apply (sender_ok_stream w f); [done|]. by apply wo_sent0.
Qed.

Lemma world_ok_receiver w op r' :
  world_ok w -> ~ moves id op -> can_run op (receiver w) -> step op (receiver w) = Ret r' ->
  world_ok {| sender := sender w; receiver := r'; sent := sent w;
              delivered := delivered w; wire := wire w |}.
Proof.
  intros [] Hm Hc Hstep.
  destruct (step_preserves op _ wo_receiver0 Hc) as (s1 & Hs1 & HI1).
  rewrite Hstep in Hs1. injection Hs1 as <-.
  destruct (step_keeps_stream op _ r' id wo_receiver0 Hc Hm wo_receiver_id0 Hstep) as [Hn Hk].
  constructor; cbn [sender receiver sent delivered wire]; try done; [lia|].
  intros f' Hf'. destruct (Hk f' Hf') as (f & Hf & _ & Hr & _).
  rewrite <-Hr. by apply wo_delivered0.
Qed.

Lemma world_reachable_ok w0 w : initial w0 -> world_reachable w0 w -> world_ok w.
Proof.
  intros Hinit Hr. induction Hr as [|w w' _ IH Hstep]; [by apply initial_ok|].
  destruct Hstep.
  - by apply world_ok_send.
  - by apply world_ok_resume.
  - by eapply world_ok_receive.
  - by eapply world_ok_acknowledge.
  - by eapply world_ok_sender.
  - by eapply world_ok_receiver.
Qed.

(** C2. Exactly-once, in-order delivery: whatever the carriers do to the
    segments (loss, duplication, reordering, delay) and however often the
    session moves between carriers, what the receiver has delivered is at
    every moment a prefix of what was sent, chunk for chunk. *)
Theorem delivery_is_prefix w0 w :
  initial w0 -> world_reachable w0 w -> delivered w `prefix_of` sent w.
Proof. intros Hinit Hr. by apply world_reachable_ok in Hr as []. Qed.

(** Consecutive segments of the flow from sequence [k], valid for [s]. *)
Definition stream_from (k : Sequence) (s : SessionTracer) (gs : list Segment) : Prop :=
  forall i g, gs !! i = Some g ->
    flow_id g = id /\ epoch_valid s (epoch g) /\ sequence g = k + N.of_nat i.

Lemma stream_from_cons k s s' g gs :
  transition s' = transition s -> stream_from k s (g :: gs) -> stream_from (k + 1) s' gs.
Proof.
  intros Ht Hst i g' Hi. destruct (Hst (S i) g' Hi) as (? & ? & Hseq).
  unfold epoch_valid in *. rewrite Ht. split_and!; [done|done|lia].
Qed.

(** A segment at or before the cursor is a duplicate or delivered. *)
Lemma receive_in_stream g r f :
  Inv r -> flows r !! id = Some f -> flow_id g = id -> epoch_valid r (epoch g) ->
  below_final f (sequence g) -> next_receive f < U64_MAX -> sequence g <= next_receive f ->
  exists r1, Inv r1 /\ transition r1 = transition r /\
    ((sequence g < next_receive f /\ SessionTracer.receive g r = Ret (Ok Duplicate, r1) /\
      flows r1 !! id = Some f) \/
     (sequence g = next_receive f /\
      SessionTracer.receive g r = Ret (Ok (Delivered (bytes g)), r1) /\
      flows r1 !! id = Some (advanced_flow f))).
Proof.
  intros HI Hf Hid Hv Hb Hmax Hle.
  assert (can_run (OpReceive g) r) as Hc by (cbn; rewrite Hid, Hf; by intros ? [= <-]).
  destruct (step_preserves (OpReceive g) r HI Hc) as (r1 & Hr1 & HI1).
  cbn [step] in Hr1. unfold final in Hr1.
  assert (wp (SessionTracer.receive g) r (fun res r1 => transition r1 = transition r /\
    ((sequence g < next_receive f /\ res = Ok Duplicate /\ flows r1 !! id = Some f) \/
     (sequence g = next_receive f /\ res = Ok (Delivered (bytes g)) /\
      flows r1 !! id = Some (advanced_flow f))))) as Hwp.
  { apply wp_receive; [done|exact Hc|done|congruence|]. intros f' _ Hf'.
    rewrite Hid, Hf in Hf'. injection Hf' as <-.
    split; [done|]. intros _. split_and!; intros Hcmp; (split; [done|]).
    - left. by split_and!.
    - lia.
    - right. split_and!; [done|done|]. cbn. by rewrite Hid, lookup_insert_eq. }
  apply wp_run in Hwp as (res & r2 & Hrun & Ht & Hcase). rewrite Hrun in *.
  injection Hr1 as <-. exists r2. split_and!; [done|done|].
  destruct Hcase as [(? & -> & ?)|(? & -> & ?)]; [left|right]; by split_and!.
Qed.

Lemma deliver_stream gs k r f out :
  Inv r -> flows r !! id = Some f -> stream_from k r gs ->
  k <= next_receive f <= k + len gs -> k + len gs < U64_MAX ->
  (forall fin, receive_final_next f = Some fin -> k + len gs <= fin) ->
  exists r', deliver r gs out =
    Ret (r', out ++ drop (N.to_nat (next_receive f - k)) (bytes <$> gs)).
Proof.
  revert k r f out. induction gs as [|g gs IH]; intros k r f out HI Hf Hst Hn Hmax Hfin.
  { exists r. cbn. by rewrite drop_nil, app_nil_r. }
  rewrite len_cons in *. destruct (Hst 0%nat g eq_refl) as (Hid & Hv & Hseq).
  assert (below_final f (sequence g)) as Hb
    by (intros fin Hfn; specialize (Hfin fin Hfn); lia).
  destruct (receive_in_stream g r f HI Hf Hid Hv Hb) as (r1 & HI1 & Ht & Hcase); [lia|lia|].
  destruct Hcase as [(Hlt & Hrun & Hf1)|(Heq & Hrun & Hf1)];
    cbn [deliver]; rewrite Hrun.
  - destruct (IH (k + 1) r1 f out HI1 Hf1) as [r' Hr'];
      [by eapply stream_from_cons|lia|lia|intros fin Hfn; specialize (Hfin fin Hfn); lia|].
    exists r'. rewrite Hr'. cbn [fmap list_fmap].
    by replace (N.to_nat (next_receive f - k)) with (S (N.to_nat (next_receive f - (k + 1)))) by lia.
  - destruct (IH (k + 1) r1 (advanced_flow f) (out ++ [bytes g]) HI1 Hf1) as [r' Hr'];
      cbn [advanced_flow next_receive receive_final_next];
      [by eapply stream_from_cons|lia|lia|intros fin Hfn; specialize (Hfin fin Hfn); lia|].
    exists r'. rewrite Hr', <-app_assoc. cbn [fmap list_fmap advanced_flow next_receive app].
    replace (N.to_nat (next_receive f - k)) with 0%nat by lia.
    by replace (N.to_nat (next_receive f + 1 - (k + 1))) with 0%nat by lia.
Qed.

(** One reissue completes the transfer. *)
Lemma resume_ok w fs fr :
  world_ok w -> flows (sender w) !! id = Some fs -> flows (receiver w) !! id = Some fr ->
  epoch_valid (receiver w) (SessionTracer.epoch (sender w)) ->
  (forall fin, receive_final_next fr = Some fin -> len (sent w) <= fin) ->
  len (sent w) < U64_MAX ->
  exists gs r', SessionTracer.resume_unacknowledged (sender w) id = Ok gs /\
    deliver (receiver w) gs (delivered w) = Ret (r', sent w).
Proof.
  intros Hok HfS HfR Hv Hfin Hmax. destruct Hok.
  destruct (wo_sent0 fs HfS) as (Hn & Hle & Hp).
  pose proof (fl_contiguous _ _ _ _ _ _ (in_range _ _ _ wo_sender0 HfS)) as Hcont.
  pose proof (fl_pending _ _ _ _ _ _ (in_range _ _ _ wo_sender0 HfS)) as Hpend.
  pose proof (fl_count _ _ _ _ _ _ (in_range _ _ _ wo_sender0 HfS)) as Hcount.
  unfold SessionTracer.resume_unacknowledged. rewrite HfS.
  set (gs := _ <$> pending fs). exists gs.
  assert (len gs = len (pending fs)) as Hlen by (unfold len, gs; by rewrite length_fmap).
  set (k := len (sent w) - len gs).
  assert (Hst : stream_from k (receiver w) gs).
  { intros i g Hi. unfold gs in Hi. apply list_lookup_fmap_Some in Hi as (p & -> & Hi).
    pose proof (contiguous_lookup _ _ _ _ Hcont Hi) as Hseq.
    rewrite Forall_forall in Hpend.
    destruct (Hpend p) as (Hpid & _); [by eapply list_elem_of_lookup_2|].
    cbn [SessionTracer.with_epoch flow_id epoch sequence]. split_and!; [done|done|].
    unfold k. rewrite Hlen, Hseq, Hn. done. }
  assert (Hbytes : bytes <$> gs = drop (N.to_nat k) (sent w)).
  { apply list_eq_same_length with (length gs);
      [rewrite length_drop; unfold k, len in *; lia|by rewrite length_fmap|].
    intros i x y _ Hx Hy. apply list_lookup_fmap_Some in Hx as (g & -> & Hg).
      rewrite lookup_drop in Hy. destruct (Hst i g Hg) as (_ & _ & Hseq).
      unfold gs in Hg. apply list_lookup_fmap_Some in Hg as (p & -> & Hi).
      cbn [SessionTracer.with_epoch bytes sequence] in *.
      specialize (Hp p). rewrite Hseq in Hp.
      replace (N.to_nat (k + N.of_nat i)) with (N.to_nat k + i)%nat in Hp by lia.
      rewrite Hp in Hy; [congruence|by eapply list_elem_of_lookup_2]. }
  destruct wo_prefix0 as [rest Hrest].
  assert (len (sent w) = len (delivered w) + len rest) as Hsl by (by rewrite Hrest, len_app).
  assert (next_receive fr = len (delivered w)) as Hnr by auto.
  destruct (deliver_stream gs k (receiver w) fr (delivered w) wo_receiver0 HfR Hst)
    as [r' Hr']; [unfold k; lia|unfold k; lia|intros fin Hf; specialize (Hfin fin Hf); unfold k; lia|].
  exists r'. split; [done|]. rewrite Hr'. do 2 f_equal.
  rewrite Hbytes, drop_drop, Hrest at 1.
  replace (N.to_nat k + N.to_nat (next_receive fr - k))%nat with (length (delivered w))
    by (unfold k, len in *; lia).
  by rewrite drop_app_length.
Qed.

(** C3. Recovery: in every reachable world in which both sides still hold
    the flow, the receiver knows the sender's epoch and has not been told
    of an earlier end, one reissue of the unacknowledged segments over a
    carrier that delivers them completes the transfer: the receiver ends
    with exactly the bytes that were sent. *)
Theorem resume_completes w0 w fs fr :
  initial w0 -> world_reachable w0 w ->
  flows (sender w) !! id = Some fs -> flows (receiver w) !! id = Some fr ->
  epoch_valid (receiver w) (SessionTracer.epoch (sender w)) ->
  (forall fin, receive_final_next fr = Some fin -> len (sent w) <= fin) ->
  len (sent w) < U64_MAX ->
  exists gs r', SessionTracer.resume_unacknowledged (sender w) id = Ok gs /\
    deliver (receiver w) gs (delivered w) = Ret (r', sent w).
Proof.
  intros Hinit Hr%world_reachable_ok; [|done]. by apply resume_ok.
Qed.
End world.
