(* ===== verification/Campaign.v ===== *)
(** The seeded campaign over the simulated carrier
    ([velum-session/src/campaign.rs]): its generator, its trials, and that none
    of its assertions can fail, whatever the seed. *)
From S2P Require Import Prelude Protocol Carrier Crypto Session Simulator Delivery.

(** [wrapping_mul], [wrapping_add] *)
Definition wrap64 (n : N) : N := n mod 2 ^ 64.

Module Generator.
Definition new (seed : N) : N := seed.
Definition next {E} : M N E N :=
  let! state := get in
  let state := wrap64 (wrap64 (state * 6364136223846793005) + 1) in
  modify (fun _ => state) ;!
  ret state.
(** [(0..len).map(|_| self.next() as u8).collect()] *)
Fixpoint collect {E} (n : nat) : M N E (list byte) :=
  match n with
  | O => ret []
  | S n =>
    let! b := next in
    let! rest := collect n in
    ret (byte_of_N (b mod 256) :: rest)
  end.
Definition bytes {E} : M N E (list byte) :=
  let! n := next in
  collect (N.to_nat (n mod 16 + 1)).
End Generator.

Definition campaign_limits : FlowLimits := {|
  max_flows := 1; max_pending_segments := 8; max_pending_bytes := 128;
  max_session_pending_segments := 8; max_session_pending_bytes := 128;
  max_pending_age := 16; max_events := 16
|}.
Definition session : outcome SessionTracer := SessionTracer.new 0 campaign_limits.

Definition disposition (random : N) : CarrierDisposition :=
  match random mod 4 with
  | 0 => Drop
  | 1 => DuplicateSegment
  | 2 => Delay 1
  | _ => Deliver
  end.

(** [checksum]: FNV-1a. *)
Definition checksum (bytes : list byte) : N :=
  foldl (fun hash b => wrap64 (N.lxor hash (Byte.to_N b) * 1099511628211)) 14695981039346656037 bytes.

(** ** One trial

    The variables of [run_trial]; [expected] and [delivered] are kept in the
    chunks they were extended with. *)
Record Trial := {
  random : N;
  trial_sender : SessionTracer;
  trial_receiver : SessionTracer;
  carrier : InMemoryCarrier;
  expected : list (list byte);
  output : list (list byte)
}.
Definition set_random (n : N) (t : Trial) : Trial :=
  {| random := n; trial_sender := trial_sender t; trial_receiver := trial_receiver t; carrier := carrier t;
     expected := expected t; output := output t |}.
Definition set_sender (s : SessionTracer) (t : Trial) : Trial :=
  {| random := random t; trial_sender := s; trial_receiver := trial_receiver t; carrier := carrier t;
     expected := expected t; output := output t |}.
Definition set_receiver (s : SessionTracer) (t : Trial) : Trial :=
  {| random := random t; trial_sender := trial_sender t; trial_receiver := s; carrier := carrier t;
     expected := expected t; output := output t |}.
Definition set_carrier (c : InMemoryCarrier) (t : Trial) : Trial :=
  {| random := random t; trial_sender := trial_sender t; trial_receiver := trial_receiver t; carrier := c;
     expected := expected t; output := output t |}.
Definition set_expected (l : list (list byte)) (t : Trial) : Trial :=
  {| random := random t; trial_sender := trial_sender t; trial_receiver := trial_receiver t; carrier := carrier t;
     expected := l; output := output t |}.
Definition set_output (l : list (list byte)) (t : Trial) : Trial :=
  {| random := random t; trial_sender := trial_sender t; trial_receiver := trial_receiver t; carrier := carrier t;
     expected := expected t; output := l |}.

(** [expect], [assert!] *)
Definition unwrap {S E A} (m : M S E A) : M S Empty_set A := fun s =>
  match m s with
  | Ret (Ok a, s') => Ret (Ok a, s')
  | Ret (Err _, _) => Panic
  | Panic => Panic
  | OutOfFuel => OutOfFuel
  end.
Definition assert_that {S E} (b : bool) : M S E unit := if b then ret tt else panic.

Definition at_random {A} (m : M N Empty_set A) : M Trial Empty_set A := zoom random set_random m.
Definition at_sender {E A} (m : M SessionTracer E A) : M Trial Empty_set A := zoom trial_sender set_sender (unwrap m).
Definition at_receiver {E A} (m : M SessionTracer E A) : M Trial Empty_set A := zoom trial_receiver set_receiver (unwrap m).
Definition at_carrier {A} (m : M InMemoryCarrier Empty_set A) : M Trial Empty_set A := zoom carrier set_carrier m.

(** [deliver] *)
Definition deliver_all (segments : list Segment) : M Trial Empty_set unit := fun t =>
  match deliver (trial_receiver t) segments (output t) with
  | Ret (r, l) => Ret (Ok tt, set_output l (set_receiver r t))
  | Panic => Panic
  | OutOfFuel => OutOfFuel
  end.

(** The body of the loop for one [index]. *)
Definition one_send (flow : FlowId) (transition_after : N) (index : N) : M Trial Empty_set unit :=
  let! bytes := at_random Generator.bytes in
  modify (fun t => set_expected (expected t ++ [bytes]) t) ;!
  let! segment := at_sender (SessionTracer.send flow bytes) in
  (if index + 1 =? transition_after then
     let! e := at_sender SessionTracer.begin_transition in
     assert_that (e =? 1) ;!
     let! e := at_receiver SessionTracer.begin_transition in
     assert_that (e =? 1)
   else ret tt) ;!
  let! r := at_random Generator.next in
  (if N.land r 1 =? 0 then
     at_carrier (modify (InMemoryCarrier.set_available false)) ;!
     at_carrier (InMemoryCarrier.transmit segment Deliver) ;!
     at_carrier (modify (InMemoryCarrier.set_available true))
   else ret tt) ;!
  let! r := at_random Generator.next in
  at_carrier (InMemoryCarrier.transmit segment (disposition r)) ;!
  let! r := at_random Generator.next in
  let! segments := at_carrier (InMemoryCarrier.advance (r mod 2)) in
  deliver_all segments.

Fixpoint send_loop (flow : FlowId) (transition_after : N) (indices : list N) : M Trial Empty_set unit :=
  match indices with
  | [] => ret tt
  | index :: indices => one_send flow transition_after index ;! send_loop flow transition_after indices
  end.

Fixpoint transmit_all (segments : list Segment) : M InMemoryCarrier Empty_set unit :=
  match segments with
  | [] => ret tt
  | segment :: segments => InMemoryCarrier.transmit segment Deliver ;! transmit_all segments
  end.

(** From the recovery on. *)
Definition recover (flow : FlowId) (transition_after : N) : M Trial Empty_set unit :=
  modify (set_carrier InMemoryCarrier.new) ;!
  let! t := get in
  let! segments := at_sender (lift_result Datatypes.id (SessionTracer.resume_unacknowledged (trial_sender t) flow)) in
  at_carrier (transmit_all segments) ;!
  let! segments := at_carrier (InMemoryCarrier.advance 0) in
  deliver_all segments ;!
  at_sender (SessionTracer.acknowledge {| ack_flow_id := flow; ack_epoch := 0; through := transition_after - 1 |}) ;!
  at_receiver (E := Empty_set) SessionTracer.complete_transition ;!
  let! t := get in
  at_sender (SessionTracer.acknowledge
    {| ack_flow_id := flow; ack_epoch := SessionTracer.epoch (trial_sender t); through := 3 |}).

Definition trial_body : M Trial Empty_set N :=
  let! flow := at_sender SessionTracer.open_reliable_flow in
  at_receiver SessionTracer.open_reliable_flow ;!
  let! r := at_random Generator.next in
  let transition_after := r mod 3 + 1 in
  send_loop flow transition_after [0; 1; 2; 3] ;!
  recover flow transition_after ;!
  let! t := get in
  assert_that (bool_decide (concat (output t) = concat (expected t))) ;!
  let! pending := at_sender (lift_result Datatypes.id (SessionTracer.pending_of (trial_sender t) flow)) in
  assert_that (is_empty pending) ;!
  ret (checksum (concat (output t))).

Definition start (seed : N) : outcome Trial :=
  match session, session with
  | Ret s, Ret r =>
    Ret {| random := Generator.new seed; trial_sender := s; trial_receiver := r; carrier := InMemoryCarrier.new;
           expected := []; output := [] |}
  | _, _ => Panic
  end.
Definition run_trial (seed : N) : outcome N :=
  match start seed with
  | Ret t => match trial_body t with Ret (Ok n, _) => Ret n | _ => Panic end
  | _ => Panic
  end.

(** The test: the sum of the checksums of the first [trials] seeds. *)
Fixpoint campaign (trials : nat) (seed : N) (sum : N) : outcome N :=
  match trials with
  | O => Ret sum
  | S trials => match run_trial seed with Ret n => campaign trials (seed + 1) (wrap64 (sum + n)) | _ => Panic end
  end.

(** ** No assertion fails *)
#[local] Instance no_hmac : Hmac :=
  {| hmac_key := unit; hmac_key_new _ := tt; hmac_sign _ _ := []; hmac_verify _ _ _ := false |}.

Definition world_of (wire : list Segment) (s r : SessionTracer) (e o : list (list byte)) : World :=
  {| Delivery.sender := s; Delivery.receiver := r; sent := e; delivered := o; Delivery.wire := wire |}.

(** The state of a trial after [n] sends and at most [k] ticks, with the epochs
    [epochs]; [transition_after] is [a]. *)
Record trial_ok (a : N) (epochs : TransitionState) (n k : N) (wire : list Segment)
    (s r : SessionTracer) (c : InMemoryCarrier) (e o : list (list byte)) : Prop := {
  tr_world : world_ok 0 (world_of wire s r e o);
  tr_limits : limits s = campaign_limits;
  tr_tick : tick s = 0;
  tr_epochs : transition s = epochs /\ transition r = epochs;
  tr_sent : len e = n;
  tr_chunks : Forall (fun b => 1 <= len b <= 16) e;
  tr_sender : exists f, flows s !! 0 = Some f /\ len (pending f) = n /\ next_send f = n /\ flow_pending_bytes f <= 16 * n /\
    Forall (fun p => sequence (segment p) < a -> epoch (segment p) = 0) (pending f);
  tr_totals : pending_segments s = n /\ pending_bytes s <= 16 * n;
  tr_receiver : exists f, flows r !! 0 = Some f /\ receive_final_next f = None;
  tr_carrier : available c = true /\ sim_tick c <= k;
  tr_flight : Forall (fun g => g ∈ wire /\ flow_id g = 0 /\ epoch_valid r (epoch g)) (in_flight c)
}.
Definition ok (a : N) (epochs : TransitionState) (n k : N) (wire : list Segment) (t : Trial) : Prop :=
  trial_ok a epochs n k wire (trial_sender t) (trial_receiver t) (carrier t) (expected t) (output t).

(** *** Steps on one part of the trial *)
Lemma wp_at_random {A} (m : M N Empty_set A) t (Q : result A Empty_set -> Trial -> Prop) :
  wp m (random t) (fun r n => Q r (set_random n t)) -> wp (at_random m) t Q.
Proof. apply wp_zoom. Qed.
Lemma wp_at_sender {E A} (m : M SessionTracer E A) t a s (Q : result A Empty_set -> Trial -> Prop) :
  m (trial_sender t) = Ret (Ok a, s) -> Q (Ok a) (set_sender s t) -> wp (at_sender m) t Q.
Proof. intros Hm HQ. apply wp_zoom. unfold wp, unwrap. by rewrite Hm. Qed.
Lemma wp_at_receiver {E A} (m : M SessionTracer E A) t a r (Q : result A Empty_set -> Trial -> Prop) :
  m (trial_receiver t) = Ret (Ok a, r) -> Q (Ok a) (set_receiver r t) -> wp (at_receiver m) t Q.
Proof. intros Hm HQ. apply wp_zoom. unfold wp, unwrap. by rewrite Hm. Qed.
Lemma wp_at_carrier {A} (m : M InMemoryCarrier Empty_set A) t a c (Q : result A Empty_set -> Trial -> Prop) :
  m (carrier t) = Ret (Ok a, c) -> Q (Ok a) (set_carrier c t) -> wp (at_carrier m) t Q.
Proof. intros Hm HQ. apply wp_zoom. unfold wp. by rewrite Hm. Qed.

Lemma wp_next s (Q : result N Empty_set -> N -> Prop) : (forall n, Q (Ok n) n) -> wp Generator.next s Q.
Proof. intros HQ. unfold Generator.next. do 3 wp_step. apply HQ. Qed.
Lemma wp_collect n s (Q : result (list byte) Empty_set -> N -> Prop) :
  (forall l s', length l = n -> Q (Ok l) s') -> wp (Generator.collect n) s Q.
Proof.
  revert s Q. induction n as [|n IH]; intros s Q HQ; cbn [Generator.collect]; [by wp_step; apply HQ|].
  apply wp_bind, wp_next. intros m. apply wp_bind, IH. intros l s' Hl. wp_step. apply HQ. cbn. by f_equal.
Qed.
Lemma wp_bytes s (Q : result (list byte) Empty_set -> N -> Prop) :
  (forall l s', 1 <= len l <= 16 -> Q (Ok l) s') -> wp Generator.bytes s Q.
Proof.
  intros HQ. unfold Generator.bytes. apply wp_bind, wp_next. intros m. apply wp_collect. intros l s' Hl. apply HQ.
  unfold len. rewrite Hl, N2Nat.id. pose proof (N.mod_lt m 16 ltac:(done)). lia.
Qed.

(** *** Sending *)
Lemma trial_send a epochs n k wire s r c e o b :
  trial_ok a epochs n k wire s r c e o -> n < 4 -> (n < a -> current epochs = 0) -> 1 <= len b <= 16 ->
  exists g s', SessionTracer.send 0 b s = Ret (Ok g, s') /\ flow_id g = 0 /\ epoch g = current epochs /\
    trial_ok a epochs (n + 1) k (wire ++ [g]) s' r c (e ++ [b]) o.
Proof.
  intros [Hw Hl Ht [He1 He2] Hs Hch (f & Hf & Hp & Hn & Hfb & Hep) [Hts Htb] Hr Hc Hfl] Hn4 Ha Hb.
  pose proof (wo_sender _ _ Hw) as HI. cbn [Delivery.sender world_of] in HI.
  assert (forall f, flows s !! 0 = Some f -> next_send f < U64_MAX) as Hmax
    by (intros f'; rewrite Hf; intros [= <-]; rewrite Hn; unfold U64_MAX; lia).
  assert (tick s + max_pending_age (limits s) <= U64_MAX) as Htick by (rewrite Ht, Hl; cbn; unfold U64_MAX; lia).
  assert (wp (SessionTracer.send 0 b) s (fun r s' => r = Ok (sent_segment s 0 f b) /\ s' = sent_session s 0 f b)) as Hwp.
  { apply wp_send; [done|done|done| | |].
    - intros Hno. congruence.
    - intros f' e' Hf' Hno _. rewrite Hf in Hf'. apply Some_inj in Hf' as <-. exfalso. apply Hno. unfold admits.
      rewrite Hl. cbn. lia.
    - intros f' Hf' _. rewrite Hf in Hf'. by apply Some_inj in Hf' as <-. }
  apply wp_run in Hwp as (res & s' & Hrun & -> & ->). do 2 eexists. split; [exact Hrun|].
  split; [done|]. split; [by cbn; rewrite He1|].
  constructor; cbn; try done.
  - by apply (world_ok_send 0 (world_of wire s r e o)).
  - rewrite len_app, Hs. done.
  - apply Forall_app. split; [done|]. apply Forall_cons. split; [done|by apply Forall_nil].
  - eexists. rewrite lookup_insert_eq. split; [done|]. cbn. rewrite len_app, Hp, Hn. split; [done|]. split; [done|]. split; [lia|].
    apply Forall_app. split; [done|]. apply Forall_cons. split; [|by apply Forall_nil]. cbn. rewrite Hn, He1. exact Ha.
  - split; [lia|]. lia.
  - eapply Forall_impl; [exact Hfl|]. intros g' (Hg & ?). cbn. split; [|done]. apply elem_of_app. by left.
Qed.

(** *** Changing the carrier *)
Definition before_transition : TransitionState := {| current := 0; retiring := None |}.
Definition in_transition : TransitionState := {| current := 1; retiring := Some 0 |}.
Definition begun (s : SessionTracer) : SessionTracer :=
  set_attachments (attachment_replay s) None (accepted_attachment s) (set_transition in_transition s).
Lemma begin_run s : transition s = before_transition -> SessionTracer.begin_transition s = Ret (Ok 1, begun s).
Proof. intros Hs. unfold SessionTracer.begin_transition, TransitionState.advance. by rewrite Hs. Qed.
Lemma epoch_valid_before s e : transition s = before_transition -> epoch_valid s e -> e = 0.
Proof. unfold epoch_valid. intros ->. by intros [->|[=]]. Qed.

Lemma trial_transition a n k wire s r c e o :
  trial_ok a before_transition n k wire s r c e o -> trial_ok a in_transition n k wire (begun s) (begun r) c e o.
Proof.
  intros [Hw Hl Ht [He1 He2] Hs Hch Hsd Htot Hr Hc Hfl]. constructor; try done.
  - apply (world_ok_receiver 0 (world_of wire (begun s) r e o) OpBegin).
    + apply (world_ok_sender 0 (world_of wire s r e o) OpBegin); [done|by intros []|by cbn; rewrite He1|].
      cbn. unfold final. by rewrite begin_run.
    + by intros [].
    + by cbn; rewrite He2.
    + cbn. unfold final. by rewrite begin_run.
  - eapply Forall_impl; [exact Hfl|]. intros g (Hg & Hid & Hv). split; [done|split; [done|]].
    apply epoch_valid_before in Hv; [|done]. right. by rewrite Hv.
Qed.

(** *** The carrier *)
Lemma trial_carrier a epochs n k k' wire s r c c' e o :
  trial_ok a epochs n k wire s r c e o -> available c' = true -> sim_tick c' <= k' ->
  (forall g, g ∈ in_flight c' -> g ∈ in_flight c \/ (g ∈ wire /\ flow_id g = 0 /\ epoch_valid r (epoch g))) ->
  trial_ok a epochs n k' wire s r c' e o.
Proof.
  intros [] Hav Htick Hin. constructor; try done. apply Forall_forall. intros g [Hg|Hg]%Hin; [|done].
  by rewrite Forall_forall in tr_flight0; apply tr_flight0.
Qed.

Lemma transmit_run g d (c : InMemoryCarrier) :
  sim_tick c + 1 <= U64_MAX -> d ∈ [Deliver; Drop; DuplicateSegment; Delay 1] ->
  exists c', InMemoryCarrier.transmit (E := Empty_set) g d c = Ret (Ok tt, c') /\ available c' = available c /\
    sim_tick c' = sim_tick c /\ forall g', g' ∈ in_flight c' -> g' ∈ in_flight c \/ g' = g.
Proof.
  intros Ht Hd. unfold InMemoryCarrier.transmit, InMemoryCarrier.schedule, bind, get, modify, ret, panic.
  destruct (available c) eqn:Hav; cbn [negb orb]; [|by eexists; split_and!; [done..|left]].
  assert (forall x, checked_add U64_MAX (sim_tick c) x = Some (sim_tick c + x) \/ 1 < x) as Hadd.
  { intros x. destruct (N.ltb_spec 1 x); [by right|left]. apply checked_add_Some. split; [done|lia]. }
  assert (forall l g', g' ∈ in_flight {| sim_tick := sim_tick c; available := true; scheduled := scheduled c ++ l |} ->
    Forall (fun x => scheduled_segment x = g) l -> g' ∈ in_flight c \/ g' = g) as Hin.
  { intros l g'. unfold in_flight. cbn. rewrite fmap_app, elem_of_app. intros [Hg|Hg] Hl; [by left|right].
    apply list_elem_of_fmap in Hg as (x & -> & Hx). rewrite Forall_forall in Hl. by apply Hl. }
  rewrite !elem_of_cons, elem_of_nil in Hd. destruct Hd as [->|[->|[->|[->|[]]]]];
    repeat first [rewrite bool_decide_eq_false_2 by done|rewrite bool_decide_eq_true_2 by done]; unfold ret.
  - destruct (Hadd 0) as [->|]; [|lia]. cbn. eexists. split_and!; [done..|]. intros g' Hg. eapply Hin; [exact Hg|by repeat constructor].
  - by eexists; split_and!; [done..|left].
  - destruct (Hadd 0) as [Heq|]; [|lia]. rewrite Heq. cbn. rewrite Heq. cbn. eexists. split_and!; [done..|]. intros g'.
    rewrite <- app_assoc. intros Hg. eapply Hin; [exact Hg|by repeat constructor].
  - destruct (Hadd 1) as [->|]; [|lia]. cbn. eexists. split_and!; [done..|]. intros g' Hg. eapply Hin; [exact Hg|by repeat constructor].
Qed.
Lemma disposition_cases n : disposition n ∈ [Deliver; Drop; DuplicateSegment; Delay 1].
Proof.
  unfold disposition. destruct (n mod 4) as [|[[]|[]|]]; set_solver.
Qed.

Lemma advance_run t (c : InMemoryCarrier) :
  sim_tick c + t <= U64_MAX ->
  exists gs c', InMemoryCarrier.advance (E := Empty_set) t c = Ret (Ok gs, c') /\ available c' = available c /\
    sim_tick c' = sim_tick c + t /\ in_flight c ≡ₚ gs ++ in_flight c'.
Proof.
  intros Ht. assert (exists c' gs, carrier_step (Advance t) c = Ret ([], gs, c') /\
    InMemoryCarrier.advance (E := Empty_set) t c = Ret (Ok gs, c') /\ available c' = available c /\ sim_tick c' = sim_tick c + t)
    as (c' & gs & Hs & Hrun & Hav & Htick).
  { cbn [carrier_step]. unfold InMemoryCarrier.advance, bind, get, modify, ret.
    rewrite (proj2 (checked_add_Some _ _ _ (sim_tick c + t))) by (split; [done|lia]). cbn [expect]. unfold ret.
    destruct (InMemoryCarrier.partition_ready _ _ _ _) as [gs w]. by do 2 eexists. }
  exists gs, c'. split_and!; [done..|]. apply carrier_step_conserves in Hs. by rewrite app_nil_r in Hs.
Qed.

(** *** Delivering *)
Lemma deliver_wire gs wire s r e o f :
  world_ok 0 (world_of wire s r e o) -> len e < U64_MAX -> flows r !! 0 = Some f -> receive_final_next f = None ->
  (forall g, g ∈ gs -> g ∈ wire /\ flow_id g = 0 /\ epoch_valid r (epoch g)) ->
  exists r' o' f', deliver r gs o = Ret (r', o') /\ world_ok 0 (world_of wire s r' e o') /\ transition r' = transition r /\
    flows r' !! 0 = Some f' /\ receive_final_next f' = None.
Proof.
  revert r o f. induction gs as [|g gs IH]; intros r o f Hw He Hf Hfin Hgs; [by exists r, o, f|].
  destruct (Hgs g ltac:(left)) as (Hg & Hid & Hv). pose proof (wo_receiver _ _ Hw) as HI. cbn [Delivery.receiver world_of] in HI.
  assert (can_run (OpReceive g) r) as Hc.
  { cbn. rewrite Hid, Hf. intros f' [= <-]. rewrite (wo_delivered _ _ Hw f Hf). cbn.
    destruct (wo_prefix _ _ Hw) as [l Hl]. cbn in Hl. rewrite Hl, len_app in He. lia. }
  assert (wp (SessionTracer.receive g) r (fun res r1 => is_ok res = true /\ transition r1 = transition r /\
    exists f1, flows r1 !! 0 = Some f1 /\ receive_final_next f1 = None)) as Hwp.
  { apply wp_receive; [done|exact Hc|done|rewrite Hid; congruence|]. intros f' _ Hf'. rewrite Hid, Hf in Hf'. apply Some_inj in Hf' as <-.
    split; [intros Hb; exfalso; apply Hb; intros fin; by rewrite Hfin|]. intros _. split_and!; intros _; (split; [done|split; [done|]]).
    - by exists f.
    - by exists f.
    - exists (advanced_flow f). cbn. by rewrite Hid, lookup_insert_eq. }
  apply wp_run in Hwp as (res & r1 & Hrun & Hok & Htr & f1 & Hf1 & Hfin1).
  pose proof (world_ok_receive 0 _ g res r1 Hw Hg Hid Hc Hrun) as Hw1. cbn [world_of Delivery.sender Delivery.receiver sent delivered Delivery.wire] in Hw1.
  assert (forall g', g' ∈ gs -> g' ∈ wire /\ flow_id g' = 0 /\ epoch_valid r1 (epoch g')) as Hgs1.
  { intros g' Hg'. destruct (Hgs g' ltac:(by right)) as (? & ? & ?). unfold epoch_valid. by rewrite Htr. }
  rewrite <- Htr. destruct res as [res|]; [|done]. cbn [deliver]. rewrite Hrun. destruct res; by apply (IH r1 _ f1).
Qed.

Lemma trial_deliver a epochs n k wire gs t (Q : result unit Empty_set -> Trial -> Prop) :
  ok a epochs n k wire t -> n <= 4 ->
  (forall g, g ∈ gs -> g ∈ wire /\ flow_id g = 0 /\ epoch_valid (trial_receiver t) (epoch g)) ->
  (forall r o, ok a epochs n k wire (set_output o (set_receiver r t)) -> Q (Ok tt) (set_output o (set_receiver r t))) ->
  wp (deliver_all gs) t Q.
Proof.
  intros [] Hn Hgs HQ. destruct tr_receiver0 as (f & Hf & Hfin).
  destruct (deliver_wire gs wire (trial_sender t) (trial_receiver t) (expected t) (output t) f) as (r' & o' & f' & Hrun & Hw & Htr & Hf' & Hfin');
    [done|unfold U64_MAX; lia|done..|]. unfold wp, deliver_all. rewrite Hrun. apply HQ. constructor; cbn; try done.
  - by rewrite Htr.
  - by exists f'.
  - eapply Forall_impl; [exact tr_flight0|]. intros g (Hg & Hid & Hv). unfold epoch_valid. by rewrite Htr.
Qed.

(** *** One send *)
Definition window (a n : N) : TransitionState := if a <=? n then in_transition else before_transition.
(** The trial after the segment [g] was sent. *)
Definition sent_ok (a n k : N) (wire : list Segment) (g : Segment) (t : Trial) : Prop :=
  ok a (window a n) n k wire t /\ g ∈ wire /\ flow_id g = 0 /\ epoch_valid (trial_receiver t) (epoch g).

Lemma sent_carrier a n k k' wire g t c' :
  sent_ok a n k wire g t -> available c' = true -> sim_tick c' <= k' ->
  (forall g', g' ∈ in_flight c' -> g' ∈ in_flight (carrier t) \/ g' = g) -> sent_ok a n k' wire g (set_carrier c' t).
Proof.
  intros (Hok & Hg & Hid & Hv) Hav Ht Hin. split; [|done]. eapply trial_carrier; [exact Hok|done|done|].
  intros g' [?| ->]%Hin; [by left|by right].
Qed.

Lemma wp_send_segment a n k wire b t (Q : result Segment Empty_set -> Trial -> Prop) :
  1 <= a -> n < 4 -> 1 <= len b <= 16 -> ok a (window a n) n k wire t ->
  (forall g s', let t' := set_sender s' (set_expected (expected t ++ [b]) t) in
     ok a (window a n) (n + 1) k (wire ++ [g]) t' -> flow_id g = 0 -> epoch g = current (window a n) -> Q (Ok g) t') ->
  wp (at_sender (SessionTracer.send 0 b)) (set_expected (expected t ++ [b]) t) Q.
Proof.
  intros Ha Hn Hb Hok HQ.
  destruct (trial_send a (window a n) n k wire (trial_sender t) (trial_receiver t) (carrier t) (expected t) (output t) b)
    as (g & s' & Hrun & Hid & Hep & Hok'); [done|done| |done|].
  { intros Hlt. unfold window. by rewrite (proj2 (N.leb_gt a n)). }
  eapply wp_at_sender; [exact Hrun|]. by apply HQ.
Qed.

Lemma wp_change_carrier a n k wire g t (Q : result unit Empty_set -> Trial -> Prop) :
  ok a (window a n) (n + 1) k wire t -> g ∈ wire -> flow_id g = 0 -> epoch g = current (window a n) ->
  (forall t', sent_ok a (n + 1) k wire g t' -> Q (Ok tt) t') ->
  wp (if n + 1 =? a then
        let! e := at_sender SessionTracer.begin_transition in
        assert_that (e =? 1) ;!
        let! e := at_receiver SessionTracer.begin_transition in
        assert_that (e =? 1)
      else ret tt) t Q.
Proof.
  intros Hok Hg Hid Hep HQ. pose proof (tr_epochs _ _ _ _ _ _ _ _ _ _ Hok) as [He1 He2].
  destruct (N.eqb_spec (n + 1) a) as [<-|Hne].
  - assert (window (n + 1) n = before_transition) as Hw by (unfold window; by rewrite (proj2 (N.leb_gt _ _)) by lia).
    assert (window (n + 1) (n + 1) = in_transition) as Hw' by (unfold window; by rewrite N.leb_refl).
    rewrite Hw in Hok, Hep, He1, He2.
    apply wp_bind. eapply wp_at_sender; [by apply begin_run|]. apply wp_bind. apply (wp_ret tt).
    apply wp_bind. eapply wp_at_receiver; [by apply begin_run|]. apply (wp_ret tt), HQ. split; [rewrite Hw'; by apply trial_transition|].
    split; [done|split; [done|]]. right. by rewrite Hep.
  - assert (window a n = window a (n + 1)) as Hw
      by (unfold window; destruct (N.leb_spec a n), (N.leb_spec a (n + 1)); (done || lia)).
    wp_step. apply HQ. rewrite Hw in Hok, Hep, He2. split; [done|split; [done|split; [done|]]]. left. by rewrite He2, Hep.
Qed.

Lemma wp_black_hole (b : bool) a n k wire g t (Q : result unit Empty_set -> Trial -> Prop) :
  sent_ok a n k wire g t -> (forall t', sent_ok a n k wire g t' -> Q (Ok tt) t') ->
  wp (if b then
        at_carrier (modify (InMemoryCarrier.set_available false)) ;!
        at_carrier (InMemoryCarrier.transmit g Deliver) ;!
        at_carrier (modify (InMemoryCarrier.set_available true))
      else ret tt) t Q.
Proof.
  intros Hok HQ. destruct b; [|wp_step; by apply HQ].
  do 2 (apply wp_bind; eapply wp_at_carrier; [reflexivity|]). eapply wp_at_carrier; [reflexivity|].
  pose proof (tr_carrier _ _ _ _ _ _ _ _ _ _ (proj1 Hok)) as [_ Ht].
  apply HQ. change (sent_ok a n k wire g (set_carrier (InMemoryCarrier.set_available true (carrier t)) t)).
  apply (sent_carrier a n k); [done|done|done|by left].
Qed.

Lemma wp_one_send a n k wire t (Q : result unit Empty_set -> Trial -> Prop) :
  1 <= a -> n < 4 -> k <= n -> ok a (window a n) n k wire t ->
  (forall wire' t', ok a (window a (n + 1)) (n + 1) (k + 1) wire' t' -> Q (Ok tt) t') -> wp (one_send 0 a n) t Q.
Proof.
  intros Ha Hn Hk Hok HQ. unfold one_send. apply wp_bind, wp_at_random, wp_bytes. intros b m Hb. wp_step.
  apply wp_bind, (wp_send_segment a n k wire b (set_random m t)); [done..|]. intros g s' t1 Hok1 Hid Hep.
  apply wp_bind, (wp_change_carrier a n k (wire ++ [g]) g); [done|apply elem_of_app; right; left|done|done|]. intros t2 Hok2.
  apply wp_bind, wp_at_random, wp_next. intros r1.
  apply wp_bind, (wp_black_hole _ a (n + 1) k (wire ++ [g]) g); [exact Hok2|]. intros t3 Hok3.
  apply wp_bind, wp_at_random, wp_next. intros r2.
  assert (sim_tick (carrier t3) <= k) as Ht3 by apply Hok3.
  destruct (transmit_run g (disposition r2) (carrier t3)) as (c4 & Hrun4 & Hav4 & Htick4 & Hin4);
    [unfold U64_MAX; lia|apply disposition_cases|].
  apply wp_bind. eapply wp_at_carrier; [exact Hrun4|].
  assert (sent_ok a (n + 1) k (wire ++ [g]) g (set_carrier c4 (set_random r2 t3))) as Hok4.
  { apply (sent_carrier a (n + 1) k); [exact Hok3|rewrite Hav4; apply Hok3|by rewrite Htick4|done]. }
  apply wp_bind, wp_at_random, wp_next. intros r3.
  pose proof (N.mod_lt r3 2 ltac:(done)) as Hr3.
  destruct (advance_run (r3 mod 2) c4) as (gs & c5 & Hrun5 & Hav5 & Htick5 & Hperm); [rewrite Htick4; unfold U64_MAX; lia|].
  apply wp_bind. eapply wp_at_carrier; [exact Hrun5|].
  destruct Hok4 as (Hok4 & _).
  apply (trial_deliver a (window a (n + 1)) (n + 1) (k + 1) (wire ++ [g])); [|lia| |].
  - eapply trial_carrier; [exact Hok4|cbn; rewrite Hav5, Hav4; apply Hok3|cbn; rewrite Htick5, Htick4; lia|].
    intros g' Hg'. left. cbn. rewrite Hperm. apply elem_of_app. by right.
  - intros g' Hg'. pose proof (tr_flight _ _ _ _ _ _ _ _ _ _ Hok4) as Hfl. rewrite Forall_forall in Hfl. apply Hfl.
    cbn. rewrite Hperm. apply elem_of_app. by left.
  - intros r o Hok5. by eapply HQ.
Qed.

Lemma wp_send_loop a indices n k wire t (Q : result unit Empty_set -> Trial -> Prop) :
  1 <= a -> k <= n -> (forall i j, indices !! i = Some j -> j = n + N.of_nat i) -> n + N.of_nat (length indices) <= 4 ->
  ok a (window a n) n k wire t ->
  (forall n' k' wire' t', n' = n + N.of_nat (length indices) -> k' <= n' -> ok a (window a n') n' k' wire' t' -> Q (Ok tt) t') ->
  wp (send_loop 0 a indices) t Q.
Proof.
  revert n k wire t. induction indices as [|index indices IH]; intros n k wire t Ha Hk Hin Hlen Hok HQ; cbn [send_loop].
  { wp_step. eapply HQ; [|exact Hk|exact Hok]. cbn. lia. }
  pose proof (Hin 0%nat index eq_refl) as Hi. replace (n + N.of_nat 0) with n in Hi by lia. subst index. cbn [length] in *.
  apply wp_bind. eapply wp_one_send; [exact Ha|lia|exact Hk|exact Hok|]. intros wire' t' Hok'.
  eapply IH; [exact Ha| | | |exact Hok'|]; [lia| |lia|].
  - intros i j Hij. specialize (Hin (S i) j Hij). lia.
  - intros n' k' wire'' t'' Hn'. apply HQ. lia.
Qed.

(** *** Recovering *)
Lemma transmit_all_run gs (c : InMemoryCarrier) :
  available c = true -> sim_tick c = 0 ->
  transmit_all gs c = Ret (Ok tt, {| sim_tick := 0; available := true;
    scheduled := scheduled c ++ ((fun g => {| ready_at := 0; scheduled_segment := g |}) <$> gs) |}).
Proof.
  revert c. induction gs as [|g gs IH]; intros c Hav Ht; cbn [transmit_all].
  { rewrite app_nil_r. destruct c. cbn in *. by subst. }
  destruct c as [tick av l]. cbn in Hav, Ht. subst tick av. unfold bind at 1.
  change (InMemoryCarrier.transmit g Deliver _) with (Ret (Ok (A := unit) (E := Empty_set) tt,
    {| sim_tick := 0; available := true; scheduled := l ++ [{| ready_at := 0; scheduled_segment := g |}] |})).
  cbv iota beta. rewrite IH by done. cbn [scheduled]. by rewrite <- app_assoc.
Qed.
Lemma all_ready gs ready :
  InMemoryCarrier.partition_ready 0 ((fun g => {| ready_at := 0; scheduled_segment := g |}) <$> gs) ready [] = (ready ++ gs, []).
Proof.
  revert ready. induction gs as [|g gs IH]; intros ready; cbn; [by rewrite app_nil_r|]. by rewrite IH, <- app_assoc.
Qed.
Lemma advance_all_run gs :
  InMemoryCarrier.advance (E := Empty_set) 0 {| sim_tick := 0; available := true;
    scheduled := (fun g => {| ready_at := 0; scheduled_segment := g |}) <$> gs |}
  = Ret (Ok gs, {| sim_tick := 0; available := true; scheduled := [] |}).
Proof.
  unfold InMemoryCarrier.advance, bind, get, modify. cbn [sim_tick scheduled].
  change (checked_add U64_MAX 0 0) with (Some 0). cbn [expect]. unfold ret. by rewrite all_ready.
Qed.

Lemma pending_below f s id p : Inv s -> flows s !! id = Some f -> p ∈ pending f -> sequence (segment p) < next_send f.
Proof.
  intros HI Hf [i Hi]%list_elem_of_lookup_1. pose proof (in_range _ _ _ HI Hf) as Hok.
  pose proof (fl_count _ _ _ _ _ _ Hok) as Hc. rewrite (contiguous_lookup _ _ _ _ (fl_contiguous _ _ _ _ _ _ Hok) Hi).
  apply lookup_lt_Some in Hi. unfold len in *. lia.
Qed.
Lemma acknowledge_run s a f :
  Inv s -> flows s !! ack_flow_id a = Some f -> acknowledges s a ->
  SessionTracer.acknowledge a s = Ret (Ok tt, acked_session (ack_flow_id a) (through a) f s).
Proof.
  intros HI Hf Hack. assert (wp (SessionTracer.acknowledge a) s
    (fun r s' => r = Ok tt /\ s' = acked_session (ack_flow_id a) (through a) f s)) as Hwp.
  { apply wp_acknowledge; [done|by intros e Hno|]. intros f' Hf' _ _ _. rewrite Hf in Hf'. by apply Some_inj in Hf' as <-. }
  apply wp_run in Hwp as (r & s' & Hrun & -> & ->). done.
Qed.

(** The sender once both acknowledgements were taken. *)
Definition fully_acknowledged (s : SessionTracer) : Prop :=
  exists f, flows s !! 0 = Some f /\ pending f = [].

Lemma acknowledges_all s a th f :
  Inv s -> transition s = in_transition -> flows s !! 0 = Some f -> next_send f = 4 -> 1 <= a <= 3 ->
  Forall (fun p => sequence (segment p) < a -> epoch (segment p) = 0) (pending f) ->
  th = {| ack_flow_id := 0; ack_epoch := 0; through := a - 1 |} \/ th = {| ack_flow_id := 0; ack_epoch := 1; through := 3 |} ->
  acknowledges s th.
Proof.
  intros HI He Hf Hn Ha Hep Hth. pose proof (fl_pending _ _ _ _ _ _ (in_range _ _ _ HI Hf)) as Hpend. rewrite He in Hpend.
  destruct Hth as [-> | ->]; (split; [unfold epoch_valid; rewrite He; cbn; auto|]); exists f; (split; [done|split; [cbn; lia|]]).
  - eapply Forall_impl; [exact Hep|]. cbn. intros p Hp Hle. rewrite Hp by lia. done.
  - eapply Forall_impl; [exact Hpend|]. intros p (_ & Hle & _) _. exact Hle.
Qed.

(** Both acknowledgements of the end of a trial. *)
Lemma both_acknowledged a s f :
  Inv s -> transition s = in_transition -> flows s !! 0 = Some f -> next_send f = 4 -> 1 <= a <= 3 ->
  Forall (fun p => sequence (segment p) < a -> epoch (segment p) = 0) (pending f) ->
  exists s1 s2, SessionTracer.acknowledge {| ack_flow_id := 0; ack_epoch := 0; through := a - 1 |} s = Ret (Ok tt, s1) /\
    SessionTracer.acknowledge {| ack_flow_id := 0; ack_epoch := SessionTracer.epoch s1; through := 3 |} s1 = Ret (Ok tt, s2) /\
    fully_acknowledged s2.
Proof.
  intros HI He Hf Hn Ha Hep. pose proof (acknowledges_all s a _ f HI He Hf Hn Ha Hep (or_introl eq_refl)) as Hack.
  pose proof (acked_session_inv s 0 (a - 1) f HI Hf) as HI1. set (s1 := acked_session 0 (a - 1) f s) in *.
  assert (flows s1 !! 0 = Some (ack_flow (a - 1) f)) as Hf1 by (cbn; by rewrite lookup_insert_eq).
  assert (transition s1 = in_transition) as He1 by exact He.
  assert (Forall (fun p => sequence (segment p) < a -> epoch (segment p) = 0) (pending (ack_flow (a - 1) f))) as Hep1.
  { apply Forall_forall. intros p [_ Hp]%list_elem_of_filter. rewrite Forall_forall in Hep. by apply Hep. }
  pose proof (acknowledges_all s1 a {| ack_flow_id := 0; ack_epoch := 1; through := 3 |} _ HI1 He1 Hf1 Hn Ha Hep1 (or_intror eq_refl)) as Hack1.
  exists s1, (acked_session 0 3 (ack_flow (a - 1) f) s1). split; [exact (acknowledge_run s {| ack_flow_id := 0; ack_epoch := 0; through := a - 1 |} f HI Hf Hack)|].
  assert (SessionTracer.epoch s1 = 1) as -> by (unfold SessionTracer.epoch; by rewrite He1).
  split; [exact (acknowledge_run s1 {| ack_flow_id := 0; ack_epoch := 1; through := 3 |} _ HI1 Hf1 Hack1)|]. eexists. split; [cbn; by rewrite lookup_insert_eq|].
  apply elem_of_nil_inv. intros p [Hp Hin]%list_elem_of_filter.
  pose proof (pending_below _ s1 0 p HI1 Hf1 Hin) as Hlt. cbn in Hlt. rewrite Hn in Hlt. lia.
Qed.

Lemma trial_recovered a k wire t :
  ok a in_transition 4 k wire t ->
  exists gs r', SessionTracer.resume_unacknowledged (trial_sender t) 0 = Ok gs /\
    deliver (trial_receiver t) gs (output t) = Ret (r', expected t) /\ Inv r'.
Proof.
  intros []. destruct tr_sender0 as (f & Hf & Hp & Hn & _). destruct tr_receiver0 as (fr & Hfr & Hfin).
  destruct (resume_ok 0 _ f fr tr_world0 Hf Hfr) as (gs & r' & Hgs & Hrun).
  - left. cbn. unfold SessionTracer.epoch. by destruct tr_epochs0 as [-> ->].
  - intros fin. by rewrite Hfin.
  - cbn. rewrite tr_sent0. unfold U64_MAX. lia.
  - exists gs, r'. split; [exact Hgs|]. split; [exact Hrun|].
    pose proof (world_ok_resume 0 _ gs tr_world0 Hgs) as Hw. cbn [world_of Delivery.sender Delivery.receiver sent delivered Delivery.wire] in Hw.
    destruct (deliver_wire gs (wire ++ gs) (trial_sender t) (trial_receiver t) (expected t) (output t) fr Hw) as (r2 & o2 & f2 & Hrun2 & Hw2 & _);
      [rewrite tr_sent0; unfold U64_MAX; lia|done|done| |].
    + intros g Hg. split; [apply elem_of_app; by right|]. unfold SessionTracer.resume_unacknowledged in Hgs. cbn in Hgs. rewrite Hf in Hgs.
      apply Ok_inj in Hgs as <-. apply list_elem_of_fmap in Hg as (p & -> & Hp').
      pose proof (fl_pending _ _ _ _ _ _ (in_range _ _ _ (wo_sender _ _ tr_world0) Hf)) as Hpend. rewrite Forall_forall in Hpend.
      destruct (Hpend p Hp') as (Hid & _). split; [exact Hid|]. left. cbn. unfold SessionTracer.epoch. by destruct tr_epochs0 as [-> ->].
    + cbn in Hrun. rewrite Hrun2 in Hrun. assert (r2 = r') as <- by congruence. apply Hw2.
Qed.

Lemma wp_recover a k wire t (Q : result unit Empty_set -> Trial -> Prop) :
  1 <= a <= 3 -> ok a in_transition 4 k wire t ->
  (forall t', fully_acknowledged (trial_sender t') -> expected t' = expected t -> output t' = expected t -> Q (Ok tt) t') ->
  wp (recover 0 a) t Q.
Proof.
  intros Ha Hok HQ. destruct (trial_recovered a k wire t Hok) as (gs & r' & Hgs & Hrun & HI').
  destruct Hok. destruct tr_sender0 as (f & Hf & _ & Hn & _ & Hep). unfold recover. do 2 wp_step.
  apply wp_bind. eapply wp_at_sender; [cbn; by rewrite Hgs|].
  apply wp_bind. eapply wp_at_carrier; [by apply transmit_all_run|].
  apply wp_bind. eapply wp_at_carrier; [cbn [carrier set_carrier InMemoryCarrier.new scheduled app]; apply advance_all_run|].
  apply wp_bind. unfold wp at 1, deliver_all. cbn [trial_receiver output set_carrier set_sender]. rewrite Hrun.
  destruct (both_acknowledged a (trial_sender t) f (wo_sender _ _ tr_world0) (proj1 tr_epochs0) Hf Hn Ha Hep) as (s1 & s2 & H1 & H2 & Hs2).
  apply wp_bind. eapply wp_at_sender; [exact H1|]. apply wp_bind.
  destruct (wp_run _ _ _ (complete_transition_preserves (E := Empty_set) r' HI')) as ([u|[]] & r2 & Hr2 & _).
  eapply wp_at_receiver; [exact Hr2|]. wp_step. eapply wp_at_sender; [exact H2|]. by apply HQ.
Qed.

(** *** The trial *)
Lemma started seed :
  exists t, start seed = Ret t /\ carrier t = InMemoryCarrier.new /\ expected t = [] /\ output t = [] /\
    exists s, SessionTracer.open_reliable_flow (trial_sender t) = Ret (Ok 0, s) /\
      SessionTracer.open_reliable_flow (trial_receiver t) = Ret (Ok 0, s) /\ Inv s /\
      flows s !! 0 = Some SessionTracer.new_flow /\ limits s = campaign_limits /\ tick s = 0 /\
      transition s = before_transition /\ pending_segments s = 0 /\ pending_bytes s = 0.
Proof.
  unfold start. destruct session as [s0| |] eqn:Hs; [|discriminate Hs..]. eexists. split; [done|]. cbn. split_and!; [done..|].
  assert (Inv s0) as HI.
  { apply (new_Inv 0 campaign_limits); [|done|exact Hs]. by vm_compute. }
  unfold session in Hs. cbn in Hs. injection Hs as <-.
  destruct (wp_run _ _ _ (open_preserves _ HI)) as (r & s & Hrun & HI1). pose proof Hrun as Hrun'. cbn in Hrun'.
  injection Hrun' as <- <-. eexists. split_and!; [exact Hrun|exact Hrun|exact HI1|done..].
Qed.
Lemma opened_ok a s :
  Inv s -> flows s !! 0 = Some SessionTracer.new_flow -> limits s = campaign_limits -> tick s = 0 ->
  transition s = before_transition -> pending_segments s = 0 -> pending_bytes s = 0 ->
  trial_ok a before_transition 0 0 [] s s InMemoryCarrier.new [] [].
Proof.
  intros HI Hf Hl Ht He Hps Hpb. constructor; try done.
  - apply (initial_ok 0). by split_and!.
  - exists SessionTracer.new_flow. split_and!; [done..|by apply Forall_nil].
  - by rewrite Hps, Hpb.
  - by exists SessionTracer.new_flow.
Qed.

(** Whatever its seed is, no assertion of a trial fails: four chunks of one to
    sixteen bytes are sent, every call of the sessions succeeds, whichever
    segments were lost, doubled, delayed or sent into a black hole and wherever
    the carrier was changed, and in the end the receiver has delivered exactly
    the bytes that were sent and nothing is left to acknowledge. *)
Theorem campaign_never_fails seed :
  exists chunks, length chunks = 4%nat /\ Forall (fun b => 1 <= len b <= 16) chunks /\
    run_trial seed = Ret (checksum (concat chunks)).
Proof.
  destruct (started seed) as (t & Hstart & Hc & He & Ho & s & Hs & Hr & HI & Hf & Hl & Ht & Htr & Hps & Hpb).
  assert (wp trial_body t (fun r t' => exists chunks, length chunks = 4%nat /\ Forall (fun b => 1 <= len b <= 16) chunks /\
    r = Ok (checksum (concat chunks)))) as Hwp.
  { unfold trial_body. apply wp_bind. eapply wp_at_sender; [exact Hs|]. apply wp_bind. eapply wp_at_receiver; [exact Hr|].
    apply wp_bind, wp_at_random, wp_next. intros m. pose proof (N.mod_lt m 3 ltac:(done)) as Hm.
    set (a := m mod 3 + 1). apply wp_bind.
    apply (wp_send_loop a [0; 1; 2; 3] 0 0 []); [lia|lia|by intros [|[|[|[|]]]] j [= <-]|cbn; lia| |].
    - unfold ok. cbn. rewrite Hc, He, Ho. replace (window a 0) with before_transition by (unfold window; by rewrite (proj2 (N.leb_gt a 0)) by lia).
      by apply opened_ok.
    - intros n k wire t1 Hn Hk Hok. change (0 + N.of_nat (length [0; 1; 2; 3])) with 4 in Hn. subst n. replace (window a 4) with in_transition in Hok
        by (unfold window; by rewrite (proj2 (N.leb_le a 4)) by lia).
      apply wp_bind, (wp_recover a k wire); [lia|exact Hok|]. intros t2 (f & Hf2 & Hp2) He2 Ho2. wp_step.
      rewrite He2, Ho2. rewrite bool_decide_eq_true_2 by done. apply wp_bind, (wp_ret tt).
      apply wp_bind. eapply wp_at_sender; [unfold SessionTracer.pending_of, lift_result; by rewrite Hf2, Hp2|].
      apply wp_bind, (wp_ret tt). apply wp_ret. exists (expected t1).
      pose proof (tr_sent _ _ _ _ _ _ _ _ _ _ Hok) as Hlen. split; [unfold len in Hlen; lia|]. split; [apply Hok|].
      done. }
  apply wp_run in Hwp as (r & t' & Hrun & chunks & H4 & Hch & ->). exists chunks. split; [done|split; [done|]].
  unfold run_trial. by rewrite Hstart, Hrun.
Qed.
