(* ===== verification/Admission.v ===== *)
(** Server-side admission ([velum-server/src/lib.rs]): principal
    authentication, exact destination authorisation and per-principal quotas. *)
From S2P Require Import Prelude Net.

Abbreviation PrincipalId := N (only parsing).
Abbreviation SessionLease := N (only parsing).

Inductive AuthenticationError :=
| InvalidCredential
| DuplicateCredential
| DuplicatePrincipal
| InconsistentCredentialLength.

(** [subtle::ConstantTimeEq] on byte slices. *)
Class ConstantTimeEq := { ct_eq : list byte -> list byte -> bool }.
(** What it computes: slices are equal when they hold the same bytes. *)
Class ConstantTimeEqLaws (C : ConstantTimeEq) : Prop := {
  ct_eq_spec : forall a b, ct_eq a b = true <-> a = b
}.

Record PrincipalCredential := { principal : PrincipalId; secret : list byte }.

Module PrincipalCredential.
Definition new (principal : PrincipalId) (secret : list byte)
  : result PrincipalCredential AuthenticationError :=
  if is_empty secret then Err InvalidCredential
  else Ok {| principal := principal; secret := secret |}.
End PrincipalCredential.

Record Authenticator := {
  credentials : gmap PrincipalId (list byte);
  secret_length : option N
}.

Module Authenticator.
Section authenticator.
Context `{ConstantTimeEq}.

(** The loop of [new]. *)
Fixpoint configure (credentials : list PrincipalCredential)
    (configured : gmap PrincipalId (list byte)) (secret_length : option N)
  : result Authenticator AuthenticationError :=
  match credentials with
  | [] => Ok {| credentials := configured; secret_length := secret_length |}
  | credential :: rest =>
    if match secret_length with
       | Some expected => negb (len (secret credential) =? expected)
       | None => false
       end
    then Err InconsistentCredentialLength
    else
      let secret_length := Some (len (secret credential)) in
      if existsb (fun existing => ct_eq existing.2 (secret credential)) (entries configured)
      then Err DuplicateCredential
      else if bool_decide (is_Some (configured !! principal credential))
      then Err DuplicatePrincipal
      else configure rest (<[principal credential := secret credential]> configured) secret_length
  end.

Definition new (credentials : list PrincipalCredential)
  : result Authenticator AuthenticationError := configure credentials ∅ None.

Definition authenticate (self : Authenticator) (secret : list byte)
  : result PrincipalId AuthenticationError :=
  if negb (bool_decide (secret_length self = Some (len secret))) then Err InvalidCredential
  else
    match fold_left (fun authenticated '(principal, configured) =>
            if ct_eq configured secret then Some principal else authenticated)
            (entries (credentials self)) None with
    | Some principal => Ok principal
    | None => Err InvalidCredential
    end.
End authenticator.
End Authenticator.

(** ** Destinations *)
Record DestinationPolicy := { allowed : gmap SocketAddr unit }.

Module DestinationPolicy.
Definition new (allowed : list SocketAddr) : DestinationPolicy :=
  {| allowed := foldl (fun m target => <[target := tt]> m) ∅ allowed |}.
Definition allows (self : DestinationPolicy) (target : SocketAddr) : bool :=
  bool_decide (is_Some (allowed self !! target)).
End DestinationPolicy.

(** ** Quotas *)
Record PrincipalQuota := { max_sessions : N; max_flows_per_session : N }.

Inductive AdmissionError := SessionQuotaExceeded | FlowQuotaExceeded | UnknownSession.

Record SessionUsage := { used_flows : N }.

Record AdmissionControl := {
  quota : PrincipalQuota;
  next_lease : N;
  sessions : gmap (PrincipalId * SessionLease) SessionUsage
}.

Module AdmissionControl.
Definition new (quota : PrincipalQuota) : AdmissionControl :=
  {| quota := quota; next_lease := 0; sessions := ∅ |}.

(** [sessions.keys().filter(..).count()] *)
Definition count_sessions (self : AdmissionControl) (principal : PrincipalId) : N :=
  len (filter (fun key => key.1 = principal) (map_to_list (sessions self)).*1).

Definition set_sessions (m : gmap (PrincipalId * SessionLease) SessionUsage)
    (self : AdmissionControl) : AdmissionControl :=
  {| quota := quota self; next_lease := next_lease self; sessions := m |}.

Definition open_session (principal : PrincipalId)
  : M AdmissionControl AdmissionError SessionLease :=
  let! self := get in
  reject_if (max_sessions (quota self) <=? count_sessions self principal)
    SessionQuotaExceeded ;!
  let lease := next_lease self in
  let! next := expect (checked_add U64_MAX (next_lease self) 1) in
  modify (fun self =>
    {| quota := quota self; next_lease := next;
       sessions := <[(principal, lease) := {| used_flows := 0 |}]> (sessions self) |}) ;!
  ret lease.

Definition open_flow (principal : PrincipalId) (lease : SessionLease)
  : M AdmissionControl AdmissionError unit :=
  let! self := get in
  let! usage := ok_or (sessions self !! (principal, lease)) UnknownSession in
  reject_if (max_flows_per_session (quota self) <=? used_flows usage) FlowQuotaExceeded ;!
  let! used := expect (checked_add U64_MAX (used_flows usage) 1) in
  modify (set_sessions (<[(principal, lease) := {| used_flows := used |}]> (sessions self))).

Definition close_flow (principal : PrincipalId) (lease : SessionLease)
  : M AdmissionControl AdmissionError unit :=
  let! self := get in
  let! usage := ok_or (sessions self !! (principal, lease)) UnknownSession in
  reject_if (used_flows usage =? 0) UnknownSession ;!
  let! used := expect (checked_sub (used_flows usage) 1) in
  modify (set_sessions (<[(principal, lease) := {| used_flows := used |}]> (sessions self))).

Definition close_session (principal : PrincipalId) (lease : SessionLease)
  : M AdmissionControl AdmissionError unit :=
  let! self := get in
  let! _ := ok_or (sessions self !! (principal, lease)) UnknownSession in
  modify (set_sessions (delete (principal, lease) (sessions self))).
End AdmissionControl.

(** ** Authentication: lemmas *)
Section authentication.
Context `{HC : ConstantTimeEqLaws}.

(** No two principals share a secret, and all secrets have the length. *)
Record authenticator_ok (a : Authenticator) : Prop := {
  ao_inj : forall p q s, credentials a !! p = Some s -> credentials a !! q = Some s -> p = q;
  ao_len : forall p s, credentials a !! p = Some s -> secret_length a = Some (len s)
}.

Lemma existsb_secret (m : gmap N (list byte)) s :
  existsb (fun e => ct_eq e.2 s) (entries m) = true <-> exists p, m !! p = Some s.
Proof.
  rewrite existsb_exists. split.
  - intros ([p s'] & Hin & Heq). cbn in Heq. apply ct_eq_spec in Heq as ->.
    exists p. by apply elem_of_entries, list_elem_of_In.
  - intros [p Hp]. exists (p, s). split; [|by apply ct_eq_spec].
    by apply list_elem_of_In, elem_of_entries.
Qed.

Lemma configure_spec l m n a :
  authenticator_ok {| credentials := m; secret_length := n |} ->
  Authenticator.configure l m n = Ok a ->
  authenticator_ok a /\
  forall p s, credentials a !! p = Some s <->
              m !! p = Some s \/ {| principal := p; secret := s |} ∈ l.
Proof.
  revert m n. induction l as [|c l IH]; intros m n Hok; cbn [Authenticator.configure].
  { intros [= <-]. split; [done|]. intros p s. rewrite elem_of_nil. cbn. tauto. }
  destruct (match n with Some expected => _ | None => _ end) eqn:Hlen; [done|].
  destruct (existsb _ _) eqn:Hex; [done|].
  case_bool_decide as Hp; [done|]. intros Hrun.
  assert (forall q, m !! q <> Some (secret c)) as Hfresh.
  { intros q Hq. enough (existsb (fun e => ct_eq e.2 (secret c)) (entries m) = true) by congruence.
    apply existsb_secret. by exists q. }
  assert (m !! principal c = None) as Hnone by (by apply eq_None_not_Some).
  apply IH in Hrun as [Hoka Hlook].
  2:{ destruct Hok as [Hinj Hl]. constructor; cbn [credentials secret_length] in *.
      - intros p q s [[Hp1 Hs1]|[? Hps]]%lookup_insert_Some [[Hp2 Hs2]|[? Hqs]]%lookup_insert_Some.
        + congruence.
        + subst s. by apply Hfresh in Hqs.
        + subst s. by apply Hfresh in Hps.
        + by eapply Hinj.
      - intros p s [[_ <-]|[? Hps]]%lookup_insert_Some; [done|]. specialize (Hl p s Hps).
        rewrite Hl in Hlen. apply negb_false_iff, N.eqb_eq in Hlen. by rewrite Hlen. }
  split; [done|]. intros p s. rewrite Hlook, lookup_insert_Some, elem_of_cons.
  destruct c as [pc sc]. cbn [principal secret] in *. split.
  - intros [[[<- <-]|[? ?]]|?]; auto.
  - intros [Hps|[[= <- <-]|?]]; auto.
    left. right. split; [|done]. intros <-. congruence.
Qed.

Lemma fold_authenticate s (l : list (N * list byte)) acc :
  fold_left (fun authenticated '(p, configured) =>
    if ct_eq configured s then Some p else authenticated) l acc = acc \/
  exists p, fold_left (fun authenticated '(p, configured) =>
    if ct_eq configured s then Some p else authenticated) l acc = Some p /\ (p, s) ∈ l.
Proof.
  revert acc. induction l as [|[p c] l IH]; intros acc; cbn [fold_left]; [by left|].
  destruct (ct_eq c s) eqn:Heq.
  - apply ct_eq_spec in Heq as ->. right. destruct (IH (Some p)) as [->|(q & -> & Hq)].
    + exists p. split; [done|by left].
    + exists q. split; [done|by right].
  - destruct (IH acc) as [->|(q & -> & Hq)]; [by left|]. right. exists q. split; [done|by right].
Qed.

Lemma fold_authenticate_found s (l : list (N * list byte)) acc p :
  (p, s) ∈ l -> is_Some (fold_left (fun authenticated '(p, configured) =>
    if ct_eq configured s then Some p else authenticated) l acc).
Proof.
  intros Hin. apply list_elem_of_split in Hin as (l1 & l2 & ->).
  rewrite fold_left_app. cbn [fold_left]. rewrite (proj2 (ct_eq_spec s s) eq_refl).
  destruct (fold_authenticate s l2 (Some p)) as [->|(q & -> & _)]; by eexists.
Qed.

(** Authentication: an authenticator that configuration accepts
    authenticates a secret as a principal exactly when that principal was
    configured with that very secret, and rejects every other secret. *)
Theorem authenticate_configured l a s p :
  Authenticator.new l = Ok a ->
  (Authenticator.authenticate a s = Ok p <-> {| principal := p; secret := s |} ∈ l) /\
  (Authenticator.authenticate a s = Err InvalidCredential <->
   forall q, {| principal := q; secret := s |} ∉ l).
Proof.
  intros Hnew. apply configure_spec in Hnew as [[Hinj Hlen] Hlook].
  2:{ constructor; cbn; intros *; by rewrite lookup_empty. }
  assert (Hin : forall q, {| principal := q; secret := s |} ∈ l <-> credentials a !! q = Some s).
  { intros q. rewrite Hlook, lookup_empty. split; [by right|]. by intros [?|?]. }
  setoid_rewrite Hin. unfold Authenticator.authenticate.
  case_bool_decide as Hl; cbn [negb].
  2:{ split; split; intros Hq; try done.
      - by apply Hlen in Hq.
      - intros q Hqs. by apply Hlen in Hqs. }
  destruct (fold_authenticate s (entries (credentials a)) None) as [Hf|(q & Hf & Hq)].
  - assert (forall q, credentials a !! q <> Some s) as Hno.
    { intros q Hq. apply elem_of_entries in Hq.
      apply (fold_authenticate_found s _ None) in Hq as [? Hq]. congruence. }
    rewrite Hf. split; split; intros Hx; try done. by apply Hno in Hx.
  - rewrite Hf. apply elem_of_entries in Hq. split; split.
    + by intros [= <-].
    + intros Hp. by rewrite (Hinj p q s).
    + done.
    + intros Hx. by apply Hx in Hq.
Qed.
End authentication.

(** ** Quotas: histories *)
Inductive AdmissionOp :=
| OpenSession (p : PrincipalId)
| OpenFlow (p : PrincipalId) (l : SessionLease)
| CloseFlow (p : PrincipalId) (l : SessionLease)
| CloseSession (p : PrincipalId) (l : SessionLease).

(** What an operation returns, with the lease of a session it opened. *)
Definition admission_step (op : AdmissionOp) (s : AdmissionControl)
  : outcome (result (option SessionLease) AdmissionError * AdmissionControl) :=
  match op with
  | OpenSession p => (let! l := AdmissionControl.open_session p in ret (Some l)) s
  | OpenFlow p l => (AdmissionControl.open_flow p l ;! ret None) s
  | CloseFlow p l => (AdmissionControl.close_flow p l ;! ret None) s
  | CloseSession p l => (AdmissionControl.close_session p l ;! ret None) s
  end.

Fixpoint admission_run (ops : list AdmissionOp) (s : AdmissionControl)
  : outcome (list (result (option SessionLease) AdmissionError) * AdmissionControl) :=
  match ops with
  | [] => Ret ([], s)
  | op :: ops =>
    match admission_step op s with
    | Ret (r, s) =>
      match admission_run ops s with
      | Ret (rs, s) => Ret (r :: rs, s)
      | Panic => Panic
      | OutOfFuel => OutOfFuel
      end
    | Panic => Panic
    | OutOfFuel => OutOfFuel
    end
  end.

(** The leases a history handed out. *)
Definition leases (rs : list (result (option SessionLease) AdmissionError)) : list N :=
  omap (fun r => match r with Ok (Some l) => Some l | _ => None end) rs.

Record quota_ok (s : AdmissionControl) : Prop := {
  qo_sessions : forall p, AdmissionControl.count_sessions s p <= max_sessions (quota s);
  qo_flows : forall k u, sessions s !! k = Some u ->
    used_flows u <= max_flows_per_session (quota s);
  qo_lease : forall p l, is_Some (sessions s !! (p, l)) -> l < next_lease s;
  qo_owner : forall p q l,
    is_Some (sessions s !! (p, l)) -> is_Some (sessions s !! (q, l)) -> p = q
}.

Lemma count_insert (s : AdmissionControl) n p l u q :
  sessions s !! (p, l) = None ->
  AdmissionControl.count_sessions
    {| quota := quota s; next_lease := n; sessions := <[(p, l) := u]> (sessions s) |} q =
  AdmissionControl.count_sessions s q + (if decide (p = q) then 1 else 0).
Proof.
  intros Hn. unfold AdmissionControl.count_sessions, len. cbn [sessions].
  rewrite (map_to_list_insert _ _ _ Hn). cbn [fmap list_fmap].
  rewrite filter_cons. cbn [fst]. destruct (decide (p = q)); cbn [length]; lia.
Qed.

Lemma count_update (s : AdmissionControl) p l u u' q :
  sessions s !! (p, l) = Some u' ->
  AdmissionControl.count_sessions (AdmissionControl.set_sessions (<[(p, l) := u]> (sessions s)) s) q =
  AdmissionControl.count_sessions s q.
Proof.
  intros Hs. unfold AdmissionControl.count_sessions, len. cbn [AdmissionControl.set_sessions sessions].
  rewrite <-(insert_delete_id (sessions s) (p, l) u' Hs) at 2.
  rewrite <-(insert_delete_eq (sessions s) (p, l) u).
  by rewrite !map_to_list_insert by apply lookup_delete_eq.
Qed.

Lemma count_delete (s : AdmissionControl) k q :
  AdmissionControl.count_sessions (AdmissionControl.set_sessions (delete k (sessions s)) s) q <=
  AdmissionControl.count_sessions s q.
Proof.
  unfold AdmissionControl.count_sessions, len. cbn [AdmissionControl.set_sessions sessions].
  destruct (sessions s !! k) as [u|] eqn:Hk; [|by rewrite delete_id].
  assert (map_to_list (sessions s) ≡ₚ (k, u) :: map_to_list (delete k (sessions s))) as ->.
  { rewrite <-map_to_list_insert by apply lookup_delete_eq. by rewrite insert_delete_id. }
  cbn [fmap list_fmap]. rewrite filter_cons. case_decide; cbn [length]; lia.
Qed.

Lemma quota_ok_new q : quota_ok (AdmissionControl.new q).
Proof.
  constructor; cbn [AdmissionControl.new sessions quota next_lease].
  - intros p. unfold AdmissionControl.count_sessions. cbn [AdmissionControl.new sessions].
    rewrite map_to_list_empty. cbn. unfold len. cbn. lia.
  - intros k u. by rewrite lookup_empty.
  - intros p l [u Hu]. by rewrite lookup_empty in Hu.
  - intros p p' l [u Hu]. by rewrite lookup_empty in Hu.
Qed.

Lemma quota_ok_update s p l u u' :
  quota_ok s -> sessions s !! (p, l) = Some u' ->
  used_flows u <= max_flows_per_session (quota s) ->
  quota_ok (AdmissionControl.set_sessions (<[(p, l) := u]> (sessions s)) s).
Proof.
  intros [] Hs Hu.
  assert (forall k, is_Some (<[(p, l) := u]> (sessions s) !! k) -> is_Some (sessions s !! k)) as Hk.
  { intros k. destruct (decide ((p, l) = k)) as [<-|]; [by eauto|by rewrite lookup_insert_ne]. }
  constructor; cbn [AdmissionControl.set_sessions quota next_lease sessions].
  - intros q. by rewrite (count_update s p l u u').
  - intros k v [[_ <-]|[_ Hv]]%lookup_insert_Some; [done|by eapply qo_flows0].
  - intros q m Hq%Hk. by eapply qo_lease0.
  - intros q r m Hq%Hk Hr%Hk. by eapply qo_owner0.
Qed.

Lemma quota_ok_delete s k :
  quota_ok s -> quota_ok (AdmissionControl.set_sessions (delete k (sessions s)) s).
Proof.
  intros [].
  assert (forall i, is_Some (delete k (sessions s) !! i) -> is_Some (sessions s !! i)) as Hk.
  { intros i [v [_ Hv]%lookup_delete_Some]. by exists v. }
  constructor; cbn [AdmissionControl.set_sessions quota next_lease sessions].
  - intros q. pose proof (count_delete s k q). specialize (qo_sessions0 q). lia.
  - intros i v [_ Hv]%lookup_delete_Some. by eapply qo_flows0.
  - intros q m Hq%Hk. by eapply qo_lease0.
  - intros q r m Hq%Hk Hr%Hk. by eapply qo_owner0.
Qed.

Lemma quota_ok_open s p :
  quota_ok s -> AdmissionControl.count_sessions s p < max_sessions (quota s) ->
  quota_ok {| quota := quota s; next_lease := next_lease s + 1;
              sessions := <[(p, next_lease s) := {| used_flows := 0 |}]> (sessions s) |}.
Proof.
  intros [] Hc.
  assert (forall q, sessions s !! (q, next_lease s) = None) as Hnone.
  { intros q. apply eq_None_not_Some. intros Hq%qo_lease0. lia. }
  constructor; cbn [quota next_lease sessions].
  - intros q. rewrite count_insert by apply Hnone.
    destruct (decide (p = q)) as [<-|]; [lia|]. specialize (qo_sessions0 q). lia.
  - intros k v [[_ <-]|[_ Hv]]%lookup_insert_Some; [cbn; lia|by eapply qo_flows0].
  - intros q m [v [[[= <- <-] _]|[_ Hv]]%lookup_insert_Some]; [lia|].
    assert (m < next_lease s) by (by eapply qo_lease0). lia.
  - intros q r m [v [[[= <- <-] _]|[_ Hv]]%lookup_insert_Some]
      [v' [[Heq _]|[_ Hv']]%lookup_insert_Some].
    + by injection Heq.
    + by rewrite Hnone in Hv'.
    + injection Heq as <- <-. by rewrite Hnone in Hv.
    + by eapply qo_owner0.
Qed.

(** Every operation is total short of the exhaustion of the lease counter,
    keeps the invariant and the quota, and hands out only fresh leases. *)
Lemma admission_step_spec op s :
  quota_ok s -> next_lease s < U64_MAX -> max_flows_per_session (quota s) <= U64_MAX ->
  exists r s', admission_step op s = Ret (r, s') /\ quota_ok s' /\ quota s' = quota s /\
    next_lease s <= next_lease s' /\ next_lease s' <= next_lease s + 1 /\
    (forall l, r = Ok (Some l) -> l = next_lease s /\ next_lease s' = next_lease s + 1).
Proof.
  intros HI Hl Hmax. apply (wp_run (fun s => admission_step op s) s (fun r s' =>
    quota_ok s' /\ quota s' = quota s /\ next_lease s <= next_lease s' /\
    next_lease s' <= next_lease s + 1 /\
    (forall l, r = Ok (Some l) -> l = next_lease s /\ next_lease s' = next_lease s + 1))).
  destruct op as [p|p l|p l|p l]; cbn [admission_step]; apply wp_bind.
  - unfold AdmissionControl.open_session. wp_steps; [split_and!; try done; lia|lia|].
    rewrite N.leb_gt in *. cbn.
    split_and!; [by apply quota_ok_open|done|lia|lia|]. by intros ? [= <-].
  - unfold AdmissionControl.open_flow. wp_steps; try (split_and!; try done; lia).
    + match goal with H : sessions s !! _ = Some a |- _ => pose proof (qo_flows _ HI _ _ H) end.
      rewrite N.leb_gt in *. lia.
    + rewrite N.leb_gt in *. split_and!; try done; cbn; try lia.
      eapply quota_ok_update; [done|eassumption|cbn; lia].
  - unfold AdmissionControl.close_flow. wp_steps; try (split_and!; try done; lia).
    + rewrite N.eqb_neq in *. lia.
    + match goal with H : sessions s !! _ = Some a |- _ => pose proof (qo_flows _ HI _ _ H) end.
      split_and!; try done; cbn; try lia.
      eapply quota_ok_update; [done|eassumption|cbn; lia].
  - unfold AdmissionControl.close_session. wp_steps; try (split_and!; try done; lia).
    split_and!; try done; cbn; try lia. by apply quota_ok_delete.
Qed.

Lemma admission_run_spec ops s :
  quota_ok s -> next_lease s + len ops <= U64_MAX ->
  max_flows_per_session (quota s) <= U64_MAX ->
  exists rs s', admission_run ops s = Ret (rs, s') /\ quota_ok s' /\ quota s' = quota s /\
    Forall (fun l => next_lease s <= l) (leases rs) /\ StronglySorted N.lt (leases rs).
Proof.
  revert s. induction ops as [|op ops IH]; intros s HI Hn Hmax; cbn [admission_run].
  { exists [], s. split_and!; try done; constructor. }
  rewrite len_cons in Hn.
  destruct (admission_step_spec op s) as (r & s1 & -> & HI1 & Hq & Hl1 & Hl2 & Hr); [done|lia|done|].
  destruct (IH s1) as (rs & s2 & -> & HI2 & Hq2 & Hall & Hsort); [done|lia|by rewrite Hq|].
  exists (r :: rs), s2. split_and!; [done|done|by rewrite Hq2| |].
  - unfold leases in *. cbn [omap list_omap].
    destruct r as [[l|]|]; try (constructor; [destruct (Hr l eq_refl); lia|]);
      (eapply Forall_impl; [exact Hall|cbv beta; lia]).
  - unfold leases in *. cbn [omap list_omap]. destruct r as [[l|]|]; try done.
    constructor; [done|]. destruct (Hr l eq_refl). eapply Forall_impl; [exact Hall|cbv beta; lia].
Qed.

(** C19. Quotas over every history: no principal ever holds more sessions
    than its quota, no session more flows, every operation returns (a history
    shorter than 2^64 cannot exhaust the leases), and the leases handed out
    are strictly increasing, so none is ever given twice. *)
Theorem quotas_hold q ops :
  len ops <= U64_MAX -> max_flows_per_session q <= U64_MAX ->
  exists rs s, admission_run ops (AdmissionControl.new q) = Ret (rs, s) /\
    (forall p, AdmissionControl.count_sessions s p <= max_sessions q) /\
    (forall k u, sessions s !! k = Some u -> used_flows u <= max_flows_per_session q) /\
    StronglySorted N.lt (leases rs).
Proof.
  intros Hn Hq. destruct (admission_run_spec ops (AdmissionControl.new q))
    as (rs & s & Hrun & [Hs Hf _ _] & Hqs & _ & Hsort); [|done|done|].
  - apply quota_ok_new.
  - exists rs, s. rewrite Hqs in *. by split_and!.
Qed.

(** A destination is allowed exactly when it was configured. *)
Theorem destination_exact targets t :
  DestinationPolicy.allows (DestinationPolicy.new targets) t = true <-> t ∈ targets.
Proof.
  unfold DestinationPolicy.allows, DestinationPolicy.new. cbn [allowed].
  rewrite bool_decide_eq_true.
  assert (forall m : gmap SocketAddr unit,
    is_Some (foldl (fun m target => <[target := tt]> m) m targets !! t) <->
    is_Some (m !! t) \/ t ∈ targets) as Hgen.
  { induction targets as [|x l IH]; intros m; cbn [foldl].
    - rewrite elem_of_nil. tauto.
    - rewrite IH, elem_of_cons. destruct (decide (x = t)) as [->|Hne].
      + rewrite lookup_insert_eq. split; [|left; by eexists]. intros _. by right; left.
      + rewrite lookup_insert_ne by done. split; [intros [?|?]; auto|].
        intros [?|[?|?]]; [auto|congruence|auto]. }
  rewrite Hgen, lookup_empty. split; [by intros [[? ?]|?]|auto].
Qed.

(** ** At concrete inputs *)
Definition test_ct_eq : ConstantTimeEq := {| ct_eq a b := bool_decide (a = b) |}.
Lemma test_ct_eq_laws : ConstantTimeEqLaws test_ct_eq.
Proof. constructor. intros a b. apply bool_decide_eq_true. Qed.

Definition test_credentials : list PrincipalCredential :=
  [{| principal := 1; secret := [x61; x62] |}; {| principal := 2; secret := [x63; x64] |}].

Lemma authenticate_configured_witness :
  exists a, Authenticator.new (H := test_ct_eq) test_credentials = Ok a /\
    (Authenticator.authenticate (H := test_ct_eq) a [x63; x64] = Ok 2 <->
     {| principal := 2; secret := [x63; x64] |} ∈ test_credentials).
Proof.
  eexists. split; [vm_compute; reflexivity|].
  apply (authenticate_configured (HC := test_ct_eq_laws) test_credentials).
  vm_compute. reflexivity.
Defined.

Lemma quotas_hold_witness :
  exists rs s,
    admission_run [OpenSession 1; OpenSession 1; OpenFlow 1 0; OpenFlow 1 0]
      (AdmissionControl.new {| max_sessions := 1; max_flows_per_session := 1 |}) = Ret (rs, s) /\
    AdmissionControl.count_sessions s 1 <= 1.
Proof.
  destruct (quotas_hold {| max_sessions := 1; max_flows_per_session := 1 |}
              [OpenSession 1; OpenSession 1; OpenFlow 1 0; OpenFlow 1 0] ltac:(done) ltac:(done))
    as (rs & s & Hrun & Hc & _).
  exists rs, s. exact (conj Hrun (Hc 1)).
Defined.
