(* ===== verification/HelperProtocol.v ===== *)
(** The bounded control protocol between unprivileged clients and privileged
    traffic hosts ([velum-helper-protocol/src/lib.rs]). *)
From S2P Require Import Prelude Net.

Definition PROTOCOL_VERSION : N := 1.
Definition MAX_FRAME_LENGTH : N := 64 * 1024.
Definition FRAME_HEADER_LENGTH : N := 4.

(** ** Data *)
Inductive Capability :=
| Tun | Ipv6 | RouteTransaction | DnsTransaction | SocketProtection | CrashRecovery.

#[export] Instance Capability_eq_dec : EqDecision Capability.
Proof. solve_decision. Defined.

Definition capability_index (c : Capability) : nat :=
  match c with
  | Tun => 0 | Ipv6 => 1 | RouteTransaction => 2 | DnsTransaction => 3
  | SocketProtection => 4 | CrashRecovery => 5
  end.
Definition capability_of_index (n : nat) : option Capability :=
  [Tun; Ipv6; RouteTransaction; DnsTransaction; SocketProtection; CrashRecovery] !! n.

#[export] Instance Capability_countable : Countable Capability.
Proof. by refine (inj_countable capability_index capability_of_index _); intros []. Defined.

Record IpNetwork := { address : IpAddr; prefix_length : N }.

Record StartParameters := {
  mtu : N;
  ipv4 : option IpNetwork;
  ipv6 : option IpNetwork;
  dns : list IpAddr
}.

Inductive Command :=
| Hello
| Status
| Start (parameters : StartParameters)
| Stop
| Recover.

Record Request := {
  req_version : N;
  req_request_id : N;
  req_profile_generation : N;
  req_capabilities : gset Capability;
  command : Command
}.

Inductive HostState := Recovering | Stopped | Starting | Running | Stopping | Failed.

Inductive ErrorCode :=
| Unauthorized
| UnsupportedVersionCode
| UnsupportedCapability
| InvalidConfiguration
| GenerationConflict
| Busy
| PlatformCode
| RecoveryRequired.

Inductive Success :=
| SuccessHello
| SuccessStatus (state : HostState)
| SuccessStarted
| SuccessStopped
| SuccessRecovered.

Inductive CommandResult :=
| CommandOk (success : Success)
| CommandErr (code : ErrorCode).

Record Response := {
  resp_version : N;
  resp_request_id : N;
  resp_profile_generation : N;
  resp_capabilities : gset Capability;
  response : CommandResult
}.

Inductive CodecError := EmptyFrame | FrameTooLarge | InvalidJson | UnsupportedVersion.

#[export] Instance HostState_eq_dec : EqDecision HostState.
Proof. solve_decision. Defined.
#[export] Instance IpNetwork_eq_dec : EqDecision IpNetwork.
Proof. solve_decision. Defined.
#[export] Instance StartParameters_eq_dec : EqDecision StartParameters.
Proof. solve_decision. Defined.
#[export] Instance Command_eq_dec : EqDecision Command.
Proof. solve_decision. Defined.
#[export] Instance CodecError_eq_dec : EqDecision CodecError.
Proof. solve_decision. Defined.

(** ** JSON

    [serde_json] on the two derived types. *)
Class Json (T : Type) := {
  to_vec : T -> option (list byte);
  from_slice : list byte -> option T
}.
(** What was serialised parses back to the same value. *)
Class JsonLaws (T : Type) (J : Json T) : Prop := {
  from_to_vec : forall v body, to_vec v = Some body -> from_slice body = Some v
}.

Class Versioned (T : Type) := { version : T -> N }.
#[export] Instance Request_Versioned : Versioned Request := {| version := req_version |}.
#[export] Instance Response_Versioned : Versioned Response := {| version := resp_version |}.

(** ** Codec *)
Definition u32_try_from (n : N) : option N := if n <=? U32_MAX then Some n else None.

Definition encode {T} `{Json T} (value : T) : result (list byte) CodecError :=
  match to_vec value with
  | None => Err InvalidJson
  | Some body =>
    if is_empty body then Err EmptyFrame
    else if MAX_FRAME_LENGTH <? len body then Err FrameTooLarge
    else
      match u32_try_from (len body) with
      | None => Err FrameTooLarge
      | Some length => Ok (([] ++ to_be_bytes 4 length) ++ body)
      end
  end.

Definition decode {T} `{Json T, Versioned T} (body : list byte) : result T CodecError :=
  if is_empty body then Err EmptyFrame
  else if MAX_FRAME_LENGTH <? len body then Err FrameTooLarge
  else
    match from_slice body with
    | None => Err InvalidJson
    | Some decoded =>
      if negb (version decoded =? PROTOCOL_VERSION) then Err UnsupportedVersion else Ok decoded
    end.

Definition encode_request `{Json Request} (request : Request) : result (list byte) CodecError :=
  encode request.
Definition encode_response `{Json Response} (response : Response)
  : result (list byte) CodecError := encode response.
Definition decode_request `{Json Request} (body : list byte) : result Request CodecError :=
  decode body.
Definition decode_response `{Json Response} (body : list byte) : result Response CodecError :=
  decode body.

(** ** Incremental decoder *)
Record RequestDecoder := {
  buffer : list byte;
  expected_body_length : option N
}.

Module RequestDecoder.
Section decoder.
Context `{Json Request}.

Definition new : RequestDecoder := {| buffer := []; expected_body_length := None |}.

Definition clear : M RequestDecoder CodecError unit :=
  modify (fun _ => {| buffer := []; expected_body_length := None |}).

(** [self.buffer.extend_from_slice(..)] *)
Definition extend (bytes : list byte) : M RequestDecoder CodecError unit :=
  modify (fun self => {| buffer := buffer self ++ bytes;
                         expected_body_length := expected_body_length self |}).

(** The [None] arm of the loop: [None] when the loop breaks for want of
    header bytes, else the body length and the bytes left. *)
Definition read_header (bytes : list byte)
  : M RequestDecoder CodecError (option (N * list byte)) :=
  let! self := get in
  let! required := expect (checked_sub FRAME_HEADER_LENGTH (len (buffer self))) in
  let consumed := N.min required (len bytes) in
  extend (prefix_to consumed bytes) ;!
  let bytes := suffix_from consumed bytes in
  let! self := get in
  if len (buffer self) <? FRAME_HEADER_LENGTH then ret None
  else
    let! header := expect (slice_get (buffer self) 0 FRAME_HEADER_LENGTH) in
    modify (fun self => {| buffer := []; expected_body_length := expected_body_length self |}) ;!
    let length := from_be_bytes header in
    if length =? 0 then clear ;! throw EmptyFrame
    else if MAX_FRAME_LENGTH <? length then clear ;! throw FrameTooLarge
    else
      modify (fun self => {| buffer := buffer self; expected_body_length := Some length |}) ;!
      ret (Some (length, bytes)).

(** The rest of an iteration: [None] when the loop breaks for want of body
    bytes, else the request and the bytes left. *)
Definition read_body (body_length : N) (bytes : list byte)
  : M RequestDecoder CodecError (option (Request * list byte)) :=
  let! self := get in
  let! required := expect (checked_sub body_length (len (buffer self))) in
  let consumed := N.min required (len bytes) in
  extend (prefix_to consumed bytes) ;!
  let bytes := suffix_from consumed bytes in
  let! self := get in
  if len (buffer self) <? body_length then ret None
  else
    let request := decode_request (buffer self) in
    modify (fun _ => {| buffer := []; expected_body_length := None |}) ;!
    match request with
    | Ok request => ret (Some (request, bytes))
    | Err error => clear ;! throw error
    end.

(** The loop of [push]. Every iteration but the last consumes a byte, so
    one more unit of fuel than there are bytes is enough. *)
Fixpoint push_loop (fuel : nat) (bytes : list byte) (requests : list Request)
  : M RequestDecoder CodecError (list Request) :=
  match fuel with
  | O => out_of_fuel
  | S fuel =>
    let! self := get in
    let! header := match expected_body_length self with
                   | Some length => ret (Some (length, bytes))
                   | None => read_header bytes
                   end in
    match header with
    | None => ret requests
    | Some (body_length, bytes) =>
      let! body := read_body body_length bytes in
      match body with
      | None => ret requests
      | Some (request, bytes) =>
        let requests := requests ++ [request] in
        if is_empty bytes then ret requests else push_loop fuel bytes requests
      end
    end
  end.

Definition push (bytes : list byte) : M RequestDecoder CodecError (list Request) :=
  push_loop (S (length bytes)) bytes [].
End decoder.
End RequestDecoder.

(** ** Framing: specification *)
Definition frame (body : list byte) : list byte := to_be_bytes 4 (len body) ++ body.

(** The bytes of the frame a decoder is in the middle of. *)
Definition carried (d : RequestDecoder) : list byte :=
  match expected_body_length d with
  | None => buffer d
  | Some n => to_be_bytes 4 n ++ buffer d
  end.

Definition decoder_ok (d : RequestDecoder) : Prop :=
  match expected_body_length d with
  | None => len (buffer d) < FRAME_HEADER_LENGTH
  | Some n => 0 < n <= MAX_FRAME_LENGTH /\ len (buffer d) < n
  end.

Section codec.
Context `{J : Json Request}.

(** A stream whose first frame is refused with [e]. *)
Definition bad_stream (s : list byte) (e : CodecError) : Prop :=
  exists n rest, s = to_be_bytes 4 n ++ rest /\ n <= U32_MAX /\
    ((n = 0 /\ e = EmptyFrame) \/ (MAX_FRAME_LENGTH < n /\ e = FrameTooLarge) \/
     exists body rest', rest = body ++ rest' /\ len body = n /\ decode_request body = Err e).

Lemma split_at {A} (n : N) (l : list A) :
  n <= len l -> exists a b, l = a ++ b /\ len a = n.
Proof.
  intros Hn. exists (prefix_to n l), (suffix_from n l). rewrite prefix_suffix.
  split; [done|]. by apply len_prefix_to.
Qed.

(** Taking what is missing up to [n] bytes from the front of [bytes]. *)
Lemma fill_short {A} (n : N) (buf bytes : list A) :
  len buf < n -> len (buf ++ bytes) < n ->
  N.min (n - len buf) (len bytes) = len bytes.
Proof. rewrite len_app. lia. Qed.

Lemma fill_full {A} (n : N) (buf bytes : list A) :
  len buf < n -> n <= len (buf ++ bytes) ->
  exists a rest, bytes = a ++ rest /\ len a = n - len buf /\
    N.min (n - len buf) (len bytes) = len a.
Proof.
  rewrite len_app. intros Hb Hn. destruct (split_at (n - len buf) bytes) as (a & rest & -> & Ha);
    [lia|]. exists a, rest. split_and!; [done|done|]. rewrite len_app. lia.
Qed.

Lemma prefix_to_all {A} (l : list A) : prefix_to (len l) l = l.
Proof. rewrite <-(app_nil_r l) at 2. apply prefix_to_app. Qed.
Lemma suffix_from_all {A} (l : list A) : suffix_from (len l) l = [].
Proof. rewrite <-(app_nil_r l) at 2. apply suffix_from_app. Qed.

Lemma slice_get_all {A} (l : list A) n : len l = n -> slice_get l 0 n = Some l.
Proof.
  intros <-. unfold slice_get. rewrite N.sub_0_r.
  replace ((0 <=? len l) && (len l <=? len l)) with true
    by (symmetry; apply andb_true_iff; rewrite !N.leb_le; lia).
  f_equal. apply prefix_to_all.
Qed.

Lemma be4_bound h : len h = 4 -> from_be_bytes h <= U32_MAX.
Proof. intros Hh. pose proof (from_be_bytes_bound h) as Hb. rewrite Hh in Hb. unfold U32_MAX. lia. Qed.
Lemma be4_inv h : len h = 4 -> to_be_bytes 4 (from_be_bytes h) = h.
Proof.
  intros Hh. rewrite <-(to_from_be_bytes h) at 2. f_equal. unfold len in Hh. lia.
Qed.

Lemma wp_read_header d bytes (Q : result (option (N * list byte)) CodecError -> RequestDecoder -> Prop) :
  expected_body_length d = None -> len (buffer d) < FRAME_HEADER_LENGTH ->
  (len (buffer d ++ bytes) < FRAME_HEADER_LENGTH ->
   Q (Ok None) {| buffer := buffer d ++ bytes; expected_body_length := None |}) ->
  (forall n rest, buffer d ++ bytes = to_be_bytes 4 n ++ rest -> n <= U32_MAX ->
    len rest < len bytes ->
    (n = 0 -> Q (Err EmptyFrame) RequestDecoder.new) /\
    (MAX_FRAME_LENGTH < n -> Q (Err FrameTooLarge) RequestDecoder.new) /\
    (0 < n <= MAX_FRAME_LENGTH ->
     Q (Ok (Some (n, rest))) {| buffer := []; expected_body_length := Some n |})) ->
  wp (RequestDecoder.read_header bytes) d Q.
Proof.
  intros Hexp Hlen Hshort Hfull.
  unfold RequestDecoder.read_header, RequestDecoder.extend, RequestDecoder.clear.
  wp_step. wp_step; [lia|]. do 2 wp_step. cbn [buffer expected_body_length]. rewrite Hexp.
  destruct (N.lt_ge_cases (len (buffer d ++ bytes)) FRAME_HEADER_LENGTH) as [Hs|Hs].
  - rewrite (fill_short _ _ _ Hlen Hs), prefix_to_all.
    rewrite (proj2 (N.ltb_lt _ _)) by done. apply wp_ret. auto.
  - destruct (fill_full _ _ _ Hlen Hs) as (a & rest & -> & Ha & ->).
    rewrite prefix_to_app, suffix_from_app.
    assert (len (buffer d ++ a) = FRAME_HEADER_LENGTH) as Hh by (rewrite len_app; lia).
    rewrite (proj2 (N.ltb_ge _ _)) by lia. cbv iota.
    wp_step. exists (buffer d ++ a). split; [by apply slice_get_all|]. wp_step.
    cbn [buffer expected_body_length].
    destruct (Hfull (from_be_bytes (buffer d ++ a)) rest) as (H0 & Hmax & Hok).
    { by rewrite be4_inv, app_assoc. }
    { by apply be4_bound. }
    { rewrite len_app. unfold FRAME_HEADER_LENGTH in *. lia. }
    cbv zeta. wp_steps; rewrite ?N.eqb_eq, ?N.eqb_neq, ?N.ltb_lt, ?N.ltb_ge in *; auto.
    apply Hok. lia.
Qed.

Lemma wp_read_body d n bytes
    (Q : result (option (Request * list byte)) CodecError -> RequestDecoder -> Prop) :
  expected_body_length d = Some n -> len (buffer d) < n ->
  (len (buffer d ++ bytes) < n ->
   Q (Ok None) {| buffer := buffer d ++ bytes; expected_body_length := Some n |}) ->
  (forall body rest, buffer d ++ bytes = body ++ rest -> len body = n -> len rest < len bytes ->
    match decode_request body with
    | Err e => Q (Err e) RequestDecoder.new
    | Ok r => Q (Ok (Some (r, rest))) RequestDecoder.new
    end) ->
  wp (RequestDecoder.read_body n bytes) d Q.
Proof.
  intros Hexp Hlen Hshort Hfull.
  unfold RequestDecoder.read_body, RequestDecoder.extend, RequestDecoder.clear.
  wp_step. wp_step; [lia|]. do 2 wp_step. cbn [buffer expected_body_length]. rewrite Hexp.
  destruct (N.lt_ge_cases (len (buffer d ++ bytes)) n) as [Hs|Hs].
  - rewrite (fill_short _ _ _ Hlen Hs), prefix_to_all.
    rewrite (proj2 (N.ltb_lt _ _)) by done. apply wp_ret. auto.
  - destruct (fill_full _ _ _ Hlen Hs) as (a & rest & -> & Ha & ->).
    rewrite prefix_to_app, suffix_from_app.
    assert (len (buffer d ++ a) = n) as Hh by (rewrite len_app; lia).
    rewrite (proj2 (N.ltb_ge _ _)) by lia. cbv iota zeta. wp_step.
    specialize (Hfull (buffer d ++ a) rest). rewrite <-app_assoc, !len_app in Hfull.
    rewrite len_app in Hh. specialize (Hfull eq_refl Hh ltac:(lia)).
    destruct (decode_request _); by wp_steps.
Qed.

(** What a run of the loop returns: the requests of complete frames, and
    the decoder in the middle of the next one; or the first refusal. *)
Definition push_result (s : list byte) (reqs : list Request)
    (r : result (list Request) CodecError) (d : RequestDecoder) : Prop :=
  exists bodies rs,
    Forall2 (fun body r => decode_request body = Ok r) bodies rs /\
    match r with
    | Ok out => out = reqs ++ rs /\ decoder_ok d /\
                s = concat (frame <$> bodies) ++ carried d
    | Err e => d = RequestDecoder.new /\
               exists rest, s = concat (frame <$> bodies) ++ rest /\ bad_stream rest e
    end.

Lemma push_result_now s reqs d :
  decoder_ok d -> s = carried d -> push_result s reqs (Ok reqs) d.
Proof. intros Hd ->. exists [], []. split; [constructor|]. by rewrite app_nil_r. Qed.

Lemma push_result_bad s reqs e :
  bad_stream s e -> push_result s reqs (Err e) RequestDecoder.new.
Proof. intros Hb. exists [], []. split; [constructor|]. split; [done|]. by exists s. Qed.

Lemma push_result_cons s body q rest reqs r d :
  s = frame body ++ rest -> decode_request body = Ok q ->
  push_result rest (reqs ++ [q]) r d -> push_result s reqs r d.
Proof.
  intros -> Hq (bodies & rs & Hall & Hr). exists (body :: bodies), (q :: rs).
  split; [by constructor|]. cbn [fmap list_fmap concat]. destruct r as [out|e].
  - destruct Hr as (-> & Hd & ->). by rewrite <-!app_assoc.
  - destruct Hr as (-> & rest' & -> & Hb). split; [done|]. exists rest'.
    by rewrite <-!app_assoc.
Qed.

(** The body of the current frame and everything after it. *)
Lemma push_body_spec fuel n bytes d reqs s :
  0 < n <= MAX_FRAME_LENGTH -> expected_body_length d = Some n -> len (buffer d) < n ->
  s = to_be_bytes 4 n ++ buffer d ++ bytes ->
  (forall rest reqs, len rest < len bytes ->
    wp (RequestDecoder.push_loop fuel rest reqs) RequestDecoder.new (push_result rest reqs)) ->
  wp (let! body := RequestDecoder.read_body n bytes in
      match body with
      | None => ret reqs
      | Some (request, bytes) =>
        let requests := reqs ++ [request] in
        if is_empty bytes then ret requests else RequestDecoder.push_loop fuel bytes requests
      end) d (push_result s reqs).
Proof.
  intros Hn Hexp Hlen Hs IH. apply wp_bind, wp_read_body; [done|done| |].
  - intros Hshort. apply wp_ret, push_result_now; [by split|by rewrite Hs].
  - intros body rest Heq Hb Hrest. rewrite Heq in Hs.
    destruct (decode_request body) as [q|e] eqn:Hdec.
    + assert (s = frame body ++ rest) as Hs' by (by rewrite Hs, <-Hb; unfold frame; rewrite <-app_assoc).
      cbv zeta. destruct rest as [|x rest]; cbn [is_empty].
      * apply wp_ret. eapply push_result_cons; [exact Hs'|exact Hdec|].
        by apply push_result_now.
      * eapply wp_mono; [by apply IH|]. intros r d'. by apply push_result_cons with body.
    + apply push_result_bad. exists n, (body ++ rest). split; [done|].
      split; [unfold U32_MAX, MAX_FRAME_LENGTH in *; lia|]. right; right. by exists body, rest.
Qed.

Lemma push_loop_spec fuel bytes d reqs :
  decoder_ok d -> len bytes < N.of_nat fuel ->
  wp (RequestDecoder.push_loop fuel bytes reqs) d (push_result (carried d ++ bytes) reqs).
Proof.
  revert bytes d reqs. induction fuel as [|fuel IH]; intros bytes d reqs Hd Hfuel; [lia|].
  assert (IH' : forall rest reqs, len rest < len bytes ->
    wp (RequestDecoder.push_loop fuel rest reqs) RequestDecoder.new (push_result rest reqs)).
  { intros rest reqs' Hr. apply (IH rest RequestDecoder.new reqs'); [done|lia]. }
  cbn [RequestDecoder.push_loop]. wp_step. unfold decoder_ok in Hd. unfold carried.
  destruct (expected_body_length d) as [n|] eqn:Hexp.
  - wp_step. destruct Hd as [Hn Hlen]. apply push_body_spec; [done..| |done].
    by rewrite <-app_assoc.
  - apply wp_bind, wp_read_header; [done|done| |].
    + intros Hshort. by apply wp_ret, push_result_now.
    + intros n rest Heq Hmax Hrest. rewrite Heq. split_and!; intros Hn.
      * apply push_result_bad. exists n, rest. split_and!; [done|done|]. by left.
      * apply push_result_bad. exists n, rest. split_and!; [done|done|]. by right; left.
      * apply push_body_spec; [done|done|cbn; unfold len; cbn; lia|done|].
        intros rest' reqs' Hr. apply IH'. lia.
Qed.

Lemma encode_request_frame `{!JsonLaws Request J} r f :
  encode_request r = Ok f -> req_version r = PROTOCOL_VERSION ->
  exists body, f = frame body /\ 0 < len body <= MAX_FRAME_LENGTH /\ decode_request body = Ok r.
Proof.
  intros Henc Hv. unfold encode_request, encode in Henc.
  destruct (to_vec r) as [body|] eqn:Hto; [|done].
  destruct (is_empty body) eqn:Hemp; [done|].
  destruct (N.ltb_spec MAX_FRAME_LENGTH (len body)) as [|Hlen]; [done|].
  unfold u32_try_from in Henc. destruct (_ <=? _); [|done]. apply Ok_inj in Henc as <-.
  exists body. split_and!; [done| |done|].
  - destruct body; [done|]. rewrite len_cons. lia.
  - unfold decode_request, decode. rewrite Hemp, (proj2 (N.ltb_ge _ _)) by done.
    rewrite (from_to_vec r body Hto). cbn [version Request_Versioned]. by rewrite Hv.
Qed.

(** The frames of a stream are determined by its bytes. *)
Lemma frame_app_inj b1 b2 x y :
  len b1 <= U32_MAX -> len b2 <= U32_MAX -> frame b1 ++ x = frame b2 ++ y -> b1 = b2 /\ x = y.
Proof.
  intros H1 H2 Heq. unfold frame in Heq. rewrite <-!app_assoc in Heq.
  assert (to_be_bytes 4 (len b1) = to_be_bytes 4 (len b2) /\ b1 ++ x = b2 ++ y) as [Hh Hb].
  { apply app_inj_1; [by rewrite !length_to_be_bytes|done]. }
  apply to_be_bytes_inj in Hh; [|unfold U32_MAX in *; cbn; lia..].
  apply app_inj_1; [unfold len in Hh; lia|done].
Qed.

Lemma frame_nonempty b x : frame b ++ x <> [].
Proof.
  intros Heq%(f_equal len). rewrite len_nil in Heq. unfold frame in Heq.
  rewrite !len_app, len_to_be_bytes in Heq. lia.
Qed.

Definition small (body : list byte) : Prop := 0 < len body <= MAX_FRAME_LENGTH.

Lemma small_u32 b : small b -> len b <= U32_MAX.
Proof. unfold small, MAX_FRAME_LENGTH, U32_MAX. lia. Qed.

Lemma decoded_small b r : decode_request b = Ok r -> small b.
Proof.
  unfold decode_request, decode, small. destruct b; [done|]. cbn [is_empty].
  destruct (N.ltb_spec MAX_FRAME_LENGTH (len (b :: b0))) as [|Hlen]; [done|]. intros _.
  rewrite len_cons in *. lia.
Qed.

Lemma frames_prefix bodies bodies2 x :
  Forall small bodies -> Forall small bodies2 ->
  concat (frame <$> bodies) ++ x = concat (frame <$> bodies2) ->
  exists more, bodies2 = bodies ++ more /\ x = concat (frame <$> more).
Proof.
  intros Hb. revert bodies2. induction Hb as [|b bodies Hb Hbs IH]; intros bodies2 Hb2 Heq.
  { by exists bodies2. }
  cbn [fmap list_fmap concat] in Heq. rewrite <-app_assoc in Heq.
  destruct Hb2 as [|b2 bodies2 Hb2 Hbs2].
  { by apply frame_nonempty in Heq. }
  cbn [fmap list_fmap concat] in Heq.
  apply frame_app_inj in Heq as [<- Heq]; [|by apply small_u32..].
  destruct (IH bodies2 Hbs2 Heq) as (more & -> & ->). by exists more.
Qed.

Lemma good_stream_not_bad bodies rs e rest tail :
  Forall2 (fun body r => decode_request body = Ok r) bodies rs ->
  rest ++ tail = concat (frame <$> bodies) -> ~ bad_stream rest e.
Proof.
  intros Hall Heq (n & s & -> & Hn & Hbad). destruct Hall as [|b r bodies rs Hb Hall].
  { apply (f_equal len) in Heq. cbn in Heq. rewrite !len_app, len_to_be_bytes, len_nil in Heq. lia. }
  pose proof (decoded_small _ _ Hb) as Hs. cbn [fmap list_fmap concat] in Heq.
  unfold frame in Heq at 1. rewrite <-!app_assoc in Heq.
  assert (to_be_bytes 4 n = to_be_bytes 4 (len b) /\
          s ++ tail = b ++ concat (frame <$> bodies)) as [Hh Hrest].
  { apply app_inj_1; [by rewrite !length_to_be_bytes|done]. }
  pose proof (small_u32 _ Hs) as Hb32. unfold small in Hs.
  apply to_be_bytes_inj in Hh; [|unfold U32_MAX in *; cbn; lia..]. subst n.
  destruct Hbad as [[? _]|[[? _]|(body & rest' & -> & Hl & Hd)]]; [lia|lia|].
  rewrite <-app_assoc in Hrest. apply app_inj_1 in Hrest as [-> _]; [congruence|].
  unfold len in Hl. lia.
Qed.

Lemma decoded_functional bodies rs rs' :
  Forall2 (fun body r => decode_request body = Ok r) bodies rs ->
  Forall2 (fun body r => decode_request body = Ok r) bodies rs' -> rs = rs'.
Proof.
  intros H. revert rs'. induction H as [|b r bodies rs Hb _ IH]; intros rs' H';
    inversion H' as [|? ? ? ? Hb' H'' ]; subst; [done|]. f_equal; [congruence|auto].
Qed.

Lemma decoder_idle d : decoder_ok d -> carried d = [] -> d = RequestDecoder.new.
Proof.
  destruct d as [b [n|]]; unfold decoder_ok, carried; cbn.
  - intros _ Heq%(f_equal len). rewrite len_app, len_to_be_bytes, len_nil in Heq. lia.
  - by intros _ ->.
Qed.

(** Pushing chunk after chunk, as a reader does. *)
Fixpoint push_all (chunks : list (list byte)) (d : RequestDecoder)
  : outcome (result (list Request) CodecError * RequestDecoder) :=
  match chunks with
  | [] => Ret (Ok [], d)
  | chunk :: chunks =>
    match RequestDecoder.push chunk d with
    | Ret (Ok rs, d) =>
      match push_all chunks d with
      | Ret (Ok rs', d) => Ret (Ok (rs ++ rs'), d)
      | other => other
      end
    | other => other
    end
  end.

Lemma push_spec bytes d :
  decoder_ok d -> wp (RequestDecoder.push bytes) d (push_result (carried d ++ bytes) []).
Proof. intros Hd. apply push_loop_spec; [done|]. unfold len. lia. Qed.

Lemma push_all_spec chunks d bodies rs :
  decoder_ok d -> Forall2 (fun body r => decode_request body = Ok r) bodies rs ->
  carried d ++ concat chunks = concat (frame <$> bodies) ->
  push_all chunks d = Ret (Ok rs, RequestDecoder.new).
Proof.
  revert d bodies rs. induction chunks as [|chunk chunks IH]; intros d bodies rs Hd Hall Heq;
    cbn [push_all concat] in *.
  { rewrite app_nil_r in Heq. destruct Hall as [|b r bodies rs Hb Hall].
    - by rewrite (decoder_idle d).
    - pose proof (decoded_small _ _ Hb) as Hs. exfalso. unfold decoder_ok, carried in *.
      apply (f_equal len) in Heq as Hl. cbn [fmap list_fmap concat] in *.
      unfold frame in Hl at 1. rewrite !len_app, len_to_be_bytes in Hl. unfold small in Hs.
      destruct (expected_body_length d) as [n|]; [|unfold FRAME_HEADER_LENGTH in Hd; lia].
      unfold frame in Heq at 1. rewrite <-app_assoc in Heq.
      apply app_inj_1 in Heq as [Hh _]; [|by rewrite !length_to_be_bytes].
      apply to_be_bytes_inj in Hh; [|unfold MAX_FRAME_LENGTH in *; cbn; lia..].
      rewrite len_app, len_to_be_bytes in Hl. lia. }
  destruct (wp_run _ _ _ (push_spec chunk d Hd)) as (r & d' & -> & bodies1 & rs1 & Hall1 & Hr).
  rewrite app_assoc in Heq.
  assert (Forall small bodies1) as Hs1.
  { eapply Forall2_Forall_l; [exact Hall1|]. apply Forall_true. intros q b. apply decoded_small. }
  assert (Forall small bodies) as Hs.
  { eapply Forall2_Forall_l; [exact Hall|]. apply Forall_true. intros q b. apply decoded_small. }
  destruct r as [out|e].
  - destruct Hr as (-> & Hd' & Hs'). rewrite Hs', <-app_assoc in Heq.
    apply frames_prefix in Heq as (more & -> & Heq); [|done..].
    apply Forall2_app_inv_l in Hall as (rs1' & rs2 & Hall1' & Hall2 & ->).
    assert (rs1' = rs1) as -> by (by eapply decoded_functional).
    by rewrite (IH d' more rs2).
  - destruct Hr as (_ & rest & Hs' & Hbad). rewrite Hs', <-app_assoc in Heq.
    apply frames_prefix in Heq as (more & -> & Heq); [|done..].
    apply Forall2_app_inv_l in Hall as (rs1' & rs2 & Hall1' & Hall2 & ->).
    by apply (good_stream_not_bad _ _ _ _ _ Hall2 Heq) in Hbad.
Qed.

(** Framing on any input: pushing bytes always returns, with a decoder
    that holds less than one frame; it returns exactly the requests of the
    complete frames of the stream and keeps the rest, or, at the first
    frame that is empty, oversized or not a valid request, reports that
    error and forgets everything. *)
Theorem request_push bytes d :
  decoder_ok d ->
  exists r d', RequestDecoder.push bytes d = Ret (r, d') /\ decoder_ok d' /\
    len (carried d') < FRAME_HEADER_LENGTH + MAX_FRAME_LENGTH /\
    push_result (carried d ++ bytes) [] r d'.
Proof.
  intros Hd. destruct (wp_run _ _ _ (push_spec bytes d Hd)) as (r & d' & Hrun & Hr).
  exists r, d'. split; [done|].
  assert (decoder_ok d') as Hd'.
  { destruct Hr as (bodies & rs & _ & Hr). destruct r; [by destruct Hr as (_ & ? & _)|].
    by destruct Hr as (-> & _). }
  split_and!; [done| |done]. unfold decoder_ok, carried in *.
  destruct (expected_body_length d'); rewrite ?len_app, ?len_to_be_bytes;
    unfold FRAME_HEADER_LENGTH, MAX_FRAME_LENGTH in *; lia.
Qed.

(** Stream round trip: the encodings of any requests, concatenated and
    cut into chunks in any way, decode to exactly those requests in order
    and leave the decoder empty. *)
Theorem request_stream `{!JsonLaws Request J} rs encs chunks :
  Forall2 (fun r f => encode_request r = Ok f) rs encs ->
  Forall (fun r => req_version r = PROTOCOL_VERSION) rs ->
  concat chunks = concat encs ->
  push_all chunks RequestDecoder.new = Ret (Ok rs, RequestDecoder.new).
Proof.
  intros Henc Hv Heq.
  assert (exists bodies, encs = frame <$> bodies /\
    Forall2 (fun body r => decode_request body = Ok r) bodies rs) as (bodies & -> & Hall).
  { clear Heq. induction Henc as [|r f rs encs Hf _ IH]; [by exists []|].
    apply Forall_cons in Hv as [Hr Hv]. destruct (IH Hv) as (bodies & -> & Hall).
    destruct (encode_request_frame r f Hf Hr) as (body & -> & _ & Hd).
    exists (body :: bodies). split; [done|by constructor]. }
  by apply (push_all_spec chunks RequestDecoder.new bodies).
Qed.
End codec.
