(* ===== verification/TrafficHost.v ===== *)
(** The transactional lifecycle of privileged traffic hosts
    ([velum-desktop-traffic-host/src/lib.rs]).

    The two traits of the source are classes over the state of the machine
    the host runs on; [JournalLaws] and [BackendLaws] are what the host
    relies on. The file [Journal] implements the first. *)
From S2P Require Import Prelude Net HelperProtocol.

Definition MAX_CACHED_RESPONSES : N := 256.

Record RecoveryRecord := { rec_profile_generation : N; configuration : StartParameters }.

Inductive HostFailure := FailureInvalidConfiguration | FailurePlatform | FailureJournal.

(** ** Interfaces *)
Class RecoveryJournal (W : Type) := {
  journal_load : W -> result (option RecoveryRecord) HostFailure;
  journal_write : RecoveryRecord -> W -> result unit HostFailure * W;
  journal_clear : W -> result unit HostFailure * W
}.

Class PlatformBackend (W : Type) := {
  backend_start : StartParameters -> W -> result unit HostFailure * W;
  backend_stop : W -> result unit HostFailure * W;
  backend_recover : RecoveryRecord -> W -> result unit HostFailure * W
}.

(** The record a journal durably holds. A failed write or clear may have
    taken effect or not; a load that succeeds returns it. *)
Class JournalLaws (W : Type) (J : RecoveryJournal W) := {
  stored : W -> option RecoveryRecord;
  load_stored : forall w o, journal_load w = Ok o -> o = stored w;
  write_stored : forall r w, match journal_write r w with
    | (Ok _, w') => stored w' = Some r
    | (Err _, w') => stored w' = stored w \/ stored w' = Some r
    end;
  clear_stored : forall w, match journal_clear w with
    | (Ok _, w') => stored w' = None
    | (Err _, w') => stored w' = stored w \/ stored w' = None
    end
}.

(** What is installed on the platform. A stop or a recovery that succeeds
    leaves nothing installed, a stop that fails installs nothing new; a start
    may leave anything, even when it fails; the backend does not touch the
    journal, nor the journal the platform. *)
Class BackendLaws (W : Type) (J : RecoveryJournal W) (B : PlatformBackend W)
    (L : JournalLaws W J) := {
  installed : W -> Prop;
  start_stored : forall c w, stored (backend_start c w).2 = stored w;
  stop_stored : forall w, stored (backend_stop w).2 = stored w;
  recover_stored : forall r w, stored (backend_recover r w).2 = stored w;
  stop_installed : forall w, (backend_stop w).1 = Ok tt -> ~ installed (backend_stop w).2;
  recover_installed : forall r w,
    (backend_recover r w).1 = Ok tt -> ~ installed (backend_recover r w).2;
  stop_installed_before : forall w, installed (backend_stop w).2 -> installed w;
  write_installed : forall r w, installed (journal_write r w).2 -> installed w;
  clear_installed : forall w, installed (journal_clear w).2 -> installed w
}.

(** ** Validation *)
Definition valid_network (network : IpNetwork) : bool :=
  match address network with
  | V4 _ => prefix_length network <=? 32
  | V6 _ => prefix_length network <=? 128
  end.

Definition is_none {A} (o : option A) : bool := match o with None => true | Some _ => false end.
Definition to_list {A} (o : option A) : list A := match o with None => [] | Some a => [a] end.

Definition valid_configuration (configuration : StartParameters) : bool :=
  if negb ((576 <=? mtu configuration) && (mtu configuration <=? 9000))
     || (is_none (ipv4 configuration) && is_none (ipv6 configuration))
     || is_empty (dns configuration)
     || (16 <? len (dns configuration))
  then false
  else forallb valid_network (to_list (ipv4 configuration) ++ to_list (ipv6 configuration)).

(** ** The host

    The backend and the journal are owned by the host; their state is the
    machine's. *)
Record TrafficHost (W : Type) := {
  machine : W;
  capabilities : gset Capability;
  state : HostState;
  generation : N;
  recovery_required : bool;
  responses : gmap N Response
}.
Arguments machine {W} _.
Arguments capabilities {W} _.
Arguments state {W} _.
Arguments generation {W} _.
Arguments recovery_required {W} _.
Arguments responses {W} _.

Module TrafficHost.
Section host.
Context {W : Type} `{J : RecoveryJournal W, B : PlatformBackend W}.

Definition new (machine : W) (capabilities : gset Capability)
  : result (TrafficHost W) HostFailure :=
  match journal_load machine with
  | Err failure => Err failure
  | Ok record =>
    let recovery_required := negb (is_none record) in
    Ok {| machine := machine; capabilities := capabilities;
          state := if recovery_required then Recovering else Stopped;
          generation := 0; recovery_required := recovery_required; responses := ∅ |}
  end.

Definition set_state (st : HostState) (h : TrafficHost W) : TrafficHost W :=
  {| machine := machine h; capabilities := capabilities h; state := st;
     generation := generation h; recovery_required := recovery_required h;
     responses := responses h |}.
Definition set_generation (g : N) (h : TrafficHost W) : TrafficHost W :=
  {| machine := machine h; capabilities := capabilities h; state := state h;
     generation := g; recovery_required := recovery_required h; responses := responses h |}.
Definition set_recovery_required (b : bool) (h : TrafficHost W) : TrafficHost W :=
  {| machine := machine h; capabilities := capabilities h; state := state h;
     generation := generation h; recovery_required := b; responses := responses h |}.
Definition set_machine (w : W) (h : TrafficHost W) : TrafficHost W :=
  {| machine := w; capabilities := capabilities h; state := state h;
     generation := generation h; recovery_required := recovery_required h;
     responses := responses h |}.
Definition set_responses (m : gmap N Response) (h : TrafficHost W) : TrafficHost W :=
  {| machine := machine h; capabilities := capabilities h; state := state h;
     generation := generation h; recovery_required := recovery_required h; responses := m |}.

(** [self.backend] and [self.journal] calls, as computations of the host. *)
Definition run {E} (f : W -> result unit HostFailure * W) : M (TrafficHost W) E bool := fun h =>
  let '(r, w) := f (machine h) in Ret (Ok (is_ok r), set_machine w h).

(** A command never fails with an error of its own: the error code is part
    of the result. *)
Definition H := M (TrafficHost W) Empty_set.

Definition recover : H CommandResult :=
  modify (set_state Recovering) ;!
  let! self := get in
  match journal_load (machine self) with
  | Ok (Some record) =>
    let! recovered := run (backend_recover record) in
    let! cleared := if recovered then run journal_clear else ret false in
    if negb (recovered && cleared) then
      modify (set_recovery_required true) ;!
      ret (CommandErr PlatformCode)
    else
      modify (fun self => set_generation
        (N.max (generation self) (rec_profile_generation record)) self) ;!
      modify (set_recovery_required false) ;!
      modify (set_state Stopped) ;!
      ret (CommandOk SuccessRecovered)
  | Ok None =>
    modify (set_recovery_required false) ;!
    modify (set_state Stopped) ;!
    ret (CommandOk SuccessRecovered)
  | Err _ => ret (CommandErr PlatformCode)
  end.

Definition start (request : Request) (configuration : StartParameters) : H CommandResult :=
  let! self := get in
  if recovery_required self then ret (CommandErr RecoveryRequired)
  else if negb (valid_configuration configuration) then ret (CommandErr InvalidConfiguration)
  else if bool_decide (state self = Starting) || bool_decide (state self = Stopping)
  then ret (CommandErr Busy)
  else if bool_decide (state self = Running)
          && (req_profile_generation request =? generation self)
  then ret (CommandOk SuccessStarted)
  else
    let record := {| rec_profile_generation := req_profile_generation request;
                     configuration := configuration |} in
    let! written := run (journal_write record) in
    if negb written then modify (set_state Failed) ;! ret (CommandErr PlatformCode)
    else
      modify (set_state Starting) ;!
      let! started := run (backend_start configuration) in
      if negb started then
        modify (set_state Recovering) ;!
        modify (set_recovery_required true) ;!
        ret (CommandErr PlatformCode)
      else
        modify (set_generation (req_profile_generation request)) ;!
        modify (set_state Running) ;!
        ret (CommandOk SuccessStarted).

Definition stop (request : Request) : H CommandResult :=
  let! self := get in
  if recovery_required self then ret (CommandErr RecoveryRequired)
  else if bool_decide (state self = Stopped) then ret (CommandOk SuccessStopped)
  else
    modify (set_state Stopping) ;!
    let! stopped := run backend_stop in
    let! cleared := if stopped then run journal_clear else ret false in
    if negb (stopped && cleared) then
      modify (set_state Recovering) ;!
      modify (set_recovery_required true) ;!
      ret (CommandErr PlatformCode)
    else
      modify (fun self => set_generation
        (N.max (generation self) (req_profile_generation request)) self) ;!
      modify (set_state Stopped) ;!
      ret (CommandOk SuccessStopped).

Definition execute (request : Request) : H CommandResult :=
  match command request with
  | Hello => ret (CommandOk SuccessHello)
  | Status => let! self := get in ret (CommandOk (SuccessStatus (state self)))
  | Recover => recover
  | Start configuration => start request configuration
  | Stop => stop request
  end.

(** The eviction loop of [cache]; each iteration removes an entry, so the
    number of entries is enough fuel. *)
Fixpoint evict (fuel : nat) (m : gmap N Response) : gmap N Response :=
  match fuel with
  | O => m
  | S fuel =>
    if MAX_CACHED_RESPONSES <? N.of_nat (size m) then
      match keys m with
      | [] => m
      | oldest :: _ => evict fuel (delete oldest m)
      end
    else m
  end.

Definition cache (response : Response) : H unit :=
  modify (fun self =>
    let responses := <[resp_request_id response := response]> (responses self) in
    set_responses (evict (size responses) responses) self).

Definition handle (request : Request) : H Response :=
  let! self := get in
  match responses self !! req_request_id request with
  | Some response => ret response
  | None =>
    let! result :=
      if negb (req_version request =? PROTOCOL_VERSION)
      then ret (CommandErr UnsupportedVersionCode)
      else if negb (bool_decide (req_capabilities request ⊆ capabilities self))
      then ret (CommandErr UnsupportedCapability)
      else if req_profile_generation request <? generation self
      then ret (CommandErr GenerationConflict)
      else execute request in
    let! self := get in
    let response := {| resp_version := PROTOCOL_VERSION;
                       resp_request_id := req_request_id request;
                       resp_profile_generation := req_profile_generation request;
                       resp_capabilities := capabilities self;
                       response := result |} in
    cache response ;!
    ret response
  end.
End host.
End TrafficHost.

(** ** Invariant *)
Section invariant.
Context {W : Type} `{BL : BackendLaws W}.
Implicit Types (h : TrafficHost W) (w : W).

(** Whatever is installed, the journal knows how to undo. *)
Definition recoverable w : Prop := installed w -> stored w <> None.

Record host_ok h : Prop := {
  ho_machine : recoverable (machine h);
  ho_observable : state h <> Starting /\ state h <> Stopping;
  ho_stopped : state h = Stopped ->
    ~ installed (machine h) /\ recovery_required h = false;
  ho_running : state h = Running -> exists r,
    stored (machine h) = Some r /\ rec_profile_generation r = generation h;
  ho_required : recovery_required h = true -> state h = Recovering;
  ho_responses : N.of_nat (size (responses h)) <= MAX_CACHED_RESPONSES
}.

(** What the execution of a command leaves alone. *)
Definition same_frame h h' : Prop :=
  responses h' = responses h /\ capabilities h' = capabilities h /\
  generation h <= generation h'.

Lemma new_ok w caps h : recoverable w -> TrafficHost.new w caps = Ok h -> host_ok h.
Proof.
  intros Hw. unfold TrafficHost.new. destruct (journal_load w) as [o|] eqn:Hl; [|done].
  apply load_stored in Hl. intros [= <-]. destruct o as [r|]; cbn.
  - by constructor.
  - constructor; cbn; try done.
    intros _. split; [|done]. intros Hi. by apply Hw in Hi.
Qed.

Lemma wp_machine {E A} (f : W -> result unit HostFailure * W)
    (k : bool -> M (TrafficHost W) E A) h Q :
  (forall r w, f (machine h) = (r, w) -> wp (k (is_ok r)) (TrafficHost.set_machine w h) Q) ->
  wp (bind (TrafficHost.run f) k) h Q.
Proof.
  intros Hk. apply wp_bind. unfold TrafficHost.run, wp at 1.
  destruct (f (machine h)) as [r w]. by apply Hk.
Qed.

Lemma write_recoverable r w : recoverable w -> recoverable (journal_write r w).2.
Proof.
  intros Hw Hi%write_installed. pose proof (write_stored r w) as Hs. specialize (Hw Hi).
  destruct (journal_write r w) as [[[]|] w']; cbn; [congruence|].
  destruct Hs as [->| ->]; [done|congruence].
Qed.

Lemma clear_recoverable w : ~ installed w -> ~ installed (journal_clear w).2.
Proof. intros Hw Hi. by apply Hw, clear_installed. Qed.

Lemma is_ok_Ok {A E} (r : result A E) : is_ok r = true -> exists a, r = Ok a.
Proof. destruct r; [by eexists|done]. Qed.

Lemma start_ok h req c :
  host_ok h -> generation h <= req_profile_generation req ->
  wp (TrafficHost.start req c) h (fun r h' => host_ok h' /\ same_frame h h').
Proof.
  intros HI Hg. assert (host_ok h /\ same_frame h h) as Hsame by (split; [done|by repeat split]).
  unfold TrafficHost.start. wp_steps; try done.
  match goal with H : recovery_required h = false |- _ => rename H into Hreq end.
  apply wp_machine. intros r w Hw.
  pose proof (write_stored {| rec_profile_generation := req_profile_generation req;
                              configuration := c |} (machine h)) as Hs.
  pose proof (write_recoverable {| rec_profile_generation := req_profile_generation req;
                                   configuration := c |} _ (ho_machine _ HI)) as Hrec.
  rewrite Hw in Hs, Hrec. cbn [snd] in Hrec. destruct r as [[]|]; cbn [is_ok negb].
  - wp_step. apply wp_machine. cbn [TrafficHost.set_machine TrafficHost.set_state machine].
    intros r w' Hw'. pose proof (start_stored c w) as Hst. rewrite Hw' in Hst. cbn [snd] in Hst.
    assert (recoverable w') as Hrec' by (intros _; congruence).
    destruct r as [[]|]; cbn [is_ok negb]; wp_steps; (split; [|by repeat split]).
    + constructor; cbn; try done; [intros _; rewrite Hst; by eexists|by rewrite Hreq|by destruct HI].
    + constructor; cbn; try done. by destruct HI.
  - wp_steps. split; [|by repeat split].
    constructor; cbn; try done; [by rewrite Hreq|by destruct HI].
Qed.

(** The end of [stop] and [recover]: the backend succeeded and the journal
    is cleared. *)
Lemma clear_after w r w' :
  ~ installed w -> journal_clear w = (r, w') -> ~ installed w' /\ recoverable w'.
Proof.
  intros Hw Heq. pose proof (clear_recoverable w Hw) as Hi. rewrite Heq in Hi.
  split; [done|]. by intros ?.
Qed.

Lemma stop_ok h req :
  host_ok h -> wp (TrafficHost.stop req) h (fun r h' => host_ok h' /\ same_frame h h').
Proof.
  intros HI. assert (host_ok h /\ same_frame h h) as Hsame by (split; [done|by repeat split]).
  unfold TrafficHost.stop. wp_steps; try done.
  match goal with H : recovery_required h = false |- _ => rename H into Hreq end.
  apply wp_machine. cbn [TrafficHost.set_state machine]. intros r w Hw.
  pose proof (stop_stored (machine h)) as Hst. rewrite Hw in Hst. cbn [snd] in Hst.
  pose proof (stop_installed (machine h)) as Hok. pose proof (stop_installed_before (machine h)) as Hbef.
  rewrite Hw in Hok, Hbef. cbn [fst snd] in Hok, Hbef.
  destruct r as [[]|]; cbn [is_ok].
  - apply wp_machine. cbn [TrafficHost.set_machine TrafficHost.set_state machine].
    intros r w' Hw'. destruct (clear_after w r w') as [Hni Hrec]; [auto|done|].
    destruct r as [[]|]; cbn [is_ok negb andb]; wp_steps;
      (split; [|repeat split; cbn; lia]); constructor; cbn; try done;
      first [by rewrite Hreq|by destruct HI].
  - wp_step. cbn [negb andb]. wp_steps. split; [|by repeat split].
    constructor; cbn; try done; [|by destruct HI].
    intros Hi. rewrite Hst. by apply (ho_machine _ HI), Hbef.
Qed.

Lemma recover_ok h :
  host_ok h -> wp TrafficHost.recover h (fun r h' => host_ok h' /\ same_frame h h').
Proof.
  intros HI. unfold TrafficHost.recover. do 2 wp_step.
  cbn [TrafficHost.set_state machine].
  destruct (journal_load (machine h)) as [[record|]|] eqn:Hl.
  - apply load_stored in Hl. apply wp_machine. cbn [TrafficHost.set_state machine].
    intros r w Hw. pose proof (recover_stored record (machine h)) as Hst.
    pose proof (recover_installed record (machine h)) as Hok.
    rewrite Hw in Hst, Hok. cbn [fst snd] in Hst, Hok. rewrite <-Hl in Hst.
    destruct r as [[]|]; cbn [is_ok].
    + apply wp_machine. cbn [TrafficHost.set_machine TrafficHost.set_state machine].
      intros r w' Hw'. destruct (clear_after w r w') as [Hni Hrec]; [auto|done|].
      destruct r as [[]|]; cbn [is_ok negb andb]; wp_steps;
        (split; [|repeat split; cbn; lia]); constructor; cbn; try done; by destruct HI.
    + wp_step. cbn [negb andb]. wp_steps. split; [|by repeat split].
      constructor; cbn; try done; [|by destruct HI]. intros _. congruence.
  - apply load_stored in Hl. wp_steps. split; [|by repeat split].
    constructor; cbn; try done; [by destruct HI| |by destruct HI].
    intros _. split; [|done]. intros Hi. by apply (ho_machine _ HI) in Hi.
  - wp_steps. split; [|by repeat split]. constructor; cbn; try done; by destruct HI.
Qed.

Lemma execute_ok h req :
  host_ok h -> generation h <= req_profile_generation req ->
  wp (TrafficHost.execute req) h (fun r h' => host_ok h' /\ same_frame h h').
Proof.
  intros HI Hg. unfold TrafficHost.execute.
  destruct (command req); wp_steps; try (split; [done|by repeat split]).
  - by apply start_ok.
  - by apply stop_ok.
  - by apply recover_ok.
Qed.
End invariant.

(** ** The response cache *)
Lemma evict_small fuel m : N.of_nat (size m) <= MAX_CACHED_RESPONSES -> TrafficHost.evict fuel m = m.
Proof.
  intros Hm. destruct fuel; cbn [TrafficHost.evict]; [done|].
  by rewrite (proj2 (N.ltb_ge _ _)).
Qed.

(** One entry too many: the one with the smallest key goes. *)
Lemma evict_one m :
  N.of_nat (size m) = MAX_CACHED_RESPONSES + 1 ->
  exists k, is_Some (m !! k) /\ (forall i, is_Some (m !! i) -> k <= i) /\
    TrafficHost.evict (size m) m = delete k m.
Proof.
  intros Hm. destruct (size m) as [|n] eqn:Hn; [unfold MAX_CACHED_RESPONSES in *; lia|].
  cbn [TrafficHost.evict].
  replace (MAX_CACHED_RESPONSES <? N.of_nat (size m)) with true
    by (symmetry; apply N.ltb_lt; rewrite Hn; lia).
  destruct (keys m) as [|k ks] eqn:Hk.
  - exfalso. assert (m <> ∅) as Hne by (intros ->; by rewrite map_size_empty in Hn).
    apply map_choose in Hne as (i & x & Hi).
    assert (i ∈ keys m) as Hin by (apply elem_of_keys; by eexists).
    rewrite Hk in Hin. by apply not_elem_of_nil in Hin.
  - assert (is_Some (m !! k)) as Hsome by (apply elem_of_keys; rewrite Hk; by left).
    exists k. split_and!; [done| |].
    + intros i Hi. apply elem_of_keys in Hi. rewrite Hk in Hi.
      pose proof (keys_sorted m) as Hs. rewrite Hk in Hs. apply StronglySorted_inv in Hs as [_ Hall].
      apply elem_of_cons in Hi as [->|Hi]; [lia|].
      rewrite Forall_forall in Hall. specialize (Hall i Hi). lia.
    + apply evict_small. destruct Hsome. rewrite map_size_delete_Some by (by eexists).
      rewrite Hn. lia.
Qed.

(** The cache after a response was recorded. *)
Lemma cached_spec (m : gmap N Response) resp :
  N.of_nat (size m) <= MAX_CACHED_RESPONSES ->
  let m1 := <[resp_request_id resp := resp]> m in
  let m2 := TrafficHost.evict (size m1) m1 in
  N.of_nat (size m2) <= MAX_CACHED_RESPONSES /\
  (forall i r, m2 !! i = Some r -> m1 !! i = Some r).
Proof.
  intros Hm m1 m2.
  assert (N.of_nat (size m1) <= MAX_CACHED_RESPONSES \/
          N.of_nat (size m1) = MAX_CACHED_RESPONSES + 1) as [Hs|Hs].
  { unfold m1. rewrite map_size_insert. destruct (m !! resp_request_id resp); cbv [id]; lia. }
  - unfold m2. by rewrite evict_small.
  - unfold m2. destruct (evict_one m1 Hs) as (k & Hk & _ & ->). split.
    + rewrite map_size_delete_Some by done. lia.
    + by intros i r [_ Hi]%lookup_delete_Some.
Qed.

Section handle.
Context {W : Type} `{BL : BackendLaws W}.
Implicit Types (h : TrafficHost W).

(** The host after it handled a request that was not cached. *)
Definition recorded h (resp : Response) : TrafficHost W :=
  let m := <[resp_request_id resp := resp]> (responses h) in
  TrafficHost.set_responses (TrafficHost.evict (size m) m) h.

Definition answer h (req : Request) (r : CommandResult) : Response :=
  {| resp_version := PROTOCOL_VERSION; resp_request_id := req_request_id req;
     resp_profile_generation := req_profile_generation req;
     resp_capabilities := capabilities h; response := r |}.

Lemma wp_handle h req (Q : result Response Empty_set -> TrafficHost W -> Prop) :
  host_ok h ->
  (forall resp, responses h !! req_request_id req = Some resp -> Q (Ok resp) h) ->
  (responses h !! req_request_id req = None ->
   (forall e, (req_profile_generation req < generation h -> e = GenerationConflict \/
                e = UnsupportedVersionCode \/ e = UnsupportedCapability) ->
     Q (Ok (answer h req (CommandErr e))) (recorded h (answer h req (CommandErr e)))) /\
   (generation h <= req_profile_generation req ->
    forall r h', host_ok h' -> same_frame h h' ->
     Q (Ok (answer h req r)) (recorded h' (answer h req r)))) ->
  wp (TrafficHost.handle req) h Q.
Proof.
  intros HI Hc HQ. unfold TrafficHost.handle. wp_step.
  destruct (responses h !! req_request_id req) as [resp|] eqn:Hr; [apply wp_ret; auto|].
  destruct (HQ eq_refl) as [HQe HQx]. apply wp_bind.
  destruct (negb (req_version req =? PROTOCOL_VERSION)).
  { wp_steps. apply HQe. auto. }
  destruct (negb _).
  { wp_steps. apply HQe. auto. }
  destruct (N.ltb_spec (req_profile_generation req) (generation h)) as [Hg|Hg].
  { wp_steps. apply HQe. auto. }
  eapply wp_mono; [by apply execute_ok|].
  intros [r|[]] h' [HI' Hf]. unfold TrafficHost.cache. wp_steps.
  destruct Hf as (Hresp & Hcap & Hgen). rewrite Hcap.
  by apply (HQx Hg r h' HI').
Qed.

Lemma recorded_ok h resp : host_ok h -> host_ok (recorded h resp).
Proof.
  intros []. constructor; try done. cbn. by apply (cached_spec (responses h) resp).
Qed.

Lemma handle_ok h req :
  host_ok h -> wp (TrafficHost.handle req) h (fun r h' =>
    host_ok h' /\ generation h <= generation h').
Proof.
  intros HI. apply wp_handle; [done|done|]. intros _. split.
  - intros e _. split; [by apply recorded_ok|cbn; lia].
  - intros _ r h' HI' (_ & _ & Hg). split; [by apply recorded_ok|done].
Qed.

Fixpoint handle_all (requests : list Request) h : outcome (TrafficHost W) :=
  match requests with
  | [] => Ret h
  | req :: requests =>
    match TrafficHost.handle req h with
    | Ret (_, h) => handle_all requests h
    | Panic => Panic
    | OutOfFuel => OutOfFuel
    end
  end.

Lemma handle_all_ok requests h :
  host_ok h -> exists h', handle_all requests h = Ret h' /\ host_ok h' /\
    generation h <= generation h'.
Proof.
  revert h. induction requests as [|req requests IH]; intros h HI; cbn [handle_all].
  { by exists h. }
  destruct (wp_run _ _ _ (handle_ok h req HI)) as (r & h1 & -> & HI1 & Hg1).
  destruct (IH h1 HI1) as (h2 & -> & HI2 & Hg2). exists h2. split_and!; [done|done|lia].
Qed.
End handle.

(** ** A machine that stops

    After [budget] operations of the backend or the journal, every further
    one fails and changes nothing: the machine's state is the one a crash
    leaves at that point. *)
Record Crashing (W : Type) := { budget : nat; inner : W }.
Arguments budget {W} _.
Arguments inner {W} _.

Section crashing.
Context {W : Type}.

Definition crash_after (f : W -> result unit HostFailure * W) (c : Crashing W)
  : result unit HostFailure * Crashing W :=
  match budget c with
  | O => (Err FailurePlatform, c)
  | S n => let '(r, w) := f (inner c) in (r, {| budget := n; inner := w |})
  end.

#[export] Instance Crashing_journal `{RecoveryJournal W} : RecoveryJournal (Crashing W) :=
  {| journal_load c := journal_load (inner c);
     journal_write r := crash_after (journal_write r);
     journal_clear := crash_after journal_clear |}.
#[export] Instance Crashing_backend `{PlatformBackend W} : PlatformBackend (Crashing W) :=
  {| backend_start c := crash_after (backend_start c);
     backend_stop := crash_after backend_stop;
     backend_recover r := crash_after (backend_recover r) |}.

#[export] Instance Crashing_journal_laws `{L : JournalLaws W} :
  JournalLaws (Crashing W) Crashing_journal.
Proof.
  refine {| stored c := stored (inner c) |}.
  - intros c o Hl. exact (load_stored (inner c) o Hl).
  - intros r [[|n] w]; [by left|]. cbn. unfold crash_after. cbn.
    pose proof (write_stored r w). by destruct (journal_write r w) as [[[]|] w'].
  - intros [[|n] w]; [by left|]. cbn. unfold crash_after. cbn.
    pose proof (clear_stored w). by destruct (journal_clear w) as [[[]|] w'].
Defined.

#[export] Instance Crashing_backend_laws `{BL : BackendLaws W} :
  BackendLaws (Crashing W) Crashing_journal Crashing_backend Crashing_journal_laws.
Proof.
  refine {| installed c := installed (inner c) |}; unfold crash_after;
    cbn; unfold crash_after; cbn.
  - intros c [[|n] w]; [done|]. cbn. pose proof (start_stored c w). by destruct (backend_start c w).
  - intros [[|n] w]; [done|]. cbn. pose proof (stop_stored w). by destruct (backend_stop w).
  - intros r [[|n] w]; [done|]. cbn. pose proof (recover_stored r w).
    by destruct (backend_recover r w).
  - intros [[|n] w]; [done|]. cbn. pose proof (stop_installed w). by destruct (backend_stop w).
  - intros r [[|n] w]; [done|]. cbn. pose proof (recover_installed r w).
    by destruct (backend_recover r w).
  - intros [[|n] w]; [done|]. cbn. pose proof (stop_installed_before w).
    by destruct (backend_stop w).
  - intros r [[|n] w]; [done|]. cbn. pose proof (write_installed r w).
    by destruct (journal_write r w).
  - intros [[|n] w]; [done|]. cbn. pose proof (clear_installed w). by destruct (journal_clear w).
Defined.
End crashing.

(** ** Properties *)
Section properties.
Context {W : Type} `{BL : BackendLaws W}.
Implicit Types (h : TrafficHost W).

(** Lifecycle: from a machine whose journal covers what is installed,
    any sequence of requests is handled without a panic; the transient
    states are never left behind, a stopped host has nothing installed, a
    running one has journalled the profile generation it runs, and whatever
    is installed stays covered by the journal. *)
Theorem host_lifecycle w caps h requests :
  recoverable w -> TrafficHost.new w caps = Ok h ->
  exists h', handle_all requests h = Ret h' /\ recoverable (machine h') /\
    (state h' <> Starting /\ state h' <> Stopping) /\
    (state h' = Stopped -> ~ installed (machine h')) /\
    (state h' = Running -> exists r,
       stored (machine h') = Some r /\ rec_profile_generation r = generation h').
Proof.
  intros Hw Hnew. destruct (handle_all_ok requests h (new_ok w caps h Hw Hnew))
    as (h' & Hrun & [] & _). exists h'. split_and!; try done; [by destruct ho_observable0..|].
  intros Hs. by destruct (ho_stopped0 Hs).
Qed.

(** C7. Crash safety: the machine may stop between any two operations of
    the backend and the journal, in the middle of a request included. A host
    that starts on what is left demands recovery whenever anything is still
    installed. *)
Theorem host_crash_safe (w : W) n caps (h : TrafficHost (Crashing W)) requests :
  recoverable w ->
  TrafficHost.new {| budget := n; inner := w |} caps = Ok h ->
  exists h' : TrafficHost (Crashing W), handle_all requests h = Ret h' /\
    forall caps' h2, TrafficHost.new (inner (machine h')) caps' = Ok h2 ->
      installed (inner (machine h')) -> recovery_required h2 = true /\ state h2 = Recovering.
Proof.
  intros Hw Hnew.
  assert (recoverable (W := Crashing W) {| budget := n; inner := w |}) as Hw' by done.
  destruct (handle_all_ok requests h (new_ok _ caps h Hw' Hnew)) as (h' & Hrun & HI & _).
  exists h'. split; [done|]. intros caps' h2. unfold TrafficHost.new.
  destruct (journal_load (inner (machine h'))) as [o|] eqn:Hl; [|done].
  apply load_stored in Hl. intros [= <-] Hi. pose proof (ho_machine _ HI Hi) as Hs.
  destruct o as [r|]; [done|]. by symmetry in Hl.
Qed.

(** Generations: a request of an older profile generation that is not
    a retry is refused without touching the machine or the host's state,
    and no request makes the generation go back. *)
Theorem stale_generation_refused h req :
  host_ok h ->
  exists resp h', TrafficHost.handle req h = Ret (Ok resp, h') /\
    generation h <= generation h' /\
    (responses h !! req_request_id req = None -> req_profile_generation req < generation h ->
     (exists e, response resp = CommandErr e) /\
     machine h' = machine h /\ state h' = state h /\ generation h' = generation h).
Proof.
  intros HI.
  destruct (wp_run (TrafficHost.handle req) h (fun r h' => generation h <= generation h' /\
    (responses h !! req_request_id req = None -> req_profile_generation req < generation h ->
     (exists resp e, r = Ok resp /\ response resp = CommandErr e) /\
     machine h' = machine h /\ state h' = state h /\ generation h' = generation h)))
    as ([resp|[]] & h' & Hrun & Hg & Hspec).
  - apply wp_handle; [done|intros resp Hr; split; [lia|congruence]|].
    intros Hnone. split.
    + intros e He. split; [cbn; lia|]. intros _ Hg. split; [|done].
      exists (answer h req (CommandErr e)), e. done.
    + intros Hge r h' HI' (_ & _ & Hg). split; [done|]. intros _ Hlt. lia.
  - exists resp, h'. split_and!; [done|done|]. intros Hn Hlt.
    destruct (Hspec Hn Hlt) as ((resp' & e & [= <-] & He) & Hrest). split; [by exists e|done].
Qed.

Lemma recorded_keeps h resp :
  host_ok h ->
  N.of_nat (size (responses h)) < MAX_CACHED_RESPONSES \/
  (exists i, is_Some (responses h !! i) /\ i < resp_request_id resp) ->
  responses (recorded h resp) !! resp_request_id resp = Some resp.
Proof.
  intros HI Hroom. unfold recorded. cbn.
  set (m := <[resp_request_id resp := resp]> (responses h)).
  assert (m !! resp_request_id resp = Some resp) as Hm by apply lookup_insert_eq.
  pose proof (ho_responses _ HI) as Hsize.
  assert (N.of_nat (size m) <= MAX_CACHED_RESPONSES \/
          N.of_nat (size m) = MAX_CACHED_RESPONSES + 1) as [Hs|Hs].
  { unfold m. rewrite map_size_insert.
    destruct (responses h !! resp_request_id resp); cbv [id]; lia. }
  - by rewrite evict_small.
  - destruct (evict_one m Hs) as (k & _ & Hmin & ->).
    destruct Hroom as [Hroom|(i & Hi & Hlt)].
    { unfold m in Hs. rewrite map_size_insert in Hs.
      destruct (responses h !! resp_request_id resp); cbv [id] in Hs; lia. }
    rewrite lookup_delete_ne; [done|]. intros ->.
    assert (resp_request_id resp <= i); [|lia]. apply Hmin. unfold m.
    rewrite lookup_insert_ne by lia. done.
Qed.

Lemma handle_result h req r h1 :
  host_ok h -> TrafficHost.handle req h = Ret (r, h1) ->
  (exists resp, r = Ok resp /\ h1 = h /\ responses h !! req_request_id req = Some resp) \/
  (responses h !! req_request_id req = None /\ exists h' resp,
     host_ok h' /\ responses h' = responses h /\ r = Ok resp /\ h1 = recorded h' resp /\
     resp_request_id resp = req_request_id req).
Proof.
  intros HI Hrun.
  refine (wp_elim (TrafficHost.handle req) h (fun r h1 =>
    (exists resp, r = Ok resp /\ h1 = h /\ responses h !! req_request_id req = Some resp) \/
    (responses h !! req_request_id req = None /\ exists h' resp,
       host_ok h' /\ responses h' = responses h /\ r = Ok resp /\ h1 = recorded h' resp /\
       resp_request_id resp = req_request_id req)) _ _ _ Hrun).
  apply wp_handle; [done|intros resp Hr; left; by exists resp|].
  intros Hnone. split.
  - intros e _. right. split; [done|]. by exists h, (answer h req (CommandErr e)).
  - intros _ q h' HI' (Hresp & _). right. split; [done|]. by exists h', (answer h req q).
Qed.

(** Idempotent retries: once a request was answered, a retry under the
    same identifier gets the same response and changes nothing, provided the
    cache had room or holds an older identifier. *)
Theorem retry_idempotent h req resp h1 req' :
  host_ok h -> TrafficHost.handle req h = Ret (Ok resp, h1) ->
  is_Some (responses h !! req_request_id req) \/
  N.of_nat (size (responses h)) < MAX_CACHED_RESPONSES \/
  (exists i, is_Some (responses h !! i) /\ i < req_request_id req) ->
  req_request_id req' = req_request_id req ->
  TrafficHost.handle req' h1 = Ret (Ok resp, h1).
Proof.
  intros HI Hrun Hroom Hid.
  assert (responses h1 !! req_request_id req = Some resp) as Hcached.
  { destruct (handle_result h req _ h1 HI Hrun)
      as [(r & [= <-] & -> & Hr)|(Hnone & h' & r & HI' & Hresp & [= <-] & -> & Hrid)]; [done|].
    rewrite <-Hrid in *. apply recorded_keeps; [done|]. rewrite Hresp.
    destruct Hroom as [Hroom|[Hroom|Hroom]]; [|by left|by right].
    rewrite Hnone in Hroom. by destruct Hroom. }
  unfold TrafficHost.handle, bind, get. by rewrite Hid, Hcached.
Qed.

(** The limit of that guarantee: the cache evicts its smallest
    identifier, not its oldest entry. A new request whose identifier is
    below all of a full cache is evicted by its own insertion, so that its
    retry is not recognised. *)
Theorem retry_forgotten h req resp h1 :
  host_ok h -> TrafficHost.handle req h = Ret (Ok resp, h1) ->
  N.of_nat (size (responses h)) = MAX_CACHED_RESPONSES ->
  (forall i, is_Some (responses h !! i) -> req_request_id req < i) ->
  responses h1 = responses h /\ responses h1 !! req_request_id req = None.
Proof.
  intros HI Hrun Hfull Hmin.
  assert (responses h !! req_request_id req = None) as Hnone.
  { apply eq_None_not_Some. intros Hs%Hmin. lia. }
  destruct (handle_result h req _ h1 HI Hrun)
    as [(r & [= <-] & -> & Hr)|(_ & h' & r & HI' & Hresp & [= <-] & -> & Hrid)]; [congruence|].
  unfold recorded. cbn. rewrite Hresp, Hrid.
  set (m := <[req_request_id req := resp]> (responses h)).
  assert (N.of_nat (size m) = MAX_CACHED_RESPONSES + 1) as Hs.
  { unfold m. rewrite map_size_insert_None by done. lia. }
  destruct (evict_one m Hs) as (k & Hk & Hleast & ->).
  assert (k = req_request_id req) as ->.
  { destruct (decide (k = req_request_id req)) as [|Hne]; [done|].
    assert (k <= req_request_id req) by (apply Hleast; unfold m; rewrite lookup_insert_eq; by eexists).
    unfold m in Hk. rewrite lookup_insert_ne in Hk by done. specialize (Hmin k Hk). lia. }
  split; [|by rewrite lookup_delete_eq]. unfold m. by rewrite delete_insert_id.
Qed.
End properties.
