(* ===== verification/Journal.v ===== *)
(** The atomic file journal of the traffic host
    ([velum-desktop-traffic-host/src/lib.rs], [FileRecoveryJournal]), over a
    model of the two files it touches in which any system call may fail. It
    implements the host's journal interface. *)
From S2P Require Import Prelude HelperProtocol TrafficHost.

(** ** The file system as the journal uses it *)
Inductive File := Symlink | Regular (contents : list byte).

(** The journal's file and its temporary sibling. [faults] says of each
    coming system call whether it fails. *)
Record FileSystem := {
  target : option File;
  temporary : option File;
  faults : list bool
}.

Inductive Path := JournalPath | TemporaryPath.

Definition at_path (p : Path) (fs : FileSystem) : option File :=
  match p with JournalPath => target fs | TemporaryPath => temporary fs end.

Definition set_path (p : Path) (f : option File) (fs : FileSystem) : FileSystem :=
  match p with
  | JournalPath => {| target := f; temporary := temporary fs; faults := faults fs |}
  | TemporaryPath => {| target := target fs; temporary := f; faults := faults fs |}
  end.

Definition F := M FileSystem HostFailure.

(** One system call: fails without an effect when its fault is set. *)
Definition system_call : F unit := fun fs =>
  let fs' := {| target := target fs; temporary := temporary fs; faults := tail (faults fs) |} in
  if default false (head (faults fs)) then Ret (Err FailureJournal, fs') else Ret (Ok tt, fs').

Module FileRecoveryJournal.
Section journal.
Context `{Json RecoveryRecord} (has_parent : bool).

(** [symlink_metadata]: a missing file is accepted. *)
Definition reject_symlink (path : Path) : F unit :=
  system_call ;!
  let! fs := get in
  match at_path path fs with
  | Some Symlink => throw FailureJournal
  | Some (Regular _) | None => ret tt
  end.

Definition load : F (option RecoveryRecord) :=
  reject_symlink JournalPath ;!
  system_call ;!
  let! fs := get in
  match target fs with
  | None => ret None
  | Some Symlink => throw FailureJournal
  | Some (Regular source) =>
    match from_slice source with
    | Some record => ret (Some record)
    | None => throw FailureJournal
    end
  end.

(** A failing [write_all] may leave any part of the contents behind; the
    model leaves none. *)
Definition write (record : RecoveryRecord) : F unit :=
  (if has_parent then system_call else ret tt) ;!
  reject_symlink JournalPath ;!
  reject_symlink TemporaryPath ;!
  let! encoded := ok_or (to_vec record) FailureJournal in
  system_call ;!
  modify (set_path TemporaryPath (Some (Regular []))) ;!
  system_call ;!
  modify (set_path TemporaryPath (Some (Regular encoded))) ;!
  system_call ;!
  (* rename *)
  system_call ;!
  modify (fun fs => set_path TemporaryPath None (set_path JournalPath (temporary fs) fs)) ;!
  (if has_parent then system_call else ret tt).

Definition clear : F unit :=
  reject_symlink JournalPath ;!
  let! fs := get in
  match target fs with
  | None => ret tt
  | Some _ => system_call ;! modify (set_path JournalPath None)
  end.
End journal.
End FileRecoveryJournal.

(** ** The interface *)
Definition result_of {A} (m : F A) (fs : FileSystem) : result A HostFailure * FileSystem :=
  match m fs with Ret rs => rs | _ => (Err FailureJournal, fs) end.

#[export] Instance File_journal `{Json RecoveryRecord} (has_parent : bool)
  : RecoveryJournal FileSystem :=
  {| journal_load fs := (result_of FileRecoveryJournal.load fs).1;
     journal_write r := result_of (FileRecoveryJournal.write has_parent r);
     journal_clear := result_of FileRecoveryJournal.clear |}.

(** The record that a restart would find. *)
Definition durable `{Json RecoveryRecord} (fs : FileSystem) : option RecoveryRecord :=
  match target fs with
  | Some (Regular contents) => from_slice contents
  | _ => None
  end.

Section proofs.
Context `{J : Json RecoveryRecord} (has_parent : bool).

Lemma wp_system_call {B} (k : unit -> F B) fs Q :
  (forall fs', target fs' = target fs -> temporary fs' = temporary fs ->
    Q (Err FailureJournal) fs' /\ wp (k tt) fs' Q) ->
  wp (bind system_call k) fs Q.
Proof.
  intros Hk. apply wp_bind. unfold system_call, wp at 1.
  destruct (default false _); by apply Hk.
Qed.

Lemma wp_reject_symlink {B} p (k : unit -> F B) fs Q :
  (forall fs', target fs' = target fs -> temporary fs' = temporary fs ->
    Q (Err FailureJournal) fs' /\ wp (k tt) fs' Q) ->
  wp (bind (FileRecoveryJournal.reject_symlink p) k) fs Q.
Proof.
  intros Hk. apply wp_bind. unfold FileRecoveryJournal.reject_symlink.
  apply wp_system_call. intros fs' H1 H2. destruct (Hk fs' H1 H2). split; [done|].
  wp_step. destruct (at_path p fs') as [[|c]|]; by wp_steps.
Qed.

(** An optional last or first call. *)
Lemma wp_parent {B} (k : unit -> F B) fs Q :
  (forall fs', target fs' = target fs -> temporary fs' = temporary fs ->
    Q (Err FailureJournal) fs' /\ wp (k tt) fs' Q) ->
  wp (bind (if has_parent then system_call else ret tt) k) fs Q.
Proof. intros Hk. destruct has_parent; [by apply wp_system_call|]. wp_step. by apply Hk. Qed.

Lemma wp_last_call fs Q :
  (forall fs', target fs' = target fs -> Q (Err FailureJournal) fs' /\ Q (Ok tt) fs') ->
  wp (if has_parent then system_call else ret tt) fs Q.
Proof.
  intros Hk. destruct has_parent; [|by apply wp_ret, Hk].
  unfold system_call, wp. destruct (default false _); by apply Hk.
Qed.

Lemma result_of_wp {A} (m : F A) fs Q r fs' :
  wp m fs Q -> result_of m fs = (r, fs') -> Q r fs'.
Proof. unfold wp, result_of. destruct (m fs) as [[r1 fs1]| |]; try done. by intros ? [= <- <-]. Qed.

Lemma load_durable fs o :
  (result_of FileRecoveryJournal.load fs).1 = Ok o -> o = durable fs.
Proof.
  destruct (result_of FileRecoveryJournal.load fs) as [r fs'] eqn:Hr.
  cbn [fst].
  refine (result_of_wp FileRecoveryJournal.load fs (fun r _ => r = Ok o -> o = durable fs)
    r fs' _ Hr).
  unfold FileRecoveryJournal.load, durable.
  apply wp_reject_symlink. intros f1 H1 _. split; [done|].
  apply wp_system_call. intros f2 H2 _. split; [done|]. wp_step. rewrite H2, H1.
  destruct (target fs) as [[|c]|]; [by wp_steps| |by apply wp_ret; intros [= <-]].
  destruct (from_slice c); [apply wp_ret; by intros [= <-]|by wp_steps].
Qed.

Lemma write_durable `{!JsonLaws RecoveryRecord J} record fs :
  wp (FileRecoveryJournal.write has_parent record) fs (fun r fs' => match r with
    | Ok _ => durable fs' = Some record
    | Err _ => durable fs' = durable fs \/ durable fs' = Some record
    end).
Proof.
  unfold FileRecoveryJournal.write, durable.
  apply wp_parent. intros f1 H1 _. split; [left; by rewrite H1|].
  apply wp_reject_symlink. intros f2 H2 _. split; [left; by rewrite H2, H1|].
  apply wp_reject_symlink. intros f3 H3 _. split; [left; by rewrite H3, H2, H1|].
  wp_step; [left; by rewrite H3, H2, H1|]. rename a into encoded.
  match goal with H : to_vec record = _ |- _ => apply from_to_vec in H as Henc end.
  apply wp_system_call. intros f4 H4 _. split; [left; by rewrite H4, H3, H2, H1|]. wp_step.
  apply wp_system_call. intros f5 H5 _. cbn in H5. split; [left; by rewrite H5, H4, H3, H2, H1|]. wp_step.
  apply wp_system_call. intros f6 H6 T6. cbn in H6, T6. split; [left; by rewrite H6, H5, H4, H3, H2, H1|].
  apply wp_system_call. intros f7 H7 T7. split; [left; by rewrite H7, H6, H5, H4, H3, H2, H1|].
  wp_step. apply wp_last_call. intros f8 H8. cbn in H8. rewrite T7, T6 in H8.
  rewrite H8. cbn. by split; [right|].
Qed.

Lemma clear_durable fs :
  wp FileRecoveryJournal.clear fs (fun r fs' => match r with
    | Ok _ => durable fs' = None
    | Err _ => durable fs' = durable fs \/ durable fs' = None
    end).
Proof.
  unfold FileRecoveryJournal.clear, durable.
  apply wp_reject_symlink. intros f1 H1 _. split; [left; by rewrite H1|]. wp_step.
  destruct (target f1) as [f|] eqn:Ht; [|apply wp_ret; by rewrite Ht].
  apply wp_system_call. intros f2 H2 _. split; [left; by rewrite H2, Ht, <-H1|]. by wp_step.
Qed.
End proofs.

(** The file journal keeps the journal's contract under every pattern of
    failing system calls. *)
#[export] Instance File_journal_laws `{J : Json RecoveryRecord} `{!JsonLaws RecoveryRecord J}
    (has_parent : bool) : JournalLaws FileSystem (File_journal has_parent).
Proof.
  refine {| stored := durable |}.
  - apply load_durable.
  - intros r fs. cbn. destruct (result_of (FileRecoveryJournal.write has_parent r) fs) as [res fs'] eqn:Hr.
    exact (result_of_wp _ _ _ _ _ (write_durable has_parent r fs) Hr).
  - intros fs. cbn. destruct (result_of FileRecoveryJournal.clear fs) as [res fs'] eqn:Hr.
    exact (result_of_wp _ _ _ _ _ (clear_durable fs) Hr).
Defined.

(** Atomicity: after [write], whatever system calls failed on the way, a
    restart finds the record that was there before or the new one, complete;
    the new one when [write] reported success. Clearing leaves the old record
    or none, and none when it reported success. *)
Theorem journal_atomic `{J : Json RecoveryRecord} `{!JsonLaws RecoveryRecord J} has_parent record fs :
  (exists r fs', FileRecoveryJournal.write has_parent record fs = Ret (r, fs') /\
    (r = Ok tt -> durable fs' = Some record) /\
    (durable fs' = durable fs \/ durable fs' = Some record)) /\
  (exists r fs', FileRecoveryJournal.clear fs = Ret (r, fs') /\
    (r = Ok tt -> durable fs' = None) /\
    (durable fs' = durable fs \/ durable fs' = None)).
Proof.
  split.
  - destruct (wp_run _ _ _ (write_durable has_parent record fs)) as (r & fs' & Hrun & Hr).
    exists r, fs'. destruct r as [[]|]; (split; [done|]); split; auto; done.
  - destruct (wp_run _ _ _ (clear_durable fs)) as (r & fs' & Hrun & Hr).
    exists r, fs'. destruct r as [[]|]; (split; [done|]); split; auto; done.
Qed.
