(* ===== verification/Str.v ===== *)
(** Rust strings as sequences of Unicode scalar values, with the standard
    library's operations that the program uses. *)
From S2P Require Import Prelude.

Abbreviation Char := N (only parsing).
Abbreviation Str := (list N) (only parsing).

(** [char::is_whitespace]: the Unicode White_Space property. *)
Definition is_whitespace (c : Char) : bool :=
  ((9 <=? c) && (c <=? 13)) || (c =? 32) || (c =? 133) || (c =? 160) || (c =? 5760)
  || ((8192 <=? c) && (c <=? 8202)) || (c =? 8232) || (c =? 8233) || (c =? 8239)
  || (c =? 8287) || (c =? 12288).

(** [trim_start_matches], [trim_end_matches] and [trim]. *)
Fixpoint trim_start (f : Char -> bool) (s : Str) : Str :=
  match s with
  | [] => []
  | c :: s' => if f c then trim_start f s' else s
  end.
Definition trim_end (f : Char -> bool) (s : Str) : Str := rev (trim_start f (rev s)).
Definition trim (s : Str) : Str := trim_end is_whitespace (trim_start is_whitespace s).

Definition char_to_ascii_lowercase (c : Char) : Char :=
  if (65 <=? c) && (c <=? 90) then c + 32 else c.
Definition to_ascii_lowercase (s : Str) : Str := char_to_ascii_lowercase <$> s.

(** [str::len], in bytes of UTF-8. *)
Definition utf8_len_char (c : Char) : N :=
  if c <? 128 then 1 else if c <? 2048 then 2 else if c <? 65536 then 3 else 4.
Fixpoint utf8_len (s : Str) : N :=
  match s with [] => 0 | c :: s => utf8_len_char c + utf8_len s end.

(** A string literal of ASCII characters. *)
Definition str (s : String.string) : Str := Byte.to_N <$> String.list_byte_of_string s.

Definition is_ascii_digit (c : Char) : bool := (48 <=? c) && (c <=? 57).
Definition is_ascii_alphanumeric (c : Char) : bool :=
  is_ascii_digit c || ((65 <=? c) && (c <=? 90)) || ((97 <=? c) && (c <=? 122)).

Definition str_eqb (s t : Str) : bool := bool_decide (s = t).
Definition ends_with (c : Char) (s : Str) : bool :=
  match last s with Some d => d =? c | None => false end.
Definition starts_with (c : Char) (s : Str) : bool :=
  match s with d :: _ => d =? c | [] => false end.

Fixpoint strip_prefix (p s : Str) : option Str :=
  match p, s with
  | [], _ => Some s
  | c :: p, d :: s => if c =? d then strip_prefix p s else None
  | _ :: _, [] => None
  end.
Definition strip_suffix (p s : Str) : option Str := rev (A:=Char) <$> strip_prefix (rev p) (rev s).

(** The order of strings, and a map of strings in the order of its keys. *)
Fixpoint str_leb (s t : Str) : bool :=
  match s, t with
  | [], _ => true
  | _ :: _, [] => false
  | a :: s, b :: t => (a <? b) || ((a =? b) && str_leb s t)
  end.
Definition ordered {A} (m : gmap Str A) : list (Str * A) :=
  merge_sort (fun x y => str_leb x.1 y.1) (map_to_list m).
Lemma elem_of_ordered {A} (m : gmap Str A) k a : (k, a) ∈ ordered m <-> m !! k = Some a.
Proof. unfold ordered. by rewrite merge_sort_Permutation, elem_of_map_to_list. Qed.
Lemma ordered_keys_NoDup {A} (m : gmap Str A) : NoDup (ordered m).*1.
Proof. unfold ordered. rewrite merge_sort_Permutation. apply NoDup_fst_map_to_list. Qed.

(** [s.split(sep)] and [s.split_once(sep)] *)
Fixpoint split (sep : Char) (s : Str) : list Str :=
  match s with
  | [] => [[]]
  | c :: s =>
    if c =? sep then [] :: split sep s
    else match split sep s with
         | [] => [[c]]
         | w :: ws => (c :: w) :: ws
         end
  end.
Fixpoint split_once (sep : Char) (s : Str) : option (Str * Str) :=
  match s with
  | [] => None
  | c :: s =>
    if c =? sep then Some ([], s)
    else match split_once sep s with
         | Some (a, b) => Some (c :: a, b)
         | None => None
         end
  end.

(** [s.rsplit_once(sep)] *)
Fixpoint rsplit_once (sep : Char) (s : Str) : option (Str * Str) :=
  match s with
  | [] => None
  | c :: s =>
    match rsplit_once sep s with
    | Some (a, b) => Some (c :: a, b)
    | None => if c =? sep then Some ([], s) else None
    end
  end.
(** [s.contains(c)] *)
Definition contains (c : Char) (s : Str) : bool := existsb (fun d => d =? c) s.
Definition eq_ignore_ascii_case (s t : Str) : bool :=
  bool_decide (to_ascii_lowercase s = to_ascii_lowercase t).
(** [s.split("\r\n")] *)
Fixpoint split_crlf (s : Str) : list Str :=
  match s with
  | [] => [[]]
  | c :: s' =>
    match s' with
    | [] => [[c]]
    | d :: rest =>
      if (c =? 13) && (d =? 10) then [] :: split_crlf rest
      else match split_crlf s' with [] => [[c]] | w :: ws => (c :: w) :: ws end
    end
  end.
(** The maximal runs of characters that are not separators. *)
Fixpoint split_runs (f : Char -> bool) (s : Str) : list Str :=
  match s with
  | [] => []
  | c :: s' =>
    if f c then split_runs f s'
    else
      match split_runs f s' with
      | w :: ws =>
        if match s' with d :: _ => f d | [] => true end then [c] :: w :: ws else (c :: w) :: ws
      | [] => [[c]]
      end
  end.
(** [s.split_whitespace()] and [s.split_ascii_whitespace()] *)
Definition split_whitespace (s : Str) : list Str := split_runs is_whitespace s.
Definition is_ascii_whitespace (c : Char) : bool :=
  (c =? 32) || (c =? 9) || (c =? 10) || (c =? 12) || (c =? 13).
Definition split_ascii_whitespace (s : Str) : list Str := split_runs is_ascii_whitespace s.

(** [s.starts_with(p)] and [s.contains(p)] for a text [p] *)
Definition starts_with_str (p s : Str) : bool :=
  match strip_prefix p s with Some _ => true | None => false end.
Fixpoint contains_str (p s : Str) : bool :=
  starts_with_str p s || match s with [] => false | _ :: s => contains_str p s end.

(** [s.replace(p, to)]: the occurrences found from the left; [skip] characters
    belong to the last one. *)
Fixpoint replace_from (skip : nat) (p to s : Str) : Str :=
  match s with
  | [] => []
  | c :: s' =>
    match skip with
    | S skip => replace_from skip p to s'
    | O => if starts_with_str p s then to ++ replace_from (pred (length p)) p to s'
           else c :: replace_from O p to s'
    end
  end.
Definition replace (p to s : Str) : Str := replace_from O p to s.

(** [s.lines()]: a line ends in a line feed, with a carriage return before it
    dropped; what follows the last line feed is a line unless it is empty. *)
Fixpoint lines_of (pieces : list Str) : list Str :=
  match pieces with
  | [] => []
  | [last] => if is_empty last then [] else [last]
  | line :: pieces => default line (strip_suffix [13] line) :: lines_of pieces
  end.
Definition lines (s : Str) : list Str := lines_of (split 10 s).

(** [s.parse::<uN>()], for the type whose largest value is [max]. *)
Fixpoint parse_digits (max acc : N) (s : Str) : option N :=
  match s with
  | [] => Some acc
  | c :: s =>
    if is_ascii_digit c then
      let v := acc * 10 + (c - 48) in
      if v <=? max then parse_digits max v s else None
    else None
  end.
Definition parse_uint (max : N) (s : Str) : option N :=
  let digits := match s with c :: s' => if c =? 43 then s' else s | [] => [] end in
  if is_empty digits then None else parse_digits max 0 digits.

(** [Display] of an unsigned integer; the fuel is one more than the number of
    its binary digits. *)
Fixpoint display_digits (fuel : nat) (n : N) (acc : Str) : Str :=
  match fuel with
  | O => acc
  | S fuel =>
    let acc := (48 + n mod 10) :: acc in
    if n <? 10 then acc else display_digits fuel (n / 10) acc
  end.
Definition display_uint (n : N) : Str := display_digits (S (N.to_nat (N.size n))) n [].

(** ** Lemmas *)
Lemma trim_start_idem f s : trim_start f (trim_start f s) = trim_start f s.
Proof.
  induction s as [|c s IH]; cbn; [done|]. destruct (f c) eqn:Hc; [done|]. cbn. by rewrite Hc.
Qed.
Lemma trim_end_idem f s : trim_end f (trim_end f s) = trim_end f s.
Proof. unfold trim_end. by rewrite rev_involutive, trim_start_idem. Qed.

(** The first character left is one that is kept. *)
Lemma trim_start_spec f s :
  exists p, s = p ++ trim_start f s /\ Forall (fun c => f c = true) p /\
    forall c s', trim_start f s = c :: s' -> f c = false.
Proof.
  induction s as [|c s (p & Hs & Hp & Hk)]; cbn; [by exists []|].
  destruct (f c) eqn:Hc.
  - exists (c :: p). cbn. rewrite <-Hs. split_and!; [done|by constructor|done].
  - exists []. split_and!; [done|done|]. by intros ? ? [= <- <-].
Qed.

Lemma char_lowercase_idem c :
  char_to_ascii_lowercase (char_to_ascii_lowercase c) = char_to_ascii_lowercase c.
Proof.
  unfold char_to_ascii_lowercase at 2 3. destruct ((65 <=? c) && (c <=? 90)) eqn:Hc;
    unfold char_to_ascii_lowercase; [|by rewrite Hc].
  apply andb_true_iff in Hc as [H1%N.leb_le H2%N.leb_le].
  replace (c + 32 <=? 90) with false by (symmetry; apply N.leb_gt; lia).
  by rewrite andb_false_r.
Qed.
Lemma to_ascii_lowercase_idem s : to_ascii_lowercase (to_ascii_lowercase s) = to_ascii_lowercase s.
Proof.
  unfold to_ascii_lowercase. rewrite <-list_fmap_compose. apply list_fmap_ext.
  intros i c _. apply char_lowercase_idem.
Qed.

Lemma trim_end_spec f s :
  exists q, s = trim_end f s ++ q /\ Forall (fun c => f c = true) q.
Proof.
  destruct (trim_start_spec f (rev s)) as (p & Hs & Hp & _). exists (rev p). unfold trim_end. split.
  - rewrite <-rev_app_distr, <-Hs. by rewrite rev_involutive.
  - by apply Forall_rev.
Qed.

(** *** Decimal numbers *)
Lemma trim_sub s c : c ∈ trim s -> c ∈ s.
Proof.
  intros Hc. destruct (trim_start_spec is_whitespace s) as (p & -> & _).
  destruct (trim_end_spec is_whitespace (trim_start is_whitespace s)) as (q & -> & _).
  rewrite !elem_of_app. by right; left.
Qed.
Lemma trim_start_none f s : Forall (fun c => f c = false) s -> trim_start f s = s.
Proof. intros [|c s' Hc]; cbn; [done|]. by rewrite Hc. Qed.
Lemma trim_end_none f s : Forall (fun c => f c = false) s -> trim_end f s = s.
Proof. intros Hs. unfold trim_end. by rewrite trim_start_none, rev_involutive by by apply Forall_rev. Qed.
Lemma trim_none s : Forall (fun c => is_whitespace c = false) s -> trim s = s.
Proof. intros Hs. unfold trim. by rewrite trim_start_none, trim_end_none by done. Qed.

Lemma parse_digits_app max s acc t :
  parse_digits max acc (s ++ t) =
  match parse_digits max acc s with Some v => parse_digits max v t | None => None end.
Proof.
  revert acc. induction s as [|c s IH]; intros acc; cbn; [done|].
  destruct (is_ascii_digit c); [|done]. destruct (_ <=? max); [apply IH|done].
Qed.

Lemma digit_ascii d : d < 10 -> is_ascii_digit (48 + d) = true.
Proof. intros Hd. unfold is_ascii_digit. apply andb_true_iff. rewrite !N.leb_le. lia. Qed.

Lemma display_digits_spec fuel n acc max :
  n < 2 ^ N.of_nat fuel -> n <= max ->
  exists ds, display_digits (S fuel) n acc = ds ++ acc /\ ds <> [] /\
    Forall (fun c => is_ascii_digit c = true) ds /\ parse_digits max 0 ds = Some n.
Proof.
  revert n acc. induction fuel as [|fuel IH]; intros n acc Hn Hmax.
  - assert (n = 0) as -> by (cbn in Hn; lia). exists [48]. cbn.
    split_and!; [done|done|by constructor|]. by destruct max.
  - assert (n mod 10 < 10) as Hd by (apply N.mod_lt; lia).
    assert (n = 10 * (n / 10) + n mod 10) as Hdm by apply N.div_mod'.
    change (display_digits (S (S fuel)) n acc) with
      (if n <? 10 then (48 + n mod 10) :: acc
       else display_digits (S fuel) (n / 10) ((48 + n mod 10) :: acc)).
    destruct (N.ltb_spec n 10) as [Hlt|Hge].
    + exists [48 + n mod 10]. split_and!; [done|done|constructor; [by apply digit_ascii|done]|].
      cbn [parse_digits]. rewrite (digit_ascii _ Hd), (N.mod_small n 10) by done. cbn -[N.add N.mul N.sub N.leb].
      replace (0 * 10 + (48 + n - 48)) with n by lia. by rewrite (proj2 (N.leb_le _ _) Hmax).
    + rewrite Nnat.Nat2N.inj_succ, N.pow_succ_r' in Hn.
      destruct (IH (n / 10) ((48 + n mod 10) :: acc)) as (ds & -> & Hne & Hall & Hp); [|lia|].
      { apply N.Div0.div_lt_upper_bound. lia. }
      exists (ds ++ [48 + n mod 10]). rewrite <-app_assoc. split_and!; [done|by destruct ds| |].
      * apply Forall_app. split; [done|]. constructor; [by apply digit_ascii|done].
      * rewrite parse_digits_app, Hp. cbn [parse_digits]. rewrite (digit_ascii _ Hd).
        replace (n / 10 * 10 + (48 + n mod 10 - 48)) with n by lia.
        by rewrite (proj2 (N.leb_le _ _) Hmax).
Qed.

Lemma display_uint_spec n max :
  n <= max ->
  display_uint n <> [] /\ Forall (fun c => is_ascii_digit c = true) (display_uint n) /\
  parse_digits max 0 (display_uint n) = Some n.
Proof.
  intros Hmax. unfold display_uint.
  destruct (display_digits_spec (N.to_nat (N.size n)) n [] max) as (ds & -> & H); [|done|].
  - rewrite Nnat.N2Nat.id. apply N.size_gt.
  - by rewrite app_nil_r.
Qed.

(** Every number reads back from what [Display] writes. *)
Lemma parse_display n max : n <= max -> parse_uint max (display_uint n) = Some n.
Proof.
  intros Hmax. destruct (display_uint_spec n max Hmax) as (Hne & Hall & Hp). unfold parse_uint.
  destruct (display_uint n) as [|c s] eqn:Hd; [done|]. apply Forall_cons in Hall as [Hc _].
  replace (c =? 43) with false; [done|]. symmetry. apply N.eqb_neq. intros ->. done.
Qed.

(** A parsed number is within its width. *)
Lemma parse_digits_bound max acc s v : acc <= max -> parse_digits max acc s = Some v -> v <= max.
Proof.
  revert acc. induction s as [|c s IH]; intros acc Ha; cbn; [by intros [= <-]|].
  destruct (is_ascii_digit c); [|done]. destruct (N.leb_spec (acc * 10 + (c - 48)) max); [|done].
  by apply IH.
Qed.
Lemma parse_uint_bound max s v : parse_uint max s = Some v -> v <= max.
Proof. unfold parse_uint. destruct (is_empty _); [done|]. apply parse_digits_bound. lia. Qed.

(** *** Runs *)
Lemma split_runs_word f w c s :
  w <> [] -> Forall (fun d => f d = false) w -> f c = true ->
  split_runs f (w ++ c :: s) = w :: split_runs f s.
Proof.
  intros Hne Hw Hc. induction Hw as [|d w Hd Hw IH]; [done|].
  destruct w as [|e w].
  - cbn [app]. change (split_runs f (d :: c :: s)) with
      (if f d then split_runs f (c :: s)
       else match split_runs f (c :: s) with
            | w :: ws => if f c then [d] :: w :: ws else (d :: w) :: ws
            | [] => [[d]] end).
    rewrite Hd, Hc. replace (split_runs f (c :: s)) with (split_runs f s)
      by (cbn; by rewrite Hc). by destruct (split_runs f s).
  - change (split_runs f ((d :: e :: w) ++ c :: s)) with
      (if f d then split_runs f ((e :: w) ++ c :: s)
       else match split_runs f ((e :: w) ++ c :: s) with
            | w' :: ws => if f e then [d] :: w' :: ws else (d :: w') :: ws
            | [] => [[d]] end).
    rewrite Hd, IH by done. apply Forall_cons in Hw as [-> _]. done.
Qed.
Lemma split_runs_space f c s : f c = true -> split_runs f (c :: s) = split_runs f s.
Proof. cbn. by intros ->. Qed.

(** *** Lines that end in a carriage return and a line feed *)
Fixpoint crlf_free (s : Str) : bool :=
  match s with
  | [] => true
  | c :: s' => negb ((c =? 13) && starts_with 10 s') && crlf_free s'
  end.

Lemma crlf_free_app a c b :
  c <> 10 -> crlf_free (a ++ c :: b) = crlf_free a && crlf_free (c :: b).
Proof.
  intros Hc. induction a as [|d a IH]; [done|].
  change (crlf_free ((d :: a) ++ c :: b)) with
    (negb ((d =? 13) && starts_with 10 (a ++ c :: b)) && crlf_free (a ++ c :: b)).
  rewrite IH, andb_assoc. f_equal. cbn. f_equal. destruct a as [|e a]; [|done]. cbn.
  by rewrite (proj2 (N.eqb_neq _ _) Hc).
Qed.
Lemma crlf_free_r a b : crlf_free (a ++ b) = true -> crlf_free b = true.
Proof. induction a as [|c a IH]; [done|]. cbn. by intros [_ ?]%andb_true_iff; auto. Qed.
Lemma crlf_free_l a b : crlf_free (a ++ b) = true -> crlf_free a = true.
Proof.
  induction a as [|c a IH]; [done|]. cbn. intros [Hc H]%andb_true_iff. rewrite (IH H), andb_true_r.
  destruct a as [|d a]; [by rewrite andb_false_r|done].
Qed.
(** Without a carriage return there is no such end. *)
Lemma crlf_free_plain s : 13 ∉ s -> crlf_free s = true.
Proof.
  induction s as [|c s IH]; [done|]. intros [Hc Hs]%not_elem_of_cons. cbn. rewrite (IH Hs), andb_true_r.
  by rewrite (proj2 (N.eqb_neq _ _)) by congruence.
Qed.

Lemma split_crlf_line a b : crlf_free a = true -> split_crlf (a ++ 13 :: 10 :: b) = a :: split_crlf b.
Proof.
  induction a as [|c a IH]; [done|]. intros [Hc Ha]%andb_true_iff. specialize (IH Ha).
  apply negb_true_iff in Hc. destruct a as [|d a].
  - cbn [app] in *. change (split_crlf (c :: 13 :: 10 :: b)) with
      (if (c =? 13) && (13 =? 10) then [] :: split_crlf (10 :: b)
       else match split_crlf (13 :: 10 :: b) with [] => [[c]] | w :: ws => (c :: w) :: ws end).
    by rewrite andb_false_r, IH.
  - cbn [app] in *. change (split_crlf (c :: d :: a ++ 13 :: 10 :: b)) with
      (if (c =? 13) && (d =? 10) then [] :: split_crlf (a ++ 13 :: 10 :: b)
       else match split_crlf (d :: a ++ 13 :: 10 :: b) with [] => [[c]] | w :: ws => (c :: w) :: ws end).
    change (starts_with 10 (d :: a)) with (d =? 10) in Hc. by rewrite Hc, IH.
Qed.

(** Splitting never leaves the separator in a piece. *)
Lemma split_crlf_cons c s :
  exists w ws, split_crlf (c :: s) = w :: ws /\ (starts_with 10 w = true -> c = 10).
Proof.
  destruct s as [|d s]; cbn [split_crlf].
  - exists [c], []. split; [done|]. by intros ?%N.eqb_eq.
  - destruct (_ && _); [by eexists [], _|].
    destruct (match s with [] => _ | _ => _ end) as [|w ws]; eexists _, _; (split; [done|]);
      by intros ?%N.eqb_eq.
Qed.
Lemma split_crlf_free s : Forall (fun l => crlf_free l = true) (split_crlf s).
Proof.
  assert (forall n s, (length s <= n)%nat -> Forall (fun l => crlf_free l = true) (split_crlf s)) as H.
  { clear s. induction n as [|n IH]; intros s Hn.
    { destruct s; [by constructor|cbn in Hn; lia]. }
    destruct s as [|c [|d s]]; [by constructor|..].
    { constructor; [|done]. cbn. by rewrite andb_false_r. }
    cbn [length] in Hn. change (split_crlf (c :: d :: s)) with
      (if (c =? 13) && (d =? 10) then [] :: split_crlf s
       else match split_crlf (d :: s) with [] => [[c]] | w :: ws => (c :: w) :: ws end).
    destruct ((c =? 13) && (d =? 10)) eqn:Hcd; [constructor; [done|]; apply IH; lia|].
    assert (Forall (fun l => crlf_free l = true) (split_crlf (d :: s))) as Hrest
      by (apply IH; cbn; lia).
    destruct (split_crlf_cons d s) as (w & ws & Heq & Hw). rewrite Heq in *.
    apply Forall_cons in Hrest as [Hwf Hws]. constructor; [|done]. cbn. rewrite Hwf, andb_true_r.
    apply negb_true_iff. destruct (N.eqb_spec c 13); [|done]. cbn in *.
    destruct (starts_with 10 w); [|done]. rewrite (Hw eq_refl) in Hcd. done. }
  by eapply H.
Qed.

(** ** Prefixes, suffixes and cutting a text in two *)
Lemma strip_prefix_Some p s r : strip_prefix p s = Some r <-> s = p ++ r.
Proof.
  revert s. induction p as [|c p IH]; intros s; cbn; [naive_solver|].
  destruct s as [|d s]; cbn; [naive_solver|]. destruct (N.eqb_spec c d); [|naive_solver].
  rewrite IH. naive_solver.
Qed.
Lemma strip_suffix_Some p s r : strip_suffix p s = Some r <-> s = r ++ p.
Proof.
  unfold strip_suffix. rewrite fmap_Some. setoid_rewrite strip_prefix_Some. split.
  - intros (x & Hs & ->). apply (f_equal (@rev N)) in Hs.
    by rewrite rev_involutive, rev_app_distr, rev_involutive in Hs.
  - intros ->. exists (rev r). by rewrite rev_app_distr, rev_involutive.
Qed.
Lemma split_once_free c s t : c ∉ s -> split_once c (s ++ c :: t) = Some (s, t).
Proof.
  induction s as [|d s IH]; intros Hs; cbn.
  - by rewrite N.eqb_refl.
  - apply not_elem_of_cons in Hs as [Hd Hs]. rewrite (proj2 (N.eqb_neq d c)) by congruence. by rewrite IH.
Qed.
