(* ===== verification/FakeDns.v ===== *)
(** The fake-IP table of the TUN adapter
    ([velum-adapter-tun/src/fake_dns.rs]). An [Instant] is a number of
    nanoseconds up to a platform-dependent bound, a [Duration] a number of
    nanoseconds. *)
From S2P Require Import Prelude Net Str.

Record FakeDnsMapping := {
  domain : Str;
  real_address : IpAddr;
  fake_address : IpAddr;
  map_generation : N;
  expires_at : N
}.

Inductive FakeDnsError := ZeroCapacity | EmptyDomain | GenerationMismatch | AddressSpaceExhausted.

Record FakeDnsTable := {
  generation : N;
  capacity : N;
  mappings : gmap IpAddr FakeDnsMapping;
  insertion_order : list IpAddr;
  next_ipv4 : N;
  next_ipv6 : N
}.

(** 198.18.0.1, 198.19.255.254 and fd00:19::1. *)
Definition FIRST_IPV4 : N := ipv4 198 18 0 1.
Definition LAST_IPV4 : N := ipv4 198 19 255 254.
Definition FIRST_IPV6 : N := N.shiftl 64768 112 + N.shiftl 25 96 + 1.

Definition normalize_domain (domain : Str) : result Str FakeDnsError :=
  let domain := to_ascii_lowercase (trim_end (fun c => c =? 46) (trim domain)) in
  if is_empty domain || (253 <? utf8_len domain) then Err EmptyDomain else Ok domain.

Module FakeDnsTable.
Section table.
(** The largest [Instant] of the platform; [Instant + Duration] panics
    beyond it. *)
Variable instant_max : N.

Definition set_maps (m : gmap IpAddr FakeDnsMapping) (order : list IpAddr)
    (self : FakeDnsTable) : FakeDnsTable :=
  {| generation := generation self; capacity := capacity self; mappings := m;
     insertion_order := order; next_ipv4 := next_ipv4 self; next_ipv6 := next_ipv6 self |}.
Definition set_next_ipv4 (n : N) (self : FakeDnsTable) : FakeDnsTable :=
  {| generation := generation self; capacity := capacity self; mappings := mappings self;
     insertion_order := insertion_order self; next_ipv4 := n; next_ipv6 := next_ipv6 self |}.
Definition set_next_ipv6 (n : N) (self : FakeDnsTable) : FakeDnsTable :=
  {| generation := generation self; capacity := capacity self; mappings := mappings self;
     insertion_order := insertion_order self; next_ipv4 := next_ipv4 self; next_ipv6 := n |}.

Definition new (generation capacity : N) : result FakeDnsTable FakeDnsError :=
  if capacity =? 0 then Err ZeroCapacity
  else Ok {| generation := generation; capacity := capacity; mappings := ∅;
             insertion_order := []; next_ipv4 := FIRST_IPV4; next_ipv6 := FIRST_IPV6 |}.

Definition live (now : N) (mapping : FakeDnsMapping) : bool := now <? expires_at mapping.

(** Both [retain]s. *)
Definition remove_expired (now : N) (self : FakeDnsTable) : FakeDnsTable :=
  let m := filter (fun e => live now e.2 = true) (mappings self) in
  set_maps m (filter (fun a => is_Some (m !! a)) (insertion_order self)) self.

(** One candidate of [next_address]; [checked_add] leaves the cursor alone
    when it fails. *)
Definition candidate (real : IpAddr) : M FakeDnsTable FakeDnsError IpAddr :=
  let! self := get in
  match real with
  | V4 _ =>
    let address := next_ipv4 self in
    let! next := ok_or (checked_add U32_MAX (next_ipv4 self) 1) AddressSpaceExhausted in
    modify (set_next_ipv4 next) ;!
    (if LAST_IPV4 <? next then modify (set_next_ipv4 FIRST_IPV4) else ret tt) ;!
    ret (V4 address)
  | V6 _ =>
    let address := next_ipv6 self in
    let! next := ok_or (checked_add U128_MAX (next_ipv6 self) 1) AddressSpaceExhausted in
    modify (set_next_ipv6 next) ;!
    ret (V6 address)
  end.

(** The loop of [next_address], [attempts] iterations of it. *)
Fixpoint try_addresses (attempts : nat) (real : IpAddr) : M FakeDnsTable FakeDnsError IpAddr :=
  match attempts with
  | O => throw AddressSpaceExhausted
  | S attempts =>
    let! address := candidate real in
    let! self := get in
    if bool_decide (is_Some (mappings self !! address)) then try_addresses attempts real
    else ret address
  end.

Definition next_address (real : IpAddr) : M FakeDnsTable FakeDnsError IpAddr :=
  let! self := get in
  try_addresses (S (N.to_nat (capacity self))) real.

(** The eviction loop of [allocate], on the map and the insertion order. *)
Fixpoint evict (capacity : N) (order : list IpAddr) (m : gmap IpAddr FakeDnsMapping)
  : gmap IpAddr FakeDnsMapping * list IpAddr :=
  if capacity <=? N.of_nat (size m) then
    match order with
    | [] => (m, [])
    | oldest :: order => evict capacity order (delete oldest m)
    end
  else (m, order).

Definition matches (domain' : Str) (real : IpAddr) (e : IpAddr * FakeDnsMapping) : bool :=
  bool_decide (domain e.2 = domain') && bool_decide (real_address e.2 = real).

Definition allocate (gen : N) (domain : Str) (real : IpAddr) (ttl now : N)
  : M FakeDnsTable FakeDnsError IpAddr :=
  let! self := get in
  reject_if (negb (gen =? generation self)) GenerationMismatch ;!
  let! domain := lift_result id (normalize_domain domain) in
  modify (remove_expired now) ;!
  let! self := get in
  match List.find (matches domain real) (map_to_list (mappings self)) with
  | Some (key, existing) =>
    let! expires := expect (checked_add instant_max now ttl) in
    modify (fun self => set_maps
      (<[key := {| domain := FakeDns.domain existing; real_address := real_address existing;
                   fake_address := fake_address existing;
                   map_generation := map_generation existing; expires_at := expires |}]>
         (mappings self)) (insertion_order self) self) ;!
    ret (fake_address existing)
  | None =>
    modify (fun self =>
      let '(m, order) := evict (capacity self) (insertion_order self) (mappings self) in
      set_maps m order self) ;!
    let! address := next_address real in
    modify (fun self => set_maps (mappings self) (insertion_order self ++ [address]) self) ;!
    let! expires := expect (checked_add instant_max now ttl) in
    modify (fun self => set_maps
      (<[address := {| domain := domain; real_address := real; fake_address := address;
                       map_generation := gen; expires_at := expires |}]> (mappings self))
      (insertion_order self) self) ;!
    ret address
  end.

Definition resolve (gen : N) (address : IpAddr) (now : N)
  : M FakeDnsTable FakeDnsError (option FakeDnsMapping) :=
  let! self := get in
  reject_if (negb (gen =? generation self)) GenerationMismatch ;!
  modify (remove_expired now) ;!
  let! self := get in
  ret (mappings self !! address).

Definition replace_generation (gen : N) (self : FakeDnsTable) : FakeDnsTable :=
  {| generation := gen; capacity := capacity self; mappings := ∅; insertion_order := [];
     next_ipv4 := next_ipv4 self; next_ipv6 := next_ipv6 self |}.
End table.
End FakeDnsTable.

(** ** Invariant *)
Definition same_family (a b : IpAddr) : Prop :=
  match a, b with V4 _, V4 _ | V6 _, V6 _ => True | _, _ => False end.

Record table_ok (t : FakeDnsTable) : Prop := {
  to_capacity : 0 < capacity t /\ N.of_nat (size (mappings t)) <= capacity t;
  to_order : NoDup (insertion_order t) /\
    forall a, a ∈ insertion_order t <-> is_Some (mappings t !! a);
  to_mapping : forall a m, mappings t !! a = Some m ->
    fake_address m = a /\ map_generation m = generation t /\ same_family a (real_address m);
  to_unique : forall a b m n, mappings t !! a = Some m -> mappings t !! b = Some n ->
    domain m = domain n -> real_address m = real_address n -> a = b;
  to_ipv4 : FIRST_IPV4 <= next_ipv4 t <= LAST_IPV4
}.

Lemma order_size t : table_ok t -> length (insertion_order t) = size (mappings t).
Proof.
  intros [_ [Hnd Hin] _ _ _]. rewrite <-size_dom.
  rewrite <-(size_list_to_set (C := gset IpAddr)) by done. f_equal.
  apply leibniz_equiv. intros a. by rewrite elem_of_list_to_set, elem_of_dom.
Qed.

Lemma remove_expired_lookup now t a m :
  mappings (FakeDnsTable.remove_expired now t) !! a = Some m <->
  mappings t !! a = Some m /\ now < expires_at m.
Proof.
  unfold FakeDnsTable.remove_expired. cbn [FakeDnsTable.set_maps mappings].
  rewrite map_lookup_filter_Some. cbn. unfold FakeDnsTable.live. by rewrite N.ltb_lt.
Qed.

Lemma map_filter_size {A} (P : IpAddr * A -> Prop) `{!forall x, Decision (P x)} (m : gmap IpAddr A) :
  (size (filter P m) <= size m)%nat.
Proof. apply map_subseteq_size, map_filter_subseteq. Qed.

Lemma remove_expired_ok now t : table_ok t -> table_ok (FakeDnsTable.remove_expired now t).
Proof.
  intros HI. pose proof HI as [Hc [Hnd Hin] Hm Hu H4].
  assert (Hlook : forall a m, mappings (FakeDnsTable.remove_expired now t) !! a = Some m ->
    mappings t !! a = Some m) by (intros a m [? _]%remove_expired_lookup; done).
  constructor.
  - destruct Hc as [? Hs]. split; [done|]. cbn [FakeDnsTable.remove_expired FakeDnsTable.set_maps
      mappings capacity]. etransitivity; [|exact Hs].
    pose proof (map_filter_size (fun e => FakeDnsTable.live now e.2 = true) (mappings t)). lia.
  - split; [by apply NoDup_filter|]. intros a. cbn [FakeDnsTable.remove_expired
      FakeDnsTable.set_maps insertion_order mappings]. rewrite list_elem_of_filter.
    split; [by intros [? _]|]. intros Hs. split; [done|]. apply Hin.
    destruct Hs as [m Hs]. exists m. by apply Hlook.
  - intros a m Ha%Hlook. by apply Hm.
  - intros a b m n Ha%Hlook Hb%Hlook. by eapply Hu.
  - done.
Qed.

(** ** Allocation *)
Definition POOL_IPV4 : N := LAST_IPV4 - FIRST_IPV4 + 1.

(** The [i]-th candidate from the cursor. *)
Definition nth_candidate (real : IpAddr) (t : FakeDnsTable) (i : N) : IpAddr :=
  match real with
  | V4 _ => V4 (FIRST_IPV4 + (next_ipv4 t - FIRST_IPV4 + i) mod POOL_IPV4)
  | V6 _ => V6 (next_ipv6 t + i)
  end.

(** The IPv6 cursor has room for [k] candidates. *)
Definition has_room (real : IpAddr) (t : FakeDnsTable) (k : N) : Prop :=
  match real with V4 _ => True | V6 _ => next_ipv6 t + k <= U128_MAX end.

(** Only the cursors moved, within their range. *)
Definition moved (t t' : FakeDnsTable) : Prop :=
  t' = FakeDnsTable.set_next_ipv4 (next_ipv4 t') (FakeDnsTable.set_next_ipv6 (next_ipv6 t') t) /\
  FIRST_IPV4 <= next_ipv4 t' <= LAST_IPV4.

Lemma moved_maps t t' : moved t t' -> mappings t' = mappings t /\
  insertion_order t' = insertion_order t /\ capacity t' = capacity t /\ generation t' = generation t.
Proof. intros [-> _]. done. Qed.

Lemma moved_trans t u v : moved t u -> moved u v -> moved t v.
Proof. intros [Hu _] [Hv Hr]. split; [|done]. rewrite Hv at 1. rewrite Hu. done. Qed.

Lemma moved_ok t t' : moved t t' -> table_ok t -> table_ok t'.
Proof. intros [Ht Hr] []. rewrite Ht in *. by constructor. Qed.

Lemma wp_candidate real t (Q : result IpAddr FakeDnsError -> FakeDnsTable -> Prop) :
  FIRST_IPV4 <= next_ipv4 t <= LAST_IPV4 ->
  (~ has_room real t 1 -> Q (Err AddressSpaceExhausted) t) ->
  (forall t', moved t t' -> (forall i, nth_candidate real t' i = nth_candidate real t (i + 1)) ->
    (forall k, has_room real t (k + 1) -> has_room real t' k) ->
    same_family (nth_candidate real t 0) real ->
    Q (Ok (nth_candidate real t 0)) t') ->
  wp (FakeDnsTable.candidate real) t Q.
Proof.
  intros Hr He HQ. unfold FakeDnsTable.candidate. wp_step. destruct real as [r|r].
  - assert (LAST_IPV4 + 1 <= U32_MAX) as Hmax by done.
    wp_step; [match goal with H : _ = None |- _ => unfold checked_add in H; rename H into Hn end|].
    { rewrite (proj2 (N.leb_le _ _)) in Hn by lia. done. }
    match goal with H : _ = Some _ |- _ => apply checked_add_Some in H as [-> _] end.
    assert (nth_candidate (V4 r) t 0 = V4 (next_ipv4 t)) as Hc.
    { cbn. f_equal. rewrite N.add_0_r, N.mod_small; unfold POOL_IPV4; lia. }
    wp_step. destruct (N.ltb_spec LAST_IPV4 (next_ipv4 t + 1)) as [Hl|Hl]; wp_steps;
      rewrite <-Hc; (apply HQ; [split; [done|cbn; lia]|intros i|done|done]); cbn; f_equal; f_equal.
    + replace (next_ipv4 t) with LAST_IPV4 by lia.
      rewrite N.sub_diag, N.add_0_l. change (LAST_IPV4 - FIRST_IPV4) with (POOL_IPV4 - 1).
      replace (POOL_IPV4 - 1 + (i + 1)) with (i + 1 * POOL_IPV4)
        by (assert (0 < POOL_IPV4) by done; lia).
      by rewrite N.Div0.mod_add.
    + f_equal. lia.
  - wp_step.
    + apply He. cbn. match goal with H : _ = None |- _ => unfold checked_add in H end.
      destruct (N.leb_spec (next_ipv6 t + 1) U128_MAX); [done|lia].
    + match goal with H : _ = Some _ |- _ => apply checked_add_Some in H as [-> _] end.
      wp_steps. replace (V6 (next_ipv6 t)) with (nth_candidate (V6 r) t 0)
        by (cbn; f_equal; lia).
      apply HQ; try done.
      * intros i. cbn. f_equal. lia.
      * intros k. cbn. lia.
Qed.

Lemma try_addresses_spec k real t :
  FIRST_IPV4 <= next_ipv4 t <= LAST_IPV4 ->
  wp (FakeDnsTable.try_addresses k real) t (fun r t' => moved t t' /\
    match r with
    | Ok a => mappings t !! a = None /\ same_family a real
    | Err e => e = AddressSpaceExhausted /\
        (has_room real t (N.of_nat k) -> forall i, i < N.of_nat k ->
         is_Some (mappings t !! nth_candidate real t i))
    end).
Proof.
  revert t. induction k as [|k IH]; intros t Hr; cbn [FakeDnsTable.try_addresses].
  { apply wp_throw. split; [by destruct t|]. split; [done|]. lia. }
  apply wp_bind, wp_candidate; [done| |].
  { intros Hroom. split; [by destruct t|]. split; [done|]. intros H. exfalso. apply Hroom.
    destruct real; cbn in *; [done|lia]. }
  intros t1 Hmv Hnth Hroom Hfam. wp_step.
  destruct (moved_maps _ _ Hmv) as (Hmap & _). rewrite Hmap.
  case_bool_decide as Hs.
  - eapply wp_mono; [apply IH; by destruct Hmv|]. intros r t' [Hmv' Hres].
    split; [by eapply moved_trans|]. rewrite Hmap in Hres. destruct r as [a|e]; [done|].
    destruct Hres as [-> Hall]. split; [done|]. intros Hk i Hi.
    destruct (N.eq_0_gt_0_cases i) as [->|Hpos]; [done|].
    replace i with ((i - 1) + 1) by lia. rewrite <-Hnth. apply Hall; [|lia].
    apply Hroom. by replace (N.of_nat k + 1) with (N.of_nat (S k)) by lia.
  - apply wp_ret. split; [done|]. split; [by apply eq_None_not_Some|done].
Qed.

(** The eviction drops the oldest insertions, until there is room for one. *)
Lemma evict_spec cap order m :
  0 < cap -> NoDup order -> (forall a, a ∈ order <-> is_Some (m !! a)) ->
  exists dropped,
    order = dropped ++ (FakeDnsTable.evict cap order m).2 /\
    (forall a, (FakeDnsTable.evict cap order m).1 !! a =
       if decide (a ∈ dropped) then None else m !! a) /\
    N.of_nat (size (FakeDnsTable.evict cap order m).1) < cap /\
    (N.of_nat (size m) < cap -> dropped = []).
Proof.
  intros Hcap. revert m. induction order as [|o order IH]; intros m Hnd Hin;
    cbn [FakeDnsTable.evict]; destruct (N.leb_spec cap (N.of_nat (size m))) as [Hle|Hlt].
  - exfalso. assert (m = ∅) as ->.
    { apply map_empty. intros a. apply eq_None_not_Some. intros Ha%Hin. by apply not_elem_of_nil in Ha. }
    rewrite map_size_empty in Hle. lia.
  - exists []. split_and!; [done| |done|done]. intros a. by rewrite decide_False by apply not_elem_of_nil.
  - apply NoDup_cons in Hnd as [Ho Hnd].
    destruct (IH (delete o m) Hnd) as (dropped & Heq & Hlook & Hsize & _).
    { intros a. rewrite lookup_delete_is_Some, <-Hin, elem_of_cons.
      split; [intros Ha; split; [by intros ->|auto]|by intros [Hne [->|?]]]. }
    exists (o :: dropped). split_and!; [by rewrite Heq at 1| |done|lia].
    intros a. rewrite Hlook. destruct (decide (a ∈ dropped)) as [Hd|Hd].
    + rewrite decide_True; [done|]. by right.
    + destruct (decide (a = o)) as [->|Hne].
      * rewrite lookup_delete_eq, decide_True; [done|]. by left.
      * rewrite lookup_delete_ne by done. rewrite decide_False; [done|].
        by intros [|]%elem_of_cons.
  - exists []. split_and!; [done| |done|done]. intros a. by rewrite decide_False by apply not_elem_of_nil.
Qed.

(** The table is never over its capacity, so at most one insertion goes, the oldest. *)
Lemma evict_step cap order m a :
  0 < cap -> NoDup order -> (forall a, a ∈ order <-> is_Some (m !! a)) -> N.of_nat (size m) <= cap ->
  ~ (cap <= N.of_nat (size m) /\ head order = Some a) ->
  (FakeDnsTable.evict cap order m).1 !! a = m !! a.
Proof.
  intros Hcap Hnd Hin Hsize Ha. destruct order as [|o order]; cbn [FakeDnsTable.evict];
    destruct (N.leb_spec cap (N.of_nat (size m))) as [Hle|Hlt]; [done..| |done].
  assert (o <> a) as Hne by (intros ->; by apply Ha).
  assert (is_Some (m !! o)) as [x Hx] by (apply Hin; by left).
  assert (N.of_nat (size (delete o m)) < cap) as Hs.
  { rewrite map_size_delete_Some by (by eexists). lia. }
  assert (FakeDnsTable.evict cap order (delete o m) = (delete o m, order)) as ->.
  { destruct order; cbn [FakeDnsTable.evict]; by rewrite (proj2 (N.leb_gt _ _) Hs). }
  cbn. by rewrite lookup_delete_ne.
Qed.

(** The table once room was made. *)
Definition with_room (t : FakeDnsTable) : FakeDnsTable :=
  let '(m, order) := FakeDnsTable.evict (capacity t) (insertion_order t) (mappings t) in
  FakeDnsTable.set_maps m order t.

Lemma with_room_ok t :
  table_ok t -> table_ok (with_room t) /\
    N.of_nat (size (mappings (with_room t))) < capacity t /\
    (forall a m, mappings (with_room t) !! a = Some m -> mappings t !! a = Some m) /\
    generation (with_room t) = generation t /\ capacity (with_room t) = capacity t.
Proof.
  intros [[Hc Hs] [Hnd Hin] Hm Hu H4]. unfold with_room.
  destruct (evict_spec (capacity t) (insertion_order t) (mappings t) Hc Hnd Hin)
    as (dropped & Hord & Hlook & Hsize & _).
  destruct (FakeDnsTable.evict _ _ _) as [m order]. cbn [fst snd] in *.
  assert (Hsub : forall a x, m !! a = Some x -> mappings t !! a = Some x).
  { intros a x Ha. rewrite Hlook in Ha. by destruct (decide _). }
  split_and!; try done. rewrite Hord in Hnd. apply NoDup_app in Hnd as (_ & Hdis & Hnd).
  constructor; cbn [FakeDnsTable.set_maps capacity mappings insertion_order generation next_ipv4].
  - split; [done|lia].
  - split; [done|]. intros a. rewrite Hlook. specialize (Hin a). rewrite Hord, elem_of_app in Hin.
    destruct (decide (a ∈ dropped)) as [Hd|Hd].
    + split; [|by intros []]. intros Ha. by destruct (Hdis a Hd).
    + rewrite <-Hin. tauto.
  - intros a x Ha%Hsub. by apply Hm.
  - intros a b x y Ha%Hsub Hb%Hsub. by eapply Hu.
  - done.
Qed.

Lemma table_ok_insert t a d real g e :
  table_ok t -> N.of_nat (size (mappings t)) < capacity t ->
  mappings t !! a = None -> same_family a real -> g = generation t ->
  (forall b m, mappings t !! b = Some m -> domain m = d -> real_address m = real -> False) ->
  table_ok (FakeDnsTable.set_maps
    (<[a := {| domain := d; real_address := real; fake_address := a; map_generation := g;
               expires_at := e |}]> (mappings t)) (insertion_order t ++ [a]) t).
Proof.
  intros [[Hc Hs] [Hnd Hin] Hm Hu H4] Hroom Ha Hfam -> Hnew.
  constructor; cbn [FakeDnsTable.set_maps capacity mappings insertion_order generation next_ipv4].
  - split; [done|]. rewrite map_size_insert_None by done. lia.
  - split.
    + apply NoDup_app. split_and!; [done| |by apply NoDup_singleton].
      intros b Hb%Hin ->%list_elem_of_singleton. rewrite Ha in Hb. by destruct Hb.
    + intros b. rewrite elem_of_app, list_elem_of_singleton, Hin. destruct (decide (b = a)) as [->|Hne].
      * rewrite lookup_insert_eq. split; [by eexists|by right].
      * rewrite lookup_insert_ne by done. split; [by intros [?|?]|by left].
  - intros b x [[<- <-]|[_ Hx]]%lookup_insert_Some; [done|by apply Hm].
  - intros b c x y [[<- <-]|[_ Hx]]%lookup_insert_Some [[<- <-]|[_ Hy]]%lookup_insert_Some Hd Hr;
      cbn in Hd, Hr; [done| | |by eapply Hu].
    + exfalso. by eapply (Hnew c y).
    + exfalso. by eapply (Hnew b x).
  - done.
Qed.

Lemma table_ok_renew t a m e :
  table_ok t -> mappings t !! a = Some m ->
  table_ok (FakeDnsTable.set_maps
    (<[a := {| domain := domain m; real_address := real_address m;
               fake_address := fake_address m; map_generation := map_generation m;
               expires_at := e |}]> (mappings t)) (insertion_order t) t).
Proof.
  intros [[Hc Hs] [Hnd Hin] Hm Hu H4] Ha.
  constructor; cbn [FakeDnsTable.set_maps capacity mappings insertion_order generation next_ipv4].
  - split; [done|]. by rewrite map_size_insert_Some by (by eexists).
  - split; [done|]. intros b. rewrite Hin. destruct (decide (b = a)) as [->|Hne].
    + rewrite lookup_insert_eq, Ha. split; by eexists.
    + by rewrite lookup_insert_ne.
  - intros b x [[<- <-]|[_ Hx]]%lookup_insert_Some; [by apply (Hm a m)|by apply Hm].
  - intros b c x y [[<- <-]|[_ Hx]]%lookup_insert_Some [[<- <-]|[_ Hy]]%lookup_insert_Some Hd Hr;
      cbn in Hd, Hr; [done|by eapply Hu|by eapply Hu|by eapply Hu].
  - done.
Qed.

(** The live mapping of a name and a real address, if there is one. *)
Definition live_mapping (t : FakeDnsTable) (now : N) (d : Str) (real a : IpAddr) : Prop :=
  exists m, mappings t !! a = Some m /\ now < expires_at m /\ domain m = d /\ real_address m = real.

Lemma find_mapping t d real :
  match List.find (FakeDnsTable.matches d real) (map_to_list (mappings t)) with
  | Some (a, m) => mappings t !! a = Some m /\ domain m = d /\ real_address m = real
  | None => forall a m, mappings t !! a = Some m -> domain m = d -> real_address m = real -> False
  end.
Proof.
  destruct (List.find _ _) as [[a m]|] eqn:Hf.
  - apply find_some in Hf as [Hin Hm]. apply list_elem_of_In, elem_of_map_to_list in Hin.
    apply andb_true_iff in Hm as [H1%bool_decide_eq_true H2%bool_decide_eq_true]. done.
  - intros a m Ha Hd Hr. apply (find_none _ _) with (x := (a, m)) in Hf;
      [|by apply list_elem_of_In, elem_of_map_to_list].
    apply andb_false_iff in Hf as [Hf%bool_decide_eq_false|Hf%bool_decide_eq_false]; done.
Qed.

(** The address that an allocation of a new name gives up: the oldest insertion
    that is not over, if the table is full of such. *)
Definition evicted (now : N) (t : FakeDnsTable) (a : IpAddr) : Prop :=
  let t := FakeDnsTable.remove_expired now t in
  capacity t <= N.of_nat (size (mappings t)) /\ head (insertion_order t) = Some a.

(** A mapping that is neither over nor evicted is kept. *)
Definition spared (now : N) (t t' : FakeDnsTable) : Prop :=
  forall b m, mappings t !! b = Some m -> now < expires_at m -> ~ evicted now t b ->
    mappings t' !! b = Some m.

Lemma with_room_spared now t :
  table_ok t -> spared now t (with_room (FakeDnsTable.remove_expired now t)).
Proof.
  intros HI b m Hb Hlive Hev. pose proof (remove_expired_ok now t HI) as HI1.
  assert (mappings (FakeDnsTable.remove_expired now t) !! b = Some m) as Hb1 by (by apply remove_expired_lookup).
  unfold evicted in Hev. set (t1 := FakeDnsTable.remove_expired now t) in *.
  pose proof (evict_step (capacity t1) (insertion_order t1) (mappings t1) b) as Hone.
  unfold with_room. destruct (FakeDnsTable.evict _ _ _) as [m' order'].
  cbn [fst FakeDnsTable.set_maps mappings] in *. rewrite Hone; [done|..]; try apply HI1. done.
Qed.

(** The mapping an allocation leaves. *)
Definition new_mapping (g : N) (d : Str) (real a : IpAddr) (e : N) : FakeDnsMapping :=
  {| domain := d; real_address := real; fake_address := a; map_generation := g; expires_at := e |}.

(** No address is free among the candidates of one allocation. *)
Definition exhausted (real : IpAddr) (t : FakeDnsTable) : Prop :=
  has_room real t (capacity t + 1) ->
  exists t1, (forall a m, mappings t1 !! a = Some m -> mappings t !! a = Some m) /\
    N.of_nat (size (mappings t1)) < capacity t /\
    forall i, i < capacity t + 1 -> is_Some (mappings t1 !! nth_candidate real t i).

Lemma wp_allocate imax g dom real ttl now d t
    (Q : result IpAddr FakeDnsError -> FakeDnsTable -> Prop) :
  table_ok t -> g = generation t -> normalize_domain dom = Ok d -> now + ttl <= imax ->
  (forall a t', table_ok t' -> generation t' = generation t ->
    mappings t' !! a = Some (new_mapping g d real a (now + ttl)) ->
    (forall b m, b <> a -> mappings t' !! b = Some m ->
      mappings t !! b = Some m /\ now < expires_at m) ->
    (live_mapping t now d real a /\
       (forall b m, b <> a -> mappings t !! b = Some m -> now < expires_at m ->
          mappings t' !! b = Some m) \/
     (forall b, ~ live_mapping t now d real b) /\ spared now t t') ->
    Q (Ok a) t') ->
  (forall t', table_ok t' -> generation t' = generation t -> exhausted real t ->
   (forall b, ~ live_mapping t now d real b) -> spared now t t' ->
   Q (Err AddressSpaceExhausted) t') ->
  wp (FakeDnsTable.allocate imax g dom real ttl now) t Q.
Proof.
  intros HI -> Hd Ht HQ He. unfold FakeDnsTable.allocate. wp_step.
  rewrite N.eqb_refl, Hd. cbn [negb reject_if lift_result]. do 4 wp_step.
  pose proof (remove_expired_ok now t HI) as HI1.
  set (t1 := FakeDnsTable.remove_expired now t) in *.
  pose proof (find_mapping t1 d real) as Hfind.
  destruct (List.find _ _) as [[k m]|].
  - destruct Hfind as (Hk & Hmd & Hmr). wp_steps; [done|].
    destruct (to_mapping _ HI1 k m Hk) as (Hfk & Hgm & _).
    pose proof Hk as [Hkt Hlive]%remove_expired_lookup.
    pose proof (table_ok_renew t1 k m (now + ttl) HI1 Hk) as HI2.
    rewrite Hfk in *. apply HQ; try done.
    + cbn. rewrite lookup_insert_eq. unfold new_mapping. by rewrite Hmd, Hmr, Hgm.
    + intros b x Hne. cbn. rewrite lookup_insert_ne by done. apply remove_expired_lookup.
    + left. split; [by exists m|]. intros b x Hne Hb Hx. cbn. rewrite lookup_insert_ne by done.
      by apply remove_expired_lookup.
  - wp_step. fold (with_room t1).
    destruct (with_room_ok t1 HI1) as (HI2 & Hroom & Hsub & Hg2 & Hc2).
    pose proof (with_room_spared now t HI) as Hspared. fold t1 in Hspared.
    assert (forall b, ~ live_mapping t now d real b) as Hno.
    { intros b (m & Hb & Hx & Hmd & Hmr). apply (Hfind b m); [by apply remove_expired_lookup|done|done]. }
    set (t2 := with_room t1) in *. apply wp_bind. unfold FakeDnsTable.next_address. wp_step.
    eapply wp_mono; [apply try_addresses_spec; by destruct HI2|].
    intros r t3 [Hmv Hres]. pose proof (moved_ok _ _ Hmv HI2) as HI3.
    destruct (moved_maps _ _ Hmv) as (Hmap & Hord & Hcap & Hgen).
    destruct r as [a|e].
    + destruct Hres as [Hfree Hfam]. wp_steps; [done|]. cbn [FakeDnsTable.set_maps mappings insertion_order].
      assert (HI4 := table_ok_insert t3 a d real (generation t) (now + ttl) HI3).
      apply HQ; cbn [FakeDnsTable.set_maps mappings insertion_order generation].
      * apply HI4; [by rewrite Hmap, Hcap, Hc2|by rewrite Hmap|done|by rewrite Hgen, Hg2|].
        intros b m Hb. rewrite Hmap in Hb. apply Hsub in Hb. by eapply Hfind.
      * by rewrite Hgen, Hg2.
      * by rewrite lookup_insert_eq.
      * intros b m Hne Hb. rewrite lookup_insert_ne, Hmap in Hb by done.
        by apply remove_expired_lookup, Hsub.
      * right. split; [done|]. intros b m Hb Hx Hev. specialize (Hspared b m Hb Hx Hev). cbn.
        rewrite lookup_insert_ne, Hmap; [done|]. intros ->. congruence.
    + destruct Hres as [-> Hall].
      apply He; [done|by rewrite Hgen, Hg2| |done|intros b m Hb Hx Hev; rewrite Hmap; by apply Hspared].
      intros Hrm.
      assert (Hcur : forall i, nth_candidate real t2 i = nth_candidate real t i).
      { intros i. unfold t2, with_room. by destruct (FakeDnsTable.evict _ _ _). }
      exists t2. split_and!.
      * intros b m Hb%Hsub. by apply remove_expired_lookup in Hb as [? _].
      * done.
      * intros i Hi. rewrite <-Hcur. apply Hall; [|rewrite Hc2; cbn; lia].
        unfold has_room in *. destruct real; [done|].
        assert (next_ipv6 t2 = next_ipv6 t) as ->
          by (unfold t2, with_room; by destruct (FakeDnsTable.evict _ _ _)).
        rewrite Hc2. cbn [FakeDnsTable.remove_expired FakeDnsTable.set_maps capacity t1]. lia.
Qed.

(** The address pool is larger than the table. *)
Definition available (real : IpAddr) (t : FakeDnsTable) : Prop :=
  match real with
  | V4 _ => capacity t < POOL_IPV4
  | V6 _ => next_ipv6 t + (capacity t + 1) <= U128_MAX
  end.

Lemma nth_candidate_inj real t i j :
  available real t -> i < capacity t + 1 -> j < capacity t + 1 ->
  nth_candidate real t i = nth_candidate real t j -> i = j.
Proof.
  intros Hav Hi Hj. destruct real as [r|r]; cbn in *; intros [= Heq]; [|lia].
  set (x := next_ipv4 t - FIRST_IPV4) in *.
  assert (Hp : 0 < POOL_IPV4) by lia.
  assert (Hm : (x + i) mod POOL_IPV4 = (x + j) mod POOL_IPV4) by lia.
  pose proof (N.div_mod' (x + i) POOL_IPV4) as H1. pose proof (N.div_mod' (x + j) POOL_IPV4) as H2.
  rewrite Hm in H1. generalize dependent ((x + i) / POOL_IPV4). intros q1 H1.
  generalize dependent ((x + j) / POOL_IPV4). intros q2 H2.
  generalize dependent ((x + j) mod POOL_IPV4). intros m _ _ H1 H2.
  generalize dependent POOL_IPV4. intros p. clearbody x. intros.
  destruct (N.lt_trichotomy q1 q2) as [Hq|[->|Hq]]; [|lia|]; nia.
Qed.

Lemma not_exhausted real t : available real t -> ~ exhausted real t.
Proof.
  intros Hav Hex. destruct Hex as (t1 & _ & Hsize & Hall).
  { destruct real; [done|exact Hav]. }
  set (cs := (fun n => nth_candidate real t (N.of_nat n)) <$> seq 0 (S (N.to_nat (capacity t)))).
  assert (NoDup cs) as Hnd.
  { apply NoDup_fmap_2_strong; [|apply NoDup_seq].
    intros i j Hi%elem_of_seq Hj%elem_of_seq Heq.
    apply nth_candidate_inj in Heq; [lia|done|lia|lia]. }
  assert (list_to_set cs ⊆ dom (mappings t1)) as Hsub.
  { intros a Ha%elem_of_list_to_set. apply list_elem_of_fmap in Ha as (n & -> & Hn%elem_of_seq).
    apply elem_of_dom, Hall. lia. }
  apply subseteq_size in Hsub. rewrite size_list_to_set, size_dom in Hsub by done.
  unfold cs in Hsub. rewrite length_fmap, length_seq in Hsub. lia.
Qed.










(** Availability: an allocation of a valid name fails only on a table
    as large as the address pool (131070 IPv4 addresses, or an IPv6 cursor at
    the end of the address space), however the allocations, expirations and
    evictions before it went. *)
Theorem fake_dns_available imax dom d real ttl now t :
  table_ok t -> normalize_domain dom = Ok d -> now + ttl <= imax -> available real t ->
  exists a t', FakeDnsTable.allocate imax (generation t) dom real ttl now t = Ret (Ok a, t').
Proof.
  intros HI Hd Ht Hav.
  assert (wp (FakeDnsTable.allocate imax (generation t) dom real ttl now) t
            (fun r _ => exists a, r = Ok a)) as Hwp.
  { apply (wp_allocate imax (generation t) dom real ttl now d t); [done|done|done|done|by eauto|].
    intros t' _ _ Hex. by apply not_exhausted in Hex. }
  apply wp_run in Hwp as (r & t' & Hrun & a & ->). by exists a, t'.
Qed.

(** The invariant holds of every table the operations can build. *)
Inductive table_reachable (imax : N) : FakeDnsTable -> Prop :=
| table_new g cap t : FakeDnsTable.new g cap = Ok t -> table_reachable imax t
| table_allocate g dom real ttl now t r t' :
    table_reachable imax t -> now + ttl <= imax ->
    FakeDnsTable.allocate imax g dom real ttl now t = Ret (r, t') -> table_reachable imax t'
| table_resolve g a now t r t' :
    table_reachable imax t -> FakeDnsTable.resolve g a now t = Ret (r, t') ->
    table_reachable imax t'
| table_expire now t : table_reachable imax t -> table_reachable imax (FakeDnsTable.remove_expired now t)
| table_replace g t : table_reachable imax t -> table_reachable imax (FakeDnsTable.replace_generation g t).

Lemma empty_table_ok g cap n4 n6 :
  0 < cap -> FIRST_IPV4 <= n4 <= LAST_IPV4 ->
  table_ok {| generation := g; capacity := cap; mappings := ∅; insertion_order := [];
              next_ipv4 := n4; next_ipv6 := n6 |}.
Proof.
  intros Hc Hn. constructor; cbn; try done.
  - rewrite map_size_empty. lia.
  - split; [constructor|]. intros a. rewrite lookup_empty. split; [set_solver|by intros []].
Qed.

Lemma allocate_ok imax g dom real ttl now t r t' :
  table_ok t -> now + ttl <= imax ->
  FakeDnsTable.allocate imax g dom real ttl now t = Ret (r, t') -> table_ok t'.
Proof.
  intros HI Ht Hrun. destruct (decide (g = generation t)) as [->|Hg].
  - destruct (normalize_domain dom) as [d|e] eqn:Hd.
    + refine (wp_elim _ t (fun _ t' => table_ok t') _ _ _ Hrun).
      by apply (wp_allocate imax (generation t) dom real ttl now d t).
    + unfold FakeDnsTable.allocate, bind, get, reject_if, lift_result in Hrun.
      rewrite N.eqb_refl, Hd in Hrun. by injection Hrun as <- <-.
  - apply N.eqb_neq in Hg. unfold FakeDnsTable.allocate, bind, get, reject_if in Hrun.
    rewrite Hg in Hrun. by injection Hrun as <- <-.
Qed.

Lemma resolve_ok g a now t r t' :
  table_ok t -> FakeDnsTable.resolve g a now t = Ret (r, t') -> table_ok t'.
Proof.
  intros HI Hrun. unfold FakeDnsTable.resolve, bind, get, reject_if, modify, ret in Hrun.
  destruct (negb _); injection Hrun as <- <-; [done|]. by apply remove_expired_ok.
Qed.

Lemma reachable_table_ok imax t : table_reachable imax t -> table_ok t.
Proof.
  induction 1 as [g cap t Hnew|g dom real ttl now t r t' _ IH Ht Hrun|g a now t r t' _ IH Hrun
    |now t _ IH|g t _ IH].
  - unfold FakeDnsTable.new in Hnew. destruct (N.eqb_spec cap 0); [done|]. injection Hnew as <-.
    apply empty_table_ok; [lia|by vm_compute].
  - by eapply allocate_ok.
  - by eapply resolve_ok.
  - by apply remove_expired_ok.
  - apply empty_table_ok; [apply IH|apply IH].
Qed.

(** ** At concrete inputs *)
Definition test_table : FakeDnsTable :=
  {| generation := 1; capacity := 2; mappings := ∅; insertion_order := [];
     next_ipv4 := FIRST_IPV4; next_ipv6 := FIRST_IPV6 |}.

Lemma test_table_ok : table_ok test_table.
Proof. apply (reachable_table_ok 1000), (table_new 1000 1 2). reflexivity. Qed.


Lemma fake_dns_available_witness :
  exists a t', FakeDnsTable.allocate 1000 1 (str "example.com") (V4 5) 60 10 test_table
    = Ret (Ok a, t').
Proof.
  exact (fake_dns_available 1000 (str "example.com") (str "example.com") (V4 5) 60 10 test_table
           test_table_ok ltac:(by vm_compute) ltac:(done) ltac:(by vm_compute)).
Defined.

(** On a table of two the third name takes the room of the first one, whose
    lifetime is not over. *)
Fixpoint allocate_all (names : list Str) (now : N) (t : FakeDnsTable) : option FakeDnsTable :=
  match names with
  | [] => Some t
  | name :: names =>
    match FakeDnsTable.allocate 1000 1 name (V4 5) 60 now t with
    | Ret (Ok _, t) => allocate_all names (now + 1) t
    | _ => None
    end
  end.
Definition resolved_name (now : N) (t : FakeDnsTable) : option (option Str) :=
  match FakeDnsTable.resolve 1 (V4 FIRST_IPV4) now t with
  | Ret (Ok m, _) => Some (domain <$> m)
  | _ => None
  end.
Example oldest_is_evicted :
  (t ← allocate_all [str "a.example"; str "b.example"] 10 test_table; resolved_name 20 t) = Some (Some (str "a.example")) /\
  (t ← allocate_all [str "a.example"; str "b.example"; str "c.example"] 10 test_table; resolved_name 20 t) = Some None.
Proof. by vm_compute. Qed.
