(* ===== verification/Runtime.v ===== *)
(** The client lifecycle ([velum-client-runtime/src/state.rs] and [lib.rs]).

    Every method of [ClientRuntime] that touches the state does so in one
    critical section under the mutex: each is an operation on the state here,
    and the tasks the runtime spawns interleave their critical sections with
    the caller's, in any order.  Subscribers read the published snapshot
    without the mutex, so a critical section that publishes twice, that of
    [stop], is two steps: between them the mutex is held, what does not need
    it goes on, and everybody can read the phase [Stopping]. *)
From S2P Require Import Prelude.

(** ** Phases and snapshots *)
Inductive RuntimePhase := Stopped | Connecting | Online | Stopping | Failed.

(** The client API's error, of which the runtime's failure is an image. *)
Inductive ClientError :=
| ErrorCertificate | ErrorConnectTimeout | ErrorConnection | ErrorControlTooLarge
| ErrorDatagramTooLarge | ErrorDatagramUnavailable | ErrorProtocol | ErrorTransport.

Inductive RuntimeFailure :=
| Certificate | ConnectTimeout | Connection | ControlTooLarge
| DatagramTooLarge | DatagramUnavailable | Protocol | Transport.

Definition failure_from (error : ClientError) : RuntimeFailure :=
  match error with
  | ErrorCertificate => Certificate
  | ErrorConnectTimeout => ConnectTimeout
  | ErrorConnection => Connection
  | ErrorControlTooLarge => ControlTooLarge
  | ErrorDatagramTooLarge => DatagramTooLarge
  | ErrorDatagramUnavailable => DatagramUnavailable
  | ErrorProtocol => Protocol
  | ErrorTransport => Transport
  end.

Record RuntimeSnapshot := {
  revision : N;
  generation : N;
  phase : RuntimePhase;
  failure : option RuntimeFailure
}.

Definition snapshot_default : RuntimeSnapshot :=
  {| revision := 0; generation := 0; phase := Stopped; failure := None |}.

Inductive RuntimeError := Busy | ExecutorUnavailable | NotOnline | Superseded | ClientFailed (e : ClientError).

#[export] Instance RuntimePhase_eq_dec : EqDecision RuntimePhase.
Proof. solve_decision. Defined.

(** ** Lifecycle *)
Record Lifecycle := { snapshot : RuntimeSnapshot }.

Module Lifecycle.
Section lifecycle.
Context {E : Type}.

Definition transition (ph : RuntimePhase) (f : option RuntimeFailure) : M Lifecycle E unit :=
  let! self := get in
  let! r := expect (checked_add U64_MAX (revision (snapshot self)) 1) in
  modify (fun self => {| snapshot :=
    {| revision := r; generation := generation (snapshot self); phase := ph; failure := f |} |}).

(** [self.snapshot.generation = self.snapshot.generation.checked_add(1).expect(..)] *)
Definition next_generation : M Lifecycle E unit :=
  let! self := get in
  let! g := expect (checked_add U64_MAX (generation (snapshot self)) 1) in
  modify (fun self => {| snapshot :=
    {| revision := revision (snapshot self); generation := g;
       phase := phase (snapshot self); failure := failure (snapshot self) |} |}).

Definition complete_connect (g : N) (result : result unit RuntimeFailure) : M Lifecycle E bool :=
  let! self := get in
  if negb (g =? generation (snapshot self))
     || negb (bool_decide (phase (snapshot self) = Connecting))
  then ret false
  else
    match result with
    | Ok _ => transition Online None
    | Err failure => transition Failed (Some failure)
    end ;!
    ret true.

Definition begin_stop : M Lifecycle E (option N) :=
  let! self := get in
  if bool_decide (phase (snapshot self) = Stopped) then ret None
  else
    next_generation ;!
    transition Stopping None ;!
    gets (fun self => Some (generation (snapshot self))).

Definition complete_stop (g : N) : M Lifecycle E bool :=
  let! self := get in
  if negb (g =? generation (snapshot self))
     || negb (bool_decide (phase (snapshot self) = Stopping))
  then ret false
  else transition Stopped None ;! ret true.

Definition fail_online (g : N) (f : RuntimeFailure) : M Lifecycle E bool :=
  let! self := get in
  if negb (g =? generation (snapshot self))
     || negb (bool_decide (phase (snapshot self) = Online))
  then ret false
  else transition Failed (Some f) ;! ret true.
End lifecycle.

Definition begin_connect : M Lifecycle RuntimeError N :=
  let! self := get in
  if negb (bool_decide (phase (snapshot self) = Stopped)
           || bool_decide (phase (snapshot self) = Failed))
  then throw Busy
  else
    next_generation ;!
    transition Connecting None ;!
    gets (fun self => generation (snapshot self)).
End Lifecycle.

(** ** The runtime

    Clients are numbered in the order in which connections complete. *)
Abbreviation Client := nat (only parsing).

Record RuntimeInner := {
  lifecycle : Lifecycle;
  client : option Client;
  (** The generation of the task whose handle is kept. *)
  lifecycle_task : option N;
  (** The latest snapshot of the watch channel. *)
  published : RuntimeSnapshot;
  (** The clients [close] was called on. *)
  closed : list Client
}.

Module ClientRuntime.
Section runtime.
Context {E : Type}.

Definition set_client (c : option Client) (s : RuntimeInner) : RuntimeInner :=
  {| lifecycle := lifecycle s; client := c; lifecycle_task := lifecycle_task s;
     published := published s; closed := closed s |}.
Definition set_task (t : option N) (s : RuntimeInner) : RuntimeInner :=
  {| lifecycle := lifecycle s; client := client s; lifecycle_task := t;
     published := published s; closed := closed s |}.

(** A call of the lifecycle component. *)
Definition in_lifecycle {F A} (m : M Lifecycle F A) : M RuntimeInner F A := fun s =>
  match m (lifecycle s) with
  | Ret (r, l) => Ret (r, {| lifecycle := l; client := client s;
                             lifecycle_task := lifecycle_task s;
                             published := published s; closed := closed s |})
  | Panic => Panic
  | OutOfFuel => OutOfFuel
  end.

(** [client.close()] *)
Definition close (c : Client) : M RuntimeInner E unit :=
  modify (fun s => {| lifecycle := lifecycle s; client := client s;
                      lifecycle_task := lifecycle_task s; published := published s;
                      closed := c :: closed s |}).

Definition publish {F} : M RuntimeInner F unit :=
  modify (fun s => {| lifecycle := lifecycle s; client := client s;
                      lifecycle_task := lifecycle_task s;
                      published := snapshot (lifecycle s); closed := closed s |}).

Definition clear_lifecycle_task (g : N) : M RuntimeInner E unit :=
  let! inner := get in
  if match lifecycle_task inner with Some t => t =? g | None => false end
  then modify (set_task None) else ret tt.

Definition new : RuntimeInner :=
  {| lifecycle := {| snapshot := snapshot_default |}; client := None;
     lifecycle_task := None; published := snapshot_default; closed := [] |}.

Definition complete_connect (g : N) (result : result Client ClientError)
  : M RuntimeInner E (option Client) :=
  let! inner := get in
  if negb (g =? generation (snapshot (lifecycle inner)))
     || negb (bool_decide (phase (snapshot (lifecycle inner)) = Connecting))
  then
    match result with Ok c => close c | Err _ => ret tt end ;!
    ret None
  else
    let! connected :=
      match result with
      | Ok c =>
        in_lifecycle (Lifecycle.complete_connect g (Ok tt)) ;!
        modify (set_client (Some c)) ;!
        ret (Some c)
      | Err error =>
        in_lifecycle (Lifecycle.complete_connect g (Err (failure_from error))) ;!
        ret None
      end in
    match connected with None => clear_lifecycle_task g | Some _ => ret tt end ;!
    publish ;!
    ret connected.

Definition complete_connection_closed (g : N) (f : RuntimeFailure) : M RuntimeInner E unit :=
  let! applied := in_lifecycle (Lifecycle.fail_online g f) in
  if negb applied then ret tt
  else
    modify (set_client None) ;!
    clear_lifecycle_task g ;!
    publish.

(** The critical section of [stop] up to its first publication: the
    generation that is being stopped, unless there is nothing to stop. *)
Definition stop_begin : M RuntimeInner E (option N) :=
  let! begun := in_lifecycle Lifecycle.begin_stop in
  match begun with
  | None => ret None
  | Some g => publish ;! ret (Some g)
  end.

(** The rest of it, up to the second publication: the task whose handle it
    takes, aborts and, once the mutex is free, joins. *)
Definition stop_finish (g : N) : M RuntimeInner E (option N) :=
  let! task := gets lifecycle_task in
  modify (set_task None) ;!
  let! inner := get in
  match client inner with
  | Some c => modify (set_client None) ;! close c
  | None => ret tt
  end ;!
  in_lifecycle (Lifecycle.complete_stop g) ;!
  publish ;!
  ret task.

(** [stop]: the generation it returns, and the task that it joins. *)
Definition stop : M RuntimeInner E (N * option N) :=
  let! begun := stop_begin in
  match begun with
  | None => let! inner := get in ret (generation (snapshot (lifecycle inner)), None)
  | Some g => let! task := stop_finish g in ret (g, task)
  end.

(** [Drop::drop]: the task whose handle it aborts. *)
Definition drop : M RuntimeInner E (option N) :=
  let! task := gets lifecycle_task in
  modify (set_task None) ;!
  let! inner := get in
  match client inner with
  | Some c => modify (set_client None) ;! close c
  | None => ret tt
  end ;!
  ret task.

Definition is_generation_online (s : RuntimeInner) (g : N) : bool :=
  (generation (published s) =? g) && bool_decide (phase (published s) = Online).
End runtime.

(** The critical section of [start_with], once the executor is known. *)
Definition start_with (executor : bool) : M RuntimeInner RuntimeError N :=
  reject_if (negb executor) ExecutorUnavailable ;!
  let! g := in_lifecycle Lifecycle.begin_connect in
  publish ;!
  modify (set_task (Some g)) ;!
  ret g.

Definition active_client : M RuntimeInner RuntimeError (N * Client) :=
  let! inner := get in
  if negb (bool_decide (phase (snapshot (lifecycle inner)) = Online)) then throw NotOnline
  else
    match client inner with
    | Some c => ret (generation (snapshot (lifecycle inner)), c)
    | None => throw NotOnline
    end.

(** [open_stream] around the client's own [await]: first the client, then,
    after the stream opened, the check that it is still the one. *)
Definition open_stream_check (g : N) (opened : result unit ClientError)
  : M RuntimeInner RuntimeError N :=
  match opened with
  | Err e => throw (ClientFailed e)
  | Ok _ =>
    let! s := get in
    reject_if (negb (is_generation_online s g)) Superseded ;!
    ret g
  end.

(** [send_datagram]: the client's answer comes at once, without an [await] between. *)
Definition send_datagram (sent : Client -> result unit ClientError) : M RuntimeInner RuntimeError unit :=
  let! active := active_client in
  match sent active.2 with
  | Err e => throw (ClientFailed e)
  | Ok _ => ret tt
  end.

(** [receive_datagram] once the client's [await] is over: a datagram of a
    generation that is no longer online is dropped. *)
Definition receive_datagram_check {A} (g : N) (received : result A ClientError) : M RuntimeInner RuntimeError A :=
  match received with
  | Err e => throw (ClientFailed e)
  | Ok datagram =>
    let! s := get in
    reject_if (negb (is_generation_online s g)) Superseded ;!
    ret datagram
  end.
End ClientRuntime.

(** ** The tasks and the host

    [start_with] spawns a task per generation.  A task dials, holds the
    result until it gets the mutex, and, when its client was installed,
    watches it until the connection ends.  It holds only a weak reference to
    the runtime before it has a result, and a strong one while it watches.
    An aborted task disappears at any later time, or first takes its next
    step. *)
Inductive Task :=
| Dialing
| HasResult (r : result Client ClientError)
| Watching (c : Client).

Record World := {
  inner : RuntimeInner;
  (** The host still owns a reference. *)
  host : bool;
  (** [Drop::drop] has not run. *)
  alive : bool;
  tasks : gmap N Task;
  aborted : gset N;
  (** How many clients were ever connected. *)
  created : nat;
  (** Clients whose connection ended other than by [close]. *)
  ended : list Client;
  (** The generation of the [stop] that is between its two publications, with
      the mutex. *)
  mutex : option N
}.

Definition initial : World :=
  {| inner := ClientRuntime.new; host := true; alive := true; tasks := ∅; aborted := ∅;
     created := 0%nat; ended := []; mutex := None |}.

Definition with_inner (i : RuntimeInner) (w : World) : World :=
  {| inner := i; host := host w; alive := alive w; tasks := tasks w; aborted := aborted w;
     created := created w; ended := ended w; mutex := mutex w |}.
Definition with_tasks (m : gmap N Task) (w : World) : World :=
  {| inner := inner w; host := host w; alive := alive w; tasks := m; aborted := aborted w;
     created := created w; ended := ended w; mutex := mutex w |}.
Definition with_ended (l : list Client) (w : World) : World :=
  {| inner := inner w; host := host w; alive := alive w; tasks := tasks w;
     aborted := aborted w; created := created w; ended := l; mutex := mutex w |}.
Definition with_aborted (t : option N) (w : World) : World :=
  {| inner := inner w; host := host w; alive := alive w; tasks := tasks w;
     aborted := match t with Some g => {[ g ]} ∪ aborted w | None => aborted w end;
     created := created w; ended := ended w; mutex := mutex w |}.
Definition with_mutex (g : option N) (w : World) : World :=
  {| inner := inner w; host := host w; alive := alive w; tasks := tasks w; aborted := aborted w;
     created := created w; ended := ended w; mutex := g |}.

(** The client a task owns alone: dropping the task ends its connection. *)
Definition held (x : Task) : option Client :=
  match x with HasResult (Ok c) => Some c | _ => None end.

Inductive step (w : World) : World -> Prop :=
| step_start g i :
    host w = true ->
    mutex w = None ->
    ClientRuntime.start_with true (inner w) = Ret (Ok g, i) ->
    step w (with_tasks (<[g := Dialing]> (tasks w)) (with_inner i w))
| step_connected g :
    tasks w !! g = Some Dialing ->
    step w {| inner := inner w; host := host w; alive := alive w;
              tasks := <[g := HasResult (Ok (created w))]> (tasks w);
              aborted := aborted w; created := S (created w); ended := ended w;
              mutex := mutex w |}
| step_refused g e :
    tasks w !! g = Some Dialing ->
    step w (with_tasks (<[g := HasResult (Err e)]> (tasks w)) w)
| step_complete g r o i :
    alive w = true ->
    mutex w = None ->
    tasks w !! g = Some (HasResult r) ->
    ClientRuntime.complete_connect (E := unit) g r (inner w) = Ret (Ok o, i) ->
    step w (with_tasks (match o with
                        | Some c => <[g := Watching c]> (tasks w)
                        | None => delete g (tasks w) end) (with_inner i w))
| step_orphan g r i :
    alive w = false ->
    tasks w !! g = Some (HasResult r) ->
    match r with Ok c => ClientRuntime.close (E := unit) c | Err _ => ret tt end (inner w)
      = Ret (Ok tt, i) ->
    step w (with_tasks (delete g (tasks w)) (with_inner i w))
| step_closed g c f i :
    mutex w = None ->
    tasks w !! g = Some (Watching c) ->
    ClientRuntime.complete_connection_closed (E := unit) g f (inner w) = Ret (Ok tt, i) ->
    step w (with_tasks (delete g (tasks w))
             (with_ended (if decide (c ∈ closed (inner w)) then ended w else c :: ended w)
               (with_inner i w)))
| step_stop_idle i :
    host w = true ->
    mutex w = None ->
    ClientRuntime.stop_begin (E := unit) (inner w) = Ret (Ok None, i) ->
    step w (with_inner i w)
| step_stop_begins g i :
    host w = true ->
    mutex w = None ->
    ClientRuntime.stop_begin (E := unit) (inner w) = Ret (Ok (Some g), i) ->
    step w (with_mutex (Some g) (with_inner i w))
| step_stop_ends g t i :
    mutex w = Some g ->
    ClientRuntime.stop_finish (E := unit) g (inner w) = Ret (Ok t, i) ->
    step w (with_mutex None (with_aborted t (with_inner i w)))
| step_aborted g x :
    g ∈ aborted w ->
    tasks w !! g = Some x ->
    step w (with_tasks (delete g (tasks w)) (with_ended (option_list (held x) ++ ended w) w))
(** A [stop] that is under way holds a reference. *)
| step_release :
    mutex w = None ->
    step w {| inner := inner w; host := false; alive := alive w; tasks := tasks w;
              aborted := aborted w; created := created w; ended := ended w; mutex := None |}
| step_drop t i :
    host w = false ->
    alive w = true ->
    mutex w = None ->
    (forall g c, tasks w !! g <> Some (Watching c)) ->
    ClientRuntime.drop (E := unit) (inner w) = Ret (Ok t, i) ->
    step w (with_aborted t
      {| inner := i; host := false; alive := false; tasks := tasks w; aborted := aborted w;
         created := created w; ended := ended w; mutex := None |}).

Definition reachable : World -> Prop := rtc step initial.

(** ** What every operation does to the state *)
Definition current (s : RuntimeInner) : RuntimeSnapshot := snapshot (lifecycle s).

(** The state after a transition of the lifecycle that is published. *)
Definition moved (s : RuntimeInner) (g r : N) (ph : RuntimePhase) (f : option RuntimeFailure)
    (c : option Client) (t : option N) (cl : list Client) : RuntimeInner :=
  let snap := {| revision := r; generation := g; phase := ph; failure := f |} in
  {| lifecycle := {| snapshot := snap |}; client := c; lifecycle_task := t;
     published := snap; closed := cl |}.

Ltac run_cbn H :=
  cbv [bind get gets modify ret throw panic expect reject_if checked_add] in H;
  cbn -[N.eqb N.leb N.add bool_decide] in H.
Ltac run_inv H :=
  run_cbn H; cbn -[N.eqb N.leb N.add] in H; rewrite ?N.eqb_refl in H; cbn -[N.eqb N.leb N.add] in H;
  repeat (case_match; rewrite ?N.eqb_refl in *; simplify_eq/=;
          rewrite ?N.leb_le, ?N.eqb_eq, ?N.eqb_neq in * ); simplify_eq/=; try done.
Ltac unfold_runtime H :=
  unfold ClientRuntime.start_with, ClientRuntime.stop, ClientRuntime.stop_begin,
    ClientRuntime.stop_finish, ClientRuntime.complete_connect,
    ClientRuntime.complete_connection_closed, ClientRuntime.drop, ClientRuntime.in_lifecycle,
    ClientRuntime.publish, ClientRuntime.clear_lifecycle_task, ClientRuntime.close,
    ClientRuntime.set_client, ClientRuntime.set_task, Lifecycle.begin_connect,
    Lifecycle.begin_stop, Lifecycle.complete_stop, Lifecycle.complete_connect,
    Lifecycle.fail_online, Lifecycle.next_generation, Lifecycle.transition in H.

Definition active (ph : RuntimePhase) : bool :=
  match ph with Connecting | Online => true | _ => false end.

Lemma start_with_Ok s g i :
  ClientRuntime.start_with true s = Ret (Ok g, i) ->
  active (phase (current s)) = false /\ phase (current s) <> Stopping /\
  g = generation (current s) + 1 /\
  i = moved s g (revision (current s) + 1) Connecting None (client s) (Some g) (closed s).
Proof.
  intros H. unfold current, moved. unfold_runtime H. destruct s as [[[r gen ph f]] c t p cl].
  destruct ph; run_inv H.
Qed.

Lemma stop_Ok {E} s g t i :
  ClientRuntime.stop (E := E) s = Ret (Ok (g, t), i) ->
  (phase (current s) = Stopped /\ g = generation (current s) /\ t = None /\ i = s) \/
  (phase (current s) <> Stopped /\ g = generation (current s) + 1 /\ t = lifecycle_task s /\
   i = moved s g (revision (current s) + 1 + 1) Stopped None None None
         (option_list (client s) ++ closed s)).
Proof.
  intros H. unfold current, moved. unfold_runtime H.
  destruct s as [[[r gen ph f]] c t' p cl]. cbn in *.
  destruct (decide (ph = Stopped)) as [->|Hph]; [left; run_inv H|right].
  run_cbn H. rewrite (bool_decide_false (ph = Stopped)) in H by done. destruct c; run_inv H.
Qed.

Lemma stop_begin_Ok {E} s o i :
  ClientRuntime.stop_begin (E := E) s = Ret (Ok o, i) ->
  match o with
  | None => phase (current s) = Stopped /\ i = s
  | Some g => phase (current s) <> Stopped /\ g = generation (current s) + 1 /\
      i = moved s g (revision (current s) + 1) Stopping None (client s) (lifecycle_task s) (closed s)
  end.
Proof.
  intros H. unfold current, moved. unfold_runtime H.
  destruct s as [[[r gen ph f]] c t' p cl]. cbn in *.
  destruct (decide (ph = Stopped)) as [->|Hph]; [run_inv H|].
  run_cbn H. rewrite (bool_decide_false (ph = Stopped)) in H by done. run_inv H.
Qed.

(** Begun and finished, a [stop] is what its critical section does as a whole. *)
Lemma stop_finish_stop {E} s g i t i' :
  ClientRuntime.stop_begin (E := E) s = Ret (Ok (Some g), i) ->
  ClientRuntime.stop_finish (E := E) g i = Ret (Ok t, i') ->
  ClientRuntime.stop (E := E) s = Ret (Ok (g, t), i').
Proof. intros Hb Hf. unfold ClientRuntime.stop, bind. by rewrite Hb, Hf. Qed.

Lemma stop_finish_Ok {E} s g i t i' :
  ClientRuntime.stop_begin (E := E) s = Ret (Ok (Some g), i) ->
  ClientRuntime.stop_finish (E := E) g i = Ret (Ok t, i') ->
  g = generation (current s) + 1 /\ t = lifecycle_task s /\
  i' = moved s g (revision (current s) + 1 + 1) Stopped None None None (option_list (client s) ++ closed s).
Proof.
  intros Hb Hf. pose proof (stop_finish_stop _ _ _ _ _ Hb Hf) as H.
  apply stop_begin_Ok in Hb as (Hph & _). by apply stop_Ok in H as [(? & _)|(_ & H)].
Qed.

Lemma complete_connect_Ok {E} g r s o i :
  ClientRuntime.complete_connect (E := E) g r s = Ret (Ok o, i) ->
  (~ (g = generation (current s) /\ phase (current s) = Connecting) /\ o = None /\
   i = {| lifecycle := lifecycle s; client := client s; lifecycle_task := lifecycle_task s;
          published := published s;
          closed := match r with Ok c => c :: closed s | Err _ => closed s end |}) \/
  (g = generation (current s) /\ phase (current s) = Connecting /\
   match r with
   | Ok c => o = Some c /\
       i = moved s g (revision (current s) + 1) Online None (Some c) (lifecycle_task s) (closed s)
   | Err e => o = None /\
       i = moved s g (revision (current s) + 1) Failed (Some (failure_from e)) (client s)
             (if bool_decide (lifecycle_task s = Some g) then None else lifecycle_task s) (closed s)
   end).
Proof.
  intros H. unfold current, moved. unfold_runtime H.
  destruct s as [[[rv gen ph f]] c t' p cl]. cbn in *.
  destruct (decide (g = gen /\ ph = Connecting)) as [[-> ->]|Hstale].
  - right. destruct t'; destruct r; run_inv H.
    all: case_bool_decide; simplify_eq; done.
  - left. assert (negb (g =? gen) || negb (bool_decide (ph = Connecting)) = true) as Hguard.
    { destruct (N.eqb_spec g gen), (decide (ph = Connecting)); simplify_eq/=; try done; [tauto|].
      by rewrite bool_decide_false. }
    run_cbn H. rewrite Hguard in H. destruct r; run_inv H.
Qed.

Lemma connection_closed_Ok {E} g f s i :
  ClientRuntime.complete_connection_closed (E := E) g f s = Ret (Ok tt, i) ->
  (~ (g = generation (current s) /\ phase (current s) = Online) /\ i = s) \/
  (g = generation (current s) /\ phase (current s) = Online /\
   i = moved s g (revision (current s) + 1) Failed (Some f) None
         (if bool_decide (lifecycle_task s = Some g) then None else lifecycle_task s) (closed s)).
Proof.
  intros H. unfold current, moved. unfold_runtime H.
  destruct s as [[[rv gen ph fl]] c t' p cl]. cbn in *.
  destruct (decide (g = gen /\ ph = Online)) as [[-> ->]|Hstale].
  - right. destruct t'; run_inv H.
    all: case_bool_decide; simplify_eq; done.
  - left. assert (negb (g =? gen) || negb (bool_decide (ph = Online)) = true) as Hguard.
    { destruct (N.eqb_spec g gen), (decide (ph = Online)); simplify_eq/=; try done; [tauto|].
      by rewrite bool_decide_false. }
    run_cbn H. rewrite Hguard in H. run_inv H.
Qed.

Lemma drop_Ok {E} s t i :
  ClientRuntime.drop (E := E) s = Ret (Ok t, i) ->
  t = lifecycle_task s /\
  i = {| lifecycle := lifecycle s; client := None; lifecycle_task := None;
         published := published s; closed := option_list (client s) ++ closed s |}.
Proof. intros H. unfold_runtime H. destruct s as [l [c|] t' p cl]; run_inv H. Qed.

(** ** The clients the tasks hold *)
Definition held_all (m : gmap N Task) : list Client := omap held (map_to_list m).*2.

Lemma held_all_delete m g x :
  m !! g = Some x -> held_all m ≡ₚ option_list (held x) ++ held_all (delete g m).
Proof.
  intros Hx. unfold held_all. rewrite <-(insert_delete_id m g x Hx) at 1.
  rewrite map_to_list_insert by apply lookup_delete_eq. cbn. by destruct (held x).
Qed.

Lemma held_all_insert m g x :
  m !! g = None -> held_all (<[g := x]> m) ≡ₚ option_list (held x) ++ held_all m.
Proof. intros Hg. unfold held_all. rewrite map_to_list_insert by done. cbn. by destruct (held x). Qed.

Lemma held_all_replace m g x y :
  m !! g = Some x -> held_all (<[g := y]> m) ≡ₚ option_list (held y) ++ held_all (delete g m).
Proof.
  intros Hg. rewrite <-insert_delete_eq, held_all_insert by apply lookup_delete_eq. done.
Qed.

(** ** The invariant *)
Definition snap (w : World) : RuntimeSnapshot := current (inner w).

(** Between critical sections. *)
Record rests (w : World) : Prop := {
  (** Subscribers see the lifecycle's own snapshot, which is not in [Stopping]. *)
  con_published : published (inner w) = snap w;
  con_phase : phase (snap w) <> Stopping;
  con_numbers : generation (snap w) <= revision (snap w);
  (** There is a client exactly while the runtime is online, and the task of
      the current generation watches it. *)
  con_client c : client (inner w) = Some c ->
    alive w = true /\ phase (snap w) = Online /\
    tasks w !! generation (snap w) = Some (Watching c);
  con_online : alive w = true -> phase (snap w) = Online -> is_Some (client (inner w));
  (** The attempt that was announced is under way. *)
  con_connecting : alive w = true -> phase (snap w) = Connecting ->
    exists x, tasks w !! generation (snap w) = Some x /\ forall c, x <> Watching c;
  con_handle : alive w = true ->
    lifecycle_task (inner w) = if active (phase (snap w)) then Some (generation (snap w)) else None;
  (** Every task but the current one was aborted. *)
  con_tasks g x : tasks w !! g = Some x ->
    g <= generation (snap w) /\
    (g ∈ aborted w \/ alive w = true /\ g = generation (snap w) /\ active (phase (snap w)) = true);
  con_aborted g : alive w = true -> g ∈ aborted w -> g < generation (snap w);
  con_watching g c : tasks w !! g = Some (Watching c) ->
    alive w = true /\
    (client (inner w) = Some c /\ g = generation (snap w) \/ c ∈ closed (inner w));
  con_host : host w = true -> alive w = true;
  (** Every client that was connected is closed, has ended, is the current
      one, or is held by exactly one task. *)
  con_clients :
    closed (inner w) ++ ended w ++ option_list (client (inner w)) ++ held_all (tasks w)
      ≡ₚ seq 0 (created w)
}.

Lemma initial_rests : rests initial.
Proof. by split; cbn; intros; simplify_map_eq/=; eauto; set_solver. Qed.

Section preservation.
Context (w : World) (Hw : rests w).

Lemma offline_no_client : phase (snap w) <> Online -> client (inner w) = None.
Proof.
  intros Hph. destruct (client (inner w)) as [c|] eqn:Hc; [|done].
  by destruct (con_client _ Hw c Hc) as (_ & ? & _).
Qed.

Lemma no_task_above g : generation (snap w) < g -> tasks w !! g = None.
Proof.
  intros Hg. destruct (tasks w !! g) as [x|] eqn:Hx; [|done].
  destruct (con_tasks _ Hw g x Hx). lia.
Qed.

Lemma start_rests g i :
  host w = true -> ClientRuntime.start_with true (inner w) = Ret (Ok g, i) ->
  rests (with_tasks (<[g := Dialing]> (tasks w)) (with_inner i w)).
Proof.
  intros Hhost (Hph & Hst & -> & ->)%start_with_Ok.
  pose proof (no_task_above (generation (snap w) + 1) ltac:(lia)) as Hfresh.
  assert (client (inner w) = None) as Hnone.
  { apply offline_no_client. intros Hon. unfold snap in Hon. by rewrite Hon in Hph. }
  unfold snap, current in *. destruct Hw as [Hpub Hphase Hnum Hcli Hon Hconn Hhan Htask Hab Hwat Hh Hall].
  unfold snap, current in *. split; unfold snap, current; cbn in *; rewrite ?Hnone in *; try done.
  - lia.
  - intros _ _. exists Dialing. by rewrite lookup_insert_eq.
  - intros g x. rewrite lookup_insert_Some. intros [[<- <-]|[_ Hx]].
    + split; [lia|]. right. eauto.
    + destruct (Htask _ _ Hx) as [? [?|(_ & _ & Hact)]]; [|congruence]. split; [lia|by left].
  - intros g Ha Hg. specialize (Hab g Ha Hg). lia.
  - intros g c. rewrite lookup_insert_Some. intros [[_ ?]|[_ Hx]]; [done|].
    destruct (Hwat _ _ Hx) as [? [[? ?]|?]]; [done|auto].
  - rewrite held_all_insert by done. done.
Qed.

(** A task that got its result. *)
Lemma result_rests g r n :
  tasks w !! g = Some Dialing ->
  option_list (held (HasResult r)) ++ seq 0 (created w) ≡ₚ seq 0 n ->
  rests {| inner := inner w; host := host w; alive := alive w;
    tasks := <[g := HasResult r]> (tasks w); aborted := aborted w;
    created := n; ended := ended w; mutex := mutex w |}.
Proof.
  intros Hg Hn. destruct Hw as [Hpub Hphase Hnum Hcli Hon Hconn Hhan Htask Hab Hwat Hh Hall].
  unfold snap, current in *. split; unfold snap, current; cbn in *; try done.
  - intros c Hc. destruct (Hcli c Hc) as (? & ? & ?). rewrite lookup_insert_ne by congruence. done.
  - intros Ha Hp. destruct (Hconn Ha Hp) as (x & Hx & Hnw).
    destruct (decide (g = generation (current (inner w)))) as [->|Hne].
    + exists (HasResult r). by rewrite lookup_insert_eq.
    + exists x. by rewrite lookup_insert_ne.
  - intros g' x. rewrite lookup_insert_Some. intros [[<- <-]|[_ Hx]]; [by eapply Htask|by eapply Htask].
  - intros g' c. rewrite lookup_insert_Some. intros [[_ ?]|[_ Hx]]; [done|by eapply Hwat].
  - rewrite (held_all_replace _ _ _ _ Hg), <-Hn, <-Hall, (held_all_delete _ _ _ Hg). cbn.
    solve_Permutation.
Qed.

(** The task of the current generation is taken out of the map or replaced. *)
Lemma complete_rests g r o i :
  alive w = true -> tasks w !! g = Some (HasResult r) ->
  ClientRuntime.complete_connect (E := unit) g r (inner w) = Ret (Ok o, i) ->
  rests (with_tasks (match o with
                          | Some c => <[g := Watching c]> (tasks w)
                          | None => delete g (tasks w) end) (with_inner i w)).
Proof.
  intros Halive Hg Hrun.
  apply complete_connect_Ok in Hrun as [(Hstale & -> & ->)|(-> & Hph & Hr)].
  - destruct Hw as [Hpub Hphase Hnum Hcli Hon Hconn Hhan Htask Hab Hwat Hh Hall].
    unfold snap, current in *. split; unfold snap, current; cbn in *; try done.
    + intros c Hc. destruct (Hcli c Hc) as (? & ? & Hl). rewrite lookup_delete_ne; [done|].
      intros ->. congruence.
    + intros _ Hp. destruct (Hconn Halive Hp) as (x & Hx & Hnw). exists x.
      rewrite lookup_delete_ne; [done|]. intros ->. by apply Hstale.
    + intros g' x. rewrite lookup_delete_Some. intros [_ Hx]. by eapply Htask.
    + intros g' c. rewrite lookup_delete_Some. intros [_ Hx].
      destruct (Hwat _ _ Hx) as [? [?|?]]; [auto|]. split; [done|]. right.
      destruct r; [by right|done].
    + rewrite <-Hall, (held_all_delete _ _ _ Hg). destruct r; cbn; solve_Permutation.
  - pose proof offline_no_client as Hnone. unfold snap, current in *. rewrite Hph in Hnone.
    specialize (Hnone ltac:(done)).
    destruct Hw as [Hpub Hphase Hnum Hcli Hon Hconn Hhan Htask Hab Hwat Hh Hall].
    unfold snap, current in *. rewrite Hph in *. specialize (Hhan Halive). cbn in Hhan.
    destruct r as [c|e]; destruct Hr as [-> ->]; rewrite ?Hhan, ?Hnone in *.
    + split; unfold snap, current; cbn in *; try done.
      * lia.
      * intros c' [= <-]. by rewrite lookup_insert_eq.
      * intros g' x. rewrite lookup_insert_Some. intros [[<- <-]|[_ Hx]]; [by eapply Htask|].
        by eapply Htask.
      * intros g' c'. rewrite lookup_insert_Some. intros [[<- [= <-]]|[_ Hx]]; [auto|].
        destruct (Hwat _ _ Hx) as [_ [[? ?]|?]]; [done|auto].
      * rewrite <-insert_delete_eq, held_all_insert by apply lookup_delete_eq.
        rewrite <-Hall, (held_all_delete _ _ _ Hg). done.
    + rewrite bool_decide_true by done. split; unfold snap, current; cbn in *; try done.
      * lia.
      * intros g' x. rewrite lookup_delete_Some. intros [Hne Hx].
        destruct (Htask _ _ Hx) as [? [?|(_ & ? & _)]]; [auto|congruence].
      * intros g' c'. rewrite lookup_delete_Some. intros [_ Hx].
        destruct (Hwat _ _ Hx) as [_ [[? ?]|?]]; [done|auto].
      * rewrite <-Hall, (held_all_delete _ _ _ Hg). done.
Qed.

Lemma closed_nodup : NoDup (closed (inner w) ++ ended w ++ option_list (client (inner w))
                            ++ held_all (tasks w)).
Proof. rewrite (con_clients _ Hw). apply NoDup_seq. Qed.

Lemma closed_rests g c f i :
  tasks w !! g = Some (Watching c) ->
  ClientRuntime.complete_connection_closed (E := unit) g f (inner w) = Ret (Ok tt, i) ->
  rests (with_tasks (delete g (tasks w))
           (with_ended (if decide (c ∈ closed (inner w)) then ended w else c :: ended w)
             (with_inner i w))).
Proof.
  intros Hg Hrun. pose proof closed_nodup as Hnd.
  apply connection_closed_Ok in Hrun as [(Hstale & ->)|(-> & Hph & ->)].
  - destruct Hw as [Hpub Hphase Hnum Hcli Hon Hconn Hhan Htask Hab Hwat Hh Hall].
    unfold snap, current in *.
    assert (c ∈ closed (inner w)) as Hin.
    { destruct (Hwat _ _ Hg) as [_ [[Hc ->]|?]]; [|done]. destruct (Hcli _ Hc) as (_ & ? & _).
      by destruct Hstale. }
    rewrite decide_True by done.
    split; unfold snap, current; cbn in *; try done.
    + intros c' Hc. destruct (Hcli c' Hc) as (? & ? & Hl). rewrite lookup_delete_ne; [done|].
      intros ->. by apply Hstale.
    + intros Ha Hp. destruct (Hconn Ha Hp) as (x & Hx & Hnw). exists x.
      rewrite lookup_delete_ne; [done|]. intros ->. naive_solver.
    + intros g' x. rewrite lookup_delete_Some. intros [_ Hx]. by eapply Htask.
    + intros g' c'. rewrite lookup_delete_Some. intros [_ Hx]. by eapply Hwat.
    + rewrite <-Hall, (held_all_delete _ _ _ Hg). done.
  - destruct Hw as [Hpub Hphase Hnum Hcli Hon Hconn Hhan Htask Hab Hwat Hh Hall].
    unfold snap, current in *. destruct (Hwat _ _ Hg) as [Ha _].
    destruct (Hon Ha Hph) as [c' Hc']. destruct (Hcli _ Hc') as (_ & _ & Hl).
    assert (c' = c) as -> by congruence. rewrite decide_False; last first.
    { intros Hin. apply NoDup_app in Hnd as (_ & Hnd & _). apply (Hnd c Hin).
      rewrite Hc'. cbn. set_solver. }
    specialize (Hhan Ha). rewrite Hph in *. cbn in Hhan. rewrite Hhan.
    rewrite bool_decide_true by done.
    split; unfold snap, current; cbn in *; try done.
    + lia.
    + intros g' x. rewrite lookup_delete_Some. intros [Hne Hx].
      destruct (Htask _ _ Hx) as [? [?|(_ & ? & _)]]; [auto|congruence].
    + intros g' c''. rewrite lookup_delete_Some. intros [Hne Hx].
      destruct (Hwat _ _ Hx) as [_ [[? ?]|?]]; [congruence|auto].
    + rewrite <-Hall, (held_all_delete _ _ _ Hg), Hc'. cbn. solve_Permutation.
Qed.

Lemma stop_rests g t i :
  host w = true -> ClientRuntime.stop (E := unit) (inner w) = Ret (Ok (g, t), i) ->
  rests (with_aborted t (with_inner i w)).
Proof.
  intros Hhost Hrun. pose proof (con_host _ Hw Hhost) as Ha.
  apply stop_Ok in Hrun as [(Hph & -> & -> & ->)|(Hph & -> & -> & ->)].
  - by destruct Hw; split.
  - destruct Hw as [Hpub Hphase Hnum Hcli Hon Hconn Hhan Htask Hab Hwat Hh Hall].
    unfold snap, current in *. rewrite (Hhan Ha).
    split; unfold snap, current; cbn in *; try done.
    + lia.
    + intros g' x Hx. destruct (Htask _ _ Hx) as [? [?|(_ & -> & Hact)]].
      * split; [lia|]. left. destruct (active _); set_solver.
      * rewrite Hact. split; [lia|]. left. set_solver.
    + intros g' _. destruct (active _).
      * intros [->%elem_of_singleton|Hg]%elem_of_union; [lia|]. specialize (Hab _ Ha Hg). lia.
      * intros Hg. specialize (Hab _ Ha Hg). lia.
    + intros g' c Hx. split; [done|]. right.
      destruct (Hwat _ _ Hx) as [_ [[-> _]|?]]; cbn; set_solver.
    + rewrite <-Hall. solve_Permutation.
Qed.

Lemma aborted_rests g x :
  g ∈ aborted w -> tasks w !! g = Some x ->
  rests (with_tasks (delete g (tasks w))
    (with_ended (option_list (held x) ++ ended w) w)).
Proof.
  intros Hg Hx. destruct Hw as [Hpub Hphase Hnum Hcli Hon Hconn Hhan Htask Hab Hwat Hh Hall].
  unfold snap, current in *. split; unfold snap, current; cbn in *; try done.
  - intros c Hc. destruct (Hcli c Hc) as (Ha & ? & Hl). rewrite lookup_delete_ne; [done|].
    specialize (Hab _ Ha Hg). lia.
  - intros Ha Hp. destruct (Hconn Ha Hp) as (y & Hy & Hnw). exists y.
    rewrite lookup_delete_ne; [done|]. specialize (Hab _ Ha Hg). lia.
  - intros g' y. rewrite lookup_delete_Some. intros [_ Hy]. by eapply Htask.
  - intros g' c'. rewrite lookup_delete_Some. intros [_ Hy]. by eapply Hwat.
  - rewrite <-Hall, (held_all_delete _ _ _ Hx). solve_Permutation.
Qed.

Lemma orphan_rests g r i :
  alive w = false -> tasks w !! g = Some (HasResult r) ->
  match r with Ok c => ClientRuntime.close (E := unit) c | Err _ => ret tt end (inner w)
    = Ret (Ok tt, i) ->
  rests (with_tasks (delete g (tasks w)) (with_inner i w)).
Proof.
  intros Hdead Hg Hrun.
  destruct Hw as [Hpub Hphase Hnum Hcli Hon Hconn Hhan Htask Hab Hwat Hh Hall].
  unfold snap, current in *.
  assert (i = {| lifecycle := lifecycle (inner w); client := client (inner w);
    lifecycle_task := lifecycle_task (inner w); published := published (inner w);
    closed := match r with Ok c => c :: closed (inner w) | Err _ => closed (inner w) end |}) as ->.
  { destruct r; injection Hrun as <-; [done|by destruct (inner w)]. }
  split; unfold snap, current; cbn in *; rewrite ?Hdead in *; try done.
  - intros c Hc. by destruct (Hcli c Hc).
  - intros g' y. rewrite lookup_delete_Some. intros [_ Hy]. by eapply Htask.
  - intros g' c'. rewrite lookup_delete_Some. intros [_ Hy]. by destruct (Hwat _ _ Hy).
  - rewrite <-Hall, (held_all_delete _ _ _ Hg). destruct r; cbn; solve_Permutation.
Qed.

Lemma drop_rests t i :
  alive w = true -> (forall g c, tasks w !! g <> Some (Watching c)) ->
  ClientRuntime.drop (E := unit) (inner w) = Ret (Ok t, i) ->
  rests (with_aborted t
    {| inner := i; host := false; alive := false; tasks := tasks w; aborted := aborted w;
       created := created w; ended := ended w; mutex := None |}).
Proof.
  intros Ha Hnw (-> & ->)%drop_Ok.
  destruct Hw as [Hpub Hphase Hnum Hcli Hon Hconn Hhan Htask Hab Hwat Hh Hall].
  unfold snap, current in *. rewrite (Hhan Ha).
  split; unfold snap, current; cbn in *; try done.
  - intros g x Hx. destruct (Htask _ _ Hx) as [? [?|(_ & -> & Hact)]].
    + split; [done|]. left. destruct (active _); set_solver.
    + rewrite Hact. split; [done|]. left. set_solver.
  - intros g c Hx. by destruct (Hnw g c).
  - rewrite <-Hall. solve_Permutation.
Qed.

Lemma release_rests :
  rests {| inner := inner w; host := false; alive := alive w; tasks := tasks w;
            aborted := aborted w; created := created w; ended := ended w; mutex := None |}.
Proof. by destruct Hw; split. Qed.

End preservation.

(** While a [stop] is between its publications it has the mutex, and the state
    is the one that its beginning made of a state between critical sections. *)
Definition consistent (w : World) : Prop :=
  match mutex w with
  | None => rests w
  | Some g => exists i, host w = true /\ rests (with_inner i w) /\
      ClientRuntime.stop_begin (E := unit) i = Ret (Ok (Some g), inner w)
  end.

Lemma consistent_rests w : consistent w -> mutex w = None -> rests w.
Proof. unfold consistent. intros Hw Hm. by rewrite Hm in Hw. Qed.

Lemma rests_mutex w m : rests w -> rests (with_mutex m w).
Proof. by intros []; split. Qed.

Lemma with_inner_id w : with_inner (inner w) w = w.
Proof. by destruct w. Qed.

(** A step that needs no mutex, in the middle of a [stop] or not. *)
Lemma lock_free_consistent (w : World) (f : World -> World) :
  (forall v, rests v -> tasks v = tasks w -> aborted v = aborted w -> created v = created w ->
     ended v = ended w -> rests (f v)) ->
  (forall i, f (with_inner i w) = with_inner i (f w)) ->
  mutex (f w) = mutex w -> host (f w) = host w -> inner (f w) = inner w ->
  consistent w -> consistent (f w).
Proof.
  intros Hf Hi Hm Hh Hin. unfold consistent. rewrite Hm, Hh, Hin. destruct (mutex w) as [g|].
  - intros (i & Hhost & Hw & Hb). exists i. split_and!; [done| |done]. rewrite <-Hi. by apply Hf.
  - intros Hw. by apply Hf.
Qed.

Lemma step_consistent w w' : consistent w -> step w w' -> consistent w'.
Proof.
  intros Hc Hstep. destruct Hstep.
  all: try (match goal with H : mutex _ = None |- _ => pose proof (consistent_rests _ Hc H) as Hw end).
  all: try (unfold consistent; cbn; match goal with H : mutex _ = None |- _ => rewrite ?H end;
    by eauto using start_rests, complete_rests, closed_rests, release_rests, drop_rests).
  - apply (lock_free_consistent w (fun v => {| inner := inner v; host := host v; alive := alive v;
      tasks := <[g := HasResult (Ok (created v))]> (tasks v);
      aborted := aborted v; created := S (created v); ended := ended v; mutex := mutex v |})); try done.
    intros v Hv Ht Hab Hcr He. apply (result_rests v Hv g (Ok (created v))); [by rewrite Ht|].
    rewrite seq_S. cbn. solve_Permutation.
  - apply (lock_free_consistent w (fun v => with_tasks (<[g := HasResult (Err e)]> (tasks v)) v)); try done.
    intros v Hv Ht Hab Hcr He. apply (result_rests v Hv g (Err e)); [by rewrite Ht|done].
  - unfold consistent in *. cbn in *. destruct (mutex w) as [g'|]; [|by eapply orphan_rests].
    destruct Hc as (i' & Hhost & Hw & _). pose proof (con_host _ Hw Hhost). cbn in *. congruence.
  - apply stop_begin_Ok in H1 as [_ ->]. rewrite with_inner_id. exact Hc.
  - exists (inner w). split; [done|]. split; [|done].
    change (rests (with_mutex (Some g) (with_inner (inner w) w))). rewrite with_inner_id. by apply rests_mutex.
  - unfold consistent in *. rewrite H in Hc. cbn. destruct Hc as (i' & Hhost & Hw & Hb).
    apply (rests_mutex (with_aborted t (with_inner i (with_inner i' w))) None).
    apply (stop_rests (with_inner i' w) Hw g t i Hhost). by eapply stop_finish_stop.
  - apply (lock_free_consistent w (fun v => with_tasks (delete g (tasks v))
      (with_ended (option_list (held x) ++ ended v) v))); try done.
    intros v Hv Ht Hab Hcr He. apply (aborted_rests v Hv g x); [by rewrite Hab|by rewrite Ht].
Qed.

Lemma rtc_consistent w w' : rtc step w w' -> consistent w -> consistent w'.
Proof. induction 1; eauto using step_consistent. Qed.

Lemma reachable_consistent w : reachable w -> consistent w.
Proof. intros Hr. exact (rtc_consistent _ _ Hr initial_rests). Qed.

Lemma reachable_rests w : reachable w -> mutex w = None -> rests w.
Proof. intros Hr. apply consistent_rests, reachable_consistent, Hr. Qed.

(** In every state subscribers see the lifecycle's own snapshot, and they see
    [Stopping] exactly while a [stop] is under way. *)
Lemma consistent_published w :
  consistent w -> published (inner w) = snap w /\ (phase (snap w) = Stopping <-> is_Some (mutex w)) /\
  generation (snap w) <= revision (snap w).
Proof.
  unfold consistent. destruct (mutex w) as [g|].
  - intros (i & _ & Hw & (_ & -> & Hi)%stop_begin_Ok). pose proof (con_numbers _ Hw) as Hnum.
    unfold snap, current in *. rewrite Hi. cbn in *. split_and!; [done|by split|lia].
  - intros Hw. split_and!; [apply Hw| |apply Hw]. split; [|by intros []]. intros Hs. by destruct (con_phase _ Hw).
Qed.

(** No client is lost in the middle of a [stop] either. *)
Lemma consistent_clients w :
  consistent w ->
  closed (inner w) ++ ended w ++ option_list (client (inner w)) ++ held_all (tasks w) ≡ₚ seq 0 (created w).
Proof.
  unfold consistent. destruct (mutex w) as [g|]; [|by apply con_clients].
  intros (i & _ & Hw & (_ & _ & Hi)%stop_begin_Ok). rewrite Hi. apply (con_clients _ Hw).
Qed.

(** *** What a step publishes *)
Lemma step_published w w' :
  consistent w -> step w w' ->
  published (inner w') = published (inner w) \/
  revision (snap w) < revision (published (inner w')).
Proof.
  intros Hw Hstep. destruct Hstep; cbn; auto.
  - apply start_with_Ok in H1 as (_ & _ & _ & ->). right. cbn. unfold snap. lia.
  - apply complete_connect_Ok in H2 as [(_ & _ & ->)|(_ & _ & H2)]; [auto|].
    right. unfold snap. destruct r; destruct H2 as [_ ->]; cbn; lia.
  - destruct r; injection H1 as <-; auto.
  - apply connection_closed_Ok in H1 as [(_ & ->)|(_ & _ & ->)]; [auto|].
    right. unfold snap. cbn. lia.
  - apply stop_begin_Ok in H1 as [_ ->]. auto.
  - apply stop_begin_Ok in H1 as (_ & _ & ->). right. unfold snap. cbn. lia.
  - unfold consistent in Hw. rewrite H in Hw. destruct Hw as (i0 & _ & _ & Hb).
    pose proof (stop_finish_Ok _ _ _ _ _ Hb H0) as (_ & _ & ->).
    apply stop_begin_Ok in Hb as (_ & _ & Hi). right. unfold snap. rewrite Hi. cbn. lia.
  - apply drop_Ok in H3 as (_ & ->). auto.
Qed.

(** *** A generation names one client *)
Definition fenced (g : N) (c : Client) (w : World) : Prop :=
  g < generation (snap w) \/
  g = generation (snap w) /\ (client (inner w) = Some c \/ active (phase (snap w)) = false).

Lemma step_fenced g c w w' : consistent w -> step w w' -> fenced g c w -> fenced g c w'.
Proof.
  intros Hw Hstep Hf. unfold fenced, snap in *. destruct Hstep; cbn; try exact Hf.
  - apply start_with_Ok in H1 as (_ & _ & -> & ->). left. unfold current in *. cbn. lia.
  - apply complete_connect_Ok in H2 as [(_ & _ & ->)|(-> & Hph & H2)]; [exact Hf|].
    pose proof (offline_no_client w (consistent_rests _ Hw H0)) as Hnone. unfold snap in *. rewrite Hph in *.
    rewrite Hnone in * by done.
    left. destruct Hf as [?|[_ [?|?]]]; [|done..]. destruct r; destruct H2 as [_ ->]; done.
  - destruct r; injection H1 as <-; exact Hf.
  - apply connection_closed_Ok in H1 as [(_ & ->)|(-> & _ & ->)]; [exact Hf|].
    unfold current in *. cbn. destruct Hf as [?|[? _]]; auto.
  - apply stop_begin_Ok in H1 as [_ ->]. exact Hf.
  - apply stop_begin_Ok in H1 as (_ & -> & ->). unfold current in *. cbn. left. lia.
  - unfold consistent in Hw. rewrite H in Hw. destruct Hw as (i0 & _ & _ & Hb).
    pose proof (stop_finish_Ok _ _ _ _ _ Hb H0) as (_ & _ & ->).
    apply stop_begin_Ok in Hb as (_ & -> & Hi). rewrite Hi in Hf. unfold current in *. cbn in *.
    destruct Hf as [?|[? _]]; auto.
  - apply drop_Ok in H3 as (_ & ->). unfold current in *. cbn.
    destruct Hf as [?|[? [Hc|?]]]; [auto| |auto].
    destruct (con_client _ (consistent_rests _ Hw H1) _ Hc) as (_ & _ & Hx). by destruct (H2 _ _ Hx).
Qed.

Lemma rtc_fenced g c w w' : rtc step w w' -> consistent w -> fenced g c w -> fenced g c w'.
Proof. induction 1; eauto using step_consistent, step_fenced. Qed.

(** *** The operations are total while there are numbers left *)
Definition headroom (w : World) : Prop := revision (snap w) + 2 <= U64_MAX.

Lemma checked_add_le max a b : a + b <= max -> checked_add max a b = Some (a + b).
Proof. intros. by apply checked_add_Some. Qed.

(** Runs an operation all of whose additions stay in range. *)
Ltac run_total :=
  repeat (cbv -[N.leb N.add N.eqb U64_MAX checked_add]; rewrite ?N.eqb_refl;
          rewrite ?checked_add_le by lia).

Lemma start_with_total s :
  active (phase (current s)) = false -> phase (current s) <> Stopping ->
  generation (current s) <= revision (current s) -> revision (current s) + 2 <= U64_MAX ->
  exists i, ClientRuntime.start_with true s = Ret (Ok (generation (current s) + 1), i).
Proof.
  destruct s as [[[r gen ph f]] c t p cl]. cbn. intros Hph Hst Hg Hr.
  destruct ph; try done; run_total; eauto.
Qed.

Lemma stop_total {E} s :
  generation (current s) <= revision (current s) -> revision (current s) + 2 <= U64_MAX ->
  exists g t i, ClientRuntime.stop (E := E) s = Ret (Ok (g, t), i).
Proof.
  destruct s as [[[r gen ph f]] c t p cl]. cbn. intros Hg Hr.
  destruct ph, c; run_total; eauto.
Qed.

Lemma complete_connect_total {E} g r s :
  revision (current s) + 2 <= U64_MAX ->
  exists o i, ClientRuntime.complete_connect (E := E) g r s = Ret (Ok o, i).
Proof.
  destruct s as [[[rv gen ph f]] c [t|] p cl]; cbn; intros Hr;
    destruct ph, r as [c'|e], (N.eqb_spec g gen) as [->|Hne];
    try apply N.eqb_neq in Hne; run_total; rewrite ?Hne; run_total;
    try match goal with |- context [if ?a =? ?b then _ else _] => destruct (a =? b) end; run_total; eauto.
Qed.

Lemma connection_closed_total {E} g f s :
  revision (current s) + 2 <= U64_MAX ->
  exists i, ClientRuntime.complete_connection_closed (E := E) g f s = Ret (Ok tt, i).
Proof.
  destruct s as [[[rv gen ph fl]] c [t|] p cl]; cbn; intros Hr;
    destruct ph, (N.eqb_spec g gen) as [->|Hne];
    try apply N.eqb_neq in Hne; run_total; rewrite ?Hne; run_total;
    try match goal with |- context [if ?a =? ?b then _ else _] => destruct (a =? b) end; run_total; eauto.
Qed.

(** ** Properties *)

(** C10. Whatever the interleaving of the host's calls with the tasks, and at
    whatever moment they look: subscribers see the lifecycle's own snapshot,
    numbered in order, and the phase [Stopping] exactly while a [stop] is
    between its two publications; outside of a [stop] there is a client
    exactly while the runtime is online, and at most one attempt is not
    aborted; inside, the state is the one the beginning of the [stop] made of
    such a state; and no connected client is ever lost, each is closed, ended,
    current or held by one task. *)
Theorem runtime_consistent w w' (Hr : reachable w) (Hstep : step w w') :
  consistent w' /\
  published (inner w') = snap w' /\
  (phase (published (inner w')) = Stopping <-> is_Some (mutex w')) /\
  (published (inner w') = published (inner w) \/
   revision (published (inner w)) < revision (published (inner w'))) /\
  closed (inner w') ++ ended w' ++ option_list (client (inner w')) ++ held_all (tasks w')
    ≡ₚ seq 0 (created w').
Proof.
  pose proof (reachable_consistent _ Hr) as Hw. pose proof (step_consistent _ _ Hw Hstep) as Hw'.
  destruct (consistent_published _ Hw') as (Hpub & Hph & _). rewrite Hpub in *.
  split_and!; [done..| |by apply consistent_clients].
  rewrite <-Hpub. destruct (consistent_published _ Hw) as (Hpub0 & _). rewrite Hpub0 at 2.
  by apply step_published.
Qed.

(** The generation read with a client still being online after an [await] means that
    the client is the current one, neither closed nor ended. *)
Lemma online_fence w w' g c s :
  reachable w -> ClientRuntime.active_client (inner w) = Ret (Ok (g, c), s) -> rtc step w w' ->
  ClientRuntime.is_generation_online (inner w') g = true ->
  client (inner w') = Some c /\ c ∉ closed (inner w') /\ c ∉ ended w'.
Proof.
  intros Hr Hact Hsteps Hon. pose proof (reachable_consistent _ Hr) as Hw.
  pose proof (rtc_consistent _ _ Hsteps Hw) as Hw'.
  destruct (consistent_published _ Hw') as (Hpub & Hstop & _).
  assert (fenced g c w) as Hf.
  { right. unfold ClientRuntime.active_client in Hact. run_cbn Hact. unfold snap, current.
    destruct (negb _); [done|]. destruct (client (inner w)); [|done].
    injection Hact as <- <- <-. auto. }
  apply (rtc_fenced _ _ _ _ Hsteps Hw) in Hf.
  assert (client (inner w') = Some c) as Hc.
  { apply andb_true_iff in Hon as [Hg Hph].
    apply N.eqb_eq in Hg. apply bool_decide_eq_true in Hph.
    rewrite Hpub in Hg, Hph. subst g. unfold fenced in Hf. rewrite Hph in Hf.
    destruct Hf as [?|[_ [?|?]]]; [lia|done..]. }
  pose proof (consistent_clients _ Hw') as Hall. assert (NoDup (seq 0 (created w'))) as Hnd by apply NoDup_seq.
  rewrite <-Hall in Hnd. rewrite Hc in Hnd. cbn in Hnd. split_and!; [done|..].
  - intros Hin. apply NoDup_app in Hnd as (_ & Hnd & _). apply (Hnd c Hin). set_solver.
  - intros Hin. apply NoDup_app in Hnd as (_ & _ & Hnd).
    apply NoDup_app in Hnd as (_ & Hnd & _). apply (Hnd c Hin). set_solver.
Qed.

(** A flow that was opened through a client is published only while that very
    client is the current one: if the generation read before the [await] is
    still online after it, no stop, failure or reconnection came between. *)
Theorem generation_fences_client w w' g c g' s
    (Hr : reachable w) (Hact : ClientRuntime.active_client (inner w) = Ret (Ok (g, c), s))
    (Hsteps : rtc step w w')
    (Hcheck : ClientRuntime.open_stream_check g (Ok tt) (inner w') = Ret (Ok g', inner w')) :
  g' = g /\ client (inner w') = Some c /\ c ∉ closed (inner w') /\ c ∉ ended w'.
Proof.
  unfold ClientRuntime.open_stream_check, bind, get, reject_if in Hcheck.
  destruct (ClientRuntime.is_generation_online (inner w') g) eqn:Hon; [|done].
  injection Hcheck as <-. split; [done|]. by eapply online_fence.
Qed.

(** Datagrams go to and come from the current client only: one is handed to the client
    that is installed when the call is made, and one that arrives is given to the caller
    only if that client is still the current one after the wait; otherwise the caller
    gets the client's error, or that its generation was superseded. *)
Theorem datagrams_of_current_client {A} w w' g c s (received : result A ClientError) r i
    (Hr : reachable w) (Hact : ClientRuntime.active_client (inner w) = Ret (Ok (g, c), s))
    (Hsteps : rtc step w w')
    (Hcheck : ClientRuntime.receive_datagram_check g received (inner w') = Ret (r, i)) :
  i = inner w' /\
  match r, received with
  | Ok datagram, Ok arrived =>
    datagram = arrived /\ client (inner w') = Some c /\ c ∉ closed (inner w') /\ c ∉ ended w'
  | Err e, Err e' => e = ClientFailed e'
  | Err e, Ok _ => e = Superseded /\ ClientRuntime.is_generation_online (inner w') g = false
  | Ok _, Err _ => False
  end /\
  forall sent, ClientRuntime.send_datagram sent (inner w) =
    Ret (match sent c with Ok _ => Ok tt | Err e => Err (ClientFailed e) end, inner w).
Proof.
  assert (s = inner w) as ->.
  { unfold ClientRuntime.active_client, bind, get in Hact. destruct (negb _); [done|].
    destruct (client (inner w)); [|done]. by injection Hact. }
  split; [|split].
  - unfold ClientRuntime.receive_datagram_check, bind, get, reject_if in Hcheck.
    destruct received; [destruct (negb _)|]; by injection Hcheck.
  - unfold ClientRuntime.receive_datagram_check, bind, get, reject_if in Hcheck.
    destruct received as [a|e]; [|by injection Hcheck as <- <-].
    destruct (ClientRuntime.is_generation_online (inner w') g) eqn:Hon; injection Hcheck as <- <-; [|done].
    split; [done|]. by eapply online_fence.
  - intros sent. unfold ClientRuntime.send_datagram, bind. rewrite Hact. cbn. by destruct (sent c).
Qed.

(** While no other call is stopping the runtime and revisions are left, a start is accepted exactly when the runtime is
    stopped or failed, and refused as busy without a change otherwise; a stop
    always succeeds and leaves the runtime stopped and published as such, with
    no client, no task handle, the old client closed and the old task
    aborted; and the current attempt's result takes the runtime online or to
    the failure it maps to. *)
Theorem runtime_commands w (Hr : reachable w) (Hhost : host w = true) (Hfree : mutex w = None)
    (Hroom : revision (snap w) + 2 <= U64_MAX) :
  (if active (phase (snap w))
   then ClientRuntime.start_with true (inner w) = Ret (Err Busy, inner w)
   else exists i, ClientRuntime.start_with true (inner w) = Ret (Ok (generation (snap w) + 1), i) /\
        phase (published i) = Connecting) /\
  (exists g t i, ClientRuntime.stop (E := unit) (inner w) = Ret (Ok (g, t), i) /\
     phase (published i) = Stopped /\ published i = current i /\ g = generation (published i) /\
     client i = None /\ lifecycle_task i = None /\
     (forall c, client (inner w) = Some c -> c ∈ closed i) /\
     (forall x, tasks w !! generation (snap w) = Some x -> active (phase (snap w)) = true ->
        t = Some (generation (snap w)))) /\
  (phase (snap w) = Connecting -> forall r,
     exists o i, ClientRuntime.complete_connect (E := unit) (generation (snap w)) r (inner w)
       = Ret (Ok o, i) /\
     match r with
     | Ok c => client i = Some c /\ phase (published i) = Online
     | Err e => client i = None /\ phase (published i) = Failed /\
                failure (published i) = Some (failure_from e)
     end).
Proof.
  pose proof (reachable_rests _ Hr Hfree) as Hw. pose proof (con_host _ Hw Hhost) as Ha.
  pose proof (con_numbers _ Hw) as Hnum. pose proof (con_phase _ Hw) as Hst.
  pose proof (con_handle _ Hw Ha) as Hhan. unfold snap in *. split_and!.
  - destruct (active (phase (current (inner w)))) eqn:Hact.
    + destruct (inner w) as [[[rv gen ph fl]] c t p cl]. by destruct ph.
    + destruct (start_with_total (inner w) Hact Hst Hnum Hroom) as [i Hi]. exists i.
      split; [done|]. by apply start_with_Ok in Hi as (_ & _ & _ & ->).
  - destruct (stop_total (E := unit) (inner w) Hnum Hroom) as (g & t & i & Hi).
    exists g, t, i. split; [done|].
    apply stop_Ok in Hi as [(Hph & -> & -> & ->)|(Hph & -> & -> & ->)].
    + assert (client (inner w) = None) as Hnone
        by (apply (offline_no_client _ Hw); unfold snap; by rewrite Hph).
      rewrite Hph in *. rewrite (con_published _ Hw). unfold snap. rewrite Hnone. naive_solver.
    + rewrite Hhan. cbn. split_and!; try done.
      * intros c ->. cbn. set_solver.
      * by intros x _ ->.
  - intros Hph r. destruct (complete_connect_total (E := unit) (generation (current (inner w))) r
      (inner w) Hroom) as (o & i & Hi).
    exists o, i. split; [done|]. apply complete_connect_Ok in Hi as [(Hn & _)|(_ & _ & Hi)]; [tauto|].
    assert (client (inner w) = None) as Hnone
        by (apply (offline_no_client _ Hw); unfold snap; by rewrite Hph).
    rewrite Hnone in Hi. destruct r; destruct Hi as [_ ->]; done.
Qed.

(** The runtime is dropped only when no task watches a client, and then it
    has none: the client that [Drop::drop] would close is never there, so a
    host that lets go of an online runtime without [stop] leaves the
    connection open until it ends by itself. *)
Lemma drop_finds_no_client w (Hr : reachable w) (Hfree : mutex w = None)
    (Hnw : forall g c, tasks w !! g <> Some (Watching c)) : client (inner w) = None.
Proof.
  destruct (client (inner w)) as [c|] eqn:Hc; [|done].
  destruct (con_client _ (reachable_rests _ Hr Hfree) c Hc) as (_ & _ & Hx). by destruct (Hnw _ _ Hx).
Qed.

(** ** Concrete runs *)
Definition dialing_inner : RuntimeInner :=
  moved ClientRuntime.new 1 1 Connecting None None (Some 1) [].
Definition dialing_world : World :=
  with_tasks (<[1 := Dialing]> (tasks initial)) (with_inner dialing_inner initial).
Definition connected_world : World :=
  {| inner := dialing_inner; host := true; alive := true;
     tasks := <[1 := HasResult (Ok 0%nat)]> (tasks dialing_world); aborted := ∅;
     created := 1; ended := []; mutex := None |}.
Definition online_inner : RuntimeInner :=
  moved dialing_inner 1 2 Online None (Some 0%nat) (Some 1) [].
Definition online_world : World :=
  with_tasks (<[1 := Watching 0%nat]> (tasks connected_world)) (with_inner online_inner connected_world).

(** A [stop] of the online runtime that has published [Stopping]. *)
Definition stopping_inner : RuntimeInner :=
  moved online_inner 2 3 Stopping None (Some 0%nat) (Some 1) [].
Definition stopping_world : World := with_mutex (Some 2) (with_inner stopping_inner online_world).

Lemma dialing_step : step initial dialing_world.
Proof. by apply (step_start initial 1 dialing_inner). Qed.
Lemma connected_step : step dialing_world connected_world.
Proof. by apply (step_connected dialing_world 1). Qed.
Lemma online_step : step connected_world online_world.
Proof. by apply (step_complete connected_world 1 (Ok 0%nat) (Some 0%nat) online_inner). Qed.
Lemma connected_reachable : reachable connected_world.
Proof. eapply rtc_l; [apply dialing_step|]. apply rtc_once, connected_step. Qed.
Lemma online_reachable : reachable online_world.
Proof. eapply rtc_r; [apply connected_reachable|apply online_step]. Qed.

Lemma stopping_step : step online_world stopping_world.
Proof. by apply (step_stop_begins online_world 2 stopping_inner). Qed.

Lemma runtime_consistent_witness :
  consistent stopping_world /\ phase (published (inner stopping_world)) = Stopping /\
  client (inner stopping_world) = Some 0%nat.
Proof.
  split; [|done].
  exact (proj1 (runtime_consistent _ _ online_reachable stopping_step)).
Defined.

Lemma generation_fences_client_witness :
  client (inner online_world) = Some 0%nat /\ 0%nat ∉ closed (inner online_world).
Proof.
  destruct (generation_fences_client online_world online_world 1 0%nat 1 _ online_reachable
              eq_refl (rtc_refl _ _) eq_refl) as (_ & Hc & Hn & _).
  exact (conj Hc Hn).
Defined.

Lemma datagrams_of_current_client_witness :
  client (inner online_world) = Some 0%nat /\
  ClientRuntime.send_datagram (fun _ => Err ErrorDatagramTooLarge) (inner online_world)
    = Ret (Err (ClientFailed ErrorDatagramTooLarge), inner online_world).
Proof.
  destruct (datagrams_of_current_client online_world online_world 1 0%nat _ (Ok tt) (Ok tt) _ online_reachable
              eq_refl (rtc_refl _ _) eq_refl) as (_ & (_ & Hc & _) & Hsend).
  exact (conj Hc (Hsend _)).
Defined.

Lemma runtime_commands_witness :
  ClientRuntime.start_with true (inner online_world) = Ret (Err Busy, inner online_world).
Proof. exact (proj1 (runtime_commands online_world online_reachable eq_refl eq_refl ltac:(done))). Defined.
