(* ===== verification/TunPacket.v ===== *)
(** Packets of the TUN adapter ([velum-adapter-tun/src/lib.rs]): which flow a
    captured packet belongs to, the payload it carries, and the packet that
    brings a UDP response back.  Reading and writing IP, TCP and UDP headers is
    [smoltcp], a parameter. *)
From S2P Require Import Prelude Net.

Inductive FlowProtocol := Tcp | Udp.
Record FlowKey := { protocol : FlowProtocol; source : SocketAddr; destination : SocketAddr }.

#[export] Instance FlowProtocol_eq_dec : EqDecision FlowProtocol.
Proof. solve_decision. Defined.
#[export] Instance FlowKey_eq_dec : EqDecision FlowKey.
Proof. solve_decision. Defined.
#[export] Instance FlowProtocol_countable : Countable FlowProtocol.
Proof.
  refine (inj_countable' (fun p => match p with Tcp => true | Udp => false end)
            (fun b => if b : bool then Tcp else Udp) _).
  by intros [].
Defined.
#[export] Instance FlowKey_countable : Countable FlowKey.
Proof.
  refine (inj_countable' (fun k => (protocol k, source k, destination k))
            (fun '(p, s, d) => {| protocol := p; source := s; destination := d |}) _).
  by intros [].
Defined.

Inductive PacketError :=
| MalformedIpv4
| MalformedIpv6
| FragmentedIpv4
| UnsupportedProtocol
| MalformedTransport.

Inductive PacketEncodeError := AddressFamilyMismatch | MtuExceeded.
Inductive TcpAddressSide := Source | Destination.

(** ** [smoltcp] *)
Inductive IpProtocol := ProtocolTcp | ProtocolUdp | ProtocolOther (number : N).
(** [Ipv4Repr] and [Ipv6Repr], without the field the source leaves alone. *)
Record IpRepr := { src_addr : N; dst_addr : N; next_header : IpProtocol; payload_len : N; hop_limit : N }.
Record UdpRepr := { src_port : N; dst_port : N }.

(** One version of IP: [new_checked], [Repr::parse], [payload], [buffer_len]
    and [emit], which writes the header over the front of a buffer. *)
Class IpPacket := {
  ip_checked : list byte -> bool;
  ip_parse : list byte -> option IpRepr;
  ip_payload : list byte -> list byte;
  ip_buffer_len : N;
  ip_emit : IpRepr -> list byte -> list byte
}.
(** TCP and UDP: [new_checked] with the ports, the payload, and [UdpRepr]'s
    [header_len] and [emit], which computes the checksum over the addresses. *)
Class Transport := {
  tcp_ports : list byte -> option (N * N);
  udp_ports : list byte -> option (N * N);
  udp_data : list byte -> list byte;
  udp_header_len : N;
  udp_emit : UdpRepr -> IpAddr -> IpAddr -> list byte -> list byte -> list byte
}.
(** The setters of one packet: addresses, and the checksums of both headers. *)
Class Rewriting := {
  set_src_addr : N -> list byte -> list byte;
  set_dst_addr : N -> list byte -> list byte;
  ipv4_fill_checksum : list byte -> list byte;
  tcp_fill_checksum : N -> N -> list byte -> option (list byte)
}.

(** What is emitted for a packet that fits its length field is read back. *)
Class IpPacketLaws (I : IpPacket) (address_max : N) : Prop := {
  emit_length : forall repr buffer, ip_buffer_len <= len buffer -> len (ip_emit repr buffer) = len buffer;
  emit_parse : forall repr buffer body,
    src_addr repr <= address_max -> dst_addr repr <= address_max ->
    next_header repr = ProtocolUdp -> hop_limit repr = 64 ->
    payload_len repr = len body -> len buffer = ip_buffer_len + len body ->
    ip_buffer_len + len body <= U16_MAX ->
    let frame := prefix_to ip_buffer_len (ip_emit repr buffer) ++ body in
    ip_checked frame = true /\ ip_parse frame = Some repr /\ ip_payload frame = body
}.
Class TransportLaws (T : Transport) : Prop := {
  udp_emit_length : forall ports s d payload buffer,
    len buffer = udp_header_len + len payload -> len (udp_emit ports s d payload buffer) = len buffer;
  udp_emit_parse : forall ports s d payload buffer,
    src_port ports <= U16_MAX -> dst_port ports <= U16_MAX ->
    len buffer = udp_header_len + len payload -> udp_header_len + len payload <= U16_MAX ->
    udp_ports (udp_emit ports s d payload buffer) = Some (src_port ports, dst_port ports) /\
    udp_data (udp_emit ports s d payload buffer) = payload
}.

Section packets.
Context (ipv4 ipv6 : IpPacket) `{Transport, Rewriting}.

(** ** Classification *)
Definition classify (ip : IpPacket) (mk : N -> IpAddr) (malformed unparsed : PacketError) (frame : list byte)
  : result FlowKey PacketError :=
  if negb (ip_checked frame) then Err malformed
  else
    match ip_parse frame with
    | None => Err unparsed
    | Some repr =>
      let payload := ip_payload frame in
      let ports :=
        match next_header repr with
        | ProtocolTcp =>
          match tcp_ports payload with Some ports => Ok (Tcp, ports) | None => Err MalformedTransport end
        | ProtocolUdp =>
          match udp_ports payload with Some ports => Ok (Udp, ports) | None => Err MalformedTransport end
        | ProtocolOther _ => Err UnsupportedProtocol
        end in
      match ports with
      | Err e => Err e
      | Ok (protocol, (source_port, destination_port)) =>
        if destination_port =? 0 then Err MalformedTransport
        else Ok {| protocol := protocol;
                   source := SocketAddr.new (mk (src_addr repr)) source_port;
                   destination := SocketAddr.new (mk (dst_addr repr)) destination_port |}
      end
    end.

Definition classify_ipv4_packet (frame : list byte) : result FlowKey PacketError :=
  classify ipv4 V4 MalformedIpv4 FragmentedIpv4 frame.
Definition classify_ipv6_packet (frame : list byte) : result FlowKey PacketError :=
  classify ipv6 V6 MalformedIpv6 MalformedIpv6 frame.

(** [frame.first().map(|byte| byte >> 4)] *)
Definition classify_ip_packet (frame : list byte) : result FlowKey PacketError :=
  match (fun byte => N.shiftr (Byte.to_N byte) 4) <$> head frame with
  | Some version =>
    if version =? 4 then classify_ipv4_packet frame
    else if version =? 6 then classify_ipv6_packet frame
    else Err UnsupportedProtocol
  | None => Err UnsupportedProtocol
  end.

(** The payload of a UDP packet: an unchecked or short transport is an error,
    which [udp_ports] reports. *)
Definition udp_payload (frame : list byte) : result (list byte) PacketError :=
  match classify_ipv4_packet frame with
  | Err e => Err e
  | Ok key =>
    if negb (bool_decide (protocol key = Udp)) then Err UnsupportedProtocol
    else if negb (@ip_checked ipv4 frame) then Err MalformedIpv4
    else
      match udp_ports (@ip_payload ipv4 frame) with
      | None => Err MalformedTransport
      | Some _ => Ok (udp_data (@ip_payload ipv4 frame))
      end
  end.

Definition rewrite_tcp_ipv4_address (frame : list byte) (side : TcpAddressSide) (address : N)
  : result (list byte) PacketError :=
  match classify_ipv4_packet frame with
  | Err e => Err e
  | Ok key =>
    if negb (bool_decide (protocol key = Tcp)) then Err UnsupportedProtocol
    else
      match @ip_checked ipv4 frame, @ip_parse ipv4 frame with
      | true, Some original =>
        let '(source, destination) :=
          match side with
          | Source => (address, dst_addr original)
          | Destination => (src_addr original, address)
          end in
        let rewritten :=
          match side with
          | Source => set_src_addr address frame
          | Destination => set_dst_addr address frame
          end in
        match tcp_fill_checksum source destination (ipv4_fill_checksum rewritten) with
        | Some rewritten => Ok rewritten
        | None => Err MalformedTransport
        end
      | _, _ => Err MalformedIpv4
      end
  end.

(** ** Responses *)

(** The body both address families share. *)
Definition encode_response (ip : IpPacket) (mk : N -> IpAddr) (flow : FlowKey) (source_ip destination_ip : N)
    (payload : list byte) (mtu : N) : result (list byte) PacketEncodeError :=
  let udp := {| src_port := SocketAddr.port (destination flow); dst_port := SocketAddr.port (source flow) |} in
  let repr := {| src_addr := source_ip; dst_addr := destination_ip; next_header := ProtocolUdp;
                 payload_len := udp_header_len + len payload; hop_limit := 64 |} in
  let length := ip_buffer_len + udp_header_len + len payload in
  if mtu <? length then Err MtuExceeded
  else
    let frame := ip_emit repr (repeat x00 (N.to_nat length)) in
    Ok (prefix_to ip_buffer_len frame ++
        udp_emit udp (mk source_ip) (mk destination_ip) payload (suffix_from ip_buffer_len frame)).

Definition encode_udp_response_ipv6 (flow : FlowKey) (source_ip destination_ip : N) (payload : list byte) (mtu : N)
  : result (list byte) PacketEncodeError :=
  encode_response ipv6 V6 flow source_ip destination_ip payload mtu.

Definition encode_udp_response (flow : FlowKey) (payload : list byte) (mtu : N)
  : result (list byte) PacketEncodeError :=
  match SocketAddr.ip (destination flow), SocketAddr.ip (source flow) with
  | V4 source_ip, V4 destination_ip => encode_response ipv4 V4 flow source_ip destination_ip payload mtu
  | V6 source_ip, V6 destination_ip => encode_udp_response_ipv6 flow source_ip destination_ip payload mtu
  | _, _ => Err AddressFamilyMismatch
  end.
End packets.

(** ** What the definitions amount to *)
Section proofs.
Context {ipv4 ipv6 : IpPacket} {T : Transport}.

(** The flow of a response: the captured one the other way round. *)
Definition reversed (flow : FlowKey) : FlowKey :=
  {| protocol := protocol flow;
     source := SocketAddr.new (SocketAddr.ip (destination flow)) (SocketAddr.port (destination flow));
     destination := SocketAddr.new (SocketAddr.ip (source flow)) (SocketAddr.port (source flow)) |}.

Lemma classify_destination ip mk e1 e2 frame key :
  classify ip mk e1 e2 frame = Ok key -> 0 < SocketAddr.port (destination key).
Proof.
  unfold classify. destruct (negb _); [done|]. destruct (ip_parse frame) as [repr|]; [|done].
  destruct (match next_header repr with ProtocolTcp => _ | _ => _ end) as [[p [s d]]|]; [|done].
  destruct (N.eqb_spec d 0); [done|]. intros [= <-]. cbn. destruct (mk (dst_addr repr)); cbn; lia.
Qed.

Lemma len_repeat {A} (x : A) n : len (repeat x (N.to_nat n)) = n.
Proof. unfold len. rewrite repeat_length. apply N2Nat.id. Qed.

Lemma encode_response_spec ip mk (max : N) `{!IpPacketLaws ip max, !TransportLaws T} flow s d payload mtu frame
    e1 e2 :
  s <= max -> d <= max ->
  SocketAddr.port (destination flow) <= U16_MAX -> 0 < SocketAddr.port (source flow) <= U16_MAX ->
  @ip_buffer_len ip + udp_header_len + len payload <= U16_MAX ->
  encode_response ip mk flow s d payload mtu = Ok frame ->
  len frame <= mtu /\
  classify ip mk e1 e2 frame =
    Ok {| protocol := Udp;
          source := SocketAddr.new (mk s) (SocketAddr.port (destination flow));
          destination := SocketAddr.new (mk d) (SocketAddr.port (source flow)) |} /\
  @ip_checked ip frame = true /\
  udp_ports (@ip_payload ip frame) =
    Some (SocketAddr.port (destination flow), SocketAddr.port (source flow)) /\
  udp_data (@ip_payload ip frame) = payload.
Proof.
  intros Hs Hd Hsp [Hdp0 Hdp] Hlen. unfold encode_response.
  set (repr := {| src_addr := s; dst_addr := d; next_header := ProtocolUdp;
                  payload_len := udp_header_len + len payload; hop_limit := 64 |}).
  set (ports := {| src_port := SocketAddr.port (destination flow); dst_port := SocketAddr.port (source flow) |}).
  destruct (N.ltb_spec mtu (@ip_buffer_len ip + udp_header_len + len payload)) as [|Hmtu]; [done|].
  set (total := @ip_buffer_len ip + udp_header_len + len payload) in *.
  set (buffer := repeat x00 (N.to_nat total)). intros [= <-].
  assert (len buffer = total) as Hb by apply len_repeat.
  assert (len (ip_emit repr buffer) = total) as He by (rewrite emit_length; unfold total in *; lia).
  set (body := udp_emit ports (mk s) (mk d) payload _).
  assert (len (suffix_from ip_buffer_len (ip_emit repr buffer)) = udp_header_len + len payload) as Hsuf
    by (rewrite len_suffix_from, He; unfold total; lia).
  assert (len body = udp_header_len + len payload) as Hbody by (unfold body; by rewrite udp_emit_length).
  destruct (emit_parse (I := ip) (address_max := max) repr buffer body) as (Hc & Hp & Hpay);
    [done|done|done|done|by rewrite Hbody|rewrite Hbody, Hb; unfold total; lia|rewrite Hbody; unfold total in *; lia|].
  destruct (udp_emit_parse (T := T) ports (mk s) (mk d) payload (suffix_from ip_buffer_len (ip_emit repr buffer)))
    as [Hports Hdata]; [done|done|done|lia|].
  split_and!.
  - rewrite len_app, Hbody, len_prefix_to; unfold total in *; lia.
  - unfold classify. rewrite Hc, Hp. cbn [negb next_header repr]. rewrite Hpay. fold body in Hports. rewrite Hports.
    cbn [src_port dst_port ports]. by rewrite (proj2 (N.eqb_neq _ 0)) by lia.
  - done.
  - by rewrite Hpay.
  - by rewrite Hpay.
Qed.

(** A UDP response finds its way back: the packet built for a flow fits the
    MTU, classifies as exactly the reversed flow and carries exactly the
    payload, in both address families. *)
Theorem udp_response_returns `{!IpPacketLaws ipv4 U32_MAX, !IpPacketLaws ipv6 U128_MAX, !TransportLaws T}
    flow payload mtu frame :
  SocketAddr.wf (source flow) -> SocketAddr.wf (destination flow) -> protocol flow = Udp ->
  0 < SocketAddr.port (source flow) ->
  N.max (@ip_buffer_len ipv4) (@ip_buffer_len ipv6) + udp_header_len + len payload <= U16_MAX ->
  encode_udp_response ipv4 ipv6 flow payload mtu = Ok frame ->
  len frame <= mtu /\
  (is_ipv4 (SocketAddr.ip (source flow)) = true ->
   classify_ipv4_packet ipv4 frame = Ok (reversed flow) /\ udp_payload ipv4 frame = Ok payload) /\
  (is_ipv6 (SocketAddr.ip (source flow)) = true -> classify_ipv6_packet ipv6 frame = Ok (reversed flow)).
Proof.
  intros [Hs Hsp] [Hd Hdp] Hudp Hport Hlen. unfold encode_udp_response, reversed. rewrite Hudp.
  destruct (SocketAddr.ip (destination flow)) as [d|d], (SocketAddr.ip (source flow)) as [s|s];
    intros Henc; try done; cbn [wf_ip is_ipv4 is_ipv6] in *.
  - destruct (encode_response_spec ipv4 V4 U32_MAX flow d s payload mtu frame MalformedIpv4 FragmentedIpv4)
      as (Hmtu & Hc & Hchk & Hports & Hdata); [done|done|done|done|lia|done|].
    split; [done|]. split; [|done]. intros _. unfold classify_ipv4_packet, udp_payload. rewrite Hc.
    split; [done|]. cbn [protocol]. unfold classify_ipv4_packet. rewrite Hc. cbn [protocol].
    by rewrite bool_decide_eq_true_2, Hchk, Hports, Hdata.
  - destruct (encode_response_spec ipv6 V6 U128_MAX flow d s payload mtu frame MalformedIpv6 MalformedIpv6)
      as (Hmtu & Hc & _); [done|done|done|done|lia|done|].
    split; [done|]. by split.
Qed.
End proofs.

(** ** A small wire format *)
Module TunPacketExamples.
(** Version, protocol, payload length and the addresses, in [5 + 2 * n] bytes. *)
Definition protocol_byte (p : IpProtocol) : byte :=
  match p with ProtocolTcp => x06 | ProtocolUdp => x11 | ProtocolOther n => byte_of_N n end.
Definition byte_protocol (b : byte) : IpProtocol :=
  if Byte.eqb b x06 then ProtocolTcp else if Byte.eqb b x11 then ProtocolUdp else ProtocolOther (Byte.to_N b).
Definition small_header (version : byte) (n : nat) (repr : IpRepr) : list byte :=
  [version; protocol_byte (next_header repr); byte_of_N (hop_limit repr)] ++
  to_be_bytes 2 (payload_len repr) ++ to_be_bytes n (src_addr repr) ++ to_be_bytes n (dst_addr repr).

Definition small_ip (version : byte) (n : nat) : IpPacket := {|
  ip_checked frame := (5 + 2 * n <=? length frame)%nat;
  ip_parse frame :=
    match frame with
    | v :: p :: h :: rest =>
      Some {| src_addr := from_be_bytes (take n (drop 2 rest)); dst_addr := from_be_bytes (take n (drop (2 + n) rest));
              next_header := byte_protocol p; payload_len := from_be_bytes (take 2 rest);
              hop_limit := Byte.to_N h |}
    | _ => None
    end;
  ip_payload frame := drop (5 + 2 * n) frame;
  ip_buffer_len := N.of_nat (5 + 2 * n);
  ip_emit repr buffer := small_header version n repr ++ drop (5 + 2 * n) buffer
|}.
Definition small_udp : Transport := {|
  tcp_ports bytes := None;
  udp_ports bytes :=
    if (4 <=? length bytes)%nat then Some (from_be_bytes (take 2 bytes), from_be_bytes (take 2 (drop 2 bytes)))
    else None;
  udp_data bytes := drop 4 bytes;
  udp_header_len := 4;
  udp_emit ports s d payload buffer := to_be_bytes 2 (src_port ports) ++ to_be_bytes 2 (dst_port ports) ++ payload
|}.

Lemma length_small_header version n repr : length (small_header version n repr) = (5 + 2 * n)%nat.
Proof. unfold small_header. cbn [app length]. rewrite !length_app, !length_to_be_bytes. lia. Qed.

Lemma take_app_n {A} n (l k : list A) : length l = n -> take n (l ++ k) = l.
Proof. intros <-. apply take_app_length. Qed.
Lemma drop_app_n {A} n (l k : list A) : length l = n -> drop n (l ++ k) = k.
Proof. intros <-. apply drop_app_length. Qed.

Lemma small_ip_laws version n max :
  max < 256 ^ N.of_nat n -> IpPacketLaws (small_ip version n) max.
Proof.
  intros Hmax. split.
  - cbn [ip_emit ip_buffer_len small_ip]. intros repr buffer Hlen. unfold len in *.
    rewrite length_app, length_small_header, length_drop. lia.
  - cbn [ip_emit ip_buffer_len small_ip ip_checked ip_parse ip_payload].
    intros repr buffer body Hs Hd Hudp Hhop Hpay Hbuf Hlen.
    assert (prefix_to (N.of_nat (5 + 2 * n)) (small_header version n repr ++ drop (5 + 2 * n) buffer)
      = small_header version n repr) as ->.
    { unfold prefix_to. rewrite Nat2N.id. apply take_app_n, length_small_header. }
    split_and!.
    + apply Nat.leb_le. rewrite length_app, length_small_header. lia.
    + unfold small_header. cbn [app]. f_equal.
      rewrite <-!app_assoc. rewrite (take_app_n 2) by apply length_to_be_bytes.
      rewrite (drop_app_n 2) by apply length_to_be_bytes. rewrite (take_app_n n) by apply length_to_be_bytes.
      rewrite <-drop_drop, (drop_app_n 2) by apply length_to_be_bytes.
      rewrite (drop_app_n n), (take_app_n n) by apply length_to_be_bytes.
      rewrite !from_to_be_bytes; [|unfold U16_MAX in Hlen; change (256 ^ N.of_nat 2) with 65536; lia|lia|lia].
      rewrite Hudp, Hhop. destruct repr; cbn in *; subst. done.
    + apply drop_app_n, length_small_header.
Qed.
#[export] Instance small_ipv4_laws : IpPacketLaws (small_ip x45 4) U32_MAX.
Proof. by apply small_ip_laws. Qed.
#[export] Instance small_ipv6_laws : IpPacketLaws (small_ip x60 16) U128_MAX.
Proof. by apply small_ip_laws. Qed.
#[export] Instance small_udp_laws : TransportLaws small_udp.
Proof.
  split; cbn [udp_emit udp_header_len udp_ports udp_data small_udp].
  - intros ports s d payload buffer Hb. rewrite !len_app, !len_to_be_bytes, Hb. lia.
  - intros ports s d payload buffer Hsp Hdp Hb Hl. split.
    + replace (4 <=? _)%nat with true
        by (symmetry; apply Nat.leb_le; rewrite !length_app, !length_to_be_bytes; lia).
      rewrite (take_app_n 2), (drop_app_n 2), (take_app_n 2) by apply length_to_be_bytes.
      unfold U16_MAX in *. rewrite !from_to_be_bytes by (change (256 ^ N.of_nat 2) with 65536; lia). done.
    + rewrite app_assoc. apply drop_app_n. by rewrite length_app, !length_to_be_bytes.
Qed.

Definition query : FlowKey :=
  {| protocol := Udp; source := SocketAddr.new (V4 167772162) 5353; destination := SocketAddr.new (V4 16843009) 53 |}.

Lemma udp_response_returns_witness :
  exists frame, encode_udp_response (small_ip x45 4) (small_ip x60 16) (H := small_udp) query [x2a] 1500 = Ok frame /\
    classify_ipv4_packet (small_ip x45 4) (H := small_udp) frame = Ok (reversed query).
Proof.
  eexists. split; [reflexivity|].
  apply (udp_response_returns (ipv4 := small_ip x45 4) (ipv6 := small_ip x60 16) (T := small_udp) query [x2a] 1500).
  - split; vm_compute; discriminate.
  - split; vm_compute; discriminate.
  - reflexivity.
  - reflexivity.
  - vm_compute. discriminate.
  - reflexivity.
  - reflexivity.
Defined.
End TunPacketExamples.
