(* ===== verification/Utf8.v ===== *)
(** UTF-8, as [std::str::from_utf8] and [str::as_bytes] read and write it. *)
From S2P Require Import Prelude Str.

Module Utf8.
Definition encode_char (c : Char) : list byte :=
  if c <? 128 then [byte_of_N c]
  else if c <? 2048 then [byte_of_N (192 + c / 64); byte_of_N (128 + c mod 64)]
  else if c <? 65536 then
    [byte_of_N (224 + c / 4096); byte_of_N (128 + c / 64 mod 64); byte_of_N (128 + c mod 64)]
  else
    [byte_of_N (240 + c / 262144); byte_of_N (128 + c / 4096 mod 64);
     byte_of_N (128 + c / 64 mod 64); byte_of_N (128 + c mod 64)].
Definition encode (s : Str) : list byte := s ≫= encode_char.

Definition between (lo hi x : N) : bool := (lo <=? x) && (x <=? hi).
Definition continuation (x : N) : bool := between 128 191 x.

(** The second byte of a sequence excludes overlong forms, surrogates and
    values past the last scalar value. *)
Definition second_of_three (x0 x1 : N) : bool :=
  if x0 =? 224 then between 160 191 x1
  else if x0 =? 237 then between 128 159 x1 else continuation x1.
Definition second_of_four (x0 x1 : N) : bool :=
  if x0 =? 240 then between 144 191 x1
  else if x0 =? 244 then between 128 143 x1 else continuation x1.

Definition cons_char (c : Char) (s : option Str) : option Str :=
  match s with Some s => Some (c :: s) | None => None end.

(** [std::str::from_utf8(bytes).ok()] *)
Fixpoint decode (bytes : list byte) : option Str :=
  match bytes with
  | [] => Some []
  | b0 :: r0 =>
    let x0 := Byte.to_N b0 in
    if x0 <? 128 then cons_char x0 (decode r0)
    else
      match r0 with
      | [] => None
      | b1 :: r1 =>
        let x1 := Byte.to_N b1 in
        if between 194 223 x0 then
          if continuation x1 then cons_char ((x0 - 192) * 64 + (x1 - 128)) (decode r1) else None
        else
          match r1 with
          | [] => None
          | b2 :: r2 =>
            let x2 := Byte.to_N b2 in
            if between 224 239 x0 then
              if second_of_three x0 x1 && continuation x2
              then cons_char (((x0 - 224) * 64 + (x1 - 128)) * 64 + (x2 - 128)) (decode r2)
              else None
            else
              match r2 with
              | [] => None
              | b3 :: r3 =>
                let x3 := Byte.to_N b3 in
                if between 240 244 x0 then
                  if second_of_four x0 x1 && continuation x2 && continuation x3
                  then cons_char ((((x0 - 240) * 64 + (x1 - 128)) * 64 + (x2 - 128)) * 64 + (x3 - 128))
                         (decode r3)
                  else None
                else None
              end
          end
      end
  end.
End Utf8.
Import Utf8.

Lemma between_true lo hi x : between lo hi x = true -> lo <= x <= hi.
Proof. unfold between. intros [?%N.leb_le ?%N.leb_le]%andb_true_iff. lia. Qed.
Lemma second_of_three_range x0 x1 :
  second_of_three x0 x1 = true -> 128 <= x1 <= 191 /\ (x0 = 224 -> 160 <= x1).
Proof.
  unfold second_of_three, continuation. destruct (N.eqb_spec x0 224); [|destruct (x0 =? 237)];
    intros ?%between_true; lia.
Qed.
Lemma second_of_four_range x0 x1 :
  second_of_four x0 x1 = true ->
  128 <= x1 <= 191 /\ (x0 = 240 -> 144 <= x1) /\ (x0 = 244 -> x1 <= 143).
Proof.
  unfold second_of_four, continuation. destruct (N.eqb_spec x0 240); [|destruct (N.eqb_spec x0 244)];
    intros ?%between_true; lia.
Qed.

Lemma encode_cons c s : encode (c :: s) = encode_char c ++ encode s.
Proof. done. Qed.
Lemma encode_app s t : encode (s ++ t) = encode s ++ encode t.
Proof. unfold encode. by rewrite bind_app. Qed.

Lemma div_of q r d : r < d -> (q * d + r) / d = q.
Proof. intros Hr. rewrite N.div_add_l by lia. rewrite N.div_small by done. lia. Qed.
Lemma mod_of q r d : r < d -> (q * d + r) mod d = r.
Proof. intros Hr. rewrite N.add_comm, N.Div0.mod_add. by apply N.mod_small. Qed.

(** Splits a sum of sixty-fourths back into its digits. *)
Lemma encode_two a b :
  2 <= a < 32 -> b < 64 ->
  encode_char (a * 64 + b) = [byte_of_N (192 + a); byte_of_N (128 + b)].
Proof.
  intros Ha Hb. unfold encode_char.
  rewrite (proj2 (N.ltb_ge _ _)), (proj2 (N.ltb_lt _ _)) by lia.
  by rewrite div_of, mod_of by lia.
Qed.
Lemma encode_three a b c :
  a < 16 -> b < 64 -> c < 64 -> 32 <= a * 64 + b ->
  encode_char ((a * 64 + b) * 64 + c) =
  [byte_of_N (224 + a); byte_of_N (128 + b); byte_of_N (128 + c)].
Proof.
  intros Ha Hb Hc Hmin. unfold encode_char.
  rewrite !(proj2 (N.ltb_ge ((a * 64 + b) * 64 + c) _)), (proj2 (N.ltb_lt _ _)) by lia.
  replace (((a * 64 + b) * 64 + c) / 4096) with a.
  2:{ change 4096 with (64 * 64). by rewrite <-N.Div0.div_div, !div_of by lia. }
  by rewrite div_of, !mod_of by lia.
Qed.
Lemma encode_four a b c d :
  a < 5 -> b < 64 -> c < 64 -> d < 64 -> 16 <= a * 64 + b ->
  encode_char (((a * 64 + b) * 64 + c) * 64 + d) =
  [byte_of_N (240 + a); byte_of_N (128 + b); byte_of_N (128 + c); byte_of_N (128 + d)].
Proof.
  intros Ha Hb Hc Hd Hmin. unfold encode_char.
  rewrite !(proj2 (N.ltb_ge (((a * 64 + b) * 64 + c) * 64 + d) _)) by lia.
  replace ((((a * 64 + b) * 64 + c) * 64 + d) / 262144) with a.
  2:{ change 262144 with (64 * 64 * 64). by rewrite <-!N.Div0.div_div, !div_of by lia. }
  replace ((((a * 64 + b) * 64 + c) * 64 + d) / 4096) with (a * 64 + b).
  2:{ change 4096 with (64 * 64). by rewrite <-N.Div0.div_div, !div_of by lia. }
  by rewrite div_of, !mod_of by lia.
Qed.

Lemma byte_of_sum b n : n <= Byte.to_N b -> byte_of_N (n + (Byte.to_N b - n)) = b.
Proof. intros Hn. replace (n + (Byte.to_N b - n)) with (Byte.to_N b) by lia. apply byte_of_N_to_N. Qed.

Lemma cons_char_Some c o s : cons_char c o = Some s -> exists t, o = Some t /\ s = c :: t.
Proof. destruct o; [|done]. intros [= <-]. eauto. Qed.

(** What decodes is the encoding of what it decodes to. *)
Lemma decode_encode_text bytes s : decode bytes = Some s -> encode s = bytes.
Proof.
  revert s. induction bytes as [bytes IH] using (well_founded_ind (Wf_nat.well_founded_ltof _ length)).
  intros s. unfold Wf_nat.ltof in IH. destruct bytes as [|b0 r0]; [by intros [= <-]|].
  cbn [decode length] in *. destruct (N.ltb_spec (Byte.to_N b0) 128) as [H0|H0].
  { intros (t & Ht & ->)%cons_char_Some. rewrite encode_cons, (IH r0) by (done || lia).
    unfold encode_char. rewrite (proj2 (N.ltb_lt _ _) H0). by rewrite byte_of_N_to_N. }
  destruct r0 as [|b1 r1]; [done|]. cbn [length] in IH.
  pose proof (to_N_lt b1). destruct (between 194 223 _) eqn:H2.
  { apply between_true in H2. destruct (continuation _) eqn:Hc; [|done]. apply between_true in Hc.
    intros (t & Ht & ->)%cons_char_Some. rewrite encode_cons, (IH r1) by (done || lia).
    rewrite encode_two by lia. cbn [app]. by rewrite !byte_of_sum by lia. }
  destruct r1 as [|b2 r2]; [done|]. cbn [length] in IH.
  destruct (between 224 239 _) eqn:H3.
  { apply between_true in H3. destruct (_ && _) eqn:Hc; [|done].
    apply andb_true_iff in Hc as [[Hc1 Hmin]%second_of_three_range Hc2%between_true].
    intros (t & Ht & ->)%cons_char_Some. rewrite encode_cons, (IH r2) by (done || lia).
    rewrite encode_three by lia. cbn [app]. by rewrite !byte_of_sum by lia. }
  destruct r2 as [|b3 r3]; [done|]. cbn [length] in IH.
  destruct (between 240 244 _) eqn:H4; [|done].
  apply between_true in H4. destruct (_ && _) eqn:Hc; [|done].
  apply andb_true_iff in Hc as [[(Hc1 & Hmin & _)%second_of_four_range Hc2%between_true]%andb_true_iff
    Hc3%between_true].
  intros (t & Ht & ->)%cons_char_Some. rewrite encode_cons, (IH r3) by (done || lia).
  rewrite encode_four by lia. cbn [app]. by rewrite !byte_of_sum by lia.
Qed.

(** ** Examples *)
Example decode_accented : decode [xc3; xa9; x41] = Some [233; 65].
Proof. reflexivity. Qed.
Example decode_overlong : decode [xc0; x80] = None.
Proof. reflexivity. Qed.
Example decode_surrogate : decode [xed; xa0; x80] = None.
Proof. reflexivity. Qed.
Example decode_truncated : decode [xe2; x82] = None.
Proof. reflexivity. Qed.

(** ** ASCII text *)
Definition ascii (c : Char) : Prop := c < 128.

Lemma decode_encode_ascii t : Forall ascii t -> decode (encode t) = Some t.
Proof.
  induction 1 as [|c t Hc Hall IH]; [done|]. rewrite encode_cons. unfold encode_char, ascii in *.
  rewrite (proj2 (N.ltb_lt _ _) Hc). cbn [app decode].
  rewrite to_N_byte_of_N by lia. by rewrite (proj2 (N.ltb_lt _ _) Hc), IH.
Qed.
Lemma len_encode_ascii t : Forall ascii t -> len (encode t) = len t.
Proof.
  induction 1 as [|c t Hc Hall IH]; [done|]. rewrite encode_cons, len_app, len_cons, IH.
  unfold encode_char, ascii in *. by rewrite (proj2 (N.ltb_lt _ _) Hc).
Qed.

(** A text holds Unicode scalar values; those outside ASCII take two bytes or
    more, all of them above 127. *)
Definition scalar (c : Char) : Prop := c < 1114112.

Lemma encode_char_wide c :
  128 <= c -> scalar c ->
  exists a b r, encode_char c = a :: b :: r /\ 128 <= Byte.to_N a /\ 128 <= Byte.to_N b.
Proof.
  unfold scalar, encode_char. intros Hc Hs. rewrite (proj2 (N.ltb_ge c 128) Hc).
  assert (forall n, n mod 64 < 64) as Hm by (intros n; apply N.mod_lt; lia).
  destruct (N.ltb_spec c 2048); [|destruct (N.ltb_spec c 65536)].
  - assert (c / 64 < 32) by (apply N.Div0.div_lt_upper_bound; lia). pose proof (Hm c).
    do 3 eexists. split; [done|]. rewrite !to_N_byte_of_N by lia. lia.
  - assert (c / 4096 < 16) by (apply N.Div0.div_lt_upper_bound; lia). pose proof (Hm (c / 64)).
    do 3 eexists. split; [done|]. rewrite !to_N_byte_of_N by lia. lia.
  - assert (c / 262144 < 8) by (apply N.Div0.div_lt_upper_bound; lia). pose proof (Hm (c / 4096)).
    do 3 eexists. split; [done|]. rewrite !to_N_byte_of_N by lia. lia.
Qed.
Lemma encode_char_ascii c : ascii c -> encode_char c = [byte_of_N c].
Proof. unfold ascii, encode_char. intros Hc. by rewrite (proj2 (N.ltb_lt c 128) Hc). Qed.

(** Every text of scalar values reads back. *)
Definition char_valid (c : Char) : Prop := c < 55296 \/ 57344 <= c < 1114112.
Lemma between_lt lo hi x : x < lo -> between lo hi x = false.
Proof. intros Hx. unfold between. by rewrite (proj2 (N.leb_gt lo x) Hx). Qed.
Lemma between_gt lo hi x : hi < x -> between lo hi x = false.
Proof. intros Hx. unfold between. rewrite (proj2 (N.leb_gt x hi) Hx). apply andb_false_r. Qed.
Lemma between_in lo hi x : lo <= x <= hi -> between lo hi x = true.
Proof. intros [H1 H2]. unfold between. by rewrite (proj2 (N.leb_le lo x) H1), (proj2 (N.leb_le x hi) H2). Qed.
Lemma continuation_digit n : continuation (128 + n mod 64) = true.
Proof. assert (n mod 64 < 64) by (apply N.mod_lt; lia). apply between_in. lia. Qed.

Lemma decode_encode_char c rest : char_valid c -> decode (encode_char c ++ rest) = cons_char c (decode rest).
Proof.
  intros Hc. unfold encode_char.
  assert (forall n, n mod 64 < 64) as Hm by (intros n; apply N.mod_lt; lia).
  pose proof (Hm c) as Hm0. pose proof (Hm (c / 64)) as Hm1. pose proof (Hm (c / 4096)) as Hm2.
  pose proof (N.div_mod' c 64) as D0. pose proof (N.div_mod' (c / 64) 64) as D1.
  pose proof (N.div_mod' (c / 4096) 64) as D2.
  rewrite N.Div0.div_div in D1. change (64 * 64) with 4096 in D1.
  rewrite N.Div0.div_div in D2. change (4096 * 64) with 262144 in D2.
  unfold char_valid in Hc. revert Hm0 Hm1 Hm2 D0 D1 D2.
  pose proof (continuation_digit c) as C0. pose proof (continuation_digit (c / 64)) as C1.
  pose proof (continuation_digit (c / 4096)) as C2. revert C0 C1 C2.
  generalize (c mod 64) (c / 64 mod 64) (c / 4096 mod 64). generalize (c / 64) (c / 4096) (c / 262144).
  intros q1 q2 q3 d0 d1 d2 C0 C1 C2 Hm0 Hm1 Hm2 D0 D1 D2.
  destruct (N.ltb_spec c 128); [|destruct (N.ltb_spec c 2048); [|destruct (N.ltb_spec c 65536)]]; cbn [app decode].
  - rewrite to_N_byte_of_N by lia. by rewrite (proj2 (N.ltb_lt c 128)).
  - rewrite !to_N_byte_of_N by lia. rewrite (proj2 (N.ltb_ge _ 128)) by lia.
    rewrite between_in, C0 by lia. f_equal. lia.
  - rewrite !to_N_byte_of_N by lia. rewrite (proj2 (N.ltb_ge _ 128)) by lia.
    rewrite (between_gt 194) by lia. rewrite (between_in 224) by lia.
    assert (second_of_three (224 + q2) (128 + d1) = true) as ->.
    { unfold second_of_three. destruct (N.eqb_spec (224 + q2) 224); [apply between_in; lia|].
      destruct (N.eqb_spec (224 + q2) 237); [apply between_in; lia|exact C1]. }
    rewrite C0. cbn [andb]. f_equal. lia.
  - rewrite !to_N_byte_of_N by lia. rewrite (proj2 (N.ltb_ge _ 128)) by lia.
    rewrite (between_gt 194), (between_gt 224) by lia. rewrite (between_in 240) by lia.
    assert (second_of_four (240 + q3) (128 + d2) = true) as ->.
    { unfold second_of_four. destruct (N.eqb_spec (240 + q3) 240); [apply between_in; lia|].
      destruct (N.eqb_spec (240 + q3) 244); [apply between_in; lia|exact C2]. }
    rewrite C0, C1. cbn [andb]. f_equal. lia.
Qed.
Lemma decode_utf8 s : Forall char_valid s -> decode (encode s) = Some s.
Proof.
  induction 1 as [|c s Hc _ IH]; [done|]. by rewrite encode_cons, decode_encode_char, IH.
Qed.

(** What decodes is a text of scalar values. *)
Lemma decode_scalar bytes s : decode bytes = Some s -> Forall scalar s.
Proof.
  revert s. induction bytes as [bytes IH] using (well_founded_ind (Wf_nat.well_founded_ltof _ length)).
  intros s. unfold Wf_nat.ltof in IH. destruct bytes as [|b0 r0]; [by intros [= <-]|].
  cbn [decode length] in *. unfold scalar.
  destruct (N.ltb_spec (Byte.to_N b0) 128) as [H0|H0].
  { intros (t & Ht & ->)%cons_char_Some. constructor; [lia|]. eapply (IH r0); [lia|done]. }
  destruct r0 as [|b1 r1]; [done|]. cbn [length] in IH. destruct (between 194 223 _) eqn:H2.
  { apply between_true in H2. destruct (continuation _) eqn:Hc; [|done]. apply between_true in Hc.
    intros (t & Ht & ->)%cons_char_Some. constructor; [lia|]. eapply (IH r1); [lia|done]. }
  destruct r1 as [|b2 r2]; [done|]. cbn [length] in IH. destruct (between 224 239 _) eqn:H3.
  { apply between_true in H3. destruct (_ && _) eqn:Hc; [|done].
    apply andb_true_iff in Hc as [[Hc1 _]%second_of_three_range Hc2%between_true].
    intros (t & Ht & ->)%cons_char_Some. constructor; [lia|]. eapply (IH r2); [lia|done]. }
  destruct r2 as [|b3 r3]; [done|]. cbn [length] in IH. destruct (between 240 244 _) eqn:H4; [|done].
  apply between_true in H4. destruct (_ && _) eqn:Hc; [|done].
  apply andb_true_iff in Hc as [[(Hc1 & _ & Hmax)%second_of_four_range Hc2%between_true]%andb_true_iff
    Hc3%between_true].
  intros (t & Ht & ->)%cons_char_Some. constructor; [lia|]. eapply (IH r3); [lia|done].
Qed.
