(* ===== verification/IpText.v ===== *)
(** The textual form of IP addresses that [IpAddr::from_str] of the standard
    library accepts: a recursive-descent parser over the characters, which
    must consume the whole text. *)
From S2P Require Import Prelude Net Str.

Module IpParser.
(** A parser that reads from the front, or fails and reads nothing. *)
Definition Parser (A : Type) : Type := Str -> option (A * Str).

Definition read_given_char (c : Char) : Parser unit := fun s =>
  match s with d :: s' => if d =? c then Some (tt, s') else None | [] => None end.

(** [char::to_digit] *)
Definition to_digit (radix : N) (c : Char) : option N :=
  let d :=
    if is_ascii_digit c then Some (c - 48)
    else if (65 <=? c) && (c <=? 90) then Some (c - 55)
    else if (97 <=? c) && (c <=? 122) then Some (c - 87)
    else None in
  match d with Some v => if v <? radix then Some v else None | None => None end.

(** The digits at the front: their value and their number; at most
    [max_digits] of them, within the width [max]. *)
Fixpoint read_digits (radix max : N) (max_digits : nat) (value count : N) (s : Str) {struct s}
  : option (N * N * Str) :=
  match s with
  | [] => Some (value, count, [])
  | c :: s' =>
    match to_digit radix c with
    | None => Some (value, count, s)
    | Some d =>
      let value := value * radix + d in
      if max <? value then None
      else match max_digits with
           | O => None
           | S n => read_digits radix max n value (count + 1) s'
           end
    end
  end.
Definition read_number (radix max : N) (max_digits : nat) (allow_zero_prefix : bool) : Parser N :=
  fun s =>
    match read_digits radix max max_digits 0 0 s with
    | None => None
    | Some (value, count, s') =>
      if count =? 0 then None
      else if negb allow_zero_prefix && starts_with 48 s && (1 <? count) then None
      else Some (value, s')
    end.

(** [read_separator(sep, index, p)] *)
Definition read_separator {A} (sep : Char) (index : nat) (p : Parser A) : Parser A := fun s =>
  match index with
  | O => p s
  | S _ => match read_given_char sep s with Some (_, s') => p s' | None => None end
  end.

Definition read_ipv4_addr : Parser N := fun s =>
  let octet i := read_separator 46 i (read_number 10 255 3 false) in
  match octet 0%nat s with
  | None => None
  | Some (a, s) =>
    match octet 1%nat s with
    | None => None
    | Some (b, s) =>
      match octet 2%nat s with
      | None => None
      | Some (c, s) =>
        match octet 3%nat s with None => None | Some (d, s) => Some (ipv4 a b c d, s) end
      end
    end
  end.

(** [read_groups] into [limit] places from place [i]: the groups, whether the
    last two are an IPv4 address, and the rest of the text. *)
Fixpoint read_groups (fuel limit i : nat) (s : Str) : list N * bool * Str :=
  match fuel with
  | O => ([], false, s)
  | S fuel =>
    let embedded :=
      if (S i <? limit)%nat then read_separator 58 i read_ipv4_addr s else None in
    match embedded with
    | Some (v4, s') => ([v4 / 65536; v4 mod 65536], true, s')
    | None =>
      match read_separator 58 i (read_number 16 U16_MAX 4 true) s with
      | None => ([], false, s)
      | Some (g, s') =>
        let '(gs, v4, s'') := read_groups fuel limit (S i) s' in (g :: gs, v4, s'')
      end
    end
  end.

Definition of_segments (gs : list N) : N := fold_left (fun acc g => acc * 65536 + g) gs 0.

Definition read_ipv6_addr : Parser N := fun s =>
  let '(head, head_ipv4, s) := read_groups 8 8 0 s in
  if (length head =? 8)%nat then Some (of_segments head, s)
  else if head_ipv4 then None
  else
    match read_given_char 58 s with
    | None => None
    | Some (_, s) =>
      match read_given_char 58 s with
      | None => None
      | Some (_, s) =>
        let limit := (8 - S (length head))%nat in
        let '(tail, _, s) := read_groups limit limit 0 s in
        Some (of_segments (head ++ replicate (8 - length head - length tail) 0 ++ tail), s)
      end
    end.

(** [IpAddr::from_str(s).ok()] *)
Definition parse (s : Str) : option IpAddr :=
  let parsed :=
    match read_ipv4_addr s with
    | Some (n, s') => Some (V4 n, s')
    | None =>
      match read_ipv6_addr s with Some (n, s') => Some (V6 n, s') | None => None end
    end in
  match parsed with Some (a, []) => Some a | _ => None end.

(** A number with no limit on its digits: every digit is a character, so the
    length of the text is a limit that is never met. *)
Definition read_unlimited (max : N) : Parser N := fun s => read_number 10 max (length s) true s.
Definition read_port : Parser N := fun s =>
  match read_given_char 58 s with Some (_, s) => read_unlimited U16_MAX s | None => None end.
Definition read_scope_id : Parser N := fun s =>
  match read_given_char 37 s with Some (_, s) => read_unlimited U32_MAX s | None => None end.

Definition read_socket_addr_v4 : Parser SocketAddr := fun s =>
  match read_ipv4_addr s with
  | None => None
  | Some (ip, s) =>
    match read_port s with Some (port, s) => Some (SocketV4 ip port, s) | None => None end
  end.
Definition read_socket_addr_v6 : Parser SocketAddr := fun s =>
  match read_given_char 91 s with
  | None => None
  | Some (_, s) =>
    match read_ipv6_addr s with
    | None => None
    | Some (ip, s) =>
      let '(scope_id, s) := match read_scope_id s with Some r => r | None => (0, s) end in
      match read_given_char 93 s with
      | None => None
      | Some (_, s) =>
        match read_port s with
        | Some (port, s) => Some (SocketV6 ip port 0 scope_id, s)
        | None => None
        end
      end
    end
  end.

(** [SocketAddr::from_str(s).ok()] *)
Definition parse_socket (s : Str) : option SocketAddr :=
  let parsed := match read_socket_addr_v4 s with Some r => Some r | None => read_socket_addr_v6 s end in
  match parsed with Some (a, []) => Some a | _ => None end.
End IpParser.

(** ** [Display] of addresses *)
Module IpDisplay.
Definition display_ipv4 (bits : N) : Str :=
  display_uint (bits / 16777216) ++ 46 :: display_uint (bits / 65536 mod 256) ++ 46 ::
  display_uint (bits / 256 mod 256) ++ 46 :: display_uint (bits mod 256).

(** [{:x}] of a segment *)
Definition hex_digit (d : N) : Char := if d <? 10 then 48 + d else 87 + d.
Fixpoint hex_digits (fuel : nat) (n : N) (acc : Str) : Str :=
  match fuel with
  | O => acc
  | S fuel =>
    let acc := hex_digit (n mod 16) :: acc in
    if n <? 16 then acc else hex_digits fuel (n / 16) acc
  end.
Definition display_hex (n : N) : Str := hex_digits 4 n [].

Fixpoint segments_of (k : nat) (n : N) : list N :=
  match k with O => [] | S k => segments_of k (n / 65536) ++ [n mod 65536] end.
Definition segments (bits : N) : list N := segments_of 8 bits.

Record Span := { start : nat; span_len : nat }.
Fixpoint longest_zeroes (i : nat) (segments : list N) (longest current : Span) : Span :=
  match segments with
  | [] => longest
  | segment :: segments =>
    if segment =? 0 then
      let current :=
        {| start := if (span_len current =? 0)%nat then i else start current;
           span_len := S (span_len current) |} in
      longest_zeroes (S i) segments
        (if (span_len longest <? span_len current)%nat then current else longest) current
    else longest_zeroes (S i) segments longest {| start := 0; span_len := 0 |}
  end.

(** [fmt_subslice]: the segments between colons, the first one being segment
    [i] of the text. *)
Fixpoint fmt_from (i : nat) (chunk : list N) : Str :=
  match chunk with
  | [] => []
  | segment :: chunk =>
    (match i with O => [] | S _ => [58] end) ++ display_hex segment ++ fmt_from (S i) chunk
  end.
Definition fmt_subslice (chunk : list N) : Str := fmt_from 0 chunk.

(** [to_ipv4_mapped] *)
Definition to_ipv4_mapped (bits : N) : option N :=
  if bits / 4294967296 =? 65535 then Some (bits mod 4294967296) else None.

Definition display_ipv6 (bits : N) : Str :=
  match to_ipv4_mapped bits with
  | Some v4 => str "::ffff:" ++ display_ipv4 v4
  | None =>
    let segments := segments bits in
    let zeroes := longest_zeroes 0 segments {| start := 0; span_len := 0 |} {| start := 0; span_len := 0 |} in
    if (1 <? span_len zeroes)%nat then
      fmt_subslice (take (start zeroes) segments) ++ [58; 58] ++
      fmt_subslice (drop (start zeroes + span_len zeroes) segments)
    else fmt_subslice segments
  end.

Definition display_ip (a : IpAddr) : Str :=
  match a with V4 n => display_ipv4 n | V6 n => display_ipv6 n end.

Definition display_socket (a : SocketAddr) : Str :=
  match a with
  | SocketV4 ip port => display_ipv4 ip ++ 58 :: display_uint port
  | SocketV6 ip port _ scope_id =>
    91 :: display_ipv6 ip ++
    (if scope_id =? 0 then [] else 37 :: display_uint scope_id) ++ 93 :: 58 :: display_uint port
  end.
End IpDisplay.

(** ** Examples of the accepted and refused texts *)
Example parse_v4 : IpParser.parse (str "192.168.0.1") = Some (V4 3232235521).
Proof. reflexivity. Qed.
Example parse_v4_leading_zero : IpParser.parse (str "10.0.0.01") = None.
Proof. reflexivity. Qed.
Example parse_v4_range : IpParser.parse (str "10.0.0.256") = None.
Proof. reflexivity. Qed.
Example parse_v6 : IpParser.parse (str "2001:db8::1") = Some (V6 42540766411282592856903984951653826561).
Proof. reflexivity. Qed.
Example parse_v6_any : IpParser.parse (str "::") = Some (V6 0).
Proof. reflexivity. Qed.
Example parse_v6_mapped : IpParser.parse (str "::ffff:1.2.3.4") = Some (V6 281470698652420).
Proof. reflexivity. Qed.
Example parse_v6_full : IpParser.parse (str "1:2:3:4:5:6:7:8:9") = None.
Proof. reflexivity. Qed.

(** ** Every parsed address fits its width *)
Lemma read_digits_bound radix max n v c s v' c' s' :
  v <= max -> IpParser.read_digits radix max n v c s = Some (v', c', s') -> v' <= max.
Proof.
  revert n v c. induction s as [|ch s IH]; intros n v c Hv; cbn.
  - by intros [= <- _ _].
  - destruct (IpParser.to_digit radix ch) as [d|]; [|by intros [= <- _ _]].
    destruct (N.ltb_spec max (v * radix + d)); [done|]. destruct n; [done|]. by apply IH.
Qed.

Lemma read_number_bound radix max n z s v s' :
  IpParser.read_number radix max n z s = Some (v, s') -> v <= max.
Proof.
  unfold IpParser.read_number.
  destruct (IpParser.read_digits _ _ _ _ _ _) as [[[v' c'] r]|] eqn:Hr; [|done].
  apply read_digits_bound in Hr; [|lia]. repeat case_match; [done..|]. by intros [= <- _].
Qed.

Lemma read_separator_number_bound sep i radix max n z s v s' :
  IpParser.read_separator sep i (IpParser.read_number radix max n z) s = Some (v, s') -> v <= max.
Proof.
  unfold IpParser.read_separator. destruct i; [apply read_number_bound|].
  destruct (IpParser.read_given_char sep s) as [[? ?]|]; [apply read_number_bound|done].
Qed.

Lemma read_ipv4_bound s n s' : IpParser.read_ipv4_addr s = Some (n, s') -> u32 n.
Proof.
  unfold IpParser.read_ipv4_addr. cbv zeta.
  repeat match goal with
  | |- match ?e with _ => _ end = _ -> _ =>
    destruct e as [[? ?]|] eqn:?; [|done]
  end.
  intros [= <- _].
  repeat match goal with
  | H : IpParser.read_separator _ _ _ _ = Some _ |- _ => apply read_separator_number_bound in H
  end. unfold ipv4, u32, U32_MAX. lia.
Qed.

Lemma read_groups_bound fuel limit i s gs v4 s' :
  (i + fuel = limit)%nat -> IpParser.read_groups fuel limit i s = (gs, v4, s') ->
  Forall (fun g => g <= U16_MAX) gs /\ (length gs <= fuel)%nat.
Proof.
  revert i s gs v4 s'. induction fuel as [|fuel IH]; intros i s gs v4 s' Hi; cbn -[IpParser.read_ipv4_addr Nat.ltb].
  { by intros [= <- _ _]. }
  destruct (if (S i <? limit)%nat then _ else _) as [[n r]|] eqn:Hemb.
  - destruct (Nat.ltb_spec (S i) limit) as [Hlt|]; [|done].
    assert (u32 n) as Hn.
    { unfold IpParser.read_separator in Hemb. destruct i; [by eapply read_ipv4_bound|].
      destruct (IpParser.read_given_char 58 s) as [[? ?]|]; [by eapply read_ipv4_bound|done]. }
    intros [= <- _ _]. unfold u32, U32_MAX in Hn. split; [|cbn; lia].
    repeat constructor; unfold U16_MAX.
    + assert (n / 65536 < 65536) by (apply N.Div0.div_lt_upper_bound; lia). lia.
    + assert (n mod 65536 < 65536) by (apply N.mod_lt; lia). lia.
  - clear Hemb. destruct (IpParser.read_separator 58 i (IpParser.read_number _ _ _ _) s) as [[g r]|] eqn:Hg; [|intros [= <- _ _]; split; [done|cbn; lia]].
    apply read_separator_number_bound in Hg.
    destruct (IpParser.read_groups fuel limit (S i) r) as [[gs' v'] s''] eqn:Hr.
    intros [= <- _ _]. apply IH in Hr as [Hall Hlen]; [|lia]. split; [by constructor|cbn; lia].
Qed.

Lemma of_segments_bound gs :
  Forall (fun g => g <= U16_MAX) gs -> IpParser.of_segments gs < 65536 ^ len gs.
Proof.
  induction gs as [|g gs IH] using rev_ind; intros Hall; [done|].
  apply Forall_app in Hall as [Hgs [Hg _]%Forall_cons]. specialize (IH Hgs).
  unfold IpParser.of_segments in *. rewrite fold_left_app, len_app, N.pow_add_r. cbn [fold_left].
  change (65536 ^ len [g]) with 65536. unfold U16_MAX in Hg. nia.
Qed.

Lemma read_ipv6_bound s n s' : IpParser.read_ipv6_addr s = Some (n, s') -> u128 n.
Proof.
  unfold IpParser.read_ipv6_addr.
  destruct (IpParser.read_groups 8 8 0 s) as [[head hv] r] eqn:Hh.
  apply read_groups_bound in Hh as [Hall Hlen]; [|done].
  assert (forall gs, Forall (fun g => g <= U16_MAX) gs -> length gs = 8%nat ->
    u128 (IpParser.of_segments gs)) as Hb.
  { intros gs Hgs Hl. pose proof (of_segments_bound gs Hgs) as H. unfold len in H. rewrite Hl in H.
    change (65536 ^ N.of_nat 8) with (U128_MAX + 1) in H. unfold u128. lia. }
  destruct (Nat.eqb_spec (length head) 8) as [H8|H8].
  { intros [= <- _]. by apply Hb. }
  destruct hv; [done|].
  destruct (IpParser.read_given_char 58 r) as [[? r1]|]; [|done].
  destruct (IpParser.read_given_char 58 r1) as [[? r2]|]; [|done].
  destruct (IpParser.read_groups (8 - S (length head)) (8 - S (length head)) 0 r2) as [[tail tv] r3] eqn:Ht.
  apply read_groups_bound in Ht as [Htall Htlen]; [|done].
  intros [= <- _]. apply Hb.
  - rewrite !Forall_app. split_and!; [done| |done]. apply Forall_replicate. unfold U16_MAX. lia.
  - rewrite !length_app, length_replicate. lia.
Qed.

Lemma parse_wf s a : IpParser.parse s = Some a -> wf_ip a.
Proof.
  unfold IpParser.parse. destruct (IpParser.read_ipv4_addr s) as [[n r]|] eqn:H4.
  - destruct r; [|done]. intros [= <-]. by eapply read_ipv4_bound.
  - destruct (IpParser.read_ipv6_addr s) as [[n r]|] eqn:H6; [|done]. destruct r; [|done].
    intros [= <-]. by eapply read_ipv6_bound.
Qed.
