(* ===== verification/SocketText.v ===== *)
(** The text of addresses reads back: [Display] of an IP or socket address is
    a text that [FromStr] turns into the same address. *)
From S2P Require Import Prelude Net Str Utf8 IpText.
Import IpParser IpDisplay.

(** ** What a number leaves unread *)
Definition no_digit (radix : N) (rest : Str) : Prop :=
  match rest with [] => True | c :: _ => to_digit radix c = None end.

Lemma read_digits_app radix max n v c ds w k rest :
  read_digits radix max n v c ds = Some (w, k, []) -> no_digit radix rest ->
  read_digits radix max n v c (ds ++ rest) = Some (w, k, rest).
Proof.
  revert n v c. induction ds as [|d ds IH]; intros n v c.
  - intros [= <- <-] Hr. destruct rest as [|r rest]; [done|]. cbn in *. by rewrite Hr.
  - cbn [app read_digits]. destruct (to_digit radix d); [|done].
    destruct (max <? _); [done|]. destruct n; [done|]. apply IH.
Qed.

Lemma read_digits_suffix radix max n v c s w k s' :
  read_digits radix max n v c s = Some (w, k, s') -> exists ds, s = ds ++ s'.
Proof.
  revert n v c. induction s as [|d s IH]; intros n v c; cbn [read_digits].
  - intros [= _ _ <-]. by exists [].
  - destruct (to_digit radix d); [|intros [= _ _ <-]; by exists []].
    destruct (max <? _); [done|]. destruct n; [done|].
    intros [ds ->]%IH. by exists (d :: ds).
Qed.

Lemma digit_to_digit c : is_ascii_digit c = true -> to_digit 10 c = Some (c - 48).
Proof.
  intros Hc. unfold to_digit. rewrite Hc.
  unfold is_ascii_digit in Hc. apply andb_true_iff in Hc as [?%N.leb_le ?%N.leb_le].
  by rewrite (proj2 (N.ltb_lt _ _)) by lia.
Qed.

Lemma read_parse_digits max n v c ds w :
  parse_digits max v ds = Some w -> (length ds <= n)%nat ->
  read_digits 10 max n v c ds = Some (w, c + len ds, []).
Proof.
  revert n v c. induction ds as [|d ds IH]; intros n v c; cbn [parse_digits read_digits length].
  - intros [= ->] _. rewrite len_nil, N.add_0_r. done.
  - destruct (is_ascii_digit d) eqn:Hd; [|done]. rewrite (digit_to_digit _ Hd).
    destruct (N.leb_spec (v * 10 + (d - 48)) max) as [Hle|]; [|done].
    rewrite (proj2 (N.ltb_ge _ _) Hle). intros Hp Hn. destruct n as [|n]; [lia|].
    rewrite (IH n _ _ Hp) by lia. rewrite len_cons. do 3 f_equal. lia.
Qed.

Lemma read_number_display max n x rest :
  x <= max -> (length (display_uint x) <= n)%nat -> no_digit 10 rest ->
  read_number 10 max n true (display_uint x ++ rest) = Some (x, rest).
Proof.
  intros Hx Hn Hr. destruct (display_uint_spec x max Hx) as (Hne & _ & Hp). unfold read_number.
  rewrite (read_digits_app _ _ _ _ _ _ x (0 + len (display_uint x)) rest);
    [|by apply read_parse_digits|done].
  cbn [negb andb]. rewrite (proj2 (N.eqb_neq _ _)); [done|].
  destruct (display_uint x); [done|]. rewrite len_cons. lia.
Qed.

Lemma read_unlimited_display max x rest :
  x <= max -> no_digit 10 rest -> read_unlimited max (display_uint x ++ rest) = Some (x, rest).
Proof.
  intros Hx Hr. apply read_number_display; [done| |done]. rewrite length_app. lia.
Qed.

(** ** IPv4 *)

(** A property of every number below [n], decided by trying them all. *)
Fixpoint all_from (n : nat) (x : N) (f : N -> bool) : bool :=
  match n with O => true | S n => f x && all_from n (N.succ x) f end.
Definition below (n : N) (f : N -> bool) : bool := all_from (N.to_nat n) 0 f.

Lemma all_from_spec n y f x : all_from n y f = true -> y <= x < y + N.of_nat n -> f x = true.
Proof.
  revert y. induction n as [|n IH]; intros y; [lia|]. cbn [all_from].
  intros [Hf Hall]%andb_true_iff Hx. destruct (decide (x = y)) as [->|]; [done|].
  apply (IH _ Hall). lia.
Qed.
Lemma below_spec n f x : below n f = true -> x < n -> f x = true.
Proof. intros Hb Hx. apply (all_from_spec _ _ _ _ Hb). lia. Qed.

(** At most three digits, and none in front that is not needed. *)
Definition octet_text_ok (x : N) : bool :=
  (length (display_uint x) <=? 3)%nat &&
  implb (starts_with 48 (display_uint x)) (length (display_uint x) =? 1)%nat.
Lemma octet_text x : x < 256 -> octet_text_ok x = true.
Proof. apply (below_spec 256). by vm_compute. Qed.

Lemma starts_with_app c (s t : Str) : s <> [] -> starts_with c (s ++ t) = starts_with c s.
Proof. by destruct s. Qed.

Lemma read_octet x rest :
  x < 256 -> no_digit 10 rest ->
  read_number 10 255 3 false (display_uint x ++ rest) = Some (x, rest).
Proof.
  intros Hx Hr. destruct (display_uint_spec x 255) as (Hne & _ & Hp); [lia|].
  apply octet_text in Hx as [Hlen%Nat.leb_le Hz]%andb_true_iff. unfold read_number.
  rewrite (read_digits_app _ _ _ _ _ _ x (0 + len (display_uint x)) rest);
    [|by apply read_parse_digits|done].
  rewrite (proj2 (N.eqb_neq _ _)) by (destruct (display_uint x); [done|]; rewrite len_cons; lia).
  rewrite (starts_with_app _ _ _ Hne). cbn [negb andb].
  destruct (starts_with 48 (display_uint x)); [|done]. cbn [implb] in Hz. apply Nat.eqb_eq in Hz.
  unfold len. by rewrite Hz.
Qed.

Lemma no_digit_dot rest : no_digit 10 (46 :: rest).
Proof. done. Qed.

Lemma read_ipv4_display n rest :
  u32 n -> no_digit 10 rest -> read_ipv4_addr (display_ipv4 n ++ rest) = Some (n, rest).
Proof.
  unfold u32, U32_MAX. intros Hn Hr. unfold display_ipv4, read_ipv4_addr. cbv zeta.
  cbn [read_separator].
  repeat rewrite <-app_assoc, <-?app_comm_cons.
  rewrite read_octet by (try apply N.Div0.div_lt_upper_bound; try apply no_digit_dot; lia).
  unfold read_separator, read_given_char. cbn [N.eqb Pos.eqb].
  rewrite read_octet by (try apply N.mod_lt; try apply no_digit_dot; lia). cbn [N.eqb Pos.eqb].
  rewrite read_octet by (try apply N.mod_lt; try apply no_digit_dot; lia). cbn [N.eqb Pos.eqb].
  rewrite read_octet by (try apply N.mod_lt; done || lia). unfold ipv4. do 2 f_equal.
  pose proof (N.div_mod' n 256). pose proof (N.div_mod' (n / 256) 256).
  pose proof (N.div_mod' (n / 65536) 256).
  rewrite !N.Div0.div_div in *. cbn [N.mul Pos.mul] in *. lia.
Qed.

(** Without a dot there is no IPv4 address. *)
Lemma read_number_suffix radix max n z s v s' :
  read_number radix max n z s = Some (v, s') -> exists ds, s = ds ++ s'.
Proof.
  unfold read_number. destruct (read_digits _ _ _ _ _ _) as [[[w k] r]|] eqn:Hd; [|done].
  apply read_digits_suffix in Hd. destruct (k =? 0); [done|]. destruct (_ && _); [done|].
  by intros [= _ <-].
Qed.

Lemma read_ipv4_dotless s : 46 ∉ s -> read_ipv4_addr s = None.
Proof.
  intros Hs. unfold read_ipv4_addr. cbv zeta. cbn [read_separator].
  destruct (read_number _ _ _ _ s) as [[a r]|] eqn:Ha; [|done].
  apply read_number_suffix in Ha as [ds ->]. unfold read_separator, read_given_char.
  destruct r as [|c r]; [done|]. destruct (N.eqb_spec c 46) as [->|]; [|done].
  exfalso. apply Hs. rewrite elem_of_app. right. by left.
Qed.

(** ** IPv6 groups *)
Definition hex_digit_ok (d : N) : bool :=
  match to_digit 16 (hex_digit d) with Some v => v =? d | None => false end &&
  negb (hex_digit d =? 46).
Lemma hex_digit_spec d : d < 16 -> to_digit 16 (hex_digit d) = Some d /\ hex_digit d <> 46.
Proof.
  intros Hd. assert (hex_digit_ok d = true) as [Hv Hn%negb_true_iff%N.eqb_neq]%andb_true_iff
    by (apply (below_spec 16); [by vm_compute|done]).
  split; [|done]. destruct (to_digit 16 (hex_digit d)); [|done]. by apply N.eqb_eq in Hv as ->.
Qed.

Lemma read_digits_snoc radix max n v c ds d w k x :
  read_digits radix max n v c ds = Some (w, k, []) -> (length ds < n)%nat ->
  to_digit radix d = Some x -> w * radix + x <= max ->
  read_digits radix max n v c (ds ++ [d]) = Some (w * radix + x, k + 1, []).
Proof.
  revert n v c. induction ds as [|e ds IH]; intros n v c; cbn [app read_digits length].
  - intros [= <- <-] Hn -> Hmax. rewrite (proj2 (N.ltb_ge _ _) Hmax). by destruct n; [lia|].
  - destruct (to_digit radix e); [|done]. destruct (max <? _); [done|].
    destruct n; [done|]. intros Hr Hn. apply IH; [done|lia].
Qed.

(** The hexadecimal text of a number is read back, and holds no dot. *)
Lemma hex_digits_spec fuel n acc max :
  n < 16 ^ N.of_nat (S fuel) -> n <= max ->
  exists ds, hex_digits (S fuel) n acc = ds ++ acc /\ ds <> [] /\ (length ds <= S fuel)%nat /\
    46 ∉ ds /\
    forall k, (length ds <= k)%nat -> read_digits 16 max k 0 0 ds = Some (n, len ds, []).
Proof.
  revert n acc. induction fuel as [|fuel IH]; intros n acc Hn Hmax;
    assert (n mod 16 < 16) as Hd by (apply N.mod_lt; lia);
    destruct (hex_digit_spec _ Hd) as [Hdig Hdot];
    assert (n = n / 16 * 16 + n mod 16) as Hdm by (rewrite N.mul_comm; apply N.div_mod').
  - change (16 ^ N.of_nat 1) with 16 in Hn. exists [hex_digit (n mod 16)].
    cbn [hex_digits]. rewrite (proj2 (N.ltb_lt _ _) Hn). split_and!; [done|done|cbn; lia| |].
    + by intros ?%list_elem_of_singleton.
    + intros k Hk. change [hex_digit (n mod 16)] with ([] ++ [hex_digit (n mod 16)]).
      rewrite (read_digits_snoc 16 max k 0 0 [] _ 0 0 (n mod 16)); try done.
      * do 3 f_equal. rewrite N.mod_small by done. lia.
      * rewrite N.mod_small by done. lia.
  - change (hex_digits (S (S fuel)) n acc) with
      (if n <? 16 then hex_digit (n mod 16) :: acc
       else hex_digits (S fuel) (n / 16) (hex_digit (n mod 16) :: acc)).
    destruct (N.ltb_spec n 16) as [Hlt|Hge].
    + destruct (IH n acc) as (ds & Heq & Hrest).
      * eapply N.lt_le_trans; [exact Hlt|]. rewrite <-(N.pow_1_r 16) at 1.
        apply N.pow_le_mono_r; lia.
      * done.
      * cbn [hex_digits] in Heq. rewrite (proj2 (N.ltb_lt _ _) Hlt) in Heq. exists ds.
        naive_solver lia.
    + rewrite Nnat.Nat2N.inj_succ, N.pow_succ_r' in Hn.
      destruct (IH (n / 16) (hex_digit (n mod 16) :: acc)) as (ds & -> & Hne & Hlen & Hnd & Hr);
        [by apply N.Div0.div_lt_upper_bound|lia|].
      exists (ds ++ [hex_digit (n mod 16)]). rewrite <-app_assoc, length_app, len_app. cbn [length app].
      split_and!; [done|by destruct ds|lia| |].
      * by intros [?|?%list_elem_of_singleton]%elem_of_app.
      * intros k Hk. rewrite (read_digits_snoc 16 max k 0 0 ds _ (n / 16) (len ds) (n mod 16));
          [by rewrite <-Hdm|apply Hr; lia|lia|done|lia].
Qed.

Lemma group_text x :
  x <= U16_MAX ->
  display_hex x <> [] /\ 46 ∉ display_hex x /\
  read_digits 16 U16_MAX 4 0 0 (display_hex x) = Some (x, len (display_hex x), []).
Proof.
  intros Hx. destruct (hex_digits_spec 3 x [] U16_MAX) as (ds & Heq & Hne & Hl & Hd & Hr); [|done|].
  - change (16 ^ N.of_nat 4) with (U16_MAX + 1). lia.
  - unfold display_hex. rewrite Heq, app_nil_r. auto.
Qed.

Lemma read_group x rest :
  x <= U16_MAX -> no_digit 16 rest ->
  read_number 16 U16_MAX 4 true (display_hex x ++ rest) = Some (x, rest).
Proof.
  intros Hx Hr. unfold read_number.
  destruct (group_text x Hx) as (Hne & _ & Hd).
  rewrite (read_digits_app _ _ _ _ _ _ _ _ _ Hd Hr). cbn [negb andb].
  rewrite (proj2 (N.eqb_neq _ _)); [done|]. destruct (display_hex x); [done|]. rewrite len_cons. lia.
Qed.

Lemma display_hex_dotless x : x <= U16_MAX -> 46 ∉ display_hex x.
Proof. by intros (_ & H & _)%group_text. Qed.

Lemma fmt_from_dotless i gs : Forall (fun g => g <= U16_MAX) gs -> 46 ∉ fmt_from i gs.
Proof.
  revert i. induction gs as [|g gs IH]; intros i; [intros _; cbn; apply not_elem_of_nil|].
  intros [Hg Hgs]%Forall_cons. cbn [fmt_from]. rewrite !not_elem_of_app. split_and!.
  - destruct i; [apply not_elem_of_nil|]. by intros ?%list_elem_of_singleton.
  - by apply display_hex_dotless.
  - by apply IH.
Qed.

Definition no_group (i : nat) (rest : Str) : Prop :=
  no_digit 16 rest /\ read_separator 58 i (read_number 16 U16_MAX 4 true) rest = None.

Lemma fmt_from_no_digit i gs rest : no_digit 16 rest -> no_digit 16 (fmt_from (S i) gs ++ rest).
Proof. by destruct gs. Qed.

Lemma read_ipv4_none i s : 46 ∉ s -> read_separator 58 i read_ipv4_addr s = None.
Proof.
  intros Hs. destruct i; cbn [read_separator]; [by apply read_ipv4_dotless|].
  unfold read_given_char. destruct s as [|c s]; [done|]. destruct (c =? 58); [|done].
  apply read_ipv4_dotless. intros H. apply Hs. by right.
Qed.

Lemma read_groups_fmt fuel limit i gs rest :
  Forall (fun g => g <= U16_MAX) gs -> 46 ∉ rest -> (length gs <= fuel)%nat ->
  no_digit 16 rest -> (length gs = fuel \/ no_group (i + length gs) rest) ->
  read_groups fuel limit i (fmt_from i gs ++ rest) = (gs, false, rest).
Proof.
  revert i gs. induction fuel as [|fuel IH]; intros i gs Hall Hdot Hlen Hnd Hstop.
  { destruct gs; [done|cbn in Hlen; lia]. }
  cbn [read_groups]. replace (if (S i <? limit)%nat then _ else None) with (None (A := N * Str)).
  2:{ destruct (S i <? limit)%nat; [|done]. symmetry. apply read_ipv4_none.
      rewrite not_elem_of_app. split; [by apply fmt_from_dotless|done]. }
  destruct gs as [|g gs].
  - destruct Hstop as [?|[_ Hstop]]; [done|]. rewrite Nat.add_0_r in Hstop. cbn [fmt_from app].
    by rewrite Hstop.
  - apply Forall_cons in Hall as [Hg Hgs]. cbn [fmt_from length] in *. rewrite <-!app_assoc.
    assert (read_separator 58 i (read_number 16 U16_MAX 4 true)
      ((match i with O => [] | S _ => [58] end) ++ display_hex g ++ fmt_from (S i) gs ++ rest) =
      Some (g, fmt_from (S i) gs ++ rest)) as ->.
    { destruct i; cbn [read_separator app read_given_char N.eqb Pos.eqb];
        (apply read_group; [done|by apply fmt_from_no_digit]). }
    rewrite (IH (S i) gs); try done; [lia|]. destruct Hstop as [?|Hstop]; [left; lia|right].
    by rewrite Nat.add_succ_r in Hstop.
Qed.

(** ** Segments *)
Lemma segments_of_length k n : length (segments_of k n) = k.
Proof. revert n. induction k as [|k IH]; intros n; cbn [segments_of]; [done|]. rewrite length_app, IH. cbn. lia. Qed.
Lemma segments_of_bound k n : Forall (fun g => g <= U16_MAX) (segments_of k n).
Proof.
  revert n. induction k as [|k IH]; intros n; cbn [segments_of]; [done|].
  apply Forall_app. split; [apply IH|]. constructor; [|done].
  assert (n mod 65536 < 65536) by (apply N.mod_lt; lia). unfold U16_MAX. lia.
Qed.
Lemma of_segments_of k n : n < 65536 ^ N.of_nat k -> of_segments (segments_of k n) = n.
Proof.
  revert n. induction k as [|k IH]; intros n Hn.
  - change (65536 ^ N.of_nat 0) with 1 in Hn. assert (n = 0) as -> by lia. done.
  - rewrite Nnat.Nat2N.inj_succ, N.pow_succ_r' in Hn. cbn [segments_of]. unfold of_segments in *.
    rewrite fold_left_app, IH by (apply N.Div0.div_lt_upper_bound; lia). cbn [fold_left].
    pose proof (N.div_mod' n 65536). lia.
Qed.
Lemma of_segments_inj_8 n : u128 n -> of_segments (segments n) = n.
Proof.
  intros Hn. apply of_segments_of. change (65536 ^ N.of_nat 8) with (U128_MAX + 1).
  unfold u128 in Hn. lia.
Qed.

(** The run the formatter elides is a run of zero segments. *)
Definition zero_span (gs : list N) (z : Span) : Prop :=
  (start z + span_len z <= length gs)%nat /\
  take (span_len z) (drop (start z) gs) = replicate (span_len z) 0.

Lemma zero_span_app gs g z : zero_span gs z -> zero_span (gs ++ g) z.
Proof.
  intros [Hl Hz]. split; [rewrite length_app; lia|].
  rewrite drop_app_le, take_app_le; [done|rewrite length_drop; lia|lia].
Qed.

Lemma longest_zeroes_spec gs seen longest current :
  zero_span seen longest -> zero_span seen current ->
  (span_len current = 0 \/ start current + span_len current = length seen)%nat ->
  zero_span (seen ++ gs) (longest_zeroes (length seen) gs longest current).
Proof.
  revert seen longest current. induction gs as [|g gs IH]; intros seen longest current Hl Hc Hend.
  { cbn. by rewrite app_nil_r. }
  cbn [longest_zeroes]. replace (seen ++ g :: gs) with ((seen ++ [g]) ++ gs) by by rewrite <-app_assoc.
  assert (length (seen ++ [g]) = S (length seen)) as Hlen by (rewrite length_app; cbn; lia).
  destruct (N.eqb_spec g 0) as [->|Hg].
  - assert (zero_span (seen ++ [0])
      {| start := if (span_len current =? 0)%nat then length seen else start current;
         span_len := S (span_len current) |}) as Hc'.
    { destruct Hc as [Hcl Hcz]. unfold zero_span. cbn [start span_len]. rewrite Hlen.
      destruct (Nat.eqb_spec (span_len current) 0) as [H0|H0].
      - rewrite H0. split; [lia|]. by rewrite drop_app_length.
      - destruct Hend as [?|Hend]; [done|]. split; [lia|].
        rewrite drop_app_le by lia. rewrite replicate_S_end.
        rewrite <-Hcz. replace (S (span_len current)) with (length (drop (start current) seen) + 1)%nat
          by (rewrite length_drop; lia).
        rewrite take_app_add. cbn. f_equal. symmetry. apply take_ge. rewrite length_drop. lia. }
    rewrite <-Hlen. apply IH; [|done|].
    + destruct (_ <? _)%nat; [done|by apply zero_span_app].
    + right. cbn [start span_len]. rewrite Hlen.
      destruct (Nat.eqb_spec (span_len current) 0) as [H0|H0]; [rewrite H0; lia|].
      destruct Hend; [done|lia].
  - rewrite <-Hlen. apply IH; [by apply zero_span_app| |by left]. split; cbn; [lia|done].
Qed.

(** ** IPv6 addresses *)

(** What follows an address in a socket address neither continues a group nor
    holds a dot. *)
Definition ends_ipv6 (rest : Str) : Prop :=
  no_digit 16 rest /\ 46 ∉ rest /\ match rest with c :: _ => c <> 58 | [] => True end.

Lemma ends_ipv6_no_group i rest : ends_ipv6 rest -> no_group i rest.
Proof.
  intros (Hnd & _ & Hc). split; [done|]. destruct i; cbn [read_separator].
  - unfold read_number. destruct rest as [|c rest]; [done|]. cbn in *. by rewrite Hnd.
  - unfold read_given_char. destruct rest as [|c rest]; [done|].
    by rewrite (proj2 (N.eqb_neq _ _) Hc).
Qed.

Lemma colons_no_group i rest : no_group i (58 :: 58 :: rest).
Proof. split; [done|]. by destruct i. Qed.

Lemma read_elided head tail rest :
  Forall (fun g => g <= U16_MAX) head -> Forall (fun g => g <= U16_MAX) tail ->
  (length head + length tail < 8)%nat -> ends_ipv6 rest ->
  read_ipv6_addr (fmt_subslice head ++ [58; 58] ++ fmt_subslice tail ++ rest) =
  Some (of_segments (head ++ replicate (8 - length head - length tail) 0 ++ tail), rest).
Proof.
  intros Hh Ht Hlen Hrest. pose proof Hrest as (Hnd & Hdot & _). unfold read_ipv6_addr, fmt_subslice.
  cbn [app]. rewrite (read_groups_fmt 8 8 0 head); [|done| |lia|done|right; apply colons_no_group].
  2:{ rewrite !not_elem_of_cons, not_elem_of_app. split_and!; try done. by apply fmt_from_dotless. }
  rewrite (proj2 (Nat.eqb_neq _ _)) by lia. cbn [read_given_char N.eqb Pos.eqb].
  rewrite (read_groups_fmt _ _ 0 tail); [done|done|done|lia|done|right; by apply ends_ipv6_no_group].
Qed.

Lemma read_full gs rest :
  Forall (fun g => g <= U16_MAX) gs -> length gs = 8%nat -> ends_ipv6 rest ->
  read_ipv6_addr (fmt_subslice gs ++ rest) = Some (of_segments gs, rest).
Proof.
  intros Hall Hlen (Hnd & Hdot & _). unfold read_ipv6_addr, fmt_subslice.
  rewrite (read_groups_fmt 8 8 0 gs); [|done|done|lia|done|by left]. by rewrite Hlen.
Qed.

Lemma ends_ipv6_no_digit rest : ends_ipv6 rest -> no_digit 10 rest.
Proof.
  intros (Hnd & _ & _). destruct rest as [|c rest]; [done|]. cbn in *. unfold to_digit in *.
  destruct (is_ascii_digit c) eqn:Hc.
  - unfold is_ascii_digit in Hc. apply andb_true_iff in Hc as [_ ?%N.leb_le].
    rewrite (proj2 (N.ltb_lt _ _)) in Hnd by lia. done.
  - destruct (_ && _) eqn:Hu.
    + apply andb_true_iff in Hu as [?%N.leb_le _]. by rewrite (proj2 (N.ltb_ge _ _)) by lia.
    + destruct ((97 <=? c) && _) eqn:Hl; [|done].
      apply andb_true_iff in Hl as [?%N.leb_le _]. by rewrite (proj2 (N.ltb_ge _ _)) by lia.
Qed.

Lemma read_mapped v4 rest :
  u32 v4 -> ends_ipv6 rest ->
  read_ipv6_addr (str "::ffff:" ++ display_ipv4 v4 ++ rest) = Some (65535 * 4294967296 + v4, rest).
Proof.
  intros Hv Hrest.
  assert (read_groups 7 7 0 (102 :: 102 :: 102 :: 102 :: 58 :: display_ipv4 v4 ++ rest) =
    ([65535; v4 / 65536; v4 mod 65536], true, rest)) as Htail.
  { cbn [read_groups Nat.ltb Nat.leb].
    change (read_separator 58 0 read_ipv4_addr (102 :: 102 :: 102 :: 102 :: 58 :: display_ipv4 v4 ++ rest))
      with (None (A := N * Str)). cbv iota.
    change (read_separator 58 0 (read_number 16 U16_MAX 4 true)
      (102 :: 102 :: 102 :: 102 :: 58 :: display_ipv4 v4 ++ rest)) with
      (Some (65535, 58 :: display_ipv4 v4 ++ rest)). cbv iota.
    cbn [read_separator read_given_char N.eqb Pos.eqb].
    by rewrite read_ipv4_display by (try apply ends_ipv6_no_digit; done). }
  unfold read_ipv6_addr.
  change (str "::ffff:" ++ display_ipv4 v4 ++ rest) with
    (58 :: 58 :: 102 :: 102 :: 102 :: 102 :: 58 :: display_ipv4 v4 ++ rest).
  change (read_groups 8 8 0 (58 :: 58 :: ?s)) with ([] : list N, false, 58 :: 58 :: s).
  cbn [length Nat.eqb read_given_char N.eqb Pos.eqb Nat.sub]. rewrite Htail.
  f_equal. f_equal. cbn [length Nat.sub replicate app]. unfold of_segments. cbn [fold_left].
  pose proof (N.div_mod' v4 65536). lia.
Qed.

Lemma read_ipv6_display n rest :
  u128 n -> ends_ipv6 rest -> read_ipv6_addr (display_ipv6 n ++ rest) = Some (n, rest).
Proof.
  intros Hn Hrest. unfold display_ipv6, to_ipv4_mapped.
  destruct (N.eqb_spec (n / 4294967296) 65535) as [Hm|_].
  - rewrite <-app_assoc, read_mapped; [|unfold u32, U32_MAX|done].
    + do 2 f_equal. rewrite <-Hm, N.mul_comm. symmetry. apply N.div_mod'.
    + assert (n mod 4294967296 < 4294967296) by (apply N.mod_lt; lia). lia.
  - set (z := longest_zeroes _ _ _ _).
    assert (zero_span ([] ++ segments n) z) as [Hlen Hz]
      by (apply (longest_zeroes_spec _ []); [split; cbn; [lia|done]..|by left]).
    cbn [app] in Hlen, Hz. unfold segments in *. rewrite segments_of_length in Hlen.
    pose proof (segments_of_bound 8 n) as Hb.
    destruct (Nat.ltb_spec 1 (span_len z)) as [Hlt|_].
    + rewrite <-!app_assoc, read_elided; try done.
      * rewrite !length_take, !length_drop, segments_of_length, <-drop_drop.
        replace (8 - start z `min` 8 - (8 - (start z + span_len z)))%nat with (span_len z) by lia.
        rewrite <-Hz, !take_drop. do 2 f_equal. by apply of_segments_inj_8.
      * by apply (Forall_take _ (start z)).
      * by apply (Forall_drop _ (start z + span_len z)).
      * rewrite length_take, length_drop, segments_of_length. lia.
    + rewrite read_full; [|done|apply segments_of_length|done]. do 2 f_equal. by apply of_segments_inj_8.
Qed.

(** ** Socket addresses *)
Lemma read_v4_bracket s : read_socket_addr_v4 (91 :: s) = None.
Proof. done. Qed.

(** The address a text can carry: a flow label is not written. *)
Definition printable (a : SocketAddr) : Prop :=
  match a with
  | SocketV4 ip port => u32 ip /\ u16 port
  | SocketV6 ip port flowinfo scope_id => u128 ip /\ u16 port /\ flowinfo = 0 /\ u32 scope_id
  end.

Lemma read_port_display port : u16 port -> read_port (58 :: display_uint port) = Some (port, []).
Proof.
  intros Hp. unfold read_port. cbn [read_given_char N.eqb Pos.eqb].
  rewrite <-(app_nil_r (display_uint port)). by apply read_unlimited_display.
Qed.

Lemma digits_dotless x : 46 ∉ display_uint x.
Proof.
  destruct (display_uint_spec x x) as (_ & Hall & _); [lia|]. rewrite Forall_forall in Hall.
  by intros Hin%Hall.
Qed.

Lemma parse_display_socket a : printable a -> parse_socket (display_socket a) = Some a.
Proof.
  destruct a as [ip port|ip port flow scope]; cbn [printable display_socket].
  - intros [Hip Hport]. unfold parse_socket, read_socket_addr_v4.
    rewrite read_ipv4_display by done. by rewrite read_port_display.
  - intros (Hip & Hport & -> & Hs). unfold parse_socket. rewrite read_v4_bracket.
    unfold read_socket_addr_v6. cbn [read_given_char N.eqb Pos.eqb].
    assert (46 ∉ 93 :: 58 :: display_uint port) as Hdot
      by (rewrite !not_elem_of_cons; split_and!; try done; apply digits_dotless).
    rewrite read_ipv6_display; [|done|].
    2:{ destruct (scope =? 0); [by split_and!|]. split_and!; [done| |done].
        rewrite <-app_comm_cons, not_elem_of_cons, not_elem_of_app. split_and!; try done.
        apply digits_dotless. }
    destruct (N.eqb_spec scope 0) as [->|Hne].
    + cbn [app read_scope_id read_given_char N.eqb Pos.eqb]. by rewrite read_port_display.
    + cbn [app]. unfold read_scope_id. cbn [read_given_char N.eqb Pos.eqb].
      rewrite read_unlimited_display by done. cbn [read_given_char N.eqb Pos.eqb].
      by rewrite read_port_display.
Qed.

(** ** The characters and the length of the text of an address *)
(** A digit, a hexadecimal letter, a dot or a colon. *)
Definition ip_char (c : Char) : Prop := c = 46 \/ 48 <= c <= 58 \/ 97 <= c <= 102.
Lemma ip_char_dot : ip_char 46.
Proof. by left. Qed.
Lemma ip_char_colon : ip_char 58.
Proof. right. left. lia. Qed.
#[local] Hint Resolve ip_char_dot ip_char_colon : core.

Lemma display_uint_chars n : Forall ip_char (display_uint n).
Proof.
  destruct (display_uint_spec n n) as (_ & Hall & _); [lia|]. eapply Forall_impl; [exact Hall|].
  intros c Hc. unfold is_ascii_digit in Hc. apply andb_true_iff in Hc as [?%N.leb_le ?%N.leb_le].
  unfold ip_char. lia.
Qed.
Lemma hex_digits_chars k n acc : Forall ip_char acc -> Forall ip_char (hex_digits k n acc).
Proof.
  revert n acc. induction k as [|k IH]; intros n acc Hacc; [done|]. cbn [hex_digits].
  assert (Forall ip_char (hex_digit (n mod 16) :: acc)) as Hacc'.
  { constructor; [|done]. assert (n mod 16 < 16) by (apply N.mod_lt; lia).
    unfold ip_char, hex_digit. destruct (N.ltb_spec (n mod 16) 10); lia. }
  destruct (n <? 16); [done|by apply IH].
Qed.
Lemma display_hex_chars n : Forall ip_char (display_hex n).
Proof. by apply hex_digits_chars. Qed.
Lemma fmt_from_chars i gs : Forall ip_char (fmt_from i gs).
Proof.
  revert i. induction gs as [|g gs IH]; intros i; [done|]. cbn [fmt_from]. rewrite !Forall_app.
  split_and!; [destruct i; [done|by constructor]|apply display_hex_chars|apply IH].
Qed.
Lemma display_ipv4_chars n : Forall ip_char (display_ipv4 n).
Proof.
  unfold display_ipv4.
  repeat first [apply Forall_app; split | apply Forall_cons; split | apply display_uint_chars | done].
Qed.
Lemma display_ipv6_chars n : Forall ip_char (display_ipv6 n).
Proof.
  unfold display_ipv6, fmt_subslice. destruct (to_ipv4_mapped n) as [v4|].
  - apply Forall_app. split; [|apply display_ipv4_chars]. by repeat constructor.
  - destruct (_ <? _)%nat; [|apply fmt_from_chars].
    rewrite !Forall_app. split_and!; try apply fmt_from_chars. by repeat constructor.
Qed.
Lemma display_ip_chars a : Forall ip_char (display_ip a).
Proof. destruct a; [apply display_ipv4_chars|apply display_ipv6_chars]. Qed.
Lemma ip_char_ascii s : Forall ip_char s -> Forall ascii s.
Proof. intros H. eapply Forall_impl; [exact H|]. unfold ip_char, ascii. cbn. lia. Qed.

Lemma display_socket_ascii a : Forall ascii (display_socket a).
Proof.
  destruct a as [ip port|ip port flow scope]; cbn [display_socket].
  - apply Forall_app. split; [apply ip_char_ascii, display_ipv4_chars|].
    constructor; [done|apply ip_char_ascii, display_uint_chars].
  - constructor; [done|]. rewrite !Forall_app. split_and!; [apply ip_char_ascii, display_ipv6_chars| |].
    + destruct (scope =? 0); [done|]. constructor; [done|apply ip_char_ascii, display_uint_chars].
    + do 2 (constructor; [done|]). apply ip_char_ascii, display_uint_chars.
Qed.

(** *** An address alone *)
Lemma read_ipv4_mapped n v4 : to_ipv4_mapped n = Some v4 -> read_ipv4_addr (display_ipv6 n) = None.
Proof. unfold display_ipv6. by intros ->. Qed.

Lemma display_ipv6_dotless n : to_ipv4_mapped n = None -> 46 ∉ display_ipv6 n.
Proof.
  unfold display_ipv6, fmt_subslice. intros ->. pose proof (segments_of_bound 8 n) as Hb.
  destruct (_ <? _)%nat; [|by apply fmt_from_dotless].
  rewrite !not_elem_of_app. split_and!.
  - by apply fmt_from_dotless, Forall_take.
  - by rewrite !not_elem_of_cons; split_and!; [..|apply not_elem_of_nil].
  - by apply fmt_from_dotless, Forall_drop.
Qed.

Lemma parse_display_ip a : wf_ip a -> parse (display_ip a) = Some a.
Proof.
  destruct a as [n|n]; cbn [wf_ip display_ip]; intros Hn; unfold parse.
  - rewrite <-(app_nil_r (display_ipv4 n)), read_ipv4_display; done.
  - assert (read_ipv4_addr (display_ipv6 n) = None) as ->.
    { destruct (to_ipv4_mapped n) eqn:Hm; [by eapply read_ipv4_mapped|].
      by apply read_ipv4_dotless, display_ipv6_dotless. }
    rewrite <-(app_nil_r (display_ipv6 n)), read_ipv6_display; [done..|].
    split_and!; [done|apply not_elem_of_nil|done].
Qed.

Lemma length_display_digits fuel n k acc :
  n < 10 ^ N.of_nat (S k) -> (length (display_digits fuel n acc) <= S k + length acc)%nat.
Proof.
  revert n k acc. induction fuel as [|fuel IH]; intros n k acc Hn; cbn [display_digits]; [lia|].
  destruct (N.ltb_spec n 10) as [Hlt|Hge]; [cbn [length]; lia|].
  destruct k as [|k]; [change (10 ^ N.of_nat 1) with 10 in Hn; lia|].
  rewrite Nnat.Nat2N.inj_succ, N.pow_succ_r' in Hn.
  assert (n / 10 < 10 ^ N.of_nat (S k)) as Hd by (by apply N.Div0.div_lt_upper_bound).
  specialize (IH (n / 10) k ((48 + n mod 10) :: acc) Hd). cbn [length] in IH. lia.
Qed.
Lemma length_display n k :
  n < 10 ^ N.of_nat (S k) -> (length (display_uint n) <= S k)%nat.
Proof.
  intros Hn. unfold display_uint.
  pose proof (length_display_digits (S (N.to_nat (N.size n))) n k [] Hn) as H. cbn [length] in H. lia.
Qed.

Lemma length_display_hex n : n <= U16_MAX -> (length (display_hex n) <= 4)%nat.
Proof.
  intros Hn. destruct (hex_digits_spec 3 n [] U16_MAX) as (ds & Heq & _ & Hl & _); [|done|].
  - change (16 ^ N.of_nat 4) with (U16_MAX + 1). lia.
  - unfold display_hex. by rewrite Heq, app_nil_r.
Qed.

Lemma length_display_ipv4 n : u32 n -> (length (display_ipv4 n) <= 15)%nat.
Proof.
  intros Hn. unfold display_ipv4, u32, U32_MAX in *.
  assert (forall x, x < 256 -> (length (display_uint x) <= 3)%nat) as Ho.
  { intros x Hx. apply (length_display x 2). change (10 ^ N.of_nat 3) with 1000. lia. }
  pose proof (Ho (n / 16777216) ltac:(apply N.Div0.div_lt_upper_bound; lia)).
  pose proof (Ho (n / 65536 mod 256) ltac:(apply N.mod_lt; lia)).
  pose proof (Ho (n / 256 mod 256) ltac:(apply N.mod_lt; lia)).
  pose proof (Ho (n mod 256) ltac:(apply N.mod_lt; lia)).
  repeat (rewrite length_app; cbn [length]). lia.
Qed.

Lemma length_fmt_from_S i gs :
  Forall (fun g => g <= U16_MAX) gs -> (length (fmt_from (S i) gs) <= 5 * length gs)%nat.
Proof.
  intros Hall. revert i. induction Hall as [|g gs Hg Hall IH]; intros j; cbn [fmt_from]; [done|].
  pose proof (length_display_hex g Hg). specialize (IH (S j)).
  rewrite !length_app. cbn [length]. lia.
Qed.
Lemma length_fmt gs :
  Forall (fun g => g <= U16_MAX) gs -> (length (fmt_subslice gs) <= 5 * length gs - 1)%nat.
Proof.
  unfold fmt_subslice. intros [|g gs' Hg Hall]; [done|].
  pose proof (length_display_hex g Hg). pose proof (length_fmt_from_S 0 gs' Hall).
  cbn [fmt_from app length]. rewrite length_app. lia.
Qed.

Lemma length_display_ipv6 n : u128 n -> (length (display_ipv6 n) <= 39)%nat.
Proof.
  intros Hn. unfold display_ipv6, to_ipv4_mapped.
  pose proof (segments_of_bound 8 n) as Hb.
  destruct (_ =? 65535).
  - rewrite length_app. change (length (str "::ffff:")) with 7%nat.
    assert (u32 (n mod 4294967296)) as Hu.
    { unfold u32, U32_MAX. assert (n mod 4294967296 < 4294967296) by (apply N.mod_lt; lia). lia. }
    pose proof (length_display_ipv4 _ Hu). lia.
  - set (z := longest_zeroes _ _ _ _).
    assert (zero_span ([] ++ segments n) z) as [Hlen _]
      by (apply (longest_zeroes_spec _ []); [split; cbn; [lia|done]..|by left]).
    cbn [app] in Hlen. unfold segments in *. rewrite segments_of_length in Hlen.
    destruct (Nat.ltb_spec 1 (span_len z)).
    + pose proof (length_fmt _ (Forall_take _ (start z) _ Hb)) as H1.
      pose proof (length_fmt _ (Forall_drop _ (start z + span_len z) _ Hb)) as H2.
      rewrite length_take, segments_of_length in H1. rewrite length_drop, segments_of_length in H2.
      rewrite !length_app. cbn [length]. lia.
    + pose proof (length_fmt _ Hb) as Hl.
      rewrite segments_of_length in Hl. lia.
Qed.

Lemma length_display_socket a : printable a -> (length (display_socket a) <= 58)%nat.
Proof.
  assert (forall port, u16 port -> (length (display_uint port) <= 5)%nat) as Hport.
  { intros port Hp. apply (length_display port 4). change (10 ^ N.of_nat 5) with 100000.
    unfold u16, U16_MAX in Hp. lia. }
  destruct a as [ip port|ip port flow scope]; cbn [printable display_socket].
  - intros [Hip Hp]. pose proof (length_display_ipv4 ip Hip). pose proof (Hport port Hp).
    rewrite length_app. cbn [length]. lia.
  - intros (Hip & Hp & _ & Hs). pose proof (length_display_ipv6 ip Hip). pose proof (Hport port Hp).
    assert ((length (display_uint scope) <= 10)%nat).
    { apply (length_display scope 9). change (10 ^ N.of_nat 10) with 10000000000.
      unfold u32, U32_MAX in Hs. lia. }
    cbn [length]. rewrite !length_app. destruct (scope =? 0); cbn [length]; lia.
Qed.
