(* ===== verification/Routing.v ===== *)
(** The client's routing policy ([velum-client-routing/src/lib.rs]): rules,
    their textual form, address networks and port ranges. *)
From S2P Require Import Prelude Net Str IpText.

Record RoutingError := { message : Str }.

Inductive RoutingAction := Direct | Reject | Proxy | Node (id : Str).

Record RouteContext := {
  domain : option Str;
  destination : IpAddr;
  destination_port : N
}.

Definition error {A} (s : String.string) : result A RoutingError := Err {| message := str s |}.
Definition option_ok_or {A} (o : option A) (s : String.string) : result A RoutingError :=
  match o with Some a => Ok a | None => error s end.

(** ** Domains *)
Definition valid_label (label : Str) : bool :=
  negb (is_empty label || (63 <? utf8_len label) || starts_with 45 label || ends_with 45 label
        || negb (forallb (fun c => is_ascii_alphanumeric c || (c =? 45)) label)).

Definition normalize_domain (value : Str) : result Str RoutingError :=
  let value := to_ascii_lowercase (trim_end (fun c => c =? 46) (trim value)) in
  if is_empty value || (253 <? utf8_len value) || existsb (fun l => negb (valid_label l)) (split 46 value)
  then error "routing rule domain is invalid"
  else Ok value.

(** ** Port ranges *)
Record PortRange := { start : N; end_ : N }.

Module PortRange.
Definition new (s e : N) : result PortRange RoutingError :=
  if (s =? 0) || (e <? s) then error "destination port range is invalid"
  else Ok {| start := s; end_ := e |}.

Definition contains (self : PortRange) (port : N) : bool :=
  (start self <=? port) && (port <=? end_ self).

(** [Display::fmt] *)
Definition fmt (self : PortRange) : Str :=
  if start self =? end_ self then display_uint (start self)
  else display_uint (start self) ++ [45] ++ display_uint (end_ self).

Definition from_str (source : Str) : result PortRange RoutingError :=
  let source := trim source in
  let '(s, e) := default (source, source) (split_once 45 source) in
  let? s := option_ok_or (parse_uint U16_MAX s) "destination port is invalid" in
  let? e := option_ok_or (parse_uint U16_MAX e) "destination port is invalid" in
  new s e.
End PortRange.

(** ** Networks *)
Record IpCidr := { network : IpAddr; prefix_length : N }.

(** [uN::MAX.checked_shl(shift).unwrap_or(0)] *)
Definition shl_max (max width shift : N) : N :=
  if shift <? width then N.land (N.shiftl max shift) max else 0.

Module IpCidr.
Definition mask (self : IpCidr) (address : IpAddr) : IpAddr :=
  match address with
  | V4 a => V4 (N.land a (shl_max U32_MAX 32 (32 - N.min (prefix_length self) 32)))
  | V6 a => V6 (N.land a (shl_max U128_MAX 128 (128 - N.min (prefix_length self) 128)))
  end.

Definition new (net : IpAddr) (len : N) : result IpCidr RoutingError :=
  let valid := match net with V4 _ => len <=? 32 | V6 _ => len <=? 128 end in
  if negb valid then error "CIDR prefix length is out of range"
  else
    let cidr := {| network := net; prefix_length := len |} in
    if bool_decide (mask cidr net <> net) then error "CIDR network has host bits set"
    else Ok cidr.

Definition contains (self : IpCidr) (address : IpAddr) : bool :=
  match network self, address with
  | V4 _, V4 _ | V6 _, V6 _ => true
  | _, _ => false
  end && bool_decide (mask self address = network self).

(** [Display::fmt] *)
Definition fmt (self : IpCidr) : Str := IpDisplay.display_ip (network self) ++ [47] ++ display_uint (prefix_length self).

Definition from_str (source : Str) : result IpCidr RoutingError :=
  let? np := option_ok_or (split_once 47 (trim source))
               "CIDR requires an address and prefix length" in
  let? net := option_ok_or (IpParser.parse np.1) "CIDR address is invalid" in
  let? len := option_ok_or (parse_uint 255 np.2) "CIDR prefix length is invalid" in
  new net len.
End IpCidr.

(** ** Rules *)
Inductive RuleMatcher :=
| Domain (d : Str)
| DomainSuffix (d : Str)
| MatchCidr (c : IpCidr)
| DestinationPort (r : PortRange)
| Match.

Record RoutingRule := { matcher : RuleMatcher; action : RoutingAction }.
Record RoutingPolicy := { rules : list RoutingRule }.

Module RuleMatcher.
Definition domain (value : Str) : result RuleMatcher RoutingError :=
  let? d := normalize_domain value in Ok (Domain d).
Definition domain_suffix (value : Str) : result RuleMatcher RoutingError :=
  let? d := normalize_domain value in Ok (DomainSuffix d).

(** The context's domain comes normalised, or not at all. *)
Definition matches (self : RuleMatcher) (context : RouteContext) (dom : option Str) : bool :=
  match self with
  | Domain expected => match dom with Some actual => str_eqb actual expected | None => false end
  | DomainSuffix suffix =>
    match dom with
    | Some actual =>
      str_eqb actual suffix
      || match strip_suffix suffix actual with Some prefix => ends_with 46 prefix | None => false end
    | None => false
    end
  | MatchCidr cidr => IpCidr.contains cidr (destination context)
  | DestinationPort range => PortRange.contains range (destination_port context)
  | Match => true
  end.

Definition is_match (self : RuleMatcher) : bool := match self with Match => true | _ => false end.
End RuleMatcher.

(** [value.map_or(..)] of the action field. *)
Definition parse_action (value : Str) : result RoutingAction RoutingError :=
  if str_eqb value (str "DIRECT") then Ok Direct
  else if str_eqb value (str "PROXY") then Ok Proxy
  else if str_eqb value (str "REJECT") then Ok Reject
  else
    match strip_prefix (str "NODE:") value with
    | Some id => if is_empty id then error "unknown routing action" else Ok (Node id)
    | None => error "unknown routing action"
    end.

Module RoutingRule.
Definition domain_matcher (value : Str) : result RuleMatcher RoutingError := RuleMatcher.domain value.

(** The arm of a three-field rule. *)
Definition with_action (m : result RuleMatcher RoutingError) (value : Str)
  : result RoutingRule RoutingError :=
  let? m := m in
  let? a := parse_action value in
  Ok {| matcher := m; action := a |}.

Definition from_str (source : Str) : result RoutingRule RoutingError :=
  let fields := trim <$> split 44 source in
  if existsb is_empty fields then error "routing rule fields must not be empty"
  else
    match fields with
    | [kind; value; act] =>
      if str_eqb kind (str "DOMAIN") then with_action (domain_matcher value) act
      else if str_eqb kind (str "DOMAIN-SUFFIX") then
        with_action (RuleMatcher.domain_suffix value) act
      else if str_eqb kind (str "IP-CIDR") then
        with_action (let? c := IpCidr.from_str value in Ok (MatchCidr c)) act
      else if str_eqb kind (str "DST-PORT") then
        with_action (let? r := PortRange.from_str value in Ok (DestinationPort r)) act
      else error "invalid routing rule"
    | [kind; act] =>
      if str_eqb kind (str "MATCH") then with_action (Ok Match) act
      else error "invalid routing rule"
    | _ => error "invalid routing rule"
    end.
End RoutingRule.

Module RoutingPolicy.
(** [rules.iter().position(|rule| matches!(rule.matcher, Match))] *)
Fixpoint position_match (l : list RoutingRule) : option nat :=
  match l with
  | [] => None
  | r :: l => if RuleMatcher.is_match (matcher r) then Some O else S <$> position_match l
  end.

Definition new (l : list RoutingRule) : result RoutingPolicy RoutingError :=
  if match position_match l with Some i => negb (i + 1 =? length l)%nat | None => false end
  then error "MATCH must be the final routing rule"
  else Ok {| rules := l |}.

Definition proxy_all : RoutingPolicy := {| rules := [{| matcher := Match; action := Proxy |}] |}.

Definition decide (self : RoutingPolicy) (context : RouteContext) : RoutingAction :=
  let dom := match domain context with
             | Some value => match normalize_domain value with Ok d => Some d | Err _ => None end
             | None => None
             end in
  match List.find (fun r => RuleMatcher.matches (matcher r) context dom) (rules self) with
  | Some r => action r
  | None => Proxy
  end.

(** The lines from number [n] on: blank ones are skipped, and the first one
    that does not parse is reported with its number. *)
Fixpoint parse_lines (n : N) (l : list Str) : result (list RoutingRule) RoutingError :=
  match l with
  | [] => Ok []
  | line :: l =>
    let line := trim line in
    if is_empty line then parse_lines (n + 1) l
    else
      match RoutingRule.from_str line with
      | Err e => Err {| message := str "invalid rule on line " ++ display_uint n
                                   ++ str ": " ++ message e |}
      | Ok r => let? rs := parse_lines (n + 1) l in Ok (r :: rs)
      end
  end.

Definition from_str (source : Str) : result RoutingPolicy RoutingError :=
  let? rs := parse_lines 1 (lines source) in new rs.
End RoutingPolicy.

(** ** Examples *)
Definition sample : Str := str "DOMAIN,Example.COM.,DIRECT
DOMAIN-SUFFIX, corp.example ,NODE:exit-1

IP-CIDR,10.0.0.0/8,REJECT
DST-PORT,80-443,PROXY
MATCH,DIRECT".
Definition at_domain (d : String.string) : RouteContext :=
  {| domain := Some (str d); destination := V4 0; destination_port := 22 |}.
Definition decide_sample (c : RouteContext) : result RoutingAction RoutingError :=
  let? p := RoutingPolicy.from_str sample in Ok (RoutingPolicy.decide p c).

Example sample_domain : decide_sample (at_domain "EXAMPLE.com") = Ok Direct.
Proof. reflexivity. Qed.
Example sample_suffix : decide_sample (at_domain "a.b.corp.example.") = Ok (Node (str "exit-1")).
Proof. reflexivity. Qed.
Example sample_cidr :
  decide_sample {| domain := None; destination := V4 (ipv4 10 1 2 3); destination_port := 22 |}
  = Ok Reject.
Proof. reflexivity. Qed.
Example sample_order :
  RoutingPolicy.from_str (str "MATCH,DIRECT
DOMAIN,a,PROXY") = error "MATCH must be the final routing rule".
Proof. reflexivity. Qed.
Example sample_line :
  RoutingPolicy.from_str (str "

DOMAIN,-a,PROXY") = error "invalid rule on line 3: routing rule domain is invalid".
Proof. reflexivity. Qed.

(** ** Strings *)
Lemma ends_with_true c s : ends_with c s = true <-> exists p, s = p ++ [c].
Proof.
  unfold ends_with. destruct s as [|d s _] using rev_ind; cbn.
  - split; [done|]. intros ([|? ?] & Hp); discriminate.
  - rewrite last_snoc, N.eqb_eq. split; [intros ->; eauto|]. intros [p [_ ?]%app_inj_tail]; done.
Qed.

Lemma trim_start_fmap f (g : N -> N) s :
  (forall c, f (g c) = f c) -> trim_start f (g <$> s) = g <$> trim_start f s.
Proof. intros Hg. induction s as [|c s IH]; cbn; [done|]. rewrite Hg. by destruct (f c). Qed.
Lemma trim_end_fmap f (g : N -> N) s :
  (forall c, f (g c) = f c) -> trim_end f (g <$> s) = g <$> trim_end f s.
Proof.
  intros Hg. unfold trim_end. change (list_fmap N N g) with (List.map g).
  change (g <$> s) with (List.map g s). rewrite <-map_rev.
  change (List.map g (rev s)) with (g <$> rev s). rewrite (trim_start_fmap f g _ Hg).
  symmetry. apply (map_rev g).
Qed.

Lemma elem_of_split sep s c :
  c ∈ s -> c = sep \/ exists w, w ∈ split sep s /\ c ∈ w.
Proof.
  induction s as [|d s IH]; [by intros ?%not_elem_of_nil|].
  intros [->|Hc]%elem_of_cons; cbn.
  - destruct (N.eqb_spec d sep); [by left|right].
    destruct (split sep s) as [|w ws]; [exists [d]|exists (d :: w)]; split; by left.
  - destruct (IH Hc) as [?|(w & Hw & Hcw)]; [by left|right].
    destruct (d =? sep); [exists w; split; [by right|done]|].
    destruct (split sep s) as [|w' ws]; [by apply not_elem_of_nil in Hw|].
    apply elem_of_cons in Hw as [->|Hw]; [exists (d :: w')|exists w];
      split; first [done|by left|by right].
Qed.

(** ** Normal domains *)
Lemma lowercase_dot c : (char_to_ascii_lowercase c =? 46) = (c =? 46).
Proof.
  unfold char_to_ascii_lowercase. destruct ((65 <=? c) && (c <=? 90)) eqn:H; [|done].
  apply andb_true_iff in H as [H1%N.leb_le H2%N.leb_le].
  transitivity false; [|symmetry]; apply N.eqb_neq; lia.
Qed.

Lemma label_char_not_whitespace c :
  is_ascii_alphanumeric c || (c =? 45) = true -> is_whitespace c = false.
Proof.
  intros H. assert (45 <= c <= 122).
  { unfold is_ascii_alphanumeric, is_ascii_digit in H.
    rewrite !orb_true_iff, !andb_true_iff, !N.leb_le, N.eqb_eq in H. lia. }
  unfold is_whitespace. rewrite !orb_false_iff, !andb_false_iff, !N.leb_gt, !N.eqb_neq. lia.
Qed.

Lemma normal_chars d :
  Forall (fun l => valid_label l = true) (split 46 d) ->
  Forall (fun c => c = 46 \/ is_ascii_alphanumeric c || (c =? 45) = true) d.
Proof.
  intros Hl. apply Forall_forall. intros c Hc. apply (elem_of_split 46) in Hc as [->|(w & Hw & Hc)];
    [by left|right].
  rewrite Forall_forall in Hl. specialize (Hl w Hw). unfold valid_label in Hl.
  apply negb_true_iff in Hl. rewrite !orb_false_iff in Hl. destruct Hl as [_ Hl].
  apply negb_false_iff in Hl. rewrite forallb_forall in Hl. apply Hl. by apply list_elem_of_In.
Qed.

Lemma existsb_negb_false {A} (f : A -> bool) l :
  existsb (fun x => negb (f x)) l = false <-> Forall (fun x => f x = true) l.
Proof.
  induction l as [|x l IH]; cbn; [by split|]. rewrite orb_false_iff, IH, Forall_cons.
  by rewrite negb_false_iff.
Qed.

(** What a domain of a rule looks like. *)
Lemma normalize_domain_Ok v d :
  normalize_domain v = Ok d <->
  d = to_ascii_lowercase (trim_end (fun c => c =? 46) (trim v)) /\
  d <> [] /\ utf8_len d <= 253 /\ Forall (fun l => valid_label l = true) (split 46 d).
Proof.
  unfold normalize_domain. set (n := to_ascii_lowercase _).
  destruct (_ || _) eqn:Hb.
  - split; [done|]. intros (-> & Hne & Hlen & Hall). rewrite <-existsb_negb_false in Hall.
    apply orb_true_iff in Hb as [Hb|Hb]; [|congruence].
    apply orb_true_iff in Hb as [Hb%is_empty_true|Hb%N.ltb_lt]; [done|lia].
  - rewrite !orb_false_iff in Hb. destruct Hb as [[Hne Hlen%N.ltb_ge] Hall%existsb_negb_false].
    split; [|by intros [-> _]]. intros [= <-]. split_and!; [done| |done|done].
    intros Hn. by rewrite Hn in Hne.
Qed.

Lemma normalize_domain_idem v d : normalize_domain v = Ok d -> normalize_domain d = Ok d.
Proof.
  rewrite !normalize_domain_Ok. intros (Hd & Hne & Hlen & Hall). split_and!; try done.
  rewrite (trim_none d).
  - rewrite Hd at 2. unfold to_ascii_lowercase at 2. rewrite (trim_end_fmap _ _ _ lowercase_dot).
    rewrite trim_end_idem. fold (to_ascii_lowercase (trim_end (fun c => c =? 46) (trim v))).
    by rewrite to_ascii_lowercase_idem.
  - eapply Forall_impl; [by apply normal_chars|]. cbn. intros c [->|Hc]; [done|].
    by apply label_char_not_whitespace.
Qed.

(** ** Networks *)
Lemma ones_bit w i : N.testbit (N.ones w) i = (i <? w).
Proof.
  destruct (N.ltb_spec i w); [by apply N.ones_spec_low|by apply N.ones_spec_high].
Qed.

Lemma shl_max_spec w s i :
  s <= w -> N.testbit (shl_max (N.ones w) w s) i = (s <=? i) && (i <? w).
Proof.
  intros Hs. unfold shl_max. destruct (N.ltb_spec s w).
  - rewrite N.land_spec, ones_bit. destruct (N.leb_spec s i).
    + rewrite N.shiftl_spec_high', ones_bit by done. cbn.
      destruct (N.ltb_spec (i - s) w), (N.ltb_spec i w); lia || done.
    + by rewrite N.shiftl_spec_low.
  - rewrite N.bits_0. symmetry. destruct (N.leb_spec s i), (N.ltb_spec i w); lia || done.
Qed.

(** Masking agrees with a masked network exactly on the prefix. *)
Lemma mask_bits w len a n :
  len <= w -> N.land n (shl_max (N.ones w) w (w - len)) = n ->
  N.land a (shl_max (N.ones w) w (w - len)) = n <->
  forall i, w - len <= i < w -> N.testbit a i = N.testbit n i.
Proof.
  intros Hlen Hn.
  assert (forall m i, N.testbit (N.land m (shl_max (N.ones w) w (w - len))) i =
    N.testbit m i && ((w - len <=? i) && (i <? w))) as Hb.
  { intros m i. by rewrite N.land_spec, shl_max_spec by lia. }
  split.
  - intros Ha i [H1%N.leb_le H2%N.ltb_lt]. rewrite <-Ha, Hb, H1, H2. by rewrite andb_true_r.
  - intros Hbits. apply N.bits_inj. intros i. rewrite Hb.
    destruct (N.leb_spec (w - len) i) as [H1|H1], (N.ltb_spec i w) as [H2|H2]; cbn.
    + by rewrite andb_true_r, Hbits.
    + rewrite <-Hn, Hb. rewrite (proj2 (N.ltb_ge _ _) H2). cbn. by rewrite !andb_false_r.
    + rewrite <-Hn, Hb. rewrite (proj2 (N.leb_gt _ _) H1). cbn. by rewrite !andb_false_r.
    + rewrite <-Hn, Hb. rewrite (proj2 (N.leb_gt _ _) H1). cbn. by rewrite !andb_false_r.
Qed.

(** The first [len] bits of two addresses of a width of [w] bits agree. *)
Definition same_prefix (w len a n : N) : Prop :=
  forall i, w - len <= i < w -> N.testbit a i = N.testbit n i.

Definition in_network (c : IpCidr) (a : IpAddr) : Prop :=
  match network c, a with
  | V4 n, V4 a => same_prefix 32 (prefix_length c) a n
  | V6 n, V6 a => same_prefix 128 (prefix_length c) a n
  | _, _ => False
  end.

Definition wf_cidr (c : IpCidr) : Prop := IpCidr.new (network c) (prefix_length c) = Ok c.

Lemma cidr_new_Ok net len c :
  IpCidr.new net len = Ok c ->
  c = {| network := net; prefix_length := len |} /\
  match net with V4 _ => len <= 32 | V6 _ => len <= 128 end /\ IpCidr.mask c net = net.
Proof.
  unfold IpCidr.new. destruct (negb _) eqn:Hv; [done|]. apply negb_false_iff in Hv.
  case_bool_decide as Hm; [done|]. intros [= <-]. split_and!; [done| |by destruct (decide (IpCidr.mask {| network := net; prefix_length := len |} net = net))].
  destruct net; by apply N.leb_le.
Qed.

Lemma contains_spec c a : wf_cidr c -> IpCidr.contains c a = true <-> in_network c a.
Proof.
  intros (_ & Hlen & Hmask)%cidr_new_Ok. unfold IpCidr.contains, in_network.
  rewrite andb_true_iff, bool_decide_eq_true.
  destruct (network c) as [n|n], a as [a|a]; cbn [IpCidr.mask] in *; try naive_solver.
  - rewrite N.min_l in * by done. injection Hmask as Hmask. change U32_MAX with (N.ones 32) in *.
    unfold same_prefix. rewrite <-(mask_bits 32 _ a n Hlen Hmask). naive_solver.
  - rewrite N.min_l in * by done. injection Hmask as Hmask. change U128_MAX with (N.ones 128) in *.
    unfold same_prefix. rewrite <-(mask_bits 128 _ a n Hlen Hmask). naive_solver.
Qed.

(** ** What a rule means *)
Definition wf_matcher (m : RuleMatcher) : Prop :=
  match m with
  | Domain d | DomainSuffix d => normalize_domain d = Ok d
  | MatchCidr c => wf_cidr c
  | DestinationPort r => PortRange.new (start r) (end_ r) = Ok r
  | Match => True
  end.

Definition normal_form (c : RouteContext) (d : Str) : Prop :=
  exists v, domain c = Some v /\ normalize_domain v = Ok d.

(** A suffix matches at a boundary between labels only. *)
Definition applies (m : RuleMatcher) (c : RouteContext) : Prop :=
  match m with
  | Domain d => normal_form c d
  | DomainSuffix s => normal_form c s \/ exists p, normal_form c (p ++ [46] ++ s)
  | MatchCidr n => in_network n (destination c)
  | DestinationPort r => start r <= destination_port c <= end_ r
  | Match => True
  end.

(** The first rule that applies decides, and a flow no rule claims is proxied. *)
Inductive selects (c : RouteContext) : list RoutingRule -> RoutingAction -> Prop :=
| selects_none : selects c [] Proxy
| selects_here r l : applies (matcher r) c -> selects c (r :: l) (action r)
| selects_later r l a : ~ applies (matcher r) c -> selects c l a -> selects c (r :: l) a.

Definition normal_domain (c : RouteContext) : option Str :=
  match domain c with
  | Some v => match normalize_domain v with Ok d => Some d | Err _ => None end
  | None => None
  end.

Lemma normal_domain_Some c d : normal_domain c = Some d <-> normal_form c d.
Proof.
  unfold normal_domain, normal_form. destruct (domain c) as [v|]; [|naive_solver].
  destruct (normalize_domain v) as [d'|e] eqn:Hd; split.
  - intros [= ->]. eauto.
  - intros (v' & [= <-] & H). congruence.
  - done.
  - intros (v' & [= <-] & H). congruence.
Qed.

Lemma matches_spec m c :
  wf_matcher m -> RuleMatcher.matches m c (normal_domain c) = true <-> applies m c.
Proof.
  intros Hm. destruct m as [d|s|n|r|]; cbn.
  - rewrite <-normal_domain_Some. unfold str_eqb. destruct (normal_domain c); [|done].
    rewrite bool_decide_eq_true. naive_solver.
  - rewrite <-normal_domain_Some. setoid_rewrite <-normal_domain_Some. unfold str_eqb.
    destruct (normal_domain c) as [d|]; [|naive_solver].
    rewrite orb_true_iff, bool_decide_eq_true. split.
    + intros [->|H]; [by left|right]. destruct (strip_suffix s d) as [q|] eqn:Hq; [|done].
      apply strip_suffix_Some in Hq as ->. apply ends_with_true in H as [p ->].
      exists p. by rewrite <-app_assoc.
    + intros [[= ->]|[p [= ->]]]; [by left|right].
      replace (p ++ 46 :: s) with ((p ++ [46]) ++ s) by by rewrite <-app_assoc.
      rewrite (proj2 (strip_suffix_Some s _ (p ++ [46])) eq_refl).
      apply ends_with_true. eauto.
  - by apply contains_spec.
  - unfold PortRange.contains. by rewrite andb_true_iff, !N.leb_le.
  - done.
Qed.

(** *** Parsed rules are well formed *)
Lemma with_action_wf m v r :
  RoutingRule.with_action m v = Ok r -> (forall x, m = Ok x -> wf_matcher x) -> wf_matcher (matcher r).
Proof.
  intros (x & Hx & (a & _ & [= <-])%and_then_Ok)%and_then_Ok Hm. by apply Hm.
Qed.

Lemma port_range_new_Ok s e r :
  PortRange.new s e = Ok r -> r = {| start := s; end_ := e |} /\ 0 < s <= e.
Proof.
  unfold PortRange.new. destruct (_ || _) eqn:H; [done|]. intros [= <-].
  apply orb_false_iff in H as [H1%N.eqb_neq H2%N.ltb_ge]. split; [done|lia].
Qed.

Lemma domain_wf v m : RuleMatcher.domain v = Ok m -> wf_matcher m.
Proof. intros (d & Hd & [= <-])%and_then_Ok. by eapply normalize_domain_idem. Qed.
Lemma domain_suffix_wf v m : RuleMatcher.domain_suffix v = Ok m -> wf_matcher m.
Proof. intros (d & Hd & [= <-])%and_then_Ok. by eapply normalize_domain_idem. Qed.
Lemma cidr_from_str_wf v c : IpCidr.from_str v = Ok c -> wf_matcher (MatchCidr c).
Proof.
  intros (np & _ & (net & _ & (len & _ & Hc)%and_then_Ok)%and_then_Ok)%and_then_Ok.
  by destruct (cidr_new_Ok _ _ _ Hc) as (-> & _).
Qed.
Lemma port_range_from_str_wf v r : PortRange.from_str v = Ok r -> wf_matcher (DestinationPort r).
Proof.
  unfold PortRange.from_str. destruct (default _ _) as [s e].
  intros (s' & _ & (e' & _ & Hn)%and_then_Ok)%and_then_Ok.
  by destruct (port_range_new_Ok _ _ _ Hn) as (-> & _).
Qed.

Lemma rule_from_str_wf line r : RoutingRule.from_str line = Ok r -> wf_matcher (matcher r).
Proof.
  unfold RoutingRule.from_str. destruct (existsb _ _); [done|].
  destruct (trim <$> split 44 line) as [|k [|v [|a [|? ?]]]]; try done;
    repeat (case_match; [intros Hr; apply (with_action_wf _ _ _ Hr)|]); try done.
  - by intros x [= <-].
  - apply domain_wf.
  - apply domain_suffix_wf.
  - intros x (c & Hc & [= <-])%and_then_Ok. by eapply cidr_from_str_wf.
  - intros x (pr & Hp & [= <-])%and_then_Ok. by eapply port_range_from_str_wf.
Qed.

(** *** The lines of a policy *)
Definition rule_lines (s : Str) : list Str :=
  filter (fun line => line <> []) (trim <$> lines s).

Definition line_error (n : N) (e : RoutingError) : RoutingError :=
  {| message := str "invalid rule on line " ++ display_uint n ++ str ": " ++ message e |}.

Lemma parse_lines_Ok n l rs :
  RoutingPolicy.parse_lines n l = Ok rs ->
  Forall2 (fun line r => RoutingRule.from_str line = Ok r)
    (filter (fun line => line <> []) (trim <$> l)) rs.
Proof.
  revert n rs. induction l as [|line l IH]; intros n rs; cbn [RoutingPolicy.parse_lines]; [intros [= <-]; constructor|].
  rewrite fmap_cons, filter_cons. destruct (is_empty (trim line)) eqn:He.
  - apply is_empty_true in He. rewrite decide_False by (rewrite He; tauto). apply IH.
  - rewrite decide_True by (intros Hn; by rewrite Hn in He).
    destruct (RoutingRule.from_str (trim line)) as [r|e] eqn:Hr; [|done].
    intros (rs' & Hrs & [= <-])%and_then_Ok. constructor; [done|by eapply IH].
Qed.

Lemma parse_lines_Err n l e :
  RoutingPolicy.parse_lines n l = Err e ->
  exists before line after e',
    l = before ++ line :: after /\ RoutingRule.from_str (trim line) = Err e' /\ trim line <> [] /\
    (exists rs, RoutingPolicy.parse_lines n before = Ok rs) /\ e = line_error (n + len before) e'.
Proof.
  revert n e. induction l as [|line l IH]; intros n e; cbn -[trim]; [done|].
  destruct (is_empty (trim line)) eqn:He.
  - intros (before & bad & after & e' & -> & Hbad & Hne & (rs & Hrs) & ->)%IH.
    exists (line :: before), bad, after, e'. split_and!; [done..| |].
    + exists rs. cbn -[trim]. by rewrite He.
    + rewrite len_cons. f_equal. lia.
  - destruct (RoutingRule.from_str (trim line)) as [r|e0] eqn:Hr.
    + destruct (RoutingPolicy.parse_lines (n + 1) l) as [rs|e1] eqn:Hl; cbn; [done|].
      intros [= ->]. destruct (IH _ _ Hl) as (before & bad & after & e' & -> & Hbad & Hne & (rs & Hrs) & ->).
      exists (line :: before), bad, after, e'. split_and!; [done..| |].
      * exists (r :: rs). cbn -[trim]. by rewrite He, Hr, Hrs.
      * rewrite len_cons. f_equal. lia.
    + intros [= <-]. exists [], line, l, e0. split_and!; [done|done| |by exists []|].
      * intros Hn. by rewrite Hn in He.
      * unfold line_error. change (len (@nil Str)) with 0. by rewrite N.add_0_r.
Qed.

Lemma parse_lines_fine n l rs :
  RoutingPolicy.parse_lines n l = Ok rs ->
  Forall (fun line => trim line = [] \/ is_ok (RoutingRule.from_str (trim line)) = true) l.
Proof.
  revert n rs. induction l as [|line l IH]; intros n rs; cbn [RoutingPolicy.parse_lines]; [done|].
  destruct (is_empty (trim line)) eqn:He.
  - intros Hl. constructor; [left; by apply is_empty_true|by eapply IH].
  - destruct (RoutingRule.from_str (trim line)) as [r|e] eqn:Hr; [|done].
    intros (rs' & Hrs & _)%and_then_Ok. constructor; [right; by rewrite Hr|by eapply IH].
Qed.

Lemma position_match_spec l :
  match RoutingPolicy.position_match l with
  | Some i => exists before r after, l = before ++ r :: after /\ length before = i /\
      matcher r = Match /\ Forall (fun r => matcher r <> Match) before
  | None => Forall (fun r => matcher r <> Match) l
  end.
Proof.
  induction l as [|r l IH]; cbn; [done|]. destruct (RuleMatcher.is_match (matcher r)) eqn:Hm.
  - exists [], r, l. split_and!; [done|done| |done]. by destruct (matcher r).
  - assert (matcher r <> Match) as Hr by by destruct (matcher r).
    destruct (RoutingPolicy.position_match l); cbn.
    + destruct IH as (b & r' & a & -> & <- & Hr' & Hb). exists (r :: b), r', a.
      split_and!; [done|done|done|by constructor].
    + by constructor.
Qed.

Definition match_only_last (l : list RoutingRule) : Prop :=
  forall i r, l !! i = Some r -> matcher r = Match -> S i = length l.

Lemma policy_new_spec l :
  match RoutingPolicy.new l with
  | Ok p => rules p = l /\ match_only_last l
  | Err e => ~ match_only_last l /\
      e = {| message := str "MATCH must be the final routing rule" |}
  end.
Proof.
  unfold RoutingPolicy.new. pose proof (position_match_spec l) as Hp.
  destruct (RoutingPolicy.position_match l) as [i|].
  - destruct Hp as (b & r & a & -> & <- & Hr & Hb).
    destruct (Nat.eqb_spec (length b + 1) (length (b ++ r :: a))) as [He|He]; cbn.
    + split; [done|]. intros i r' Hl Hr'.
      rewrite length_app in *. cbn in *. destruct a as [|? ?]; [|cbn in He; lia].
      destruct (decide (i < length b)%nat).
      * rewrite lookup_app_l in Hl by done. by apply (Forall_lookup_1 _ _ _ _ Hb) in Hl.
      * apply lookup_lt_Some in Hl. rewrite length_app in *. cbn in *. lia.
    + split; [|done]. intros Hm. destruct He.
      specialize (Hm (length b) r (list_lookup_middle _ _ _ _ eq_refl) Hr). lia.
  - split; [done|]. intros i r Hl Hr. by apply (Forall_lookup_1 _ _ _ _ Hp) in Hl.
Qed.

(** *** Digits *)
Lemma digit_not_whitespace c : is_ascii_digit c = true -> is_whitespace c = false.
Proof.
  intros H. apply label_char_not_whitespace. unfold is_ascii_alphanumeric. by rewrite H.
Qed.
Lemma trim_digits s : Forall (fun c => is_ascii_digit c = true) s -> trim s = s.
Proof.
  intros Hs. apply trim_none. eapply Forall_impl; [done|]. apply digit_not_whitespace.
Qed.
Lemma digit_not_dash c : is_ascii_digit c = true -> (c =? 45) = false.
Proof.
  unfold is_ascii_digit. intros [H1%N.leb_le H2%N.leb_le]%andb_true_iff. apply N.eqb_neq. lia.
Qed.
Lemma split_once_digits s :
  Forall (fun c => is_ascii_digit c = true) s -> split_once 45 s = None.
Proof.
  induction 1 as [|c s Hc Hs IH]; [done|]. cbn. by rewrite (digit_not_dash _ Hc), IH.
Qed.
Lemma split_once_app s t :
  Forall (fun c => is_ascii_digit c = true) s -> split_once 45 (s ++ [45] ++ t) = Some (s, t).
Proof.
  induction 1 as [|c s Hc Hs IH]; [done|]. cbn. rewrite (digit_not_dash _ Hc).
  cbn in IH. by rewrite IH.
Qed.

(** ** Properties *)

(** C14. The decision of a policy with well-formed rules is the one of the
    declarative reading: the first rule that applies, where a domain is
    compared in normal form, a suffix only at a label boundary, an address by
    its first bits and a port by its range; the flow is proxied when none does. *)
Theorem decide_refines p c a (Hwf : Forall (fun r => wf_matcher (matcher r)) (rules p)) :
  RoutingPolicy.decide p c = a <-> selects c (rules p) a.
Proof.
  unfold RoutingPolicy.decide. fold (normal_domain c).
  destruct p as [l]. cbn in *. induction Hwf as [|r l Hr Hl IH]; cbn.
  - split; [by intros <-; constructor|by inversion 1].
  - pose proof (matches_spec _ c Hr) as Hm.
    destruct (RuleMatcher.matches (matcher r) c (normal_domain c)).
    + split; [intros <-; apply selects_here; tauto|]. inversion 1; [done|tauto].
    + rewrite IH. assert (~ applies (matcher r) c) by (intros H; apply Hm in H; done).
      split; [by apply selects_later|]. inversion 1; [tauto|done].
Qed.

(** Reading a policy: every line that is not blank is one rule, in order and
    well formed, with MATCH only at the end; otherwise the error names the
    first line that is no rule, or says that MATCH is not last. *)
Theorem policy_from_str_spec s :
  match RoutingPolicy.from_str s with
  | Ok p =>
    Forall2 (fun line r => RoutingRule.from_str line = Ok r) (rule_lines s) (rules p) /\
    Forall (fun r => wf_matcher (matcher r)) (rules p) /\ match_only_last (rules p)
  | Err e =>
    (exists before line after e',
       lines s = before ++ line :: after /\ trim line <> [] /\
       RoutingRule.from_str (trim line) = Err e' /\ e = line_error (1 + len before) e' /\
       Forall (fun line => trim line = [] \/ is_ok (RoutingRule.from_str (trim line)) = true) before) \/
    (exists l, Forall2 (fun line r => RoutingRule.from_str line = Ok r) (rule_lines s) l /\
       ~ match_only_last l /\ e = {| message := str "MATCH must be the final routing rule" |})
  end.
Proof.
  unfold RoutingPolicy.from_str.
  destruct (RoutingPolicy.parse_lines 1 (lines s)) as [l|e] eqn:Hp; cbn -[RoutingPolicy.new].
  - apply parse_lines_Ok in Hp. fold (rule_lines s) in Hp. pose proof (policy_new_spec l) as Hn.
    destruct (RoutingPolicy.new l) as [p|e].
    + destruct Hn as [-> Hm]. split_and!; [done| |done].
      clear Hm. induction Hp as [|? ? ? ? Hr]; constructor; [by eapply rule_from_str_wf|done].
    + destruct Hn as [Hm ->]. right. by exists l.
  - left. apply parse_lines_Err in Hp as (before & line & after & e' & Hl & Hr & Hne & [rs Hrs] & ->).
    exists before, line, after, e'. split_and!; [done..|]. by eapply parse_lines_fine.
Qed.

(** A port range reads back from the text it is shown as. *)
Theorem port_range_round_trip s e r (He : u16 e) (Hnew : PortRange.new s e = Ok r) :
  PortRange.from_str (PortRange.fmt r) = Ok r.
Proof.
  pose proof (port_range_new_Ok _ _ _ Hnew) as [-> Hse]. unfold u16 in He.
  destruct (display_uint_spec s U16_MAX) as (_ & Hds & _); [lia|].
  destruct (display_uint_spec e U16_MAX) as (_ & Hde & _); [lia|].
  unfold PortRange.from_str, PortRange.fmt. cbn [start end_].
  destruct (N.eqb_spec s e) as [->|Hne].
  - rewrite trim_digits, split_once_digits by done. cbn [default].
    by rewrite parse_display by lia.
  - rewrite trim_none.
    + rewrite split_once_app by done. cbn [default id].
      rewrite !parse_display by lia. done.
    + rewrite !Forall_app. split_and!; [|by constructor|];
        (eapply Forall_impl; [done|]; apply digit_not_whitespace).
Qed.

(** *** At concrete inputs *)
Lemma decide_refines_witness :
  exists p, RoutingPolicy.from_str sample = Ok p /\
    selects (at_domain "www.corp.example") (rules p) (Node (str "exit-1")).
Proof.
  eexists. split; [vm_compute; reflexivity|].
  apply (decide_refines _ (at_domain "www.corp.example") (Node (str "exit-1"))); [|by vm_compute].
  repeat constructor; by vm_compute.
Defined.

Lemma port_range_round_trip_witness :
  PortRange.from_str (str "80-443") = Ok {| start := 80; end_ := 443 |}.
Proof.
  exact (port_range_round_trip 80 443 {| start := 80; end_ := 443 |} ltac:(done) eq_refl).
Defined.
