(* ===== verification/Tun.v ===== *)
(** The TUN adapter ([velum-adapter-tun/src/lib.rs]): bounded frame queues,
    flow leases bound to a generation of the client runtime, UDP associations,
    the engine that moves UDP packets between them, and routing decisions that
    undo fake addresses.  The runtime is the one of [Runtime]; what it answers
    to an [await] is an input, and every reading of its snapshot may see
    another state. *)
From S2P Require Import Prelude Net Str FakeDns Datagram Routing Runtime TunPacket.

(** ** Errors *)
Inductive TunAdapterConfigError := ConfigTcpFlowLimit | ConfigUdpAssociationLimit | FrameQueue | Ipv4Prefix.
Inductive FlowAdmissionError := AdmissionNotOnline | TcpFlowLimit | UdpAssociationLimit.
Inductive UdpAssociationError := NotUdp | AssociationLimit | UnknownSession | SourceMismatch.
Inductive UdpForwardError :=
| ForwardPacket (e : PacketError)
| ForwardAdmission (e : FlowAdmissionError)
| ForwardAssociation (e : UdpAssociationError)
| ForwardRuntime (e : RuntimeError).
Inductive UdpReceiveError :=
| ReceiveRuntime (e : RuntimeError)
| ReceiveAssociation (e : UdpAssociationError)
| ReceiveStaleFlow
| ReceiveEncode (e : PacketEncodeError).
Inductive TcpRelayError :=
| NotTcp
| RelayAdmissionFailed (e : FlowAdmissionError)
| RelayRuntime (e : RuntimeError)
| RelayClient (e : ClientError)
| StaleFlow.
Inductive FrameQueueError := Oversized | Full.

(** ** Frame queues *)
Record TunFrameQueue := {
  mtu : N;
  queue_capacity : N;
  inbound : list (list byte);
  outbound : list (list byte)
}.

Module TunFrameQueue.
Definition set_inbound (l : list (list byte)) (self : TunFrameQueue) : TunFrameQueue :=
  {| mtu := mtu self; queue_capacity := queue_capacity self; inbound := l; outbound := outbound self |}.
Definition set_outbound (l : list (list byte)) (self : TunFrameQueue) : TunFrameQueue :=
  {| mtu := mtu self; queue_capacity := queue_capacity self; inbound := inbound self; outbound := l |}.

Definition new (mtu capacity : N) : result TunFrameQueue TunAdapterConfigError :=
  if (mtu <? 576) || (capacity =? 0) then Err FrameQueue
  else Ok {| mtu := mtu; queue_capacity := capacity; inbound := []; outbound := [] |}.

Definition push_inbound (frame : list byte) : M TunFrameQueue FrameQueueError unit :=
  let! self := get in
  reject_if (mtu self <? len frame) Oversized ;!
  reject_if (len (inbound self) =? queue_capacity self) Full ;!
  modify (set_inbound (inbound self ++ [frame])).

Definition push_outbound (frame : list byte) : M TunFrameQueue FrameQueueError unit :=
  let! self := get in
  reject_if (mtu self <? len frame) Oversized ;!
  reject_if (len (outbound self) =? queue_capacity self) Full ;!
  modify (set_outbound (outbound self ++ [frame])).

Section pops.
Context {E : Type}.
Definition pop_outbound : M TunFrameQueue E (option (list byte)) :=
  let! self := get in
  modify (set_outbound (tail (outbound self))) ;!
  ret (head (outbound self)).
Definition pop_inbound : M TunFrameQueue E (option (list byte)) :=
  let! self := get in
  modify (set_inbound (tail (inbound self))) ;!
  ret (head (inbound self)).

(** The device that [smoltcp] polls: [receive] gives out a frame with the right
    to answer, [transmit] a right to send, and a frame sent through either is
    dropped when it does not fit. *)
Definition receive : M TunFrameQueue E (option (list byte)) := pop_inbound.
Definition transmit (self : TunFrameQueue) : bool := len (outbound self) <? queue_capacity self.
Definition consume (frame : list byte) : M TunFrameQueue E unit :=
  let! self := get in
  if (len frame <=? mtu self) && (len (outbound self) <? queue_capacity self)
  then modify (set_outbound (outbound self ++ [frame]))
  else ret tt.
End pops.
End TunFrameQueue.

Record TunStackConfig := { stack_address : N; prefix_len : N; stack_mtu : N; frame_queue_capacity : N }.
Module TunStackConfig.
Definition validate (self : TunStackConfig) : result TunStackConfig TunAdapterConfigError :=
  if 32 <? prefix_len self then Err Ipv4Prefix
  else if (stack_mtu self <? 576) || (frame_queue_capacity self =? 0) then Err FrameQueue
  else Ok self.
End TunStackConfig.

(** ** UDP associations *)
Record UdpAssociationTable := {
  next_session : N;
  by_flow : gmap FlowKey DatagramSessionId;
  by_session : gmap DatagramSessionId FlowKey;
  association_limit : N
}.

Module UdpAssociationTable.
Definition set_next (n : N) (self : UdpAssociationTable) : UdpAssociationTable :=
  {| next_session := n; by_flow := by_flow self; by_session := by_session self;
     association_limit := association_limit self |}.
Definition set_tables (f : gmap FlowKey DatagramSessionId) (s : gmap DatagramSessionId FlowKey) (self : UdpAssociationTable)
  : UdpAssociationTable :=
  {| next_session := next_session self; by_flow := f; by_session := s;
     association_limit := association_limit self |}.

Definition new (limit : N) : result UdpAssociationTable TunAdapterConfigError :=
  if limit =? 0 then Err ConfigUdpAssociationLimit
  else Ok {| next_session := 1; by_flow := ∅; by_session := ∅; association_limit := limit |}.

(** The loop of [allocate_session]; [wrapping_add] is written out. *)
Fixpoint allocate_loop (fuel : nat) : M UdpAssociationTable UdpAssociationError DatagramSessionId :=
  match fuel with
  | O => out_of_fuel
  | S fuel =>
    let! self := get in
    let candidate := next_session self in
    let next := (candidate + 1) mod (U64_MAX + 1) in
    modify (set_next (if next =? 0 then 1 else next)) ;!
    let! session := match DatagramSessionId.new candidate with Ok s => ret s | Err _ => panic end in
    if bool_decide (is_Some (by_session self !! session)) then allocate_loop fuel
    else ret session
  end.
Definition allocate_session : M UdpAssociationTable UdpAssociationError DatagramSessionId :=
  let! self := get in
  allocate_loop (S (size (by_session self))).

Definition session_for (flow : FlowKey) : M UdpAssociationTable UdpAssociationError DatagramSessionId :=
  reject_if (negb (bool_decide (protocol flow = Udp))) NotUdp ;!
  let! self := get in
  match by_flow self !! flow with
  | Some session => ret session
  | None =>
    reject_if (N.of_nat (size (by_flow self)) =? association_limit self) AssociationLimit ;!
    let! session := allocate_session in
    modify (fun self => set_tables (<[flow := session]> (by_flow self))
      (<[session := flow]> (by_session self)) self) ;!
    ret session
  end.

Definition flow_for_response (self : UdpAssociationTable) (session : DatagramSessionId) (source : SocketAddr)
  : result FlowKey UdpAssociationError :=
  match by_session self !! session with
  | None => Err UnknownSession
  | Some flow =>
    if negb (bool_decide (destination flow = source)) then Err SourceMismatch else Ok flow
  end.

Definition clear (self : UdpAssociationTable) : UdpAssociationTable := set_tables ∅ ∅ self.
End UdpAssociationTable.

(** ** Flow leases *)
Record TunAdapterLimits := { max_tcp_flows : N; max_udp_associations : N }.
Definition limits_default : TunAdapterLimits := {| max_tcp_flows := 256; max_udp_associations := 256 |}.

Module TunAdapterLimits.
Definition validate (self : TunAdapterLimits) : result TunAdapterLimits TunAdapterConfigError :=
  if max_tcp_flows self =? 0 then Err ConfigTcpFlowLimit
  else if max_udp_associations self =? 0 then Err ConfigUdpAssociationLimit
  else Ok self.
End TunAdapterLimits.

(** A lease is the generation it was given under. *)
Record TunFlowRegistry := { limits : TunAdapterLimits; flows : gmap FlowKey N }.

(** The two readings of the runtime an admission makes. *)
Record Readings := { at_snapshot : RuntimeInner; at_check : RuntimeInner }.

Module TunFlowRegistry.
Definition set_flows (f : gmap FlowKey N) (self : TunFlowRegistry) : TunFlowRegistry :=
  {| limits := limits self; flows := f |}.

Definition new (limits : TunAdapterLimits) : result TunFlowRegistry TunAdapterConfigError :=
  match TunAdapterLimits.validate limits with
  | Ok limits => Ok {| limits := limits; flows := ∅ |}
  | Err e => Err e
  end.

Definition current_generation (runtime : Readings) : result N FlowAdmissionError :=
  let generation := Runtime.generation (published (at_snapshot runtime)) in
  if ClientRuntime.is_generation_online (at_check runtime) generation then Ok generation
  else Err AdmissionNotOnline.

Definition used (self : TunFlowRegistry) (p : FlowProtocol) : N :=
  len (filter (fun key => protocol key = p) (map_to_list (flows self)).*1).
Definition limit_of (self : TunFlowRegistry) (p : FlowProtocol) : N :=
  match p with Tcp => max_tcp_flows (limits self) | Udp => max_udp_associations (limits self) end.

Definition admit_new (key : FlowKey) (generation : N) : M TunFlowRegistry FlowAdmissionError N :=
  let! self := get in
  reject_if (limit_of self (protocol key) <=? used self (protocol key))
    (match protocol key with Tcp => TcpFlowLimit | Udp => UdpAssociationLimit end) ;!
  modify (set_flows (<[key := generation]> (flows self))) ;!
  ret generation.

Definition admit_flow (runtime : Readings) (key : FlowKey) : M TunFlowRegistry FlowAdmissionError N :=
  let! generation := lift_result id (current_generation runtime) in
  let! self := get in
  match flows self !! key with
  | Some lease =>
    if lease =? generation then ret generation
    else modify (set_flows (delete key (flows self))) ;! admit_new key generation
  | None => admit_new key generation
  end.

Definition is_active (self : TunFlowRegistry) (runtime : RuntimeInner) (key : FlowKey) (generation : N) : bool :=
  ClientRuntime.is_generation_online runtime generation
  && match flows self !! key with Some lease => lease =? generation | None => false end.

Definition release (key : FlowKey) (self : TunFlowRegistry) : bool * TunFlowRegistry :=
  (bool_decide (is_Some (flows self !! key)), set_flows (delete key (flows self)) self).
Definition clear (self : TunFlowRegistry) : TunFlowRegistry := set_flows ∅ self.
Definition flow_count (self : TunFlowRegistry) : N := N.of_nat (size (flows self)).
End TunFlowRegistry.

(** ** TCP relays *)
Record TunTcpRelay := { relay_flow : FlowKey; relay_generation : N }.

Module TunTcpRelay.
Definition ensure_active (self : TunTcpRelay) (runtime : RuntimeInner) : result unit TcpRelayError :=
  if ClientRuntime.is_generation_online runtime (relay_generation self) then Ok tt else Err StaleFlow.
Definition on_client {A} (r : result A ClientError) : result A TcpRelayError :=
  match r with Ok a => Ok a | Err e => Err (RelayClient e) end.

(** [write_all] and [read], between two readings of the runtime. *)
Definition write_all (self : TunTcpRelay) (before : RuntimeInner) (written : result unit ClientError)
    (after : RuntimeInner) : result unit TcpRelayError :=
  let? _ := ensure_active self before in
  let? _ := on_client written in
  ensure_active self after.
Definition read (self : TunTcpRelay) (before : RuntimeInner) (received : result (option N) ClientError)
    (after : RuntimeInner) : result (option N) TcpRelayError :=
  let? _ := ensure_active self before in
  let? read := on_client received in
  let? _ := ensure_active self after in
  Ok read.
Definition finish (self : TunTcpRelay) (runtime : RuntimeInner) (finished : result unit ClientError)
  : result unit TcpRelayError :=
  let? _ := ensure_active self runtime in on_client finished.
End TunTcpRelay.

Definition open_tcp (runtime : Readings) (opened : result unit RuntimeError) (after : RuntimeInner) (flow : FlowKey)
  : M TunFlowRegistry TcpRelayError TunTcpRelay :=
  reject_if (negb (bool_decide (protocol flow = Tcp))) NotTcp ;!
  let! generation := map_err RelayAdmissionFailed (TunFlowRegistry.admit_flow runtime flow) in
  lift_result RelayRuntime opened ;!
  let! self := get in
  reject_if (negb (TunFlowRegistry.is_active self after flow generation)) StaleFlow ;!
  ret {| relay_flow := flow; relay_generation := generation |}.

(** ** The UDP engine

    [datagrams] records what was handed to the runtime to send: the session,
    the destination and the payload. *)
Record ClientDatagram := { response_session : DatagramSessionId; response_source : SocketAddr;
                           response_payload : list byte }.
Record TunUdpEngine := {
  queue : TunFrameQueue;
  registry : TunFlowRegistry;
  associations : UdpAssociationTable;
  datagrams : list (DatagramSessionId * SocketAddr * list byte)
}.
Inductive TunUdpEngineError :=
| EngineQueue (e : FrameQueueError)
| EngineForward (e : UdpForwardError)
| EngineReceive (e : UdpReceiveError).

(** What the runtime answers while a packet is forwarded, or received. *)
Record ForwardIo := { admission : Readings; sent : result unit RuntimeError; after_send : RuntimeInner }.
Record ReceiveIo := { received : result ClientDatagram RuntimeError; at_generation : RuntimeInner;
                      at_active : RuntimeInner }.

Module TunUdpEngine.
Section engine.
Context (ipv4 ipv6 : IpPacket) `{Transport}.

Definition set_queue (q : TunFrameQueue) (self : TunUdpEngine) : TunUdpEngine :=
  {| queue := q; registry := registry self; associations := associations self; datagrams := datagrams self |}.
Definition set_registry (r : TunFlowRegistry) (self : TunUdpEngine) : TunUdpEngine :=
  {| queue := queue self; registry := r; associations := associations self; datagrams := datagrams self |}.
Definition set_associations (a : UdpAssociationTable) (self : TunUdpEngine) : TunUdpEngine :=
  {| queue := queue self; registry := registry self; associations := a; datagrams := datagrams self |}.
Definition send_datagram {E} (session : DatagramSessionId) (target : SocketAddr) (payload : list byte)
  : M TunUdpEngine E unit :=
  modify (fun self => {| queue := queue self; registry := registry self; associations := associations self;
                         datagrams := datagrams self ++ [(session, target, payload)] |}).

Definition new (limits : TunAdapterLimits) (mtu queue_capacity : N) : result TunUdpEngine TunAdapterConfigError :=
  let? queue := TunFrameQueue.new mtu queue_capacity in
  let? associations := UdpAssociationTable.new (max_udp_associations limits) in
  let? registry := TunFlowRegistry.new limits in
  Ok {| queue := queue; registry := registry; associations := associations; datagrams := [] |}.

(** [TunFlowRegistry::forward_udp] *)
Definition forward_udp (io : ForwardIo) (frame : list byte) : M TunUdpEngine UdpForwardError N :=
  let! flow := lift_result ForwardPacket (classify_ipv4_packet ipv4 frame) in
  let! payload := lift_result ForwardPacket (udp_payload ipv4 frame) in
  let! generation := map_err ForwardAdmission
    (zoom registry set_registry (TunFlowRegistry.admit_flow (admission io) flow)) in
  let! session := map_err ForwardAssociation
    (zoom associations set_associations (UdpAssociationTable.session_for flow)) in
  send_datagram session (destination flow) payload ;!
  lift_result ForwardRuntime (sent io) ;!
  let! self := get in
  reject_if (negb (TunFlowRegistry.is_active (registry self) (after_send io) flow generation))
    (ForwardAdmission AdmissionNotOnline) ;!
  ret generation.

(** [TunFlowRegistry::receive_udp] *)
Definition receive_udp (io : ReceiveIo) : M TunUdpEngine UdpReceiveError (list byte) :=
  let! response := lift_result ReceiveRuntime (received io) in
  let! self := get in
  let! flow := lift_result ReceiveAssociation
    (UdpAssociationTable.flow_for_response (associations self) (response_session response)
       (response_source response)) in
  let generation := Runtime.generation (published (at_generation io)) in
  reject_if (negb (TunFlowRegistry.is_active (registry self) (at_active io) flow generation)) ReceiveStaleFlow ;!
  lift_result ReceiveEncode (encode_udp_response ipv4 ipv6 flow (response_payload response) (mtu (queue self))).

Definition push_inbound (frame : list byte) : M TunUdpEngine FrameQueueError unit :=
  zoom queue set_queue (TunFrameQueue.push_inbound frame).

Definition forward_next (io : ForwardIo) : M TunUdpEngine TunUdpEngineError (option N) :=
  let! frame := zoom queue set_queue TunFrameQueue.pop_inbound in
  match frame with
  | None => ret None
  | Some frame =>
    let! generation := map_err EngineForward (forward_udp io frame) in
    ret (Some generation)
  end.

Definition receive_next (io : ReceiveIo) : M TunUdpEngine TunUdpEngineError unit :=
  let! frame := map_err EngineReceive (receive_udp io) in
  map_err EngineQueue (zoom queue set_queue (TunFrameQueue.push_outbound frame)).

Definition pop_outbound {E} : M TunUdpEngine E (option (list byte)) :=
  zoom queue set_queue TunFrameQueue.pop_outbound.

Definition clear (self : TunUdpEngine) : TunUdpEngine :=
  set_associations (UdpAssociationTable.clear (associations self))
    (set_registry (TunFlowRegistry.clear (registry self)) self).
End engine.
End TunUdpEngine.

(** ** Routing decisions *)
Record TunRouteDecision := {
  decided_action : RoutingAction;
  decided_destination : SocketAddr;
  decided_domain : option Str
}.
Record TunPolicyEngine := { policy : RoutingPolicy; dns : FakeDnsTable }.

Module TunPolicyEngine.
Section engine.
Variable instant_max : N.

Definition set_dns (d : FakeDnsTable) (self : TunPolicyEngine) : TunPolicyEngine :=
  {| policy := policy self; dns := d |}.

Definition new (generation : N) (policy : RoutingPolicy) (dns_capacity : N) : result TunPolicyEngine FakeDnsError :=
  let? dns := FakeDnsTable.new generation dns_capacity in
  Ok {| policy := policy; dns := dns |}.

Definition allocate_dns (generation : N) (domain : Str) (real_address : IpAddr) (ttl now : N)
  : M TunPolicyEngine FakeDnsError IpAddr :=
  zoom dns set_dns (FakeDnsTable.allocate instant_max generation domain real_address ttl now).

Definition decide (generation : N) (flow : FlowKey) (now : N) : M TunPolicyEngine FakeDnsError TunRouteDecision :=
  let! mapping := zoom dns set_dns
    (FakeDnsTable.resolve generation (SocketAddr.ip (destination flow)) now) in
  let '(destination, domain) :=
    match mapping with
    | None => (destination flow, None)
    | Some mapping =>
      (SocketAddr.new (real_address mapping) (SocketAddr.port (destination flow)), Some (FakeDns.domain mapping))
    end in
  let! self := get in
  let action := RoutingPolicy.decide (policy self)
    {| Routing.domain := domain; Routing.destination := SocketAddr.ip destination;
       destination_port := SocketAddr.port destination |} in
  ret {| decided_action := action; decided_destination := destination; decided_domain := domain |}.

Definition replace_generation (generation : N) (policy : RoutingPolicy) (self : TunPolicyEngine) : TunPolicyEngine :=
  {| policy := policy; dns := FakeDnsTable.replace_generation generation (dns self) |}.
End engine.
End TunPolicyEngine.

(** ** Session identifiers *)
Record associations_ok (a : UdpAssociationTable) : Prop := {
  ao_next : 1 <= next_session a <= U64_MAX;
  ao_inverse : forall flow s, by_flow a !! flow = Some s <-> by_session a !! s = Some flow;
  ao_udp : forall flow s, by_flow a !! flow = Some s -> protocol flow = Udp /\ DatagramSessionId.wf s;
  ao_size : N.of_nat (size (by_flow a)) <= association_limit a
}.

(** The identifier tried [i] steps from [n]: the non-zero numbers of 64 bits,
    in a circle. *)
Definition nth_session (n i : N) : N := (n - 1 + i) mod U64_MAX + 1.
Definition session (n : N) : DatagramSessionId := {| datagram_session_value := n |}.

Lemma nth_session_bounds n i : 1 <= nth_session n i <= U64_MAX.
Proof. unfold nth_session. assert ((n - 1 + i) mod U64_MAX < U64_MAX) by (apply N.mod_lt; done). lia. Qed.
Lemma nth_session_0 n : 1 <= n <= U64_MAX -> nth_session n 0 = n.
Proof. intros Hn. unfold nth_session. rewrite N.add_0_r, N.mod_small; unfold U64_MAX in *; lia. Qed.
Lemma same_remainder m r a b : m * a + r < m * b + r + m -> m * b + r < m * a + r + m -> a = b.
Proof.
  intros Hx Hy. destruct (N.lt_trichotomy a b) as [Hlt|[He|Hlt]]; [|done|].
  - assert (m * (a + 1) <= m * b) by (apply N.mul_le_mono_l; lia). lia.
  - assert (m * (b + 1) <= m * a) by (apply N.mul_le_mono_l; lia). lia.
Qed.
Lemma mod_close m x y : x mod m = y mod m -> x < y + m -> y < x + m -> x = y.
Proof.
  intros Heq Hx Hy. rewrite (N.div_mod' x m), (N.div_mod' y m), Heq. do 2 f_equal.
  rewrite (N.div_mod' x m), (N.div_mod' y m), Heq in Hx, Hy. by apply (same_remainder m (y mod m)).
Qed.
Lemma nth_session_inj n i j : i < U64_MAX -> j < U64_MAX -> nth_session n i = nth_session n j -> i = j.
Proof.
  unfold nth_session. intros Hi Hj Heq. assert (n - 1 + i = n - 1 + j); [|lia].
  apply (mod_close U64_MAX); lia.
Qed.

Definition next_id (n : N) : N :=
  let next := (n + 1) mod (U64_MAX + 1) in if next =? 0 then 1 else next.
Lemma next_id_spec n : 1 <= n <= U64_MAX -> next_id n = nth_session n 1.
Proof.
  intros Hn. unfold next_id, nth_session. destruct (decide (n = U64_MAX)) as [->|Hne]; [done|].
  rewrite (N.mod_small (n + 1)) by lia. rewrite (proj2 (N.eqb_neq _ _)) by lia.
  rewrite N.mod_small by lia. lia.
Qed.
Lemma nth_session_next n i : 1 <= n <= U64_MAX -> nth_session (next_id n) i = nth_session n (i + 1).
Proof.
  intros Hn. rewrite next_id_spec by done. unfold nth_session.
  rewrite N.add_sub, N.Div0.add_mod_idemp_l. do 2 f_equal. lia.
Qed.

Lemma wp_allocate_loop fuel a (Q : result DatagramSessionId UdpAssociationError -> UdpAssociationTable -> Prop) :
  1 <= next_session a <= U64_MAX ->
  (exists i, i < N.of_nat fuel /\ by_session a !! session (nth_session (next_session a) i) = None) ->
  (forall s n, DatagramSessionId.wf s -> by_session a !! s = None -> 1 <= n <= U64_MAX ->
    (by_session a !! session (next_session a) = None ->
     s = session (next_session a) /\ n = next_id (next_session a)) ->
    Q (Ok s) (UdpAssociationTable.set_next n a)) ->
  wp (UdpAssociationTable.allocate_loop fuel) a Q.
Proof.
  revert a. induction fuel as [|fuel IH]; intros a Hn (i & Hi & Hfree) HQ; [lia|].
  cbn [UdpAssociationTable.allocate_loop]. do 2 wp_step. fold (next_id (next_session a)).
  unfold DatagramSessionId.new. rewrite (proj2 (N.eqb_neq (next_session a) 0)) by lia. wp_step.
  fold (session (next_session a)). cbn [by_session UdpAssociationTable.set_next].
  assert (1 <= next_id (next_session a) <= U64_MAX) as Hnext
    by (rewrite next_id_spec by done; apply nth_session_bounds).
  case_bool_decide as Hused.
  - apply IH; [done| |].
    + exists (i - 1). destruct (decide (i = 0)) as [->|Hi0].
      { rewrite nth_session_0 in Hfree by done. rewrite Hfree in Hused. by destruct Hused. }
      cbn [next_session by_session UdpAssociationTable.set_next].
      rewrite nth_session_next by done. split; [lia|]. by replace (i - 1 + 1) with i by lia.
    + intros s n Hs Hnone Hb _. apply HQ; [done..|]. intros Hnew. rewrite Hnew in Hused. by destruct Hused.
  - wp_step. apply HQ; [|by apply eq_None_not_Some|done|done]. split; cbn; unfold u64; lia.
Qed.

(** Among more identifiers than there are sessions one is free. *)
Lemma free_session a :
  N.of_nat (size (by_session a)) < U64_MAX ->
  exists i, i < N.of_nat (S (size (by_session a))) /\
    by_session a !! session (nth_session (next_session a) i) = None.
Proof.
  intros Hsize. set (k := S (size (by_session a))).
  set (tried := (fun i => session (nth_session (next_session a) (N.of_nat i))) <$> seq 0 k).
  destruct (decide (Exists (fun s => by_session a !! s = None) tried)) as [He|Hne].
  - apply Exists_exists in He as (s & Hs & Hnone). apply list_elem_of_fmap in Hs as (i & -> & Hi).
    apply elem_of_seq in Hi. exists (N.of_nat i). split; [lia|done].
  - exfalso. assert (NoDup tried) as Hnd.
    { apply NoDup_fmap_2_strong; [|apply NoDup_seq]. intros x y Hx Hy Heq.
      apply elem_of_seq in Hx, Hy. apply (f_equal datagram_session_value), nth_session_inj in Heq; lia. }
    assert (tried ⊆+ (map_to_list (by_session a)).*1) as Hsub.
    { apply NoDup_submseteq; [done|]. intros s Hs.
      destruct (by_session a !! s) as [flow|] eqn:Hl.
      - apply list_elem_of_fmap. exists (s, flow). split; [done|]. by apply elem_of_map_to_list.
      - exfalso. apply Hne, Exists_exists. by exists s. }
    apply submseteq_length in Hsub. unfold tried in Hsub.
    rewrite !length_fmap, length_seq, length_map_to_list in Hsub. unfold k in Hsub. lia.
Qed.

(** A map whose entries another one holds the other way round is no larger. *)
Lemma inverse_size `{Countable A, Countable B} (m : gmap A B) (m' : gmap B A) :
  (forall a b, m !! a = Some b -> m' !! b = Some a) -> (size m <= size m')%nat.
Proof.
  intros Hinv. assert ((map_to_list m).*2 ⊆+ (map_to_list m').*1) as Hsub.
  { apply NoDup_submseteq.
    - apply NoDup_fmap_2_strong; [|apply NoDup_map_to_list].
      intros [a b] [a' b'] H1%elem_of_map_to_list%Hinv H2%elem_of_map_to_list%Hinv Heq. cbn in Heq. congruence.
    - intros b ([a b'] & -> & Hb%elem_of_map_to_list%Hinv)%list_elem_of_fmap.
      apply list_elem_of_fmap. exists (b', a). split; [done|]. by apply elem_of_map_to_list. }
  apply submseteq_length in Hsub. by rewrite !length_fmap, !length_map_to_list in Hsub.
Qed.
Lemma size_inverse a : associations_ok a -> size (by_session a) = size (by_flow a).
Proof. intros Ha. apply Nat.le_antisymm; apply inverse_size; intros x y; apply (ao_inverse _ Ha). Qed.

Lemma associations_insert a flow s :
  associations_ok a -> protocol flow = Udp -> DatagramSessionId.wf s ->
  by_flow a !! flow = None -> by_session a !! s = None ->
  N.of_nat (size (by_flow a)) < association_limit a ->
  associations_ok (UdpAssociationTable.set_tables (<[flow := s]> (by_flow a)) (<[s := flow]> (by_session a)) a).
Proof.
  intros Ha Hudp Hs Hf Hfree Hsize. split; cbn.
  - apply Ha.
  - intros f t. destruct (decide (f = flow)) as [->|Hne].
    + rewrite lookup_insert_eq. destruct (decide (t = s)) as [->|Ht]; [by rewrite lookup_insert_eq|].
      rewrite lookup_insert_ne by done. rewrite <-(ao_inverse _ Ha), Hf. split; congruence.
    + rewrite (lookup_insert_ne (by_flow a)) by done. destruct (decide (t = s)) as [->|Ht].
      * rewrite lookup_insert_eq, (ao_inverse _ Ha), Hfree. split; congruence.
      * rewrite lookup_insert_ne by done. apply (ao_inverse _ Ha).
  - intros f t. destruct (decide (f = flow)) as [->|Hne]; [rewrite lookup_insert_eq; by intros [= <-]|].
    rewrite lookup_insert_ne by done. apply (ao_udp _ Ha).
  - rewrite map_size_insert_None by done. lia.
Qed.

Lemma wp_session_for flow a (Q : result DatagramSessionId UdpAssociationError -> UdpAssociationTable -> Prop) :
  associations_ok a -> association_limit a < U64_MAX ->
  (protocol flow <> Udp -> Q (Err NotUdp) a) ->
  (forall s, protocol flow = Udp -> by_flow a !! flow = Some s -> Q (Ok s) a) ->
  (protocol flow = Udp -> by_flow a !! flow = None ->
   N.of_nat (size (by_flow a)) = association_limit a -> Q (Err AssociationLimit) a) ->
  (forall s a', protocol flow = Udp -> by_flow a !! flow = None -> by_session a !! s = None ->
    associations_ok a' -> association_limit a' = association_limit a ->
    by_flow a' = <[flow := s]> (by_flow a) -> by_session a' = <[s := flow]> (by_session a) ->
    (by_session a !! session (next_session a) = None ->
     s = session (next_session a) /\ next_session a' = next_id (next_session a)) -> Q (Ok s) a') ->
  wp (UdpAssociationTable.session_for flow) a Q.
Proof.
  intros Ha Hlimit Hnot Hknown Hfull Hnew. unfold UdpAssociationTable.session_for. wp_step.
  { apply Hnot. by case_bool_decide. }
  assert (protocol flow = Udp) as Hudp by (by case_bool_decide). wp_step.
  destruct (by_flow a !! flow) as [s|] eqn:Hf; [by apply Hknown|]. wp_step.
  { apply Hfull; [done|done|by apply N.eqb_eq]. }
  pose proof (ao_size _ Ha) as Hsize. assert (N.of_nat (size (by_flow a)) < association_limit a) as Hroom
    by (match goal with H : (_ =? _) = false |- _ => apply N.eqb_neq in H end; lia).
  apply wp_bind. unfold UdpAssociationTable.allocate_session. wp_step.
  apply wp_allocate_loop; [apply Ha|apply free_session; rewrite size_inverse by done; lia|].
  intros s n Hs Hfree Hn Hfresh. do 2 wp_step.
  assert (associations_ok (UdpAssociationTable.set_next n a)) as Ha' by (split; cbn; [done|apply Ha..]).
  apply Hnew; [done|done|done|by apply (associations_insert _ flow s Ha')|done..].
Qed.

(** ** Leases *)
Section registry.
Implicit Types (r : TunFlowRegistry).

Record registry_ok r : Prop := {
  ro_tcp : TunFlowRegistry.used r Tcp <= max_tcp_flows (limits r);
  ro_udp : TunFlowRegistry.used r Udp <= max_udp_associations (limits r)
}.

Lemma registry_ok_iff r : registry_ok r <-> forall p, TunFlowRegistry.used r p <= TunFlowRegistry.limit_of r p.
Proof. split; [intros [H1 H2] []; done|]. intros H. split; [apply (H Tcp)|apply (H Udp)]. Qed.

Lemma used_insert r key g p :
  flows r !! key = None ->
  TunFlowRegistry.used (TunFlowRegistry.set_flows (<[key := g]> (flows r)) r) p =
  TunFlowRegistry.used r p + if decide (protocol key = p) then 1 else 0.
Proof.
  intros Hnone. unfold TunFlowRegistry.used, len. cbn [flows TunFlowRegistry.set_flows].
  rewrite map_to_list_insert by done. cbn [fmap list_fmap]. rewrite filter_cons. cbn [fst].
  destruct (decide (protocol key = p)); cbn [length]; lia.
Qed.
Lemma used_delete r key g p :
  flows r !! key = Some g ->
  TunFlowRegistry.used r p =
  TunFlowRegistry.used (TunFlowRegistry.set_flows (delete key (flows r)) r) p +
  if decide (protocol key = p) then 1 else 0.
Proof.
  intros Hk. set (r' := TunFlowRegistry.set_flows (delete key (flows r)) r).
  rewrite <-(used_insert r' key g p) by apply lookup_delete_eq. cbn.
  by rewrite insert_delete_id by done.
Qed.
Lemma used_delete_le r key p :
  TunFlowRegistry.used (TunFlowRegistry.set_flows (delete key (flows r)) r) p <= TunFlowRegistry.used r p.
Proof.
  destruct (flows r !! key) as [g|] eqn:Hk; [rewrite (used_delete r key g p Hk); lia|].
  rewrite delete_id by done. by destruct r.
Qed.

(** One more lease for a key that has none, under the limit of its protocol. *)
Lemma registry_ok_insert r key g :
  registry_ok r -> flows r !! key = None ->
  TunFlowRegistry.used r (protocol key) < TunFlowRegistry.limit_of r (protocol key) ->
  registry_ok (TunFlowRegistry.set_flows (<[key := g]> (flows r)) r).
Proof.
  rewrite !registry_ok_iff. intros Hr Hnone Hroom p. rewrite used_insert by done.
  specialize (Hr p). change (TunFlowRegistry.limit_of (TunFlowRegistry.set_flows _ r) p)
    with (TunFlowRegistry.limit_of r p). destruct (decide (protocol key = p)) as [<-|]; lia.
Qed.

(** Renewing a lease frees nothing and takes nothing. *)
Lemma used_renew r key g g' p :
  flows r !! key = Some g' ->
  TunFlowRegistry.used (TunFlowRegistry.set_flows (<[key := g]> (flows r)) r) p = TunFlowRegistry.used r p.
Proof.
  intros Hk. rewrite (used_delete r key g' p Hk).
  rewrite (used_delete _ key g) by apply lookup_insert_eq. cbn. by rewrite delete_insert_eq.
Qed.

Definition limit_error (p : FlowProtocol) : FlowAdmissionError :=
  match p with Tcp => TcpFlowLimit | Udp => UdpAssociationLimit end.

Lemma wp_admit rt key r (Q : result N FlowAdmissionError -> TunFlowRegistry -> Prop) :
  registry_ok r ->
  (TunFlowRegistry.current_generation rt = Err AdmissionNotOnline -> Q (Err AdmissionNotOnline) r) ->
  (forall g, TunFlowRegistry.current_generation rt = Ok g -> flows r !! key = None ->
    TunFlowRegistry.used r (protocol key) = TunFlowRegistry.limit_of r (protocol key) ->
    Q (Err (limit_error (protocol key))) r) ->
  (forall g r', TunFlowRegistry.current_generation rt = Ok g ->
    flows r' = <[key := g]> (flows r) -> limits r' = limits r -> registry_ok r' -> Q (Ok g) r') ->
  wp (TunFlowRegistry.admit_flow rt key) r Q.
Proof.
  intros Hr Hoff Hfull Hok. unfold TunFlowRegistry.admit_flow.
  destruct (TunFlowRegistry.current_generation rt) as [g|e] eqn:Hg; cbn [lift_result].
  2:{ wp_step. unfold TunFlowRegistry.current_generation in Hg.
      destruct (ClientRuntime.is_generation_online _ _); [done|]. injection Hg as <-. by apply Hoff. }
  do 2 wp_step. destruct (flows r !! key) as [lease|] eqn:Hk.
  - wp_step.
    + apply Hok; [done|by rewrite insert_id by (rewrite Hk; f_equal; by apply N.eqb_eq)|done|done].
    + wp_step. unfold TunFlowRegistry.admit_new. wp_step.
      set (r' := TunFlowRegistry.set_flows (delete key (flows r)) r).
      assert (registry_ok r') as Hr'.
      { apply registry_ok_iff. intros p. pose proof (used_delete_le r key p) as Hle.
        pose proof (proj1 (registry_ok_iff r) Hr p) as Hlim.
        change (TunFlowRegistry.limit_of r' p) with (TunFlowRegistry.limit_of r p). fold r' in Hle. lia. }
      pose proof (used_delete r key lease (protocol key) Hk) as Hused. rewrite decide_True in Hused by done.
      pose proof (proj1 (registry_ok_iff r) Hr (protocol key)) as Hlim. fold r' in Hused.
      change (TunFlowRegistry.limit_of r (protocol key)) with (TunFlowRegistry.limit_of r' (protocol key)) in Hlim.
      wp_step; [match goal with H : (_ <=? _) = true |- _ => apply N.leb_le in H end; lia|].
      do 2 wp_step. apply Hok; [done| |done|].
      * cbn. apply insert_delete_eq.
      * apply registry_ok_insert; [done|apply lookup_delete_eq|lia].
  - unfold TunFlowRegistry.admit_new. wp_step. wp_step.
    + match goal with H : (_ <=? _) = true |- _ => apply N.leb_le in H as Hle end.
      pose proof (proj1 (registry_ok_iff r) Hr (protocol key)). apply (Hfull g); [done|done|lia].
    + match goal with H : (_ <=? _) = false |- _ => apply N.leb_gt in H as Hlt end.
      do 2 wp_step. apply Hok; [done|done|done|by apply registry_ok_insert].
Qed.
End registry.

(** ** Histories of the engine *)
Inductive EngineOp :=
| OpPush (frame : list byte)
| OpForward (io : ForwardIo)
| OpReceive (io : ReceiveIo)
| OpPop
| OpClear.

Section engine.
Context (ipv4 ipv6 : IpPacket) `{T : Transport}.

(** The engine after a call, whatever the call returned. *)
Definition after {E A} (m : M TunUdpEngine E A) (e : TunUdpEngine) : outcome TunUdpEngine :=
  match m e with Ret (_, e') => Ret e' | Panic => Panic | OutOfFuel => OutOfFuel end.
Definition engine_call (op : EngineOp) (e : TunUdpEngine) : outcome TunUdpEngine :=
  match op with
  | OpPush frame => after (TunUdpEngine.push_inbound frame) e
  | OpForward io => after (TunUdpEngine.forward_next ipv4 io) e
  | OpReceive io => after (TunUdpEngine.receive_next ipv4 ipv6 io) e
  | OpPop => after (TunUdpEngine.pop_outbound (E := unit)) e
  | OpClear => Ret (TunUdpEngine.clear e)
  end.
Fixpoint engine_run (ops : list EngineOp) (e : TunUdpEngine) : outcome TunUdpEngine :=
  match ops with
  | [] => Ret e
  | op :: ops =>
    match engine_call op e with Ret e' => engine_run ops e' | Panic => Panic | OutOfFuel => OutOfFuel end
  end.

Lemma after_wp {E A} (m : M TunUdpEngine E A) e (P : TunUdpEngine -> Prop) :
  wp m e (fun _ e' => P e') -> exists e', after m e = Ret e' /\ P e'.
Proof. unfold wp, after. destruct (m e) as [[r e']| |]; [|done..]. eauto. Qed.

(** The engine keeps the bounds it was made with. *)
Context (limits0 : TunAdapterLimits) (mtu0 capacity0 : N).
Definition configured (e : TunUdpEngine) : Prop :=
  mtu (queue e) = mtu0 /\ queue_capacity (queue e) = capacity0 /\ limits (registry e) = limits0 /\
  association_limit (associations e) = max_udp_associations limits0.

(** A flow that a frame of the platform belongs to. *)
Definition captured (frames : list (list byte)) (flow : FlowKey) : Prop :=
  exists frame, frame ∈ frames /\ classify_ipv4_packet ipv4 frame = Ok flow.
Definition datagram_ok (frames : list (list byte)) (d : DatagramSessionId * SocketAddr * list byte) : Prop :=
  exists frame flow, frame ∈ frames /\ classify_ipv4_packet ipv4 frame = Ok flow /\ protocol flow = Udp /\
    d.1.2 = destination flow /\ udp_payload ipv4 frame = Ok d.2.
Definition response_ok (frames : list (list byte)) (mtu : N) (frame : list byte) : Prop :=
  exists flow payload, captured frames flow /\ protocol flow = Udp /\
    encode_udp_response ipv4 ipv6 flow payload mtu = Ok frame.

Record engine_ok (frames : list (list byte)) (e : TunUdpEngine) : Prop := {
  eo_queue : len (inbound (queue e)) <= queue_capacity (queue e) /\
    len (outbound (queue e)) <= queue_capacity (queue e);
  eo_mtu : Forall (fun frame => len frame <= mtu (queue e)) (inbound (queue e) ++ outbound (queue e));
  eo_inbound : Forall (fun frame => frame ∈ frames) (inbound (queue e));
  eo_outbound : Forall (response_ok frames (mtu (queue e))) (outbound (queue e));
  eo_registry : registry_ok (registry e);
  eo_leases : forall flow g, flows (registry e) !! flow = Some g -> captured frames flow /\ protocol flow = Udp;
  eo_associations : associations_ok (associations e);
  eo_limit : association_limit (associations e) < U64_MAX;
  eo_flows : forall flow s, by_flow (associations e) !! flow = Some s -> captured frames flow;
  eo_datagrams : Forall (datagram_ok frames) (datagrams e);
  eo_configured : configured e
}.

(** Sessions are numbered upwards, and one that is known is used for the
    destination of its flow only, also by what was sent before. *)
Record sessions_fresh (a : UdpAssociationTable) (sent : list (DatagramSessionId * SocketAddr * list byte)) : Prop := {
  sf_known : forall s flow, by_session a !! s = Some flow -> datagram_session_value s < next_session a;
  sf_sent : Forall (fun d => datagram_session_value d.1.1 < next_session a /\
    forall flow, by_session a !! d.1.1 = Some flow -> destination flow = d.1.2) sent;
  sf_same : forall d d', d ∈ sent -> d' ∈ sent -> d.1.1 = d'.1.1 -> d.1.2 = d'.1.2
}.

Definition engine_inv (frames : list (list byte)) (left : N) (e : TunUdpEngine) : Prop :=
  engine_ok frames e /\ sessions_fresh (associations e) (datagrams e) /\
  next_session (associations e) + left <= U64_MAX.

(** *** The calls *)
Lemma push_inv frames left frame e :
  frame ∈ frames -> engine_inv frames left e ->
  wp (TunUdpEngine.push_inbound frame) e (fun _ e' => engine_inv frames left e').
Proof.
  intros Hframe (Hok & Hf & Hl). unfold TunUdpEngine.push_inbound. apply wp_zoom.
  assert (TunUdpEngine.set_queue (queue e) e = e) as Hsame by by destruct e.
  unfold TunFrameQueue.push_inbound. wp_step. wp_step; [by rewrite Hsame|].
  wp_step; [by rewrite Hsame|]. wp_step.
  match goal with H : (_ <? _) = false |- _ => apply N.ltb_ge in H as Hm end.
  match goal with H : (_ =? _) = false |- _ => apply N.eqb_neq in H as Hc end.
  split; [|by split]. destruct Hok as [[Hin Hout] Hmtu Hinb Hob Hreg Hle Has Hlim Hfl Hda Hcfg].
  split; cbn; try done.
  - split; [|done]. rewrite len_app. change (len [frame]) with 1. lia.
  - rewrite <-app_assoc. apply Forall_app in Hmtu as [H1 H2]. apply Forall_app. split; [done|].
    apply Forall_app. by split; [constructor|].
  - apply Forall_app. by split; [|constructor].
Qed.

Lemma pop_inbound_inv frames left e (Q : option (list byte) -> TunUdpEngine -> Prop) :
  engine_inv frames left e ->
  (forall frame e', engine_inv frames left e' -> (forall f, frame = Some f -> f ∈ frames) ->
    registry e' = registry e -> associations e' = associations e -> datagrams e' = datagrams e ->
    frame = head (inbound (queue e)) -> Q frame e') ->
  wp (zoom queue TunUdpEngine.set_queue (TunFrameQueue.pop_inbound (E := TunUdpEngineError))) e
    (fun r e' => match r with Ok frame => Q frame e' | Err _ => False end).
Proof.
  intros (Hok & Hf & Hl) HQ. apply wp_zoom. unfold TunFrameQueue.pop_inbound. do 3 wp_step.
  destruct Hok as [[Hin Hout] Hmtu Hinb Hob Hreg Hle Has Hlim Hfl Hda Hcfg].
  apply HQ; try done.
  - split; [|by split]. split; cbn; try done.
    + split; [|done]. destruct (inbound (queue e)); [done|]. cbn [tail]. rewrite len_cons in Hin. lia.
    + destruct (inbound (queue e)); [done|]. by apply Forall_cons in Hmtu as [_ ?].
    + destruct (inbound (queue e)); [done|]. by apply Forall_cons in Hinb as [_ ?].
  - intros f Hfr. destruct (inbound (queue e)); [done|]. injection Hfr as <-. by apply Forall_cons in Hinb as [? _].
Qed.

Lemma engine_inv_less frames left e : engine_inv frames (left + 1) e -> engine_inv frames left e.
Proof. intros (Hok & Hf & Hl). split_and!; [done|done|lia]. Qed.

Lemma udp_payload_protocol frame flow payload :
  classify_ipv4_packet ipv4 frame = Ok flow -> udp_payload ipv4 frame = Ok payload -> protocol flow = Udp.
Proof. unfold udp_payload. intros ->. by case_bool_decide. Qed.

Lemma lease_inv frames left e flow g r' :
  engine_inv frames left e -> captured frames flow -> protocol flow = Udp ->
  flows r' = <[flow := g]> (flows (registry e)) -> limits r' = limits (registry e) -> registry_ok r' ->
  engine_inv frames left (TunUdpEngine.set_registry r' e).
Proof.
  intros ([] & Hf & Hl) Hcap Hudp Hflows Hlimits Hr. split; [|done]. split; try done; cbn.
  2:{ unfold configured. cbn. by rewrite Hlimits. }
  intros f g'. rewrite Hflows. destruct (decide (f = flow)) as [->|Hne]; [done|].
  rewrite lookup_insert_ne by done. exact (eo_leases0 f g').
Qed.

Lemma tun_association_inv frames left e flow s a' :
  engine_inv frames (left + 1) e -> captured frames flow ->
  associations_ok a' -> association_limit a' = association_limit (associations e) ->
  by_flow a' = <[flow := s]> (by_flow (associations e)) ->
  by_session a' = <[s := flow]> (by_session (associations e)) ->
  (by_session (associations e) !! session (next_session (associations e)) = None ->
   s = session (next_session (associations e)) /\ next_session a' = next_id (next_session (associations e))) ->
  engine_inv frames left (TunUdpEngine.set_associations a' e) /\ datagram_session_value s < next_session a'.
Proof.
  intros ([] & [Hknown Hsent Hsame] & Hl) Hcap Ha Hlimit Hbf Hbs Hnew.
  destruct Hnew as [-> Hnext].
  { destruct (by_session _ !! _) as [f|] eqn:Hs; [|done]. apply Hknown in Hs. cbn in Hs. lia. }
  pose proof (ao_next _ eo_associations0) as Hrange.
  assert (next_session a' = next_session (associations e) + 1) as Hstep.
  { rewrite Hnext, next_id_spec by done. unfold nth_session. rewrite N.mod_small; lia. }
  split; [|cbn; lia]. split; [|split].
  - split; try done; cbn.
    + by rewrite Hlimit.
    + intros f t. rewrite Hbf. destruct (decide (f = flow)) as [->|Hne]; [done|].
      rewrite lookup_insert_ne by done. apply eo_flows0.
    + unfold configured. cbn. by rewrite Hlimit.
  - split; cbn.
    + intros t f. rewrite Hbs, Hstep. destruct (decide (t = session (next_session (associations e)))) as [->|Hne].
      * intros _. cbn. lia.
      * rewrite lookup_insert_ne by done. intros Ht%Hknown. lia.
    + eapply Forall_impl; [exact Hsent|]. intros [[t d] p] [Ht Hd]. cbn in *. split; [lia|].
      intros f. rewrite Hbs, lookup_insert_ne; [apply Hd|]. intros Heq. rewrite <-Heq in Ht. cbn in Ht. lia.
    + exact Hsame.
  - cbn. rewrite Hstep. lia.
Qed.

Lemma datagram_inv frames left e frame flow payload s :
  engine_inv frames left e -> frame ∈ frames -> classify_ipv4_packet ipv4 frame = Ok flow ->
  protocol flow = Udp -> udp_payload ipv4 frame = Ok payload ->
  by_session (associations e) !! s = Some flow -> datagram_session_value s < next_session (associations e) ->
  forall e', queue e' = queue e -> registry e' = registry e -> associations e' = associations e ->
  datagrams e' = datagrams e ++ [(s, destination flow, payload)] -> engine_inv frames left e'.
Proof.
  intros ([] & [Hknown Hsent Hsame] & Hl) Hin Hc Hudp Hp Hs Hlt e' Hq Hr Ha Hd.
  split; [|split].
  - split; unfold configured; rewrite ?Hq, ?Hr, ?Ha, ?Hd; try done. apply Forall_app. split; [done|]. constructor; [|done].
    by exists frame, flow.
  - rewrite Ha, Hd. split; [done| |].
    + apply Forall_app. split; [done|]. constructor; [|done]. cbn. split; [done|]. intros f Hf. congruence.
    + rewrite Forall_forall in Hsent. intros d d' Hd1 Hd2 Heq.
      assert (forall x, x ∈ datagrams e -> x.1.1 = s -> x.1.2 = destination flow) as Hold.
      { intros x Hx Hxs. symmetry. apply (Hsent x Hx). by rewrite Hxs. }
      apply elem_of_app in Hd1 as [Hd1| ->%list_elem_of_singleton];
        apply elem_of_app in Hd2 as [Hd2| ->%list_elem_of_singleton]; cbn in *; auto.
      symmetry. auto.
  - by rewrite Ha.
Qed.

Lemma forward_udp_inv frames left io frame e :
  engine_inv frames (left + 1) e -> frame ∈ frames ->
  wp (TunUdpEngine.forward_udp ipv4 io frame) e (fun _ e' => engine_inv frames left e').
Proof.
  intros He Hin. pose proof (engine_inv_less _ _ _ He) as Hless. unfold TunUdpEngine.forward_udp.
  destruct (classify_ipv4_packet ipv4 frame) as [flow|] eqn:Hc; cbn [lift_result]; [|by wp_step]. wp_step.
  destruct (udp_payload ipv4 frame) as [payload|] eqn:Hp; cbn [lift_result]; [|by wp_step]. wp_step.
  pose proof (udp_payload_protocol _ _ _ Hc Hp) as Hudp.
  assert (captured frames flow) as Hcap by by exists frame.
  assert (TunUdpEngine.set_registry (registry e) e = e) as Hsame by by destruct e.
  apply wp_bind, wp_map_err, wp_zoom, wp_admit; [apply Hless|intros _; by rewrite Hsame|intros; by rewrite Hsame|].
  intros g r' _ Hflows Hlimits Hr'. pose proof (lease_inv _ _ _ _ _ _ He Hcap Hudp Hflows Hlimits Hr') as He1.
  set (e1 := TunUdpEngine.set_registry r' e) in *. pose proof (engine_inv_less _ _ _ He1) as Hless1.
  assert (TunUdpEngine.set_associations (associations e1) e1 = e1) as Hsame1 by done.
  apply wp_bind, wp_map_err, wp_zoom, wp_session_for; [apply He1|apply He1| | | |].
  - intros _. by rewrite Hsame1.
  - intros s _ Hs. rewrite Hsame1. apply wp_bind. unfold TunUdpEngine.send_datagram. wp_step.
    apply (ao_inverse _ (eo_associations _ _ (proj1 He1))) in Hs.
    match goal with |- wp _ ?x _ => assert (engine_inv frames left x) as He2 end.
    { apply (datagram_inv frames left e1 frame flow payload s); try done.
      apply (sf_known _ _ (proj1 (proj2 He1)) s flow Hs). }
    destruct (sent io); cbn [lift_result]; [|by wp_step]. wp_step. by wp_steps.
  - intros _ _ _. by rewrite Hsame1.
  - intros s a' _ _ Hnone Ha' Hlimit Hbf Hbs Hnew.
    destruct (tun_association_inv frames left e1 flow s a' He1 Hcap Ha' Hlimit Hbf Hbs Hnew) as [He2 Hlt].
    apply wp_bind. unfold TunUdpEngine.send_datagram. wp_step.
    match goal with |- wp _ ?x _ => assert (engine_inv frames left x) as He3 end.
    { apply (datagram_inv frames left _ frame flow payload s He2); try done. cbn. rewrite Hbs. apply lookup_insert_eq. }
    destruct (sent io); cbn [lift_result]; [|by wp_step]. wp_step. by wp_steps.
Qed.

Lemma forward_next_inv frames left io e :
  engine_inv frames (left + 1) e ->
  wp (TunUdpEngine.forward_next ipv4 io) e (fun _ e' => engine_inv frames left e').
Proof.
  intros He. unfold TunUdpEngine.forward_next. apply wp_bind. eapply wp_mono.
  - apply (pop_inbound_inv frames (left + 1) e (fun frame e' =>
      engine_inv frames (left + 1) e' /\ forall f, frame = Some f -> f ∈ frames)); [done|].
    intros frame e' He' Hin _ _ _ _. by split.
  - intros [[frame|]|] e' Hr; [|wp_step; apply engine_inv_less, Hr|done]. destruct Hr as [He' Hin].
    apply wp_bind, wp_map_err. eapply wp_mono; [apply (forward_udp_inv frames left); [done|by apply Hin]|].
    intros [g|] e'' He''; [by wp_step|done].
Qed.

Lemma receive_udp_spec io e (Q : result (list byte) UdpReceiveError -> TunUdpEngine -> Prop) :
  (forall err, Q (Err err) e) ->
  (forall response flow frame, received io = Ok response ->
    by_session (associations e) !! response_session response = Some flow ->
    destination flow = response_source response ->
    (exists g, flows (registry e) !! flow = Some g /\ ClientRuntime.is_generation_online (at_active io) g = true) ->
    encode_udp_response ipv4 ipv6 flow (response_payload response) (mtu (queue e)) = Ok frame -> Q (Ok frame) e) ->
  wp (TunUdpEngine.receive_udp ipv4 ipv6 io) e Q.
Proof.
  intros Herr Hok. unfold TunUdpEngine.receive_udp.
  destruct (received io) as [response|] eqn:Hr; cbn [lift_result]; [|by wp_step]. do 2 wp_step.
  unfold UdpAssociationTable.flow_for_response.
  destruct (by_session _ !! _) as [flow|] eqn:Hs; cbn [lift_result]; [|by wp_step].
  case_bool_decide as Hd; cbn [negb lift_result]; [|by wp_step]. wp_step.
  wp_step; [done|]. match goal with H : negb _ = false |- _ => apply negb_false_iff in H as Hactive end.
  destruct (encode_udp_response _ _ _ _ _) as [frame|] eqn:He; cbn [lift_result]; [|by wp_step].
  wp_step. apply (Hok response flow frame); try done.
  unfold TunFlowRegistry.is_active in Hactive. apply andb_true_iff in Hactive as [Hon Hl].
  destruct (flows (registry e) !! flow) as [g|]; [|done]. apply N.eqb_eq in Hl as ->. eauto.
Qed.

Lemma receive_next_inv frames left io e :
  engine_inv frames left e ->
  wp (TunUdpEngine.receive_next ipv4 ipv6 io) e (fun _ e' => engine_inv frames left e').
Proof.
  intros He. unfold TunUdpEngine.receive_next. apply wp_bind, wp_map_err, receive_udp_spec; [done|].
  intros response flow frame _ Hs _ (g & Hg & _) Henc. apply wp_map_err, wp_zoom.
  assert (TunUdpEngine.set_queue (queue e) e = e) as Hsame by by destruct e.
  unfold TunFrameQueue.push_outbound. wp_step. wp_step; [by rewrite Hsame|].
  wp_step; [by rewrite Hsame|]. wp_step.
  match goal with H : (_ <? _) = false |- _ => apply N.ltb_ge in H as Hm end.
  match goal with H : (_ =? _) = false |- _ => apply N.eqb_neq in H as Hc end.
  destruct He as ([[Hin Hout] Hmtu Hinb Hob Hreg Hle Has Hlim Hfl Hda Hcfg] & Hf & Hl).
  split; [|by split]. split; cbn; try done.
  - split; [done|]. rewrite len_app. change (len [frame]) with 1. lia.
  - rewrite app_assoc. apply Forall_app. by split; [|constructor].
  - apply Forall_app. split; [done|]. constructor; [|done]. exists flow, (response_payload response).
    destruct (Hle flow g Hg). done.
Qed.

Lemma pop_outbound_inv frames left e :
  engine_inv frames left e ->
  wp (TunUdpEngine.pop_outbound (E := unit)) e (fun _ e' => engine_inv frames left e').
Proof.
  intros ([[Hin Hout] Hmtu Hinb Hob Hreg Hle Has Hlim Hfl Hda Hcfg] & Hf & Hl).
  unfold TunUdpEngine.pop_outbound. apply wp_zoom. unfold TunFrameQueue.pop_outbound. do 3 wp_step.
  split; [|by split]. split; cbn; try done.
  - split; [done|]. destruct (outbound (queue e)); [done|]. cbn [tail]. rewrite len_cons in Hout. lia.
  - apply Forall_app in Hmtu as [H1 H2]. apply Forall_app. split; [done|].
    destruct (outbound (queue e)); [done|]. by apply Forall_cons in H2 as [_ ?].
  - destruct (outbound (queue e)); [done|]. by apply Forall_cons in Hob as [_ ?].
Qed.

Lemma clear_inv frames left e : engine_inv frames left e -> engine_inv frames left (TunUdpEngine.clear e).
Proof.
  intros ([Hq Hmtu Hinb Hob Hreg Hle Has Hlim Hfl Hda Hcfg] & [Hknown Hsent Hsame] & Hl). split; [|split].
  - split; cbn; try done.
    + split; apply N.le_0_l.
    + split; cbn; try done; [apply Has|apply N.le_0_l].
  - split; [done| |done]. eapply Forall_impl; [exact Hsent|]. intros d [Hd _]. by split.
  - done.
Qed.

(** *** Histories *)
Definition pushed (ops : list EngineOp) : list (list byte) :=
  omap (fun op => match op with OpPush frame => Some frame | _ => None end) ops.
Lemma pushed_in ops frame : OpPush frame ∈ ops -> frame ∈ pushed ops.
Proof. intros Hin. apply list_elem_of_omap. by exists (OpPush frame). Qed.

Lemma call_inv frames left op e :
  (forall frame, op = OpPush frame -> frame ∈ frames) -> engine_inv frames (left + 1) e ->
  exists e', engine_call op e = Ret e' /\ engine_inv frames left e'.
Proof.
  intros Hop He. pose proof (engine_inv_less _ _ _ He) as Hless. destruct op; cbn [engine_call].
  - apply after_wp, push_inv; [by apply Hop|done].
  - by apply after_wp, forward_next_inv.
  - by apply after_wp, receive_next_inv.
  - by apply after_wp, pop_outbound_inv.
  - eexists. split; [done|]. by apply clear_inv.
Qed.

Lemma run_inv frames left ops e :
  (forall frame, OpPush frame ∈ ops -> frame ∈ frames) -> engine_inv frames (left + len ops) e ->
  exists e', engine_run ops e = Ret e' /\ engine_inv frames left e'.
Proof.
  revert e. induction ops as [|op ops IH]; intros e Hin He.
  - exists e. split; [done|]. by rewrite N.add_0_r in He.
  - rewrite len_cons, (N.add_comm 1), N.add_assoc in He.
    destruct (call_inv frames (left + len ops) op e) as (e1 & Hcall & He1); [|done|].
    { intros frame ->. apply Hin. by left. }
    cbn [engine_run]. rewrite Hcall. apply IH; [|done]. intros frame Hf. apply Hin. by right.
Qed.

Lemma new_inv e frames :
  TunUdpEngine.new limits0 mtu0 capacity0 = Ok e -> max_udp_associations limits0 < U64_MAX ->
  engine_inv frames (U64_MAX - 1) e.
Proof.
  unfold TunUdpEngine.new, TunFrameQueue.new, UdpAssociationTable.new, TunFlowRegistry.new, TunAdapterLimits.validate.
  destruct (_ || _); [done|]. cbn [and_then]. destruct (max_udp_associations limits0 =? 0); [done|].
  destruct (max_tcp_flows limits0 =? 0); [done|]. intros <-%Ok_inj Hmax. split; [|split; [|cbn; lia]].
  - split; cbn; try done; try by (split; apply N.le_0_l).
    split; cbn; [unfold U64_MAX; lia| |done|apply N.le_0_l]. done.
  - split; cbn; try done. intros d d' Hd. by apply elem_of_nil in Hd.
Qed.

(** C22. Whatever is captured and received, and however the runtime answers: an
    engine never panics (an identifier of a session is always found); its
    queues hold at most the configured number of frames, none over the MTU;
    at most the configured number of UDP flows have leases or sessions; a
    payload goes out only for a captured packet, to that packet's destination,
    and one session identifier never serves two destinations, also across a
    [clear]; and a queued response answers a captured UDP flow. *)
Theorem tun_engine_safe e0 ops :
  TunUdpEngine.new limits0 mtu0 capacity0 = Ok e0 ->
  max_udp_associations limits0 < U64_MAX -> len ops < U64_MAX ->
  exists e, engine_run ops e0 = Ret e /\
    engine_ok (pushed ops) e /\
    (forall d d', d ∈ datagrams e -> d' ∈ datagrams e -> d.1.1 = d'.1.1 -> d.1.2 = d'.1.2).
Proof.
  intros Hnew Hmax Hops. pose proof (new_inv e0 (pushed ops) Hnew Hmax) as H0.
  destruct (run_inv (pushed ops) (U64_MAX - 1 - len ops) ops e0) as (e & Hrun & Hok & Hfresh & _).
  - apply pushed_in.
  - by replace (U64_MAX - 1 - len ops + len ops) with (U64_MAX - 1) by lia.
  - exists e. split; [done|]. split; [done|]. apply (sf_same _ _ Hfresh).
Qed.

(** *** What a response needs to be delivered *)
Definition deliverable (io : ReceiveIo) (e : TunUdpEngine) (frame : list byte) : Prop :=
  exists response flow, received io = Ok response /\
    by_session (associations e) !! response_session response = Some flow /\
    destination flow = response_source response /\
    ClientRuntime.is_generation_online (at_active io) (Runtime.generation (published (at_generation io))) = true /\
    flows (registry e) !! flow = Some (Runtime.generation (published (at_generation io))) /\
    encode_udp_response ipv4 ipv6 flow (response_payload response) (mtu (queue e)) = Ok frame /\
    len frame <= mtu (queue e) /\ len (outbound (queue e)) <> queue_capacity (queue e).

Lemma receive_udp_iff io e :
  wp (TunUdpEngine.receive_udp ipv4 ipv6 io) e (fun r e' => e' = e /\
    forall frame, r = Ok frame <-> exists response flow, received io = Ok response /\
      by_session (associations e) !! response_session response = Some flow /\
      destination flow = response_source response /\
      ClientRuntime.is_generation_online (at_active io) (Runtime.generation (published (at_generation io))) = true /\
      flows (registry e) !! flow = Some (Runtime.generation (published (at_generation io))) /\
      encode_udp_response ipv4 ipv6 flow (response_payload response) (mtu (queue e)) = Ok frame).
Proof.
  unfold TunUdpEngine.receive_udp.
  destruct (received io) as [response|] eqn:Hr; cbn [lift_result].
  2:{ wp_step. split; [done|]. naive_solver. }
  do 2 wp_step. unfold UdpAssociationTable.flow_for_response.
  destruct (by_session _ !! _) as [flow|] eqn:Hs; cbn [lift_result]; [|wp_step; split; [done|naive_solver]].
  case_bool_decide as Hd; cbn [negb lift_result]; [|wp_step; split; [done|naive_solver]].
  wp_step. unfold TunFlowRegistry.is_active.
  set (g := Runtime.generation (published (at_generation io))). wp_step.
  { split; [done|]. intros frame. split; [done|]. intros (r & f & [= <-] & Hs' & _ & Hon & Hf & _).
    assert (f = flow) as -> by congruence.
    match goal with H : negb _ = true |- _ => by rewrite Hon, Hf, N.eqb_refl in H end. }
  match goal with H : negb _ = false |- _ => apply negb_false_iff, andb_true_iff in H as [Hon Hf] end.
  destruct (flows (registry e) !! flow) as [lease|] eqn:Hl; [apply N.eqb_eq in Hf as ->|done].
  destruct (encode_udp_response _ _ _ _ _) as [frame|] eqn:He; cbn [lift_result]; wp_step;
    (split; [done|]; intros frame'; split; [|intros (r & f & [= <-] & Hs' & _ & _ & _ & He');
       assert (f = flow) as -> by congruence; congruence]).
  - intros <-%Ok_inj. exists response, flow. by split_and!.
  - done.
Qed.

(** A response is queued for the platform exactly when its session is known,
    it comes from the destination the session was opened for, the flow still
    has a lease of the generation that is online, and the packet can be
    written and fits; otherwise an error is returned and nothing changes. *)
Theorem receive_next_spec io e :
  (exists frame, deliverable io e frame /\
     TunUdpEngine.receive_next ipv4 ipv6 io e =
     Ret (Ok tt, TunUdpEngine.set_queue
       (TunFrameQueue.set_outbound (outbound (queue e) ++ [frame]) (queue e)) e)) \/
  (forall frame, ~ deliverable io e frame) /\
  exists err, TunUdpEngine.receive_next ipv4 ipv6 io e = Ret (Err err, e).
Proof.
  destruct (wp_run _ _ _ (receive_udp_iff io e)) as (r & e' & Hrun & -> & Hiff).
  assert (TunUdpEngine.set_queue (queue e) e = e) as Hsame by by destruct e.
  unfold TunUdpEngine.receive_next, bind, map_err. rewrite Hrun. destruct r as [frame|err].
  2:{ right. split; [|by eexists]. intros frame (response & flow & H1 & H2 & H3 & H4 & H5 & H6 & _).
      by assert (Err err = Ok frame) by (apply Hiff; eauto 10). }
  destruct (proj1 (Hiff frame) eq_refl) as (response & flow & H1 & H2 & H3 & H4 & H5 & H6).
  unfold zoom, TunFrameQueue.push_outbound, bind, get, reject_if, throw, ret, modify.
  destruct (mtu (queue e) <? len frame) eqn:Hm.
  { right. split; [|eexists; cbn; by rewrite Hsame]. apply N.ltb_lt in Hm.
    intros frame' (response' & flow' & G1 & G2 & G3 & G4 & G5 & G6 & Hfit & _).
    assert (Ok frame = Ok frame') as [= <-] by (apply Hiff; eauto 10). lia. }
  destruct (len (outbound (queue e)) =? queue_capacity (queue e)) eqn:Hf.
  { right. split; [|eexists; cbn; by rewrite Hsame]. apply N.eqb_eq in Hf.
    intros frame' (response' & flow' & G1 & G2 & G3 & G4 & G5 & G6 & _ & Hroom). by apply Hroom. }
  left. exists frame. split; [|done]. apply N.ltb_ge in Hm. apply N.eqb_neq in Hf.
  exists response, flow. by split_and!.
Qed.

(** *** A registry without room *)
Definition udp_full (e : TunUdpEngine) : Prop :=
  TunFlowRegistry.used (registry e) Udp = max_udp_associations (limits (registry e)).
Definition still_full (leased : gset FlowKey) (e : TunUdpEngine) : Prop :=
  udp_full e /\ dom (flows (registry e)) = leased.

Lemma full_admits r r' key g :
  registry_ok r' -> protocol key = Udp -> limits r' = limits r -> flows r' = <[key := g]> (flows r) ->
  TunFlowRegistry.used r Udp = max_udp_associations (limits r) ->
  TunFlowRegistry.used r' Udp = max_udp_associations (limits r') /\ dom (flows r') = dom (flows r) /\
  is_Some (flows r !! key).
Proof.
  intros [_ Hok] Hudp Hlimits Hflows Hfull.
  assert (r' = TunFlowRegistry.set_flows (<[key := g]> (flows r)) r) as ->
    by (destruct r'; cbn in *; by rewrite Hlimits, Hflows).
  destruct (flows r !! key) as [g'|] eqn:Hk.
  - rewrite (used_renew r key g g' Udp Hk) in *. split_and!; [done| |done].
    cbn. rewrite dom_insert_L. apply elem_of_dom_2 in Hk. set_solver.
  - rewrite used_insert, decide_True in Hok by done. cbn in Hok. lia.
Qed.

Lemma forward_udp_full frames left io frame e leased :
  engine_inv frames (left + 1) e -> still_full leased e ->
  wp (TunUdpEngine.forward_udp ipv4 io frame) e (fun r e' => still_full leased e' /\
    forall flow payload, classify_ipv4_packet ipv4 frame = Ok flow -> udp_payload ipv4 frame = Ok payload ->
      flow ∉ leased -> datagrams e' = datagrams e /\ exists err, r = Err (ForwardAdmission err)).
Proof.
  intros He [Hfull Hdom]. unfold TunUdpEngine.forward_udp.
  destruct (classify_ipv4_packet ipv4 frame) as [flow|] eqn:Hc; cbn [lift_result].
  2:{ wp_step. by split; [split|]. }
  wp_step. destruct (udp_payload ipv4 frame) as [payload|] eqn:Hp; cbn [lift_result].
  2:{ wp_step. by split; [split|]. }
  wp_step. pose proof (udp_payload_protocol _ _ _ Hc Hp) as Hudp.
  assert (TunUdpEngine.set_registry (registry e) e = e) as Hsame by by destruct e.
  apply wp_bind, wp_map_err, wp_zoom, wp_admit; [apply He| | |].
  1: intros _; rewrite Hsame; split; [by split|]; intros; split; [done|by eexists].
  1: intros g _ _ _; rewrite Hsame; split; [by split|]; intros; split; [done|by eexists].
  intros g r' _ Hflows Hlimits Hr'.
  destruct (full_admits _ _ _ _ Hr' Hudp Hlimits Hflows Hfull) as (Hfull' & Hdom' & Hk).
  assert (flow ∈ leased) as Hin by (rewrite <-Hdom; by apply elem_of_dom).
  set (e1 := TunUdpEngine.set_registry r' e).
  assert (forall (r : result N UdpForwardError) e', registry e' = r' -> still_full leased e' /\
    forall f p, (Ok flow : result _ PacketError) = Ok f -> (Ok payload : result _ PacketError) = Ok p -> f ∉ leased ->
      datagrams e' = datagrams e /\ exists err, r = Err (ForwardAdmission err)) as Hrest.
  { intros r e' He'. split; [unfold still_full, udp_full; rewrite He'; split; [done|congruence]|].
    intros f p <-%Ok_inj _ Hn. by destruct Hn. }
  apply wp_bind, wp_map_err, wp_zoom, wp_session_for; [apply He|apply He| | | |].
  - intros _. by apply Hrest.
  - intros s _ _. apply wp_bind. unfold TunUdpEngine.send_datagram. wp_step.
    destruct (sent io); cbn [lift_result]; [|wp_step; by apply Hrest]. wp_steps; by apply Hrest.
  - intros _ _ _. by apply Hrest.
  - intros s a' _ _ _ _ _ _ _ _. apply wp_bind. unfold TunUdpEngine.send_datagram. wp_step.
    destruct (sent io); cbn [lift_result]; [|wp_step; by apply Hrest]. wp_steps; by apply Hrest.
Qed.

(** A call keeps the invariant and, unless it clears the engine, a full registry. *)
Lemma zoom_queue_full {E A} (m : M TunFrameQueue E A) e leased :
  still_full leased e -> wp m (queue e) (fun _ _ => True) ->
  wp (zoom queue TunUdpEngine.set_queue m) e (fun _ e' => still_full leased e').
Proof. intros He Hm. apply wp_zoom. by eapply wp_mono; [exact Hm|]. Qed.

Lemma forward_next_full frames left io e leased :
  engine_inv frames (left + 1) e -> still_full leased e ->
  wp (TunUdpEngine.forward_next ipv4 io) e (fun r e' => still_full leased e' /\
    forall frame flow payload, head (inbound (queue e)) = Some frame ->
      classify_ipv4_packet ipv4 frame = Ok flow -> udp_payload ipv4 frame = Ok payload -> flow ∉ leased ->
      datagrams e' = datagrams e /\ exists err, r = Err (EngineForward (ForwardAdmission err))).
Proof.
  intros He Hfull. unfold TunUdpEngine.forward_next. apply wp_bind. eapply wp_mono.
  - apply (pop_inbound_inv frames (left + 1) e (fun frame e' => engine_inv frames (left + 1) e' /\
      still_full leased e' /\ datagrams e' = datagrams e /\ frame = head (inbound (queue e)))); [done|].
    intros frame e' He' _ Hr _ Hd Hh. split; [done|]. split; [|done].
    unfold still_full, udp_full. by rewrite Hr.
  - intros [[frame|]|] e' Hr; [|wp_step|done].
    2:{ destruct Hr as (_ & Hf & _ & Hh). split; [done|]. intros frame flow payload Hhead. congruence. }
    destruct Hr as (He' & Hf & Hd & Hh). apply wp_bind, wp_map_err. eapply wp_mono.
    { by apply (forward_udp_full frames left io frame e' leased). }
    intros [g|err] e'' [Hf' Hr].
    + wp_step. split; [done|]. intros frame' flow payload Hhead Hc Hp Hn.
      assert (frame' = frame) as -> by congruence. destruct (Hr flow payload Hc Hp Hn) as (_ & x & Hx). done.
    + split; [done|]. intros frame' flow payload Hhead Hc Hp Hn.
      assert (frame' = frame) as -> by congruence. destruct (Hr flow payload Hc Hp Hn) as (Hd' & x & [= ->]).
      split; [congruence|]. by eexists.
Qed.

Lemma call_full frames left op e e' leased :
  op <> OpClear -> engine_inv frames (left + 1) e -> still_full leased e ->
  engine_call op e = Ret e' -> still_full leased e'.
Proof.
  intros Hop He Hf Hcall.
  assert (forall E A (m : M TunUdpEngine E A), wp m e (fun _ x => still_full leased x) ->
    after m e = Ret e' -> still_full leased e') as Hafter.
  { intros E A m (x & Hx & Hfx)%after_wp Hm. rewrite Hx in Hm. by injection Hm as <-. }
  destruct op; cbn [engine_call] in Hcall; [..|done]; eapply Hafter; try exact Hcall.
  - apply zoom_queue_full; [done|]. unfold TunFrameQueue.push_inbound. by wp_steps.
  - eapply wp_mono; [by apply (forward_next_full frames left)|]. by intros r x [Hx _].
  - unfold TunUdpEngine.receive_next. apply wp_bind, wp_map_err, receive_udp_spec; [done|]. intros.
    apply wp_map_err. eapply wp_mono; [apply zoom_queue_full; [done|]|by intros []].
    unfold TunFrameQueue.push_outbound. by wp_steps.
  - apply zoom_queue_full; [done|]. unfold TunFrameQueue.pop_outbound. by wp_steps.
Qed.

Lemma run_full frames left ops e e' leased :
  OpClear ∉ ops -> (forall frame, OpPush frame ∈ ops -> frame ∈ frames) ->
  engine_inv frames (left + len ops) e -> still_full leased e ->
  engine_run ops e = Ret e' -> still_full leased e'.
Proof.
  revert e. induction ops as [|op ops IH]; intros e Hc Hin He Hf Hrun.
  - by injection Hrun as <-.
  - apply not_elem_of_cons in Hc as [Hne Hc]. rewrite len_cons, (N.add_comm 1), N.add_assoc in He.
    destruct (call_inv frames (left + len ops) op e) as (e1 & Hcall & He1); [|done|].
    { intros frame ->. apply Hin. by left. }
    cbn [engine_run] in Hrun. rewrite Hcall in Hrun. apply (IH e1); try done.
    + intros frame Hx. apply Hin. by right.
    + by apply (call_full frames (left + len ops) op e).
Qed.

Lemma run_app ops ops' e :
  engine_run (ops ++ ops') e =
  match engine_run ops e with Ret e' => engine_run ops' e' | Panic => Panic | OutOfFuel => OutOfFuel end.
Proof.
  revert e. induction ops as [|op ops IH]; intros e; [done|]. cbn [app engine_run].
  destruct (engine_call op e); [apply IH|done|done].
Qed.

(** Once [max_udp_associations] UDP flows were admitted, no packet of another
    flow is forwarded until [clear]: its packet is lost with an admission
    error and nothing is sent, whatever happens in between and whichever
    generation is online then.  The leases of a generation that ended are
    not given back, although the comment on [TunFlowRegistry] says a
    generation transition clears them. *)
Theorem udp_capacity_never_returns e0 ops ops' e e' io frame flow payload :
  TunUdpEngine.new limits0 mtu0 capacity0 = Ok e0 -> max_udp_associations limits0 < U64_MAX ->
  len ops + len ops' < U64_MAX - 1 ->
  engine_run ops e0 = Ret e -> TunFlowRegistry.used (registry e) Udp = max_udp_associations limits0 ->
  flows (registry e) !! flow = None ->
  OpClear ∉ ops' -> engine_run ops' e = Ret e' -> head (inbound (queue e')) = Some frame ->
  classify_ipv4_packet ipv4 frame = Ok flow -> udp_payload ipv4 frame = Ok payload ->
  exists err e'', TunUdpEngine.forward_next ipv4 io e' = Ret (Err (EngineForward (ForwardAdmission err)), e'') /\
    datagrams e'' = datagrams e'.
Proof.
  intros Hnew Hmax Hlen Hrun Hused Hnone Hclear Hrun' Hhead Hc Hp.
  set (frames := pushed (ops ++ ops')).
  assert (forall f, OpPush f ∈ ops -> f ∈ frames) as Hin
    by (intros f Hf; apply pushed_in, elem_of_app; by left).
  assert (forall f, OpPush f ∈ ops' -> f ∈ frames) as Hin'
    by (intros f Hf; apply pushed_in, elem_of_app; by right).
  pose proof (new_inv e0 frames Hnew Hmax) as H0.
  destruct (run_inv frames (U64_MAX - 1 - len ops) ops e0 Hin) as (x & Hx & He).
  { by replace (U64_MAX - 1 - len ops + len ops) with (U64_MAX - 1) by lia. }
  assert (x = e) as -> by congruence.
  assert (still_full (dom (flows (registry e))) e) as Hfull.
  { split; [|done]. unfold udp_full. by destruct (eo_configured _ _ (proj1 He)) as (_ & _ & -> & _). }
  set (left := U64_MAX - 1 - len ops - len ops').
  replace (U64_MAX - 1 - len ops) with (left + len ops') in He by (unfold left; lia).
  destruct (run_inv frames left ops' e Hin' He) as (x & Hx' & He').
  assert (x = e') as -> by congruence.
  pose proof (run_full frames left ops' e e' _ Hclear Hin' He Hfull Hrun') as Hfull'.
  replace left with (left - 1 + 1) in He' by (unfold left; lia).
  destruct (wp_run _ _ _ (forward_next_full frames (left - 1) io e' _ He' Hfull')) as (r & e'' & Hr & _ & Hsays).
  destruct (Hsays frame flow payload Hhead Hc Hp) as (Hd & err & ->); [by apply not_elem_of_dom|].
  by exists err, e''.
Qed.
End engine.

(** ** Routing decisions of a fake address *)
Section routing.
Variable imax : N.

Definition decision (policy : RoutingPolicy) (d : option Str) (address : IpAddr) (port : N) : TunRouteDecision :=
  {| decided_action := RoutingPolicy.decide policy
       {| Routing.domain := d; Routing.destination := address; destination_port := port |};
     decided_destination := SocketAddr.new address port;
     decided_domain := d |}.

Lemma address_new address port : SocketAddr.ip (SocketAddr.new address port) = address /\
  SocketAddr.port (SocketAddr.new address port) = port.
Proof. by destruct address. Qed.

Lemma allocated_mapping g dom d real ttl now t a t' :
  table_ok t -> FakeDns.normalize_domain dom = Ok d -> now + ttl <= imax ->
  FakeDnsTable.allocate imax g dom real ttl now t = Ret (Ok a, t') ->
  g = FakeDns.generation t /\ FakeDns.generation t' = FakeDns.generation t /\
  mappings t' !! a = Some (new_mapping g d real a (now + ttl)).
Proof.
  intros Ht Hd Hmax Hrun. destruct (decide (g = FakeDns.generation t)) as [->|Hg].
  - refine (wp_elim _ t (fun r t' => forall b, r = Ok b -> FakeDns.generation t = FakeDns.generation t /\
      FakeDns.generation t' = FakeDns.generation t /\
      mappings t' !! b = Some (new_mapping (FakeDns.generation t) d real b (now + ttl))) _ _ _ Hrun a eq_refl).
    apply (wp_allocate imax (FakeDns.generation t) dom real ttl now d t); try done.
    by intros b t2 _ Hgen Hmap _ _ c <-%Ok_inj.
  - unfold FakeDnsTable.allocate, bind, get, reject_if in Hrun.
    by rewrite (proj2 (N.eqb_neq g (FakeDns.generation t)) Hg) in Hrun.
Qed.

(** What [decide] does, by what the table has for the address. *)
Lemma decide_mapping g flow now e :
  g = FakeDns.generation (dns e) -> let live := FakeDnsTable.remove_expired now (dns e) in
  exists e', policy e' = policy e /\ dns e' = live /\
  TunPolicyEngine.decide g flow now e =
  Ret (Ok (match mappings live !! SocketAddr.ip (destination flow) with
           | Some m => decision (policy e) (Some (FakeDns.domain m)) (real_address m) (SocketAddr.port (destination flow))
           | None =>
             {| decided_action := RoutingPolicy.decide (policy e)
                  {| Routing.domain := None; Routing.destination := SocketAddr.ip (destination flow);
                     destination_port := SocketAddr.port (destination flow) |};
                decided_destination := destination flow; decided_domain := None |}
           end), e').
Proof.
  intros -> live. exists (TunPolicyEngine.set_dns live e). split_and!; [done|done|].
  unfold TunPolicyEngine.decide, zoom, FakeDnsTable.resolve, bind, get, reject_if, modify, ret.
  rewrite N.eqb_refl. cbn [negb]. fold live.
  destruct (mappings live !! _) as [m|]; [|done]. unfold decision.
  destruct (address_new (real_address m) (SocketAddr.port (destination flow))) as [-> ->]. done.
Qed.

(** A connection to an address handed out for a name is decided, until that
    answer expires, on the name as the table normalised it and on the real
    address, which the decision goes to at the flow's own port; a connection
    to any other address is decided on that address and no name.  Under
    another generation no decision is made. *)
Theorem tun_route_restores g dom d real ttl now later flow e a e' :
  table_reachable imax (dns e) -> FakeDns.normalize_domain dom = Ok d -> now + ttl <= imax ->
  TunPolicyEngine.allocate_dns imax g dom real ttl now e = Ret (Ok a, e') -> later < now + ttl ->
  (SocketAddr.ip (destination flow) = a ->
   exists e2, TunPolicyEngine.decide g flow later e' =
     Ret (Ok (decision (policy e) (Some d) real (SocketAddr.port (destination flow))), e2)) /\
  (mappings (dns e') !! SocketAddr.ip (destination flow) = None ->
   exists r e2, TunPolicyEngine.decide g flow later e' = Ret (Ok r, e2) /\
     decided_domain r = None /\ decided_destination r = destination flow) /\
  forall g', g' <> g -> TunPolicyEngine.decide g' flow later e' = Ret (Err GenerationMismatch, e').
Proof.
  intros Ht%reachable_table_ok Hd Hmax Halloc Hlater.
  unfold TunPolicyEngine.allocate_dns, zoom in Halloc.
  destruct (FakeDnsTable.allocate _ _ _ _ _ _ _) as [[r t']| |] eqn:Hrun; [|done..].
  injection Halloc as -> <-.
  destruct (allocated_mapping _ _ _ _ _ _ _ _ _ Ht Hd Hmax Hrun) as (-> & Hgen & Hmap).
  set (e1 := TunPolicyEngine.set_dns t' e).
  destruct (decide_mapping (FakeDns.generation (dns e)) flow later e1) as (e2 & _ & _ & Hdecide); [done|].
  rewrite Hdecide. split_and!.
  - intros ->. exists e2. cbn [dns e1 TunPolicyEngine.set_dns].
    assert (mappings (FakeDnsTable.remove_expired later t') !! a =
      Some (new_mapping (FakeDns.generation (dns e)) d real a (now + ttl))) as ->; [|done].
    by apply remove_expired_lookup.
  - intros Hnone. destruct (mappings (FakeDnsTable.remove_expired later (dns e1)) !! _) as [m|] eqn:Hm.
    + apply remove_expired_lookup in Hm as [Hm _]. cbn in Hm, Hnone. congruence.
    + eexists _, e2. split; [done|]. done.
  - intros g' Hne. unfold TunPolicyEngine.decide, zoom, FakeDnsTable.resolve, bind, get, reject_if.
    cbn [dns e1 TunPolicyEngine.set_dns]. rewrite Hgen.
    by rewrite (proj2 (N.eqb_neq g' (FakeDns.generation (dns e))) Hne).
Qed.
End routing.

(** ** At concrete inputs *)
Module TunExamples.
Import TunPacketExamples.
Definition ipv4 : IpPacket := small_ip x45 4.
Definition ipv6 : IpPacket := small_ip x60 16.
#[local] Existing Instance small_udp.

(** A packet of port [n] to 1.1.1.1:53. *)
Definition packet (n : N) : list byte :=
  [x45; x11; x40] ++ to_be_bytes 2 5 ++ to_be_bytes 4 167772162 ++ to_be_bytes 4 16843009 ++
  to_be_bytes 2 n ++ to_be_bytes 2 53 ++ [x2a].
Definition packet_flow (n : N) : FlowKey :=
  {| protocol := Udp; source := SocketAddr.new (V4 167772162) n; destination := SocketAddr.new (V4 16843009) 53 |}.
Definition online (g : N) : RuntimeInner := moved ClientRuntime.new g 1 Online None (Some 0%nat) (Some g) [].
Definition sending (g : N) : ForwardIo :=
  {| admission := {| at_snapshot := online g; at_check := online g |}; sent := Ok tt; after_send := online g |}.
Definition answer : ReceiveIo :=
  {| received := Ok {| response_session := session 1; response_source := SocketAddr.new (V4 16843009) 53;
                       response_payload := [x2b; x2c] |};
     at_generation := online 1; at_active := online 1 |}.

Definition one : TunAdapterLimits := {| max_tcp_flows := 1; max_udp_associations := 1 |}.
Definition engine0 : TunUdpEngine :=
  {| queue := {| mtu := 1500; queue_capacity := 4; inbound := []; outbound := [] |};
     registry := {| limits := one; flows := ∅ |};
     associations := {| next_session := 1; by_flow := ∅; by_session := ∅; association_limit := 1 |};
     datagrams := [] |}.
Definition first_flow : list EngineOp := [OpPush (packet 5353); OpForward (sending 1); OpReceive answer].
Definition next_generation : list EngineOp := [OpPush (packet 5353); OpForward (sending 2); OpPush (packet 5354)].

Definition ran (ops : list EngineOp) : outcome (list (list byte)) :=
  match engine_run ipv4 ipv6 ops engine0 with
  | Ret e => Ret ((datagrams e).*2 ++ outbound (queue e))
  | Panic => Panic
  | OutOfFuel => OutOfFuel
  end.

Lemma tun_engine_safe_witness :
  (exists e, engine_run ipv4 ipv6 (first_flow ++ next_generation) engine0 = Ret e /\
    engine_ok ipv4 ipv6 one 1500 4 (pushed (first_flow ++ next_generation)) e) /\
  exists answer, ran (first_flow ++ next_generation) = Ret [[x2a]; [x2a]; answer].
Proof.
  split; [|by eexists; vm_compute].
  destruct (tun_engine_safe ipv4 ipv6 one 1500 4 engine0 (first_flow ++ next_generation)) as (e & Hrun & Hok & _).
  - reflexivity.
  - reflexivity.
  - reflexivity.
  - exists e. split; [exact Hrun|exact Hok].
Defined.

Lemma runs ops : len ops < 100 -> exists e, engine_run ipv4 ipv6 ops engine0 = Ret e.
Proof.
  intros Hops. destruct (run_inv ipv4 ipv6 one 1500 4 (pushed ops) (U64_MAX - 1 - len ops) ops engine0) as (e & He & _);
    [apply pushed_in| |by exists e].
  replace (U64_MAX - 1 - len ops + len ops) with (U64_MAX - 1) by (unfold U64_MAX; lia).
  by apply new_inv.
Qed.
Lemma run_result {B} (f : TunUdpEngine -> B) ops e x :
  engine_run ipv4 ipv6 ops engine0 = Ret e ->
  match engine_run ipv4 ipv6 ops engine0 with Ret e => f e = x | _ => False end -> f e = x.
Proof. by intros ->. Qed.

(** The lease of [packet 5353], renewed under generation 2, is the only one there
    will be. *)
Lemma udp_capacity_never_returns_witness :
  exists e', engine_run ipv4 ipv6 (first_flow ++ next_generation) engine0 = Ret e' /\
    exists err e'', TunUdpEngine.forward_next ipv4 (sending 2) e' = Ret (Err (EngineForward (ForwardAdmission err)), e'').
Proof.
  destruct (runs first_flow ltac:(reflexivity)) as (e & Hrun).
  destruct (runs (first_flow ++ next_generation) ltac:(reflexivity)) as (e' & Hall).
  exists e'. split; [exact Hall|].
  destruct (udp_capacity_never_returns ipv4 ipv6 one 1500 4 engine0 first_flow next_generation e e' (sending 2)
    (packet 5354) (packet_flow 5354) [x2a]) as (err & e'' & Hf & _).
  - reflexivity.
  - reflexivity.
  - reflexivity.
  - exact Hrun.
  - apply (run_result (fun e => TunFlowRegistry.used (registry e) Udp) _ _ _ Hrun). by vm_compute.
  - apply (run_result (fun e => flows (registry e) !! packet_flow 5354) _ _ _ Hrun). by vm_compute.
  - intros H. repeat (apply elem_of_cons in H as [H|H]; [discriminate|]). by apply elem_of_nil in H.
  - by rewrite run_app, Hrun in Hall.
  - apply (run_result (fun e => head (inbound (queue e))) _ _ _ Hall). by vm_compute.
  - by vm_compute.
  - by vm_compute.
  - by exists err, e''.
Defined.

(** [example.com] at 5, then a connection to the address it got. *)
Definition policy1 : RoutingPolicy :=
  {| rules := [{| matcher := DomainSuffix (str "example.com"); action := Routing.Proxy |};
               {| matcher := Match; action := Direct |}] |}.
Definition routes : TunPolicyEngine := {| policy := policy1; dns := test_table |}.
Definition fake : FlowKey :=
  {| protocol := Tcp; source := SocketAddr.new (V4 167772162) 5353; destination := SocketAddr.new (V4 FIRST_IPV4) 443 |}.

Lemma tun_route_restores_witness :
  exists e' e2, TunPolicyEngine.allocate_dns 1000 1 (str "Example.COM.") (V4 5) 60 10 routes = Ret (Ok (V4 FIRST_IPV4), e') /\
    TunPolicyEngine.decide 1 fake 20 e' = Ret (Ok {| decided_action := Routing.Proxy;
      decided_destination := SocketAddr.new (V4 5) 443; decided_domain := Some (str "example.com") |}, e2).
Proof.
  destruct (TunPolicyEngine.allocate_dns 1000 1 (str "Example.COM.") (V4 5) 60 10 routes) as [[r e']| |] eqn:Hrun;
    [|by vm_compute in Hrun..].
  assert (r = Ok (V4 FIRST_IPV4)) as ->.
  { change (match Ret (r, e') with Ret (r, _) => r | _ => r end = Ok (V4 FIRST_IPV4)). rewrite <-Hrun. by vm_compute. }
  destruct (tun_route_restores 1000 1 (str "Example.COM.") (str "example.com") (V4 5) 60 10 20 fake routes
    (V4 FIRST_IPV4) e') as (Hroute & _).
  - by apply (table_new _ 1 2).
  - reflexivity.
  - vm_compute. discriminate.
  - exact Hrun.
  - reflexivity.
  - destruct (Hroute eq_refl) as (e2 & Hd). exists e', e2. split; [reflexivity|]. rewrite Hd. by vm_compute.
Defined.
End TunExamples.
