(* ===== verification/Proxy.v ===== *)
(** The loopback proxy ([velum-adapter-proxy]): targets and their textual
    forms, the rewriting of absolute-form HTTP requests, the SOCKS5 and HTTP
    handshakes, and what one connection does once its target is known. *)
From S2P Require Import Prelude Net Str Utf8 IpText Routing.

(** The kind of an [io::Error]. *)
Inductive IoError :=
| InvalidInput
| InvalidData
| PermissionDenied
| NotConnected
| Unsupported
| UnexpectedEof
| OtherError.

Definition io_ok_or {A} (o : option A) (e : IoError) : result A IoError :=
  match o with Some a => Ok a | None => Err e end.

(** ** Targets *)
Inductive ProxyTarget :=
| Address (address : SocketAddr)
| DomainTarget (host : Str) (port : N).

(** An ASCII letter or digit, as a character or as a byte of a text. *)
Definition host_char (c : Char) : bool :=
  is_ascii_alphanumeric c || (c =? 45) || (c =? 46) || (c =? 95).

Definition validate_hostname (host : Str) : result unit IoError :=
  if is_empty host || (253 <? utf8_len host) || starts_with 46 host || ends_with 46 host
     || existsb (fun label => is_empty label || (63 <? utf8_len label)) (split 46 host)
     || negb (forallb host_char host)
  then Err InvalidInput else Ok tt.

Definition valid_address (address : SocketAddr) : result ProxyTarget IoError :=
  if SocketAddr.port address =? 0 then Err InvalidInput else Ok (Address address).

Module ProxyTarget.
Definition domain (self : ProxyTarget) : option Str :=
  match self with Address _ => None | DomainTarget host _ => Some host end.

Definition from_host_port (host : list byte) (port : N) : result ProxyTarget IoError :=
  if port =? 0 then Err InvalidInput
  else
    let? host := io_ok_or (Utf8.decode host) InvalidInput in
    let? _ := validate_hostname host in
    Ok (DomainTarget host port).

Definition from_authority (authority : Str) : result ProxyTarget IoError :=
  match IpParser.parse_socket authority with
  | Some address => Ok (Address address)
  | None =>
    let? parts := io_ok_or (rsplit_once 58 authority) InvalidInput in
    if contains 58 parts.1 then Err InvalidInput
    else
      let? port := io_ok_or (parse_uint U16_MAX parts.2) InvalidInput in
      from_host_port (Utf8.encode parts.1) port
  end.

Definition from_http_authority (authority : Str) : result ProxyTarget IoError :=
  if starts_with 91 authority then
    let? parts := io_ok_or (split_once 93 authority) InvalidInput in
    let? ip := io_ok_or (IpParser.parse (drop 1 parts.1)) InvalidInput in
    let? port :=
      if is_empty parts.2 then Ok 80
      else
        let? value := io_ok_or (strip_prefix [58] parts.2) InvalidInput in
        io_ok_or (parse_uint U16_MAX value) InvalidInput in
    valid_address (SocketAddr.new ip port)
  else if contains 58 authority then from_authority authority
  else
    match IpParser.parse authority with
    | Some ip => valid_address (SocketAddr.new ip 80)
    | None => from_host_port (Utf8.encode authority) 80
    end.
End ProxyTarget.

(** ** Absolute-form HTTP requests *)
Record ForwardRequest := { forward_target : ProxyTarget; forward_head : list byte }.

Definition token_char (c : Char) : bool :=
  is_ascii_alphanumeric c || existsb (fun d => c =? d) (str "!#$%&'*+-.^_`|~").
Definition is_token (value : Str) : bool := negb (is_empty value) && forallb token_char value.

(** [find] of the first character among some. *)
Fixpoint span_until (f : Char -> bool) (s : Str) : Str * Str :=
  match s with
  | [] => ([], [])
  | c :: s' => if f c then ([], s) else let '(a, b) := span_until f s' in (c :: a, b)
  end.

Definition split_absolute_http_uri (uri : Str) : result (Str * Str) IoError :=
  if negb (eq_ignore_ascii_case (take 7 uri) (str "http://")) then Err InvalidInput
  else
    let '(authority, suffix) :=
      span_until (fun c => (c =? 47) || (c =? 63) || (c =? 35)) (drop 7 uri) in
    if is_empty authority || contains 64 authority then Err InvalidInput
    else if contains 35 suffix then Err InvalidInput
    else
      match suffix with
      | [] => Ok (authority, [47])
      | c :: _ =>
        if c =? 63 then Ok (authority, 47 :: suffix)
        else if c =? 47 then Ok (authority, suffix)
        else Err InvalidInput
      end.

Definition is_ascii_control (c : Char) : bool := (c <? 32) || (c =? 127).

Definition is_connection (name : Str) : bool :=
  eq_ignore_ascii_case name (str "connection") || eq_ignore_ascii_case name (str "proxy-connection").

(** The tokens a [Connection] header lists. *)
Definition tokens_of (value : Str) : list Str :=
  to_ascii_lowercase <$> filter (fun v => is_empty v = false) (trim <$> split 44 value).

(** The loop over the header lines: the headers and the connection tokens. *)
Fixpoint parse_headers (lines : list Str) : result (list (Str * Str) * list Str) IoError :=
  match lines with
  | [] => Ok ([], [])
  | line :: lines =>
    if starts_with 32 line || starts_with 9 line then Err InvalidInput
    else
      let? header := io_ok_or (split_once 58 line) InvalidInput in
      if negb (is_token header.1)
         || existsb (fun c => is_ascii_control c && negb (c =? 9)) header.2
      then Err InvalidInput
      else
        let tokens := if is_connection header.1 then tokens_of header.2 else [] in
        let? rest := parse_headers lines in
        Ok ((header.1, trim header.2) :: rest.1, tokens ++ rest.2)
  end.

(** A header that is not passed on. *)
Definition hop_by_hop (connection_tokens : list Str) (name : Str) : bool :=
  eq_ignore_ascii_case name (str "host") || is_connection name
  || eq_ignore_ascii_case name (str "proxy-authorization")
  || eq_ignore_ascii_case name (str "keep-alive")
  || existsb (fun token => eq_ignore_ascii_case name token) connection_tokens.

Definition crlf : Str := [13; 10].

Definition rewrite_head (method origin_form version authority : Str)
    (headers : list (Str * Str)) (connection_tokens : list Str) : Str :=
  method ++ [32] ++ origin_form ++ [32] ++ version ++ crlf ++
  str "Host: " ++ authority ++ crlf ++ str "Connection: close" ++ crlf ++
  concat ((fun header => header.1 ++ str ": " ++ header.2 ++ crlf) <$>
            filter (fun header => hop_by_hop connection_tokens header.1 = false) headers) ++ crlf.

Definition parse_forward_request (head : list byte) : result ForwardRequest IoError :=
  let? text := io_ok_or (Utf8.decode head) InvalidInput in
  let? text := io_ok_or (strip_suffix [13; 10; 13; 10] text) InvalidInput in
  match split_crlf text with
  | [] => Err InvalidInput
  | request_line :: lines =>
    match split 32 request_line with
    | [method; uri; version] =>
      if negb (is_token method) then Err InvalidInput
      else if negb (str_eqb version (str "HTTP/1.0") || str_eqb version (str "HTTP/1.1"))
      then Err InvalidInput
      else
        let? parts := split_absolute_http_uri uri in
        let? target := ProxyTarget.from_http_authority parts.1 in
        let? headers := parse_headers lines in
        Ok {| forward_target := target;
              forward_head :=
                Utf8.encode (rewrite_head method parts.2 version parts.1 headers.1 headers.2) |}
    | _ => Err InvalidInput  (* a field is missing, or there is a fourth one *)
    end
  end.

(** ** The handshake

    A client's connection is the bytes it has still to send, after which it
    ends, and how many bytes it still takes, after which writing to it fails;
    what the proxy does is recorded in order. *)
Inductive ProxyEvent :=
| ToLocal (bytes : list byte)
| Lookup (host : Str) (port : N)
| ConnectDirect (target : SocketAddr)
| OpenStream (reference : Str) (target : SocketAddr)
| ToRemote (bytes : list byte)
| Relay.

Record Local := { input : list byte; room : N; events : list ProxyEvent }.
Definition P (A : Type) : Type := M Local IoError A.

Definition emit (event : ProxyEvent) : P unit :=
  modify (fun s => {| input := input s; room := room s; events := events s ++ [event] |}).
(** [local.write_all(bytes)]: what the connection takes of the bytes has gone out
    even when the call fails. *)
Definition write_local (bytes : list byte) : P unit :=
  let! s := get in
  emit (ToLocal (prefix_to (room s) bytes)) ;!
  modify (fun s => {| input := input s; room := room s - len bytes; events := events s |}) ;!
  reject_if (room s <? len bytes) OtherError.
Definition read_exact (n : N) : P (list byte) :=
  let! s := get in
  reject_if (len (input s) <? n) UnexpectedEof ;!
  modify (fun s => {| input := suffix_from n (input s); room := room s; events := events s |}) ;!
  ret (prefix_to n (input s)).
Definition lift_io {A} (r : result A IoError) : P A := lift_result id r.

Definition MAX_HANDSHAKE_BYTES : N := 16 * 1024.

Inductive ConnectProtocol := HttpConnect | HttpForward (head : list byte) | Socks5.
Definition forward_head_of (self : ConnectProtocol) : option (list byte) :=
  match self with HttpForward head => Some head | HttpConnect | Socks5 => None end.

Record ProxyRequest := { request_target : ProxyTarget; request_protocol : ConnectProtocol }.

Definition read_socks5_target : P ProxyTarget :=
  let! count := read_exact 1 in
  let! methods := read_exact (from_be_bytes count) in
  reject_if (negb (existsb (Byte.eqb x00) methods)) PermissionDenied ;!
  write_local [x05; x00] ;!
  let! request := read_exact 4 in
  reject_if (negb (bool_decide (prefix_to 3 request = [x05; x01; x00]))) InvalidInput ;!
  let kind := from_be_bytes (suffix_from 3 request) in
  let! address :=
    if kind =? 1 then
      let! value := read_exact 4 in ret (Address (SocketAddr.new (V4 (from_be_bytes value)) 0))
    else if kind =? 4 then
      let! value := read_exact 16 in ret (Address (SocketAddr.new (V6 (from_be_bytes value)) 0))
    else if kind =? 3 then
      let! length := read_exact 1 in
      let! host := read_exact (from_be_bytes length) in
      let! host := lift_io (io_ok_or (Utf8.decode host) InvalidInput) in
      ret (DomainTarget host 0)
    else throw InvalidInput in
  let! port := read_exact 2 in
  let port := from_be_bytes port in
  match address with
  | Address address => ret (Address (SocketAddr.new (SocketAddr.ip address) port))
  | DomainTarget host _ => lift_io (ProxyTarget.from_host_port (Utf8.encode host) port)
  end.

(** [request.ends_with(b"\r\n\r\n")] *)
Definition head_complete (request : list byte) : bool :=
  bool_decide (drop (length request - 4) request = [x0d; x0a; x0d; x0a]).

(** The loop of [read_http_request]: it reads a byte at a time until the head
    is complete or too long. *)
Fixpoint read_head (fuel : nat) (request : list byte) : P (list byte) :=
  if head_complete request then ret request
  else if len request =? MAX_HANDSHAKE_BYTES then throw InvalidData
  else
    match fuel with
    | O => out_of_fuel
    | S fuel =>
      let! b := read_exact 1 in
      read_head fuel (request ++ b)
    end.

Definition HANDSHAKE_FUEL : nat := N.to_nat MAX_HANDSHAKE_BYTES.

Definition parse_http_request (request : list byte) : result ProxyRequest IoError :=
  let? head := io_ok_or (Utf8.decode request) InvalidData in
  match split_whitespace head with
  | method :: authority :: parts =>
    if eq_ignore_ascii_case method (str "CONNECT") then
      match parts with
      | [version] =>
        if str_eqb version (str "HTTP/1.0") || str_eqb version (str "HTTP/1.1") then
          let? target := ProxyTarget.from_authority authority in
          Ok {| request_target := target; request_protocol := HttpConnect |}
        else Err InvalidInput
      | _ => Err InvalidInput  (* no version, or something after it *)
      end
    else
      let? forward := parse_forward_request request in
      Ok {| request_target := forward_target forward;
            request_protocol := HttpForward (forward_head forward) |}
  | _ => Err InvalidInput
  end.

Definition read_http_request (first : byte) : P ProxyRequest :=
  let! request := read_head HANDSHAKE_FUEL [first] in
  lift_io (parse_http_request request).

Definition read_request : P ProxyRequest :=
  let! first := read_exact 1 in
  match first with
  | b :: _ =>
    if Byte.eqb b x05 then
      let! target := read_socks5_target in
      ret {| request_target := target; request_protocol := Socks5 |}
    else read_http_request b
  | [] => panic  (* a read of one byte returns one *)
  end.

(** ** Serving one connection *)
Definition bytes_of (s : Str) : list byte := Utf8.encode s.

Definition write_success (protocol : ConnectProtocol) : P unit :=
  match protocol with
  | HttpConnect =>
    write_local (bytes_of (str "HTTP/1.1 200 Connection Established" ++ crlf ++ crlf))
  | Socks5 => write_local [x05; x00; x00; x01; x00; x00; x00; x00; x00; x00]
  | HttpForward _ => ret tt
  end.

Definition write_rejected (protocol : ConnectProtocol) : P unit :=
  match protocol with
  | HttpConnect | HttpForward _ =>
    write_local (bytes_of (str "HTTP/1.1 403 Forbidden" ++ crlf ++ str "Content-Length: 0" ++ crlf ++ crlf))
  | Socks5 => write_local [x05; x02; x00; x01; x00; x00; x00; x00; x00; x00]
  end.

Inductive ProxyRuntime := Single | Pool.

(** What the outside answers: the resolver, which fails or has a first address
    or none, the direct connection, the tunnel, whether its generation is
    still online afterwards, how many bytes of the head the other end takes
    before writing to it fails, and how the copying both ways ends. *)
Record ServeIo := {
  resolved : option (option SocketAddr);
  direct_ok : bool;
  stream_ok : bool;
  generation_online : bool;
  remote_room : N;
  relay_result : result unit IoError
}.

Definition resolve (io : ServeIo) (self : ProxyTarget) : P SocketAddr :=
  match self with
  | Address address => ret address
  | DomainTarget host port =>
    emit (Lookup host port) ;!
    match resolved io with
    | None => throw OtherError
    | Some addresses => lift_io (io_ok_or addresses InvalidInput)
    end
  end.

(** [write_all] to the other end. *)
Definition write_remote (io : ServeIo) (head : list byte) : P unit :=
  emit (ToRemote (prefix_to (remote_room io) head)) ;!
  reject_if (remote_room io <? len head) OtherError.

(** Acknowledges the request, passes the rewritten head on and relays, which
    are the same calls in [serve] and in [relay_stream]. *)
Definition relay (io : ServeIo) (protocol : ConnectProtocol) : P unit :=
  write_success protocol ;!
  match forward_head_of protocol with
  | Some head => write_remote io head
  | None => ret tt
  end ;!
  emit Relay ;!
  lift_io (relay_result io).

Definition relay_proxy (io : ServeIo) (runtime : ProxyRuntime) (reference : Str)
    (target : SocketAddr) (protocol : ConnectProtocol) : P unit :=
  match runtime with
  | Single =>
    if str_eqb reference (str "PROXY") then
      emit (OpenStream reference target) ;!
      reject_if (negb (stream_ok io)) OtherError ;!
      reject_if (negb (generation_online io)) NotConnected
    else throw Unsupported
  | Pool =>
    emit (OpenStream reference target) ;!
    reject_if (negb (stream_ok io)) OtherError
  end ;!
  relay io protocol.

Definition route_context (target : ProxyTarget) (address : SocketAddr) : RouteContext :=
  {| domain := ProxyTarget.domain target; destination := SocketAddr.ip address;
     destination_port := SocketAddr.port address |}.

(** The match of [serve] on the decision. *)
Definition follow (io : ServeIo) (runtime : ProxyRuntime) (decision : RoutingAction)
    (target : SocketAddr) (protocol : ConnectProtocol) : P unit :=
  match decision with
  | Direct =>
    emit (ConnectDirect target) ;!
    reject_if (negb (direct_ok io)) OtherError ;!
    relay io protocol
  | Proxy => relay_proxy io runtime (str "PROXY") target protocol
  | Reject => write_rejected protocol ;! throw PermissionDenied
  | Node node => relay_proxy io runtime node target protocol
  end.

Definition serve (io : ServeIo) (runtime : ProxyRuntime) (policy : RoutingPolicy) : P unit :=
  let! request := read_request in
  let! target := resolve io (request_target request) in
  follow io runtime
    (RoutingPolicy.decide policy (route_context (request_target request) target))
    target (request_protocol request).

(** ** Targets are valid *)
Definition target_ok (t : ProxyTarget) : Prop :=
  match t with
  | Address a => SocketAddr.wf a
  | DomainTarget host port => validate_hostname host = Ok tt /\ 0 < port <= U16_MAX
  end.

Lemma io_ok_or_Ok {A} (o : option A) e a : io_ok_or o e = Ok a <-> o = Some a.
Proof. destruct o; cbn; split; congruence. Qed.

Lemma from_host_port_ok host port t :
  port <= U16_MAX -> ProxyTarget.from_host_port host port = Ok t -> target_ok t.
Proof.
  intros Hp. unfold ProxyTarget.from_host_port. destruct (N.eqb_spec port 0); [done|].
  intros (h & Hd & (u & Hv & [= <-])%and_then_Ok)%and_then_Ok. cbn. destruct u. split; [done|lia].
Qed.

Lemma read_unlimited_bound max s v s' : IpParser.read_unlimited max s = Some (v, s') -> v <= max.
Proof. apply read_number_bound. Qed.
Lemma read_port_bound s p s' : IpParser.read_port s = Some (p, s') -> u16 p.
Proof.
  unfold IpParser.read_port. destruct (IpParser.read_given_char 58 s) as [[? ?]|]; [|done].
  apply read_unlimited_bound.
Qed.

Lemma parse_socket_wf s a : IpParser.parse_socket s = Some a -> SocketAddr.wf a.
Proof.
  unfold IpParser.parse_socket. destruct (IpParser.read_socket_addr_v4 s) as [[b r]|] eqn:H4.
  - destruct r; [|done]. intros [= <-]. unfold IpParser.read_socket_addr_v4 in H4.
    destruct (IpParser.read_ipv4_addr s) as [[n s1]|] eqn:Hn; [|done].
    destruct (IpParser.read_port s1) as [[p s2]|] eqn:Hp; [|done]. injection H4 as <- _.
    split; [by eapply read_ipv4_bound|by eapply read_port_bound].
  - destruct (IpParser.read_socket_addr_v6 s) as [[b r]|] eqn:H6; [|done].
    destruct r; [|done]. intros [= <-]. unfold IpParser.read_socket_addr_v6 in H6.
    destruct (IpParser.read_given_char 91 s) as [[? s1]|]; [|done].
    destruct (IpParser.read_ipv6_addr s1) as [[n s2]|] eqn:Hn; [|done].
    destruct (match IpParser.read_scope_id s2 with Some r => r | None => (0, s2) end) as [scope s3].
    destruct (IpParser.read_given_char 93 s3) as [[? s4]|]; [|done].
    destruct (IpParser.read_port s4) as [[p s5]|] eqn:Hp; [|done]. injection H6 as <- _.
    split; [by eapply read_ipv6_bound|by eapply read_port_bound].
Qed.

Lemma from_authority_ok s t : ProxyTarget.from_authority s = Ok t -> target_ok t.
Proof.
  unfold ProxyTarget.from_authority. destruct (IpParser.parse_socket s) as [a|] eqn:Ha.
  { intros [= <-]. by eapply parse_socket_wf. }
  intros (parts & _ & Hp)%and_then_Ok. destruct (contains 58 parts.1); [done|].
  apply and_then_Ok in Hp as (port & Hport%io_ok_or_Ok%parse_uint_bound & Hf).
  by eapply from_host_port_ok.
Qed.

Lemma valid_address_ok ip port t :
  wf_ip ip -> port <= U16_MAX -> valid_address (SocketAddr.new ip port) = Ok t -> target_ok t.
Proof.
  intros Hip Hp. unfold valid_address. destruct (_ =? 0); [done|]. intros [= <-].
  by destruct ip.
Qed.

Lemma from_http_authority_ok s t : ProxyTarget.from_http_authority s = Ok t -> target_ok t.
Proof.
  unfold ProxyTarget.from_http_authority. destruct (starts_with 91 s).
  - intros (parts & _ & (ip & Hip%io_ok_or_Ok%parse_wf & (port & Hport & Hv)%and_then_Ok)%and_then_Ok)%and_then_Ok.
    eapply valid_address_ok; [done| |exact Hv]. destruct (is_empty parts.2).
    + by injection Hport as <-.
    + apply and_then_Ok in Hport as (v & _ & Hport%io_ok_or_Ok%parse_uint_bound). done.
  - destruct (contains 58 s); [apply from_authority_ok|].
    destruct (IpParser.parse s) as [ip|] eqn:Hip.
    + apply valid_address_ok; [by eapply parse_wf|done].
    + by apply from_host_port_ok.
Qed.

Lemma forward_target_ok head r :
  parse_forward_request head = Ok r -> target_ok (forward_target r).
Proof.
  unfold parse_forward_request. intros (text & _ & (t & _ & H)%and_then_Ok)%and_then_Ok.
  destruct (split_crlf t) as [|line lines]; [done|].
  destruct (split 32 line) as [|m [|u [|v [|? ?]]]]; try done.
  destruct (negb (is_token m)); [done|]. destruct (negb _); [done|].
  apply and_then_Ok in H as (parts & _ & (target & Ht & (hs & _ & [= <-])%and_then_Ok)%and_then_Ok).
  by eapply from_http_authority_ok.
Qed.

Lemma parse_http_target_ok bytes r : parse_http_request bytes = Ok r -> target_ok (request_target r).
Proof.
  unfold parse_http_request. intros (h & _ & H)%and_then_Ok.
  destruct (split_whitespace h) as [|m [|a parts]]; [done..|].
  destruct (eq_ignore_ascii_case _ _).
  - destruct parts as [|v [|? ?]]; [done| |done]. destruct (_ || _); [|done].
    apply and_then_Ok in H as (t & Ht & [= <-]). by eapply from_authority_ok.
  - apply and_then_Ok in H as (f & Hf & [= <-]). by eapply forward_target_ok.
Qed.

(** ** Every handshake ends

    [reading m k Q]: from any state [m] returns, takes at most [k] bytes off
    the input, and a result satisfies [Q] with the bytes taken. *)
Definition reading {A} (m : P A) (k : N) (Q : A -> list byte -> Prop) : Prop :=
  forall s, exists r s' c, m s = Ret (r, s') /\ input s = c ++ input s' /\ len c <= k /\
    forall a, r = Ok a -> Q a c.

Lemma reading_ret {A} (a : A) k (Q : A -> list byte -> Prop) : Q a [] -> reading (ret a) k Q.
Proof.
  intros HQ s. exists (Ok a), s, []. split_and!; [done|done|apply N.le_0_l|]. by intros ? [= <-].
Qed.
Lemma reading_throw {A} e k (Q : A -> list byte -> Prop) : reading (throw e) k Q.
Proof. intros s. exists (Err e), s, []. split_and!; [done|done|apply N.le_0_l|done]. Qed.
Lemma reading_mono {A} (m : P A) k k' (Q Q' : A -> list byte -> Prop) :
  reading m k Q -> k <= k' -> (forall a c, Q a c -> Q' a c) -> reading m k' Q'.
Proof.
  intros Hm Hk HQ s. destruct (Hm s) as (r & s' & c & ? & ? & ? & ?). exists r, s', c.
  split_and!; [done|done|lia|auto].
Qed.
Lemma reading_bind {A B} (m : P A) (f : A -> P B) k l (Q : A -> list byte -> Prop) (R : B -> list byte -> Prop) :
  reading m k Q -> (forall a c, Q a c -> reading (f a) l (fun b d => R b (c ++ d))) ->
  reading (bind m f) (k + l) R.
Proof.
  intros Hm Hf s. destruct (Hm s) as (r & s1 & c & Hrun & Hi & Hc & HQ). unfold bind. rewrite Hrun.
  destruct r as [a|e].
  - destruct (Hf a c (HQ a eq_refl) s1) as (r & s2 & d & Hrun2 & Hi2 & Hd & HR).
    exists r, s2, (c ++ d). rewrite Hi, Hi2, len_app, app_assoc. split_and!; [done|done|lia|done].
  - exists (Err e), s1, c. split_and!; [done|done|lia|done].
Qed.
Lemma reading_read_exact n : reading (read_exact n) n (fun a c => a = c /\ len c = n).
Proof.
  intros s. unfold read_exact, bind, get, reject_if. destruct (N.ltb_spec (len (input s)) n).
  - exists (Err UnexpectedEof), s, []. split_and!; [done|done|change (len (@nil byte)) with 0; lia|done].
  - eexists (Ok _), _, (prefix_to n (input s)). split_and!; [done| | |].
    + cbn. by rewrite prefix_suffix.
    + by rewrite len_prefix_to.
    + intros a [= <-]. split; [done|by apply len_prefix_to].
Qed.
Lemma reading_write bytes : reading (write_local bytes) 0 (fun _ c => c = []).
Proof.
  intros s. unfold write_local, emit, bind, get, modify, reject_if, throw, ret.
  destruct (_ <? _); eexists _, _, []; by split_and!.
Qed.
Lemma reading_reject_if b e : reading (reject_if b e) 0 (fun _ c => b = false /\ c = []).
Proof. destruct b; [apply reading_throw|by apply reading_ret]. Qed.
Lemma reading_lift {A} (r : result A IoError) :
  reading (lift_io r) 0 (fun a c => r = Ok a /\ c = []).
Proof. destruct r; [by apply reading_ret|apply reading_throw]. Qed.

(** A step that reads, whose bytes the rest does not mention. *)
Lemma reading_then {A B} (m : P A) (f : A -> P B) k l n (Q : A -> list byte -> Prop) (R : B -> Prop) :
  reading m k Q -> (forall a c, Q a c -> reading (f a) l (fun b _ => R b)) -> k + l <= n ->
  reading (bind m f) n (fun b _ => R b).
Proof.
  intros Hm Hf Hn. apply (reading_mono _ (k + l) n (fun b _ => R b)); [|exact Hn|done].
  by apply (reading_bind m f k l Q (fun b _ => R b)).
Qed.

Lemma from_be_bytes_width c n k : len c = n -> 256 ^ n = k + 1 -> from_be_bytes c <= k.
Proof. intros Hc Hk. pose proof (from_be_bytes_bound c) as H. rewrite Hc, Hk in H. lia. Qed.

Definition socks_address (t : ProxyTarget) : Prop :=
  match t with Address a => wf_ip (SocketAddr.ip a) | DomainTarget _ _ => True end.

Lemma reading_socks_address kind :
  reading (
    if kind =? 1 then
      let! value := read_exact 4 in ret (Address (SocketAddr.new (V4 (from_be_bytes value)) 0))
    else if kind =? 4 then
      let! value := read_exact 16 in ret (Address (SocketAddr.new (V6 (from_be_bytes value)) 0))
    else if kind =? 3 then
      let! length := read_exact 1 in
      let! host := read_exact (from_be_bytes length) in
      let! host := lift_io (io_ok_or (Utf8.decode host) InvalidInput) in
      ret (DomainTarget host 0)
    else throw InvalidInput) 256 (fun t _ => socks_address t).
Proof.
  destruct (kind =? 1); [|destruct (kind =? 4); [|destruct (kind =? 3)]].
  - apply (reading_then _ _ 4 0 256 _ _ (reading_read_exact 4)); [|done].
    intros v c [-> Hc]. apply reading_ret. by apply (from_be_bytes_width c 4).
  - apply (reading_then _ _ 16 0 256 _ _ (reading_read_exact 16)); [|done].
    intros v c [-> Hc]. apply reading_ret. by apply (from_be_bytes_width c 16).
  - apply (reading_then _ _ 1 255 256 _ _ (reading_read_exact 1)); [|done].
    intros v c [-> Hc]. pose proof (from_be_bytes_width c 1 255 Hc eq_refl).
    apply (reading_then _ _ _ 0 255 _ _ (reading_read_exact _)); [|lia].
    intros h d _. apply (reading_then _ _ 0 0 0 _ _ (reading_lift _)); [|done].
    intros host e _. by apply reading_ret.
  - apply reading_throw.
Qed.

Lemma reading_socks5 : reading read_socks5_target 518 (fun t _ => target_ok t).
Proof.
  unfold read_socks5_target.
  apply (reading_then _ _ 1 517 518 _ _ (reading_read_exact 1)); [|done].
  intros count c [-> Hc]. pose proof (from_be_bytes_width c 1 255 Hc eq_refl).
  apply (reading_then _ _ _ 262 517 _ _ (reading_read_exact _)); [|lia].
  intros methods d _. apply (reading_then _ _ 0 262 262 _ _ (reading_reject_if _ _)); [|done].
  intros [] e _. apply (reading_then _ _ 0 262 262 _ _ (reading_write _)); [|done].
  intros [] g _. apply (reading_then _ _ 4 258 262 _ _ (reading_read_exact 4)); [|done].
  intros request h _. apply (reading_then _ _ 0 258 258 _ _ (reading_reject_if _ _)); [|done].
  intros [] i _. apply (reading_then _ _ 256 2 258 _ _ (reading_socks_address _)); [|done].
  intros address j Ha. apply (reading_then _ _ 2 0 2 _ _ (reading_read_exact 2)); [|done].
  intros port k [-> Hk]. pose proof (from_be_bytes_width k 2 U16_MAX Hk eq_refl).
  destruct address as [a|host p].
  - apply reading_ret. cbn in *. by destruct a.
  - eapply reading_mono; [apply reading_lift|done|]. intros t ? [Ht _].
    by eapply from_host_port_ok.
Qed.

(** The head of an HTTP request ends at its first blank line. *)
Definition first_complete (request c : list byte) : Prop :=
  head_complete (request ++ c) = true /\
  forall p q, c = p ++ q -> q <> [] -> head_complete (request ++ p) = false.

Lemma reading_head fuel request :
  len request <= MAX_HANDSHAKE_BYTES -> MAX_HANDSHAKE_BYTES - len request < N.of_nat fuel ->
  reading (read_head fuel request) (MAX_HANDSHAKE_BYTES - len request)
    (fun a c => a = request ++ c /\ first_complete request c).
Proof.
  revert request. induction fuel as [|fuel IH]; intros request Hlen Hfuel; [lia|].
  cbn [read_head]. destruct (head_complete request) eqn:Hdone.
  { apply reading_ret. rewrite app_nil_r. split; [done|]. split; [by rewrite app_nil_r|].
    intros p q Hpq Hq. by destruct p, q. }
  destruct (N.eqb_spec (len request) MAX_HANDSHAKE_BYTES) as [|Hne]; [apply reading_throw|].
  eapply reading_mono;
    [apply (reading_bind _ _ 1 (MAX_HANDSHAKE_BYTES - len request - 1) _
      (fun a c => a = request ++ c /\ first_complete request c) (reading_read_exact 1))|lia|done].
  intros b c [-> Hc]. assert (len (request ++ c) = len request + 1) as Hl by (rewrite len_app; lia).
  eapply reading_mono; [apply (IH (request ++ c))|rewrite Hl; lia|]; [rewrite Hl; lia..|].
  intros a d [-> [Hcomplete Hfirst]]. unfold first_complete. rewrite <-app_assoc in *.
  split; [done|]. split; [done|]. intros p q Hpq Hq. destruct p as [|x p]; [by rewrite app_nil_r|].
  destruct c as [|y [|z c]]; [done| |unfold len in Hc; cbn in Hc; lia].
  cbn [app] in Hpq. injection Hpq as <- Hpq. specialize (Hfirst p q Hpq Hq).
  by rewrite <-app_assoc in Hfirst.
Qed.

Lemma reading_request :
  reading read_request MAX_HANDSHAKE_BYTES (fun request taken =>
    target_ok (request_target request) /\
    (request_protocol request <> Socks5 ->
     parse_http_request taken = Ok request /\ first_complete [] taken)).
Proof.
  apply (reading_mono read_request (1 + (MAX_HANDSHAKE_BYTES - 1)) MAX_HANDSHAKE_BYTES
    (fun request taken => target_ok (request_target request) /\
       (request_protocol request <> Socks5 ->
        parse_http_request taken = Ok request /\ first_complete [] taken)));
    [|unfold MAX_HANDSHAKE_BYTES; lia|done].
  unfold read_request. eapply reading_bind; [apply (reading_read_exact 1)|].
  intros first c [-> Hc]. destruct c as [|b [|? ?]]; [done| |unfold len in Hc; cbn in Hc; lia].
  destruct (Byte.eqb b x05).
  - eapply reading_mono; [apply (reading_bind _ _ 518 0 _ (fun request _ =>
      target_ok (request_target request) /\ request_protocol request = Socks5) reading_socks5)|done|].
    + intros t d Ht. by apply reading_ret.
    + intros request d [Ht ->]. done.
  - unfold read_http_request. eapply reading_mono;
      [apply (reading_bind _ _ (MAX_HANDSHAKE_BYTES - 1) 0 _ (fun request d =>
         parse_http_request (b :: d) = Ok request /\ first_complete [] (b :: d))
         (reading_head HANDSHAKE_FUEL [b] ltac:(done) ltac:(done)))|done|].
    + intros head d [-> [Hcomplete Hfirst]]. eapply reading_mono; [apply reading_lift|done|].
      intros request e [Hr ->]. rewrite app_nil_r. cbn [app] in *. split; [done|]. split; [done|].
      intros p q Hpq Hq. destruct p as [|x p]; [done|]. cbn [app] in Hpq. injection Hpq as <- Hpq.
      by apply (Hfirst p q).
    + intros request d [Hr Hd]. split; [by eapply parse_http_target_ok|]. by intros _.
Qed.

(** C12. Every handshake ends, whatever the client sends and however it stops:
    it takes at most 16 KiB off the connection, it leaves a valid target or an
    error, and an HTTP request is taken up to its first blank line and no
    further, so the body that follows stays in the connection. *)
Theorem handshake_terminates s :
  exists r s' taken,
    read_request s = Ret (r, s') /\ input s = taken ++ input s' /\
    len taken <= MAX_HANDSHAKE_BYTES /\
    forall request, r = Ok request ->
      target_ok (request_target request) /\
      (request_protocol request <> Socks5 ->
       parse_http_request taken = Ok request /\ first_complete [] taken).
Proof. exact (reading_request s). Qed.

(** ** The head passed on *)
Lemma split_inv sep s w ws :
  split sep s = w :: ws ->
  (ws = [] /\ s = w) \/ exists rest, s = w ++ sep :: rest /\ split sep rest = ws.
Proof.
  revert w ws. induction s as [|c s IH]; intros w ws; cbn [split].
  { intros [= <- <-]. by left. }
  destruct (N.eqb_spec c sep) as [->|Hc].
  - intros [= <- <-]. right. by exists s.
  - destruct (split sep s) as [|w' ws'] eqn:Hs; [|intros [= <- <-]].
    + intros [= <- <-]. destruct s as [|d s]; [done|]. cbn in Hs.
      destruct (d =? sep); [done|]. by destruct (split sep s).
    + destruct (IH w' ws' eq_refl) as [[-> ->]|(rest & -> & Hr)]; [by left|right; by exists rest].
Qed.
Lemma split_three sep s a b c :
  split sep s = [a; b; c] -> s = a ++ sep :: b ++ sep :: c.
Proof.
  intros [[? ?]|(r & -> & [[? ?]|(r' & -> & [[_ ->]|(r'' & _ & H)]%split_inv)]%split_inv)]%split_inv;
    [done..|]. destruct r''; cbn in H; [done|]. by destruct (_ =? _), (split sep r'').
Qed.

Lemma span_until_app f s a b : span_until f s = (a, b) -> s = a ++ b.
Proof.
  revert a b. induction s as [|c s IH]; intros a b; cbn; [by intros [= <- <-]|].
  destruct (f c); [by intros [= <- <-]|]. destruct (span_until f s) as [a' b'].
  intros [= <- <-]. cbn. by rewrite (IH a' b').
Qed.

Lemma split_uri_free uri authority origin :
  crlf_free uri = true -> split_absolute_http_uri uri = Ok (authority, origin) ->
  crlf_free authority = true /\ crlf_free origin = true.
Proof.
  intros Hfree. unfold split_absolute_http_uri. destruct (negb _); [done|].
  destruct (span_until _ _) as [a suffix] eqn:Hs. apply span_until_app in Hs.
  rewrite <-(take_drop 7 uri) in Hfree. apply crlf_free_r in Hfree. rewrite Hs in Hfree.
  pose proof (crlf_free_l _ _ Hfree) as Ha. apply crlf_free_r in Hfree.
  destruct (_ || _); [done|]. destruct (contains 35 suffix); [done|].
  destruct suffix as [|c suffix]; [by intros [= <- <-]|].
  destruct (c =? 63); [intros [= <- <-]; split; [done|exact Hfree]|].
  destruct (c =? 47); [by intros [= <- <-]|done].
Qed.

(** A header that is well formed: a token, and a value without controls. *)
Definition header_ok (header : Str * Str) : Prop :=
  is_token header.1 = true /\
  Forall (fun c => is_ascii_control c = true -> c = 9) header.2.

(** A [Connection] header among the lines lists the token. *)
Definition listed (lines : list Str) (token : Str) : Prop :=
  exists line name value, line ∈ lines /\ split_once 58 line = Some (name, value) /\
    is_connection name = true /\ token ∈ tokens_of value.

(** The headers and tokens are those of the lines. *)
Lemma parse_headers_spec lines headers tokens :
  parse_headers lines = Ok (headers, tokens) ->
  Forall header_ok headers /\
  Forall2 (fun line header => exists value,
    split_once 58 line = Some (header.1, value) /\ header.2 = trim value) lines headers /\
  forall token, token ∈ tokens <-> listed lines token.
Proof.
  revert headers tokens. induction lines as [|line lines IH]; intros headers tokens; cbn [parse_headers].
  { intros [= <- <-]. split_and!; [done|done|]. intros token. rewrite elem_of_nil. split; [done|].
    by intros (line & _ & _ & H%elem_of_nil & _). }
  destruct (_ || _); [done|]. intros ([n v] & Hl%io_ok_or_Ok & H)%and_then_Ok. cbn [fst snd] in H.
  destruct (negb (is_token n) || _) eqn:Hbad; [done|].
  apply orb_false_iff in Hbad as [Hn%negb_false_iff Hctl].
  apply and_then_Ok in H as ([hs ts] & Hrest & [= <- <-]).
  destruct (IH hs ts Hrest) as (Hok & Hlines & Htok). split_and!.
  - constructor; [|done]. split; [done|]. cbn. apply Forall_forall. intros c Hc%trim_sub Hctrl.
    destruct (N.eqb_spec c 9) as [|Hne]; [done|].
    enough (existsb (fun c => is_ascii_control c && negb (c =? 9)) v = true) by congruence.
    apply existsb_exists. exists c. split; [by apply list_elem_of_In|].
    by rewrite Hctrl, (proj2 (N.eqb_neq _ _) Hne).
  - constructor; [|done]. by exists v.
  - intros token. rewrite elem_of_app, Htok. split.
    + intros [Ht|(line' & name & value & Hin & H)].
      * destruct (is_connection n) eqn:Hconn; [|by apply elem_of_nil in Ht].
        exists line, n, v. split_and!; [by left|done..].
      * exists line', name, value. split; [by right|done].
    + intros (line' & name & value & [->|Hin]%elem_of_cons & Hs & Hconn & Ht).
      * left. rewrite Hl in Hs. injection Hs as <- <-. by rewrite Hconn.
      * right. by exists line', name, value.
Qed.

Lemma token_no_controls s : is_token s = true -> Forall (fun c => is_ascii_control c = false) s.
Proof.
  unfold is_token. intros [_ Hall]%andb_true_iff. rewrite forallb_forall in Hall.
  apply Forall_forall. intros c Hc%list_elem_of_In%Hall. unfold is_ascii_control.
  destruct (N.ltb_spec c 32) as [Hlt|]; cbn [orb].
  - exfalso. assert (forall k, c = N.of_nat k -> (k < 32)%nat -> token_char c = false) as Hno.
    { intros k -> Hk. do 32 (destruct k as [|k]; [reflexivity|]). lia. }
    rewrite (Hno (N.to_nat c)) in Hc by lia. done.
  - apply N.eqb_neq. by intros ->.
Qed.

Lemma no_cr_token s : is_token s = true -> 13 ∉ s.
Proof. intros H%token_no_controls Hin. rewrite Forall_forall in H. by apply H in Hin. Qed.

Definition header_line (header : Str * Str) : Str := header.1 ++ str ": " ++ header.2.

Lemma header_line_free header : header_ok header -> crlf_free (header_line header) = true.
Proof.
  intros [Hn Hv]. apply crlf_free_plain. unfold header_line. rewrite !not_elem_of_app.
  change (str ": ") with [58; 32]. split_and!; [by apply no_cr_token|set_solver|].
  intros Hin. rewrite Forall_forall in Hv. specialize (Hv 13 Hin eq_refl). done.
Qed.

Lemma split_headers headers :
  Forall header_ok headers ->
  split_crlf (concat ((fun header => header.1 ++ str ": " ++ header.2 ++ crlf) <$> headers) ++ crlf) =
  (header_line <$> headers) ++ [[]; []].
Proof.
  induction 1 as [|h hs Hh Hhs IH]; [done|]. rewrite !fmap_cons. cbn [concat].
  replace (((h.1 ++ str ": " ++ h.2 ++ crlf) ++ concat _) ++ crlf) with
    (header_line h ++ 13 :: 10 :: concat ((fun header => header.1 ++ str ": " ++ header.2 ++ crlf) <$> hs) ++ crlf)
    by (unfold header_line, crlf; by rewrite <-!app_assoc).
  rewrite split_crlf_line by by apply header_line_free. by rewrite IH.
Qed.

Lemma split_rewritten method origin version authority headers tokens :
  crlf_free origin = true -> crlf_free authority = true -> is_token method = true ->
  13 ∉ version -> Forall header_ok headers ->
  split_crlf (rewrite_head method origin version authority headers tokens) =
  (method ++ 32 :: origin ++ 32 :: version) :: (str "Host: " ++ authority) ::
  str "Connection: close" ::
  (header_line <$> filter (fun header => hop_by_hop tokens header.1 = false) headers) ++ [[]; []].
Proof.
  intros Ho Ha Hm Hv Hh. unfold rewrite_head, crlf at 1 2 3.
  replace (method ++ _) with
    ((method ++ 32 :: origin ++ 32 :: version) ++ 13 :: 10 ::
     (str "Host: " ++ authority) ++ 13 :: 10 :: str "Connection: close" ++ 13 :: 10 ::
     concat ((fun header => header.1 ++ str ": " ++ header.2 ++ crlf) <$>
       filter (fun header => hop_by_hop tokens header.1 = false) headers) ++ crlf)
    by (rewrite <-!app_assoc; cbn [app]; by rewrite <-!app_assoc).
  rewrite split_crlf_line.
  2:{ rewrite crlf_free_app by done. rewrite (crlf_free_plain method) by by apply no_cr_token.
      change (crlf_free (32 :: origin ++ 32 :: version)) with (crlf_free (origin ++ 32 :: version)).
      rewrite crlf_free_app by done. rewrite Ho.
      change (crlf_free (32 :: version)) with (crlf_free version). by apply crlf_free_plain. }
  rewrite split_crlf_line.
  2:{ change (crlf_free (str "Host: " ++ authority)) with (crlf_free authority). done. }
  rewrite split_crlf_line by done. rewrite split_headers; [done|].
  apply Forall_forall. intros h [_ Hin]%list_elem_of_filter. rewrite Forall_forall in Hh. auto.
Qed.

(** What a forwarded request becomes: split at its line ends, the head
    passed on is a request line in origin form, the host of the target the
    proxy will connect to, [Connection: close], and headers of the request in
    their order, well formed, none of them of the proxy hop nor listed by a
    [Connection] header; every header of the request that is neither is there;
    and no line end was injected. *)
Theorem forward_request_rewritten head r :
  parse_forward_request head = Ok r ->
  exists text request_line lines method origin version authority headers kept out,
    Utf8.decode head = Some (text ++ crlf ++ crlf) /\ split_crlf text = request_line :: lines /\
    Forall2 (fun line header => exists value,
      split_once 58 line = Some (header.1, value) /\ header.2 = trim value) lines headers /\
    ProxyTarget.from_http_authority authority = Ok (forward_target r) /\
    forward_head r = Utf8.encode out /\
    split_crlf out =
      (method ++ 32 :: origin ++ 32 :: version) :: (str "Host: " ++ authority) ::
      str "Connection: close" :: (header_line <$> kept) ++ [[]; []] /\
    kept `sublist_of` headers /\ Forall header_ok kept /\
    (forall h, h ∈ kept -> h ∈ headers /\ hop_by_hop [] h.1 = false /\
       forall token, listed lines token -> eq_ignore_ascii_case h.1 token = false) /\
    (forall h, h ∈ headers -> h ∈ kept \/ hop_by_hop [] h.1 = true \/
       exists token, listed lines token /\ eq_ignore_ascii_case h.1 token = true).
Proof.
  unfold parse_forward_request. intros (full & Hd%io_ok_or_Ok & (text & Ht%io_ok_or_Ok & H)%and_then_Ok)%and_then_Ok.
  destruct (split_crlf text) as [|line lines] eqn:Hs; [done|].
  destruct (split 32 line) as [|m [|u [|v [|? ?]]]] eqn:Hl; try done.
  destruct (negb (is_token m)) eqn:Hm; [done|]. apply negb_false_iff in Hm.
  destruct (negb _) eqn:Hv; [done|]. apply negb_false_iff, orb_true_iff in Hv.
  apply and_then_Ok in H as ([authority origin] & Hp & (target & Htarget & ([headers tokens] & Hh & [= <-])%and_then_Ok)%and_then_Ok).
  cbn [fst snd forward_target forward_head] in *.
  apply split_three in Hl. pose proof (split_crlf_free text) as Hfree. rewrite Hs in Hfree.
  apply Forall_cons in Hfree as [Hline _]. rewrite Hl in Hline. apply crlf_free_r in Hline.
  rewrite app_comm_cons in Hline. apply crlf_free_l in Hline.
  change (crlf_free (32 :: u)) with (crlf_free u) in Hline.
  destruct (split_uri_free _ _ _ Hline Hp) as [Ha Ho].
  destruct (parse_headers_spec _ _ _ Hh) as (Hok & Hlines & Htok).
  apply strip_suffix_Some in Ht.
  exists text, line, lines, m, origin, v, authority, headers,
    (filter (fun header => hop_by_hop tokens header.1 = false) headers),
    (rewrite_head m origin v authority headers tokens).
  assert (forall h, hop_by_hop tokens h = hop_by_hop [] h ||
    existsb (fun token => eq_ignore_ascii_case h token) tokens) as Hhop
    by (intros h; unfold hop_by_hop; cbn [existsb]; by rewrite orb_false_r).
  split_and!; try done.
  - by rewrite Hd, Ht.
  - apply split_rewritten; try done. unfold str_eqb in Hv. rewrite !bool_decide_eq_true in Hv.
    destruct Hv as [->| ->]; vm_compute; set_solver.
  - apply sublist_filter.
  - apply Forall_forall. intros h [_ Hin]%list_elem_of_filter. rewrite Forall_forall in Hok. auto.
  - intros h [Hf Hin]%list_elem_of_filter. rewrite Hhop in Hf. apply orb_false_iff in Hf as [Hf Hn].
    split_and!; [done|done|]. intros token Htoken%Htok. apply not_true_is_false. intros Heq.
    enough (existsb (fun token => eq_ignore_ascii_case h.1 token) tokens = true) by congruence.
    apply existsb_exists. exists token. by rewrite <-list_elem_of_In.
  - intros h Hin. destruct (hop_by_hop tokens h.1) eqn:Hf; [right|left; by apply list_elem_of_filter].
    rewrite Hhop in Hf. apply orb_true_iff in Hf as [?|(token & Hin' & Heq)%existsb_exists]; [by left|right].
    exists token. split; [|done]. by apply Htok, list_elem_of_In.
Qed.

(** ** A connection is served as the policy says *)

(** *** What a call does to the outside

    [traces m Q]: from any state [m] returns, and [Q] holds of its result and
    the events it added. *)
Definition traces {A} (m : P A) (Q : result A IoError -> list ProxyEvent -> Prop) : Prop :=
  forall s, exists r s' l, m s = Ret (r, s') /\ events s' = events s ++ l /\ Q r l.

Lemma traces_mono {A} (m : P A) (Q R : result A IoError -> list ProxyEvent -> Prop) :
  traces m Q -> (forall r l, Q r l -> R r l) -> traces m R.
Proof. intros Hm HQ s. destruct (Hm s) as (r & s' & l & ? & ? & ?). exists r, s', l. auto. Qed.
Lemma traces_result {A} (r : result A IoError) : traces (lift_io r) (fun r' l => r' = r /\ l = []).
Proof. intros s. exists r, s, []. rewrite app_nil_r. by destruct r. Qed.
Lemma traces_reject_if b e : traces (reject_if b e) (fun r l => r = (if b then Err e else Ok tt) /\ l = []).
Proof. intros s. exists (if b then Err e else Ok tt), s, []. rewrite app_nil_r. by destruct b. Qed.
Lemma traces_emit e : traces (emit e) (fun r l => r = Ok tt /\ l = [e]).
Proof. intros s. by eexists (Ok tt), _, [e]. Qed.
Lemma traces_bind {A B} (m : P A) (f : A -> P B) Q R :
  traces m Q -> (forall e l, Q (Err e) l -> R (Err e) l) ->
  (forall a l, Q (Ok a) l -> traces (f a) (fun r l' => R r (l ++ l'))) -> traces (bind m f) R.
Proof.
  intros Hm He Hf s. destruct (Hm s) as (r & s1 & l & Hrun & Hl & HQ). unfold bind. rewrite Hrun.
  destruct r as [a|e]; [|exists (Err e), s1, l; auto].
  destruct (Hf a l HQ s1) as (r & s2 & l' & Hrun' & Hl' & HR). exists r, s2, (l ++ l').
  by rewrite Hl', Hl, app_assoc.
Qed.

Lemma traces_assoc {A B C} (m : P A) (f : P B) (g : P C) Q :
  traces ((m ;! f) ;! g) Q -> traces (m ;! f ;! g) Q.
Proof.
  intros H s. destruct (H s) as (r & s' & l & Hrun & Hl). exists r, s', l. split; [|exact Hl].
  unfold bind in *. by destruct (m s) as [[[]]| |].
Qed.

(** A write that goes out whole, or fails after a part of it. *)
Definition written (event : list byte -> ProxyEvent) (bytes : list byte) (r : result unit IoError)
    (l : list ProxyEvent) : Prop :=
  r = Ok tt /\ l = [event bytes] \/
  r = Err OtherError /\ exists part, part `prefix_of` bytes /\ part <> bytes /\ l = [event part].

Lemma written_prefix event bytes n :
  written event bytes (if n <? len bytes then Err OtherError else Ok tt) [event (prefix_to n bytes)].
Proof.
  destruct (N.ltb_spec n (len bytes)) as [Hn|Hn]; [right|left].
  - split; [done|]. exists (prefix_to n bytes). split_and!; [apply prefix_take| |done].
    intros Heq. apply (f_equal len) in Heq. rewrite len_prefix_to in Heq; lia.
  - split; [done|]. unfold prefix_to. rewrite take_ge; [done|]. unfold len in Hn. lia.
Qed.

Lemma traces_write_local bytes : traces (write_local bytes) (written ToLocal bytes).
Proof.
  intros s. pose proof (written_prefix ToLocal bytes (room s)) as Hw.
  unfold write_local, emit, bind, get, modify, reject_if, throw, ret.
  destruct (room s <? len bytes); by eexists _, _, [_].
Qed.
Lemma traces_write_remote io head : traces (write_remote io head) (written ToRemote head).
Proof.
  intros s. pose proof (written_prefix ToRemote head (remote_room io)) as Hw.
  unfold write_remote, emit, bind, modify, reject_if, throw, ret.
  destruct (remote_room io <? len head); by eexists _, _, [_].
Qed.

(** *** The handshake

    Reading adds no event. *)
Definition silent (s s' : Local) : Prop := events s' = events s.
#[export] Instance silent_preorder : PreOrder silent.
Proof. split; [done|]. intros s1 s2 s3 H H'. unfold silent in *. congruence. Qed.

Lemma silent_read_exact n : preserves silent (read_exact n).
Proof. unfold read_exact. preserves_steps. all: unfold silent; done. Qed.
Lemma silent_lift {A} (r : result A IoError) : preserves silent (lift_io r).
Proof. unfold lift_io, lift_result. destruct r; [apply preserves_ret|apply preserves_throw]; apply _. Qed.
#[export] Hint Resolve silent_read_exact silent_lift : preserves.

Lemma silent_read_head fuel request : preserves silent (read_head fuel request).
Proof.
  revert request. induction fuel as [|fuel IH]; intros request; cbn [read_head];
    (apply preserves_if; [apply preserves_ret, _|]);
    (apply preserves_if; [apply preserves_throw, _|]).
  - by intros s r s'.
  - apply preserves_bind; [apply _|apply silent_read_exact|]. intros b. apply IH.
Qed.
#[export] Hint Resolve silent_read_head : preserves.

(** What the client of a handshake is told before its request is known: a
    SOCKS5 client that the method was accepted, an HTTP client nothing. *)
Definition greeting (r : result ProxyRequest IoError) (l : list ProxyEvent) : Prop :=
  match r with
  | Ok request =>
    l = match request_protocol request with Socks5 => [ToLocal [x05; x00]] | _ => [] end
  | Err _ => l = [] \/ exists part, part `prefix_of` [x05; x00] /\ l = [ToLocal part]
  end.

(** The same, for calls that are only known to end as a whole. *)
Definition adds {A} (m : P A) (Q : result A IoError -> list ProxyEvent -> Prop) : Prop :=
  forall s r s', m s = Ret (r, s') -> exists l, events s' = events s ++ l /\ Q r l.
Lemma adds_silent {A} (m : P A) : preserves silent m -> adds m (fun _ l => l = []).
Proof. intros Hm s r s' Hrun. exists []. rewrite app_nil_r. split; [exact (Hm _ _ _ Hrun)|done]. Qed.
Lemma adds_mono {A} (m : P A) (Q R : result A IoError -> list ProxyEvent -> Prop) :
  adds m Q -> (forall r l, Q r l -> R r l) -> adds m R.
Proof. intros Hm HQ s r s' Hrun. destruct (Hm _ _ _ Hrun) as (l & ? & ?). exists l. auto. Qed.
Lemma adds_bind {A B} (m : P A) (f : A -> P B) Q R :
  adds m Q -> (forall e l, Q (Err e) l -> R (Err e) l) ->
  (forall a l, Q (Ok a) l -> adds (f a) (fun r l' => R r (l ++ l'))) -> adds (bind m f) R.
Proof.
  intros Hm He Hf s r s' Hrun. unfold bind in Hrun. destruct (m s) as [[[a|e] s1]| |] eqn:Hm1; try done.
  - destruct (Hm _ _ _ Hm1) as (l & Hl & HQ). destruct (Hf a l HQ _ _ _ Hrun) as (l' & Hl' & HR).
    exists (l ++ l'). by rewrite Hl', Hl, app_assoc.
  - injection Hrun as <- <-. destruct (Hm _ _ _ Hm1) as (l & Hl & HQ). exists l. auto.
Qed.
Lemma adds_then {A B} (m : P A) (f : A -> P B) R :
  preserves silent m -> (forall e, R (Err e) []) -> (forall a, adds (f a) R) -> adds (bind m f) R.
Proof.
  intros Hm He Hf. apply (adds_bind _ _ _ _ (adds_silent m Hm)); [by intros ? ? ->|]. by intros a ? ->.
Qed.
Lemma adds_write_local bytes : adds (write_local bytes) (written ToLocal bytes).
Proof.
  intros s r s' Hrun. destruct (traces_write_local bytes s) as (r1 & s1 & l & Hrun1 & Hl & HQ).
  rewrite Hrun in Hrun1. injection Hrun1 as <- <-. by exists l.
Qed.

Lemma adds_socks5 :
  adds read_socks5_target (fun r l =>
    match r with
    | Ok _ => l = [ToLocal [x05; x00]]
    | Err _ => l = [] \/ exists part, part `prefix_of` [x05; x00] /\ l = [ToLocal part]
    end).
Proof.
  unfold read_socks5_target.
  apply adds_then; [preserves_steps|by left|intros count].
  apply adds_then; [preserves_steps|by left|intros methods].
  apply adds_then; [preserves_steps|by left|intros []].
  eapply (adds_bind _ _ _ _ (adds_write_local _)).
  - intros e l [[? _]|(_ & part & Hp & _ & ->)]; [done|]. right. by exists part.
  - intros [] l [[_ ->]|[? _]]; [|done]. eapply adds_mono; [apply adds_silent; preserves_steps|].
    intros r l ->. destruct r; [done|]. right. by exists [x05; x00].
Qed.

Lemma parse_http_protocol bytes request :
  parse_http_request bytes = Ok request -> request_protocol request <> Socks5.
Proof.
  unfold parse_http_request. intros (h & _ & H)%and_then_Ok.
  destruct (split_whitespace h) as [|m [|a parts]]; [done..|]. destruct (eq_ignore_ascii_case _ _).
  - destruct parts as [|v [|? ?]]; [done| |done]. destruct (_ || _); [|done].
    by apply and_then_Ok in H as (t & _ & [= <-]).
  - by apply and_then_Ok in H as (f & _ & [= <-]).
Qed.

Lemma adds_request : adds read_request greeting.
Proof.
  unfold read_request. apply adds_then; [preserves_steps|by left|]. intros [|b first]; [by intros s r s'|].
  destruct (Byte.eqb b x05).
  - apply (adds_bind _ _ _ _ adds_socks5); [by intros e l|]. intros t l -> s r s' [= <- <-].
    exists []. by rewrite app_nil_r.
  - unfold read_http_request. apply adds_then; [apply silent_read_head|by left|]. intros head s r s' Hrun.
    destruct (traces_result (parse_http_request head) s) as (r1 & s1 & l & Hrun1 & Hl & -> & ->).
    rewrite Hrun in Hrun1. injection Hrun1 as -> ->. exists []. split; [done|].
    destruct (parse_http_request head) as [request|e] eqn:Hp; [|by left].
    apply parse_http_protocol in Hp. cbn. by destruct (request_protocol request).
Qed.

(** *** What follows a request *)

(** The host name that is looked up for a target, and what comes of it. *)
Definition lookup_of (t : ProxyTarget) : list ProxyEvent :=
  match t with Address _ => [] | DomainTarget host port => [Lookup host port] end.
Definition resolution (io : ServeIo) (t : ProxyTarget) : result SocketAddr IoError :=
  match t, resolved io with
  | Address a, _ => Ok a
  | DomainTarget _ _, Some (Some a) => Ok a
  | DomainTarget _ _, Some None => Err InvalidInput
  | DomainTarget _ _, None => Err OtherError
  end.

(** The connection that a decision asks for; a runtime with a single node has
    no other one to go through. *)
Definition opening (runtime : ProxyRuntime) (action : RoutingAction) (target : SocketAddr) : option ProxyEvent :=
  match action with
  | Direct => Some (ConnectDirect target)
  | Proxy => Some (OpenStream (str "PROXY") target)
  | Node node =>
    match runtime with
    | Single => if str_eqb node (str "PROXY") then Some (OpenStream node target) else None
    | Pool => Some (OpenStream node target)
    end
  | Reject => None
  end.
(** Whether the opening succeeds. *)
Definition opened (io : ServeIo) (runtime : ProxyRuntime) (e : ProxyEvent) : bool :=
  match e with
  | ConnectDirect _ => direct_ok io
  | OpenStream _ _ => stream_ok io && match runtime with Single => generation_online io | Pool => true end
  | _ => false
  end.

(** The reply to a refused request. *)
Definition refusal (protocol : ConnectProtocol) : list byte :=
  match protocol with
  | Socks5 => [x05; x02; x00; x01; x00; x00; x00; x00; x00; x00]
  | _ => bytes_of (str "HTTP/1.1 403 Forbidden" ++ crlf ++ str "Content-Length: 0" ++ crlf ++ crlf)
  end.
(** All that follows a connection that was opened: the acknowledgement of a
    tunnel, or the head of a forwarded request, and then the copying. *)
Definition answers (protocol : ConnectProtocol) : list ProxyEvent :=
  match protocol with
  | HttpConnect => [ToLocal (bytes_of (str "HTTP/1.1 200 Connection Established" ++ crlf ++ crlf)); Relay]
  | HttpForward head => [ToRemote head; Relay]
  | Socks5 => [ToLocal [x05; x00; x00; x01; x00; x00; x00; x00; x00; x00]; Relay]
  end.

(** A beginning of some events, of the last of which a part happened. *)
Definition begins (e full : ProxyEvent) : Prop :=
  match e, full with
  | ToLocal part, ToLocal bytes | ToRemote part, ToRemote bytes => part `prefix_of` bytes
  | _, _ => e = full
  end.
Definition cut_off (l full : list ProxyEvent) : Prop :=
  exists before e e' after, l = before ++ [e'] /\ full = before ++ e :: after /\ begins e' e.

Lemma cut_off_first e' e after : begins e' e -> cut_off [e'] (e :: after).
Proof. intros He. by exists [], e, e', after. Qed.

(** Everything, or an error and a beginning of it. *)
Definition carried_out (full : list ProxyEvent) (r : result unit IoError) (l : list ProxyEvent) : Prop :=
  match r with Ok _ => l = full | Err _ => cut_off l full end.

(** What the decision leads to. *)
Definition followed (io : ServeIo) (runtime : ProxyRuntime) (decision : RoutingAction) (target : SocketAddr)
    (protocol : ConnectProtocol) (r : result unit IoError) (l : list ProxyEvent) : Prop :=
  match opening runtime decision target, decision with
  | Some e, _ =>
    if opened io runtime e then exists l', l = e :: l' /\ carried_out (answers protocol) r l'
    else l = [e] /\ r <> Ok tt
  | None, Reject =>
    r = Err PermissionDenied /\ l = [ToLocal (refusal protocol)] \/
    r = Err OtherError /\ exists part, part `prefix_of` refusal protocol /\ part <> refusal protocol /\ l = [ToLocal part]
  | None, _ => l = [] /\ r = Err Unsupported
  end.

Lemma traces_relay io protocol : traces (relay io protocol) (carried_out (answers protocol)).
Proof.
  assert (forall before full, traces (emit Relay ;! lift_io (relay_result io))
    (fun r l' => carried_out (before :: full ++ [Relay]) r (before :: full ++ l'))) as Hrelay.
  { intros before full. apply (traces_bind _ _ _ _ (traces_emit Relay)); [by intros e l [? _]|].
    intros [] l [_ ->]. eapply traces_mono; [apply traces_result|]. intros r l [-> ->]. cbn.
    destruct (relay_result io) as [[]|e]; [done|]. exists (before :: full), Relay, Relay, []. by split_and!. }
  unfold relay, write_success. destruct protocol as [|head|]; cbn [forward_head_of answers].
  - apply (traces_bind _ _ _ _ (traces_write_local _)).
    + intros e l [[? _]|(_ & part & Hp & _ & ->)]; [done|]. by apply cut_off_first.
    + intros [] l [[_ ->]|[? _]]; [|done]. apply (Hrelay _ []).
  - apply (traces_bind _ _ _ _ (traces_write_remote io head)).
    + intros e l [[? _]|(_ & part & Hp & _ & ->)]; [done|]. by apply cut_off_first.
    + intros [] l [[_ ->]|[? _]]; [|done]. apply (Hrelay _ []).
  - apply (traces_bind _ _ _ _ (traces_write_local _)).
    + intros e l [[? _]|(_ & part & Hp & _ & ->)]; [done|]. by apply cut_off_first.
    + intros [] l [[_ ->]|[? _]]; [|done]. apply (Hrelay _ []).
Qed.

(** An opening, a check that it succeeded, and the relay. *)
Lemma traces_opened io runtime e protocol (m : P unit) :
  traces m (fun r l => l = [e] /\ (r = Ok tt <-> opened io runtime e = true)) ->
  traces (m ;! relay io protocol) (fun r l =>
    if opened io runtime e then exists l', l = e :: l' /\ carried_out (answers protocol) r l'
    else l = [e] /\ r <> Ok tt).
Proof.
  intros Hm. apply (traces_bind _ _ _ _ Hm).
  - intros err l [-> Hr]. destruct (opened io runtime e); [by discriminate (proj2 Hr eq_refl)|done].
  - intros [] l [-> Hr]. rewrite (proj1 Hr eq_refl). eapply traces_mono; [apply traces_relay|].
    intros r l' Hc. by exists l'.
Qed.

Lemma traces_relay_proxy io runtime reference target protocol :
  traces (relay_proxy io runtime reference target protocol)
    (followed io runtime (Node reference) target protocol).
Proof.
  unfold relay_proxy, followed. cbn [opening]. destruct runtime.
  - destruct (str_eqb reference (str "PROXY")).
    + apply traces_opened. apply (traces_bind _ _ _ _ (traces_emit _)); [by intros e l [? _]|].
      intros [] l [_ ->]. apply (traces_bind _ _ _ _ (traces_reject_if _ _)).
      * intros e l [H ->]. split; [done|]. cbn. by destruct (stream_ok io).
      * intros [] l [H ->]. eapply traces_mono; [apply traces_reject_if|]. intros r l [-> ->]. split; [done|]. cbn.
        by destruct (stream_ok io), (generation_online io).
    + intros s. eexists (Err Unsupported), s, []. rewrite app_nil_r. by split_and!.
  - apply traces_opened. apply (traces_bind _ _ _ _ (traces_emit _)); [by intros e l [? _]|].
    intros [] l [_ ->]. eapply traces_mono; [apply traces_reject_if|]. intros r l [-> ->]. split; [done|]. cbn.
    by destruct (stream_ok io).
Qed.

Lemma traces_follow io runtime decision target protocol :
  traces (follow io runtime decision target protocol) (followed io runtime decision target protocol).
Proof.
  destruct decision as [| | |node]; cbn [follow].
  - unfold followed. cbn [opening]. apply traces_assoc, (traces_opened io runtime (ConnectDirect target)).
    apply (traces_bind _ _ _ _ (traces_emit _)); [by intros e l [? _]|].
    intros [] l [_ ->]. eapply traces_mono; [apply traces_reject_if|]. intros r l [-> ->]. split; [done|]. cbn.
    by destruct (direct_ok io).
  - unfold followed. cbn. replace (write_rejected protocol) with (write_local (refusal protocol)) by by destruct protocol.
    apply (traces_bind _ _ _ _ (traces_write_local _)).
    + intros e l [[? _]|(He & Hpart)]; [done|]. by right.
    + intros [] l [[_ ->]|[? _]]; [|done]. intros s. eexists (Err PermissionDenied), s, []. rewrite app_nil_r.
      split_and!; [done..|by left].
  - eapply traces_mono; [apply traces_relay_proxy|]. intros r l. unfold followed. cbn. by destruct runtime.
  - apply traces_relay_proxy.
Qed.

Lemma traces_resolve io t :
  traces (resolve io t) (fun r l => r = resolution io t /\ l = lookup_of t).
Proof.
  destruct t as [a|host port]; cbn [resolve lookup_of resolution].
  - intros s. exists (Ok a), s, []. by rewrite app_nil_r.
  - apply (traces_bind _ _ _ _ (traces_emit _)); [by intros e l [? _]|]. intros [] l [_ ->].
    destruct (resolved io) as [[a|]|]; intros s; eexists _, s, []; rewrite app_nil_r; by split_and!.
Qed.

(** C11. Serving a connection follows the policy, event by event: the client
    of a handshake is told nothing before its request is known but that its
    SOCKS5 method was accepted; then comes the lookup of the target's name,
    if it has one; then, for the address that it stands for, exactly what the
    policy decides for that name, address and port.  A rejected target gets
    the refusal, and an error, and nothing is opened; a node that this
    runtime does not have is an error and nothing else; every other decision
    is one opening, of the decided kind, after which there is nothing but an
    error when it failed, and, when it succeeded, the acknowledgement or the
    head and the copying, of which a beginning happened when writing or
    copying failed.  The connection is served without an error only when all
    of it happened. *)
Theorem serve_follows_policy io runtime policy s :
  exists handshake s1 greeted r s' new,
    read_request s = Ret (handshake, s1) /\ greeting handshake greeted /\
    serve io runtime policy s = Ret (r, s') /\ events s' = events s ++ greeted ++ new /\
    match handshake with
    | Err e => r = Err e /\ new = []
    | Ok request =>
      let t := request_target request in
      target_ok t /\
      match resolution io t with
      | Err e => r = Err e /\ new = lookup_of t
      | Ok target =>
        exists rest, new = lookup_of t ++ rest /\
          followed io runtime (RoutingPolicy.decide policy (route_context t target)) target
            (request_protocol request) r rest
      end
    end.
Proof.
  destruct (reading_request s) as (handshake & s1 & taken & Hrun & _ & _ & Hok).
  destruct (adds_request s handshake s1 Hrun) as (greeted & Hl & Hgreet).
  unfold serve, bind at 1. rewrite Hrun. destruct handshake as [request|e].
  2:{ exists (Err e), s1, greeted, (Err e), s1, []. rewrite app_nil_r. by split_and!. }
  destruct (traces_resolve io (request_target request) s1) as (r & s2 & l & Hres & He2 & -> & ->).
  unfold bind at 1. rewrite Hres. destruct (Hok request eq_refl) as [Ht _].
  destruct (resolution io (request_target request)) as [target|e] eqn:Hreso.
  - destruct (traces_follow io runtime
      (RoutingPolicy.decide policy (route_context (request_target request) target)) target
      (request_protocol request) s2) as (r & s3 & rest & Hf & He3 & Hcase).
    exists (Ok request), s1, greeted, r, s3, (lookup_of (request_target request) ++ rest).
    rewrite He3, He2, Hl, Hreso, !app_assoc. split_and!; try done. by exists rest.
  - exists (Ok request), s1, greeted, (Err e), s2, (lookup_of (request_target request)).
    rewrite He2, Hl, Hreso, app_assoc. by split_and!.
Qed.

(** ** Names the policy does not see *)
Lemma host_char_plain c : host_char c = true -> is_whitespace c = false.
Proof.
  unfold host_char. intros [[H| ->%N.eqb_eq]%orb_true_iff| ->%N.eqb_eq]%orb_true_iff; [|done..].
  by apply label_char_not_whitespace.
Qed.

Lemma validate_hostname_Ok host :
  validate_hostname host = Ok tt ->
  host <> [] /\ ends_with 46 host = false /\ Forall (fun c => host_char c = true) host.
Proof.
  unfold validate_hostname. destruct (_ || _) eqn:H; [done|]. intros _.
  rewrite !orb_false_iff in H. destruct H as [[[[[He _] _] Hend] _] Hall%negb_false_iff].
  split_and!; [by intros ->|done|]. rewrite forallb_forall in Hall.
  apply Forall_forall. intros c Hc. by apply Hall, list_elem_of_In.
Qed.

Lemma trim_end_keeps f s : ends_with 46 s = false -> (forall c, f c = (c =? 46)) -> trim_end f s = s.
Proof.
  intros Hs Hf. unfold trim_end, ends_with in *. destruct s as [|c s _] using rev_ind; [done|].
  rewrite last_snoc in Hs. rewrite rev_app_distr. cbn. rewrite Hf, Hs. cbn.
  by rewrite rev_involutive.
Qed.

Lemma lowercase_underscore s : 95 ∈ s -> 95 ∈ to_ascii_lowercase s.
Proof. intros Hs. unfold to_ascii_lowercase. apply list_elem_of_fmap. by exists 95. Qed.

Lemma underscore_not_normal host :
  validate_hostname host = Ok tt -> 95 ∈ host -> exists e, normalize_domain host = Err e.
Proof.
  intros (_ & Hend & Hall)%validate_hostname_Ok Hin.
  destruct (normalize_domain host) as [d|e] eqn:Hn; [exfalso|by exists e].
  apply normalize_domain_Ok in Hn as (-> & _ & _ & Hlabels%normal_chars).
  rewrite trim_none in Hlabels by (eapply Forall_impl; [exact Hall|exact host_char_plain]).
  rewrite trim_end_keeps in Hlabels by done. rewrite Forall_forall in Hlabels.
  destruct (Hlabels 95 (lowercase_underscore _ Hin)); done.
Qed.

(** A host name with an underscore is one the proxy accepts and connects
    to, but the routing policy decides about it as if the connection had no
    name: none of its domain rules applies. *)
Theorem underscore_hides_domain policy host ip port :
  validate_hostname host = Ok tt -> 95 ∈ host ->
  ProxyTarget.from_host_port (Utf8.encode host) 443 = Ok (DomainTarget host 443) /\
  RoutingPolicy.decide policy
    {| domain := Some host; destination := ip; destination_port := port |} =
  RoutingPolicy.decide policy
    {| domain := None; destination := ip; destination_port := port |}.
Proof.
  intros Hv Hin. split.
  - unfold ProxyTarget.from_host_port. cbn [N.eqb Pos.eqb]. rewrite decode_encode_ascii.
    + cbn [io_ok_or and_then]. by rewrite Hv.
    + apply validate_hostname_Ok in Hv as (_ & _ & Hall). eapply Forall_impl; [exact Hall|].
      intros c Hc. unfold ascii, host_char, is_ascii_alphanumeric, is_ascii_digit in *.
      rewrite !orb_true_iff, !andb_true_iff, !N.leb_le, !N.eqb_eq in Hc. lia.
  - destruct (underscore_not_normal host Hv Hin) as [e He]. unfold RoutingPolicy.decide.
    cbn [domain]. by rewrite He.
Qed.

(** ** CONNECT requests *)
Definition spaceless (s : Str) : Prop := Forall (fun c => is_whitespace c = false) s.

(** A CONNECT request is accepted exactly when nothing but white space
    follows its version: with any header line, a Host header included, it is
    refused whatever authority it names. *)
Theorem connect_refuses_headers authority tail :
  authority <> [] -> spaceless authority -> Forall ascii authority -> Forall ascii tail ->
  parse_http_request
    (Utf8.encode (str "CONNECT " ++ authority ++ str " HTTP/1.1" ++ crlf ++ tail)) =
  if is_empty (split_whitespace tail) then
    match ProxyTarget.from_authority authority with
    | Ok target => Ok {| request_target := target; request_protocol := HttpConnect |}
    | Err e => Err e
    end
  else Err InvalidInput.
Proof.
  intros Hne Hsp Hasc Htail. unfold parse_http_request.
  rewrite decode_encode_ascii.
  2:{ rewrite !Forall_app. split_and!; try done; by repeat constructor. }
  cbn [io_ok_or and_then].
  change (str "CONNECT " ++ authority ++ str " HTTP/1.1" ++ crlf ++ tail) with
    (str "CONNECT" ++ 32 :: authority ++ 32 :: str "HTTP/1.1" ++ 13 :: 10 :: tail).
  unfold split_whitespace. rewrite split_runs_word by (done || by repeat constructor).
  rewrite split_runs_word by done.
  rewrite split_runs_word by (done || by repeat constructor).
  rewrite split_runs_space by done. fold (split_whitespace tail).
  change (eq_ignore_ascii_case (str "CONNECT") (str "CONNECT")) with true. cbv iota.
  destruct (split_whitespace tail) as [|w ws]; [|done].
  change (str_eqb (str "HTTP/1.1") (str "HTTP/1.0") || str_eqb (str "HTTP/1.1") (str "HTTP/1.1")) with true.
  cbv iota. cbn [is_empty]. by destruct (ProxyTarget.from_authority authority).
Qed.

(** ** At concrete inputs *)
Definition sample_request : list byte :=
  Utf8.encode (str "GET http://example.com:8080/a?q=1 HTTP/1.1" ++ crlf ++
    str "Host: wrong.example" ++ crlf ++ str "Proxy-Connection: keep-alive, X-Remove" ++ crlf ++
    str "X-Remove: value" ++ crlf ++ str "X-Keep: yes" ++ crlf ++ crlf).
Definition sample_forwarded : list byte :=
  Utf8.encode (str "GET /a?q=1 HTTP/1.1" ++ crlf ++ str "Host: example.com:8080" ++ crlf ++
    str "Connection: close" ++ crlf ++ str "X-Keep: yes" ++ crlf ++ crlf).

Example sample_rewritten :
  parse_forward_request sample_request =
  Ok {| forward_target := DomainTarget (str "example.com") 8080; forward_head := sample_forwarded |}.
Proof. by vm_compute. Qed.
(** A literal address is taken with a port of zero, which is refused for a name. *)
Example zero_port_address :
  ProxyTarget.from_authority (str "192.0.2.1:0") = Ok (Address (SocketV4 (ipv4 192 0 2 1) 0)) /\
  ProxyTarget.from_authority (str "example.com:0") = Err InvalidInput.
Proof. by vm_compute. Qed.

Lemma forward_request_rewritten_witness :
  exists out, sample_forwarded = Utf8.encode out /\
    exists kept first host, split_crlf out = first :: host :: str "Connection: close" ::
      (header_line <$> kept) ++ [[]; []].
Proof.
  destruct (forward_request_rewritten sample_request
    {| forward_target := DomainTarget (str "example.com") 8080; forward_head := sample_forwarded |})
    as (text & line & lines & method & origin & version & authority & headers & kept & out &
        _ & _ & _ & _ & Hout & Hsplit & _); [by vm_compute|].
  exists out. split; [exact Hout|]. exists kept. do 2 eexists. exact Hsplit.
Defined.

Definition sample_blocked : RoutingPolicy :=
  {| rules := [{| matcher := DomainSuffix (str "corp.example"); action := Reject |}] |}.
Lemma underscore_hides_domain_witness :
  RoutingPolicy.decide sample_blocked
    {| domain := Some (str "ab.corp.example"); destination := V4 0; destination_port := 80 |} = Reject /\
  RoutingPolicy.decide sample_blocked
    {| domain := Some (str "a_b.corp.example"); destination := V4 0; destination_port := 80 |} = Proxy.
Proof.
  split; [by vm_compute|].
  rewrite (proj2 (underscore_hides_domain sample_blocked (str "a_b.corp.example") (V4 0) 80
    ltac:(by vm_compute) ltac:(by apply (bool_decide_unpack _); vm_compute))).
  by vm_compute.
Defined.

Lemma connect_refuses_headers_witness :
  parse_http_request (Utf8.encode (str "CONNECT example.com:443 HTTP/1.1" ++ crlf ++
    str "Host: example.com:443" ++ crlf ++ crlf)) = Err InvalidInput.
Proof.
  assert (spaceless (str "example.com:443")) as Hs by (by repeat constructor).
  assert (Forall ascii (str "example.com:443")) as Ha by (by repeat constructor).
  assert (Forall ascii (str "Host: example.com:443" ++ crlf ++ crlf)) as Ht by (by repeat constructor).
  pose proof (connect_refuses_headers (str "example.com:443")
    (str "Host: example.com:443" ++ crlf ++ crlf) ltac:(done) Hs Ha Ht) as H.
  exact H.
Defined.

(** A client that asks for a rejected name gets the refusal, as much of it as it takes. *)
Definition sample_io : ServeIo :=
  {| resolved := Some (Some (SocketAddr.new (V4 (ipv4 192 0 2 1)) 443)); direct_ok := true; stream_ok := true;
     generation_online := true; remote_room := 4096; relay_result := Ok tt |}.
Definition sample_client (host : Str) (room : N) : Local :=
  {| input := Utf8.encode (str "CONNECT " ++ host ++ str ":443 HTTP/1.1" ++ crlf ++ crlf); room := room; events := [] |}.
Definition sample_serve (host : Str) (room : N) : option (result unit IoError * list ProxyEvent) :=
  match serve sample_io Single sample_blocked (sample_client host room) with
  | Ret (r, s) => Some (r, events s)
  | _ => None
  end.
Example sample_refused :
  sample_serve (str "a.corp.example") 4096 =
    Some (Err PermissionDenied, [Lookup (str "a.corp.example") 443; ToLocal (refusal HttpConnect)]) /\
  sample_serve (str "a.corp.example") 5 =
    Some (Err OtherError, [Lookup (str "a.corp.example") 443; ToLocal (Utf8.encode (str "HTTP/"))]) /\
  sample_serve (str "example.com") 4096 =
    Some (Ok tt, [Lookup (str "example.com") 443; OpenStream (str "PROXY") (SocketAddr.new (V4 (ipv4 192 0 2 1)) 443)]
                 ++ answers HttpConnect).
Proof. by vm_compute. Qed.
