(* ===== verification/Forest.v ===== *)
(** Forest ([velum-forest/src/lib.rs]): the cover service that answers like an
    ordinary web server, and the store of traffic profiles with its kill
    switch.  A connection is the bytes that arrive before the deadline, what
    becomes of the stream after them, and how much it still takes; sockets
    ([tokio]) and the signature check of a profile update are parameters. *)
From S2P Require Import Prelude Net Str Utf8.

Module CoverServiceError.
Inductive t := InvalidConfig | MalformedRequest | RequestTimedOut | UpstreamUnavailable | Transport.
#[export] Instance eq_dec : EqDecision t.
Proof. solve_decision. Defined.
End CoverServiceError.

Module CoverConfigError.
Inductive t := UnsupportedSchema | ZeroRequestHeadTimeout | ZeroUpstreamTimeout | InvalidStaticService.
#[export] Instance eq_dec : EqDecision t.
Proof. solve_decision. Defined.
End CoverConfigError.

(** ** Configuration *)
Record StaticAsset := { content_type : Str; body : list byte }.
Record StaticService := { assets : gmap Str StaticAsset }.
Inductive CoverServiceMode :=
| Static (service : StaticService)
| ReverseProxy (upstream : SocketAddr).
(** The durations are in nanoseconds. *)
Record CoverServiceConfig := {
  schema_version : N;
  mode : CoverServiceMode;
  request_head_timeout : N;
  upstream_timeout : N
}.

Definition valid_path (path : Str) : bool :=
  starts_with 47 path && negb (contains_str (str "..") path)
  && negb (contains 13 path) && negb (contains 10 path).
(** [byte.is_ascii_control()] *)
Definition byte_is_ascii_control (b : byte) : bool := (Byte.to_N b <? 32) || (Byte.to_N b =? 127).
Definition valid_content_type (content_type : Str) : bool :=
  negb (is_empty content_type) && negb (existsb byte_is_ascii_control (Utf8.encode content_type)).

Module StaticService.
Definition validate (self : StaticService) : result unit CoverConfigError.t :=
  let items := map_to_list (assets self) in
  if is_empty items
     || existsb (fun item => negb (valid_path item.1)) items
     || existsb (fun item => negb (valid_content_type (content_type item.2))) items
  then Err CoverConfigError.InvalidStaticService else Ok tt.
End StaticService.

Module CoverServiceMode.
Definition validate (self : CoverServiceMode) : result unit CoverConfigError.t :=
  match self with
  | Static service => StaticService.validate service
  | ReverseProxy _ => Ok tt
  end.
End CoverServiceMode.

Module CoverServiceConfig.
Definition validate (self : CoverServiceConfig) : result unit CoverConfigError.t :=
  if negb (schema_version self =? 1) then Err CoverConfigError.UnsupportedSchema
  else if upstream_timeout self =? 0 then Err CoverConfigError.ZeroUpstreamTimeout
  else if request_head_timeout self =? 0 then Err CoverConfigError.ZeroRequestHeadTimeout
  else CoverServiceMode.validate (mode self).
End CoverServiceConfig.

(** ** Connections *)

(** The stream of a client after the bytes that arrive in time: it fails or
    ends, or the deadline for the request's head passes. *)
Inductive AfterInput := Ends | Stalls.
(** The side of a connection that takes bytes: how many it still accepts
    ([None]: as many as there are), and what it has taken. *)
Record Sink := { accepts : option N; taken : list byte }.
Record Connections := {
  input : list byte;
  after_input : AfterInput;
  client : Sink;
  upstream : Sink;
  copied : bool
}.
Definition C (A : Type) : Type := M Connections CoverServiceError.t A.

(** What [tokio] answers: whether the upstream is connected to before its
    timeout, and whether the copying in both directions ends well. *)
Record CoverIo := { connects : bool; copies : bool }.

(** [write_all]: what does not fit is lost and the write fails. *)
Definition sink_write (s : Sink) (bytes : list byte) : bool * Sink :=
  match accepts s with
  | None => (true, {| accepts := None; taken := taken s ++ bytes |})
  | Some n =>
    if len bytes <=? n then (true, {| accepts := Some (n - len bytes); taken := taken s ++ bytes |})
    else (false, {| accepts := Some 0; taken := taken s ++ prefix_to n bytes |})
  end.
Definition set_client (f : Sink) (s : Connections) : Connections :=
  {| input := input s; after_input := after_input s; client := f; upstream := upstream s;
     copied := copied s |}.
Definition set_upstream (f : Sink) (s : Connections) : Connections :=
  {| input := input s; after_input := after_input s; client := client s; upstream := f;
     copied := copied s |}.
Definition write_client (bytes : list byte) : C unit :=
  let! s := get in
  modify (set_client (sink_write (client s) bytes).2) ;!
  reject_if (negb (sink_write (client s) bytes).1) CoverServiceError.Transport.
Definition write_upstream (bytes : list byte) : C unit :=
  let! s := get in
  modify (set_upstream (sink_write (upstream s) bytes).2) ;!
  reject_if (negb (sink_write (upstream s) bytes).1) CoverServiceError.Transport.

(** A byte of the client, under the deadline of the request's head. *)
Definition read_byte : C byte :=
  let! s := get in
  match input s with
  | b :: rest =>
    modify (fun s => {| input := rest; after_input := after_input s; client := client s;
                        upstream := upstream s; copied := copied s |}) ;!
    ret b
  | [] =>
    match after_input s with
    | Ends => throw CoverServiceError.Transport
    | Stalls => throw CoverServiceError.RequestTimedOut
    end
  end.

(** ** Reading the head of a request *)
Definition MAX_REQUEST_HEAD_BYTES : N := 16 * 1024.

(** [head.ends_with(b"\r\n\r\n")] *)
Definition ends_head (head : list byte) : bool :=
  bool_decide (drop (length head - 4) head = [x0d; x0a; x0d; x0a]).

Fixpoint read_request_head_loop (fuel : nat) (head : list byte) : C (list byte) :=
  if len head <? MAX_REQUEST_HEAD_BYTES then
    match fuel with
    | O => out_of_fuel
    | S fuel =>
      let! b := read_byte in
      let head := head ++ [b] in
      if ends_head head then ret head else read_request_head_loop fuel head
    end
  else throw CoverServiceError.MalformedRequest.

Definition HEAD_FUEL : nat := N.to_nat MAX_REQUEST_HEAD_BYTES.
Definition read_request_head : C (list byte) := read_request_head_loop HEAD_FUEL [].

(** ** Serving *)
Definition first_line_fields (head : list byte) : option (list Str) :=
  match Utf8.decode head with
  | None => None
  | Some text => split_ascii_whitespace <$> (split_crlf text) !! 0%nat
  end.

Definition request_path (head : list byte) : option Str :=
  match first_line_fields head with
  | Some (method :: path :: _) =>
    if str_eqb method (str "GET") || str_eqb method (str "HEAD") then Some path else None
  | _ => None
  end.

Definition request_method (head : list byte) : option Str :=
  match first_line_fields head with
  | Some (method :: _) => Some method
  | _ => None
  end.

Definition crlf : Str := [13; 10].
Definition missing : StaticAsset :=
  {| content_type := str "text/plain; charset=utf-8"; body := Utf8.encode (str "Not Found" ++ [10]) |}.

Definition response_head (status : Str) (asset : StaticAsset) : Str :=
  str "HTTP/1.1 " ++ status ++ crlf ++
  str "Content-Type: " ++ content_type asset ++ crlf ++
  str "Content-Length: " ++ display_uint (len (body asset)) ++ crlf ++
  str "Connection: close" ++ crlf ++ crlf.

Definition select_asset (service : StaticService) (path : Str) : Str * StaticAsset :=
  match assets service !! path with
  | Some asset => (str "200 OK", asset)
  | None => (str "404 Not Found", missing)
  end.

Definition serve_static (service : StaticService) (head : list byte) : C unit :=
  let! path := ok_or (request_path head) CoverServiceError.MalformedRequest in
  let '(status, asset) := select_asset service path in
  write_client (Utf8.encode (response_head status asset)) ;!
  if negb (bool_decide (request_method head = Some (str "HEAD"))) then write_client (body asset)
  else ret tt.

Definition serve_upstream (io : CoverIo) (head : list byte) : C unit :=
  reject_if (negb (connects io)) CoverServiceError.UpstreamUnavailable ;!
  write_upstream head ;!
  modify (fun s => {| input := input s; after_input := after_input s; client := client s;
                      upstream := upstream s; copied := true |}) ;!
  reject_if (negb (copies io)) CoverServiceError.Transport.

Definition serve_cover_connection (io : CoverIo) (config : CoverServiceConfig) : C unit :=
  lift_result (fun _ => CoverServiceError.InvalidConfig) (CoverServiceConfig.validate config) ;!
  let! head := read_request_head in
  match mode config with
  | Static service => serve_static service head
  | ReverseProxy _ => serve_upstream io head
  end.

(** ** Traffic profiles *)
Module ProfileError.
Inductive t := UnsupportedSchema | InvalidProfile | Expired | AuthenticationRejected | InvalidRotation.
#[export] Instance eq_dec : EqDecision t.
Proof. solve_decision. Defined.
End ProfileError.

(** [sizes.windows(2).any(f)] *)
Fixpoint any_window {A} (f : A -> A -> bool) (l : list A) : bool :=
  match l with
  | a :: (b :: _) as rest => f a b || any_window f rest
  | _ => false
  end.

Module TrafficProfile.
(** Times are nanoseconds from one fixed origin. *)
Record t := {
  schema_version : N;
  identifier : Str;
  digest : list byte;
  expires_at : N;
  write_size_classes : list N
}.

Definition validate (self : t) (now : N) : result unit ProfileError.t :=
  if negb (schema_version self =? 1) then Err ProfileError.UnsupportedSchema
  else if is_empty (identifier self) || (64 <? utf8_len (identifier self))
          || is_empty (write_size_classes self)
  then Err ProfileError.InvalidProfile
  else if any_window (fun a b => b <=? a) (write_size_classes self)
  then Err ProfileError.InvalidProfile
  else if expires_at self <=? now then Err ProfileError.Expired
  else Ok tt.
End TrafficProfile.

Record ProfileUpdate := { profile : TrafficProfile.t; proof : list byte }.

Module ProfileStore.
Record t := { active : TrafficProfile.t }.

Definition new (active : TrafficProfile.t) (now : N) : result t ProfileError.t :=
  let? _ := TrafficProfile.validate active now in
  Ok {| active := active |}.

Section rotate.
(** [ProfileUpdateVerifier::verify], which the application supplies. *)
Context (verify : ProfileUpdate -> bool).

Definition rotate (update : ProfileUpdate) (now : N) : M t ProfileError.t unit :=
  let! self := get in
  reject_if (negb (verify update)) ProfileError.AuthenticationRejected ;!
  lift_result id (TrafficProfile.validate (profile update) now) ;!
  reject_if (str_eqb (TrafficProfile.identifier (profile update)) (TrafficProfile.identifier (active self))
             || (TrafficProfile.expires_at (profile update) <=? TrafficProfile.expires_at (active self)))
    ProfileError.InvalidRotation ;!
  modify (fun _ => {| active := profile update |}).
End rotate.
End ProfileStore.

Module ForestRuntime.
Record t := { profiles : ProfileStore.t; traffic_enabled : bool }.

Definition new (profiles : ProfileStore.t) : t := {| profiles := profiles; traffic_enabled := true |}.
Definition disable_after_failure (self : t) : t :=
  {| profiles := profiles self; traffic_enabled := false |}.
Definition enable (self : t) : t := {| profiles := profiles self; traffic_enabled := true |}.
Definition active_profile (self : t) (now : N) : option TrafficProfile.t :=
  if traffic_enabled self && (now <? TrafficProfile.expires_at (ProfileStore.active (profiles self)))
  then Some (ProfileStore.active (profiles self)) else None.

(** A call to the runtime, rotation going through [profiles_mut]. *)
Inductive Call :=
| Rotate (update : ProfileUpdate) (now : N)
| Disable
| Enable.

Definition call (verify : ProfileUpdate -> bool) (c : Call) (self : t) : t :=
  match c with
  | Rotate update now =>
    match ProfileStore.rotate verify update now (profiles self) with
    | Ret (_, profiles) => {| profiles := profiles; traffic_enabled := traffic_enabled self |}
    | _ => self
    end
  | Disable => disable_after_failure self
  | Enable => enable self
  end.

(** The states a sequence of calls goes through, the first one included. *)
Fixpoint history (verify : ProfileUpdate -> bool) (calls : list Call) (self : t) : list t :=
  self :: match calls with [] => [] | c :: calls => history verify calls (call verify c self) end.
End ForestRuntime.

(** ** What reading a head amounts to *)

(** The length of the shortest head in the first 16 KiB of the input. *)
Definition head_length (input : list byte) : option nat :=
  List.find (fun n => ends_head (take n input))
    (seq 1 (Nat.min (N.to_nat MAX_REQUEST_HEAD_BYTES) (length input))).

(** Why there is none. *)
Definition head_failure (s : Connections) : CoverServiceError.t :=
  if MAX_REQUEST_HEAD_BYTES <=? len (input s) then CoverServiceError.MalformedRequest
  else match after_input s with
       | Ends => CoverServiceError.Transport
       | Stalls => CoverServiceError.RequestTimedOut
       end.

Definition advance (n : nat) (s : Connections) : Connections :=
  {| input := drop n (input s); after_input := after_input s; client := client s;
     upstream := upstream s; copied := copied s |}.

Lemma advance_0 s : advance 0 s = s.
Proof. by destruct s. Qed.
Lemma advance_advance n m s : advance m (advance n s) = advance (n + m) s.
Proof. unfold advance. cbn. by rewrite drop_drop. Qed.

Lemma read_byte_cons s b rest : input s = b :: rest -> read_byte s = Ret (Ok b, advance 1 s).
Proof.
  intros Hi. unfold read_byte, bind, get. rewrite Hi. cbv [bind modify ret]. unfold advance.
  by rewrite Hi.
Qed.
Lemma read_byte_nil s :
  input s = [] -> len (input s) < MAX_REQUEST_HEAD_BYTES -> read_byte s = Ret (Err (head_failure s), s).
Proof.
  intros Hi Hl. unfold read_byte, bind, get, head_failure. apply N.leb_gt in Hl. rewrite Hl, Hi.
  by destruct (after_input s).
Qed.

(** The loop from any point of a stream [whole], of which [k] bytes are read. *)
Lemma read_loop_spec max fuel k s :
  N.of_nat max = MAX_REQUEST_HEAD_BYTES ->
  (k <= max)%nat -> (k <= length (input s))%nat -> (max - k <= fuel)%nat ->
  read_request_head_loop fuel (take k (input s)) (advance k s) =
  Ret (match List.find (fun n => ends_head (take n (input s)))
               (seq (S k) (Nat.min max (length (input s)) - k)) with
       | Some n => (Ok (take n (input s)), advance n s)
       | None => (Err (head_failure s), advance max s)
       end).
Proof.
  intros Hmax. revert k. induction fuel as [|fuel IH]; intros k Hk Hl Hf; cbn [read_request_head_loop];
    assert (len (take k (input s)) = N.of_nat k) as Hlen
      by (unfold len; rewrite length_take; lia); rewrite Hlen.
  - assert (k = max) as -> by lia. replace (Nat.min max (length (input s)) - max)%nat with O by lia.
    replace (N.of_nat max <? MAX_REQUEST_HEAD_BYTES) with false by (symmetry; apply N.ltb_ge; lia).
    cbn [seq List.find]. unfold throw, head_failure.
    replace (MAX_REQUEST_HEAD_BYTES <=? len (input s)) with true
      by (symmetry; apply N.leb_le; unfold len; lia). done.
  - destruct (decide (k = max)) as [->|Hne].
    { replace (Nat.min max (length (input s)) - max)%nat with O by lia.
      replace (N.of_nat max <? MAX_REQUEST_HEAD_BYTES) with false by (symmetry; apply N.ltb_ge; lia).
      cbn [seq List.find]. unfold throw, head_failure.
      replace (MAX_REQUEST_HEAD_BYTES <=? len (input s)) with true
        by (symmetry; apply N.leb_le; unfold len; lia). done. }
    replace (N.of_nat k <? MAX_REQUEST_HEAD_BYTES) with true by (symmetry; apply N.ltb_lt; lia).
    destruct (input s !! k) as [b|] eqn:Hb.
    + assert (k < length (input s))%nat as Hkl by (by apply lookup_lt_is_Some_1; eexists).
      unfold bind. rewrite (read_byte_cons _ b (drop (S k) (input s)))
        by (unfold advance; cbn; by apply drop_S).
      rewrite advance_advance, Nat.add_1_r, <-(take_S_r _ _ _ Hb).
      replace (Nat.min max (length (input s)) - k)%nat
        with (S (Nat.min max (length (input s)) - S k)) by lia.
      cbn [seq List.find]. destruct (ends_head (take (S k) (input s))); [done|].
      rewrite IH by lia. done.
    + apply lookup_ge_None in Hb. assert (k = length (input s)) as -> by lia.
      replace (Nat.min max (length (input s)) - length (input s))%nat with O by lia.
      cbn [seq List.find]. unfold bind.
      rewrite read_byte_nil; [|unfold advance; cbn; by rewrite drop_all|unfold advance; cbn; by rewrite drop_all].
      unfold head_failure at 1. unfold advance at 1 2 3. cbn [input after_input]. rewrite drop_all.
      change (MAX_REQUEST_HEAD_BYTES <=? len []) with false. unfold head_failure.
      replace (MAX_REQUEST_HEAD_BYTES <=? len (input s)) with false
        by (symmetry; apply N.leb_gt; unfold len; lia).
      unfold advance. rewrite !drop_ge by lia. done.
Qed.

Lemma read_request_head_spec s :
  read_request_head s =
  Ret (match head_length (input s) with
       | Some n => (Ok (take n (input s)), advance n s)
       | None => (Err (head_failure s), advance (N.to_nat MAX_REQUEST_HEAD_BYTES) s)
       end).
Proof.
  unfold read_request_head, head_length. rewrite <-(advance_0 s) at 1.
  generalize (N2Nat.id MAX_REQUEST_HEAD_BYTES). unfold HEAD_FUEL.
  generalize (N.to_nat MAX_REQUEST_HEAD_BYTES). intros max Hmax.
  pose proof (read_loop_spec max max 0 s Hmax) as H. rewrite take_0 in H.
  rewrite H by lia. by rewrite Nat.sub_0_r.
Qed.

(** ** Writing *)
Lemma sink_write_app s a b :
  sink_write s (a ++ b) =
  if (sink_write s a).1 then sink_write (sink_write s a).2 b else (false, (sink_write s a).2).
Proof.
  unfold sink_write. destruct (accepts s) as [n|]; cbn.
  - rewrite len_app. destruct (N.leb_spec (len a) n); cbn.
    + replace (len a + len b <=? n) with (len b <=? n - len a)
        by (destruct (N.leb_spec (len a + len b) n), (N.leb_spec (len b) (n - len a)); lia).
      destruct (N.leb_spec (len b) (n - len a)); [by rewrite N.sub_add_distr, app_assoc|].
      f_equal. f_equal. rewrite <-app_assoc. f_equal. unfold prefix_to.
      rewrite take_app_ge by (unfold len in *; lia). f_equal. f_equal. unfold len in *. lia.
    + replace (len a + len b <=? n) with false by (symmetry; apply N.leb_gt; lia).
      f_equal. f_equal. f_equal. unfold prefix_to. rewrite take_app_le; [done|unfold len in *; lia].
  - by rewrite app_assoc.
Qed.

Lemma set_client_client f g s : set_client f (set_client g s) = set_client f s.
Proof. done. Qed.

Lemma write_client_run bytes s :
  write_client bytes s =
  Ret (if (sink_write (client s) bytes).1 then Ok tt else Err CoverServiceError.Transport,
       set_client (sink_write (client s) bytes).2 s).
Proof. unfold write_client, bind, get, modify, reject_if. by destruct (sink_write _ _).1. Qed.
Lemma write_upstream_run bytes s :
  write_upstream bytes s =
  Ret (if (sink_write (upstream s) bytes).1 then Ok tt else Err CoverServiceError.Transport,
       set_upstream (sink_write (upstream s) bytes).2 s).
Proof. unfold write_upstream, bind, get, modify, reject_if. by destruct (sink_write _ _).1. Qed.

(** ** The whole of a connection *)

(** The bytes that answer a head, if it is a request for a path. *)
Definition static_response (service : StaticService) (head : list byte) : option (list byte) :=
  path ← request_path head;
  let '(status, asset) := select_asset service path in
  Some (Utf8.encode (response_head status asset) ++
        if bool_decide (request_method head = Some (str "HEAD")) then [] else body asset).

Lemma serve_static_run service head s :
  serve_static service head s =
  Ret (match static_response service head with
       | None => (Err CoverServiceError.MalformedRequest, s)
       | Some response =>
         (if (sink_write (client s) response).1 then Ok tt else Err CoverServiceError.Transport,
          set_client (sink_write (client s) response).2 s)
       end).
Proof.
  unfold serve_static, static_response. destruct (request_path head) as [path|]; [|done].
  cbn [ok_or mbind option_bind]. unfold bind, ret. destruct (select_asset service path) as [status asset].
  rewrite write_client_run. destruct (bool_decide _); cbn [negb].
  - rewrite app_nil_r. destruct (sink_write _ _).1; done.
  - rewrite sink_write_app. destruct (sink_write (client s) (Utf8.encode _)).1; [|done].
    by rewrite write_client_run, set_client_client.
Qed.

(** C20. Serving a connection under a valid configuration always returns.  It
    reads the shortest head of at most 16 KiB and nothing after it, and
    otherwise fails without writing a byte to either side.  A static service
    then writes the one response of that head, or as much of it as the client
    takes, never touches an upstream, and succeeds exactly when all was
    taken; a head that is no request for a path is refused without an answer.
    A reverse proxy passes exactly the head to an upstream it connected to,
    and writes nothing of its own to the client. *)
Theorem serve_cover_spec io config s :
  CoverServiceConfig.validate config = Ok tt ->
  exists r s', serve_cover_connection io config s = Ret (r, s') /\
  match head_length (input s) with
  | None =>
    r = Err (head_failure s) /\ client s' = client s /\ upstream s' = upstream s /\ copied s' = copied s
  | Some n =>
    let head := take n (input s) in
    input s' = drop n (input s) /\
    match mode config with
    | Static service =>
      upstream s' = upstream s /\ copied s' = copied s /\
      match static_response service head with
      | None => r = Err CoverServiceError.MalformedRequest /\ client s' = client s
      | Some response =>
        client s' = (sink_write (client s) response).2 /\
        r = (if (sink_write (client s) response).1 then Ok tt else Err CoverServiceError.Transport)
      end
    | ReverseProxy _ =>
      client s' = client s /\
      if connects io then
        let '(written, sink) := sink_write (upstream s) head in
        upstream s' = sink /\ copied s' = (written || copied s) /\
        r = (if written && copies io then Ok tt else Err CoverServiceError.Transport)
      else
        r = Err CoverServiceError.UpstreamUnavailable /\ upstream s' = upstream s /\ copied s' = copied s
    end
  end.
Proof.
  intros Hvalid. unfold serve_cover_connection. rewrite Hvalid. cbn [lift_result].
  unfold bind at 1. cbn [ret]. unfold bind at 1. rewrite read_request_head_spec.
  destruct (head_length (input s)) as [n|]; [|by do 2 eexists].
  destruct (mode config) as [service|address].
  - rewrite serve_static_run.
    destruct (static_response service (take n (input s))) as [response|]; do 2 eexists; by split_and!.
  - unfold serve_upstream, bind, reject_if, modify. destruct (connects io); cbn [negb]; [|by do 2 eexists].
    cbn [ret]. rewrite write_upstream_run. cbn [upstream advance].
    destruct (sink_write (upstream s) _) as [[] sink]; [|by do 2 eexists].
    destruct (copies io); by do 2 eexists.
Qed.

(** ** The lines of a response *)
Lemma control_free_char s c :
  existsb byte_is_ascii_control (Utf8.encode s) = false -> c < 32 -> c ∉ s.
Proof.
  intros Hs Hc Hin. assert (existsb byte_is_ascii_control (Utf8.encode s) = true); [|congruence].
  apply existsb_exists. exists (byte_of_N c). split.
  - apply list_elem_of_split in Hin as (a & b & ->). rewrite Utf8.encode_app, Utf8.encode_cons.
    apply in_or_app. right. apply in_or_app. left. unfold Utf8.encode_char.
    replace (c <? 128) with true by (symmetry; apply N.ltb_lt; lia). by left.
  - unfold byte_is_ascii_control. rewrite to_N_byte_of_N by lia.
    by rewrite (proj2 (N.ltb_lt _ _) Hc).
Qed.

Lemma existsb_false {A} (f : A -> bool) l x : existsb f l = false -> In x l -> f x = false.
Proof.
  intros Hf Hin. apply not_true_iff_false. intros Hx.
  enough (existsb f l = true) by congruence. apply existsb_exists. eauto.
Qed.

Lemma validated_asset service path asset :
  StaticService.validate service = Ok tt -> assets service !! path = Some asset ->
  valid_path path = true /\ valid_content_type (content_type asset) = true.
Proof.
  unfold StaticService.validate. intros Hv Hl%elem_of_map_to_list%list_elem_of_In.
  destruct (is_empty _); [done|]. cbn [orb] in Hv.
  destruct (existsb (fun item => negb (valid_path item.1)) _) eqn:Hp; [done|].
  destruct (existsb (fun item => negb (valid_content_type _)) _) eqn:Ht; [done|].
  by split; apply negb_false_iff; [apply (existsb_false _ _ _ Hp Hl)|apply (existsb_false _ _ _ Ht Hl)].
Qed.

Lemma no_cr_digits n : 13 ∉ display_uint n.
Proof.
  destruct (display_uint_spec n n (N.le_refl n)) as (_ & Hd & _). intros Hin.
  rewrite Forall_forall in Hd. by specialize (Hd 13 Hin).
Qed.

(** A line written as a literal and a value without a carriage return. *)
Lemma split_crlf_field p v rest :
  13 ∉ p -> 13 ∉ v -> split_crlf (p ++ v ++ crlf ++ rest) = (p ++ v) :: split_crlf rest.
Proof.
  intros Hp Hv. rewrite (app_assoc p). apply split_crlf_line, crlf_free_plain.
  by apply not_elem_of_app.
Qed.
#[local] Ltac no_cr_literal := by apply (bool_decide_unpack _); vm_compute.

Lemma response_head_lines status asset :
  13 ∉ status -> valid_content_type (content_type asset) = true ->
  split_crlf (response_head status asset) =
  [str "HTTP/1.1 " ++ status; str "Content-Type: " ++ content_type asset;
   str "Content-Length: " ++ display_uint (len (body asset)); str "Connection: close"; []; []].
Proof.
  intros Hs [_ Ht%negb_true_iff]%andb_true_iff. unfold response_head.
  rewrite split_crlf_field by first [no_cr_literal|done].
  rewrite split_crlf_field by first [no_cr_literal|by apply (control_free_char _ 13 Ht eq_refl)].
  rewrite split_crlf_field by first [no_cr_literal|apply no_cr_digits]. done.
Qed.

Lemma select_asset_spec service path status asset :
  StaticService.validate service = Ok tt -> select_asset service path = (status, asset) ->
  13 ∉ status /\ valid_content_type (content_type asset) = true /\
  match assets service !! path with
  | Some configured => status = str "200 OK" /\ asset = configured /\ valid_path path = true
  | None => status = str "404 Not Found" /\ asset = missing
  end.
Proof.
  intros Hv. unfold select_asset. destruct (assets service !! path) as [a|] eqn:Hl; intros [= <- <-].
  - destruct (validated_asset service path a Hv Hl). split; [no_cr_literal|done].
  - split; [no_cr_literal|done].
Qed.

(** What a validated static service answers is an HTTP response that reads
    back as it was meant, whatever the configured texts are: split at its line
    ends, its head is the status line, the content type, a content length that
    parses to the length of the body, [Connection: close] and one blank line,
    with nothing injected between them; the asset is the one configured for the
    requested path, with 200, and otherwise the fixed 404; the body follows the
    head unless the request was a HEAD. *)
Theorem cover_response_lines service head response :
  StaticService.validate service = Ok tt -> static_response service head = Some response ->
  exists method path status asset length,
    request_method head = Some method /\ (method = str "GET" \/ method = str "HEAD") /\
    request_path head = Some path /\
    match assets service !! path with
    | Some configured => status = str "200 OK" /\ asset = configured /\ valid_path path = true
    | None => status = str "404 Not Found" /\ asset = missing
    end /\
    response = Utf8.encode (response_head status asset) ++
      (if decide (method = str "HEAD") then [] else body asset) /\
    split_crlf (response_head status asset) =
      [str "HTTP/1.1 " ++ status; str "Content-Type: " ++ content_type asset;
       str "Content-Length: " ++ length; str "Connection: close"; []; []] /\
    forall max, len (body asset) <= max -> parse_uint max length = Some (len (body asset)).
Proof.
  intros Hv. unfold static_response. destruct (request_path head) as [path|] eqn:Hp; [|done].
  cbn [mbind option_bind]. destruct (select_asset service path) as [status asset] eqn:Hs.
  intros [= <-]. destruct (select_asset_spec _ _ _ _ Hv Hs) as (Hstatus & Htype & Hasset).
  assert (exists method, request_method head = Some method /\
    (method = str "GET" \/ method = str "HEAD")) as (method & Hm & Hmethod).
  { unfold request_path, request_method in *.
    destruct (first_line_fields head) as [[|m [|p fields]]|]; [done..| |done].
    exists m. split; [done|]. unfold str_eqb in Hp. do 2 case_bool_decide; auto. done. }
  exists method, path, status, asset, (display_uint (len (body asset))).
  split_and!; [done..| | |].
  - rewrite Hm. f_equal. destruct (decide (method = str "HEAD")) as [->|Hne]; [done|].
    rewrite bool_decide_eq_false_2; [done|congruence].
  - by apply response_head_lines.
  - intros max. apply parse_display.
Qed.

(** ** Profiles *)
Definition profile_wf (p : TrafficProfile.t) : Prop :=
  TrafficProfile.schema_version p = 1 /\
  0 < utf8_len (TrafficProfile.identifier p) <= 64 /\
  TrafficProfile.write_size_classes p <> [] /\
  StronglySorted N.lt (TrafficProfile.write_size_classes p).

Lemma any_window_sorted l : any_window (fun a b => b <=? a) l = false -> StronglySorted N.lt l.
Proof.
  intros H. apply Sorted_StronglySorted; [intros x y z; apply N.lt_trans|].
  induction l as [|a [|b l] IH]; [constructor|by repeat constructor|].
  cbn [any_window] in H. apply orb_false_iff in H as [Hab%N.leb_gt H].
  constructor; [by apply IH|by constructor].
Qed.

Lemma utf8_len_pos s : is_empty s = false -> 0 < utf8_len s.
Proof.
  destruct s as [|c s]; [done|]. intros _. cbn. unfold utf8_len_char. repeat case_match; lia.
Qed.

Lemma validate_ok p now :
  TrafficProfile.validate p now = Ok tt -> profile_wf p /\ now < TrafficProfile.expires_at p.
Proof.
  unfold TrafficProfile.validate, profile_wf.
  destruct (N.eqb_spec (TrafficProfile.schema_version p) 1) as [Hs|]; [|done]. cbn [negb].
  destruct (is_empty (TrafficProfile.identifier p)) eqn:Hi; [done|].
  destruct (N.ltb_spec 64 (utf8_len (TrafficProfile.identifier p))); [done|].
  destruct (is_empty (TrafficProfile.write_size_classes p)) eqn:Hw; [done|]. cbn [orb].
  destruct (any_window _ _) eqn:Ha; [done|].
  destruct (N.leb_spec (TrafficProfile.expires_at p) now); [done|]. intros _.
  apply utf8_len_pos in Hi. apply any_window_sorted in Ha.
  split_and!; try done. intros Heq. by rewrite Heq in Hw.
Qed.

Section rotation.
Context (verify : ProfileUpdate -> bool).
Import ForestRuntime.
Notation active_of st := (ProfileStore.active (profiles st)).
Notation expiry st := (TrafficProfile.expires_at (active_of st)).

(** A rotation is refused and changes nothing, or it is verified, valid now,
    of another name and later. *)
Lemma rotate_spec update now st :
  exists r st', ProfileStore.rotate verify update now st = Ret (r, st') /\
  (is_ok r = true /\ ProfileStore.active st' = profile update /\ verify update = true /\
     TrafficProfile.validate (profile update) now = Ok tt /\
     TrafficProfile.identifier (profile update) <> TrafficProfile.identifier (ProfileStore.active st) /\
     TrafficProfile.expires_at (ProfileStore.active st) < TrafficProfile.expires_at (profile update) \/
   is_ok r = false /\ st' = st).
Proof.
  unfold ProfileStore.rotate, bind, get, reject_if, modify.
  destruct (verify update); cbn [negb]; [|by do 2 eexists; split; [|right]].
  cbn [ret]. destruct (TrafficProfile.validate _ _) as [[]|e] eqn:Hv; cbn [lift_result id];
    [|by do 2 eexists; split; [|right]].
  unfold ret. unfold str_eqb. case_bool_decide; cbn [orb]; [by do 2 eexists; split; [|right]|].
  destruct (N.leb_spec (TrafficProfile.expires_at (profile update))
    (TrafficProfile.expires_at (ProfileStore.active st))); [by do 2 eexists; split; [|right]|].
  do 2 eexists. split; [done|]. by left.
Qed.

(** What a call does to the active profile. *)
Definition rotated (calls : list Call) (before after : t) : Prop :=
  exists update now, Rotate update now ∈ calls /\ active_of after = profile update /\
    verify update = true /\ TrafficProfile.validate (profile update) now = Ok tt /\
    TrafficProfile.identifier (profile update) <> TrafficProfile.identifier (active_of before) /\
    expiry before < expiry after.

Lemma call_spec c st :
  active_of (call verify c st) = active_of st \/ rotated [c] st (call verify c st).
Proof.
  destruct c as [update now| |]; [|by left..]. cbn [call].
  destruct (rotate_spec update now (profiles st)) as (r & st' & -> & [(_ & Ha & Hr)|[_ ->]]); [|by left].
  right. exists update, now. cbn. rewrite Ha. split; [by left|]. by split.
Qed.

Lemma call_wf c st : profile_wf (active_of st) -> profile_wf (active_of (call verify c st)).
Proof.
  intros Hwf. destruct (call_spec c st) as [->|(u & now & _ & -> & _ & Hv & _)]; [done|].
  by apply validate_ok in Hv as [].
Qed.

Lemma history_expiry calls st st' :
  st' ∈ history verify calls st -> active_of st' = active_of st \/ expiry st < expiry st'.
Proof.
  revert st. induction calls as [|c calls IH]; intros st; cbn [history].
  { intros ->%list_elem_of_singleton. by left. }
  intros [->|Hin]%elem_of_cons; [by left|]. apply IH in Hin.
  destruct (call_spec c st) as [Heq|(_ & _ & _ & _ & _ & _ & _ & Hlt)].
  - by rewrite Heq in Hin.
  - right. destruct Hin as [->|]; lia.
Qed.

(** The store is well typed for ever: a store made by [ProfileStore::new]
    holds, after any calls with any updates at any times and under any
    verifier, a profile of schema 1 with an identifier of 1 to 64 bytes and
    strictly increasing, non-empty write size classes; and the runtime hands it
    out exactly while traffic is enabled and the profile has not expired. *)
Theorem profile_store_typed first now store calls st :
  ProfileStore.new first now = Ok store ->
  st ∈ history verify calls (new store) ->
  profile_wf (active_of st) /\
  forall time, active_profile st time =
    if decide (traffic_enabled st = true /\ time < expiry st) then Some (active_of st) else None.
Proof.
  intros Hnew Hin. split.
  - assert (profile_wf (active_of (new store))) as Hwf.
    { unfold ProfileStore.new in Hnew. apply and_then_Ok in Hnew as ([] & Hv & [= <-]).
      by apply validate_ok in Hv as []. }
    clear Hnew. revert Hwf Hin. generalize (new store). induction calls as [|c calls IH]; intros st0 Hwf; cbn [history].
    + by intros ->%list_elem_of_singleton.
    + intros [->|Hin]%elem_of_cons; [done|]. by apply (IH (call verify c st0)); [apply call_wf|].
  - intros time. unfold active_profile. destruct (traffic_enabled st); cbn [andb].
    + destruct (N.ltb_spec time (expiry st)); case_decide as Hd; [done|tauto|lia|done].
    + case_decide as Hd; [|done]. by destruct Hd.
Qed.

(** Rotation only goes forward.  Among the states a runtime goes through
    under any calls, of two in order the later one has the same active profile
    or one that expires strictly later, so a profile that was replaced never
    comes back; and at each call the active profile stays, or becomes that of
    an update the verifier accepted, valid at that time and under another
    identifier.  Disabling and enabling traffic never change it. *)
Theorem profile_rotation_forward calls st pre earlier mid later post :
  history verify calls st = pre ++ earlier :: mid ++ later :: post ->
  (active_of later = active_of earlier \/ expiry earlier < expiry later) /\
  (active_of later = active_of earlier -> forall between, between ∈ mid -> active_of between = active_of earlier) /\
  (mid = [] -> active_of later = active_of earlier \/ rotated calls earlier later).
Proof.
  revert st pre earlier mid. induction calls as [|c calls IH]; intros st pre earlier mid; cbn [history].
  - destruct pre as [|? [|]], mid; done.
  - destruct pre as [|p pre]; cbn [app].
    + intros [= <- Hh].
      assert (forall between, between ∈ mid ++ later :: post ->
        active_of between = active_of st \/ expiry st < expiry between) as Hall.
      { intros x Hx. rewrite <-Hh in Hx. apply (history_expiry (c :: calls)). by right. }
      split_and!.
      * apply Hall. apply elem_of_app. right. by left.
      * intros Heq between Hbetween.
        destruct (Hall between) as [|Hlt]; [by apply elem_of_app; left|done|].
        apply list_elem_of_split in Hbetween as (l1 & l2 & ->). rewrite <-app_assoc in Hh.
        cbn [app] in Hh. destruct (IH _ _ _ _ Hh) as [Hle _]. rewrite Heq in Hle.
        destruct Hle as [Hsame|]; [rewrite Hsame in Hlt|]; lia.
      * intros ->. cbn [app] in Hh. destruct calls; cbn [history] in Hh; injection Hh as Hl _; subst later;
          (destruct (call_spec c st) as [|(u & now & Hin & Hr)]; [by left|right; exists u, now; split; [|exact Hr]]);
          apply list_elem_of_singleton in Hin; rewrite Hin; by left.
    + intros [= <- Hh]. destruct (IH _ _ _ _ Hh) as (Hle & Hbetween & Hstep).
      split_and!; [done..|]. intros Hm. destruct (Hstep Hm) as [|(u & now & Hin & Hr)]; [by left|].
      right. exists u, now. split; [by right|done].
Qed.
End rotation.

(** ** Concrete runs *)
Module ForestExamples.
Definition index : StaticAsset := {| content_type := str "text/html"; body := Utf8.encode (str "<p>Hi</p>") |}.
Definition site : StaticService := {| assets := {[ str "/" := index ]} |}.
Definition site_config : CoverServiceConfig :=
  {| schema_version := 1; mode := Static site; request_head_timeout := 5; upstream_timeout := 5 |}.
Definition proxy_config : CoverServiceConfig :=
  {| schema_version := 1; mode := ReverseProxy (SocketAddr.new (V4 2130706433) 80);
     request_head_timeout := 5; upstream_timeout := 5 |}.
Definition request : list byte := Utf8.encode (str "GET / HTTP/1.1" ++ crlf ++ crlf).
Definition unlimited : Sink := {| accepts := None; taken := [] |}.
Definition connection (bytes : list byte) : Connections :=
  {| input := bytes; after_input := Stalls; client := unlimited; upstream := unlimited; copied := false |}.
Definition io : CoverIo := {| connects := true; copies := true |}.

Example cover_site :
  serve_cover_connection io site_config (connection (request ++ [x41])) =
  Ret (Ok tt, {| input := [x41]; after_input := Stalls; upstream := unlimited; copied := false;
    client := {| accepts := None;
      taken := Utf8.encode (str "HTTP/1.1 200 OK" ++ crlf ++ str "Content-Type: text/html" ++ crlf
        ++ str "Content-Length: 9" ++ crlf ++ str "Connection: close" ++ crlf ++ crlf ++ str "<p>Hi</p>") |} |}).
Proof. vm_compute. reflexivity. Qed.

Example cover_stalled :
  eval (serve_cover_connection io site_config) (connection [x47; x45]) =
  Ret (Err CoverServiceError.RequestTimedOut).
Proof. vm_compute. reflexivity. Qed.

Lemma serve_cover_spec_witness :
  CoverServiceConfig.validate proxy_config = Ok tt /\
  exists r s', serve_cover_connection io proxy_config (connection request) = Ret (r, s') /\
    client s' = unlimited.
Proof.
  split; [vm_compute; reflexivity|].
  destruct (serve_cover_spec io proxy_config (connection request) eq_refl) as (r & s' & Hrun & H).
  exists r, s'. split; [exact Hrun|].
  assert (head_length (input (connection request)) = Some 18%nat) as Heq by (vm_compute; reflexivity).
  rewrite Heq in H. destruct H as [_ [Hc _]]. exact Hc.
Defined.

Lemma cover_response_lines_witness : exists method status asset length,
  request_method request = Some method /\ request_path request = Some (str "/") /\
  status = str "200 OK" /\ asset = index /\
  split_crlf (response_head status asset) =
    [str "HTTP/1.1 " ++ status; str "Content-Type: " ++ content_type asset;
     str "Content-Length: " ++ length; str "Connection: close"; []; []].
Proof.
  destruct (cover_response_lines site request (default [] (static_response site request)))
    as (method & path & status & asset & length & Hm & _ & Hp & Ha & _ & Hl & _).
  - vm_compute. reflexivity.
  - vm_compute. reflexivity.
  - exists method, status, asset, length.
    assert (request_path request = Some (str "/")) as Hpath by (vm_compute; reflexivity).
    rewrite Hpath in Hp. injection Hp as <-.
    assert (assets site !! str "/" = Some index) as Hi by (vm_compute; reflexivity).
    rewrite Hi in Ha. destruct Ha as (Hstatus & Hasset & _).
    exact (conj Hm (conj Hpath (conj Hstatus (conj Hasset Hl)))).
Defined.

Definition first : TrafficProfile.t :=
  {| TrafficProfile.schema_version := 1; TrafficProfile.identifier := str "one";
     TrafficProfile.digest := replicate 32 x00; TrafficProfile.expires_at := 100;
     TrafficProfile.write_size_classes := [512; 1024] |}.
Definition second : TrafficProfile.t :=
  {| TrafficProfile.schema_version := 1; TrafficProfile.identifier := str "two";
     TrafficProfile.digest := replicate 32 x01; TrafficProfile.expires_at := 200;
     TrafficProfile.write_size_classes := [256] |}.
(** Signatures of one byte. *)
Definition verifier (update : ProfileUpdate) : bool := bool_decide (proof update = [x01]).
Definition calls : list ForestRuntime.Call :=
  [ForestRuntime.Rotate {| profile := second; proof := [x01] |} 10;
   ForestRuntime.Disable;
   ForestRuntime.Rotate {| profile := first; proof := [x01] |} 20].
Definition runtime : ForestRuntime.t := ForestRuntime.new {| ProfileStore.active := first |}.

Lemma profile_store_typed_witness :
  let last := List.last (ForestRuntime.history verifier calls runtime) runtime in
  profile_wf (ProfileStore.active (ForestRuntime.profiles last)) /\
  ForestRuntime.active_profile last 150 = None.
Proof.
  intros last.
  destruct (profile_store_typed verifier first 5 {| ProfileStore.active := first |} calls last) as [Hwf Ha].
  - vm_compute. reflexivity.
  - do 3 apply list_elem_of_further. apply list_elem_of_here.
  - split; [exact Hwf|]. rewrite Ha. vm_compute. reflexivity.
Defined.

Lemma profile_rotation_forward_witness :
  let states := ForestRuntime.history verifier calls runtime in
  exists a b c d, states = [a; b; c; d] /\
  TrafficProfile.expires_at (ProfileStore.active (ForestRuntime.profiles a)) <
  TrafficProfile.expires_at (ProfileStore.active (ForestRuntime.profiles b)) /\
  (ProfileStore.active (ForestRuntime.profiles d) = ProfileStore.active (ForestRuntime.profiles a) \/
   TrafficProfile.expires_at (ProfileStore.active (ForestRuntime.profiles a)) <
   TrafficProfile.expires_at (ProfileStore.active (ForestRuntime.profiles d))).
Proof.
  intros states. do 4 eexists. split; [reflexivity|]. split; [vm_compute; reflexivity|].
  exact (proj1 (profile_rotation_forward verifier calls runtime [] _ [_; _] _ [] eq_refl)).
Defined.
End ForestExamples.
