(* ===== verification/Relay.v ===== *)
(** The node's admission of QUIC flows ([apps/velum-node/src/lib.rs] and
    [listener.rs]): the open record, the session a connection's streams and
    datagrams share, and the quota leases it holds, with any number of
    connections interleaving between the locks. *)
From S2P Require Import Prelude Net Str Utf8 IpText SocketText Carriers Admission.

(** ** Configuration *)
Definition MAX_SECRET_BYTES : N := 128.
Definition HEADER_BYTES : N := 4.

(** A [Duration] is a number of nanoseconds. *)
Record QuicRelayConfig := {
  schema_version : N;
  connect_timeout : N;
  control_timeout : N;
  shutdown_timeout : N;
  max_control_bytes : N;
  max_connections : N;
  max_streams_per_connection : N
}.

Inductive ConfigError :=
| UnsupportedSchema
| ZeroConnectTimeout
| ZeroControlTimeout
| ZeroShutdownTimeout
| ControlLimitTooSmall
| ZeroConnectionLimit
| ZeroStreamLimit
| StreamLimitTooLarge.

Definition config_default : QuicRelayConfig :=
  {| schema_version := 1; connect_timeout := 5000000000; control_timeout := 5000000000;
     shutdown_timeout := 5000000000; max_control_bytes := MAX_SECRET_BYTES + 64;
     max_connections := 1024; max_streams_per_connection := 64 |}.

Definition validate (self : QuicRelayConfig) : result unit ConfigError :=
  if negb (schema_version self =? 1) then Err UnsupportedSchema
  else if connect_timeout self =? 0 then Err ZeroConnectTimeout
  else if control_timeout self =? 0 then Err ZeroControlTimeout
  else if shutdown_timeout self =? 0 then Err ZeroShutdownTimeout
  else if max_control_bytes self <? HEADER_BYTES + 1 + utf8_len (str "[::1]:65535")
  then Err ControlLimitTooSmall
  else if max_connections self =? 0 then Err ZeroConnectionLimit
  else if max_streams_per_connection self =? 0 then Err ZeroStreamLimit
  else Ok tt.

Definition transport_profile (self : QuicRelayConfig) : result QuicTransportProfile ConfigError :=
  if max_streams_per_connection self <=? U32_MAX
  then Ok (set_max_bidirectional_streams (max_streams_per_connection self) profile_default)
  else Err StreamLimitTooLarge.

(** ** Events and errors *)
Inductive QuicRelayEvent :=
| ConnectionAccepted
| ConnectionRejected
| StreamRejected
| ControlRejected
| AuthenticationRejected
| DestinationRejected
| SessionQuotaRejected
| FlowQuotaRejected
| DatagramRejected
| DatagramAssociationLimit
| DatagramRelayed
| ConnectFailed
| FlowRelayed
| ShutdownStarted.

Inductive RelayError :=
| ErrorInvalidControl
| ErrorAuthenticationRejected
| ErrorDestinationRejected
| ErrorSessionQuotaRejected
| ErrorFlowQuotaRejected
| ErrorConnectFailed
| ErrorTransport.

(** ** The open record *)
Record OpenRequest := { open_secret : list byte; target : SocketAddr }.

Inductive ControlError := ControlInvalid | SecretTooLarge.

Definition encode_open (request : OpenRequest) : result (list byte) ControlError :=
  if is_empty (open_secret request) then Err ControlInvalid
  else
    match u16_try_from (len (open_secret request)) with
    | None => Err SecretTooLarge
    | Some secret_length =>
      if MAX_SECRET_BYTES <? len (open_secret request) then Err SecretTooLarge
      else
        let target := Utf8.encode (IpDisplay.display_socket (target request)) in
        match u16_try_from (len target) with
        | None => Err ControlInvalid
        | Some target_length =>
          Ok (to_be_bytes 2 secret_length ++ to_be_bytes 2 target_length ++
              open_secret request ++ target)
        end
    end.

Definition decode_open (bytes : list byte) : result OpenRequest ControlError :=
  match bytes with
  | s1 :: s0 :: t1 :: t0 :: rest =>
    let secret_length := from_be_bytes [s1; s0] in
    let target_length := from_be_bytes [t1; t0] in
    if (secret_length =? 0) || (MAX_SECRET_BYTES <? secret_length)
       || negb (len bytes =? HEADER_BYTES + secret_length + target_length)
    then Err ControlInvalid
    else
      match Utf8.decode (suffix_from secret_length rest) with
      | None => Err ControlInvalid
      | Some text =>
        match IpParser.parse_socket text with
        | None => Err ControlInvalid
        | Some target => Ok {| open_secret := prefix_to secret_length rest; target := target |}
        end
      end
  | _ => Err ControlInvalid
  end.

(** [receive.read_exact(..)] on a stream that ends, or fails, after the bytes
    [receive]. *)
Definition read_exact (n : N) (receive : list byte) : option (list byte * list byte) :=
  if n <=? len receive then Some (prefix_to n receive, suffix_from n receive) else None.

Definition read_open_request (receive : list byte) (maximum : N)
  : result (OpenRequest * list byte) RelayError :=
  if maximum <? HEADER_BYTES then Err ErrorInvalidControl
  else
    match read_exact HEADER_BYTES receive with
    | None => Err ErrorTransport
    | Some (header, receive) =>
      let secret_length := from_be_bytes (prefix_to 2 header) in
      let target_length := from_be_bytes (suffix_from 2 header) in
      let length := HEADER_BYTES + secret_length + target_length in
      if maximum <? length then Err ErrorInvalidControl
      else
        match read_exact (length - HEADER_BYTES) receive with
        | None => Err ErrorTransport
        | Some (body, receive) =>
          match decode_open (header ++ body) with
          | Ok request => Ok (request, receive)
          | Err _ => Err ErrorInvalidControl
          end
        end
    end.

(** ** The admission state of one connection *)
Record AdmittedSession := { session_principal : PrincipalId; lease : SessionLease }.

(** The deployment's authenticator and destinations; the quotas are shared by
    every connection and belong to the state. *)
Record RelayAdmission := { authenticator : Authenticator; destinations : DestinationPolicy }.

(** What an operation on a connection reads and writes: the connection's own
    session, the shared quotas, and the events and connection attempts it
    leaves behind. *)
Record RelayState := {
  session : option AdmittedSession;
  quotas : AdmissionControl;
  observed : list QuicRelayEvent;
  connected : list SocketAddr
}.

Definition RelayM (A : Type) : Type := M RelayState RelayError A.

Definition set_session (v : option AdmittedSession) (s : RelayState) : RelayState :=
  {| session := v; quotas := quotas s; observed := observed s; connected := connected s |}.
Definition set_quotas (v : AdmissionControl) (s : RelayState) : RelayState :=
  {| session := session s; quotas := v; observed := observed s; connected := connected s |}.
(** [observer.record(event)] *)
Definition record (event : QuicRelayEvent) : RelayM unit :=
  modify (fun s => {| session := session s; quotas := quotas s;
                      observed := observed s ++ [event]; connected := connected s |}).
(** [TcpStream::connect(target)] *)
Definition connect (target : SocketAddr) : RelayM unit :=
  modify (fun s => {| session := session s; quotas := quotas s; observed := observed s;
                      connected := connected s ++ [target] |}).

(** One critical section on the shared quotas, and what its result becomes. *)
Definition in_quotas {A} (m : M AdmissionControl AdmissionError A)
  : RelayM (result A AdmissionError) := fun s =>
  match m (quotas s) with
  | Ret (r, q) => Ret (Ok r, set_quotas q s)
  | Panic => Panic
  | OutOfFuel => OutOfFuel
  end.
(** [let _ = ..] *)
Definition ignore {A} (m : RelayM A) : RelayM unit := let! _ := m in ret tt.
(** [if let Err(error) = m { handler(error) }] *)
Definition on_error {A} (m : RelayM A) (handler : RelayError -> RelayM A) : RelayM A := fun s =>
  match m s with
  | Ret (Err e, s') => handler e s'
  | o => o
  end.

Definition open_session (principal : PrincipalId) : RelayM SessionLease :=
  let! r := in_quotas (AdmissionControl.open_session principal) in
  match r with
  | Ok lease => ret lease
  | Err SessionQuotaExceeded => record SessionQuotaRejected ;! throw ErrorSessionQuotaRejected
  | Err _ => throw ErrorTransport
  end.

Definition open_flow (principal : PrincipalId) (lease : SessionLease) : RelayM unit :=
  let! r := in_quotas (AdmissionControl.open_flow principal lease) in
  match r with
  | Ok _ => ret tt
  | Err FlowQuotaExceeded => record FlowQuotaRejected ;! throw ErrorFlowQuotaRejected
  | Err _ => throw ErrorTransport
  end.

(** The session of the connection, opened when it has none: the lease and
    whether it is new. *)
Definition bind_session (principal : PrincipalId) : RelayM (SessionLease * bool) :=
  let! session := gets session in
  match session with
  | Some existing =>
    if negb (session_principal existing =? principal)
    then record AuthenticationRejected ;! throw ErrorAuthenticationRejected
    else ret (lease existing, false)
  | None =>
    let! lease := open_session principal in
    modify (set_session (Some {| session_principal := principal; lease := lease |})) ;!
    ret (lease, true)
  end.

(** A failed first flow must not leave a session quota consumed. *)
Definition undo_session (principal : PrincipalId) (created : SessionLease * bool) : RelayM unit :=
  if created.2 then
    ignore (in_quotas (AdmissionControl.close_session principal created.1)) ;!
    modify (set_session None)
  else ret tt.

Section relay.
Context `{ConstantTimeEq}.

Definition authenticate (admission : RelayAdmission) (credential : list byte) : RelayM PrincipalId :=
  match Authenticator.authenticate (authenticator admission) credential with
  | Ok principal => ret principal
  | Err _ => record AuthenticationRejected ;! throw ErrorAuthenticationRejected
  end.

Definition admit_datagram (admission : RelayAdmission) (credential : list byte) : RelayM unit :=
  let! principal := authenticate admission credential in
  bind_session principal ;!
  ret tt.

Definition reserve_flow (principal : PrincipalId) : RelayM SessionLease :=
  let! created := bind_session principal in
  on_error (open_flow principal created.1)
    (fun error => undo_session principal created ;! throw error) ;!
  ret created.1.

Definition release_flow (flow : SessionLease) : RelayM unit :=
  let! session := gets session in
  match session with
  | Some s =>
    if lease s =? flow
    then ignore (in_quotas (AdmissionControl.close_flow (session_principal s) flow))
    else ret tt
  | None => ret tt
  end.

Definition close : RelayM unit :=
  let! session := gets session in
  modify (set_session None) ;!
  match session with
  | Some s => ignore (in_quotas (AdmissionControl.close_session (session_principal s) (lease s)))
  | None => ret tt
  end.

(** What the network does to one stream: the bytes of its control record, or
    nothing when the control timeout fires first, and how the relay between
    the stream and its target ends. *)
Record StreamIo := { control : option (list byte); relayed : result unit RelayError }.

Definition relay_parts (target : SocketAddr) (io : StreamIo) : RelayM (result unit RelayError) :=
  connect target ;! ret (relayed io).

(** The first half of [relay_quic_stream]: the control record, the credential
    and the destination. *)
Definition admit_request (admission : RelayAdmission) (config : QuicRelayConfig) (io : StreamIo)
  : RelayM (PrincipalId * SocketAddr) :=
  let! request :=
    match control io with
    | None => record ControlRejected ;! throw ErrorInvalidControl
    | Some bytes =>
      match read_open_request bytes (max_control_bytes config) with
      | Ok (request, _) => ret request
      | Err error => record ControlRejected ;! throw error
      end
    end in
  let! principal := authenticate admission (open_secret request) in
  if negb (DestinationPolicy.allows (destinations admission) (target request))
  then record DestinationRejected ;! throw ErrorDestinationRejected
  else ret (principal, target request).

Definition relay_quic_stream (admission : RelayAdmission) (config : QuicRelayConfig)
    (io : StreamIo) : RelayM unit :=
  match validate config with Ok _ => ret tt | Err _ => throw ErrorInvalidControl end ;!
  let! admitted := admit_request admission config io in
  let! flow := reserve_flow admitted.1 in
  let! result := relay_parts admitted.2 io in
  release_flow flow ;!
  match result with
  | Ok _ => record FlowRelayed
  | Err error => record ConnectFailed ;! throw error
  end.
End relay.

(** ** Connections interleaving

    A connection's session lock is held for a whole reservation, release or
    close, while the shared quotas are locked for one call at a time: other
    connections act between the calls of a reservation, but the connection's
    own streams do not. *)
Inductive Phase :=
| Idle
| Bound (principal : PrincipalId) (created : SessionLease * bool)
| Refused (principal : PrincipalId) (created : SessionLease * bool).

Record Connection := {
  conn_session : option AdmittedSession;
  conn_flows : list SessionLease;  (* the leases its streams hold *)
  conn_phase : Phase
}.

Record World := { connections : gmap N Connection; shared : AdmissionControl }.

Definition focus (c : Connection) (w : World) : RelayState :=
  {| session := conn_session c; quotas := shared w; observed := []; connected := [] |}.
(** Connection [id] after an operation that ended in [s]. *)
Definition put (id : N) (s : RelayState) (flows : list SessionLease) (phase : Phase) (w : World)
  : World :=
  {| connections :=
       <[id := {| conn_session := session s; conn_flows := flows; conn_phase := phase |}]>
         (connections w);
     shared := quotas s |}.

Inductive step (w : World) : World -> Prop :=
| step_accept id :
    connections w !! id = None ->
    step w {| connections :=
                <[id := {| conn_session := None; conn_flows := []; conn_phase := Idle |}]>
                  (connections w);
              shared := shared w |}
| step_bind id c p created s :
    connections w !! id = Some c -> conn_phase c = Idle ->
    bind_session p (focus c w) = Ret (Ok created, s) ->
    step w (put id s (conn_flows c) (Bound p created) w)
| step_bind_rejected id c p e s :
    connections w !! id = Some c -> conn_phase c = Idle ->
    bind_session p (focus c w) = Ret (Err e, s) ->
    step w (put id s (conn_flows c) Idle w)
| step_datagram id c p r s :
    connections w !! id = Some c -> conn_phase c = Idle ->
    (bind_session p ;! ret tt) (focus c w) = Ret (r, s) ->
    step w (put id s (conn_flows c) Idle w)
| step_open id c p created s :
    connections w !! id = Some c -> conn_phase c = Bound p created ->
    open_flow p created.1 (focus c w) = Ret (Ok tt, s) ->
    step w (put id s (created.1 :: conn_flows c) Idle w)
| step_open_refused id c p created e s :
    connections w !! id = Some c -> conn_phase c = Bound p created ->
    open_flow p created.1 (focus c w) = Ret (Err e, s) ->
    step w (put id s (conn_flows c) (Refused p created) w)
| step_undo id c p created r s :
    connections w !! id = Some c -> conn_phase c = Refused p created ->
    undo_session p created (focus c w) = Ret (r, s) ->
    step w (put id s (conn_flows c) Idle w)
| step_release id c before flow after r s :
    connections w !! id = Some c -> conn_phase c = Idle ->
    conn_flows c = before ++ flow :: after ->
    release_flow flow (focus c w) = Ret (r, s) ->
    step w (put id s (before ++ after) Idle w)
| step_close id c r s :
    connections w !! id = Some c -> conn_phase c = Idle -> conn_flows c = [] ->
    close (focus c w) = Ret (r, s) ->
    step w {| connections := delete id (connections w); shared := quotas s |}.

Definition initial (quota : PrincipalQuota) : World :=
  {| connections := ∅; shared := AdmissionControl.new quota |}.
Definition reachable (quota : PrincipalQuota) : World -> Prop := rtc step (initial quota).

(** ** The quota calls, on a session that exists *)
Ltac quota_run H :=
  cbv [bind get gets ret throw modify ok_or expect reject_if checked_add checked_sub] in H.

Lemma open_session_inv p q r q' :
  AdmissionControl.open_session p q = Ret (r, q') ->
  (r = Err SessionQuotaExceeded /\ q' = q) \/
  (r = Ok (next_lease q) /\ AdmissionControl.count_sessions q p < max_sessions (quota q) /\
   q' = {| quota := quota q; next_lease := next_lease q + 1;
           sessions := <[(p, next_lease q) := {| used_flows := 0 |}]> (sessions q) |}).
Proof.
  unfold AdmissionControl.open_session. intros H. quota_run H.
  destruct (N.leb_spec (max_sessions (quota q)) (AdmissionControl.count_sessions q p)).
  - injection H as <- <-. by left.
  - destruct (next_lease q + 1 <=? U64_MAX); [|done]. injection H as <- <-. by right.
Qed.

Lemma open_flow_inv p l u q r q' :
  sessions q !! (p, l) = Some u -> AdmissionControl.open_flow p l q = Ret (r, q') ->
  (r = Err FlowQuotaExceeded /\ q' = q) \/
  (r = Ok tt /\ used_flows u < max_flows_per_session (quota q) /\
   q' = AdmissionControl.set_sessions (<[(p, l) := {| used_flows := used_flows u + 1 |}]> (sessions q)) q).
Proof.
  unfold AdmissionControl.open_flow. intros Hu H. quota_run H. rewrite Hu in H.
  destruct (N.leb_spec (max_flows_per_session (quota q)) (used_flows u)).
  - injection H as <- <-. by left.
  - destruct (used_flows u + 1 <=? U64_MAX); [|done]. injection H as <- <-. by right.
Qed.

Lemma close_flow_inv p l u q r q' :
  sessions q !! (p, l) = Some u -> 0 < used_flows u ->
  AdmissionControl.close_flow p l q = Ret (r, q') ->
  r = Ok tt /\
  q' = AdmissionControl.set_sessions (<[(p, l) := {| used_flows := used_flows u - 1 |}]> (sessions q)) q.
Proof.
  unfold AdmissionControl.close_flow. intros Hu Hpos H. quota_run H. rewrite Hu in H.
  rewrite (proj2 (N.eqb_neq _ _)) in H by lia. rewrite (proj2 (N.leb_le 1 _)) in H by lia.
  by injection H as <- <-.
Qed.

Lemma close_session_inv p l q r q' :
  is_Some (sessions q !! (p, l)) -> AdmissionControl.close_session p l q = Ret (r, q') ->
  r = Ok tt /\ q' = AdmissionControl.set_sessions (delete (p, l) (sessions q)) q.
Proof.
  unfold AdmissionControl.close_session. intros [u Hu] H. quota_run H. rewrite Hu in H.
  by injection H as <- <-.
Qed.

(** ** The operations of a connection, by what they leave *)
Definition opened (p : PrincipalId) (q : AdmissionControl) : AdmissionControl :=
  {| quota := quota q; next_lease := next_lease q + 1;
     sessions := <[(p, next_lease q) := {| used_flows := 0 |}]> (sessions q) |}.
Definition with_flows (p : PrincipalId) (l : SessionLease) (n : N) (q : AdmissionControl)
  : AdmissionControl :=
  AdmissionControl.set_sessions (<[(p, l) := {| used_flows := n |}]> (sessions q)) q.

Ltac relay_run H :=
  cbv [bind get gets ret throw modify in_quotas record ignore] in H.

Lemma bind_session_inv p s r s' :
  bind_session p s = Ret (r, s') ->
  (session s' = session s /\ quotas s' = quotas s /\
    ((exists e, r = Err e) \/
     exists x, session s = Some x /\ session_principal x = p /\ r = Ok (lease x, false))) \/
  (session s = None /\ r = Ok (next_lease (quotas s), true) /\
   session s' = Some {| session_principal := p; lease := next_lease (quotas s) |} /\
   quotas s' = opened p (quotas s) /\
   AdmissionControl.count_sessions (quotas s) p < max_sessions (quota (quotas s))).
Proof.
  unfold bind_session, open_session. intros H. relay_run H. destruct (session s) as [x|] eqn:Hs.
  - destruct (N.eqb_spec (session_principal x) p) as [Hp|Hp]; cbn [negb] in H;
      injection H as <- <-; left; cbn [session quotas]; eauto 8.
  - destruct (AdmissionControl.open_session p (quotas s)) as [[[l|[]] q]| |] eqn:Ho; try done;
      injection H as <- <-; apply open_session_inv in Ho as [[? ->]|(Heq & Hc & ->)]; simplify_eq; cbn [session quotas set_session set_quotas]; eauto 10.
Qed.

Lemma open_flow_state p l u s r s' :
  sessions (quotas s) !! (p, l) = Some u -> open_flow p l s = Ret (r, s') ->
  session s' = session s /\
  ((exists e, r = Err e) /\ quotas s' = quotas s \/
   r = Ok tt /\ quotas s' = with_flows p l (used_flows u + 1) (quotas s) /\
   used_flows u < max_flows_per_session (quota (quotas s))).
Proof.
  unfold open_flow. intros Hu H. relay_run H.
  destruct (AdmissionControl.open_flow p l (quotas s)) as [[[[]|[]] q]| |] eqn:Ho; try done;
    injection H as <- <-; eapply open_flow_inv in Ho as [[? ->]|(? & Hlt & ->)]; try exact Hu;
    simplify_eq; cbn [session quotas set_quotas]; eauto 10.
Qed.

Lemma release_flow_state x u s r s' :
  session s = Some x -> sessions (quotas s) !! (session_principal x, lease x) = Some u ->
  0 < used_flows u -> release_flow (lease x) s = Ret (r, s') ->
  r = Ok tt /\ session s' = Some x /\
  quotas s' = with_flows (session_principal x) (lease x) (used_flows u - 1) (quotas s).
Proof.
  unfold release_flow. intros Hs Hu Hpos H. relay_run H. rewrite Hs, N.eqb_refl in H.
  destruct (AdmissionControl.close_flow _ _ (quotas s)) as [[r0 q]| |] eqn:Ho; try done.
  destruct (close_flow_inv _ _ _ _ _ _ Hu Hpos Ho) as [-> ->]. injection H as <- <-. done.
Qed.

Lemma undo_session_state p l b s r s' :
  is_Some (sessions (quotas s) !! (p, l)) -> undo_session p (l, b) s = Ret (r, s') ->
  r = Ok tt /\
  if b then session s' = None /\
    quotas s' = AdmissionControl.set_sessions (delete (p, l) (sessions (quotas s))) (quotas s)
  else s' = s.
Proof.
  unfold undo_session. intros Hl H. destruct b; cbn [fst snd] in H; relay_run H.
  - destruct (AdmissionControl.close_session _ _ (quotas s)) as [[r0 q]| |] eqn:Ho; try done.
    destruct (close_session_inv _ _ _ _ _ Hl Ho) as [-> ->]. by injection H as <- <-.
  - by injection H as <- <-.
Qed.

Lemma close_state x s r s' :
  session s = Some x -> is_Some (sessions (quotas s) !! (session_principal x, lease x)) ->
  close s = Ret (r, s') ->
  r = Ok tt /\ session s' = None /\
  quotas s' = AdmissionControl.set_sessions
    (delete (session_principal x, lease x) (sessions (quotas s))) (quotas s).
Proof.
  unfold close. intros Hs Hl H. relay_run H. rewrite Hs in H. cbn [quotas set_session] in H.
  destruct (AdmissionControl.close_session _ _ (quotas s)) as [[r0 q]| |] eqn:Ho; try done.
  destruct (close_session_inv _ _ _ _ _ Hl Ho) as [-> ->]. by injection H as <- <-.
Qed.
Lemma close_state_none s r s' :
  session s = None -> close s = Ret (r, s') -> quotas s' = quotas s.
Proof. unfold close. intros Hs H. relay_run H. rewrite Hs in H. by injection H as <- <-. Qed.

(** ** The invariant *)
Definition owns (c : Connection) (k : PrincipalId * SessionLease) : Prop :=
  exists x, conn_session c = Some x /\ k = (session_principal x, lease x).

Definition phase_ok (x : AdmittedSession) (flows : list SessionLease) (phase : Phase) : Prop :=
  match phase with
  | Idle => True
  | Bound p created | Refused p created =>
    p = session_principal x /\ created.1 = lease x /\ (created.2 = true -> flows = [])
  end.

(** A connection's session is open in the shared quotas, and is charged one
    flow for every stream that holds its lease. *)
Definition conn_ok (q : AdmissionControl) (c : Connection) : Prop :=
  match conn_session c with
  | None => conn_flows c = [] /\ conn_phase c = Idle
  | Some x =>
    sessions q !! (session_principal x, lease x) = Some {| used_flows := len (conn_flows c) |} /\
    Forall (fun l => l = lease x) (conn_flows c) /\ phase_ok x (conn_flows c) (conn_phase c)
  end.

Record world_ok (w : World) : Prop := {
  wo_quota : quota_ok (shared w);
  wo_conn : forall id c, connections w !! id = Some c -> conn_ok (shared w) c;
  wo_owner : forall k, is_Some (sessions (shared w) !! k) ->
    exists id c, connections w !! id = Some c /\ owns c k;
  wo_excl : forall i j c d k, connections w !! i = Some c -> connections w !! j = Some d ->
    owns c k -> owns d k -> i = j
}.

Lemma owns_open q c k : conn_ok q c -> owns c k -> is_Some (sessions q !! k).
Proof. unfold conn_ok. intros Hc (x & Hx & ->). rewrite Hx in Hc. destruct Hc as [-> _]. eauto. Qed.

Lemma conn_ok_ext q q' c :
  (forall k, owns c k -> sessions q' !! k = sessions q !! k) -> conn_ok q c -> conn_ok q' c.
Proof.
  unfold conn_ok, owns. destruct (conn_session c) as [x|]; [|done].
  intros Hk (Hs & Hrest). split; [|done]. rewrite <-Hs. apply Hk. eauto.
Qed.

(** Replacing one connection, or removing it, keeps the invariant when only
    the sessions it owned, or that no one had, have changed. *)
Lemma world_ok_update w id c c' q' :
  world_ok w -> connections w !! id = Some c -> quota_ok q' ->
  (forall d, c' = Some d -> conn_ok q' d) ->
  (forall k, owns c k \/ sessions (shared w) !! k = None \/ sessions q' !! k = sessions (shared w) !! k) ->
  (forall k d, c' = Some d -> owns d k -> owns c k \/ sessions (shared w) !! k = None) ->
  (forall k, is_Some (sessions q' !! k) ->
    (exists d, c' = Some d /\ owns d k) \/ (~ owns c k /\ is_Some (sessions (shared w) !! k))) ->
  world_ok {| connections := partial_alter (fun _ => c') id (connections w); shared := q' |}.
Proof.
  intros [Hq Hc Ho He] Hid Hq' Hc' Hsame Hnew Hcover.
  assert (forall j d, j <> id -> connections w !! j = Some d ->
    forall k, owns d k -> ~ owns c k /\ is_Some (sessions (shared w) !! k)) as Hother.
  { intros j d Hj Hd k Hk. split; [|by eapply owns_open; eauto].
    intros Hck. apply Hj. by eapply (He j id). }
  constructor; cbn [connections shared]; [done| | |].
  - intros j d. destruct (decide (j = id)) as [->|Hj].
    + rewrite lookup_partial_alter_eq. apply Hc'.
    + rewrite lookup_partial_alter_ne by done. intros Hd.
      eapply conn_ok_ext; [|by eapply Hc]. intros k Hk.
      destruct (Hother j d Hj Hd k Hk) as [Hno [u Hu]].
      destruct (Hsame k) as [?|[Hn|?]]; [done|by rewrite Hu in Hn|done].
  - intros k [(d & -> & Hd)|[Hno Hk]]%Hcover.
    + exists id, d. by rewrite lookup_partial_alter_eq.
    + apply Ho in Hk as (j & d & Hj & Hd). exists j, d. split; [|done].
      rewrite lookup_partial_alter_ne; [done|]. intros ->. congruence.
  - intros i j d1 d2 k Hi Hj Hk1 Hk2.
    assert (forall j d e, j <> id -> connections w !! j = Some d -> owns d k ->
      c' = Some e -> owns e k -> False) as Hclash.
    { intros j' d e Hj' Hd Hdk Hce Hek. destruct (Hother j' d Hj' Hd k Hdk) as [Hno [u Hu]].
      destruct (Hnew k e Hce Hek) as [?|Hn]; [done|by rewrite Hu in Hn]. }
    destruct (decide (i = id)) as [->|Hi'], (decide (j = id)) as [->|Hj'];
      first [rewrite lookup_partial_alter_eq in Hi | rewrite lookup_partial_alter_ne in Hi by done];
      first [rewrite lookup_partial_alter_eq in Hj | rewrite lookup_partial_alter_ne in Hj by done].
    + done.
    + destruct (Hclash j d2 d1 Hj' Hj Hk2 Hi Hk1).
    + destruct (Hclash i d1 d2 Hi' Hi Hk1 Hj Hk2).
    + by eapply (He i j).
Qed.

Lemma world_ok_put w id c s flows phase :
  world_ok w -> connections w !! id = Some c -> quota_ok (quotas s) ->
  conn_ok (quotas s) {| conn_session := session s; conn_flows := flows; conn_phase := phase |} ->
  (forall k, owns c k \/ sessions (shared w) !! k = None \/
    sessions (quotas s) !! k = sessions (shared w) !! k) ->
  (forall x, session s = Some x -> conn_session c = Some x \/
    sessions (shared w) !! (session_principal x, lease x) = None) ->
  (forall k, is_Some (sessions (quotas s) !! k) ->
    (exists x, session s = Some x /\ k = (session_principal x, lease x)) \/
    (~ owns c k /\ is_Some (sessions (shared w) !! k))) ->
  world_ok (put id s flows phase w).
Proof.
  intros Hw Hid Hq Hc Hsame Hnew Hcover. unfold put.
  apply (world_ok_update w id c (Some _) (quotas s)); try done.
  - by intros d [= <-].
  - intros k d [= <-] (x & Hx & ->). destruct (Hnew x Hx) as [?|?]; [left|by right].
    by exists x.
  - intros k Hk. destruct (Hcover k Hk) as [(x & Hx & ->)|?]; [left|by right].
    eexists. split; [done|]. by exists x.
Qed.

(** ** Every step keeps the invariant *)
Lemma world_ok_bind w id c p r s phase :
  world_ok w -> connections w !! id = Some c -> conn_phase c = Idle ->
  bind_session p (focus c w) = Ret (r, s) ->
  (phase = Idle \/ exists created, r = Ok created /\ phase = Bound p created) ->
  world_ok (put id s (conn_flows c) phase w).
Proof.
  intros Hw Hid Hidle Hrun Hph. pose proof Hw as [Hq Hc _ _]. specialize (Hc id c Hid).
  apply bind_session_inv in Hrun as [(Hs & Hqs & Hr)|(Hs & -> & Hs' & Hqs & Hcount)];
    cbn [session quotas focus] in *.
  - apply (world_ok_put w id c); rewrite ?Hqs; try done; [|by right; right| |].
    + unfold conn_ok in *. cbn [conn_session conn_flows conn_phase]. rewrite Hs.
      destruct (conn_session c) as [x|].
      * destruct Hc as (? & ? & _). split_and!; try done.
        destruct Hph as [->|(cr & -> & ->)]; [done|].
        destruct Hr as [[? ?]|(y & [= <-] & Hp & [= ->])]; [done|]. by rewrite <-Hp.
      * destruct Hc as [? _]. split; [done|]. destruct Hph as [->|(cr & -> & ->)]; [done|].
        destruct Hr as [[? ?]|(y & ? & _)]; done.
    + rewrite Hs. by left.
    + intros k Hk. rewrite Hs. destruct (conn_session c) as [x|] eqn:Hx.
      * destruct (decide (k = (session_principal x, lease x))); [left; eauto|right].
        split; [|done]. intros (y & Hy & ->). congruence.
      * right. split; [|done]. intros (y & Hy & _). congruence.
  - assert (sessions (shared w) !! (p, next_lease (shared w)) = None) as Hfresh.
    { apply eq_None_not_Some. intros Hk%(qo_lease _ Hq). lia. }
    unfold conn_ok in Hc. rewrite Hs in Hc. destruct Hc as [Hfl _].
    apply (world_ok_put w id c); rewrite ?Hqs; try done.
    + by apply quota_ok_open.
    + unfold conn_ok. cbn [conn_session conn_flows conn_phase]. rewrite Hs', Hfl. cbn.
      rewrite lookup_insert_eq. split_and!; [done|done|].
      destruct Hph as [->|(cr & [= <-] & ->)]; done.
    + intros k. destruct (decide (k = (p, next_lease (shared w)))) as [->|Hk]; [by right; left|].
      right; right. cbn. by rewrite lookup_insert_ne.
    + rewrite Hs'. intros x [= <-]. by right.
    + intros k. cbn. rewrite Hs'. intros [u [[<- _]|[Hk Hu]]%lookup_insert_Some].
      * left. eauto.
      * right. split; [|by eauto]. intros (y & Hy & _). congruence.
Qed.

(** The charge of a session follows its flows. *)
Lemma world_ok_charge w id c x flows phase s :
  world_ok w -> connections w !! id = Some c -> conn_session c = Some x ->
  session s = Some x -> quotas s = with_flows (session_principal x) (lease x) (len flows) (shared w) ->
  len flows <= max_flows_per_session (quota (shared w)) ->
  Forall (fun l => l = lease x) flows -> phase_ok x flows phase ->
  world_ok (put id s flows phase w).
Proof.
  intros Hw Hid Hx Hs Hq Hmax Hall Hph. pose proof Hw as [Hqo Hc _ _]. specialize (Hc id c Hid).
  unfold conn_ok in Hc. rewrite Hx in Hc. destruct Hc as (Hl & _ & _).
  apply (world_ok_put w id c); rewrite ?Hq; try done.
  - by eapply quota_ok_update.
  - unfold conn_ok. cbn [conn_session conn_flows conn_phase]. rewrite Hs. cbn.
    by rewrite lookup_insert_eq.
  - intros k. destruct (decide (k = (session_principal x, lease x))) as [->|Hk].
    + left. by exists x.
    + right; right. cbn. by rewrite lookup_insert_ne.
  - rewrite Hs. intros y [= <-]. by left.
  - intros k. cbn. rewrite Hs. intros [u [[<- _]|[Hk Hu]]%lookup_insert_Some]; [left; eauto|].
    right. split; [|by eauto]. intros (y & Hy & ->). congruence.
Qed.

(** Closing the session of a connection leaves nothing of it behind. *)
Lemma world_ok_closed w id c x c' q :
  world_ok w -> connections w !! id = Some c -> conn_session c = Some x ->
  q = AdmissionControl.set_sessions
        (delete (session_principal x, lease x) (sessions (shared w))) (shared w) ->
  (forall d, c' = Some d -> conn_session d = None /\ conn_flows d = [] /\ conn_phase d = Idle) ->
  world_ok {| connections := partial_alter (fun _ => c') id (connections w); shared := q |}.
Proof.
  intros Hw Hid Hx -> Hc'. pose proof Hw as [Hqo Hc _ _]. specialize (Hc id c Hid).
  eapply world_ok_update; try done.
  - by apply quota_ok_delete.
  - intros d Hd. destruct (Hc' d Hd) as (Hn & ? & ?). unfold conn_ok. by rewrite Hn.
  - intros k. destruct (decide (k = (session_principal x, lease x))) as [->|Hk].
    + left. by exists x.
    + right; right. cbn. by rewrite lookup_delete_ne.
  - intros k d Hd (y & Hy & _). destruct (Hc' d Hd) as (Hn & _). congruence.
  - intros k. cbn. intros [u [Hk Hu]%lookup_delete_Some]. right. split; [|by eauto].
    intros (y & Hy & ->). congruence.
Qed.

Lemma world_ok_accept w id :
  world_ok w -> connections w !! id = None ->
  world_ok {| connections :=
                <[id := {| conn_session := None; conn_flows := []; conn_phase := Idle |}]>
                  (connections w);
              shared := shared w |}.
Proof.
  intros [Hq Hc Ho He] Hid. constructor; cbn [connections shared]; [done| | |].
  - intros j d [[_ <-]|[_ Hd]]%lookup_insert_Some; [done|by eapply Hc].
  - intros k (j & d & Hj & Hd)%Ho. exists j, d. split; [|done].
    rewrite lookup_insert_ne; [done|]. congruence.
  - intros i j d1 d2 k [[_ <-]|[_ Hi]]%lookup_insert_Some [[_ <-]|[_ Hj]]%lookup_insert_Some Hk1 Hk2.
    + by destruct Hk1 as (? & ? & _).
    + by destruct Hk1 as (? & ? & _).
    + by destruct Hk2 as (? & ? & _).
    + by eapply (He i j).
Qed.

(** A connection in the middle of a reservation has a session. *)
Lemma conn_ok_busy q c p created :
  conn_ok q c -> conn_phase c = Bound p created \/ conn_phase c = Refused p created ->
  exists x, conn_session c = Some x /\ p = session_principal x /\ created.1 = lease x /\
    (created.2 = true -> conn_flows c = []) /\
    sessions q !! (session_principal x, lease x) = Some {| used_flows := len (conn_flows c) |} /\
    Forall (fun l => l = lease x) (conn_flows c).
Proof.
  unfold conn_ok. intros Hc Hph. destruct (conn_session c) as [x|].
  - destruct Hc as (? & ? & Hp). exists x. destruct Hph as [Hph|Hph]; rewrite Hph in Hp;
      destruct Hp as (? & ? & ?); auto 8.
  - destruct Hc as [_ Hi]. destruct Hph; congruence.
Qed.

(** Nothing about the sessions changes, only what the connection is doing. *)
Lemma world_ok_idle w id c s phase :
  world_ok w -> connections w !! id = Some c -> session s = conn_session c ->
  quotas s = shared w -> (forall x, conn_session c = Some x -> phase_ok x (conn_flows c) phase) ->
  (conn_session c = None -> phase = Idle) ->
  world_ok (put id s (conn_flows c) phase w).
Proof.
  intros Hw Hid Hs Hq Hph Hn. pose proof Hw as [Hqo Hc _ _]. specialize (Hc id c Hid).
  apply (world_ok_put w id c); rewrite ?Hq, ?Hs; try done; [|by right; right|by left|].
  - unfold conn_ok in *. cbn. destruct (conn_session c) as [x|]; [|by destruct Hc; auto].
    destruct Hc as (? & ? & _). split_and!; auto.
  - intros k Hk. destruct (conn_session c) as [x|] eqn:Hx.
    + destruct (decide (k = (session_principal x, lease x))); [left; eauto|right].
      split; [|done]. intros (y & Hy & ->). congruence.
    + right. split; [|done]. intros (y & Hy & _). congruence.
Qed.

Lemma step_world_ok w w' : world_ok w -> step w w' -> world_ok w'.
Proof.
  intros Hw Hstep. pose proof Hw as [Hqo Hc _ _].
  destruct Hstep as [id Hid|id c p created s Hid Hidle Hrun|id c p e s Hid Hidle Hrun
    |id c p r s Hid Hidle Hrun|id c p created s Hid Hph Hrun|id c p created e s Hid Hph Hrun
    |id c p created r s Hid Hph Hrun|id c before flow after r s Hid Hidle Hfl Hrun
    |id c r s Hid Hidle Hfl Hrun]; [by apply world_ok_accept|..]; specialize (Hc id c Hid).
  - eapply world_ok_bind; eauto.
  - eapply world_ok_bind; eauto.
  - unfold bind in Hrun.
    destruct (bind_session p (focus c w)) as [[[created|e] s0]| |] eqn:Hb; try done;
      injection Hrun as _ <-; eapply world_ok_bind; eauto.
  - destruct (conn_ok_busy _ _ _ _ Hc (or_introl Hph)) as (x & Hx & -> & Hl & _ & Hu & Hall).
    rewrite Hl in *.
    destruct (open_flow_state _ _ _ (focus c w) _ _ Hu Hrun) as (Hs & [[[? ?] _]|(_ & Hq & Hlt)]);
      [done|]. cbn in Hs, Hq, Hlt.
    eapply world_ok_charge; eauto; [congruence| | |done].
    + by rewrite len_cons, N.add_comm.
    + rewrite len_cons. lia.
  - destruct (conn_ok_busy _ _ _ _ Hc (or_introl Hph)) as (x & Hx & -> & Hl & Hcr & Hu & Hall).
    rewrite Hl in *.
    destruct (open_flow_state _ _ _ (focus c w) _ _ Hu Hrun) as (Hs & [[_ Hq]|(? & _)]); [|done].
    cbn in Hs, Hq. eapply world_ok_idle; eauto; [|congruence].
    intros y Hy. rewrite Hx in Hy. injection Hy as <-. done.
  - destruct (conn_ok_busy _ _ _ _ Hc (or_intror Hph)) as (x & Hx & -> & Hl & Hcr & Hu & Hall).
    destruct created as [l b]. cbn [fst snd] in Hl, Hcr. subst l.
    destruct (undo_session_state _ _ _ (focus c w) _ _ (mk_is_Some _ _ Hu) Hrun) as [_ Hs].
    destruct b.
    + destruct Hs as [Hs Hq]. cbn in Hq. unfold put. rewrite Hs.
      eapply (world_ok_closed w id c x (Some _)); eauto.
      intros d [= <-]. cbn. auto.
    + subst s. by eapply world_ok_idle; eauto.
  - unfold conn_ok in Hc. destruct (conn_session c) as [x|] eqn:Hx.
    2:{ destruct Hc as [Hn _]. rewrite Hfl in Hn. by destruct before. }
    destruct Hc as (Hu & Hall & _). rewrite Hfl in Hall.
    apply Forall_app in Hall as [Hb [-> Ha]%Forall_cons].
    assert (0 < used_flows {| used_flows := len (conn_flows c) |}) as Hpos
      by (cbn; rewrite Hfl, len_app, len_cons; lia).
    destruct (release_flow_state x _ (focus c w) _ _ Hx Hu Hpos Hrun) as (_ & Hs & Hq). cbn in Hq.
    pose proof (qo_flows _ Hqo _ _ Hu) as Hle. cbn in Hle. rewrite Hfl, len_app, len_cons in Hle.
    eapply world_ok_charge; eauto.
    + rewrite Hq, Hfl. f_equal. rewrite !len_app, len_cons. lia.
    + rewrite len_app. lia.
    + apply Forall_app. done.
    + done.
  - unfold conn_ok in Hc. destruct (conn_session c) as [x|] eqn:Hx.
    + destruct Hc as (Hu & _ & _).
      destruct (close_state x (focus c w) r s Hx (mk_is_Some _ _ Hu) Hrun) as (_ & _ & Hq).
      eapply (world_ok_closed w id c x None); eauto. done.
    + rewrite (close_state_none (focus c w) r s Hx Hrun). cbn [quotas focus].
      apply (world_ok_update w id c None (shared w)); try done; [by right; right|].
      intros k Hk. right. split; [|done]. intros (y & Hy & _). congruence.
Qed.

Lemma initial_world_ok quota : world_ok (initial quota).
Proof.
  constructor; cbn.
  - apply quota_ok_new.
  - intros *. by rewrite lookup_empty.
  - intros k. rewrite lookup_empty. by intros [? ?].
  - intros *. by rewrite lookup_empty.
Qed.

Lemma reachable_world_ok quota w : reachable quota w -> world_ok w.
Proof.
  unfold reachable. intros Hr. pose proof (initial_world_ok quota) as Hi.
  induction Hr as [w|w w1 w2 Hs _ IH]; [done|]. apply IH. by eapply step_world_ok.
Qed.

(** C15. Whatever the order in which streams, datagrams and other connections
    take the locks, the shared quotas hold exactly what live connections hold:
    every session belongs to one connection and is charged one flow per stream
    holding its lease, all under one principal; no principal is over its
    quota; and nothing is left once the connections are gone. *)
Theorem relay_leases_exact quota w :
  reachable quota w ->
  (forall p l, is_Some (sessions (shared w) !! (p, l)) <->
     exists id c, connections w !! id = Some c /\
       conn_session c = Some {| session_principal := p; lease := l |}) /\
  (forall i j c d x, connections w !! i = Some c -> connections w !! j = Some d ->
     conn_session c = Some x -> conn_session d = Some x -> i = j) /\
  (forall id c p l, connections w !! id = Some c ->
     conn_session c = Some {| session_principal := p; lease := l |} ->
     sessions (shared w) !! (p, l) = Some {| used_flows := len (conn_flows c) |}) /\
  (forall id c, connections w !! id = Some c -> conn_session c = None -> conn_flows c = []) /\
  quota_ok (shared w) /\
  (connections w = ∅ -> sessions (shared w) = ∅).
Proof.
  intros Hr%reachable_world_ok. destruct Hr as [Hq Hc Ho He]. split_and!; [| | | |done|].
  - intros p l. split.
    + intros (id & c & Hid & [pr le] & Hx & [= -> ->])%Ho. eauto.
    + intros (id & c & Hid & Hx). eapply owns_open; [by eapply Hc|]. eexists. split; [done|]. done.
  - intros i j c d x Hi Hj Hx Hy. eapply (He i j c d (_, _)); [done..| |]; exists x; eauto.
  - intros id c p l Hid Hx. specialize (Hc id c Hid). unfold conn_ok in Hc. rewrite Hx in Hc.
    by destruct Hc.
  - intros id c Hid Hx. specialize (Hc id c Hid). unfold conn_ok in Hc. rewrite Hx in Hc.
    by destruct Hc.
  - intros Hn. apply map_empty. intros k. apply eq_None_not_Some. intros (id & c & Hid & _)%Ho.
    by rewrite Hn, lookup_empty in Hid.
Qed.

(** ** The open record reads back *)
Definition valid_request (r : OpenRequest) : Prop :=
  open_secret r <> [] /\ len (open_secret r) <= MAX_SECRET_BYTES /\
  SocketText.printable (target r).

Lemma encode_open_ok r :
  valid_request r ->
  let text := Utf8.encode (IpDisplay.display_socket (target r)) in
  encode_open r =
    Ok (to_be_bytes 2 (len (open_secret r)) ++ to_be_bytes 2 (len text) ++ open_secret r ++ text) /\
  len text <= 58.
Proof.
  intros (Hne & Hlen & Hp) text. pose proof (SocketText.length_display_socket _ Hp) as Ht.
  assert (len text <= 58) as Htl by (unfold text; rewrite Utf8.len_encode_ascii by apply SocketText.display_socket_ascii;
        unfold len; lia).
  split; [|done]. unfold encode_open, u16_try_from, MAX_SECRET_BYTES in *.
  destruct (open_secret r) as [|b s] eqn:Hs; [done|]. cbn [is_empty].
  rewrite (proj2 (N.leb_le _ _)) by (unfold U16_MAX; lia).
  rewrite (proj2 (N.ltb_ge _ _)) by done. fold text.
  by rewrite (proj2 (N.leb_le _ _)) by (unfold U16_MAX; lia).
Qed.

Lemma decode_open_layout secret text :
  secret <> [] -> len secret <= MAX_SECRET_BYTES -> len text <= U16_MAX ->
  decode_open (to_be_bytes 2 (len secret) ++ to_be_bytes 2 (len text) ++ secret ++ text) =
  match Utf8.decode text with
  | None => Err ControlInvalid
  | Some t => match IpParser.parse_socket t with
              | None => Err ControlInvalid
              | Some a => Ok {| open_secret := secret; target := a |}
              end
  end.
Proof.
  unfold MAX_SECRET_BYTES, U16_MAX. intros Hne Hs Ht.
  destruct (to_be_bytes_2 (len secret)) as (s1 & s0 & Hse).
  destruct (to_be_bytes_2 (len text)) as (t1 & t0 & Hte). rewrite Hse, Hte. cbn [app decode_open].
  rewrite <-Hse, <-Hte, !from_to_be_bytes by (change (256 ^ N.of_nat 2) with 65536; lia).
  rewrite (proj2 (N.eqb_neq (len secret) 0)) by (destruct secret; [done|rewrite len_cons; lia]).
  rewrite (proj2 (N.ltb_ge _ _)) by (unfold MAX_SECRET_BYTES; lia).
  rewrite !len_cons, len_app, (proj2 (N.eqb_eq _ _)) by (unfold HEADER_BYTES; lia).
  cbn [negb orb]. by rewrite suffix_from_app, prefix_to_app.
Qed.

Lemma split_header x rest :
  prefix_to 2 (to_be_bytes 2 x ++ rest) = to_be_bytes 2 x /\
  suffix_from 2 (to_be_bytes 2 x ++ rest) = rest.
Proof.
  pose proof (prefix_to_app (to_be_bytes 2 x) rest) as H1.
  pose proof (suffix_from_app (to_be_bytes 2 x) rest) as H2.
  rewrite len_to_be_bytes in H1, H2. done.
Qed.

Lemma read_exact_app a b : read_exact (len a) (a ++ b) = Some (a, b).
Proof.
  unfold read_exact. rewrite len_app, (proj2 (N.leb_le _ _)) by lia.
  by rewrite prefix_to_app, suffix_from_app.
Qed.

(** The control record: every request with a secret of up to 128 bytes
    and an address its text can carry is written by [encode_open], read back
    by [decode_open] as the same request, and taken off the front of a stream
    by [read_open_request] whenever the record fits the configured limit,
    which the default limit always is. *)
Theorem open_request_round_trip r rest maximum :
  valid_request r ->
  exists bytes,
    encode_open r = Ok bytes /\ decode_open bytes = Ok r /\
    len bytes <= max_control_bytes config_default /\
    (len bytes <= maximum -> read_open_request (bytes ++ rest) maximum = Ok (r, rest)).
Proof.
  intros Hr. destruct (encode_open_ok r Hr) as [Henc Ht]. destruct Hr as (Hne & Hs & Hp).
  set (text := Utf8.encode _) in *. eexists. split; [exact Henc|].
  assert (decode_open (to_be_bytes 2 (len (open_secret r)) ++ to_be_bytes 2 (len text) ++
    open_secret r ++ text) = Ok r) as Hdec.
  { rewrite decode_open_layout by (try done; unfold U16_MAX; lia). unfold text.
    rewrite Utf8.decode_encode_ascii by apply SocketText.display_socket_ascii.
    rewrite SocketText.parse_display_socket by done. by destruct r. }
  unfold MAX_SECRET_BYTES in Hs. split_and!; [done| |].
  - rewrite !len_app, !len_to_be_bytes. cbn [max_control_bytes config_default].
    unfold MAX_SECRET_BYTES. lia.
  - intros Hmax. unfold read_open_request.
    assert (len (to_be_bytes 2 (len (open_secret r)) ++ to_be_bytes 2 (len text)) = HEADER_BYTES) as Hh
      by (rewrite len_app, !len_to_be_bytes; done).
    rewrite !len_app, !len_to_be_bytes in Hmax. unfold HEADER_BYTES in *.
    rewrite (proj2 (N.ltb_ge maximum 4)) by lia.
    rewrite (app_assoc (to_be_bytes 2 (len (open_secret r)))), <-app_assoc, <-Hh, read_exact_app.
    destruct (split_header (len (open_secret r)) (to_be_bytes 2 (len text))) as [-> ->].
    rewrite Hh, !from_to_be_bytes by (change (256 ^ N.of_nat 2) with 65536; lia).
    rewrite (proj2 (N.ltb_ge _ _)) by lia.
    replace (4 + len (open_secret r) + len text - 4) with (len (open_secret r ++ text))
      by (rewrite len_app; lia).
    rewrite read_exact_app, <-app_assoc. by rewrite Hdec.
Qed.

(** ** One stream, from its control record to its release *)
Lemma open_session_run p q :
  next_lease q < U64_MAX ->
  AdmissionControl.open_session p q =
  Ret (if max_sessions (quota q) <=? AdmissionControl.count_sessions q p
       then (Err SessionQuotaExceeded, q) else (Ok (next_lease q), opened p q)).
Proof.
  intros Hl. unfold AdmissionControl.open_session, bind, get, reject_if, expect, checked_add.
  destruct (_ <=? AdmissionControl.count_sessions q p); [done|].
  by rewrite (proj2 (N.leb_le _ _)) by lia.
Qed.

Lemma open_flow_run p l u q :
  sessions q !! (p, l) = Some u -> max_flows_per_session (quota q) <= U64_MAX ->
  AdmissionControl.open_flow p l q =
  Ret (if max_flows_per_session (quota q) <=? used_flows u
       then (Err FlowQuotaExceeded, q) else (Ok tt, with_flows p l (used_flows u + 1) q)).
Proof.
  intros Hu Hmax. unfold AdmissionControl.open_flow, bind, get, ok_or, reject_if, expect, checked_add.
  rewrite Hu. cbn [ret]. unfold ret.
  destruct (N.leb_spec (max_flows_per_session (quota q)) (used_flows u)); [done|].
  by rewrite (proj2 (N.leb_le _ _)) by lia.
Qed.

Lemma close_flow_run p l n q :
  sessions q !! (p, l) = Some {| used_flows := n + 1 |} ->
  AdmissionControl.close_flow p l q = Ret (Ok tt, with_flows p l n q).
Proof.
  intros Hu. unfold AdmissionControl.close_flow, bind, get, ok_or, reject_if, expect, checked_sub.
  rewrite Hu. unfold ret. cbn [used_flows].
  rewrite (proj2 (N.eqb_neq _ _)), (proj2 (N.leb_le 1 _)) by lia. unfold modify, with_flows.
  by replace (n + 1 - 1) with n by lia.
Qed.

Record relay_ok (s : RelayState) : Prop := {
  ro_quota : quota_ok (quotas s);
  ro_lease : next_lease (quotas s) < U64_MAX;
  ro_flows : max_flows_per_session (quota (quotas s)) <= U64_MAX;
  ro_session : forall x, session s = Some x ->
    is_Some (sessions (quotas s) !! (session_principal x, lease x))
}.

(** What a reservation leaves: a lease with one more flow on it, or nothing. *)
Definition reserved (p : PrincipalId) (s : RelayState)
    (r : result SessionLease RelayError) (s' : RelayState) : Prop :=
  connected s' = connected s /\
  match r with
  | Ok l =>
    observed s' = observed s /\ session s' = Some {| session_principal := p; lease := l |} /\
    exists base u, base !! (p, l) = Some {| used_flows := u |} /\
      sessions (quotas s') = <[(p, l) := {| used_flows := u + 1 |}]> base /\
      ((session s' = session s /\ base = sessions (quotas s)) \/
       (session s = None /\ base = <[(p, l) := {| used_flows := 0 |}]> (sessions (quotas s))))
  | Err _ =>
    (exists e, observed s' = observed s ++ [e]) /\ session s' = session s /\
    sessions (quotas s') = sessions (quotas s)
  end.

Ltac relay_eval := cbv [bind get gets ret throw modify in_quotas record ignore on_error wp].

Lemma reserve_flow_wp p s : relay_ok s -> wp (reserve_flow p) s (reserved p s).
Proof.
  intros [Hq Hl Hf Hs]. unfold reserve_flow, bind_session, open_session, open_flow, undo_session.
  relay_eval. destruct (session s) as [x|] eqn:Hx.
  - destruct (N.eqb_spec (session_principal x) p) as [<-|]; cbn [negb fst snd].
    2:{ split; [done|]. split; [by eexists|done]. }
    destruct (Hs x eq_refl) as [[u] Hu]. rewrite (open_flow_run _ _ _ _ Hu Hf).
    destruct (_ <=? _); cbn [used_flows].
    + split; [done|]. split; [by eexists|done].
    + split; [done|]. cbn [set_quotas observed session quotas]. split_and!; [done| |].
      * rewrite Hx. by destruct x.
      * exists (sessions (quotas s)), u. split_and!; [done|done|by left].
  - rewrite open_session_run by done. destruct (_ <=? _); cbn [fst snd].
    { split; [done|]. split; [by eexists|done]. }
    assert (sessions (quotas s) !! (p, next_lease (quotas s)) = None) as Hfresh.
    { apply eq_None_not_Some. intros Hk%(qo_lease _ Hq). lia. }
    cbn [set_session set_quotas quotas].
    rewrite (open_flow_run _ _ {| used_flows := 0 |}) by (cbn; first [by rewrite lookup_insert_eq|done]).
    destruct (_ <=? _); cbn [used_flows].
    + unfold AdmissionControl.close_session. relay_eval. cbn [quotas set_quotas sessions opened].
      unfold ok_or. rewrite lookup_insert_eq. split; [done|]. split; [by eexists|].
      cbn. by rewrite Hx, delete_insert_id.
    + split; [done|]. cbn. split_and!; [done|done|].
      eexists _, 0. split_and!; [by rewrite lookup_insert_eq|done|by right].
Qed.

Lemma release_reserved p l base u s :
  base !! (p, l) = Some {| used_flows := u |} ->
  session s = Some {| session_principal := p; lease := l |} ->
  sessions (quotas s) = <[(p, l) := {| used_flows := u + 1 |}]> base ->
  exists s', release_flow l s = Ret (Ok tt, s') /\ session s' = session s /\
    observed s' = observed s /\ connected s' = connected s /\ sessions (quotas s') = base.
Proof.
  intros Hu Hs Hq. unfold release_flow. relay_eval. rewrite Hs. cbn [lease session_principal].
  rewrite N.eqb_refl, (close_flow_run _ _ u) by (by rewrite Hq, lookup_insert_eq).
  eexists. split; [done|]. cbn. split_and!; try done. by rewrite Hq, insert_insert_eq, insert_id.
Qed.

Section relay_stream.
Context `{ConstantTimeEq}.

(** What a stream is admitted by: its control record, the credential in it
    and the target it names. *)
Definition admitted (a : RelayAdmission) (config : QuicRelayConfig) (io : StreamIo)
    (p : PrincipalId) (t : SocketAddr) : Prop :=
  exists bytes request rest,
    control io = Some bytes /\
    read_open_request bytes (max_control_bytes config) = Ok (request, rest) /\
    Authenticator.authenticate (authenticator a) (open_secret request) = Ok p /\
    target request = t /\ DestinationPolicy.allows (destinations a) t = true.

Lemma admit_request_wp a config io s :
  wp (admit_request a config io) s
    (fun r s' => session s' = session s /\ quotas s' = quotas s /\ connected s' = connected s /\
       match r with
       | Ok (p, t) => admitted a config io p t /\ observed s' = observed s
       | Err _ => exists e, observed s' = observed s ++ [e]
       end).
Proof.
  unfold admit_request, wp, bind, authenticate.
  destruct (control io) as [bytes|] eqn:Hc; [|cbn; by eauto 6].
  destruct (read_open_request bytes _) as [[request rest]|e] eqn:Hr; [|cbn; by eauto 6].
  unfold ret at 1. destruct (Authenticator.authenticate _ _) as [p|e] eqn:Ha; [|cbn; by eauto 6].
  unfold ret at 1. destruct (DestinationPolicy.allows _ _) eqn:Hd; cbn; [|by eauto 6].
  split_and!; try done. by exists bytes, request, rest.
Qed.

(** C16. One stream: it always ends, in exactly one event; it connects at most
    once, and only to a target its own control record names and the deployment
    allows, on behalf of a principal whose credential that record carries; and
    every flow it reserved is released, so that the quotas are those it found,
    apart from a session that its connection did not have before. *)
Theorem relay_stream_spec a config io s :
  validate config = Ok tt -> relay_ok s ->
  exists r s' event,
    relay_quic_stream a config io s = Ret (r, s') /\ observed s' = observed s ++ [event] /\
    ((exists error, r = Err error /\ connected s' = connected s) \/
     (exists p t, admitted a config io p t /\ connected s' = connected s ++ [t] /\
        r = relayed io /\ event = (if is_ok r then FlowRelayed else ConnectFailed))) /\
    ((session s' = session s /\ sessions (quotas s') = sessions (quotas s)) \/
     (session s = None /\ exists p l, session s' = Some {| session_principal := p; lease := l |} /\
        sessions (quotas s') = <[(p, l) := {| used_flows := 0 |}]> (sessions (quotas s)))).
Proof.
  intros Hv Hok. unfold relay_quic_stream. rewrite Hv.
  destruct (wp_run _ _ _ (admit_request_wp a config io s)) as (r & s1 & Hrun & Hs1 & Hq1 & Hc1 & Hr).
  unfold bind at 1. unfold ret at 1. unfold bind at 1. rewrite Hrun. destruct r as [[p t]|e].
  2:{ destruct Hr as [event Hev]. exists (Err e), s1, event. rewrite Hq1.
      split_and!; [done|done|left; by eauto|by left]. }
  destruct Hr as [Hadm Ho1]. cbn [fst snd].
  assert (relay_ok s1) as Hok1 by (destruct Hok; constructor; by rewrite ?Hq1, ?Hs1).
  destruct (wp_run _ _ _ (reserve_flow_wp p s1 Hok1)) as (r & s2 & Hrun2 & Hc2 & Hr).
  unfold bind at 1. rewrite Hrun2. destruct r as [l|e].
  2:{ destruct Hr as ([event Hev] & Hs2 & Hq2). exists (Err e), s2, event.
      rewrite Hs2, Hq2, Hq1, Hs1, Hc2, Hc1, Hev, Ho1.
      split_and!; [done|done|left; by eauto|by left]. }
  destruct Hr as (Ho2 & Hs2 & base & u & Hu & Hq2 & Hbase).
  unfold bind at 1, relay_parts. unfold connect, modify, ret, bind at 1.
  set (s3 := Build_RelayState _ _ _ _).
  destruct (release_reserved p l base u s3 Hu Hs2 Hq2) as (s4 & Hrel & Hs4 & Ho4 & Hc4 & Hq4).
  unfold bind at 1. rewrite Hrel. subst s3. cbn [session observed connected] in *.
  assert ((session s4 = session s /\ sessions (quotas s4) = sessions (quotas s)) \/
     (session s = None /\ exists p l, session s4 = Some {| session_principal := p; lease := l |} /\
        sessions (quotas s4) = <[(p, l) := {| used_flows := 0 |}]> (sessions (quotas s)))) as Hlease.
  { rewrite Hs4, Hq4, <-Hs1, <-Hq1. destruct Hbase as [[Heq ->]|[Hn ->]]; [left|right]; eauto. }
  destruct (relayed io) as [[]|e] eqn:Hio.
  - eexists (Ok tt), _, FlowRelayed. split; [done|]. cbn. rewrite Ho4, Hc4, Ho2, Hc2, Ho1, Hc1.
    split_and!; [done| |done]. right. by exists p, t.
  - eexists (Err e), _, ConnectFailed. split; [done|]. cbn. rewrite Ho4, Hc4, Ho2, Hc2, Ho1, Hc1.
    split_and!; [done| |done]. right. by exists p, t.
Qed.
End relay_stream.

(** ** At concrete inputs *)
Definition test_request : OpenRequest :=
  {| open_secret := [x63; x64]; target := SocketV6 (2 ^ 127 + 1) 443 0 7 |}.
Lemma open_request_round_trip_witness :
  exists bytes, encode_open test_request = Ok bytes /\ decode_open bytes = Ok test_request /\
    read_open_request (bytes ++ [x00]) 192 = Ok (test_request, [x00]).
Proof.
  assert (valid_request test_request) as Hv.
  { split_and!; [done|vm_compute; congruence|]. by repeat split; vm_compute. }
  destruct (open_request_round_trip test_request [x00] 192 Hv) as (bytes & He & Hd & Hl & Hr).
  exists bytes. exact (conj He (conj Hd (Hr Hl))).
Defined.

Definition test_quota : PrincipalQuota := {| max_sessions := 1; max_flows_per_session := 2 |}.
Definition test_session : AdmittedSession := {| session_principal := 7; lease := 0 |}.
Definition test_world (flows : list SessionLease) (n : N) (phase : Phase) : World :=
  {| connections :=
       {[ 0 := {| conn_session := Some test_session; conn_flows := flows; conn_phase := phase |} ]};
     shared := {| quota := test_quota; next_lease := 1;
                  sessions := {[ (7, 0) := {| used_flows := n |} ]} |} |}.

Lemma relay_leases_exact_witness :
  reachable test_quota (test_world [0; 0] 2 Idle) /\
  sessions (shared (test_world [0; 0] 2 Idle)) !! (7, 0) = Some {| used_flows := 2 |}.
Proof.
  assert (reachable test_quota (test_world [0; 0] 2 Idle)) as Hr.
  { unfold reachable. eapply rtc_l; [by apply (step_accept _ 0)|].
    eapply rtc_l; [by eapply (step_bind _ 0 _ 7 (0, true))|].
    eapply rtc_l; [by eapply (step_open _ 0 _ 7 (0, true))|].
    eapply rtc_l; [by eapply (step_bind _ 0 _ 7 (0, false))|].
    eapply rtc_l; [by eapply (step_open _ 0 _ 7 (0, false))|]. by apply rtc_refl. }
  split; [exact Hr|].
  destruct (relay_leases_exact test_quota _ Hr) as (_ & _ & Hexact & _).
  by apply (Hexact 0 _ 7 0 eq_refl).
Defined.

Definition test_admission : RelayAdmission :=
  {| authenticator := {| credentials := {[ 7 := [x63; x64] ]}; secret_length := Some 2 |};
     destinations := DestinationPolicy.new [target test_request] |}.
Definition test_io : StreamIo :=
  {| control := match encode_open test_request with Ok b => Some b | Err _ => None end;
     relayed := Ok tt |}.
Definition test_state : RelayState :=
  {| session := None; quotas := AdmissionControl.new test_quota; observed := []; connected := [] |}.

Lemma relay_stream_spec_witness :
  exists r s', relay_quic_stream (H := test_ct_eq) test_admission config_default test_io test_state =
    Ret (r, s') /\ (r = relayed test_io \/ connected s' = []).
Proof.
  assert (relay_ok test_state) as Hok.
  { constructor; [apply quota_ok_new|done|vm_compute; congruence|done]. }
  destruct (relay_stream_spec (H := test_ct_eq) test_admission config_default test_io test_state
              eq_refl Hok) as (r & s' & event & Hrun & _ & [(e & -> & Hc)|(p & t & _ & _ & -> & _)] & _).
  - exists (Err e), s'. split; [exact Hrun|by right].
  - eexists _, s'. split; [exact Hrun|by left].
Defined.
