(* ===== verification/Copying.v ===== *)
(** Copying bytes between a client and its target: [relay_parts] of the node
    ([apps/velum-node/src/lib.rs]) and [relay_halves] of the proxy
    ([velum-adapter-proxy/src/lib.rs]).  Two loops copy at the same time; what
    the network answers at each [await] is an input, and the turns of the two
    directions interleave freely. *)
From S2P Require Import Prelude Relay.

Definition RELAY_COPY_BUFFER_BYTES : N := 16 * 1024.
Definition COPY_BUFFER_BYTES : N := 16 * 1024.

(** ** One direction

    Where the loop awaits: reading into its buffer, writing the rest of it
    ([write_all] writes in parts), or ending the other side's stream. *)
Inductive Copying (E : Type) :=
| Reading
| Writing (rest : list byte)
| Ending
| Finished
| Failed (e : E).
Arguments Reading {E}.
Arguments Writing {E} rest.
Arguments Ending {E}.
Arguments Finished {E}.
Arguments Failed {E} e.
Inductive Answer (E : Type) := ReadSome (n : N) | ReadEnd | Wrote (n : N) | Ended | Fails (e : E).
Arguments ReadSome {E} n.
Arguments ReadEnd {E}.
Arguments Wrote {E} n.
Arguments Ended {E}.
Arguments Fails {E} e.

(** What the source has still to give, what the sink was given, and whether it
    was told that this is all. *)
Record Copy (E : Type) := { phase : Copying E; unread : list byte; given : list byte; ended : bool }.
Arguments phase {E} c.
Arguments unread {E} c.
Arguments given {E} c.
Arguments ended {E} c.

Section direction.
Context {E : Type}.
Definition start (source given : list byte) : Copy E :=
  {| phase := Reading; unread := source; given := given; ended := false |}.
Definition set_phase (p : Copying E) (c : Copy E) : Copy E :=
  {| phase := p; unread := unread c; given := given c; ended := ended c |}.

(** A read gives some bytes, at most a buffer of them, or says that there will
    be none; a turn of [write_all] writes some of the rest. *)
Definition copy_step (buffer : N) (a : Answer E) (c : Copy E) : option (Copy E) :=
  match phase c, a with
  | Reading, ReadSome n =>
    if (0 <? n) && (n <=? buffer) && (n <=? len (unread c)) then
      Some {| phase := Writing (prefix_to n (unread c)); unread := suffix_from n (unread c); given := given c; ended := ended c |}
    else None
  | Reading, ReadEnd => if is_empty (unread c) then Some (set_phase Ending c) else None
  | Writing rest, Wrote n =>
    if (0 <? n) && (n <=? len rest) then
      Some {| phase := if is_empty (suffix_from n rest) then Reading else Writing (suffix_from n rest); unread := unread c;
              given := given c ++ prefix_to n rest; ended := ended c |}
    else None
  | Ending, Ended => Some {| phase := Finished; unread := unread c; given := given c; ended := true |}
  | (Reading | Writing _ | Ending), Fails e => Some (set_phase (Failed e) c)
  | _, _ => None
  end.
End direction.

Inductive Direction := ToTarget | ToClient.
#[export] Instance Direction_eq_dec : EqDecision Direction.
Proof. solve_decision. Defined.

(** ** The node

    [try_join!] returns the first error and drops the other direction, or waits
    for both. *)
Record Relaying := { client_to_target : Copy RelayError; target_to_client : Copy RelayError; relay_result : option (result unit RelayError) }.
Definition relaying (from_client from_target : list byte) : Relaying :=
  {| client_to_target := start from_client []; target_to_client := start from_target []; relay_result := None |}.
Definition try_join (a b : Copying RelayError) : option (result unit RelayError) :=
  match a, b with
  | Failed _, _ | _, Failed _ => Some (Err ErrorTransport)
  | Finished, Finished => Some (Ok tt)
  | _, _ => None
  end.
Definition joined (a b : Copy RelayError) : Relaying :=
  {| client_to_target := a; target_to_client := b; relay_result := try_join (phase a) (phase b) |}.
Definition relay_turn (d : Direction) (a : Answer RelayError) (w : Relaying) : option Relaying :=
  match relay_result w with
  | Some _ => None
  | None =>
    match d with
    | ToTarget => (fun c => joined c (target_to_client w)) <$> copy_step RELAY_COPY_BUFFER_BYTES a (client_to_target w)
    | ToClient => joined (client_to_target w) <$> copy_step RELAY_COPY_BUFFER_BYTES a (target_to_client w)
    end
  end.
Definition relays (w w' : Relaying) : Prop := exists d a, relay_turn d a w = Some w'.

(** ** The proxy

    [upstream] is a task of its own, aborted once [downstream] has returned;
    the rewritten head of an HTTP request was sent before. *)
Section proxy.
Context {E : Type}.
Record Halves := { upstream : Copy E; aborted : bool; downstream : Copy E }.
Definition halves (head from_local from_remote : list byte) : Halves :=
  {| upstream := start from_local head; aborted := false; downstream := start from_remote [] |}.
Definition returned (w : Halves) : option (result unit E) :=
  match phase (downstream w) with Finished => Some (Ok tt) | Failed e => Some (Err e) | _ => None end.
Definition halves_turn (d : Direction) (a : Answer E) (w : Halves) : option Halves :=
  match d with
  | ToTarget =>
    if aborted w then None
    else (fun c => {| upstream := c; aborted := false; downstream := downstream w |}) <$> copy_step COPY_BUFFER_BYTES a (upstream w)
  | ToClient =>
    (fun c => {| upstream := upstream w; aborted := aborted w; downstream := c |}) <$> copy_step COPY_BUFFER_BYTES a (downstream w)
  end.
(** [upstream.abort()] *)
Definition abort_upstream (w : Halves) : option Halves :=
  match returned w with
  | None => None
  | Some _ => if aborted w then None else Some {| upstream := upstream w; aborted := true; downstream := downstream w |}
  end.
Definition relays_halves (w w' : Halves) : Prop :=
  (exists d a, halves_turn d a w = Some w') \/ abort_upstream w = Some w'.
End proxy.
Arguments Halves : clear implicits.
Arguments upstream {E} h.
Arguments aborted {E} h.
Arguments downstream {E} h.

(** ** One direction loses and invents nothing *)

(** What is in the buffer. *)
Definition buffered {E} (p : Copying E) : list byte := match p with Writing rest => rest | _ => [] end.

(** From the bytes of [source]; a failed copy may have lost its buffer. *)
Record copy_ok {E} (source : list byte) (c : Copy E) : Prop := {
  cp_all : (forall e, phase c <> Failed e) -> source = given c ++ buffered (phase c) ++ unread c;
  cp_prefix : given c `prefix_of` source;
  cp_rest : forall rest, phase c = Writing rest -> rest <> [];
  cp_ending : phase c = Ending \/ phase c = Finished -> unread c = [];
  cp_ended : ended c = true <-> phase c = Finished
}.

Lemma copy_start_ok {E} source head : copy_ok (E := E) (head ++ source) (start source head).
Proof. constructor; cbn; [done|by eexists|done|by intros []|done]. Qed.

Lemma is_empty_nil {A} (l : list A) : is_empty l = true <-> l = [].
Proof. by destruct l. Qed.

Lemma copy_step_ok {E} source buffer (a : Answer E) c c' :
  copy_ok source c -> copy_step buffer a c = Some c' -> copy_ok source c'.
Proof.
  intros [Hall Hpre Hrest Hend Hended]. unfold copy_step.
  destruct (phase c) as [|rest| | |e] eqn:Hp, a as [n| |n| |e']; try done; cbn [buffered] in Hall; rewrite ?app_nil_l in Hall;
    specialize (Hall ltac:(done)).
  - destruct (_ && _) eqn:Hn; [|done]. intros [= <-]. apply andb_true_iff in Hn as [Hn Hl%N.leb_le]. apply andb_true_iff in Hn as [H0%N.ltb_lt _].
    constructor; cbn; [intros _; by rewrite prefix_suffix|done| |by intros []|rewrite Hended; by split].
    intros rest [= <-] Hz. apply (f_equal len) in Hz. rewrite len_prefix_to in Hz by done. rewrite len_nil in Hz. lia.
  - destruct (is_empty (unread c)) eqn:Hz; [|done]. intros [= <-]. apply is_empty_nil in Hz.
    constructor; cbn; [by rewrite Hz in *|done|done|done|rewrite Hended; by split].
  - intros [= <-]. constructor; cbn; [intros Hf; by destruct (Hf e')|done|done|by intros []|rewrite Hended; by split].
  - destruct (_ && _) eqn:Hn; [|done]. intros [= <-]. rewrite Hall. assert (prefix_to n rest ++ suffix_from n rest ++ unread c = rest ++ unread c) as Hs
      by (by rewrite app_assoc, prefix_suffix).
    constructor; cbn; [|rewrite <- Hs, app_assoc; by eexists| | |].
    + intros _. rewrite <- app_assoc, <- Hs. do 2 f_equal. destruct (suffix_from n rest); done.
    + intros rest'. destruct (suffix_from n rest) eqn:Hr; [done|]. by intros [= <-].
    + destruct (is_empty _); by intros [].
    + rewrite Hended. by destruct (is_empty _).
  - intros [= <-]. constructor; cbn; [intros Hf; by destruct (Hf e')|done|done|by intros []|rewrite Hended; by split].
  - intros [= <-]. rewrite (Hend (or_introl eq_refl)) in *. by constructor.
  - intros [= <-]. constructor; cbn; [intros Hf; by destruct (Hf e')|done|done|by intros []|rewrite Hended; by split].
Qed.

(** A direction that ended gave everything. *)
Lemma copy_ended {E} source (c : Copy E) : copy_ok source c -> ended c = true -> given c = source.
Proof.
  intros [Hall _ _ Hend Hended] He%Hended. rewrite He in *. rewrite (Hend (or_intror eq_refl)) in Hall.
  rewrite Hall by done. cbn. by rewrite app_nil_r.
Qed.

(** ** It ends

    Each turn moves at least a byte on or closes something. *)
Definition work {E} (c : Copy E) : N :=
  2 * len (unread c) + match phase c with Reading => 2 | Writing rest => len rest + 2 | Ending => 1 | Finished | Failed _ => 0 end.
Lemma copy_step_work {E} buffer (a : Answer E) c c' : copy_step buffer a c = Some c' -> work c' < work c.
Proof.
  unfold copy_step, work. destruct (phase c) as [|rest| | |e], a as [n| |n| |e']; try done;
    try (intros [= <-]; cbn; lia).
  - destruct (_ && _) eqn:Hn; [|done]. intros [= <-]. cbn. apply andb_true_iff in Hn as [Hn Hl%N.leb_le].
    apply andb_true_iff in Hn as [H0%N.ltb_lt _]. rewrite len_prefix_to, len_suffix_from by done. lia.
  - destruct (is_empty (unread c)); [|done]. intros [= <-]. cbn. lia.
  - destruct (_ && _) eqn:Hn; [|done]. intros [= <-]. cbn. apply andb_true_iff in Hn as [H0%N.ltb_lt Hl%N.leb_le].
    destruct (is_empty (suffix_from n rest)); [|rewrite len_suffix_from]; lia.
Qed.

Definition failing {E} (a : Answer E) : bool := match a with Fails _ => true | _ => false end.
(** A direction that is not through can always go on. *)
Lemma copy_step_possible {E} source buffer (c : Copy E) :
  0 < buffer -> copy_ok source c -> phase c <> Finished -> (forall e, phase c <> Failed e) ->
  exists a c', copy_step buffer a c = Some c' /\ failing a = false.
Proof.
  intros Hb [_ _ Hrest _ _] Hf He. unfold copy_step. destruct (phase c) as [|rest| | |e].
  - destruct (unread c) as [|b l] eqn:Hu.
    + exists ReadEnd. by eexists.
    + exists (ReadSome 1). rewrite (proj2 (N.leb_le 1 buffer)), (proj2 (N.leb_le 1 (len (b :: l)))) by (rewrite ?len_cons; lia).
      by eexists.
  - exists (Wrote (len rest)). assert (0 < len rest) as Hlen.
    { specialize (Hrest rest eq_refl). destruct rest; [done|]. rewrite len_cons. lia. }
    rewrite (proj2 (N.ltb_lt _ _)), N.leb_refl by lia. by eexists.
  - exists Ended. by eexists.
  - done.
  - by destruct (He e).
Qed.

(** ** Both directions of the node *)
Record relaying_ok (from_client from_target : list byte) (w : Relaying) : Prop := {
  rl_up : copy_ok from_client (client_to_target w);
  rl_down : copy_ok from_target (target_to_client w);
  rl_result : relay_result w = try_join (phase (client_to_target w)) (phase (target_to_client w))
}.
Definition relay_work (w : Relaying) : N := work (client_to_target w) + work (target_to_client w).

Lemma relays_ok from_client from_target w w' :
  relaying_ok from_client from_target w -> relays w w' -> relaying_ok from_client from_target w' /\ relay_work w' < relay_work w.
Proof.
  intros [Hup Hdown Hr] (d & a & Hw). unfold relay_turn in Hw. destruct (relay_result w); [done|]. unfold relay_work.
  destruct d; apply fmap_Some in Hw as (c & Hc & ->); cbn; pose proof (copy_step_work _ _ _ _ Hc);
    (split; [constructor; cbn; try done; (eapply copy_step_ok; [|exact Hc]; done)|lia]).
Qed.
Lemma relays_reach_ok from_client from_target n w :
  nsteps relays n (relaying from_client from_target) w ->
  relaying_ok from_client from_target w /\ N.of_nat n + relay_work w <= 2 * (len from_client + len from_target) + 4.
Proof.
  intros Hn. cut (forall w0, relaying_ok from_client from_target w0 -> nsteps relays n w0 w ->
    relaying_ok from_client from_target w /\ N.of_nat n + relay_work w <= relay_work w0).
  - intros Hcut. destruct (Hcut (relaying from_client from_target)) as [Hok Hw]; [|done|split; [done|]].
    + constructor; cbn; [apply (copy_start_ok _ [])..|done].
    + change (relay_work (relaying from_client from_target)) with (2 * len from_client + 2 + (2 * len from_target + 2)) in Hw. lia.
  - clear Hn. induction n as [|n IH]; intros w0 Hok Hn; inversion Hn as [|? ? w1 ? H1 Hrest]; subst; [split; [done|lia]|].
    destruct (relays_ok _ _ _ _ Hok H1) as [Hok1 Hlt]. destruct (IH w1 Hok1 Hrest). split; [done|lia].
Qed.

Lemma try_join_spec a b :
  match try_join a b with
  | Some (Ok _) => a = Finished /\ b = Finished
  | Some (Err e) => e = ErrorTransport /\ exists e, a = Failed e \/ b = Failed e
  | None => (forall e, a <> Failed e) /\ (forall e, b <> Failed e) /\ (a <> Finished \/ b <> Finished)
  end.
Proof. destruct a, b; cbn; eauto. Qed.
Lemma relay_turn_possible from_client from_target w :
  relaying_ok from_client from_target w -> relay_result w = None ->
  exists d a w', relay_turn d a w = Some w' /\ failing a = false.
Proof.
  intros [Hup Hdown Hr] Hnone. unfold relay_turn. rewrite Hnone.
  pose proof (try_join_spec (phase (client_to_target w)) (phase (target_to_client w))) as H. rewrite <- Hr, Hnone in H.
  destruct H as (Hfu & Hfd & [Hne|Hne]);
    [destruct (copy_step_possible _ RELAY_COPY_BUFFER_BYTES _ eq_refl Hup Hne Hfu) as (a & c & Hc & Ha); exists ToTarget, a
    |destruct (copy_step_possible _ RELAY_COPY_BUFFER_BYTES _ eq_refl Hdown Hne Hfd) as (a & c & Hc & Ha); exists ToClient, a];
    rewrite Hc; by eexists.
Qed.

(** C17. Whatever the two sides do and however the two directions interleave, a
    relay gives each side a prefix of what the other sent, byte for byte, and
    signals the end of a direction only after all of it; it succeeds only when
    both directions ended, and fails only when one of them failed.  It never
    waits in vain: until then some turn that is not a failure is possible, and
    after a bounded number of turns the relay is over. *)
Theorem relay_copies_exactly from_client from_target n w :
  nsteps relays n (relaying from_client from_target) w ->
  let up := client_to_target w in let down := target_to_client w in
  given up `prefix_of` from_client /\ given down `prefix_of` from_target /\
  (ended up = true -> given up = from_client) /\ (ended down = true -> given down = from_target) /\
  match relay_result w with
  | Some (Ok _) => ended up = true /\ ended down = true
  | Some (Err e) => e = ErrorTransport /\ exists e, phase up = Failed e \/ phase down = Failed e
  | None => exists d a w', relay_turn d a w = Some w' /\ failing a = false
  end /\
  N.of_nat n <= 2 * (len from_client + len from_target) + 4.
Proof.
  intros [Hok Hwork]%relays_reach_ok up down. pose proof Hok as [Hup Hdown Hr].
  split; [apply Hup|]. split; [apply Hdown|]. split; [by apply copy_ended|]. split; [by apply copy_ended|]. split; [|lia].
  destruct (relay_result w) as [[u|e]|] eqn:Hres; [| |by apply (relay_turn_possible from_client from_target)].
  - pose proof (try_join_spec (phase (client_to_target w)) (phase (target_to_client w))) as H. rewrite <- Hr in H. destruct H.
    split; [by apply Hup|by apply Hdown].
  - pose proof (try_join_spec (phase (client_to_target w)) (phase (target_to_client w))) as H. by rewrite <- Hr in H.
Qed.

(** ** The proxy's halves *)
Section proxy_halves.
Context {E : Type}.
Record halves_ok (head from_local from_remote : list byte) (w : Halves E) : Prop := {
  hv_up : copy_ok (head ++ from_local) (upstream w);
  hv_down : copy_ok from_remote (downstream w);
  hv_aborted : aborted w = true -> is_Some (returned w)
}.
Lemma relays_halves_ok head from_local from_remote w w' :
  halves_ok head from_local from_remote w -> relays_halves w w' -> halves_ok head from_local from_remote w'.
Proof.
  intros [Hup Hdown Ha] [(d & a & Hw)|Hw].
  - destruct d; cbn in Hw; [destruct (aborted w); [done|]|]; apply fmap_Some in Hw as (c & Hc & ->).
    + constructor; cbn; [eapply copy_step_ok; [|exact Hc]; done|done|done].
    + constructor; cbn; [done|eapply copy_step_ok; [|exact Hc]; done|].
      intros [r Hr]%Ha. exfalso. revert Hr Hc. unfold returned, copy_step. by destruct (phase (downstream w)).
  - unfold abort_upstream in Hw. destruct (returned w) eqn:Hr; [|done]. destruct (aborted w); [done|]. apply Some_inj in Hw as <-.
    constructor; cbn; [done|done|intros _; exists r; exact Hr].
Qed.

(** The client of the proxy and the remote side get a prefix of what the other
    sent, the remote side after the rewritten head; the relay succeeds only once
    the client was given everything and told so.  Nothing is promised of the
    other direction: it is cut when the remote side is through. *)
Theorem halves_copy_exactly head from_local from_remote (w : Halves E) :
  rtc relays_halves (halves head from_local from_remote) w ->
  (forall l, given (upstream w) = head ++ l -> l `prefix_of` from_local) /\ given (upstream w) `prefix_of` head ++ from_local /\
  given (downstream w) `prefix_of` from_remote /\
  (ended (upstream w) = true -> given (upstream w) = head ++ from_local) /\
  (returned w = Some (Ok tt) -> ended (downstream w) = true /\ given (downstream w) = from_remote) /\
  (aborted w = true -> is_Some (returned w)).
Proof.
  intros Hrun. assert (halves_ok head from_local from_remote w) as [Hup Hdown Ha].
  { assert (halves_ok head from_local from_remote (halves head from_local from_remote)) as Hstart
      by (constructor; cbn; [apply copy_start_ok|apply (copy_start_ok _ [])|done]).
    induction Hrun as [|w1 w2 w3 H12 _ IH]; [done|]. apply IH. by eapply relays_halves_ok. }
  split; [intros l Hl; pose proof (cp_prefix _ _ Hup) as Hp; rewrite Hl in Hp; by apply prefix_app_inv in Hp|].
  split; [apply Hup|]. split; [apply Hdown|]. split; [by apply copy_ended|]. split; [|exact Ha].
  intros Hr. assert (ended (downstream w) = true) as He.
  { apply Hdown. revert Hr. unfold returned. by destruct (phase (downstream w)). }
  split; [done|by apply copy_ended].
Qed.
End proxy_halves.

(** ** Concrete runs *)
Module CopyingExamples.
Fixpoint turns (l : list (Direction * Answer RelayError)) (w : Relaying) : option Relaying :=
  match l with
  | [] => Some w
  | (d, a) :: l => match relay_turn d a w with Some w => turns l w | None => None end
  end.
Lemma turns_nsteps l w w' : turns l w = Some w' -> nsteps relays (length l) w w'.
Proof.
  revert w. induction l as [|[d a] l IH]; intros w; cbn; [intros [= <-]; constructor|].
  destruct (relay_turn d a w) as [w1|] eqn:H; [|done]. intros Hl. econstructor; [by exists d, a|by apply IH].
Qed.
Definition request : list byte := [x47; x45; x54].
Definition response : list byte := [x32; x30].
(** The request is written in two parts while the response already comes. *)
Definition exchange : list (Direction * Answer RelayError) :=
  [(ToTarget, ReadSome 3); (ToTarget, Wrote 1); (ToClient, ReadSome 2); (ToTarget, Wrote 2); (ToTarget, ReadEnd);
   (ToClient, Wrote 2); (ToClient, ReadEnd); (ToClient, Ended); (ToTarget, Ended)].
Definition exchanged : option Relaying := turns exchange (relaying request response).
Lemma relay_copies_exactly_witness :
  match exchanged with
  | Some w => relay_result w = Some (Ok tt) /\ given (client_to_target w) = request /\ given (target_to_client w) = response
  | None => False
  end.
Proof.
  destruct exchanged as [w|] eqn:Hw; [|discriminate Hw].
  pose proof (relay_copies_exactly request response _ w (turns_nsteps _ _ _ Hw)) as (_ & _ & Hup & Hdown & Hres & _).
  assert (relay_result w = Some (Ok tt)) as Hr by (vm_compute in Hw; apply Some_inj in Hw as <-; reflexivity).
  rewrite Hr in Hres. destruct Hres as [He1 He2]. split; [exact Hr|]. split; [exact (Hup He1)|exact (Hdown He2)].
Defined.

(** A remote side that ends its answer before the client has sent everything:
    the relay succeeds, and the rest of the upload is lost. *)
Lemma upload_cut_short :
  exists w : Halves unit, rtc relays_halves (halves [] request []) w /\ returned w = Some (Ok tt) /\
    given (upstream w) = [] /\ forall w', ~ relays_halves w w'.
Proof.
  eexists. split; [|split; [|split]].
  - eapply rtc_l; [left; exists ToClient, ReadEnd; reflexivity|]. eapply rtc_l; [left; exists ToClient, Ended; reflexivity|].
    eapply rtc_l; [right; reflexivity|]. apply rtc_refl.
  - reflexivity.
  - reflexivity.
  - intros w' [([] & a & Hw)|Hw]; destruct a||idtac; discriminate Hw.
Qed.
End CopyingExamples.
