(* ===== verification/DatagramRelay.v ===== *)
(** The UDP associations a node keeps behind the datagrams of one connection
    ([apps/velum-node/src/datagram.rs]), and the listener's handling of one
    incoming datagram ([listener.rs]). *)
From S2P Require Import Prelude Net Datagram Admission Relay.

(** ** Configuration; a [Duration] is a number of nanoseconds *)
Record DatagramRelayConfig := {
  max_associations : N;
  idle_timeout : N;
  receive_buffer_bytes : N
}.
Definition datagram_config_default : DatagramRelayConfig :=
  {| max_associations := 256; idle_timeout := 60000000000; receive_buffer_bytes := 64 * 1024 |}.

Inductive DatagramRelayConfigError := ConfigAssociationLimit | ConfigIdleTimeout | ConfigReceiveBuffer.

Definition validate_datagram_config (self : DatagramRelayConfig)
  : result unit DatagramRelayConfigError :=
  if max_associations self =? 0 then Err ConfigAssociationLimit
  else if idle_timeout self =? 0 then Err ConfigIdleTimeout
  else if receive_buffer_bytes self =? 0 then Err ConfigReceiveBuffer
  else Ok tt.

Inductive DatagramRelayError :=
| Malformed
| UnexpectedDirection
| RelayDestinationRejected
| SessionTargetMismatch
| AssociationLimit
| Socket.

(** ** State

    A socket, the instant of its last activity, its cancellation channel and
    its response task are shared between the table and the task; the number of
    the socket stands for the shared objects. *)
Record Association := { destination : SocketAddr; socket : N }.
Record ResponseTask := { task_session : DatagramSessionId; task_source : SocketAddr }.
(** A packet handed to a socket, with the datagram session it came from. *)
Record Sent := {
  sent_session : DatagramSessionId;
  sent_socket : N;
  sent_to : SocketAddr;
  sent_payload : list byte
}.
(** A packet that came in on a socket and went back to the client. *)
Record Answer := {
  answer_socket : N;
  answer_received : list byte;
  answer_bytes : list byte
}.

Record DatagramRelay := {
  relay_config : DatagramRelayConfig;
  associations : gmap DatagramSessionId Association;
  last_active : gmap N N;
  cancelled : gset N;
  tasks : gmap N ResponseTask;
  next_socket : N;
  now : N;
  sent : list Sent;
  responses : list Answer
}.

Module DatagramRelay.
Definition M (A : Type) : Type := Prelude.M DatagramRelay DatagramRelayError A.

Definition new (config : DatagramRelayConfig) : result DatagramRelay DatagramRelayConfigError :=
  match validate_datagram_config config with
  | Err e => Err e
  | Ok _ =>
    Ok {| relay_config := config; associations := ∅; last_active := ∅; cancelled := ∅;
          tasks := ∅; next_socket := 0; now := 0; sent := []; responses := [] |}
  end.

Definition set_table (m : gmap DatagramSessionId Association) (c : gset N) (s : DatagramRelay)
  : DatagramRelay :=
  {| relay_config := relay_config s; associations := m; last_active := last_active s;
     cancelled := c; tasks := tasks s; next_socket := next_socket s; now := now s;
     sent := sent s; responses := responses s |}.
Definition set_tasks (t : gmap N ResponseTask) (s : DatagramRelay) : DatagramRelay :=
  {| relay_config := relay_config s; associations := associations s; last_active := last_active s;
     cancelled := cancelled s; tasks := t; next_socket := next_socket s; now := now s;
     sent := sent s; responses := responses s |}.
Definition set_now (t : N) (s : DatagramRelay) : DatagramRelay :=
  {| relay_config := relay_config s; associations := associations s; last_active := last_active s;
     cancelled := cancelled s; tasks := tasks s; next_socket := next_socket s; now := t;
     sent := sent s; responses := responses s |}.

(** [*last_active.lock() = Instant::now()] *)
Definition touch (k : N) : M unit := modify (fun s =>
  {| relay_config := relay_config s; associations := associations s;
     last_active := <[k := now s]> (last_active s); cancelled := cancelled s; tasks := tasks s;
     next_socket := next_socket s; now := now s; sent := sent s; responses := responses s |}).
(** [socket.send(&payload)], when it succeeds *)
Definition send (p : Sent) : M unit := modify (fun s =>
  {| relay_config := relay_config s; associations := associations s; last_active := last_active s;
     cancelled := cancelled s; tasks := tasks s; next_socket := next_socket s; now := now s;
     sent := sent s ++ [p]; responses := responses s |}).
(** [sink.send(encoded)], when it succeeds *)
Definition respond (answer : Answer) : M unit := modify (fun s =>
  {| relay_config := relay_config s; associations := associations s; last_active := last_active s;
     cancelled := cancelled s; tasks := tasks s; next_socket := next_socket s; now := now s;
     sent := sent s; responses := responses s ++ [answer] |}).

Definition sockets (m : gmap DatagramSessionId Association) : gset N :=
  list_to_set ((fun entry => socket entry.2) <$> map_to_list m).

(** [last_active.elapsed() <= idle_timeout]; an instant in the future has
    elapsed by nothing. *)
Definition active (s : DatagramRelay) (a : Association) : Prop :=
  now s - default 0 (last_active s !! socket a) <= idle_timeout (relay_config s).
#[export] Instance active_dec s a : Decision (active s a).
Proof. unfold active. apply _. Defined.

Definition prune_idle : M unit := modify (fun s =>
  set_table (filter (fun entry => active s entry.2) (associations s))
    (cancelled s ∪ sockets (filter (fun entry => ~ active s entry.2) (associations s))) s).

Definition shutdown : M unit := modify (fun s =>
  set_table ∅ (cancelled s ∪ sockets (associations s)) s).

(** What the operating system answers to [bind], [connect] and [send]. *)
Record SocketIo := { bind_ok : bool; connect_ok : bool; send_ok : bool }.

Definition association (io : SocketIo) (session_id : DatagramSessionId) (target : SocketAddr)
  : M Association :=
  let! self := get in
  match associations self !! session_id with
  | Some existing =>
    if decide (destination existing = target) then ret existing else throw SessionTargetMismatch
  | None =>
    reject_if (max_associations (relay_config self) <=? N.of_nat (size (associations self)))
      AssociationLimit ;!
    reject_if (negb (bind_ok io)) Socket ;!
    reject_if (negb (connect_ok io)) Socket ;!
    let association := {| destination := target; socket := next_socket self |} in
    modify (fun s =>
      {| relay_config := relay_config s;
         associations := <[session_id := association]> (associations s);
         last_active := <[next_socket s := now s]> (last_active s);
         cancelled := cancelled s;
         tasks := <[next_socket s := {| task_session := session_id; task_source := target |}]>
                    (tasks s);
         next_socket := next_socket s + 1; now := now s; sent := sent s;
         responses := responses s |}) ;!
    ret association
  end.

Definition forward (io : SocketIo) (encoded : list byte) (destinations : DestinationPolicy)
  : M unit :=
  prune_idle ;!
  let! decoded := run_value (Datagram.decode encoded) in
  match decoded with
  | Ok (ServerToClient _ _ _) => throw UnexpectedDirection
  | Err _ => throw Malformed
  | Ok (ClientToServer _ session_id target payload) =>
    reject_if (negb (DestinationPolicy.allows destinations target)) RelayDestinationRejected ;!
    let! association := association io session_id target in
    touch (socket association) ;!
    if send_ok io
    then send {| sent_session := session_id; sent_socket := socket association;
                 sent_to := destination association; sent_payload := payload |}
    else throw Socket
  end.

(** What a response task wakes up for: a change of its cancellation channel,
    an error of it once every sender is gone, a packet, or a socket error. *)
Inductive Wakeup :=
| Changed (ok : bool)
| Received (packet : option (list byte)).

(** One turn of the loop of [receive_responses]; the result says whether the
    task goes on. *)
Definition receive_response (k : N) (task : ResponseTask) (wakeup : Wakeup) (sink_ok : bool)
  : M bool :=
  match wakeup with
  | Changed ok => ret (negb ok)
  | Received None => ret false
  | Received (Some received) =>
    touch k ;!
    let! response := run_value
      (Datagram.encode (ServerToClient (task_session task) (task_source task) received)) in
    match response with
    | Err _ => ret false
    | Ok encoded =>
      if sink_ok
      then respond {| answer_socket := k; answer_received := received; answer_bytes := encoded |} ;! ret true
      else ret false
    end
  end.

(** ** The relay and its tasks, interleaved *)
Inductive step (destinations : DestinationPolicy) (s : DatagramRelay) : DatagramRelay -> Prop :=
| step_forward io encoded r s' :
    forward io encoded destinations s = Ret (r, s') -> step destinations s s'
| step_response k task wakeup sink_ok continue s' :
    tasks s !! k = Some task ->
    (forall ok, wakeup = Changed ok -> ok = true /\ k ∈ cancelled s) ->
    receive_response k task wakeup sink_ok s = Ret (Ok continue, s') ->
    step destinations s (if continue then s' else set_tasks (delete k (tasks s')) s')
| step_elapse t : now s <= t -> step destinations s (set_now t s)
| step_shutdown r s' : shutdown s = Ret (r, s') -> step destinations s s'.

Definition reachable (config : DatagramRelayConfig) (destinations : DestinationPolicy)
    (s : DatagramRelay) : Prop :=
  exists s0, new config = Ok s0 /\ rtc (step destinations) s0 s.
End DatagramRelay.

(** ** The listener's handling of one datagram *)
Section listener.
Context `{ConstantTimeEq}.

(** The state of a connection: its admission and its associations. *)
Record ConnectionState := { admission_state : RelayState; relay_state : DatagramRelay }.

Definition L (A : Type) : Type := Prelude.M ConnectionState unit A.

(** An operation on either half, with its result as a value. *)
Definition on_admission {A E} (m : Prelude.M RelayState E A) : L (result A E) := fun s =>
  match m (admission_state s) with
  | Ret (r, a) => Ret (Ok r, {| admission_state := a; relay_state := relay_state s |})
  | Panic => Panic
  | OutOfFuel => OutOfFuel
  end.
Definition on_relay {A E} (m : Prelude.M DatagramRelay E A) : L (result A E) := fun s =>
  match m (relay_state s) with
  | Ret (r, d) => Ret (Ok r, {| admission_state := admission_state s; relay_state := d |})
  | Panic => Panic
  | OutOfFuel => OutOfFuel
  end.
Definition observe (event : QuicRelayEvent) : L unit :=
  let! _ := on_admission (Relay.record event) in ret tt.

Definition handle_datagram (admission : RelayAdmission) (io : DatagramRelay.SocketIo)
    (datagram : list byte) : L unit :=
  let! decoded := run_value (Datagram.decode datagram) in
  match decoded with
  | Ok (ClientToServer credential _ _ _) =>
    let! admitted := on_admission (Relay.admit_datagram admission credential) in
    match admitted with
    | Err _ => observe DatagramRejected
    | Ok _ =>
      let! forwarded := on_relay (DatagramRelay.forward io datagram (destinations admission)) in
      match forwarded with
      | Ok _ => observe DatagramRelayed
      | Err AssociationLimit => observe DatagramAssociationLimit
      | Err _ => observe DatagramRejected
      end
    end
  | _ => observe DatagramRejected
  end.
End listener.

(** ** The invariant *)
Section invariant.
Import DatagramRelay.
Context (destinations : DestinationPolicy).

Definition target_ok (session_id : DatagramSessionId) (target : SocketAddr) : Prop :=
  DatagramSessionId.wf session_id /\ SocketAddr.wf target /\ SocketAddr.plain target /\
  DestinationPolicy.allows destinations target = true.

(** What a socket was opened for, for the whole history: a session and the
    address it had asked for.  Every packet that went out over the socket,
    every packet that came back, the association and the task of the socket
    are of that session and that address. *)
Record owned (owner : gmap N (DatagramSessionId * SocketAddr)) (s : DatagramRelay) : Prop := {
  ow_fresh : forall k x, owner !! k = Some x -> k < next_socket s /\ target_ok x.1 x.2;
  ow_assoc : forall i a, associations s !! i = Some a -> owner !! socket a = Some (i, destination a);
  ow_task : forall k t, tasks s !! k = Some t -> owner !! k = Some (task_session t, task_source t);
  ow_sent : forall p, p ∈ sent s -> owner !! sent_socket p = Some (sent_session p, sent_to p);
  ow_responses : forall r, r ∈ responses s -> exists i source,
    owner !! answer_socket r = Some (i, source) /\
    Datagram.decode (answer_bytes r) = Ret (Ok (ServerToClient i source (answer_received r)))
}.

Record relay_inv (s : DatagramRelay) : Prop := {
  ri_size : N.of_nat (size (associations s)) <= max_associations (relay_config s);
  ri_assoc : forall i a, associations s !! i = Some a -> socket a ∉ cancelled s;
  ri_task : forall k t, tasks s !! k = Some t ->
    k ∈ cancelled s \/ associations s !! task_session t =
       Some {| destination := task_source t; socket := k |};
  ri_cancelled : forall k, k ∈ cancelled s -> k < next_socket s;
  ri_owned : exists owner, owned owner s
}.

(** Two associations have different sockets. *)
Lemma relay_inv_inj s i j a b :
  relay_inv s -> associations s !! i = Some a -> associations s !! j = Some b -> socket a = socket b -> i = j.
Proof.
  intros [_ _ _ _ [owner Hown]] Hi%(ow_assoc _ _ Hown) Hj%(ow_assoc _ _ Hown) Heq.
  rewrite Heq, Hj in Hi. congruence.
Qed.

Lemma elem_of_sockets m k : k ∈ sockets m <-> exists i a, m !! i = Some a /\ socket a = k.
Proof.
  unfold sockets. rewrite elem_of_list_to_set, list_elem_of_fmap. split.
  - intros ([i a] & -> & Hin). apply elem_of_map_to_list in Hin. eauto.
  - intros (i & a & Hi & <-). exists (i, a). by rewrite elem_of_map_to_list.
Qed.

(** Dropping associations, with a cancellation for each. *)
Lemma retain_inv s m c :
  relay_inv s -> m ⊆ associations s -> cancelled s ⊆ c ->
  (forall k, k ∈ c -> k ∈ cancelled s \/
     exists i a, associations s !! i = Some a /\ m !! i = None /\ socket a = k) ->
  (forall i a, associations s !! i = Some a -> m !! i = Some a \/ socket a ∈ c) ->
  relay_inv (set_table m c s).
Proof.
  intros HI Hm Hcc Hnew Hold. pose proof HI as [Hsz Ha Ht Hc [owner Hown]].
  assert (forall i a, m !! i = Some a -> associations s !! i = Some a) as Hin
    by (intros i a Hx; by eapply lookup_weaken).
  constructor; cbn [set_table associations relay_config tasks next_socket cancelled].
  - pose proof (map_subseteq_size _ _ Hm). lia.
  - intros i a Hia [?|(j & b & Hj & Hno & Heq)]%Hnew; [by apply (Ha i a (Hin _ _ Hia))|].
    rewrite (relay_inv_inj s j i b a HI Hj (Hin _ _ Hia) Heq) in Hno. congruence.
  - intros k t Hk. destruct (Ht k t Hk) as [?|Hl]; [by left; auto|].
    destruct (Hold _ _ Hl); [by right|by left].
  - intros k [?|(i & a & Hia & _ & <-)]%Hnew; [auto|].
    by apply (ow_fresh _ _ Hown _ _ (ow_assoc _ _ Hown i a Hia)).
  - exists owner. destruct Hown as [Hf Hoa Hot Hos Hor]. constructor; try done.
    intros i a Hia%Hin. by apply Hoa.
Qed.

Lemma prune_inv s r s' : relay_inv s -> prune_idle s = Ret (r, s') -> relay_inv s'.
Proof.
  intros Hs [= _ <-]. apply retain_inv; [done|apply map_filter_subseteq|set_solver| |].
  - intros k [?|(i & a & [Hi Hn]%map_lookup_filter_Some & <-)%elem_of_sockets]%elem_of_union;
      [by left|right]. exists i, a. split_and!; [done| |done].
    apply map_lookup_filter_None. right. intros b Hb. rewrite Hi in Hb. by injection Hb as <-.
  - intros i a Hi. destruct (decide (active s a)) as [Hact|Hact].
    + left. by apply map_lookup_filter_Some.
    + right. apply elem_of_union. right. apply elem_of_sockets. exists i, a.
      split; [by apply map_lookup_filter_Some|done].
Qed.

Lemma shutdown_inv s r s' : relay_inv s -> shutdown s = Ret (r, s') -> relay_inv s'.
Proof.
  intros Hs [= _ <-]. apply retain_inv; [done|apply map_empty_subseteq|set_solver| |].
  - intros k [?|(i & a & Hi & <-)%elem_of_sockets]%elem_of_union; [by left|right].
    exists i, a. by rewrite lookup_empty.
  - intros i a Hi. right. apply elem_of_union. right. apply elem_of_sockets. eauto.
Qed.

(** Only the clocks of the sockets differ. *)
Lemma touch_inv s k r s' : relay_inv s -> touch k s = Ret (r, s') -> relay_inv s'.
Proof. intros [? ? ? ? [owner []]] [= _ <-]. constructor; try done. by exists owner. Qed.

Lemma set_now_inv s t : relay_inv s -> relay_inv (set_now t s).
Proof. intros [? ? ? ? [owner []]]. constructor; try done. by exists owner. Qed.

Lemma set_tasks_inv s k : relay_inv s -> relay_inv (set_tasks (delete k (tasks s)) s).
Proof.
  intros [Hsz Ha Ht Hc [owner [Hf Hoa Hot Hos Hor]]]. constructor; try done.
  - intros i t. cbn. intros [_ Hit]%lookup_delete_Some. by apply Ht.
  - exists owner. constructor; try done. intros i t. cbn. intros [_ Hit]%lookup_delete_Some. by apply Hot.
Qed.

(** An association found or made is the session's, to the target asked for. *)
Lemma association_inv io i target s r s' :
  relay_inv s -> target_ok i target -> association io i target s = Ret (r, s') ->
  relay_inv s' /\ relay_config s' = relay_config s /\ sent s' = sent s /\
  match r with
  | Ok a => associations s' !! i = Some a /\ destination a = target
  | Err e => s' = s
  end.
Proof.
  intros HI Htarget. pose proof HI as [Hsz Ha Ht Hc [owner Hown]]. unfold association, bind, get.
  destruct (associations s !! i) as [existing|] eqn:Hl.
  { destruct (decide _) as [Hd|]; intros [= <- <-]; [|done]. auto. }
  unfold reject_if. destruct (N.leb_spec (max_associations (relay_config s)) (N.of_nat (size (associations s))));
    [by intros [= <- <-]|]. destruct (bind_ok io); [|by intros [= <- <-]].
  destruct (connect_ok io); [|by intros [= <- <-]]. intros [= <- <-].
  cbn [associations relay_config sent]. split_and!; [|done|done|by rewrite lookup_insert_eq|done].
  destruct Hown as [Hf Hoa Hot Hos Hor].
  assert (owner !! next_socket s = None) as Hfresh.
  { destruct (owner !! next_socket s) as [x|] eqn:Hx; [|done]. destruct (Hf _ _ Hx). lia. }
  assert (forall k x, owner !! k = Some x -> <[next_socket s := (i, target)]> owner !! k = Some x) as Hkeep.
  { intros k x Hk. rewrite lookup_insert_ne; [done|]. congruence. }
  constructor; cbn [associations relay_config tasks next_socket cancelled].
  - rewrite map_size_insert_None by done. lia.
  - intros j a [[<- <-]|[_ Hj]]%lookup_insert_Some; [|by apply (Ha j)]. intros Hin%Hc. cbn in Hin. lia.
  - intros k t [[<- <-]|[Hne Hk]]%lookup_insert_Some; [right; by rewrite lookup_insert_eq|].
    destruct (Ht k t Hk) as [?|Hl']; [by left|right]. rewrite lookup_insert_ne; [done|]. congruence.
  - intros k Hk%Hc. lia.
  - exists (<[next_socket s := (i, target)]> owner).
    constructor; cbn [associations relay_config tasks next_socket cancelled sent responses].
    + intros k x [[<- <-]|[_ Hk]]%lookup_insert_Some; [split; [lia|done]|]. destruct (Hf k x Hk). split; [lia|done].
    + intros j a [[<- <-]|[_ Hj]]%lookup_insert_Some; [by rewrite lookup_insert_eq|by apply Hkeep, Hoa].
    + intros k t [[<- <-]|[_ Hk]]%lookup_insert_Some; [by rewrite lookup_insert_eq|by apply Hkeep, Hot].
    + intros p Hp. by apply Hkeep, Hos.
    + intros r (j & source & Hr & Hd)%Hor. exists j, source. split; [by apply Hkeep|done].
Qed.

Lemma send_inv s i a payload r s' :
  relay_inv s -> associations s !! i = Some a ->
  send {| sent_session := i; sent_socket := socket a; sent_to := destination a;
          sent_payload := payload |} s = Ret (r, s') -> relay_inv s'.
Proof.
  intros [Hsz Ha Ht Hc [owner [Hf Hoa Hot Hos Hor]]] Hl [= _ <-].
  constructor; cbn [associations relay_config tasks next_socket cancelled]; try done.
  exists owner. constructor; try done. cbn [sent].
  intros p [Hp| ->%list_elem_of_singleton]%elem_of_app; [by apply Hos|]. by apply Hoa.
Qed.

Lemma forward_inv io encoded s r s' :
  relay_inv s -> forward io encoded destinations s = Ret (r, s') ->
  relay_inv s' /\ relay_config s' = relay_config s.
Proof.
  intros HI. unfold forward, bind at 1. destruct (prune_idle s) as [[[[]|e] s0]| |] eqn:Hp; try done.
  assert (relay_config s0 = relay_config s) as Hcfg by (by injection Hp as <-).
  apply prune_inv in Hp; [|done]. rewrite <-Hcfg. clear HI Hcfg.
  unfold bind at 1, run_value. destruct (Datagram.decode encoded) as [d| |] eqn:Hd; try done.
  destruct d as [[credential i target payload|? ? ?]|e]; try by intros [= <- <-].
  apply decode_accepts in Hd as [(Hi & Hwf & Hpl) _].
  unfold reject_if, bind at 1. destruct (DestinationPolicy.allows _ _) eqn:Hal; cbn [negb];
    [|by intros [= <- <-]]. unfold ret at 1.
  unfold bind at 1. destruct (association io i target s0) as [[[a|e] s1]| |] eqn:Ha; try done.
  2:{ intros [= <- <-]. apply association_inv in Ha as (? & Hc & _); [by rewrite Hc|done|done]. }
  apply association_inv in Ha as (H1 & Hc1 & _ & Hl & Hda); [|done|done].
  unfold bind at 1. destruct (touch (socket a) s1) as [[[[]|e] s2]| |] eqn:Ht; try done.
  assert (associations s2 = associations s1 /\ relay_config s2 = relay_config s0) as [Has Hc2]
    by (by injection Ht as <-; rewrite <-Hc1).
  apply touch_inv in Ht; [|done]. destruct (send_ok io); [|intros [= <- <-]; by rewrite Hc2].
  intros Hsend. split; [eapply send_inv in Hsend; [done..|by rewrite Has]|].
  rewrite <-Hc2. by injection Hsend as _ <-.
Qed.

Lemma receive_inv k t wakeup sink_ok s r s' :
  relay_inv s -> tasks s !! k = Some t ->
  receive_response k t wakeup sink_ok s = Ret (r, s') ->
  relay_inv s' /\ relay_config s' = relay_config s.
Proof.
  intros HI Hk. unfold receive_response. destruct wakeup as [ok|[payload|]]; try by intros [= <- <-].
  unfold bind at 1. destruct (touch k s) as [[[[]|e] s1]| |] eqn:Ht; try done.
  assert (relay_config s1 = relay_config s) as <- by (by injection Ht as <-).
  assert (tasks s1 !! k = Some t) as Hk1 by (by injection Ht as <-).
  apply touch_inv in Ht; [|done]. unfold bind at 1, run_value.
  destruct (Datagram.encode _) as [[encoded|e]| |] eqn:He; try done; [|by intros [= <- <-]].
  destruct sink_ok; [|by intros [= <- <-]]. unfold bind, respond, modify, ret. intros [= <- <-].
  split; [|done]. destruct Ht as [? ? ? ? [owner [Hf Hoa Hot Hos Hor]]]. constructor; try done.
  exists owner. constructor; try done. cbn [responses].
  intros r [Hr| ->%list_elem_of_singleton]%elem_of_app; [by apply Hor|].
  pose proof (Hot k t Hk1) as Hown. destruct (Hf k _ Hown) as (_ & Hi & Hwf & Hpl & _).
  exists (task_session t), (task_source t). split; [done|]. by apply decode_encode.
Qed.

Lemma step_inv s s' :
  relay_inv s -> step destinations s s' ->
  relay_inv s' /\ relay_config s' = relay_config s.
Proof.
  intros HI [io encoded r s1 Hf|k t wakeup sink_ok continue s1 Hk _ Hr|time _|r s1 Hs].
  - by eapply forward_inv.
  - apply (receive_inv k t) in Hr as [H1 Hc]; [|done|done]. rewrite <-Hc.
    destruct continue; [done|]. split; [by apply set_tasks_inv|done].
  - split; [|done]. by apply set_now_inv.
  - split; [by eapply shutdown_inv|]. by injection Hs as _ <-.
Qed.

Lemma reachable_inv config s :
  reachable config destinations s -> relay_inv s /\ relay_config s = config.
Proof.
  intros (s0 & Hnew & Hsteps). unfold new in Hnew.
  assert (relay_inv s0 /\ relay_config s0 = config) as H0.
  { destruct (validate_datagram_config config); [|done]. injection Hnew as <-. split; [|done].
    constructor; cbn.
    - rewrite map_size_empty. lia.
    - intros *. by rewrite lookup_empty.
    - intros *. by rewrite lookup_empty.
    - intros k Hk. set_solver.
    - exists ∅. constructor; cbn; try (intros *; by rewrite lookup_empty).
      + intros p Hp. by apply elem_of_nil in Hp.
      + intros r Hr. by apply elem_of_nil in Hr. }
  clear Hnew. induction Hsteps as [s|s s1 s2 Hs _ IH]; [done|]. destruct H0 as [HI Hc].
  apply step_inv in Hs as [? Hc1]; [|done]. apply IH. split; [done|congruence].
Qed.

(** C18. A connection's UDP associations, in every interleaving of datagrams,
    responses, time and shutdown: there are never more than configured; every
    packet goes to an allowed target, over a socket used for that target and
    session only; every answer carries the packet that came in on a socket,
    under the session and the source that this very socket is used for (by
    the packets that went out over it, by its association and by its response
    task), which is an allowed target; and a response task runs only behind a
    live association or with its cancellation sent. *)
Theorem datagram_relay_safe config s :
  reachable config destinations s ->
  N.of_nat (size (associations s)) <= max_associations config /\
  (forall p, p ∈ sent s -> DestinationPolicy.allows destinations (sent_to p) = true) /\
  (forall p q, p ∈ sent s -> q ∈ sent s -> sent_socket p = sent_socket q ->
     sent_session p = sent_session q /\ sent_to p = sent_to q) /\
  (forall r, r ∈ responses s -> exists i source,
     Datagram.decode (answer_bytes r) = Ret (Ok (ServerToClient i source (answer_received r))) /\
     DestinationPolicy.allows destinations source = true /\
     (forall p, p ∈ sent s -> sent_socket p = answer_socket r -> sent_session p = i /\ sent_to p = source) /\
     (forall j a, associations s !! j = Some a -> socket a = answer_socket r -> j = i /\ destination a = source) /\
     (forall t, tasks s !! answer_socket r = Some t -> task_session t = i /\ task_source t = source)) /\
  (forall k t, tasks s !! k = Some t -> k ∈ cancelled s \/
     associations s !! task_session t = Some {| destination := task_source t; socket := k |}).
Proof.
  intros [[Hsz _ Ht _ [owner [Hf Hoa Hot Hos Hor]]] <-]%reachable_inv. split_and!; [done| | | |done].
  - intros p Hp. by destruct (Hf _ _ (Hos p Hp)) as (_ & _ & _ & _ & ?).
  - intros p q Hp%Hos Hq%Hos Heq. rewrite Heq, Hq in Hp. by injection Hp as -> ->.
  - intros r (i & source & Hr & Hd)%Hor. exists i, source.
    destruct (Hf _ _ Hr) as (_ & _ & _ & _ & Hal). split_and!; [done..| | |].
    + intros p Hp%Hos Heq. rewrite Heq, Hr in Hp. by injection Hp as -> ->.
    + intros j a Ha%Hoa Heq. rewrite Heq, Hr in Ha. by injection Ha as -> ->.
    + intros t Htk%Hot. rewrite Hr in Htk. by injection Htk as -> ->.
Qed.
End invariant.

(** ** What forwarding a datagram does, case by case *)
Section forwarding.
Import DatagramRelay.
Context (destinations : DestinationPolicy).

Definition live (s : DatagramRelay) : gmap DatagramSessionId Association :=
  filter (fun entry => active s entry.2) (associations s).

(** The result, the packet sent and the table left, from the table of live
    associations. *)
Definition forward_outcome (io : SocketIo) (encoded : list byte) (s : DatagramRelay)
  : result unit DatagramRelayError * option Sent * gmap DatagramSessionId Association :=
  let table := live s in
  let deliver (i : DatagramSessionId) (a : Association) payload table :=
    if send_ok io
    then (Ok tt, Some {| sent_session := i; sent_socket := socket a; sent_to := destination a;
                         sent_payload := payload |}, table)
    else (Err Socket, None, table) in
  match Datagram.decode encoded with
  | Ret (Ok (ClientToServer _ i target payload)) =>
    if negb (DestinationPolicy.allows destinations target)
    then (Err RelayDestinationRejected, None, table)
    else
      match table !! i with
      | Some a =>
        if decide (destination a = target) then deliver i a payload table
        else (Err SessionTargetMismatch, None, table)
      | None =>
        if max_associations (relay_config s) <=? N.of_nat (size table)
        then (Err AssociationLimit, None, table)
        else if bind_ok io && connect_ok io
        then let a := {| destination := target; socket := next_socket s |} in
             deliver i a payload (<[i := a]> table)
        else (Err Socket, None, table)
      end
  | Ret (Ok (ServerToClient _ _ _)) => (Err UnexpectedDirection, None, table)
  | _ => (Err Malformed, None, table)
  end.

(** The clocks after a run that renewed at most the socket [k]. *)
Definition renewed (k : option N) (s s' : DatagramRelay) : Prop :=
  now s' = now s /\ relay_config s' = relay_config s /\
  last_active s' = match k with Some k => <[k := now s]> (last_active s) | None => last_active s end.

Lemma renewed_active k s s' :
  renewed k s s' ->
  (forall i a, associations s' !! i = Some a -> Some (socket a) = k \/ live s !! i = Some a) ->
  forall i a, associations s' !! i = Some a -> active s' a.
Proof.
  intros (Hn & Hc & Hl) Hm i a Hi. unfold active. rewrite Hn, Hc, Hl.
  assert (live s !! i = Some a -> active s a) as Hlive by (by intros [_ ?]%map_lookup_filter_Some).
  destruct (Hm i a Hi) as [<-|Ha%Hlive].
  - rewrite lookup_insert_eq. cbn. lia.
  - destruct k as [k|]; [|done]. destruct (decide (k = socket a)) as [->|Hk].
    + rewrite lookup_insert_eq. cbn. lia.
    + by rewrite lookup_insert_ne.
Qed.

Definition packet (io : SocketIo) (i : DatagramSessionId) (a : Association) (payload : list byte)
  : option Sent :=
  if send_ok io
  then Some {| sent_session := i; sent_socket := socket a; sent_to := destination a;
               sent_payload := payload |}
  else None.

(** The last step of forwarding, over an association that is in the table. *)
Lemma deliver_run io i a payload s :
  exists s', (touch (socket a) ;!
    if send_ok io
    then send {| sent_session := i; sent_socket := socket a; sent_to := destination a;
                 sent_payload := payload |}
    else throw Socket) s = Ret (if send_ok io then Ok tt else Err Socket, s') /\
  associations s' = associations s /\ sent s' = sent s ++ option_list (packet io i a payload) /\
  now s' = now s /\ relay_config s' = relay_config s /\
  last_active s' = <[socket a := now s]> (last_active s).
Proof.
  unfold touch, send, packet, bind, modify, throw. destruct (send_ok io); eexists; split; try done.
  cbn. by rewrite app_nil_r.
Qed.

Lemma association_run io i target s :
  exists r s', association io i target s = Ret (r, s') /\
  match r with
  | Ok a =>
    destination a = target /\ sent s' = sent s /\ now s' = now s /\
    relay_config s' = relay_config s /\
    ((s' = s /\ associations s !! i = Some a) \/
     (associations s !! i = None /\ N.of_nat (size (associations s)) < max_associations (relay_config s) /\
      bind_ok io && connect_ok io = true /\ socket a = next_socket s /\
      associations s' = <[i := a]> (associations s) /\
      last_active s' = <[socket a := now s]> (last_active s)))
  | Err e =>
    s' = s /\
    match associations s !! i with
    | Some a => destination a <> target /\ e = SessionTargetMismatch
    | None =>
      if max_associations (relay_config s) <=? N.of_nat (size (associations s))
      then e = AssociationLimit else bind_ok io && connect_ok io = false /\ e = Socket
    end
  end.
Proof.
  unfold association, bind, get, reject_if, ret, throw, modify.
  destruct (associations s !! i) as [a|] eqn:Hl.
  { destruct (decide _) as [Hd|Hd].
    - exists (Ok a), s. auto 10.
    - by exists (Err SessionTargetMismatch), s. }
  destruct (N.leb_spec (max_associations (relay_config s)) (N.of_nat (size (associations s))));
    [by eexists _, s|].
  destruct (bind_ok io), (connect_ok io); cbn [negb andb]; try by eexists _, s.
  eexists (Ok _), _. split; [done|]. cbn. split_and!; try done. right. done.
Qed.

Lemma forward_total io encoded s :
  exists r s', forward io encoded destinations s = Ret (r, s').
Proof.
  destruct (decode_spec encoded) as (d & Hd & _).
  unfold forward, run_value. rewrite Hd. unfold prune_idle, modify, bind at 1 2.
  destruct d as [[credential i target payload|? ? ?]|e]; [|by eexists _, _..].
  unfold reject_if. destruct (DestinationPolicy.allows _ _); cbn [negb]; [|by eexists _, _].
  unfold bind at 1, ret at 1. unfold bind at 1. set (s0 := set_table _ _ s).
  destruct (association_run io i target s0) as (r & s1 & -> & _).
  destruct r as [a|e]; [|by eexists _, _].
  destruct (deliver_run io i a payload s1) as (s2 & Hrun2 & _). by eexists _, _.
Qed.

(** Forwarding a datagram first drops the associations that were idle for
    too long, and then does what the table of live associations says: the
    error of each branch with nothing sent, or the one packet to the session's
    target over its own socket; no association left is idle. *)
Theorem forward_refines io encoded s :
  exists s', forward io encoded destinations s = Ret ((forward_outcome io encoded s).1.1, s') /\
    associations s' = (forward_outcome io encoded s).2 /\
    sent s' = sent s ++ option_list (forward_outcome io encoded s).1.2 /\
    (forall i a, associations s' !! i = Some a -> active s' a).
Proof.
  destruct (decode_spec encoded) as (d & Hd & _).
  unfold forward, forward_outcome, run_value. rewrite Hd. unfold prune_idle, modify, bind at 1 2.
  set (s0 := set_table _ _ s).
  assert (associations s0 = live s /\ sent s0 = sent s /\ renewed None s s0) as (Ha0 & Hs0 & Hr0)
    by done.
  assert (forall e, exists s', @throw DatagramRelay DatagramRelayError unit e s0 = Ret (Err e, s') /\
    associations s' = live s /\ sent s' = sent s ++ [] /\
    forall i a, associations s' !! i = Some a -> active s' a) as Herr.
  { intros e. exists s0. rewrite app_nil_r. split_and!; [done..|].
    apply (renewed_active None s s0 Hr0). rewrite Ha0. by right. }
  destruct d as [[credential i target payload|? ? ?]|e]; [|apply Herr..].
  unfold reject_if. destruct (DestinationPolicy.allows _ _); cbn [negb]; [|apply Herr].
  unfold bind at 1, ret at 1. unfold bind at 1.
  destruct (association_run io i target s0) as (r & s1 & Hrun & Hr). rewrite Hrun.
  destruct Hr0 as (Hn0 & Hc0 & Hl0). rewrite Ha0, Hc0 in Hr. destruct r as [a|e].
  - destruct Hr as (Hda & Hs1 & Hn1 & Hc1 & Hcase).
    destruct (deliver_run io i a payload s1) as (s2 & Hrun2 & Ha2 & Hs2 & Hn2 & Hc2 & Hl2).
    unfold bind in Hrun2 |- *. rewrite Hrun2. exists s2.
    assert (renewed (Some (socket a)) s s2 /\ associations s2 = match live s !! i with
      | Some _ => live s | None => <[i := a]> (live s) end /\
      (live s !! i = None \/ live s !! i = Some a)) as (Hren & Ha2' & Hli).
    { unfold renewed. rewrite Ha2, Hn2, Hc2, Hl2, Hn1, Hc1.
      destruct Hcase as [[-> Hi]|(Hi & _ & _ & Hk & Ha1 & Hl1)]; rewrite Hi.
      - rewrite Hl0. auto.
      - rewrite Ha1, Hl1, Hl0, insert_insert_eq. auto 10. }
    assert (forall j b, associations s2 !! j = Some b -> active s2 b) as Hact.
    { apply (renewed_active _ s s2 Hren). rewrite Ha2'. intros j b.
      destruct (live s !! i); [by right|]. intros [[_ <-]|[_ ?]]%lookup_insert_Some; [by left|by right]. }
    rewrite Ha2' in Hact |- *. rewrite Hs2, Hs1, Hs0. unfold packet.
    destruct Hcase as [[-> Hi]|(Hi & Hlt & Hio & Hk & _ & _)]; rewrite Hi in Hact |- *.
    + rewrite decide_True by done. by destruct (send_ok io).
    + rewrite (proj2 (N.leb_gt _ _) Hlt), Hio. change (next_socket s) with (next_socket s0).
      rewrite <-Hda, <-Hk. destruct a as [da ka]. by destruct (send_ok io).
  - destruct Hr as [-> Hr]. destruct (live s !! i) as [a|].
    + destruct Hr as [Hne ->]. rewrite decide_False by done. apply Herr.
    + destruct (_ <=? _); [subst e|destruct Hr as [Hio ->]; rewrite Hio]; apply Herr.
Qed.
End forwarding.

(** ** A datagram of a connection *)
Section handling.
Context `{ConstantTimeEq}.

Lemma bind_session_total p s :
  Relay.relay_ok s -> exists r s', bind_session p s = Ret (r, s').
Proof.
  intros [_ Hl _ _]. unfold bind_session, open_session. relay_eval.
  destruct (Relay.session s) as [x|]; [destruct (negb _); by eexists _, _|].
  rewrite open_session_run by done. destruct (_ <=? _); by eexists _, _.
Qed.

(** What admission leaves: the session of the connection is the principal's,
    and no flow is charged for a datagram. *)
Definition uncharged (s s' : RelayState) : Prop :=
  (Relay.session s' = Relay.session s /\ sessions (quotas s') = sessions (quotas s)) \/
  (Relay.session s = None /\ exists p l,
     Relay.session s' = Some {| session_principal := p; lease := l |} /\
     sessions (quotas s') = <[(p, l) := {| used_flows := 0 |}]> (sessions (quotas s))).

Lemma admit_datagram_wp a credential s :
  Relay.relay_ok s ->
  wp (Relay.admit_datagram a credential) s (fun r s' => uncharged s s' /\
    (r = Ok tt -> exists p x, Authenticator.authenticate (authenticator a) credential = Ok p /\
       Relay.session s' = Some x /\ session_principal x = p)).
Proof.
  intros Hok. unfold Relay.admit_datagram, Relay.authenticate, wp, bind, uncharged.
  destruct (Authenticator.authenticate _ _) as [p|e] eqn:Ha; [|cbn; split; [by left|done]].
  unfold ret at 1. destruct (bind_session_total p s Hok) as (r & s1 & Hb). rewrite Hb.
  apply bind_session_inv in Hb as [(Hs1 & Hq1 & [[e ->]|(x & Hx & Hp & ->)])|(Hn & -> & Hs1 & Hq1 & _)].
  - rewrite Hq1. split; [by left|done].
  - unfold ret. rewrite Hq1. split; [by left|]. intros _. exists p, x. by rewrite Hs1.
  - unfold ret. split; [|intros _; eexists p, _; by rewrite Hs1].
    right. split; [done|]. eexists p, _. by rewrite Hq1.
Qed.

Lemma observe_run event s :
  exists s', observe event s = Ret (Ok tt, s') /\ relay_state s' = relay_state s /\
    Relay.session (admission_state s') = Relay.session (admission_state s) /\
    quotas (admission_state s') = quotas (admission_state s).
Proof. eexists. split; [done|]. by cbn. Qed.

(** The credential of the datagram is that of the connection's principal. *)
Definition authorised (admission : RelayAdmission) (datagram : list byte) (s : RelayState) : Prop :=
  exists credential i target payload x,
    Datagram.decode datagram = Ret (Ok (ClientToServer credential i target payload)) /\
    Relay.session s = Some x /\
    Authenticator.authenticate (authenticator admission) credential = Ok (session_principal x).

(** An incoming datagram always ends in an event, and reaches the
    associations only when the credential it carries authenticates as the
    principal its connection is bound to; it is never charged as a flow. *)
Theorem datagram_admitted admission io datagram s :
  Relay.relay_ok (admission_state s) ->
  exists s', handle_datagram admission io datagram s = Ret (Ok tt, s') /\
    uncharged (admission_state s) (admission_state s') /\
    (relay_state s' <> relay_state s -> authorised admission datagram (admission_state s')).
Proof.
  intros Hok. destruct (decode_spec datagram) as (d & Hd & _).
  assert (forall event t, uncharged (admission_state s) (admission_state t) ->
    exists s', observe event t = Ret (Ok tt, s') /\ relay_state s' = relay_state t /\
      Relay.session (admission_state s') = Relay.session (admission_state t) /\
      uncharged (admission_state s) (admission_state s')) as Hobs by (intros event t Ht; by eexists).
  assert (uncharged (admission_state s) (admission_state s)) as Hself by by left.
  unfold handle_datagram, run_value. rewrite Hd. unfold bind at 1.
  destruct d as [[credential i target payload|? ? ?]|e];
    [|destruct (Hobs DatagramRejected s Hself) as (s' & Hrun & Hr & _ & Hu); by exists s'..].
  destruct (wp_run _ _ _ (admit_datagram_wp admission credential (admission_state s) Hok))
    as (r & a1 & Hrun & Hun & Hauth).
  unfold bind at 1, on_admission. rewrite Hrun. destruct r as [[]|e].
  2:{ destruct (Hobs DatagramRejected {| admission_state := a1; relay_state := relay_state s |} Hun)
        as (s' & Hev & Hr & _ & Hu). by exists s'. }
  destruct (Hauth eq_refl) as (p & x & Hp & Hx & Hpx).
  destruct (forward_total (destinations admission) io datagram (relay_state s)) as (r & d1 & Hf).
  unfold bind at 1, on_relay. cbn [relay_state]. rewrite Hf.
  assert (authorised admission datagram a1) as Hauthorised.
  { exists credential, i, target, payload, x. by rewrite Hpx. }
  assert (forall event, exists s',
    observe event {| admission_state := a1; relay_state := d1 |} = Ret (Ok tt, s') /\
    uncharged (admission_state s) (admission_state s') /\
    (relay_state s' <> relay_state s -> authorised admission datagram (admission_state s'))) as Hend.
  { intros event. destruct (Hobs event {| admission_state := a1; relay_state := d1 |} Hun)
      as (s' & Hev & _ & Hs & Hu). exists s'. split_and!; [done|done|]. intros _.
    unfold authorised. by rewrite Hs. }
  destruct r as [[]|[]]; apply Hend.
Qed.
End handling.

(** ** At concrete inputs *)
Definition test_target : SocketAddr := SocketV4 (ipv4 192 0 2 1) 53.
Definition test_destinations : DestinationPolicy := DestinationPolicy.new [test_target].
Definition test_client_datagram : Datagram :=
  ClientToServer [x63; x64] {| datagram_session_value := 7 |} test_target [x41].
Definition test_envelope : list byte :=
  match Datagram.encode test_client_datagram with Ret (Ok b) => b | _ => [] end.
Definition all_ok : DatagramRelay.SocketIo :=
  {| DatagramRelay.bind_ok := true; DatagramRelay.connect_ok := true; DatagramRelay.send_ok := true |}.
Definition test_relay : DatagramRelay :=
  match DatagramRelay.new datagram_config_default with
  | Ok s => match DatagramRelay.forward all_ok test_envelope test_destinations s with
            | Ret (_, s') => s'
            | _ => s
            end
  | Err _ => DatagramRelay.set_now 0 {| relay_config := datagram_config_default; associations := ∅;
      last_active := ∅; cancelled := ∅; tasks := ∅; next_socket := 0; now := 0; sent := [];
      responses := [] |}
  end.

(** The answer of the other end, passed on. *)
Definition test_task : ResponseTask :=
  {| task_session := {| datagram_session_value := 7 |}; task_source := test_target |}.
Definition test_answered : DatagramRelay :=
  match DatagramRelay.receive_response 0 test_task (DatagramRelay.Received (Some [x42])) true test_relay with
  | Ret (_, s') => s'
  | _ => test_relay
  end.

Lemma datagram_relay_safe_witness :
  DatagramRelay.reachable datagram_config_default test_destinations test_answered /\
  N.of_nat (size (associations test_answered)) <= 256 /\
  exists r, responses test_answered = [r] /\ exists i source,
    Datagram.decode (answer_bytes r) = Ret (Ok (ServerToClient i source (answer_received r))) /\
    (forall p, p ∈ sent test_answered -> sent_socket p = answer_socket r -> sent_session p = i /\ sent_to p = source).
Proof.
  assert (DatagramRelay.reachable datagram_config_default test_destinations test_answered) as Hr.
  { eexists. split; [reflexivity|].
    apply rtc_l with test_relay; [|apply rtc_once].
    - apply (DatagramRelay.step_forward _ _ all_ok test_envelope (Ok tt)). by vm_compute.
    - apply (DatagramRelay.step_response _ _ 0 test_task (DatagramRelay.Received (Some [x42])) true true test_answered);
        [by vm_compute|by intros ok|by vm_compute]. }
  destruct (datagram_relay_safe test_destinations datagram_config_default test_answered Hr) as (Hsize & _ & _ & Hans & _).
  split; [exact Hr|]. split; [exact Hsize|].
  assert (exists r, responses test_answered = [r]) as [r Hlist] by (eexists; vm_compute; reflexivity).
  exists r. split; [exact Hlist|].
  destruct (Hans r ltac:(rewrite Hlist; by left)) as (i & source & Hd & _ & Hs & _). by exists i, source.
Defined.

Definition test_connection : ConnectionState :=
  {| admission_state := test_state; relay_state := test_relay |}.
Definition test_datagram_admission : RelayAdmission :=
  {| authenticator := authenticator test_admission; destinations := test_destinations |}.

Lemma datagram_admitted_witness :
  exists s', handle_datagram (H := test_ct_eq) test_datagram_admission all_ok test_envelope
      test_connection = Ret (Ok tt, s') /\
    uncharged test_state (admission_state s').
Proof.
  assert (Relay.relay_ok (admission_state test_connection)) as Hok.
  { constructor; [apply quota_ok_new|done|vm_compute; congruence|done]. }
  destruct (datagram_admitted (H := test_ct_eq) test_datagram_admission all_ok test_envelope
              test_connection Hok) as (s' & Hrun & Hu & _).
  exists s'. exact (conj Hrun Hu).
Defined.
