(* ===== verification/TunStack.v ===== *)
(** The polling core of the TUN adapter ([TunStack] of
    [velum-adapter-tun/src/lib.rs]): the device that a user-space stack polls,
    over the frame queue of [Tun].  The stack ([smoltcp]) is a parameter: what
    it does in a poll is any finite conversation with its device. *)
From S2P Require Import Prelude Tun.

(** ** The stack

    In a poll it asks for a frame and for a right to send, and sends, until it
    is done. *)
Inductive Polling (A : Type) :=
| Polled (a : A)
| Asks (k : option (list byte) -> Polling A)
| Offers (k : bool -> Polling A)
| Sends (frame : list byte) (k : Polling A).
Arguments Polled {A} a.
Arguments Asks {A} k.
Arguments Offers {A} k.
Arguments Sends {A} frame k.

(** What the stack is told of its device: IP packets, one at a time. *)
Record DeviceCapabilities := { max_transmission_unit : N; max_burst_size : option N }.
Class Smoltcp := {
  Interface : Type;
  PollResult : Type;
  interface_new : DeviceCapabilities -> N -> Interface;
  (** [None] when the budget of addresses is used up, or where [IpCidr::new]
      panics. *)
  push_ip_addr : N -> N -> Interface -> option Interface;
  poll_interface : N -> Interface -> Polling (Interface * PollResult)
}.
(** A new interface has room for one address with a prefix of at most 32 bits. *)
Class SmoltcpLaws (S : Smoltcp) : Prop :=
  first_address_fits : forall capabilities now address prefix, prefix <= 32 -> is_Some (push_ip_addr address prefix (interface_new capabilities now)).

Section stack.
Context `{S : Smoltcp}.

Record TunStack := { device : TunFrameQueue; interface : Interface }.
Definition capabilities (self : TunFrameQueue) : DeviceCapabilities :=
  {| max_transmission_unit := mtu self; max_burst_size := Some 1 |}.
Definition new (config : TunStackConfig) (now : N) : outcome (result TunStack TunAdapterConfigError) :=
  match TunStackConfig.validate config with
  | Err e => Ret (Err e)
  | Ok config =>
    match TunFrameQueue.new (stack_mtu config) (frame_queue_capacity config) with
    | Err e => Ret (Err e)
    | Ok device =>
      match push_ip_addr (stack_address config) (prefix_len config) (interface_new (capabilities device) now) with
      | None => Panic
      | Some interface => Ret (Ok {| device := device; interface := interface |})
      end
    end
  end.

(** [receive] gives a right to send with the frame; consuming a right sends. *)
Fixpoint drive {A} (p : Polling A) (device : TunFrameQueue) : A * TunFrameQueue :=
  match p with
  | Polled a => (a, device)
  | Asks k =>
    match TunFrameQueue.receive (E := unit) device with
    | Ret (Ok frame, device) => drive (k frame) device
    | _ => drive (k None) device
    end
  | Offers k => drive (k (TunFrameQueue.transmit device)) device
  | Sends frame p =>
    match TunFrameQueue.consume (E := unit) frame device with
    | Ret (_, device) => drive p device
    | _ => drive p device
    end
  end.
Definition poll (now : N) (self : TunStack) : PollResult * TunStack :=
  let '((interface, result), device) := drive (poll_interface now (interface self)) (device self) in
  (result, {| device := device; interface := interface |}).
Definition set_device (d : TunFrameQueue) (self : TunStack) : TunStack := {| device := d; interface := interface self |}.
Definition push_inbound (frame : list byte) : M TunStack FrameQueueError unit := zoom device set_device (TunFrameQueue.push_inbound frame).
Definition pop_outbound {E} : M TunStack E (option (list byte)) := zoom device set_device TunFrameQueue.pop_outbound.

(** ** Bounds *)
Record queue_fits (q : TunFrameQueue) : Prop := {
  qf_inbound : len (inbound q) <= queue_capacity q /\ Forall (fun frame => len frame <= mtu q) (inbound q);
  qf_outbound : len (outbound q) <= queue_capacity q /\ Forall (fun frame => len frame <= mtu q) (outbound q)
}.
(** What a poll may do to the queue: take frames from the front, and add some
    at the end. *)
Record polled (q q' : TunFrameQueue) : Prop := {
  po_mtu : mtu q' = mtu q;
  po_capacity : queue_capacity q' = queue_capacity q;
  po_taken : exists taken, inbound q = taken ++ inbound q';
  po_sent : exists sent, outbound q' = outbound q ++ sent;
  po_fits : queue_fits q -> queue_fits q'
}.
#[export] Instance polled_preorder : PreOrder polled.
Proof.
  split.
  - intros q. split; [done|done|by exists []|exists []; by rewrite app_nil_r|done].
  - intros q q' q'' [Hm Hc [t Ht] [s Hs] Hf] [Hm' Hc' [t' Ht'] [s' Hs'] Hf']. split; [congruence|congruence| | |auto].
    + exists (t ++ t'). by rewrite <-app_assoc, <-Ht'.
    + exists (s ++ s'). by rewrite app_assoc, <-Hs.
Qed.
Lemma receive_polled q : exists q', TunFrameQueue.receive (E := unit) q = Ret (Ok (head (inbound q)), q') /\ polled q q'.
Proof.
  eexists; split; [done|]. split; try done; cbn.
  - destruct (inbound q) as [|f l]; [by exists []|by exists [f]].
  - exists []. by rewrite app_nil_r.
  - intros [[Hl Hi] Ho]. split; [|done]. cbn. destruct (inbound q) as [|f l]; [done|]. rewrite len_cons in Hl.
    apply Forall_cons in Hi as [_ Hi]. cbn. split; [lia|done].
Qed.
Lemma consume_polled frame q : exists q', TunFrameQueue.consume (E := unit) frame q = Ret (Ok tt, q') /\ polled q q'.
Proof.
  unfold TunFrameQueue.consume, bind, get. destruct (_ && _) eqn:Hb; eexists; (split; [done|]); [|done].
  apply andb_true_iff in Hb as [Hm%N.leb_le Hc%N.ltb_lt]. split; try done; cbn; [by exists []|by exists [frame]|].
  intros [Hi [Hl Ho]]. split; [done|]. cbn. split; [rewrite len_app; change (len [frame]) with 1; lia|].
  apply Forall_app. split; [done|by constructor].
Qed.
Lemma drive_polled {A} (p : Polling A) q : polled q (drive p q).2.
Proof.
  revert q. induction p as [a|k IH|k IH|frame p IH]; intros q; cbn [drive]; [done| |apply IH|].
  - destruct (receive_polled q) as (q' & -> & Hq). etransitivity; [exact Hq|apply IH].
  - destruct (consume_polled frame q) as (q' & -> & Hq). etransitivity; [exact Hq|apply IH].
Qed.
End stack.

(** Whatever the stack does in a poll, it takes frames in the order in which
    they came and only adds to what is to go out, and neither queue outgrows
    its capacity nor holds a frame longer than the MTU. *)
Theorem stack_poll_bounded `{S : Smoltcp} now (self : TunStack) :
  polled (device self) (device (poll now self).2) /\ (queue_fits (device self) -> queue_fits (device (poll now self).2)).
Proof.
  assert (polled (device self) (device (poll now self).2)) as H; [|split; [done|apply H]].
  unfold poll. pose proof (drive_polled (poll_interface now (interface self)) (device self)) as H.
  by destruct (drive _ _) as [[interface result] q].
Qed.
(** A stack is made exactly for the configurations that validate, without a
    panic, and starts with empty queues. *)
Theorem stack_new_spec `{S : Smoltcp} {L : SmoltcpLaws S} config now :
  match new config now with
  | Ret (Ok stack) => TunStackConfig.validate config = Ok config /\ queue_fits (device stack) /\
      inbound (device stack) = [] /\ outbound (device stack) = [] /\ mtu (device stack) = stack_mtu config
  | Ret (Err e) => TunStackConfig.validate config = Err e
  | _ => False
  end.
Proof.
  unfold new, TunFrameQueue.new. destruct (TunStackConfig.validate config) as [config'|e] eqn:Hv; [|done].
  unfold TunStackConfig.validate in Hv. destruct (32 <? prefix_len config) eqn:Hp; [done|]. destruct (_ || _) eqn:Hf; [done|].
  injection Hv as <-. rewrite Hf. apply N.ltb_ge in Hp.
  destruct (first_address_fits (capabilities {| mtu := stack_mtu config; queue_capacity := frame_queue_capacity config; inbound := []; outbound := [] |})
    now (stack_address config) _ Hp) as [i ->].
  split; [done|]. split; [|done]. split; cbn; (split; [unfold len; cbn; lia|done]).
Qed.

(** ** A stack that echoes *)
Module StackExamples.
#[local] Instance echo : Smoltcp := {|
  Interface := N; PollResult := bool;
  interface_new _ _ := 0;
  push_ip_addr _ prefix i := if (prefix <=? 32) && (i =? 0) then Some (i + 1) else None;
  poll_interface _ i := Asks (fun frame => match frame with Some frame => Offers (fun free => if free then Sends frame (Polled (i, true)) else Polled (i, false)) | None => Polled (i, false) end)
|}.
#[local] Instance echo_laws : SmoltcpLaws echo.
Proof. intros capabilities now address prefix Hp. cbn. apply N.leb_le in Hp. rewrite Hp. by eexists. Defined.
Definition config : TunStackConfig := {| stack_address := 0; prefix_len := 24; stack_mtu := 1280; frame_queue_capacity := 1 |}.
Definition echoed (frames : list (list byte)) : option (list (list (list byte))) :=
  match new config 0 with
  | Ret (Ok stack) =>
    Some (foldl (fun '(stack, l) frame =>
      match push_inbound frame stack with
      | Ret (_, stack) => let stack := (poll 0 stack).2 in (stack, l ++ [outbound (device stack)])
      | _ => (stack, l)
      end) (stack, []) frames).2
  | _ => None
  end.
(** The second frame finds no room to go out and is lost. *)
Example second_is_lost : echoed [[x01]; [x02]] = Some [[[x01]]; [[x01]]].
Proof. vm_compute. reflexivity. Qed.
Lemma stack_new_spec_witness : exists stack, new config 0 = Ret (Ok stack) /\ queue_fits (device stack).
Proof.
  pose proof (stack_new_spec config 0) as H. destruct (new config 0) as [[stack|e]| |] eqn:Hn; [|discriminate..].
  exists stack. split; [exact eq_refl|]. exact (proj1 (proj2 H)).
Defined.
End StackExamples.
