(* ===== verification/AndroidTun.v ===== *)
(** The packet engine of Android ([velum-adapter-tun/src/android.rs]): the loop
    that accepts the flows of a user-space TCP/IP stack, the task of each flow,
    and the one task that hands the responses of the session to the UDP flows
    they answer.  The turns of all these tasks interleave freely.  The stack
    ([ipstack]) and the runtime answer an [await] with an input; a signal to
    stop comes over a watch channel, permits from two semaphores. *)
From S2P Require Import Prelude Net Datagram Runtime Tun Copying.

Definition MAX_TCP_FLOWS : N := 256.
Definition MAX_UDP_FLOWS : N := 256.
Definition BUFFER_BYTES : N := 16 * 1024.
Definition UDP_BUFFER_BYTES : N := 65507.
Definition RESPONSES : N := 32.

(** Why an [io::Error] came about does not matter to what follows. *)
Inductive IoError := NotConnected | InvalidInput | OtherError.

(** ** The watch channel

    A receiver remembers the version it has seen. *)
Record Watch := { value : bool; version : N; sender_dropped : bool }.
Definition channel (b : bool) : Watch := {| value := b; version := 0; sender_dropped := false |}.
Definition send_replace (b : bool) (w : Watch) : Watch :=
  {| value := b; version := version w + 1; sender_dropped := sender_dropped w |}.
Definition drop_sender (w : Watch) : Watch := {| value := value w; version := version w; sender_dropped := true |}.
(** What [changed] answers a receiver; [None] while it waits. *)
Definition changed (w : Watch) (seen : N) : option (result N unit) :=
  if version w =? seen then (if sender_dropped w then Some (Err tt) else None) else Some (Ok (version w)).

(** ** The tasks *)

(** [relay_tcp]: opening the stream, and the two directions of it, of which the
    first to return ends the other. *)
Inductive TcpStage :=
| Opening
| NotOpened
| RelayingTcp (upstream downstream : Copy IoError) (over : option (result unit IoError)).
Record TcpFlow := { tcp_target : SocketAddr; tcp_seen : N; tcp_stage : TcpStage }.

(** [relay_udp]: numbering its session, adding its route, carrying datagrams,
    writing a response, and removing the route. *)
Inductive UdpStage :=
| Numbering
| Checking (candidate : N)
| Adding
| CarryingUdp
| Responding (payload : list byte)
| Removing (r : result unit IoError)
| UdpOver (r : result unit IoError).
Record UdpFlow := {
  udp_target : SocketAddr;
  udp_seen : N;
  udp_stage : UdpStage;
  session : option DatagramSessionId;
  responses : list (list byte);
  written : list (list byte);
  sent : list (list byte)
}.

(** The task of [spawn_datagram_receiver]. *)
Inductive Receiver :=
| Waiting
| Looking (response : ClientDatagram)
| Handing (flow : N) (payload : list byte)
| ReceiverOver.
Inductive Main := Accepting (seen : N) | Clearing | Returned (r : result unit IoError).

(** [numbers] is the counter all sessions of the process are numbered with; a
    route holds the sending half of the channel of its flow.  [looked_up] is
    what the receiver has looked a route up for. *)
Record Engine := {
  signal : Watch;
  numbers : N;
  main : Main;
  tcp_slots : N;
  udp_slots : N;
  tcp : gmap N TcpFlow;
  udp : gmap N UdpFlow;
  routes : gmap DatagramSessionId (SocketAddr * N);
  receiver : Receiver;
  receiver_seen : N;
  aborted : bool;
  looked_up : list ClientDatagram
}.

Section setters.
Implicit Type w : Engine.
Definition set_signal s w : Engine := {| signal := s; numbers := numbers w; main := main w; tcp_slots := tcp_slots w; udp_slots := udp_slots w; tcp := tcp w; udp := udp w; routes := routes w; receiver := receiver w; receiver_seen := receiver_seen w; aborted := aborted w; looked_up := looked_up w |}.
Definition set_main m w : Engine := {| signal := signal w; numbers := numbers w; main := m; tcp_slots := tcp_slots w; udp_slots := udp_slots w; tcp := tcp w; udp := udp w; routes := routes w; receiver := receiver w; receiver_seen := receiver_seen w; aborted := aborted w; looked_up := looked_up w |}.
Definition set_tcp slots m w : Engine := {| signal := signal w; numbers := numbers w; main := main w; tcp_slots := slots; udp_slots := udp_slots w; tcp := m; udp := udp w; routes := routes w; receiver := receiver w; receiver_seen := receiver_seen w; aborted := aborted w; looked_up := looked_up w |}.
Definition set_udp slots m w : Engine := {| signal := signal w; numbers := numbers w; main := main w; tcp_slots := tcp_slots w; udp_slots := slots; tcp := tcp w; udp := m; routes := routes w; receiver := receiver w; receiver_seen := receiver_seen w; aborted := aborted w; looked_up := looked_up w |}.
Definition set_numbers n w : Engine := {| signal := signal w; numbers := n; main := main w; tcp_slots := tcp_slots w; udp_slots := udp_slots w; tcp := tcp w; udp := udp w; routes := routes w; receiver := receiver w; receiver_seen := receiver_seen w; aborted := aborted w; looked_up := looked_up w |}.
Definition set_routes m w : Engine := {| signal := signal w; numbers := numbers w; main := main w; tcp_slots := tcp_slots w; udp_slots := udp_slots w; tcp := tcp w; udp := udp w; routes := m; receiver := receiver w; receiver_seen := receiver_seen w; aborted := aborted w; looked_up := looked_up w |}.
Definition set_receiver r l w : Engine := {| signal := signal w; numbers := numbers w; main := main w; tcp_slots := tcp_slots w; udp_slots := udp_slots w; tcp := tcp w; udp := udp w; routes := routes w; receiver := r; receiver_seen := receiver_seen w; aborted := aborted w; looked_up := l |}.
Definition abort_receiver w : Engine := {| signal := signal w; numbers := numbers w; main := main w; tcp_slots := tcp_slots w; udp_slots := udp_slots w; tcp := tcp w; udp := udp w; routes := routes w; receiver := receiver w; receiver_seen := receiver_seen w; aborted := true; looked_up := looked_up w |}.
End setters.

(** ** Starting

    The descriptor is taken over once it is known to be there and the runtime
    to be online; [accepts_mtu] is what the stack says of the MTU. *)
Record Start := { owns_descriptor : bool; started : result Engine IoError }.
Definition launch (shutdown : Watch) (seen next_session : N) : Engine :=
  {| signal := shutdown; numbers := next_session; main := Accepting seen;
     tcp_slots := MAX_TCP_FLOWS; udp_slots := MAX_UDP_FLOWS; tcp := ∅; udp := ∅; routes := ∅;
     receiver := Waiting; receiver_seen := seen; aborted := false; looked_up := [] |}.
Definition start (online : bool) (accepts_mtu : N -> bool) (tun_fd : Z) (mtu : N) (shutdown : Watch) (seen next_session : N) : Start :=
  if (tun_fd <? 0)%Z || negb online then {| owns_descriptor := false; started := Err NotConnected |}
  else if negb (accepts_mtu mtu) then {| owns_descriptor := true; started := Err InvalidInput |}
  else {| owns_descriptor := true; started := Ok (launch shutdown seen next_session) |}.

(** ** The accept loop *)
Inductive Accepted := AcceptedTcp (peer : SocketAddr) | AcceptedUdp (peer : SocketAddr) | AcceptedUnknown.
Definition fresh_id {A} (id : N) (m : gmap N A) : bool := bool_decide (m !! id = None).

Definition main_changed (w : Engine) : option Engine :=
  match main w with
  | Accepting seen =>
    match changed (signal w) seen with
    | None => None
    | Some (Ok v) => if value (signal w) then Some (abort_receiver (set_main Clearing w)) else Some (set_main (Accepting v) w)
    | Some (Err _) => Some (abort_receiver (set_main Clearing w))
    end
  | _ => None
  end.
(** [id] names the task that is spawned. *)
Definition main_accepted (id : N) (accepted : result Accepted unit) (w : Engine) : option Engine :=
  match main w with
  | Accepting seen =>
    match accepted with
    | Ok (AcceptedTcp peer) =>
      if tcp_slots w =? 0 then Some w
      else if fresh_id id (tcp w) then
        Some (set_tcp (tcp_slots w - 1) (<[id := {| tcp_target := peer; tcp_seen := seen; tcp_stage := Opening |}]> (tcp w)) w)
      else None
    | Ok (AcceptedUdp peer) =>
      if udp_slots w =? 0 then Some w
      else if fresh_id id (udp w) then
        Some (set_udp (udp_slots w - 1)
          (<[id := {| udp_target := peer; udp_seen := seen; udp_stage := Numbering; session := None;
                      responses := []; written := []; sent := [] |}]> (udp w)) w)
      else None
    | Ok AcceptedUnknown => Some w
    | Err _ => Some (abort_receiver (set_main (Returned (Err OtherError)) w))
    end
  | _ => None
  end.
Definition main_clears (w : Engine) : option Engine :=
  match main w with Clearing => Some (set_main (Returned (Ok tt)) (set_routes ∅ w)) | _ => None end.

(** ** A TCP flow *)
Definition at_tcp (stage : TcpStage) (f : TcpFlow) : TcpFlow :=
  {| tcp_target := tcp_target f; tcp_seen := tcp_seen f; tcp_stage := stage |}.
Definition tcp_over (stage : TcpStage) : bool :=
  match stage with NotOpened | RelayingTcp _ _ (Some _) => true | Opening | RelayingTcp _ _ None => false end.
(** The permit of a flow is given back when its task is over. *)
Definition put_tcp (id : N) (f : TcpFlow) (w : Engine) : Engine :=
  set_tcp (if tcp_over (tcp_stage f) then tcp_slots w + 1 else tcp_slots w) (<[id := f]> (tcp w)) w.
Definition with_tcp (id : N) (turn : TcpFlow -> option TcpStage) (w : Engine) : option Engine :=
  f ← tcp w !! id; stage ← turn f; Some (put_tcp id (at_tcp stage f) w).

(** [open_stream] is awaited before there is a [select!]; the streams are what
    the local side and the target have to say. *)
Definition tcp_opened (opened : result (list byte * list byte) RuntimeError) (f : TcpFlow) : option TcpStage :=
  match tcp_stage f with
  | Opening =>
    match opened with
    | Ok (from_tun, from_target) => Some (RelayingTcp (Copying.start from_tun []) (Copying.start from_target []) None)
    | Err _ => Some NotOpened
    end
  | _ => None
  end.
(** [send.finish()] does not wait: it follows the end of the input at once. *)
Definition upstream_turn (a : Answer IoError) (finish : result unit IoError) (c : Copy IoError) : option (Copy IoError) :=
  c ← copy_step BUFFER_BYTES a c;
  match phase c with
  | Ending => copy_step BUFFER_BYTES (match finish with Ok _ => Ended | Err e => Fails e end) c
  | _ => Some c
  end.
(** What [select!] makes of the two directions. *)
Definition returned {E} (c : Copy E) : option (result unit E) :=
  match phase c with Finished => Some (Ok tt) | Copying.Failed e => Some (Err e) | _ => None end.
Definition selected (up down : Copy IoError) : TcpStage :=
  RelayingTcp up down (match returned up with Some r => Some r | None => returned down end).
Definition tcp_copies (d : Direction) (a : Answer IoError) (finish : result unit IoError) (f : TcpFlow) : option TcpStage :=
  match tcp_stage f with
  | RelayingTcp up down None =>
    match d with
    | ToTarget => (fun c => selected c down) <$> upstream_turn a finish up
    | ToClient => selected up <$> copy_step BUFFER_BYTES a down
    end
  | _ => None
  end.
Definition tcp_changed (signal : Watch) (f : TcpFlow) : option TcpStage :=
  match tcp_stage f, changed signal (tcp_seen f) with
  | RelayingTcp up down None, Some _ => Some (RelayingTcp up down (Some (Ok tt)))
  | _, _ => None
  end.

(** ** A UDP flow *)
Definition at_udp (stage : UdpStage) (f : UdpFlow) : UdpFlow :=
  {| udp_target := udp_target f; udp_seen := udp_seen f; udp_stage := stage; session := session f;
     responses := responses f; written := written f; sent := sent f |}.
Definition udp_over (stage : UdpStage) : bool := match stage with UdpOver _ => true | _ => false end.
Definition put_udp (id : N) (f : UdpFlow) (w : Engine) : Engine :=
  set_udp (if udp_over (udp_stage f) then udp_slots w + 1 else udp_slots w) (<[id := f]> (udp w)) w.
Definition with_udp (id : N) (turn : UdpFlow -> option UdpFlow) (w : Engine) : option Engine :=
  f ← udp w !! id; f ← turn f; Some (put_udp id f w).

(** [allocate_session]: [fetch_add] wraps, and the check waits for the lock. *)
Definition udp_numbers (id : N) (w : Engine) : option Engine :=
  w' ← with_udp id (fun f => match udp_stage f with Numbering => Some (at_udp (Checking (N.max 1 (numbers w))) f) | _ => None end) w;
  Some (set_numbers ((numbers w + 1) mod (U64_MAX + 1)) w').
Definition udp_checks (routes : gmap DatagramSessionId (SocketAddr * N)) (f : UdpFlow) : option UdpFlow :=
  match udp_stage f with
  | Checking candidate =>
    match DatagramSessionId.new candidate with
    | Ok s =>
      if bool_decide (is_Some (routes !! s)) then Some (at_udp Numbering f)
      else Some {| udp_target := udp_target f; udp_seen := udp_seen f; udp_stage := Adding; session := Some s;
                   responses := []; written := written f; sent := sent f |}
    | Err _ => None
    end
  | _ => None
  end.
Definition udp_adds (id : N) (w : Engine) : option Engine :=
  f ← udp w !! id;
  match udp_stage f, session f with
  | Adding, Some s => Some (set_routes (<[s := (udp_target f, id)]> (routes w)) (put_udp id (at_udp CarryingUdp f) w))
  | _, _ => None
  end.
(** A datagram of the local side, and what the runtime makes of it. *)
Definition udp_reads (read : result (list byte) IoError) (runtime : result unit RuntimeError) (f : UdpFlow) : option UdpFlow :=
  match udp_stage f with
  | CarryingUdp =>
    match read with
    | Err e => Some (at_udp (Removing (Err e)) f)
    | Ok payload =>
      if UDP_BUFFER_BYTES <? len payload then None
      else if is_empty payload then Some (at_udp (Removing (Ok tt)) f)
      else match runtime with
           | Err _ => Some (at_udp (Removing (Err OtherError)) f)
           | Ok _ => Some {| udp_target := udp_target f; udp_seen := udp_seen f; udp_stage := CarryingUdp; session := session f;
                             responses := responses f; written := written f; sent := sent f ++ [payload] |}
           end
    end
  | _ => None
  end.
(** [recv] ends once nothing is queued and no sending half is left. *)
Definition has_sender (id : N) (w : Engine) : bool :=
  existsb (fun r => snd (snd r) =? id) (map_to_list (routes w)) ||
  match receiver w with Handing flow _ => flow =? id | _ => false end.
Definition udp_receives (senders : bool) (f : UdpFlow) : option UdpFlow :=
  match udp_stage f, responses f with
  | CarryingUdp, payload :: rest =>
    Some {| udp_target := udp_target f; udp_seen := udp_seen f; udp_stage := Responding payload; session := session f;
            responses := rest; written := written f; sent := sent f |}
  | CarryingUdp, [] => if senders then None else Some (at_udp (Removing (Ok tt)) f)
  | _, _ => None
  end.
Definition udp_wrote (r : result unit IoError) (f : UdpFlow) : option UdpFlow :=
  match udp_stage f with
  | Responding payload =>
    match r with
    | Ok _ => Some {| udp_target := udp_target f; udp_seen := udp_seen f; udp_stage := CarryingUdp; session := session f;
                      responses := responses f; written := written f ++ [payload]; sent := sent f |}
    | Err e => Some (at_udp (Removing (Err e)) f)
    end
  | _ => None
  end.
Definition udp_changed (signal : Watch) (f : UdpFlow) : option UdpFlow :=
  match udp_stage f, changed signal (udp_seen f) with
  | CarryingUdp, Some _ => Some (at_udp (Removing (Ok tt)) f)
  | _, _ => None
  end.
Definition udp_removes (id : N) (w : Engine) : option Engine :=
  f ← udp w !! id;
  match udp_stage f, session f with
  | Removing r, Some s => Some (set_routes (base.delete s (routes w)) (put_udp id (at_udp (UdpOver r) f) w))
  | _, _ => None
  end.

(** ** The task that receives *)
Definition receives (response : result ClientDatagram RuntimeError) (w : Engine) : option Engine :=
  match receiver w, response with
  | Waiting, Ok d => Some (set_receiver (Looking d) (looked_up w) w)
  | Waiting, Err _ => Some (set_receiver ReceiverOver (looked_up w) w)
  | _, _ => None
  end.
Definition looks (w : Engine) : option Engine :=
  match receiver w with
  | Looking d =>
    Some (set_receiver
      (match routes w !! response_session d with
       | Some (target, flow) => if bool_decide (target = response_source d) then Handing flow (response_payload d) else Waiting
       | None => Waiting
       end) (looked_up w ++ [d]) w)
  | _ => None
  end.
(** [send] waits for room, and fails once the flow is over. *)
Definition hands (w : Engine) : option Engine :=
  match receiver w with
  | Handing id payload =>
    f ← udp w !! id;
    match udp_stage f with
    | UdpOver _ => Some (set_receiver Waiting (looked_up w) w)
    | _ =>
      if len (responses f) <? RESPONSES then
        Some (set_receiver Waiting (looked_up w)
          (put_udp id {| udp_target := udp_target f; udp_seen := udp_seen f; udp_stage := udp_stage f; session := session f;
                         responses := responses f ++ [payload]; written := written f; sent := sent f |} w))
      else None
    end
  | _ => None
  end.
Definition receiver_changed (w : Engine) : option Engine :=
  match receiver w, changed (signal w) (receiver_seen w) with
  | Waiting, Some _ => Some (set_receiver ReceiverOver (looked_up w) w)
  | _, _ => None
  end.
Definition receiver_cancelled (w : Engine) : option Engine :=
  if aborted w then Some (set_receiver ReceiverOver (looked_up w) w) else None.

(** ** Turns *)
Inductive Turn :=
| Signals (b : bool) | SenderDropped
| MainChanged | MainAccepted (id : N) (accepted : result Accepted unit) | MainClears
| TcpOpened (id : N) (opened : result (list byte * list byte) RuntimeError)
| TcpCopies (id : N) (d : Direction) (a : Answer IoError) (finish : result unit IoError)
| TcpChanged (id : N)
| UdpNumbers (id : N) | UdpChecks (id : N) | UdpAdds (id : N)
| UdpReads (id : N) (read : result (list byte) IoError) (runtime : result unit RuntimeError)
| UdpReceives (id : N) | UdpWrote (id : N) (r : result unit IoError) | UdpChanged (id : N) | UdpRemoves (id : N)
| Receives (response : result ClientDatagram RuntimeError) | Looks | Hands | ReceiverChanged | ReceiverCancelled.
Definition turn (t : Turn) (w : Engine) : option Engine :=
  match t with
  | Signals b => if sender_dropped (signal w) then None else Some (set_signal (send_replace b (signal w)) w)
  | SenderDropped => Some (set_signal (drop_sender (signal w)) w)
  | MainChanged => main_changed w
  | MainAccepted id accepted => main_accepted id accepted w
  | MainClears => main_clears w
  | TcpOpened id opened => with_tcp id (tcp_opened opened) w
  | TcpCopies id d a finish => with_tcp id (tcp_copies d a finish) w
  | TcpChanged id => with_tcp id (tcp_changed (signal w)) w
  | UdpNumbers id => udp_numbers id w
  | UdpChecks id => with_udp id (udp_checks (routes w)) w
  | UdpAdds id => udp_adds id w
  | UdpReads id read runtime => with_udp id (udp_reads read runtime) w
  | UdpReceives id => with_udp id (udp_receives (has_sender id w)) w
  | UdpWrote id r => with_udp id (udp_wrote r) w
  | UdpChanged id => with_udp id (udp_changed (signal w)) w
  | UdpRemoves id => udp_removes id w
  | Receives response => receives response w
  | Looks => looks w
  | Hands => hands w
  | ReceiverChanged => receiver_changed w
  | ReceiverCancelled => receiver_cancelled w
  end.
(** A turn that neither signals nor takes a flow in. *)
Definition winds_down (t : Turn) : bool := match t with Signals _ | SenderDropped | MainAccepted _ _ => false | _ => true end.
Fixpoint turns (l : list Turn) (w : Engine) : option Engine :=
  match l with [] => Some w | t :: l => w ← turn t w; turns l w end.

(** ** Permits

    The permits out are the flows that are not over. *)
Definition held {A} (over : A -> bool) (m : gmap N A) : N := map_sum (fun f => if over f then 0 else 1) m.
Record slots_ok (w : Engine) : Prop := {
  sl_tcp : tcp_slots w + held (fun f => tcp_over (tcp_stage f)) (tcp w) = MAX_TCP_FLOWS;
  sl_udp : udp_slots w + held (fun f => udp_over (udp_stage f)) (udp w) = MAX_UDP_FLOWS
}.
Lemma put_tcp_slots id f g w :
  slots_ok w -> tcp w !! id = Some f -> tcp_over (tcp_stage f) = false -> slots_ok (put_tcp id g w).
Proof.
  intros [Ht Hu] Hid Hf. split; [|exact Hu]. cbn. pose proof (map_sum_update (fun f => if tcp_over (tcp_stage f) then 0 else 1) _ _ _ g Hid) as H.
  cbn in H. rewrite Hf in H. unfold held in *. destruct (tcp_over (tcp_stage g)); lia.
Qed.
Lemma put_udp_slots id f g w :
  slots_ok w -> udp w !! id = Some f -> udp_over (udp_stage f) = false -> slots_ok (put_udp id g w).
Proof.
  intros [Ht Hu] Hid Hf. split; [exact Ht|]. cbn. pose proof (map_sum_update (fun f => if udp_over (udp_stage f) then 0 else 1) _ _ _ g Hid) as H.
  cbn in H. rewrite Hf in H. unfold held in *. destruct (udp_over (udp_stage g)); lia.
Qed.

(** ** Turns of one flow *)
Lemma with_tcp_inv id go w w' :
  with_tcp id go w = Some w' -> exists f stage, tcp w !! id = Some f /\ go f = Some stage /\ w' = put_tcp id (at_tcp stage f) w.
Proof.
  unfold with_tcp. intros (f & Hf & (stage & Hgo & [= <-])%bind_Some)%bind_Some. eauto 6.
Qed.
Lemma with_udp_inv id go w w' :
  with_udp id go w = Some w' -> exists f g, udp w !! id = Some f /\ go f = Some g /\ w' = put_udp id g w.
Proof.
  unfold with_udp. intros (f & Hf & (g & Hgo & [= <-])%bind_Some)%bind_Some. eauto 6.
Qed.

(** What a turn of a flow that does not number, add or remove does to it. *)
Ltac flow_turn H :=
  unfold udp_checks, udp_reads, udp_receives, udp_wrote, udp_changed, tcp_opened, tcp_copies, tcp_changed in H;
  repeat (case_match; try discriminate H); try (apply fmap_Some in H as (? & ? & H)); simplify_eq.

Lemma tcp_turn_live f stage signal :
  (exists opened, tcp_opened opened f = Some stage) \/ (exists d a finish, tcp_copies d a finish f = Some stage) \/
  tcp_changed signal f = Some stage -> tcp_over (tcp_stage f) = false.
Proof.
  intros [(? & H)|[(? & ? & ? & H)|H]]; unfold tcp_opened, tcp_copies, tcp_changed in H; destruct (tcp_stage f) as [| |? ? []]; done.
Qed.
Lemma udp_turn_live f g :
  (exists rt, udp_checks rt f = Some g) \/ (exists read rt, udp_reads read rt f = Some g) \/ (exists b, udp_receives b f = Some g) \/
  (exists r, udp_wrote r f = Some g) \/ (exists signal, udp_changed signal f = Some g) -> udp_over (udp_stage f) = false.
Proof.
  unfold udp_checks, udp_reads, udp_receives, udp_wrote, udp_changed.
  destruct (udp_stage f); naive_solver.
Qed.

Lemma slots_ok_same w w' :
  tcp_slots w' = tcp_slots w -> udp_slots w' = udp_slots w -> tcp w' = tcp w -> udp w' = udp w -> slots_ok w -> slots_ok w'.
Proof. intros H1 H2 H3 H4 []. split; by rewrite ?H1, ?H2, ?H3, ?H4. Qed.

Lemma main_accepted_slots id accepted w w' : main_accepted id accepted w = Some w' -> slots_ok w -> slots_ok w'.
Proof.
  unfold main_accepted, fresh_id. intros H [Ht Hu].
  destruct (main w), accepted as [[]|]; try done; try (by injection H as <-).
  - destruct (tcp_slots w =? 0) eqn:Hz; [by injection H as <-|]. case_bool_decide as Hid; [|done]. injection H as <-. apply N.eqb_neq in Hz.
    split; [|exact Hu]. cbn. unfold held in *. rewrite map_sum_insert by done. cbn. lia.
  - destruct (udp_slots w =? 0) eqn:Hz; [by injection H as <-|]. case_bool_decide as Hid; [|done]. injection H as <-. apply N.eqb_neq in Hz.
    split; [exact Ht|]. cbn. unfold held in *. rewrite map_sum_insert by done. cbn. lia.
Qed.

Lemma turn_slots t w w' : turn t w = Some w' -> slots_ok w -> slots_ok w'.
Proof.
  intros H Hw. destruct t; cbn in H.
  6-8: apply with_tcp_inv in H as (f & g & Hf & Hg & ->); eapply put_tcp_slots; [done..|]; eapply (tcp_turn_live _ _ (signal w)); eauto 6.
  7,9-12: apply with_udp_inv in H as (f & g & Hf & Hg & ->); eapply put_udp_slots; [done..|]; eapply udp_turn_live; eauto 8.
  - destruct (sender_dropped _); [done|]. injection H as <-. by apply (slots_ok_same w).
  - injection H as <-. by apply (slots_ok_same w).
  - unfold main_changed in H. repeat (case_match; try done); injection H as <-; by apply (slots_ok_same w).
  - by eapply main_accepted_slots.
  - unfold main_clears in H. destruct (main w); try done. injection H as <-. by apply (slots_ok_same w).
  - apply bind_Some in H as (v & (f & g & Hf & Hg & ->)%with_udp_inv & [= <-]).
    eapply (slots_ok_same (put_udp id g w)); try done. eapply put_udp_slots; [done..|]. by destruct (udp_stage f).
  - apply bind_Some in H as (f & Hf & H). repeat (case_match; try done). injection H as <-.
    eapply (slots_ok_same (put_udp id _ w)); try done. eapply put_udp_slots; [done..|]. by destruct (udp_stage f).
  - apply bind_Some in H as (f & Hf & H). repeat (case_match; try done). injection H as <-.
    eapply (slots_ok_same (put_udp id _ w)); try done. eapply put_udp_slots; [done..|]. by destruct (udp_stage f).
  - unfold receives in H. repeat (case_match; try done); injection H as <-; by apply (slots_ok_same w).
  - unfold looks in H. case_match; try done. injection H as <-. by apply (slots_ok_same w).
  - unfold hands in H. destruct (receiver w); try done. apply bind_Some in H as (f & Hf & H).
    destruct (udp_over (udp_stage f)) eqn:Ho; [destruct (udp_stage f); try done; injection H as <-; by apply (slots_ok_same w)|].
    assert (exists g, w' = set_receiver Waiting (looked_up w) (put_udp flow g w)) as [g ->]
      by (repeat (case_match; try done); injection H as <-; eauto).
    eapply (slots_ok_same (put_udp flow g w)); try done. by eapply put_udp_slots.
  - unfold receiver_changed in H. repeat (case_match; try done); injection H as <-; by apply (slots_ok_same w).
  - unfold receiver_cancelled in H. case_match; try done. injection H as <-. by apply (slots_ok_same w).
Qed.

(** ** Responses

    The number a flow has, or is about to take. *)
Definition number (f : UdpFlow) : option N :=
  match udp_stage f with Checking candidate => Some candidate | _ => datagram_session_value <$> session f end.
Definition added (f : UdpFlow) : bool :=
  match udp_stage f with CarryingUdp | Responding _ | Removing _ | UdpOver _ => true | _ => false end.
Definition routed (s : DatagramSessionId) (target : SocketAddr) (f : UdpFlow) : Prop :=
  udp_target f = target /\ session f = Some s /\ added f = true /\ udp_over (udp_stage f) = false.
(** The responses on their way to the local side, and those that arrived. *)
Definition taken (id : N) (f : UdpFlow) (r : Receiver) : list (list byte) :=
  written f ++ (match udp_stage f with Responding payload => [payload] | _ => [] end) ++ responses f ++
  (match r with Handing flow payload => if flow =? id then [payload] else [] | _ => [] end).
Definition answers (s : DatagramSessionId) (target : SocketAddr) (d : ClientDatagram) : bool :=
  bool_decide (response_session d = s) && bool_decide (response_source d = target).
Definition answered (s : DatagramSessionId) (target : SocketAddr) (log : list ClientDatagram) : list (list byte) :=
  response_payload <$> filter (fun d => answers s target d = true) log.

Record flow_ok (n id : N) (r : Receiver) (log : list ClientDatagram) (f : UdpFlow) : Prop := {
  fo_number : forall k, number f = Some k -> 0 < k < n;
  fo_session : match session f with
    | None => added f = false /\ udp_stage f <> Adding /\ taken id f r = []
    | Some s => (added f = true \/ udp_stage f = Adding) /\ taken id f r `sublist_of` answered s (udp_target f) log
    end;
  fo_adding : added f = false -> taken id f r = [];
  fo_room : len (responses f) <= RESPONSES
}.
Record udp_ok (n : N) (m : gmap N UdpFlow) (rt : gmap DatagramSessionId (SocketAddr * N)) (r : Receiver) (log : list ClientDatagram) : Prop := {
  uo_flow : forall id f, m !! id = Some f -> flow_ok n id r log f;
  uo_distinct : forall id id' f f' k, m !! id = Some f -> m !! id' = Some f' -> number f = Some k -> number f' = Some k -> id = id';
  uo_routes : forall s target id, rt !! s = Some (target, id) -> exists f, m !! id = Some f /\ routed s target f;
  uo_handing : forall id payload, r = Handing id payload -> exists f, m !! id = Some f /\ added f = true
}.

(** Replacing a flow, and what the receiver is at, together. *)
Lemma udp_ok_set n m rt r log id f g r' log' :
  udp_ok n m rt r log -> m !! id = Some f ->
  flow_ok n id r' log' g -> (number g = number f \/ number g = None) ->
  (forall s target, rt !! s = Some (target, id) -> routed s target f -> routed s target g) -> (added f = true -> added g = true) ->
  (forall id' h, id' <> id -> flow_ok n id' r log h -> flow_ok n id' r' log' h) ->
  (forall id' payload, r' = Handing id' payload -> r = r') ->
  udp_ok n (<[id := g]> m) rt r' log'.
Proof.
  intros [Hflow Hdis Hrt Hh] Hid Hg Hn Hroute Hadd Hother Hr. split.
  - intros id' h [[<- <-]|[Hne Hl]]%lookup_insert_Some; [done|]. apply Hother; [done|]. by apply Hflow.
  - intros i j a b k Hi Hj Ha Hb. apply lookup_insert_Some in Hi as [[<- <-]|[Hni Hi]], Hj as [[<- <-]|[Hnj Hj]]; [done| | |by eapply Hdis].
    + destruct Hn as [Hn|Hn]; rewrite Hn in Ha; [|done]. by eapply (Hdis id j f b k).
    + destruct Hn as [Hn|Hn]; rewrite Hn in Hb; [|done]. by eapply (Hdis i id a f k).
  - intros s target i Hs. destruct (Hrt _ _ _ Hs) as (a & Ha & Hra). destruct (decide (i = id)) as [->|Hne].
    + exists g. rewrite lookup_insert_eq. split; [done|]. apply Hroute; [done|]. congruence.
    + exists a. by rewrite lookup_insert_ne.
  - intros i payload Hi. rewrite <-(Hr _ _ Hi) in Hi. destruct (Hh _ _ Hi) as (a & Ha & Haa). destruct (decide (i = id)) as [->|Hne].
    + exists g. rewrite lookup_insert_eq. split; [done|]. apply Hadd. congruence.
    + exists a. by rewrite lookup_insert_ne.
Qed.
Lemma udp_ok_put n m rt r log id f g :
  udp_ok n m rt r log -> m !! id = Some f -> flow_ok n id r log g -> (number g = number f \/ number g = None) ->
  (forall s target, rt !! s = Some (target, id) -> routed s target f -> routed s target g) -> (added f = true -> added g = true) ->
  udp_ok n (<[id := g]> m) rt r log.
Proof. intros. by eapply udp_ok_set. Qed.
Lemma udp_ok_routes n m rt rt' r log : udp_ok n m rt r log -> rt' ⊆ rt -> udp_ok n m rt' r log.
Proof. intros [Hflow Hdis Hrt Hh] Hs. split; try done. intros s target id H. eapply Hrt. by eapply lookup_weaken. Qed.
Lemma udp_ok_receiver n m rt r log r' log' :
  udp_ok n m rt r log -> (forall id f, m !! id = Some f -> flow_ok n id r log f -> flow_ok n id r' log' f) ->
  (forall id payload, r' = Handing id payload -> exists f, m !! id = Some f /\ added f = true) ->
  udp_ok n m rt r' log'.
Proof. intros [Hflow Hdis Hrt Hh] Hf Hh'. split; eauto. Qed.
Lemma flow_ok_number n n' id r log f : flow_ok n id r log f -> n <= n' -> flow_ok n' id r log f.
Proof. intros [Hn ? ? ?] Hle. split; try done. intros k Hk. specialize (Hn k Hk). lia. Qed.
Lemma udp_ok_number n n' m rt r log : udp_ok n m rt r log -> n <= n' -> udp_ok n' m rt r log.
Proof. intros [Hflow Hdis Hrt Hh] Hle. split; try done. intros id f Hf. eapply flow_ok_number; eauto. Qed.

(** A flow that keeps its session and its number, and takes nothing new. *)
Lemma flow_ok_keeps n id r log f g :
  flow_ok n id r log f -> session g = session f -> udp_target g = udp_target f -> added f = true -> added g = true ->
  taken id g r `sublist_of` taken id f r -> len (responses g) <= len (responses f) -> flow_ok n id r log g.
Proof.
  intros [Hn Hs Ha Hr] Hsess Htar Hf Hg Ht Hl. split.
  - intros k Hk. apply Hn. revert Hk. unfold number. rewrite Hsess. unfold added in *. by destruct (udp_stage f), (udp_stage g).
  - rewrite Hsess, Htar. destruct (session f) as [s|]; [|by destruct Hs; congruence]. split; [by left|]. etransitivity; [exact Ht|apply Hs].
  - congruence.
  - lia.
Qed.
Lemma number_keeps f g : session g = session f -> added f = true -> added g = true -> number g = number f.
Proof. unfold number, added. intros ->. by destruct (udp_stage f), (udp_stage g). Qed.
Lemma udp_ok_keeps n m rt r log id f g :
  udp_ok n m rt r log -> m !! id = Some f -> session g = session f -> udp_target g = udp_target f -> added f = true -> added g = true ->
  udp_over (udp_stage g) = false ->
  taken id g r `sublist_of` taken id f r -> len (responses g) <= len (responses f) -> udp_ok n (<[id := g]> m) rt r log.
Proof.
  intros Hok Hid Hs Ht Hf Hg Ho Htk Hl. eapply udp_ok_put; [done..|eapply flow_ok_keeps; [by eapply uo_flow|done..]| | |done].
  - left. by apply number_keeps.
  - intros s target _ (H1 & H2 & H3 & H4). split; [congruence|]. split; [congruence|]. done.
Qed.

Definition udp_fine (w : Engine) : Prop := udp_ok (numbers w) (udp w) (routes w) (receiver w) (looked_up w).
Lemma udp_fine_same w w' :
  numbers w' = numbers w -> udp w' = udp w -> routes w' = routes w -> receiver w' = receiver w -> looked_up w' = looked_up w ->
  udp_fine w -> udp_fine w'.
Proof. unfold udp_fine. by intros -> -> -> -> ->. Qed.

Ltac taken_shrinks :=
  unfold taken; cbn [written udp_stage responses at_udp];
  repeat match goal with H : udp_stage _ = _ |- _ => rewrite H | H : responses _ = _ |- _ => rewrite H end; cbn;
  rewrite ?app_nil_r, <-?app_assoc; cbn; try reflexivity.
Ltac keeps H := eapply udp_ok_keeps; [done|exact H|done|done|..]; unfold added; cbn;
  repeat match goal with H : udp_stage _ = _ |- _ => rewrite H end; try done; try lia.

Lemma carry_fine id f g w :
  udp_fine w -> udp w !! id = Some f ->
  (exists read rt, udp_reads read rt f = Some g) \/ (exists b, udp_receives b f = Some g) \/
  (exists r, udp_wrote r f = Some g) \/ (exists signal, udp_changed signal f = Some g) ->
  udp_fine (put_udp id g w).
Proof.
  intros Hok Hid H. unfold udp_fine, put_udp in *. cbn. destruct H as [(? & ? & H)|[(? & H)|[(? & H)|(? & H)]]]; flow_turn H; keeps Hid.
  all: try by taken_shrinks.
  - match goal with H : responses _ = _ |- _ => rewrite H end. rewrite len_cons. lia.
  - taken_shrinks. apply sublist_app; [done|]. by apply sublist_cons.
Qed.

Lemma spawn_fine id peer seen slots w :
  udp_fine w -> udp w !! id = None ->
  udp_fine (set_udp slots (<[id := {| udp_target := peer; udp_seen := seen; udp_stage := Numbering; session := None;
                                     responses := []; written := []; sent := [] |}]> (udp w)) w).
Proof.
  intros [Hflow Hdis Hrt Hh] Hid. unfold udp_fine. cbn. set (g := Build_UdpFlow _ _ _ _ _ _ _).
  assert (forall i f, udp w !! i = Some f -> i <> id) as Hne by congruence.
  assert (taken id g (receiver w) = []) as Ht.
  { unfold taken. cbn. destruct (receiver w) as [| |i p|] eqn:Hr; try done. destruct (Hh _ _ eq_refl) as (f & Hf & _).
    destruct (i =? id) eqn:Hi; [|done]. apply N.eqb_eq in Hi. by destruct (Hne i f). }
  split.
  - intros i f [[<- <-]|[_ Hf]]%lookup_insert_Some; [|by apply Hflow]. by split.
  - intros i j a b k Hi Hj Ha Hb. apply lookup_insert_Some in Hi as [[<- <-]|[_ Hi]], Hj as [[<- <-]|[_ Hj]]; try done. by eapply Hdis.
  - intros s target i Hs. destruct (Hrt _ _ _ Hs) as (f & Hf & Hro). exists f. rewrite lookup_insert_ne; [done|]. by apply not_eq_sym, (Hne i f).
  - intros i p Hr. destruct (Hh _ _ Hr) as (f & Hf & Ha). exists f. rewrite lookup_insert_ne; [done|]. by apply not_eq_sym, (Hne i f).
Qed.

Lemma numbers_fine id w w' : udp_numbers id w = Some w' -> 0 < numbers w < U64_MAX -> udp_fine w -> udp_fine w' /\ numbers w' = numbers w + 1.
Proof.
  unfold udp_numbers. intros H Hn Hok. apply bind_Some in H as (v & (f & g & Hf & Hg & ->)%with_udp_inv & [= <-]).
  destruct (udp_stage f) eqn:Hst; try done. injection Hg as <-. cbn. rewrite N.mod_small by lia. split; [|done].
  rewrite N.max_r by lia. unfold udp_fine in *. cbn. pose proof Hok as [Hflow Hdis Hrt Hh]. pose proof (Hflow _ _ Hf) as [Hno Hs Ha Hr].
  assert (session f = None) as Hnone.
  { destruct (session f); [|done]. destruct Hs as [[Hs|Hs] _]; unfold added in *; by rewrite Hst in Hs. }
  assert (taken id (at_udp (Checking (numbers w)) f) (receiver w) = []) as Ht.
  { rewrite <-(Ha ltac:(unfold added; by rewrite Hst)). unfold taken. cbn. by rewrite Hst. }
  split.
  - intros i a [[<- <-]|[Hne Hl]]%lookup_insert_Some; [|eapply flow_ok_number; [by apply Hflow|lia]].
    split; [|by cbn; rewrite Hnone|done|done]. unfold number. cbn. intros k [= <-]. lia.
  - intros i j a b k Hi Hj Hka Hkb. apply lookup_insert_Some in Hi as [[<- <-]|[Hni Hi]], Hj as [[<- <-]|[Hnj Hj]]; [done| | |by eapply Hdis].
    + unfold number in Hka; cbn in Hka. injection Hka as <-. destruct (fo_number _ _ _ _ _ (Hflow _ _ Hj) _ Hkb). lia.
    + unfold number in Hkb; cbn in Hkb. injection Hkb as <-. destruct (fo_number _ _ _ _ _ (Hflow _ _ Hi) _ Hka). lia.
  - intros s target i Hro. destruct (Hrt _ _ _ Hro) as (a & Hla & Hra). exists a. rewrite lookup_insert_ne; [done|]. intros ->.
    destruct Hra as (_ & Hra & _). congruence.
  - intros i p Hr'. destruct (Hh _ _ Hr') as (a & Hla & Hra). exists a. rewrite lookup_insert_ne; [done|]. intros ->.
    unfold added in Hra. replace a with f in Hra by congruence. by rewrite Hst in Hra.
Qed.

Lemma checks_fine id f g w : udp_checks (routes w) f = Some g -> udp w !! id = Some f -> udp_fine w -> udp_fine (put_udp id g w).
Proof.
  intros H Hid Hok. unfold udp_fine, put_udp in *. cbn. pose proof (uo_flow _ _ _ _ _ Hok _ _ Hid) as [Hno Hs Ha Hr].
  unfold udp_checks in H. destruct (udp_stage f) eqn:Hst; try done.
  assert (added f = false) as Hadd by (unfold added; by rewrite Hst).
  assert (session f = None) as Hnone.
  { destruct (session f); [|done]. destruct Hs as [[Hs|Hs] _]; congruence. }
  specialize (Ha Hadd). unfold taken in Ha. rewrite Hst in Ha. cbn in Ha. apply app_eq_nil in Ha as [Hw Ha]. apply app_eq_nil in Ha as [Hre Hha].
  unfold DatagramSessionId.new in H. destruct (candidate =? 0); [done|].
  case_bool_decide as Hkn; injection H as <-.
  all: eapply udp_ok_put; [done..| | | |congruence].
  - split; cbn; [unfold number; cbn; by rewrite Hnone| |intros _|done].
    + rewrite Hnone. repeat split; try done. unfold taken. cbn. by rewrite Hw, Hre, Hha.
    + unfold taken. cbn. by rewrite Hw, Hre, Hha.
  - right. unfold number. cbn. by rewrite Hnone.
  - intros s target _ (_ & Hse & _). congruence.
  - split; cbn; [intros k Hk; apply Hno; by unfold number; rewrite Hst| |intros _|done].
    + split; [by right|]. unfold taken. cbn. rewrite Hw, Hha. apply sublist_nil_l.
    + unfold taken. cbn. by rewrite Hw, Hha.
  - left. unfold number. by rewrite Hst.
  - intros s target _ (_ & Hse & _). congruence.
Qed.

Lemma adds_fine id w w' : udp_adds id w = Some w' -> udp_fine w -> udp_fine w' /\ numbers w' = numbers w.
Proof.
  unfold udp_adds. intros (f & Hid & H)%bind_Some Hok. destruct (udp_stage f) eqn:Hst; try done.
  destruct (session f) as [s|] eqn:Hse; [|done]. injection H as <-. split; [|done]. unfold udp_fine in *. cbn.
  pose proof (uo_flow _ _ _ _ _ Hok _ _ Hid) as [Hno Hs Ha Hr].
  assert (added f = false) as Hadd by (unfold added; by rewrite Hst).
  assert (taken id (at_udp CarryingUdp f) (receiver w) = []) as Ht.
  { rewrite <-(Ha Hadd). unfold taken. cbn. by rewrite Hst. }
  assert (udp_ok (numbers w) (<[id := at_udp CarryingUdp f]> (udp w)) (routes w) (receiver w) (looked_up w)) as [Hflow Hdis Hrt Hh].
  { eapply udp_ok_put; [done..| | | |congruence].
    - split; [intros k Hk; apply Hno; unfold number in *; cbn in Hk; by rewrite Hst| |done|done].
      cbn [session at_udp udp_target]. rewrite Hse, Ht. split; [by left|apply sublist_nil_l].
    - left. unfold number. by rewrite Hst.
    - intros s' target _ (_ & _ & Hro & _). congruence. }
  split; try done. intros s' target i [[<- [= <- <-]]|[_ Hl]]%lookup_insert_Some; [|by apply Hrt].
  exists (at_udp CarryingUdp f). by rewrite lookup_insert_eq.
Qed.

Lemma removes_fine id w w' : udp_removes id w = Some w' -> udp_fine w -> udp_fine w' /\ numbers w' = numbers w.
Proof.
  unfold udp_removes. intros (f & Hid & H)%bind_Some Hok. destruct (udp_stage f) eqn:Hst; try done.
  destruct (session f) as [s|] eqn:Hse; [|done]. injection H as <-. split; [|done]. unfold udp_fine in *. cbn.
  assert (added f = true) as Hadd by (unfold added; by rewrite Hst).
  eapply udp_ok_put; [by eapply udp_ok_routes, delete_subseteq|done|eapply flow_ok_keeps; [by eapply uo_flow|try done..]| | |done].
  - unfold taken. cbn. by rewrite Hst.
  - left. by apply number_keeps.
  - intros s' target [Hne Hs']%lookup_delete_Some (_ & Hse' & _). congruence.
Qed.

Lemma receives_fine response w w' : receives response w = Some w' -> udp_fine w -> udp_fine w'.
Proof.
  unfold receives, udp_fine. intros H Hok. destruct (receiver w) eqn:Hr, response; try done; injection H as <-; cbn;
    (eapply udp_ok_receiver; [exact Hok|intros id f _ []; by split|done]).
Qed.

(** The receiver hands on to nobody any more: what was on its way is lost. *)
Lemma taken_drops id f r r' : (forall flow payload, r' <> Handing flow payload) -> taken id f r' `sublist_of` taken id f r.
Proof.
  intros Hr. unfold taken. replace (match r' with Handing _ _ => _ | _ => _ end) with (@nil (list byte)).
  2:{ destruct r'; try done. by destruct (Hr flow payload). }
  repeat apply sublist_app; try done. apply sublist_nil_l.
Qed.
Lemma flow_ok_drops n id r r' log f : (forall flow payload, r' <> Handing flow payload) -> flow_ok n id r log f -> flow_ok n id r' log f.
Proof.
  intros Hr [Hn Hs Ha Hro]. assert (taken id f r' `sublist_of` taken id f r) as Ht by by apply taken_drops.
  split; [done| |intros Hadd|done].
  - destruct (session f); [split; [apply Hs|]; etransitivity; [exact Ht|apply Hs]|].
    destruct Hs as (? & ? & Hs). repeat split; try done. rewrite Hs in Ht. by apply sublist_nil_r in Ht.
  - rewrite (Ha Hadd) in Ht. by apply sublist_nil_r in Ht.
Qed.
Lemma drops_fine r w : (forall flow payload, r <> Handing flow payload) -> udp_fine w -> udp_fine (set_receiver r (looked_up w) w).
Proof.
  intros Hr Hok. unfold udp_fine in *. cbn. eapply udp_ok_receiver; [exact Hok|intros; by eapply flow_ok_drops|].
  intros id p ->. by destruct (Hr id p).
Qed.

Lemma answered_app s target log d :
  answered s target (log ++ [d]) = answered s target log ++ (if answers s target d then [response_payload d] else []).
Proof.
  unfold answered. rewrite filter_app, fmap_app. f_equal. rewrite filter_cons, filter_nil.
  destruct (answers s target d); by case_decide.
Qed.
Lemma looks_fine w w' : looks w = Some w' -> udp_fine w -> udp_fine w'.
Proof.
  unfold looks. destruct (receiver w) as [|d| |] eqn:Hrec; try done. intros [= <-] Hok. unfold udp_fine in *. cbn. rewrite Hrec in Hok.
  pose proof Hok as [Hflow Hdis Hrt Hh].
  assert (forall id r, (forall flow payload, r <> Handing flow payload) -> forall f, flow_ok (numbers w) id (Looking d) (looked_up w) f ->
    flow_ok (numbers w) id r (looked_up w ++ [d]) f) as Hmore.
  { intros id r Hr f Hf. apply (flow_ok_drops _ _ _ r) in Hf; [|done]. destruct Hf as [Hn Hs Ha Hro]. split; try done.
    destruct (session f); [|done]. split; [apply Hs|]. rewrite answered_app. apply sublist_inserts_r, Hs. }
  destruct (routes w !! response_session d) as [[target flow]|] eqn:Hroute; [case_bool_decide as Heq|];
    [|eapply udp_ok_receiver; [done|intros; by apply Hmore|done]..].
  destruct (Hrt _ _ _ Hroute) as (g & Hg & Htar & Hsess & Hadd & Hover).
  eapply udp_ok_receiver; [done| |intros ? ? [= <- <-]; eauto]. intros id f Hf Hfok.
  destruct (decide (id = flow)) as [->|Hne].
  - replace f with g in * by congruence. destruct (Hmore flow Waiting ltac:(done) _ Hfok) as [Hn Hs Ha Hro].
    split; [done| |congruence|done]. rewrite Hsess in *. split; [by left|]. rewrite answered_app.
    unfold answers. rewrite !bool_decide_eq_true_2 by congruence. cbn.
    assert (taken flow g (Handing flow (response_payload d)) = taken flow g (Looking d) ++ [response_payload d]) as ->.
    { unfold taken. by rewrite N.eqb_refl, app_nil_r, <-!app_assoc. }
    destruct Hfok as [_ Hs' _ _]. rewrite Hsess in Hs'. apply sublist_app; [apply Hs'|done].
  - assert (taken id f (Handing flow (response_payload d)) = taken id f Waiting) as Ht.
    { unfold taken. by rewrite (proj2 (N.eqb_neq flow id)) by done. }
    destruct (Hmore id Waiting ltac:(done) _ Hfok) as [Hn Hs Ha Hro]. by split; rewrite ?Ht.
Qed.

Lemma hands_fine w w' : hands w = Some w' -> udp_fine w -> udp_fine w' /\ numbers w' = numbers w.
Proof.
  unfold hands. destruct (receiver w) as [| |id payload|] eqn:Hrec; try done. intros (f & Hf & H)%bind_Some Hok.
  destruct (udp_over (udp_stage f)) eqn:Hov.
  { destruct (udp_stage f); try done. injection H as <-. split; [|done]. by apply drops_fine. }
  assert (len (responses f) < RESPONSES /\ w' = set_receiver Waiting (looked_up w)
    (put_udp id {| udp_target := udp_target f; udp_seen := udp_seen f; udp_stage := udp_stage f; session := session f;
                   responses := responses f ++ [payload]; written := written f; sent := sent f |} w)) as [Hlt ->].
  { destruct (len (responses f) <? RESPONSES) eqn:Hl; [apply N.ltb_lt in Hl|by destruct (udp_stage f)]. split; [done|].
    destruct (udp_stage f); try done; by injection H as <-. }
  clear H. split; [|done]. unfold udp_fine in *. cbn. rewrite Hrec in Hok. pose proof Hok as [Hflow Hdis Hrt Hh].
  destruct (Hh _ _ eq_refl) as (f' & Hf' & Hadd). replace f' with f in * by congruence.
  eapply udp_ok_set; [done|done| |by left|done|done| |done].
  - pose proof (Hflow _ _ Hf) as [Hn Hs Ha Hro]. set (g := Build_UdpFlow _ _ _ _ _ _ _).
    assert (taken id g Waiting = taken id f (Handing id payload)) as Ht.
    { unfold taken. cbn. by rewrite N.eqb_refl, app_nil_r. }
    split; rewrite ?Ht; [done|done| |cbn; rewrite len_app; change (len [payload]) with 1; lia].
    intros Hg. exfalso. unfold added in *. cbn in Hg. congruence.
  - intros id' h Hne. by apply flow_ok_drops.
Qed.

Lemma main_fine t w w' :
  turn t w = Some w' -> match t with MainChanged | MainAccepted _ _ | MainClears => True | _ => False end ->
  udp_fine w -> udp_fine w' /\ numbers w' = numbers w.
Proof.
  intros H Ht Hok. destruct t; try done; cbn in H.
  - unfold main_changed in H. repeat (case_match; try done); injection H as <-; (split; [by apply (udp_fine_same w)|done]).
  - unfold main_accepted, fresh_id in H. repeat (case_match; try done); injection H as <-; (split; [|done]); try done; try by apply (udp_fine_same w).
    apply spawn_fine; [done|]. by case_bool_decide.
  - unfold main_clears in H. destruct (main w); try done. injection H as <-. split; [|done].
    unfold udp_fine in *. cbn. eapply udp_ok_routes; [done|]. apply map_empty_subseteq.
Qed.

Lemma turn_fine t w w' :
  turn t w = Some w' -> 0 < numbers w < U64_MAX -> udp_fine w -> udp_fine w' /\ numbers w <= numbers w' <= numbers w + 1.
Proof.
  intros H Hn Hok. assert (numbers w' = numbers w -> numbers w <= numbers w' <= numbers w + 1) as Heq by lia.
  destruct t.
  3-5: by destruct (main_fine _ _ _ H I Hok); auto.
  all: cbn in H.
  3-5: apply with_tcp_inv in H as (f & g & Hf & Hg & ->); split; [by apply (udp_fine_same w)|auto].
  6-9: apply with_udp_inv in H as (f & g & Hf & Hg & ->); split; [eapply carry_fine; eauto 6|auto].
  - destruct (sender_dropped _); [done|]. injection H as <-. split; [by apply (udp_fine_same w)|auto].
  - injection H as <-. split; [by apply (udp_fine_same w)|auto].
  - destruct (numbers_fine _ _ _ H Hn Hok). split; [done|lia].
  - apply with_udp_inv in H as (f & g & Hf & Hg & ->). split; [by eapply checks_fine|auto].
  - destruct (adds_fine _ _ _ H Hok). auto.
  - destruct (removes_fine _ _ _ H Hok). auto.
  - split; [by eapply receives_fine|]. unfold receives in H. repeat (case_match; try done); injection H as <-; auto.
  - split; [by eapply looks_fine|]. unfold looks in H. case_match; try done. injection H as <-. auto.
  - destruct (hands_fine _ _ H Hok). auto.
  - unfold receiver_changed in H. repeat (case_match; try done); injection H as <-; (split; [by apply drops_fine|auto]).
  - unfold receiver_cancelled in H. case_match; [|done]. injection H as <-. split; [by apply drops_fine|auto].
Qed.

(** ** What has been seen of the signal *)
Definition sees (w : Watch) (seen : N) : Prop := seen <= version w /\ (seen = version w -> value w = false).
Record signal_ok (w : Engine) : Prop := {
  sg_main : forall seen, main w = Accepting seen -> sees (signal w) seen;
  sg_tcp : forall id f, tcp w !! id = Some f -> sees (signal w) (tcp_seen f);
  sg_udp : forall id f, udp w !! id = Some f -> sees (signal w) (udp_seen f);
  sg_receiver : sees (signal w) (receiver_seen w);
  sg_aborted : (forall seen, main w <> Accepting seen) -> aborted w = true
}.
Lemma sees_send b w seen : sees w seen -> sees (send_replace b w) seen.
Proof. intros [Hle Hv]. unfold sees. cbn. split; [lia|]. intros ->. lia. Qed.
Lemma signal_ok_flows w w' :
  signal_ok w -> signal w' = signal w -> main w' = main w -> aborted w' = aborted w -> receiver_seen w' = receiver_seen w ->
  (forall id f', tcp w' !! id = Some f' -> exists id f, tcp w !! id = Some f /\ tcp_seen f = tcp_seen f') ->
  (forall id f', udp w' !! id = Some f' -> exists id f, udp w !! id = Some f /\ udp_seen f = udp_seen f') ->
  signal_ok w'.
Proof.
  intros [Hm Ht Hu Hr Ha] Hs Hmain Hab Hrs HT HU. split; rewrite ?Hs, ?Hmain, ?Hab, ?Hrs; try done.
  - intros id f (i & g & Hg & <-)%HT. by eapply Ht.
  - intros id f (i & g & Hg & <-)%HU. by eapply Hu.
Qed.
Lemma same_seen {A} (seen : A -> N) (m : gmap N A) id f g :
  m !! id = Some f -> seen g = seen f -> forall i h, <[id := g]> m !! i = Some h -> exists j k, m !! j = Some k /\ seen k = seen h.
Proof. intros Hf Hs i h [[<- <-]|[_ Hl]]%lookup_insert_Some; eauto. Qed.

Lemma udp_turn_seen f g :
  (exists rt, udp_checks rt f = Some g) \/ (exists read rt, udp_reads read rt f = Some g) \/ (exists b, udp_receives b f = Some g) \/
  (exists r, udp_wrote r f = Some g) \/ (exists signal, udp_changed signal f = Some g) -> udp_seen g = udp_seen f.
Proof. intros [(? & H)|[(? & ? & H)|[(? & H)|[(? & H)|(? & H)]]]]; by flow_turn H. Qed.

Lemma main_signal t w w' :
  turn t w = Some w' -> match t with Signals _ | SenderDropped | MainChanged | MainAccepted _ _ | MainClears => True | _ => False end ->
  signal_ok w -> signal_ok w'.
Proof.
  intros H Ht Hok. pose proof Hok as [Hm HT HU Hr Ha]. destruct t; try done; cbn in H.
  - destruct (sender_dropped _); [done|]. injection H as <-. split; cbn; intros; try (by auto); apply sees_send; eauto.
  - injection H as <-. split; cbn; intros; try done; by eauto.
  - unfold main_changed, changed in H. repeat (case_match; try done); simplify_eq; try (split; cbn; intros; simplify_eq; by eauto).
    split; cbn; try done; [intros s [= <-]; by split|intros Hn; by edestruct Hn].
  - unfold main_accepted, fresh_id in H. destruct (main w) as [seen| |] eqn:Hmain; [|done..].
    repeat (case_match; try done); simplify_eq; try (split; cbn; rewrite ?Hmain; intros; simplify_eq; by eauto).
    + split; cbn; rewrite ?Hmain; try by eauto. intros i f [[<- <-]|[_ Hl]]%lookup_insert_Some; cbn; eauto.
    + split; cbn; rewrite ?Hmain; try by eauto. intros i f [[<- <-]|[_ Hl]]%lookup_insert_Some; cbn; eauto.
  - unfold main_clears in H. destruct (main w) eqn:Hmain; try done. injection H as <-. split; cbn; intros; simplify_eq; try done; try by eauto.
Qed.
(** A turn that replaces a flow by one that has seen as much. *)
Ltac replaces_flow w f := apply (signal_ok_flows w); try done; cbn; eauto; apply (same_seen _ _ _ f); [done|].
Lemma turn_signal t w w' : turn t w = Some w' -> signal_ok w -> signal_ok w'.
Proof.
  intros H Hok. destruct t; try (by eapply main_signal); cbn in H.
  1-3: apply with_tcp_inv in H as (f & g & Hf & Hg & ->); by replaces_flow w f.
  2,4-7: apply with_udp_inv in H as (f & g & Hf & Hg & ->); replaces_flow w f; apply udp_turn_seen; eauto 8.
  - apply bind_Some in H as (v & (f & g & Hf & Hg & ->)%with_udp_inv & [= <-]). replaces_flow w f.
    by destruct (udp_stage f); simplify_eq.
  - apply bind_Some in H as (f & Hf & H). repeat (case_match; try done). injection H as <-. by replaces_flow w f.
  - apply bind_Some in H as (f & Hf & H). repeat (case_match; try done). injection H as <-. by replaces_flow w f.
  - unfold receives in H. repeat (case_match; try done); injection H as <-; by apply (signal_ok_flows w); eauto.
  - unfold looks in H. case_match; try done. injection H as <-; by apply (signal_ok_flows w); eauto.
  - unfold hands in H. destruct (receiver w); try done. apply bind_Some in H as (f & Hf & H).
    repeat (case_match; try done); injection H as <-; [by replaces_flow w f..|by apply (signal_ok_flows w); eauto].
  - unfold receiver_changed in H. repeat (case_match; try done); injection H as <-; by apply (signal_ok_flows w); eauto.
  - unfold receiver_cancelled in H. case_match; try done. injection H as <-; by apply (signal_ok_flows w); eauto.
Qed.

(** ** Every run *)
Record sound (w : Engine) : Prop := { so_slots : slots_ok w; so_udp : udp_fine w; so_signal : signal_ok w; so_numbers : 0 < numbers w }.
Lemma engine_turn_sound t w w' : turn t w = Some w' -> numbers w < U64_MAX -> sound w -> sound w' /\ numbers w' <= numbers w + 1.
Proof.
  intros H Hn [Hs Hu Hg Hp]. destruct (turn_fine _ _ _ H ltac:(done) Hu) as [Hu' [Hlo Hhi]]. split; [|done].
  split; [by eapply turn_slots|done|by eapply turn_signal|lia].
Qed.
Lemma engine_turns_sound l w w' :
  turns l w = Some w' -> numbers w + len l <= U64_MAX -> sound w -> sound w' /\ numbers w' <= numbers w + len l.
Proof.
  revert w. induction l as [|t l IH]; intros w; cbn; [intros [= ->]; split; [done|lia]|].
  intros (v & Ht & Hl)%bind_Some Hb Hw. rewrite len_cons in *. destruct (engine_turn_sound _ _ _ Ht ltac:(lia) Hw) as [Hv Hn].
  destruct (IH v Hl ltac:(lia) Hv). split; [done|lia].
Qed.
Lemma start_sound online accepts_mtu fd mtu shutdown seen next w :
  started (start online accepts_mtu fd mtu shutdown seen next) = Ok w -> sees shutdown seen -> 0 < next -> sound w /\ numbers w = next.
Proof.
  unfold start. destruct (_ || _); [done|]. destruct (negb _); [done|]. intros [= <-] Hsees Hn. split; [|done]. split; try done.
  split; cbn; try done; [by intros s [= <-]|]. intros Hn'. by destruct (Hn' seen).
Qed.

(** C36. No run of the engine gives the response to one flow to another: what a UDP
    flow writes to its local side are responses of its own session from its own
    target, in the order in which they came, none of them twice; no two flows
    have the same session; and no more than 256 flows of either kind are there
    at a time, each with a permit, nor more than 32 responses waiting for one. *)
Theorem tun_responses_reach_their_flow online accepts_mtu fd mtu shutdown seen next w0 l w
    (Hstart : started (start online accepts_mtu fd mtu shutdown seen next) = Ok w0) (Hsees : sees shutdown seen)
    (Hnext : 0 < next) (Hrun : turns l w0 = Some w) (Hbound : next + len l <= U64_MAX) :
  (forall id f s, udp w !! id = Some f -> session f = Some s ->
     written f `sublist_of` answered s (udp_target f) (looked_up w) /\ len (responses f) <= RESPONSES /\
     forall id' f', udp w !! id' = Some f' -> session f' = Some s -> id' = id) /\
  tcp_slots w + held (fun f => tcp_over (tcp_stage f)) (tcp w) = MAX_TCP_FLOWS /\
  udp_slots w + held (fun f => udp_over (udp_stage f)) (udp w) = MAX_UDP_FLOWS.
Proof.
  destruct (start_sound _ _ _ _ _ _ _ _ Hstart Hsees Hnext) as [Hs0 Hn0].
  destruct (engine_turns_sound _ _ _ Hrun ltac:(lia) Hs0) as [[Hslots [Hflow Hdis _ _] _ _] _]. split; [|by destruct Hslots].
  assert (forall id f s, udp w !! id = Some f -> session f = Some s -> number f = Some (datagram_session_value s)) as Hnum.
  { intros id f s Hf Hse. destruct (Hflow _ _ Hf) as [_ Hs _ _]. rewrite Hse in Hs. destruct Hs as [Hs _]. unfold number. rewrite Hse.
    unfold added in Hs. by destruct (udp_stage f), Hs. }
  intros id f s Hf Hse. pose proof (Hflow _ _ Hf) as [_ Hs _ Hr]. rewrite Hse in Hs. destruct Hs as [_ Hs].
  split; [|split; [done|]].
  - etransitivity; [|exact Hs]. by apply sublist_inserts_r.
  - intros id' f' Hf' Hse'. eapply Hdis; [exact Hf'|exact Hf|by eapply Hnum..].
Qed.

(** ** Stopping

    How many turns a task still takes once it is to stop. *)
Definition tcp_left (f : TcpFlow) : N := if tcp_over (tcp_stage f) then 0 else 1.
Definition udp_left (f : UdpFlow) : N :=
  match udp_stage f with
  | Numbering => 6 | Checking _ => 5 | Adding => 4 | Responding _ => 3 | CarryingUdp => 2 | Removing _ => 1 | UdpOver _ => 0
  end.
Definition main_left (w : Engine) : N :=
  match main w with Accepting seen => if version (signal w) =? seen then 2 else 3 | Clearing => 1 | Returned _ => 0 end.
Definition receiver_left (w : Engine) : N := match receiver w with ReceiverOver => 0 | _ => 1 end.
Definition left_to_do (w : Engine) : N := main_left w + receiver_left w + map_sum tcp_left (tcp w) + map_sum udp_left (udp w).
(** The signal to stop was given, or its sender is gone. *)
Definition stopping (w : Engine) : Prop := value (signal w) = true \/ sender_dropped (signal w) = true.
Lemma stopping_changed w seen : stopping w -> sees (signal w) seen -> is_Some (changed (signal w) seen).
Proof.
  intros Hs [Hle Hv]. unfold changed. destruct (version (signal w) =? seen) eqn:He; [|by eexists]. apply N.eqb_eq in He.
  destruct Hs as [Hs| ->]; [|by eexists]. rewrite Hv in Hs by done. done.
Qed.

Lemma left_to_do_main m rt w :
  main_left (set_main m w) < main_left w ->
  left_to_do (set_main m (set_routes rt w)) < left_to_do w /\ left_to_do (abort_receiver (set_main m w)) < left_to_do w /\
  left_to_do (set_main m w) < left_to_do w.
Proof. intros H. unfold left_to_do, receiver_left, main_left in *. cbn [main receiver signal tcp udp set_main set_routes abort_receiver] in *. repeat split; lia. Qed.
Lemma main_turn_left w : sound w -> stopping w -> 0 < main_left w ->
  exists t w', turn t w = Some w' /\ winds_down t = true /\ signal w' = signal w /\ numbers w' = numbers w /\ left_to_do w' < left_to_do w.
Proof.
  intros Hw Hstop Hpos. destruct (main w) as [seen| |r] eqn:Hm; [| |unfold main_left in Hpos; by rewrite Hm in Hpos].
  - exists MainChanged. cbn. unfold main_changed. rewrite Hm.
    destruct (stopping_changed _ _ Hstop (sg_main _ (so_signal _ Hw) _ Hm)) as [r Hr]. rewrite Hr.
    assert (1 < main_left w) as Hleft by (unfold main_left; rewrite Hm; by destruct (_ =? _)).
    assert (left_to_do (abort_receiver (set_main Clearing w)) < left_to_do w) as Hclear by by apply (left_to_do_main _ ∅).
    destruct r as [v|]; [|by eexists]. unfold changed in Hr. destruct (version (signal w) =? seen) eqn:He; [by destruct (sender_dropped _)|].
    injection Hr as <-. destruct (value (signal w)); eexists; (split; [done|]); [done|]. split; [done|]. split; [done|]. split; [done|].
    apply (left_to_do_main _ ∅). unfold main_left. cbn. by rewrite Hm, N.eqb_refl, He.
  - exists MainClears. cbn. unfold main_clears. rewrite Hm. eexists; split; [done|]. split; [done|]. split; [done|]. split; [done|].
    apply (left_to_do_main _ ∅). unfold main_left. cbn. by rewrite Hm.
Qed.
Lemma receiver_turn_left w : sound w -> main_left w = 0 -> 0 < receiver_left w ->
  exists t w', turn t w = Some w' /\ winds_down t = true /\ signal w' = signal w /\ numbers w' = numbers w /\ left_to_do w' < left_to_do w.
Proof.
  intros Hw Hm Hpos. exists ReceiverCancelled. cbn. unfold receiver_cancelled. rewrite (sg_aborted _ (so_signal _ Hw)).
  - eexists; do 4 (split; [done|]). unfold left_to_do, main_left, receiver_left in *.
    cbn [signal main receiver tcp udp set_receiver] in *. destruct (receiver w); lia.
  - intros seen Hseen. unfold main_left in Hm. rewrite Hseen in Hm. by destruct (_ =? _).
Qed.
Lemma tcp_turn_left w : sound w -> stopping w -> 0 < map_sum tcp_left (tcp w) ->
  exists t w', turn t w = Some w' /\ winds_down t = true /\ signal w' = signal w /\ numbers w' = numbers w /\ left_to_do w' < left_to_do w.
Proof.
  intros Hw Hstop (id & f & Hf & Hpos)%map_sum_pos.
  assert (exists t stage, turn t w = Some (put_tcp id (at_tcp stage f) w) /\ winds_down t = true /\ tcp_over stage = true)
    as (t & stage & Ht & Hwd & Hov).
  { unfold tcp_left in Hpos. destruct (tcp_stage f) as [| |up down [r|]] eqn:Hst; try done.
    - exists (TcpOpened id (Err NotOnline)), NotOpened. cbn. unfold with_tcp, tcp_opened. rewrite Hf. cbn. by rewrite Hst.
    - destruct (stopping_changed _ _ Hstop (sg_tcp _ (so_signal _ Hw) _ _ Hf)) as [r Hr].
      exists (TcpChanged id), (RelayingTcp up down (Some (Ok tt))). cbn. unfold with_tcp, tcp_changed. rewrite Hf. cbn. by rewrite Hst, Hr. }
  exists t. eexists; split; [exact Ht|]. split; [done|]. split; [done|]. split; [done|].
  pose proof (map_sum_update tcp_left _ _ _ (at_tcp stage f) Hf) as Hsum.
  assert (tcp_left (at_tcp stage f) = 0) as Hz by (unfold tcp_left; cbn; by rewrite Hov).
  unfold left_to_do, main_left, receiver_left. cbn [signal main receiver tcp udp put_tcp set_tcp]. lia.
Qed.

(** One turn of a UDP flow. *)
Definition flow_moves (w : Engine) (id : N) (f : UdpFlow) : Prop :=
  exists t w' g, turn t w = Some w' /\ winds_down t = true /\ udp w' = <[id := g]> (udp w) /\ udp_left g < udp_left f /\
    tcp w' = tcp w /\ signal w' = signal w /\ main w' = main w /\ receiver w' = receiver w /\
    (numbers w' = numbers w \/ numbers w' = numbers w + 1).
Lemma udp_flow_moves w id f :
  sound w -> numbers w < U64_MAX -> stopping w -> udp w !! id = Some f -> 0 < udp_left f -> flow_moves w id f.
Proof.
  intros Hw Hb Hstop Hf Hpos. pose proof Hw as [_ [Hflow Hdis Hrt _] Hg Hn]. pose proof (Hflow _ _ Hf) as [Hno Hs _ _].
  assert (added f = true \/ udp_stage f = Adding -> is_Some (session f)) as Hsess.
  { intros Ha. destruct (session f); [done|]. destruct Hs as (Hs & Hs' & _). destruct Ha; congruence. }
  unfold flow_moves, udp_left in *. unfold added in *. destruct (udp_stage f) as [|c| | |p|r|r] eqn:Hst; try done.
  - exists (UdpNumbers id). cbn. unfold udp_numbers, with_udp. rewrite Hf. cbn. rewrite Hst. cbn. do 2 eexists; repeat (split; [done|]).
    right. apply N.mod_small. lia.
  - exists (UdpChecks id). cbn. unfold with_udp, udp_checks. rewrite Hf. cbn. rewrite Hst.
    assert (0 < c < numbers w) as Hc by (apply Hno; unfold number; by rewrite Hst).
    unfold DatagramSessionId.new. rewrite (proj2 (N.eqb_neq c 0)) by lia. rewrite bool_decide_eq_false_2; [by do 2 eexists; repeat (split; [done|]); left|].
    intros [[target i] Hi]. destruct (Hrt _ _ _ Hi) as (g & Hig & _ & Hgs & Hga & _).
    assert (i = id) as ->.
    { apply (Hdis i id g f c); [done..| |unfold number; by rewrite Hst]. unfold number, added in *. rewrite Hgs. by destruct (udp_stage g). }
    replace g with f in * by congruence. unfold added in Hga. by rewrite Hst in Hga.
  - destruct (Hsess (or_intror eq_refl)) as [s Hse]. exists (UdpAdds id). cbn. unfold udp_adds. rewrite Hf. cbn. rewrite Hst, Hse.
    do 2 eexists; repeat (split; [done|]). by left.
  - destruct (stopping_changed _ _ Hstop (sg_udp _ Hg _ _ Hf)) as [r Hr]. exists (UdpChanged id). cbn. unfold with_udp, udp_changed.
    rewrite Hf. cbn. rewrite Hst, Hr. do 2 eexists; repeat (split; [done|]). by left.
  - exists (UdpWrote id (Ok tt)). cbn. unfold with_udp, udp_wrote. rewrite Hf. cbn. rewrite Hst. do 2 eexists; repeat (split; [done|]). by left.
  - destruct (Hsess (or_introl eq_refl)) as [s Hse]. exists (UdpRemoves id). cbn. unfold udp_removes. rewrite Hf. cbn. rewrite Hst, Hse.
    do 2 eexists; repeat (split; [done|]). by left.
Qed.
Lemma udp_turn_left w : sound w -> numbers w < U64_MAX -> stopping w -> 0 < map_sum udp_left (udp w) ->
  exists t w', turn t w = Some w' /\ winds_down t = true /\ signal w' = signal w /\ numbers w' <= numbers w + 1 /\ left_to_do w' < left_to_do w.
Proof.
  intros Hw Hb Hstop (id & f & Hf & Hpos)%map_sum_pos.
  destruct (udp_flow_moves _ _ _ Hw Hb Hstop Hf Hpos) as (t & w' & g & Ht & Hwd & Hu & Hlt & Htcp & Hsig & Hm & Hr & Hn).
  exists t, w'. split; [done|]. split; [done|]. split; [done|]. split; [lia|].
  pose proof (map_sum_update udp_left _ _ _ g Hf). unfold left_to_do, main_left, receiver_left. rewrite Hu, Htcp, Hsig, Hm, Hr. lia.
Qed.
Lemma stopping_moves w : sound w -> numbers w < U64_MAX -> stopping w -> 0 < left_to_do w ->
  exists t w', turn t w = Some w' /\ winds_down t = true /\ signal w' = signal w /\ numbers w' <= numbers w + 1 /\ left_to_do w' < left_to_do w.
Proof.
  intros Hw Hb Hstop Hpos.
  assert ((exists t w', turn t w = Some w' /\ winds_down t = true /\ signal w' = signal w /\ numbers w' = numbers w /\ left_to_do w' < left_to_do w) ->
    exists t w', turn t w = Some w' /\ winds_down t = true /\ signal w' = signal w /\ numbers w' <= numbers w + 1 /\ left_to_do w' < left_to_do w) as Hweak.
  { intros (t & w' & H1 & Hwd & H2 & H3 & H4). exists t, w'. repeat split; try done. lia. }
  destruct (decide (main_left w = 0)) as [Hm|Hm]; [|apply Hweak, main_turn_left; try done; lia].
  destruct (decide (receiver_left w = 0)) as [Hr|Hr]; [|apply Hweak, receiver_turn_left; try done; lia].
  destruct (decide (map_sum tcp_left (tcp w) = 0)) as [Ht|Ht]; [|apply Hweak, tcp_turn_left; try done; lia].
  apply udp_turn_left; try done. unfold left_to_do in Hpos. lia.
Qed.

Lemma left_to_do_bound w : slots_ok w -> left_to_do w <= 4 + MAX_TCP_FLOWS + 6 * MAX_UDP_FLOWS.
Proof.
  intros [Ht Hu]. unfold left_to_do, held in *.
  assert (main_left w <= 3) by (unfold main_left; destruct (main w); [destruct (_ =? _)|..]; lia).
  assert (receiver_left w <= 1) by (unfold receiver_left; destruct (receiver w); lia).
  assert (map_sum tcp_left (tcp w) <= 1 * map_sum (fun f => if tcp_over (tcp_stage f) then 0 else 1) (tcp w))
    by (apply map_sum_scale; intros id f _; unfold tcp_left; destruct (tcp_over _); lia).
  assert (map_sum udp_left (udp w) <= 6 * map_sum (fun f => if udp_over (udp_stage f) then 0 else 1) (udp w))
    by (apply map_sum_scale; intros id f _; unfold udp_left; destruct (udp_stage f); cbn; lia).
  lia.
Qed.

(** Everything the engine started is over, and all it took is given back. *)
Definition all_over (w : Engine) : Prop :=
  (exists r, main w = Returned r) /\ receiver w = ReceiverOver /\ (forall id f, tcp w !! id = Some f -> tcp_over (tcp_stage f) = true) /\
  (forall id f, udp w !! id = Some f -> udp_over (udp_stage f) = true) /\ routes w = ∅ /\
  tcp_slots w = MAX_TCP_FLOWS /\ udp_slots w = MAX_UDP_FLOWS.
Lemma nothing_left w : sound w -> left_to_do w = 0 -> all_over w.
Proof.
  intros [[Hst Hsu] [_ _ Hrt _] _ _] Hz. unfold left_to_do in Hz.
  assert (forall id f, tcp w !! id = Some f -> tcp_over (tcp_stage f) = true) as Ht.
  { intros id f Hf. assert (tcp_left f = 0) as Hl by (apply (proj1 (map_sum_zero tcp_left (tcp w)) ltac:(lia) id f Hf)).
    unfold tcp_left in Hl. by destruct (tcp_over _). }
  assert (forall id f, udp w !! id = Some f -> udp_over (udp_stage f) = true) as Hu.
  { intros id f Hf. assert (udp_left f = 0) as Hl by (apply (proj1 (map_sum_zero udp_left (udp w)) ltac:(lia) id f Hf)).
    unfold udp_left in Hl. by destruct (udp_stage f). }
  split; [|split; [|split; [done|split; [done|split]]]].
  - assert (main_left w = 0) as Hm by lia. unfold main_left in Hm. destruct (main w); [by destruct (_ =? _)|done|by eexists].
  - assert (receiver_left w = 0) as Hr by lia. unfold receiver_left in Hr. by destruct (receiver w).
  - apply map_eq. intros s. rewrite lookup_empty. destruct (routes w !! s) as [[target id]|] eqn:Hs; [|done].
    destruct (Hrt _ _ _ Hs) as (f & Hf & _ & _ & _ & Hover). by rewrite (Hu _ _ Hf) in Hover.
  - unfold held in *. rewrite (proj2 (map_sum_zero _ (tcp w))), N.add_0_r in Hst by (intros; by erewrite Ht).
    rewrite (proj2 (map_sum_zero _ (udp w))), N.add_0_r in Hsu by (intros; by erewrite Hu). done.
Qed.
Lemma stopping_ends n w :
  sound w -> stopping w -> left_to_do w <= N.of_nat n -> numbers w + N.of_nat n <= U64_MAX ->
  exists l w', turns l w = Some w' /\ Forall (fun t => winds_down t = true) l /\ all_over w' /\ (length l <= n)%nat.
Proof.
  revert w. induction n as [|n IH]; intros w Hw Hstop Hn Hb.
  - exists [], w. split; [done|]. split; [done|]. split; [apply nothing_left; [done|lia]|done].
  - destruct (decide (left_to_do w = 0)) as [Hz|Hz]; [exists [], w; split; [done|]; split; [done|]; split; [by apply nothing_left|cbn; lia]|].
    destruct (stopping_moves w Hw ltac:(lia) Hstop ltac:(lia)) as (t & v & Ht & Hwd & Hs & Hnum & Hleft).
    destruct (engine_turn_sound _ _ _ Ht ltac:(lia) Hw) as [Hv _].
    destruct (IH v Hv ltac:(unfold stopping; by rewrite Hs) ltac:(lia) ltac:(lia)) as (l & w' & Hl & Hall & Hover & Hlen).
    exists (t :: l), w'. cbn. rewrite Ht. cbn. split; [done|]. split; [by constructor|]. split; [done|lia].
Qed.

(** However a run of the engine went, once it is told to stop, or its owner is
    gone, it can be brought to its end in at most 1796 turns, without any of
    them starting something new: then every flow and the receiver are over,
    no route is left and all permits are back. *)
Theorem tun_stops online accepts_mtu fd mtu shutdown seen next w0 l w
    (Hstart : started (start online accepts_mtu fd mtu shutdown seen next) = Ok w0) (Hsees : sees shutdown seen)
    (Hnext : 0 < next) (Hrun : turns l w0 = Some w) (Hbound : next + len l + 1796 <= U64_MAX)
    (Hstop : value (signal w) = true \/ sender_dropped (signal w) = true) :
  exists l' w', turns l' w = Some w' /\ Forall (fun t => winds_down t = true) l' /\ all_over w' /\ (length l' <= 1796)%nat.
Proof.
  destruct (start_sound _ _ _ _ _ _ _ _ Hstart Hsees Hnext) as [Hs0 Hn0].
  destruct (engine_turns_sound _ _ _ Hrun ltac:(lia) Hs0) as [Hw Hn]. apply stopping_ends; [done|done| |lia].
  pose proof (left_to_do_bound w (so_slots _ Hw)) as H. unfold MAX_TCP_FLOWS, MAX_UDP_FLOWS in H. lia.
Qed.

(** ** The copying of a TCP flow *)
Definition tcp_copying (f f' : TcpFlow) : Prop :=
  exists d a finish stage, tcp_copies d a finish f = Some stage /\ f' = at_tcp stage f.
Definition tcp_ok (from_tun from_target : list byte) (f : TcpFlow) : Prop :=
  exists up down, tcp_stage f = RelayingTcp up down (match returned up with Some r => Some r | None => returned down end) /\
    copy_ok from_tun up /\ copy_ok from_target down.
Lemma upstream_turn_ok source a finish c c' : copy_ok source c -> upstream_turn a finish c = Some c' -> copy_ok source c'.
Proof.
  unfold upstream_turn. intros Hok (v & Hv & H)%bind_Some. assert (copy_ok source v) by by eapply copy_step_ok.
  destruct (Copying.phase v); try (by injection H as <-). by eapply copy_step_ok.
Qed.
Lemma tcp_copying_ok from_tun from_target f f' : tcp_ok from_tun from_target f -> tcp_copying f f' -> tcp_ok from_tun from_target f'.
Proof.
  intros (up & down & Hst & Hup & Hdown) (d & a & finish & stage & Ht & ->). unfold tcp_copies in Ht. rewrite Hst in Ht.
  destruct (match returned up with Some r => Some r | None => _ end); [done|].
  destruct d; apply fmap_Some in Ht as (c & Hc & ->).
  - exists c, down. split; [done|]. split; [by eapply upstream_turn_ok|done].
  - exists up, c. split; [done|]. split; [done|by eapply copy_step_ok].
Qed.

(** A TCP flow gives the target a prefix of what the local side sent and the
    local side a prefix of what the target sent; when it ends without an error,
    one of the two directions is complete and was told so.  The other is cut
    then, whichever it is. *)
Theorem tun_tcp_copies f0 opened f
    (Hopen : tcp_opened (Ok opened) f0 = Some (tcp_stage f)) (f' : TcpFlow) (Hrun : rtc tcp_copying f f') :
  exists up down over, tcp_stage f' = RelayingTcp up down over /\ given up `prefix_of` opened.1 /\ given down `prefix_of` opened.2 /\
    (over = Some (Ok tt) -> ended up = true /\ given up = opened.1 \/ ended down = true /\ given down = opened.2).
Proof.
  destruct opened as [from_tun from_target]. assert (tcp_ok from_tun from_target f) as Hf.
  { unfold tcp_opened in Hopen. destruct (tcp_stage f0); try done. injection Hopen as Hopen.
    exists (Copying.start from_tun []), (Copying.start from_target []). split; [by rewrite <-Hopen|]. split; apply (copy_start_ok _ []). }
  assert (tcp_ok from_tun from_target f') as (up & down & Hst & Hup & Hdown).
  { clear Hopen. induction Hrun as [|f1 f2 f3 H12 _ IH]; [done|]. apply IH. by eapply tcp_copying_ok. }
  exists up, down. eexists; split; [exact Hst|]. split; [apply Hup|]. split; [apply Hdown|]. cbn.
  assert (forall source (c : Copy IoError), copy_ok source c -> returned c = Some (Ok tt) -> ended c = true /\ given c = source) as Hend.
  { intros source c Hok Hr. assert (ended c = true) by (apply Hok; unfold returned in Hr; by destruct (Copying.phase c)).
    split; [done|by apply copy_ended]. }
  destruct (returned up) eqn:Hru; intros Hover; [left|right]; apply Hend; congruence.
Qed.

(** ** A run: two flows, whose responses cross, and a stop *)
Module AndroidExamples.
Definition resolver : SocketAddr := SocketV4 (ipv4 9 9 9 9) 53.
Definition clock : SocketAddr := SocketV4 (ipv4 192 0 2 1) 123.
Definition query : list byte := [x01].
Definition answer (n : byte) : list byte := [n; xff].
Definition response (s : N) (source : SocketAddr) (payload : list byte) : ClientDatagram :=
  {| response_session := {| datagram_session_value := s |}; response_source := source; response_payload := payload |}.
Definition engine : Engine := launch (channel false) 0 1.
Definition handed (d : ClientDatagram) : list Turn := [Receives (Ok d); Looks; Hands].
(** The second answer of the clock comes from elsewhere and is dropped. *)
Definition two_flows : list Turn :=
  [MainAccepted 0 (Ok (AcceptedUdp resolver)); MainAccepted 1 (Ok (AcceptedUdp clock)); MainAccepted 0 (Ok (AcceptedTcp resolver));
   UdpNumbers 1; UdpNumbers 0; UdpChecks 0; UdpAdds 0; UdpChecks 1; UdpAdds 1;
   UdpReads 0 (Ok query) (Ok tt); UdpReads 1 (Ok query) (Ok tt)] ++
  handed (response 1 clock (answer x02)) ++ handed (response 2 resolver (answer x03)) ++
  [Receives (Ok (response 1 resolver (answer x04))); Looks] ++
  [UdpReceives 0; UdpWrote 0 (Ok tt); UdpReceives 1; UdpWrote 1 (Ok tt); Signals true].
Definition after_two_flows : option Engine := turns two_flows engine.
Definition written_by (id : N) (w : Engine) : option (list (list byte)) := written <$> udp w !! id.
Example each_its_own : (w ← after_two_flows; a ← written_by 0 w; b ← written_by 1 w; Some (a, b)) = Some ([answer x03], [answer x02]).
Proof. vm_compute. reflexivity. Qed.

Definition run_of_two_flows : Engine := match after_two_flows with Some w => w | None => engine end.
Lemma tun_responses_reach_their_flow_witness :
  written_by 0 run_of_two_flows = Some [answer x03] /\
  forall f s, udp run_of_two_flows !! 0 = Some f -> session f = Some s -> written f `sublist_of` answered s resolver (looked_up run_of_two_flows).
Proof.
  split; [vm_compute; reflexivity|]. intros f s Hf Hs.
  assert (udp_target f = resolver) as <-.
  { assert (udp_target <$> (udp run_of_two_flows !! 0) = Some resolver) as H by (vm_compute; reflexivity). rewrite Hf in H. by injection H. }
  refine (proj1 (proj1 (tun_responses_reach_their_flow true (fun mtu => 1280 <=? mtu) 5 1500 (channel false) 0 1 engine two_flows
    run_of_two_flows eq_refl _ _ _ _) 0 f s Hf Hs)).
  - vm_compute. split; [discriminate|reflexivity].
  - vm_compute. reflexivity.
  - vm_compute. reflexivity.
  - vm_compute. discriminate.
Defined.
Lemma tun_stops_witness : exists l w, turns l run_of_two_flows = Some w /\ all_over w.
Proof.
  destruct (tun_stops true (fun mtu => 1280 <=? mtu) 5 1500 (channel false) 0 1 engine two_flows run_of_two_flows eq_refl)
    as (l & w & Hl & _ & Hw & _).
  - vm_compute. split; [discriminate|reflexivity].
  - vm_compute. reflexivity.
  - vm_compute. reflexivity.
  - vm_compute. discriminate.
  - left. vm_compute. reflexivity.
  - exists l, w. exact (conj Hl Hw).
Defined.

(** The local side ends its half of a TCP flow: the answer is cut. *)
Definition copying (f : option TcpFlow) (turns : list (Direction * Answer IoError)) : option TcpFlow :=
  foldl (fun f t => f ← f; stage ← tcp_copies t.1 t.2 (Ok tt) f; Some (at_tcp stage f)) f turns.
Definition opened_flow : TcpFlow :=
  {| tcp_target := resolver; tcp_seen := 0; tcp_stage := RelayingTcp (Copying.start query []) (Copying.start (answer x05) []) None |}.
Example half_close_cuts_the_answer :
  (f ← copying (Some opened_flow) [(ToTarget, ReadSome 1); (ToTarget, Wrote 1); (ToTarget, ReadEnd)];
   match tcp_stage f with RelayingTcp up down over => Some (given up, given down, over) | _ => None end) = Some (query, [], Some (Ok tt)).
Proof. vm_compute. reflexivity. Qed.
Lemma tun_tcp_copies_witness :
  exists up down over, tcp_stage opened_flow = RelayingTcp up down over /\ given up `prefix_of` query.
Proof.
  destruct (tun_tcp_copies {| tcp_target := resolver; tcp_seen := 0; tcp_stage := Opening |} (query, answer x05) opened_flow eq_refl opened_flow
    (rtc_refl _ _)) as (up & down & over & H1 & H2 & _).
  exists up, down, over. exact (conj H1 H2).
Defined.

(** Once a datagram could not be received, no flow gets an answer any more. *)
Example receiver_gives_up :
  (w ← turns [MainAccepted 0 (Ok (AcceptedUdp resolver)); Receives (Err NotOnline)] engine; turn (Receives (Ok (response 1 resolver query))) w) = None.
Proof. vm_compute. reflexivity. Qed.
(** A flow whose local side does not read holds up the responses of the others. *)
Definition flood : list Turn :=
  [MainAccepted 0 (Ok (AcceptedUdp resolver)); UdpNumbers 0; UdpChecks 0; UdpAdds 0] ++ concat (replicate 32 (handed (response 1 resolver query))) ++
  [Receives (Ok (response 1 resolver query)); Looks].
Example full_channel_waits : (w ← turns flood engine; Some (turn Hands w, turn (Receives (Ok (response 2 clock query))) w)) = Some (None, None).
Proof. vm_compute. reflexivity. Qed.
End AndroidExamples.
