(* ===== verification/ClientProfile.v ===== *)
(** Client profiles ([velum-client-profile/src/lib.rs]): the profile a host
    application manages, its validation and normalisation, and the routing
    policy it compiles to.  YAML ([serde_yaml_ng]) is a parameter. *)
From S2P Require Import Prelude Net Str Utf8 IpText SocketText Routing.

(** ** Errors *)
Inductive ProfileErrorKind := Syntax | UnsupportedVersion | Limit | Validation.

Module ProfileError.
Record t := { kind : ProfileErrorKind; message : Str }.
Definition new (kind : ProfileErrorKind) (message : Str) : t := {| kind := kind; message := message |}.
Definition syntax (message : Str) : t := new Syntax message.
Definition version (message : Str) : t := new UnsupportedVersion message.
Definition limit (message : Str) : t := new Limit message.
Definition validation (message : Str) : t := new Validation message.
Definition routing (error : RoutingError) : t := validation (Routing.message error).
End ProfileError.

Definition R (A : Type) : Type := result A ProfileError.t.
Definition invalid {A} (message : String.string) : R A := Err (ProfileError.validation (str message)).
Definition require (b : bool) (e : ProfileError.t) : R unit := if b then Ok tt else Err e.
Definition require_valid (b : bool) (message : String.string) : R unit :=
  require b (ProfileError.validation (str message)).
Definition some_or_invalid {A} (o : option A) (message : String.string) : R A :=
  match o with Some a => Ok a | None => invalid message end.
(** [result.map_err(ProfileError::routing)] *)
Definition routing_result {A} (r : result A RoutingError) : R A :=
  match r with Ok a => Ok a | Err e => Err (ProfileError.routing e) end.

Definition PROFILE_VERSION : N := 1.
Definition MAX_PROFILE_BYTES : N := 1024 * 1024.
Definition MAX_NODES : N := 128.
Definition MAX_RULES : N := 10000.

(** ** References to secrets *)
Record SecretRef := { as_str : Str }.

(** A byte of a segment, or the character it stands for. *)
Definition segment_char (c : Char) : bool :=
  is_ascii_alphanumeric c || (c =? 45) || (c =? 95) || (c =? 46).

Module SecretRef.
Definition parse (value : Str) : R SecretRef :=
  let? path := some_or_invalid (strip_prefix (str "secret://velum/") value)
                 "secret reference must use secret://velum/ namespace" in
  if is_empty path || (512 <? utf8_len value)
     || existsb (fun segment =>
          is_empty segment || str_eqb segment (str ".") || str_eqb segment (str "..")
          || negb (forallb segment_char segment)) (split 47 path)
  then invalid "secret reference is invalid"
  else Ok {| as_str := value |}.
End SecretRef.

(** ** Interface addresses *)
Record InterfaceAddress := { address : IpAddr; interface_prefix : N }.

Module InterfaceAddress.
Definition new (address : IpAddr) (prefix_length : N) : R InterfaceAddress :=
  let valid := match address with V4 _ => prefix_length <=? 32 | V6 _ => prefix_length <=? 128 end in
  if negb valid then invalid "interface prefix length is out of range"
  else Ok {| address := address; interface_prefix := prefix_length |}.

(** [Display::fmt] *)
Definition fmt (self : InterfaceAddress) : Str :=
  IpDisplay.display_ip (address self) ++ [47] ++ display_uint (interface_prefix self).

Definition from_str (source : Str) : R InterfaceAddress :=
  let? parts := some_or_invalid (split_once 47 (trim source)) "interface address requires a prefix" in
  let? address := some_or_invalid (IpParser.parse parts.1) "interface address is invalid" in
  let? prefix := some_or_invalid (parse_uint 255 parts.2) "interface prefix is invalid" in
  new address prefix.
End InterfaceAddress.

(** ** The profile *)
Record ProfileMetadata := { profile_id : Str; profile_name : Str; default_node : Str }.
Inductive TrustConfig := TrustSystem | CustomCa (ca : SecretRef).
Definition ca_ref (self : TrustConfig) : option SecretRef :=
  match self with TrustSystem => None | CustomCa ca => Some ca end.
Record NodeConfig := {
  node_id : Str;
  alias : option Str;
  relay_address : SocketAddr;
  server_name : Str;
  credential_ref : SecretRef;
  trust : TrustConfig
}.
Inductive PreferredAdapter := SystemProxy | Tun.
Record SystemProxyConfig := { port : N; bypass : list Str }.
Record TunConfig := { mtu : N; ipv4 : InterfaceAddress; ipv6 : InterfaceAddress; dns : list IpAddr }.
Record TrafficConfig := {
  preferred_adapter : PreferredAdapter;
  system_proxy : SystemProxyConfig;
  tun : TunConfig
}.
Inductive MatchConfig :=
| MatchDomain (value : Str)
| MatchDomainSuffix (value : Str)
| MatchIpCidr (value : Str)
| MatchDstPort (value : Str)
| MatchAll.
Inductive ActionConfig := ActionDirect | ActionReject | ActionProxy | ActionNode (target : Str).
Record RuleConfig := { rule_match : MatchConfig; rule_action : ActionConfig }.
Inductive RoutingMode := Rule.
Record RoutingConfig := { routing_mode : RoutingMode; rule_configs : list RuleConfig }.
Record ClientProfile := {
  profile_version : N;
  metadata : ProfileMetadata;
  nodes : list NodeConfig;
  traffic : TrafficConfig;
  routing : RoutingConfig
}.

(** ** Validation *)
Definition validate_identifier (value : Str) (field : Str) : R unit :=
  let plain c := ((97 <=? c) && (c <=? 122)) || is_ascii_digit c in
  require (negb (is_empty value || (64 <? utf8_len value)
    || negb (match value with
             | [] => true
             | first :: rest => plain first && forallb (fun c => plain c || (c =? 45) || (c =? 95)) rest
             end)))
    (ProfileError.validation (field ++ str " is invalid")).

Definition validate_server_name (value : Str) : R unit :=
  match IpParser.parse value with
  | Some _ => Ok tt
  | None =>
    match RuleMatcher.domain value with
    | Ok _ => Ok tt
    | Err _ => invalid "server name is invalid"
    end
  end.

Definition insert_reference (references : gmap Str Str) (reference id : Str) : R (gmap Str Str) :=
  match references !! reference with
  | Some _ => invalid "duplicate node id or alias"
  | None => Ok (<[reference := id]> references)
  end.

Definition resolve_node (references : gmap Str Str) (reference : Str) : R Str :=
  some_or_invalid (references !! reference) "node reference does not exist".

Module RuleConfig.
Definition compile (self : RuleConfig) : R RoutingRule :=
  let? m :=
    match rule_match self with
    | MatchDomain value => routing_result (RuleMatcher.domain value)
    | MatchDomainSuffix value => routing_result (RuleMatcher.domain_suffix value)
    | MatchIpCidr value => let? c := routing_result (IpCidr.from_str value) in Ok (MatchCidr c)
    | MatchDstPort value =>
      let? range := routing_result (PortRange.from_str value) in Ok (DestinationPort range)
    | MatchAll => Ok Match
    end in
  let action :=
    match rule_action self with
    | ActionDirect => Direct
    | ActionReject => Reject
    | ActionProxy => Proxy
    | ActionNode target => Node target
    end in
  Ok {| matcher := m; action := action |}.

Definition validate (self : RuleConfig) : R unit := let? _ := compile self in Ok tt.
End RuleConfig.

(** The references and the identifiers seen so far, through the nodes. *)
Fixpoint index_nodes (references : gmap Str Str) (ids : gset Str) (l : list NodeConfig) : R (gmap Str Str) :=
  match l with
  | [] => Ok references
  | node :: l =>
    let? _ := validate_identifier (node_id node) (str "node id") in
    let? _ := require_valid (bool_decide (node_id node ∉ ids)) "duplicate node id" in
    let? references := insert_reference references (node_id node) (node_id node) in
    let? references :=
      match alias node with
      | Some alias =>
        let? _ := validate_identifier alias (str "node alias") in
        insert_reference references alias (node_id node)
      | None => Ok references
      end in
    let? _ := validate_server_name (server_name node) in
    index_nodes references ({[node_id node]} ∪ ids) l
  end.

(** The loop over the rules, which resolves their targets in place. *)
Fixpoint normalize_rules (references : gmap Str Str) (l : list RuleConfig) : R (list RuleConfig) :=
  match l with
  | [] => Ok []
  | rule :: l =>
    let? _ := RuleConfig.validate rule in
    let? rule :=
      match rule_action rule with
      | ActionNode target =>
        let? target := resolve_node references target in
        Ok {| rule_match := rule_match rule; rule_action := ActionNode target |}
      | _ => Ok rule
      end in
    let? rest := normalize_rules references l in
    Ok (rule :: rest)
  end.

Fixpoint position_match_config (l : list RuleConfig) : option nat :=
  match l with
  | [] => None
  | rule :: l =>
    match rule_match rule with MatchAll => Some O | _ => S <$> position_match_config l end
  end.

Module ClientProfile.
(** A rejected profile is dropped by every caller, so what the failed
    validation had normalised is not seen. *)
Definition validate_and_normalize (self : ClientProfile) : R ClientProfile :=
  let? _ := require (profile_version self =? PROFILE_VERSION)
    (ProfileError.version (str "unsupported profile version")) in
  let? _ := validate_identifier (profile_id (metadata self)) (str "profile id") in
  let? _ := require_valid (negb (is_empty (trim (profile_name (metadata self)))
      || (128 <? utf8_len (profile_name (metadata self))))) "profile name is invalid" in
  let? _ := require (negb (is_empty (nodes self) || (MAX_NODES <? len (nodes self))))
    (ProfileError.limit (str "profile must contain 1 to 128 nodes")) in
  let? _ := require (negb (MAX_RULES <? len (rule_configs (routing self))))
    (ProfileError.limit (str "profile exceeds 10000 routing rules")) in
  let? references := index_nodes ∅ ∅ (nodes self) in
  let? default := resolve_node references (default_node (metadata self)) in
  let? rules := normalize_rules references (rule_configs (routing self)) in
  let? _ := require_valid
    (match position_match_config rules with
     | Some index => (index + 1 =? length rules)%nat
     | None => true
     end) "MATCH must be the final routing rule" in
  let tun := tun (traffic self) in
  let? _ := require_valid ((576 <=? mtu tun) && (mtu tun <=? 9000)) "TUN MTU is out of range" in
  let? _ := require_valid (is_ipv4 (address (ipv4 tun)) && is_ipv6 (address (ipv6 tun)))
    "TUN ipv4 and ipv6 networks use the wrong address family" in
  let? _ := require_valid (negb (is_empty (dns tun))) "TUN DNS list must not be empty" in
  Ok {| profile_version := profile_version self;
        metadata := {| profile_id := profile_id (metadata self);
                       profile_name := profile_name (metadata self);
                       default_node := default |};
        nodes := nodes self;
        traffic := traffic self;
        routing := {| routing_mode := routing_mode (routing self); rule_configs := rules |} |}.

(** [iter().map(RuleConfig::compile).collect()] *)
Fixpoint compile_rules (l : list RuleConfig) : R (list RoutingRule) :=
  match l with
  | [] => Ok []
  | rule :: l =>
    let? rule := RuleConfig.compile rule in
    let? rest := compile_rules l in
    Ok (rule :: rest)
  end.

Definition routing_policy (self : ClientProfile) : R RoutingPolicy :=
  let? normalized := validate_and_normalize self in
  let? rules := compile_rules (rule_configs (routing normalized)) in
  routing_result (RoutingPolicy.new rules).
End ClientProfile.

(** [serde_yaml_ng] on profiles, an error coming with its text; what is
    written reads back. *)
Class ProfileYaml := {
  yaml_from_slice : list byte -> ClientProfile + Str;
  yaml_to_string : ClientProfile -> Str + Str
}.
Class ProfileYamlLaws (Y : ProfileYaml) : Prop := {
  yaml_round_trip : forall p text, yaml_to_string p = inl text -> yaml_from_slice (Utf8.encode text) = inl p
}.

Module Profiles.
Section yaml.
Context `{ProfileYaml}.

Definition from_yaml (source : list byte) : R ClientProfile :=
  let? _ := require (len source <=? MAX_PROFILE_BYTES) (ProfileError.limit (str "profile exceeds 1 MiB")) in
  match yaml_from_slice source with
  | inl profile => ClientProfile.validate_and_normalize profile
  | inr error => Err (ProfileError.syntax error)
  end.

Definition to_canonical_yaml (self : ClientProfile) : R Str :=
  let? normalized := ClientProfile.validate_and_normalize self in
  match yaml_to_string normalized with
  | inl text => Ok text
  | inr error => Err (ProfileError.syntax error)
  end.
End yaml.
End Profiles.

(** ** What a normalised profile is *)
Definition node_names (node : NodeConfig) : list Str := node_id node :: option_list (alias node).
Definition node_ids (l : list NodeConfig) : list Str := node_id <$> l.
(** A reference is the identifier or the alias of a node. *)
Definition names_node (l : list NodeConfig) (reference id : Str) : Prop :=
  exists node, node ∈ l /\ id = node_id node /\ reference ∈ node_names node.

Definition node_ok (node : NodeConfig) : Prop :=
  validate_identifier (node_id node) (str "node id") = Ok tt /\
  (forall a, alias node = Some a -> validate_identifier a (str "node alias") = Ok tt) /\
  validate_server_name (server_name node) = Ok tt.
Definition rule_targets_in (ids : list Str) (rule : RuleConfig) : Prop :=
  match rule_action rule with ActionNode target => target ∈ ids | _ => True end.
Definition match_last (l : list RuleConfig) : Prop :=
  forall i rule, l !! i = Some rule -> rule_match rule = MatchAll -> S i = length l.

Record profile_wf (p : ClientProfile) : Prop := {
  wf_version : profile_version p = 1;
  wf_id : validate_identifier (profile_id (metadata p)) (str "profile id") = Ok tt;
  wf_name : trim (profile_name (metadata p)) <> [] /\ utf8_len (profile_name (metadata p)) <= 128;
  wf_node_count : 1 <= len (nodes p) <= 128;
  wf_nodes : Forall node_ok (nodes p);
  wf_names : NoDup (nodes p ≫= node_names);
  wf_default : default_node (metadata p) ∈ node_ids (nodes p);
  wf_rule_count : len (rule_configs (routing p)) <= 10000;
  wf_rules : Forall (fun rule => RuleConfig.validate rule = Ok tt) (rule_configs (routing p));
  wf_targets : Forall (rule_targets_in (node_ids (nodes p))) (rule_configs (routing p));
  wf_match : match_last (rule_configs (routing p));
  wf_mtu : 576 <= mtu (tun (traffic p)) <= 9000;
  wf_families : is_ipv4 (address (ipv4 (tun (traffic p)))) = true /\
    is_ipv6 (address (ipv6 (tun (traffic p)))) = true;
  wf_dns : dns (tun (traffic p)) <> []
}.

Lemma require_Ok b e u : require b e = Ok u <-> b = true.
Proof. destruct b, u; cbn; naive_solver. Qed.
Lemma some_or_invalid_Ok {A} (o : option A) m a : some_or_invalid o m = Ok a <-> o = Some a.
Proof. unfold some_or_invalid, invalid. destruct o; naive_solver. Qed.
Lemma insert_reference_Ok references r id references' :
  insert_reference references r id = Ok references' <->
  references !! r = None /\ references' = <[r := id]> references.
Proof. unfold insert_reference. destruct (references !! r); split; naive_solver. Qed.

(** One node adds its names, which were free. *)
Lemma index_nodes_cons references ids node l references' :
  index_nodes references ids (node :: l) = Ok references' ->
  exists references1,
    node_ok node /\ NoDup (node_names node) /\
    (forall n, n ∈ node_names node -> references !! n = None) /\
    (forall r, references1 !! r = if decide (r ∈ node_names node) then Some (node_id node) else references !! r) /\
    index_nodes references1 ({[node_id node]} ∪ ids) l = Ok references'.
Proof.
  cbn [index_nodes]. intros ([] & Hid & ([] & _ & (r1 & [Hfree ->]%insert_reference_Ok & H)%and_then_Ok)%and_then_Ok)%and_then_Ok.
  apply and_then_Ok in H as (r2 & Ha & ([] & Hs & H)%and_then_Ok). exists r2.
  unfold node_ok, node_names. destruct (alias node) as [a|];
    [change (option_list (Some a)) with [a]|change (option_list (@None Str)) with (@nil Str)].
  - apply and_then_Ok in Ha as ([] & Halias & [Hfree2 ->]%insert_reference_Ok).
    apply lookup_insert_None in Hfree2 as [Hfree2 Hne]. split_and!; try done.
    + by intros ? [= <-].
    + apply NoDup_cons. split; [by rewrite list_elem_of_singleton|apply NoDup_singleton].
    + intros n. rewrite elem_of_cons, list_elem_of_singleton. by intros [->| ->].
    + intros r. case_decide as Hin; rewrite elem_of_cons, list_elem_of_singleton in Hin.
      * destruct (decide (r = a)) as [->|]; [by rewrite lookup_insert_eq|].
        rewrite lookup_insert_ne by done. destruct Hin as [->|]; [by rewrite lookup_insert_eq|done].
      * rewrite !lookup_insert_ne by (intros <-; tauto). done.
  - injection Ha as <-. split_and!; try done.
    + apply NoDup_singleton.
    + by intros n ->%list_elem_of_singleton.
    + intros r. case_decide as Hin; rewrite list_elem_of_singleton in Hin;
        [subst; by rewrite lookup_insert_eq|by rewrite lookup_insert_ne by congruence].
Qed.

Lemma names_node_cons node l r id :
  names_node (node :: l) r id <-> id = node_id node /\ r ∈ node_names node \/ names_node l r id.
Proof.
  unfold names_node. split.
  - intros (x & [->|Hx]%elem_of_cons & -> & Hr); [by left|right; by exists x].
  - intros [[-> Hr]|(x & Hx & -> & Hr)]; [exists node|exists x]; (split_and!; [|done..]); [by left|by right].
Qed.

Lemma index_nodes_spec l : forall references ids references',
  index_nodes references ids l = Ok references' ->
  Forall node_ok l /\ NoDup (l ≫= node_names) /\
  (forall n, n ∈ l ≫= node_names -> references !! n = None) /\
  (forall r id, references' !! r = Some id <-> references !! r = Some id \/ names_node l r id).
Proof.
  induction l as [|node l IH]; intros references ids references'.
  - intros [= <-]. cbn. split_and!; [done|apply NoDup_nil_2|by intros n ?%not_elem_of_nil|].
    intros r id. split; [by left|]. intros [|(node & Hin & _)]; [done|]. by apply not_elem_of_nil in Hin.
  - intros (r1 & Hok & Hnd & Hfree & Hlookup & Hrest)%index_nodes_cons.
    destruct (IH _ _ _ Hrest) as (Hoks & Hnds & Hfrees & Hnames). cbn [mbind list_bind].
    assert (forall n, n ∈ l ≫= node_names -> n ∉ node_names node /\ references !! n = None) as Hnew.
    { intros n Hn. specialize (Hfrees n Hn). rewrite Hlookup in Hfrees. by case_decide. }
    split_and!; [by constructor| | |].
    + apply NoDup_app. split_and!; [done| |done]. intros n Hn Hn'. by destruct (Hnew n Hn').
    + intros n [Hn|Hn]%elem_of_app; [by apply Hfree|by apply Hnew].
    + intros r id. rewrite Hnames, Hlookup, names_node_cons.
      destruct (decide (r ∈ node_names node)) as [Hin|Hin]; [|tauto].
      rewrite (Hfree r Hin). naive_solver.
Qed.

Lemma names_node_id l r id : names_node l r id -> id ∈ node_ids l /\ names_node l id id.
Proof.
  intros (node & Hin & -> & _). split; [by apply list_elem_of_fmap_2|].
  exists node. split_and!; [done|done|by left].
Qed.

(** *** Rules *)
Definition rule_resolved (l : list NodeConfig) (rule rule' : RuleConfig) : Prop :=
  rule_match rule' = rule_match rule /\
  match rule_action rule with
  | ActionNode target => exists id, rule_action rule' = ActionNode id /\ names_node l target id
  | action => rule_action rule' = action
  end.

Definition references_of (l : list NodeConfig) (references : gmap Str Str) : Prop :=
  forall r id, references !! r = Some id <-> names_node l r id.

Lemma validate_match rule rule' :
  rule_match rule' = rule_match rule -> RuleConfig.validate rule = Ok tt -> RuleConfig.validate rule' = Ok tt.
Proof.
  intros Hm. unfold RuleConfig.validate, RuleConfig.compile. rewrite Hm.
  destruct (match rule_match rule with MatchAll => _ | _ => _ end); done.
Qed.

Lemma normalize_rules_spec l references rules rules' :
  references_of l references -> normalize_rules references rules = Ok rules' ->
  Forall2 (rule_resolved l) rules rules' /\
  Forall (fun rule => RuleConfig.validate rule = Ok tt) rules' /\
  Forall (rule_targets_in (node_ids l)) rules' /\
  normalize_rules references rules' = Ok rules'.
Proof.
  intros Href. revert rules'. induction rules as [|rule rules IH]; intros rules'; cbn [normalize_rules].
  { intros [= <-]. done. }
  intros ([] & Hv & (rule' & Hr & (rest & Hrest & [= <-])%and_then_Ok)%and_then_Ok)%and_then_Ok.
  destruct (IH _ Hrest) as (HF & Hval & Htargets & Hnorm).
  assert (rule_resolved l rule rule' /\ rule_targets_in (node_ids l) rule' /\
    match rule_action rule' with
    | ActionNode target =>
      let? target := resolve_node references target in
      Ok {| rule_match := rule_match rule'; rule_action := ActionNode target |}
    | _ => Ok rule'
    end = Ok rule') as (Hresolved & Htarget & Hagain).
  { unfold rule_resolved, rule_targets_in. destruct (rule_action rule) as [| | |target] eqn:Ha;
      [injection Hr as <-; by rewrite Ha..|].
    apply and_then_Ok in Hr as (id & Hid%some_or_invalid_Ok%Href & [= <-]). cbn.
    destruct (names_node_id _ _ _ Hid) as [Hin Hself]. split_and!; [done|by exists id|done|].
    unfold resolve_node. by rewrite (proj2 (Href _ _) Hself). }
  assert (RuleConfig.validate rule' = Ok tt) as Hv' by (by eapply validate_match; [apply Hresolved|]).
  split_and!; [by constructor..|]. cbn [normalize_rules]. rewrite Hv'. cbn [and_then].
  rewrite Hagain. cbn [and_then]. by rewrite Hnorm.
Qed.

Lemma position_match_config_spec l :
  match position_match_config l with
  | Some i => exists before rule after, l = before ++ rule :: after /\ length before = i /\
      rule_match rule = MatchAll /\ Forall (fun rule => rule_match rule <> MatchAll) before
  | None => Forall (fun rule => rule_match rule <> MatchAll) l
  end.
Proof.
  induction l as [|rule l IH]; [by constructor|].
  assert (rule_match rule = MatchAll /\ position_match_config (rule :: l) = Some O \/
    rule_match rule <> MatchAll /\ position_match_config (rule :: l) = S <$> position_match_config l)
    as [[Hr ->]|[Hr ->]] by (cbn; destruct (rule_match rule); naive_solver).
  - by exists [], rule, l.
  - destruct (position_match_config l); cbn; [|by constructor].
    destruct IH as (b & r' & a & -> & <- & Hr' & Hb). exists (rule :: b), r', a.
    split_and!; [done|done|done|by constructor].
Qed.

Lemma position_match_last l :
  match position_match_config l with Some i => (i + 1 =? length l)%nat | None => true end = true ->
  match_last l.
Proof.
  pose proof (position_match_config_spec l) as Hp. intros H i rule Hl Hm.
  destruct (position_match_config l) as [n|]; [|by apply (Forall_lookup_1 _ _ _ _ Hp) in Hl].
  destruct Hp as (b & r & a & -> & <- & Hr & Hb). apply Nat.eqb_eq in H.
  rewrite length_app in *. cbn in H. assert (a = []) as -> by (destruct a; [done|cbn in H; lia]).
  destruct (decide (i < length b)%nat).
  - rewrite lookup_app_l in Hl by done. by apply (Forall_lookup_1 _ _ _ _ Hb) in Hl.
  - apply lookup_lt_Some in Hl. rewrite length_app in *. cbn in *. lia.
Qed.

(** ** Validation *)

(** What normalisation changes: the references. *)
Record normalized (p q : ClientProfile) : Prop := {
  same_version : profile_version q = profile_version p;
  same_id : profile_id (metadata q) = profile_id (metadata p);
  same_name : profile_name (metadata q) = profile_name (metadata p);
  same_nodes : nodes q = nodes p;
  same_traffic : traffic q = traffic p;
  default_resolved : names_node (nodes p) (default_node (metadata p)) (default_node (metadata q));
  rules_resolved : Forall2 (rule_resolved (nodes p)) (rule_configs (routing p)) (rule_configs (routing q))
}.

Lemma normalize_spec p q :
  ClientProfile.validate_and_normalize p = Ok q ->
  profile_wf q /\ normalized p q /\ ClientProfile.validate_and_normalize q = Ok q.
Proof.
  unfold ClientProfile.validate_and_normalize.
  intros ([] & Hversion & ([] & Hid & ([] & Hname & ([] & Hnodes & ([] & Hrules & H)
    %and_then_Ok)%and_then_Ok)%and_then_Ok)%and_then_Ok)%and_then_Ok.
  apply and_then_Ok in H as (references & Hindex & (default & Hdefault & (rules & Hnorm & H)
    %and_then_Ok)%and_then_Ok).
  apply and_then_Ok in H as ([] & Hmatch & ([] & Hmtu & ([] & Hfam & ([] & Hdns & [= <-])
    %and_then_Ok)%and_then_Ok)%and_then_Ok).
  destruct (index_nodes_spec _ _ _ _ Hindex) as (Hok & Hnd & _ & Hrefs).
  assert (references_of (nodes p) references) as Href.
  { intros r id. rewrite Hrefs, lookup_empty. naive_solver. }
  assert (names_node (nodes p) (default_node (metadata p)) default) as Hd
    by (by apply Href, (some_or_invalid_Ok _ "node reference does not exist")).
  destruct (names_node_id _ _ _ Hd) as [Hin Hself].
  destruct (normalize_rules_spec _ _ _ _ Href Hnorm) as (HF & Hval & Htargets & Hagain).
  split_and!; [|by split|].
  - apply require_Ok in Hversion, Hname, Hnodes, Hrules, Hmatch, Hmtu, Hfam, Hdns.
    apply negb_true_iff, orb_false_iff in Hname as [Hname1 Hname2%N.ltb_ge].
    apply negb_true_iff, orb_false_iff in Hnodes as [Hnodes1 Hnodes2%N.ltb_ge].
    apply andb_true_iff in Hmtu as [Hmtu1%N.leb_le Hmtu2%N.leb_le].
    apply andb_true_iff in Hfam. apply negb_true_iff in Hdns.
    apply negb_true_iff, N.ltb_ge in Hrules.
    assert (trim (profile_name (metadata p)) <> []) as Hname by (intros Heq; by rewrite Heq in Hname1).
    split; cbn; try done.
    + by apply N.eqb_eq.
    + split; [|done]. destruct (nodes p); [done|rewrite len_cons; lia].
    + pose proof (Forall2_length _ _ _ HF) as Hl. unfold len in *. rewrite <-Hl. done.
    + by apply position_match_last.
    + intros Heq. by rewrite Heq in Hdns.
  - cbn [profile_version metadata profile_id profile_name default_node nodes traffic routing
         routing_mode rule_configs].
    rewrite Hversion, Hid, Hname, Hnodes. cbn [and_then].
    assert (length rules = length (rule_configs (routing p))) as Hlen
      by (symmetry; apply (Forall2_length _ _ _ HF)).
    unfold len in *. rewrite Hlen, Hrules. cbn [and_then]. rewrite Hindex. cbn [and_then].
    unfold resolve_node. rewrite (proj2 (Href _ _) Hself). cbn [some_or_invalid and_then].
    rewrite Hagain. cbn [and_then]. rewrite Hmatch, Hmtu, Hfam, Hdns. done.
Qed.

(** ** The policy of a profile *)
Lemma routing_result_Ok {A} (r : result A RoutingError) a : routing_result r = Ok a <-> r = Ok a.
Proof. unfold routing_result. destruct r; naive_solver. Qed.

Definition action_of (action : ActionConfig) : RoutingAction :=
  match action with
  | ActionDirect => Direct
  | ActionReject => Reject
  | ActionProxy => Proxy
  | ActionNode target => Node target
  end.

Lemma compile_spec rule r :
  RuleConfig.compile rule = Ok r ->
  wf_matcher (matcher r) /\ action r = action_of (rule_action rule) /\
  (matcher r = Match <-> rule_match rule = MatchAll).
Proof.
  intros (m & Hm & [= <-])%and_then_Ok. cbn. split_and!; [|done|].
  - destruct (rule_match rule) as [v|v|v|v|].
    + by apply routing_result_Ok, domain_wf in Hm.
    + by apply routing_result_Ok, domain_suffix_wf in Hm.
    + apply and_then_Ok in Hm as (c & Hc%routing_result_Ok & [= <-]). by eapply cidr_from_str_wf.
    + apply and_then_Ok in Hm as (c & Hc%routing_result_Ok & [= <-]). by eapply port_range_from_str_wf.
    + by injection Hm as <-.
  - destruct (rule_match rule) as [v|v|v|v|].
    + apply routing_result_Ok, and_then_Ok in Hm as (d & _ & [= <-]). done.
    + apply routing_result_Ok, and_then_Ok in Hm as (d & _ & [= <-]). done.
    + apply and_then_Ok in Hm as (c & _ & [= <-]). done.
    + apply and_then_Ok in Hm as (c & _ & [= <-]). done.
    + by injection Hm as <-.
Qed.

Lemma compile_rules_total l :
  Forall (fun rule => RuleConfig.validate rule = Ok tt) l ->
  exists rules, ClientProfile.compile_rules l = Ok rules /\
    Forall2 (fun rule r => RuleConfig.compile rule = Ok r) l rules.
Proof.
  induction 1 as [|rule l (r & Hr & _)%and_then_Ok _ (rules & Hrules & HF)]; [by eexists|].
  exists (r :: rules). cbn [ClientProfile.compile_rules]. rewrite Hr. cbn [and_then]. rewrite Hrules.
  split; [done|by constructor].
Qed.

Lemma match_last_compiled l rules :
  Forall2 (fun rule r => RuleConfig.compile rule = Ok r) l rules ->
  match_last l -> match_only_last rules.
Proof.
  intros HF Hlast i r Hr Hm. rewrite <-(Forall2_length _ _ _ HF).
  destruct (Forall2_lookup_r _ _ _ _ _ HF Hr) as (rule & Hl & Hc).
  destruct (compile_spec _ _ Hc) as (_ & _ & Hiff). apply (Hlast i rule Hl). by apply Hiff.
Qed.

Lemma policy_new_total l : match_only_last l -> RoutingPolicy.new l = Ok {| rules := l |}.
Proof.
  intros Hl. pose proof (policy_new_spec l) as H. destruct (RoutingPolicy.new l) as [[l']|e]; [|tauto].
  by destruct H as [Hl' _]; cbn in Hl'; subst.
Qed.

Lemma decide_action p context :
  RoutingPolicy.decide p context = Proxy \/ exists r, r ∈ rules p /\ RoutingPolicy.decide p context = action r.
Proof.
  unfold RoutingPolicy.decide. destruct (List.find _ _) as [r|] eqn:Hf; [right|by left].
  apply find_some in Hf as [Hin _]. exists r. split; [by apply list_elem_of_In|done].
Qed.

(** C21. A profile that validates is normalised into a well-formed one (schema
    version, identifiers, 1 to 128 nodes under distinct names, a default node
    and rule targets that are nodes, rules that compile, MATCH only last, TUN
    bounds), which differs only in that each reference to a node, by
    identifier or alias, became the identifier of that node; and normalising
    again changes nothing. *)
Theorem profile_normalized p q :
  ClientProfile.validate_and_normalize p = Ok q ->
  profile_wf q /\ normalized p q /\ ClientProfile.validate_and_normalize q = Ok q.
Proof. apply normalize_spec. Qed.

(** The routing policy of a valid profile always compiles, one rule for
    each rule of the profile; every rule is well formed, and whatever flow is
    decided, a node is only ever chosen that the profile configures. *)
Theorem compiled_policy_total p q :
  ClientProfile.validate_and_normalize p = Ok q ->
  exists policy, ClientProfile.routing_policy p = Ok policy /\
    Forall2 (fun rule r => wf_matcher (matcher r) /\ action r = action_of (rule_action rule))
      (rule_configs (routing q)) (rules policy) /\
    match_only_last (rules policy) /\
    forall context id, RoutingPolicy.decide policy context = Node id ->
      exists node, node ∈ nodes p /\ node_id node = id.
Proof.
  intros Hq. destruct (normalize_spec _ _ Hq) as (Hwf & Hnorm & _).
  destruct (compile_rules_total _ (wf_rules _ Hwf)) as (l & Hl & HF).
  pose proof (match_last_compiled _ _ HF (wf_match _ Hwf)) as Hlast.
  exists {| rules := l |}. unfold ClientProfile.routing_policy. rewrite Hq. cbn [and_then].
  rewrite Hl. cbn [and_then]. rewrite (policy_new_total _ Hlast). cbn.
  split_and!; [done| |done|].
  - eapply Forall2_impl; [exact HF|]. intros rule r Hc. cbn. by destruct (compile_spec _ _ Hc) as (? & ? & _).
  - intros context id Hd. destruct (decide_action {| rules := l |} context) as [Hp|(r & Hr & Ha)]; [congruence|].
    rewrite Hd in Ha. apply list_elem_of_lookup in Hr as [i Hr].
    destruct (Forall2_lookup_r _ _ _ _ _ HF Hr) as (rule & Hrule & Hc).
    destruct (compile_spec _ _ Hc) as (_ & Haction & _). rewrite Haction in Ha.
    pose proof (Forall_lookup_1 _ _ _ _ (wf_targets _ Hwf) Hrule) as Ht. unfold rule_targets_in in Ht.
    destruct (rule_action rule) as [| | |target]; try done. injection Ha as ->.
    apply list_elem_of_fmap in Ht as (node & -> & Hnode). rewrite (same_nodes _ _ Hnorm) in Hnode. eauto.
Qed.

(** A valid profile written as canonical YAML is read back as its
    normalised form, unless the text is larger than the limit of a profile,
    and is then canonical. *)
Theorem canonical_yaml_round_trip `{Y : ProfileYaml, !ProfileYamlLaws Y} p text :
  Profiles.to_canonical_yaml p = Ok text -> len (Utf8.encode text) <= MAX_PROFILE_BYTES ->
  exists q, Profiles.from_yaml (Utf8.encode text) = Ok q /\
    ClientProfile.validate_and_normalize p = Ok q /\ Profiles.to_canonical_yaml q = Ok text.
Proof.
  intros (q & Hq & Ht)%and_then_Ok Hlen. destruct (normalize_spec _ _ Hq) as (_ & _ & Hagain).
  destruct (yaml_to_string q) as [t|e] eqn:Hy; [|done]. injection Ht as ->. exists q.
  unfold Profiles.from_yaml, Profiles.to_canonical_yaml. rewrite (proj2 (N.leb_le _ _) Hlen). cbn [require and_then].
  rewrite (yaml_round_trip _ _ Hy), Hagain. cbn [and_then]. by rewrite Hy.
Qed.

(** ** Interface addresses *)
(** The text [address/prefix] is cut at its one slash, trimmed or not, and both parts are read back. *)
Lemma address_prefix_text a n :
  trim (IpDisplay.display_ip a ++ 47 :: display_uint n) = IpDisplay.display_ip a ++ 47 :: display_uint n /\
  split_once 47 (IpDisplay.display_ip a ++ 47 :: display_uint n) = Some (IpDisplay.display_ip a, display_uint n).
Proof.
  pose proof (SocketText.display_ip_chars a) as Hchars. rewrite Forall_forall in Hchars.
  destruct (display_uint_spec n n (N.le_refl n)) as (_ & Hdigits & _). split.
  - apply trim_none, Forall_app. split; [|constructor; [done|]].
    + apply Forall_forall. intros c Hc. specialize (Hchars c Hc). unfold SocketText.ip_char in Hchars.
      unfold is_whitespace. rewrite !orb_false_iff, !andb_false_iff, !N.leb_gt, !N.eqb_neq. lia.
    + eapply Forall_impl; [exact Hdigits|]. apply digit_not_whitespace.
  - apply split_once_free. intros Hin. specialize (Hchars _ Hin). unfold SocketText.ip_char in Hchars. lia.
Qed.
Lemma prefix_in_u8 a n : negb match a with V4 _ => n <=? 32 | V6 _ => n <=? 128 end = false -> n <= 255.
Proof. intros Hn%negb_false_iff. destruct a; apply N.leb_le in Hn; lia. Qed.

(** An interface address keeps its host bits through its text: what
    [Display] writes is read back as the same address and prefix. *)
Theorem interface_address_round_trip a n i :
  wf_ip a -> InterfaceAddress.new a n = Ok i -> InterfaceAddress.from_str (InterfaceAddress.fmt i) = Ok i.
Proof.
  unfold InterfaceAddress.new. intros Hwf. destruct (negb _) eqn:Hn; [done|]. intros [= <-].
  unfold InterfaceAddress.from_str, InterfaceAddress.fmt. cbn [address interface_prefix app].
  destruct (address_prefix_text a n) as [-> ->]. cbn [some_or_invalid and_then fst snd].
  rewrite SocketText.parse_display_ip by done. cbn [some_or_invalid and_then].
  rewrite parse_display by (by eapply prefix_in_u8). cbn [some_or_invalid and_then].
  unfold InterfaceAddress.new. by rewrite Hn.
Qed.

(** A network that was accepted is read back from its text: its address, its prefix and
    the absence of host bits. *)
Theorem ip_cidr_round_trip a n c :
  wf_ip a -> IpCidr.new a n = Ok c -> IpCidr.from_str (IpCidr.fmt c) = Ok c.
Proof.
  intros Hwf Hnew. pose proof Hnew as Hagain. unfold IpCidr.new in Hnew. destruct (negb _) eqn:Hn; [done|].
  destruct (bool_decide _); [done|]. injection Hnew as <-.
  unfold IpCidr.from_str, IpCidr.fmt. cbn [Routing.network Routing.prefix_length app].
  destruct (address_prefix_text a n) as [-> ->]. cbn [option_ok_or and_then fst snd].
  rewrite SocketText.parse_display_ip by done. cbn [option_ok_or and_then].
  rewrite parse_display by (by eapply prefix_in_u8). cbn [option_ok_or and_then]. exact Hagain.
Qed.

(** ** A concrete profile *)
Module ProfileExamples.
#[local] Instance SecretRef_eq_dec : EqDecision SecretRef. Proof. solve_decision. Defined.
#[local] Instance InterfaceAddress_eq_dec : EqDecision InterfaceAddress. Proof. solve_decision. Defined.
#[local] Instance ProfileMetadata_eq_dec : EqDecision ProfileMetadata. Proof. solve_decision. Defined.
#[local] Instance TrustConfig_eq_dec : EqDecision TrustConfig. Proof. solve_decision. Defined.
#[local] Instance NodeConfig_eq_dec : EqDecision NodeConfig. Proof. solve_decision. Defined.
#[local] Instance PreferredAdapter_eq_dec : EqDecision PreferredAdapter. Proof. solve_decision. Defined.
#[local] Instance SystemProxyConfig_eq_dec : EqDecision SystemProxyConfig. Proof. solve_decision. Defined.
#[local] Instance TunConfig_eq_dec : EqDecision TunConfig. Proof. solve_decision. Defined.
#[local] Instance TrafficConfig_eq_dec : EqDecision TrafficConfig. Proof. solve_decision. Defined.
#[local] Instance MatchConfig_eq_dec : EqDecision MatchConfig. Proof. solve_decision. Defined.
#[local] Instance ActionConfig_eq_dec : EqDecision ActionConfig. Proof. solve_decision. Defined.
#[local] Instance RuleConfig_eq_dec : EqDecision RuleConfig. Proof. solve_decision. Defined.
#[local] Instance RoutingMode_eq_dec : EqDecision RoutingMode. Proof. solve_decision. Defined.
#[local] Instance RoutingConfig_eq_dec : EqDecision RoutingConfig. Proof. solve_decision. Defined.
#[local] Instance ClientProfile_eq_dec : EqDecision ClientProfile. Proof. solve_decision. Defined.

Definition secret : SecretRef := {| as_str := str "secret://velum/relay-sg/7" |}.
Definition node : NodeConfig :=
  {| node_id := str "relay-sg"; alias := Some (str "singapore");
     relay_address := SocketAddr.new (V4 3405803786) 4433; server_name := str "relay.example";
     credential_ref := secret; trust := TrustSystem |}.
Definition interface (a : IpAddr) : InterfaceAddress := {| address := a; interface_prefix := 24 |}.
Definition profile_with (reference : Str) : ClientProfile :=
  {| profile_version := 1;
     metadata := {| profile_id := str "home"; profile_name := str "Home"; default_node := reference |};
     nodes := [node];
     traffic :=
       {| preferred_adapter := Tun; system_proxy := {| port := 1080; bypass := [] |};
          tun := {| mtu := 1500; ipv4 := interface (V4 167772161); ipv6 := interface (V6 1); dns := [V4 16843009] |} |};
     routing :=
       {| routing_mode := Rule;
          rule_configs :=
            [{| rule_match := MatchDomainSuffix (str "Example.ORG"); rule_action := ActionNode reference |};
             {| rule_match := MatchDstPort (str "80-443"); rule_action := ActionProxy |};
             {| rule_match := MatchAll; rule_action := ActionDirect |}] |} |}.
Definition written : ClientProfile := profile_with (str "singapore").
Definition canonical : ClientProfile := profile_with (str "relay-sg").

Example secret_parses : SecretRef.parse (as_str secret) = Ok secret.
Proof. vm_compute. reflexivity. Qed.
Example secret_traversal :
  SecretRef.parse (str "secret://velum/../relay") = invalid "secret reference is invalid".
Proof. vm_compute. reflexivity. Qed.
Example duplicate_alias :
  index_nodes ∅ ∅ [node; {| node_id := str "singapore"; alias := None; relay_address := relay_address node;
                            server_name := server_name node; credential_ref := secret; trust := TrustSystem |}]
  = invalid "duplicate node id or alias".
Proof. vm_compute. reflexivity. Qed.

(** A name with white space around it passes, although only its trimmed form
    was looked at. *)
Example server_name_not_trimmed : validate_server_name (str " relay.example. ") = Ok tt.
Proof. vm_compute. reflexivity. Qed.

(** YAML that can only write one profile. *)
#[local] Instance one_profile : ProfileYaml :=
  {| yaml_from_slice source := if decide (source = Utf8.encode (str "v1")) then inl canonical else inr [];
     yaml_to_string p := if decide (p = canonical) then inl (str "v1") else inr [] |}.
#[local] Instance one_profile_laws : ProfileYamlLaws one_profile.
Proof.
  constructor. intros p text. cbn [yaml_to_string yaml_from_slice one_profile].
  destruct (decide (p = canonical)) as [->|]; [|done]. intros Heq.
  assert (str "v1" = text) as <- by congruence.
  by destruct (decide (Utf8.encode (str "v1") = Utf8.encode (str "v1"))).
Qed.

Lemma profile_normalized_witness :
  ClientProfile.validate_and_normalize written = Ok canonical /\ profile_wf canonical.
Proof.
  assert (ClientProfile.validate_and_normalize written = Ok canonical) as H by (vm_compute; reflexivity).
  split; [exact H|]. exact (proj1 (profile_normalized written canonical H)).
Defined.

Lemma compiled_policy_total_witness :
  exists policy, ClientProfile.routing_policy written = Ok policy /\
    RoutingPolicy.decide policy
      {| domain := Some (str "www.example.org"); destination := V4 1; destination_port := 443 |} =
    Node (str "relay-sg").
Proof.
  destruct (compiled_policy_total written canonical) as (policy & Hp & _).
  - vm_compute. reflexivity.
  - exists policy. split; [exact Hp|]. vm_compute in Hp. injection Hp as <-. vm_compute. reflexivity.
Defined.

Lemma canonical_yaml_round_trip_witness :
  Profiles.to_canonical_yaml written = Ok (str "v1") /\
  exists q, Profiles.from_yaml (Utf8.encode (str "v1")) = Ok q /\ profile_id (metadata q) = str "home".
Proof.
  assert (Profiles.to_canonical_yaml written = Ok (str "v1")) as H by (vm_compute; reflexivity).
  split; [exact H|].
  destruct (canonical_yaml_round_trip written (str "v1") H) as (q & Hq & Hn & _); [vm_compute; discriminate|].
  exists q. split; [exact Hq|]. vm_compute in Hn. injection Hn as <-. reflexivity.
Defined.

Lemma interface_address_round_trip_witness :
  InterfaceAddress.from_str (InterfaceAddress.fmt (interface (V6 1))) = Ok (interface (V6 1)).
Proof.
  apply (interface_address_round_trip (V6 1) 24); [vm_compute; discriminate|reflexivity].
Defined.

Lemma ip_cidr_round_trip_witness :
  IpCidr.fmt {| Routing.network := V4 (Net.ipv4 10 0 0 0); Routing.prefix_length := 8 |} = str "10.0.0.0/8" /\
  IpCidr.from_str (str "10.0.0.0/8") = Ok {| Routing.network := V4 (Net.ipv4 10 0 0 0); Routing.prefix_length := 8 |}.
Proof.
  split; [reflexivity|].
  exact (ip_cidr_round_trip (V4 (Net.ipv4 10 0 0 0)) 8
    {| Routing.network := V4 (Net.ipv4 10 0 0 0); Routing.prefix_length := 8 |} ltac:(vm_compute; discriminate) eq_refl).
Defined.
End ProfileExamples.
