(* ===== verification/Enrollment.v ===== *)
(** Enrolment bundles ([velum-client-profile/src/enrollment.rs]): the one-time
    object that carries a node and a credential to a client, its hexadecimal
    credential, its validation and its canonical JSON.  JSON ([serde_json]) is
    a parameter. *)
From S2P Require Import Prelude Net Str Utf8 IpText SocketText Routing ClientProfile.
Import Utf8.

Definition ENROLLMENT_KIND : Str := str "velum-enrollment".
Definition ENROLLMENT_VERSION : N := 1.
Definition MAX_ENROLLMENT_BYTES : N := 16 * 1024.
Definition CREDENTIAL_BYTES : N := 32.
Definition MAX_CERTIFICATE_BYTES : N := 12 * 1024.

Record EnrollmentNode := {
  enrolled_id : Str;
  enrolled_name : Str;
  enrolled_address : SocketAddr;
  enrolled_server_name : Str
}.
Inductive EnrollmentTrust := System | CustomCa (certificate_pem : Str).
Record EnrollmentBundle := {
  kind : Str;
  version : N;
  enrolled : EnrollmentNode;
  principal_id : N;
  credential : Str;
  enrolled_trust : EnrollmentTrust
}.

(** ** Hexadecimal text *)

(** [{byte:02x}] *)
Definition hex_byte (b : byte) : Str :=
  [IpDisplay.hex_digit (Byte.to_N b / 16); IpDisplay.hex_digit (Byte.to_N b mod 16)].
Definition encode_hex (bytes : list byte) : Str := bytes ≫= hex_byte.

(** [u8::from_str_radix(s, 16)] *)
Fixpoint radix16_digits (acc : N) (s : Str) : option N :=
  match s with
  | [] => Some acc
  | c :: s =>
    match IpParser.to_digit 16 c with
    | Some d => let v := acc * 16 + d in if v <=? 255 then radix16_digits v s else None
    | None => None
    end
  end.
Definition u8_from_str_radix16 (s : Str) : option N :=
  match s with
  | [] => None
  | [c] => if (c =? 43) || (c =? 45) then None else radix16_digits 0 s
  | c :: s' => if c =? 43 then radix16_digits 0 s' else radix16_digits 0 s
  end.

Definition not_hexadecimal {A} : R A := invalid "enrollment credential must be hexadecimal".

(** [chunks_exact(2).map(..).collect()], which stops at the first error; a pair
    that is not UTF-8 is a failed [expect]. *)
Fixpoint decode_pairs (bytes : list byte) : outcome (R (list byte)) :=
  match bytes with
  | a :: b :: rest =>
    match Utf8.decode [a; b] with
    | None => Panic
    | Some text =>
      match u8_from_str_radix16 text with
      | None => Ret not_hexadecimal
      | Some v =>
        match decode_pairs rest with
        | Ret (Ok vs) => Ret (Ok (byte_of_N v :: vs))
        | other => other
        end
      end
    end
  | _ => Ret (Ok [])
  end.

Definition decode_hex (value : Str) : outcome (R (list byte)) :=
  let bytes := Utf8.encode value in
  if is_empty bytes || negb (len bytes mod 2 =? 0) then Ret not_hexadecimal else decode_pairs bytes.

(** ** The bundle *)
Definition is_unspecified (a : IpAddr) : bool := match a with V4 n | V6 n => n =? 0 end.

Definition set_credential (c : Str) (b : EnrollmentBundle) : EnrollmentBundle :=
  {| kind := kind b; version := version b; enrolled := enrolled b; principal_id := principal_id b;
     credential := c; enrolled_trust := enrolled_trust b |}.

Definition valid_certificate (pem : Str) : bool :=
  negb (is_empty pem || (MAX_CERTIFICATE_BYTES <? utf8_len pem)
        || negb (contains_str (str "-----BEGIN CERTIFICATE-----") pem)).

(** What is checked of a bundle before its credential. *)
Definition check_node (self : EnrollmentBundle) : R unit :=
  let? _ := require_valid (str_eqb (kind self) ENROLLMENT_KIND) "enrollment kind is invalid" in
  let? _ := require (version self =? ENROLLMENT_VERSION)
    (ProfileError.version (str "unsupported enrollment version")) in
  let? _ := validate_identifier (enrolled_id (enrolled self)) (str "enrollment node id") in
  let? _ := require_valid (negb (is_empty (trim (enrolled_name (enrolled self)))
      || (128 <? utf8_len (enrolled_name (enrolled self))))) "enrollment node name is invalid" in
  let? _ := require_valid (negb (is_unspecified (SocketAddr.ip (enrolled_address (enrolled self)))))
    "enrollment relay address must be client reachable" in
  validate_server_name (enrolled_server_name (enrolled self)).

Module EnrollmentBundle.
Definition validate_and_normalize : M EnrollmentBundle ProfileError.t unit :=
  let! self := get in
  lift_result id (check_node self) ;!
  let! bytes := run_outcome (decode_hex (credential self)) in
  lift_result id (require_valid (len bytes =? CREDENTIAL_BYTES)
    "enrollment credential must contain exactly 32 bytes") ;!
  modify (set_credential (to_ascii_lowercase (credential self))) ;!
  match enrolled_trust self with
  | CustomCa pem =>
    lift_result id (require_valid (valid_certificate pem) "enrollment CA certificate is invalid or too large")
  | System => ret tt
  end.

(** A bundle after its validation, or the error. *)
Definition normalized (self : EnrollmentBundle) : outcome (R EnrollmentBundle) :=
  match validate_and_normalize self with
  | Ret (Ok _, bundle) => Ret (Ok bundle)
  | Ret (Err e, _) => Ret (Err e)
  | Panic => Panic
  | OutOfFuel => OutOfFuel
  end.

Definition new (node : EnrollmentNode) (principal_id : N) (credential : list byte) (trust : EnrollmentTrust)
  : outcome (R EnrollmentBundle) :=
  normalized {| kind := ENROLLMENT_KIND; version := ENROLLMENT_VERSION; enrolled := node;
    principal_id := principal_id; credential := encode_hex credential; enrolled_trust := trust |}.

Definition credential_bytes (self : EnrollmentBundle) : outcome (R (list byte)) := decode_hex (credential self).

Definition credential_ref (self : EnrollmentBundle) : Str :=
  str "secret://velum/enrollment/" ++ enrolled_id (enrolled self) ++ [47] ++ display_uint (principal_id self).
End EnrollmentBundle.

(** [serde_json] on bundles, an error coming with its text; what is written
    reads back. *)
Class BundleJson := {
  json_from_slice : list byte -> EnrollmentBundle + Str;
  json_to_string : EnrollmentBundle -> Str + Str
}.
Class BundleJsonLaws (J : BundleJson) : Prop := {
  json_round_trip : forall b text, json_to_string b = inl text -> json_from_slice (Utf8.encode text) = inl b
}.

Module EnrollmentJson.
Section json.
Context `{BundleJson}.

Definition from_json (source : list byte) : outcome (R EnrollmentBundle) :=
  if MAX_ENROLLMENT_BYTES <? len source
  then Ret (Err (ProfileError.limit (str "enrollment exceeds 16 KiB")))
  else
    match json_from_slice source with
    | inl bundle => EnrollmentBundle.normalized bundle
    | inr error => Ret (Err (ProfileError.syntax error))
    end.

Definition to_canonical_json (self : EnrollmentBundle) : outcome (R Str) :=
  match EnrollmentBundle.normalized self with
  | Ret (Ok normalized) =>
    match json_to_string normalized with
    | inl text => Ret (Ok text)
    | inr error => Ret (Err (ProfileError.syntax error))
    end
  | Ret (Err e) => Ret (Err e)
  | Panic => Panic
  | OutOfFuel => OutOfFuel
  end.
End json.
End EnrollmentJson.

(** ** Hexadecimal text reads back *)
Definition hex_byte_ok (b : byte) : bool :=
  match Utf8.decode (Utf8.encode (hex_byte b)) with
  | Some text =>
    match u8_from_str_radix16 text with Some v => v =? Byte.to_N b | None => false end
  | None => false
  end && bool_decide (length (Utf8.encode (hex_byte b)) = 2%nat)
  && bool_decide (to_ascii_lowercase (hex_byte b) = hex_byte b).

Lemma hex_byte_spec b : hex_byte_ok b = true.
Proof. destruct b; vm_compute; reflexivity. Qed.

Lemma encode_hex_cons b bytes : encode_hex (b :: bytes) = hex_byte b ++ encode_hex bytes.
Proof. done. Qed.

Lemma hex_byte_pair b rest : exists x y,
  Utf8.encode (hex_byte b ++ rest) = x :: y :: Utf8.encode rest /\
  exists text, Utf8.decode [x; y] = Some text /\ u8_from_str_radix16 text = Some (Byte.to_N b).
Proof.
  pose proof (hex_byte_spec b) as H. unfold hex_byte_ok in H.
  apply andb_true_iff in H as [[Hd Hl%bool_decide_eq_true]%andb_true_iff _]. rewrite Utf8.encode_app.
  destruct (Utf8.encode (hex_byte b)) as [|x [|y [|? ?]]]; try done.
  exists x, y. split; [done|]. destruct (Utf8.decode [x; y]) as [text|]; [|done]. exists text. split; [done|].
  destruct (u8_from_str_radix16 text) as [v|]; [|done]. apply N.eqb_eq in Hd. by rewrite Hd.
Qed.

Lemma decode_encode_pairs bytes : decode_pairs (Utf8.encode (encode_hex bytes)) = Ret (Ok bytes).
Proof.
  induction bytes as [|b bytes IH]; [done|]. rewrite encode_hex_cons.
  destruct (hex_byte_pair b (encode_hex bytes)) as (x & y & -> & text & Hp & Hv).
  cbn [decode_pairs]. by rewrite Hp, Hv, IH, byte_of_N_to_N.
Qed.

Lemma length_encode_hex bytes : length (Utf8.encode (encode_hex bytes)) = (2 * length bytes)%nat.
Proof.
  induction bytes as [|b bytes IH]; [done|]. rewrite encode_hex_cons.
  destruct (hex_byte_pair b (encode_hex bytes)) as (x & y & -> & _). cbn [length]. rewrite IH. lia.
Qed.

Lemma decode_encode_hex bytes : bytes <> [] -> decode_hex (encode_hex bytes) = Ret (Ok bytes).
Proof.
  intros Hne. unfold decode_hex. pose proof (length_encode_hex bytes) as Hl.
  replace (len _ mod 2 =? 0) with true.
  - destruct (Utf8.encode (encode_hex bytes)) eqn:He; [by destruct bytes|].
    cbn [is_empty orb negb]. rewrite <-He. apply decode_encode_pairs.
  - symmetry. apply N.eqb_eq. unfold len. rewrite Hl, Nnat.Nat2N.inj_mul, N.mul_comm. by apply N.Div0.mod_mul.
Qed.

Lemma lowercase_encode_hex bytes : to_ascii_lowercase (encode_hex bytes) = encode_hex bytes.
Proof.
  induction bytes as [|b bytes IH]; [done|]. rewrite encode_hex_cons. unfold to_ascii_lowercase in *.
  rewrite fmap_app, IH. f_equal. pose proof (hex_byte_spec b) as H. unfold hex_byte_ok in H.
  by apply andb_true_iff in H as [_ H%bool_decide_eq_true].
Qed.

Lemma encode_hex_ascii bytes : Forall ascii (encode_hex bytes).
Proof.
  induction bytes as [|b bytes IH]; [constructor|]. rewrite encode_hex_cons. apply Forall_app. split; [|done].
  unfold hex_byte. pose proof (to_N_lt b).
  assert (forall d, d < 16 -> ascii (IpDisplay.hex_digit d)) as Hd.
  { intros d Hd. unfold ascii, IpDisplay.hex_digit. destruct (d <? 10); lia. }
  repeat constructor; apply Hd; [apply N.Div0.div_lt_upper_bound; lia|apply N.mod_lt; lia].
Qed.

(** ** Pairs that decode are ASCII *)
Lemma to_digit_ascii c d : IpParser.to_digit 16 c = Some d -> ascii c.
Proof.
  unfold IpParser.to_digit, is_ascii_digit, ascii. intros H. destruct (N.lt_ge_cases c 128); [done|].
  replace (c <=? 57) with false in H by (symmetry; apply N.leb_gt; lia).
  replace (c <=? 90) with false in H by (symmetry; apply N.leb_gt; lia).
  replace (c <=? 122) with false in H by (symmetry; apply N.leb_gt; lia).
  by rewrite !andb_false_r in H.
Qed.

Lemma radix16_first c s v : u8_from_str_radix16 (c :: s) = Some v -> ascii c.
Proof.
  destruct (decide (c = 43)) as [->|Hne]; [done|].
  assert (radix16_digits 0 (c :: s) = Some v -> ascii c) as H.
  { cbn. destruct (IpParser.to_digit 16 c) eqn:Hd; [|done]. intros _. by apply to_digit_ascii in Hd. }
  unfold u8_from_str_radix16. rewrite (proj2 (N.eqb_neq c 43) Hne).
  destruct s; [|exact H]. cbn [orb]. destruct (c =? 45); [done|exact H].
Qed.

Lemma to_digit_lowercase c : IpParser.to_digit 16 (char_to_ascii_lowercase c) = IpParser.to_digit 16 c.
Proof.
  unfold char_to_ascii_lowercase. destruct ((65 <=? c) && (c <=? 90)) eqn:Hu; [|done].
  apply andb_true_iff in Hu as [H1%N.leb_le H2%N.leb_le]. unfold IpParser.to_digit, is_ascii_digit.
  replace (c + 32 <=? 57) with false by (symmetry; apply N.leb_gt; lia).
  replace (c + 32 <=? 90) with false by (symmetry; apply N.leb_gt; lia).
  replace (c <=? 57) with false by (symmetry; apply N.leb_gt; lia).
  rewrite !andb_false_r. rewrite (proj2 (N.leb_le _ _) H1), (proj2 (N.leb_le _ _) H2).
  replace ((97 <=? c + 32) && (c + 32 <=? 122)) with true by (symmetry; rewrite andb_true_iff, !N.leb_le; lia).
  cbn [andb]. by replace (c + 32 - 87) with (c - 55) by lia.
Qed.
Lemma lowercase_plus c : (char_to_ascii_lowercase c =? 43) = (c =? 43).
Proof.
  unfold char_to_ascii_lowercase. destruct ((65 <=? c) && (c <=? 90)) eqn:Hu; [|done].
  apply andb_true_iff in Hu as [H1%N.leb_le H2%N.leb_le].
  transitivity false; [|symmetry]; apply N.eqb_neq; lia.
Qed.
Lemma lowercase_ascii c : ascii c -> ascii (char_to_ascii_lowercase c).
Proof.
  unfold ascii, char_to_ascii_lowercase. destruct ((65 <=? c) && (c <=? 90)) eqn:Hu; [|done].
  apply andb_true_iff in Hu as [H1%N.leb_le H2%N.leb_le]. lia.
Qed.

Lemma radix16_lowercase x y :
  u8_from_str_radix16 [char_to_ascii_lowercase x; char_to_ascii_lowercase y] = u8_from_str_radix16 [x; y].
Proof. unfold u8_from_str_radix16. cbn [radix16_digits]. by rewrite lowercase_plus, !to_digit_lowercase. Qed.

Lemma decode_ascii_pair x y : ascii x -> ascii y -> Utf8.decode [byte_of_N x; byte_of_N y] = Some [x; y].
Proof.
  intros Hx Hy. rewrite <-(decode_encode_ascii [x; y]) by by repeat constructor.
  cbn [encode mbind list_bind]. by rewrite !encode_char_ascii.
Qed.

(** Two characters at the front of a text, taken as one pair. *)
Lemma decode_pairs_two x y c :
  ascii x -> ascii y ->
  decode_pairs (encode (x :: y :: c)) =
  match u8_from_str_radix16 [x; y] with
  | None => Ret not_hexadecimal
  | Some v =>
    match decode_pairs (encode c) with Ret (Ok vs) => Ret (Ok (byte_of_N v :: vs)) | other => other end
  end.
Proof.
  intros Hx Hy. rewrite !encode_cons, !encode_char_ascii by done. cbn [app decode_pairs].
  by rewrite decode_ascii_pair.
Qed.

(** A pair that a wider character begins is refused, one that it ends in the
    middle cannot be read as text. *)
Lemma decode_wide_first x c bytes :
  128 <= x -> scalar x -> decode_pairs (encode (x :: c)) <> Ret (Ok bytes).
Proof.
  intros Hx Hs. rewrite encode_cons. destruct (encode_char_wide x Hx Hs) as (a & b & r & -> & Ha & _).
  cbn [app decode_pairs]. destruct (decode [a; b]) as [text|] eqn:Hd; [|done].
  destruct (u8_from_str_radix16 text) as [v|] eqn:Hv; [|done]. exfalso.
  apply decode_encode_text in Hd. destruct text as [|t text]; [done|].
  pose proof (radix16_first _ _ _ Hv) as Ht. rewrite encode_cons, encode_char_ascii in Hd by done.
  injection Hd as <- _. unfold ascii in Ht. rewrite to_N_byte_of_N in Ha by lia. lia.
Qed.
Lemma decode_split_char x y c :
  ascii x -> 128 <= y -> scalar y -> decode_pairs (encode (x :: y :: c)) = Panic.
Proof.
  intros Hx Hy Hs. rewrite !encode_cons, encode_char_ascii by done.
  destruct (encode_char_wide y Hy Hs) as (a & b & r & -> & Ha & _). cbn [app decode_pairs].
  replace (decode [byte_of_N x; a]) with (@None Str); [done|]. unfold ascii in Hx.
  cbn [decode]. rewrite to_N_byte_of_N, (proj2 (N.ltb_lt x 128) Hx) by lia.
  by rewrite (proj2 (N.ltb_ge _ 128) Ha).
Qed.

(** What decodes is ASCII, and decodes to the same bytes in lower case. *)
Lemma decode_pairs_lowercase n c bytes :
  (length c <= n)%nat -> Forall scalar c -> decode_pairs (encode c) = Ret (Ok bytes) ->
  Forall ascii c /\ decode_pairs (encode (to_ascii_lowercase c)) = Ret (Ok bytes).
Proof.
  revert c bytes. induction n as [|n IH]; intros c bytes Hn Hs Hd; [destruct c; [split; [constructor|exact Hd]|cbn in Hn; lia]|].
  destruct c as [|x c]; [split; [constructor|exact Hd]|]. apply Forall_cons in Hs as [Hx Hs].
  destruct (N.lt_ge_cases x 128) as [Hxa|Hxw]; [|by apply decode_wide_first in Hd].
  assert (ascii x) as Hax by done. pose proof (lowercase_ascii _ Hax) as Hlx.
  destruct c as [|y c].
  - split; [by repeat constructor|]. cbn [to_ascii_lowercase fmap list_fmap].
    rewrite encode_cons, encode_char_ascii in * by done. exact Hd.
  - apply Forall_cons in Hs as [Hy Hs].
    destruct (N.lt_ge_cases y 128) as [Hya|Hyw]; [|by rewrite decode_split_char in Hd].
    assert (ascii y) as Hay by done. rewrite decode_pairs_two in Hd by done.
    change (to_ascii_lowercase (x :: y :: c)) with
      (char_to_ascii_lowercase x :: char_to_ascii_lowercase y :: to_ascii_lowercase c).
    rewrite decode_pairs_two by by apply lowercase_ascii. rewrite radix16_lowercase.
    destruct (u8_from_str_radix16 [x; y]) as [v|]; [|done].
    destruct (decode_pairs (encode c)) as [[vs|]| |] eqn:Hrest; try done.
    destruct (IH c vs) as [Hc ->]; [cbn in Hn; lia|done..|]. split; [by repeat constructor|done].
Qed.

(** *** When the [expect] on a pair fails *)
Definition cuts_character (c : Str) : Prop :=
  exists pre rest bytes, c = pre ++ rest /\ Nat.Even (length pre) /\
    decode_pairs (encode pre) = Ret (Ok bytes) /\
    match rest with
    | [] => False
    | [x] => 2048 <= x
    | x :: y :: _ => 2048 <= x \/ ascii x /\ 128 <= y
    end.

Lemma decode_long_first x c : 2048 <= x -> scalar x -> decode_pairs (encode (x :: c)) = Panic.
Proof.
  intros Hx Hs. unfold scalar in Hs. rewrite encode_cons. unfold encode_char.
  rewrite (proj2 (N.ltb_ge x 128)), (proj2 (N.ltb_ge x 2048)) by lia.
  assert (forall n, n mod 64 < 64) as Hm by (intros n; apply N.mod_lt; lia).
  assert (forall a b, 224 <= Byte.to_N a -> decode [a; b] = None) as Hnone.
  { intros a b Ha. cbn [decode]. rewrite (proj2 (N.ltb_ge (Byte.to_N a) 128)) by lia.
    unfold between at 1. by rewrite (proj2 (N.leb_gt (Byte.to_N a) 223)), andb_false_r by lia. }
  destruct (N.ltb_spec x 65536); cbn [app decode_pairs]; rewrite Hnone; try done.
  - assert (x / 4096 < 16) by (apply N.Div0.div_lt_upper_bound; lia). rewrite to_N_byte_of_N; lia.
  - assert (x / 262144 < 8) by (apply N.Div0.div_lt_upper_bound; lia). rewrite to_N_byte_of_N; lia.
Qed.
Lemma decode_short_first x c : 128 <= x -> x < 2048 -> decode_pairs (encode (x :: c)) <> Panic.
Proof.
  intros Hx Hl. rewrite encode_cons. unfold encode_char.
  rewrite (proj2 (N.ltb_ge x 128)), (proj2 (N.ltb_lt x 2048)) by done. cbn [app decode_pairs].
  assert (2 <= x / 64) by (apply N.div_le_lower_bound; lia).
  assert (x / 64 < 32) by (apply N.Div0.div_lt_upper_bound; lia).
  assert (x mod 64 < 64) by (apply N.mod_lt; lia).
  cbn [decode]. rewrite !to_N_byte_of_N by lia. rewrite (proj2 (N.ltb_ge (192 + x / 64) 128)) by lia.
  assert (between 194 223 (192 + x / 64) = true) as -> by (unfold between; rewrite andb_true_iff, !N.leb_le; lia).
  assert (continuation (128 + x mod 64) = true) as -> by (unfold continuation, between; rewrite andb_true_iff, !N.leb_le; lia).
  cbn [cons_char]. replace ((192 + x / 64 - 192) * 64 + (128 + x mod 64 - 128)) with x
    by (pose proof (N.div_mod' x 64); lia).
  destruct (u8_from_str_radix16 [x]) as [v|] eqn:Hv; [|done].
  apply radix16_first in Hv. unfold ascii in Hv. lia.
Qed.

(** A pair that decodes in front does not change whether a later one cuts. *)
Lemma cuts_two x y c v :
  ascii x -> ascii y -> u8_from_str_radix16 [x; y] = Some v ->
  cuts_character (x :: y :: c) <-> cuts_character c.
Proof.
  intros Hx Hy Hv. unfold ascii in *. split.
  - intros (pre & rest & bytes & Heq & Heven & Hd & Hrest).
    destruct pre as [|x' [|y' pre]].
    + cbn [app] in Heq. subst rest. lia.
    + by destruct Heven as [k Hk]; cbn in Hk; lia.
    + injection Heq as <- <- ->. rewrite decode_pairs_two, Hv in Hd by done.
      destruct (decode_pairs (encode pre)) as [[vs|]| |] eqn:Hp; try done.
      exists pre, rest, vs. split_and!; [done| |done..]. by apply Nat.Even_succ_succ.
  - intros (pre & rest & bytes & -> & Heven & Hd & Hrest).
    exists (x :: y :: pre), rest, (byte_of_N v :: bytes). split_and!; [done| | |done].
    + by apply Nat.Even_succ_succ.
    + by rewrite decode_pairs_two, Hv, Hd.
Qed.

Lemma decode_pairs_panic n c :
  (length c <= n)%nat -> Forall scalar c -> decode_pairs (encode c) = Panic <-> cuts_character c.
Proof.
  revert c. induction n as [|n IH]; intros c Hn Hs.
  - destruct c; [|cbn in Hn; lia]. split; [done|]. intros ([|] & rest & ? & Heq & _ & _ & Hr); [|done].
    by destruct rest.
  - destruct c as [|x c]; [apply IH; [cbn; lia|done]|]. apply Forall_cons in Hs as [Hx Hs].
    destruct (N.lt_ge_cases x 128) as [Hxa|Hxw]; [|destruct (N.lt_ge_cases x 2048) as [Hxs|Hxl]].
    + destruct c as [|y c].
      * split; [by rewrite encode_cons, encode_char_ascii|].
        intros ([|a [|b pre]] & rest & ? & Heq & Heven & _ & Hr); cbn [app] in Heq.
        -- subst rest. lia.
        -- destruct Heven as [k Hk]. cbn in Hk. lia.
        -- done.
      * apply Forall_cons in Hs as [Hy Hs]. destruct (N.lt_ge_cases y 128) as [Hya|Hyw].
        -- rewrite decode_pairs_two by done. destruct (u8_from_str_radix16 [x; y]) as [v|] eqn:Hv.
           ++ rewrite (cuts_two x y c v) by done. rewrite <-IH by (first [done|cbn in Hn; lia]).
              by destruct (decode_pairs (encode c)) as [[|]| |].
           ++ split; [done|]. intros ([|a [|b pre]] & rest & ? & Heq & Heven & Hd & Hr); cbn [app] in Heq.
              ** subst rest. lia.
              ** destruct Heven as [k Hk]. cbn in Hk. lia.
              ** injection Heq as <- <- ->. by rewrite decode_pairs_two, Hv in Hd.
        -- split; [intros _|by rewrite decode_split_char].
           exists [], (x :: y :: c), []. split_and!; [done|by exists O|done|by right].
    + split; [by intros ?%decode_short_first|].
      intros ([|a pre] & rest & ? & Heq & _ & Hd & Hr); cbn [app] in Heq.
      * subst rest. destruct c; unfold ascii in Hr; lia.
      * injection Heq as <- ->. by apply decode_wide_first in Hd.
    + split; [intros _|by rewrite decode_long_first].
      exists [], (x :: c), []. split_and!; [done|by exists O|done|]. destruct c; [done|by left].
Qed.

(** ** Validation *)
Record bundle_wf (b : EnrollmentBundle) : Prop := {
  wf_checked : check_node b = Ok tt;
  wf_credential : exists bytes, decode_hex (credential b) = Ret (Ok bytes) /\ len bytes = 32;
  wf_ascii : Forall ascii (credential b);
  wf_lowercase : to_ascii_lowercase (credential b) = credential b;
  wf_certificate : forall pem, enrolled_trust b = CustomCa pem -> valid_certificate pem = true
}.

Lemma encode_lowercase_length c : Forall ascii c -> length (encode (to_ascii_lowercase c)) = length (encode c).
Proof.
  induction 1 as [|x c Hx Hc IH]; [done|].
  change (to_ascii_lowercase (x :: c)) with (char_to_ascii_lowercase x :: to_ascii_lowercase c).
  rewrite !encode_cons, !encode_char_ascii by (done || by apply lowercase_ascii). cbn. by rewrite IH.
Qed.

Lemma decode_hex_lowercase c bytes :
  Forall scalar c -> decode_hex c = Ret (Ok bytes) ->
  Forall ascii c /\ decode_hex (to_ascii_lowercase c) = Ret (Ok bytes).
Proof.
  unfold decode_hex. intros Hs. destruct (_ || _) eqn:He; [done|]. intros Hd.
  destruct (decode_pairs_lowercase _ _ _ (le_n _) Hs Hd) as [Hc Hl]. split; [done|].
  pose proof (encode_lowercase_length c Hc) as Hlen. unfold len in *. rewrite Hlen, Hl.
  apply orb_false_iff in He as [He ->]. rewrite orb_false_r.
  destruct (encode c), (encode (to_ascii_lowercase c)); done.
Qed.

(** A validation, branch by branch. *)
Lemma normalized_run b :
  EnrollmentBundle.normalized b =
  match check_node b with
  | Err e => Ret (Err e)
  | Ok _ =>
    match decode_hex (credential b) with
    | Ret (Ok bytes) =>
      if len bytes =? 32 then
        match enrolled_trust b with
        | CustomCa pem =>
          if valid_certificate pem then Ret (Ok (set_credential (to_ascii_lowercase (credential b)) b))
          else Ret (invalid "enrollment CA certificate is invalid or too large")
        | System => Ret (Ok (set_credential (to_ascii_lowercase (credential b)) b))
        end
      else Ret (invalid "enrollment credential must contain exactly 32 bytes")
    | Ret (Err e) => Ret (Err e)
    | Panic => Panic
    | OutOfFuel => OutOfFuel
    end
  end.
Proof.
  unfold EnrollmentBundle.normalized, EnrollmentBundle.validate_and_normalize.
  cbv [bind get lift_result run_outcome modify ret throw require_valid require invalid id].
  destruct (check_node b) as [u|e]; [|done].
  destruct (decode_hex (credential b)) as [[bytes|e]| |]; try done.
  change CREDENTIAL_BYTES with 32. destruct (len bytes =? 32); [|done].
  destruct (enrolled_trust b) as [|pem]; [done|]. by destruct (valid_certificate pem).
Qed.

Lemma normalized_Ok b b' :
  Forall scalar (credential b) -> EnrollmentBundle.normalized b = Ret (Ok b') ->
  bundle_wf b' /\ b' = set_credential (to_ascii_lowercase (credential b)) b /\
  EnrollmentBundle.credential_bytes b' = EnrollmentBundle.credential_bytes b /\
  EnrollmentBundle.normalized b' = Ret (Ok b').
Proof.
  intros Hs. rewrite normalized_run. destruct (check_node b) as [[]|] eqn:Hc; [|done].
  destruct (decode_hex (credential b)) as [[bytes|]| |] eqn:Hd; try done.
  destruct (N.eqb_spec (len bytes) 32) as [Hl|]; [|done]. intros H.
  destruct (decode_hex_lowercase _ _ Hs Hd) as [Ha Hd'].
  assert (b' = set_credential (to_ascii_lowercase (credential b)) b /\
    forall pem, enrolled_trust b = CustomCa pem -> valid_certificate pem = true) as [-> Hpem].
  { destruct (enrolled_trust b) as [|pem]; [by injection H as <-|].
    destruct (valid_certificate pem) eqn:Hv; [|done]. injection H as <-. split; [done|]. by intros ? [= <-]. }
  assert (Forall ascii (to_ascii_lowercase (credential b))) as Hla.
  { apply Forall_fmap. eapply Forall_impl; [exact Ha|]. apply lowercase_ascii. }
  split_and!; [split; try done| |by unfold EnrollmentBundle.credential_bytes; cbn; rewrite Hd, Hd'|].
  - exists bytes. done.
  - apply to_ascii_lowercase_idem.
  - done.
  - rewrite normalized_run. change (check_node (set_credential _ b)) with (check_node b). rewrite Hc.
    cbn [credential set_credential enrolled_trust]. rewrite Hd', (proj2 (N.eqb_eq _ _) Hl), to_ascii_lowercase_idem.
    destruct (enrolled_trust b) as [|pem] eqn:Ht; [done|]. by rewrite (Hpem pem eq_refl).
Qed.

(** A bundle that validates becomes a well-formed one (kind, version, node
    and server names, a reachable relay, a credential of exactly 32 bytes, a
    bounded certificate) that differs only in the letter case of its
    credential, stands for the same secret, and is not changed by validating
    it again. *)
Theorem enrollment_normalized b b' :
  Forall scalar (credential b) -> EnrollmentBundle.normalized b = Ret (Ok b') ->
  bundle_wf b' /\ b' = set_credential (to_ascii_lowercase (credential b)) b /\
  EnrollmentBundle.credential_bytes b' = EnrollmentBundle.credential_bytes b /\
  EnrollmentBundle.normalized b' = Ret (Ok b').
Proof. apply normalized_Ok. Qed.

Lemma normalized_panics b :
  Forall scalar (credential b) ->
  EnrollmentBundle.normalized b = Panic <->
  check_node b = Ok tt /\ len (encode (credential b)) mod 2 = 0 /\ cuts_character (credential b).
Proof.
  intros Hs. rewrite normalized_run, <-(decode_pairs_panic _ _ (le_n _) Hs).
  destruct (check_node b) as [[]|]; [|split; [done|by intros [? _]]]. unfold decode_hex.
  destruct (encode (credential b)) as [|x l] eqn:He; [split; [done|by intros (_ & _ & ?)]|].
  rewrite <-He. replace (is_empty (encode (credential b))) with false by by rewrite He.
  cbn [orb]. destruct (N.eqb_spec (len (encode (credential b)) mod 2) 0); cbn [negb].
  - destruct (decode_pairs _) as [[bytes|]| |]; try naive_solver.
    split; [|by intros (_ & _ & ?)]. repeat case_match; done.
  - split; [done|]. by intros (_ & ? & _).
Qed.
Lemma decode_pairs_ends n : forall bytes, (length bytes <= n)%nat -> decode_pairs bytes <> OutOfFuel.
Proof.
  induction n as [|n IH]; intros [|x [|y bytes]] Hn; try done; [cbn in Hn; lia|].
  assert (length bytes <= n)%nat as Hle by (cbn in Hn; lia). specialize (IH bytes Hle). cbn [decode_pairs].
  destruct (Utf8.decode [x; y]) as [c|]; [|done]. destruct (u8_from_str_radix16 c); [|done].
  by destruct (decode_pairs bytes) as [[]| |].
Qed.
Lemma decode_hex_ends c : decode_hex c <> OutOfFuel.
Proof. unfold decode_hex. destruct (_ || _); [done|]. by apply (decode_pairs_ends _ _ (le_n _)). Qed.
Lemma normalized_ends b : EnrollmentBundle.normalized b <> OutOfFuel.
Proof.
  rewrite normalized_run. pose proof (decode_hex_ends (credential b)). destruct (check_node b); [|done].
  destruct (decode_hex (credential b)) as [[]| |]; [|done..]. destruct (_ =? 32); [|done].
  destruct (enrolled_trust b); [done|]. by destruct (valid_certificate _).
Qed.

(** Validation of a bundle panics exactly when its node passes and its
    credential, of an even number of bytes, holds after hexadecimal pairs a
    character that a pair of bytes cuts in two: any enrolment text with such a
    credential brings the client down. *)
Theorem enrollment_panics b :
  Forall scalar (credential b) ->
  EnrollmentBundle.normalized b = Panic <->
  check_node b = Ok tt /\ len (encode (credential b)) mod 2 = 0 /\ cuts_character (credential b).
Proof. apply normalized_panics. Qed.

(** ** References to the credential *)
Lemma split_free c s : c ∉ s -> split c s = [s].
Proof.
  induction s as [|d s IH]; [done|]. intros [Hd Hs]%not_elem_of_cons. cbn. rewrite (IH Hs).
  by rewrite (proj2 (N.eqb_neq d c)) by congruence.
Qed.
Lemma split_cons c a b : c ∉ a -> split c (a ++ c :: b) = a :: split c b.
Proof.
  induction a as [|d a IH]; intros Ha; cbn.
  - by rewrite N.eqb_refl.
  - apply not_elem_of_cons in Ha as [Hd Ha]. rewrite (IH Ha).
    by rewrite (proj2 (N.eqb_neq d c)) by congruence.
Qed.

Definition identifier_char (c : Char) : Prop := is_ascii_alphanumeric c = true \/ c = 45 \/ c = 95.

Lemma identifier_spec v f :
  validate_identifier v f = Ok tt ->
  v <> [] /\ utf8_len v <= 64 /\ Forall identifier_char v /\ starts_with 46 v = false.
Proof.
  unfold validate_identifier. intros H%require_Ok%negb_true_iff.
  apply orb_false_iff in H as [[Hne Hl%N.ltb_ge]%orb_false_iff Hc%negb_false_iff].
  destruct v as [|x v]; [done|]. apply andb_true_iff in Hc as [Hx Hv].
  assert (forall c, ((97 <=? c) && (c <=? 122)) || is_ascii_digit c = true -> is_ascii_alphanumeric c = true) as Hp.
  { intros c. unfold is_ascii_alphanumeric. destruct (is_ascii_digit c); [by rewrite orb_true_r|].
    rewrite orb_false_r. intros ->. by rewrite !orb_true_r. }
  split_and!; [done|done| |].
  - constructor; [left; by apply Hp|].
    apply Forall_forall. intros c Hc. rewrite forallb_forall in Hv.
    specialize (Hv c (proj1 (list_elem_of_In _ _) Hc)).
    apply orb_true_iff in Hv as [[Hv|Hv%N.eqb_eq]%orb_true_iff|Hv%N.eqb_eq]; [left; by apply Hp|by right; left|by right; right].
  - cbn. apply N.eqb_neq. intros ->. done.
Qed.

Lemma utf8_len_app s t : utf8_len (s ++ t) = utf8_len s + utf8_len t.
Proof. induction s as [|c s IH]; cbn; [done|]. rewrite IH. lia. Qed.
Lemma utf8_len_ascii s : Forall ascii s -> utf8_len s = len s.
Proof.
  induction 1 as [|c s Hc Hs IH]; [done|]. rewrite len_cons. cbn [utf8_len]. rewrite IH.
  unfold utf8_len_char, ascii in *. by rewrite (proj2 (N.ltb_lt c 128) Hc).
Qed.

Lemma identifier_segment v f :
  validate_identifier v f = Ok tt ->
  47 ∉ v /\ is_empty v || str_eqb v (str ".") || str_eqb v (str "..") || negb (forallb segment_char v) = false.
Proof.
  intros (Hne & _ & Hc & Hdot)%identifier_spec. split.
  - intros Hin. rewrite Forall_forall in Hc. by destruct (Hc _ Hin) as [|[]].
  - rewrite !orb_false_iff. split_and!.
    + by destruct v.
    + apply bool_decide_eq_false. intros ->. done.
    + apply bool_decide_eq_false. intros ->. done.
    + apply negb_false_iff, forallb_forall. intros c Hin%list_elem_of_In. rewrite Forall_forall in Hc.
      unfold segment_char. destruct (Hc c Hin) as [->|[->| ->]]; done.
Qed.

Lemma digits_segment n :
  47 ∉ display_uint n /\
  is_empty (display_uint n) || str_eqb (display_uint n) (str ".") || str_eqb (display_uint n) (str "..")
  || negb (forallb segment_char (display_uint n)) = false.
Proof.
  destruct (display_uint_spec n n (N.le_refl n)) as (Hne & Hd & _). split.
  - intros Hin. rewrite Forall_forall in Hd. by specialize (Hd _ Hin).
  - rewrite !orb_false_iff. split_and!.
    + by destruct (display_uint n).
    + apply bool_decide_eq_false. intros Heq. rewrite Heq in Hd. by apply Forall_cons in Hd as [? _].
    + apply bool_decide_eq_false. intros Heq. rewrite Heq in Hd. by apply Forall_cons in Hd as [? _].
    + apply negb_false_iff, forallb_forall. intros c Hin%list_elem_of_In. rewrite Forall_forall in Hd.
      unfold segment_char, is_ascii_alphanumeric. by rewrite (Hd c Hin).
Qed.

(** The reference under which a bundle's credential is stored is a valid one. *)
Lemma credential_ref_parses b :
  check_node b = Ok tt -> u64 (principal_id b) ->
  SecretRef.parse (EnrollmentBundle.credential_ref b) = Ok {| as_str := EnrollmentBundle.credential_ref b |}.
Proof.
  intros (u1 & _ & (u2 & _ & ([] & Hid & _)%and_then_Ok)%and_then_Ok)%and_then_Ok Hp.
  destruct (identifier_segment _ _ Hid) as [Hfree Hseg].
  destruct (digits_segment (principal_id b)) as [_ Hdigits].
  destruct (identifier_spec _ _ Hid) as (_ & Hlen & _).
  unfold SecretRef.parse, EnrollmentBundle.credential_ref.
  set (path := enrolled_id (enrolled b) ++ [47] ++ display_uint (principal_id b)).
  change (str "secret://velum/enrollment/" ++ path) with (str "secret://velum/" ++ str "enrollment" ++ 47 :: path).
  rewrite (proj2 (strip_prefix_Some (str "secret://velum/") _ _) eq_refl). cbn [some_or_invalid and_then].
  assert (split 47 path = [enrolled_id (enrolled b); display_uint (principal_id b)]) as Hpath.
  { unfold path. cbn [app]. by rewrite split_cons, split_free by (done || apply digits_segment). }
  rewrite split_cons, Hpath by (by apply (bool_decide_unpack _); vm_compute).
  replace (is_empty (str "enrollment" ++ 47 :: path)) with false by done. cbn [existsb].
  rewrite Hseg, Hdigits. replace (512 <? _) with false; [done|]. symmetry. apply N.ltb_ge.
  assert (utf8_len (display_uint (principal_id b)) <= 20) as Hd.
  { rewrite utf8_len_ascii by apply SocketText.ip_char_ascii, SocketText.display_uint_chars.
    pose proof (SocketText.length_display (principal_id b) 19) as H. unfold len. unfold u64, U64_MAX in Hp.
    change (10 ^ N.of_nat 20) with 100000000000000000000 in H. lia. }
  rewrite !utf8_len_app. unfold path. cbn [utf8_len]. rewrite !utf8_len_app.
  change (utf8_len (str "secret://velum/")) with 15. change (utf8_len (str "enrollment")) with 10.
  change (utf8_len_char 47) with 1. change (utf8_len [47]) with 1. lia.
Qed.

(** A bundle made by [new] keeps its parts. *)
Lemma new_Ok node principal secret trust b :
  EnrollmentBundle.new node principal secret trust = Ret (Ok b) ->
  bundle_wf b /\ EnrollmentBundle.normalized b = Ret (Ok b) /\ len secret = 32 /\
  b = {| kind := ENROLLMENT_KIND; version := ENROLLMENT_VERSION; enrolled := node; principal_id := principal;
         credential := encode_hex secret; enrolled_trust := trust |}.
Proof.
  unfold EnrollmentBundle.new. set (fresh := Build_EnrollmentBundle _ _ _ _ _ _). intros Hnew.
  assert (Forall scalar (credential fresh)) as Hs.
  { eapply Forall_impl; [apply encode_hex_ascii|]. intros c. unfold ascii, scalar. lia. }
  destruct (normalized_Ok fresh b Hs Hnew) as (Hwf & Hb & Hbytes & Hagain).
  assert (b = fresh) as Hfresh by (rewrite Hb; unfold set_credential; cbn; by rewrite lowercase_encode_hex).
  split_and!; [done..| |done]. destruct (wf_credential _ Hwf) as (bytes & Hd & Hl). rewrite Hfresh in Hd. cbn in Hd.
  destruct secret as [|x secret]; [done|]. rewrite decode_encode_hex in Hd by done. by apply Ret_Ok_inj in Hd as ->.
Qed.
Lemma canonical_reads_back `{J : BundleJson, !BundleJsonLaws J} b text :
  EnrollmentBundle.normalized b = Ret (Ok b) -> EnrollmentJson.to_canonical_json b = Ret (Ok text) ->
  len (encode text) <= MAX_ENROLLMENT_BYTES -> EnrollmentJson.from_json (encode text) = Ret (Ok b).
Proof.
  intros Hagain Htext Hlen. unfold EnrollmentJson.to_canonical_json in Htext. rewrite Hagain in Htext.
  destruct (json_to_string b) as [t|e] eqn:Hj; [|done]. apply Ret_inj, Ok_inj in Htext as ->.
  unfold EnrollmentJson.from_json. by rewrite (proj2 (N.ltb_ge _ _) Hlen), (json_round_trip _ _ Hj).
Qed.
Lemma encoded_credential_bytes secret b :
  credential b = encode_hex secret -> len secret = 32 -> EnrollmentBundle.credential_bytes b = Ret (Ok secret).
Proof.
  intros Hb Hl. unfold EnrollmentBundle.credential_bytes. rewrite Hb. destruct secret; [done|]. by apply decode_encode_hex.
Qed.
Lemma to_canonical_total `{BundleJson} b :
  EnrollmentBundle.normalized b = Ret (Ok b) -> exists r, EnrollmentJson.to_canonical_json b = Ret r.
Proof. intros Hagain. unfold EnrollmentJson.to_canonical_json. rewrite Hagain. destruct (json_to_string b); eauto. Qed.
Lemma new_total node principal secret trust : exists r, EnrollmentBundle.new node principal secret trust = Ret r.
Proof.
  unfold EnrollmentBundle.new. rewrite normalized_run. cbn [credential enrolled_trust].
  destruct (check_node _); [|eauto]. destruct secret as [|x secret]; [cbn; eauto|].
  rewrite decode_encode_hex by done. destruct (_ =? 32); [|eauto]. destruct trust; [eauto|].
  destruct (valid_certificate _); eauto.
Qed.

(** Issuing and importing agree: a bundle made for a node and a 32-byte
    credential, written as canonical JSON within the size limit, is read back
    as the same bundle, gives the same credential bytes, and names a secret
    reference that parses. *)
Theorem enrollment_round_trip `{J : BundleJson, !BundleJsonLaws J} node principal secret trust b text :
  u64 principal ->
  EnrollmentBundle.new node principal secret trust = Ret (Ok b) ->
  EnrollmentJson.to_canonical_json b = Ret (Ok text) ->
  len (encode text) <= MAX_ENROLLMENT_BYTES ->
  EnrollmentJson.from_json (encode text) = Ret (Ok b) /\
  enrolled b = node /\ principal_id b = principal /\ enrolled_trust b = trust /\
  EnrollmentBundle.credential_bytes b = Ret (Ok secret) /\
  SecretRef.parse (EnrollmentBundle.credential_ref b) = Ok {| as_str := EnrollmentBundle.credential_ref b |}.
Proof.
  intros Hp Hnew Htext Hlen. destruct (new_Ok _ _ _ _ _ Hnew) as (Hwf & Hagain & Hl & Hb).
  split_and!; [by apply canonical_reads_back|by rewrite Hb..| |].
  - by apply encoded_credential_bytes; [rewrite Hb|].
  - apply credential_ref_parses; [apply Hwf|by rewrite Hb].
Qed.

(** ** Concrete bundles *)
Module EnrollmentExamples.
#[local] Instance EnrollmentNode_eq_dec : EqDecision EnrollmentNode. Proof. solve_decision. Defined.
#[local] Instance EnrollmentTrust_eq_dec : EqDecision EnrollmentTrust. Proof. solve_decision. Defined.
#[local] Instance EnrollmentBundle_eq_dec : EqDecision EnrollmentBundle. Proof. solve_decision. Defined.

Definition node : EnrollmentNode :=
  {| enrolled_id := str "relay-sg"; enrolled_name := str "Singapore relay";
     enrolled_address := SocketAddr.new (V4 3405803786) 4433;
     enrolled_server_name := str "relay.example" |}.
Definition secret : list byte := replicate 32 x5a.
Definition with_credential (c : Str) : EnrollmentBundle :=
  {| kind := ENROLLMENT_KIND; version := 1; enrolled := node; principal_id := 7; credential := c;
     enrolled_trust := System |}.
Definition issued : EnrollmentBundle := with_credential (encode_hex secret).

(** JSON that can only write one bundle. *)
#[local] Instance one_bundle : BundleJson :=
  {| json_from_slice source := if decide (source = encode (str "{}")) then inl issued else inr [];
     json_to_string b := if decide (b = issued) then inl (str "{}") else inr [] |}.
#[local] Instance one_bundle_laws : BundleJsonLaws one_bundle.
Proof.
  constructor. intros b text. cbn [json_to_string json_from_slice one_bundle].
  destruct (decide (b = issued)) as [->|]; [|done]. intros Heq.
  assert (str "{}" = text) as <- by congruence. by destruct (decide (encode (str "{}") = encode (str "{}"))).
Qed.

Example issued_ref : EnrollmentBundle.credential_ref issued = str "secret://velum/enrollment/relay-sg/7".
Proof. vm_compute. reflexivity. Qed.

(** A sign is taken for a digit, as [from_str_radix] does. *)
Example sign_accepted : decode_hex (str "+5") = Ret (Ok [x05]).
Proof. vm_compute. reflexivity. Qed.

Lemma enrollment_normalized_witness :
  exists b, EnrollmentBundle.normalized (with_credential (List.concat (replicate 32 (str "5A")))) = Ret (Ok b) /\
    bundle_wf b /\ EnrollmentBundle.credential_bytes b = Ret (Ok secret).
Proof.
  exists issued.
  destruct (enrollment_normalized (with_credential (List.concat (replicate 32 (str "5A")))) issued)
    as (Hwf & _ & Hb & _).
  - apply (bool_decide_unpack _). vm_compute. exact I.
  - vm_compute. reflexivity.
  - split; [vm_compute; reflexivity|]. split; [exact Hwf|]. rewrite Hb. vm_compute. reflexivity.
Defined.

(** [aéa]: four bytes, of which the second pair starts inside a character. *)
Lemma enrollment_panics_witness : EnrollmentBundle.normalized (with_credential [97; 233; 97]) = Panic.
Proof.
  apply (enrollment_panics (with_credential [97; 233; 97])).
  - apply (bool_decide_unpack _). vm_compute. exact I.
  - split; [vm_compute; reflexivity|]. split; [vm_compute; reflexivity|].
    exists [], [97; 233; 97], []. split; [reflexivity|]. split; [exists O; reflexivity|].
    split; [reflexivity|]. right. split; [vm_compute; reflexivity|vm_compute; discriminate].
Defined.

Lemma enrollment_round_trip_witness :
  EnrollmentBundle.new node 7 secret System = Ret (Ok issued) /\
  EnrollmentJson.from_json (encode (str "{}")) = Ret (Ok issued).
Proof.
  assert (EnrollmentBundle.new node 7 secret System = Ret (Ok issued)) as H by (vm_compute; reflexivity).
  split; [exact H|].
  destruct (enrollment_round_trip node 7 secret System issued (str "{}")) as [Hr _].
  - vm_compute. discriminate.
  - exact H.
  - vm_compute. reflexivity.
  - vm_compute. discriminate.
  - exact Hr.
Defined.
End EnrollmentExamples.
