(* ===== verification/NodePool.v ===== *)
(** The pool of node connections ([velum-client-engine/src/lib.rs]): profiles
    that replace each other while references to their nodes are resolved and
    connections are started.  A runtime is known by the order of its start;
    what the factory and a runtime answer to an [await] is an input. *)
From S2P Require Import Prelude Str Runtime.

(** What [ClientRuntimeFactory] passes on is [PoolRuntime]. *)
Inductive NodePoolError :=
| Empty
| DuplicateNode
| MissingDefault
| UnknownNode
| PoolSuperseded
| ConnectionFailed
| PoolRuntime (e : RuntimeError).

Section pool.
Variable ClientConfig : Type.

Record ResolvedNode := { id : Str; alias : Str; configuration : ClientConfig }.

(** An entry behind its [Arc]: [holder] is the task that has the mutex of
    [runtime]. *)
Record NodeEntry := {
  entry_alias : Str;
  entry_configuration : ClientConfig;
  runtime : option nat;
  holder : option nat
}.

(** [PoolState] of a profile in use; its entries are shared. *)
Record PoolState := {
  generation : N;
  default_node : Str;
  nodes : gmap Str nat;
  aliases : gmap Str Str
}.
Definition state_default : PoolState := {| generation := 0; default_node := []; nodes := ∅; aliases := ∅ |}.

(** A prepared [PoolState]: nobody else knows its entries yet. *)
Record Prepared := {
  prepared_default : Str;
  prepared_nodes : gmap Str NodeEntry;
  prepared_aliases : gmap Str Str
}.

(** ** Preparing a profile *)
Fixpoint prepare_nodes (l : list ResolvedNode) (ids : gset Str) (aliases : gmap Str Str) (entries : gmap Str NodeEntry)
  : result (gmap Str Str * gmap Str NodeEntry) NodePoolError :=
  match l with
  | [] => Ok (aliases, entries)
  | node :: l =>
    if is_empty (id node) || is_empty (alias node) || bool_decide (id node ∈ ids)
       || bool_decide (is_Some (aliases !! alias node))
    then Err DuplicateNode
    else
      prepare_nodes l ({[ id node ]} ∪ ids) (<[alias node := id node]> aliases)
        (<[id node := {| entry_alias := alias node; entry_configuration := configuration node;
                         runtime := None; holder := None |}]> entries)
  end.

Definition prepare (l : list ResolvedNode) (default : Str) : result Prepared NodePoolError :=
  if is_empty l then Err Empty
  else
    let? maps := prepare_nodes l ∅ ∅ ∅ in
    let '(aliases, entries) := maps in
    let? resolved_default :=
      if bool_decide (is_Some (entries !! default)) then Ok default
      else match aliases !! default with Some id => Ok id | None => Err MissingDefault end in
    Ok {| prepared_default := resolved_default; prepared_nodes := entries; prepared_aliases := aliases |}.

(** ** Resolving a reference

    The part of [runtime_for_generation] under the read lock. *)
Definition lookup_node (self : PoolState) (reference : Str) : result nat NodePoolError :=
  let? id :=
    if str_eqb reference (str "PROXY") then Ok (default_node self)
    else if bool_decide (is_Some (nodes self !! reference)) then Ok reference
    else match aliases self !! reference with Some id => Ok id | None => Err UnknownNode end in
  match nodes self !! id with Some entry => Ok entry | None => Err UnknownNode end.
Definition resolve (self : PoolState) (reference : Str) (g : N) : result nat NodePoolError :=
  if negb (generation self =? g) then Err PoolSuperseded else lookup_node self reference.

(** ** Publishing a prepared profile *)
Definition store_default (r : nat) (p : Prepared) : Prepared :=
  {| prepared_default := prepared_default p;
     prepared_nodes := alter (fun e => {| entry_alias := entry_alias e; entry_configuration := entry_configuration e;
                                          runtime := Some r; holder := holder e |})
                         (prepared_default p) (prepared_nodes p);
     prepared_aliases := prepared_aliases p |}.

(** From here on the entries are shared: they get the next places of the heap. *)
Definition publish (g : N) (p : Prepared) (heap : list NodeEntry) : PoolState * list NodeEntry :=
  let entries := ordered (prepared_nodes p) in
  ({| generation := g; default_node := prepared_default p;
      nodes := list_to_map (zip entries.*1 (seq (length heap) (length entries)));
      aliases := prepared_aliases p |},
   heap ++ entries.*2).

(** ** Tasks

    One call in progress, by what it does next.  [Draining] and
    [StoppingRuntime] are [stop_state], whose last argument is what [activate]
    returns; [stop] reads the generation again. *)
Inductive Purpose := ForRuntime | ForStream.
Inductive Outcome := OfGeneration (g : N) | OfRuntime (r : nat) | OfStream.
Inductive Task :=
| Activating (p : Prepared)
| Storing (p : Prepared) (r : nat)
| Numbering (p : Prepared)
| Replacing (p : Prepared) (g : N)
| Stopping
| Draining (l : list nat) (g : option N)
| StoppingRuntime (e r : nat) (l : list nat) (g : option N)
| Asking (k : Purpose) (reference : Str)
| Resolving (k : Purpose) (reference : Str) (g : N)
| Locking (k : Purpose) (reference : Str) (g : N) (e : nat)
| Starting (k : Purpose) (reference : Str) (g : N) (e : nat)
| Checking (k : Purpose) (reference : Str) (g : N) (e r : nat)
| Installing (k : Purpose) (reference : Str) (g : N) (e r : nat)
| Undoing (k : Purpose) (reference : Str) (g : N) (e r : nat)
| Opening (g : N) (r : nat)
| Opened (g : N)
| Returned (o : result Outcome NodePoolError).

Record World := {
  state : PoolState;
  next_generation : N;
  heap : list NodeEntry;
  tasks : gmap nat Task;
  (** How many runtimes were started, and those that were told to stop. *)
  started : nat;
  stopped : gset nat
}.
Definition initial : World :=
  {| state := state_default; next_generation := 1; heap := []; tasks := ∅; started := 0%nat; stopped := ∅ |}.

Definition put (t : nat) (x : Task) (w : World) : World :=
  {| state := state w; next_generation := next_generation w; heap := heap w; tasks := <[t := x]> (tasks w);
     started := started w; stopped := stopped w |}.
Definition set_state (s : PoolState) (w : World) : World :=
  {| state := s; next_generation := next_generation w; heap := heap w; tasks := tasks w;
     started := started w; stopped := stopped w |}.
Definition set_heap (h : list NodeEntry) (w : World) : World :=
  {| state := state w; next_generation := next_generation w; heap := h; tasks := tasks w;
     started := started w; stopped := stopped w |}.
(** [fetch_add] wraps around. *)
Definition fetch_add (w : World) : World :=
  {| state := state w; next_generation := (next_generation w + 1) mod (U64_MAX + 1); heap := heap w; tasks := tasks w;
     started := started w; stopped := stopped w |}.
Definition count_start (w : World) : World :=
  {| state := state w; next_generation := next_generation w; heap := heap w; tasks := tasks w;
     started := S (started w); stopped := stopped w |}.
Definition stop_runtime (r : nat) (w : World) : World :=
  {| state := state w; next_generation := next_generation w; heap := heap w; tasks := tasks w;
     started := started w; stopped := {[ r ]} ∪ stopped w |}.
Definition set_entry (e : nat) (r : option nat) (h : option nat) (w : World) : World :=
  match heap w !! e with
  | Some entry =>
    set_heap (<[e := {| entry_alias := entry_alias entry; entry_configuration := entry_configuration entry;
                        runtime := r; holder := h |}]> (heap w)) w
  | None => w
  end.

(** [state.nodes.into_values()] *)
Definition values (s : PoolState) : list nat := (ordered (nodes s)).*2.

(** ** Calls *)
Inductive Call :=
| CallActivate (l : list ResolvedNode) (default : Str)
| CallStop
| CallRuntimeFor (reference : Str)
| CallOpenStream (reference : Str).

Definition call (c : Call) : Task :=
  match c with
  | CallActivate l default =>
    match prepare l default with
    | Err e => Returned (Err e)
    | Ok p =>
      match prepared_nodes p !! prepared_default p with
      | None => Returned (Err MissingDefault)
      | Some _ => Activating p
      end
    end
  | CallStop => Stopping
  | CallRuntimeFor reference => Asking ForRuntime reference
  | CallOpenStream reference => Asking ForStream reference
  end.

(** What is done with a runtime that was found or started. *)
Definition found (k : Purpose) (g : N) (r : nat) : Task :=
  match k with ForRuntime => Returned (Ok (OfRuntime r)) | ForStream => Opening g r end.

(** What an [await] on code of another crate yields. *)
Inductive Answer :=
| NoAnswer
| StartAnswer (r : result unit NodePoolError)
| StreamAnswer (r : result unit RuntimeError).

(** The next step of a task, [None] while it waits: for the mutex of an entry, or
    for an answer.  First [activate], once its profile is prepared. *)
Definition activate_step (t : nat) (a : Answer) (w : World) (x : Task) : option World :=
  match x with
  | Activating p =>
    match a with
    | StartAnswer (Ok _) => Some (put t (Storing p (started w)) (count_start w))
    | StartAnswer (Err e) => Some (put t (Returned (Err e)) w)
    | _ => None
    end
  | Storing p r => Some (put t (Numbering (store_default r p)) w)
  | Numbering p => Some (put t (Replacing p (next_generation w)) (fetch_add w))
  | Replacing p g =>
    let '(s, h) := publish g p (heap w) in
    Some (put t (Draining (values (state w)) (Some g)) (set_state s (set_heap h w)))
  | _ => None
  end.

(** [stop], with one step for what it does under the write lock. *)
Definition stop_step (t : nat) (w : World) : option World :=
  Some (put t (Draining (values (state w)) None)
    (fetch_add (set_state {| generation := next_generation w; default_node := []; nodes := ∅; aliases := ∅ |} w))).

Definition stop_state_step (t : nat) (w : World) (x : Task) : option World :=
  match x with
  | Draining [] (Some g) => Some (put t (Returned (Ok (OfGeneration g))) w)
  | Draining [] None => Some (put t (Returned (Ok (OfGeneration (generation (state w))))) w)
  | Draining (e :: l) g =>
    match heap w !! e with
    | Some {| runtime := o; holder := None |} =>
      match o with
      | None => Some (put t (Draining l g) w)
      | Some r => Some (put t (StoppingRuntime e r l g) (set_entry e None (Some t) w))
      end
    | _ => None
    end
  | StoppingRuntime e r l g => Some (put t (Draining l g) (set_entry e None None (stop_runtime r w)))
  | _ => None
  end.

(** [runtime_for_generation] *)
Definition runtime_for_step (t : nat) (a : Answer) (w : World) (x : Task) : option World :=
  match x with
  | Resolving k reference g =>
    match resolve (state w) reference g with
    | Err x => Some (put t (Returned (Err x)) w)
    | Ok e => Some (put t (Locking k reference g e) w)
    end
  | Locking k reference g e =>
    match heap w !! e with
    | Some {| runtime := o; holder := None |} =>
      match o with
      | Some r => Some (put t (found k g r) w)
      | None => Some (put t (Starting k reference g e) (set_entry e None (Some t) w))
      end
    | _ => None
    end
  | Starting k reference g e =>
    match a with
    | StartAnswer (Ok _) => Some (put t (Checking k reference g e (started w)) (count_start w))
    | StartAnswer (Err x) => Some (put t (Returned (Err x)) (set_entry e None None w))
    | _ => None
    end
  | Checking k reference g e r =>
    Some (put t (if generation (state w) =? g then Installing k reference g e r else Undoing k reference g e r) w)
  | Installing k reference g e r => Some (put t (found k g r) (set_entry e (Some r) None w))
  | Undoing k reference g e r =>
    Some (put t (Returned (Err PoolSuperseded)) (set_entry e None None (stop_runtime r w)))
  | _ => None
  end.

(** [open_stream], once it has a runtime. *)
Definition open_stream_step (t : nat) (a : Answer) (w : World) (x : Task) : option World :=
  match x with
  | Opening g r =>
    match a with
    | StreamAnswer (Ok _) => Some (put t (Opened g) w)
    | StreamAnswer (Err x) => Some (put t (Returned (Err (PoolRuntime x))) w)
    | _ => None
    end
  | Opened g =>
    Some (put t (Returned (if generation (state w) =? g then Ok OfStream else Err PoolSuperseded)) w)
  | _ => None
  end.

Definition advance (t : nat) (a : Answer) (w : World) : option World :=
  match tasks w !! t with
  | None => None
  | Some x =>
    match x with
    | Activating _ | Storing _ _ | Numbering _ | Replacing _ _ => activate_step t a w x
    | Stopping => stop_step t w
    | Draining _ _ | StoppingRuntime _ _ _ _ => stop_state_step t w x
    | Asking k reference => Some (put t (Resolving k reference (generation (state w))) w)
    | Opening _ _ | Opened _ => open_stream_step t a w x
    | Returned _ => None
    | _ => runtime_for_step t a w x
    end
  end.

Inductive step (w : World) : World -> Prop :=
| step_call t c : tasks w !! t = None -> step w (put t (call c) w)
| step_advance t a w' : advance t a w = Some w' -> step w w'.

(** ** Reading the pool

    [readings] is what the runtime of each entry publishes at the time its
    lock is taken. *)
Record NodeSnapshot := {
  snapshot_id : Str;
  snapshot_alias : Str;
  is_default : bool;
  snapshot_runtime : option RuntimeSnapshot
}.
Record NodePoolSnapshot := {
  snapshot_generation : N;
  snapshot_default : option Str;
  snapshot_nodes : list NodeSnapshot
}.
Definition pool_snapshot (readings : nat -> option RuntimeSnapshot) (w : World) : NodePoolSnapshot :=
  let default := if is_empty (default_node (state w)) then None else Some (default_node (state w)) in
  {| snapshot_generation := generation (state w);
     snapshot_default := default;
     snapshot_nodes :=
       omap (fun '(id, e) =>
         match heap w !! e with
         | Some entry => Some {| snapshot_id := id; snapshot_alias := entry_alias entry;
                                 is_default := bool_decide (default = Some id);
                                 snapshot_runtime := readings e |}
         | None => None
         end) (ordered (nodes (state w))) |}.

Ltac unfold_advance H :=
  unfold advance, activate_step, stop_step, stop_state_step, runtime_for_step, open_stream_step in H.

(** ** What the parts of a task are *)
Definition pending (x : Task) : option N := match x with Replacing _ g => Some g | _ => None end.
(** The generation a task has read. *)
Definition seen (x : Task) : option N :=
  match x with
  | Resolving _ _ g | Locking _ _ g _ | Starting _ _ g _ | Checking _ _ g _ _ | Installing _ _ g _ _
  | Undoing _ _ g _ _ | Opening g _ | Opened g => Some g
  | _ => None
  end.
(** The entry a reference was resolved to. *)
Definition resolved (x : Task) : option (Str * N * nat) :=
  match x with
  | Locking _ ref g e | Starting _ ref g e | Checking _ ref g e _ | Installing _ ref g e _
  | Undoing _ ref g e _ => Some (ref, g, e)
  | _ => None
  end.
(** The entry whose mutex a task has. *)
Definition holding (x : Task) : option nat :=
  match x with
  | StoppingRuntime e _ _ _ | Starting _ _ _ e | Checking _ _ _ e _ | Installing _ _ _ e _ | Undoing _ _ _ e _ => Some e
  | _ => None
  end.
Definition prepared (x : Task) : option Prepared :=
  match x with Activating p | Storing p _ | Numbering p | Replacing p _ => Some p | _ => None end.
Definition default_runtime (p : Prepared) : option nat :=
  prepared_nodes p !! prepared_default p ≫= runtime.
(** The runtime only this task has. *)
Definition hand (x : Task) : option nat :=
  match x with
  | Storing _ r | StoppingRuntime _ r _ _ | Checking _ _ _ _ r | Installing _ _ _ _ r | Undoing _ _ _ _ r => Some r
  | Numbering p | Replacing p _ => default_runtime p
  | _ => None
  end.
(** The entries a task has still to stop. *)
Definition drains (x : Task) : list nat :=
  match x with Draining l _ | StoppingRuntime _ _ l _ => l | _ => [] end.
Definition installs (x : Task) : option nat := match x with Installing _ _ _ e _ => Some e | _ => None end.

Lemma resolved_seen x ref g e : resolved x = Some (ref, g, e) -> seen x = Some g.
Proof. destruct x; cbn; try done; by intros [= -> -> ->]. Qed.

(** ** The invariant *)
Record generations_ok (w : World) : Prop := {
  go_state : generation (state w) < next_generation w;
  go_pending : forall t x g, tasks w !! t = Some x -> pending x = Some g ->
    g < next_generation w /\ g <> generation (state w);
  go_unique : forall t t' x x' g, tasks w !! t = Some x -> tasks w !! t' = Some x' ->
    pending x = Some g -> pending x' = Some g -> t = t';
  go_seen : forall t x g, tasks w !! t = Some x -> seen x = Some g ->
    g < next_generation w /\ forall t' x', tasks w !! t' = Some x' -> pending x' <> Some g;
  go_resolved : forall t x ref g e, tasks w !! t = Some x -> resolved x = Some (ref, g, e) ->
    g = generation (state w) -> lookup_node (state w) ref = Ok e
}.

Record locks_ok (w : World) : Prop := {
  lo_nodes : forall key e, nodes (state w) !! key = Some e -> (e < length (heap w))%nat;
  lo_drains : forall t x e, tasks w !! t = Some x -> e ∈ drains x -> (e < length (heap w))%nat;
  lo_resolved : forall t x ref g e, tasks w !! t = Some x -> resolved x = Some (ref, g, e) -> (e < length (heap w))%nat;
  lo_holder : forall e entry t, heap w !! e = Some entry -> holder entry = Some t ->
    exists x, tasks w !! t = Some x /\ holding x = Some e;
  lo_holding : forall t x e, tasks w !! t = Some x -> holding x = Some e ->
    exists entry, heap w !! e = Some entry /\ holder entry = Some t /\ runtime entry = None
}.

Record prepared_ok (p : Prepared) : Prop := {
  po_default : is_Some (prepared_nodes p !! prepared_default p);
  po_free : forall key e, prepared_nodes p !! key = Some e -> holder e = None;
  po_others : forall key e, prepared_nodes p !! key = Some e -> key <> prepared_default p -> runtime e = None
}.

(** Where a runtime can be. *)
Inductive Place := InEntry (e : nat) | InTask (t : nat).
#[local] Instance Place_eq_dec : EqDecision Place.
Proof. solve_decision. Defined.
Definition at_place (w : World) (l : Place) : option nat :=
  match l with
  | InEntry e => heap w !! e ≫= runtime
  | InTask t => tasks w !! t ≫= hand
  end.

Record live_ok (at_ : Place -> option nat) (started : nat) (stopped : gset nat) : Prop := {
  li_once : forall l l' r, at_ l = Some r -> at_ l' = Some r -> l = l';
  li_live : forall l r, at_ l = Some r -> (r < started)%nat /\ r ∉ stopped;
  li_found : forall r, (r < started)%nat -> r ∉ stopped -> exists l, at_ l = Some r;
  li_stopped : forall r, r ∈ stopped -> (r < started)%nat
}.

(** An entry that the profile in use has, or that a task is still to stop. *)
Definition owned (w : World) (e : nat) : Prop :=
  (exists key, nodes (state w) !! key = Some e) \/ (exists t x, tasks w !! t = Some x /\ e ∈ drains x).

Record pool_ok (w : World) : Prop := {
  pk_generations : generations_ok w;
  pk_locks : locks_ok w;
  pk_prepared : forall t x p, tasks w !! t = Some x -> prepared x = Some p -> prepared_ok p;
  pk_activating : forall t p, tasks w !! t = Some (Activating p) \/ (exists r, tasks w !! t = Some (Storing p r)) ->
    default_runtime p = None;
  pk_live : live_ok (at_place w) (started w) (stopped w);
  pk_owned : forall e entry r, heap w !! e = Some entry -> runtime entry = Some r -> owned w e;
  pk_installs : forall t x e, tasks w !! t = Some x -> installs x = Some e -> owned w e
}.

(** *** Moving runtimes *)
Lemma live_ext f g n s : (forall l, f l = g l) -> live_ok f n s -> live_ok g n s.
Proof.
  intros Heq [H1 H2 H3 H4]. split; [| | |done].
  - intros l l' r. rewrite <-!Heq. apply H1.
  - intros l r. rewrite <-Heq. apply H2.
  - intros r Hn Hs. destruct (H3 r Hn Hs) as [l Hl]. exists l. by rewrite <-Heq.
Qed.

Lemma live_move f g n s l l' r :
  f l = Some r -> g l' = Some r -> (l <> l' -> f l' = None /\ g l = None) ->
  (forall k, k <> l -> k <> l' -> g k = f k) -> live_ok f n s -> live_ok g n s.
Proof.
  intros Hf Hg Hne Heq [H1 H2 H3 H4].
  assert (forall k r', g k = Some r' -> (k = l' /\ r' = r) \/ (k <> l /\ k <> l' /\ f k = Some r')) as Hold.
  { intros k r' Hk. destruct (decide (k = l')) as [->|Hk']; [left; split; [done|congruence]|]. right.
    destruct (decide (k = l)) as [->|Hkl]; [|rewrite <-Heq by done; done].
    destruct Hne as [_ Hn]; [done|congruence]. }
  split; [| | |done].
  - intros k k' r' Hk Hk'. apply Hold in Hk as [[-> ->]|(Hkl & Hkl' & Hk)], Hk' as [[-> Hr]|(Hkl2 & Hkl2' & Hk')].
    + done.
    + destruct Hkl2. by apply (H1 _ _ r).
    + subst r'. destruct Hkl. by apply (H1 _ _ r).
    + by apply (H1 _ _ r').
  - intros k r' Hk. apply Hold in Hk as [[-> ->]|(_ & _ & Hk)]; eauto.
  - intros r' Hn Hs. destruct (H3 r' Hn Hs) as [k Hk]. destruct (decide (k = l)) as [->|Hkl].
    + exists l'. congruence.
    + destruct (decide (k = l')) as [->|Hkl']; [|exists k; by rewrite Heq].
      destruct Hne as [Hn' _]; [done|congruence].
Qed.

Lemma live_start f g n s l :
  f l = None -> g l = Some n -> (forall k, k <> l -> g k = f k) ->
  live_ok f n s -> live_ok g (S n) s.
Proof.
  intros Hf Hg Heq [H1 H2 H3 Hs].
  assert (forall k r, g k = Some r -> (k = l /\ r = n) \/ (k <> l /\ f k = Some r)) as Hold.
  { intros k r Hk. destruct (decide (k = l)) as [->|Hkl]; [left; split; [done|congruence]|right].
    by rewrite <-Heq by done. }
  split; [| | |intros r Hr%Hs; lia].
  - intros k k' r Hk Hk'. apply Hold in Hk as [[-> ->]|[Hkl Hk]], Hk' as [[-> Hr]|[Hkl' Hk']].
    + done.
    + apply H2 in Hk' as [? _]. lia.
    + subst. apply H2 in Hk as [? _]. lia.
    + by apply (H1 _ _ r).
  - intros k r Hk. apply Hold in Hk as [[-> ->]|[_ Hk]].
    + split; [lia|]. intros Hin%Hs. lia.
    + apply H2 in Hk as [? ?]. split; [lia|done].
  - intros r Hr Hns. destruct (decide (r = n)) as [->|Hne]; [by exists l|].
    destruct (H3 r) as [k Hk]; [lia|done|]. exists k. rewrite Heq; [done|]. intros ->. congruence.
Qed.

Lemma live_stop f g n s l r :
  f l = Some r -> g l = None -> (forall k, k <> l -> g k = f k) ->
  live_ok f n s -> live_ok g n ({[ r ]} ∪ s).
Proof.
  intros Hf Hg Heq [H1 H2 H3 H4].
  assert (forall k r', g k = Some r' -> k <> l /\ f k = Some r') as Hold.
  { intros k r' Hk. assert (k <> l) by congruence. by rewrite <-Heq by done. }
  split; [| | |intros r' [->%elem_of_singleton|Hr']%elem_of_union; [by apply (H2 l)|by apply H4]].
  - intros k k' r' [_ Hk]%Hold [_ Hk']%Hold. by apply (H1 _ _ r').
  - intros k r' [Hkl Hk]%Hold. destruct (H2 _ _ Hk) as [? ?]. split; [done|].
    apply not_elem_of_union. split; [|done]. intros ->%elem_of_singleton. by apply Hkl, (H1 _ _ r).
  - intros r' Hr Hns. apply not_elem_of_union in Hns as [Hne Hns]. destruct (H3 r' Hr Hns) as [k Hk].
    exists k. rewrite Heq; [done|]. intros ->. apply Hne, elem_of_singleton. congruence.
Qed.

(** *** Steps that leave the profile alone *)
Definition before (w : World) (t : nat) {A} (f : Task -> option A) : option A := tasks w !! t ≫= f.
Definition old_drains (w : World) (t : nat) : list nat := match tasks w !! t with Some x => drains x | None => [] end.

Record updates (w : World) (t : nat) (y : Task) (w' : World) : Prop := {
  up_state : state w' = state w;
  up_tasks : tasks w' = <[t := y]> (tasks w)
}.
Lemma put_updates w t y : updates w t y (put t y w).
Proof. done. Qed.

Lemma updated w t y w' t' x' :
  updates w t y w' -> tasks w' !! t' = Some x' -> (t' = t /\ x' = y) \/ (t' <> t /\ tasks w !! t' = Some x').
Proof.
  intros [_ ->]. destruct (decide (t' = t)) as [->|Hne]; [rewrite lookup_insert_eq|rewrite lookup_insert_ne by done].
  - intros [= ->]. by left.
  - by right.
Qed.

Lemma updates_generations w t y w' :
  generations_ok w -> updates w t y w' -> next_generation w' = next_generation w -> pending y = None ->
  (forall g, seen y = Some g -> g < next_generation w /\
    forall t' x', tasks w !! t' = Some x' -> pending x' <> Some g) ->
  (forall ref g e, resolved y = Some (ref, g, e) -> g = generation (state w) -> lookup_node (state w) ref = Ok e) ->
  generations_ok w'.
Proof.
  intros [H1 H2 H3 H4 H5] Hup Hnext Hp Hs Hr. pose proof (fun t1 x1 => updated _ _ _ _ t1 x1 Hup) as Hcase.
  split; rewrite ?(up_state _ _ _ _ Hup), ?Hnext; [done|..].
  - intros t' x' g Hx Hg. apply Hcase in Hx as [[-> ->]|[_ Hx]]; [congruence|by apply (H2 t' x')].
  - intros t1 t2 x1 x2 g Hx1 Hx2 Hg1 Hg2.
    apply Hcase in Hx1 as [[-> ->]|[_ Hx1]]; [congruence|].
    apply Hcase in Hx2 as [[-> ->]|[_ Hx2]]; [congruence|]. by apply (H3 t1 t2 x1 x2 g).
  - intros t' x' g Hx Hg. assert (g < next_generation w /\
      forall t' x', tasks w !! t' = Some x' -> pending x' <> Some g) as [Hlt Hno].
    { apply Hcase in Hx as [[-> ->]|[_ Hx]]; [by apply Hs|by apply (H4 t' x')]. }
    split; [done|]. intros t2 x2 Hx2 Hg2. apply Hcase in Hx2 as [[-> ->]|[_ Hx2]]; [congruence|]. by apply (Hno t2 x2).
  - intros t' x' ref g e Hx Hg Heq. apply Hcase in Hx as [[-> ->]|[_ Hx]]; [by apply (Hr ref g e)|by apply (H5 t' x' ref g e)].
Qed.

Lemma updates_owned w t y w' e :
  updates w t y w' -> (e ∈ old_drains w t -> e ∈ drains y) -> owned w e -> owned w' e.
Proof.
  intros [Hs Ht] Hd [Hkey|(t' & x' & Hx & He)].
  - left. by rewrite Hs.
  - right. rewrite Ht. destruct (decide (t' = t)) as [->|Hne].
    + exists t, y. rewrite lookup_insert_eq. split; [done|]. apply Hd. unfold old_drains. by rewrite Hx.
    + exists t', x'. by rewrite lookup_insert_ne.
Qed.

Lemma updates_ok w t y w' :
  pool_ok w -> updates w t y w' -> generations_ok w' ->
  (forall p, prepared y = Some p -> prepared_ok p) ->
  (forall p, y = Activating p \/ (exists r, y = Storing p r) -> default_runtime p = None) ->
  locks_ok w' -> live_ok (at_place w') (started w') (stopped w') ->
  (forall e entry r, heap w' !! e = Some entry -> runtime entry = Some r -> owned w' e) ->
  (forall t' x e, tasks w' !! t' = Some x -> installs x = Some e -> owned w' e) ->
  pool_ok w'.
Proof.
  intros Hok Hup Hgen Hprep Hact Hlocks Hlive Howned Hinst. split; [done|done| | |done..].
  - intros t' x' p Hx Hpp. apply (updated _ _ _ _ _ _ Hup) in Hx as [[-> ->]|[_ Hx]]; [by apply Hprep|].
    by apply (pk_prepared _ Hok t' x').
  - intros t' p Hx. destruct (decide (t' = t)) as [->|Hne].
    + apply Hact. rewrite (up_tasks _ _ _ _ Hup), lookup_insert_eq in Hx.
      destruct Hx as [[= ->]|[r [= ->]]]; [by left|right; by exists r].
    + apply (pk_activating _ Hok t'). by rewrite (up_tasks _ _ _ _ Hup), lookup_insert_ne in Hx by done.
Qed.

(** **** Mutexes *)
Lemma locks_updates w t y w' :
  locks_ok w -> updates w t y w' -> heap w' = heap w -> holding y = before w t holding ->
  (forall e, e ∈ drains y -> (e < length (heap w))%nat) ->
  (forall ref g e, resolved y = Some (ref, g, e) -> (e < length (heap w))%nat) -> locks_ok w'.
Proof.
  intros [H1 H2 H3 H4 H5] Hup Hh Hhold Hd Hr. pose proof (fun t1 x1 => updated _ _ _ _ t1 x1 Hup) as Hcase.
  split; rewrite ?(up_state _ _ _ _ Hup), ?Hh; [done|..].
  - intros t' x' e Hx He. apply Hcase in Hx as [[-> ->]|[_ Hx]]; [by apply Hd|by apply (H2 t' x')].
  - intros t' x' ref g e Hx He. apply Hcase in Hx as [[-> ->]|[_ Hx]]; [by apply (Hr ref g)|by apply (H3 t' x' ref g)].
  - intros e entry t' He Ht. destruct (H4 e entry t' He Ht) as (x & Hx & Hxe).
    rewrite (up_tasks _ _ _ _ Hup). destruct (decide (t' = t)) as [->|Hne].
    + exists y. rewrite lookup_insert_eq, Hhold. split; [done|]. unfold before. by rewrite Hx.
    + exists x. by rewrite lookup_insert_ne.
  - intros t' x' e Hx He. apply Hcase in Hx as [[-> ->]|[_ Hx]]; [|by apply (H5 t' x')].
    rewrite Hhold in He. unfold before in He. destruct (tasks w !! t) as [x|] eqn:Hx; [|done]. by apply (H5 t x).
Qed.

(** A task takes a free mutex, or gives back the one it has. *)
Lemma locks_entry w t x y w' e entry r h :
  locks_ok w -> updates w t y w' -> tasks w !! t = Some x -> heap w !! e = Some entry ->
  heap w' = <[e := {| entry_alias := entry_alias entry; entry_configuration := entry_configuration entry;
                      runtime := r; holder := h |}]> (heap w) ->
  (holding x = None /\ holder entry = None /\ h = Some t /\ holding y = Some e /\ r = None) \/
  (holding x = Some e /\ h = None /\ holding y = None) ->
  (forall e', e' ∈ drains y -> (e' < length (heap w))%nat) ->
  (forall ref g e', resolved y = Some (ref, g, e') -> (e' < length (heap w))%nat) -> locks_ok w'.
Proof.
  intros [H1 H2 H3 H4 H5] Hup Hx He Hh Hhow Hd Hr. pose proof (fun t1 x1 => updated _ _ _ _ t1 x1 Hup) as Hcase.
  assert (length (heap w') = length (heap w)) as Hlen by (by rewrite Hh, length_insert).
  assert (e < length (heap w))%nat as Hlt by (by eapply lookup_lt_Some).
  split; rewrite ?(up_state _ _ _ _ Hup), ?Hlen; [done|..].
  - intros t' x' e' Hx' He'. apply Hcase in Hx' as [[-> ->]|[_ Hx']]; [by apply Hd|by apply (H2 t' x')].
  - intros t' x' ref g e' Hx' He'. apply Hcase in Hx' as [[-> ->]|[_ Hx']]; [by apply (Hr ref g)|by apply (H3 t' x' ref g)].
  - intros e' entry' t'. rewrite Hh, (up_tasks _ _ _ _ Hup). destruct (decide (e' = e)) as [->|Hne].
    + rewrite list_lookup_insert_eq by done. intros [= <-]. cbn. intros ->.
      destruct Hhow as [(_ & _ & [= ->] & Hy & _)|(_ & [=] & _)]. exists y. by rewrite lookup_insert_eq.
    + rewrite list_lookup_insert_ne by done. intros He' Ht'. destruct (H4 _ _ _ He' Ht') as (x' & Hx' & Hxe).
      destruct (decide (t' = t)) as [->|Hnt]; [|exists x'; by rewrite lookup_insert_ne].
      assert (x' = x) as -> by congruence. destruct Hhow as [(Hn & _)|(Hn & _)]; congruence.
  - intros t' x' e' Hx' He'. rewrite Hh. apply Hcase in Hx' as [[-> ->]|[Hnt Hx']].
    + destruct Hhow as [(_ & _ & -> & Hy & ->)|(_ & _ & Hy)]; [|congruence].
      assert (e' = e) as -> by congruence. rewrite list_lookup_insert_eq by done. by eexists.
    + destruct (H5 _ _ _ Hx' He') as (entry' & Hl & Hho & Hrt). destruct (decide (e' = e)) as [->|Hne].
      * assert (entry' = entry) as -> by congruence. destruct Hhow as [(_ & Hn & _)|(Hn & _)]; [congruence|].
        destruct (H5 _ _ _ Hx Hn) as (entry' & Hl' & Hho' & _). congruence.
      * rewrite list_lookup_insert_ne by done. by exists entry'.
Qed.

(** **** Where the runtimes are *)
Lemma at_updates w t y w' l :
  updates w t y w' -> heap w' = heap w ->
  at_place w' l = if decide (l = InTask t) then hand y else at_place w l.
Proof.
  intros Hup Hh. destruct l as [e|t']; cbn; [by rewrite Hh|]. rewrite (up_tasks _ _ _ _ Hup).
  destruct (decide (InTask t' = InTask t)) as [[= ->]|Hne]; [by rewrite lookup_insert_eq|].
  rewrite lookup_insert_ne; [done|congruence].
Qed.
Lemma at_entry w t y w' e entry entry' l :
  updates w t y w' -> heap w !! e = Some entry -> heap w' = <[e := entry']> (heap w) ->
  at_place w' l = if decide (l = InTask t) then hand y
                  else if decide (l = InEntry e) then runtime entry' else at_place w l.
Proof.
  intros Hup He Hh. apply lookup_lt_Some in He. destruct l as [e'|t']; cbn.
  - rewrite Hh, (decide_False (P := InEntry e' = InTask t)) by done. destruct (decide (e' = e)) as [->|Hne].
    + rewrite list_lookup_insert_eq by done. by rewrite decide_True.
    + rewrite list_lookup_insert_ne by done. rewrite decide_False; [done|congruence].
  - rewrite (up_tasks _ _ _ _ Hup).
    destruct (decide (InTask t' = InTask t)) as [[= ->]|Hne]; [by rewrite lookup_insert_eq|].
    rewrite lookup_insert_ne; [done|congruence].
Qed.

(** What a task may have read, resolved and have left to stop. *)
Record follows (w : World) (t : nat) (y : Task) : Prop := {
  fo_pending : pending y = None;
  fo_seen : seen y = None \/ seen y = before w t seen \/ seen y = Some (generation (state w));
  fo_resolved : resolved y = None \/ resolved y = before w t resolved \/
    exists ref g e, resolved y = Some (ref, g, e) /\ lookup_node (state w) ref = Ok e;
  fo_prepared : forall p, prepared y = Some p -> prepared_ok p;
  fo_activating : forall p, y = Activating p \/ (exists r, y = Storing p r) -> default_runtime p = None;
  fo_drains : forall e, e ∈ drains y -> e ∈ old_drains w t
}.

Lemma lookup_node_in s ref e : lookup_node s ref = Ok e -> exists key, nodes s !! key = Some e.
Proof.
  unfold lookup_node. intros (key & _ & H)%and_then_Ok. exists key. by destruct (nodes s !! key) as [x|]; [injection H as ->|].
Qed.

Section follows.
Context (w : World) (t : nat) (y : Task) (Hok : pool_ok w) (Hfo : follows w t y).

Lemma follows_seen g : seen y = Some g ->
  g < next_generation w /\ forall t' x', tasks w !! t' = Some x' -> pending x' <> Some g.
Proof.
  intros Hg. destruct (pk_generations _ Hok) as [H1 H2 _ H4 _]. destruct (fo_seen _ _ _ Hfo) as [Hn|[Ho|Hn]].
  - congruence.
  - rewrite Ho in Hg. unfold before in Hg. destruct (tasks w !! t) as [x|] eqn:Hx; [|done]. by apply (H4 t x).
  - assert (g = generation (state w)) as -> by congruence. split; [done|]. intros t' x' Hx' Hp.
    by destruct (H2 _ _ _ Hx' Hp).
Qed.
Lemma follows_resolved ref g e : resolved y = Some (ref, g, e) ->
  (g = generation (state w) -> lookup_node (state w) ref = Ok e) /\ (e < length (heap w))%nat.
Proof.
  intros Hg. destruct (fo_resolved _ _ _ Hfo) as [Hn|[Ho|(ref' & g' & e' & Hr & Hl)]].
  - congruence.
  - rewrite Ho in Hg. unfold before in Hg. destruct (tasks w !! t) as [x|] eqn:Hx; [|done].
    split; [by apply (go_resolved _ (pk_generations _ Hok) t x)|by apply (lo_resolved _ (pk_locks _ Hok) t x ref g)].
  - assert (ref' = ref /\ e' = e) as [-> ->] by (split; congruence). split; [done|].
    apply lookup_node_in in Hl as [key Hl]. by apply (lo_nodes _ (pk_locks _ Hok) key).
Qed.
Lemma follows_drains e : e ∈ drains y -> (e < length (heap w))%nat.
Proof.
  intros He%(fo_drains _ _ _ Hfo). unfold old_drains in He. destruct (tasks w !! t) as [x|] eqn:Hx.
  - by apply (lo_drains _ (pk_locks _ Hok) t x).
  - by apply elem_of_nil in He.
Qed.

Lemma follows_generations w' : updates w t y w' -> next_generation w' = next_generation w -> generations_ok w'.
Proof.
  intros Hup Hnext. apply (updates_generations w t y w'); [apply Hok|done|done|apply Hfo|apply follows_seen|].
  intros ref g e Hg. by apply (follows_resolved ref g e).
Qed.

(** A step that moves a task on: it leaves the mutexes alone, but may start a
    runtime. *)
Lemma follows_ok n s w' :
  updates w t y w' -> next_generation w' = next_generation w -> heap w' = heap w ->
  holding y = before w t holding -> started w' = n -> stopped w' = s ->
  live_ok (fun l => if decide (l = InTask t) then hand y else at_place w l) n s ->
  (forall e, e ∈ old_drains w t -> e ∉ drains y ->
     exists entry, heap w !! e = Some entry /\ runtime entry = None /\ holder entry = None) ->
  (forall e, installs y = Some e -> exists key, nodes (state w) !! key = Some e) ->
  pool_ok w'.
Proof.
  intros Hup Hnext Hh Hhold <- <- Hlive Hpop Hinst.
  assert (forall e, owned w e -> (e ∈ old_drains w t -> e ∉ drains y -> False) -> owned w' e) as Hkeep.
  { intros e Ho Hd. apply (updates_owned w t y w' e Hup); [|done]. intros He.
    destruct (decide (e ∈ drains y)); [done|]. by destruct Hd. }
  apply (updates_ok w t y w' Hok Hup); [by apply follows_generations|..].
  - apply Hfo.
  - apply Hfo.
  - apply (locks_updates w t y w'); [apply Hok|done|done|done|apply follows_drains|].
    intros ref g e Hg. by apply (follows_resolved ref g e).
  - eapply live_ext; [|exact Hlive]. intros l. by rewrite (at_updates w t y w' l Hup Hh).
  - intros e entry r. rewrite Hh. intros He Hr. apply Hkeep; [by apply (pk_owned _ Hok e entry r)|].
    intros Hd Hn. destruct (Hpop e Hd Hn) as (entry' & He' & Hr' & _). congruence.
  - intros t' x e Hx He. apply (updated _ _ _ _ _ _ Hup) in Hx as [[-> ->]|[Hne Hx]].
    + left. rewrite (up_state _ _ _ _ Hup). by apply Hinst.
    + apply Hkeep; [by apply (pk_installs _ Hok t' x)|]. intros Hd Hn.
      destruct (Hpop e Hd Hn) as (entry & He' & _ & Hho).
      destruct (lo_holding _ (pk_locks _ Hok) t' x e Hx) as (entry' & He2 & Hho' & _); [by destruct x|congruence].
Qed.

(** A step that takes or gives back the mutex of entry [e]. *)
Lemma follows_entry x w' e entry r h :
  tasks w !! t = Some x -> updates w t y w' -> next_generation w' = next_generation w ->
  heap w !! e = Some entry -> heap w' = <[e := {| entry_alias := entry_alias entry; entry_configuration := entry_configuration entry;
                      runtime := r; holder := h |}]> (heap w) ->
  (holding x = None /\ holder entry = None /\ h = Some t /\ holding y = Some e /\ r = None) \/
  (holding x = Some e /\ h = None /\ holding y = None) ->
  live_ok (fun l => if decide (l = InTask t) then hand y else if decide (l = InEntry e) then r else at_place w l)
    (started w') (stopped w') ->
  (forall e', e' ∈ drains x -> e' <> e -> e' ∈ drains y) -> installs y = None ->
  (is_Some r -> owned w e /\ (e ∈ drains x -> e ∈ drains y)) ->
  pool_ok w'.
Proof.
  intros Hx Hup Hnext He Hh Hhow Hlive Hdr Hinst Hrt.
  assert (old_drains w t = drains x) as Hold by (unfold old_drains; by rewrite Hx).
  assert (forall t' x' e', t' <> t -> tasks w !! t' = Some x' -> installs x' = Some e' -> e' <> e) as Hother.
  { intros t' x' e' Hne Hx' Hi ->.
    destruct (lo_holding _ (pk_locks _ Hok) t' x' e Hx') as (entry' & He' & Hho & _); [by destruct x'|].
    destruct Hhow as [(_ & Hn & _)|(Hhx & _)]; [congruence|].
    destruct (lo_holding _ (pk_locks _ Hok) t x e Hx Hhx) as (entry2 & He2 & Hho2 & _). congruence. }
  apply (updates_ok w t y w' Hok Hup); [by apply follows_generations|..].
  - apply Hfo.
  - apply Hfo.
  - apply (locks_entry w t x y w' e entry r h); [apply Hok|done..|apply follows_drains|].
    intros ref g e' Hg. by apply (follows_resolved ref g e').
  - eapply live_ext; [|exact Hlive]. intros l. by rewrite (at_entry w t y w' e entry _ l Hup He Hh).
  - intros e' entry' r'. rewrite Hh. destruct (decide (e' = e)) as [->|Hne].
    + rewrite list_lookup_insert_eq by (by eapply lookup_lt_Some). intros [= <-]. cbn. intros ->.
      destruct (Hrt (mk_is_Some _ _ eq_refl)) as [Ho Hd]. apply (updates_owned w t y w' e Hup); [by rewrite Hold|done].
    + rewrite list_lookup_insert_ne by done. intros He' Hr'. apply (updates_owned w t y w' e' Hup).
      * rewrite Hold. intros Hd. by apply Hdr.
      * by apply (pk_owned _ Hok e' entry' r').
  - intros t' x' e' Hx' Hi. apply (updated _ _ _ _ _ _ Hup) in Hx' as [[-> ->]|[Hne Hx']]; [congruence|].
    apply (updates_owned w t y w' e' Hup).
    + rewrite Hold. intros Hd. apply Hdr; [done|]. by apply (Hother t' x').
    + by apply (pk_installs _ Hok t' x').
Qed.
End follows.

(** **** The steps *)
Section steps.
Context (w : World) (t : nat) (x : Task) (Hok : pool_ok w) (Hx : tasks w !! t = Some x).

Lemma at_task : at_place w (InTask t) = hand x.
Proof. cbn. by rewrite Hx. Qed.
Lemma before_task {A} (f : Task -> option A) : before w t f = f x.
Proof. unfold before. by rewrite Hx. Qed.
Lemma drains_task : old_drains w t = drains x.
Proof. unfold old_drains. by rewrite Hx. Qed.

(** Nothing is started, stopped, taken or given back. *)
Lemma quiet_ok y :
  follows w t y -> holding y = holding x -> hand y = hand x -> (forall e, e ∈ drains x -> e ∈ drains y) ->
  (forall e, installs y = Some e -> exists key, nodes (state w) !! key = Some e) ->
  pool_ok (put t y w).
Proof.
  intros Hfo Hhold Hhand Hdr Hinst.
  apply (follows_ok w t y Hok Hfo (started w) (stopped w) (put t y w)); try done.
  - by rewrite before_task.
  - eapply live_ext; [|apply Hok]. intros l. cbn beta. case_decide as Hl; [|done]. subst l. by rewrite at_task.
  - intros e. rewrite drains_task. intros He Hn. destruct Hn. by apply Hdr.
Qed.

Lemma pool_start_ok y :
  follows w t y -> holding y = holding x -> hand x = None -> hand y = Some (started w) ->
  drains x = [] -> installs y = None -> pool_ok (put t y (count_start w)).
Proof.
  intros Hfo Hhold Hnone Hhand Hdr Hinst.
  apply (follows_ok w t y Hok Hfo (S (started w)) (stopped w) (put t y (count_start w))); try done.
  - by rewrite before_task.
  - apply (live_start (at_place w) _ _ _ (InTask t)); [by rewrite at_task| | |apply Hok].
    + by rewrite decide_True.
    + intros k Hk. by rewrite decide_False.
  - intros e. rewrite drains_task, Hdr. intros He. by apply elem_of_nil in He.
  - congruence.
Qed.

(** The task takes the mutex of an entry, and the runtime out of it. *)
Lemma acquire_ok y e entry :
  follows w t y -> heap w !! e = Some entry -> holder entry = None -> holding x = None -> hand x = None ->
  holding y = Some e -> hand y = runtime entry -> (forall e', e' ∈ drains x -> e' <> e -> e' ∈ drains y) ->
  installs y = None -> pool_ok (put t y (set_entry e None (Some t) w)).
Proof.
  intros Hfo He Hho Hhx Hnone Hhy Hhand Hdr Hinst. unfold set_entry. rewrite He.
  eapply (follows_entry w t y Hok Hfo x _ e entry None (Some t) Hx); try done.
  - by left.
  - destruct (runtime entry) as [r|] eqn:Hr.
    + eapply (live_move (at_place w) _ _ _ (InEntry e) (InTask t) r); [cbn; by rewrite He| | | |apply Hok].
      * by rewrite decide_True.
      * intros _. rewrite at_task. split; [done|]. by rewrite decide_False, decide_True.
      * intros k Hk Hk'. by rewrite !decide_False.
    + eapply live_ext; [|apply Hok]. intros l. cbn beta. case_decide as Hl; [subst l; by rewrite at_task, Hhand|].
      case_decide as Hl'; [|done]. subst l. cbn. by rewrite He.
Qed.

(** The task gives the mutex back, with a runtime in the entry or not. *)
Lemma release_entry y e r w' :
  follows w t y -> holding x = Some e -> holding y = None -> updates w t y w' ->
  next_generation w' = next_generation w ->
  (forall e', e' ∈ drains x -> e' ∈ drains y) -> installs y = None -> (is_Some r -> owned w e) ->
  (forall entry, heap w !! e = Some entry -> runtime entry = None ->
    heap w' = <[e := {| entry_alias := entry_alias entry; entry_configuration := entry_configuration entry;
                        runtime := r; holder := None |}]> (heap w) /\
    live_ok (fun l => if decide (l = InTask t) then hand y else if decide (l = InEntry e) then r else at_place w l)
      (started w') (stopped w')) ->
  pool_ok w'.
Proof.
  intros Hfo Hhx Hhy Hup Hnext Hdr Hinst Hrt Hrest.
  destruct (lo_holding _ (pk_locks _ Hok) t x e Hx Hhx) as (entry & He & Hho & Hr).
  destruct (Hrest entry He Hr) as [Hh Hlive].
  apply (follows_entry w t y Hok Hfo x w' e entry r None Hx); try done.
  - by right.
  - intros e' He' _. by apply Hdr.
  - intros Hs. split; [by apply Hrt|]. apply Hdr.
Qed.

Lemma release_ok y e :
  follows w t y -> holding x = Some e -> holding y = None -> hand x = None -> hand y = None ->
  (forall e', e' ∈ drains x -> e' ∈ drains y) -> installs y = None ->
  pool_ok (put t y (set_entry e None None w)).
Proof.
  intros Hfo Hhx Hhy Hnone Hhand Hdr Hinst.
  destruct (lo_holding _ (pk_locks _ Hok) t x e Hx Hhx) as (entry & He & _).
  unfold set_entry. cbn [heap stop_runtime]. rewrite He.
  apply (release_entry y e None); try done.
  intros entry' He' Hr. assert (entry' = entry) as -> by congruence. split; [done|].
  eapply live_ext; [|apply Hok]. intros l. cbn beta. case_decide as Hl; [subst l; by rewrite at_task, Hhand|].
  case_decide as Hl'; [|done]. subst l. cbn. by rewrite He.
Qed.

Lemma install_ok y e r :
  follows w t y -> holding x = Some e -> holding y = None -> hand x = Some r -> hand y = None ->
  (forall e', e' ∈ drains x -> e' ∈ drains y) -> installs y = None -> owned w e ->
  pool_ok (put t y (set_entry e (Some r) None w)).
Proof.
  intros Hfo Hhx Hhy Hhandx Hhand Hdr Hinst Ho.
  destruct (lo_holding _ (pk_locks _ Hok) t x e Hx Hhx) as (entry & He & _).
  unfold set_entry. cbn [heap stop_runtime]. rewrite He.
  apply (release_entry y e (Some r)); try done.
  intros entry' He' Hr. assert (entry' = entry) as -> by congruence. split; [done|].
  eapply (live_move (at_place w) _ _ _ (InTask t) (InEntry e) r); [by rewrite at_task| | | |apply Hok].
  - by rewrite decide_False, decide_True.
  - intros _. cbn. rewrite He. split; [done|]. by rewrite decide_True.
  - intros k Hk Hk'. by rewrite !decide_False.
Qed.

Lemma pool_stop_ok y e r :
  follows w t y -> holding x = Some e -> holding y = None -> hand x = Some r -> hand y = None ->
  (forall e', e' ∈ drains x -> e' ∈ drains y) -> installs y = None ->
  pool_ok (put t y (set_entry e None None (stop_runtime r w))).
Proof.
  intros Hfo Hhx Hhy Hhandx Hhand Hdr Hinst.
  destruct (lo_holding _ (pk_locks _ Hok) t x e Hx Hhx) as (entry & He & _).
  unfold set_entry. cbn [heap stop_runtime]. rewrite He.
  apply (release_entry y e None); try done.
  intros entry' He' Hr. assert (entry' = entry) as -> by congruence. split; [done|].
  eapply (live_stop (at_place w) _ _ _ (InTask t) r); [by rewrite at_task| | |apply Hok].
  - by rewrite decide_True.
  - intros k Hk. rewrite decide_False by done. case_decide as Hl; [|done]. subst k. cbn. by rewrite He.
Qed.
End steps.

(** **** Generations *)
Lemma numbering_ok w t p :
  pool_ok w -> tasks w !! t = Some (Numbering p) -> next_generation w < U64_MAX ->
  pool_ok (put t (Replacing p (next_generation w)) (fetch_add w)).
Proof.
  intros Hok Hx Hmax. set (w' := put t (Replacing p (next_generation w)) (fetch_add w)).
  assert (next_generation w' = next_generation w + 1) as Hnext by (cbn; rewrite N.mod_small; lia).
  assert (updates w t (Replacing p (next_generation w)) w') as Hup by done.
  pose proof (fun t1 x1 => updated _ _ _ _ t1 x1 Hup) as Hcase.
  destruct (pk_generations _ Hok) as [H1 H2 H3 H4 H5].
  apply (updates_ok w t _ w' Hok Hup).
  - split; rewrite ?Hnext; cbn [state w' put fetch_add].
    + lia.
    + intros t' x' g Hx' Hg. apply Hcase in Hx' as [[-> ->]|[_ Hx']].
      * injection Hg as <-. lia.
      * destruct (H2 _ _ _ Hx' Hg). split; [lia|done].
    + intros t1 t2 x1 x2 g Hx1 Hx2 Hg1 Hg2.
      apply Hcase in Hx1 as [[-> ->]|[_ Hx1]]; apply Hcase in Hx2 as [[-> ->]|[_ Hx2]]; [done|..].
      * injection Hg1 as <-. destruct (H2 _ _ _ Hx2 Hg2). lia.
      * injection Hg2 as <-. destruct (H2 _ _ _ Hx1 Hg1). lia.
      * by apply (H3 t1 t2 x1 x2 g).
    + intros t' x' g Hx' Hg. apply Hcase in Hx' as [[-> ->]|[_ Hx']]; [done|].
      destruct (H4 _ _ _ Hx' Hg) as [Hlt Hno]. split; [lia|].
      intros t2 x2 Hx2 Hg2. apply Hcase in Hx2 as [[-> ->]|[_ Hx2]]; [injection Hg2; lia|by apply (Hno t2 x2)].
    + intros t' x' ref g e Hx' Hg Heq. apply Hcase in Hx' as [[-> ->]|[_ Hx']]; [done|by apply (H5 t' x' ref g e)].
  - intros p' [= <-]. by apply (pk_prepared _ Hok t _ p Hx).
  - intros p' [Hy|[r Hy]]; discriminate.
  - apply (locks_updates w t _ w' (pk_locks _ Hok) Hup); [done|unfold before; by rewrite Hx| |done].
    intros e He. by apply elem_of_nil in He.
  - eapply live_ext; [|apply (pk_live _ Hok)]. intros l. rewrite (at_updates _ _ _ _ _ Hup) by done.
    case_decide as Hl; [|done]. subst l. cbn. by rewrite Hx.
  - intros e entry r He Hr. apply (updates_owned w t _ w' e Hup); [|by apply (pk_owned _ Hok e entry r)].
    unfold old_drains. by rewrite Hx.
  - intros t' x' e Hx' Hi. apply Hcase in Hx' as [[-> ->]|[_ Hx']]; [done|].
    apply (updates_owned w t _ w' e Hup); [|by apply (pk_installs _ Hok t' x')]. unfold old_drains. by rewrite Hx.
Qed.

(** **** Profiles *)
Lemma elem_of_values s e : e ∈ values s <-> exists key, nodes s !! key = Some e.
Proof.
  unfold values, ordered. rewrite merge_sort_Permutation, list_elem_of_fmap. split.
  - intros ([key x] & -> & Hx%elem_of_map_to_list). by exists key.
  - intros [key Hkey]. exists (key, e). split; [done|]. by apply elem_of_map_to_list.
Qed.

Lemma publish_nodes g p heap key e :
  nodes (publish g p heap).1 !! key = Some e <->
  exists i entry, ordered (prepared_nodes p) !! i = Some (key, entry) /\ e = (length heap + i)%nat.
Proof.
  cbn. set (l := ordered (prepared_nodes p)).
  assert (NoDup (zip l.*1 (seq (length heap) (length l))).*1) as Hnd.
  { rewrite fst_zip by (by rewrite length_fmap, length_seq). unfold l, ordered.
    rewrite merge_sort_Permutation. apply NoDup_fst_map_to_list. }
  rewrite <-elem_of_list_to_map by done. rewrite list_elem_of_lookup. apply exist_proper. intros i.
  rewrite lookup_zip_with, list_lookup_fmap. destruct (l !! i) as [[k entry]|] eqn:Hi; cbn.
  - assert (seq (length heap) (length l) !! i = Some (length heap + i)%nat) as ->.
    { apply lookup_seq. split; [done|]. by apply lookup_lt_Some in Hi. }
    cbn. split.
    + intros [= -> <-]. by exists entry.
    + by intros (entry' & [= -> ->] & ->).
  - split; [done|]. by intros (entry & ? & _).
Qed.

(** A profile takes the place of another, whose entries are left to stop. *)
Lemma replace_ok w t x s new o next :
  pool_ok w -> tasks w !! t = Some x -> drains x = [] -> holding x = None ->
  let w' := {| state := s; next_generation := next; heap := heap w ++ new;
               tasks := <[t := Draining (values (state w)) o]> (tasks w);
               started := started w; stopped := stopped w |} in
  next_generation w <= next -> generation s < next ->
  (forall t' x', t' <> t -> tasks w !! t' = Some x' -> pending x' <> Some (generation s) /\ seen x' <> Some (generation s)) ->
  (forall key e, nodes s !! key = Some e -> (length (heap w) <= e < length (heap w'))%nat) ->
  Forall (fun entry => holder entry = None) new ->
  (forall i entry, new !! i = Some entry -> exists key, nodes s !! key = Some (length (heap w) + i)%nat) ->
  live_ok (at_place w') (started w) (stopped w) ->
  pool_ok w'.
Proof.
  intros Hok Hx Hdr Hhx w' Hnext Hs Hfresh Hnodes Hfree Hnew Hlive.
  assert (forall t' x', tasks w' !! t' = Some x' ->
    (t' = t /\ x' = Draining (values (state w)) o) \/ (t' <> t /\ tasks w !! t' = Some x')) as Hcase.
  { intros t' x'. cbn. destruct (decide (t' = t)) as [->|Hne]; [rewrite lookup_insert_eq|rewrite lookup_insert_ne by done].
    - intros [= <-]. by left.
    - by right. }
  destruct (pk_generations _ Hok) as [H1 H2 H3 H4 H5].
  assert (forall e, owned w e -> owned w' e) as Howned.
  { intros e [Hkey|(t' & x' & Hx' & He)].
    - right. exists t, (Draining (values (state w)) o). cbn. rewrite lookup_insert_eq. split; [done|].
      by apply elem_of_values.
    - right. exists t', x'. destruct (decide (t' = t)) as [->|Hne]; [|cbn; by rewrite lookup_insert_ne].
      assert (x' = x) as -> by congruence. rewrite Hdr in He. by apply elem_of_nil in He. }
  split.
  - split.
    + done.
    + intros t' x' g Hx' Hg. apply Hcase in Hx' as [[-> ->]|[Hne Hx']]; [done|]. cbn.
      destruct (H2 _ _ _ Hx' Hg). split; [lia|]. intros ->. by apply (proj1 (Hfresh t' x' Hne Hx')).
    + intros t1 t2 x1 x2 g Hx1 Hx2 Hg1 Hg2. apply Hcase in Hx1 as [[-> ->]|[_ Hx1]]; [done|].
      apply Hcase in Hx2 as [[-> ->]|[_ Hx2]]; [done|]. by apply (H3 t1 t2 x1 x2 g).
    + intros t' x' g Hx' Hg. apply Hcase in Hx' as [[-> ->]|[Hne Hx']]; [done|]. cbn.
      destruct (H4 _ _ _ Hx' Hg) as [Hlt Hno]. split; [lia|]. intros t2 x2 Hx2 Hg2.
      apply Hcase in Hx2 as [[-> ->]|[_ Hx2]]; [done|]. by apply (Hno t2 x2).
    + intros t' x' ref g e Hx' Hr Heq. apply Hcase in Hx' as [[-> ->]|[Hne Hx']]; [done|].
      destruct (Hfresh t' x' Hne Hx') as [_ Hn]. destruct Hn. cbn in Heq. rewrite <-Heq.
      by apply (resolved_seen x' ref g e).
  - destruct (pk_locks _ Hok) as [L1 L2 L3 L4 L5]. split.
    + intros key e Hkey. exact (proj2 (Hnodes key e Hkey)).
    + intros t' x' e Hx' He. cbn. rewrite length_app. apply Hcase in Hx' as [[-> ->]|[Hne Hx']].
      * apply elem_of_values in He as [key He]. apply L1 in He. lia.
      * pose proof (L2 t' x' e Hx' He). lia.
    + intros t' x' ref g e Hx' He. cbn. rewrite length_app. apply Hcase in Hx' as [[-> ->]|[Hne Hx']]; [done|].
      pose proof (L3 t' x' ref g e Hx' He). lia.
    + intros e entry t' He Ht'. cbn in He. apply lookup_app_Some in He as [He|[_ He]].
      * destruct (L4 e entry t' He Ht') as (x' & Hx' & Hh). exists x'. split; [|done]. cbn.
        rewrite lookup_insert_ne; [done|]. intros <-. congruence.
      * rewrite Forall_lookup in Hfree. rewrite (Hfree _ _ He) in Ht'. done.
    + intros t' x' e Hx' He. apply Hcase in Hx' as [[-> ->]|[Hne Hx']]; [done|].
      destruct (L5 _ _ _ Hx' He) as (entry & Hl & Hh). exists entry. split; [|done]. cbn.
      by apply lookup_app_l_Some.
  - intros t' x' p Hx' Hp. apply Hcase in Hx' as [[-> ->]|[_ Hx']]; [done|]. by apply (pk_prepared _ Hok t' x').
  - intros t' p Hp. apply (pk_activating _ Hok t'). destruct (decide (t' = t)) as [->|Hne].
    + cbn in Hp. rewrite lookup_insert_eq in Hp. by destruct Hp as [|[r ?]].
    + cbn in Hp. by rewrite lookup_insert_ne in Hp.
  - done.
  - intros e entry r He Hr. cbn in He. apply lookup_app_Some in He as [He|[Hlen He]].
    + by apply Howned, (pk_owned _ Hok e entry r).
    + left. destruct (Hnew _ _ He) as [key Hkey]. exists key. cbn. rewrite Hkey. f_equal. lia.
  - intros t' x' e Hx' Hi. apply Hcase in Hx' as [[-> ->]|[_ Hx']]; [done|].
    by apply Howned, (pk_installs _ Hok t' x').
Qed.

Lemma ordered_lookup {A} (m : gmap Str A) key a :
  m !! key = Some a <-> exists i, ordered m !! i = Some (key, a).
Proof.
  rewrite <-list_elem_of_lookup. unfold ordered. rewrite merge_sort_Permutation. symmetry. apply elem_of_map_to_list.
Qed.
Lemma ordered_inj {A} (m : gmap Str A) i j key a b :
  ordered m !! i = Some (key, a) -> ordered m !! j = Some (key, b) -> i = j.
Proof.
  intros Hi Hj. assert (NoDup (ordered m).*1) as Hnd.
  { unfold ordered. rewrite merge_sort_Permutation. apply NoDup_fst_map_to_list. }
  apply (NoDup_lookup _ i j key Hnd); rewrite list_lookup_fmap; [by rewrite Hi|by rewrite Hj].
Qed.

(** The runtime a task has prepared moves to the entry of the default node. *)
Lemma publish_live w t p (tasks' : gmap nat Task) s next :
  live_ok (at_place w) (started w) (stopped w) -> prepared_ok p ->
  at_place w (InTask t) = default_runtime p -> tasks' !! t ≫= hand = None ->
  (forall t', t' <> t -> tasks' !! t' = tasks w !! t') ->
  live_ok (at_place {| state := s; next_generation := next; heap := heap w ++ (ordered (prepared_nodes p)).*2;
                       tasks := tasks'; started := started w; stopped := stopped w |}) (started w) (stopped w).
Proof.
  intros Hlive [[d Hd] _ Hothers] Ht Ht' Htasks. unfold default_runtime in Ht. rewrite Hd in Ht. cbn [mbind option_bind] in Ht.
  pose proof Hd as [i Hi]%ordered_lookup. set (f := at_place _).
  assert (forall t', t' <> t -> f (InTask t') = at_place w (InTask t')) as Htask.
  { intros t' Hne. cbn. by rewrite Htasks. }
  assert (forall e, InEntry e <> InEntry (length (heap w) + i) -> f (InEntry e) = at_place w (InEntry e)) as Hentry.
  { intros e Hne. cbn. destruct (decide (e < length (heap w))%nat) as [Hlt|Hge].
    - by rewrite lookup_app_l.
    - rewrite lookup_app_r by lia. rewrite (lookup_ge_None_2 (heap w) e) by lia. cbn.
      rewrite list_lookup_fmap.
      destruct (ordered (prepared_nodes p) !! (e - length (heap w))%nat) as [[key entry]|] eqn:Hj; [|done]. cbn.
      apply (Hothers key); [by apply ordered_lookup; eexists|]. intros ->.
      apply Hne. f_equal. pose proof (ordered_inj _ _ _ _ _ _ Hj Hi). lia. }
  assert (f (InEntry (length (heap w) + i)) = runtime d) as Hnew.
  { cbn. rewrite lookup_app_r by lia. replace (length (heap w) + i - length (heap w))%nat with i by lia.
    by rewrite list_lookup_fmap, Hi. }
  assert (at_place w (InEntry (length (heap w) + i)) = None) as Hold
    by (cbn; by rewrite (lookup_ge_None_2 (heap w)) by lia).
  destruct (runtime d) as [r|] eqn:Hr.
  - apply (live_move (at_place w) f _ _ (InTask t) (InEntry (length (heap w) + i)) r Ht Hnew); [|..|done].
    + intros _. split; [done|]. done.
    + intros [e|t'] Hk Hk'; [by apply Hentry|]. apply Htask. congruence.
  - eapply live_ext; [|exact Hlive]. intros [e|t'].
    + destruct (decide (e = length (heap w) + i)%nat) as [->|Hne]; [by rewrite Hold, Hnew|]. symmetry. apply Hentry. congruence.
    + destruct (decide (t' = t)) as [->|Hne]; [|symmetry; by apply Htask]. rewrite Ht. symmetry. exact Ht'.
Qed.

Lemma replacing_ok w t p g :
  pool_ok w -> tasks w !! t = Some (Replacing p g) ->
  pool_ok (put t (Draining (values (state w)) (Some g))
    (set_state (publish g p (heap w)).1 (set_heap (publish g p (heap w)).2 w))).
Proof.
  intros Hok Hx. pose proof (pk_prepared _ Hok t _ p Hx eq_refl) as Hp.
  destruct (pk_generations _ Hok) as [H1 H2 H3 H4 _]. destruct (H2 t _ g Hx eq_refl) as [Hg Hne].
  apply (replace_ok w t _ (publish g p (heap w)).1 (ordered (prepared_nodes p)).*2 (Some g) (next_generation w) Hok Hx);
    try done.
  - intros t' x' Ht' Hx'. split.
    + intros Hp'. apply Ht'. by apply (H3 t' t x' (Replacing p g) g).
    + intros Hs. by apply (proj2 (H4 t' x' g Hx' Hs) t (Replacing p g)).
  - intros key e (i & entry & Hi & ->)%publish_nodes. cbn. rewrite length_app, length_fmap.
    apply lookup_lt_Some in Hi. lia.
  - apply Forall_fmap, Forall_forall. intros [key entry] Hin. apply list_elem_of_lookup in Hin as [i Hi].
    apply (po_free _ Hp key). apply ordered_lookup. by exists i.
  - intros i entry. rewrite list_lookup_fmap. destruct (ordered _ !! i) as [[key en]|] eqn:Hi; [|done].
    intros [= <-]. exists key. apply publish_nodes. by exists i, en.
  - apply (publish_live w t p); [apply Hok|done|cbn; by rewrite Hx|by rewrite lookup_insert_eq|].
    intros t' Ht'. by apply lookup_insert_ne.
Qed.

Lemma stopping_ok w t :
  pool_ok w -> tasks w !! t = Some Stopping -> next_generation w < U64_MAX ->
  pool_ok (put t (Draining (values (state w)) None)
    (fetch_add (set_state {| generation := next_generation w; default_node := []; nodes := ∅; aliases := ∅ |} w))).
Proof.
  intros Hok Hx Hmax. destruct (pk_generations _ Hok) as [H1 H2 H3 H4 _].
  set (s := {| generation := next_generation w; default_node := []; nodes := ∅; aliases := ∅ |}).
  pose proof (replace_ok w t _ s [] None ((next_generation w + 1) mod (U64_MAX + 1)) Hok Hx eq_refl eq_refl) as H.
  cbv zeta in H. rewrite app_nil_r in H. apply H; clear H.
  - rewrite N.mod_small; lia.
  - cbn. rewrite N.mod_small; lia.
  - intros t' x' Ht' Hx'. cbn. split; intros Hg.
    + destruct (H2 _ _ _ Hx' Hg). lia.
    + destruct (H4 _ _ _ Hx' Hg). lia.
  - intros key e Hkey. cbn in Hkey. by rewrite lookup_empty in Hkey.
  - constructor.
  - intros i entry Hi. by rewrite lookup_nil in Hi.
  - eapply live_ext; [|apply (pk_live _ Hok)]. intros [e|t']; [done|]. cbn.
    destruct (decide (t' = t)) as [->|Hne]; [rewrite lookup_insert_eq, Hx|rewrite lookup_insert_ne by done]; done.
Qed.

(** **** Calls *)
Definition entry_fresh (e : NodeEntry) : Prop := runtime e = None /\ holder e = None.

Lemma prepare_nodes_fresh l ids names entries names' entries' :
  prepare_nodes l ids names entries = Ok (names', entries') ->
  map_Forall (fun _ e => entry_fresh e) entries -> map_Forall (fun _ e => entry_fresh e) entries'.
Proof.
  revert ids names entries. induction l as [|node l IH]; intros ids names entries; cbn [prepare_nodes].
  - by intros [= <- <-].
  - destruct (_ || _); [done|]. intros Hl He. apply (IH _ _ _ Hl). by apply map_Forall_insert_2.
Qed.
Lemma prepare_fresh l default p :
  prepare l default = Ok p -> map_Forall (fun _ e => entry_fresh e) (prepared_nodes p).
Proof.
  unfold prepare. destruct (is_empty l); [done|].
  intros ([names entries] & Hp & (d & _ & [= <-])%and_then_Ok)%and_then_Ok.
  apply (prepare_nodes_fresh _ _ _ _ _ _ Hp). apply map_Forall_empty.
Qed.

Lemma call_activate l default p : call (CallActivate l default) = Activating p ->
  prepared_ok p /\ default_runtime p = None.
Proof.
  cbn. destruct (prepare l default) as [p'|] eqn:Hp; [|done]. destruct (prepared_nodes p' !! _) as [d|] eqn:Hd; [|done].
  intros [= <-]. pose proof (prepare_fresh _ _ _ Hp) as Hfresh. split; [split|].
  - by exists d.
  - intros key e He. by apply (Hfresh key e).
  - intros key e He _. by apply (Hfresh key e).
  - unfold default_runtime. rewrite Hd. by apply (Hfresh _ _ Hd).
Qed.

Lemma call_ok w t c : pool_ok w -> tasks w !! t = None -> pool_ok (put t (call c) w).
Proof.
  intros Hok Hx.
  assert (pending (call c) = None /\ seen (call c) = None /\ resolved (call c) = None /\ holding (call c) = None /\
    hand (call c) = None /\ drains (call c) = [] /\ installs (call c) = None) as (H1 & H2 & H3 & H4 & H5 & H6 & H7).
  { destruct c as [l d| | |]; cbn; try done. destruct (prepare l d) as [p|]; cbn; [|done].
    by destruct (prepared_nodes p !! _). }
  assert (follows w t (call c)) as Hfo.
  { split; [done|by left|by left| | |].
    - intros p Hp. destruct c as [l d| | |]; try done.
      destruct (call (CallActivate l d)) eqn:Hc; try done; try (cbn in Hc; destruct (prepare l d) as [p'|];
        [destruct (prepared_nodes p' !! _)|]; discriminate).
      injection Hp as ->. by apply (call_activate l d).
    - intros p [Hp|[r Hp]]; destruct c as [l d| | |]; try discriminate; [by apply (call_activate l d)|].
      cbn in Hp. destruct (prepare l d) as [p'|]; [destruct (prepared_nodes p' !! _)|]; discriminate.
    - intros e He. rewrite H6 in He. by apply elem_of_nil in He. }
  apply (follows_ok w t (call c) Hok Hfo (started w) (stopped w) (put t (call c) w)); try done.
  - unfold before. by rewrite Hx, H4.
  - eapply live_ext; [|apply Hok]. intros l. cbn beta. case_decide as Hl; [|done]. subst l. cbn. by rewrite Hx, H5.
  - intros e He. unfold old_drains in He. rewrite Hx in He. by apply elem_of_nil in He.
  - congruence.
Qed.

(** *** Every step keeps the invariant *)
Lemma follows_plain w t x y :
  tasks w !! t = Some x -> pending y = None ->
  seen y = None \/ seen y = seen x \/ seen y = Some (generation (state w)) ->
  resolved y = None \/ resolved y = resolved x \/
    (exists ref g e, resolved y = Some (ref, g, e) /\ lookup_node (state w) ref = Ok e) ->
  (prepared y = None \/ exists p, prepared y = Some p /\ prepared_ok p /\ (default_runtime p = None \/ y = Numbering p)) ->
  (forall e, e ∈ drains y -> e ∈ drains x) -> follows w t y.
Proof.
  intros Hx Hp Hs Hr Hprep Hd. split; [done| | | | |].
  - unfold before. by rewrite Hx.
  - unfold before. by rewrite Hx.
  - intros p Hpp. destruct Hprep as [Hn|(p' & Hp' & Hok & _)]; congruence.
  - intros p [->|[r ->]]; by destruct Hprep as [|(p' & [= ->] & _ & [?|?])].
  - unfold old_drains. by rewrite Hx.
Qed.

Lemma store_default_ok r p : prepared_ok p ->
  prepared_ok (store_default r p) /\ default_runtime (store_default r p) = Some r.
Proof.
  intros [[d Hd] H2 H3]. unfold default_runtime. cbn. rewrite lookup_alter_eq, Hd. split; [split|done]; cbn.
  - rewrite lookup_alter_eq, Hd. by eexists.
  - intros key e. destruct (decide (key = prepared_default p)) as [->|Hne].
    + rewrite lookup_alter_eq, Hd. intros [= <-]. by apply (H2 _ _ Hd).
    + rewrite lookup_alter_ne by done. apply H2.
  - intros key e He Hne. rewrite lookup_alter_ne in He by done. by apply (H3 key).
Qed.

Ltac plain := eapply follows_plain; [eassumption|done|auto|auto|auto|cbn; set_solver].

Section advance.
Context (w : World) (t : nat) (Hok : pool_ok w) (Hmax : next_generation w < U64_MAX).

Lemma advance_activate a x w' :
  tasks w !! t = Some x -> (exists p, prepared x = Some p) -> advance t a w = Some w' -> pool_ok w'.
Proof.
  intros Hx [p Hp] Hadv. unfold_advance Hadv. rewrite Hx in Hadv.
  pose proof (pk_prepared _ Hok t x p Hx Hp) as Hprep. destruct x; try discriminate; injection Hp as ->.
  - pose proof (pk_activating _ Hok t p (or_introl Hx)) as Hnone.
    destruct a as [|[[]|e]|]; try discriminate; injection Hadv as <-.
    + apply (pool_start_ok w t _ Hok Hx); try done. eapply follows_plain; [exact Hx|done|by left|by left|right; exists p; auto|done].
    + apply (quiet_ok w t _ Hok Hx); try done. plain.
  - injection Hadv as <-. destruct (store_default_ok r p Hprep) as [Hp' Hr].
    apply (quiet_ok w t _ Hok Hx); try done.
    eapply follows_plain; [exact Hx|done|by left|by left|right; exists (store_default r p); auto|done].
  - injection Hadv as <-. by apply numbering_ok.
  - injection Hadv as <-. by apply replacing_ok.
Qed.

Lemma advance_drain a x w' :
  tasks w !! t = Some x -> (exists l g, x = Draining l g \/ exists e r, x = StoppingRuntime e r l g) ->
  advance t a w = Some w' -> pool_ok w'.
Proof.
  intros Hx (l & g & [->|(e & r & ->)]) Hadv; unfold_advance Hadv; rewrite Hx in Hadv.
  - destruct l as [|e l].
    { assert (exists o, w' = put t (Returned o) w) as [o ->] by (destruct g; injection Hadv as <-; by eexists).
      apply (quiet_ok w t _ Hok Hx); try done. plain. }
    destruct (heap w !! e) as [[al c o [h|]]|] eqn:He; try discriminate. destruct o as [r|]; injection Hadv as <-.
    + refine (acquire_ok w t _ Hok Hx (StoppingRuntime e r l g) e _ _ He eq_refl eq_refl eq_refl eq_refl eq_refl _ eq_refl); [plain|].
      cbn. set_solver.
    + assert (follows w t (Draining l g)) as Hfo by plain.
      apply (follows_ok w t _ Hok Hfo (started w) (stopped w)); try done.
      * unfold before. by rewrite Hx.
      * eapply live_ext; [|apply Hok]. intros k. cbn beta. case_decide as Hk; [|done]. subst k. cbn. by rewrite Hx.
      * intros e'. unfold old_drains. rewrite Hx. cbn [drains]. intros [->|Hin]%elem_of_cons Hn; [by eexists|done].
  - injection Hadv as <-. apply (pool_stop_ok w t _ Hok Hx); try done. plain.
Qed.

Lemma found_parts k g r : pending (found k g r) = None /\ (seen (found k g r) = None \/ seen (found k g r) = Some g) /\
  resolved (found k g r) = None /\ prepared (found k g r) = None /\ holding (found k g r) = None /\
  hand (found k g r) = None /\ drains (found k g r) = [] /\ installs (found k g r) = None.
Proof. destruct k; cbn; auto 10. Qed.

Lemma found_follows k g r x :
  tasks w !! t = Some x -> seen x = Some g -> follows w t (found k g r).
Proof.
  intros Hx Hs. destruct (found_parts k g r) as (H1 & H2 & H3 & H4 & _ & _ & H7 & _).
  eapply follows_plain; [exact Hx|done| |by left|by left|rewrite H7; intros e He; by apply elem_of_nil in He].
  rewrite Hs. destruct H2; auto.
Qed.

Lemma advance_lookup a x w' :
  tasks w !! t = Some x -> is_Some (seen x) \/ (exists k ref, x = Asking k ref) ->
  advance t a w = Some w' -> pool_ok w'.
Proof.
  intros Hx Hs Hadv; unfold_advance Hadv; rewrite Hx in Hadv.
  destruct x as [| | | | | | |k ref|k ref g|k ref g e|k ref g e|k ref g e r|k ref g e r|k ref g e r|g r|g|];
    try (by destruct Hs as [[]|(? & ? & [=])]); clear Hs.
  - injection Hadv as <-. apply (quiet_ok w t _ Hok Hx); try done. plain.
  - unfold resolve in Hadv. destruct (N.eqb_spec (generation (state w)) g) as [Hg|Hg]; cbn [negb] in Hadv.
    + destruct (lookup_node (state w) ref) as [e|err] eqn:Hl; injection Hadv as <-;
        apply (quiet_ok w t _ Hok Hx); try done; [|plain].
      eapply follows_plain; [exact Hx|done|by right; left|right; right; by exists ref, g, e|by left|done].
    + injection Hadv as <-. apply (quiet_ok w t _ Hok Hx); try done. plain.
  - destruct (heap w !! e) as [[al c o [h|]]|] eqn:He; try discriminate.
    destruct o as [r|]; injection Hadv as <-.
    + destruct (found_parts k g r) as (_ & _ & _ & _ & H5 & H6 & H7 & H8).
      apply (quiet_ok w t _ Hok Hx); [by apply (found_follows k g r _ Hx)|exact H5|exact H6| |congruence].
      intros e' He'. by apply elem_of_nil in He'.
    + refine (acquire_ok w t _ Hok Hx (Starting k ref g e) e _ _ He eq_refl eq_refl eq_refl eq_refl eq_refl _ eq_refl);
        [plain|cbn; set_solver].
  - destruct a as [|[[]|err]|]; try discriminate; injection Hadv as <-.
    + apply (pool_start_ok w t _ Hok Hx); try done. plain.
    + apply (release_ok w t _ Hok Hx); try done. plain.
  - injection Hadv as <-. destruct (N.eqb_spec (generation (state w)) g) as [Hg|Hg].
    + apply (quiet_ok w t _ Hok Hx); try done; [plain|]. intros e' [= <-].
      apply (lookup_node_in _ ref), (go_resolved _ (pk_generations _ Hok) t _ ref g e Hx); done.
    + apply (quiet_ok w t _ Hok Hx); try done. plain.
  - injection Hadv as <-. destruct (found_parts k g r) as (_ & _ & _ & _ & H5 & H6 & H7 & H8).
    apply (install_ok w t _ Hok Hx); try done; [by apply (found_follows k g r _ Hx)| |].
    + intros e' He'. by apply elem_of_nil in He'.
    + by apply (pk_installs _ Hok t _ e Hx).
  - injection Hadv as <-. apply (pool_stop_ok w t _ Hok Hx); try done. plain.
  - destruct a as [| |[[]|err]]; try discriminate; injection Hadv as <-;
      apply (quiet_ok w t _ Hok Hx); try done; plain.
  - injection Hadv as <-. apply (quiet_ok w t _ Hok Hx); try done. plain.
Qed.

Lemma advance_ok a w' : advance t a w = Some w' -> pool_ok w'.
Proof.
  intros Hadv. destruct (tasks w !! t) as [x|] eqn:Hx; [|unfold_advance Hadv; by rewrite Hx in Hadv].
  destruct x; try (by eapply advance_lookup; [exact Hx|(by left; eexists) || (right; by do 2 eexists)|exact Hadv]);
    try (by eapply advance_activate; [exact Hx|by eexists|exact Hadv]).
  - unfold_advance Hadv. rewrite Hx in Hadv. injection Hadv as <-. by apply stopping_ok.
  - eapply advance_drain; [exact Hx|by do 2 eexists; left|exact Hadv].
  - eapply advance_drain; [exact Hx|do 2 eexists; right; by do 2 eexists|exact Hadv].
  - unfold_advance Hadv. by rewrite Hx in Hadv.
Qed.
End advance.

(** ** Every history *)
Lemma advance_next t a w w' : next_generation w < U64_MAX -> advance t a w = Some w' ->
  next_generation w' <= next_generation w + 1.
Proof.
  intros Hmax. assert (next_generation (fetch_add w) = next_generation w + 1) as Hnext
    by (cbn; rewrite N.mod_small; lia).
  assert (forall e r h v, next_generation (set_entry e r h v) = next_generation v) as Hset.
  { intros e r h v. unfold set_entry. by destruct (heap v !! e). }
  unfold advance, activate_step, stop_step, stop_state_step, runtime_for_step, open_stream_step. destruct (tasks w !! t) as [x|]; [|done].
  destruct x; try (destruct a as [|[[]|]|[[]|]]); try discriminate;
    repeat match goal with
    | |- match ?x with _ => _ end = Some _ -> _ => destruct x; try discriminate
    end;
    intros [= <-]; cbn [next_generation put set_state set_heap count_start]; rewrite ?Hset;
    cbn [next_generation stop_runtime] in *; try (exact (N.le_add_r _ _)); cbn in *; lia.
Qed.

Lemma pool_initial_ok : pool_ok initial.
Proof.
  split.
  - split; done.
  - split; try done.
  - done.
  - by intros t p [|[r ?]].
  - split; [..|done]; [by intros [e|t]|by intros [e|t]|]. intros r Hr. cbn in Hr. lia.
  - done.
  - done.
Qed.

Lemma reach_ok n w :
  nsteps step n initial w -> N.of_nat n < U64_MAX - 1 -> pool_ok w /\ next_generation w <= N.of_nat n + 1.
Proof.
  revert w. induction n as [|n IH]; intros w Hn Hmax.
  - inversion Hn; subst. split; [apply pool_initial_ok|done].
  - apply nsteps_inv_r in Hn as (v & Hn & Hstep). destruct (IH v Hn) as [Hok Hnext]; [lia|].
    assert (next_generation v < U64_MAX) as Hv by lia. inversion Hstep as [t c Hx Hw|t a w' Hadv Hw]; subst.
    + split; [by apply call_ok|]. cbn. lia.
    + split; [by apply (advance_ok v t Hok Hv a)|]. pose proof (advance_next t a v w Hv Hadv). lia.
Qed.

(** C23. No connection is lost: however activations, stops and lookups interleave,
    and whatever starting a node answers, a runtime that was started is
    stopped, or in the hands of one call that is still running, or stored in
    one entry that the profile in use has or that a call is still to stop.
    Once no call is running, the runtimes that were started and not stopped
    are those of the nodes of the profile in use, and no mutex is held. *)
Theorem pool_leaks_nothing n w :
  nsteps step n initial w -> N.of_nat n < U64_MAX - 1 ->
  (forall r, (r < started w)%nat -> r ∉ stopped w ->
     exists l, at_place w l = Some r /\ (forall l', at_place w l' = Some r -> l' = l) /\
       (forall e, l = InEntry e -> owned w e)) /\
  (forall l r, at_place w l = Some r -> (r < started w)%nat /\ r ∉ stopped w) /\
  ((forall t x, tasks w !! t = Some x -> exists o, x = Returned o) ->
     (forall e entry, heap w !! e = Some entry -> holder entry = None) /\
     forall r, (r < started w)%nat /\ r ∉ stopped w <->
       exists key e entry, nodes (state w) !! key = Some e /\ heap w !! e = Some entry /\ runtime entry = Some r).
Proof.
  intros Hn Hmax. destruct (reach_ok n w Hn Hmax) as [[Hgen Hlocks _ _ [Honce Hlive Hfound _] Howned _] _].
  assert (forall e r, at_place w (InEntry e) = Some r -> owned w e) as Hown.
  { intros e r He. cbn in He. apply bind_Some in He as (entry & He & Hr). by apply (Howned e entry r). }
  split_and!.
  - intros r Hr Hs. destruct (Hfound r Hr Hs) as [l Hl]. exists l. split_and!; [done| |].
    + intros l' Hl'. by apply (Honce l' l r).
    + intros e ->. by apply (Hown e r).
  - exact Hlive.
  - intros Hdone. split.
    + intros e entry He. destruct (holder entry) as [t|] eqn:Hh; [|done].
      destruct (lo_holder _ Hlocks e entry t He Hh) as (x & Hx & Hxe). by destruct (Hdone t x Hx) as [o ->].
    + intros r. split.
      * intros [Hr Hs]. destruct (Hfound r Hr Hs) as [[e|t] Hl].
        -- destruct (Hown e r Hl) as [[key Hkey]|(t & x & Hx & He)].
           ++ cbn in Hl. apply bind_Some in Hl as (entry & He & Hrt). by exists key, e, entry.
           ++ destruct (Hdone t x Hx) as [o ->]. by apply elem_of_nil in He.
        -- cbn in Hl. apply bind_Some in Hl as (x & Hx & Hh). by destruct (Hdone t x Hx) as [o ->].
      * intros (key & e & entry & _ & He & Hr). apply (Hlive (InEntry e)). cbn. by rewrite He.
Qed.

(** A call for a node gives out a runtime that is stored, alone, in the entry
    its reference was resolved to, and that was not told to stop; when the
    profile generation the call began with is still in use, that entry is the
    one of the node the reference names (the default node for [PROXY], then
    identifiers, then aliases). *)
Theorem runtime_for_current n w t a w' x r :
  nsteps step n initial w -> N.of_nat n < U64_MAX - 2 -> advance t a w = Some w' ->
  tasks w !! t = Some x -> tasks w' !! t = Some (Returned (Ok (OfRuntime r))) ->
  exists ref g e, resolved x = Some (ref, g, e) /\
    at_place w' (InEntry e) = Some r /\ (forall l, at_place w' l = Some r -> l = InEntry e) /\
    (r < started w')%nat /\ r ∉ stopped w' /\
    (generation (state w') = g -> lookup_node (state w') ref = Ok e).
Proof.
  intros Hn Hmax Hadv Hx Hret. destruct (reach_ok n w Hn) as [Hok Hnext]; [lia|].
  assert (pool_ok w') as Hok' by (apply (advance_ok w t Hok ltac:(lia) a w' Hadv)).
  destruct (pk_live _ Hok') as [Honce Hlive _ _].
  assert (forall e, at_place w' (InEntry e) = Some r -> at_place w' (InEntry e) = Some r /\
    (forall l, at_place w' l = Some r -> l = InEntry e) /\ (r < started w')%nat /\ r ∉ stopped w') as Hat.
  { intros e He. split_and!; [done| |by apply (Hlive _ _ He)|by apply (Hlive _ _ He)].
    intros l Hl. by apply (Honce l (InEntry e) r). }
  assert (forall y v, tasks (put t y v) !! t = Some (Returned (Ok (OfRuntime r))) -> y = Returned (Ok (OfRuntime r))) as Hput.
  { intros y v. cbn. rewrite lookup_insert_eq. by intros [= ->]. }
  pose proof (go_resolved _ (pk_generations _ Hok) t x) as Hres. unfold_advance Hadv. rewrite Hx in Hadv.
  destruct x as [|p r0|p|p g| |l g|e r0 l g|k ref|k ref g|k ref g e|k ref g e|k ref g e r0|k ref g e r0|k ref g e r0|g r0|g|].
  all: try (destruct a as [|[[]|]|[[]|]]; simplify_eq; by apply Hput in Hret).
  - destruct (publish g p (heap w)). injection Hadv as <-. by apply Hput in Hret.
  - destruct l as [|e l]; [destruct g; simplify_eq; by apply Hput in Hret|].
    destruct (heap w !! e) as [[al c [r0|] [h|]]|]; simplify_eq; by apply Hput in Hret.
  - destruct (resolve _ _ _); simplify_eq; by apply Hput in Hret.
  - destruct (heap w !! e) as [[al c [r0|] [h|]]|] eqn:He; simplify_eq; [|by apply Hput in Hret].
    apply Hput in Hret. destruct k; [injection Hret as ->|done]. exists ref, g, e. split; [done|].
    destruct (Hat e) as (H1 & H2 & H3 & H4); [cbn; by rewrite He|]. split_and!; [done..|]. intros Hg. by apply (Hres ref g).
  - injection Hadv as <-. by destruct (generation (state w) =? g); apply Hput in Hret.
  - injection Hadv as <-. apply Hput in Hret. destruct k; [injection Hret as ->|done]. exists ref, g, e. split; [done|].
    destruct (lo_holding _ (pk_locks _ Hok) t _ e Hx eq_refl) as (entry & He & _).
    unfold set_entry in *. rewrite He in *.
    destruct (Hat e) as (H1 & H2 & H3 & H4).
    { cbn. by rewrite list_lookup_insert_eq by (by eapply lookup_lt_Some). }
    split_and!; [done..|]. intros Hg. by apply (Hres ref g).
  - injection Hadv as <-. apply Hput in Hret. by destruct (generation (state w) =? g).
Qed.

(** ** Calls finish *)
Definition weight (x : Task) : nat :=
  match x with
  | Activating p => 5 + 2 * size (prepared_nodes p)
  | Storing p _ => 4 + 2 * size (prepared_nodes p)
  | Numbering p => 3 + 2 * size (prepared_nodes p)
  | Replacing p _ => 2 + 2 * size (prepared_nodes p)
  | Stopping => 2
  | Draining l _ => 1 + 2 * length l
  | StoppingRuntime _ _ l _ => 2 + 2 * length l
  | Asking _ _ => 8
  | Resolving _ _ _ => 7
  | Locking _ _ _ _ => 6
  | Starting _ _ _ _ => 5
  | Checking _ _ _ _ _ => 4
  | Installing _ _ _ _ _ => 3
  | Undoing _ _ _ _ _ => 1
  | Opening _ _ => 2
  | Opened _ => 1
  | Returned _ => 0
  end.
Definition total (m : gmap nat Task) : nat := sum_list_with (fun kx => weight kx.2) (map_to_list m).
(** How many steps the calls in progress can still take. *)
Definition potential (w : World) : nat := total (tasks w) + 2 * size (nodes (state w)).

Lemma size_alter {A} (f : A -> A) (key : Str) (m : gmap Str A) : size (alter f key m) = size m.
Proof. by rewrite <-!(size_dom (D := gset Str)), dom_alter_L. Qed.
Lemma weights_insert (m : gmap nat Task) t y : m !! t = None -> total (<[t := y]> m) = (weight y + total m)%nat.
Proof. intros Hn. unfold total. by rewrite map_to_list_insert. Qed.
Lemma weights_update (m : gmap nat Task) t x y :
  m !! t = Some x -> (total (<[t := y]> m) + weight x = total m + weight y)%nat.
Proof.
  intros Hx. rewrite <-(insert_delete_id m t x Hx) at 2. rewrite <-insert_delete_eq.
  rewrite !weights_insert by apply lookup_delete_eq. lia.
Qed.

Lemma values_length s : length (values s) = size (nodes s).
Proof. unfold values, ordered. by rewrite merge_sort_Permutation, length_fmap, length_map_to_list. Qed.
Lemma publish_size g p heap : size (nodes (publish g p heap).1) = size (prepared_nodes p).
Proof.
  cbn. rewrite map_size_list_to_map.
  - rewrite length_zip_with, length_fmap, length_seq. unfold ordered.
    rewrite merge_sort_Permutation, length_map_to_list. lia.
  - rewrite fst_zip by (by rewrite length_fmap, length_seq). unfold ordered.
    rewrite merge_sort_Permutation. apply NoDup_fst_map_to_list.
Qed.

Lemma potential_put w x t y v :
  tasks w !! t = Some x -> tasks v = tasks w -> (size (nodes (state v)) = size (nodes (state w)))%nat ->
  (weight y < weight x)%nat -> (potential (put t y v) < potential w)%nat.
Proof.
  intros Hx Ht Hs Hw. unfold potential. cbn [tasks state put]. rewrite Ht, Hs.
  pose proof (weights_update (tasks w) t x y Hx). lia.
Qed.
Lemma set_entry_parts e r h w : tasks (set_entry e r h w) = tasks w /\ state (set_entry e r h w) = state w.
Proof. unfold set_entry. by destruct (heap w !! e). Qed.
Lemma found_weight k g r : (weight (found k g r) <= 2)%nat.
Proof. destruct k; cbn; lia. Qed.

Lemma advance_potential t a w w' : advance t a w = Some w' -> (potential w' < potential w)%nat.
Proof.
  unfold advance, activate_step, stop_step, stop_state_step, runtime_for_step, open_stream_step. destruct (tasks w !! t) as [x|] eqn:Hx; [|done]. intros Hadv.
  assert (forall e r h v, tasks v = tasks w -> state v = state w ->
    tasks (set_entry e r h v) = tasks w /\ (size (nodes (state (set_entry e r h v))) = size (nodes (state w)))%nat) as Hset.
  { intros e r h v Ht Hs. destruct (set_entry_parts e r h v) as [-> ->]. by rewrite Ht, Hs. }
  destruct x as [p|p r0|p|p g| |l g|e r0 l g|k ref|k ref g|k ref g e|k ref g e|k ref g e r0|k ref g e r0|k ref g e r0|g r0|g|].
  - destruct a as [|[[]|]|[[]|]]; simplify_eq; apply (potential_put w _ t _ _ Hx); try done; cbn; lia.
  - simplify_eq. apply (potential_put w _ t _ _ Hx); try done. cbn. rewrite size_alter. lia.
  - simplify_eq. apply (potential_put w _ t _ _ Hx); try done. cbn. lia.
  - injection Hadv as <-. unfold potential. cbn [tasks state put set_state set_heap].
    pose proof (weights_update (tasks w) t _ (Draining (values (state w)) (Some g)) Hx) as Ht. cbn [weight] in Ht.
    rewrite values_length in Ht. pose proof (publish_size g p (heap w)) as Hp. cbn [publish fst] in Hp. rewrite Hp. lia.
  - injection Hadv as <-. unfold potential. cbn [tasks state put set_state fetch_add nodes].
    pose proof (weights_update (tasks w) t _ (Draining (values (state w)) None) Hx) as Ht. cbn [weight] in Ht.
    rewrite values_length in Ht. rewrite map_size_empty. lia.
  - destruct l as [|e l]; [destruct g; simplify_eq; apply (potential_put w _ t _ _ Hx); try done; cbn; lia|].
    destruct (heap w !! e) as [[al c [r0|] [h|]]|]; simplify_eq; apply (potential_put w _ t _ _ Hx); try (by apply Hset);
      try done; cbn; lia.
  - simplify_eq. apply (potential_put w _ t _ _ Hx); try (by apply Hset). cbn. lia.
  - simplify_eq. apply (potential_put w _ t _ _ Hx); try done. cbn. lia.
  - destruct (resolve _ _ _); simplify_eq; apply (potential_put w _ t _ _ Hx); try done; cbn; lia.
  - pose proof (found_weight k g) as Hfound.
    destruct (heap w !! e) as [[al c [r0|] [h|]]|]; simplify_eq; apply (potential_put w _ t _ _ Hx); try (by apply Hset);
      try done; cbn; [specialize (Hfound r0)|]; lia.
  - destruct a as [|[[]|]|[[]|]]; simplify_eq; apply (potential_put w _ t _ _ Hx); try (by apply Hset); try done; cbn; lia.
  - simplify_eq. apply (potential_put w _ t _ _ Hx); try done. destruct (_ =? _); cbn; lia.
  - simplify_eq. pose proof (found_weight k g r0). apply (potential_put w _ t _ _ Hx); try (by apply Hset). cbn. lia.
  - simplify_eq. apply (potential_put w _ t _ _ Hx); try (by apply Hset). cbn. lia.
  - destruct a as [|[[]|]|[[]|]]; simplify_eq; apply (potential_put w _ t _ _ Hx); try done; cbn; lia.
  - simplify_eq. apply (potential_put w _ t _ _ Hx); try done. destruct (_ =? _); cbn; lia.
  - done.
Qed.

(** A call waits only for an answer, or for a mutex of a call that does not wait
    for a mutex. *)
Lemma pool_progress w t x :
  pool_ok w -> tasks w !! t = Some x -> (forall o, x <> Returned o) -> exists t' a w', advance t' a w = Some w'.
Proof.
  intros Hok Hx Hno.
  assert (forall t' x', tasks w !! t' = Some x' -> is_Some (holding x') -> exists t' a w', advance t' a w = Some w') as Hholder.
  { intros t' x' Hx' [e He]. exists t', (StartAnswer (Ok tt)). unfold advance, activate_step, stop_step, stop_state_step, runtime_for_step, open_stream_step. rewrite Hx'.
    destruct x'; try done; by eexists. }
  assert (forall e, (e < length (heap w))%nat -> (exists t' a w', advance t' a w = Some w') \/
    exists al c o, heap w !! e = Some {| entry_alias := al; entry_configuration := c; runtime := o; holder := None |}) as Hmutex.
  { intros e [[al c o [h|]] He]%lookup_lt_is_Some; [|right; by exists al, c, o]. left.
    destruct (lo_holder _ (pk_locks _ Hok) e _ h He eq_refl) as (x' & Hx' & Hh). apply (Hholder h x' Hx'). by rewrite Hh. }
  destruct x as [p|p r0|p|p g| |l g|e r0 l g|k ref|k ref g|k ref g e|k ref g e|k ref g e r0|k ref g e r0|k ref g e r0|g r0|g|o];
    try (exists t, (StartAnswer (Ok tt)); unfold advance; rewrite Hx; by eexists).
  - destruct l as [|e l].
    { exists t, NoAnswer. unfold advance, activate_step, stop_step, stop_state_step, runtime_for_step, open_stream_step. rewrite Hx. destruct g; by eexists. }
    destruct (Hmutex e) as [?|(al & c & o & He)]; [|done|].
    { apply (lo_drains _ (pk_locks _ Hok) t _ e Hx). by left. }
    exists t, NoAnswer. unfold advance, activate_step, stop_step, stop_state_step, runtime_for_step, open_stream_step. rewrite Hx, He. destruct o; by eexists.
  - exists t, NoAnswer. unfold advance, activate_step, stop_step, stop_state_step, runtime_for_step, open_stream_step. rewrite Hx. destruct (resolve _ _ _); by eexists.
  - destruct (Hmutex e) as [?|(al & c & o & He)]; [|done|].
    { by apply (lo_resolved _ (pk_locks _ Hok) t _ ref g e Hx). }
    exists t, NoAnswer. unfold advance, activate_step, stop_step, stop_state_step, runtime_for_step, open_stream_step. rewrite Hx, He. destruct o; by eexists.
  - exists t, (StreamAnswer (Ok tt)). unfold advance, activate_step, stop_step, stop_state_step, runtime_for_step, open_stream_step. rewrite Hx. by eexists.
  - by destruct (Hno o).
Qed.

Definition returned (x : Task) : bool := match x with Returned _ => true | _ => false end.
Definition advances (w w' : World) : Prop := exists t a, advance t a w = Some w'.

(** C24. There is no deadlock and no livelock: the calls in progress take at most
    [potential] steps together, and as long as one has not returned, one of
    them can take a step once its factory or connection answers. *)
Theorem pool_calls_finish n w k w' :
  nsteps step n initial w -> nsteps advances k w w' -> N.of_nat (n + potential w) < U64_MAX - 1 ->
  (k + potential w' <= potential w)%nat /\
  ((forall t x, tasks w' !! t = Some x -> exists o, x = Returned o) \/ exists w'', advances w' w'').
Proof.
  intros Hn Hk Hmax.
  assert (forall k, nsteps advances k w w' -> (k + potential w' <= potential w)%nat) as Hdown.
  { clear Hk k Hn Hmax. intros k. revert w. induction k as [|k IH]; intros w Hk.
    - inversion Hk; subst. lia.
    - inversion Hk as [|? ? v ? (t & a & Ha) Hk']; subst. apply advance_potential in Ha. specialize (IH v Hk'). lia. }
  pose proof (Hdown k Hk) as Hle. split; [done|].
  assert (nsteps step (n + k) initial w') as Hn'.
  { apply nsteps_trans with w; [done|]. clear -Hk. induction Hk as [|k w v w' (t & a & Ha) _ IH]; [constructor|].
    econstructor; [|exact IH]. by eapply step_advance. }
  destruct (reach_ok (n + k) w' Hn') as [Hok _]; [lia|].
  destruct (decide (map_Forall (fun _ x => is_true (returned x)) (tasks w'))) as [Hall|Hsome].
  - left. intros t x Hx. specialize (Hall t x Hx). destruct x; try done. by eexists.
  - right. apply map_not_Forall in Hsome as (t & x & Hx & Hr); [|by intros; apply _].
    destruct (pool_progress w' t x Hok Hx) as (t' & a & w'' & Ha); [|by exists w'', t', a].
    intros o ->. by apply Hr.
Qed.

(** ** Schedules *)
Inductive Event := Calls (t : nat) (c : Call) | Steps (t : nat) (a : Answer).
Fixpoint play (l : list Event) (w : World) : option World :=
  match l with
  | [] => Some w
  | Calls t c :: l => match tasks w !! t with None => play l (put t (call c) w) | Some _ => None end
  | Steps t a :: l => match advance t a w with Some w => play l w | None => None end
  end.
Lemma play_steps l w w' : play l w = Some w' -> nsteps step (length l) w w'.
Proof.
  revert w. induction l as [|[t c|t a] l IH]; intros w; cbn [play length].
  - intros [= ->]. constructor.
  - destruct (tasks w !! t) eqn:Hx; [done|]. intros Hl. econstructor; [by apply step_call|by apply IH].
  - destruct (advance t a w) as [v|] eqn:Ha; [|done]. intros Hl. econstructor; [by eapply step_advance|by apply IH].
Qed.
End pool.

#[global] Arguments Build_ResolvedNode {_} _ _ _.
#[global] Arguments state {_} _.
#[global] Arguments heap {_} _.
#[global] Arguments tasks {_} _.
#[global] Arguments started {_} _.
#[global] Arguments stopped {_} _.
#[global] Arguments runtime {_} _.
#[global] Arguments initial {_}.
#[global] Arguments Calls {_} _ _.
#[global] Arguments Steps {_} _ _.
#[global] Arguments CallActivate {_} _ _.
#[global] Arguments CallStop {_}.
#[global] Arguments CallRuntimeFor {_} _.
#[global] Arguments Returned {_} _.
#[global] Arguments play {_} _ _.

(** ** At concrete inputs *)
Module PoolExamples.
Definition node (i a : String.string) : ResolvedNode unit := {| id := str i; alias := str a; configuration := tt |}.
Definition started_ok : Answer := StartAnswer (Ok tt).
Definition steps (t : nat) (l : list Answer) : list (Event unit) := Steps t <$> l.

(** Task 0 activates two nodes; task 1 looks the second one up while task 2
    replaces the profile, and undoes its start. *)
Definition activation : list (Event unit) :=
  Calls 0 (CallActivate [node "one" "primary"; node "two" "backup"] (str "primary")) ::
  steps 0 [started_ok; NoAnswer; NoAnswer; NoAnswer; NoAnswer].
Definition racing : list (Event unit) :=
  activation ++
  Calls 1 (CallRuntimeFor (str "backup")) :: steps 1 [NoAnswer; NoAnswer; NoAnswer] ++
  Calls 2 (CallActivate [node "three" "third"] (str "three")) ::
  steps 2 [started_ok; NoAnswer; NoAnswer; NoAnswer; NoAnswer; NoAnswer] ++
  steps 1 [started_ok; NoAnswer; NoAnswer] ++ steps 2 [NoAnswer; NoAnswer].


Lemma played_result {B} (f : World unit -> B) l w b :
  play l initial = Some w -> option_map f (play l initial) = Some b -> f w = b.
Proof. intros ->. by intros [= <-]. Qed.
Definition all_returned (w : World unit) : bool := forallb (fun kx => returned _ kx.2) (map_to_list (tasks w)).
Lemma all_returned_spec w : all_returned w = true ->
  forall t x, tasks w !! t = Some x -> exists o, x = Returned o.
Proof.
  unfold all_returned. rewrite forallb_forall. intros Hall t x Hx.
  specialize (Hall (t, x) (proj1 (list_elem_of_In _ _) (proj2 (elem_of_map_to_list _ _ _) Hx))).
  destruct x; try done. by eexists.
Qed.

Lemma pool_leaks_nothing_witness :
  exists w, play racing initial = Some w /\ started w = 3%nat /\
    forall r, (r < started w)%nat /\ r ∉ stopped w <->
      exists key e entry, nodes (state w) !! key = Some e /\ heap w !! e = Some entry /\ runtime entry = Some r.
Proof.
  destruct (play racing initial) as [w|] eqn:Hw; [|by vm_compute in Hw].
  exists w. split; [reflexivity|]. split; [by apply (played_result started _ _ _ Hw); vm_compute|].
  refine (proj2 (proj2 (proj2 (pool_leaks_nothing unit (length racing) w (play_steps _ _ _ _ Hw) _)) _)).
  - reflexivity.
  - apply all_returned_spec. by apply (played_result all_returned _ _ _ Hw); vm_compute.
Defined.

(** Task 1, about to install what it started for [backup]. *)
Definition lookup : list (Event unit) :=
  activation ++ Calls 1 (CallRuntimeFor (str "backup")) :: steps 1 [NoAnswer; NoAnswer; NoAnswer; started_ok; NoAnswer].

Lemma runtime_for_current_witness :
  exists w w', play lookup initial = Some w /\ advance unit 1 NoAnswer w = Some w' /\
    tasks w' !! 1%nat = Some (Returned (Ok (OfRuntime 1))) /\
    exists ref g e, at_place unit w' (InEntry e) = Some 1%nat /\
      (generation (state w') = g -> lookup_node (state w') ref = Ok e).
Proof.
  destruct (play lookup initial) as [w|] eqn:Hw; [|by vm_compute in Hw].
  assert (option_map (fun w => tasks w !! 1%nat) (play lookup initial) =
    Some (Some (Installing unit ForRuntime (str "backup") 1 1 1))) as Hx%(played_result _ _ _ _ Hw) by by vm_compute.
  destruct (advance unit 1 NoAnswer w) as [w'|] eqn:Ha; [|unfold advance, runtime_for_step in Ha; by rewrite Hx in Ha].
  assert (tasks w' !! 1%nat = Some (Returned (Ok (OfRuntime 1)))) as Hret.
  { unfold advance, runtime_for_step in Ha. rewrite Hx in Ha. injection Ha as <-. apply lookup_insert_eq. }
  exists w, w'. split; [reflexivity|]. split; [exact Ha|]. split; [exact Hret|].
  destruct (runtime_for_current unit (length lookup) w 1 NoAnswer w' _ 1 (play_steps _ _ _ _ Hw) ltac:(reflexivity) Ha Hx Hret)
    as (ref & g & e & _ & Hat & _ & _ & _ & Hg).
  exists ref, g, e. split; [exact Hat|exact Hg].
Defined.

Lemma pool_calls_finish_witness :
  exists w, play lookup initial = Some w /\ exists w'', advances unit w w''.
Proof.
  destruct (play lookup initial) as [w|] eqn:Hw; [|by vm_compute in Hw]. exists w. split; [reflexivity|].
  assert (potential unit w = 7%nat) as Hpot by (apply (played_result _ _ _ _ Hw); by vm_compute).
  assert (tasks w !! 1%nat = Some (Installing unit ForRuntime (str "backup") 1 1 1)) as Hx
    by (apply (played_result (fun w => tasks w !! 1%nat) _ _ _ Hw); by vm_compute).
  destruct (pool_calls_finish unit (length lookup) w 0 w (play_steps _ _ _ _ Hw) ltac:(constructor)) as (_ & [Hdone|Hnext]).
  - rewrite Hpot. reflexivity.
  - destruct (Hdone _ _ Hx) as [o Ho]. discriminate.
  - exact Hnext.
Defined.
End PoolExamples.
