(* ===== verification/ProxyListeners.v ===== *)
(** The listeners of the loopback proxy ([velum-adapter-proxy/src/lib.rs]):
    binding them, the task that supervises them, the loop of each listener and
    the stop of the adapter, whose turns interleave freely. *)
From S2P Require Import Prelude Net Str Routing Runtime NodePool Proxy.

(** ** Starting

    What the runtime or the pool behind the adapter reads as. *)
Inductive ProxySource :=
| FromRuntime (inner : RuntimeInner)
| FromPool (snapshot : NodePoolSnapshot).
Definition online (snapshot : RuntimeSnapshot) : bool := bool_decide (Runtime.phase snapshot = Online).
Definition is_default_online (self : ProxySource) : bool :=
  match self with
  | FromRuntime inner => ClientRuntime.is_generation_online inner (Runtime.generation (published inner))
  | FromPool snapshot =>
    match List.find NodePool.is_default (snapshot_nodes snapshot) with
    | Some node => match snapshot_runtime node with Some reading => online reading | None => false end
    | None => false
    end
  end.

(** [TcpListener::bind] gives a listener or fails, and so does reading its address. *)
Record Interfaces := { bind : SocketAddr -> option nat; local_addr : nat -> option SocketAddr }.
Definition V4_LOCALHOST : N := ipv4 127 0 0 1.
Definition V6_LOCALHOST : N := 1.
(** [IpAddr::is_loopback] *)
Definition is_loopback (address : IpAddr) : bool :=
  match address with V4 bits => bits / 16777216 =? 127 | V6 bits => bits =? 1 end.

(** The address the adapter reports, the policy every client is served by, and the
    listeners it is built from. *)
Record Bound := { bound_address : SocketAddr; bound_policy : RoutingPolicy; bound_listeners : list nat }.

Definition start_with_source (interfaces : Interfaces) (runtime : ProxySource) (port : N) (policy : RoutingPolicy)
  : result Bound IoError :=
  if negb (is_default_online runtime) then Err NotConnected
  else
    let? v4 := io_ok_or (bind interfaces (SocketV4 V4_LOCALHOST port)) OtherError in
    let? address := io_ok_or (local_addr interfaces v4) OtherError in
    let? v6 := io_ok_or (bind interfaces (SocketV6 V6_LOCALHOST (SocketAddr.port address) 0 0)) OtherError in
    Ok {| bound_address := address; bound_policy := policy; bound_listeners := [v4; v6] |}.
Definition start_with_policy (interfaces : Interfaces) (inner : RuntimeInner) (port : N) (policy : RoutingPolicy) : result Bound IoError :=
  start_with_source interfaces (FromRuntime inner) port policy.
Definition start (interfaces : Interfaces) (inner : RuntimeInner) (port : N) : result Bound IoError :=
  start_with_policy interfaces inner port RoutingPolicy.proxy_all.
Definition start_with_pool_policy (interfaces : Interfaces) (pool : NodePoolSnapshot) (port : N) (policy : RoutingPolicy) : result Bound IoError :=
  start_with_source interfaces (FromPool pool) port policy.

Definition start_on_loopback (interfaces : Interfaces) (inner : RuntimeInner) (address : SocketAddr) (policy : RoutingPolicy)
  : result Bound IoError :=
  if negb (is_loopback (SocketAddr.ip address)) then Err PermissionDenied
  else if negb (ClientRuntime.is_generation_online inner (Runtime.generation (published inner))) then Err NotConnected
  else
    let? listener := io_ok_or (bind interfaces address) OtherError in
    let? address := io_ok_or (local_addr interfaces listener) OtherError in
    Ok {| bound_address := address; bound_policy := policy; bound_listeners := [listener] |}.

(** ** The running adapter

    A listener is held by the supervising task until that runs, then accepts in
    a loop of its own until the loop is left. *)
Inductive ListenerTask := Held | Accepting | Closed.
Inductive Supervisor := Unpolled | Supervising | Gone.
#[export] Instance ListenerTask_eq_dec : EqDecision ListenerTask. Proof. solve_decision. Defined.
#[export] Instance Supervisor_eq_dec : EqDecision Supervisor. Proof. solve_decision. Defined.

(** [shutdown] is the value of the watch channel, [abort_requested] that the
    supervising task was aborted, [aborted] that it aborted the listeners' tasks;
    [serving] has the connections that are served, by the listener they came from. *)
Record Adapter := {
  listeners : list ListenerTask;
  supervisor : Supervisor;
  shutdown : bool;
  abort_requested : bool;
  aborted : bool;
  serving : list nat
}.

Definition from_listeners (b : Bound) : Adapter :=
  {| listeners := (fun _ => Held) <$> bound_listeners b; supervisor := Unpolled; shutdown := false;
     abort_requested := false; aborted := false; serving := [] |}.

Definition set_listener (i : nat) (x : ListenerTask) (w : Adapter) : Adapter :=
  {| listeners := <[i := x]> (listeners w); supervisor := supervisor w; shutdown := shutdown w;
     abort_requested := abort_requested w; aborted := aborted w; serving := serving w |}.
Definition set_serving (l : list nat) (w : Adapter) : Adapter :=
  {| listeners := listeners w; supervisor := supervisor w; shutdown := shutdown w;
     abort_requested := abort_requested w; aborted := aborted w; serving := l |}.
Definition supervise (ls : list ListenerTask) (s : Supervisor) (a : bool) (w : Adapter) : Adapter :=
  {| listeners := ls; supervisor := s; shutdown := shutdown w;
     abort_requested := abort_requested w; aborted := a; serving := serving w |}.

(** [stop] and [Drop::drop], which runs at the end of [stop] once more. *)
Definition stop (w : Adapter) : Adapter :=
  {| listeners := listeners w; supervisor := supervisor w; shutdown := true;
     abort_requested := true; aborted := aborted w; serving := serving w |}.

(** The first turn of the supervising task spawns the loops; its second aborts
    them once the channel says so.  An aborted task is dropped: before its first
    turn the listeners go with it, later their tasks stay. *)
Definition supervisor_turn (w : Adapter) : option Adapter :=
  match supervisor w with
  | Unpolled => Some (supervise ((fun _ => Accepting) <$> listeners w) Supervising (aborted w) w)
  | Supervising => if shutdown w then Some (supervise (listeners w) Gone true w) else None
  | Gone => None
  end.
Definition supervisor_dropped (w : Adapter) : option Adapter :=
  if abort_requested w then
    match supervisor w with
    | Unpolled => Some (supervise ((fun _ => Closed) <$> listeners w) Gone (aborted w) w)
    | Supervising => Some (supervise (listeners w) Gone (aborted w) w)
    | Gone => None
    end
  else None.

(** What a turn of a listener's loop sees first, when several things are ready:
    the change of the channel, a client, an error of [accept], or its abortion. *)
Inductive ListenerEvent := Changed | Accepted | AcceptFailed | Aborted.
Definition listener_turn (i : nat) (e : ListenerEvent) (w : Adapter) : option Adapter :=
  match listeners w !! i with
  | Some Accepting =>
    match e with
    | Changed => if shutdown w then Some (set_listener i Closed w) else None
    | Accepted => Some (set_serving (i :: serving w) w)
    | AcceptFailed => Some (set_listener i Closed w)
    | Aborted => if aborted w then Some (set_listener i Closed w) else None
    end
  | _ => None
  end.

Inductive Turn := SupervisorTurn | SupervisorDropped | ListenerTurn (i : nat) (e : ListenerEvent) | Stop | Served (c : nat).
Definition turn (t : Turn) (w : Adapter) : option Adapter :=
  match t with
  | SupervisorTurn => supervisor_turn w
  | SupervisorDropped => supervisor_dropped w
  | ListenerTurn i e => listener_turn i e w
  | Stop => Some (stop w)
  | Served c => if bool_decide (c < length (serving w))%nat then Some (set_serving (delete c (serving w)) w) else None
  end.
Fixpoint turns (l : list Turn) (w : Adapter) : option Adapter :=
  match l with [] => Some w | t :: l => w ← turn t w; turns l w end.
Definition accepts (t : Turn) : Prop := exists i, t = ListenerTurn i Accepted.

(** ** Where an adapter listens *)

(** The adapter starts only on an online runtime and only on loopback addresses: one
    listener per family with the same port, or the one address asked for; every refusal
    has the reason it names. *)
Theorem adapter_binds_loopback interfaces runtime port policy :
  match start_with_source interfaces runtime port policy with
  | Ok b =>
    is_default_online runtime = true /\ bound_policy b = policy /\
    exists v4 v6, bound_listeners b = [v4; v6] /\
      bind interfaces (SocketV4 V4_LOCALHOST port) = Some v4 /\ local_addr interfaces v4 = Some (bound_address b) /\
      bind interfaces (SocketV6 V6_LOCALHOST (SocketAddr.port (bound_address b)) 0 0) = Some v6
  | Err NotConnected => is_default_online runtime = false
  | Err e => e = OtherError /\ is_default_online runtime = true
  end /\
  forall inner address,
  match start_on_loopback interfaces inner address policy with
  | Ok b =>
    bound_policy b = policy /\
    is_loopback (SocketAddr.ip address) = true /\ is_default_online (FromRuntime inner) = true /\
    exists l, bound_listeners b = [l] /\ bind interfaces address = Some l /\ local_addr interfaces l = Some (bound_address b)
  | Err PermissionDenied => is_loopback (SocketAddr.ip address) = false
  | Err NotConnected => is_loopback (SocketAddr.ip address) = true /\ is_default_online (FromRuntime inner) = false
  | Err e => e = OtherError /\ is_loopback (SocketAddr.ip address) = true
  end.
Proof.
  split.
  - unfold start_with_source. destruct (is_default_online runtime); [|done]. cbn [negb].
    destruct (bind interfaces (SocketV4 V4_LOCALHOST port)) as [v4|] eqn:H4; [|done]. cbn [io_ok_or and_then].
    destruct (local_addr interfaces v4) as [address|] eqn:Ha; [|done]. cbn [io_ok_or and_then].
    destruct (bind interfaces (SocketV6 _ _ _ _)) as [v6|] eqn:H6; [|done]. cbn. eauto 10.
  - intros inner address. unfold start_on_loopback. cbn [is_default_online].
    destruct (is_loopback _); [|done]. cbn [negb].
    destruct (ClientRuntime.is_generation_online _ _); [|done]. cbn [negb].
    destruct (bind interfaces address) as [l|] eqn:Hb; [|done]. cbn [io_ok_or and_then].
    destruct (local_addr interfaces l) as [a|] eqn:Ha; [|done]. cbn. eauto 10.
Qed.

(** ** The turns *)
Lemma turns_app l l' w : turns (l ++ l') w = turns l w ≫= turns l'.
Proof. revert w. induction l as [|t l IH]; intros w; cbn; [done|]. by destruct (turn t w); cbn. Qed.
Lemma turns_cons t l w w' : turns (t :: l) w = Some w' <-> exists v, turn t w = Some v /\ turns l v = Some w'.
Proof. apply bind_Some. Qed.

(** What holds whatever has run. *)
Record sound (w : Adapter) : Prop := {
  sound_unpolled : supervisor w = Unpolled -> Forall (eq Held) (listeners w);
  sound_polled : supervisor w <> Unpolled -> Held ∉ listeners w;
  sound_abort : abort_requested w = shutdown w;
  sound_aborted : aborted w = true -> shutdown w = true
}.
Lemma fmap_const {A B} (b : B) (l : list A) : Forall (eq b) ((fun _ => b) <$> l).
Proof. induction l; constructor; done. Qed.
Lemma not_in_const {A B} (b c : B) (l : list A) : b <> c -> b ∉ ((fun _ => c) <$> l).
Proof. intros Hne (x & He & _)%list_elem_of_fmap. done. Qed.
Lemma from_listeners_sound b : sound (from_listeners b).
Proof. constructor; cbn; try done. intros _. apply fmap_const. Qed.

Ltac invert_turn Ht :=
  unfold turn, supervisor_turn, supervisor_dropped, listener_turn, stop in Ht;
  repeat match type of Ht with
  | context [match ?x with _ => _ end] => let H := fresh "Hx" in destruct x eqn:H; try discriminate Ht
  end; try injection Ht as <-.

Lemma closed_no_held i (l : list ListenerTask) : Held ∉ l -> Held ∉ <[i := Closed]> l.
Proof. intros Hl Hin. apply list_elem_of_lookup in Hin as (j & Hj).
  apply list_lookup_insert_Some in Hj as [(_ & ? & _)|(_ & Hj)]; [done|].
  apply Hl. by eapply list_elem_of_lookup_2.
Qed.
Lemma accepting_polled w i x : sound w -> listeners w !! i = Some x -> x <> Held -> supervisor w <> Unpolled.
Proof. intros Hw Hi Hx Hs. pose proof (sound_unpolled _ Hw Hs) as Hall. rewrite Forall_lookup in Hall. by destruct (Hall _ _ Hi). Qed.

Lemma turn_sound t w v : turn t w = Some v -> sound w -> sound v.
Proof.
  intros Ht Hw. pose proof Hw as [Hu Hp Ha Hb]. invert_turn Ht; constructor; cbn; auto; try done;
    try (intros _; by apply not_in_const); try (intros _; apply Hp; congruence).
  all: try (intros Hs; by destruct (accepting_polled w _ _ Hw ltac:(eassumption) ltac:(done))).
  all: try (by intros Hs; apply closed_no_held, Hp).
  all: congruence.
Qed.
Lemma turns_sound l w v : turns l w = Some v -> sound w -> sound v.
Proof.
  revert w. induction l as [|t l IH]; intros w H; [injection H as <-; done|].
  apply turns_cons in H as (u & Ht & Hl). eauto using turn_sound.
Qed.

(** A loop that was left is never entered again and takes nobody in. *)
Lemma turn_closed t w v i :
  turn t w = Some v -> sound w -> listeners w !! i = Some Closed ->
  listeners v !! i = Some Closed /\ t <> ListenerTurn i Accepted.
Proof.
  intros Ht Hw Hi.
  assert (supervisor w <> Unpolled) as Hs by (by eapply accepting_polled). 
  split.
  - invert_turn Ht; cbn; try done; try (by rewrite Hi);
      rewrite list_lookup_insert_Some; destruct (decide (i = i0)) as [->|]; naive_solver.
  - intros ->. cbn in Ht. unfold listener_turn in Ht. by rewrite Hi in Ht.
Qed.
Lemma turns_closed l w v i :
  turns l w = Some v -> sound w -> listeners w !! i = Some Closed ->
  listeners v !! i = Some Closed /\ ListenerTurn i Accepted ∉ l.
Proof.
  revert w. induction l as [|t l IH]; intros w H Hw Hi; [injection H as <-; split; [done|apply not_elem_of_nil]|].
  apply turns_cons in H as (u & Ht & Hl).
  destruct (turn_closed _ _ _ _ Ht Hw Hi) as [Hi' Hne].
  destruct (IH _ Hl (turn_sound _ _ _ Ht Hw) Hi') as [Hv Hn]. split; [done|]. apply not_elem_of_cons. auto.
Qed.

(** Only a failing [accept] or the stop leads a loop to its end. *)
Lemma turns_closing l w v i :
  turns l w = Some v -> sound w -> shutdown v = false -> listeners v !! i = Some Closed ->
  listeners w !! i = Some Closed \/ ListenerTurn i AcceptFailed ∈ l.
Proof.
  revert w. induction l as [|t l IH]; intros w H Hw Hs Hi; [injection H as <-; auto|].
  apply turns_cons in H as (u & Ht & Hl). pose proof (turn_sound _ _ _ Ht Hw) as Hu.
  assert (shutdown u = false) as Hsu.
  { clear IH Ht Hw Hi Hu. revert u Hl. induction l as [|t' l IH]; intros u Hl; [by injection Hl as <-|].
    apply turns_cons in Hl as (x & Ht & Hl). specialize (IH _ Hl). invert_turn Ht; cbn in *; congruence. }
  destruct (IH _ Hl Hu Hs Hi) as [Hc|Hin]; [|right; by constructor].
  pose proof (sound_abort _ Hw) as Hab. pose proof (sound_aborted _ Hw) as Hsa.
  invert_turn Ht; cbn in *; try (by left); try congruence.
  - apply list_lookup_fmap_Some in Hc as (? & ? & _). done.
  - apply list_lookup_insert_Some in Hc as [(-> & _ & _)|(_ & Hc)]; [|by left]. right. constructor.
  - specialize (Hsa eq_refl). congruence.
Qed.

Lemma turns_serving l w v :
  turns l w = Some v -> (forall c, Served c ∉ l) -> exists more, serving v = more ++ serving w.
Proof.
  revert w. induction l as [|t l IH]; intros w H Hn; [injection H as <-; by exists []|].
  apply turns_cons in H as (u & Ht & Hl). destruct (IH _ Hl) as (more & Hm).
  { intros c Hc. apply (Hn c). by constructor. }
  assert (exists one, serving u = one ++ serving w) as (one & Ho).
  { invert_turn Ht; cbn; try (by exists []); [by exists [i]|]. destruct (Hn c). constructor. }
  exists (more ++ one). by rewrite Hm, Ho, <-app_assoc.
Qed.

(** ** Stopping *)
Definition all_closed (w : Adapter) : Prop := Forall (eq Closed) (listeners w).
(** The listeners whose loops still run. *)
Definition running (w : Adapter) : nat := length (filter (fun x => x <> Closed) (listeners w)).

Lemma running_zero w : running w = 0%nat -> all_closed w.
Proof.
  unfold running, all_closed. intros Hn. apply Forall_forall. intros x Hx. destruct (decide (x = Closed)) as [->|Hne]; [done|].
  assert (x ∈ filter (fun x => x <> Closed) (listeners w)) as Hin by (by apply list_elem_of_filter).
  apply nil_length_inv in Hn. rewrite Hn in Hin. by apply elem_of_nil in Hin.
Qed.
Lemma running_close w i x :
  listeners w !! i = Some x -> x <> Closed -> running w = S (running (set_listener i Closed w)).
Proof.
  intros Hi Hx. unfold running, set_listener. cbn [listeners]. revert i Hi.
  induction (listeners w) as [|y l IH]; intros [|i] Hi; [done..|injection Hi as ->|].
  - change (<[0%nat := Closed]> (x :: l)) with (Closed :: l). rewrite filter_cons_True by done. by rewrite filter_cons_False by (intros Hn; by apply Hn).
  - change (<[S i := Closed]> (y :: l)) with (y :: <[i := Closed]> l). rewrite !filter_cons.
    destruct (decide (y <> Closed)); cbn [length]; [f_equal|]; by apply IH.
Qed.
Lemma running_find w : running w <> 0%nat -> exists i x, listeners w !! i = Some x /\ x <> Closed.
Proof.
  unfold running. intros Hn. destruct (filter _ _) as [|x l] eqn:Hf; [done|].
  assert (x ∈ filter (fun x => x <> Closed) (listeners w)) as [Hne Hin]%list_elem_of_filter by (rewrite Hf; constructor).
  apply list_elem_of_lookup in Hin as (i & Hi). by exists i, x.
Qed.

(** Once the adapter is stopped and its supervising task gone, the loops that still run
    are left one by one. *)
Lemma loops_close n w :
  running w = n -> sound w -> supervisor w = Gone -> shutdown w = true ->
  exists l v, length l = n /\ Forall (fun t => ~ accepts t) l /\ turns l w = Some v /\ all_closed v /\
    supervisor v = Gone /\ serving v = serving w.
Proof.
  revert w. induction n as [|n IH]; intros w Hn Hw Hg Hs.
  - exists [], w. split_and!; try done. by apply running_zero.
  - destruct (running_find w) as (i & x & Hi & Hx); [lia|].
    assert (x = Accepting) as ->.
    { pose proof (sound_polled _ Hw) as Hp. rewrite Hg in Hp. destruct x; try done.
      destruct (Hp ltac:(done)). by eapply list_elem_of_lookup_2. }
    assert (turn (ListenerTurn i Changed) w = Some (set_listener i Closed w)) as Ht.
    { cbn. unfold listener_turn. by rewrite Hi, Hs. }
    pose proof (running_close _ _ _ Hi Hx) as Hc.
    destruct (IH (set_listener i Closed w)) as (l & v & Hl & Hna & Hrun & Hall & Hgv & Hsv);
      [lia|by eapply turn_sound|done..|].
    exists (ListenerTurn i Changed :: l), v. split_and!; try done.
    + cbn. by rewrite Hl.
    + constructor; [|done]. by intros (j & ?).
    + apply turns_cons. eauto.
Qed.

(** The life of an adapter, whatever order its tasks run in.  Until it is stopped a loop
    is left only because its [accept] failed.  Once it is stopped, one turn per listener
    and one of the supervising task, none of which takes a client in, end everything the
    adapter runs.  A loop that was left takes nobody in any more.  And no turn but its own
    end touches a connection that is served: stopping or dropping the adapter leaves the
    clients it has accepted alone. *)
Theorem adapter_stop_spec b l w (Hl : turns l (from_listeners b) = Some w) :
  (shutdown w = false -> forall i, listeners w !! i = Some Closed -> ListenerTurn i AcceptFailed ∈ l) /\
  (shutdown w = true -> exists l' v, (length l' <= S (length (listeners w)))%nat /\ Forall (fun t => ~ accepts t) l' /\
     turns l' w = Some v /\ all_closed v /\ supervisor v = Gone /\ serving v = serving w) /\
  forall l' v, turns l' w = Some v ->
    (forall i, listeners w !! i = Some Closed -> listeners v !! i = Some Closed /\ ListenerTurn i Accepted ∉ l') /\
    ((forall c, Served c ∉ l') -> exists more, serving v = more ++ serving w).
Proof.
  pose proof (turns_sound _ _ _ Hl (from_listeners_sound b)) as Hw. split_and!.
  - intros Hs i Hi. destruct (turns_closing _ _ _ _ Hl (from_listeners_sound b) Hs Hi) as [Hc|?]; [|done].
    cbn in Hc. apply list_lookup_fmap_Some in Hc as (? & ? & _). done.
  - intros Hs. pose proof (sound_abort _ Hw) as Ha. rewrite Hs in Ha.
    assert (running w <= length (listeners w))%nat as Hr by apply length_filter.
    destruct (supervisor w) eqn:Hg.
    + exists [SupervisorDropped], (supervise ((fun _ => Closed) <$> listeners w) Gone (aborted w) w).
      split_and!; try done; [cbn; lia| | |].
      * constructor; [by intros (? & ?)|constructor].
      * cbn. unfold supervisor_dropped. by rewrite Ha, Hg.
      * unfold all_closed. cbn. apply fmap_const.
    + assert (turn SupervisorDropped w = Some (supervise (listeners w) Gone (aborted w) w)) as Ht.
      { cbn. unfold supervisor_dropped. by rewrite Ha, Hg. }
      destruct (loops_close _ (supervise (listeners w) Gone (aborted w) w) eq_refl) as (l' & v & Hlen & Hna & Hrun & Hall & Hgv & Hsv);
        [by eapply turn_sound|done..|].
      exists (SupervisorDropped :: l'), v. split_and!; try done.
      * unfold running, supervise in Hlen. cbn in *. unfold running in Hr. lia.
      * constructor; [by intros (? & ?)|done].
      * apply turns_cons. eauto.
    + destruct (loops_close _ w eq_refl Hw Hg Hs) as (l' & v & Hlen & Hna & Hrun & Hall & Hgv & Hsv).
      exists l', v. split_and!; try done. lia.
  - intros l' v Hv. split; [intros i Hi; by eapply turns_closed|by eapply turns_serving].
Qed.

(** ** A run *)
Module ListenerExamples.
Definition online_runtime : RuntimeInner :=
  {| lifecycle := {| snapshot := {| revision := 2; Runtime.generation := 1; phase := Online; failure := None |} |};
     client := Some 0%nat; lifecycle_task := Some 1;
     published := {| revision := 2; Runtime.generation := 1; phase := Online; failure := None |}; closed := [] |}.
(** Port zero: the system chooses 40001. *)
Definition interfaces : Interfaces :=
  {| bind address := match address with SocketV4 _ _ => Some 4%nat | SocketV6 _ port _ _ => if port =? 40001 then Some 6%nat else None end;
     local_addr _ := Some (SocketV4 V4_LOCALHOST 40001) |}.
Definition both : Bound := {| bound_address := SocketV4 V4_LOCALHOST 40001; bound_policy := RoutingPolicy.proxy_all;
     bound_listeners := [4; 6]%nat |}.
Example starts : start interfaces online_runtime 0 = Ok both.
Proof. reflexivity. Qed.
Example not_everywhere : start_on_loopback interfaces online_runtime (SocketV4 0 8080) RoutingPolicy.proxy_all = Err PermissionDenied.
Proof. reflexivity. Qed.
Example mapped_refused :
  start_on_loopback interfaces online_runtime (SocketV6 (65535 * 4294967296 + V4_LOCALHOST) 8080 0 0) RoutingPolicy.proxy_all = Err PermissionDenied.
Proof. reflexivity. Qed.

(** A client came in over each listener, the second one failed, and the adapter was stopped. *)
Definition a_life : list Turn :=
  [SupervisorTurn; ListenerTurn 0 Accepted; ListenerTurn 1 Accepted; ListenerTurn 1 AcceptFailed; Stop].
Definition stopped_adapter : Adapter :=
  {| listeners := [Accepting; Closed]; supervisor := Supervising; shutdown := true; abort_requested := true;
     aborted := false; serving := [1; 0]%nat |}.

Lemma adapter_stop_spec_witness :
  turns a_life (from_listeners both) = Some stopped_adapter /\
  exists l v, turns l stopped_adapter = Some v /\ all_closed v /\ serving v = [1; 0]%nat.
Proof.
  assert (turns a_life (from_listeners both) = Some stopped_adapter) as H by reflexivity.
  split; [exact H|].
  destruct (proj1 (proj2 (adapter_stop_spec both a_life stopped_adapter H)) eq_refl) as (l & v & _ & _ & Ht & Hc & _ & Hs).
  exists l, v. exact (conj Ht (conj Hc Hs)).
Defined.
End ListenerExamples.
