(* ===== verification/NodeFiles.v ===== *)
(** Files as the node's commands use them ([apps/velum-node/src/config.rs],
    [enrollment.rs]): paths, a file system whose every system call may fail,
    and the functions of [std::fs] over it.  Symbolic links, [..] and the
    contents of directories are left out. *)
From S2P Require Import Prelude Str Utf8.
Import Utf8.

(** ** Paths *)
Record Path := { absolute : bool; components : list Str }.
#[export] Instance Path_eq_dec : EqDecision Path.
Proof. solve_decision. Defined.
#[export] Instance Path_countable : Countable Path.
Proof.
  refine (inj_countable' (fun p => (absolute p, components p)) (fun '(a, c) => {| absolute := a; components := c |}) _).
  by intros [].
Defined.

Module Path.
(** [PathBuf::from]; a dot names the directory itself. *)
Definition from (s : Str) : Path :=
  {| absolute := starts_with 47 s;
     components := filter (fun c => c <> [] /\ c <> [46]) (split 47 s) |}.
Definition parent (self : Path) : option Path :=
  match components self with
  | [] => None
  | c => Some {| absolute := absolute self; components := removelast c |}
  end.
(** [join] with one relative component. *)
Definition join (self : Path) (name : Str) : Path :=
  {| absolute := absolute self; components := components self ++ [name] |}.
(** [join] with a path, which an absolute one replaces. *)
Definition join_path (self other : Path) : Path :=
  if absolute other then other else {| absolute := absolute self; components := components self ++ components other |}.
(** The name up to its last dot, unless that is its first character. *)
Definition file_stem (name : Str) : Str :=
  match rsplit_once 46 name with
  | Some ([], _) | None => name
  | Some (stem, _) => stem
  end.
Definition with_extension (self : Path) (extension : Str) : Path :=
  match rev (components self) with
  | [] => self
  | name :: rest => {| absolute := absolute self; components := rev rest ++ [file_stem name ++ [46] ++ extension] |}
  end.
End Path.

(** ** The file system *)
Record File := { contents : list byte; permissions : N }.
(** [faults] says of each coming system call whether it fails, and how many bytes
    it still wrote if it was a write; [umask] is the mode a new file gets by
    default. *)
Record FileSystem := { files : gmap Path File; faults : list (option nat); umask : N }.
Inductive IoError := NotFound | AlreadyExists | OtherError.

Definition set_files (m : gmap Path File) (s : FileSystem) : FileSystem :=
  {| files := m; faults := faults s; umask := umask s |}.
Definition next_call (s : FileSystem) : FileSystem :=
  {| files := files s; faults := tail (faults s); umask := umask s |}.

Definition next_fault (s : FileSystem) : option nat := mjoin (head (faults s)).
(** One system call fails without an effect when its fault is set. *)
Definition system_call : M FileSystem IoError unit := fun s =>
  match next_fault s with
  | Some _ => Ret (Err OtherError, next_call s)
  | None => Ret (Ok tt, next_call s)
  end.

(** The result of a call as a value: what a [match] on its answer sees. *)
Definition attempt {S E F A} (m : M S E A) : M S F (result A E) := fun s =>
  match m s with
  | Ret (r, s') => Ret (Ok r, s')
  | Panic => Panic
  | OutOfFuel => OutOfFuel
  end.
Lemma wp_attempt {S E F A} (m : M S E A) s (Q : result (result A E) F -> S -> Prop) :
  wp m s (fun r s' => Q (Ok r) s') -> wp (attempt m) s Q.
Proof. unfold wp, attempt. by destruct (m s) as [[r s']| |]. Qed.

Module fs.
Definition file_at (path : Path) : M FileSystem IoError File :=
  let! s := get in
  match files s !! path with Some file => ret file | None => throw NotFound end.

Definition create_dir_all (path : Path) : M FileSystem IoError unit := system_call.
(** [metadata(path)?.permissions().mode()] *)
Definition mode (path : Path) : M FileSystem IoError N :=
  system_call ;! let! file := file_at path in ret (permissions file).
(** [path.exists()]: an error counts as no. *)
Definition exists_ {E} (path : Path) : M FileSystem E bool := fun s =>
  match mode path s with
  | Ret (Ok _, s') => Ret (Ok true, s')
  | Ret (Err _, s') => Ret (Ok false, s')
  | Panic => Panic
  | OutOfFuel => OutOfFuel
  end.
(** [File::open] *)
Definition open (path : Path) : M FileSystem IoError unit :=
  system_call ;! let! _ := file_at path in ret tt.
Definition read (path : Path) : M FileSystem IoError (list byte) :=
  system_call ;! let! file := file_at path in ret (contents file).
(** [read_to_string]: other bytes than UTF-8 are an error. *)
Definition read_to_string (path : Path) : M FileSystem IoError Str :=
  let! bytes := read path in ok_or (decode bytes) OtherError.
(** [write_all] on the open file: a failing write leaves a part behind. *)
Definition write_all (path : Path) (bytes : list byte) : M FileSystem IoError unit :=
  let! file := file_at path in
  let! s := get in
  let put written :=
    set_files (<[path := {| contents := contents file ++ written; permissions := permissions file |}]> (files s)) in
  modify next_call ;!
  match next_fault s with
  | Some n => modify (put (take n bytes)) ;! throw OtherError
  | None => modify (put bytes)
  end.
(** [write] opens, which empties the file or makes a new one, and then writes. *)
Definition write (path : Path) (bytes : list byte) : M FileSystem IoError unit :=
  system_call ;!
  let! s := get in
  let mode := match files s !! path with Some file => permissions file | None => umask s end in
  modify (set_files (<[path := {| contents := []; permissions := mode |}]> (files s))) ;!
  write_all path bytes.
Definition set_permissions (path : Path) (mode : N) : M FileSystem IoError unit :=
  system_call ;!
  let! file := file_at path in
  let! s := get in
  modify (set_files (<[path := {| contents := contents file; permissions := mode |}]> (files s))).
Definition rename (source target : Path) : M FileSystem IoError unit :=
  system_call ;!
  let! file := file_at source in
  let! s := get in
  modify (set_files (<[target := file]> (delete source (files s)))).
Definition remove_file (path : Path) : M FileSystem IoError unit :=
  system_call ;!
  let! file := file_at path in
  let! s := get in
  modify (set_files (delete path (files s))).
(** [OpenOptions::new().write(true).create_new(true).mode(..)] *)
Definition create_new (path : Path) (mode : N) : M FileSystem IoError unit :=
  system_call ;!
  let! s := get in
  match files s !! path with
  | Some _ => throw AlreadyExists
  | None => modify (set_files (<[path := {| contents := []; permissions := mode |}]> (files s)))
  end.
(** [copy] of the contents and the mode.  The target is emptied first, so a
    file copied to itself is lost. *)
Definition copy (source target : Path) : M FileSystem IoError unit :=
  open source ;!
  let! file := file_at source in
  system_call ;!
  let! s := get in
  modify (set_files (<[target := {| contents := []; permissions := permissions file |}]> (files s))) ;!
  let! file := file_at source in
  write_all target (contents file).
(** [set_permissions] of a directory, which is no file here. *)
Definition set_directory_permissions (path : Path) (mode : N) : M FileSystem IoError unit := system_call.
End fs.

(** ** What the calls leave *)

(** [same e f] but for the paths in [P]. *)
Definition same_but (P : Path -> Prop) (s s' : FileSystem) : Prop :=
  forall p, ~ P p -> files s' !! p = files s !! p.
Lemma same_but_refl P s : same_but P s s.
Proof. done. Qed.
Lemma same_but_files P s s' : files s' = files s -> same_but P s s'.
Proof. intros Hs p _. by rewrite Hs. Qed.
Lemma same_but_trans P s t u : same_but P s t -> same_but P t u -> same_but P s u.
Proof. intros H1 H2 p Hp. by rewrite H2, H1. Qed.
Lemma same_but_mono (P Q : Path -> Prop) s t : (forall p, P p -> Q p) -> same_but P s t -> same_but Q s t.
Proof. intros HPQ H p Hp. apply H. auto. Qed.
Lemma same_but_delete (P : Path -> Prop) path s s' :
  P path -> files s' = files s \/ files s' = delete path (files s) -> same_but P s s'.
Proof.
  intros HP Hs p Hp. destruct Hs as [->| ->]; [done|]. apply lookup_delete_ne. by intros ->.
Qed.
Lemma same_but_insert (P : Path -> Prop) path file s s' :
  P path -> files s' = <[path := file]> (files s) -> same_but P s s'.
Proof. intros HP Hs p Hp. rewrite Hs. apply lookup_insert_ne. by intros ->. Qed.

Lemma wp_faulty_call s (Q : result unit IoError -> FileSystem -> Prop) :
  (forall s', files s' = files s -> umask s' = umask s -> Q (Ok tt) s') ->
  (forall s', files s' = files s -> umask s' = umask s -> Q (Err OtherError) s') ->
  wp system_call s Q.
Proof. intros Hok Herr. unfold system_call, wp. destruct (next_fault s); [by apply Herr|by apply Hok]. Qed.

Lemma wp_call {A} (f : unit -> M FileSystem IoError A) s Q :
  (forall s', files s' = files s -> umask s' = umask s -> wp (f tt) s' Q) ->
  (forall s', files s' = files s -> umask s' = umask s -> Q (Err OtherError) s') ->
  wp (bind system_call f) s Q.
Proof. intros Hok Herr. by apply wp_bind, wp_faulty_call. Qed.

Lemma wp_file_at {A} s path (f : File -> M FileSystem IoError A) Q :
  (forall file, files s !! path = Some file -> wp (f file) s Q) ->
  (files s !! path = None -> Q (Err NotFound) s) -> wp (bind (fs.file_at path) f) s Q.
Proof.
  intros Hok Herr. apply wp_bind. unfold fs.file_at. wp_step.
  destruct (files s !! path) as [file|] eqn:Hf; wp_step; [by apply Hok|by apply Herr].
Qed.

Section calls_one.
Context (s : FileSystem).

Lemma wp_read path (Q : result (list byte) IoError -> FileSystem -> Prop) :
  (forall s' file, files s' = files s -> umask s' = umask s -> files s !! path = Some file -> Q (Ok (contents file)) s') ->
  (forall s' e, files s' = files s -> umask s' = umask s -> Q (Err e) s') -> wp (fs.read path) s Q.
Proof.
  intros Hok Herr. unfold fs.read. apply wp_call; intros s' Hs Hu; [|by apply Herr].
  apply wp_file_at; rewrite Hs; [|intros _; by apply Herr]. intros file Hf. wp_step. by apply Hok.
Qed.

Lemma wp_read_to_string path (Q : result Str IoError -> FileSystem -> Prop) :
  (forall s' file text, files s' = files s -> umask s' = umask s -> files s !! path = Some file ->
     decode (contents file) = Some text -> Q (Ok text) s') ->
  (forall s' e, files s' = files s -> umask s' = umask s -> Q (Err e) s') -> wp (fs.read_to_string path) s Q.
Proof.
  intros Hok Herr. unfold fs.read_to_string. apply wp_bind, wp_read; [|done].
  intros s' file Hs Hu Hf. destruct (decode (contents file)) as [text|] eqn:Hd; cbn [ok_or]; wp_step.
  - by apply (Hok s' file).
  - by apply Herr.
Qed.

Lemma wp_mode path (Q : result N IoError -> FileSystem -> Prop) :
  (forall s' file, files s' = files s -> umask s' = umask s -> files s !! path = Some file -> Q (Ok (permissions file)) s') ->
  (forall s' e, files s' = files s -> umask s' = umask s -> Q (Err e) s') -> wp (fs.mode path) s Q.
Proof.
  intros Hok Herr. unfold fs.mode. apply wp_call; intros s' Hs Hu; [|by apply Herr].
  apply wp_file_at; rewrite Hs; [|intros _; by apply Herr]. intros file Hf. wp_step. by apply Hok.
Qed.

Lemma wp_exists {E} path (Q : result bool E -> FileSystem -> Prop) :
  (forall s', files s' = files s -> umask s' = umask s -> is_Some (files s !! path) -> Q (Ok true) s') ->
  (forall s', files s' = files s -> umask s' = umask s -> Q (Ok false) s') -> wp (fs.exists_ path) s Q.
Proof.
  intros Htrue Hfalse. unfold fs.exists_, wp.
  pose proof (wp_mode path (fun r s' => files s' = files s /\ umask s' = umask s /\
    match r with Ok _ => is_Some (files s !! path) | Err _ => True end)) as H. unfold wp in H.
  destruct (fs.mode path s) as [[[n|e] s']| |].
  - destruct H as (H1 & H2 & H3); [|done|by apply Htrue]. intros s2 file -> -> Hf. by rewrite Hf.
  - destruct H as (H1 & H2 & _); [|done|by apply Hfalse]. intros s2 file -> -> Hf. by rewrite Hf.
  - apply H; [|done]. intros s2 file -> -> Hf. by rewrite Hf.
  - apply H; [|done]. intros s2 file -> -> Hf. by rewrite Hf.
Qed.

Lemma wp_set_permissions path mode (Q : result unit IoError -> FileSystem -> Prop) :
  (forall s' file, umask s' = umask s -> files s !! path = Some file ->
     files s' = <[path := {| contents := contents file; permissions := mode |}]> (files s) -> Q (Ok tt) s') ->
  (forall s' e, umask s' = umask s -> files s' = files s -> Q (Err e) s') ->
  wp (fs.set_permissions path mode) s Q.
Proof.
  intros Hok Herr. unfold fs.set_permissions. apply wp_call; intros s1 Hs1 Hu1; [|by apply Herr].
  apply wp_file_at; rewrite Hs1; [|intros _; by apply Herr]. intros file Hf. do 2 wp_step.
  apply (Hok _ file); [done|done|]. cbn. by rewrite Hs1.
Qed.

Lemma wp_rename source target (Q : result unit IoError -> FileSystem -> Prop) :
  (forall s' file, umask s' = umask s -> files s !! source = Some file ->
     files s' = <[target := file]> (delete source (files s)) -> Q (Ok tt) s') ->
  (forall s' e, umask s' = umask s -> files s' = files s -> Q (Err e) s') ->
  wp (fs.rename source target) s Q.
Proof.
  intros Hok Herr. unfold fs.rename. apply wp_call; intros s1 Hs1 Hu1; [|by apply Herr].
  apply wp_file_at; rewrite Hs1; [|intros _; by apply Herr]. intros file Hf. do 2 wp_step.
  apply (Hok _ file); [done|done|]. cbn. by rewrite Hs1.
Qed.

Lemma wp_remove_file path (Q : result unit IoError -> FileSystem -> Prop) :
  (forall s', umask s' = umask s -> is_Some (files s !! path) -> files s' = delete path (files s) -> Q (Ok tt) s') ->
  (forall s' e, umask s' = umask s -> files s' = files s -> (e = NotFound -> files s !! path = None) -> Q (Err e) s') ->
  wp (fs.remove_file path) s Q.
Proof.
  intros Hok Herr. unfold fs.remove_file. apply wp_call; intros s1 Hs1 Hu1; [|by apply Herr].
  apply wp_file_at; rewrite Hs1; [|intros Hn; by apply Herr]. intros file Hf. do 2 wp_step.
  apply Hok; [done|by exists file|]. cbn. by rewrite Hs1.
Qed.

Lemma wp_create_new path mode (Q : result unit IoError -> FileSystem -> Prop) :
  (forall s', umask s' = umask s -> files s !! path = None ->
     files s' = <[path := {| contents := []; permissions := mode |}]> (files s) -> Q (Ok tt) s') ->
  (forall s' e, umask s' = umask s -> files s' = files s -> Q (Err e) s') ->
  wp (fs.create_new path mode) s Q.
Proof.
  intros Hok Herr. unfold fs.create_new. apply wp_call; intros s1 Hs1 Hu1; [|by apply Herr].
  wp_step. rewrite Hs1. destruct (files s !! path) eqn:Hf; wp_step; [by apply Herr|].
  apply Hok; [done|done|]. cbn. done.
Qed.

Lemma wp_write_all path bytes file (Q : result unit IoError -> FileSystem -> Prop) :
  files s !! path = Some file ->
  (forall s', umask s' = umask s ->
     files s' = <[path := {| contents := contents file ++ bytes; permissions := permissions file |}]> (files s) ->
     Q (Ok tt) s') ->
  (forall s' n, umask s' = umask s ->
     files s' = <[path := {| contents := contents file ++ take n bytes; permissions := permissions file |}]> (files s) ->
     Q (Err OtherError) s') ->
  wp (fs.write_all path bytes) s Q.
Proof.
  intros Hf Hok Herr. unfold fs.write_all. apply wp_file_at; rewrite Hf; [|done]. intros ? [= <-].
  do 2 wp_step. destruct (next_fault s) as [n|]; repeat wp_step; [by apply (Herr _ n)|by apply Hok].
Qed.

End calls_one.

(** Afterwards the file holds all of the bytes, or the call failed and it is the
    old one or holds the first of them. *)
Lemma wp_write s path bytes (Q : result unit IoError -> FileSystem -> Prop) :
  let mode := match files s !! path with Some file => permissions file | None => umask s end in
  (forall s', umask s' = umask s -> files s' = <[path := {| contents := bytes; permissions := mode |}]> (files s) ->
     Q (Ok tt) s') ->
  (forall s', umask s' = umask s -> files s' = files s -> Q (Err OtherError) s') ->
  (forall s' n, umask s' = umask s ->
     files s' = <[path := {| contents := take n bytes; permissions := mode |}]> (files s) -> Q (Err OtherError) s') ->
  wp (fs.write path bytes) s Q.
Proof.
  intros mode Hok Herr Hpart. unfold fs.write. apply wp_call; intros s1 Hs1 Hu1; [|by apply Herr].
  wp_step. rewrite Hs1, Hu1. fold mode. wp_step.
  eapply wp_write_all; cbn [files set_files umask].
  - apply lookup_insert_eq.
  - intros s2 Hu2 Hs2. apply Hok; [congruence|]. by rewrite Hs2, insert_insert_eq.
  - intros s2 n Hu2 Hs2. apply (Hpart _ n); [congruence|]. by rewrite Hs2, insert_insert_eq.
Qed.

Lemma wp_copy s source target (Q : result unit IoError -> FileSystem -> Prop) :
  source <> target ->
  (forall s' file, umask s' = umask s -> files s !! source = Some file -> files s' = <[target := file]> (files s) ->
     Q (Ok tt) s') ->
  (forall s' e, umask s' = umask s -> same_but (fun p => p = target) s s' -> Q (Err e) s') ->
  wp (fs.copy source target) s Q.
Proof.
  intros Hne Hok Herr. unfold fs.copy, fs.open.
  assert (forall s' e, umask s' = umask s -> files s' = files s -> Q (Err e) s') as Hsame
    by (intros s' e Hu Hs; by apply Herr, same_but_files).
  apply wp_bind, wp_call; intros s1 Hs1 Hu1; [|by apply Hsame].
  apply wp_file_at; rewrite Hs1; [|intros; by apply Hsame]. intros file Hf. wp_step.
  apply wp_file_at; rewrite Hs1; [|intros; by apply Hsame]. intros file' Hf'.
  assert (file' = file) as -> by congruence. apply wp_call; intros s2 Hs2 Hu2; [|apply Hsame; congruence].
  do 2 wp_step. apply wp_file_at; cbn [files set_files]; rewrite Hs2, Hs1.
  2: { intros Hn. rewrite lookup_insert_ne in Hn by done. congruence. }
  rewrite lookup_insert_ne by done. intros ? Hf2. assert (file0 = file) as -> by congruence.
  eapply wp_write_all; cbn [files set_files umask].
  - apply lookup_insert_eq.
  - intros s3 Hu3 Hs3. apply (Hok _ file); [cbn in *; congruence|done|]. cbn in Hs3.
    rewrite Hs3, insert_insert_eq. by destruct file.
  - intros s3 n Hu3 Hs3. apply Herr; [cbn in *; congruence|]. eapply same_but_insert; [done|].
    cbn in Hs3. by rewrite Hs3, insert_insert_eq.
Qed.
