(* ===== verification/NodeSocket.v ===== *)
(** The socket operators reach a node by ([apps/velum-node/src/admin.rs]): the
    private directory it lies in, replacing what an earlier node left, binding
    it and removing it again; and the client's side of a request.  The file
    system has directories, sockets, other files and symbolic links, and every
    system call may fail. *)
From S2P Require Import Prelude Str Utf8 NodeFiles.

(** ** The file system *)
Inductive Kind := Directory | Socket | Regular.
#[export] Instance Kind_eq_dec : EqDecision Kind. Proof. solve_decision. Defined.
Record Inode := { kind : Kind; mode : N }.
(** A symbolic link leads to something or to nothing. *)
Inductive Entry := Here (inode : Inode) | Link (target : option Inode).
(** [faults] says of each coming system call whether it fails. *)
Record Machine := { entries : gmap Path Entry; faults : list bool; umask : N }.
Definition set_entries (m : gmap Path Entry) (s : Machine) : Machine :=
  {| entries := m; faults := faults s; umask := umask s |}.
Definition next_call (s : Machine) : Machine :=
  {| entries := entries s; faults := tail (faults s); umask := umask s |}.

Inductive IoError := NotFound | AlreadyExists | OtherError.
Abbreviation Io := (M Machine IoError) (only parsing).
Definition system_call : M Machine IoError unit := fun s =>
  if default false (head (faults s)) then Ret (Err OtherError, next_call s) else Ret (Ok tt, next_call s).
Definition created (permissions umask : N) : N := N.ldiff permissions umask.
(** Following links. *)
Definition leads_to (m : gmap Path Entry) (path : Path) : option Inode :=
  match m !! path with Some (Here inode) => Some inode | Some (Link target) => target | None => None end.
Definition is_directory (inode : Inode) : bool := bool_decide (kind inode = Directory).
(** The empty path is the working directory. *)
Definition holds_files (m : gmap Path Entry) (directory : Path) : bool :=
  (negb (absolute directory) && is_empty (components directory))
  || match leads_to m directory with Some inode => is_directory inode | None => false end.

Module io.
Definition metadata (path : Path) : M Machine IoError Inode :=
  system_call ;! let! s := get in ok_or (leads_to (entries s) path) NotFound.
Definition symlink_metadata (path : Path) : M Machine IoError Entry :=
  system_call ;! let! s := get in ok_or (entries s !! path) NotFound.
(** [exists] and [is_dir]: an error counts as no. *)
Definition exists_ {E} (path : Path) : M Machine E bool := let! r := attempt (metadata path) in ret (is_ok r).
Definition is_dir (path : Path) : M Machine IoError bool :=
  let! r := attempt (metadata path) in ret match r with Ok inode => is_directory inode | Err _ => false end.

(** A new entry, where there is none and its directory is there. *)
Definition make (path : Path) (k : Kind) (permissions : N) : M Machine IoError unit :=
  system_call ;!
  let! s := get in
  match entries s !! path with
  | Some _ => throw AlreadyExists
  | None =>
    match Path.parent path with
    | None => throw OtherError
    | Some directory =>
      if holds_files (entries s) directory then
        modify (set_entries (<[path := Here {| kind := k; mode := created permissions (umask s) |}]> (entries s)))
      else throw NotFound
    end
  end.
Definition mkdir (path : Path) : M Machine IoError unit := make path Directory 511.
(** [UnixListener::bind] *)
Definition bind_socket (path : Path) : M Machine IoError unit := make path Socket 511.

(** [create_dir_all], over the components from the last to the first. *)
Definition mkdir_or_is_dir (path : Path) : M Machine IoError unit :=
  let! made := attempt (mkdir path) in
  match made with
  | Ok _ => ret tt
  | Err e => let! there := is_dir path in if there then ret tt else throw e
  end.
Fixpoint create_rev (rooted : bool) (reversed : list Str) : M Machine IoError unit :=
  let path := {| absolute := rooted; components := rev reversed |} in
  match reversed with
  | [] => if rooted then mkdir_or_is_dir path else ret tt
  | _ :: ancestors =>
    let! made := attempt (mkdir path) in
    match made with
    | Ok _ => ret tt
    | Err NotFound => create_rev rooted ancestors ;! mkdir_or_is_dir path
    | Err e => let! there := is_dir path in if there then ret tt else throw e
    end
  end.
Definition create_dir_all (path : Path) : M Machine IoError unit :=
  create_rev (absolute path) (rev (components path)).

Definition set_permissions (path : Path) (permissions : N) : M Machine IoError unit :=
  system_call ;!
  let! s := get in
  match entries s !! path with
  | Some (Here inode) => modify (set_entries (<[path := Here {| kind := kind inode; mode := permissions |}]> (entries s)))
  | Some (Link (Some inode)) =>
    modify (set_entries (<[path := Link (Some {| kind := kind inode; mode := permissions |})]> (entries s)))
  | _ => throw NotFound
  end.
(** A link is removed itself; a directory is not removed. *)
Definition remove_file (path : Path) : M Machine IoError unit :=
  system_call ;!
  let! s := get in
  match entries s !! path with
  | Some (Here inode) => if is_directory inode then throw OtherError else modify (set_entries (delete path (entries s)))
  | Some (Link _) => modify (set_entries (delete path (entries s)))
  | None => throw NotFound
  end.
End io.

(** ** The socket of a node *)
Inductive SocketError :=
| HasNoParent
| CannotCreateDirectory (path : Path) (e : IoError)
| CannotInspectDirectory (path : Path) (e : IoError)
| CannotRestrictDirectory (path : Path) (e : IoError)
| DirectoryNotPrivate (path : Path)
| CannotInspectSocket (path : Path) (e : IoError)
| RefusingToReplace (path : Path)
| CannotReplaceSocket (path : Path) (e : IoError)
| CannotBind (path : Path) (e : IoError)
| CannotRestrictSocket (path : Path) (e : IoError).

(** What is modelled of [Server]: its listener and task are those of the node's
    service. *)
Record Server := { server_path : Path }.

Definition restrict_directory (path : Path) : M Machine SocketError unit :=
  map_err (CannotRestrictDirectory path) (io.set_permissions path 448).
Definition verify_private_directory (path : Path) : M Machine SocketError unit :=
  let! inode := map_err (CannotInspectDirectory path) (io.metadata path) in
  reject_if (negb (N.land (mode inode) 63 =? 0)) (DirectoryNotPrivate path).
Definition is_socket (e : Entry) : bool :=
  match e with Here inode => bool_decide (kind inode = Socket) | Link _ => false end.
Definition verify_socket_path (path : Path) : M Machine SocketError unit :=
  let! entry := map_err (CannotInspectSocket path) (io.symlink_metadata path) in
  reject_if (negb (is_socket entry)) (RefusingToReplace path).
Definition restrict_socket (path : Path) : M Machine SocketError unit :=
  map_err (CannotRestrictSocket path) (io.set_permissions path 384).

Definition spawn (path : Path) : M Machine SocketError Server :=
  let! parent := ok_or (Path.parent path) HasNoParent in
  let! parent_existed := io.exists_ parent in
  map_err (CannotCreateDirectory parent) (io.create_dir_all parent) ;!
  (if parent_existed : bool then verify_private_directory parent else restrict_directory parent) ;!
  let! there := io.exists_ path in
  (if there : bool then
     verify_socket_path path ;!
     map_err (CannotReplaceSocket path) (io.remove_file path)
   else ret tt) ;!
  map_err (CannotBind path) (io.bind_socket path) ;!
  restrict_socket path ;!
  ret {| server_path := path |}.

(** [Server::stop]: what removing answers is ignored. *)
Definition stop (self : Server) : M Machine SocketError unit :=
  let! _ := attempt (io.remove_file (server_path self)) in ret tt.

(** ** What the calls do *)
Lemma wp_any_call s (Q : result unit IoError -> Machine -> Prop) :
  (forall r s', entries s' = entries s -> umask s' = umask s -> r = Ok tt \/ r = Err OtherError -> Q r s') -> wp system_call s Q.
Proof. intros H. unfold system_call, wp. destruct (default false _); apply H; auto. Qed.

(** A system call, then [f] on the state as it is. *)
Lemma wp_after_call {A} (f : Machine -> M Machine IoError A) s (Q : result A IoError -> Machine -> Prop) :
  (forall s', entries s' = entries s -> umask s' = umask s -> wp (f s') s' Q) ->
  (forall s', entries s' = entries s -> umask s' = umask s -> Q (Err OtherError) s') ->
  wp (bind system_call (fun _ => bind get f)) s Q.
Proof.
  intros Hok Herr. apply wp_bind, wp_any_call. intros r s' Hs Hu [->| ->]; [|by apply Herr].
  apply wp_bind_get. by apply Hok.
Qed.

Section machine.
Context (s : Machine).

Lemma wp_metadata path (Q : result Inode IoError -> Machine -> Prop) :
  (forall s' inode, entries s' = entries s -> umask s' = umask s -> leads_to (entries s) path = Some inode -> Q (Ok inode) s') ->
  (forall s' e, entries s' = entries s -> umask s' = umask s -> Q (Err e) s') -> wp (io.metadata path) s Q.
Proof.
  intros Hok Herr. apply wp_after_call; intros s' Hs Hu; [|by apply Herr]. rewrite Hs.
  destruct (leads_to (entries s) path) as [inode|] eqn:Hl; cbn [ok_or]; [apply wp_ret; by apply Hok|apply wp_throw; by apply Herr].
Qed.
Lemma wp_symlink_metadata path (Q : result Entry IoError -> Machine -> Prop) :
  (forall s' e, entries s' = entries s -> umask s' = umask s -> entries s !! path = Some e -> Q (Ok e) s') ->
  (forall s' e, entries s' = entries s -> umask s' = umask s -> Q (Err e) s') -> wp (io.symlink_metadata path) s Q.
Proof.
  intros Hok Herr. apply wp_after_call; intros s' Hs Hu; [|by apply Herr]. rewrite Hs.
  destruct (entries s !! path) as [e|] eqn:Hl; cbn [ok_or]; [apply wp_ret; by apply Hok|apply wp_throw; by apply Herr].
Qed.
Lemma wp_there {E} path (Q : result bool E -> Machine -> Prop) :
  (forall s' b, entries s' = entries s -> umask s' = umask s -> (b = true -> is_Some (leads_to (entries s) path)) -> Q (Ok b) s') ->
  wp (io.exists_ path) s Q.
Proof.
  intros H. unfold io.exists_. apply wp_bind, wp_attempt, wp_metadata; intros s' x Hs Hu; [|by apply wp_ret, H].
  intros Hl. apply wp_ret, H; [done..|]. intros _. by exists x.
Qed.
Lemma wp_is_dir path (Q : result bool IoError -> Machine -> Prop) :
  (forall s' b, entries s' = entries s -> umask s' = umask s ->
     (b = true -> exists inode, leads_to (entries s) path = Some inode /\ is_directory inode = true) -> Q (Ok b) s') ->
  wp (io.is_dir path) s Q.
Proof.
  intros H. unfold io.is_dir. apply wp_bind, wp_attempt, wp_metadata; intros s' x Hs Hu; [|by apply wp_ret, H].
  intros Hl. apply wp_ret, H; [done..|]. intros Hd. by exists x.
Qed.
Lemma wp_make path k permissions (Q : result unit IoError -> Machine -> Prop) :
  (forall s' directory, umask s' = umask s -> entries s !! path = None -> Path.parent path = Some directory ->
     holds_files (entries s) directory = true ->
     entries s' = <[path := Here {| kind := k; mode := created permissions (umask s) |}]> (entries s) -> Q (Ok tt) s') ->
  (forall s' e, entries s' = entries s -> umask s' = umask s -> Q (Err e) s') -> wp (io.make path k permissions) s Q.
Proof.
  intros Hok Herr. apply wp_after_call; intros s' Hs Hu; [|by apply Herr]. rewrite Hs, Hu.
  destruct (entries s !! path) eqn:Hp; [apply wp_throw; by apply Herr|].
  destruct (Path.parent path) as [directory|] eqn:Hd; [|apply wp_throw; by apply Herr].
  destruct (holds_files (entries s) directory) eqn:Hh; [|apply wp_throw; by apply Herr].
  apply wp_modify. by apply (Hok _ directory).
Qed.
Lemma wp_change_mode path permissions (Q : result unit IoError -> Machine -> Prop) :
  (forall s' e, umask s' = umask s -> leads_to (entries s) path = Some e ->
     entries s' = <[path := match entries s !! path with
                            | Some (Link _) => Link (Some {| kind := kind e; mode := permissions |})
                            | _ => Here {| kind := kind e; mode := permissions |} end]> (entries s) -> Q (Ok tt) s') ->
  (forall s' e, entries s' = entries s -> umask s' = umask s -> Q (Err e) s') -> wp (io.set_permissions path permissions) s Q.
Proof.
  intros Hok Herr. apply wp_after_call; intros s' Hs Hu; [|by apply Herr]. rewrite Hs.
  unfold leads_to in Hok. destruct (entries s !! path) as [[inode|[inode|]]|]; try (apply wp_throw; by apply Herr);
    apply wp_modify, (Hok _ inode); cbn; by rewrite ?Hs.
Qed.
Lemma wp_remove_entry path (Q : result unit IoError -> Machine -> Prop) :
  (forall s', umask s' = umask s -> entries s' = delete path (entries s) -> Q (Ok tt) s') ->
  (forall s' e, entries s' = entries s -> umask s' = umask s -> Q (Err e) s') -> wp (io.remove_file path) s Q.
Proof.
  intros Hok Herr. apply wp_after_call; intros s' Hs Hu; [|by apply Herr]. rewrite Hs.
  destruct (entries s !! path) as [[inode|target]|]; [destruct (is_directory inode)| |];
    first [apply wp_throw; by apply Herr|apply wp_modify; by apply Hok].
Qed.
End machine.

(** ** Creating directories *)
Definition new_directory (old new : option Entry) : Prop :=
  old = None /\ exists permissions, new = Some (Here {| kind := Directory; mode := permissions |}).
(** Only paths in [P] may have become directories. *)
Definition grown (P : Path -> Prop) (s s' : Machine) : Prop :=
  umask s' = umask s /\
  forall p, entries s' !! p = entries s !! p \/ P p /\ new_directory (entries s !! p) (entries s' !! p).
Definition above (rooted : bool) (reversed : list Str) (p : Path) : Prop :=
  absolute p = rooted /\ exists below, reversed = below ++ rev (components p).

Lemma grown_same P s s' : entries s' = entries s -> umask s' = umask s -> grown P s s'.
Proof. intros He Hu. split; [done|]. intros p. left. by rewrite He. Qed.
Lemma grown_trans (P : Path -> Prop) s t u : grown P s t -> grown P t u -> grown P s u.
Proof.
  intros [Hu Ht] [Hu' H]. split; [congruence|]. intros p.
  destruct (Ht p) as [He|(HP & Hn & x & Hx)], (H p) as [He'|(HP' & Hn' & x' & Hx')]; rewrite ?He, ?He' in *; [by left|..].
  - right. split; [done|]. split; [done|by exists x'].
  - right. split; [done|]. split; [done|by exists x].
  - congruence.
Qed.
Lemma grown_mono (P P' : Path -> Prop) s t : (forall p, P p -> P' p) -> grown P s t -> grown P' s t.
Proof. intros HP [Hu Ht]. split; [done|]. intros p. destruct (Ht p) as [?|[? ?]]; auto. Qed.

(** What is left by [mkdir], with a look at what is there when it fails. *)
Lemma wp_mkdir (P : Path -> Prop) s path (Q : result unit IoError -> Machine -> Prop) :
  P path ->
  (forall s', grown P s s' -> holds_files (entries s') path = true -> Q (Ok tt) s') ->
  (forall s' e, grown P s s' -> Q (Err e) s') -> wp (io.mkdir path) s Q.
Proof.
  intros HP Hok Herr. apply wp_make; intros s' x; [|intros He Hu; by apply Herr, grown_same].
  intros Hu Hn Hd Hh He. apply Hok.
  - split; [done|]. intros p. rewrite He. destruct (decide (p = path)) as [->|Hne].
    + right. split; [done|]. split; [done|]. rewrite lookup_insert_eq. eauto.
    + left. by apply lookup_insert_ne.
  - unfold holds_files, leads_to. rewrite He, lookup_insert_eq. cbn. apply orb_true_r.
Qed.
(** A directory that is there is as good as one that was made. *)
Lemma wp_is_dir_or_throw P s0 s path e :
  grown P s0 s ->
  wp (let! there := io.is_dir path in if there then ret tt else throw e) s
    (fun r s' => grown P s0 s' /\ (r = Ok tt -> holds_files (entries s') path = true)).
Proof.
  intros Hg. apply wp_bind, wp_is_dir. intros s' there He Hu Hd.
  assert (grown P s0 s') as Hg' by (eapply grown_trans; [done|by apply grown_same]).
  destruct there; [|by wp_step]. wp_step. split; [done|]. intros _.
  destruct (Hd eq_refl) as (inode & Hl & Hk). unfold holds_files. rewrite He, Hl, Hk. apply orb_true_r.
Qed.
Lemma wp_mkdir_or_is_dir (P : Path -> Prop) s path :
  P path -> wp (io.mkdir_or_is_dir path) s (fun r s' => grown P s s' /\ (r = Ok tt -> holds_files (entries s') path = true)).
Proof.
  intros HP. unfold io.mkdir_or_is_dir. apply wp_bind, wp_attempt, (wp_mkdir P); [done|intros s' Hg Hh; by wp_step|].
  intros s' e. apply wp_is_dir_or_throw.
Qed.
Lemma wp_create_rev rooted reversed s :
  wp (io.create_rev rooted reversed) s (fun r s' =>
    grown (above rooted reversed) s s' /\
    (r = Ok tt -> holds_files (entries s') {| absolute := rooted; components := rev reversed |} = true)).
Proof.
  assert (forall l, above rooted l {| absolute := rooted; components := rev l |}).
  { intros l. split; [done|]. exists []. cbn. by rewrite rev_involutive. }
  revert s. induction reversed as [|c l IH]; intros s; cbn [io.create_rev].
  - destruct rooted; [by apply wp_mkdir_or_is_dir|]. wp_step. split; [by apply grown_same|done].
  - apply wp_bind, wp_attempt, (wp_mkdir (above rooted (c :: l))); [done|intros s' Hg Hh; by wp_step|].
    intros s' e Hg. destruct e; [|by apply wp_is_dir_or_throw..].
    apply wp_bind. eapply wp_mono; [apply IH|]. intros r s2 [Hg2 _].
    assert (grown (above rooted (c :: l)) s s2) as Hg3.
    { eapply grown_trans; [done|]. eapply grown_mono; [|done]. intros p (Ha & below & ->). split; [done|]. by exists (c :: below). }
    destruct r as [[]|e]; [|by split].
    eapply wp_mono; [by apply (wp_mkdir_or_is_dir (above rooted (c :: l)))|]. intros r s4 [Hg4 Hh]. split; [by eapply grown_trans|done].
Qed.

(** ** The socket is private *)
Definition private (m : gmap Path Entry) (directory : Path) : Prop :=
  holds_files m directory = true /\ exists inode, leads_to m directory = Some inode /\ N.land (mode inode) 63 = 0.
Definition socket_here (o : option Entry) : Prop := exists permissions, o = Some (Here {| kind := Socket; mode := permissions |}).

Lemma private_insert m path directory e : path <> directory -> private m directory -> private (<[path := e]> m) directory.
Proof. intros Hne. unfold private, holds_files, leads_to. by rewrite lookup_insert_ne. Qed.
Lemma private_delete m path directory : path <> directory -> private m directory -> private (delete path m) directory.
Proof. intros Hne. unfold private, holds_files, leads_to. by rewrite lookup_delete_ne. Qed.

Lemma parent_shorter path parent : Path.parent path = Some parent -> S (length (components parent)) = length (components path).
Proof.
  unfold Path.parent. destruct (components path) as [|c l] eqn:Hc; [done|]. intros Hp.
  assert (components parent = removelast (c :: l)) as -> by (by injection Hp as <-).
  destruct (exists_last (l := c :: l)) as (l' & x & Hl); [done|]. rewrite Hl, removelast_last, length_app. cbn. lia.
Qed.
(** The ways to a directory are no longer than its own path. *)
Lemma above_shorter rooted path p : above rooted (rev (components path)) p -> (length (components p) <= length (components path))%nat.
Proof. intros (_ & below & Hb). apply (f_equal length) in Hb. rewrite length_app, !length_rev in Hb. lia. Qed.

Section spawn.
Context (path parent : Path) (Hparent : Path.parent path = Some parent) (s : Machine).

(** Where a directory may have been made, the parent's mode may have been set, and
    nothing else was touched. *)
Definition prepared (s' : Machine) : Prop :=
  umask s' = umask s /\
  forall p, p = parent \/ entries s' !! p = entries s !! p \/
    above (absolute parent) (rev (components parent)) p /\ new_directory (entries s !! p) (entries s' !! p).

Lemma parent_ne : path <> parent.
Proof. intros ->. apply parent_shorter in Hparent. lia. Qed.
Lemma prepared_path s' : prepared s' -> entries s' !! path = entries s !! path.
Proof.
  intros [_ H]. destruct (H path) as [?|[?|[Ha%above_shorter _]]]; [by destruct parent_ne|done|].
  apply parent_shorter in Hparent. lia.
Qed.
Lemma prepared_same s' s2 : prepared s' -> entries s2 = entries s' -> umask s2 = umask s' -> prepared s2.
Proof. intros [Hu H] He Hu'. split; [congruence|]. intros p. rewrite He. apply H. Qed.

(** The directory, whether it was there or not. *)
Lemma wp_private_parent {A} (f : M Machine SocketError A) (Q : result A SocketError -> Machine -> Prop) :
  (forall s', prepared s' -> private (entries s') parent -> wp f s' Q) ->
  (forall s' e, prepared s' -> Q (Err e) s') ->
  wp (let! parent_existed := io.exists_ parent in
      map_err (CannotCreateDirectory parent) (io.create_dir_all parent) ;!
      (if parent_existed : bool then verify_private_directory parent else restrict_directory parent) ;! f) s Q.
Proof.
  intros Hok Herr. apply wp_bind, wp_there. intros s1 existed He1 Hu1 _.
  apply wp_bind, wp_map_err. eapply wp_mono; [apply wp_create_rev|]. intros r s2 [[Hu2 Hg] Hh].
  assert (prepared s2) as Hp2.
  { split; [congruence|]. intros p. right. destruct (Hg p) as [He|?]; rewrite He1 in *; auto. }
  destruct r as [[]|e]; [|by apply Herr]. specialize (Hh eq_refl). rewrite rev_involutive in Hh.
  replace {| absolute := absolute parent; components := components parent |} with parent in Hh by (by destruct parent).
  apply wp_bind.
  destruct existed.
  - unfold verify_private_directory. apply wp_bind, wp_map_err, wp_metadata; [|intros s3 e He3 Hu3; by apply Herr, (prepared_same s2)].
    intros s3 inode He3 Hu3 Hl. unfold reject_if. destruct (N.eqb_spec (N.land (mode inode) 63) 0) as [Hz|]; cbn [negb]; wp_step.
    + apply Hok; [by apply (prepared_same s2)|]. rewrite He3. split; [done|]. by exists inode.
    + by apply Herr, (prepared_same s2).
  - apply wp_map_err, wp_change_mode; [|intros s3 e He3 Hu3; by apply Herr, (prepared_same s2)].
    intros s3 inode Hu3 Hl He3. apply Hok.
    + destruct Hp2 as [? Hp2]. split; [congruence|]. intros p. rewrite He3. destruct (decide (p = parent)); [by left|].
      rewrite lookup_insert_ne by done. apply Hp2.
    + unfold private, holds_files, leads_to in *. rewrite He3, lookup_insert_eq. destruct (entries s2 !! parent) as [[?|[?|]]|];
        try discriminate Hl; injection Hl as ->; eauto.
Qed.

(** What is at the path when it is bound: nothing, where there was nothing or a socket. *)
Lemma wp_make_room {A} s1 (f : M Machine SocketError A) (Q : result A SocketError -> Machine -> Prop) :
  prepared s1 -> private (entries s1) parent ->
  (forall s', umask s' = umask s -> private (entries s') parent ->
     (forall p, p <> path -> entries s' !! p = entries s1 !! p) ->
     (entries s' !! path = entries s !! path \/ socket_here (entries s !! path) /\ entries s' !! path = None) -> wp f s' Q) ->
  (forall s' e, prepared s' -> Q (Err e) s') ->
  wp (let! there := io.exists_ path in
      (if there : bool then verify_socket_path path ;! map_err (CannotReplaceSocket path) (io.remove_file path) else ret tt) ;! f) s1 Q.
Proof.
  intros Hp Hpriv Hok Herr. pose proof (prepared_path _ Hp) as Hpath. destruct (Hp) as [Hu _].
  apply wp_bind, wp_there. intros s2 there He2 Hu2 _. apply wp_bind.
  destruct there; [|wp_step; apply Hok; [congruence|by rewrite He2|by rewrite He2|left; by rewrite He2]].
  apply wp_bind. unfold verify_socket_path.
  apply wp_bind, wp_map_err, wp_symlink_metadata; [|intros s3 e He3 Hu3; apply Herr, (prepared_same s1); congruence].
  intros s3 e He3 Hu3 Hin. unfold reject_if. destruct (is_socket e) eqn:Hk; cbn [negb]; wp_step;
    [|apply Herr, (prepared_same s1); congruence].
  apply wp_map_err, wp_remove_entry; [|intros s4 e4 He4 Hu4; apply Herr, (prepared_same s1); congruence].
  intros s4 Hu4 He4. rewrite He3, He2 in He4. rewrite He2, Hpath in Hin. apply Hok; [congruence|..]; rewrite He4.
  - apply private_delete; [apply parent_ne|done].
  - intros p Hne. by apply lookup_delete_ne.
  - right. rewrite lookup_delete_eq. split; [|done]. rewrite Hin. destruct e as [[k perms]|]; [|done].
    apply bool_decide_eq_true in Hk. cbn in Hk. subst k. by exists perms.
Qed.
End spawn.

(** A node's socket is for its owner alone.  When [spawn] succeeds the socket is there
    with mode 600, in a directory nobody else has access to.  Whatever call fails: what is
    at the path is replaced only if it is a socket, never a file, a directory or a link;
    a socket that was bound, even one whose mode could not be set, lies in a directory
    nobody else has access to; and nothing else is touched but the mode of the directory
    and directories that were not there on the way to it. *)
Theorem admin_socket_private path s :
  wp (spawn path) s (fun r s' =>
    match Path.parent path with
    | None => r = Err HasNoParent /\ s' = s
    | Some parent =>
      match r with
      | Ok server => server_path server = path /\ private (entries s') parent /\
          entries s' !! path = Some (Here {| kind := Socket; mode := 384 |})
      | Err _ => True
      end /\
      (entries s' !! path = entries s !! path \/
       (entries s !! path = None \/ socket_here (entries s !! path)) /\
       (entries s' !! path = None \/ socket_here (entries s' !! path) /\ private (entries s') parent)) /\
      forall p, p <> path -> p <> parent -> entries s' !! p = entries s !! p \/
        above (absolute parent) (rev (components parent)) p /\ new_directory (entries s !! p) (entries s' !! p)
    end).
Proof.
  unfold spawn. destruct (Path.parent path) as [parent|] eqn:Hparent; cbn [ok_or]; [|by wp_step].
  wp_step.
  assert (forall s' (e : SocketError), prepared parent s s' -> (entries s' !! path = entries s !! path \/
       (entries s !! path = None \/ socket_here (entries s !! path)) /\
       (entries s' !! path = None \/ socket_here (entries s' !! path) /\ private (entries s') parent)) /\
      forall p, p <> path -> p <> parent -> entries s' !! p = entries s !! p \/
        above (absolute parent) (rev (components parent)) p /\ new_directory (entries s !! p) (entries s' !! p)) as Hearly.
  { intros s' e Hp. split; [left; by apply (prepared_path path parent Hparent)|]. intros p _ Hne.
    destruct Hp as [_ Hp]. destruct (Hp p); [done|done]. }
  apply (wp_private_parent path parent Hparent); [|intros s' e Hp; split; [done|by apply Hearly]].
  intros s1 Hp1 Hpriv1.
  apply (wp_make_room path parent Hparent s); [done|done| |intros s' e Hp; split; [done|by apply Hearly]].
  intros s2 Hu2 Hpriv2 Hsame2 Hroom.
  assert (forall s' , (forall p, p <> path -> entries s' !! p = entries s2 !! p) ->
    forall p, p <> path -> p <> parent -> entries s' !! p = entries s !! p \/
        above (absolute parent) (rev (components parent)) p /\ new_directory (entries s !! p) (entries s' !! p)) as Hframe.
  { intros s' Hs' p Hne Hne'. rewrite Hs', Hsame2 by done. destruct Hp1 as [_ Hp1]. destruct (Hp1 p); [done|done]. }
  apply wp_bind, wp_map_err, wp_make.
  2:{ intros s3 e He3 Hu3. split; [done|]. split; [|apply Hframe; intros p _; by rewrite He3].
      rewrite He3. destruct Hroom as [?|[? ?]]; [by left|right; auto]. }
  intros s3 directory Hu3 Hnone Hdirectory Hholds He3.
  assert (entries s !! path = None \/ socket_here (entries s !! path)) as Hwas.
  { destruct Hroom as [He|[? _]]; [left; by rewrite <-He|by right]. }
  assert (private (entries s3) parent) as Hpriv3.
  { rewrite He3. apply private_insert; [|done]. by apply parent_ne. }
  apply wp_bind. unfold restrict_socket. apply wp_map_err, wp_change_mode.
  - intros s4 inode Hu4 Hl He4. wp_step. rewrite He3 in He4. unfold leads_to in Hl. rewrite He3, lookup_insert_eq in Hl.
    injection Hl as <-. rewrite lookup_insert_eq, insert_insert_eq in He4. cbn in He4.
    assert (private (entries s4) parent) as Hpriv4 by (rewrite He4; apply private_insert; [by apply parent_ne|done]).
    assert (entries s4 !! path = Some (Here {| kind := Socket; mode := 384 |})) as Hin by (by rewrite He4, lookup_insert_eq).
    split; [done|]. split.
    + right. split; [done|]. right. split; [by exists 384|done].
    + apply Hframe. intros p Hne. rewrite He4. by apply lookup_insert_ne.
  - intros s4 e He4 Hu4. split; [done|]. rewrite He4. split.
    + right. split; [done|]. right. split; [|done]. rewrite He3, lookup_insert_eq. eexists. done.
    + intros p Hne Hne'. apply Hframe; [|done..]. intros q Hq. rewrite He3. by apply lookup_insert_ne.
Qed.

(** Stopping takes the socket away if it can, and nothing else. *)
Theorem admin_socket_stop server s :
  wp (stop server) s (fun r s' => r = Ok tt /\
    (entries s' = entries s \/ entries s' = delete (server_path server) (entries s))).
Proof.
  unfold stop. apply wp_bind, wp_attempt, wp_remove_entry; intros; wp_step; auto.
Qed.

(** ** Asking a node

    [request]: what connecting, the two writes and reading to the end answer is an
    input, and so is whether all of it took too long. *)
Inductive RequestError :=
| TimedOut | CannotConnect | CannotWriteRequest | CannotFinishRequest | CannotReadResponse | ResponseNotUtf8
| Refused (message : Str).
Record Exchange := { connected : bool; wrote_request : bool; wrote_end : bool; response : option (list byte); timed_out : bool }.
Definition request_inner (x : Exchange) : result Str RequestError :=
  if negb (connected x) then Err CannotConnect
  else if negb (wrote_request x) then Err CannotWriteRequest
  else if negb (wrote_end x) then Err CannotFinishRequest
  else match response x with
       | None => Err CannotReadResponse
       | Some bytes => match Utf8.decode bytes with Some text => Ok text | None => Err ResponseNotUtf8 end
       end.
Definition request (x : Exchange) : result Str RequestError :=
  if timed_out x then Err TimedOut
  else
    let? response := request_inner x in
    match strip_prefix (str "error=") response with
    | Some error => Err (Refused (trim error))
    | None => Ok response
    end.

(** ** Default paths ([apps/velum-node/src/config.rs]) *)
Definition default_config_path (xdg_config_home home : option Path) : Path :=
  Path.join_path
    match xdg_config_home with
    | Some path => path
    | None => match home with Some home => Path.join home (str ".config") | None => Path.from (str ".") end
    end (Path.from (str "velum/config.toml")).
Definition default_admin_socket (xdg_runtime_dir xdg_state_home home : option Path) : Path :=
  Path.join_path
    match xdg_runtime_dir with
    | Some path => path
    | None =>
      match xdg_state_home with
      | Some path => path
      | None => match home with Some home => Path.join_path home (Path.from (str ".local/state")) | None => Path.from (str ".") end
      end
    end (Path.from (str "velum/admin.sock")).

(** ** Runs *)
Module SocketExamples.
Definition run_ : Path := Path.from (str "/run/user/1000").
Definition machine : Machine :=
  {| entries := list_to_map
       [(Path.from (str "/"), Here {| kind := Directory; mode := 493 |});
        (Path.from (str "/run"), Here {| kind := Directory; mode := 493 |});
        (Path.from (str "/run/user"), Here {| kind := Directory; mode := 493 |});
        (run_, Here {| kind := Directory; mode := 448 |})];
     faults := []; umask := 18 |}.
Definition socket_path : Path := default_admin_socket (Some run_) None None.
Definition outcome_of (r : outcome (result Server SocketError * Machine)) : option (result Server SocketError * option Entry * option Entry) :=
  match r with
  | Ret (r, s) => Some (r, entries s !! socket_path, entries s !! Path.from (str "/run/user/1000/velum"))
  | _ => None
  end.
Example spawned :
  outcome_of (spawn socket_path machine) =
  Some (Ok {| server_path := socket_path |}, Some (Here {| kind := Socket; mode := 384 |}),
        Some (Here {| kind := Directory; mode := 448 |})).
Proof. vm_compute. reflexivity. Qed.
Definition occupied (e : Entry) : Machine :=
  set_entries (<[socket_path := e]> (<[Path.from (str "/run/user/1000/velum") := Here {| kind := Directory; mode := 448 |}]> (entries machine))) machine.
(** A file is not replaced, nor a link to a socket; a socket an earlier node left is. *)
Example file_kept :
  outcome_of (spawn socket_path (occupied (Here {| kind := Regular; mode := 384 |}))) =
  Some (Err (RefusingToReplace socket_path), Some (Here {| kind := Regular; mode := 384 |}),
        Some (Here {| kind := Directory; mode := 448 |})).
Proof. vm_compute. reflexivity. Qed.
Example link_kept :
  outcome_of (spawn socket_path (occupied (Link (Some {| kind := Socket; mode := 384 |})))) =
  Some (Err (RefusingToReplace socket_path), Some (Link (Some {| kind := Socket; mode := 384 |})),
        Some (Here {| kind := Directory; mode := 448 |})).
Proof. vm_compute. reflexivity. Qed.
Example socket_replaced :
  outcome_of (spawn socket_path (occupied (Here {| kind := Socket; mode := 511 |}))) =
  Some (Ok {| server_path := socket_path |}, Some (Here {| kind := Socket; mode := 384 |}),
        Some (Here {| kind := Directory; mode := 448 |})).
Proof. vm_compute. reflexivity. Qed.
(** A directory others can enter is refused. *)
Example open_directory_refused :
  outcome_of (spawn socket_path
    (set_entries (<[Path.from (str "/run/user/1000/velum") := Here {| kind := Directory; mode := 493 |}]> (entries machine)) machine)) =
  Some (Err (DirectoryNotPrivate (Path.from (str "/run/user/1000/velum"))), None, Some (Here {| kind := Directory; mode := 493 |})).
Proof. vm_compute. reflexivity. Qed.
Example refusal_read :
  request {| connected := true; wrote_request := true; wrote_end := true;
             response := Some (Utf8.encode (str "error=draining ")); timed_out := false |} = Err (Refused (str "draining")).
Proof. vm_compute. reflexivity. Qed.
End SocketExamples.
