(* ===== verification/NodeConfig.v ===== *)
(** The node's configuration ([apps/velum-node/src/config.rs]): the file and the
    credential files it names, written and read over a file system whose calls
    fail, and the checks that turn it into a running configuration.  TOML,
    PEM, TLS and name resolution are parameters. *)
From S2P Require Import Prelude Net Str Utf8 IpText SocketText Carriers Admission Forest Relay Enrollment NodeFiles.
Import Utf8.

Definition VERSION : N := 1.
Definition MAX_SECRET_BYTES : N := 128.
Definition line (s : Str) : Str := s ++ [10].
Definition quoted (s : Str) : Str := [34] ++ s ++ [34].
Definition DEFAULT_BIND : Str := str "0.0.0.0:4433".
Definition COVER_SERVICE_TEMPLATE : Str :=
  line [] ++
  line (str "# Optional reverse-proxy cover service. It accepts plaintext HTTP/1.1 behind") ++
  line (str "# an operator-owned TLS terminator; omit this section to keep it disabled.") ++
  line (str "# [cover_service]") ++
  line (str "# bind = " ++ quoted DEFAULT_BIND) ++
  line (str "# upstream = " ++ quoted (str "cover.example.com:8080")) ++
  line (str "# request_head_timeout_secs = 5") ++
  line (str "# upstream_timeout_secs = 5") ++
  line (str "# max_connections = 256").

(** ** The file *)
Record ListenerConfig := { listener_bind : Str; certificate : Path; private_key : Path }.
Record AdminConfig := { socket : Path }.
Record CredentialConfig := { id : N; name : option Str; secret_file : Path }.
Record Limits := {
  limit_sessions : N;
  limit_flows_per_session : N;
  limit_connections : N;
  limit_streams_per_connection : N;
  connect_timeout_secs : N;
  control_timeout_secs : N;
  shutdown_timeout_secs : N
}.
Record CoverConfig := {
  cover_bind : Str;
  cover_upstream : Str;
  request_head_timeout_secs : N;
  upstream_timeout_secs : N;
  cover_max_connections : N
}.
Record AcmeConfig := {
  email : Str;
  domains : list Str;
  dns_provider : Str;
  directory_url : Str;
  state_dir : Path;
  renew_before_days : N
}.
Record Config := {
  version : N;
  listener : ListenerConfig;
  admin : AdminConfig;
  credentials : list CredentialConfig;
  allowed_targets : list Str;
  limits : Limits;
  cover_service : option CoverConfig;
  acme : option AcmeConfig
}.

(** What can go wrong, one constructor for each message; texts of errors of the
    system and of the libraries are left out. *)
Inductive Error :=
| CannotChoosePort
| NoListenerPort
| CannotReadConfiguration (path : Path)
| InvalidConfiguration (path : Path)
| ConfigurationPathHasNoParent
| CannotCreateConfigurationDirectory (path : Path)
| CannotEncodeConfiguration
| CannotWriteConfiguration (path : Path)
| CannotRestrictPermissions (path : Path)
| CannotActivateConfiguration (path : Path)
| CredentialPathHasNoParent
| CannotCreateCredentialDirectory (path : Path)
| CredentialFileExists (path : Path)
| CannotWriteCredential (path : Path)
| CannotInspectCredential (path : Path)
| CredentialReadable (path : Path)
| CannotReadCredential (path : Path)
| SecretLength
| SecretNotHexadecimal
| UnsupportedVersion (version : N)
| NotASocketAddress (name : Str)
| NoCredentials
| NoAllowedTargets
| InvalidCredentialEntry (id : N)
| InvalidCredentialSet (e : AuthenticationError)
| MustBePositive (name : Str)
| InvalidRelayLimits (e : Relay.ConfigError)
| InvalidTransportLimits (e : Relay.ConfigError + QuicTransportProfileError)
| NotAHostPort (name : Str)
| NotAPositivePort (name : Str)
| CannotResolve (name value : Str)
| InvalidCoverService (e : CoverConfigError.t)
| CannotReadCertificate (path : Path)
| CannotParseCertificate (path : Path)
| NoCertificates (path : Path)
| CannotInspectPrivateKey (path : Path)
| PrivateKeyReadable (path : Path)
| CannotReadPrivateKey (path : Path)
| CannotParsePrivateKey (path : Path)
| InvalidCertificateOrKey.

(** [default_admin_socket_for] is given the default paths of the environment. *)
Definition default_admin_socket_for (default_config_path default_admin_socket : Path) (config_path : Path) : Path :=
  if bool_decide (config_path = default_config_path) then default_admin_socket
  else
    let parent := default {| absolute := false; components := [] |} (Path.parent config_path) in
    Path.join (Path.join parent (str ".velum-admin")) (str "admin.sock").

(** [Config::example] *)
Definition example (admin_socket_for : Path -> Path) (path : Path) : Config :=
  let base := default {| absolute := false; components := [] |} (Path.parent path) in
  {| version := VERSION;
     listener := {| listener_bind := DEFAULT_BIND; certificate := Path.join base (str "cert.pem");
                    private_key := Path.join base (str "key.pem") |};
     admin := {| socket := admin_socket_for path |};
     credentials := [{| id := 1; name := Some (str "initial-client"); secret_file := Path.join base (str "credential.hex") |}];
     allowed_targets := [str "203.0.113.10:443"];
     limits := {| limit_sessions := 64; limit_flows_per_session := 16; limit_connections := 1024;
                  limit_streams_per_connection := 64; connect_timeout_secs := 5; control_timeout_secs := 5;
                  shutdown_timeout_secs := 5 |};
     cover_service := None; acme := None |}.

(** ** The listener's port

    For each attempt, [random] is the two bytes drawn, if they could be, and
    [udp_binds], [tcp_binds] say whether a port can be bound. *)
Record Probe := { random : option (byte * byte); udp_binds : N -> bool; tcp_binds : N -> bool }.
Definition listener_port_is_available (probe : Probe) (port : N) : bool := udp_binds probe port && tcp_binds probe port.
Fixpoint random_listener_port (probes : list Probe) : result N Error :=
  match probes with
  | [] => Err NoListenerPort
  | probe :: probes =>
    match random probe with
    | None => Err CannotChoosePort
    | Some (b0, b1) =>
      let port := 49152 + (Byte.to_N b0 + 256 * Byte.to_N b1) mod 16384 in
      if listener_port_is_available probe port then Ok port else random_listener_port probes
    end
  end.
Definition random_listener_bind (probes : list Probe) : result Str Error :=
  let? port := random_listener_port (take 128 probes) in
  Ok (str "0.0.0.0:" ++ display_uint port).

(** ** Reading and writing *)
Class Toml := {
  toml_from_str : Str -> option Config;
  toml_to_string_pretty : Config -> option Str
}.
(** A character that a TOML comment may hold. *)
Definition comment_char (c : Char) : Prop := char_valid c /\ (c = 9 \/ 32 <= c) /\ c <> 127.
(** What is written is text that reads back, also with comments behind it. *)
Class TomlLaws (T : Toml) : Prop := {
  toml_text : forall c text, toml_to_string_pretty c = Some text -> Forall char_valid text;
  toml_comments : forall c text comments,
    toml_to_string_pretty c = Some text ->
    Forall (fun l => l = [] \/ exists t, l = 35 :: t /\ Forall comment_char t) comments ->
    toml_from_str (text ++ [10] ++ (comments ≫= line)) = Some c
}.

Section files.
Context `{Toml}.

Definition read (path : Path) : M FileSystem Error Config :=
  let! text := map_err (fun _ => CannotReadConfiguration path) (fs.read_to_string path) in
  ok_or (toml_from_str text) (InvalidConfiguration path).

Definition restrict_permissions (path : Path) : M FileSystem Error unit :=
  map_err (fun _ => CannotRestrictPermissions path) (fs.set_permissions path 384).

Definition write (path : Path) (config : Config) : M FileSystem Error unit :=
  let! parent := ok_or (Path.parent path) ConfigurationPathHasNoParent in
  map_err (fun _ => CannotCreateConfigurationDirectory parent) (fs.create_dir_all parent) ;!
  let! encoded := ok_or (toml_to_string_pretty config) CannotEncodeConfiguration in
  let cover_service_template := replace DEFAULT_BIND (listener_bind (listener config)) COVER_SERVICE_TEMPLATE in
  let encoded := encoded ++ [10] ++ cover_service_template in
  let temporary := Path.with_extension path (str "toml.tmp") in
  map_err (fun _ => CannotWriteConfiguration temporary) (fs.write temporary (encode encoded)) ;!
  restrict_permissions temporary ;!
  map_err (fun _ => CannotActivateConfiguration path) (fs.rename temporary path).

Definition write_secret (path : Path) (secret : list byte) : M FileSystem Error unit :=
  let! parent := ok_or (Path.parent path) CredentialPathHasNoParent in
  map_err (fun _ => CannotCreateCredentialDirectory parent) (fs.create_dir_all parent) ;!
  let! present := fs.exists_ path in
  reject_if present (CredentialFileExists path) ;!
  map_err (fun _ => CannotWriteCredential path) (fs.write path (encode (encode_hex secret ++ [10]))) ;!
  restrict_permissions path.

(** The loop of [decode_secret]; a pair that is not UTF-8 is a failed
    [expect]. *)
Fixpoint secret_pairs (bytes : list byte) : outcome (result (list byte) Error) :=
  match bytes with
  | a :: b :: rest =>
    match decode [a; b] with
    | None => Panic
    | Some text =>
      match u8_from_str_radix16 text with
      | None => Ret (Err SecretNotHexadecimal)
      | Some v =>
        match secret_pairs rest with
        | Ret (Ok vs) => Ret (Ok (byte_of_N v :: vs))
        | other => other
        end
      end
    end
  | _ => Ret (Ok [])
  end.
Definition decode_secret (value : Str) : outcome (result (list byte) Error) :=
  let bytes := encode value in
  if is_empty bytes || negb (len bytes mod 2 =? 0) || (MAX_SECRET_BYTES <? len bytes / 2)
  then Ret (Err SecretLength) else secret_pairs bytes.

Definition read_secret (path : Path) : M FileSystem Error (list byte) :=
  let! mode := map_err (fun _ => CannotInspectCredential path) (fs.mode path) in
  reject_if (negb (N.land mode 63 =? 0)) (CredentialReadable path) ;!
  let! encoded := map_err (fun _ => CannotReadCredential path) (fs.read_to_string path) in
  let! secret := run_outcome (decode_secret (trim encoded)) in
  ret secret.
End files.

(** ** Loading *)

(** What the libraries make of a file or a name: [rustls] of PEM, [quinn] of a
    certificate chain and its key, the resolver of [HOST:PORT]. *)
Class NodeLibraries := {
  Certificate : Type;
  PrivateKey : Type;
  pem_certificates : list byte -> option (list Certificate);
  pem_private_key : list byte -> option PrivateKey;
  certificate_and_key_match : list Certificate -> PrivateKey -> bool;
  idle_timeout_fits : N -> bool;
  to_socket_addrs : Str -> option (list SocketAddr)
}.

Definition parse_socket (name value : Str) : result SocketAddr Error :=
  match IpParser.parse_socket value with Some a => Ok a | None => Err (NotASocketAddress name) end.
Definition positive_limit (name : Str) (value : N) : result N Error :=
  if value =? 0 then Err (MustBePositive name) else Ok value.
(** In nanoseconds. *)
Definition positive_duration (name : Str) (value : N) : result N Error :=
  if value =? 0 then Err (MustBePositive name) else Ok (value * 1000000000).

Record ServerConfig `{NodeLibraries} := {
  certificates : list Certificate;
  key : PrivateKey;
  transport : TransportConfig;
  max_incoming : N
}.
Record LoadedCoverService := {
  loaded_cover_bind : SocketAddr;
  cover_config : CoverServiceConfig;
  loaded_max_connections : N
}.
Record LoadedConfig `{NodeLibraries} := {
  bind_address : SocketAddr;
  admin_socket : Path;
  server_config : ServerConfig;
  admission : RelayAdmission;
  quotas : AdmissionControl;
  relay : QuicRelayConfig;
  loaded_cover_service : option LoadedCoverService
}.

(** [iter().map(f).collect::<Result<Vec<_>, _>>()?] *)
Fixpoint collect {A B S E} (f : A -> M S E B) (l : list A) : M S E (list B) :=
  match l with
  | [] => ret []
  | a :: l => let! b := f a in let! bs := collect f l in ret (b :: bs)
  end.

Section load.
Context `{Toml, NodeLibraries, ConstantTimeEq}.

Definition resolve_upstream (name value : Str) : result SocketAddr Error :=
  match IpParser.parse_socket value with
  | Some address => Ok address
  | None =>
    match rsplit_once 58 value with
    | None => Err (NotAHostPort name)
    | Some (_, port) =>
      match parse_uint U16_MAX port with
      | Some (N.pos _) =>
        match to_socket_addrs value with
        | Some (address :: _) => Ok address
        | Some [] | None => Err (CannotResolve name value)
        end
      | Some N0 | None => Err (NotAPositivePort name)
      end
    end
  end.

Definition load_cover_service (config : CoverConfig) : result LoadedCoverService Error :=
  let? address := parse_socket (str "cover_service.bind") (cover_bind config) in
  let? upstream := resolve_upstream (str "cover_service.upstream") (cover_upstream config) in
  let? request_head_timeout :=
    positive_duration (str "cover_service.request_head_timeout_secs") (request_head_timeout_secs config) in
  let? upstream_timeout := positive_duration (str "cover_service.upstream_timeout_secs") (upstream_timeout_secs config) in
  let service := {| Forest.schema_version := 1; mode := ReverseProxy upstream;
                    Forest.request_head_timeout := request_head_timeout; Forest.upstream_timeout := upstream_timeout |} in
  match CoverServiceConfig.validate service with
  | Err e => Err (InvalidCoverService e)
  | Ok _ =>
    let? max_connections := positive_limit (str "cover_service.max_connections") (cover_max_connections config) in
    Ok {| loaded_cover_bind := address; cover_config := service; loaded_max_connections := max_connections |}
  end.

Definition read_certificates (path : Path) : M FileSystem Error (list Certificate) :=
  map_err (fun _ => CannotReadCertificate path) (fs.open path) ;!
  let! bytes := map_err (fun _ => CannotParseCertificate path) (fs.read path) in
  let! certificates := ok_or (pem_certificates bytes) (CannotParseCertificate path) in
  reject_if (is_empty certificates) (NoCertificates path) ;!
  ret certificates.

Definition verify_private_file (path : Path) : M FileSystem Error unit :=
  let! mode := map_err (fun _ => CannotInspectPrivateKey path) (fs.mode path) in
  reject_if (negb (N.land mode 63 =? 0)) (PrivateKeyReadable path).

Definition read_private_key (path : Path) : M FileSystem Error PrivateKey :=
  verify_private_file path ;!
  map_err (fun _ => CannotReadPrivateKey path) (fs.open path) ;!
  let! bytes := map_err (fun _ => CannotParsePrivateKey path) (fs.read path) in
  ok_or (pem_private_key bytes) (CannotParsePrivateKey path).

Definition load_credential (entry : CredentialConfig) : M FileSystem Error PrincipalCredential :=
  let! secret := read_secret (secret_file entry) in
  lift_result (fun _ => InvalidCredentialEntry (id entry)) (PrincipalCredential.new (id entry) secret).

Definition relay_limits (l : Limits) : result QuicRelayConfig Error :=
  let? connect_timeout := positive_duration (str "limits.connect_timeout_secs") (connect_timeout_secs l) in
  let? control_timeout := positive_duration (str "limits.control_timeout_secs") (control_timeout_secs l) in
  let? shutdown_timeout := positive_duration (str "limits.shutdown_timeout_secs") (shutdown_timeout_secs l) in
  let? max_connections := positive_limit (str "limits.max_connections") (limit_connections l) in
  let? max_streams := positive_limit (str "limits.max_streams_per_connection") (limit_streams_per_connection l) in
  let relay := {| Relay.schema_version := VERSION; connect_timeout := connect_timeout;
                  control_timeout := control_timeout; shutdown_timeout := shutdown_timeout; max_control_bytes := 192;
                  max_connections := max_connections; max_streams_per_connection := max_streams |} in
  match Relay.validate relay with Err e => Err (InvalidRelayLimits e) | Ok _ => Ok relay end.

Definition admission_quota (l : Limits) : result PrincipalQuota Error :=
  let? sessions := positive_limit (str "limits.max_sessions") (limit_sessions l) in
  let? flows := positive_limit (str "limits.max_flows_per_session") (limit_flows_per_session l) in
  Ok {| max_sessions := sessions; max_flows_per_session := flows |}.

Definition transport_of (relay : QuicRelayConfig) : result TransportConfig Error :=
  match transport_profile relay with
  | Err e => Err (InvalidTransportLimits (inl e))
  | Ok profile =>
    match QuicTransportProfile.build idle_timeout_fits profile with
    | Err e => Err (InvalidTransportLimits (inr e))
    | Ok transport => Ok transport
    end
  end.

Definition load (path : Path) : M FileSystem Error LoadedConfig :=
  let! config := read path in
  reject_if (negb (version config =? VERSION)) (UnsupportedVersion (version config)) ;!
  let! address := lift_result Datatypes.id (parse_socket (str "listener.bind") (listener_bind (listener config))) in
  reject_if (is_empty (credentials config)) NoCredentials ;!
  reject_if (is_empty (allowed_targets config)) NoAllowedTargets ;!
  let! credentials := collect load_credential (credentials config) in
  let! authenticator := lift_result InvalidCredentialSet (Authenticator.new credentials) in
  let! targets := collect (fun target => lift_result Datatypes.id (parse_socket (str "allowed_targets") target))
    (allowed_targets config) in
  let! relay := lift_result Datatypes.id (relay_limits (limits config)) in
  let! cover := match cover_service config with
                | None => ret None
                | Some cover => let! loaded := lift_result Datatypes.id (load_cover_service cover) in ret (Some loaded)
                end in
  let! quota := lift_result Datatypes.id (admission_quota (limits config)) in
  let! certificates := read_certificates (certificate (listener config)) in
  let! key := read_private_key (private_key (listener config)) in
  reject_if (negb (certificate_and_key_match certificates key)) InvalidCertificateOrKey ;!
  let! transport := lift_result Datatypes.id (transport_of relay) in
  ret {| bind_address := address; admin_socket := socket (admin config);
         server_config := {| certificates := certificates; key := key; transport := transport;
                             max_incoming := max_connections relay |};
         admission := {| authenticator := authenticator; destinations := DestinationPolicy.new targets |};
         quotas := AdmissionControl.new quota; relay := relay; loaded_cover_service := cover |}.
End load.

(** ** Writing *)

(** A system on which nothing fails any more. *)
Definition undisturbed (s : FileSystem) : FileSystem :=
  {| files := files s; faults := []; umask := umask s |}.
Definition result_of {A} (m : M FileSystem Error A) (s : FileSystem) : option (result A Error) :=
  match m (undisturbed s) with Ret (r, _) => Some r | _ => None end.

Lemma rsplit_once_spec c s :
  match rsplit_once c s with Some (a, b) => s = a ++ c :: b /\ c ∉ b | None => c ∉ s end.
Proof.
  induction s as [|x s IH]; cbn; [by intros ?%elem_of_nil|].
  destruct (rsplit_once c s) as [[a b]|].
  - destruct IH as [-> Hb]. done.
  - destruct (N.eqb_spec x c) as [->|Hne]; [done|]. intros [?|?]%elem_of_cons; congruence.
Qed.
Lemma file_stem_ne name extension : 46 ∈ extension -> Path.file_stem name ++ [46] ++ extension <> name.
Proof.
  intros He. unfold Path.file_stem. pose proof (rsplit_once_spec 46 name) as Hs.
  assert (name ++ [46] ++ extension <> name) as Hlen.
  { intros Heq%(f_equal length). rewrite !length_app in Heq. cbn in Heq. lia. }
  destruct (rsplit_once 46 name) as [[[|x stem] b]|]; [done| |done].
  destruct Hs as [-> Hb]. intros [= Heq]. apply app_inv_head in Heq as [= ->]. congruence.
Qed.

Lemma with_extension_ne path extension :
  is_Some (Path.parent path) -> 46 ∈ extension -> Path.with_extension path extension <> path.
Proof.
  intros [p Hp] Hdot. unfold Path.with_extension, Path.parent in *. destruct path as [a c]. cbn in *.
  destruct c as [|x c]; [done|]. destruct (rev (x :: c)) as [|name rest] eqn:Hr.
  { apply (f_equal length) in Hr. rewrite length_rev in Hr. done. }
  apply (f_equal (rev (A:=Str))) in Hr. rewrite rev_involutive in Hr. rewrite Hr. cbn [rev].
  intros [= [= Hname]%app_inv_head]. by revert Hname; apply (file_stem_ne name).
Qed.
Definition temporary (path : Path) : Path := Path.with_extension path (str "toml.tmp").
Lemma temporary_ne path : is_Some (Path.parent path) -> temporary path <> path.
Proof. intros Hp. apply with_extension_ne; [done|]. by apply (bool_decide_unpack (46 ∈ str "toml.tmp")). Qed.

(** Replacing a file as a whole by a private one: the three calls that do it. *)
Lemma wp_replace_privately {E} (e1 e2 e3 : IoError -> E) temporary path bytes s (Q : result unit E -> FileSystem -> Prop) :
  temporary <> path ->
  (forall s', umask s' = umask s -> files s' !! path = Some {| contents := bytes; permissions := 384 |} ->
     same_but (fun p => p = path \/ p = temporary) s s' -> Q (Ok tt) s') ->
  (forall s' e, umask s' = umask s -> files s' !! path = files s !! path ->
     same_but (fun p => p = temporary) s s' -> Q (Err e) s') ->
  wp (map_err e1 (fs.write temporary bytes) ;! map_err e2 (fs.set_permissions temporary 384) ;!
      map_err e3 (fs.rename temporary path)) s Q.
Proof.
  intros Hne Hok Herr.
  assert (forall s' e f, umask s' = umask s -> files s' = <[temporary := f]> (files s) -> Q (Err e) s') as Htemp.
  { intros s' e f Hu Hs. apply Herr; [done|by rewrite Hs, lookup_insert_ne|]. by eapply same_but_insert. }
  apply wp_bind, wp_map_err, wp_write.
  - intros s2 Hu2 Hs2. apply wp_bind, wp_map_err, wp_set_permissions.
    + intros s3 file Hu3 Hf3 Hs3. rewrite Hs2, lookup_insert_eq in Hf3. injection Hf3 as <-.
      rewrite Hs2, insert_insert_eq in Hs3. cbn [contents] in Hs3. apply wp_map_err, wp_rename.
      * intros s4 file Hu4 Hf4 Hs4. rewrite Hs3, lookup_insert_eq in Hf4. injection Hf4 as <-.
        apply Hok; [congruence|by rewrite Hs4, lookup_insert_eq|].
        intros p Hq. apply Decidable.not_or in Hq as [H1 H2].
        by rewrite Hs4, lookup_insert_ne, lookup_delete_ne, Hs3, lookup_insert_ne by congruence.
      * intros s4 e Hu4 Hs4. eapply Htemp; [congruence|]. by rewrite Hs4, Hs3.
    + intros s3 e Hu3 Hs3. eapply Htemp; [congruence|]. by rewrite Hs3, Hs2.
  - intros s2 Hu2 Hs2. apply Herr; [done|by rewrite Hs2|by apply same_but_files].
  - intros s2 n Hu2 Hs2. by eapply Htemp.
Qed.

(** *** The text of the file *)
Definition comments_of (bind : Str) : list Str :=
  [[]; str "# Optional reverse-proxy cover service. It accepts plaintext HTTP/1.1 behind";
   str "# an operator-owned TLS terminator; omit this section to keep it disabled.";
   str "# [cover_service]"; str "# bind = " ++ quoted bind;
   str "# upstream = " ++ quoted (str "cover.example.com:8080");
   str "# request_head_timeout_secs = 5"; str "# upstream_timeout_secs = 5"; str "# max_connections = 256"].
Lemma template_replaced bind : replace DEFAULT_BIND bind COVER_SERVICE_TEMPLATE = comments_of bind ≫= line.
Proof. unfold comments_of, line, quoted. cbn [mbind list_bind]. rewrite <-!app_assoc. reflexivity. Qed.

Definition comment_char_ok (c : Char) : bool := (c <? 127) && (32 <=? c).
Lemma comment_char_ascii t : forallb comment_char_ok t = true -> Forall comment_char t.
Proof.
  intros Ht. rewrite forallb_forall in Ht. apply Forall_forall. intros c Hc%list_elem_of_In%Ht.
  apply andb_true_iff in Hc as [H1%N.ltb_lt H2%N.leb_le]. unfold comment_char, char_valid. lia.
Qed.
Lemma comments_plain bind : Forall comment_char bind ->
  Forall (fun l => l = [] \/ exists t, l = 35 :: t /\ Forall comment_char t) (comments_of bind).
Proof.
  intros Hb. unfold comments_of. apply Forall_cons; split; [by left|].
  repeat (apply Forall_cons; split); [..|done]; right; (eexists; split; [reflexivity|]);
    try by apply comment_char_ascii.
  apply (Forall_app_2 _ (32 :: str "bind = " ++ [34])); [by apply comment_char_ascii|].
  apply Forall_app_2; [done|by apply comment_char_ascii].
Qed.
Lemma comments_text bind : Forall comment_char bind -> Forall char_valid (comments_of bind ≫= line).
Proof.
  intros Hb%comments_plain. apply Forall_bind. eapply Forall_impl; [exact Hb|].
  intros l Hl. apply Forall_app_2; [|repeat constructor; unfold char_valid; lia].
  destruct Hl as [->|(t & -> & Ht)]; [done|]. constructor; [unfold char_valid; lia|].
  eapply Forall_impl; [exact Ht|]. by intros c [].
Qed.

#[local] Opaque COVER_SERVICE_TEMPLATE.

(** *** What reading finds *)
Section stored.
Context `{Toml}.

(** The configuration a file holds. *)
Definition config_in (file : option File) : option Config :=
  match file with
  | Some file => match decode (contents file) with Some text => toml_from_str text | None => None end
  | None => None
  end.

Lemma wp_read_config path s (Q : result Config Error -> FileSystem -> Prop) :
  (forall s' c, files s' = files s -> umask s' = umask s -> config_in (files s !! path) = Some c -> Q (Ok c) s') ->
  (forall s' e, files s' = files s -> umask s' = umask s -> Q (Err e) s') -> wp (read path) s Q.
Proof.
  intros Hok Herr. unfold read. apply wp_bind, wp_map_err, wp_read_to_string.
  - intros s' file text Hs Hu Hf Hd. destruct (toml_from_str text) as [c|] eqn:Hc; cbn [ok_or]; wp_step.
    + apply Hok; [done..|]. unfold config_in. by rewrite Hf, Hd.
    + by apply Herr.
  - intros s' e Hs Hu. by apply Herr.
Qed.
Lemma undisturbed_read path s :
  result_of (read path) s =
  match config_in (files s !! path) with
  | Some c => Some (Ok c)
  | None => result_of (read path) s
  end.
Proof.
  unfold result_of, read, bind, map_err, fs.read_to_string, fs.read, bind, fs.file_at, bind, get, system_call.
  cbn. destruct (files s !! path) as [file|]; cbn; [|done].
  destruct (decode (contents file)) as [text|]; cbn; [|done]. by destruct (toml_from_str text).
Qed.
Lemma undisturbed_read_ext path s s' :
  files s !! path = files s' !! path -> result_of (read path) s = result_of (read path) s'.
Proof.
  intros Hf. unfold result_of, read, bind, map_err, fs.read_to_string, fs.read, bind, fs.file_at, bind, get, system_call.
  cbn. rewrite Hf. destruct (files s' !! path) as [file|]; cbn; [|done].
  destruct (decode (contents file)) as [text|]; cbn; [|done]. by destruct (toml_from_str text).
Qed.
End stored.

Definition text_of `{Toml} (c : Config) : option Str :=
  (fun encoded => encoded ++ [10] ++ replace DEFAULT_BIND (listener_bind (listener c)) COVER_SERVICE_TEMPLATE)
    <$> toml_to_string_pretty c.

Lemma text_reads_back `{T : Toml, !TomlLaws T} c text permissions :
  Forall comment_char (listener_bind (listener c)) -> text_of c = Some text ->
  config_in (Some {| contents := encode text; permissions := permissions |}) = Some c.
Proof.
  intros Hb Ht. unfold text_of in Ht. apply fmap_Some in Ht as (encoded & He & ->). cbn.
  rewrite template_replaced, decode_utf8.
  - apply toml_comments; [done|by apply comments_plain].
  - apply Forall_app_2; [by eapply toml_text|]. constructor; [unfold char_valid; lia|].
    by apply comments_text.
Qed.

(** The file at [path] afterwards, and what else may have changed. *)
Lemma wp_write_config `{Toml} path c s (Q : result unit Error -> FileSystem -> Prop) :
  (forall s' text, umask s' = umask s -> text_of c = Some text ->
     files s' !! path = Some {| contents := encode text; permissions := 384 |} ->
     same_but (fun p => p = path \/ p = temporary path) s s' -> Q (Ok tt) s') ->
  (forall s' e, umask s' = umask s -> files s' !! path = files s !! path ->
     same_but (fun p => p = temporary path) s s' -> Q (Err e) s') ->
  wp (write path c) s Q.
Proof.
  intros Hok Herr. unfold write.
  assert (forall s' e, umask s' = umask s -> files s' = files s -> Q (Err e) s') as Hsame.
  { intros s' e Hu Hs. apply Herr; [done|by rewrite Hs|by apply same_but_files]. }
  destruct (Path.parent path) as [parent|] eqn:Hp; cbn [ok_or]; wp_step; [|by apply Hsame].
  assert (temporary path <> path) as Hne by (apply temporary_ne; by rewrite Hp).
  apply wp_bind, wp_map_err, wp_faulty_call; intros s1 Hs1 Hu1; [|by apply Hsame].
  destruct (toml_to_string_pretty c) as [encoded|] eqn:He; cbn [ok_or]; wp_step; [|by apply Hsame].
  fold (temporary path). set (text := encoded ++ _). apply wp_replace_privately; [done|..].
  - intros s' Hu Hf Hs. apply (Hok _ text); [congruence|unfold text_of; rewrite He; reflexivity|done|].
    intros p Hq. rewrite Hs by done. by rewrite Hs1.
  - intros s' e Hu Hf Hs. apply Herr; [congruence|by rewrite Hf, Hs1|]. intros p Hq. rewrite Hs by done. by rewrite Hs1.
Qed.

(** Whatever system call fails, replacing the configuration either succeeds,
    and then the file is private to its owner and reads back as exactly that
    configuration, or fails and reads as before; apart from the temporary file
    next to it no other file changes, and nothing panics. *)
Theorem config_write_atomic `{T : Toml, !TomlLaws T} path c s :
  Forall comment_char (listener_bind (listener c)) ->
  wp (write path c) s (fun r s' =>
    match r with
    | Ok _ => permissions <$> files s' !! path = Some 384 /\ result_of (read path) s' = Some (Ok c)
    | Err _ => result_of (read path) s' = result_of (read path) s
    end /\ same_but (fun p => (r = Ok tt /\ p = path) \/ p = temporary path) s s').
Proof.
  intros Hb. apply wp_write_config.
  - intros s' text Hu Ht Hf Hs. split.
    + split; [by rewrite Hf|]. by rewrite undisturbed_read, Hf, (text_reads_back c text).
    + eapply same_but_mono; [|exact Hs]. naive_solver.
  - intros s' e Hu Hf Hs. split; [by apply undisturbed_read_ext|].
    eapply same_but_mono; [|exact Hs]. auto.
Qed.

(** ** Secrets *)
Lemma secret_pairs_eq bytes :
  secret_pairs bytes = match decode_pairs bytes with
                       | Ret (Ok v) => Ret (Ok v)
                       | Ret (Err _) => Ret (Err SecretNotHexadecimal)
                       | Panic => Panic
                       | OutOfFuel => OutOfFuel
                       end.
Proof.
  remember (length bytes) as n eqn:Hn. assert (length bytes <= n)%nat as Hle by lia. clear Hn. revert bytes Hle.
  induction n as [|n IH]; intros [|a [|b rest]] Hle; cbn in Hle; try lia; try done.
  cbn [secret_pairs decode_pairs]. destruct (decode [a; b]) as [text|]; [|done].
  destruct (u8_from_str_radix16 text) as [v|]; [|done]. rewrite (IH rest) by lia.
  by destruct (decode_pairs rest) as [[vs|]| |].
Qed.

Lemma decode_secret_encoded secret :
  secret <> [] -> len secret <= MAX_SECRET_BYTES -> decode_secret (encode_hex secret) = Ret (Ok secret).
Proof.
  intros Hne Hlen. unfold decode_secret. rewrite secret_pairs_eq, decode_encode_pairs.
  assert (len (encode (encode_hex secret)) = 2 * len secret) as Hl
    by (unfold len in *; rewrite length_encode_hex; lia).
  rewrite Hl. rewrite (N.mul_comm 2), N.Div0.mod_mul, N.div_mul by done.
  rewrite (proj2 (N.ltb_ge _ _)) by done. cbn [N.eqb negb]. rewrite !orb_false_r.
  destruct (encode (encode_hex secret)) eqn:He; [|done]. destruct secret; [done|]. cbn in Hl. unfold len in Hl. cbn in Hl. lia.
Qed.
Lemma encode_hex_plain bytes : Forall (fun c => is_whitespace c = false) (encode_hex bytes).
Proof.
  induction bytes as [|b bytes IH]; [constructor|]. rewrite encode_hex_cons. apply Forall_app. split; [|done].
  assert (forallb (fun c => negb (is_whitespace c)) (hex_byte b) = true) as Hb by (destruct b; vm_compute; reflexivity).
  rewrite forallb_forall in Hb. apply Forall_forall. intros c Hc%list_elem_of_In%Hb. by apply negb_true_iff.
Qed.
Lemma trim_newline t : Forall (fun c => is_whitespace c = false) t -> trim (t ++ [10]) = t.
Proof.
  intros Ht. unfold trim. destruct t as [|c t]; [reflexivity|]. cbn [app trim_start].
  apply Forall_cons in Ht as [Hc Ht]. rewrite Hc. unfold trim_end. rewrite app_comm_cons, rev_app_distr.
  cbn [rev app trim_start]. change (is_whitespace 10) with true. cbv iota.
  rewrite trim_start_none; [by rewrite rev_unit, rev_involutive|]. apply Forall_app_2; [by apply Forall_rev|by constructor].
Qed.

(** The secret a credential file gives: it is private, and text in hexadecimal. *)
Definition secret_in (file : option File) : option (list byte) :=
  match file with
  | Some file =>
    if negb (N.land (permissions file) 63 =? 0) then None
    else
      match decode (contents file) with
      | Some text => match decode_secret (trim text) with Ret (Ok secret) => Some secret | _ => None end
      | None => None
      end
  | None => None
  end.
(** A pair of bytes of its text is not UTF-8. *)
Definition secret_panics (file : option File) : Prop :=
  match file with
  | Some file => exists text, decode (contents file) = Some text /\ cuts_character (trim text)
  | None => False
  end.

Lemma decode_secret_panic text : Forall scalar text -> decode_secret (trim text) = Panic -> cuts_character (trim text).
Proof.
  intros Ht. unfold decode_secret. destruct (_ || _); [done|]. rewrite secret_pairs_eq.
  destruct (decode_pairs _) as [[v|e]| |] eqn:Hd; try done. intros _.
  apply (decode_pairs_panic (length (trim text))); [done| |done].
  rewrite Forall_forall in *. intros c Hc%trim_sub. by apply Ht.
Qed.
Lemma decode_secret_fuel value : decode_secret value <> OutOfFuel.
Proof.
  unfold decode_secret. destruct (_ || _); [done|]. generalize (encode value). intros bytes.
  remember (length bytes) as n eqn:Hn. assert (length bytes <= n)%nat as Hle by lia. clear Hn. revert bytes Hle.
  induction n as [|n IH]; intros [|a [|b rest]] Hle; cbn in Hle; try lia; try done.
  cbn [secret_pairs]. destruct (decode [a; b]) as [text|]; [|done].
  destruct (u8_from_str_radix16 text) as [v|]; [|done]. specialize (IH rest ltac:(lia)).
  by destruct (secret_pairs rest) as [[vs|]| |].
Qed.

Lemma wp_read_secret path s (Q : result (list byte) Error -> FileSystem -> Prop) :
  (forall s' secret, files s' = files s -> umask s' = umask s -> secret_in (files s !! path) = Some secret ->
     Q (Ok secret) s') ->
  (forall s' e, files s' = files s -> umask s' = umask s -> Q (Err e) s') ->
  wp_or_panic (read_secret path) s Q (secret_panics (files s !! path)).
Proof.
  intros Hok Herr. unfold read_secret. apply wpp_bind_wp, wp_map_err, wp_mode; [|by intros; apply Herr].
  intros s1 file Hs1 Hu1 Hf. apply wpp_bind_reject_if; intros Hm; [by apply Herr|].
  apply wpp_bind_wp, wp_map_err, wp_read_to_string; [|intros; apply Herr; congruence].
  intros s2 ? text Hs2 Hu2 Hf2 Hd. rewrite Hs1, Hf in Hf2. injection Hf2 as <-.
  unfold wp_or_panic, bind, run_outcome. destruct (decode_secret (trim text)) as [[secret|e]| |] eqn:Hsec.
  - cbn. apply Hok; [congruence..|]. unfold secret_in. by rewrite Hf, Hm, Hd, Hsec.
  - apply Herr; congruence.
  - rewrite Hf. exists text. split; [done|]. apply decode_secret_panic; [by eapply decode_scalar|done].
  - by apply decode_secret_fuel in Hsec.
Qed.

Lemma undisturbed_read_secret path secret s :
  secret_in (files s !! path) = Some secret -> result_of (read_secret path) s = Some (Ok secret).
Proof.
  unfold secret_in. destruct (files s !! path) as [file|] eqn:Hf; [|done].
  destruct (negb _) eqn:Hm; [done|]. destruct (decode (contents file)) as [text|] eqn:Hd; [|done].
  destruct (decode_secret (trim text)) as [[secret'|]| |] eqn:Hsec; try done. intros [= ->].
  unfold result_of, read_secret, bind, map_err, fs.mode, bind, fs.file_at, bind, get. cbn.
  rewrite Hf. cbn. rewrite Hm. cbn.
  unfold fs.read_to_string, fs.read, bind, fs.file_at, bind, get. cbn. rewrite Hf. cbn. rewrite Hd. cbn.
  unfold run_outcome. by rewrite Hsec.
Qed.

(** *** Writing a secret *)
Definition secret_file_of (secret : list byte) (permissions : N) : File :=
  {| contents := encode (encode_hex secret ++ [10]); permissions := permissions |}.

Lemma encoded_secret_valid secret : Forall char_valid (encode_hex secret ++ [10]).
Proof.
  apply Forall_app_2; [|repeat constructor; unfold char_valid; lia].
  eapply Forall_impl; [apply encode_hex_ascii|]. unfold ascii, char_valid. lia.
Qed.
Lemma secret_written secret :
  secret <> [] -> len secret <= MAX_SECRET_BYTES -> secret_in (Some (secret_file_of secret 384)) = Some secret.
Proof.
  intros Hne Hlen. unfold secret_in, secret_file_of. cbn [permissions contents].
  change (negb (N.land 384 63 =? 0)) with false. cbv iota.
  rewrite decode_utf8 by apply encoded_secret_valid.
  by rewrite trim_newline, decode_secret_encoded by (done || apply encode_hex_plain).
Qed.

(** The file afterwards: the secret, or what the failed call left of it. *)
Lemma wp_write_secret path secret s (Q : result unit Error -> FileSystem -> Prop) :
  (forall s', umask s' = umask s -> files s' !! path = Some (secret_file_of secret 384) ->
     same_but (fun p => p = path) s s' -> Q (Ok tt) s') ->
  (forall s' e, umask s' = umask s -> same_but (fun p => p = path) s s' ->
     files s' !! path = files s !! path \/ is_Some (files s' !! path) /\ e <> CredentialFileExists path ->
     Q (Err e) s') ->
  wp (write_secret path secret) s Q.
Proof.
  intros Hok Herr. unfold write_secret.
  assert (forall s' e, umask s' = umask s -> files s' = files s -> Q (Err e) s') as Hsame.
  { intros s' e Hu Hs. apply Herr; [done|by apply same_but_files|left; by rewrite Hs]. }
  destruct (Path.parent path) as [parent|]; cbn [ok_or]; wp_step; [|by apply Hsame].
  apply wp_bind, wp_map_err, wp_faulty_call; intros s1 Hs1 Hu1; [|by apply Hsame].
  assert (forall s' f, files s' = <[path := f]> (files s1) -> same_but (fun p => p = path) s s') as Hb.
  { intros s' f Hs p Hp. by rewrite Hs, lookup_insert_ne, Hs1. }
  apply wp_bind, wp_exists; intros s2 Hs2 Hu2; [intros _|]; (apply wp_bind_reject_if; intros Hp; [apply Hsame; congruence|]); [done|].
  apply wp_bind, wp_map_err, wp_write.
  - intros s3 Hu3 Hs3. unfold restrict_permissions. apply wp_map_err, wp_set_permissions.
    + intros s4 file Hu4 Hf4 Hs4. rewrite Hs3, lookup_insert_eq in Hf4. injection Hf4 as <-.
      rewrite Hs3, insert_insert_eq, Hs2 in Hs4.
      apply Hok; [congruence|by rewrite Hs4, lookup_insert_eq|]. eapply Hb; exact Hs4.
    + intros s4 e Hu4 Hs4. rewrite Hs3, Hs2 in Hs4. apply Herr; [congruence| |].
      * eapply Hb; exact Hs4.
      * right. split; [|done]. rewrite Hs4, lookup_insert_eq. by eexists.
  - intros s3 Hu3 Hs3. apply Hsame; congruence.
  - intros s3 n Hu3 Hs3. rewrite Hs2 in Hs3. apply Herr; [congruence| |].
    + eapply Hb; exact Hs3.
    + right. split; [|done]. rewrite Hs3, lookup_insert_eq. by eexists.
Qed.

Lemma write_secret_present path secret s :
  is_Some (Path.parent path) -> is_Some (files s !! path) ->
  result_of (write_secret path secret) s = Some (Err (CredentialFileExists path)).
Proof.
  intros [parent Hp] [file Hf]. unfold result_of, write_secret. rewrite Hp. cbn.
  unfold bind at 1. cbn. unfold bind, fs.exists_, fs.mode, fs.file_at, bind, get. cbn. by rewrite Hf.
Qed.

(** A credential file that was written is private to its owner and gives the
    secret; a call that fails leaves other files alone, but if it fails after the
    file appeared (the disk is full, its mode cannot be set), the file stays
    and every later attempt to write that credential is refused. *)
Theorem secret_write_spec path secret s :
  secret <> [] -> len secret <= MAX_SECRET_BYTES ->
  wp (write_secret path secret) s (fun r s' =>
    same_but (fun p => p = path) s s' /\
    match r with
    | Ok _ => permissions <$> files s' !! path = Some 384 /\ result_of (read_secret path) s' = Some (Ok secret)
    | Err _ =>
      files s' !! path = files s !! path \/
      forall secret', result_of (write_secret path secret') s' = Some (Err (CredentialFileExists path))
    end).
Proof.
  intros Hne Hlen. destruct (Path.parent path) as [parent|] eqn:Hp.
  2:{ unfold write_secret. rewrite Hp. cbn [ok_or]. wp_step. split; [apply same_but_refl|by left]. }
  apply wp_write_secret.
  - intros s' Hu Hf Hs. split; [done|]. split; [by rewrite Hf|].
    apply undisturbed_read_secret. rewrite Hf. by apply secret_written.
  - intros s' e Hu Hs [Hf|[Hf _]]; (split; [done|]); [by left|right].
    intros secret'. apply write_secret_present; [by rewrite Hp|done].
Qed.

(** ** Loading *)
(** A call that only reads. *)
Definition reads {E A} (m : M FileSystem E A) (s : FileSystem) (P : A -> Prop) (panics : Prop) : Prop :=
  wp_or_panic m s (fun r s' => files s' = files s /\ match r with Ok a => P a | Err _ => True end) panics.

Section reads.
Context {E : Type}.

Lemma only_reads_ret {A} (a : A) s (P : A -> Prop) panics : P a -> reads (E:=E) (ret a) s P panics.
Proof. by intros Ha. Qed.
Lemma only_reads_throw {A} (e : E) s (P : A -> Prop) panics : reads (throw e) s P panics.
Proof. done. Qed.
Lemma only_reads_bind {A B} (m : M FileSystem E A) (f : A -> M FileSystem E B) s (P : A -> Prop) (R : B -> Prop) panics :
  reads m s P panics ->
  (forall a s', files s' = files s -> P a -> reads (f a) s' R panics) -> reads (bind m f) s R panics.
Proof.
  intros Hm Hf. apply wpp_bind. eapply wpp_mono; [exact Hm| |done]. intros [a|e] s' [Hs HP]; [|done].
  eapply wpp_mono; [by apply Hf| |done]. intros r s2 [H1 H2]. by rewrite H1, Hs.
Qed.
Lemma only_reads_reject_if {B} (b : bool) e (f : unit -> M FileSystem E B) s (R : B -> Prop) panics :
  (b = false -> reads (f tt) s R panics) -> reads (bind (reject_if b e) f) s R panics.
Proof. intros Hf. by apply wpp_bind_reject_if. Qed.
Lemma only_reads_lift {A F B} (g : F -> E) (r : result A F) (f : A -> M FileSystem E B) s (R : B -> Prop) panics :
  (forall a, r = Ok a -> reads (f a) s R panics) -> reads (bind (lift_result g r) f) s R panics.
Proof. intros Hf. by apply wpp_bind_lift_result. Qed.
Lemma only_reads_ok_or {A B} (o : option A) e (f : A -> M FileSystem E B) s (R : B -> Prop) panics :
  (forall a, o = Some a -> reads (f a) s R panics) -> reads (bind (ok_or o e) f) s R panics.
Proof. intros Hf. destruct o; [by apply Hf|by apply only_reads_throw]. Qed.
Lemma only_reads_map_err {A F} (g : F -> E) (m : M FileSystem F A) s (P : A -> Prop) panics :
  reads m s P panics -> reads (map_err g m) s P panics.
Proof. unfold reads, wp_or_panic, map_err. by destruct (m s) as [[[a|e] s']| |]. Qed.
Lemma only_reads_collect {A B} (f : A -> M FileSystem E B) l s (P : A -> B -> Prop) panics :
  (forall a s', a ∈ l -> files s' = files s -> reads (f a) s' (P a) panics) ->
  reads (collect f l) s (Forall2 P l) panics.
Proof.
  revert s. induction l as [|a l IH]; intros s Hf; [apply only_reads_ret; constructor|]. cbn [collect].
  apply (only_reads_bind _ _ _ (P a)); [by apply Hf; [left|]|]. intros b s1 Hs1 Hb.
  apply (only_reads_bind _ _ _ (Forall2 P l)).
  - apply IH. intros a' s' Ha' Hs'. apply Hf; [by right|congruence].
  - intros bs s2 _ Hbs. apply only_reads_ret. by constructor.
Qed.
End reads.

Section loading.
Context `{T : Toml, L : NodeLibraries, HC : ConstantTimeEqLaws}.

Lemma only_reads_certificates path s panics : reads (read_certificates path) s (fun cs => cs <> []) panics.
Proof.
  unfold reads, read_certificates. apply wpp_bind_wp, wp_map_err. unfold fs.open. apply wp_call; [|done].
  intros s1 Hs1 Hu1. apply wp_file_at; [|done]. intros file _. apply wp_ret.
  apply wpp_bind_wp, wp_map_err, wp_read; [|intros; split; [congruence|done]].
  intros s2 file2 Hs2 Hu2 _. destruct (pem_certificates _) as [[|c cs]|]; cbn; split; (congruence || done).
Qed.
Lemma only_reads_private_key path s panics :
  reads (read_private_key path) s (fun _ => exists file, files s !! path = Some file /\ N.land (permissions file) 63 = 0) panics.
Proof.
  unfold reads, read_private_key, verify_private_file. apply wpp_bind_wp, wp_bind, wp_map_err, wp_mode; [|done].
  intros s1 file Hs1 Hu1 Hf. destruct (N.eqb_spec (N.land (permissions file) 63) 0) as [Hm|Hm]; [|by cbn].
  apply wp_ret. apply wpp_bind_wp, wp_map_err. unfold fs.open. apply wp_call; [|intros; split; [congruence|done]].
  intros s2 Hs2 Hu2. apply wp_file_at; [|intros; split; [congruence|done]]. intros file2 _. apply wp_ret.
  apply wpp_bind_wp, wp_map_err, wp_read; [|intros; split; [congruence|done]].
  intros s3 file3 Hs3 Hu3 _. destruct (pem_private_key _) as [k|]; cbn; (split; [congruence|]); [by exists file|done].
Qed.
(** The entries and what their files give. *)
Definition credential_of (m : gmap Path File) (entry : CredentialConfig) (credential : PrincipalCredential) : Prop :=
  principal credential = id entry /\ secret_in (m !! secret_file entry) = Some (Admission.secret credential) /\
  Admission.secret credential <> [].

Lemma only_reads_secret path s panics :
  (secret_panics (files s !! path) -> panics) ->
  reads (read_secret path) s (fun secret => secret_in (files s !! path) = Some secret) panics.
Proof.
  intros Hp. eapply wpp_mono; [|by intros r s' H; exact H|exact Hp]. by apply wp_read_secret.
Qed.
Lemma only_reads_credential entry s s0 panics :
  files s = files s0 -> (secret_panics (files s0 !! secret_file entry) -> panics) ->
  reads (load_credential entry) s (credential_of (files s0) entry) panics.
Proof.
  intros Hs Hp. unfold load_credential. eapply (only_reads_bind _ _ _ (fun secret => secret_in (files s0 !! secret_file entry) = Some secret)).
  - rewrite <-Hs in *. by apply only_reads_secret.
  - intros secret s1 Hs1 Hsec. unfold PrincipalCredential.new.
    destruct (is_empty secret) eqn:He; cbn [lift_result]; [apply only_reads_throw|apply only_reads_ret].
    unfold credential_of. cbn. split_and!; [done..|]. by intros ->.
Qed.

Lemma relay_limits_ok l relay : relay_limits l = Ok relay ->
  Relay.validate relay = Ok tt /\
  relay = {| Relay.schema_version := 1; connect_timeout := connect_timeout_secs l * 1000000000;
             control_timeout := control_timeout_secs l * 1000000000;
             shutdown_timeout := shutdown_timeout_secs l * 1000000000; max_control_bytes := 192;
             max_connections := limit_connections l; max_streams_per_connection := limit_streams_per_connection l |}.
Proof.
  unfold relay_limits, positive_duration, positive_limit.
  repeat match goal with |- context [?a =? 0] => destruct (a =? 0); cbn [and_then]; [done|] end.
  destruct (Relay.validate _) as [[]|] eqn:Hv; [|done]. by intros [= <-].
Qed.
Lemma admission_quota_ok l q : admission_quota l = Ok q ->
  q = {| max_sessions := limit_sessions l; max_flows_per_session := limit_flows_per_session l |} /\
  limit_sessions l <> 0 /\ limit_flows_per_session l <> 0.
Proof.
  unfold admission_quota, positive_limit. destruct (N.eqb_spec (limit_sessions l) 0); [done|]. cbn.
  destruct (N.eqb_spec (limit_flows_per_session l) 0); [done|]. cbn. by intros [= <-].
Qed.
Lemma transport_of_ok relay transport : transport_of relay = Ok transport ->
  max_concurrent_bidi_streams transport = max_streams_per_connection relay /\
  max_streams_per_connection relay <= U32_MAX /\ max_concurrent_uni_streams transport = 0.
Proof.
  unfold transport_of, transport_profile. destruct (N.leb_spec (max_streams_per_connection relay) U32_MAX); [|done].
  unfold QuicTransportProfile.build. destruct (QuicTransportProfile.validate _) as [?|]; [cbn [and_then]|done].
  destruct (negb _); [done|]. by intros [= <-].
Qed.
Lemma parse_socket_ok name value a : parse_socket name value = Ok a -> IpParser.parse_socket value = Some a.
Proof. unfold parse_socket. destruct (IpParser.parse_socket value); [|done]. by intros [= ->]. Qed.

Lemma cover_service_ok config loaded : load_cover_service config = Ok loaded ->
  IpParser.parse_socket (cover_bind config) = Some (loaded_cover_bind loaded) /\
  CoverServiceConfig.validate (cover_config loaded) = Ok tt /\
  (exists upstream, mode (cover_config loaded) = ReverseProxy upstream) /\
  loaded_max_connections loaded = cover_max_connections config /\ cover_max_connections config <> 0.
Proof.
  unfold load_cover_service. intros (a & Ha%parse_socket_ok & H1)%and_then_Ok.
  apply and_then_Ok in H1 as (upstream & _ & H1). apply and_then_Ok in H1 as (head & _ & H1).
  apply and_then_Ok in H1 as (timeout & _ & H1). destruct (CoverServiceConfig.validate _) as [[]|] eqn:Hv; [|done].
  unfold positive_limit in H1. destruct (N.eqb_spec (cover_max_connections config) 0); [done|].
  cbn [and_then] in H1. apply Ok_inj in H1 as <-. cbn. split_and!; [done..|by eexists|done|done].
Qed.

(** A running configuration [l] is what [c] and the files [m] say. *)
Record loaded_from (m : gmap Path File) (c : Config) (l : LoadedConfig) : Prop := {
  lf_version : version c = VERSION;
  lf_bind : IpParser.parse_socket (listener_bind (listener c)) = Some (bind_address l);
  lf_secrets : forall entry, entry ∈ credentials c -> is_Some (secret_in (m !! secret_file entry));
  lf_authenticates : forall p secret,
    Authenticator.authenticate (authenticator (admission l)) secret = Ok p <->
    exists entry, entry ∈ credentials c /\ id entry = p /\ secret_in (m !! secret_file entry) = Some secret;
  lf_targets : forall target,
    DestinationPolicy.allows (destinations (admission l)) target = true <->
    exists text, text ∈ allowed_targets c /\ IpParser.parse_socket text = Some target;
  lf_relay : Relay.validate (relay l) = Ok tt;
  lf_connections : max_connections (relay l) = limit_connections (limits c);
  lf_incoming : max_incoming (server_config l) = limit_connections (limits c);
  lf_streams : max_concurrent_bidi_streams (transport (server_config l)) = limit_streams_per_connection (limits c) /\
    max_streams_per_connection (relay l) = limit_streams_per_connection (limits c) /\
    limit_streams_per_connection (limits c) <= U32_MAX;
  lf_quotas : quotas l = AdmissionControl.new {| max_sessions := limit_sessions (limits c);
                                                 max_flows_per_session := limit_flows_per_session (limits c) |} /\
    limit_sessions (limits c) <> 0 /\ limit_flows_per_session (limits c) <> 0;
  lf_key : exists file, m !! private_key (listener c) = Some file /\ N.land (permissions file) 63 = 0;
  lf_tls : certificates (server_config l) <> [] /\
    certificate_and_key_match (certificates (server_config l)) (key (server_config l)) = true;
  lf_cover : match cover_service c, loaded_cover_service l with
             | None, None => True
             | Some config, Some loaded =>
               IpParser.parse_socket (cover_bind config) = Some (loaded_cover_bind loaded) /\
               CoverServiceConfig.validate (cover_config loaded) = Ok tt /\
               loaded_max_connections loaded = cover_max_connections config
             | _, _ => False
             end
}.
Lemma authenticates_configured m entries credentials a p secret :
  Forall2 (credential_of m) entries credentials -> Authenticator.new credentials = Ok a ->
  Authenticator.authenticate a secret = Ok p <->
  exists entry, entry ∈ entries /\ id entry = p /\ secret_in (m !! secret_file entry) = Some secret.
Proof.
  intros Hall Hnew. rewrite (proj1 (authenticate_configured _ _ secret p Hnew)). split.
  - intros (i & Hi)%list_elem_of_lookup. destruct (Forall2_lookup_r _ _ _ _ _ Hall Hi) as (entry & He & H1 & H2 & _).
    exists entry. split_and!; [by eapply list_elem_of_lookup_2|done..].
  - intros (entry & (i & Hi)%list_elem_of_lookup & <- & Hsec).
    destruct (Forall2_lookup_l _ _ _ _ _ Hall Hi) as ([q s] & Hc & H1 & H2 & _). cbn in *.
    apply list_elem_of_lookup. exists i. rewrite Hc. congruence.
Qed.
Lemma allows_parsed (texts : list Str) targets target :
  Forall2 (fun text a => IpParser.parse_socket text = Some a) texts targets ->
  DestinationPolicy.allows (DestinationPolicy.new targets) target = true <->
  exists text, text ∈ texts /\ IpParser.parse_socket text = Some target.
Proof.
  intros Hall. rewrite destination_exact. split.
  - intros (i & Hi)%list_elem_of_lookup. destruct (Forall2_lookup_r _ _ _ _ _ Hall Hi) as (text & Ht & Hp).
    exists text. split; [by eapply list_elem_of_lookup_2|done].
  - intros (text & (i & Hi)%list_elem_of_lookup & Hp).
    destruct (Forall2_lookup_l _ _ _ _ _ Hall Hi) as (a & Ha & Hpa). apply list_elem_of_lookup. exists i. congruence.
Qed.

Lemma only_reads_config path s panics : reads (read path) s (fun c => config_in (files s !! path) = Some c) panics.
Proof. apply wp_may_panic, wp_read_config; auto. Qed.

Definition secrets_panic (m : gmap Path File) (path : Path) : Prop :=
  exists c entry, config_in (m !! path) = Some c /\ entry ∈ credentials c /\ secret_panics (m !! secret_file entry).

Lemma only_reads_load path s :
  reads (load path) s (fun l => exists c, config_in (files s !! path) = Some c /\ loaded_from (files s) c l)
    (secrets_panic (files s) path).
Proof.
  unfold load. eapply only_reads_bind; [apply only_reads_config|]. intros c s1 Hs1 Hc.
  apply only_reads_reject_if. intros Hv%negb_false_iff%N.eqb_eq.
  apply only_reads_lift. intros address Ha%parse_socket_ok. do 2 (apply only_reads_reject_if; intros _).
  eapply (only_reads_bind _ _ _ (Forall2 (credential_of (files s)) (credentials c))).
  { apply only_reads_collect. intros entry s2 He Hs2. apply only_reads_credential; [congruence|].
    intros Hp. by exists c, entry. }
  intros creds s2 Hs2 Hcreds. apply only_reads_lift. intros a Hauth.
  eapply (only_reads_bind _ _ _ (Forall2 (fun text a => IpParser.parse_socket text = Some a) (allowed_targets c))).
  { apply only_reads_collect. intros text s3 _ _. unfold parse_socket.
    destruct (IpParser.parse_socket text); [by apply only_reads_ret|apply only_reads_throw]. }
  intros targets s3 Hs3 Htargets. apply only_reads_lift. intros relay [Hvalid Hrelay]%relay_limits_ok.
  eapply (only_reads_bind _ _ _ (fun cover => match cover_service c, cover with
            | None, None => True | Some config, Some loaded => load_cover_service config = Ok loaded | _, _ => False end)).
  { destruct (cover_service c) as [config|]; [|by apply only_reads_ret]. apply only_reads_lift. intros loaded Hl. by apply only_reads_ret. }
  intros cover s4 Hs4 Hcover. apply only_reads_lift. intros quota (Hquota & Hq1 & Hq2)%admission_quota_ok.
  eapply only_reads_bind; [apply only_reads_certificates|]. intros certs s5 Hs5 Hcerts.
  eapply only_reads_bind; [apply only_reads_private_key|]. intros k s6 Hs6 Hk.
  apply only_reads_reject_if. intros Hmatch%negb_false_iff. apply only_reads_lift.
  intros transport (Ht1 & Ht2 & _)%transport_of_ok. apply only_reads_ret. exists c. split; [done|].
  assert (files s5 = files s) as Hs by congruence. rewrite Hs in Hk.
  constructor; cbn; try done; try (by subst).
  - intros entry (i & Hi)%list_elem_of_lookup. destruct (Forall2_lookup_l _ _ _ _ _ Hcreds Hi) as (? & _ & _ & -> & _). eauto.
  - intros p secret. by eapply authenticates_configured.
  - intros target. by apply allows_parsed.
  - destruct (cover_service c), cover as [loaded|]; try done.
    apply cover_service_ok in Hcover as (H1 & H2 & _ & H3 & _). done.
Qed.
(** C25. Loading a configuration changes no file, returns, and panics only for a
    credential file in which a pair of bytes is not UTF-8.  A configuration
    that loads is version 1; it admits exactly the principals of its entries,
    each with the secret of its private file, and exactly its targets; its
    limits are positive, are the configured ones in the relay, the quotas and
    the QUIC transport, and its private key is private. *)
Theorem load_sound path s :
  match load path s with
  | Ret (r, s') =>
    files s' = files s /\
    match r with
    | Ok l => exists c, config_in (files s !! path) = Some c /\ loaded_from (files s) c l
    | Err _ => True
    end
  | Panic =>
    exists c entry, config_in (files s !! path) = Some c /\ entry ∈ credentials c /\
      secret_panics (files s !! secret_file entry)
  | OutOfFuel => False
  end.
Proof.
  pose proof (only_reads_load path s) as Hr. unfold reads, wp_or_panic in Hr.
  destruct (load path s) as [[[l|e] s']| |]; exact Hr.
Qed.
End loading.

(** ** The listener's port *)
Definition drawn (probe : Probe) : option N :=
  (fun '(b0, b1) => 49152 + (Byte.to_N b0 + 256 * Byte.to_N b1) mod 16384) <$> random probe.

Lemma random_listener_port_spec probes :
  match random_listener_port probes with
  | Ok port => exists i probe, probes !! i = Some probe /\ drawn probe = Some port /\
      listener_port_is_available probe port = true
  | Err NoListenerPort => Forall (fun probe => exists port, drawn probe = Some port /\
      listener_port_is_available probe port = false) probes
  | Err CannotChoosePort => exists i probe, probes !! i = Some probe /\ drawn probe = None
  | Err _ => False
  end.
Proof.
  induction probes as [|probe probes IH]; [constructor|]. cbn [random_listener_port].
  destruct (random probe) as [[b0 b1]|] eqn:Hr.
  2:{ exists O, probe. split; [done|]. unfold drawn. by rewrite Hr. }
  assert (drawn probe = Some (49152 + (Byte.to_N b0 + 256 * Byte.to_N b1) mod 16384)) as Hd by (unfold drawn; by rewrite Hr).
  destruct (listener_port_is_available _ _) eqn:Ha; [by exists O, probe|].
  destruct (random_listener_port probes) as [port|[]]; try done.
  - destruct IH as (i & p & H). by exists (S i), p.
  - destruct IH as (i & p & H). by exists (S i), p.
  - constructor; [by eexists|done].
Qed.
Lemma drawn_bounds probe port : drawn probe = Some port -> 49152 <= port <= U16_MAX.
Proof.
  unfold drawn. intros ([b0 b1] & _ & ->)%fmap_Some. unfold U16_MAX.
  pose proof (N.mod_lt (Byte.to_N b0 + 256 * Byte.to_N b1) 16384 ltac:(done)) as Hm. revert Hm.
  generalize ((Byte.to_N b0 + 256 * Byte.to_N b1) mod 16384). lia.
Qed.

(** C27. The bind address that is chosen parses as every interface with a port of
    the dynamic range, 49152 to 65535, that UDP and TCP could bind when it was
    drawn, within 128 draws; choosing fails only when a draw fails or all 128
    drawn ports were taken. *)
Theorem random_listener_bounds probes :
  match random_listener_bind probes with
  | Ok text => exists port i probe,
      IpParser.parse_socket text = Some (SocketV4 0 port) /\ 49152 <= port <= 65535 /\
      (i < 128)%nat /\ probes !! i = Some probe /\ udp_binds probe port = true /\ tcp_binds probe port = true
  | Err NoListenerPort => forall i probe, (i < 128)%nat -> probes !! i = Some probe ->
      exists port, drawn probe = Some port /\ listener_port_is_available probe port = false
  | Err CannotChoosePort => exists i probe, (i < 128)%nat /\ probes !! i = Some probe /\ random probe = None
  | Err _ => False
  end.
Proof.
  unfold random_listener_bind. pose proof (random_listener_port_spec (take 128 probes)) as H.
  assert (forall i probe, take 128 probes !! i = Some probe -> (i < 128)%nat /\ probes !! i = Some probe) as Htake.
  { intros i probe Hi. apply lookup_take_Some in Hi as [??]. done. }
  destruct (random_listener_port _) as [port|[]]; cbn [and_then]; try done.
  - destruct H as (i & probe & [Hlt Hi]%Htake & Hd & [Hu Ht]%andb_true_iff). apply drawn_bounds in Hd as Hb.
    exists port, i, probe. split_and!; [|apply Hb..|done|done|done|done].
    apply (parse_display_socket (SocketV4 0 port)). split; [done|apply Hb].
  - destruct H as (i & probe & [Hlt Hi]%Htake & Hd). exists i, probe. split_and!; [done..|].
    unfold drawn in Hd. by destruct (random probe).
  - intros i probe Hlt Hi. rewrite Forall_lookup in H. apply (H i). by rewrite lookup_take_lt.
Qed.
