(* ===== verification/NodeEnrollment.v ===== *)
(** Issuing and revoking client credentials
    ([apps/velum-node/src/enrollment.rs]): the options of the commands, names
    and file names, and the changes they make to the configuration, the
    credential files and the enrolment file when any system call may fail.
    QR codes, randomness and the terminal's width are inputs. *)
From S2P Require Import Prelude Net Str Utf8 IpText SocketText ClientProfile Admission Enrollment NodeFiles NodeConfig.
Import Utf8.

Definition DEFAULT_TERMINAL_COLUMNS : N := 80.

Inductive Delivery := Qr | ToFile (path : Path).
Record IssueOptions := {
  config_path : Path;
  client_name : Str;
  relay_address : SocketAddr;
  server_name : Str;
  custom_ca : bool;
  delivery : Delivery
}.
Inductive Selector := ById (id : N) | ByName (name : Str).

(** One constructor for each message. *)
Inductive CommandError :=
| ConfigFailure (e : NodeConfig.Error)
| RequiresValue (flag : Str)
| RequiresFlag (flag : Str)
| UnknownOption (flag : Str)
| UnknownTrust (value : Str)
| ChooseOneDelivery
| ChooseOneSelector
| IdNotInteger
| RelayNotSocket
| RelayUnspecified
| InvalidClientName
| LegacyCredential (id : N)
| AlreadyConfigured (name : Str)
| IdsExhausted
| ConfigHasNoParent
| CannotGenerate
| CannotReadTrust (path : Path)
| InvalidEnrollment (e : ProfileError.t)
| CannotEncodeEnrollment (e : ProfileError.t)
| QrTooLarge
| QrTooWide (width columns : N)
| EnrollmentHasNoParent
| CannotCreateEnrollmentDirectory (path : Path)
| CannotCreateEnrollment (path : Path)
| CannotWriteEnrollment (path : Path)
| RollbackFailed (error rollback : CommandError)
| FinalCredential
| CredentialNotFound
| CleanupFailed (id : N) (path : Path).

(** ** Options *)
Definition parse_relay (value : Str) : result SocketAddr CommandError :=
  match IpParser.parse_socket value with
  | None => Err RelayNotSocket
  | Some address => if is_unspecified (SocketAddr.ip address) then Err RelayUnspecified else Ok address
  end.
Definition parse_trust (value : Str) : result bool CommandError :=
  if str_eqb value (str "system") then Ok false
  else if str_eqb value (str "custom-ca") then Ok true
  else Err (UnknownTrust value).

(** The variables of the loop of [parse_issue]. *)
Record IssueArguments := {
  arg_config : Path;
  arg_name : option Str;
  arg_relay : option SocketAddr;
  arg_server_name : option Str;
  arg_custom_ca : bool;
  arg_delivery : option Delivery
}.
Definition set_arg_config v a := {| arg_config := v; arg_name := arg_name a; arg_relay := arg_relay a;
  arg_server_name := arg_server_name a; arg_custom_ca := arg_custom_ca a; arg_delivery := arg_delivery a |}.
Definition set_arg_name v a := {| arg_config := arg_config a; arg_name := Some v; arg_relay := arg_relay a;
  arg_server_name := arg_server_name a; arg_custom_ca := arg_custom_ca a; arg_delivery := arg_delivery a |}.
Definition set_arg_relay v a := {| arg_config := arg_config a; arg_name := arg_name a; arg_relay := Some v;
  arg_server_name := arg_server_name a; arg_custom_ca := arg_custom_ca a; arg_delivery := arg_delivery a |}.
Definition set_arg_server_name v a := {| arg_config := arg_config a; arg_name := arg_name a; arg_relay := arg_relay a;
  arg_server_name := Some v; arg_custom_ca := arg_custom_ca a; arg_delivery := arg_delivery a |}.
Definition set_arg_custom_ca v a := {| arg_config := arg_config a; arg_name := arg_name a; arg_relay := arg_relay a;
  arg_server_name := arg_server_name a; arg_custom_ca := v; arg_delivery := arg_delivery a |}.
Definition set_arg_delivery v a := {| arg_config := arg_config a; arg_name := arg_name a; arg_relay := arg_relay a;
  arg_server_name := arg_server_name a; arg_custom_ca := arg_custom_ca a; arg_delivery := Some v |}.

Definition is_none {A} (o : option A) : bool := match o with None => true | Some _ => false end.

(** What a flag with its value sets; [None] for a flag that takes none. *)
Definition issue_value_flag (flag : Str) (a : IssueArguments) : option (Str -> result IssueArguments CommandError) :=
  if str_eqb flag (str "--config") then Some (fun v => Ok (set_arg_config (Path.from v) a))
  else if str_eqb flag (str "--name") then Some (fun v => Ok (set_arg_name v a))
  else if str_eqb flag (str "--relay") then Some (fun v => let? r := parse_relay v in Ok (set_arg_relay r a))
  else if str_eqb flag (str "--server-name") then Some (fun v => Ok (set_arg_server_name v a))
  else if str_eqb flag (str "--trust") then Some (fun v => let? t := parse_trust v in Ok (set_arg_custom_ca t a))
  else if str_eqb flag (str "--output") && is_none (arg_delivery a)
  then Some (fun v => Ok (set_arg_delivery (ToFile (Path.from v)) a))
  else None.

Fixpoint issue_arguments (arguments : list Str) (a : IssueArguments) : result IssueArguments CommandError :=
  match arguments with
  | [] => Ok a
  | flag :: rest =>
    match issue_value_flag flag a with
    | Some set =>
      match rest with
      | [] => Err (RequiresValue flag)
      | value :: rest => match set value with Err e => Err e | Ok a => issue_arguments rest a end
      end
    | None =>
      if str_eqb flag (str "--qr") && is_none (arg_delivery a) then issue_arguments rest (set_arg_delivery Qr a)
      else if str_eqb flag (str "--qr") || str_eqb flag (str "--output") then Err ChooseOneDelivery
      else Err (UnknownOption flag)
    end
  end.

Definition required {A} (flag : String.string) (o : option A) : result A CommandError :=
  match o with Some a => Ok a | None => Err (RequiresFlag (str flag)) end.

Definition parse_issue (default_config_path : Path) (arguments : list Str) : result IssueOptions CommandError :=
  let? a := issue_arguments arguments {| arg_config := default_config_path; arg_name := None; arg_relay := None;
              arg_server_name := None; arg_custom_ca := false; arg_delivery := None |} in
  let? name := required "--name" (arg_name a) in
  let? relay := required "--relay" (arg_relay a) in
  let? server := required "--server-name" (arg_server_name a) in
  let? delivery := required "--qr" (arg_delivery a) in
  Ok {| config_path := arg_config a; client_name := name; relay_address := relay; server_name := server;
        custom_ca := arg_custom_ca a; delivery := delivery |}.

Fixpoint revoke_arguments (arguments : list Str) (path : Path) (selector : option Selector)
  : result (Path * option Selector) CommandError :=
  match arguments with
  | [] => Ok (path, selector)
  | flag :: rest =>
    let takes_value := str_eqb flag (str "--config")
      || (is_none selector && (str_eqb flag (str "--id") || str_eqb flag (str "--name"))) in
    if takes_value then
      match rest with
      | [] => Err (RequiresValue flag)
      | value :: rest =>
        if str_eqb flag (str "--config") then revoke_arguments rest (Path.from value) selector
        else if str_eqb flag (str "--id")
        then match parse_uint U64_MAX value with
             | Some id => revoke_arguments rest path (Some (ById id))
             | None => Err IdNotInteger
             end
        else revoke_arguments rest path (Some (ByName value))
      end
    else if str_eqb flag (str "--id") || str_eqb flag (str "--name") then Err ChooseOneSelector
    else Err (UnknownOption flag)
  end.
Definition parse_revoke (default_config_path : Path) (arguments : list Str) : result (Path * Selector) CommandError :=
  let? parsed := revoke_arguments arguments default_config_path None in
  let? selector := required "--id" parsed.2 in
  Ok (parsed.1, selector).

(** ** Names *)

(** [char::is_control] *)
Definition is_control (c : Char) : bool := (c <? 32) || ((127 <=? c) && (c <=? 159)).
Definition validate_client_name (name : Str) : result unit CommandError :=
  if is_empty (trim name) || (64 <? utf8_len name) || existsb is_control name then Err InvalidClientName else Ok tt.

Definition slug (value : Str) : Str :=
  let slug := (fun c => if is_ascii_alphanumeric c then char_to_ascii_lowercase c else 45) <$> value in
  let slug := trim_end (fun c => c =? 45) (trim_start (fun c => c =? 45) slug) in
  if is_empty slug then str "client" else slug.

Definition suggested_relay (bind : Str) (detected_public_ip : option IpAddr) : option Str :=
  match IpParser.parse_socket bind with
  | None => None
  | Some listener =>
    match detected_public_ip with
    | Some address =>
      if is_unspecified address
      then if is_unspecified (SocketAddr.ip listener) then None else Some (IpDisplay.display_socket listener)
      else Some (IpDisplay.display_socket (SocketAddr.new address (SocketAddr.port listener)))
    | None => if is_unspecified (SocketAddr.ip listener) then None else Some (IpDisplay.display_socket listener)
    end
  end.

(** ** The terminal *)
Definition parse_terminal_columns (value : option Str) : N :=
  match value with
  | Some value =>
    match parse_uint U64_MAX value with
    | Some columns => if 0 <? columns then columns else DEFAULT_TERMINAL_COLUMNS
    | None => DEFAULT_TERMINAL_COLUMNS
    end
  | None => DEFAULT_TERMINAL_COLUMNS
  end.
Definition ensure_qr_fits_terminal (qr : Str) (columns : N) : result unit CommandError :=
  let width := foldr N.max 0 (len <$> lines qr) in
  if columns <? width then Err (QrTooWide width columns) else Ok tt.

(** ** The commands *)

(** An error of the configuration is one of the command. *)
Definition config {A} (m : M FileSystem NodeConfig.Error A) : M FileSystem CommandError A := map_err ConfigFailure m.

Definition write_private_new (path : Path) (contents : list byte) : M FileSystem CommandError unit :=
  let! parent := ok_or (Path.parent path) EnrollmentHasNoParent in
  map_err (fun _ => CannotCreateEnrollmentDirectory parent) (fs.create_dir_all parent) ;!
  map_err (fun _ => CannotCreateEnrollment path) (fs.create_new path 384) ;!
  let! written := attempt (fs.write_all path contents ;! fs.write_all path [x0a]) in
  match written with
  | Ok _ => ret tt
  | Err _ =>
    let! _ := attempt (fs.remove_file path) in
    throw (CannotWriteEnrollment path)
  end.

(** What the environment gives [issue]: 32 random bytes if it can, the QR code
    of a payload if it fits one, and the variable [COLUMNS]. *)
Record IssueEnvironment := {
  random_secret : option (list byte);
  qr_code : list byte -> option Str;
  columns : option Str
}.
(** A command that succeeded: what it printed as a QR code, if it did. *)
Record Issued := { principal : N; shown : option Str }.

Section commands.
Context `{Toml, BundleJson}.

Definition render_qr (environment : IssueEnvironment) (payload : Str) : result Str CommandError :=
  match qr_code environment (encode payload) with Some qr => Ok qr | None => Err QrTooLarge end.

Fixpoint require_current_secrets (credentials : list CredentialConfig) : M FileSystem CommandError unit :=
  match credentials with
  | [] => ret tt
  | credential :: rest =>
    let! secret := config (read_secret (secret_file credential)) in
    reject_if (negb (len secret =? 32)) (LegacyCredential (id credential)) ;!
    require_current_secrets rest
  end.

Definition add_credential (c : Config) (entry : CredentialConfig) : Config :=
  {| version := version c; listener := listener c; admin := admin c; credentials := credentials c ++ [entry];
     allowed_targets := allowed_targets c; limits := limits c; cover_service := cover_service c; acme := acme c |}.
Definition remove_credential (c : Config) (position : nat) : Config :=
  {| version := version c; listener := listener c; admin := admin c; credentials := delete position (credentials c);
     allowed_targets := allowed_targets c; limits := limits c; cover_service := cover_service c; acme := acme c |}.
Definition max_id (credentials : list CredentialConfig) : N := foldr N.max 0 (id <$> credentials).
Definition secret_path (parent : Path) (name : Str) (principal_id : N) : Path :=
  Path.join (Path.join parent (str "credentials")) (slug name ++ [45] ++ display_uint principal_id ++ str ".hex").

Definition deliver (options : IssueOptions) (qr : option Str) (canonical : Str)
  : M FileSystem CommandError (option Str) :=
  match delivery options with
  | Qr => let! qr := expect qr in ret (Some qr)
  | ToFile path => write_private_new path (encode canonical) ;! ret None
  end.

(** [issue] up to the point where it begins to change anything. *)
Record Prepared := {
  original : Config;
  principal_id : N;
  credential_file : Path;
  secret : list byte;
  canonical : Str;
  qr : option Str
}.
Definition prepare_issue (environment : IssueEnvironment) (options : IssueOptions) : M FileSystem CommandError Prepared :=
  lift_result Datatypes.id (validate_client_name (client_name options)) ;!
  let! original := config (read (config_path options)) in
  require_current_secrets (credentials original) ;!
  reject_if (existsb (fun c => bool_decide (name c = Some (client_name options))) (credentials original))
    (AlreadyConfigured (client_name options)) ;!
  let! principal_id := ok_or (checked_add U64_MAX (max_id (credentials original)) 1) IdsExhausted in
  let! config_parent := ok_or (Path.parent (config_path options)) ConfigHasNoParent in
  let! secret := ok_or (random_secret environment) CannotGenerate in
  let! trust := if custom_ca options then
      let! pem := map_err (fun _ => CannotReadTrust (certificate (listener original)))
        (fs.read_to_string (certificate (listener original))) in
      ret (CustomCa pem)
    else ret System in
  let! bundle := map_err InvalidEnrollment (run_outcome (EnrollmentBundle.new
    {| enrolled_id := str "relay-" ++ display_uint principal_id; enrolled_name := server_name options;
       enrolled_address := relay_address options; enrolled_server_name := server_name options |}
    principal_id secret trust)) in
  let! canonical := map_err CannotEncodeEnrollment (run_outcome (EnrollmentJson.to_canonical_json bundle)) in
  let! qr := match delivery options with
    | Qr =>
      let! qr := lift_result Datatypes.id (render_qr environment canonical) in
      lift_result Datatypes.id (ensure_qr_fits_terminal qr (parse_terminal_columns (columns environment))) ;!
      ret (Some qr)
    | ToFile _ => ret None
    end in
  ret {| original := original; principal_id := principal_id;
         credential_file := secret_path config_parent (client_name options) principal_id;
         secret := secret; canonical := canonical; qr := qr |}.

(** The rest: the credential file, the configuration, the delivery, and what is
    undone when one of them fails. *)
Definition updated (options : IssueOptions) (p : Prepared) : Config :=
  add_credential (original p)
    {| id := principal_id p; name := Some (client_name options); secret_file := credential_file p |}.
Definition commit_issue (options : IssueOptions) (p : Prepared) : M FileSystem CommandError Issued :=
  config (write_secret (credential_file p) (secret p)) ;!
  let! written := attempt (config (write (config_path options) (updated options p))) in
  match written with
  | Err error => let! _ := attempt (fs.remove_file (credential_file p)) in throw error
  | Ok _ =>
    let! delivered := attempt (deliver options (qr p) (canonical p)) in
    match delivered with
    | Err error =>
      let! rollback := attempt (config (write (config_path options) (original p))) in
      let! _ := attempt (fs.remove_file (credential_file p)) in
      throw (match rollback with Ok _ => error | Err rollback => RollbackFailed error rollback end)
    | Ok shown => ret {| principal := principal_id p; shown := shown |}
    end
  end.
Definition issue (environment : IssueEnvironment) (options : IssueOptions) : M FileSystem CommandError Issued :=
  let! p := prepare_issue environment options in
  commit_issue options p.

Definition selects (selector : Selector) (c : CredentialConfig) : bool :=
  match selector with
  | ById i => id c =? i
  | ByName n => bool_decide (name c = Some n)
  end.
Fixpoint position {A} (f : A -> bool) (l : list A) : option nat :=
  match l with [] => None | a :: l => if f a then Some O else S <$> position f l end.

(** The identifier of the principal revoked. *)
Definition revoke (path : Path) (selector : Selector) : M FileSystem CommandError N :=
  let! c := config (read path) in
  reject_if (len (credentials c) =? 1) FinalCredential ;!
  let! i := ok_or (position (selects selector) (credentials c)) CredentialNotFound in
  let! removed := expect (credentials c !! i) in
  config (write path (remove_credential c i)) ;!
  let! cleaned := attempt (fs.remove_file (secret_file removed)) in
  match cleaned with
  | Ok _ | Err NotFound => ret (id removed)
  | Err _ => throw (CleanupFailed (id removed) (secret_file removed))
  end.
End commands.

(** ** Steps *)
(** Removing a file whose outcome is ignored. *)
Lemma wp_discard {E A} path s (f : result unit IoError -> M FileSystem E A) (Q : result A E -> FileSystem -> Prop) :
  (forall r s', umask s' = umask s -> files s' = files s \/ files s' = delete path (files s) -> wp (f r) s' Q) ->
  wp (bind (attempt (fs.remove_file path)) f) s Q.
Proof.
  intros Hf. apply wp_bind, wp_attempt, wp_remove_file.
  - intros s' Hu _ Hs. apply Hf; auto.
  - intros s' e Hu Hs _. apply Hf; auto.
Qed.

Lemma wp_write_private_new path bytes s (Q : result unit CommandError -> FileSystem -> Prop) :
  (forall s', umask s' = umask s -> files s !! path = None ->
     files s' = <[path := {| contents := bytes ++ [x0a]; permissions := 384 |}]> (files s) -> Q (Ok tt) s') ->
  (forall s' e, same_but (fun p => p = path /\ files s !! path = None) s s' -> Q (Err e) s') ->
  wp (write_private_new path bytes) s Q.
Proof.
  intros Hok Herr. unfold write_private_new.
  assert (forall s' e, umask s' = umask s -> files s' = files s -> Q (Err e) s') as Hsame.
  { intros s' e Hu Hs. by apply Herr, same_but_files. }
  destruct (Path.parent path) as [parent|]; cbn [ok_or]; wp_step; [|by apply Hsame].
  apply wp_bind, wp_map_err, wp_faulty_call; intros s1 Hs1 Hu1; [|by apply Hsame].
  apply wp_bind, wp_map_err, wp_create_new; [|intros; apply Hsame; congruence].
  intros s2 Hu2 Hnone Hs2. rewrite Hs1 in Hnone, Hs2.
  assert (forall s' m, files s' = <[path := m]> (files s2) \/ files s' = delete path (files s2) ->
    same_but (fun p => p = path /\ files s !! path = None) s s') as Hb.
  { intros s' m Hs p Hp. assert (path <> p) as Hne by (intros ->; by apply Hp).
    destruct Hs as [->| ->]; [rewrite lookup_insert_ne by done|rewrite lookup_delete_ne by done];
      by rewrite Hs2, lookup_insert_ne. }
  assert (forall s' file, umask s' = umask s2 -> files s' = <[path := file]> (files s2) ->
    wp (bind (attempt (fs.remove_file path)) (fun _ => throw (CannotWriteEnrollment path))) s' Q) as Hfail.
  { intros s' file Hu Hs. apply wp_discard. intros r s3 Hu3 Hs3. wp_step. apply Herr, (Hb _ file).
    destruct Hs3 as [Hs3|Hs3]; rewrite Hs3, Hs; [by left|right]. apply delete_insert_eq. }
  apply wp_bind, wp_attempt, wp_bind. assert (files s2 !! path = Some {| contents := []; permissions := 384 |}) as Hf2
    by (by rewrite Hs2, lookup_insert_eq).
  apply (wp_write_all _ _ _ _ _ Hf2); [|intros s3 n Hu3 Hs3; by eapply Hfail].
  intros s3 Hu3 Hs3. cbn [contents permissions app] in Hs3.
  assert (files s3 !! path = Some {| contents := bytes; permissions := 384 |}) as Hf3 by (by rewrite Hs3, lookup_insert_eq).
  apply (wp_write_all _ _ _ _ _ Hf3); cbn [contents permissions].
  - intros s4 Hu4 Hs4. wp_step. apply Hok; [congruence|done|]. by rewrite Hs4, Hs3, Hs2, !insert_insert_eq.
  - intros s4 n Hu4 Hs4. eapply Hfail; [congruence|]. by rewrite Hs4, Hs3, insert_insert_eq.
Qed.

(** *** The paths of the command differ *)
Definition depth (p : Path) : nat := length (components p).
Lemma depth_parent p q : Path.parent p = Some q -> depth p = S (depth q).
Proof.
  unfold Path.parent, depth. destruct (components p) as [|x c] eqn:Hc; [done|]. intros Hq%Some_inj. subst q.
  destruct (exists_last (l := x :: c)) as (l & y & Hl); [done|]. rewrite Hl. cbn [components].
  rewrite removelast_last, length_app. cbn. lia.
Qed.
Lemma depth_temporary p : depth (temporary p) = depth p.
Proof.
  unfold temporary, Path.with_extension, depth. destruct (rev (components p)) as [|name rest] eqn:Hr; [done|].
  apply (f_equal length) in Hr. rewrite length_rev in Hr. cbn in *. rewrite length_app, length_rev. cbn. lia.
Qed.
Lemma depth_secret_path parent name i : depth (secret_path parent name i) = S (S (depth parent)).
Proof. unfold secret_path, Path.join, depth. cbn [components]. rewrite !length_app. cbn. lia. Qed.
Lemma secret_path_apart path parent name i :
  Path.parent path = Some parent ->
  secret_path parent name i <> path /\ secret_path parent name i <> temporary path.
Proof.
  intros Hp. pose proof (depth_parent _ _ Hp). pose proof (depth_temporary path).
  pose proof (depth_secret_path parent name i). split; intros Heq; rewrite Heq in *; lia.
Qed.

(** ** Preparing *)
Section issuing.
Context `{T : Toml, J : BundleJson}.

(** The bundle that a preparation encodes. *)
Definition issued_bundle (options : IssueOptions) (p : Prepared) (trust : EnrollmentTrust) : EnrollmentBundle :=
  {| Enrollment.kind := ENROLLMENT_KIND; Enrollment.version := ENROLLMENT_VERSION;
     enrolled := {| enrolled_id := str "relay-" ++ display_uint (principal_id p); enrolled_name := server_name options;
                    enrolled_address := relay_address options; enrolled_server_name := server_name options |};
     Enrollment.principal_id := principal_id p; credential := encode_hex (secret p); enrolled_trust := trust |}.

Record prepared (m : gmap Path File) (options : IssueOptions) (p : Prepared) : Prop := {
  pr_config : config_in (m !! config_path options) = Some (original p);
  pr_secrets : Forall (fun c => exists secret, secret_in (m !! secret_file c) = Some secret /\ len secret = 32)
    (credentials (original p));
  pr_name : Forall (fun c => name c <> Some (client_name options)) (credentials (original p));
  pr_id : Forall (fun c => id c < principal_id p) (credentials (original p)) /\ u64 (principal_id p);
  pr_file : exists parent, Path.parent (config_path options) = Some parent /\
    credential_file p = secret_path parent (client_name options) (principal_id p);
  pr_bundle : exists trust, EnrollmentBundle.normalized (issued_bundle options p trust) = Ret (Ok (issued_bundle options p trust)) /\
    EnrollmentJson.to_canonical_json (issued_bundle options p trust) = Ret (Ok (canonical p)) /\ len (secret p) = 32;
  pr_qr : delivery options = Qr -> is_Some (qr p)
}.

Lemma max_id_bound l : Forall (fun c => id c <= max_id l) l.
Proof.
  induction l as [|c l IH]; [constructor|]. change (max_id (c :: l)) with (N.max (id c) (max_id l)).
  constructor; [lia|]. eapply Forall_impl; [exact IH|]. cbn. lia.
Qed.

Lemma only_reads_current_secrets l s panics :
  (forall c, c ∈ l -> secret_panics (files s !! secret_file c) -> panics) ->
  reads (require_current_secrets l) s (fun _ =>
    Forall (fun c => exists secret, secret_in (files s !! secret_file c) = Some secret /\ len secret = 32) l) panics.
Proof.
  revert s. induction l as [|c l IH]; intros s Hp; [by apply only_reads_ret|]. cbn [require_current_secrets].
  eapply only_reads_bind; [apply only_reads_map_err, only_reads_secret, (Hp c); by left|]. intros secret s1 Hs1 Hsec.
  apply only_reads_reject_if. intros Hl%negb_false_iff%N.eqb_eq.
  eapply wpp_mono; [apply IH; intros c' Hc'; rewrite Hs1; apply Hp; by right| |done].
  intros r s' [Hs Hr]. split; [done|]. destruct r; [|done]. rewrite Hs1 in Hr. constructor; [by exists secret|done].
Qed.

Lemma only_reads_run_outcome {E A} (o : outcome (result A E)) s (P : A -> Prop) panics :
  (exists r, o = Ret r) -> (forall a, o = Ret (Ok a) -> P a) -> reads (run_outcome o) s P panics.
Proof. intros [r ->] HP. unfold reads, wp_or_panic, run_outcome. split; [done|]. destruct r; [by apply HP|done]. Qed.

Lemma only_reads_prepare environment options s :
  reads (prepare_issue environment options) s (prepared (files s) options) (secrets_panic (files s) (config_path options)).
Proof.
  unfold prepare_issue. apply only_reads_lift. intros _ _.
  eapply only_reads_bind; [apply only_reads_map_err, only_reads_config|]. intros c s1 Hs1 Hc.
  eapply only_reads_bind; [apply only_reads_current_secrets|].
  { intros entry He Hp. rewrite Hs1 in Hp. by exists c, entry. }
  intros [] s2 Hs2 Hsec. rewrite Hs1 in Hsec. apply only_reads_reject_if. intros Hname. apply only_reads_ok_or.
  intros i [Hi1 Hi2]%checked_add_Some. apply only_reads_ok_or. intros parent Hparent. apply only_reads_ok_or. intros secret _.
  apply (only_reads_bind _ _ _ (fun _ => True)).
  { destruct (custom_ca options); [|by apply only_reads_ret]. apply (only_reads_bind _ _ _ (fun _ => True)); [|intros; by apply only_reads_ret].
    apply only_reads_map_err, wp_may_panic, wp_read_to_string; auto. }
  intros trust s3 Hs3 _. eapply only_reads_bind; [apply only_reads_map_err, only_reads_run_outcome; [apply new_total|intros b Hb; exact Hb]|].
  intros b s4 Hs4 (Hwf & Hagain & Hlen & Hb)%new_Ok.
  eapply only_reads_bind; [apply only_reads_map_err, only_reads_run_outcome; [by apply to_canonical_total|intros text Ht; exact Ht]|].
  intros text s5 Hs5 Htext. apply (only_reads_bind _ _ _ (fun qr => delivery options = Qr -> is_Some qr)).
  { destruct (delivery options); [|by apply only_reads_ret]. do 2 (apply only_reads_lift; intros ? _). by apply only_reads_ret. }
  intros code s6 _ Hcode. apply only_reads_ret. constructor; cbn; try done.
  - apply Forall_forall. intros entry He Heq. assert (existsb (fun c => bool_decide (name c = Some (client_name options)))
      (credentials c) = true); [|congruence]. apply existsb_exists. exists entry. split; [by apply list_elem_of_In|].
    by apply bool_decide_eq_true.
  - split; [|subst i; exact Hi2]. eapply Forall_impl; [apply max_id_bound|]. cbn. lia.
  - by exists parent.
  - exists trust. subst b. exact (conj Hagain (conj Htext Hlen)).
Qed.

(** ** Committing *)
Context `{!TomlLaws T}.

Definition touched (options : IssueOptions) (file path : Path) : Prop :=
  path = config_path options \/ path = temporary (config_path options) \/ path = file \/ delivery options = ToFile path.

Lemma read_written path c text s :
  Forall comment_char (listener_bind (listener c)) -> text_of c = Some text ->
  files s !! path = Some {| contents := encode text; permissions := 384 |} ->
  result_of (read path) s = Some (Ok c).
Proof. intros Hb Ht Hf. by rewrite undisturbed_read, Hf, (text_reads_back c text). Qed.

(** What a successful command leaves. *)
Record issued (options : IssueOptions) (p : Prepared) (s' : FileSystem) (r : Issued) : Prop := {
  is_config : result_of (read (config_path options)) s' = Some (Ok (updated options p));
  is_secret : result_of (read_secret (credential_file p)) s' = Some (Ok (secret p));
  is_principal : principal r = principal_id p;
  is_delivered : match delivery options with
                 | Qr => shown r = qr p
                 | ToFile path =>
                   files s' !! path = Some {| contents := encode (canonical p) ++ [x0a]; permissions := 384 |}
                 end
}.

Lemma wp_deliver options p s (Q : result (option Str) CommandError -> FileSystem -> Prop) :
  (delivery options = Qr -> is_Some (qr p)) ->
  (delivery options = Qr -> Q (Ok (qr p)) s) ->
  (forall path s', delivery options = ToFile path -> umask s' = umask s -> files s !! path = None ->
     files s' = <[path := {| contents := encode (canonical p) ++ [x0a]; permissions := 384 |}]> (files s) -> Q (Ok None) s') ->
  (forall s' e, same_but (fun q => delivery options = ToFile q /\ files s !! q = None) s s' -> Q (Err e) s') ->
  wp (deliver options (qr p) (canonical p)) s Q.
Proof.
  intros Hqr Hshown Hfile Herr. unfold deliver. destruct (delivery options) as [|path].
  - destruct (Hqr eq_refl) as [code Hc]. rewrite Hc. apply wp_bind_expect. exists code. split; [done|].
    apply wp_ret. rewrite <-Hc. by apply Hshown.
  - apply wp_bind, wp_write_private_new.
    + intros s' Hu Hn Hs. by apply (Hfile path).
    + intros s' e Hs. apply Herr. eapply same_but_mono; [|exact Hs]. by intros q [-> Hn].
Qed.

(** Taking the credential file back; its outcome is ignored. *)
Lemma wp_take_back {A} F C (e : CommandError) s (Q : result A CommandError -> FileSystem -> Prop) :
  F <> C -> (forall s', same_but (fun p => p = F) s s' -> files s' !! C = files s !! C -> Q (Err e) s') ->
  wp (bind (attempt (fs.remove_file F)) (fun _ => throw e)) s Q.
Proof.
  intros Hne HQ. apply wp_discard. intros r s' Hu Hs. apply wp_throw.
  assert (same_but (fun p => p = F) s s') as Hb by by apply (same_but_delete _ F).
  apply HQ; [done|]. apply Hb. congruence.
Qed.

(** A delivery that failed: the configuration is put back or names what was
    issued. *)
Lemma wp_rollback {A} options p s (e : CommandError) (Q : result A CommandError -> FileSystem -> Prop) :
  Forall comment_char (listener_bind (listener (original p))) -> credential_file p <> config_path options ->
  (forall s' e', same_but (touched options (credential_file p)) s s' ->
     result_of (read (config_path options)) s' = Some (Ok (original p)) \/
     (exists rollback, e' = RollbackFailed e rollback) /\
       files s' !! config_path options = files s !! config_path options -> Q (Err e') s') ->
  wp (let! rollback := attempt (config (write (config_path options) (original p))) in
      let! _ := attempt (fs.remove_file (credential_file p)) in
      throw (match rollback with Ok _ => e | Err rollback => RollbackFailed e rollback end)) s Q.
Proof.
  intros Hb Hne HQ. apply wp_bind, wp_attempt, wp_map_err, wp_write_config.
  - intros s1 text _ Ht Hc Hs. apply (wp_take_back _ (config_path options)); [done|]. intros s2 Hs2 Hc2. apply HQ.
    + eapply same_but_trans; (eapply same_but_mono; [|eassumption]); unfold touched; naive_solver.
    + left. apply (read_written _ _ text); [done..|congruence].
  - intros s1 e' _ Hc Hs. apply (wp_take_back _ (config_path options)); [done|]. intros s2 Hs2 Hc2. apply HQ.
    + eapply same_but_trans; (eapply same_but_mono; [|eassumption]); unfold touched; naive_solver.
    + right. split; [by eexists|congruence].
Qed.

Lemma wp_commit options p s :
  prepared (files s) options p -> Forall comment_char (listener_bind (listener (original p))) ->
  wp (commit_issue options p) s (fun r s' =>
    same_but (touched options (credential_file p)) s s' /\
    match r with
    | Ok r => issued options p s' r
    | Err e =>
      result_of (read (config_path options)) s' = Some (Ok (original p)) \/
      exists error rollback, e = RollbackFailed error rollback /\
        result_of (read (config_path options)) s' = Some (Ok (updated options p))
    end).
Proof.
  intros [Hc _ _ _ (parent & Hparent & Hfile) (trust & _ & _ & Hlen) Hqr] Hb.
  destruct (secret_path_apart (config_path options) parent (client_name options) (principal_id p) Hparent) as [HFC HFT].
  rewrite <-Hfile in HFC, HFT. set (C := config_path options) in *. set (F := credential_file p) in *.
  assert (forall s', files s' !! C = files s !! C -> result_of (read C) s' = Some (Ok (original p))) as Hbefore.
  { intros s' Hs. by rewrite undisturbed_read, Hs, Hc. }
  assert (secret p <> []) as Hne by (intros Heq; by rewrite Heq in Hlen).
  assert (forall (P : Path -> Prop) t t', same_but P t t' -> (forall q, P q -> touched options F q) ->
    same_but (touched options F) t t') as Htouch by (intros ? ? ? H1 H2; by eapply same_but_mono).
  unfold commit_issue. fold C F. apply wp_bind, wp_map_err, wp_write_secret.
  2:{ intros s1 e _ Hs1 _. split; [eapply Htouch; [exact Hs1|unfold touched; auto]|]. left. apply Hbefore, Hs1. congruence. }
  intros s1 _ Hf1 Hs1. assert (same_but (touched options F) s s1) as Ht1 by (eapply Htouch; [exact Hs1|unfold touched; auto]).
  assert (files s1 !! C = files s !! C) as Hc1 by (apply Hs1; congruence).
  apply wp_bind, wp_attempt, wp_map_err, wp_write_config.
  2:{ intros s2 e _ Hc2 Hs2. apply (wp_take_back _ C); [done|]. intros s3 Hs3 Hc3. split.
      - eapply same_but_trans; [exact Ht1|]. eapply same_but_trans; (eapply Htouch; [eassumption|]); unfold touched; naive_solver.
      - left. apply Hbefore. congruence. }
  intros s2 text _ Htext Hc2 Hs2.
  assert (same_but (touched options F) s s2) as Ht2
    by (eapply same_but_trans; [exact Ht1|eapply Htouch; [exact Hs2|unfold touched; naive_solver]]).
  assert (files s2 !! F = files s1 !! F) as Hf2 by (apply Hs2; naive_solver).
  assert (forall s', files s' !! C = files s2 !! C -> result_of (read C) s' = Some (Ok (updated options p))) as Hafter.
  { intros s' Hs. apply (read_written C (updated options p) text); [exact Hb|done|by rewrite Hs]. }
  assert (forall s', files s' !! F = files s2 !! F -> result_of (read_secret F) s' = Some (Ok (secret p))) as Hsecret.
  { intros s' Hs. apply undisturbed_read_secret. rewrite Hs, Hf2, Hf1. apply secret_written; [done|].
    rewrite Hlen. done. }
  apply wp_bind, wp_attempt, wp_deliver; [done|..].
  - intros Hd. apply wp_ret. split; [done|]. constructor; [by apply Hafter|by apply Hsecret|done|by rewrite Hd].
  - intros path s3 Hd Hu3 Hnone Hs3. apply wp_ret.
    assert (path <> C) by (intros ->; by rewrite Hc2 in Hnone). assert (path <> F) by (intros ->; by rewrite Hf2, Hf1 in Hnone).
    split.
    + eapply same_but_trans; [exact Ht2|]. eapply same_but_insert; [|exact Hs3]. unfold touched. auto.
    + constructor; [apply Hafter|apply Hsecret|done|rewrite Hd]; rewrite Hs3;
        [by apply lookup_insert_ne..|apply lookup_insert_eq].
  - intros s3 e Hs3.
    assert (same_but (touched options F) s s3) as Ht3
      by (eapply same_but_trans; [exact Ht2|eapply Htouch; [exact Hs3|unfold touched; naive_solver]]).
    assert (files s3 !! C = files s2 !! C) as Hc3 by (apply Hs3; intros [_ Hn]; by rewrite Hc2 in Hn).
    apply wp_rollback; [done..|]. intros s4 e' Hs4 H4. split; [by eapply same_but_trans|].
    destruct H4 as [H4|[[rollback ->] H4]]; [by left|right]. eexists _, _. split; [done|]. apply Hafter. etransitivity; [exact H4|exact Hc3].
Qed.

Lemma issue_cases environment options s :
  (forall c, config_in (files s !! config_path options) = Some c -> Forall comment_char (listener_bind (listener c))) ->
  wp_or_panic (issue environment options) s (fun r s' =>
    files s' = files s /\ (exists e, r = Err e) \/
    exists p, prepared (files s) options p /\
    same_but (touched options (credential_file p)) s s' /\
    match r with
    | Ok r => issued options p s' r
    | Err e => result_of (read (config_path options)) s' = Some (Ok (original p)) \/
               exists error rollback, e = RollbackFailed error rollback /\
                 result_of (read (config_path options)) s' = Some (Ok (updated options p))
    end) (secrets_panic (files s) (config_path options)).
Proof.
  intros Hb. unfold issue. apply wpp_bind. eapply wpp_mono; [apply only_reads_prepare| |done].
  intros [p|e] s1 [Hs Hp]; [|by left; eauto]. apply wp_may_panic.
  eapply wp_mono; [apply wp_commit; [by rewrite Hs|apply Hb, Hp]|]. cbn. intros r s' [Ht Hr]. right. exists p.
  split; [done|]. split; [|done]. eapply same_but_trans; [by apply same_but_files|exact Ht].
Qed.

(** C26. Issuing is a transaction: whatever call fails it returns, touching only the
    configuration, its temporary file, the new credential file and the
    enrolment file.  When it succeeds the configuration reads back with one
    more entry, under a new identifier and the given name, whose file gives
    the issued secret; the enrolment was shown or is in its private file, and
    imports as a bundle with that identifier and that secret.  When it fails
    the configuration reads as before, unless the error says that its
    rollback failed.  It panics only where reading a credential does. *)
Theorem issue_transaction `{!BundleJsonLaws J} environment options s :
  (forall c, config_in (files s !! config_path options) = Some c -> Forall comment_char (listener_bind (listener c))) ->
  match issue environment options s with
  | Ret (r, s') =>
    exists file, same_but (touched options file) s s' /\
    match r with
    | Ok r => exists p, prepared (files s) options p /\ file = credential_file p /\ issued options p s' r /\
        exists bundle, Enrollment.principal_id bundle = principal_id p /\
          EnrollmentBundle.credential_bytes bundle = Ret (Ok (secret p)) /\
          (len (encode (canonical p)) <= MAX_ENROLLMENT_BYTES ->
           EnrollmentJson.from_json (encode (canonical p)) = Ret (Ok bundle))
    | Err e =>
      result_of (read (config_path options)) s' = result_of (read (config_path options)) s \/
      exists error rollback, e = RollbackFailed error rollback
    end
  | Panic => secrets_panic (files s) (config_path options)
  | OutOfFuel => False
  end.
Proof.
  intros Hb. pose proof (issue_cases environment options s Hb) as H. unfold wp_or_panic in H.
  destruct (issue environment options s) as [[r s']| |]; [|done..].
  destruct H as [[Hs (e & ->)]|(p & Hp & Ht & Hr)].
  - exists (config_path options). split; [by apply same_but_files|]. left. by apply undisturbed_read_ext; rewrite Hs.
  - exists (credential_file p). split; [done|]. destruct r as [r|e].
    + exists p. split_and!; [done..|]. destruct (pr_bundle _ _ _ Hp) as (trust & Hagain & Htext & Hl).
      exists (issued_bundle options p trust). split_and!; [done|by apply encoded_credential_bytes|].
      intros Hlen. by apply canonical_reads_back.
    + destruct Hr as [Hr|(e1 & e2 & -> & _)]; [left|right; eauto]. rewrite Hr.
      by rewrite undisturbed_read, (pr_config _ _ _ Hp).
Qed.

(** A failed issue whose rollback fails too leaves a configuration that names
    the credential file it then removes: once that file is gone, no later
    loading of the configuration succeeds. *)
Theorem failed_rollback_blocks `{NodeLibraries, !ConstantTimeEq, !ConstantTimeEqLaws _} environment options s e s' :
  (forall c, config_in (files s !! config_path options) = Some c -> Forall comment_char (listener_bind (listener c))) ->
  issue environment options s = Ret (Err e, s') ->
  result_of (read (config_path options)) s' <> result_of (read (config_path options)) s ->
  (exists error rollback, e = RollbackFailed error rollback) /\
  exists c entry, result_of (read (config_path options)) s' = Some (Ok c) /\ entry ∈ credentials c /\
    name entry = Some (client_name options) /\
    (files s' !! secret_file entry = None ->
     forall t l t', files t = files s' -> load (config_path options) t <> Ret (Ok l, t')).
Proof.
  intros Hb Hrun Hdiff. pose proof (issue_cases environment options s Hb) as H'. unfold wp_or_panic in H'.
  rewrite Hrun in H'. destruct H' as [[Hs _]|(p & Hp & _ & [Hr|(e1 & e2 & -> & Hr)])].
  { destruct Hdiff. by apply undisturbed_read_ext; rewrite Hs. }
  { destruct Hdiff. by rewrite Hr, undisturbed_read, (pr_config _ _ _ Hp). }
  split; [eauto|]. eexists (updated options p), _. split; [done|]. split; [apply elem_of_app; right; by left|].
  split; [done|]. cbn [secret_file]. intros Hnone t l t' Ht Hload. pose proof (only_reads_load (config_path options) t) as Hl.
  unfold reads, wp_or_panic in Hl. rewrite Hload in Hl. destruct Hl as (_ & c & Hc & Hfrom).
  assert (c = updated options p) as ->.
  { rewrite undisturbed_read in Hr. rewrite Ht in Hc. rewrite Hc in Hr. congruence. }
  destruct (lf_secrets _ _ _ Hfrom {| id := principal_id p; name := Some (client_name options); secret_file := credential_file p |})
    as [secret Hsecret]; [apply elem_of_app; right; by left|]. cbn in Hsecret. by rewrite Ht, Hnone in Hsecret.
Qed.
End issuing.

(** ** Revoking *)
Section revoking.
Context `{T : Toml, !TomlLaws T}.

Lemma position_spec {A} (f : A -> bool) l :
  match position f l with
  | Some i => exists a, l !! i = Some a /\ f a = true /\ forall j b, (j < i)%nat -> l !! j = Some b -> f b = false
  | None => Forall (fun a => f a = false) l
  end.
Proof.
  induction l as [|a l IH]; [constructor|]. cbn [position]. destruct (f a) eqn:Hf.
  { exists a. split_and!; [done..|]. intros j b Hj. lia. }
  destruct (position f l) as [i|]; [|by constructor]. destruct IH as (b & Hb & Hfb & Hbefore).
  exists b. split_and!; [done..|]. intros [|j] x Hj Hx; cbn in Hx; [by injection Hx as <-|].
  apply (Hbefore j); [lia|done].
Qed.

(** The configuration [c] lost its first entry that the selector takes. *)
Definition revoked (c : Config) (selector : Selector) (entry : CredentialConfig) (c' : Config) : Prop :=
  exists i, credentials c !! i = Some entry /\ selects selector entry = true /\
    (forall j e, (j < i)%nat -> credentials c !! j = Some e -> selects selector e = false) /\
    c' = remove_credential c i /\ credentials c' <> [].

Lemma revoked_remains c i entry :
  credentials c !! i = Some entry -> len (credentials c) <> 1 -> credentials (remove_credential c i) <> [].
Proof.
  intros Hi Hl Hn. cbn in Hn. apply (f_equal length) in Hn. cbn in Hn. unfold len in Hl.
  assert (is_Some (credentials c !! i)) as Hs by (by rewrite Hi).
  rewrite length_delete in Hn by done. apply lookup_lt_is_Some in Hs. lia.
Qed.

(** Revoking takes the first entry that matches out of the configuration,
    never the last entry there is, and only then removes its credential file;
    no other file changes.  When it fails the configuration reads as before,
    unless only the removal failed, which the error says. *)
Theorem revoke_spec path selector s :
  (forall c, config_in (files s !! path) = Some c ->
     Forall comment_char (listener_bind (listener c)) /\ Forall (fun e => secret_file e <> path) (credentials c)) ->
  wp (revoke path selector) s (fun r s' =>
    match r with
    | Ok i => exists c c' entry, config_in (files s !! path) = Some c /\ revoked c selector entry c' /\ id entry = i /\
        result_of (read path) s' = Some (Ok c') /\ files s' !! secret_file entry = None /\
        same_but (fun p => p = path \/ p = temporary path \/ p = secret_file entry) s s'
    | Err (CleanupFailed i file) => exists c c' entry, config_in (files s !! path) = Some c /\
        revoked c selector entry c' /\ id entry = i /\ secret_file entry = file /\
        result_of (read path) s' = Some (Ok c') /\
        same_but (fun p => p = path \/ p = temporary path) s s'
    | Err _ => result_of (read path) s' = result_of (read path) s /\ same_but (fun p => p = temporary path) s s'
    end).
Proof.
  intros Hplain. unfold revoke. apply wp_bind, wp_map_err, wp_read_config.
  2:{ intros s1 e Hs1 _. split; [by apply undisturbed_read_ext; rewrite Hs1|by apply same_but_files]. }
  intros s1 c Hs1 _ Hc. destruct (Hplain c Hc) as [Hb Hpath].
  assert (result_of (read path) s1 = result_of (read path) s /\ same_but (fun p => p = temporary path) s s1) as Hsame
    by (split; [by apply undisturbed_read_ext; rewrite Hs1|by apply same_but_files]).
  apply wp_bind_reject_if; intros Hl; [done|]. apply N.eqb_neq in Hl.
  pose proof (position_spec (selects selector) (credentials c)) as Hp.
  destruct (position _ _) as [i|]; cbn [ok_or]; wp_step; [|done]. destruct Hp as (entry & Hi & Hsel & Hbefore).
  apply wp_bind_expect. exists entry. split; [done|].
  assert (revoked c selector entry (remove_credential c i)) as Hrev.
  { exists i. split_and!; [done..|]. by eapply revoked_remains. }
  rewrite Forall_lookup in Hpath. specialize (Hpath i entry Hi).
  apply wp_bind, wp_map_err, wp_write_config.
  2:{ intros s2 e _ Hc2 Hs2. split; [apply undisturbed_read_ext; by rewrite Hc2, Hs1|].
      eapply same_but_trans; [by apply same_but_files|exact Hs2]. }
  intros s2 text _ Ht Hc2 Hs2.
  assert (forall s', files s' !! path = files s2 !! path -> result_of (read path) s' = Some (Ok (remove_credential c i))) as Hr.
  { intros s' Hs. apply (read_written _ _ text); [exact Hb|done|by rewrite Hs]. }
  assert (same_but (fun p => p = path \/ p = temporary path) s s2) as Hs02
    by (eapply same_but_trans; [by apply same_but_files|exact Hs2]).
  apply wp_bind, wp_attempt, wp_remove_file.
  - intros s3 _ _ Hs3. wp_step. exists c, (remove_credential c i), entry. split_and!; [done..| | |].
    + apply Hr. rewrite Hs3. by apply lookup_delete_ne.
    + by rewrite Hs3, lookup_delete_eq.
    + eapply same_but_trans; [eapply same_but_mono; [|exact Hs02]; naive_solver|].
      apply (same_but_delete _ (secret_file entry)); auto.
  - intros s3 e _ Hs3 Hnone. assert (same_but (fun p => p = path \/ p = temporary path) s s3) as Hs03
      by (eapply same_but_trans; [exact Hs02|by apply same_but_files]).
    destruct e; wp_step; exists c, (remove_credential c i), entry; split_and!; try done; try (apply Hr; by rewrite Hs3).
    + rewrite Hs3. by apply Hnone.
    + eapply same_but_mono; [|exact Hs03]. naive_solver.
Qed.
End revoking.
