(* ===== verification/NodeAcme.v ===== *)
(** Certificates from an ACME helper ([apps/velum-node/src/acme.rs]): the
    policy, the run of the helper, and the activation of a certificate and its
    key over files whose calls may fail.  The helper and the running service
    are parameters. *)
From S2P Require Import Prelude Str Utf8 NodeFiles NodeConfig NodeEnrollment.
Import Utf8.

Definition LETS_ENCRYPT_PRODUCTION : Str := str "https://acme-v02.api.letsencrypt.org/directory".
Definition LETS_ENCRYPT_STAGING : Str := str "https://acme-staging-v02.api.letsencrypt.org/directory".
Definition LEGO_VERSION : Str := str "5.2.2".

Inductive Action := Obtain | Renew.

(** One constructor for each message; texts of the system are left out. *)
Inductive AcmeError :=
| EmailEmpty
| NoDnsNames
| DnsProviderEmpty
| ConfigError (e : NodeConfig.Error)
| NotConfigured
| CannotCreateStateDirectory (path : Path)
| CannotSecureStateDirectory (path : Path)
| NoDataDirectory
| CannotExecuteLego (lego : Path)
| LegoFailed (action : Action)
| SamePaths
| NoDomain
| InvalidPair
| DestinationHasNoParent
| CannotCreateCertificateDirectory (path : Path)
| StagingFileExists (path : Path)
| CannotStage (path : Path)
| CannotSecureFile (path : Path)
| BackupFileExists (path : Path)
| CannotBackUp (path : Path)
| CannotReplace (path : Path)
| CannotRestore (path backup : Path)
| CannotRemove (path : Path)
| BothRestoresFailed (private_key certificate : AcmeError)
| ReplaceThenRestoreFailed (error rollback : AcmeError)
| ReloadRefused
| ReloadThenRollbackFailed (error rollback : AcmeError)
| RestoredPrevious (error : AcmeError).

(** The variables of the environment that are read. *)
Record Environment := {
  VELUM_LEGO_BIN : option Path;
  XDG_DATA_HOME : option Path;
  XDG_STATE_HOME : option Path;
  HOME : option Path
}.
Definition lego_binary (env : Environment) : result Path AcmeError :=
  match VELUM_LEGO_BIN env with
  | Some path => Ok path
  | None =>
    let data := match XDG_DATA_HOME env with
                | Some data => Some data
                | None => (fun home => Path.join_path home (Path.from (str ".local/share"))) <$> HOME env
                end in
    match data with
    | None => Err NoDataDirectory
    | Some data =>
      Ok (Path.join (Path.join_path (Path.join_path data (Path.from (str "velum/tools/lego")))
        (Path.from (str "v" ++ LEGO_VERSION))) (str "lego"))
    end
  end.
Definition default_state_dir (env : Environment) : Path :=
  let state := match XDG_STATE_HOME env with
               | Some state => Some state
               | None => (fun home => Path.join_path home (Path.from (str ".local/state"))) <$> HOME env
               end in
  Path.join_path (default (Path.from (str ".")) state) (Path.from (str "velum/acme")).

Definition label_byte (b : byte) : bool := is_ascii_alphanumeric (Byte.to_N b) || (Byte.to_N b =? 45).
Definition valid_label (label : Str) : bool :=
  negb (is_empty label) && (utf8_len label <=? 63) && forallb label_byte (encode label).
Definition is_ascii_alphabetic (b : byte) : bool :=
  let c := Byte.to_N b in ((65 <=? c) && (c <=? 90)) || ((97 <=? c) && (c <=? 122)).
Definition valid_domain (domain : Str) : bool :=
  negb (is_empty domain) && (utf8_len domain <=? 253) && existsb is_ascii_alphabetic (encode domain)
  && forallb valid_label (split 46 domain).

(** ** Policy *)
Definition set_acme (c : Config) (acme : AcmeConfig) : Config :=
  {| version := version c; listener := listener c; admin := admin c; credentials := credentials c;
     allowed_targets := allowed_targets c; limits := limits c; cover_service := cover_service c; acme := Some acme |}.
Definition in_config {A} (m : M FileSystem NodeConfig.Error A) : M FileSystem AcmeError A := map_err ConfigError m.

Definition configure `{Toml} (env : Environment) (config_path : Path) (email : Str) (domains : list Str)
  (dns_provider : Str) (staging : bool) : M FileSystem AcmeError unit :=
  reject_if (is_empty (trim email)) EmailEmpty ;!
  reject_if (is_empty domains || existsb (fun domain => negb (valid_domain domain)) domains) NoDnsNames ;!
  reject_if (is_empty (trim dns_provider)) DnsProviderEmpty ;!
  let! config := in_config (read config_path) in
  in_config (write config_path (set_acme config
    {| email := email; domains := domains; dns_provider := dns_provider;
       directory_url := if staging then LETS_ENCRYPT_STAGING else LETS_ENCRYPT_PRODUCTION;
       state_dir := default_state_dir env; renew_before_days := 30 |})).

(** ** Activating a pair *)

(** [path.exists()], which takes a [metadata] that fails for absence, whatever
    it fails for.  The system says whether the call on a path fails although
    the file is there. *)
Class Stat := stat_fails : Path -> FileSystem -> bool.
Definition path_exists `{Stat} (path : Path) : M FileSystem AcmeError bool :=
  let! s := get in
  ret (bool_decide (is_Some (files s !! path)) && negb (stat_fails path s)).

Definition restrict_file (path : Path) : M FileSystem AcmeError unit :=
  map_err (fun _ => CannotSecureFile path) (fs.set_permissions path 384).
Definition secure_directory (path : Path) : M FileSystem AcmeError unit :=
  map_err (fun _ => CannotCreateStateDirectory path) (fs.create_dir_all path) ;!
  map_err (fun _ => CannotSecureStateDirectory path) (fs.set_directory_permissions path 448).

Definition stage_label : Str := str "stage".
Definition backup_label : Str := str "backup".
Definition temporary_path (destination : Path) (label : Str) : Path :=
  Path.with_extension destination (str "velum-acme-" ++ label).
Definition cleanup_path (path : Path) : M FileSystem AcmeError unit :=
  let! _ := attempt (fs.remove_file path) in ret tt.
Definition cleanup (path : option Path) : M FileSystem AcmeError unit :=
  match path with Some path => cleanup_path path | None => ret tt end.

Section activation.
Context `{Stat}.

Definition stage_private_file (source destination : Path) : M FileSystem AcmeError Path :=
  let! parent := ok_or (Path.parent destination) DestinationHasNoParent in
  map_err (fun _ => CannotCreateCertificateDirectory parent) (fs.create_dir_all parent) ;!
  let temporary := temporary_path destination stage_label in
  let! present := path_exists temporary in
  reject_if present (StagingFileExists temporary) ;!
  map_err (fun _ => CannotStage destination) (fs.copy source temporary) ;!
  restrict_file temporary ;!
  ret temporary.

Definition backup_file (path : Path) : M FileSystem AcmeError (option Path) :=
  let! present := path_exists path in
  if negb present then ret None
  else
    let backup := temporary_path path backup_label in
    let! taken := path_exists backup in
    reject_if taken (BackupFileExists backup) ;!
    map_err (fun _ => CannotBackUp path) (fs.copy path backup) ;!
    restrict_file backup ;!
    ret (Some backup).

Definition replace_file (staged destination : Path) : M FileSystem AcmeError unit :=
  map_err (fun _ => CannotReplace destination) (fs.rename staged destination).

Definition restore_file (destination : Path) (backup : option Path) : M FileSystem AcmeError unit :=
  match backup with
  | Some backup => map_err (fun _ => CannotRestore destination backup) (fs.rename backup destination)
  | None =>
    let! present := path_exists destination in
    if present then map_err (fun _ => CannotRemove destination) (fs.remove_file destination) else ret tt
  end.

Record ActivatedPair := {
  pair_certificate : Path;
  pair_private_key : Path;
  certificate_backup : option Path;
  private_key_backup : option Path
}.
Definition commit (self : ActivatedPair) : M FileSystem AcmeError unit :=
  cleanup (certificate_backup self) ;! cleanup (private_key_backup self).
Definition rollback (self : ActivatedPair) : M FileSystem AcmeError unit :=
  let! private_key := attempt (restore_file (pair_private_key self) (private_key_backup self)) in
  let! certificate := attempt (restore_file (pair_certificate self) (certificate_backup self)) in
  match private_key, certificate with
  | Ok _, Ok _ => ret tt
  | Err error, Ok _ | Ok _, Err error => throw error
  | Err private_key, Err certificate => throw (BothRestoresFailed private_key certificate)
  end.

Definition activate_pair (staged_certificate staged_private_key certificate private_key : Path)
  : M FileSystem AcmeError ActivatedPair :=
  let! certificate_backup := backup_file certificate in
  let! private_key_backup := attempt (backup_file private_key) in
  match private_key_backup with
  | Err error => cleanup certificate_backup ;! throw error
  | Ok private_key_backup =>
    let! replaced := attempt (replace_file staged_certificate certificate) in
    match replaced with
    | Err error => cleanup certificate_backup ;! cleanup private_key_backup ;! throw error
    | Ok _ =>
      let! replaced := attempt (replace_file staged_private_key private_key) in
      match replaced with
      | Err error =>
        let! rollback := attempt (restore_file certificate certificate_backup) in
        cleanup private_key_backup ;!
        throw (match rollback with
               | Ok _ => error
               | Err rollback_error => ReplaceThenRestoreFailed error rollback_error
               end)
      | Ok _ =>
        ret {| pair_certificate := certificate; pair_private_key := private_key;
               certificate_backup := certificate_backup; private_key_backup := private_key_backup |}
      end
    end
  end.

Context `{Toml, NodeLibraries}.
(** What the service behind a socket answers to [reload], given the files. *)
Variable reload_accepted : Path -> gmap Path File -> bool.

Definition request_reload (config_path : Path) : M FileSystem AcmeError unit :=
  let! config := in_config (read config_path) in
  let! s := get in
  reject_if (negb (reload_accepted (socket (admin config)) (files s))) ReloadRefused.

(** The pair the helper leaves for a domain. *)
Definition obtained (acme : AcmeConfig) (domain extension : Str) : Path :=
  Path.join_path (Path.join (state_dir acme) (str "certificates")) (Path.from (domain ++ extension)).

Definition activate (config_path : Path) (config : Config) (acme : AcmeConfig) (reload_required : bool)
  : M FileSystem AcmeError unit :=
  let live_certificate := certificate (listener config) in
  let live_private_key := private_key (listener config) in
  reject_if (bool_decide (live_certificate = live_private_key)) SamePaths ;!
  let! domain := ok_or (head (domains acme)) NoDomain in
  let certificate := obtained acme domain (str ".crt") in
  let private_key := obtained acme domain (str ".key") in
  let! chain := in_config (read_certificates certificate) in
  let! key := in_config (read_private_key private_key) in
  reject_if (negb (certificate_and_key_match chain key)) InvalidPair ;!
  let! staged_certificate := stage_private_file certificate live_certificate in
  let! staged := attempt (stage_private_file private_key live_private_key) in
  match staged with
  | Err error => cleanup_path staged_certificate ;! throw error
  | Ok staged_private_key =>
    let! activation := attempt (activate_pair staged_certificate staged_private_key live_certificate live_private_key) in
    match activation with
    | Err error => cleanup_path staged_certificate ;! cleanup_path staged_private_key ;! throw error
    | Ok activation =>
      if negb reload_required then commit activation
      else
        let! reloaded := attempt (request_reload config_path) in
        match reloaded with
        | Ok _ => commit activation
        | Err error =>
          let! rolled_back := attempt (rollback activation) in
          throw (match rolled_back with
                 | Err rollback_error => ReloadThenRollbackFailed error rollback_error
                 | Ok _ => RestoredPrevious error
                 end)
        end
    end
  end.

(** ** Running the helper *)
Inductive Argument := Text (s : Str) | File_ (path : Path).
Record Command := { program : Path; arguments : list Argument }.
Definition lego_command (lego : Path) (acme : AcmeConfig) (action : Action) : Command :=
  {| program := lego;
     arguments :=
       [Text (str "--accept-tos"); Text (str "--email"); Text (email acme); Text (str "--server"); Text (directory_url acme);
        Text (str "--path"); File_ (state_dir acme); Text (str "--dns"); Text (dns_provider acme)]
       ++ (domains acme ≫= fun domain => [Text (str "--domains"); Text domain])
       ++ match action with
          | Obtain => [Text (str "run")]
          | Renew => [Text (str "renew"); Text (str "--days"); Text (display_uint (renew_before_days acme))]
          end |}.

(** Its exit status, if it could be executed, and the files it leaves. *)
Variable helper : Command -> FileSystem -> option bool * FileSystem.
Definition status (command : Command) : M FileSystem AcmeError (option bool) := fun s =>
  let '(answer, s') := helper command s in Ret (Ok answer, s').

Definition requires_reload (action : Action) (admin_socket : Path) : M FileSystem AcmeError bool :=
  match action with Renew => ret true | Obtain => path_exists admin_socket end.

Definition run (env : Environment) (config_path : Path) (action : Action) : M FileSystem AcmeError unit :=
  let! config := in_config (read config_path) in
  let! acme := ok_or (acme config) NotConfigured in
  secure_directory (state_dir acme) ;!
  let! lego := lift_result Datatypes.id (lego_binary env) in
  let! answer := status (lego_command lego acme action) in
  let! success := ok_or answer (CannotExecuteLego lego) in
  reject_if (negb success) (LegoFailed action) ;!
  let! reload_required := requires_reload action (socket (admin config)) in
  activate config_path config acme reload_required.
End activation.

(** ** What the calls do *)

(** [metadata] on the path fails for no other reason than that it is absent. *)
Definition metadata_reads `{Stat} (path : Path) : Prop := forall s, stat_fails path s = false.

Lemma wp_path_exists `{Stat} path s (Q : result bool AcmeError -> FileSystem -> Prop) :
  (is_Some (files s !! path) -> Q (Ok true) s) ->
  ((metadata_reads path -> files s !! path = None) -> Q (Ok false) s) ->
  wp (path_exists path) s Q.
Proof.
  intros Htrue Hfalse. unfold path_exists, wp, bind, get, ret.
  destruct (files s !! path) as [f|] eqn:Hf; cbn.
  - destruct (stat_fails path s) eqn:Hs; cbn; [|apply Htrue; by exists f].
    apply Hfalse. intros Hr. by rewrite Hr in Hs.
  - by apply Hfalse.
Qed.

Abbreviation stage p := (temporary_path p stage_label).
Abbreviation backup p := (temporary_path p backup_label).
#[global] Arguments stage_label : simpl never.
#[global] Arguments backup_label : simpl never.
#[global] Arguments temporary_path : simpl never.
Definition private_of (file : File) : File := {| contents := contents file; permissions := 384 |}.

(** The state of a live file against the one before the activation. *)
Definition restored (s0 s : FileSystem) (p : Path) : Prop :=
  contents <$> files s !! p = contents <$> files s0 !! p.
Definition settled (s0 s : FileSystem) (p : Path) (new : File) : Prop :=
  files s !! p = None \/ files s !! p = Some new \/ restored s0 s p.
Lemma restored_same s0 s p : files s !! p = files s0 !! p -> restored s0 s p.
Proof. intros Hs. unfold restored. by rewrite Hs. Qed.

Ltac apart :=
  cbv beta;
  first [ let H := fresh in intros H; cbv beta in H; destruct_or? H; congruence
        | tauto | intros ->; tauto | intros <-; tauto ].
(** Looks a path up in the last state before which it cannot have changed. *)
Ltac look_back :=
  repeat match goal with
  | H : same_but _ _ ?s |- context [files ?s !! ?p] => rewrite (H p) by apart
  | H : files ?s = files _ |- context [files ?s !! _] => rewrite H
  end.

Section steps.
Context `{X : Stat}.

(** What a backup holds; no backup means that there was no file. *)
Definition backed_up (s0 s : FileSystem) (path : Path) (b : option Path) : Prop :=
  match b with
  | None => metadata_reads path -> files s0 !! path = None
  | Some b => b = backup path /\ exists f, files s0 !! path = Some f /\ files s !! b = Some (private_of f)
  end.
Lemma backed_up_same s0 s s' path b :
  files s' !! backup path = files s !! backup path -> backed_up s0 s path b -> backed_up s0 s' path b.
Proof. intros Hs. destruct b as [b|]; [|done]. cbn. intros [-> Hf]. by rewrite Hs. Qed.
Lemma backed_up_before s0 s0' s path b :
  files s0 !! path = files s0' !! path -> backed_up s0 s path b -> backed_up s0' s path b.
Proof. intros Hs. destruct b as [b|]; cbn; by rewrite Hs. Qed.

(** Copying to a private file, the last steps of staging and of backing up. *)
Lemma wp_private_copy (failure : AcmeError) source target s (Q : result Path AcmeError -> FileSystem -> Prop) :
  source <> target ->
  (forall s' f, files s !! source = Some f -> files s' !! target = Some (private_of f) ->
     same_but (fun p => p = target) s s' -> Q (Ok target) s') ->
  (forall s' e, same_but (fun p => p = target) s s' -> Q (Err e) s') ->
  wp (map_err (fun _ => failure) (fs.copy source target) ;! restrict_file target ;! ret target) s Q.
Proof.
  intros Hne Hok Herr. apply wp_bind, wp_map_err, wp_copy; [done| |intros; by apply Herr].
  intros s1 f _ Hf Hs1. unfold restrict_file. apply wp_bind, wp_map_err, wp_set_permissions.
  - intros s2 f' _ Hf' Hs2. rewrite Hs1, lookup_insert_eq in Hf'. injection Hf' as <-. wp_step.
    apply (Hok _ f); [done|by rewrite Hs2, lookup_insert_eq|].
    apply (same_but_insert _ target (private_of f)); [done|]. by rewrite Hs2, Hs1, insert_insert_eq.
  - intros s2 e _ Hs2. apply Herr. apply (same_but_insert _ target f); [done|]. by rewrite Hs2.
Qed.

Lemma wp_stage source destination s (Q : result Path AcmeError -> FileSystem -> Prop) :
  source <> stage destination ->
  (forall s' f, files s !! source = Some f -> files s' !! stage destination = Some (private_of f) ->
     (metadata_reads (stage destination) -> files s !! stage destination = None) ->
     same_but (fun p => p = stage destination) s s' -> Q (Ok (stage destination)) s') ->
  (forall s' e, same_but (fun p => p = stage destination) s s' -> Q (Err e) s') ->
  wp (stage_private_file source destination) s Q.
Proof.
  intros Hne Hok Herr. unfold stage_private_file.
  destruct (Path.parent destination) as [parent|]; cbn [ok_or]; wp_step; [|by apply Herr, same_but_refl].
  apply wp_bind, wp_map_err, wp_faulty_call; intros s1 Hs1 _; [|by apply Herr, same_but_files].
  apply wp_bind, wp_path_exists; intros Hn; cbn [reject_if]; wp_step.
  { by apply Herr, same_but_files. }
  apply wp_private_copy; [done| |].
  - intros s3 f Hf H3 Hb. rewrite Hs1 in Hf. rewrite Hs1 in Hn. apply (Hok _ f); [done|done|done|].
    intros p Hp. rewrite (Hb p Hp). by rewrite Hs1.
  - intros s3 e Hb. apply Herr. intros p Hp. rewrite (Hb p Hp). by rewrite Hs1.
Qed.

Lemma wp_backup path s (Q : result (option Path) AcmeError -> FileSystem -> Prop) :
  path <> backup path ->
  (forall s' b, backed_up s s' path b -> same_but (fun p => p = backup path) s s' -> Q (Ok b) s') ->
  (forall s' e, same_but (fun p => p = backup path) s s' -> Q (Err e) s') ->
  wp (backup_file path) s Q.
Proof.
  intros Hne Hok Herr. unfold backup_file. apply wp_bind, wp_path_exists; intros Hn; cbn [negb].
  2: { wp_step. apply Hok; [done|by apply same_but_files]. }
  apply wp_bind, wp_path_exists; intros Hn2; cbn [reject_if]; wp_step.
  { by apply Herr, same_but_files. }
  assert (wp (map_err (fun _ => CannotBackUp path) (fs.copy path (backup path)) ;! restrict_file (backup path) ;! ret (backup path)) s
    (fun r s' => Q (match r with Ok b => Ok (Some b) | Err e => Err e end) s')) as H.
  { apply wp_private_copy; [done| |].
    - intros s3 f Hf H3 Hb. apply Hok; [split; [done|]; by exists f|exact Hb].
    - intros s3 e Hb. by apply Herr. }
  revert H. unfold wp, bind. destruct (map_err _ _ s) as [[[[]|e] s3]| |]; [|done..].
  by destruct (restrict_file (backup path) s3) as [[[[]|e] s4]| |].
Qed.

Lemma wp_replace staged destination s (Q : result unit AcmeError -> FileSystem -> Prop) :
  staged <> destination ->
  (forall s' f, files s !! staged = Some f -> files s' !! destination = Some f -> files s' !! staged = None ->
     same_but (fun p => p = staged \/ p = destination) s s' -> Q (Ok tt) s') ->
  (forall s', files s' = files s -> Q (Err (CannotReplace destination)) s') ->
  wp (replace_file staged destination) s Q.
Proof.
  intros Hne Hok Herr. unfold replace_file. apply wp_map_err, wp_rename.
  - intros s' f _ Hf Hs. apply (Hok _ f); [done|by rewrite Hs, lookup_insert_eq| |].
    + rewrite Hs, lookup_insert_ne by done. apply lookup_delete_eq.
    + intros p Hp. by rewrite Hs, lookup_insert_ne, lookup_delete_ne by (apart).
  - intros s' e _ Hs. by apply Herr.
Qed.

(** Restoring what a backup was made of, wherever it is done. *)
Lemma wp_restore path b s0 s (Q : result unit AcmeError -> FileSystem -> Prop) :
  path <> backup path -> backed_up s0 s path b ->
  (forall s', same_but (fun p => p = path \/ p = backup path) s s' ->
     (metadata_reads path -> restored s0 s' path) ->
     files s' !! path = None \/ files s' !! path = files s !! path \/ restored s0 s' path -> Q (Ok tt) s') ->
  (forall s' e, files s' = files s -> Q (Err e) s') ->
  wp (restore_file path b) s Q.
Proof.
  intros Hne Hb Hok Herr. destruct b as [b|]; cbn in Hb |- *.
  - destruct Hb as [-> (f & Hf & Hbf)]. apply wp_map_err, wp_rename; [|by intros s' e _ Hs; apply Herr].
    intros s' f' _ Hf' Hs. assert (f' = private_of f) as -> by congruence.
    assert (restored s0 s' path) as Hr by (unfold restored; by rewrite Hs, lookup_insert_eq, Hf).
    apply Hok; [|done|by right; right].
    intros p Hp. by rewrite Hs, lookup_insert_ne, lookup_delete_ne by (apart).
  - apply wp_bind, wp_path_exists; intros Hn.
    + apply wp_map_err, wp_remove_file.
      * intros s' _ _ Hs. assert (files s' !! path = None) as Hnone by (rewrite Hs; apply lookup_delete_eq).
        apply Hok; [|intros HR; unfold restored; by rewrite Hnone, (Hb HR)|by left].
        intros p Hp. by rewrite Hs, lookup_delete_ne by (apart).
      * intros s' e _ Hs _. by apply Herr.
    + wp_step. apply Hok; [by apply same_but_files| |by right; left].
      intros HR. unfold restored. by rewrite (Hn HR), (Hb HR).
Qed.

Lemma wp_cleanup_path path s (Q : result unit AcmeError -> FileSystem -> Prop) :
  (forall s', same_but (fun p => p = path) s s' -> Q (Ok tt) s') -> wp (cleanup_path path) s Q.
Proof. intros Hok. unfold cleanup_path. apply wp_discard. intros r s' _ Hs. apply wp_ret, Hok. by eapply same_but_delete. Qed.
Lemma wp_cleanup path b s0 s1 s (Q : result unit AcmeError -> FileSystem -> Prop) :
  backed_up s0 s1 path b -> (forall s', same_but (fun p => p = backup path) s s' -> Q (Ok tt) s') -> wp (cleanup b) s Q.
Proof.
  intros Hb Hok. destruct b as [b|]; cbn in *; [|by apply wp_ret, Hok, same_but_refl].
  destruct Hb as [-> _]. by apply wp_cleanup_path.
Qed.
End steps.

(** ** Activating a pair

    [scratch]: the temporary files next to the live ones. *)
Definition scratch (c k p : Path) : Prop := p = stage c \/ p = stage k \/ p = backup c \/ p = backup k.
Definition touched (c k p : Path) : Prop := p = c \/ p = k \/ scratch c k p.
Definition live_apart (c k : Path) : Prop := NoDup [c; k; stage c; stage k; backup c; backup k].

(** An error that says that what was replaced could not be restored. *)
Definition rollback_failed (e : AcmeError) : Prop :=
  match e with ReplaceThenRestoreFailed _ _ | ReloadThenRollbackFailed _ _ => True | _ => False end.

Ltac split_apart H :=
  repeat match type of H with
  | NoDup (_ :: _) => let Hn := fresh "Hn" in apply NoDup_cons in H as [Hn H];
                      rewrite ?not_elem_of_cons in Hn; destruct_and? Hn
  end.
(** Closes [same_but] goals through the states in between. *)
Ltac only_touched :=
  let p := fresh "p" in let Hp := fresh "Hp" in
  intros p Hp; unfold touched, scratch in Hp; look_back; try reflexivity.

Section pairs.
Context `{X : Stat}.

Lemma wp_activate_pair c k nc nk s (Q : result ActivatedPair AcmeError -> FileSystem -> Prop) :
  live_apart c k -> files s !! stage c = Some nc -> files s !! stage k = Some nk ->
  (forall s' a, pair_certificate a = c -> pair_private_key a = k ->
     files s' !! c = Some nc -> files s' !! k = Some nk ->
     backed_up s s' c (certificate_backup a) ->
     backed_up s s' k (private_key_backup a) ->
     same_but (touched c k) s s' -> Q (Ok a) s') ->
  (forall s' e, same_but (touched c k) s s' -> settled s s' c nc -> files s' !! k = files s !! k ->
     (metadata_reads c -> ~ rollback_failed e -> restored s s' c) -> Q (Err e) s') ->
  wp (activate_pair (stage c) (stage k) c k) s Q.
Proof.
  intros Hapart Hc Hk Hok Herr. unfold live_apart in Hapart. split_apart Hapart.
  assert (forall s' e, same_but (fun p => p = backup c \/ p = backup k) s s' -> Q (Err e) s') as Hbefore.
  { intros s' e Hs. apply Herr; [only_touched|right; right; apply restored_same; by look_back|by look_back|].
    intros _ _. apply restored_same. by look_back. }
  unfold activate_pair. apply wp_bind, wp_backup; [congruence| |intros; apply Hbefore; only_touched].
  intros s1 bc Hbc Hs1. apply wp_bind, wp_attempt, wp_backup; [congruence| |].
  2: { intros s2 e Hs2. apply wp_bind. eapply (wp_cleanup c _ s); [exact Hbc|]. intros s3 Hs3.
       wp_step. apply Hbefore. only_touched. }
  intros s2 bk Hbk Hs2.
  assert (backed_up s s2 c bc) as Hbc2 by (apply (backed_up_same s s1); [by look_back|done]).
  assert (backed_up s s2 k bk) as Hbk2
    by (apply (backed_up_before s1); [by look_back|done]).
  apply wp_bind, wp_attempt, wp_replace; [congruence| |].
  2: { intros s3 Hs3. apply wp_bind. eapply (wp_cleanup c _ s); [exact Hbc|]. intros s4 Hs4. apply wp_bind.
       eapply (wp_cleanup k _ s1); [exact Hbk|]. intros s5 Hs5. wp_step. apply Hbefore. only_touched. }
  intros s3 nc' Hnc' Hc3 Hsc3 Hs3.
  assert (nc' = nc) as -> by (revert Hnc'; look_back; congruence).
  apply wp_bind, wp_attempt, wp_replace; [congruence| |].
  - intros s4 nk' Hnk' Hk4 Hsk4 Hs4. assert (nk' = nk) as -> by (revert Hnk'; look_back; congruence).
    wp_step. apply Hok; cbn; [done|done|by look_back|done| | |only_touched].
    + apply (backed_up_same s s2); [by look_back|done].
    + apply (backed_up_same s s2); [by look_back|done].
  - intros s4 Hs4. apply wp_bind, wp_attempt.
    assert (backed_up s s4 c bc) as Hbc4 by (apply (backed_up_same s s2); [by look_back|done]).
    apply (wp_restore c bc s s4); [congruence|exact Hbc4| |].
    + intros s5 Hs5 Hr Hcase. apply wp_bind. eapply (wp_cleanup k _ s1); [exact Hbk|]. intros s6 Hs6. wp_step.
      assert (files s6 !! c = files s5 !! c) as Hc6 by (by look_back).
      apply Herr; [only_touched| |by look_back|].
      * unfold settled, restored in *. rewrite Hc6. destruct Hcase as [Hx|[Hx|Hx]]; [by left| |by right; right].
        right; left. rewrite Hx. by look_back.
      * intros HR _. unfold restored in *. rewrite Hc6. by apply Hr.
    + intros s5 e Hs5. apply wp_bind. eapply (wp_cleanup k _ s1); [exact Hbk|]. intros s6 Hs6. wp_step.
      apply Herr; [only_touched| |by look_back|by intros _ []].
      right; left. by look_back.
Qed.

(** A live file while its new version is being taken back. *)
Definition taken_back (s0 s s' : FileSystem) (p : Path) : Prop :=
  files s' !! p = None \/ files s' !! p = files s !! p \/ restored s0 s' p.
Lemma taken_back_settled s0 s s' p new :
  files s !! p = Some new -> taken_back s0 s s' p -> settled s0 s' p new.
Proof. intros Hn [H|[H|H]]; [by left|right; left; congruence|by right; right]. Qed.

Lemma wp_rollback_pair a s0 s (Q : result unit AcmeError -> FileSystem -> Prop) :
  let c := pair_certificate a in let k := pair_private_key a in
  live_apart c k ->
  backed_up s0 s c (certificate_backup a) ->
  backed_up s0 s k (private_key_backup a) ->
  (forall r s', same_but (touched c k) s s' -> taken_back s0 s s' c -> taken_back s0 s s' k ->
     (metadata_reads c -> metadata_reads k -> r = Ok tt -> restored s0 s' c /\ restored s0 s' k) -> Q r s') ->
  wp (rollback a) s Q.
Proof.
  intros c k Hapart Hbc Hbk HQ. unfold live_apart in Hapart. split_apart Hapart.
  unfold rollback. fold c k. apply wp_bind, wp_attempt, (wp_restore k _ s0); [congruence|exact Hbk| |].
  - intros s1 Hs1 Hr1 Hcase1.
    assert (backed_up s0 s1 c (certificate_backup a)) as Hbc1
      by (apply (backed_up_same s0 s); [by look_back|done]).
    apply wp_bind, wp_attempt, (wp_restore c _ s0); [congruence|exact Hbc1| |].
    + intros s2 Hs2 Hr2 Hcase2. assert (files s2 !! k = files s1 !! k) as Hk by (by look_back).
      wp_step. apply HQ; [only_touched| | |].
      * destruct Hcase2 as [Hx|[Hx|Hx]]; [by left| |by right; right]. right; left. rewrite Hx. by look_back.
      * unfold taken_back, restored in *. by rewrite Hk.
      * intros Hrc Hrk _. split; [by apply Hr2|]. unfold restored in *. rewrite Hk. by apply Hr1.
    + intros s2 e Hs2. wp_step. apply HQ; [only_touched|right; left; by look_back| |by intros _ _ [=]].
      unfold taken_back, restored in *. by rewrite Hs2.
  - intros s1 e Hs1. assert (backed_up s0 s1 c (certificate_backup a)) as Hbc1
      by (apply (backed_up_same s0 s); [by look_back|done]).
    apply wp_bind, wp_attempt, (wp_restore c _ s0); [congruence|exact Hbc1| |].
    + intros s2 Hs2 Hr2 Hcase2. wp_step. apply HQ; [only_touched| |right; left; by look_back|by intros _ _ [=]].
      destruct Hcase2 as [Hx|[Hx|Hx]]; [by left| |by right; right]. right; left. rewrite Hx. by look_back.
    + intros s2 e' Hs2. wp_step. apply HQ; [only_touched|right; left; by look_back..|by intros _ _ [=]].
Qed.

Lemma wp_commit_pair a s0 s1 s (Q : result unit AcmeError -> FileSystem -> Prop) :
  let c := pair_certificate a in let k := pair_private_key a in
  backed_up s0 s1 c (certificate_backup a) ->
  backed_up s0 s1 k (private_key_backup a) ->
  (forall s', same_but (fun p => p = backup c \/ p = backup k) s s' -> Q (Ok tt) s') -> wp (commit a) s Q.
Proof.
  intros c k Hbc Hbk HQ. unfold commit. apply wp_bind. eapply (wp_cleanup c _ s0); [exact Hbc|]. intros s2 Hs2.
  eapply (wp_cleanup k _ s0); [exact Hbk|]. intros s3 Hs3. apply HQ. intros p Hp. by look_back.
Qed.
End pairs.

(** *** The pair of the helper is read before anything changes *)
Section reading.
Context `{NodeLibraries}.

Lemma wp_read_certificates path s (Q : result (list Certificate) NodeConfig.Error -> FileSystem -> Prop) :
  (forall s' file chain, files s' = files s -> files s !! path = Some file ->
     pem_certificates (contents file) = Some chain -> chain <> [] -> Q (Ok chain) s') ->
  (forall s' e, files s' = files s -> Q (Err e) s') -> wp (read_certificates path) s Q.
Proof.
  intros Hok Herr. unfold read_certificates, fs.open. apply wp_bind, wp_map_err, wp_call; intros s1 Hs1 _; [|by apply Herr].
  apply wp_file_at; rewrite Hs1; [|intros; by apply Herr]. intros file Hf. wp_step.
  apply wp_bind, wp_map_err, wp_read; [|intros s2 e Hs2 _; apply Herr; congruence].
  intros s2 file' Hs2 _ Hf'. rewrite Hs1 in Hf'.
  destruct (pem_certificates (contents file')) as [chain|] eqn:Hc; cbn [ok_or]; wp_step; [|apply Herr; congruence].
  destruct chain as [|x chain]; cbn [is_empty reject_if]; wp_step; [apply Herr; congruence|].
  apply (Hok _ file'); [congruence|done..].
Qed.
Lemma wp_read_private_key path s (Q : result PrivateKey NodeConfig.Error -> FileSystem -> Prop) :
  (forall s' file key, files s' = files s -> files s !! path = Some file ->
     pem_private_key (contents file) = Some key -> Q (Ok key) s') ->
  (forall s' e, files s' = files s -> Q (Err e) s') -> wp (read_private_key path) s Q.
Proof.
  intros Hok Herr. unfold read_private_key, verify_private_file, fs.open.
  apply wp_bind, wp_bind, wp_map_err, wp_mode; [|intros s1 e Hs1 _; by apply Herr].
  intros s1 file1 Hs1 _ _. destruct (negb _); cbn [reject_if]; wp_step; [by apply Herr|].
  apply wp_bind, wp_map_err, wp_call; intros s2 Hs2 _; [|apply Herr; congruence].
  apply wp_file_at; rewrite Hs2, Hs1; [|intros; apply Herr; congruence]. intros file Hf. wp_step.
  apply wp_bind, wp_map_err, wp_read; [|intros s3 e Hs3 _; apply Herr; congruence].
  intros s3 file' Hs3 _ Hf'. rewrite Hs2, Hs1 in Hf'.
  destruct (pem_private_key (contents file')) as [key|] eqn:Hc; cbn [ok_or]; wp_step; [|apply Herr; congruence].
  apply (Hok _ file'); [congruence|done..].
Qed.
End reading.

(** *** The whole activation *)
Section activation_spec.
Context `{X : Stat} `{T : Toml, L : NodeLibraries}.
Variable reload_accepted : Path -> gmap Path File -> bool.

(** A certificate and its key, private to their owner, under the live paths. *)
Definition live_pair (m : gmap Path File) (c k : Path) (fc fk : File) : Prop :=
  m !! c = Some (private_of fc) /\ m !! k = Some (private_of fk) /\
  exists chain key, pem_certificates (contents fc) = Some chain /\ chain <> [] /\
    pem_private_key (contents fk) = Some key /\ certificate_and_key_match chain key = true.
(** The service was asked, with these files, and accepted them. *)
Definition accepted (config_path : Path) (m : gmap Path File) : Prop :=
  exists config, config_in (m !! config_path) = Some config /\ reload_accepted (socket (admin config)) m = true.

Lemma wp_request_reload config_path s (Q : result unit AcmeError -> FileSystem -> Prop) :
  (forall s', files s' = files s -> accepted config_path (files s) -> Q (Ok tt) s') ->
  (forall s' e, files s' = files s -> Q (Err e) s') -> wp (request_reload reload_accepted config_path) s Q.
Proof.
  intros Hok Herr. unfold request_reload, in_config.
  apply wp_bind, wp_map_err, wp_read_config; [|intros s1 e Hs1 _; by apply Herr].
  intros s1 config Hs1 _ Hc. wp_step. rewrite Hs1.
  destruct (reload_accepted (socket (admin config)) (files s)) eqn:Ha; cbn [negb reject_if]; wp_step.
  - apply Hok; [done|]. by exists config.
  - by apply Herr.
Qed.

Lemma wp_reload_or_restore config_path a s0 s fc fk (Q : result unit AcmeError -> FileSystem -> Prop) :
  let c := pair_certificate a in let k := pair_private_key a in
  live_apart c k -> live_pair (files s) c k fc fk ->
  backed_up s0 s c (certificate_backup a) ->
  backed_up s0 s k (private_key_backup a) ->
  (forall s' m, live_pair m c k fc fk -> accepted config_path m -> live_pair (files s') c k fc fk ->
     same_but (touched c k) s s' -> Q (Ok tt) s') ->
  (forall s' e, same_but (touched c k) s s' -> settled s0 s' c (private_of fc) -> settled s0 s' k (private_of fk) ->
     (metadata_reads c -> metadata_reads k -> ~ rollback_failed e -> restored s0 s' c /\ restored s0 s' k) ->
     Q (Err e) s') ->
  wp (let! reloaded := attempt (request_reload reload_accepted config_path) in
      match reloaded with
      | Ok _ => commit a
      | Err error =>
        let! rolled_back := attempt (rollback a) in
        throw (match rolled_back with
               | Err rollback_error => ReloadThenRollbackFailed error rollback_error
               | Ok _ => RestoredPrevious error
               end)
      end) s Q.
Proof.
  intros c k Hapart Hlive Hbc Hbk Hok Herr. pose proof Hapart as Hap. unfold live_apart in Hap. split_apart Hap.
  pose proof Hlive as (Hc & Hk & Hmatch).
  apply wp_bind, wp_attempt, wp_request_reload.
  - intros s1 Hs1 Hacc. eapply (wp_commit_pair a s0); [exact Hbc|exact Hbk|]. intros s2 Hs2.
    apply (Hok s2 (files s)); [done|done| |only_touched]. by split_and!; [look_back..|].
  - intros s1 e Hs1. apply wp_bind, wp_attempt, (wp_rollback_pair a s0); [done| | |].
    1, 2: eapply backed_up_same; [|eassumption]; by look_back.
    intros r s2 Hs2 Hct Hkt Hr. wp_step. apply Herr; [only_touched| | |].
    + apply (taken_back_settled _ s1); [by look_back|done].
    + apply (taken_back_settled _ s1); [by look_back|done].
    + intros Hrc Hrk Hnr. apply Hr; [done|done|]. destruct r as [[]|e']; [done|by destruct Hnr].
Qed.

(** What an activation ends in, from [s0] to [s]. *)
Definition activation_outcome (config_path crt keyf c k : Path) (reload_required : bool) (s0 : FileSystem)
  (r : result unit AcmeError) (s : FileSystem) : Prop :=
  same_but (touched c k) s0 s /\
  match r with
  | Ok _ => exists fc fk, files s0 !! crt = Some fc /\ files s0 !! keyf = Some fk /\ live_pair (files s) c k fc fk /\
      (reload_required = true -> exists m, live_pair m c k fc fk /\ accepted config_path m)
  | Err e =>
      (forall fc, files s0 !! crt = Some fc -> settled s0 s c (private_of fc)) /\
      (forall fk, files s0 !! keyf = Some fk -> settled s0 s k (private_of fk)) /\
      (metadata_reads c -> metadata_reads k -> ~ rollback_failed e -> restored s0 s c /\ restored s0 s k)
  end.

Lemma outcome_unchanged config_path crt keyf c k required s0 e s :
  live_apart c k -> same_but (scratch c k) s0 s -> activation_outcome config_path crt keyf c k required s0 (Err e) s.
Proof.
  intros Hapart Hs. unfold live_apart in Hapart. split_apart Hapart.
  assert (restored s0 s c /\ restored s0 s k) as [Hc Hk]
    by (split; apply restored_same, Hs; unfold scratch; intros Hx; destruct_or? Hx; congruence).
  split; [only_touched; apply Hs; unfold scratch; tauto|]. split_and!; [by right; right..|done].
Qed.

(** From the two staged files on. *)
Lemma wp_activate_staged config_path crt keyf c k fc fk reload_required s s4 :
  live_apart c k -> files s !! crt = Some fc -> files s !! keyf = Some fk ->
  same_but (scratch c k) s s4 ->
  files s4 !! stage c = Some (private_of fc) -> files s4 !! stage k = Some (private_of fk) ->
  (exists chain key, pem_certificates (contents fc) = Some chain /\ chain <> [] /\
    pem_private_key (contents fk) = Some key /\ certificate_and_key_match chain key = true) ->
  wp (let! activation := attempt (activate_pair (stage c) (stage k) c k) in
      match activation with
      | Err error => cleanup_path (stage c) ;! cleanup_path (stage k) ;! throw error
      | Ok activation =>
        if negb reload_required then commit activation
        else
          let! reloaded := attempt (request_reload reload_accepted config_path) in
          match reloaded with
          | Ok _ => commit activation
          | Err error =>
            let! rolled_back := attempt (rollback activation) in
            throw (match rolled_back with
                   | Err rollback_error => ReloadThenRollbackFailed error rollback_error
                   | Ok _ => RestoredPrevious error
                   end)
          end
      end) s4 (activation_outcome config_path crt keyf c k reload_required s).
Proof.
  intros Hapart Hfc Hfk Hs4 Hsc Hsk Hmatch. pose proof Hapart as Hap. unfold live_apart in Hap. split_apart Hap.
  unfold scratch in Hs4.
  apply wp_bind, wp_attempt, (wp_activate_pair c k (private_of fc) (private_of fk) s4); [done..| |].
  - intros s5 a Ha1 Ha2 Hc5 Hk5 Hbc Hbk Hs5.
    assert (live_pair (files s5) c k fc fk) as Hlive by done.
    assert (same_but (touched c k) s s5) as Hs05 by (intros p Hp; rewrite (Hs5 p Hp); unfold touched, scratch in Hp; by look_back).
    assert (backed_up s s5 c (certificate_backup a)) as Hbc'
      by (apply (backed_up_before s4); [by look_back|done]).
    assert (backed_up s s5 k (private_key_backup a)) as Hbk'
      by (apply (backed_up_before s4); [by look_back|done]).
    destruct reload_required; cbn [negb].
    + apply (wp_reload_or_restore config_path a s s5 fc fk); rewrite ?Ha1, ?Ha2; try done.
      * intros s6 m Hm1 Hm2 Hl Hs6. split; [by eapply same_but_trans|]. exists fc, fk. split_and!; [done..|]. intros _. by exists m.
      * intros s6 e Hs6 Hsc6 Hsk6 Hr. split; [by eapply same_but_trans|]. split_and!; [intros f Hf..|done].
        -- by assert (f = fc) as -> by congruence.
        -- by assert (f = fk) as -> by congruence.
    + eapply (wp_commit_pair a s); rewrite ?Ha1, ?Ha2; [exact Hbc'|exact Hbk'|]. intros s6 Hs6.
      split; [apply (same_but_trans _ _ _ _ Hs05); only_touched|]. exists fc, fk. split_and!; [done..| |done].
      by split_and!; [look_back..|].
  - intros s5 e Hs5 Hset Hk5 Hr. apply wp_bind, wp_cleanup_path. intros s6 Hs6. apply wp_bind, wp_cleanup_path.
    intros s7 Hs7. wp_step. assert (files s7 !! c = files s5 !! c) as Hc7 by (by look_back).
    assert (files s4 !! c = files s !! c) as Hc4 by (by look_back).
    assert (files s7 !! k = files s !! k) as Hk7 by (look_back; rewrite Hk5; by look_back).
    unfold settled, restored in Hset, Hr. rewrite Hc4 in Hset, Hr.
    split; [|split_and!; [intros f Hf; unfold settled, restored..|]].
    + intros p Hp. pose proof (Hs5 p Hp). unfold touched, scratch in Hp. look_back. congruence.
    + assert (f = fc) as -> by congruence. by rewrite Hc7.
    + right; right. by rewrite Hk7.
    + intros Hrc _ Hnr. split; [|by apply restored_same]. unfold restored. rewrite Hc7. by apply Hr.
Qed.

(** C28. Activating a certificate and its key, whatever system call fails: on
    success both live files are the new pair, private and checked to belong
    together, and a service that had to be asked accepted that pair; on
    failure each live file is whole, with its old contents, the new file, or
    gone, and, provided that [metadata] on the two live files does not fail
    while they are there (a failure is taken for absence, and the file is
    then not backed up), both have their old contents (the mode may be the
    private one of the backup) unless the error says that restoring failed.
    No file is touched but the two and their staging and backup files, which
    an error may leave behind. *)
Theorem acme_activation_transaction config_path config acme reload_required domain s :
  let c := certificate (listener config) in
  let k := private_key (listener config) in
  let crt := obtained acme domain (str ".crt") in
  let keyf := obtained acme domain (str ".key") in
  head (domains acme) = Some domain -> live_apart c k -> ~ touched c k crt -> ~ touched c k keyf ->
  wp (activate reload_accepted config_path config acme reload_required) s
    (activation_outcome config_path crt keyf c k reload_required s).
Proof.
  intros c k crt keyf Hd Hapart Hcrt Hkeyf. pose proof Hapart as Hap. unfold live_apart in Hap. split_apart Hap.
  unfold touched, scratch in Hcrt, Hkeyf.
  unfold activate. fold c k. rewrite bool_decide_false by done. cbn [reject_if]. wp_step.
  rewrite Hd. cbn [ok_or]. wp_step. fold crt keyf.
  assert (forall s' e, same_but (scratch c k) s s' ->
    activation_outcome config_path crt keyf c k reload_required s (Err e) s') as Herr
    by (intros; by apply outcome_unchanged).
  unfold in_config. apply wp_bind, wp_map_err, wp_read_certificates; [|intros s1 e Hs1; by apply Herr, same_but_files].
  intros s1 fc chain Hs1 Hfc Hchain Hne. apply wp_bind, wp_map_err, wp_read_private_key;
    [|intros s2 e Hs2; apply Herr, same_but_files; congruence].
  intros s2 fk key Hs2 Hfk Hkey. rewrite Hs1 in Hs2, Hfk.
  destruct (certificate_and_key_match chain key) eqn:Hm; cbn [negb reject_if]; wp_step;
    [|apply Herr, same_but_files; congruence].
  assert (forall s', same_but (scratch c k) s2 s' -> same_but (scratch c k) s s') as Hback
    by (intros s' Hs' p Hp; rewrite (Hs' p Hp); by rewrite Hs2).
  apply wp_bind, wp_stage; [by intros Heq; apply Hcrt; auto 10| |].
  2: { intros s3 e Hs3. apply Herr, Hback. eapply same_but_mono; [|exact Hs3]. unfold scratch. tauto. }
  intros s3 fc' Hfc' Hsc _ Hs3. assert (fc' = fc) as -> by (revert Hfc'; look_back; congruence).
  apply wp_bind, wp_attempt, wp_stage; [by intros Heq; apply Hkeyf; auto 10| |].
  2: { intros s4 e Hs4. apply wp_bind, wp_cleanup_path. intros s5 Hs5. wp_step. apply Herr, Hback.
       intros p Hp. unfold scratch in Hp. by look_back. }
  intros s4 fk' Hfk' Hsk _ Hs4. assert (fk' = fk) as -> by (revert Hfk'; look_back; congruence).
  apply (wp_activate_staged config_path crt keyf c k fc fk reload_required s s4); try done; [|by look_back|].
  - intros p Hp. unfold scratch in Hp. look_back. done.
  - by exists chain, key.
Qed.
End activation_spec.

(** ** Names of one stem

    The temporary files of [relay.crt] and [relay.key] have one name. *)
Lemma split_unique {A} (x : A) a b a' b' : a ++ x :: b = a' ++ x :: b' -> x ∉ b -> x ∉ b' -> a = a'.
Proof.
  revert a'. induction a as [|y a IH]; intros [|y' a'] Heq Hb Hb'; cbn in *.
  - done.
  - injection Heq as -> ->. destruct Hb. apply elem_of_app. right. by left.
  - injection Heq as <- <-. destruct Hb'. apply elem_of_app. right. by left.
  - injection Heq as <- Heq. f_equal. by apply IH.
Qed.
Lemma file_stem_of stem extension : stem <> [] -> 46 ∉ extension -> Path.file_stem (stem ++ [46] ++ extension) = stem.
Proof.
  intros Hne Hx. unfold Path.file_stem. pose proof (rsplit_once_spec 46 (stem ++ [46] ++ extension)) as Hs.
  destruct (rsplit_once 46 _) as [[a b]|].
  - destruct Hs as [Heq Hb]. apply split_unique in Heq as <-; [|done..]. by destruct stem.
  - destruct Hs. apply elem_of_app. right. by left.
Qed.
Lemma same_stem_same_temporary dir stem x y label :
  stem <> [] -> 46 ∉ x -> 46 ∉ y ->
  temporary_path (Path.join dir (stem ++ [46] ++ x)) label = temporary_path (Path.join dir (stem ++ [46] ++ y)) label.
Proof.
  intros Hs Hx Hy. unfold temporary_path, Path.with_extension, Path.join. cbn [components absolute].
  rewrite !rev_app_distr. cbn [rev app].
  pose proof (file_stem_of stem x Hs Hx) as Hsx. pose proof (file_stem_of stem y Hs Hy) as Hsy. cbn [app] in Hsx, Hsy.
  by rewrite Hsx, Hsy.
Qed.

Section same_stem.
Context `{X : Stat} `{T : Toml, L : NodeLibraries}.
Variable reload_accepted : Path -> gmap Path File -> bool.

(** A certificate [dir/stem.x] and a key [dir/stem.y] are never activated:
    the staged certificate is taken for a left-over staging file of the key.
    The live files stay as they are. *)
Lemma same_stem_never_activates config_path config acme reload_required domain dir stem x y s :
  let c := certificate (listener config) in
  let k := private_key (listener config) in
  c = Path.join dir (stem ++ [46] ++ x) -> k = Path.join dir (stem ++ [46] ++ y) -> stem <> [] -> 46 ∉ x -> 46 ∉ y ->
  head (domains acme) = Some domain -> obtained acme domain (str ".crt") <> stage c ->
  obtained acme domain (str ".key") <> stage c -> metadata_reads (stage c) ->
  wp (activate reload_accepted config_path config acme reload_required) s (fun r s' =>
    (exists e, r = Err e) /\ same_but (fun p => p = stage c) s s').
Proof.
  intros c k Hcp Hkp Hstem Hx Hy Hd Hcrt Hkeyf HR.
  assert (stage k = stage c) as Hsame by (rewrite Hcp, Hkp; by apply same_stem_same_temporary).
  unfold activate. fold c k. destruct (bool_decide (c = k)); cbn [reject_if]; wp_step; [by split; [eexists|]|].
  rewrite Hd. cbn [ok_or]. wp_step. unfold in_config.
  assert (forall s' (e : AcmeError), files s' = files s -> (exists e', Err (A := unit) e = Err e') /\ same_but (fun p => p = stage c) s s')
    as Herr by (intros s' e Hs; split; [by eexists|by apply same_but_files]).
  apply wp_bind, wp_map_err, wp_read_certificates; [|intros s1 e Hs1; by apply (Herr _ (ConfigError e))].
  intros s1 fc chain Hs1 _ _ _. apply wp_bind, wp_map_err, wp_read_private_key;
    [|intros s2 e Hs2; apply (Herr _ (ConfigError e)); congruence].
  intros s2 fk key Hs2 _ _. destruct (negb _); cbn [reject_if]; wp_step; [apply (Herr _ InvalidPair); congruence|].
  assert (forall s', same_but (fun p => p = stage c) s2 s' -> same_but (fun p => p = stage c) s s') as Hback
    by (intros s' Hs' p Hp; rewrite (Hs' p Hp); by rewrite Hs2, Hs1).
  apply wp_bind, wp_stage; [done| |intros s3 e Hs3; split; [by eexists|by apply Hback]].
  intros s3 f _ Hsc _ Hs3. rewrite <-Hsame in Hkeyf. apply wp_bind, wp_attempt, wp_stage; [done| |].
  - intros s4 f' _ _ Hnone _. rewrite Hsame in Hnone. rewrite (Hnone HR) in Hsc. discriminate Hsc.
  - intros s4 e Hs4. apply wp_bind, wp_cleanup_path. intros s5 Hs5. wp_step. split; [by eexists|].
    apply Hback. rewrite Hsame in Hs4. intros p Hp. by look_back.
Qed.
End same_stem.

(** *** The policy *)
Lemma acme_configure_spec `{T : Toml, !TomlLaws T} env path email domains provider staging s :
  (forall c, config_in (files s !! path) = Some c -> Forall comment_char (listener_bind (listener c))) ->
  wp (configure env path email domains provider staging) s (fun r s' =>
    same_but (fun p => p = path \/ p = temporary path) s s' /\
    match r with
    | Ok _ => trim email <> [] /\ domains <> [] /\ Forall (fun d => valid_domain d = true) domains /\ trim provider <> [] /\
        exists c, config_in (files s !! path) = Some c /\
          config_in (files s' !! path) = Some (set_acme c
            {| NodeConfig.email := email; NodeConfig.domains := domains; NodeConfig.dns_provider := provider;
               directory_url := if staging then LETS_ENCRYPT_STAGING else LETS_ENCRYPT_PRODUCTION;
               state_dir := default_state_dir env; renew_before_days := 30 |})
    | Err _ => files s' !! path = files s !! path
    end).
Proof.
  intros Hb. unfold configure, in_config.
  destruct (trim email) as [|x l] eqn:He; cbn [is_empty reject_if]; wp_step; [done|].
  destruct (is_empty domains || existsb (fun d => negb (valid_domain d)) domains) eqn:Hd; cbn [reject_if]; wp_step; [done|].
  apply orb_false_iff in Hd as [Hne Hd].
  destruct (trim provider) as [|y m] eqn:Hp; cbn [is_empty reject_if]; wp_step; [done|].
  apply wp_bind, wp_map_err, wp_read_config.
  2: { intros s1 e Hs1 _. split; [by apply same_but_files|by rewrite Hs1]. }
  intros s1 c Hs1 _ Hc. apply wp_map_err, wp_write_config.
  - intros s2 text _ Ht Hf Hs2. split; [intros p Hq; rewrite (Hs2 p Hq); by rewrite Hs1|].
    split_and!; [done|by intros ->| |done|].
    + apply Forall_forall. intros d Hin. destruct (valid_domain d) eqn:Hv; [done|].
      assert (existsb (fun d => negb (valid_domain d)) domains = true); [|congruence].
      apply existsb_exists. exists d. by rewrite <-list_elem_of_In, Hv.
    + exists c. split; [done|]. rewrite Hf. eapply text_reads_back; [|exact Ht]. by apply (Hb c).
  - intros s2 e _ Hf Hs2. split; [|by rewrite Hf, Hs1]. intros p Hq. rewrite (Hs2 p) by tauto. by rewrite Hs1.
Qed.
