(* ===== verification/NodeServe.v ===== *)
(** Starting a node and ending it again ([apps/velum-node/src/cli.rs],
    [serve]): loading the configuration, binding the listeners, the tasks that
    are spawned around the accept loop of [NodeService], and the order in which
    they are ended. *)
From S2P Require Import Prelude Net Str IpText Admission NodeFiles NodeConfig NodeSocket.

Section serve.
Context `{T : Toml, L : NodeLibraries, HC : ConstantTimeEqLaws}.
(** Why the accept loop ends with an error. *)
Context {E : Type}.

Inductive ServeError :=
| CannotLoad (e : NodeConfig.Error)
| CannotBindCover
| CannotBindListener (address : SocketAddr)
| NoListenerAddress
| NoCoverAddress
| CoverChanged
| CannotSpawnAdmin (e : SocketError)
| ListenerFailed (e : E).

(** What is done with what was loaded, in order. *)
Inductive Event :=
| CoverBound (address : SocketAddr)
| EndpointBound (address : SocketAddr)
| CoverSpawned (config : LoadedCoverService)
| AdminSpawned (path : Path) (bind : Str)
| SignalsWatched
| Served (address : SocketAddr)
| SignalsAborted
| AdminStopped
| CoverTold
| CoverAwaited.

Record Node := { disk : FileSystem; machine : Machine; log : list Event }.
Definition set_disk (d : FileSystem) (s : Node) : Node := {| disk := d; machine := machine s; log := log s |}.
Definition set_machine (m : Machine) (s : Node) : Node := {| disk := disk s; machine := m; log := log s |}.
Definition emit (e : Event) : M Node ServeError unit :=
  modify (fun s => {| disk := disk s; machine := machine s; log := log s ++ [e] |}).

(** What the network answers, and what the accept loop returns. *)
Record Answers := {
  binds_cover : bool;
  binds_endpoint : bool;
  local_addr : option SocketAddr;
  cover_local_addr : option SocketAddr;
  listens : result unit E
}.

(** The cover listener, bound before anything else. *)
Definition bind_cover (answers : Answers) (loaded : LoadedConfig) : M Node ServeError bool :=
  match loaded_cover_service loaded with
  | Some cover =>
    reject_if (negb (binds_cover answers)) CannotBindCover ;!
    emit (CoverBound (loaded_cover_bind cover)) ;! ret true
  | None => ret false
  end.
Definition spawn_cover (answers : Answers) (cover_listener : bool) (loaded : LoadedConfig) : M Node ServeError bool :=
  match cover_listener, loaded_cover_service loaded with
  | true, Some cover =>
    let! _ := ok_or (cover_local_addr answers) NoCoverAddress in
    emit (CoverSpawned cover) ;! ret true
  | false, None => ret false
  | _, _ => throw CoverChanged
  end.

(** From the administration socket to the end. *)
Definition serve_until_stopped (answers : Answers) (loaded : LoadedConfig) (address : SocketAddr) (cover_task : bool)
  : M Node ServeError unit :=
  let! admin := map_err CannotSpawnAdmin (zoom machine set_machine (spawn (admin_socket loaded))) in
  emit (AdminSpawned (server_path admin) (IpDisplay.display_socket address)) ;!
  emit SignalsWatched ;!
  emit (Served address) ;!
  emit SignalsAborted ;!
  map_err CannotSpawnAdmin (zoom machine set_machine (stop admin)) ;!
  emit AdminStopped ;!
  emit CoverTold ;!
  (if cover_task then emit CoverAwaited else ret tt) ;!
  lift_result ListenerFailed (listens answers).
Definition serve_loaded (answers : Answers) (loaded : LoadedConfig) : M Node ServeError unit :=
  let! cover_listener := bind_cover answers loaded in
  reject_if (negb (binds_endpoint answers)) (CannotBindListener (bind_address loaded)) ;!
  emit (EndpointBound (bind_address loaded)) ;!
  let! address := ok_or (local_addr answers) NoListenerAddress in
  let! cover_task := spawn_cover answers cover_listener loaded in
  serve_until_stopped answers loaded address cover_task.
Definition serve (answers : Answers) (path : Path) : M Node ServeError unit :=
  let! loaded := map_err CannotLoad (zoom disk set_disk (load path)) in
  serve_loaded answers loaded.

(** ** What is started is ended *)
Definition cover_events (loaded : LoadedConfig) : list Event :=
  match loaded_cover_service loaded with Some cover => [CoverBound (loaded_cover_bind cover)] | None => [] end.
Definition cover_task_events (loaded : LoadedConfig) : list Event :=
  match loaded_cover_service loaded with Some cover => [CoverSpawned cover] | None => [] end.
Definition ending (loaded : LoadedConfig) : list Event :=
  [SignalsAborted; AdminStopped; CoverTold] ++
  match loaded_cover_service loaded with Some _ => [CoverAwaited] | None => [] end.
(** Everything a node does that gets as far as its accept loop. *)
Definition whole_run (loaded : LoadedConfig) (address : SocketAddr) : list Event :=
  cover_events loaded ++ [EndpointBound (bind_address loaded)] ++ cover_task_events loaded ++
  [AdminSpawned (admin_socket loaded) (IpDisplay.display_socket address); SignalsWatched; Served address] ++ ending loaded.

Lemma wp_spawn path s :
  wp (spawn path) s (fun r s' => match r with Ok server => server_path server = path | Err _ => True end).
Proof.
  eapply wp_mono; [apply admin_socket_private|]. intros [server|e] s'; [|done].
  destruct (Path.parent path); [by intros ((? & _) & _)|by intros [? _]].
Qed.
Lemma wp_stop server s : wp (stop server) s (fun r s' => r = Ok tt /\
  (entries s' = entries s \/ entries s' = delete (server_path server) (entries s))).
Proof. unfold stop. apply wp_bind, wp_attempt, wp_remove_entry; intros; wp_step; auto. Qed.

(** What a node has done when it could not get as far as its accept loop. *)
Definition gave_up (loaded : LoadedConfig) (l : list Event) (r : result unit ServeError) : Prop :=
  l `prefix_of` cover_events loaded ++ [EndpointBound (bind_address loaded)] ++ cover_task_events loaded /\
  match r with
  | Err (CannotBindCover | CannotBindListener _ | NoListenerAddress | NoCoverAddress | CannotSpawnAdmin _) => True
  | _ => False
  end.
Definition ran (answers : Answers) (loaded : LoadedConfig) (l : list Event) (r : result unit ServeError) : Prop :=
  exists address, local_addr answers = Some address /\ l = whole_run loaded address /\
    r = match listens answers with Ok _ => Ok tt | Err e => Err (ListenerFailed e) end.

(** From here on nothing stops the node but its accept loop. *)
Lemma wp_until_stopped answers loaded address (cover_task : bool) s :
  cover_task = bool_decide (is_Some (loaded_cover_service loaded)) ->
  wp (serve_until_stopped answers loaded address cover_task) s
    (fun r s' => disk s' = disk s /\
      ((exists e, r = Err (CannotSpawnAdmin e)) /\ log s' = log s \/
       r = match listens answers with Ok _ => Ok tt | Err e => Err (ListenerFailed e) end /\
       log s' = log s ++ [AdminSpawned (admin_socket loaded) (IpDisplay.display_socket address); SignalsWatched; Served address]
                      ++ ending loaded)).
Proof.
  intros Hc. apply wp_bind, wp_map_err, wp_zoom. eapply wp_mono; [apply wp_spawn|].
  intros [server|e] m; [|intros _; cbn; split; [done|]; left; eauto]. intros Hserver.
  unfold emit. do 4 (apply wp_bind_modify). apply wp_bind, wp_map_err, wp_zoom.
  eapply wp_mono; [apply wp_stop|]. intros r m' [-> _]. do 2 (apply wp_bind_modify).
  unfold ending. destruct (loaded_cover_service loaded) as [cover|].
  - rewrite bool_decide_eq_true_2 in Hc by (by eexists). subst cover_task. apply wp_bind_modify.
    destruct (listens answers) as [[]|e]; cbn; (split; [done|right]); (split; [done|]); by rewrite Hserver, <-!app_assoc.
  - rewrite bool_decide_eq_false_2 in Hc by (by intros [? ?]). subst cover_task. apply wp_bind_ret.
    destruct (listens answers) as [[]|e]; cbn; (split; [done|right]); (split; [done|]); by rewrite Hserver, <-!app_assoc.
Qed.

Lemma wp_serve_loaded answers loaded s :
  log s = [] ->
  wp (serve_loaded answers loaded) s
    (fun r s' => disk s' = disk s /\ (gave_up loaded (log s') r \/ ran answers loaded (log s') r)).
Proof.
  intros Hlog. apply wp_bind.
  eapply (wp_mono _ _ (fun r s' => disk s' = disk s /\
    match r with
    | Ok bound => bound = bool_decide (is_Some (loaded_cover_service loaded)) /\ log s' = cover_events loaded
    | Err e => e = CannotBindCover /\ log s' = []
    end)).
  { unfold bind_cover, cover_events. destruct (loaded_cover_service loaded) as [cover|]; [|by wp_step].
    unfold reject_if. destruct (binds_cover answers); cbn [negb]; wp_step; [|done]. unfold emit. do 2 wp_step. cbn. by rewrite Hlog. }
  intros [bound|e] s1; [|intros (Hd & -> & Hl); split; [done|left; split; [rewrite Hl; apply prefix_nil|done]]].
  intros (Hd1 & Hb & Hl1). unfold reject_if. destruct (binds_endpoint answers); cbn [negb]; wp_step.
  2:{ split; [done|left]. split; [rewrite Hl1; by apply prefix_app_r|done]. }
  unfold emit. wp_step.
  destruct (local_addr answers) as [address|] eqn:Ha; cbn [ok_or]; wp_step.
  2:{ split; [done|left]. split; [cbn; rewrite Hl1; apply prefix_app; by eexists|done]. }
  apply wp_bind.
  eapply (wp_mono _ _ (fun r s' => disk s' = disk s /\
    match r with
    | Ok task => task = bool_decide (is_Some (loaded_cover_service loaded)) /\
        log s' = cover_events loaded ++ [EndpointBound (bind_address loaded)] ++ cover_task_events loaded
    | Err e => e = NoCoverAddress /\ log s' = cover_events loaded ++ [EndpointBound (bind_address loaded)]
    end)).
  { unfold spawn_cover, cover_task_events. destruct (loaded_cover_service loaded) as [cover|].
    - rewrite bool_decide_eq_true_2 in Hb by (by eexists). subst bound.
      destruct (cover_local_addr answers); cbn [ok_or]; wp_step; [|cbn; by rewrite Hl1].
      unfold emit. do 2 wp_step. cbn. by rewrite Hl1, <-app_assoc.
    - rewrite bool_decide_eq_false_2 in Hb by (by intros [? ?]). subst bound. wp_step. cbn. by rewrite Hl1. }
  intros [task|e] s2; [|intros (Hd & -> & Hl); split; [done|left; split; [rewrite Hl; apply prefix_app; by eexists|done]]].
  intros (Hd2 & Ht & Hl2). eapply wp_mono; [by apply wp_until_stopped|].
  intros r s3 (Hd3 & [((e & ->) & Hl3)|(-> & Hl3)]); (split; [congruence|]).
  - left. split; [|done]. by rewrite Hl3, Hl2.
  - right. exists address. split; [done|]. split; [|done]. rewrite Hl3, Hl2. unfold whole_run. by rewrite <-!app_assoc.
Qed.

(** A node serves only what its configuration says, and ends what it started.  Nothing
    is bound before the configuration was loaded whole; the cover service is bound before
    the endpoint, and operators are let in only once both are there.  A node that gets as
    far as its accept loop always ends in the same order: it stops watching for signals,
    takes the socket away, tells the cover service to stop and waits for it, and returns
    what the loop returned.  Any other run ends before operators or signals could reach
    it, and never because the cover listener changed.  Serving leaves the files alone. *)
Theorem serve_ends_what_it_started answers path s (Hlog : log s = []) :
  wp_or_panic (serve answers path) s (fun r s' =>
    files (disk s') = files (disk s) /\
    ((exists e, r = Err (CannotLoad e)) /\ log s' = [] \/
     exists conf loaded, config_in (files (disk s) !! path) = Some conf /\ loaded_from (files (disk s)) conf loaded /\
       (gave_up loaded (log s') r \/ ran answers loaded (log s') r)))
    (secrets_panic (files (disk s)) path).
Proof.
  unfold serve. apply wpp_bind. unfold wp_or_panic, map_err, zoom.
  pose proof (only_reads_load path (disk s)) as Hr. unfold reads, wp_or_panic in Hr.
  destruct (load path (disk s)) as [[[loaded|e] d]| |]; [| |done..].
  - destruct Hr as (Hf & conf & Hc & Hl).
    pose proof (wp_serve_loaded answers loaded (set_disk d s) Hlog) as Hw. unfold wp in Hw.
    destruct (serve_loaded answers loaded (set_disk d s)) as [[r s']| |]; [|done..].
    destruct Hw as [Hd Hrun]. split; [by rewrite Hd|]. right. by exists conf, loaded.
  - destruct Hr as [Hf _]. split; [done|]. left. split; [by exists e|done].
Qed.
End serve.
