(* ===== verification/NodeService.v ===== *)
(** The running service of the node: the administration socket
    ([apps/velum-node/src/admin.rs]), the loop that accepts and serves
    connections ([listener.rs]), reloading ([cli.rs]) and the loop of the cover
    listener ([cover_listener.rs]), as tasks whose steps interleave.

    What a connection's streams and datagrams do is in [Relay] and
    [DatagramRelay]; here they are counted.  A task of a [JoinSet] is known by
    its place in a list, which it keeps when it was joined. *)
From S2P Require Import Prelude Net Str Utf8 IpText SocketText Admission Relay NodeFiles NodeConfig.
Import Utf8.

Definition MAX_REQUEST_BYTES : N := 32.
Definition RUNNING : N := 0.
Definition DRAINING : N := 1.
Definition STOPPING : N := 2.
(** [mpsc::channel(4)] in [cli::serve] *)
Definition CONTROL_CAPACITY : nat := 4.

(** ** The status that operators read

    Its fields are atomics; [fetch_add] and [fetch_sub] wrap. *)
Record RuntimeStatus := { phase : N; connections_ : N; flows_ : N }.
Definition status_default : RuntimeStatus := {| phase := 0; connections_ := 0; flows_ := 0 |}.
Definition fetch_add (n : N) : N := (n + 1) mod 2 ^ 64.
Definition fetch_sub (n : N) : N := (n + (2 ^ 64 - 1)) mod 2 ^ 64.

Module RuntimeStatus.
Definition connection_opened (self : RuntimeStatus) : RuntimeStatus :=
  {| phase := phase self; connections_ := fetch_add (connections_ self); flows_ := flows_ self |}.
Definition connection_closed (self : RuntimeStatus) : RuntimeStatus :=
  {| phase := phase self; connections_ := fetch_sub (connections_ self); flows_ := flows_ self |}.
Definition flow_opened (self : RuntimeStatus) : RuntimeStatus :=
  {| phase := phase self; connections_ := connections_ self; flows_ := fetch_add (flows_ self) |}.
Definition flow_closed (self : RuntimeStatus) : RuntimeStatus :=
  {| phase := phase self; connections_ := connections_ self; flows_ := fetch_sub (flows_ self) |}.
Definition set_phase (p : N) (self : RuntimeStatus) : RuntimeStatus :=
  {| phase := p; connections_ := connections_ self; flows_ := flows_ self |}.
(** The text of [render], of the values that its three loads gave, which are
    steps of their own ([admin_step]); [uptime]: the seconds since the service
    was started. *)
Definition render (self : RuntimeStatus) (bind : Str) (uptime : N) (json : bool) : Str :=
  let state := if phase self =? RUNNING then str "running"
               else if phase self =? DRAINING then str "draining"
               else if phase self =? STOPPING then str "stopping" else str "running" in
  if json then
    str "{" ++ quoted (str "state") ++ str ":" ++ quoted state ++ str ","
    ++ quoted (str "listener") ++ str ":" ++ quoted bind ++ str ","
    ++ quoted (str "uptime_secs") ++ str ":" ++ display_uint uptime ++ str ","
    ++ quoted (str "connections") ++ str ":" ++ display_uint (connections_ self) ++ str ","
    ++ quoted (str "flows") ++ str ":" ++ display_uint (flows_ self) ++ line (str "}")
  else
    line state ++ line (str "listener=" ++ bind) ++ line (str "uptime_secs=" ++ display_uint uptime)
    ++ line (str "connections=" ++ display_uint (connections_ self)) ++ line (str "flows=" ++ display_uint (flows_ self)).
End RuntimeStatus.

(** ** Requests of operators *)
Inductive AdminError := ReadFailed | EndedBeforeNewline | TooLong | NotUtf8 | TimedOut.
(** What each read of one byte answers until the request has to be there. *)
Inductive ReadAnswer := Byte (b : byte) | Eof | ReadFailure.
Fixpoint read_request_loop (answers : list ReadAnswer) (request : list byte) : result Str AdminError :=
  match answers with
  | [] => Err TimedOut
  | ReadFailure :: _ => Err ReadFailed
  | Eof :: _ => Err EndedBeforeNewline
  | Byte b :: answers =>
    if bool_decide (b = x0a) then match decode request with Some text => Ok text | None => Err NotUtf8 end
    else if len request =? MAX_REQUEST_BYTES then Err TooLong
    else read_request_loop answers (request ++ [b])
  end.
Definition read_request (answers : list ReadAnswer) : result Str AdminError := read_request_loop answers [].

(** The answer of the service, as the command that asked takes it. *)
Definition request_answer (response : Str) : result Str Str :=
  match strip_prefix (str "error=") response with
  | Some error => Err (trim error)
  | None => Ok response
  end.

(** ** Tasks *)
Inductive Control := Drain | Reload (completion : nat) | Shutdown.
Inductive AdminTask :=
| Requested (request : result Str AdminError)
(** [render] after its first load, of the phase, and after its second. *)
| LoadingConnections (json : bool) (phase_ : N)
| LoadingFlows (json : bool) (phase_ uptime connections_ : N)
| Sending (c : Control)
| SettingPhase (p : N) (response : Str)
| AwaitingReload
| Responded (response : Str).

Inductive FlowTask := FlowSpawned | FlowOpened | FlowClosing | FlowEnded.
(** A connection's task; [stream_slots] are the free permits of its streams.
    An aborted task leaves what it had added to the status. *)
Inductive ConnectionTask :=
| Handshaking
| Serving (stream_slots : N) (flows : list FlowTask)
| ShuttingDown (stream_slots : N) (flows : list FlowTask)
| Closing
| Ended
| Joined
| Aborted (connections flows : N).

(** A panic of the listener's task unwinds [main] and ends the process: no step
    after it is one of the program. *)
Inductive ListenerTask :=
| Accepting (draining : bool)
| Stopping (aborting : bool)
| Returned (r : result unit unit)
| Panicked.

Section service.
Context `{NodeLibraries}.

(** [server_configs]: what the endpoint was given, and for which reload; the
    first is in use. *)
Record World := {
  listener_task : ListenerTask;
  controls : list Control;
  completions : gmap nat bool;
  status : RuntimeStatus;
  server_configs : list (option nat * ServerConfig);
  slots : N;
  connections : list ConnectionTask;
  admins : gmap nat AdminTask;
  events : list QuicRelayEvent
}.
Definition set_listener (l : ListenerTask) (w : World) : World :=
  {| listener_task := l; controls := controls w; completions := completions w; status := status w;
     server_configs := server_configs w; slots := slots w; connections := connections w; admins := admins w;
     events := events w |}.
Definition set_controls (l : list Control) (w : World) : World :=
  {| listener_task := listener_task w; controls := l; completions := completions w; status := status w;
     server_configs := server_configs w; slots := slots w; connections := connections w; admins := admins w;
     events := events w |}.
Definition set_completions (m : gmap nat bool) (w : World) : World :=
  {| listener_task := listener_task w; controls := controls w; completions := m; status := status w;
     server_configs := server_configs w; slots := slots w; connections := connections w; admins := admins w;
     events := events w |}.
Definition on_status (f : RuntimeStatus -> RuntimeStatus) (w : World) : World :=
  {| listener_task := listener_task w; controls := controls w; completions := completions w; status := f (status w);
     server_configs := server_configs w; slots := slots w; connections := connections w; admins := admins w;
     events := events w |}.
Definition set_server_config (t : nat) (c : ServerConfig) (w : World) : World :=
  {| listener_task := listener_task w; controls := controls w; completions := completions w; status := status w;
     server_configs := (Some t, c) :: server_configs w; slots := slots w; connections := connections w; admins := admins w;
     events := events w |}.
Definition set_slots (n : N) (w : World) : World :=
  {| listener_task := listener_task w; controls := controls w; completions := completions w; status := status w;
     server_configs := server_configs w; slots := n; connections := connections w; admins := admins w;
     events := events w |}.
Definition set_connections (l : list ConnectionTask) (w : World) : World :=
  {| listener_task := listener_task w; controls := controls w; completions := completions w; status := status w;
     server_configs := server_configs w; slots := slots w; connections := l; admins := admins w;
     events := events w |}.
Definition put_connection (i : nat) (c : ConnectionTask) (w : World) : World := set_connections (<[i := c]> (connections w)) w.
Definition put_admin (t : nat) (a : AdminTask) (w : World) : World :=
  {| listener_task := listener_task w; controls := controls w; completions := completions w; status := status w;
     server_configs := server_configs w; slots := slots w; connections := connections w; admins := <[t := a]> (admins w);
     events := events w |}.
Definition record (e : QuicRelayEvent) (w : World) : World :=
  {| listener_task := listener_task w; controls := controls w; completions := completions w; status := status w;
     server_configs := server_configs w; slots := slots w; connections := connections w; admins := admins w;
     events := events w ++ [e] |}.

Variable config : QuicRelayConfig.

(** The start of [serve_quic_listener]. *)
Definition initial (server_config : ServerConfig) : World :=
  {| listener_task := if is_ok (validate config) then Accepting false else Returned (Err tt);
     controls := []; completions := ∅; status := status_default; server_configs := [(None, server_config)];
     slots := max_connections config; connections := []; admins := ∅; events := [] |}.

(** ** Reloading ([cli::serve]) *)
Inductive ReloadError := LoadFailed (e : NodeConfig.Error) | BindChanged.
Definition reload_server_config `{Toml, ConstantTimeEq} (path : Path) (address : SocketAddr)
  : M FileSystem ReloadError ServerConfig :=
  let! reloaded := map_err LoadFailed (load path) in
  reject_if (negb (bool_decide (bind_address reloaded = address))) BindChanged ;!
  ret (server_config reloaded).

(** ** The listener *)

(** [JoinSet::is_empty] *)
Definition joined (c : ConnectionTask) : bool := match c with Joined | Aborted _ _ => true | _ => false end.
Definition all_joined (w : World) : bool := forallb joined (connections w).

(** What [select] of the loop picked; a control that is taken is the first of
    the channel. *)
Inductive Turn :=
| TakeControl (reloaded : outcome (result ServerConfig ReloadError))
| ControlsClosed
| Incoming
| EndpointClosed
| JoinNext (i : nat).

Definition break_loop (w : World) : World := record ShutdownStarted (set_listener (Stopping false) w).

Definition take_control (reloaded : outcome (result ServerConfig ReloadError)) (c : Control) (w : World) : World :=
  match c with
  | Reload completion =>
    match reloaded with
    | Ret (Ok server_config) =>
      set_completions (<[completion := true]> (completions w)) (set_server_config completion server_config w)
    | Ret (Err _) => set_completions (<[completion := false]> (completions w)) w
    | Panic | OutOfFuel => set_listener Panicked w
    end
  | Drain => set_listener (Accepting true) w
  | Shutdown => break_loop w
  end.

Definition join (i : nat) (w : World) : option World :=
  match connections w !! i with Some Ended => Some (put_connection i Joined w) | _ => None end.

Definition accept_incoming (w : World) : World :=
  if slots w =? 0 then record ConnectionRejected w
  else set_connections (connections w ++ [Handshaking]) (set_slots (slots w - 1) w).

Definition listener_turn (turn : Turn) (w : World) : option World :=
  match listener_task w with
  | Accepting draining =>
    if draining && all_joined w then Some (break_loop w)
    else
      match turn with
      | TakeControl reloaded =>
        match controls w with
        | [] => None
        | c :: rest => Some (take_control reloaded c (set_controls rest w))
        end
      | ControlsClosed => match controls w with [] => Some (break_loop w) | _ => None end
      | Incoming => if draining then None else Some (accept_incoming w)
      | EndpointClosed => if draining then None else Some (break_loop w)
      | JoinNext i => join i w
      end
  | _ => None
  end.

(** After the loop: waiting, aborting when the time is over, returning.  With
    the function end its receiver and the controls still in it. *)
Inductive Stop := StopJoin (i : nat) | StopTimeout | StopAbort (i : nat) | StopReturn.
Definition count_flows (l : list FlowTask) : N :=
  foldr (fun f n => match f with FlowOpened => 1 + n | _ => n end) 0 l.
Definition abort (c : ConnectionTask) : option ConnectionTask :=
  match c with
  | Handshaking | Closing => Some (Aborted 0 0)
  | Serving _ flows | ShuttingDown _ flows => Some (Aborted 1 (count_flows flows))
  | Ended | Joined | Aborted _ _ => None
  end.
Definition drop_control (c : Control) (m : gmap nat bool) : gmap nat bool :=
  match c with Reload completion => <[completion := false]> m | _ => m end.
Definition stop_turn (turn : Stop) (w : World) : option World :=
  match listener_task w, turn with
  | Stopping _, StopJoin i => join i w
  | Stopping false, StopTimeout => if all_joined w then None else Some (set_listener (Stopping true) w)
  | Stopping true, StopAbort i =>
    match connections w !! i with
    | Some c =>
      match abort c with
      | Some c' => Some (put_connection i c' (set_slots (slots w + 1) w))
      | None => None
      end
    | None => None
    end
  | Stopping _, StopReturn =>
    if all_joined w
    then Some (set_listener (Returned (Ok tt)) (set_controls [] (set_completions (foldr drop_control (completions w) (controls w)) w)))
    else None
  | _, _ => None
  end.

(** ** A connection

    [incoming.await], then [serve_connection] between the two updates of the
    status, then the end of the task, which gives its permit back. *)
Inductive ConnectionEvent :=
| HandshakeDone
| HandshakeFailed
| StreamAccepted
| ConnectionLost
| FlowStarts (f : nat)
| FlowReturns (f : nat)
| FlowEnds (f : nat)
| FlowsDone
| TaskEnds.

Definition flow_step (v : ConnectionEvent) (stream_slots : N) (flows : list FlowTask)
  : option (N * list FlowTask * (RuntimeStatus -> RuntimeStatus)) :=
  match v with
  | FlowStarts f =>
    match flows !! f with
    | Some FlowSpawned => Some (stream_slots, <[f := FlowOpened]> flows, RuntimeStatus.flow_opened)
    | _ => None
    end
  | FlowReturns f =>
    match flows !! f with
    | Some FlowOpened => Some (stream_slots, <[f := FlowClosing]> flows, RuntimeStatus.flow_closed)
    | _ => None
    end
  | FlowEnds f =>
    match flows !! f with
    | Some FlowClosing => Some (stream_slots + 1, <[f := FlowEnded]> flows, Datatypes.id)
    | _ => None
    end
  | _ => None
  end.
Definition flow_ended (f : FlowTask) : bool := match f with FlowEnded => true | _ => false end.

Definition connection_step (i : nat) (v : ConnectionEvent) (c : ConnectionTask) (w : World) : option World :=
  match c, v with
  | Handshaking, HandshakeFailed => Some (put_connection i Closing w)
  | Handshaking, HandshakeDone =>
    Some (put_connection i (Serving (max_streams_per_connection config) [])
      (on_status RuntimeStatus.connection_opened (record ConnectionAccepted w)))
  | Serving stream_slots flows, StreamAccepted =>
    Some (if stream_slots =? 0 then record StreamRejected w
          else put_connection i (Serving (stream_slots - 1) (flows ++ [FlowSpawned])) w)
  | Serving stream_slots flows, ConnectionLost => Some (put_connection i (ShuttingDown stream_slots flows) w)
  | ShuttingDown stream_slots flows, FlowsDone =>
    if forallb flow_ended flows then Some (put_connection i Closing (on_status RuntimeStatus.connection_closed w)) else None
  | Closing, TaskEnds => Some (put_connection i Ended (set_slots (slots w + 1) w))
  | Serving stream_slots flows, _ =>
    match flow_step v stream_slots flows with
    | Some (stream_slots, flows, change) => Some (put_connection i (Serving stream_slots flows) (on_status change w))
    | None => None
    end
  | ShuttingDown stream_slots flows, _ =>
    match flow_step v stream_slots flows with
    | Some (stream_slots, flows, change) => Some (put_connection i (ShuttingDown stream_slots flows) (on_status change w))
    | None => None
    end
  | _, _ => None
  end.
Definition connection_turn (i : nat) (v : ConnectionEvent) (w : World) : option World :=
  match connections w !! i with Some c => connection_step i v c w | None => None end.

(** ** A request of an operator: [handle] and [reload] *)
Inductive AdminEvent := Go (uptime : N) | ReloadTimeout.

(** Up to its first [await], or to the first load of [render]. *)
Definition handle (t : nat) (request : result Str AdminError) (w : World) : World :=
  let command := match request with Ok text => text | Err _ => [] end in
  put_admin t
    (if bool_decide (command = str "status") then LoadingConnections false (phase (status w))
     else if bool_decide (command = str "status json") then LoadingConnections true (phase (status w))
     else if bool_decide (command = str "drain") then Sending Drain
     else if bool_decide (command = str "reload") then Sending (Reload t)
     else if bool_decide (command = str "shutdown") then Sending Shutdown
     else if is_ok request then Responded (line (str "error=unknown command"))
     else Responded (line (str "error=invalid request"))) w.

(** The receiver lives as long as [serve_quic_listener]. *)
Definition receiver_alive (w : World) : bool :=
  match listener_task w with Accepting _ | Stopping _ => true | Returned _ | Panicked => false end.
Definition sent (t : nat) (c : Control) : AdminTask :=
  match c with
  | Drain => SettingPhase DRAINING (line (str "draining"))
  | Shutdown => SettingPhase STOPPING (line (str "stopping"))
  | Reload _ => AwaitingReload
  end.
Definition not_sent (c : Control) : AdminTask :=
  Responded match c with
            | Drain | Shutdown => line (str "stopping")
            | Reload _ => line (str "error=reload unavailable")
            end.
Definition send_control (c : Control) (w : World) : option World :=
  if (length (controls w) <? CONTROL_CAPACITY)%nat then Some (set_controls (controls w ++ [c]) w) else None.

Definition admin_step (t : nat) (bind : Str) (v : AdminEvent) (a : AdminTask) (w : World) : option World :=
  match a, v with
  | Requested request, Go _ => Some (handle t request w)
  | LoadingConnections json p, Go uptime => Some (put_admin t (LoadingFlows json p uptime (connections_ (status w))) w)
  | LoadingFlows json p uptime n, Go _ =>
    Some (put_admin t (Responded (RuntimeStatus.render
      {| phase := p; connections_ := n; flows_ := flows_ (status w) |} bind uptime json)) w)
  | Sending c, Go _ =>
    if receiver_alive w then put_admin t (sent t c) <$> send_control c w
    else Some (put_admin t (not_sent c) w)
  | SettingPhase p response, Go _ => Some (put_admin t (Responded response) (on_status (RuntimeStatus.set_phase p) w))
  | AwaitingReload, Go _ =>
    match completions w !! t with
    | Some true => Some (put_admin t (Responded (line (str "reloaded"))) w)
    | Some false => Some (put_admin t (Responded (line (str "error=reload failed"))) w)
    | None => None
    end
  | AwaitingReload, ReloadTimeout => Some (put_admin t (Responded (line (str "error=reload failed"))) w)
  | _, _ => None
  end.
Definition admin_turn (t : nat) (bind : Str) (v : AdminEvent) (w : World) : option World :=
  match admins w !! t with Some a => admin_step t bind v a w | None => None end.

(** ** All of it *)
Context `{Toml, ConstantTimeEq}.
(** The configuration file, the address the listener is bound to. *)
Variables (path : Path) (address : SocketAddr).

(** The answer of a reload comes from the files at that time. *)
Definition reload_answer (s : FileSystem) : outcome (result ServerConfig ReloadError) :=
  eval (reload_server_config path address) s.

Inductive step (w : World) : World -> Prop :=
| step_listener turn w' :
    (forall reloaded, turn = TakeControl reloaded -> exists s, reloaded = reload_answer s) ->
    listener_turn turn w = Some w' -> step w w'
| step_stop turn w' : stop_turn turn w = Some w' -> step w w'
| step_connection i v w' : connection_turn i v w = Some w' -> step w w'
| step_admin t v w' : admin_turn t (IpDisplay.display_socket address) v w = Some w' -> step w w'
| step_request t answers :
    admins w !! t = None -> step w (put_admin t (Requested (read_request answers)) w)
| step_signal w' : receiver_alive w = true -> send_control Shutdown w = Some w' -> step w w'.
End service.

(** ** The cover listener *)
Module Cover.
Inductive Connection := Running | Done | Gone.
Record Listener := { running : bool; cover_slots : N; cover_connections : list Connection }.
Definition initial (max_connections : N) : Listener :=
  {| running := true; cover_slots := max_connections; cover_connections := [] |}.
Definition put (i : nat) (c : Connection) (n : N) (w : Listener) : Listener :=
  {| running := running w; cover_slots := n; cover_connections := <[i := c]> (cover_connections w) |}.

Inductive Event :=
| ShutdownChanged (failed requested : bool)
| AcceptFailed
| Accepted
| Served (i : nat)
| JoinNext (i : nat)
| AbortOne (i : nat).

Definition turn (v : Event) (w : Listener) : option Listener :=
  match v with
  | ShutdownChanged failed requested =>
    if running w then
      Some (if failed || requested then {| running := false; cover_slots := cover_slots w; cover_connections := cover_connections w |}
            else w)
    else None
  | AcceptFailed => if running w then Some w else None
  | Accepted =>
    if running w then
      Some (if cover_slots w =? 0 then w
            else {| running := true; cover_slots := cover_slots w - 1; cover_connections := cover_connections w ++ [Running] |})
    else None
  | Served i =>
    match cover_connections w !! i with
    | Some Running => Some (put i Done (cover_slots w + 1) w)
    | _ => None
    end
  | JoinNext i =>
    match cover_connections w !! i with Some Done => Some (put i Gone (cover_slots w) w) | _ => None end
  | AbortOne i =>
    if running w then None
    else match cover_connections w !! i with
         | Some Running => Some (put i Gone (cover_slots w + 1) w)
         | _ => None
         end
  end.
End Cover.

(** ** Counting tasks *)
Definition sum {A} (f : A -> N) (l : list A) : N := foldr (fun a n => f a + n) 0 l.
Lemma sum_app {A} (f : A -> N) l k : sum f (l ++ k) = sum f l + sum f k.
Proof. induction l as [|a l IH]; cbn; [done|]. fold (sum f l) (sum f (l ++ k)). rewrite IH. lia. Qed.
Lemma sum_insert {A} (f : A -> N) l i a a' : l !! i = Some a -> sum f (<[i := a']> l) + f a = sum f l + f a'.
Proof.
  revert i. induction l as [|b l IH]; intros [|i] Hi; cbn in Hi; try done.
  - injection Hi as ->. cbn. fold (sum f l). lia.
  - change (f b + sum f (<[i := a']> l) + f a = f b + sum f l + f a'). specialize (IH i Hi). lia.
Qed.
Lemma sum_ge {A} (f : A -> N) l i a : l !! i = Some a -> f a <= sum f l.
Proof.
  revert i. induction l as [|b l IH]; intros [|i] Hi; cbn in Hi; try done; cbn; fold (sum f l).
  - injection Hi as ->. lia.
  - specialize (IH i Hi). lia.
Qed.
Lemma sum_0 {A} (f : A -> N) l : Forall (fun a => f a = 0) l -> sum f l = 0.
Proof. induction 1 as [|a l Ha _ IH]; cbn; [done|]. fold (sum f l). lia. Qed.
Lemma sum_ext {A} (f g : A -> N) l : (forall i a, l !! i = Some a -> f a = g a) -> sum f l = sum g l.
Proof.
  induction l as [|a l IH]; intros Hfg; [done|]. cbn. f_equal; [by apply (Hfg 0%nat)|apply IH; intros i; apply (Hfg (S i))].
Qed.
Lemma sum_le {A} (f g : A -> N) k l : (forall i a, l !! i = Some a -> f a <= k * g a) -> sum f l <= k * sum g l.
Proof.
  induction l as [|a l IH]; intros Hfg; cbn; [lia|]. fold (sum f l) (sum g l).
  pose proof (Hfg 0%nat a eq_refl). assert (sum f l <= k * sum g l) by (apply IH; intros i; apply (Hfg (S i))). lia.
Qed.

Lemma fetch_add_mod n : fetch_add (n mod 2 ^ 64) = (n + 1) mod 2 ^ 64.
Proof. unfold fetch_add. by rewrite N.Div0.add_mod_idemp_l. Qed.
Lemma fetch_sub_mod n m : n = m + 1 -> fetch_sub (n mod 2 ^ 64) = m mod 2 ^ 64.
Proof.
  intros ->. unfold fetch_sub. rewrite N.Div0.add_mod_idemp_l. replace (m + 1 + (2 ^ 64 - 1)) with (m + 1 * 2 ^ 64) by lia.
  by rewrite N.Div0.mod_add.
Qed.

Definition holds_slot (c : ConnectionTask) : N :=
  match c with Handshaking | Serving _ _ | ShuttingDown _ _ | Closing => 1 | Ended | Joined | Aborted _ _ => 0 end.
(** What a task has added to the status. *)
Definition counted (c : ConnectionTask) : N :=
  match c with Serving _ _ | ShuttingDown _ _ => 1 | Aborted connections _ => connections | _ => 0 end.
Definition flow_counted (f : FlowTask) : N := match f with FlowOpened => 1 | _ => 0 end.
Definition counted_flows (c : ConnectionTask) : N :=
  match c with
  | Serving _ flows | ShuttingDown _ flows => sum flow_counted flows
  | Aborted _ flows => flows
  | _ => 0
  end.
Definition flow_holds (f : FlowTask) : N := match f with FlowEnded => 0 | _ => 1 end.

Lemma count_flows_sum l : count_flows l = sum flow_counted l.
Proof. induction l as [|[] l IH]; cbn; [done|..]; fold (sum flow_counted l) (count_flows l); rewrite IH; lia. Qed.

(** *** What operators may ask *)
Lemma read_request_loop_spec answers request text :
  len request <= MAX_REQUEST_BYTES ->
  read_request_loop answers request = Ok text <->
  exists bytes rest, answers = map Byte bytes ++ Byte x0a :: rest /\ (x0a ∉ bytes) /\
    len (request ++ bytes) <= MAX_REQUEST_BYTES /\ decode (request ++ bytes) = Some text.
Proof.
  revert request. induction answers as [|a answers IH]; intros request Hlen; cbn [read_request_loop].
  { split; [done|]. intros ([|] & rest & Heq & _); discriminate Heq. }
  destruct a as [b| |]; [|split; [done|]; intros ([|] & rest & Heq & _); discriminate Heq..].
  case_bool_decide as Hb.
  - subst b. split.
    + intros Hd. exists [], answers. rewrite app_nil_r. split; [done|split; [by apply not_elem_of_nil|split; [done|]]].
      destruct (decode request) as [t|]; [|done]. apply Ok_inj in Hd. by subst t.
    + intros ([|c bytes] & rest & Heq & Hno & _ & Hd); [rewrite app_nil_r in Hd; by rewrite Hd|].
      injection Heq as <- _. exfalso. apply Hno. left.
  - destruct (N.eqb_spec (len request) MAX_REQUEST_BYTES) as [Hfull|Hroom].
    + split; [done|]. intros ([|c bytes] & rest & Heq & _ & Hle & _); [by injection Heq|].
      unfold len in *. rewrite length_app in Hle. cbn in Hle. lia.
    + rewrite IH; [|unfold len in *; rewrite length_app; cbn; lia]. split; intros (bytes & rest & Heq & Hno & Hle & Hd).
      * exists (b :: bytes), rest. rewrite <- app_assoc in Hle, Hd. rewrite Heq.
        split; [done|split; [|done]]. apply not_elem_of_cons. split; [congruence|exact Hno].
      * destruct bytes as [|c bytes]; [by injection Heq|]. injection Heq as <- Heq. exists bytes, rest.
        apply not_elem_of_cons in Hno as [_ Hno]. rewrite <- app_assoc. by repeat split.
Qed.

(** A request is taken exactly when the bytes before the first newline are
    at most thirty-two and UTF-8, whatever the client sends after it and however
    its bytes arrive; the socket's task keeps no more than that. *)
Theorem read_request_bounded answers text :
  read_request answers = Ok text <->
  exists bytes rest, answers = map Byte bytes ++ Byte x0a :: rest /\ (x0a ∉ bytes) /\
    len bytes <= 32 /\ decode bytes = Some text.
Proof. apply (read_request_loop_spec answers []). unfold MAX_REQUEST_BYTES, len. cbn. lia. Qed.

(** *** The cover listener serves no more connections than it was allowed *)
Definition cover_running (c : Cover.Connection) : N := match c with Cover.Running => 1 | _ => 0 end.
Definition cover_ok (max : N) (w : Cover.Listener) : Prop :=
  Cover.cover_slots w + sum cover_running (Cover.cover_connections w) = max.
Lemma cover_initial_ok max : cover_ok max (Cover.initial max).
Proof. unfold cover_ok. cbn. lia. Qed.
Lemma cover_put_ok max w i c c' n :
  cover_ok max w -> Cover.cover_connections w !! i = Some c ->
  n + cover_running c' = Cover.cover_slots w + cover_running c -> cover_ok max (Cover.put i c' n w).
Proof.
  unfold cover_ok. intros Hok Hi Hn. pose proof (sum_insert cover_running _ _ _ c' Hi) as Hsum.
  cbn [Cover.put Cover.cover_slots Cover.cover_connections]. lia.
Qed.
Lemma cover_turn_ok max v w w' : Cover.turn v w = Some w' -> cover_ok max w -> cover_ok max w'.
Proof.
  destruct v as [failed requested| | |i|i|i]; cbn [Cover.turn]; intros Hs Hok.
  - destruct (Cover.running w); [|done]. apply Some_inj in Hs as <-. by destruct (failed || requested).
  - destruct (Cover.running w); [|done]. by apply Some_inj in Hs as <-.
  - destruct (Cover.running w); [|done]. apply Some_inj in Hs as <-.
    destruct (N.eqb_spec (Cover.cover_slots w) 0); [done|]. unfold cover_ok in *.
    cbn [Cover.cover_slots Cover.cover_connections]. rewrite sum_app. cbn [sum foldr cover_running]. lia.
  - destruct (Cover.cover_connections w !! i) as [[]|] eqn:Hi; try done. apply Some_inj in Hs as <-.
    eapply cover_put_ok; [done|exact Hi|cbn; lia].
  - destruct (Cover.cover_connections w !! i) as [[]|] eqn:Hi; try done. apply Some_inj in Hs as <-.
    eapply cover_put_ok; [done|exact Hi|cbn; lia].
  - destruct (Cover.running w); [done|]. destruct (Cover.cover_connections w !! i) as [[]|] eqn:Hi; try done.
    apply Some_inj in Hs as <-. eapply cover_put_ok; [done|exact Hi|cbn; lia].
Qed.

(** *** One connection *)
Section connection.
Context (max_streams : N).

(** The permits of a connection's streams are free or held by their tasks. *)
Definition streams_ok (c : ConnectionTask) : Prop :=
  match c with
  | Serving free flows | ShuttingDown free flows => free + sum flow_holds flows = max_streams
  | _ => True
  end.

(** A step of a flow, seen from the status. *)
Lemma flow_step_spec v free flows free' flows' change :
  flow_step v free flows = Some (free', flows', change) -> free + sum flow_holds flows = max_streams ->
  free' + sum flow_holds flows' = max_streams /\
  (forall s, phase (change s) = phase s /\ connections_ (change s) = connections_ s) /\
  forall s rest, flows_ s = (sum flow_counted flows + rest) mod 2 ^ 64 ->
    flows_ (change s) = (sum flow_counted flows' + rest) mod 2 ^ 64.
Proof.
  intros Hs Hok. destruct v as [| | | |f|f|f| |]; try done; cbn in Hs;
    (destruct (flows !! f) as [[]|] eqn:Hf; try done);
    assert (forall A B C (a a' : A) (b b' : B) (c c' : C), Some (a, b, c) = Some (a', b', c') -> a = a' /\ b = b' /\ c = c')
      as Hinj by (intros * [= -> -> ->]; done);
    apply Hinj in Hs as (<- & <- & <-); clear Hinj;
    pose proof (sum_insert flow_holds _ _ _ FlowOpened Hf) as H1; pose proof (sum_insert flow_counted _ _ _ FlowOpened Hf) as G1;
    pose proof (sum_insert flow_holds _ _ _ FlowClosing Hf) as H2; pose proof (sum_insert flow_counted _ _ _ FlowClosing Hf) as G2;
    pose proof (sum_insert flow_holds _ _ _ FlowEnded Hf) as H3; pose proof (sum_insert flow_counted _ _ _ FlowEnded Hf) as G3;
    cbn [flow_holds flow_counted] in *; (split; [lia|split; [done|]]); intros s rest Hs; cbn.
  - rewrite Hs, fetch_add_mod. f_equal. lia.
  - rewrite Hs. apply fetch_sub_mod. lia.
  - rewrite Hs. f_equal. lia.
Qed.
End connection.

(** ** What is always true of the service *)
Section invariant.
Context `{T : Toml, L : NodeLibraries, HC : ConstantTimeEqLaws}.
Context (config : QuicRelayConfig) (path : Path) (address : SocketAddr) (first : ServerConfig).

(** Permits and the status against the tasks. *)
Record counts_ok (free : N) (st : RuntimeStatus) (l : list ConnectionTask) : Prop := {
  co_slots : free + sum holds_slot l = max_connections config;
  co_connections : connections_ st = sum counted l mod 2 ^ 64;
  co_flows : flows_ st = sum counted_flows l mod 2 ^ 64;
  co_streams : forall i c, l !! i = Some c -> streams_ok (max_streams_per_connection config) c
}.

(** A configuration the endpoint was given: the first one, or one that a reload
    loaded, for the address that is bound. *)
Definition given (tc : option nat * ServerConfig) : Prop :=
  match tc.1 with
  | None => tc.2 = first
  | Some _ => exists s c l, config_in (files s !! path) = Some c /\ loaded_from (files s) c l /\
                bind_address l = address /\ server_config l = tc.2
  end.
(** What the operator reads, or will read, is that the configuration was
    replaced. *)
Definition says_reloaded (a : AdminTask) : Prop :=
  match a with SettingPhase _ response | Responded response => response = line (str "reloaded") | _ => False end.
Record control_ok (w : World) : Prop := {
  ct_controls : (length (controls w) <= CONTROL_CAPACITY)%nat;
  ct_configs : Forall given (server_configs w);
  ct_completions : forall t, completions w !! t = Some true -> exists c, (Some t, c) ∈ server_configs w;
  ct_replies : forall t a, admins w !! t = Some a -> says_reloaded a -> exists c, (Some t, c) ∈ server_configs w;
  ct_panic : listener_task w = Panicked -> exists s, secrets_panic (files s) path
}.
Definition aborting (l : ListenerTask) : bool :=
  match l with Stopping true | Returned _ => true | _ => false end.
Record service_ok (w : World) : Prop := {
  so_counts : counts_ok (slots w) (status w) (connections w);
  so_control : control_ok w;
  so_aborted : aborting (listener_task w) = false -> forall i a b, connections w !! i <> Some (Aborted a b)
}.

Lemma counts_put free st l i c free' st' c' :
  counts_ok free st l -> l !! i = Some c -> free' + holds_slot c' = free + holds_slot c ->
  (forall rest, connections_ st = (counted c + rest) mod 2 ^ 64 -> connections_ st' = (counted c' + rest) mod 2 ^ 64) ->
  (forall rest, flows_ st = (counted_flows c + rest) mod 2 ^ 64 -> flows_ st' = (counted_flows c' + rest) mod 2 ^ 64) ->
  streams_ok (max_streams_per_connection config) c' -> counts_ok free' st' (<[i := c']> l).
Proof.
  intros Hok Hi Hs Hc Hf Hst.
  pose proof (sum_insert holds_slot l i c c' Hi) as H1. pose proof (sum_insert counted l i c c' Hi) as H2.
  pose proof (sum_insert counted_flows l i c c' Hi) as H3.
  pose proof (sum_ge counted l i c Hi) as G2. pose proof (sum_ge counted_flows l i c Hi) as G3. destruct Hok.
  constructor.
  - lia.
  - rewrite (Hc (sum counted l - counted c)); [f_equal; lia|]. rewrite co_connections0. f_equal. lia.
  - rewrite (Hf (sum counted_flows l - counted_flows c)); [f_equal; lia|]. rewrite co_flows0. f_equal. lia.
  - intros j d Hj. apply list_lookup_insert_Some in Hj as [(_ & <- & _)|[_ Hj]]; [done|by eapply co_streams0].
Qed.

(** A task that changes neither the permits nor the status. *)
Lemma counts_same free st l i c c' :
  counts_ok free st l -> l !! i = Some c -> holds_slot c' = holds_slot c -> counted c' = counted c ->
  counted_flows c' = counted_flows c -> streams_ok (max_streams_per_connection config) c' ->
  counts_ok free st (<[i := c']> l).
Proof. intros Hok Hi H1 H2 H3 Hst. eapply counts_put; try done; [lia| |]; intros rest; by rewrite ?H2, ?H3. Qed.

Lemma connection_step_counts i v c w w' :
  connections w !! i = Some c -> connection_step config i v c w = Some w' ->
  counts_ok (slots w) (status w) (connections w) ->
  counts_ok (slots w') (status w') (connections w').
Proof.
  intros Hi Hs Hok. pose proof (co_streams _ _ _ Hok i c Hi) as Hst.
  assert (forall free flows free' flows' change c',
    flow_step v free flows = Some (free', flows', change) -> w' = put_connection i c' (on_status change w) ->
    (c = Serving free flows /\ c' = Serving free' flows') \/ (c = ShuttingDown free flows /\ c' = ShuttingDown free' flows') ->
    counts_ok (slots w') (status w') (connections w')) as Hflow.
  { intros free flows free' flows' change c' Hf -> Hcase. cbn.
    assert (free + sum flow_holds flows = max_streams_per_connection config) as Hfree
      by (destruct Hcase as [[-> _]|[-> _]]; exact Hst).
    destruct (flow_step_spec _ v free flows free' flows' change Hf Hfree) as (Hst' & Hsame & Hfl).
    eapply counts_put; [exact Hok|exact Hi|..].
    - by destruct Hcase as [[-> ->]|[-> ->]].
    - intros rest. rewrite (proj2 (Hsame _)). by destruct Hcase as [[-> ->]|[-> ->]].
    - intros rest Hr. assert (flows_ (status w) = (sum flow_counted flows + rest) mod 2 ^ 64) as Hr'
        by (destruct Hcase as [[-> _]|[-> _]]; exact Hr).
      specialize (Hfl _ _ Hr'). by destruct Hcase as [[_ ->]|[_ ->]].
    - by destruct Hcase as [[_ ->]|[_ ->]]. }
  destruct c as [|free flows|free flows| | | |]; destruct v; try done; cbn [connection_step] in Hs;
    try (destruct (flow_step _ _ _) as [[[free' flows'] change]|] eqn:Hf; [|done]; apply Some_inj in Hs as <-;
         eapply Hflow; [exact Hf|reflexivity|by auto]).
  - apply Some_inj in Hs as <-. cbn. eapply counts_put; [exact Hok|exact Hi|done| |done|cbn; lia].
    intros rest Hr. cbn in *. rewrite Hr, fetch_add_mod. f_equal. lia.
  - apply Some_inj in Hs as <-. by eapply counts_same.
  - apply Some_inj in Hs as <-. destruct (N.eqb_spec free 0); [done|]. cbn. cbn in Hst.
    eapply counts_same; [exact Hok|exact Hi|done|done|cbn..]; rewrite sum_app; cbn; lia.
  - apply Some_inj in Hs as <-. by eapply counts_same.
  - destruct (forallb flow_ended flows) eqn:He; [|done]. apply Some_inj in Hs as <-. cbn.
    assert (sum flow_counted flows = 0) as Hz.
    { apply sum_0, Forall_forall. intros f Hf%list_elem_of_In. rewrite forallb_forall in He. specialize (He f Hf). by destruct f. }
    eapply counts_put; [exact Hok|exact Hi|done| |intros rest; cbn; by rewrite Hz|done].
    intros rest Hr. cbn in *. rewrite Hr. apply fetch_sub_mod. lia.
  - apply Some_inj in Hs as <-. cbn. eapply counts_put; [exact Hok|exact Hi|cbn; lia|done..].
Qed.

(** Steps of connections leave what operators asked alone. *)
Definition same_control (w w' : World) : Prop :=
  listener_task w' = listener_task w /\ controls w' = controls w /\ completions w' = completions w /\
  server_configs w' = server_configs w /\ admins w' = admins w.
Lemma control_ok_same w w' : same_control w w' -> control_ok w -> control_ok w'.
Proof. intros (Hl & Hc & Hm & Hs & Ha) []. constructor; rewrite ?Hl, ?Hc, ?Hm, ?Hs, ?Ha; done. Qed.

(** A step of a connection changes its own task, and neither joins nor aborts
    it. *)
Definition task_moves (i : nat) (l l' : list ConnectionTask) : Prop :=
  l' = l \/ exists c c', l !! i = Some c /\ joined c = false /\ joined c' = false /\ l' = <[i := c']> l.
Lemma connection_turn_frame i v w w' :
  connection_turn config i v w = Some w' -> same_control w w' /\ task_moves i (connections w) (connections w').
Proof.
  unfold connection_turn. destruct (connections w !! i) as [c|] eqn:Hi; [|done]. intros Hs.
  assert (forall c' f, joined c = false -> joined c' = false -> put_connection i c' (on_status f w) = w' ->
    same_control w w' /\ task_moves i (connections w) (connections w')) as Hput
    by (intros c' f Hc Hc' <-; split; [done|right; by exists c, c']).
  destruct c as [|free flows|free flows| | | |]; destruct v; try done; cbn [connection_step] in Hs;
    try (destruct (flow_step _ _ _) as [[[free' flows'] change]|]; [|done]);
    try (destruct (forallb flow_ended flows); [|done]); apply Some_inj in Hs;
    try (eapply Hput; [| |exact Hs]; done);
    try (destruct (free =? 0)); subst w'; (split; [done|]); try (by left); right; eexists _, _; by repeat split.
Qed.

Definition aborted (c : ConnectionTask) : bool := match c with Aborted _ _ => true | _ => false end.
Lemma insert_aborted (l : list ConnectionTask) i c j a b :
  joined c = false \/ c = Joined -> <[i := c]> l !! j = Some (Aborted a b) -> l !! j = Some (Aborted a b).
Proof. intros Hc [(_ & -> & _)|[_ Hj]]%list_lookup_insert_Some; [by destruct Hc|exact Hj]. Qed.

Lemma connection_turn_ok i v w w' : connection_turn config i v w = Some w' -> service_ok w -> service_ok w'.
Proof.
  intros Hs [Hcounts Hcontrol Haborted]. destruct (connection_turn_frame _ _ _ _ Hs) as [Hsame Hmoves].
  unfold connection_turn in Hs. destruct (connections w !! i) as [c|] eqn:Hi; [|done].
  constructor; [by eapply connection_step_counts|by eapply control_ok_same|].
  intros Ha j a b Hj. rewrite (proj1 Hsame) in Ha. apply (Haborted Ha j a b).
  destruct Hmoves as [<-|(d & d' & _ & _ & Hd & He)]; [done|]. rewrite He in Hj. eapply insert_aborted; [by left|exact Hj].
Qed.

Lemma join_ok i w w' : join i w = Some w' -> service_ok w -> service_ok w'.
Proof.
  unfold join. intros Hs [Hcounts Hcontrol Haborted]. destruct (connections w !! i) as [[]|] eqn:Hi; try done.
  apply Some_inj in Hs as <-. constructor; [exact (counts_same _ _ _ i Ended Joined Hcounts Hi eq_refl eq_refl eq_refl I)|by apply (control_ok_same w)|].
  intros Ha j a b Hj. apply (Haborted Ha j a b). eapply insert_aborted; [by right|exact Hj].
Qed.

Lemma reload_answer_spec s :
  match reload_answer path address s with
  | Ret (Ok c) => exists conf l, config_in (files s !! path) = Some conf /\ loaded_from (files s) conf l /\
                    bind_address l = address /\ server_config l = c
  | Ret (Err _) => True
  | Panic => secrets_panic (files s) path
  | OutOfFuel => False
  end.
Proof.
  unfold reload_answer, eval, reload_server_config, bind, map_err.
  pose proof (only_reads_load path s) as Hr. unfold reads, wp_or_panic in Hr.
  destruct (load path s) as [[[l|e] s']| |]; [|done..]. destruct Hr as (_ & conf & Hc & Hl).
  destruct (bool_decide (bind_address l = address)) eqn:Hb; cbn; [|done].
  apply bool_decide_eq_true in Hb. by exists conf, l.
Qed.

Lemma break_loop_ok d w : listener_task w = Accepting d -> service_ok w -> service_ok (break_loop w).
Proof.
  intros Hl [Hcounts [] Haborted]. constructor; [done|by constructor|]. intros _. apply Haborted. by rewrite Hl.
Qed.

Lemma take_control_ok d reloaded c rest w :
  listener_task w = Accepting d -> controls w = c :: rest -> (exists s, reloaded = reload_answer path address s) ->
  service_ok w -> service_ok (take_control reloaded c (set_controls rest w)).
Proof.
  intros Hl Hc [s ->] [Hcounts [] Haborted]. pose proof (reload_answer_spec s) as Hans.
  assert (length rest <= CONTROL_CAPACITY)%nat as Hrest by (rewrite Hc in ct_controls0; cbn in ct_controls0; lia).
  assert (aborting (listener_task w) = false) as Hna by (by rewrite Hl).
  destruct c as [|t|]; cbn [take_control].
  - constructor; [done|by constructor|intros _; by apply Haborted].
  - destruct (reload_answer path address s) as [[c|e]| |]; [| | |done].
    + constructor; [done| |done]. constructor; cbn.
      * done.
      * constructor; [by exists s|done].
      * intros u [[<- _]|[_ Hu]]%lookup_insert_Some; [by exists c; left|].
        destruct (ct_completions0 u Hu) as [c' Hc']. exists c'. by right.
      * intros u a Hu Ha. destruct (ct_replies0 u a Hu Ha) as [c' Hc']. exists c'. by right.
      * done.
    + constructor; [done| |done]. constructor; cbn; try done.
      intros u [[_ ?]|[_ Hu]]%lookup_insert_Some; [done|by apply ct_completions0].
    + constructor; [done| |intros _; by apply Haborted]. constructor; cbn; try done. intros _. by exists s.
  - apply (break_loop_ok d); [done|]. constructor; [done|by constructor|done].
Qed.

Lemma accept_incoming_ok w : service_ok w -> service_ok (accept_incoming w).
Proof.
  intros [[] [] Haborted]. unfold accept_incoming. destruct (N.eqb_spec (slots w) 0) as [H0|H0].
  - constructor; [by constructor|by constructor|done].
  - constructor; [|by constructor|].
    + constructor; cbn [connections slots status set_connections set_slots]; rewrite ?sum_app;
        cbn [sum foldr holds_slot counted counted_flows].
      { lia. }
      { rewrite co_connections0. f_equal. lia. }
      { rewrite co_flows0. f_equal. lia. }
      intros i c [Hi|[_ Hi]]%lookup_app_Some; [by eapply co_streams0|]. destruct (i - _)%nat; [|done]. by injection Hi as <-.
    + cbn. intros Ha i a b [Hi|[_ Hi]]%lookup_app_Some; [by apply (Haborted Ha i a b)|]. by destruct (i - _)%nat.
Qed.

Lemma listener_turn_ok turn w w' :
  (forall reloaded, turn = TakeControl reloaded -> exists s, reloaded = reload_answer path address s) ->
  listener_turn turn w = Some w' -> service_ok w -> service_ok w'.
Proof.
  intros Hr Hs Hok. unfold listener_turn in Hs. destruct (listener_task w) as [d| | |] eqn:Hl; try done.
  destruct (d && all_joined w); [apply Some_inj in Hs as <-; by apply (break_loop_ok d)|].
  destruct turn as [reloaded| | | |i].
  - destruct (controls w) as [|c rest] eqn:Hc; [done|]. apply Some_inj in Hs as <-. eapply take_control_ok; eauto.
  - destruct (controls w); [|done]. apply Some_inj in Hs as <-. by apply (break_loop_ok d).
  - destruct d; [done|]. apply Some_inj in Hs as <-. by apply accept_incoming_ok.
  - destruct d; [done|]. apply Some_inj in Hs as <-. by apply (break_loop_ok false).
  - by eapply join_ok.
Qed.

Lemma drop_controls_true l m t : foldr drop_control m l !! t = Some true -> m !! t = Some true.
Proof.
  induction l as [|[|u|] l IH]; cbn; [done|done| |done]. intros [[_ ?]|[_ H]]%lookup_insert_Some; [done|by apply IH].
Qed.

Lemma stop_turn_ok turn w w' : stop_turn turn w = Some w' -> service_ok w -> service_ok w'.
Proof.
  intros Hs Hok. unfold stop_turn in Hs. destruct (listener_task w) as [|ab| |] eqn:Hl; try done.
  assert (forall b, all_joined w = b -> w' = set_listener (Stopping true) w -> service_ok w') as Hto.
  { intros b _ ->. destruct Hok as [Hc [] Ha]. constructor; [done|by constructor|done]. }
  assert (Some (set_listener (Returned (Ok tt)) (set_controls [] (set_completions (foldr drop_control (completions w) (controls w)) w)))
    = Some w' -> service_ok w') as Hret.
  { intros <-%Some_inj. destruct Hok as [Hc [] Ha]. constructor; [done| |done].
    constructor; cbn; try done; [lia|]. intros t Ht. apply ct_completions0. by eapply drop_controls_true. }
  destruct turn as [i| |i|].
  - destruct ab; by eapply join_ok.
  - destruct ab; [done|]. destruct (all_joined w) eqn:Hj; [done|]. by apply Some_inj in Hs as <-; eapply Hto.
  - destruct ab; [|done]. destruct (connections w !! i) as [c|] eqn:Hi; [|done].
    destruct (abort c) as [c'|] eqn:Hc; [|done]. apply Some_inj in Hs as <-. destruct Hok as [Hcounts Hcontrol Ha].
    constructor; [|by apply (control_ok_same w)|cbn; by rewrite Hl]. cbn.
    destruct c; try done; apply Some_inj in Hc as <-; (eapply counts_put; [exact Hcounts|exact Hi|cbn; lia|done| |done]);
      try done; intros rest; cbn; by rewrite count_flows_sum.
  - destruct ab; (destruct (all_joined w); [|done]); by apply Hret.
Qed.

Lemma status_is_no_reply st bind uptime json : RuntimeStatus.render st bind uptime json <> line (str "reloaded").
Proof.
  unfold RuntimeStatus.render, line. destruct json; [done|].
  destruct (phase st =? RUNNING); [done|]. destruct (phase st =? DRAINING); [done|]. by destruct (phase st =? STOPPING).
Qed.

(** An operator's task moves on. *)
Lemma put_admin_ok t a w :
  (says_reloaded a -> exists c, (Some t, c) ∈ server_configs w) -> service_ok w -> service_ok (put_admin t a w).
Proof.
  intros Ha [Hcounts [] Haborted]. constructor; [done| |done]. constructor; try done. cbn.
  intros u b [[-> ->]|[_ Hu]]%lookup_insert_Some Hb; [by apply Ha|by eapply ct_replies0].
Qed.
Lemma set_phase_ok p w : service_ok w -> service_ok (on_status (RuntimeStatus.set_phase p) w).
Proof.
  intros [[] [] Haborted]. by constructor; [constructor|constructor|].
Qed.

Lemma send_control_ok c w w' : send_control c w = Some w' -> service_ok w -> service_ok w'.
Proof.
  unfold send_control. destruct (Nat.ltb_spec (length (controls w)) CONTROL_CAPACITY) as [Hl|]; [|done].
  intros <-%Some_inj [Hcounts [] Haborted]. constructor; [done| |done]. constructor; try done. cbn.
  rewrite length_app. cbn. unfold CONTROL_CAPACITY in *. lia.
Qed.

Lemma request_handled_ok t request w : service_ok w -> service_ok (handle t request w).
Proof.
  intros Hok. apply put_admin_ok; [|done]. intros Hsays. exfalso. revert Hsays.
  repeat case_bool_decide; cbn [says_reloaded]; try done. by destruct (is_ok request).
Qed.

Lemma admin_turn_ok t bind v w w' : admin_turn t bind v w = Some w' -> service_ok w -> service_ok w'.
Proof.
  unfold admin_turn. intros Hs Hok. destruct (admins w !! t) as [a|] eqn:Ht; [|done].
  destruct a as [request|json p|json p uptime n|c|p response| |]; destruct v; try done; cbn [admin_step] in Hs.
  - apply Some_inj in Hs as <-. by apply request_handled_ok.
  - apply Some_inj in Hs as <-. by apply put_admin_ok.
  - apply Some_inj in Hs as <-. apply put_admin_ok; [|done].
    intros Hsays. exfalso. revert Hsays. apply status_is_no_reply.
  - destruct (receiver_alive w).
    + destruct (send_control c w) as [w1|] eqn:Hsend; [|done]. apply Some_inj in Hs as <-.
      apply put_admin_ok; [by destruct c|by eapply send_control_ok].
    + apply Some_inj in Hs as <-. apply put_admin_ok; [by destruct c|done].
  - apply Some_inj in Hs as <-. apply put_admin_ok; [|by apply set_phase_ok].
    by apply (ct_replies _ (so_control _ Hok) t _ Ht).
  - destruct (completions w !! t) as [[]|] eqn:Hc; [..|done]; apply Some_inj in Hs as <-; apply put_admin_ok; try done.
    intros _. by apply (ct_completions _ (so_control _ Hok)).
  - apply Some_inj in Hs as <-. by apply put_admin_ok.
Qed.

Lemma service_step_ok w w' : step config path address w w' -> service_ok w -> service_ok w'.
Proof.
  intros [turn v Hr Ht|turn v Ht|i v v' Ht|t v v' Ht|t answers _|v _ Ht] Hok.
  - by eapply listener_turn_ok.
  - by eapply stop_turn_ok.
  - by eapply connection_turn_ok.
  - by eapply admin_turn_ok.
  - by apply put_admin_ok.
  - by eapply send_control_ok.
Qed.

Lemma service_initial_ok : service_ok (initial config first).
Proof.
  constructor; [| |done].
  - constructor; cbn; [lia|done..].
  - constructor; cbn; try done; [by unfold CONTROL_CAPACITY; lia|by constructor|by destruct (is_ok _)].
Qed.

Inductive reachable : World -> Prop :=
| reachable_initial : reachable (initial config first)
| reachable_step w w' : reachable w -> step config path address w w' -> reachable w'.
Lemma reachable_ok w : reachable w -> service_ok w.
Proof. induction 1 as [|w w' _ IH Hs]; [apply service_initial_ok|by eapply service_step_ok]. Qed.

(** *** Stopping *)

(** What the listener still has to do before it returns: with every turn of its
    own it is less, and nobody else adds to it. *)
Definition unjoined (l : list ConnectionTask) : N := sum (fun c => if joined c then 0 else 1) l.
Definition stop_measure (w : World) : N :=
  match listener_task w with
  | Stopping aborting => (if aborting then 1 else 2) + unjoined (connections w)
  | _ => 0
  end.

Lemma unjoined_put l i c c' :
  l !! i = Some c ->
  unjoined (<[i := c']> l) + (if joined c then 0 else 1) = unjoined l + (if joined c' then 0 else 1).
Proof. intros Hi. exact (sum_insert (fun c => if joined c then 0 else 1) l i c c' Hi). Qed.

#[local] Arguments sum : simpl never.
#[local] Arguments unjoined : simpl never.
Lemma join_spec i w w' :
  join i w = Some w' -> connections w !! i = Some Ended /\ w' = put_connection i Joined w /\
    unjoined (connections w') + 1 = unjoined (connections w).
Proof.
  unfold join. destruct (connections w !! i) as [[]|] eqn:Hi; try done. intros <-%Some_inj. split; [done|split; [done|]].
  pose proof (unjoined_put _ _ _ Joined Hi) as H. cbn in *. lia.
Qed.

Lemma stop_turn_measure turn w w' : stop_turn turn w = Some w' -> stop_measure w' < stop_measure w.
Proof.
  unfold stop_turn, stop_measure. intros Hs. destruct (listener_task w) as [|ab| |] eqn:Hl; try done. destruct turn as [i| |i|].
  - assert (join i w = Some w') as Hj by (by destruct ab).
    apply join_spec in Hj as (_ & -> & Hu). cbn in *. rewrite Hl. destruct ab; lia.
  - destruct ab; [done|]. destruct (all_joined w); [done|]. apply Some_inj in Hs as <-. cbn. lia.
  - destruct ab; [|done]. destruct (connections w !! i) as [c|] eqn:Hi; [|done].
    destruct (abort c) as [c'|] eqn:Hc; [|done]. apply Some_inj in Hs as <-. cbn. rewrite Hl.
    pose proof (unjoined_put _ _ _ c' Hi) as Hu. destruct c; try done; apply Some_inj in Hc as <-; cbn in *; lia.
  - destruct ab; (destruct (all_joined w); [|done]); apply Some_inj in Hs as <-; cbn; lia.
Qed.

Lemma connection_turn_measure i v w w' : connection_turn config i v w = Some w' -> stop_measure w' = stop_measure w.
Proof.
  intros [Hsame Hmoves]%connection_turn_frame. unfold stop_measure. rewrite (proj1 Hsame).
  destruct Hmoves as [->|(c & c' & Hi & Hc & Hc' & ->)]; [done|].
  pose proof (unjoined_put _ _ _ c' Hi) as Hu. rewrite Hc, Hc' in Hu. destruct (listener_task w); lia.
Qed.
(** An operator's request and a signal leave the listener and its tasks. *)
Definition same_service (w w' : World) : Prop :=
  listener_task w' = listener_task w /\ connections w' = connections w /\ server_configs w' = server_configs w.
Lemma send_control_frame c w w' : send_control c w = Some w' -> same_service w w'.
Proof. unfold send_control. destruct (_ <? _)%nat; [|done]. by intros <-%Some_inj. Qed.
Lemma admin_turn_frame t bind v w w' : admin_turn t bind v w = Some w' -> same_service w w'.
Proof.
  unfold admin_turn. destruct (admins w !! t) as [a|]; [|done]. intros Hs.
  destruct a as [request|json p|json p uptime n|c|p response| |]; destruct v; try done; cbn [admin_step] in Hs; try (by apply Some_inj in Hs as <-).
  - destruct (receiver_alive w); [|by apply Some_inj in Hs as <-].
    destruct (send_control c w) as [w1|] eqn:Hsend; [|done]. apply Some_inj in Hs as <-. exact (send_control_frame c w w1 Hsend).
  - destruct (completions w !! t) as [[]|]; [..|done]; by apply Some_inj in Hs as <-.
Qed.
End invariant.

(** *** What the listener does in one step *)
Section moves.
Context `{T : Toml, L : NodeLibraries, HC : ConstantTimeEqLaws}.
Context (config : QuicRelayConfig) (path : Path) (address : SocketAddr).

Definition admitting (l : ListenerTask) : bool := match l with Accepting false => true | _ => false end.

(** A listener that does not admit admits nothing again. *)
Definition closed_to (w w' : World) : Prop :=
  admitting (listener_task w') = false /\ length (connections w') = length (connections w).
Lemma closed_to_put w i c : admitting (listener_task w) = false -> closed_to w (put_connection i c w).
Proof. intros Ha. split; [done|apply length_insert]. Qed.

Lemma take_control_closed reloaded c rest w :
  admitting (listener_task w) = false -> closed_to w (take_control reloaded c (set_controls rest w)).
Proof. intros Ha. destruct c; [done| |done]. by destruct reloaded as [[]| |]. Qed.
Lemma listener_turn_closed turn w w' :
  admitting (listener_task w) = false -> listener_turn turn w = Some w' -> closed_to w w'.
Proof.
  intros Ha Hs. unfold listener_turn in Hs. destruct (listener_task w) as [[]| | |] eqn:Hl; try done.
  assert (admitting (listener_task w) = false) as Ha' by (by rewrite Hl).
  cbn [andb] in Hs. destruct (all_joined w); [by apply Some_inj in Hs as <-|]. destruct turn as [reloaded| | | |i]; try done.
  - destruct (controls w) as [|c rest]; [done|]. apply Some_inj in Hs as <-. by apply take_control_closed.
  - destruct (controls w); [|done]. by apply Some_inj in Hs as <-.
  - apply join_spec in Hs as (_ & -> & _). by apply closed_to_put.
Qed.
Lemma stop_turn_closed turn w w' : stop_turn turn w = Some w' -> closed_to w w'.
Proof.
  intros Hs. unfold stop_turn in Hs. destruct (listener_task w) as [|ab| |] eqn:Hl; try done.
  assert (admitting (listener_task w) = false) as Ha by (by rewrite Hl). destruct turn as [i| |i|].
  - assert (join i w = Some w') as (_ & -> & _)%join_spec by (by destruct ab). by apply closed_to_put.
  - destruct ab; [done|]. destruct (all_joined w); [done|]. by apply Some_inj in Hs as <-.
  - destruct ab; [|done]. destruct (connections w !! i) as [c|]; [|done]. destruct (abort c) as [c'|]; [|done].
    apply Some_inj in Hs as <-. split; [exact Ha|apply length_insert].
  - destruct ab; (destruct (all_joined w); [|done]); by apply Some_inj in Hs as <-.
Qed.
Lemma step_closed w w' :
  step config path address w w' -> admitting (listener_task w) = false -> closed_to w w'.
Proof.
  intros [turn v Hr Ht|turn v Ht|i v v' Ht|t v v' Ht|t answers _|v _ Ht] Ha.
  - by eapply listener_turn_closed.
  - by eapply stop_turn_closed.
  - apply connection_turn_frame in Ht as [[Hl _] Hm]. unfold closed_to. rewrite Hl. split; [done|].
    destruct Hm as [->|(c & c' & _ & _ & _ & ->)]; [done|apply length_insert].
  - apply admin_turn_frame in Ht as (Hl & Hc & _). unfold closed_to. by rewrite Hl, Hc.
  - done.
  - apply send_control_frame in Ht as (Hl & Hc & _). unfold closed_to. by rewrite Hl, Hc.
Qed.

(** The endpoint is given configurations by reloads only. *)
Definition reloads (w w' : World) : Prop :=
  exists t c s rest, controls w = Reload t :: rest /\ reload_answer path address s = Ret (Ok c) /\
    server_configs w' = (Some t, c) :: server_configs w /\ completions w' !! t = Some true /\
    listener_task w' = listener_task w /\ connections w' = connections w /\ slots w' = slots w.
Lemma take_control_configs reloaded c rest w :
  controls w = c :: rest -> (exists s, reloaded = reload_answer path address s) ->
  let w' := take_control reloaded c (set_controls rest w) in server_configs w' = server_configs w \/ reloads w w'.
Proof.
  intros Hc [s ->]. destruct c as [|t|]; [by left| |by left]. cbn.
  destruct (reload_answer path address s) as [[c|e]| |] eqn:Hs; [|by left..].
  right. exists t, c, s, rest. repeat (split; [done|]). split; [apply lookup_insert_eq|done].
Qed.
Lemma step_configs w w' :
  step config path address w w' -> server_configs w' = server_configs w \/ reloads w w'.
Proof.
  intros [turn v Hr Ht|turn v Ht|i v v' Ht|t v v' Ht|t answers _|v _ Ht].
  - unfold listener_turn in Ht. destruct (listener_task w) as [d| | |]; try done.
    destruct (d && all_joined w); [left; by apply Some_inj in Ht as <-|]. destruct turn as [reloaded| | | |i].
    + destruct (controls w) as [|c rest] eqn:Hc; [done|]. apply Some_inj in Ht as <-. apply take_control_configs; auto.
    + left. destruct (controls w); [|done]. by apply Some_inj in Ht as <-.
    + left. destruct d; [done|]. apply Some_inj in Ht as <-. unfold accept_incoming. by destruct (slots w =? 0).
    + left. destruct d; [done|]. by apply Some_inj in Ht as <-.
    + left. by apply join_spec in Ht as (_ & -> & _).
  - left. unfold stop_turn in Ht. destruct (listener_task w) as [|ab| |]; try done. destruct turn as [i| |i|].
    + assert (join i w = Some v) as (_ & -> & _)%join_spec by (by destruct ab). done.
    + destruct ab; [done|]. destruct (all_joined w); [done|]. by apply Some_inj in Ht as <-.
    + destruct ab; [|done]. destruct (connections w !! i) as [c|]; [|done]. destruct (abort c) as [c'|]; [|done].
      by apply Some_inj in Ht as <-.
    + destruct ab; (destruct (all_joined w); [|done]); by apply Some_inj in Ht as <-.
  - left. by apply connection_turn_frame in Ht as [(_ & _ & _ & Hs & _) _].
  - left. by apply admin_turn_frame in Ht as (_ & _ & ?).
  - by left.
  - left. by apply send_control_frame in Ht as (_ & _ & ?).
Qed.
End moves.

(** ** The theorems *)
Section properties.
Context `{T : Toml, L : NodeLibraries, HC : ConstantTimeEqLaws}.
Context (config : QuicRelayConfig) (path : Path) (address : SocketAddr) (first : ServerConfig).

Definition serving (c : ConnectionTask) : N := match c with Serving _ _ | ShuttingDown _ _ => 1 | _ => 0 end.
Definition open_flows (c : ConnectionTask) : N :=
  match c with Serving _ flows | ShuttingDown _ flows => sum flow_counted flows | _ => 0 end.

Lemma open_flows_le l : sum flow_counted l <= sum flow_holds l.
Proof. rewrite <- (N.mul_1_l (sum flow_holds l)). apply sum_le. intros i [] _; cbn; lia. Qed.

Lemma counts_exact w :
  service_ok config path address first w -> aborting (listener_task w) = false ->
  connections_ (status w) = sum serving (connections w) mod 2 ^ 64 /\ sum serving (connections w) <= max_connections config /\
  flows_ (status w) = sum open_flows (connections w) mod 2 ^ 64 /\
  sum open_flows (connections w) <= max_streams_per_connection config * max_connections config.
Proof.
  intros [[Hsl Hco Hfl Hst] _ Hab] Ha. specialize (Hab Ha).
  rewrite Hco, Hfl, (sum_ext serving counted), (sum_ext open_flows counted_flows);
    [|intros i [] Hi; try done; by edestruct Hab..].
  assert (sum counted (connections w) <= 1 * sum holds_slot (connections w)) as Hc
    by (apply sum_le; intros i [] Hi; cbn; try lia; by edestruct Hab).
  assert (sum counted_flows (connections w) <= max_streams_per_connection config * sum holds_slot (connections w)) as Hf.
  { apply sum_le. intros i [|free flows|free flows| | | |] Hi; cbn; try lia; [..|by edestruct Hab];
      specialize (Hst i _ Hi); cbn in Hst; pose proof (open_flows_le flows); lia. }
  repeat split; [lia|]. etransitivity; [exact Hf|]. apply N.mul_le_mono_l. lia.
Qed.

(** C31. The permits of the connections are free or held by the tasks that
    serve, whatever was aborted, and so are the permits of the streams of each
    connection; at most four controls wait.  Until tasks are aborted the two
    counters of the status are the number of connections that are being
    served, which is at most the configured maximum, and the number of their
    open flows, and each of the two numbers that an operator is answered with
    is the exact one at the moment at which it is loaded; the numbers are
    loaded one after the other, and after the phase. *)
Theorem service_counts w :
  reachable config path address first w ->
  slots w + sum holds_slot (connections w) = max_connections config /\
  (forall i c, connections w !! i = Some c -> streams_ok (max_streams_per_connection config) c) /\
  (length (controls w) <= 4)%nat /\
  (aborting (listener_task w) = false ->
   (max_connections config < 2 ^ 64 ->
    connections_ (status w) = sum serving (connections w) /\ connections_ (status w) <= max_connections config /\
    (forall t bind uptime json p, admins w !! t = Some (LoadingConnections json p) ->
      admin_turn t bind (Go uptime) w =
        Some (put_admin t (LoadingFlows json p uptime (sum serving (connections w))) w))) /\
   (max_streams_per_connection config * max_connections config < 2 ^ 64 ->
    flows_ (status w) = sum open_flows (connections w) /\
    (forall t bind uptime v json p n, admins w !! t = Some (LoadingFlows json p uptime n) ->
      admin_turn t bind (Go v) w =
        Some (put_admin t (Responded (RuntimeStatus.render
          {| phase := p; connections_ := n; flows_ := sum open_flows (connections w) |} bind uptime json)) w)))).
Proof.
  intros Hr%reachable_ok. split; [|split; [|split]].
  - apply Hr.
  - apply Hr.
  - apply Hr.
  - intros Ha. destruct (counts_exact w Hr Ha) as (Hc & Hle & Hf & Hfle). split; intros Hmax.
    + rewrite N.mod_small in Hc by lia. rewrite Hc. split_and!; [done|done|].
      intros t bind uptime json p Ht. unfold admin_turn. rewrite Ht. cbn [admin_step]. by rewrite Hc.
    + rewrite N.mod_small in Hf by lia. rewrite Hf. split; [done|].
      intros t bind uptime v json p n Ht. unfold admin_turn. rewrite Ht. cbn [admin_step]. by rewrite Hf.
Qed.

(** C32. A reload never takes the listener's configuration away: the endpoint
    has only the configuration it started with and those a reload loaded, whole,
    from the configuration file, for the address that is bound; it is given one
    by nothing but the reload that an operator asked for, which touches no
    connection; a reload that fails changes nothing but its own answer; an
    operator who reads "reloaded" is one whose reload installed a configuration.
    The listener panics only where reading the secrets does. *)
Theorem reload_keeps_last_good w :
  reachable config path address first w ->
  Forall (given path address first) (server_configs w) /\
  (forall t, admins w !! t = Some (Responded (line (str "reloaded"))) -> exists c, (Some t, c) ∈ server_configs w) /\
  (forall w', step config path address w w' -> server_configs w' = server_configs w \/ reloads path address w w') /\
  (forall t rest s e w', controls w = Reload t :: rest -> reload_answer path address s = Ret (Err e) ->
     listener_turn (TakeControl (reload_answer path address s)) w = Some w' ->
     w' = break_loop w \/ w' = set_completions (<[t := false]> (completions w)) (set_controls rest w)) /\
  (listener_task w = Panicked -> exists s, secrets_panic (files s) path).
Proof.
  intros Hr%reachable_ok. destruct (so_control _ _ _ _ _ Hr). split; [done|split; [|split; [|split; [|done]]]].
  - intros t Ht. by eapply ct_replies0.
  - intros w'. apply step_configs.
  - intros t rest s e w' Hc Hs Ht. rewrite Hs in Ht. unfold listener_turn in Ht. rewrite Hc in Ht.
    destruct (listener_task w) as [d| | |]; try done.
    destruct (d && all_joined w); apply Some_inj in Ht as <-; [by left|by right].
Qed.

(** Turns of the listener after its loop. *)
Fixpoint stop_turns (turns : list Stop) (w : World) : option World :=
  match turns with
  | [] => Some w
  | turn :: turns => match stop_turn turn w with Some w => stop_turns turns w | None => None end
  end.

Lemma stop_progress w ab :
  listener_task w = Stopping ab ->
  exists turn w', stop_turn turn w = Some w' /\ (listener_task w' = Returned (Ok tt) \/ exists ab', listener_task w' = Stopping ab').
Proof.
  intros Hl. destruct (all_joined w) eqn:Hj.
  { eexists StopReturn, _. unfold stop_turn. rewrite Hl, Hj. split; [by destruct ab|by left]. }
  destruct ab.
  - assert (exists i c, connections w !! i = Some c /\ joined c = false) as (i & c & Hi & Hc).
    { unfold all_joined in Hj. clear Hl. revert Hj. induction (connections w) as [|c l IH]; [done|]. cbn.
      destruct (joined c) eqn:Hc; [|by exists 0%nat, c]. intros (i & d & Hi & Hd)%IH. by exists (S i), d. }
    destruct (abort c) as [c'|] eqn:Ha.
    + eexists (StopAbort i), _. unfold stop_turn. rewrite Hl, Hi, Ha. split; [done|]. right. by exists true.
    + assert (c = Ended) as -> by (by destruct c). eexists (StopJoin i), _. unfold stop_turn, join. rewrite Hl, Hi.
      split; [done|]. right. by exists true.
  - eexists StopTimeout, _. unfold stop_turn. rewrite Hl, Hj. split; [done|]. right. by exists true.
Qed.
Lemma stop_turns_return n w ab :
  stop_measure w <= N.of_nat n -> listener_task w = Stopping ab ->
  exists turns w', (length turns <= n)%nat /\ stop_turns turns w = Some w' /\ listener_task w' = Returned (Ok tt).
Proof.
  revert w ab. induction n as [|n IH]; intros w ab Hn Hl.
  { unfold stop_measure in Hn. rewrite Hl in Hn. destruct ab; lia. }
  destruct (stop_progress w ab Hl) as (turn & w1 & Ht & Hcase). pose proof (stop_turn_measure _ _ _ Ht) as Hm.
  destruct Hcase as [Hret|[ab' Hl']].
  - exists [turn], w1. cbn. rewrite Ht. repeat split; [lia|exact Hret].
  - destruct (IH w1 ab') as (turns & w' & Hlen & Hs & Hr); [lia|done|].
    exists (turn :: turns), w'. cbn. rewrite Ht. repeat split; [lia|done|done].
Qed.
Lemma step_stop_measure w w' ab :
  listener_task w = Stopping ab -> step config path address w w' -> stop_measure w' <= stop_measure w.
Proof.
  intros Hl [turn v Hr Ht|turn v Ht|i v v' Ht|t v v' Ht|t answers _|v _ Ht].
  - unfold listener_turn in Ht. by rewrite Hl in Ht.
  - apply stop_turn_measure in Ht. lia.
  - apply connection_turn_measure in Ht. lia.
  - apply admin_turn_frame in Ht as (H1 & H2 & _). unfold stop_measure. by rewrite H1, H2.
  - done.
  - apply send_control_frame in Ht as (H1 & H2 & _). unfold stop_measure. by rewrite H1, H2.
Qed.

(** C33. A listener that has left its loop can always return, and in a number of
    its own turns that is at most the tasks it has still to join and two more;
    with every turn of its own fewer are left, and neither connections nor
    operators add to them.  So it returns, whatever the connections do. *)
Theorem service_can_stop w ab :
  listener_task w = Stopping ab ->
  stop_measure w <= 2 + unjoined (connections w) /\
  (exists turns w', (length turns <= N.to_nat (stop_measure w))%nat /\ stop_turns turns w = Some w' /\
     listener_task w' = Returned (Ok tt)) /\
  (forall w', step config path address w w' -> stop_measure w' <= stop_measure w) /\
  (forall turn w', stop_turn turn w = Some w' -> stop_measure w' < stop_measure w).
Proof.
  intros Hl. split; [unfold stop_measure; rewrite Hl; destruct ab; lia|]. split; [|split].
  - eapply stop_turns_return; [lia|exact Hl].
  - intros w'. by apply (step_stop_measure w w' ab).
  - intros turn w'. apply stop_turn_measure.
Qed.

(** A listener that drains, and one that has left its loop, admits nothing
    again, whatever happens after; one that drains and has joined all its tasks
    leaves the loop at its next turn, and returns without aborting any. *)
Theorem draining_admits_nothing w w' :
  admitting (listener_task w) = false -> rtc (step config path address) w w' ->
  admitting (listener_task w') = false /\ length (connections w') = length (connections w) /\
  (listener_task w' = Accepting true -> all_joined w' = true ->
   forall turn, exists w1 w2, listener_turn turn w' = Some w1 /\ stop_turn StopReturn w1 = Some w2 /\
     listener_task w2 = Returned (Ok tt) /\ connections w2 = connections w').
Proof.
  intros Ha Hs. assert (closed_to w w') as [Ha' Hlen].
  { induction Hs as [w|w w1 w2 Hstep _ IH]; [done|]. destruct (step_closed _ _ _ _ _ Hstep Ha) as [Ha1 Hl1].
    destruct (IH Ha1) as [Ha2 Hl2]. split; [done|congruence]. }
  split; [done|split; [done|]]. intros Hl Hj turn. eexists _, _. unfold listener_turn. rewrite Hl, Hj. cbn [andb].
  split; [done|]. unfold stop_turn, all_joined, break_loop. cbn. unfold all_joined in Hj. by rewrite Hj.
Qed.
End properties.
