(* ===== verification/NodeDeployment.v ===== *)
(** Deploying a node as a user service of systemd and removing it
    ([apps/velum-node/src/deployment.rs], [uninstall.rs]): the files on disk, and
    [systemctl], whose answers are inputs and whose calls are recorded. *)
From S2P Require Import Prelude Str Utf8 IpText Admission NodeFiles NodeConfig NodeEnrollment.
Import Utf8.

(** ** The machine *)
Record Host := { disk : FileSystem; asked : list (list Str); statuses : list (option bool) }.
Definition set_disk (d : FileSystem) (s : Host) : Host :=
  {| disk := d; asked := asked s; statuses := statuses s |}.
Definition on_disk {E A} (m : M FileSystem E A) : M Host E A := zoom disk set_disk m.

(** What is read of the environment; [current_dir] and [current_exe] are
    [std::env]'s. *)
Record Environment := {
  xdg_config_home : option Str;
  home : option Str;
  current_dir : Path;
  current_exe : option Path
}.

Inductive DeployError :=
| CannotResolveConfiguration (path : Path)
| ConfigurationError (e : NodeConfig.Error)
| CannotResolveBinary
| ControlCharacters (path : Path)
| NoUserDirectory
| UnitHasNoParent
| CannotCreateUnitDirectory
| CannotWriteUnit
| CannotSecureUnit
| CannotActivateUnit
| CannotExecuteSystemctl
| SystemctlFailed (arguments : list Str)
| CannotRemoveUnit
| CannotRemove (path : Path).

(** [canonicalize]: without symbolic links, the absolute form of a file that is
    there. *)
Definition canonicalize (env : Environment) (path : Path) : M FileSystem IoError Path :=
  system_call ;!
  let full := Path.join_path (current_dir env) path in
  let! _ := fs.file_at full in ret full.

(** A path as text. *)
Fixpoint slashed (l : list Str) : Str :=
  match l with [] => [] | [name] => name | name :: l => name ++ [47] ++ slashed l end.
Definition display (path : Path) : Str := (if absolute path then [47] else []) ++ slashed (components path).

(** ** The unit *)
Definition user_unit_directory (env : Environment) : result Path DeployError :=
  match match xdg_config_home env with
        | Some base => Some (Path.from base)
        | None => match home env with Some home => Some (Path.join_path (Path.from home) (Path.from (str ".config"))) | None => None end
        end with
  | Some base => Ok (Path.join_path base (Path.from (str "systemd/user")))
  | None => Err NoUserDirectory
  end.

Definition fnv_step (hash : N) (b : byte) : N := (N.lxor hash (Byte.to_N b) * 1099511628211) mod 2 ^ 64.
Definition fnv (bytes : list byte) : N := foldl fnv_step 14695981039346656037 bytes.
(** [{:016x}] *)
Fixpoint hex_padded (digits : nat) (n : N) (acc : Str) : Str :=
  match digits with
  | O => acc
  | S digits => hex_padded digits (n / 16) (IpDisplay.hex_digit (n mod 16) :: acc)
  end.
Definition unit_name (config : Path) : Str :=
  str "velum-" ++ hex_padded 16 (fnv (encode (display config))) [] ++ str ".service".

Definition systemd_argument (value : Path) : Str :=
  quoted (replace [34] [92; 34] (replace [92] [92; 92] (display value))).
Definition render_unit (binary config : Path) (shutdown_timeout_secs : N) : Str :=
  line (str "[Unit]") ++ line (str "Description=Velum experimental relay") ++ line (str "After=network-online.target")
  ++ line (str "Wants=network-online.target") ++ line [] ++ line (str "[Service]") ++ line (str "Type=simple")
  ++ line (str "ExecStart=" ++ systemd_argument binary ++ str " serve --config " ++ systemd_argument config)
  ++ line (str "Restart=on-failure") ++ line (str "RestartSec=5") ++ line (str "KillSignal=SIGTERM")
  ++ line (str "TimeoutStopSec=" ++ display_uint (N.min (shutdown_timeout_secs + 5) (2 ^ 64 - 1)))
  ++ line (str "UMask=0077") ++ line (str "NoNewPrivileges=true") ++ line (str "PrivateTmp=true") ++ line []
  ++ line (str "[Install]") ++ line (str "WantedBy=default.target").

(** [char::is_control]: the Unicode category Cc. *)
Definition is_control (c : Char) : bool := (c <? 32) || ((127 <=? c) && (c <=? 159)).
Definition validate_unit_path (path : Path) : result unit DeployError :=
  if existsb is_control (display path) then Err (ControlCharacters path) else Ok tt.

Definition write_private_file (path : Path) (contents : Str) : M FileSystem DeployError unit :=
  let! parent := ok_or (Path.parent path) UnitHasNoParent in
  map_err (fun _ => CannotCreateUnitDirectory) (fs.create_dir_all parent) ;!
  let temporary := Path.with_extension path (str "service.tmp") in
  map_err (fun _ => CannotWriteUnit) (fs.write temporary (encode contents)) ;!
  map_err (fun _ => CannotSecureUnit) (fs.set_permissions temporary 384) ;!
  map_err (fun _ => CannotActivateUnit) (fs.rename temporary path).

(** [systemctl --user] with these arguments; [None] is a command that could not
    be executed. *)
Definition ask (arguments : list Str) (s : Host) : Host :=
  {| disk := disk s; asked := asked s ++ [arguments]; statuses := tail (statuses s) |}.
Definition systemctl (arguments : list Str) : M Host DeployError unit :=
  let! s := get in
  modify (ask arguments) ;!
  match head (statuses s) with
  | Some (Some true) => ret tt
  | Some (Some false) => throw (SystemctlFailed arguments)
  | _ => throw CannotExecuteSystemctl
  end.

(** ** Deploying and removing *)
Inductive Deployed := Printed (unit_path : Path) (contents : Str) | Started (unit_name : Str).
Record Report := { service_removed : bool; configuration_removed : bool }.

Section commands.
Context `{Toml, NodeLibraries, ConstantTimeEq}.
Variable env : Environment.

Definition binary_of (binary : option Path) : Path :=
  match binary with
  | Some binary => binary
  | None => match current_exe env with Some exe => exe | None => Path.from (str "velum") end
  end.

Definition deploy (config_path : Path) (binary : option Path) (dry_run : bool) : M Host DeployError Deployed :=
  let! configured := on_disk (map_err (fun _ => CannotResolveConfiguration config_path) (canonicalize env config_path)) in
  let! config := on_disk (map_err ConfigurationError (read configured)) in
  on_disk (map_err ConfigurationError (load configured)) ;!
  let! binary := on_disk (map_err (fun _ => CannotResolveBinary) (canonicalize env (binary_of binary))) in
  lift_result Datatypes.id (validate_unit_path configured) ;!
  lift_result Datatypes.id (validate_unit_path binary) ;!
  let unit_name := unit_name configured in
  let! directory := lift_result Datatypes.id (user_unit_directory env) in
  let unit_path := Path.join directory unit_name in
  let unit := render_unit binary configured (shutdown_timeout_secs (limits config)) in
  if dry_run then ret (Printed unit_path unit)
  else
    on_disk (write_private_file unit_path unit) ;!
    let! active := attempt (systemctl [str "is-active"; str "--quiet"; unit_name]) in
    systemctl [str "daemon-reload"] ;!
    systemctl [str "enable"; unit_name] ;!
    (if is_ok active then systemctl [str "restart"; unit_name] else systemctl [str "start"; unit_name]) ;!
    ret (Started unit_name).

Definition undeploy (config_path : Path) : M Host DeployError bool :=
  let! configured := on_disk (map_err (fun _ => CannotResolveConfiguration config_path) (canonicalize env config_path)) in
  let unit_name := unit_name configured in
  let! directory := lift_result Datatypes.id (user_unit_directory env) in
  let unit_path := Path.join directory unit_name in
  let! present := on_disk (fs.exists_ unit_path) in
  if negb present then ret false
  else
    systemctl [str "disable"; str "--now"; unit_name] ;!
    on_disk (map_err (fun _ => CannotRemoveUnit) (fs.remove_file unit_path)) ;!
    systemctl [str "daemon-reload"] ;!
    ret true.

Definition remove_if_present (path : Path) : M FileSystem DeployError unit :=
  let! removed := attempt (fs.remove_file path) in
  match removed with
  | Ok _ => ret tt
  | Err NotFound => ret tt
  | Err _ => throw (CannotRemove path)
  end.

(** [uninstall::run] *)
Definition uninstall (config_path : Path) (purge : bool) : M Host DeployError Report :=
  let! configured := on_disk (map_err (fun _ => CannotResolveConfiguration config_path) (canonicalize env config_path)) in
  let! configuration := on_disk (map_err ConfigurationError (read configured)) in
  let! service_removed := undeploy configured in
  on_disk (remove_if_present (socket (admin configuration))) ;!
  let! configuration_removed :=
    (if purge then on_disk (remove_if_present configured) ;! ret true else ret false) in
  ret {| service_removed := service_removed; configuration_removed := configuration_removed |}.
End commands.

(** ** No path writes into the unit *)

(** [replace] of one character. *)
Lemma replace_char c to (s : Str) : replace [c] to s = s ≫= (fun d => if d =? c then to else [d]).
Proof.
  unfold replace. induction s as [|d s IH]; [done|]. cbn [replace_from length pred starts_with_str strip_prefix].
  unfold starts_with_str. cbn [strip_prefix]. rewrite (N.eqb_sym c d). cbn [mbind list_bind]. destruct (d =? c); [by rewrite IH|]. cbn.
  by rewrite IH.
Qed.
Definition escaped (s : Str) : Str := s ≫= (fun c => if (c =? 92) || (c =? 34) then [92; c] else [c]).
Lemma systemd_argument_escaped value : systemd_argument value = quoted (escaped (display value)).
Proof.
  unfold systemd_argument, escaped. rewrite !replace_char. f_equal. induction (display value) as [|c s IH]; [done|].
  cbn [mbind list_bind]. rewrite bind_app, IH. f_equal. destruct (N.eqb_spec c 92) as [->|]; [done|]. cbn. by destruct (N.eqb_spec c 34) as [->|].
Qed.

(** A quoted text ends at the first quote that was not escaped: what follows
    it cannot be taken for a part of the text. *)
Lemma escaped_cons c s :
  (c = 92 \/ c = 34) /\ escaped (c :: s) = 92 :: c :: escaped s \/
  c <> 92 /\ c <> 34 /\ escaped (c :: s) = c :: escaped s.
Proof.
  unfold escaped. cbn [mbind list_bind]. destruct (N.eqb_spec c 92), (N.eqb_spec c 34); cbn; tauto.
Qed.
Lemma escaped_inj value value' rest rest' :
  escaped value ++ 34 :: rest = escaped value' ++ 34 :: rest' -> value = value' /\ rest = rest'.
Proof.
  revert value'. induction value as [|c value IH]; intros [|c' value'].
  - cbn. intros H. by injection H.
  - destruct (escaped_cons c' value') as [[_ ->]|(_ & ? & ->)]; cbn; congruence.
  - destruct (escaped_cons c value) as [[_ ->]|(_ & ? & ->)]; cbn; congruence.
  - destruct (escaped_cons c value) as [[Hc ->]|(Hc & _ & ->)], (escaped_cons c' value') as [[Hc' ->]|(Hc' & _ & ->)];
      cbn [app]; intros H; injection H; try congruence; intros H' ?; subst; apply IH in H' as [-> ->]; done.
Qed.
Lemma argument_inj value value' rest rest' :
  systemd_argument value ++ rest = systemd_argument value' ++ rest' -> display value = display value' /\ rest = rest'.
Proof.
  rewrite !systemd_argument_escaped. unfold quoted. rewrite <- !app_assoc. cbn [app].
  intros H. injection H as H. by apply escaped_inj.
Qed.

Lemma split_line c (s rest : Str) : c ∉ s -> split c (s ++ c :: rest) = s :: split c rest.
Proof.
  induction s as [|d s IH]; intros Hc; cbn [app split].
  - by rewrite N.eqb_refl.
  - apply not_elem_of_cons in Hc as [Hne Hc]. rewrite (proj2 (N.eqb_neq d c)) by congruence. by rewrite IH.
Qed.
(** Text without control characters. *)
Definition plain (s : Str) : bool := negb (existsb is_control s).
Lemma plain_no_control s c : plain s = true -> is_control c = true -> c ∉ s.
Proof.
  unfold plain. intros Hs Hc Hin. apply negb_true_iff in Hs. assert (existsb is_control s = true); [|congruence].
  apply existsb_exists. exists c. split; [by apply list_elem_of_In|done].
Qed.
Lemma strip_cr_plain s : plain s = true -> strip_suffix [13] s = None.
Proof.
  intros Hs. pose proof (plain_no_control s 13 Hs eq_refl) as Hno. unfold strip_suffix. cbn [rev app].
  destruct (rev s) as [|c t] eqn:Hr; [done|]. cbn [strip_prefix]. destruct (N.eqb_spec 13 c) as [<-|]; [|done].
  exfalso. apply Hno. rewrite <- (rev_involutive s), Hr. cbn. apply elem_of_app. right. left.
Qed.
Lemma plain_app s t : plain (s ++ t) = plain s && plain t.
Proof. unfold plain. by rewrite existsb_app, negb_orb. Qed.
Lemma plain_argument value : plain (display value) = true -> plain (systemd_argument value) = true.
Proof.
  rewrite systemd_argument_escaped. unfold quoted. rewrite !plain_app. intros Hv. rewrite andb_true_r. cbn [andb].
  change (plain [34]) with true. cbn [andb]. unfold escaped. induction (display value) as [|c s IH]; [done|].
  change (c :: s) with ([c] ++ s) in Hv. rewrite plain_app in Hv. apply andb_true_iff in Hv as [Hc Hs].
  cbn [mbind list_bind]. rewrite plain_app, (IH Hs), andb_true_r.
  destruct ((c =? 92) || (c =? 34)); [|done]. change [92; c] with ([92] ++ [c]). by rewrite plain_app, Hc.
Qed.
Lemma lines_plain ls : Forall (fun s => plain s = true) ls -> lines (ls ≫= line) = ls.
Proof.
  unfold lines. induction 1 as [|s ls Hs _ IH]; [done|].
  change ((s :: ls) ≫= line) with ((s ++ [10]) ++ (ls ≫= line)). rewrite <- app_assoc. cbn [app].
  rewrite split_line by (by apply (plain_no_control s 10)). destruct (split 10 (ls ≫= line)) as [|p ps] eqn:Hsp.
  - exfalso. clear - Hsp. revert Hsp. destruct (ls ≫= line) as [|c t]; cbn; [done|]. destruct (c =? 10); [done|].
    by destruct (split 10 t).
  - change (default s (strip_suffix [13] s) :: lines_of (p :: ps) = s :: ls). by rewrite IH, strip_cr_plain.
Qed.

(** The lines of a unit, given the one that starts the program. *)
Definition unit_lines (exec : Str) (timeout : N) : list Str :=
  [str "[Unit]"; str "Description=Velum experimental relay"; str "After=network-online.target";
   str "Wants=network-online.target"; []; str "[Service]"; str "Type=simple"; exec; str "Restart=on-failure";
   str "RestartSec=5"; str "KillSignal=SIGTERM"; str "TimeoutStopSec=" ++ display_uint timeout; str "UMask=0077";
   str "NoNewPrivileges=true"; str "PrivateTmp=true"; []; str "[Install]"; str "WantedBy=default.target"].
Definition exec_line (binary config : Path) : Str :=
  str "ExecStart=" ++ systemd_argument binary ++ str " serve --config " ++ systemd_argument config.

Lemma render_unit_lines binary config secs :
  render_unit binary config secs = unit_lines (exec_line binary config) (N.min (secs + 5) (2 ^ 64 - 1)) ≫= line.
Proof.
  unfold render_unit, unit_lines, exec_line. cbn [mbind list_bind]. by rewrite app_nil_r.
Qed.
Lemma display_uint_plain n : plain (display_uint n) = true.
Proof.
  destruct (display_uint_spec n n (N.le_refl n)) as (_ & Hd & _). unfold plain. apply negb_true_iff, not_true_is_false.
  intros (c & Hc & Hcontrol)%existsb_exists. rewrite Forall_forall in Hd. specialize (Hd c (proj2 (list_elem_of_In _ _) Hc)).
  unfold is_ascii_digit in Hd. apply andb_true_iff in Hd as [H1%N.leb_le H2%N.leb_le].
  unfold is_control in Hcontrol. apply orb_true_iff in Hcontrol as [H3%N.ltb_lt|[H3%N.leb_le _]%andb_true_iff]; lia.
Qed.

Lemma exec_line_inj binary config binary' config' :
  exec_line binary config = exec_line binary' config' -> display binary = display binary' /\ display config = display config'.
Proof.
  unfold exec_line. intros [Hb Hc]%app_inv_head%argument_inj. split; [done|]. apply app_inv_head in Hc.
  rewrite <- (app_nil_r (systemd_argument config)), <- (app_nil_r (systemd_argument config')) in Hc.
  by apply argument_inj in Hc as [? _].
Qed.
Lemma validate_plain p : validate_unit_path p = Ok tt -> plain (display p) = true.
Proof. unfold validate_unit_path, plain. by destruct (existsb is_control (display p)). Qed.

Lemma unit_lines_spec binary config secs :
  validate_unit_path binary = Ok tt -> validate_unit_path config = Ok tt ->
  lines (render_unit binary config secs) = unit_lines (exec_line binary config) (N.min (secs + 5) (2 ^ 64 - 1)).
Proof.
  intros Hb%validate_plain Hc%validate_plain. rewrite render_unit_lines. apply lines_plain. unfold unit_lines.
  repeat (apply Forall_cons; split); try reflexivity; [|by rewrite plain_app, display_uint_plain|by apply Forall_nil].
  unfold exec_line. by rewrite !plain_app, !plain_argument.
Qed.

(** C30. Whatever the paths of the program and the configuration are, once they
    were found free of control characters the unit has exactly the lines it is
    meant to have, so no path can add a line, and no path can pass for another
    one or for a part of the command: two units that are the same text were
    written for the same program and the same configuration. *)
Theorem unit_not_injected binary config secs :
  validate_unit_path binary = Ok tt -> validate_unit_path config = Ok tt ->
  lines (render_unit binary config secs) = unit_lines (exec_line binary config) (N.min (secs + 5) (2 ^ 64 - 1)) /\
  forall binary' config' secs',
    validate_unit_path binary' = Ok tt -> validate_unit_path config' = Ok tt ->
    render_unit binary config secs = render_unit binary' config' secs' ->
    display binary = display binary' /\ display config = display config'.
Proof.
  intros Hb Hc. pose proof (unit_lines_spec binary config secs Hb Hc) as Hlines. split; [done|].
  intros binary' config' secs' Hb' Hc' Heq. apply exec_line_inj.
  rewrite Heq, (unit_lines_spec binary' config' secs' Hb' Hc') in Hlines.
  apply (f_equal (fun l => nth_error l 7)) in Hlines.
  change (Some (exec_line binary' config') = Some (exec_line binary config)) in Hlines. congruence.
Qed.

(** ** Steps on the machine *)
Lemma wp_systemctl arguments s (Q : result unit DeployError -> Host -> Prop) :
  (forall s', disk s' = disk s -> asked s' = asked s ++ [arguments] -> Q (Ok tt) s') ->
  (forall s' e, disk s' = disk s -> asked s' = asked s ++ [arguments] -> Q (Err e) s') ->
  wp (systemctl arguments) s Q.
Proof.
  intros Hok Herr. unfold systemctl. do 2 wp_step. destruct (head (statuses s)) as [[[]|]|]; wp_step; [by apply Hok|by apply Herr..].
Qed.
Lemma wp_on_disk {E A} (m : M FileSystem E A) s (Q : result A E -> Host -> Prop) :
  wp m (disk s) (fun r d => Q r (set_disk d s)) -> wp (on_disk m) s Q.
Proof. apply (wp_zoom disk set_disk). Qed.

(** A step that only reads the disk. *)
Lemma wpp_bind_reads {E A B} (m : M FileSystem E A) (f : A -> M Host E B) s (P : A -> Prop) Q panics :
  reads m (disk s) P panics ->
  (forall a d, files d = files (disk s) -> P a -> wp_or_panic (f a) (set_disk d s) Q panics) ->
  (forall e d, files d = files (disk s) -> Q (Err e) (set_disk d s)) ->
  wp_or_panic (bind (on_disk m) f) s Q panics.
Proof.
  unfold reads, wp_or_panic, bind, on_disk, zoom. intros Hm Hf He.
  destruct (m (disk s)) as [[[a|e] d]| |]; [destruct Hm; by apply Hf|by apply He, Hm|done..].
Qed.
Lemma reads_canonicalize env path s panics :
  reads (canonicalize env path) s
    (fun p => p = Path.join_path (current_dir env) path /\ is_Some (files s !! p)) panics.
Proof.
  apply wp_may_panic. unfold canonicalize. apply wp_call; [|done]. intros s' Hs _.
  apply wp_file_at; rewrite Hs; [|by intros _]. intros file Hf. wp_step. split; [done|split; [done|]]. by exists file.
Qed.

Section deploying.
Context `{T : Toml, L : NodeLibraries, HC : ConstantTimeEqLaws}.
Variable env : Environment.

(** Where the unit of a configuration is kept, and the file it is written to
    first. *)
Definition unit_path_of (configured unit_path : Path) : Prop :=
  exists directory, user_unit_directory env = Ok directory /\ unit_path = Path.join directory (unit_name configured).
Definition staged (unit_path : Path) : Path := Path.with_extension unit_path (str "service.tmp").
Definition touched (configured p : Path) : Prop :=
  exists unit_path, unit_path_of configured unit_path /\ (p = unit_path \/ p = staged unit_path).

(** What has to hold of the files before a unit is written, and the unit. *)
Definition deployable (m : gmap Path File) (configured program unit_path : Path) (unit : Str) : Prop :=
  exists c l, config_in (m !! configured) = Some c /\ loaded_from m c l /\ is_Some (m !! program) /\
    validate_unit_path configured = Ok tt /\ validate_unit_path program = Ok tt /\
    unit_path_of configured unit_path /\ unit = render_unit program configured (shutdown_timeout_secs (limits c)).
Definition installed (m : gmap Path File) (unit_path : Path) (unit : Str) : Prop :=
  m !! unit_path = Some {| contents := encode unit; permissions := 384 |}.

Lemma wp_write_unit directory name contents s (Q : result unit DeployError -> FileSystem -> Prop) :
  let path := Path.join directory name in
  (forall s', installed (files s') path contents -> same_but (fun p => p = path \/ p = staged path) s s' -> Q (Ok tt) s') ->
  (forall s' e, same_but (fun p => p = path \/ p = staged path) s s' -> Q (Err e) s') ->
  wp (write_private_file path contents) s Q.
Proof.
  intros path Hok Herr. unfold write_private_file.
  assert (is_Some (Path.parent path)) as [parent Hp].
  { unfold path, Path.parent, Path.join. cbn [components absolute]. destruct (components directory ++ [name]) eqn:Hl; [|by eexists].
    by apply app_nil in Hl as [_ ?]. }
  rewrite Hp. cbn [ok_or]. wp_step. apply wp_bind, wp_map_err, wp_faulty_call; intros s1 Hs1 _; [|by apply Herr, same_but_files].
  fold (staged path). apply wp_replace_privately.
  - apply with_extension_ne; [by rewrite Hp|]. by apply (bool_decide_unpack (46 ∈ str "service.tmp")).
  - intros s2 _ Hf Hs. apply Hok; [exact Hf|]. eapply same_but_trans; [by apply same_but_files|exact Hs].
  - intros s2 e _ _ Hs. apply Herr. eapply same_but_trans; [by apply same_but_files|].
    eapply same_but_mono; [|exact Hs]. auto.
Qed.

(** The last part of [deploy]: the unit is in place, and [systemctl] is asked. *)
Definition start_unit (name : Str) : M Host DeployError Deployed :=
  let! active := attempt (systemctl [str "is-active"; str "--quiet"; name]) in
  systemctl [str "daemon-reload"] ;!
  systemctl [str "enable"; name] ;!
  (if is_ok active then systemctl [str "restart"; name] else systemctl [str "start"; name]) ;!
  ret (Started name).
Definition start_calls (name verb : Str) : list (list Str) :=
  [[str "is-active"; str "--quiet"; name]; [str "daemon-reload"]; [str "enable"; name]; [verb; name]].
Lemma wp_start_unit name s (Q : result Deployed DeployError -> Host -> Prop) :
  (forall s' verb, disk s' = disk s -> verb = str "restart" \/ verb = str "start" ->
     asked s' = asked s ++ start_calls name verb -> Q (Ok (Started name)) s') ->
  (forall s' e, disk s' = disk s -> Q (Err e) s') ->
  wp (start_unit name) s Q.
Proof.
  intros Hok Herr. unfold start_unit.
  assert (forall (active : result unit DeployError) s3, disk s3 = disk s ->
    asked s3 = asked s ++ take 3 (start_calls name []) ->
    wp ((if is_ok active then systemctl [str "restart"; name] else systemctl [str "start"; name]) ;! ret (Started name)) s3 Q) as Hlast.
  { intros active s3 Hd3 Ha3. apply wp_bind. assert (exists verb, (verb = str "restart" \/ verb = str "start") /\
      (if is_ok active then systemctl [str "restart"; name] else systemctl [str "start"; name]) = systemctl [verb; name])
      as (verb & Hverb & ->) by (destruct (is_ok active); eauto).
    apply wp_systemctl; intros s4; [intros Hd Ha; wp_step|intros e Hd _; apply Herr; congruence].
    apply (Hok s4 verb); [congruence|done|]. rewrite Ha, Ha3, <- app_assoc. done. }
  assert (forall (active : result unit DeployError) s1, disk s1 = disk s -> asked s1 = asked s ++ [[str "is-active"; str "--quiet"; name]] ->
    wp (systemctl [str "daemon-reload"] ;! systemctl [str "enable"; name] ;!
        (if is_ok active then systemctl [str "restart"; name] else systemctl [str "start"; name]) ;! ret (Started name)) s1 Q) as Hrest.
  { intros active s1 Hd1 Ha1. apply wp_bind, wp_systemctl; intros s2; [intros Hd2 Ha2|intros e ? _; apply Herr; congruence].
    apply wp_bind, wp_systemctl; intros s3; [intros Hd3 Ha3|intros e ? _; apply Herr; congruence].
    apply Hlast; [congruence|]. rewrite Ha3, Ha2, Ha1, <- !app_assoc. done. }
  apply wp_bind, wp_attempt, wp_systemctl; intros s1; intros; by apply Hrest.
Qed.

(** What [deploy] leaves. *)
Definition deployed (configured program : Path) (dry_run : bool) (s : Host) (r : result Deployed DeployError) (s' : Host) : Prop :=
  let m := files (disk s) in
  same_but (touched configured) (disk s) (disk s') /\
  match r with
  | Ok (Printed unit_path unit) =>
    dry_run = true /\ files (disk s') = m /\ asked s' = asked s /\ deployable m configured program unit_path unit
  | Ok (Started name) =>
    dry_run = false /\ exists unit_path unit verb, deployable m configured program unit_path unit /\
      installed (files (disk s')) unit_path unit /\ name = unit_name configured /\
      (verb = str "restart" \/ verb = str "start") /\ asked s' = asked s ++ start_calls name verb
  | Err _ =>
    asked s' = asked s \/
    exists unit_path unit, deployable m configured program unit_path unit /\ installed (files (disk s')) unit_path unit
  end.
Lemma deployed_nothing configured program dry_run s e s' :
  files (disk s') = files (disk s) -> asked s' = asked s -> deployed configured program dry_run s (Err e) s'.
Proof. intros Hs Ha. split; [by apply same_but_files|by left]. Qed.

(** Writing the unit and starting it. *)
Lemma wp_install configured program directory contents s s1 :
  let unit_path := Path.join directory (unit_name configured) in
  user_unit_directory env = Ok directory -> deployable (files (disk s)) configured program unit_path contents ->
  files (disk s1) = files (disk s) -> asked s1 = asked s ->
  wp (on_disk (write_private_file unit_path contents) ;! start_unit (unit_name configured)) s1 (deployed configured program false s).
Proof.
  intros unit_path Hdir Hdep Hs1 Ha1.
  assert (forall d, same_but (fun p => p = unit_path \/ p = staged unit_path) (disk s1) d -> same_but (touched configured) (disk s) d) as Htouched.
  { intros d Hd. eapply same_but_trans; [by apply (same_but_files _ _ (disk s1))|]. eapply same_but_mono; [|exact Hd].
    intros p Hp. exists unit_path. split; [by exists directory|done]. }
  apply wp_bind, wp_on_disk, wp_write_unit; cbn [disk set_disk].
  2: { intros d e Hd. split; [by apply Htouched|by left]. }
  intros d5 Hinst Hd5. apply wp_start_unit; cbn [disk set_disk asked]; rewrite ?Ha1.
  - intros s' verb Hd Hverb Ha. split; [rewrite Hd; by apply Htouched|]. split; [done|].
    exists unit_path, contents, verb. split; [done|split; [by rewrite Hd|done]].
  - intros s' e Hd. split; [rewrite Hd; by apply Htouched|]. right. exists unit_path, contents. split; [done|by rewrite Hd].
Qed.

(** C29. A service is deployed only for a configuration that loads: nothing but
    its unit is written, [systemctl] is asked only once that unit is there,
    complete and private to its owner, in the order that makes it start, and a
    dry run changes and asks nothing.  Nothing panics but reading the secrets. *)
Theorem deploy_spec config_path binary dry_run s :
  let configured := Path.join_path (current_dir env) config_path in
  let program := Path.join_path (current_dir env) (binary_of env binary) in
  wp_or_panic (deploy env config_path binary dry_run) s (deployed configured program dry_run s)
    (secrets_panic (files (disk s)) configured).
Proof.
  intros configured program. unfold deploy.
  eapply wpp_bind_reads; [apply only_reads_map_err, reads_canonicalize| |intros e d Hd; by apply deployed_nothing].
  intros configured' d1 Hd1 [-> _]. fold configured.
  eapply wpp_bind_reads; [apply only_reads_map_err, only_reads_config| |intros e d Hd; apply deployed_nothing; cbn in *; congruence].
  intros c d2 Hd2 Hc. cbn [disk set_disk] in Hd2, Hc. rewrite Hd1 in Hc, Hd2.
  eapply wpp_bind_reads; [apply only_reads_map_err| |intros e d Hd; apply deployed_nothing; cbn in *; congruence].
  { cbn [disk set_disk]. rewrite <- Hd2. apply only_reads_load. }
  intros l d3 Hd3 (c' & Hc' & Hfrom). cbn [disk set_disk] in Hd3, Hc', Hfrom. rewrite Hd2 in Hd3, Hc', Hfrom.
  assert (c' = c) as -> by congruence.
  eapply wpp_bind_reads; [apply only_reads_map_err, reads_canonicalize| |intros e d Hd; apply deployed_nothing; cbn in *; congruence].
  intros program' d4 Hd4 [-> Hprogram]. fold program in Hprogram |- *. cbn [disk set_disk] in Hd4, Hprogram.
  rewrite Hd3 in Hd4, Hprogram.
  assert (forall e, deployed configured program dry_run s (Err e) (set_disk d4 (set_disk d3 (set_disk d2 (set_disk d1 s))))) as Hearly
    by (intros e; by apply deployed_nothing).
  apply wpp_bind_lift_result; [intros e _; apply Hearly|intros [] Hvc].
  apply wpp_bind_lift_result; [intros e _; apply Hearly|intros [] Hvp].
  apply wpp_bind_lift_result; [intros e _; apply Hearly|intros directory Hdir].
  assert (deployable (files (disk s)) configured program (Path.join directory (unit_name configured))
    (render_unit program configured (shutdown_timeout_secs (limits c)))) as Hdep
    by (exists c, l; repeat (split; [done|]); split; [by exists directory|done]).
  destruct dry_run; [cbn; split; [by apply same_but_files|done]|].
  by apply wp_may_panic, wp_install.
Qed.
End deploying.

(** ** Removing *)
Section removing.
Context `{T : Toml, L : NodeLibraries, HC : ConstantTimeEqLaws}.
Variable env : Environment.

Definition disable_calls (name : Str) : list (list Str) := [[str "disable"; str "--now"; name]; [str "daemon-reload"]].

Lemma wp_canonicalize path s (Q : result Path IoError -> FileSystem -> Prop) :
  (forall s', files s' = files s -> is_Some (files s !! Path.join_path (current_dir env) path) ->
     Q (Ok (Path.join_path (current_dir env) path)) s') ->
  (forall s' e, files s' = files s -> Q (Err e) s') -> wp (canonicalize env path) s Q.
Proof.
  intros Hok Herr. unfold canonicalize. apply wp_call; intros s' Hs _; [|by apply Herr].
  apply wp_file_at; rewrite Hs; [|intros _; by apply Herr]. intros file Hf. wp_step. apply Hok; [done|by exists file].
Qed.

(** Afterwards the file is not there, or the call failed and nothing changed. *)
Lemma wp_remove_if_present path s (Q : result unit DeployError -> FileSystem -> Prop) :
  (forall s', files s' = delete path (files s) -> Q (Ok tt) s') ->
  (forall s' e, files s' = files s -> Q (Err e) s') -> wp (remove_if_present path) s Q.
Proof.
  intros Hok Herr. unfold remove_if_present. apply wp_bind, wp_attempt, wp_remove_file.
  - intros s' _ _ Hs. wp_step. by apply Hok.
  - intros s' e _ Hs Hn. destruct e; wp_step; [|by apply Herr..]. apply Hok.
    rewrite Hs. symmetry. apply delete_id. by apply Hn.
Qed.

(** [undeploy] removes the unit only after the service was stopped. *)
Lemma wp_undeploy configured s (Q : result bool DeployError -> Host -> Prop) :
  absolute configured = true ->
  (forall s' unit_path, unit_path_of env configured unit_path -> is_Some (files (disk s) !! unit_path) ->
     files (disk s') = delete unit_path (files (disk s)) ->
     asked s' = asked s ++ disable_calls (unit_name configured) -> Q (Ok true) s') ->
  (forall s' unit_path, unit_path_of env configured unit_path -> files (disk s') = files (disk s) -> asked s' = asked s ->
     Q (Ok false) s') ->
  (forall s' e, same_but (fun p => unit_path_of env configured p /\ [str "disable"; str "--now"; unit_name configured] ∈ asked s')
     (disk s) (disk s') -> Q (Err e) s') ->
  wp (undeploy env configured) s Q.
Proof.
  intros Habs Htrue Hfalse Herr. unfold undeploy.
  assert (forall s' e, files (disk s') = files (disk s) -> Q (Err e) s') as Hsame by (intros; by apply Herr, same_but_files).
  assert (Path.join_path (current_dir env) configured = configured) as Hid by (unfold Path.join_path; by rewrite Habs).
  apply wp_bind, wp_on_disk, wp_map_err, wp_canonicalize; [rewrite Hid; intros d1 Hd1 _|intros; by apply Hsame].
  destruct (user_unit_directory env) as [directory|e] eqn:Hdir; cbn [lift_result]; wp_step; [|by apply Hsame].
  set (unit_path := Path.join directory (unit_name configured)).
  assert (unit_path_of env configured unit_path) as Hunit by (by exists directory).
  apply wp_bind, wp_on_disk, wp_exists; cbn [disk set_disk].
  2: { intros d2 Hd2 _. cbn [negb]. apply wp_ret, (Hfalse _ unit_path); [done|cbn; congruence|done]. }
  intros d2 Hd2 _ Hpresent. cbn [negb]. rewrite Hd1 in Hd2, Hpresent.
  apply wp_bind, wp_systemctl; intros s3; [intros Hd3 Ha3|intros e Hd3 _; apply Hsame; by rewrite Hd3].
  cbn [disk set_disk asked] in Hd3, Ha3.
  apply wp_bind, wp_on_disk, wp_map_err, wp_remove_file; rewrite Hd3.
  2: { intros d4 e _ Hd4 _. apply Hsame. cbn. congruence. }
  intros d4 _ _ Hd4. rewrite Hd2 in Hd4.
  apply wp_bind, wp_systemctl; intros s5; cbn [disk set_disk asked]; [intros Hd5 Ha5; wp_step|intros e Hd5 Ha5].
  - apply (Htrue _ unit_path); [done|done|by rewrite Hd5|]. rewrite Ha5, Ha3, <- app_assoc. done.
  - apply Herr. apply (same_but_delete _ unit_path); [|right; by rewrite Hd5]. split; [done|].
    rewrite Ha5, Ha3, !elem_of_app. left. right. left.
Qed.

(** What a removal that succeeds leaves, and what one that fails may have
    removed. *)
Definition removed (configured : Path) (purge : bool) (s : Host) (report : Report) (s' : Host) : Prop :=
  let m := files (disk s) in
  exists c unit_path, config_in (m !! configured) = Some c /\ unit_path_of env configured unit_path /\
    configuration_removed report = purge /\
    (service_removed report = true -> is_Some (m !! unit_path)) /\
    asked s' = asked s ++ (if service_removed report then disable_calls (unit_name configured) else []) /\
    files (disk s') =
      (if purge then delete configured else Datatypes.id)
        (delete (socket (admin c)) (if service_removed report then delete unit_path m else m)).
Definition may_be_removed (configured : Path) (s s' : Host) (p : Path) : Prop :=
  (exists c, config_in (files (disk s) !! configured) = Some c /\ p = socket (admin c)) \/
  (unit_path_of env configured p /\ [str "disable"; str "--now"; unit_name configured] ∈ asked s').

Lemma wp_remove_files configured purge s c gone unit_path s1 (Q : result Report DeployError -> Host -> Prop) :
  config_in (files (disk s) !! configured) = Some c -> unit_path_of env configured unit_path ->
  (gone = true -> is_Some (files (disk s) !! unit_path)) ->
  files (disk s1) = (if gone then delete unit_path (files (disk s)) else files (disk s)) ->
  asked s1 = asked s ++ (if gone then disable_calls (unit_name configured) else []) ->
  (forall report s', removed configured purge s report s' -> Q (Ok report) s') ->
  (forall e s', same_but (may_be_removed configured s s') (disk s) (disk s') -> Q (Err e) s') ->
  wp (on_disk (remove_if_present (socket (admin c))) ;!
      let! configuration_removed := (if purge then on_disk (remove_if_present configured) ;! ret true else ret false) in
      ret {| service_removed := gone; configuration_removed := configuration_removed |}) s1 Q.
Proof.
  intros Hc Hunit Hpresent Hs1 Ha1 Hok Herr.
  assert (forall s2, asked s2 = asked s1 -> files (disk s2) = files (disk s1) \/
    files (disk s2) = delete (socket (admin c)) (files (disk s1)) ->
    same_but (may_be_removed configured s s2) (disk s) (disk s2)) as Hsame.
  { intros s2 Ha2 Hs2. eapply (same_but_trans _ _ (disk s1)).
    - destruct gone; [|by apply same_but_files]. apply (same_but_delete _ unit_path); [|by right]. right. split; [done|].
      rewrite Ha2, Ha1. apply elem_of_app. right. left.
    - eapply same_but_delete; [|exact Hs2]. left. by exists c. }
  apply wp_bind, wp_on_disk, wp_remove_if_present; [intros d2 Hd2|intros d2 e Hd2; apply Herr, Hsame; auto].
  apply wp_bind. destruct purge.
  - apply wp_bind, wp_on_disk, wp_remove_if_present; cbn [disk set_disk]; [intros d3 Hd3|intros d3 e Hd3; apply Herr, Hsame; [done|]].
    + do 2 wp_step. apply Hok. exists c, unit_path. cbn. by rewrite Hd3, Hd2, Hs1.
    + right. cbn. by rewrite Hd3.
  - do 2 wp_step. apply Hok. exists c, unit_path. cbn. by rewrite Hd2, Hs1.
Qed.

(** Removing a deployment removes its unit, the administration socket and,
    when it is asked to, the configuration, and nothing else: credentials,
    certificates and the program stay.  The unit goes only after [systemctl] was
    asked to stop the service, the configuration last of all, so a removal that
    fails leaves the configuration, and can be repeated. *)
Theorem uninstall_spec config_path purge s :
  absolute (current_dir env) = true ->
  let configured := Path.join_path (current_dir env) config_path in
  wp (uninstall env config_path purge) s (fun r s' =>
    match r with
    | Ok report => removed configured purge s report s'
    | Err _ => same_but (may_be_removed configured s s') (disk s) (disk s')
    end).
Proof.
  intros Hcwd configured. unfold uninstall.
  assert (absolute configured = true) as Habs
    by (unfold configured, Path.join_path; destruct (absolute config_path) eqn:?; [done|exact Hcwd]).
  apply wp_bind, wp_on_disk, wp_map_err, wp_canonicalize; [intros d1 Hd1 _|intros d e Hd; by apply same_but_files].
  fold configured. apply wp_bind, wp_on_disk, wp_map_err, wp_read_config; cbn [disk set_disk]; rewrite Hd1.
  2: { intros d e Hd _. apply same_but_files. cbn. congruence. }
  intros d2 c Hd2 _ Hc. apply wp_bind, wp_undeploy; cbn [disk set_disk asked]; [done|..].
  - intros s3 unit_path Hunit Hpresent Hs3 Ha3. rewrite Hd2 in Hpresent, Hs3.
    apply (wp_remove_files configured purge s c true unit_path); auto.
  - intros s3 unit_path Hunit Hs3 Ha3. rewrite Hd2 in Hs3.
    apply (wp_remove_files configured purge s c false unit_path); try done. cbn. by rewrite app_nil_r.
  - intros s3 e Hs3. eapply same_but_trans; [by apply (same_but_files _ (disk s) d2)|].
    eapply same_but_mono; [|exact Hs3]. intros p Hp. by right.
Qed.
End removing.
