(* ===== verification/NodeCommands.v ===== *)
(** The command line of the node ([apps/velum-node/src/cli.rs]): which command a
    list of arguments stands for, the options of each, and the commands that
    prepare, check and remove a configuration.  What is printed is left out, but
    for questions the operator answers. *)
From S2P Require Import Prelude Str Utf8 IpText Admission NodeFiles NodeConfig NodeEnrollment NodeAcme NodeService NodeDeployment.

Inductive CliError :=
| UnknownCommand
| UnknownOption (flag : Str)
| RequiresValue (flag : Str)
| UnknownFormat (value : Str)
| AcmeRequires (flag : Str)
| ExpectedConfigPath
| FormatOnlyForStatus
| RequiresYes
| PromptFailed
| ConfigurationExists (path : Path)
| InConfiguration (e : NodeConfig.Error)
| InDeployment (e : DeployError)
| RequestFailed (e : Str).

(** ** Options

    The four loops over [arguments] differ in what a flag does: it takes the
    argument after it, stands for itself, or is unknown. *)
Inductive Flag (O : Type) :=
| TakesValue (set : Str -> O -> result O CliError)
| Switch (set : O -> O)
| Unknown.
Arguments TakesValue {O} set.
Arguments Switch {O} set.
Arguments Unknown {O}.

Section options.
Context {O : Type} (flag_of : Str -> Flag O).
Fixpoint options_loop (arguments : list Str) (o : O) : result O CliError :=
  match arguments with
  | [] => Ok o
  | flag :: rest =>
    match flag_of flag with
    | TakesValue set =>
      match rest with
      | [] => Err (RequiresValue flag)
      | value :: rest => let? o := set value o in options_loop rest o
      end
    | Switch set => options_loop rest (set o)
    | Unknown => Err (UnknownOption flag)
    end
  end.
End options.

Record DeployOptions := { deploy_config : Path; deploy_binary : option Path; deploy_dry_run : bool }.
Definition deploy_flag (flag : Str) : Flag DeployOptions :=
  if bool_decide (flag = str "--config") then
    TakesValue (fun v o => Ok {| deploy_config := Path.from v; deploy_binary := deploy_binary o; deploy_dry_run := deploy_dry_run o |})
  else if bool_decide (flag = str "--binary") then
    TakesValue (fun v o => Ok {| deploy_config := deploy_config o; deploy_binary := Some (Path.from v); deploy_dry_run := deploy_dry_run o |})
  else if bool_decide (flag = str "--dry-run") then
    Switch (fun o => {| deploy_config := deploy_config o; deploy_binary := deploy_binary o; deploy_dry_run := true |})
  else Unknown.
Definition deploy_options (default : Path) (arguments : list Str) : result DeployOptions CliError :=
  options_loop deploy_flag arguments {| deploy_config := default; deploy_binary := None; deploy_dry_run := false |}.

Record UninstallOptions := { uninstall_config : Path; uninstall_purge : bool; uninstall_confirmed : bool }.
Definition uninstall_flag (flag : Str) : Flag UninstallOptions :=
  if bool_decide (flag = str "--config") then
    TakesValue (fun v o => Ok {| uninstall_config := Path.from v; uninstall_purge := uninstall_purge o; uninstall_confirmed := uninstall_confirmed o |})
  else if bool_decide (flag = str "--purge") then
    Switch (fun o => {| uninstall_config := uninstall_config o; uninstall_purge := true; uninstall_confirmed := uninstall_confirmed o |})
  else if bool_decide (flag = str "--yes") then
    Switch (fun o => {| uninstall_config := uninstall_config o; uninstall_purge := uninstall_purge o; uninstall_confirmed := true |})
  else Unknown.
Definition uninstall_options (default : Path) (arguments : list Str) : result UninstallOptions CliError :=
  options_loop uninstall_flag arguments {| uninstall_config := default; uninstall_purge := false; uninstall_confirmed := false |}.

(** The variables of the loop of [acme_configuration]. *)
Record AcmeArguments := {
  argument_config : Path;
  argument_email : option Str;
  argument_domains : list Str;
  argument_dns : option Str;
  argument_staging : bool
}.
Record AcmeConfiguration := {
  acme_config : Path;
  acme_email : Str;
  acme_domains : list Str;
  acme_dns_provider : Str;
  acme_staging : bool
}.
Definition acme_flag (flag : Str) : Flag AcmeArguments :=
  if bool_decide (flag = str "--email") then
    TakesValue (fun v o => Ok {| argument_config := argument_config o; argument_email := Some v; argument_domains := argument_domains o;
                                 argument_dns := argument_dns o; argument_staging := argument_staging o |})
  else if bool_decide (flag = str "--domain") then
    TakesValue (fun v o => Ok {| argument_config := argument_config o; argument_email := argument_email o;
                                 argument_domains := argument_domains o ++ [v]; argument_dns := argument_dns o;
                                 argument_staging := argument_staging o |})
  else if bool_decide (flag = str "--dns") then
    TakesValue (fun v o => Ok {| argument_config := argument_config o; argument_email := argument_email o;
                                 argument_domains := argument_domains o; argument_dns := Some v; argument_staging := argument_staging o |})
  else if bool_decide (flag = str "--config") then
    TakesValue (fun v o => Ok {| argument_config := Path.from v; argument_email := argument_email o;
                                 argument_domains := argument_domains o; argument_dns := argument_dns o;
                                 argument_staging := argument_staging o |})
  else if bool_decide (flag = str "--staging") then
    Switch (fun o => {| argument_config := argument_config o; argument_email := argument_email o; argument_domains := argument_domains o;
                        argument_dns := argument_dns o; argument_staging := true |})
  else Unknown.
Definition acme_configuration (default : Path) (arguments : list Str) : result AcmeConfiguration CliError :=
  let? o := options_loop acme_flag arguments
              {| argument_config := default; argument_email := None; argument_domains := []; argument_dns := None; argument_staging := false |} in
  match argument_email o, argument_dns o with
  | None, _ => Err (AcmeRequires (str "--email"))
  | _, None => Err (AcmeRequires (str "--dns"))
  | Some email, Some dns =>
    Ok {| acme_config := argument_config o; acme_email := email; acme_domains := argument_domains o; acme_dns_provider := dns;
          acme_staging := argument_staging o |}
  end.

Record ControlOptions := { control_config : Path; control_json : bool }.
Definition control_flag (flag : Str) : Flag ControlOptions :=
  if bool_decide (flag = str "--config") then
    TakesValue (fun v o => Ok {| control_config := Path.from v; control_json := control_json o |})
  else if bool_decide (flag = str "--format") then
    TakesValue (fun v o =>
      if bool_decide (v = str "text") then Ok {| control_config := control_config o; control_json := false |}
      else if bool_decide (v = str "json") then Ok {| control_config := control_config o; control_json := true |}
      else Err (UnknownFormat v))
  else Unknown.
Definition control_options (default : Path) (arguments : list Str) : result ControlOptions CliError :=
  options_loop control_flag arguments {| control_config := default; control_json := false |}.

Definition config_path (default : Path) (arguments : list Str) : result Path CliError :=
  match arguments with
  | [] => Ok default
  | [flag; path] => if bool_decide (flag = str "--config") then Ok (Path.from path) else Err ExpectedConfigPath
  | _ => Err ExpectedConfigPath
  end.

(** ** Which command it is *)
Inductive Invocation :=
| Interactive
| ShowUsage
| ShowVersion
| Initialize (path : Path)
| Setup (path : Path)
| Serve (path : Path)
| Deploy (o : DeployOptions)
| Uninstall (o : UninstallOptions)
| Validate (path : Path)
| VerifyCertificate (path : Path)
| Client (action : Str) (arguments : list Str)
| ConfigureAcme (c : AcmeConfiguration)
| ObtainCertificate (path : Path)
| RenewCertificate (path : Path)
| ControlService (command : Str) (o : ControlOptions).

(** The [match] of [run]; [deploy] and [uninstall] read their options
    themselves. *)
Definition parse_command (default : Path) (command : Str) (rest : list Str) : result Invocation CliError :=
  let named word := bool_decide (command = str word) in
  if named "init" then let? path := config_path default rest in Ok (Initialize path)
  else if named "setup" then let? path := config_path default rest in Ok (Setup path)
  else if named "serve" then let? path := config_path default rest in Ok (Serve path)
  else if named "deploy" then let? o := deploy_options default rest in Ok (Deploy o)
  else if named "uninstall" then let? o := uninstall_options default rest in Ok (Uninstall o)
  else
    let control := if named "status" || named "drain" || named "shutdown"
                   then let? o := control_options default rest in Ok (ControlService command o) else Err UnknownCommand in
    match rest with
    | [] => control
    | action :: rest =>
      let does word := bool_decide (action = str word) in
      if named "config" && does "validate" then let? path := config_path default rest in Ok (Validate path)
      else if named "cert" && does "verify" then let? path := config_path default rest in Ok (VerifyCertificate path)
      else if named "client" then Ok (Client action rest)
      else if named "acme" && does "configure" then let? c := acme_configuration default rest in Ok (ConfigureAcme c)
      else if named "acme" && does "obtain" then let? path := config_path default rest in Ok (ObtainCertificate path)
      else if named "acme" && does "renew" then let? path := config_path default rest in Ok (RenewCertificate path)
      else control
    end.
Definition parse_arguments (default : Path) (arguments : list Str) : result Invocation CliError :=
  match arguments with
  | [] => Ok Interactive
  | command :: rest =>
    if is_empty rest && (bool_decide (command = str "help") || bool_decide (command = str "--help")) then Ok ShowUsage
    else if is_empty rest && (bool_decide (command = str "--version") || bool_decide (command = str "version")) then Ok ShowVersion
    else if existsb (fun argument => bool_decide (argument = str "--help")) arguments then Ok ShowUsage
    else parse_command default command rest
  end.

(** ** What the commands do *)
Section commands.
Context `{Toml, NodeLibraries, ConstantTimeEq}.
Variable env : NodeDeployment.Environment.

Definition set_bind (bind : Str) (c : Config) : Config :=
  {| version := version c;
     listener := {| listener_bind := bind; certificate := certificate (listener c); private_key := private_key (listener c) |};
     admin := admin c; credentials := credentials c; allowed_targets := allowed_targets c; limits := limits c;
     cover_service := cover_service c; acme := acme c |}.
(** [initialize]; the file's absence is what [exists] says. *)
Definition initialize (admin_socket_for : Path -> Path) (probes : list Probe) (path : Path) : M FileSystem CliError unit :=
  let! present := fs.exists_ path in
  reject_if present (ConfigurationExists path) ;!
  let configuration := NodeConfig.example admin_socket_for path in
  let! bind := lift_result InConfiguration (random_listener_bind probes) in
  map_err InConfiguration (write path (set_bind bind configuration)).

(** [validate] *)
Definition validate_command (path : Path) : M FileSystem CliError LoadedConfig := map_err InConfiguration (load path).

(** [control]: the service behind a socket answers a request. *)
Definition control (request : Path -> Str -> result Str Str) (command : Str) (options : ControlOptions) : M FileSystem CliError Str :=
  reject_if (control_json options && negb (bool_decide (command = str "status"))) FormatOnlyForStatus ;!
  let! config := map_err InConfiguration (read (control_config options)) in
  lift_result RequestFailed
    (request (socket (admin config)) (if control_json options then str "status json" else command)).

(** [uninstall]: [terminal] is whether an operator can be asked, [answer] what
    they then type, without the white space around it. *)
Definition uninstall_command (terminal : bool) (answer : option Str) (o : UninstallOptions) : M Host CliError (option Report) :=
  let! confirmed :=
    (if uninstall_confirmed o then ret true
     else
       reject_if (negb terminal) RequiresYes ;!
       match answer with
       | None => throw PromptFailed
       | Some answer => ret (bool_decide (answer = str "yes"))
       end) in
  if negb confirmed then ret None
  else
    let! report := map_err InDeployment (uninstall env (uninstall_config o) (uninstall_purge o)) in
    ret (Some report).
End commands.

(** ** Options say what they say *)

(** An option as it stands in the arguments. *)
Inductive Given := GivenValue (flag value : Str) | GivenSwitch (flag : Str).
Definition words (g : Given) : list Str := match g with GivenValue flag value => [flag; value] | GivenSwitch flag => [flag] end.

Section grammar.
Context {O : Type} (flag_of : Str -> Flag O).
Definition means (g : Given) (o : O) : result O CliError :=
  match g with
  | GivenValue flag value => match flag_of flag with TakesValue set => set value o | _ => Err (UnknownOption flag) end
  | GivenSwitch flag => match flag_of flag with Switch set => Ok (set o) | _ => Err (UnknownOption flag) end
  end.
Fixpoint all_mean (l : list Given) (o : O) : result O CliError :=
  match l with [] => Ok o | g :: l => let? o := means g o in all_mean l o end.

(** The loop accepts exactly the arguments that are such options one after the
    other, and does what they mean in their order. *)
Lemma options_loop_exact arguments o o' :
  options_loop flag_of arguments o = Ok o' <->
  exists l, arguments = l ≫= words /\ all_mean l o = Ok o'.
Proof.
  split.
  - remember (length arguments) as n eqn:Hn. assert (length arguments <= n)%nat as Hle by lia. clear Hn.
    revert arguments o Hle. induction n as [|n IH]; intros [|flag rest] o Hle Hrun; cbn in Hle; try lia;
      try (by exists []; apply Ok_inj in Hrun as ->).
    cbn [options_loop] in Hrun. destruct (flag_of flag) as [set|set|] eqn:Hf; [|..|done].
    + destruct rest as [|value rest]; [done|]. destruct (set value o) as [o1|] eqn:Ho; [|done]. cbn [and_then] in Hrun.
      destruct (IH rest o1) as (l & -> & Hl); [cbn in Hle; lia|done|]. exists (GivenValue flag value :: l). split; [done|].
      cbn. by rewrite Hf, Ho.
    + destruct (IH rest (set o)) as (l & -> & Hl); [lia|done|]. exists (GivenSwitch flag :: l). split; [done|]. cbn. by rewrite Hf.
  - intros (l & -> & Hl). revert o Hl. induction l as [|g l IH]; intros o Hl; [done|]. cbn [all_mean] in Hl.
    destruct (means g o) as [o1|] eqn:Hg; [|done]. cbn [and_then] in Hl.
    destruct g as [flag value|flag]; cbn [mbind list_bind words app options_loop means] in *;
      destruct (flag_of flag) as [set|set|]; try done.
    + rewrite Hg. cbn [and_then]. by apply IH.
    + apply Ok_inj in Hg as ->. by apply IH.
Qed.
End grammar.

(** ** The options of each command, by their meaning *)

(** The values given for a flag, in their order; whether a switch is given. *)
Definition value_of (flag : Str) (g : Given) : option Str :=
  match g with GivenValue flag' value => if bool_decide (flag' = flag) then Some value else None | GivenSwitch _ => None end.
Definition values (flag : Str) (l : list Given) : list Str := omap (value_of flag) l.
Definition switched (flag : Str) (l : list Given) : bool :=
  existsb (fun g => match g with GivenSwitch flag' => bool_decide (flag' = flag) | GivenValue _ _ => false end) l.
(** The last value given, or what there was before. *)
Definition latest {A} (before : A) (l : list A) : A := default before (last l).
Lemma latest_cons {A} (before a : A) l : latest before (a :: l) = latest a l.
Proof. unfold latest. destruct l as [|b l]; [done|]. cbn. by destruct (last (b :: l)) eqn:Hl; [|apply last_None in Hl]. Qed.

(** Which flags a command knows. *)
Definition known_options (with_value without : list Str) (g : Given) : Prop :=
  match g with GivenValue flag _ => flag ∈ with_value | GivenSwitch flag => flag ∈ without end.

Definition acme_known : Given -> Prop :=
  known_options [str "--email"; str "--domain"; str "--dns"; str "--config"] [str "--staging"].
Definition acme_arguments (l : list Given) (o : AcmeArguments) : AcmeArguments :=
  {| argument_config := latest (argument_config o) (Path.from <$> values (str "--config") l);
     argument_email := latest (argument_email o) (Some <$> values (str "--email") l);
     argument_domains := argument_domains o ++ values (str "--domain") l;
     argument_dns := latest (argument_dns o) (Some <$> values (str "--dns") l);
     argument_staging := argument_staging o || switched (str "--staging") l |}.
Lemma acme_means g o o' :
  means acme_flag g o = Ok o' <-> acme_known g /\ o' = acme_arguments [g] o.
Proof.
  destruct o as [config email domains dns staging]. destruct g as [flag value|flag]; unfold acme_known; cbn [means known_options].
  - unfold acme_flag. rewrite !elem_of_cons, elem_of_nil.
    repeat (case_bool_decide; [subst flag; unfold acme_arguments, values, latest, switched; cbn;
      rewrite ?app_nil_r, ?orb_false_r; split; [intros <-%Ok_inj; split; [tauto|done]|by intros [_ ->]]|]).
    case_bool_decide; split; try done; intros [Hin _]; naive_solver.
  - unfold acme_flag. rewrite list_elem_of_singleton.
    repeat (case_bool_decide; [subst flag; split; [done|by intros [Heq _]]|]).
    case_bool_decide as Hs; [|split; [done|by intros [? _]]]. subst flag. unfold acme_arguments, values, latest, switched. cbn.
    rewrite ?app_nil_r, orb_true_r. split; [intros <-%Ok_inj; done|by intros [_ ->]].
Qed.

(** From one option to all of them. *)
Lemma all_mean_known {O} (flag_of : Str -> Flag O) (known : Given -> Prop) (update : list Given -> O -> O) :
  (forall g o o', means flag_of g o = Ok o' <-> known g /\ o' = update [g] o) ->
  (forall o, update [] o = o) -> (forall g l o, update (g :: l) o = update l (update [g] o)) ->
  forall l o o', all_mean flag_of l o = Ok o' <-> Forall known l /\ o' = update l o.
Proof.
  intros Hone Hnil Hcons l. induction l as [|g l IH]; intros o o'; cbn [all_mean].
  - rewrite Hnil. split; [intros <-%Ok_inj; split; [constructor|done]|by intros [_ ->]].
  - rewrite Forall_cons, Hcons. pose proof (Hone g o) as Hg. destruct (means flag_of g o) as [o1|e]; cbn [and_then].
    + destruct (proj1 (Hg o1) eq_refl) as [Hk ->]. rewrite IH. tauto.
    + split; [done|]. intros [[Hk _] _]. discriminate (proj2 (Hg _) (conj Hk eq_refl)).
Qed.
Lemma values_cons flag g l : values flag (g :: l) = values flag [g] ++ values flag l.
Proof. change (g :: l) with ([g] ++ l). apply omap_app. Qed.
Lemma latest_app {A} (before : A) l k : latest before (l ++ k) = latest (latest before l) k.
Proof. revert before. induction l as [|a l IH]; intros before; [done|]. cbn [app]. by rewrite !latest_cons, IH. Qed.
Lemma switched_cons flag g l : switched flag (g :: l) = switched flag [g] || switched flag l.
Proof. unfold switched. cbn. by rewrite orb_false_r. Qed.
Lemma acme_all l o o' : all_mean acme_flag l o = Ok o' <-> Forall acme_known l /\ o' = acme_arguments l o.
Proof.
  apply (all_mean_known _ acme_known acme_arguments acme_means).
  - intros []. unfold acme_arguments, latest. cbn. by rewrite app_nil_r, orb_false_r.
  - intros g k []. unfold acme_arguments. cbn [argument_config argument_email argument_domains argument_dns argument_staging].
    rewrite (values_cons (str "--config")), (values_cons (str "--email")), (values_cons (str "--domain")), (values_cons (str "--dns")),
      (switched_cons (str "--staging")), !fmap_app, !latest_app, !app_assoc, orb_assoc. done.
Qed.

Definition uninstall_known : Given -> Prop := known_options [str "--config"] [str "--purge"; str "--yes"].
Definition uninstall_arguments (l : list Given) (o : UninstallOptions) : UninstallOptions :=
  {| uninstall_config := latest (uninstall_config o) (Path.from <$> values (str "--config") l);
     uninstall_purge := uninstall_purge o || switched (str "--purge") l;
     uninstall_confirmed := uninstall_confirmed o || switched (str "--yes") l |}.
Lemma uninstall_means g o o' :
  means uninstall_flag g o = Ok o' <-> uninstall_known g /\ o' = uninstall_arguments [g] o.
Proof.
  destruct o as [config purge confirmed]. destruct g as [flag value|flag]; unfold uninstall_known, uninstall_flag; cbn [means known_options].
  - rewrite list_elem_of_singleton. case_bool_decide as Hf.
    + subst flag. unfold uninstall_arguments, values, latest, switched. cbn. rewrite !orb_false_r.
      split; [intros <-%Ok_inj; done|by intros [_ ->]].
    + repeat (case_bool_decide; [split; [done|by intros [? _]]|]). split; [done|by intros [? _]].
  - rewrite !elem_of_cons, elem_of_nil. case_bool_decide as Hf; [subst flag; split; [done|intros [[?|[?|[]]] _]; done]|].
    repeat (case_bool_decide; [subst flag; unfold uninstall_arguments, values, latest, switched; cbn;
      rewrite ?orb_false_r, ?orb_true_r; split; [intros <-%Ok_inj; split; [tauto|done]|by intros [_ ->]]|]).
    split; [done|]. intros [[?|[?|[]]] _]; done.
Qed.
Lemma uninstall_all l o o' : all_mean uninstall_flag l o = Ok o' <-> Forall uninstall_known l /\ o' = uninstall_arguments l o.
Proof.
  apply (all_mean_known _ uninstall_known uninstall_arguments uninstall_means).
  - intros []. unfold uninstall_arguments, latest. cbn. by rewrite !orb_false_r.
  - intros g k []. unfold uninstall_arguments. cbn [uninstall_config uninstall_purge uninstall_confirmed].
    rewrite (values_cons (str "--config")), (switched_cons (str "--purge")), (switched_cons (str "--yes")), fmap_app, latest_app, !orb_assoc.
    done.
Qed.

(** The loops over the arguments read exactly the option language they mean:
    arguments are accepted if and only if they are known options one after the
    other, in any order and as often as one likes, each with its value; the last
    value of an option counts, every domain in its order, and a switch counts
    wherever it stands.  ACME needs an address and a provider. *)
Theorem options_exact default arguments :
  (forall c, acme_configuration default arguments = Ok c <->
     exists l, arguments = l ≫= words /\ Forall acme_known l /\
       acme_config c = latest default (Path.from <$> values (str "--config") l) /\
       last (values (str "--email") l) = Some (acme_email c) /\
       acme_domains c = values (str "--domain") l /\
       last (values (str "--dns") l) = Some (acme_dns_provider c) /\
       acme_staging c = switched (str "--staging") l) /\
  (forall o, uninstall_options default arguments = Ok o <->
     exists l, arguments = l ≫= words /\ Forall uninstall_known l /\
       uninstall_config o = latest default (Path.from <$> values (str "--config") l) /\
       uninstall_purge o = switched (str "--purge") l /\ uninstall_confirmed o = switched (str "--yes") l).
Proof.
  assert (forall l : list Str, latest None (Some <$> l) = last l) as Hlast
    by (intros l; unfold latest; rewrite fmap_last; by destruct (last l)).
  split.
  - intros c. unfold acme_configuration. set (start := {| argument_config := _ |}).
    transitivity (exists l, arguments = l ≫= words /\ Forall acme_known l /\
      match argument_email (acme_arguments l start), argument_dns (acme_arguments l start) with
      | Some email, Some dns =>
        c = {| acme_config := argument_config (acme_arguments l start); acme_email := email;
               acme_domains := argument_domains (acme_arguments l start); acme_dns_provider := dns;
               acme_staging := argument_staging (acme_arguments l start) |}
      | _, _ => False
      end).
    + destruct (options_loop acme_flag arguments start) as [o|e] eqn:Hrun; cbn [and_then].
      * pose proof Hrun as (l & Hargs & Hl)%options_loop_exact. apply acme_all in Hl as [Hk ->]. split.
        -- intros Hc. exists l. split; [done|split; [done|]]. destruct (argument_email (acme_arguments l start)), (argument_dns (acme_arguments l start)); try done. by apply Ok_inj in Hc.
        -- intros (k & Hargs' & Hk' & Hc). assert (options_loop acme_flag arguments start = Ok (acme_arguments k start)) as Hrun'
             by (apply options_loop_exact; exists k; split; [done|by apply acme_all]).
           rewrite Hrun in Hrun'. apply Ok_inj in Hrun'. rewrite Hrun'. destruct (argument_email (acme_arguments k start)), (argument_dns (acme_arguments k start)); try done. by subst c.
      * split; [done|]. intros (k & Hargs' & Hk' & _). exfalso.
        assert (options_loop acme_flag arguments start = Ok (acme_arguments k start)) as Hrun'
          by (apply options_loop_exact; exists k; split; [done|by apply acme_all]). by rewrite Hrun in Hrun'.
    + unfold start, acme_arguments. cbn. destruct c as [config email domains dns staging]. cbn.
      split; intros (l & Hargs & Hk & Hc); exists l; (split; [done|split; [done|]]).
      * rewrite !Hlast in Hc. do 2 (case_match; [|done]). injection Hc as -> -> -> -> ->. done.
      * rewrite !Hlast. by destruct Hc as (-> & -> & -> & -> & ->).
  - intros o. unfold uninstall_options. rewrite options_loop_exact. setoid_rewrite uninstall_all. destruct o as [config purge confirmed]. cbn.
    split; intros (l & Hargs & Hk & Ho); exists l; (split; [done|split; [done|]]).
    + by injection Ho as -> -> ->.
    + destruct Ho as (-> & -> & ->). done.
Qed.
