(* ===== verification/NodeSetup.v ===== *)
(** The node's guided side: prompts ([apps/velum-node/src/terminal.rs]), the
    setup of a relay ([setup.rs], [public_ip.rs]), issuing and revoking by
    prompts ([enrollment.rs]) and the operator's console ([cli.rs]).  What the
    operator types is a list of lines; what is printed is left out. *)
From S2P Require Import Prelude Net Str Utf8 IpText Enrollment NodeFiles NodeConfig NodeEnrollment NodeAcme NodeDeployment NodeCommands.

Inductive SetupError :=
| CannotReadInput
| MustNotBeEmpty (label : Str)
| MustBeNumber (label : Str) (choices : N)
| MustBeYesOrNo (label : Str)
| MustBePositiveInteger (label : Str)
| SetupConfig (e : NodeConfig.Error)
| SetupAcme (e : AcmeError)
| SetupEnrollment (e : CommandError)
| SetupCli (e : CliError)
| CannotGenerateCredential
| CannotGenerateCertificate
| SameCertificateAndKey
| DestinationExists (certificate private_key : Path)
| SetupStageExists (path : Path)
| CertificateHasNoParent
| CannotCreateDirectory (path : Path)
| CannotWriteMaterial (path : Path)
| CannotSecureMaterial (path : Path)
| CannotActivateCertificate (path : Path)
| CannotActivateKey (path : Path)
| NoNamedClients
| EmptyChain
| CannotParseX509 (path : Path)
| ClockBeforeEpoch
| CertificateExpired.

(** The machine and what the operator still types; [None] is a line that cannot be
    asked for or read. *)
Record Console := { host : Host; keyboard : list (option Str) }.
Definition set_host (h : Host) (c : Console) : Console := {| host := h; keyboard := keyboard c |}.
Definition on_host {E A} (m : M Host E A) : M Console E A := zoom host set_host m.
Definition on_files {E A} (m : M FileSystem E A) : M Console E A := on_host (on_disk m).

(** ** Prompts *)
Definition set_keyboard (l : list (option Str)) (c : Console) : Console := {| host := host c; keyboard := l |}.
(** At the end of the input [read_line] reads nothing, and that is no error. *)
Definition prompt : M Console SetupError Str :=
  let! c := get in
  modify (set_keyboard (tail (keyboard c))) ;!
  match keyboard c with
  | [] => ret []
  | None :: _ => throw CannotReadInput
  | Some value :: _ => ret (trim value)
  end.
Definition prompt_default (default : Str) : M Console SetupError Str :=
  let! value := prompt in
  ret (if is_empty value then default else value).
Definition prompt_required (label : Str) (default : option Str) : M Console SetupError Str :=
  let! value := match default with Some default => prompt_default default | None => prompt end in
  if is_empty (trim value) then throw (MustNotBeEmpty label) else ret value.
Definition parse_choice (label : Str) (choice_count : N) (value : Str) : result N SetupError :=
  match parse_uint U64_MAX value with
  | Some selected =>
    if (1 <=? selected) && (selected <=? choice_count) then Ok (selected - 1) else Err (MustBeNumber label choice_count)
  | None => Err (MustBeNumber label choice_count)
  end.
Definition prompt_choice (label : Str) (choice_count : N) : M Console SetupError N :=
  let! value := prompt in
  lift_result Datatypes.id (parse_choice label choice_count value).
Definition parse_yes_no (label value : Str) : result bool SetupError :=
  if str_eqb value (str "yes") || str_eqb value (str "y") then Ok true
  else if str_eqb value (str "no") || str_eqb value (str "n") then Ok false
  else Err (MustBeYesOrNo label).
Definition prompt_yes_no (label : Str) (default : bool) : M Console SetupError bool :=
  let! value := prompt_default (if default then str "yes" else str "no") in
  lift_result Datatypes.id (parse_yes_no label value).
(** [prompt_positive_u64], and [prompt_positive_usize] on a machine of 64 bits. *)
Definition prompt_positive (label : Str) (default : N) : M Console SetupError N :=
  let! value := prompt_default (display_uint default) in
  match parse_uint U64_MAX value with
  | Some value => if 0 <? value then ret value else throw (MustBePositiveInteger label)
  | None => throw (MustBePositiveInteger label)
  end.

(** ** What is outside the program

    Random numbers, addresses and codes as the other commands take them;
    [self_signed] is [rcgen]'s certificate and key for a name, [public_address]
    the body of a successful answer of the address service, [clock] the seconds
    since the epoch. *)
Record Surroundings := {
  acme_environment : NodeAcme.Environment;
  issue_environment : IssueEnvironment;
  deploy_environment : NodeDeployment.Environment;
  socket_for : Path -> Path;
  port_probes : list Probe;
  drawn_secret : option (list byte);
  self_signed : Str -> option (list byte * list byte);
  public_address : option Str;
  reload_answer : Path -> gmap Path File -> bool;
  lego : Command -> FileSystem -> option bool * FileSystem;
  admin_request : Path -> Str -> result Str Str;
  clock : option Z
}.

(** [public_ip::detect] *)
Definition detect (environment : Surroundings) : option IpAddr :=
  match public_address environment ≫= (fun body => IpParser.parse (trim body)) with
  | Some address => if is_unspecified address then None else Some address
  | None => None
  end.

(** ** A certificate of one's own *)
Definition setup_stage (path : Path) : Path := Path.with_extension path (str "pem.setup-stage").
Definition write_staged_private_file (path : Path) (bytes : list byte) : M FileSystem SetupError unit :=
  let! present := fs.exists_ path in
  reject_if present (SetupStageExists path) ;!
  let! parent := ok_or (Path.parent path) CertificateHasNoParent in
  map_err (fun _ => CannotCreateDirectory parent) (fs.create_dir_all parent) ;!
  map_err (fun _ => CannotWriteMaterial path) (fs.write path bytes) ;!
  map_err (fun _ => CannotSecureMaterial path) (fs.set_permissions path 384).

Definition write_new_certificate_pair (certificate : Path) (certificate_pem : list byte) (private_key : Path)
  (private_key_pem : list byte) : M FileSystem SetupError unit :=
  reject_if (bool_decide (certificate = private_key)) SameCertificateAndKey ;!
  let! certificate_exists := fs.exists_ certificate in
  let! either_exists := (if certificate_exists then ret true else fs.exists_ private_key) in
  reject_if either_exists (DestinationExists certificate private_key) ;!
  let certificate_stage := setup_stage certificate in
  let private_key_stage := setup_stage private_key in
  write_staged_private_file certificate_stage certificate_pem ;!
  let! staged := attempt (write_staged_private_file private_key_stage private_key_pem) in
  match staged with
  | Err error => let! _ := attempt (fs.remove_file certificate_stage) in throw error
  | Ok _ =>
    let! renamed := attempt (fs.rename certificate_stage certificate) in
    match renamed with
    | Err _ =>
      let! _ := attempt (fs.remove_file certificate_stage) in
      let! _ := attempt (fs.remove_file private_key_stage) in
      throw (CannotActivateCertificate certificate)
    | Ok _ =>
      let! renamed := attempt (fs.rename private_key_stage private_key) in
      match renamed with
      | Err _ =>
        let! _ := attempt (fs.remove_file certificate) in
        let! _ := attempt (fs.remove_file private_key_stage) in
        throw (CannotActivateKey private_key)
      | Ok _ => ret tt
      end
    end
  end.

(** [path.is_file()] is [exists] here, where every path is of a file. *)
Definition ensure_credential (drawn : option (list byte)) (path : Path) : M FileSystem SetupError bool :=
  let! present := fs.exists_ path in
  if present then ret false
  else
    let! secret := ok_or drawn CannotGenerateCredential in
    map_err SetupConfig (write_secret path secret) ;!
    ret true.

(** ** Changing a configuration *)
Definition set_first_target (target : Str) (c : Config) : Config :=
  {| version := version c; listener := listener c; admin := admin c; credentials := credentials c;
     allowed_targets := target :: tail (allowed_targets c); limits := limits c; cover_service := cover_service c; acme := acme c |}.
Definition set_cover (cover : option CoverConfig) (c : Config) : Config :=
  {| version := version c; listener := listener c; admin := admin c; credentials := credentials c;
     allowed_targets := allowed_targets c; limits := limits c; cover_service := cover; acme := acme c |}.
Definition set_certificate (certificate private_key : Path) (c : Config) : Config :=
  {| version := version c;
     listener := {| listener_bind := listener_bind (listener c); certificate := certificate; private_key := private_key |};
     admin := admin c; credentials := credentials c;
     allowed_targets := allowed_targets c; limits := limits c; cover_service := cover_service c; acme := acme c |}.
Definition without_acme (c : Config) : Config :=
  {| version := version c; listener := listener c; admin := admin c; credentials := credentials c;
     allowed_targets := allowed_targets c; limits := limits c; cover_service := cover_service c; acme := None |}.

Definition configure_cover_service (config : Config) : M Console SetupError Config :=
  let existing := cover_service config in
  let! enabled := prompt_yes_no (str "Enable optional reverse-proxy cover service")
    (match existing with Some _ => true | None => false end) in
  if negb enabled then ret (set_cover None config)
  else
    let! bind := prompt_default (match existing with Some cover => cover_bind cover | None => listener_bind (listener config) end) in
    let! upstream := prompt_default (match existing with Some cover => cover_upstream cover | None => str "127.0.0.1:8080" end) in
    let! head := prompt_positive (str "Cover request-head timeout seconds")
      (match existing with Some cover => NodeConfig.request_head_timeout_secs cover | None => 5 end) in
    let! timeout := prompt_positive (str "Cover upstream timeout seconds")
      (match existing with Some cover => NodeConfig.upstream_timeout_secs cover | None => 5 end) in
    let! connections := prompt_positive (str "Cover maximum connections")
      (match existing with Some cover => cover_max_connections cover | None => 256 end) in
    ret (set_cover (Some {| cover_bind := bind; cover_upstream := upstream; NodeConfig.request_head_timeout_secs := head;
                            NodeConfig.upstream_timeout_secs := timeout; cover_max_connections := connections |}) config).

Section commands.
Context `{Stat, Toml, BundleJson, NodeLibraries, Admission.ConstantTimeEq}.
Variable environment : Surroundings.

Definition load_or_example (path : Path) : M FileSystem SetupError (Config * bool) :=
  let! present := fs.exists_ path in
  if present then let! config := map_err SetupConfig (read path) in ret (config, true)
  else ret (example (socket_for environment) path, false).

Definition configure_acme_certificate (path : Path) (config : Config) : M Console SetupError unit :=
  let existing := acme config in
  let! email := prompt_required (str "ACME account email") (email <$> existing) in
  let! domain := prompt_required (str "Relay DNS name") (existing ≫= fun a => head (domains a)) in
  let! dns_provider := prompt_required (str "Lego DNS provider") (dns_provider <$> existing) in
  let! staging := prompt_yes_no (str "Use the Let's Encrypt staging service")
    (match existing with Some a => contains_str (str "staging") (directory_url a) | None => false end) in
  on_files (map_err SetupAcme (NodeAcme.configure (acme_environment environment) path email [domain] dns_provider staging)) ;!
  on_files (map_err SetupAcme (NodeAcme.run (reload_answer environment) (lego environment) (acme_environment environment) path Obtain)).

Definition configure_existing_certificate (path : Path) (config : Config) : M Console SetupError unit :=
  let! certificate := prompt_required (str "Existing PEM certificate path") (Some (display (certificate (listener config)))) in
  let! private_key := prompt_required (str "Existing PEM private key path") (Some (display (private_key (listener config)))) in
  let config := without_acme (set_certificate (Path.from certificate) (Path.from private_key) config) in
  on_files (map_err SetupConfig (write path config)) ;!
  on_files (map_err SetupConfig (load path)) ;!
  ret tt.

Definition configure_self_signed_certificate (path : Path) (config : Config) : M Console SetupError unit :=
  let! server_name := prompt_required (str "Certificate DNS name or IP address") (Some (str "localhost")) in
  let! pair := ok_or (self_signed environment server_name) CannotGenerateCertificate in
  on_files (write_new_certificate_pair (certificate (listener config)) pair.1 (private_key (listener config)) pair.2) ;!
  on_files (map_err SetupConfig (write path (without_acme config))) ;!
  on_files (map_err SetupConfig (load path)) ;!
  ret tt.

(** ** Clients *)
Definition interactive_issue_with_suggested_relay (path : Path) (detected_public_ip : option IpAddr) : M Console SetupError Issued :=
  let! config := on_files (map_err SetupConfig (read path)) in
  let! client_name := prompt_required (str "Client device name") None in
  let! relay := prompt_required (str "Client-reachable relay IP:PORT")
    (suggested_relay (listener_bind (listener config)) detected_public_ip) in
  let! relay_address := lift_result SetupEnrollment (parse_relay relay) in
  let! server_name := prompt_required (str "TLS server name") (acme config ≫= fun a => head (domains a)) in
  let! trust := prompt_choice (str "Choose trust mode") 2 in
  let! delivery := prompt_choice (str "Choose delivery") 2 in
  let! delivery :=
    (if delivery =? 0 then ret Qr
     else
       let parent := default (Path.from (str ".")) (Path.parent path) in
       let! file := prompt_default (display (Path.join parent (slug client_name ++ str ".velum-enroll"))) in
       ret (ToFile (Path.from file))) in
  on_files (map_err SetupEnrollment (issue (issue_environment environment)
    {| NodeEnrollment.config_path := path; client_name := client_name; relay_address := relay_address;
       server_name := server_name; custom_ca := trust =? 1; delivery := delivery |})).
Definition interactive_issue (path : Path) : M Console SetupError Issued := interactive_issue_with_suggested_relay path None.

Definition interactive_revoke (path : Path) : M Console SetupError N :=
  let! config := on_files (map_err SetupConfig (read path)) in
  reject_if (is_empty (omap name (credentials config))) NoNamedClients ;!
  let! name := prompt_required (str "Client device name to revoke") None in
  on_files (map_err SetupEnrollment (revoke path (ByName name))).

(** ** The setup *)

(** Up to where the configuration was written; an index out of range panics. *)
Definition setup_configuration (path : Path) : M Console SetupError Config :=
  let! loaded := on_files (load_or_example path) in
  let '(config, existed) := loaded in
  let! config := (if existed then ret config
                  else let! bind := lift_result SetupConfig (random_listener_bind (port_probes environment)) in ret (set_bind bind config)) in
  let! bind := prompt_default (listener_bind (listener config)) in
  let config := set_bind bind config in
  let! target := prompt_default (default (str "203.0.113.10:443") (head (allowed_targets config))) in
  let config := set_first_target target config in
  let! config := configure_cover_service config in
  let! credential := expect (head (credentials config)) in
  on_files (ensure_credential (drawn_secret environment) (secret_file credential)) ;!
  on_files (map_err SetupConfig (write path config)) ;!
  ret config.

Definition setup (path : Path) : M Console SetupError unit :=
  let! config := setup_configuration path in
  let! source := prompt_choice (str "Choose a certificate source") 3 in
  (if source =? 0 then configure_acme_certificate path config
   else if source =? 1 then configure_existing_certificate path config
   else configure_self_signed_certificate path config) ;!
  let! enroll := prompt_yes_no (str "Create a client enrollment now") true in
  if enroll then interactive_issue_with_suggested_relay path (detect environment) ;! ret tt
  else ret tt.

(** ** The console *)

(** The end of a certificate's validity, in seconds, if [x509-parser] reads it. *)
Variable not_after : Certificate -> option Z.

(** The days left. *)
Definition certificate_expiry (path : Path) : M FileSystem SetupError Z :=
  let! chain := map_err SetupConfig (read_certificates path) in
  let! certificate := ok_or (head chain) EmptyChain in
  let! expires := ok_or (not_after certificate) (CannotParseX509 path) in
  let! now := ok_or (clock environment) ClockBeforeEpoch in
  ret ((expires - now) / 86400)%Z.
Definition verify_certificate (path : Path) : M FileSystem SetupError Z :=
  map_err SetupConfig (load path) ;!
  let! configured := map_err SetupConfig (read path) in
  let! days_remaining := certificate_expiry (certificate (listener configured)) in
  reject_if (days_remaining <? 0)%Z CertificateExpired ;!
  ret days_remaining.

Definition interactive_uninstall (path : Path) : M Console SetupError (option Report) :=
  let! purge := prompt_yes_no (str "Remove the configuration file too") false in
  let! go_on := prompt_yes_no (str "Continue with uninstall") false in
  if negb go_on then ret None
  else
    let! report := on_host (map_err (fun e => SetupCli (InDeployment e)) (uninstall (deploy_environment environment) path purge)) in
    ret (Some report).

Inductive Menu := Again | Leaves | Serves.
(** [report] *)
Definition report {A} (m : M Console SetupError A) : M Console SetupError Menu :=
  let! _ := attempt m in ret Again.
Definition ask_service (path : Path) (command : Str) : M Console SetupError Str :=
  on_files (map_err SetupCli (control (admin_request environment) command {| control_config := path; control_json := false |})).
Definition choose (path : Path) (choice : Str) : M Console SetupError Menu :=
  if str_eqb choice (str "1") then report (setup path)
  else if str_eqb choice (str "2") then
    report (on_files (map_err SetupAcme (NodeAcme.run (reload_answer environment) (lego environment) (acme_environment environment) path Obtain)))
  else if str_eqb choice (str "3") then
    report (on_files (map_err SetupAcme (NodeAcme.run (reload_answer environment) (lego environment) (acme_environment environment) path Renew)))
  else if str_eqb choice (str "4") then report (on_files (map_err SetupCli (validate_command path)))
  else if str_eqb choice (str "5") then report (on_files (verify_certificate path))
  else if str_eqb choice (str "6") then report (interactive_issue path)
  else if str_eqb choice (str "7") then report (interactive_revoke path)
  else if str_eqb choice (str "8") then ret Serves
  else if str_eqb choice (str "9") then report (ask_service path (str "status"))
  else if str_eqb choice (str "10") then report (ask_service path (str "drain"))
  else if str_eqb choice (str "11") then report (ask_service path (str "shutdown"))
  else if str_eqb choice (str "12") then report (interactive_uninstall path)
  else if str_eqb choice (str "13") || str_eqb choice (str "q") || str_eqb choice (str "quit") then ret Leaves
  else ret Again.
(** One turn of the loop of [interactive]. *)
Definition menu (path : Path) : M Console SetupError Menu := let! choice := prompt in choose path choice.
End commands.

(** The loop: each turn with its own surroundings; the fuel is the turns that are
    watched. *)
Fixpoint console `{Stat, Toml, BundleJson, NodeLibraries, Admission.ConstantTimeEq} (environments : nat -> Surroundings)
  (not_after : Certificate -> option Z) (path : Path) (turns : nat) (c : Console) : outcome (result Menu SetupError * Console) :=
  match turns with
  | O => OutOfFuel
  | S turns =>
    match menu (environments turns) not_after path c with
    | Ret (Ok Again, c) => console environments not_after path turns c
    | other => other
    end
  end.

(** ** Writing a certificate of one's own *)
Definition secured (bytes : list byte) : File := {| contents := bytes; permissions := 384 |}.

Lemma wp_write_staged path bytes s (Q : result unit SetupError -> FileSystem -> Prop) :
  (forall s', files s' = <[path := secured bytes]> (files s) -> Q (Ok tt) s') ->
  (forall s' e, (forall k, e <> CannotActivateKey k) -> same_but (fun p => p = path) s s' -> Q (Err e) s') ->
  wp (write_staged_private_file path bytes) s Q.
Proof.
  intros Hok Herr. unfold write_staged_private_file.
  assert (forall s' e, (forall k, e <> CannotActivateKey k) -> files s' = files s -> Q (Err e) s') as Hsame
    by (intros s' e He Hs; by apply Herr, same_but_files).
  assert (forall s' e f, (forall k, e <> CannotActivateKey k) -> files s' = <[path := f]> (files s) -> Q (Err e) s') as Hput
    by (intros s' e f He Hs; apply Herr; [done|by eapply same_but_insert]).
  apply wp_bind, wp_exists; intros s1 Hs1 _; [intros _; by apply Hsame|]. apply wp_bind, (wp_ret tt).
  destruct (Path.parent path) as [parent|]; cbn [ok_or]; [|by apply Hsame]. apply wp_bind, (wp_ret parent).
  apply wp_bind, wp_map_err, wp_faulty_call; intros s2 Hs2 _; [|apply Hsame; congruence].
  assert (files s2 = files s) as H2 by congruence. apply wp_bind, wp_map_err, wp_write; rewrite H2.
  - intros s3 _ Hs3. apply wp_map_err, wp_set_permissions.
    + intros s4 file _ Hf Hs4. rewrite Hs3, lookup_insert_eq in Hf. injection Hf as <-. apply Hok.
      by rewrite Hs4, Hs3, insert_insert_eq.
    + intros s4 e _ Hs4. eapply Hput; [done|]. by rewrite Hs4, Hs3.
  - intros s3 _ Hs3. by apply Hsame.
  - intros s3 n _ Hs3. by eapply Hput.
Qed.

(** Two discarded removals and the error: only the files they name go. *)
Lemma wp_undo p q e s (Q : result unit SetupError -> FileSystem -> Prop) :
  (forall s', same_but (fun x => x = p \/ x = q) s s' -> Q (Err e) s') ->
  wp (let! _ := attempt (fs.remove_file p) in let! _ := attempt (fs.remove_file q) in throw e) s Q.
Proof.
  intros HQ. apply wp_discard. intros r1 s1 _ Hs1. apply wp_discard. intros r2 s2 _ Hs2. apply HQ.
  apply (same_but_trans _ _ s1); [by apply (same_but_delete _ p); [left|]|by apply (same_but_delete _ q); [right|]].
Qed.

Section pair.
Context (c k : Path) (certificate_pem private_key_pem : list byte).
Hypothesis apart : NoDup [c; k; setup_stage c; setup_stage k].
Definition of_pair (p : Path) : Prop := p = c \/ p = k \/ p = setup_stage c \/ p = setup_stage k.

(** A certificate and a key of one's own are written both or not at all as far as
    they can be: on success both are there, private and in full; on failure the
    key is as it was, and so is the certificate unless it was the key that
    could not be moved into place.  No other files but the two staging files
    change, whichever system calls fail. *)
Theorem own_certificate_written s :
  wp (write_new_certificate_pair c certificate_pem k private_key_pem) s (fun r s' =>
    same_but of_pair s s' /\
    match r with
    | Ok _ => files s' !! c = Some (secured certificate_pem) /\ files s' !! k = Some (secured private_key_pem) /\
        files s' !! setup_stage c = None /\ files s' !! setup_stage k = None
    | Err e => files s' !! k = files s !! k /\ (e <> CannotActivateKey k -> files s' !! c = files s !! c)
    end).
Proof.
  assert (c <> k /\ c <> setup_stage c /\ c <> setup_stage k /\ k <> setup_stage c /\ k <> setup_stage k /\ setup_stage c <> setup_stage k)
    as (H1 & H2 & H3 & H4 & H5 & H6).
  { pose proof apart as Ha. rewrite !NoDup_cons in Ha. set_solver. }
  assert (forall (P : Path -> Prop) t e, (forall p, P p -> of_pair p) -> (forall p, P p -> p <> k) ->
    (e <> CannotActivateKey k -> forall p, P p -> p <> c) -> same_but P s t ->
    same_but of_pair s t /\ files t !! k = files s !! k /\ (e <> CannotActivateKey k -> files t !! c = files s !! c)) as Hfail.
  { intros P t e HP Hk Hc Hs. split; [by eapply same_but_mono|]. split; [apply Hs; intros Hx; by apply (Hk k)|].
    intros He. apply Hs. intros Hx. by apply (Hc He c). }
  unfold write_new_certificate_pair. rewrite bool_decide_eq_false_2 by done. apply wp_bind, (wp_ret tt).
  apply wp_bind, wp_exists; intros s1 Hs1 _; [intros _|].
  { apply wp_bind, (wp_ret true), wp_bind. apply (Hfail (fun _ => False)); [done..|by apply same_but_files]. }
  apply wp_bind, wp_exists; intros s2 Hs2 _; [intros _; apply wp_bind; apply (Hfail (fun _ => False)); [done..|apply same_but_files; congruence]|].
  apply wp_bind, (wp_ret tt). assert (files s2 = files s) as Hs by congruence.
  apply wp_bind, wp_write_staged.
  2:{ intros s3 e _ Hs3. apply (Hfail (fun p => p = setup_stage c)); [unfold of_pair; naive_solver..|].
      intros p Hp. by rewrite Hs3, Hs. }
  intros s3 Hs3. apply wp_bind, wp_attempt, wp_write_staged.
  2:{ intros s4 e _ Hs4. apply wp_discard. intros r s5 _ Hs5.
      apply (Hfail (fun p => p = setup_stage c \/ p = setup_stage k)); [unfold of_pair; naive_solver..|].
      apply (same_but_trans _ _ s3); [apply (same_but_insert _ (setup_stage c) (secured certificate_pem)); [by left|congruence]|].
      apply (same_but_trans _ _ s4); [by eapply same_but_mono; [|exact Hs4]; auto|]. by apply (same_but_delete _ (setup_stage c)); [left|]. }
  intros s4 Hs4. rewrite Hs3, Hs in Hs4. apply wp_bind, wp_attempt, wp_rename.
  2:{ intros s5 e _ Hs5. apply wp_undo. intros s6 Hs6.
      apply (Hfail (fun p => p = setup_stage c \/ p = setup_stage k)); [unfold of_pair; naive_solver..|].
      intros p Hp. apply Decidable.not_or in Hp as Hp'. destruct Hp'. rewrite Hs6, Hs5, Hs4 by done. by rewrite !lookup_insert_ne. }
  intros s5 file _ Hf Hs5. rewrite Hs4, lookup_insert_ne, lookup_insert_eq in Hf by done. injection Hf as <-. rewrite Hs4 in Hs5.
  apply wp_bind, wp_attempt, wp_rename.
  2:{ intros s6 e _ Hs6. apply wp_undo. intros s7 Hs7.
      apply (Hfail (fun p => p = c \/ p = setup_stage c \/ p = setup_stage k)); [unfold of_pair; naive_solver..|].
      intros p Hp. rewrite Hs7 by naive_solver. rewrite Hs6, Hs5. rewrite lookup_insert_ne, lookup_delete_ne, !lookup_insert_ne by naive_solver. done. }
  intros s6 file _ Hf Hs6. rewrite Hs5, lookup_insert_ne, lookup_delete_ne, lookup_insert_eq in Hf by done. injection Hf as <-. rewrite Hs5 in Hs6.
  apply wp_ret. split; [|split_and!].
  - intros p Hp. unfold of_pair in Hp. rewrite Hs6, lookup_insert_ne, lookup_delete_ne, lookup_insert_ne, lookup_delete_ne, !lookup_insert_ne by naive_solver. done.
  - by rewrite Hs6, lookup_insert_ne, lookup_delete_ne, lookup_insert_eq.
  - by rewrite Hs6, lookup_insert_eq.
  - by rewrite Hs6, lookup_insert_ne, lookup_delete_ne, lookup_insert_ne, lookup_delete_eq.
  - by rewrite Hs6, lookup_insert_ne, lookup_delete_eq.
Qed.
End pair.

(** ** Prompts change nothing but what is still typed *)
Definition asks {A} (m : M Console SetupError A) (P : A -> Prop) : Prop :=
  forall c, wp m c (fun r c' => host c' = host c /\ match r with Ok a => P a | Err _ => True end).

Lemma asks_ret {A} (a : A) (P : A -> Prop) : P a -> asks (ret a) P.
Proof. by intros Ha c. Qed.
Lemma asks_throw {A} e (P : A -> Prop) : asks (throw e) P.
Proof. by intros c. Qed.
Lemma asks_bind {A B} (m : M Console SetupError A) (f : A -> M Console SetupError B) P R :
  asks m P -> (forall a, P a -> asks (f a) R) -> asks (bind m f) R.
Proof.
  intros Hm Hf c. apply wp_bind. eapply wp_mono; [apply Hm|]. intros [a|e] c1 [H1 HP]; [|done].
  eapply wp_mono; [by apply Hf|]. intros r c2 [H2 HR]. split; [congruence|done].
Qed.
Lemma asks_lift {E A} (g : E -> SetupError) (r : result A E) (P : A -> Prop) : (forall a, r = Ok a -> P a) -> asks (lift_result g r) P.
Proof. intros Hr. destruct r; [by apply asks_ret, Hr|apply asks_throw]. Qed.
Lemma asks_mono {A} (m : M Console SetupError A) (P R : A -> Prop) : asks m P -> (forall a, P a -> R a) -> asks m R.
Proof. intros Hm HPR c. eapply wp_mono; [apply Hm|]. intros [a|e] c' [H1 H2]; auto. Qed.

Lemma asks_prompt : asks prompt (fun _ => True).
Proof. intros c. unfold prompt. wp_step. wp_step. by destruct (keyboard c) as [|[value|] rest]. Qed.
Lemma asks_default default : asks (prompt_default default) (fun _ => True).
Proof. eapply asks_bind; [apply asks_prompt|]. intros value _. by apply asks_ret. Qed.
Lemma asks_required label default : asks (prompt_required label default) (fun value => trim value <> []).
Proof.
  apply (asks_bind _ _ (fun _ => True)); [destruct default; [apply asks_default|apply asks_prompt]|].
  intros value _. destruct (trim value) eqn:Ht; cbn; [apply asks_throw|]. apply asks_ret. congruence.
Qed.
Lemma asks_choice label n : asks (prompt_choice label n) (fun i => i < n).
Proof.
  eapply asks_bind; [apply asks_prompt|]. intros value _. apply asks_lift. intros i. unfold parse_choice.
  destruct (parse_uint U64_MAX value) as [v|]; [|done]. destruct (_ && _) eqn:Hv; [|done]. intros [= <-].
  apply andb_true_iff in Hv as [H1%N.leb_le H2%N.leb_le]. lia.
Qed.
Lemma asks_yes_no label default : asks (prompt_yes_no label default) (fun _ => True).
Proof. eapply asks_bind; [apply asks_default|]. intros value _. by apply asks_lift. Qed.
Lemma asks_positive label default : asks (prompt_positive label default) (fun n => 0 < n <= U64_MAX).
Proof.
  eapply asks_bind; [apply asks_default|]. intros value _. destruct (parse_uint U64_MAX value) as [v|] eqn:Hv; [|apply asks_throw].
  destruct (N.ltb_spec 0 v); [|apply asks_throw]. apply asks_ret. split; [done|]. by apply parse_uint_bound in Hv.
Qed.

(** What the operator says of the cover service leaves the rest alone, and its
    numbers are positive. *)
Definition covers (config config' : Config) : Prop :=
  config' = set_cover (cover_service config') config /\
  forall cover, cover_service config' = Some cover -> 0 < NodeConfig.request_head_timeout_secs cover /\
    0 < NodeConfig.upstream_timeout_secs cover /\ 0 < cover_max_connections cover.
Lemma asks_cover config : asks (configure_cover_service config) (covers config).
Proof.
  unfold configure_cover_service. eapply asks_bind; [apply asks_yes_no|]. intros enabled _.
  destruct enabled; cbn [negb]; [|by apply asks_ret].
  do 2 (eapply asks_bind; [apply asks_default|]; intros ? _). do 3 (eapply asks_bind; [apply asks_positive|]; intros ? [? _]).
  apply asks_ret. split; [done|]. by intros cover [= <-].
Qed.

(** ** The configuration is saved *)
Section saved.
Context `{X : Stat, T : Toml, !TomlLaws T, B : BundleJson, L : NodeLibraries, K : Admission.ConstantTimeEq}.
Variable environment : Surroundings.
Definition console_files (c : Console) : gmap Path File := files (disk (host c)).

Lemma wpp_asks {A D} (m : M Console SetupError A) (f : A -> M Console SetupError D) (P : A -> Prop) c
  (Q : result D SetupError -> Console -> Prop) panics :
  asks m P -> (forall e c', host c' = host c -> Q (Err e) c') ->
  (forall a c', host c' = host c -> P a -> wp_or_panic (f a) c' Q panics) -> wp_or_panic (bind m f) c Q panics.
Proof.
  intros Hm Herr Hok. apply wpp_bind_wp. eapply wp_mono; [apply Hm|]. intros [a|e] c' [H1 H2]; [by apply Hok|by apply Herr].
Qed.
Lemma wpp_files {E A D} (m : M FileSystem E A) (g : E -> SetupError) (f : A -> M Console SetupError D) c
  (Q : result D SetupError -> Console -> Prop) panics :
  wp m (disk (host c)) (fun r d => forall c', host c' = set_disk d (host c) ->
    match r with Ok a => wp_or_panic (f a) c' Q panics | Err e => Q (Err (g e)) c' end) ->
  wp_or_panic (bind (on_files (map_err g m)) f) c Q panics.
Proof.
  intros Hm. apply wpp_bind_wp. unfold on_files, on_host, on_disk. apply wp_zoom, wp_zoom, wp_map_err.
  eapply wp_mono; [exact Hm|]. intros [a|e] d Hr; by apply Hr.
Qed.

(** What [ensure_credential] leaves. *)
Lemma wp_ensure_credential drawn path s (Q : result bool SetupError -> FileSystem -> Prop) :
  (forall s' b, same_but (fun p => p = path) s s' ->
     (files s' !! path = files s !! path /\ is_Some (files s' !! path)) \/
     (exists secret, drawn = Some secret /\ files s' !! path = Some (secret_file_of secret 384)) -> Q (Ok b) s') ->
  (forall s' e, same_but (fun p => p = path) s s' -> Q (Err e) s') -> wp (ensure_credential drawn path) s Q.
Proof.
  intros Hok Herr. unfold ensure_credential. apply wp_bind, wp_exists; intros s1 Hs1 _.
  - intros Hf. apply wp_ret, Hok; [by apply same_but_files|left; by rewrite Hs1].
  - destruct drawn as [secret|]; cbn [ok_or]; [|by apply Herr, same_but_files]. apply wp_bind, (wp_ret secret).
    apply wp_bind, wp_map_err, wp_write_secret.
    + intros s2 _ Hf Hs2. apply wp_ret, Hok; [intros p Hp; by rewrite Hs2, Hs1|right; by exists secret].
    + intros s2 e _ Hs2 _. apply Herr. intros p Hp. by rewrite Hs2, Hs1.
Qed.
Lemma wp_load_or_example path s (Q : result (Config * bool) SetupError -> FileSystem -> Prop) :
  (forall s' config existed, files s' = files s ->
     config_in (files s !! path) = Some config \/ config = example (socket_for environment) path -> Q (Ok (config, existed)) s') ->
  (forall s' e, files s' = files s -> Q (Err e) s') -> wp (load_or_example environment path) s Q.
Proof.
  intros Hok Herr. unfold load_or_example. apply wp_bind, wp_exists; intros s1 Hs1 _; [intros _|by apply wp_ret, Hok; [|right]].
  apply wp_bind, wp_map_err, wp_read_config.
  - intros s2 config Hs2 _ Hc. apply wp_ret, Hok; [congruence|left; congruence].
  - intros s2 e Hs2 _. apply Herr. congruence.
Qed.

(** The end of the setup's first part. *)
Definition setup_saved (path : Path) (c : Console) (r : result Config SetupError) (c' : Console) : Prop :=
  asked (host c') = asked (host c) /\
  match r with
  | Ok config =>
    exists entry, head (credentials config) = Some entry /\
      (forall p, p <> path -> p <> temporary path -> p <> secret_file entry -> console_files c' !! p = console_files c !! p) /\
      permissions <$> console_files c' !! path = Some 384 /\
      (Forall comment_char (listener_bind (listener config)) -> result_of (read path) (disk (host c')) = Some (Ok config)) /\
      (secret_file entry <> path -> secret_file entry <> temporary path ->
        (console_files c' !! secret_file entry = console_files c !! secret_file entry /\ is_Some (console_files c' !! secret_file entry)) \/
        exists secret, drawn_secret environment = Some secret /\
          console_files c' !! secret_file entry = Some (secret_file_of secret 384))
  | Err _ =>
    exists credential, (forall p, p <> temporary path -> p <> credential -> console_files c' !! p = console_files c !! p) /\
      (credential <> path -> console_files c' !! path = console_files c !! path)
  end.
Lemma setup_saved_from path c c1 r c' :
  console_files c1 = console_files c -> asked (host c1) = asked (host c) -> setup_saved path c1 r c' -> setup_saved path c r c'.
Proof. intros Hf Ha. unfold setup_saved. by rewrite Hf, Ha. Qed.
Lemma setup_unchanged path c e c' : host c' = host c -> setup_saved path c (Err e) c'.
Proof. intros Hh. unfold setup_saved, console_files. rewrite Hh. split; [done|]. by exists path. Qed.

Lemma save_configuration path config c panics :
  (credentials config = [] -> panics) ->
  wp_or_panic (let! credential := expect (head (credentials config)) in
    on_files (ensure_credential (drawn_secret environment) (secret_file credential)) ;!
    on_files (map_err SetupConfig (write path config)) ;! ret config) c (setup_saved path c) panics.
Proof.
  intros Hpanics. destruct (head (credentials config)) as [entry|] eqn:Hentry; [|by apply Hpanics; destruct (credentials config)].
  apply wpp_bind_wp, (wp_ret entry). unfold setup_saved, console_files.
  apply wpp_bind_wp. unfold on_files at 1, on_host, on_disk. apply wp_zoom, wp_zoom, wp_ensure_credential; set (s := disk (host c)).
  2:{ intros s1 e Hs1. split; [done|]. exists (secret_file entry). split; [intros p _ Hp; by apply Hs1|].
      intros Hne. apply Hs1. congruence. }
  intros s1 _ Hs1 Hcred. apply wpp_files, wp_write_config.
  - intros s2 text _ Ht Hf Hs2 c2 Hc2. cbn in Hc2. cbn. rewrite Hc2. split; [done|]. cbn. exists entry. split; [done|].
    split; [|split; [by rewrite Hf|split]].
    + intros p H1 H2 H3. rewrite Hs2, Hs1 by naive_solver. done.
    + intros Hb. by rewrite undisturbed_read, Hf, (text_reads_back config text).
    + intros Hne1 Hne2. rewrite Hs2 by naive_solver. exact Hcred.
  - intros s2 e _ Hf Hs2 c2 Hc2. cbn in Hc2. rewrite Hc2. split; [done|]. cbn. exists (secret_file entry). split.
    + intros p H1 H2. rewrite Hs2, Hs1 by naive_solver. done.
    + intros Hne. cbn in Hf. rewrite Hf. apply Hs1. congruence.
Qed.

(** The guided setup saves what the operator said or nothing: when it has got past
    the configuration, the file at its path is private and reads back as the
    configuration that was put together, and its first credential is the file
    that was there or a new private one; when it stops before, the
    configuration reads as before.  Either way only the configuration, its
    temporary file and that one credential may have changed, whatever is typed
    and whichever system calls fail.  It panics only when the configuration
    it resumes from has no credential. *)
Theorem setup_saves_configuration path c :
  wp_or_panic (setup_configuration environment path) c (setup_saved path c)
    (exists config, config_in (console_files c !! path) = Some config /\ credentials config = []).
Proof.
  unfold setup_configuration. apply wpp_bind_wp. unfold on_files at 1, on_host, on_disk. apply wp_zoom, wp_zoom, wp_load_or_example.
  2:{ intros s1 e Hs1. unfold setup_saved, console_files. cbn. rewrite Hs1. split; [done|]. by exists path. }
  intros s1 config0 existed Hs1 Hconfig. set (c1 := set_host (set_disk s1 (host c)) c).
  assert (console_files c1 = console_files c) as Hf1 by done.
  assert (credentials config0 = [] -> exists config, config_in (console_files c !! path) = Some config /\ credentials config = []) as Hpanic.
  { intros Hempty. destruct Hconfig as [Hconfig| ->]; [by exists config0|done]. }
  eapply wpp_mono; [|intros r c'; by apply (setup_saved_from path c c1)|exact Hpanic]. clearbody c1. clear -environment T TomlLaws0.
  assert (forall e c', host c' = host c1 -> setup_saved path c1 (Err e) c') as Herr by apply setup_unchanged.
  apply (wpp_asks _ _ (fun config => credentials config = credentials config0)); [|done|].
  { destruct existed; [by apply asks_ret|]. eapply (asks_bind _ _ (fun _ => True)); [by apply asks_lift|]. intros bind _. by apply asks_ret. }
  intros config1 c2 Hc2 H1. apply (wpp_asks _ _ (fun _ => True)); [apply asks_default|intros e c' Hc'; apply Herr; congruence|].
  intros bind c3 Hc3 _. apply (wpp_asks _ _ (fun _ => True)); [apply asks_default|intros e c' Hc'; apply Herr; congruence|].
  intros target c4 Hc4 _. apply (wpp_asks _ _ (covers (set_first_target target (set_bind bind config1))));
    [apply asks_cover|intros e c' Hc'; apply Herr; congruence|].
  intros config2 c5 Hc5 [Hcover _]. assert (credentials config2 = credentials config0) as H2 by (by rewrite Hcover).
  eapply wpp_mono; [apply (save_configuration path config2 c5 (credentials config0 = [])); by rewrite H2| |done].
  intros r c'. assert (host c5 = host c1) as Hh by congruence. apply setup_saved_from; unfold console_files; by rewrite Hh.
Qed.

(** Resuming from a configuration without credentials does panic: here the
    operator accepts every default. *)
Lemma run_bind {A D} (m : M Console SetupError A) (f : A -> M Console SetupError D) c a c' :
  m c = Ret (Ok a, c') -> bind m f c = f a c'.
Proof. unfold bind. by intros ->. Qed.
Lemma default_at_end c default : keyboard c = [] -> prompt_default default c = Ret (Ok default, c).
Proof.
  intros Hk. unfold prompt_default, prompt. unfold bind, get, modify. rewrite Hk. unfold ret. cbn. destruct c. cbn in Hk. by subst.
Qed.
Lemma cover_at_end c config : keyboard c = [] -> cover_service config = None ->
  configure_cover_service config c = Ret (Ok (set_cover None config), c).
Proof.
  intros Hk Hc. unfold configure_cover_service. rewrite Hc. unfold prompt_yes_no.
  rewrite (run_bind _ _ c false c); [done|]. rewrite (run_bind _ _ c (str "no") c) by (by apply default_at_end). done.
Qed.
Lemma setup_needs_credential path c config d :
  load_or_example environment path (disk (host c)) = Ret (Ok (config, true), d) ->
  keyboard c = [] -> cover_service config = None -> credentials config = [] ->
  setup_configuration environment path c = Panic.
Proof.
  intros Hload Hk Hcover Hcred. unfold setup_configuration. set (c1 := set_host (set_disk d (host c)) c).
  rewrite (run_bind _ _ c (config, true) c1) by (unfold on_files, on_host, on_disk, zoom; by rewrite Hload).
  rewrite (run_bind _ _ c1 config c1) by done. do 2 (erewrite run_bind by by apply default_at_end).
  erewrite run_bind by (by apply cover_at_end). unfold bind. cbn [credentials set_cover set_first_target set_bind]. by rewrite Hcred.
Qed.
End saved.

(** ** The console *)
Section console.
Context `{X : Stat, T : Toml, B : BundleJson, L : NodeLibraries, K : Admission.ConstantTimeEq}.
Variable not_after : Certificate -> option Z.

Lemma prompt_reads c value c' : prompt c = Ret (Ok value, c') ->
  keyboard c = [] /\ value = [] \/ exists line, head (keyboard c) = Some (Some line) /\ value = trim line.
Proof.
  unfold prompt, bind, get, modify. destruct (keyboard c) as [|[line|] rest]; [intros [= <- _]; by left| |done].
  intros [= <- _]. right. by exists line.
Qed.
Lemma prompt_fails c e c' : prompt c = Ret (Err e, c') -> e = CannotReadInput /\ head (keyboard c) = Some None.
Proof. unfold prompt, bind, get, modify. destruct (keyboard c) as [|[line|] rest]; [done..|]. by intros [= <- _]. Qed.
Lemma report_again {A} (m : M Console SetupError A) c r c' : report m c = Ret (r, c') -> r = Ok Again.
Proof. unfold report, bind, attempt. destruct (m c) as [[a s]| |]; [|done..]. by intros [= <- _]. Qed.

Lemma choose_ends environment path choice c r c' :
  choose environment not_after path choice c = Ret (r, c') ->
  r = Ok Again \/ r = Ok Serves /\ choice = str "8" \/ r = Ok Leaves /\ choice ∈ [str "13"; str "q"; str "quit"].
Proof.
  unfold choose, str_eqb.
  do 7 (case_bool_decide; [by intros ->%report_again; left|]).
  case_bool_decide; [intros [= <- _]; by right; left|].
  do 4 (case_bool_decide; [by intros ->%report_again; left|]).
  destruct (_ || _) eqn:Hl; intros [= <- _]; [|by left]. right; right. split; [done|].
  rewrite !orb_true_iff, !bool_decide_eq_true in Hl. set_solver.
Qed.

(** Whatever an action of the console does, and however it fails, the operator is
    asked again: the console ends only with the words that end it or start
    the relay, or when its input cannot be read. *)
Theorem menu_ends environment path c r c' :
  menu environment not_after path c = Ret (r, c') ->
  match r with
  | Err e => e = CannotReadInput /\ head (keyboard c) = Some None
  | Ok Leaves => exists line, head (keyboard c) = Some (Some line) /\ trim line ∈ [str "13"; str "q"; str "quit"]
  | Ok Serves => exists line, head (keyboard c) = Some (Some line) /\ trim line = str "8"
  | Ok Again => True
  end.
Proof.
  unfold menu. intros Hrun. unfold bind at 1 in Hrun. destruct (prompt c) as [[[choice|e] c1]| |] eqn:Hp; try done.
  - destruct (prompt_reads c choice c1 Hp) as [[_ ->]|(line & Hl & ->)].
    + apply choose_ends in Hrun as [->|[[_ Hc]|[_ Hc]]]; [done|discriminate Hc|]. by apply (bool_decide_pack _) in Hc.
    + apply choose_ends in Hrun as [->|[[-> Hc]|[-> Hc]]]; [done|by exists line..].
  - apply Ret_inj, pair_eq in Hrun as [<- _]. apply prompt_fails in Hp as [-> Hk]. done.
Qed.
(** At the end of its input the console asks for ever. *)
Lemma console_at_end environments path turns c :
  keyboard c = [] -> console environments not_after path turns c = OutOfFuel.
Proof.
  revert c. induction turns as [|turns IH]; intros c Hk; [done|]. cbn [console].
  assert (menu (environments turns) not_after path c = Ret (Ok Again, set_keyboard [] c)) as ->
    by (unfold menu, bind, prompt, bind, get, modify; rewrite Hk; reflexivity).
  by apply IH.
Qed.
End console.
