(* ===== verification/NodeExamples.v ===== *)
(** Concrete runs of the node's configuration and enrolment commands, at which
    their theorems apply: a TOML that knows a list of configurations, a file
    system with a configuration and its first credential. *)
From S2P Require Import Prelude Net Str Utf8 IpText Admission Enrollment NodeFiles NodeConfig NodeEnrollment NodeAcme.
Import Utf8.

#[export] Instance Config_eq_dec : EqDecision Config.
Proof.
  assert (EqDecision ListenerConfig) by solve_decision. assert (EqDecision AdminConfig) by solve_decision.
  assert (EqDecision CredentialConfig) by solve_decision. assert (EqDecision Limits) by solve_decision.
  assert (EqDecision CoverConfig) by solve_decision. assert (EqDecision AcmeConfig) by solve_decision.
  solve_decision.
Defined.

(** ** A TOML of a few configurations

    The [n]th is written as [n + 1] letters. *)
Fixpoint count_letters (s : Str) : nat :=
  match s with c :: s => if c =? 97 then S (count_letters s) else O | [] => O end.
Definition table_toml (table : list Config) : Toml := {|
  toml_from_str text := match count_letters text with O => None | S n => table !! n end;
  toml_to_string_pretty c :=
    (fun n => replicate (S n) 97) <$> position (fun c' => bool_decide (c' = c)) table
|}.
Lemma count_letters_line n s : count_letters (replicate n 97 ++ 10 :: s) = n.
Proof. induction n; [done|]. cbn. by f_equal. Qed.
Lemma table_toml_laws table : TomlLaws (table_toml table).
Proof.
  constructor; cbn; intros c text.
  - intros (n & _ & ->)%fmap_Some. apply (Forall_replicate _ (S n)). unfold char_valid. lia.
  - intros comments (n & Hn & ->)%fmap_Some _. 
    change (count_letters _) with (count_letters (replicate (S n) 97 ++ 10 :: (comments ≫= line))).
    rewrite count_letters_line. pose proof (position_spec (fun c' => bool_decide (c' = c)) table) as Hp.
    rewrite Hn in Hp. destruct Hp as (c' & Hc & He%bool_decide_eq_true & _). by subst c'.
Qed.

(** ** JSON of one bundle *)
#[local] Instance EnrollmentNode_eq_dec : EqDecision EnrollmentNode. Proof. solve_decision. Defined.
#[local] Instance EnrollmentTrust_eq_dec : EqDecision EnrollmentTrust. Proof. solve_decision. Defined.
#[local] Instance EnrollmentBundle_eq_dec : EqDecision EnrollmentBundle. Proof. solve_decision. Defined.
Definition json_of (bundle : EnrollmentBundle) : BundleJson :=
  {| json_from_slice source := if decide (source = encode (str "{}")) then inl bundle else inr [];
     json_to_string b := if decide (b = bundle) then inl (str "{}") else inr [] |}.
Lemma json_of_laws bundle : BundleJsonLaws (json_of bundle).
Proof.
  constructor. intros b text. cbn [json_to_string json_from_slice json_of].
  destruct (decide (b = bundle)) as [->|]; [|done]. intros Heq.
  assert (str "{}" = text) as <- by congruence. by destruct (decide (encode (str "{}") = encode (str "{}"))).
Qed.

(** ** A node with its first client *)
Definition config_toml : Path := Path.from (str "/etc/velum/config.toml").
Definition first_secret : list byte := replicate 32 x03.
Definition second_secret : list byte := replicate 32 x5a.
Definition original_config : Config :=
  example (default_admin_socket_for (Path.from (str "/root/.config/velum/config.toml")) (Path.from (str "/run/velum/admin.sock")))
    config_toml.
Definition phone_file : Path := Path.from (str "/etc/velum/credentials/phone-2.hex").
Definition output : Path := Path.from (str "/root/phone.velum-enroll").
Definition with_phone : Config :=
  add_credential original_config {| id := 2; name := Some (str "phone"); secret_file := phone_file |}.
#[local] Instance toml : Toml := table_toml [original_config; with_phone].
#[local] Instance toml_laws : TomlLaws toml := table_toml_laws _.

Definition options (target : Delivery) : IssueOptions :=
  {| config_path := config_toml; client_name := str "phone"; relay_address := SocketV4 3405803786 4433;
     server_name := str "relay.example"; custom_ca := false; delivery := target |}.
Definition environment : IssueEnvironment :=
  {| random_secret := Some second_secret; qr_code _ := Some (str "QR"); columns := None |}.
Definition bundle : EnrollmentBundle :=
  {| kind := ENROLLMENT_KIND; Enrollment.version := 1;
     enrolled := {| enrolled_id := str "relay-2"; enrolled_name := str "relay.example";
                    enrolled_address := SocketV4 3405803786 4433; enrolled_server_name := str "relay.example" |};
     Enrollment.principal_id := 2; credential := encode_hex second_secret; enrolled_trust := System |}.
#[local] Instance json : BundleJson := json_of bundle.
#[local] Instance json_laws : BundleJsonLaws json := json_of_laws _.

(** The disk, with faults at the given calls. *)
Definition private_file (text : Str) : File := {| contents := encode text; permissions := 384 |}.
Definition disk (faults : list (option nat)) : FileSystem :=
  {| files := {[ config_toml := private_file (str "a");
                 Path.from (str "/etc/velum/credential.hex") := secret_file_of first_secret 384;
                 Path.from (str "/etc/velum/cert.pem") := private_file (str "certificate");
                 Path.from (str "/etc/velum/key.pem") := private_file (str "key") ]};
     faults := faults; umask := 420 |}.
Definition result_and_state {E A} (m : outcome (result A E * FileSystem)) : option (result A E * FileSystem) :=
  match m with Ret r => Some r | _ => None end.

#[local] Instance libraries : NodeLibraries := {|
  Certificate := list byte; PrivateKey := list byte;
  pem_certificates bytes := Some [bytes]; pem_private_key bytes := Some bytes;
  certificate_and_key_match _ _ := true; idle_timeout_fits _ := true; to_socket_addrs _ := None
|}.
#[local] Existing Instance test_ct_eq.
#[local] Existing Instance test_ct_eq_laws.

Lemma disk_plain faults c :
  config_in (files (disk faults) !! config_toml) = Some c -> Forall comment_char (listener_bind (listener c)).
Proof.
  intros Hc. assert (config_in (files (disk faults) !! config_toml) = Some original_config) as Ho
    by (vm_compute; reflexivity).
  rewrite Ho in Hc. apply Some_inj in Hc as <-. apply comment_char_ascii. vm_compute. reflexivity.
Qed.

(** *** Writing and loading *)
Lemma config_write_atomic_witness :
  match write config_toml with_phone (disk []) with
  | Ret (Ok _, s') => result_of (read config_toml) s' = Some (Ok with_phone)
  | _ => False
  end.
Proof.
  assert (Forall comment_char (listener_bind (listener with_phone))) as Hb by (apply comment_char_ascii; vm_compute; reflexivity).
  pose proof (config_write_atomic config_toml with_phone (disk []) Hb) as H. unfold wp in H.
  assert (option_map fst (result_and_state (write config_toml with_phone (disk []))) = Some (Ok tt)) as Hr
    by (vm_compute; reflexivity).
  destruct (write config_toml with_phone (disk [])) as [[[u|e] s']| |]; try discriminate Hr. apply H.
Defined.

(** The mode cannot be set: the file stays and blocks the next attempt. *)
Lemma secret_write_spec_witness :
  match write_secret phone_file second_secret (disk [None; None; None; None; Some O]) with
  | Ret (Err _, s') =>
    permissions <$> files s' !! phone_file = Some 420 /\
    result_of (write_secret phone_file second_secret) s' = Some (Err (CredentialFileExists phone_file))
  | _ => False
  end.
Proof.
  pose proof (secret_write_spec phone_file second_secret (disk [None; None; None; None; Some O])
    ltac:(discriminate) ltac:(vm_compute; discriminate)) as H. unfold wp in H.
  assert (option_map (fun '(r, s') => (is_ok r, permissions <$> files s' !! phone_file))
    (result_and_state (write_secret phone_file second_secret (disk [None; None; None; None; Some O])))
    = Some (false, Some 420)) as Hr by (vm_compute; reflexivity).
  destruct (write_secret _ _ _) as [[[u|e] s']| |]; try discriminate Hr. cbn in Hr.
  assert (permissions <$> files s' !! phone_file = Some 420) as Hp by congruence. split; [exact Hp|].
  destruct H as [_ [H|H]]; [|apply H]. rewrite H in Hp. vm_compute in Hp. discriminate Hp.
Defined.

Lemma load_sound_witness :
  match load config_toml (disk []) with
  | Ret (Ok l, _) => exists c, config_in (files (disk []) !! config_toml) = Some c /\ loaded_from (files (disk [])) c l
  | _ => False
  end.
Proof.
  pose proof (load_sound config_toml (disk [])) as H.
  assert (option_map (fun r => is_ok r.1) (result_and_state (load config_toml (disk []))) = Some true) as Hr
    by (vm_compute; reflexivity).
  destruct (load config_toml (disk [])) as [[[l|e] s']| |]; try discriminate Hr. apply H.
Defined.

(** *** Issuing and revoking *)
Lemma issue_transaction_witness :
  match issue environment (options (ToFile output)) (disk []) with
  | Ret (Ok r, s') => exists p, prepared (files (disk [])) (options (ToFile output)) p /\
      issued (options (ToFile output)) p s' r
  | _ => False
  end.
Proof.
  pose proof (issue_transaction environment (options (ToFile output)) (disk []) (disk_plain [])) as H.
  assert (option_map (fun r => is_ok r.1) (result_and_state (issue environment (options (ToFile output)) (disk []))) = Some true)
    as Hr by (vm_compute; reflexivity).
  destruct (issue environment (options (ToFile output)) (disk [])) as [[[r|e] s']| |]; try discriminate Hr.
  destruct H as (file & _ & p & Hp & _ & Hi & _). exists p. split; [exact Hp|exact Hi].
Defined.

(** The enrolment file cannot be made, and then the old configuration cannot be
    written. *)
Definition failing : list (option nat) := replicate 14 None ++ [Some O; None; Some O].
Lemma failed_rollback_blocks_witness :
  match issue environment (options (ToFile output)) (disk failing) with
  | Ret (Err _, s') => forall l t', load config_toml (undisturbed s') <> Ret (Ok l, t')
  | _ => False
  end.
Proof.
  pose proof (failed_rollback_blocks environment (options (ToFile output)) (disk failing)) as H.
  assert (option_map (fun '(r, s') => (is_ok r, result_of (read config_toml) s', bool_decide (files s' !! phone_file = None)))
    (result_and_state (issue environment (options (ToFile output)) (disk failing)))
    = Some (false, Some (Ok with_phone), true)) as Hr by (vm_compute; reflexivity).
  destruct (issue environment (options (ToFile output)) (disk failing)) as [[[r|e] s']| |]; try discriminate Hr.
  cbn in Hr. assert (result_of (read config_toml) s' = Some (Ok with_phone)) as Hread by congruence.
  assert (files s' !! phone_file = None) as Hgone by (eapply bool_decide_eq_true_1; congruence). clear Hr.
  destruct (H e s' (disk_plain failing) eq_refl) as (_ & c & entry & Hc & He & Hn & Hblock).
  { change (result_of (read config_toml) s' <> result_of (read config_toml) (disk failing)). rewrite Hread.
    vm_compute. discriminate. }
  change (result_of (read config_toml) s' = Some (Ok c)) in Hc. rewrite Hread in Hc.
  assert (with_phone = c) as <- by congruence.
  assert (secret_file entry = phone_file) as Hf.
  { change (credentials with_phone) with (credentials original_config ++ [{| id := 2; name := Some (str "phone"); secret_file := phone_file |}]) in He.
    apply elem_of_app in He as [He|He%list_elem_of_singleton]; [|by rewrite He].
    apply list_elem_of_singleton in He. rewrite He in Hn. vm_compute in Hn. discriminate Hn. }
  intros l t'. apply Hblock; [by rewrite Hf|reflexivity].
Defined.

Definition phone_disk : FileSystem :=
  {| files := <[config_toml := private_file (str "aa")]> (<[phone_file := secret_file_of second_secret 384]> (files (disk [])));
     faults := []; umask := 420 |}.
Lemma phone_disk_plain c : config_in (files phone_disk !! config_toml) = Some c ->
  Forall comment_char (listener_bind (listener c)) /\ Forall (fun e => secret_file e <> config_toml) (credentials c).
Proof.
  intros Hc. assert (config_in (files phone_disk !! config_toml) = Some with_phone) as Ho by (vm_compute; reflexivity).
  rewrite Ho in Hc. apply Some_inj in Hc as <-. split.
  - apply comment_char_ascii. vm_compute. reflexivity.
  - apply (bool_decide_unpack _). vm_compute. exact I.
Qed.
Lemma revoke_spec_witness :
  match revoke config_toml (ByName (str "phone")) phone_disk with
  | Ret (Ok i, s') => i = 2 /\ exists c c' entry, revoked c (ByName (str "phone")) entry c' /\ id entry = i /\
      result_of (read config_toml) s' = Some (Ok c') /\ files s' !! secret_file entry = None
  | _ => False
  end.
Proof.
  pose proof (revoke_spec config_toml (ByName (str "phone")) phone_disk phone_disk_plain) as H. unfold wp in H.
  assert (option_map fst (result_and_state (revoke config_toml (ByName (str "phone")) phone_disk)) = Some (Ok 2)) as Hr
    by (vm_compute; reflexivity).
  destruct (revoke config_toml (ByName (str "phone")) phone_disk) as [[[i|e] s']| |]; try discriminate Hr.
  cbn in Hr. assert (i = 2) as -> by congruence. split; [reflexivity|].
  destruct H as (c & c' & entry & _ & Hrev & Hid & Hread & Hgone & _). exists c, c', entry. auto.
Defined.

(** *** A certificate that the running service refuses *)
Module AcmeExamples.
Definition relay_acme : AcmeConfig :=
  {| NodeConfig.email := str "ops@relay.example"; NodeConfig.domains := [str "relay.example"];
     NodeConfig.dns_provider := str "cloudflare"; directory_url := LETS_ENCRYPT_PRODUCTION;
     state_dir := Path.from (str "/var/lib/velum/acme"); renew_before_days := 30 |}.
Definition cert_pem : Path := Path.from (str "/etc/velum/cert.pem").
Definition key_pem : Path := Path.from (str "/etc/velum/key.pem").
Definition new_crt : Path := obtained relay_acme (str "relay.example") (str ".crt").
Definition new_key : Path := obtained relay_acme (str "relay.example") (str ".key").
Definition renewed (faults : list (option nat)) : FileSystem :=
  {| files := <[new_crt := private_file (str "new certificate")]> (<[new_key := private_file (str "new key")]> (files (disk [])));
     faults := faults; umask := 420 |}.
Definition stat_never_fails : Stat := fun _ _ => false.
Definition refuses (_ : Path) (_ : gmap Path File) : bool := false.

Definition other_than (p : Path) (l : list Path) : bool := forallb (fun q => negb (bool_decide (p = q))) l.
Fixpoint distinct (l : list Path) : bool :=
  match l with [] => true | p :: l => other_than p l && distinct l end.
Lemma other_than_spec p l : other_than p l = true -> p ∉ l.
Proof.
  unfold other_than. rewrite forallb_forall. intros H Hin%list_elem_of_In. specialize (H p Hin).
  by rewrite bool_decide_true in H.
Qed.
Lemma distinct_spec l : distinct l = true -> NoDup l.
Proof.
  induction l as [|p l IH]; cbn; [by constructor|]. intros [Hp Hl]%andb_true_iff. constructor; [by apply other_than_spec|auto].
Qed.
Lemma relay_apart : live_apart (certificate (listener original_config)) (private_key (listener original_config)).
Proof. apply distinct_spec. vm_compute. reflexivity. Qed.
Lemma apart_from_new p : other_than p [cert_pem; key_pem; stage cert_pem; stage key_pem; backup cert_pem; backup key_pem] = true ->
  ~ touched (certificate (listener original_config)) (private_key (listener original_config)) p.
Proof.
  intros Hp%other_than_spec H. apply Hp.
  change (certificate (listener original_config)) with cert_pem in H.
  change (private_key (listener original_config)) with key_pem in H.
  unfold touched, scratch in H. rewrite !elem_of_cons. tauto.
Qed.

Lemma acme_activation_transaction_witness :
  match activate (H:=stat_never_fails) refuses config_toml original_config relay_acme true (renewed []) with
  | Ret (Err _, s') => contents <$> files s' !! cert_pem = Some (encode (str "certificate")) /\
                       contents <$> files s' !! key_pem = Some (encode (str "key"))
  | _ => False
  end.
Proof.
  pose proof (acme_activation_transaction (X:=stat_never_fails) refuses config_toml original_config relay_acme true
    (str "relay.example") (renewed []) eq_refl relay_apart
    (apart_from_new new_crt eq_refl) (apart_from_new new_key eq_refl)) as H.
  unfold wp in H.
  assert (option_map fst (result_and_state (activate (H:=stat_never_fails) refuses config_toml original_config relay_acme true (renewed [])))
    = Some (Err (RestoredPrevious ReloadRefused))) as Hr by (vm_compute; reflexivity).
  destruct (activate _ _ _ _ _ _) as [[[[]|e] s']| |]; try discriminate Hr. cbn in Hr.
  assert (e = RestoredPrevious ReloadRefused) as -> by congruence.
  destruct H as (_ & _ & _ & H). destruct (H (fun _ => eq_refl) (fun _ => eq_refl) (fun x => x)) as [Hc Hk]. split; [exact Hc|exact Hk].
Defined.

(** [metadata] of the live certificate fails once, when it is to be backed up: no
    backup is made, and what is reported as restored is removed. *)
Definition stat_fails_before_replacing : Stat := fun p s =>
  bool_decide (p = cert_pem) && bool_decide (contents <$> files s !! cert_pem = Some (encode (str "certificate"))).
Example metadata_failure_loses_certificate :
  option_map (fun '(r, s') => (r, files s' !! cert_pem, contents <$> files s' !! key_pem))
    (result_and_state (activate (H:=stat_fails_before_replacing) refuses config_toml original_config relay_acme true
       (renewed [])))
  = Some (Err (RestoredPrevious ReloadRefused), None, Some (encode (str "key"))).
Proof. vm_compute. reflexivity. Qed.
End AcmeExamples.
