(* ===== verification/ServiceExamples.v ===== *)
(** Concrete runs of the node's service, at which its theorems apply: a
    connection with a flow, an operator who reloads, drains and shuts down. *)
From S2P Require Import Prelude Net Str Utf8 Admission Relay NodeSocket NodeServe NodeFiles NodeConfig NodeService NodeExamples.
Import Utf8.

#[local] Existing Instance NodeExamples.toml.
#[local] Existing Instance NodeExamples.libraries.
#[local] Existing Instance test_ct_eq.
#[local] Existing Instance test_ct_eq_laws.

Definition relay_config : QuicRelayConfig :=
  {| schema_version := 1; connect_timeout := 5000000000; control_timeout := 5000000000;
     shutdown_timeout := 5000000000; max_control_bytes := MAX_SECRET_BYTES + 64;
     max_connections := 2; max_streams_per_connection := 1 |}.
(** What the service was started with, and the address it is bound to. *)
Definition loaded : option LoadedConfig :=
  match result_of (load config_toml) (disk []) with Some (Ok l) => Some l | _ => None end.
Definition bound : SocketAddr := match loaded with Some l => bind_address l | None => SocketV4 0 0 end.
Definition with_first (P : ServerConfig -> Prop) : Prop :=
  match loaded with Some l => P (server_config l) | None => False end.

(** ** Steps as a function *)
Inductive Move :=
| Listens (turn : Turn)
| Reloads (s : FileSystem)
| Stops (turn : Stop)
| Moves (i : nat) (v : ConnectionEvent)
| Operates (t : nat) (v : AdminEvent)
| Asks (t : nat) (text : Str).
Definition answers_of (text : Str) : list ReadAnswer := map Byte (encode (line text)).
Definition move (m : Move) (w : World) : option World :=
  match m with
  | Listens (TakeControl _) => None
  | Listens turn => listener_turn turn w
  | Reloads s => listener_turn (TakeControl (reload_answer config_toml bound s)) w
  | Stops turn => stop_turn turn w
  | Moves i v => connection_turn relay_config i v w
  | Operates t v => admin_turn t (IpText.IpDisplay.display_socket bound) v w
  | Asks t text =>
    match admins w !! t with Some _ => None | None => Some (put_admin t (Requested (read_request (answers_of text))) w) end
  end.
Lemma move_step m w w' : move m w = Some w' -> step relay_config config_toml bound w w'.
Proof.
  destruct m as [[]|s|turn|i v|t v|t text]; cbn [move]; intros Hm; try done;
    try (eapply step_listener; [|exact Hm]; done).
  - eapply step_listener; [|exact Hm]. intros r [= <-]. by exists s.
  - by eapply step_stop.
  - by eapply step_connection.
  - by eapply step_admin.
  - destruct (admins w !! t) eqn:Ht; [done|]. apply Some_inj in Hm as <-. by apply step_request.
Qed.
Fixpoint moves (l : list Move) (w : World) : option World :=
  match l with
  | [] => Some w
  | m :: l => match move m w with Some w => moves l w | None => None end
  end.
Lemma moves_rtc l w w' : moves l w = Some w' -> rtc (step relay_config config_toml bound) w w'.
Proof.
  revert w. induction l as [|m l IH]; intros w; cbn.
  - by intros [= ->].
  - destruct (move m w) as [w1|] eqn:Hm; [|done]. intros H. eapply rtc_l; [by eapply move_step|by apply IH].
Qed.
Lemma moves_reachable first l w w' :
  reachable relay_config config_toml bound first w -> moves l w = Some w' ->
  reachable relay_config config_toml bound first w'.
Proof.
  revert w. induction l as [|m l IH]; intros w Hw; cbn.
  - by intros [= <-].
  - destruct (move m w) as [w1|] eqn:Hm; [|done]. apply IH. eapply reachable_step; [exact Hw|by eapply move_step].
Qed.

(** ** A connection with a flow, and a reload *)
Definition busy_and_reloaded : list Move :=
  [Listens Incoming; Moves 0 HandshakeDone; Moves 0 StreamAccepted; Moves 0 (FlowStarts 0); Moves 0 StreamAccepted;
   Asks 7 (str "reload"); Operates 7 (Go 0); Operates 7 (Go 0); Reloads (disk []); Operates 7 (Go 0)].
Definition seen (w : World) : N * nat * N * N * bool * list QuicRelayEvent :=
  (slots w, length (server_configs w), connections_ (status w), flows_ (status w),
   bool_decide (match admins w !! 7%nat with Some (Responded r) => r | _ => [] end = line (str "reloaded")), events w).

Example busy_and_reloaded_runs :
  option_map (fun l => option_map seen (moves busy_and_reloaded (initial relay_config (server_config l)))) loaded
  = Some (Some (1, 2%nat, 1, 1, true, [ConnectionAccepted; StreamRejected])).
Proof. vm_compute. reflexivity. Qed.

(** A status is read in three loads. *)
Definition status_of (t : nat) : list Move := [Asks t (str "status"); Operates t (Go 3); Operates t (Go 3); Operates t (Go 3)].
Definition answered (t : nat) (w : World) : Str := match admins w !! t with Some (Responded r) => r | _ => [] end.
Example status_answers :
  option_map (fun l => option_map (answered 8) (moves (busy_and_reloaded ++ status_of 8) (initial relay_config (server_config l)))) loaded
  = Some (Some (RuntimeStatus.render {| phase := RUNNING; connections_ := 1; flows_ := 1 |}
      (IpText.IpDisplay.display_socket bound) 3 false)).
Proof. vm_compute. reflexivity. Qed.

(** Where a run of moves leads, from the start of the service. *)
Definition run (l : list Move) : option World :=
  match loaded with Some conf => moves l (initial relay_config (server_config conf)) | None => None end.
Lemma run_reachable l w :
  run l = Some w -> exists first, reachable relay_config config_toml bound first w.
Proof.
  unfold run. destruct loaded as [conf|]; [|done]. intros Hm. exists (server_config conf).
  eapply moves_reachable; [apply reachable_initial|exact Hm].
Qed.
Lemma run_rtc l w l' w' :
  run l = Some w -> run (l ++ l') = Some w' -> rtc (step relay_config config_toml bound) w w'.
Proof.
  unfold run. destruct loaded as [conf|]; [|done]. generalize (initial relay_config (server_config conf)) as w0.
  induction l as [|m l IH]; intros w0; cbn.
  - intros [= ->]. apply moves_rtc.
  - destruct (move m w0) as [w1|]; [|done]. apply IH.
Qed.

Lemma service_counts_witness :
  match run busy_and_reloaded with
  | Some w =>
    slots w + sum holds_slot (connections w) = 2 /\ connections_ (status w) = sum serving (connections w) /\
    flows_ (status w) = sum open_flows (connections w)
  | None => False
  end.
Proof.
  assert (option_map (fun w => aborting (listener_task w)) (run busy_and_reloaded) = Some false) as Ha by (vm_compute; reflexivity).
  destruct (run busy_and_reloaded) as [w|] eqn:Hw; [|discriminate Ha]. cbn in Ha.
  destruct (run_reachable _ _ Hw) as [first Hr].
  destruct (service_counts relay_config config_toml bound first w Hr) as (Hs & _ & _ & Hc).
  assert (aborting (listener_task w) = false) as Ha' by congruence.
  destruct (Hc Ha') as [H1 H2]. split; [exact Hs|].
  split; [exact (proj1 (H1 ltac:(reflexivity)))|exact (proj1 (H2 ltac:(reflexivity)))].
Defined.

Lemma reload_keeps_last_good_witness :
  match run busy_and_reloaded with
  | Some w =>
    length (server_configs w) = 2%nat /\
    exists c, (Some 7%nat, c) ∈ server_configs w
  | None => False
  end.
Proof.
  assert (option_map (fun w => (length (server_configs w), match admins w !! 7%nat with Some (Responded r) => Some r | _ => None end))
    (run busy_and_reloaded) = Some (2%nat, Some (line (str "reloaded")))) as Ha by (vm_compute; reflexivity).
  destruct (run busy_and_reloaded) as [w|] eqn:Hw; [|discriminate Ha].
  destruct (run_reachable _ _ Hw) as [first Hr].
  destruct (reload_keeps_last_good relay_config config_toml bound first w Hr) as (_ & Hrep & _).
  injection Ha as Hlen Hreply. split; [exact Hlen|]. apply Hrep.
  destruct (admins w !! 7%nat) as [[]|]; try discriminate Hreply. apply Some_inj in Hreply as ->. reflexivity.
Defined.

(** *** Draining

    The operator drains; the flow returns, the connection is lost, its task ends
    and is joined. *)
Definition drain_begins : list Move :=
  busy_and_reloaded ++ [Asks 8 (str "drain"); Operates 8 (Go 0); Operates 8 (Go 0); Reloads (disk [])].
Definition connection_ends : list Move :=
  [Operates 8 (Go 0); Moves 0 ConnectionLost; Moves 0 (FlowReturns 0); Moves 0 (FlowEnds 0); Moves 0 FlowsDone;
   Moves 0 TaskEnds; Listens (JoinNext 0)].
Lemma draining_admits_nothing_witness :
  match run drain_begins, run (drain_begins ++ connection_ends) with
  | Some w, Some w' =>
    length (connections w') = 1%nat /\
    exists w1 w2, listener_turn Incoming w' = Some w1 /\ stop_turn StopReturn w1 = Some w2 /\ listener_task w2 = Returned (Ok tt)
  | _, _ => False
  end.
Proof.
  assert (option_map (fun w => (listener_task w, length (connections w))) (run drain_begins) = Some (Accepting true, 1%nat)) as H1
    by (vm_compute; reflexivity).
  assert (option_map (fun w => (listener_task w, all_joined w)) (run (drain_begins ++ connection_ends)) = Some (Accepting true, true)) as H2
    by (vm_compute; reflexivity).
  destruct (run drain_begins) as [w|] eqn:Hw; [|discriminate H1].
  destruct (run (drain_begins ++ connection_ends)) as [w'|] eqn:Hw'; [|discriminate H2].
  injection H1 as H1 Hlen. injection H2 as H2 Hj.
  destruct (draining_admits_nothing relay_config config_toml bound w w') as (_ & Hlen' & Hlast);
    [rewrite H1; reflexivity|exact (run_rtc _ _ _ _ Hw Hw')|]. split; [congruence|].
  destruct (Hlast H2 Hj Incoming) as (w1 & w2 & Ht & Hr & Hret & _). exists w1, w2. repeat split; assumption.
Defined.

(** *** Stopping

    A shutdown while the connection is served: it can be left to time out. *)
Definition shutdown : list Move :=
  busy_and_reloaded ++ [Asks 9 (str "shutdown"); Operates 9 (Go 0); Operates 9 (Go 0); Reloads (disk [])].
Lemma service_can_stop_witness :
  match run shutdown with
  | Some w => stop_measure w = 3 /\ exists turns w', (length turns <= 3)%nat /\ stop_turns turns w = Some w' /\ listener_task w' = Returned (Ok tt)
  | None => False
  end.
Proof.
  assert (option_map (fun w => (listener_task w, stop_measure w)) (run shutdown) = Some (Stopping false, 3)) as H1
    by (vm_compute; reflexivity).
  destruct (run shutdown) as [w|] eqn:Hw; [|discriminate H1].
  injection H1 as H1 Hm. split; [exact Hm|].
  destruct (service_can_stop relay_config config_toml bound w false H1) as (_ & (turns & w' & Hlen & Ht & Hr) & _).
  exists turns, w'. rewrite Hm in Hlen. repeat split; assumption.
Defined.

(** A drain that was sent first sets its phase last: the status of a service
    that is stopping is "draining". *)
Example drain_hides_shutdown :
  option_map (fun w => (listener_task w, phase (status w)))
    (run (busy_and_reloaded ++
          [Asks 1 (str "drain"); Operates 1 (Go 0); Operates 1 (Go 0); Asks 2 (str "shutdown"); Operates 2 (Go 0);
           Operates 2 (Go 0); Reloads (disk []); Reloads (disk []); Operates 2 (Go 0); Operates 1 (Go 0)]))
  = Some (Stopping false, DRAINING).
Proof. vm_compute. reflexivity. Qed.

(** A reload that finds a secret of sixty-four bytes in which two bytes of one
    pair are not text of their own panics, and takes the listener with it. *)
Definition broken_disk : FileSystem :=
  {| files := <[Path.from (str "/etc/velum/credential.hex") := private_file (97 :: 233 :: replicate 61 97)]> (files (disk []));
     faults := []; umask := 420 |}.
Example broken_reload_takes_listener_down :
  option_map listener_task
    (run [Asks 7 (str "reload"); Operates 7 (Go 0); Operates 7 (Go 0); Reloads broken_disk]) = Some Panicked.
Proof. vm_compute. reflexivity. Qed.

(** ** A node from its start to its end *)
Module ServeExamples.
Definition answers : Answers (E := unit) :=
  {| binds_cover := true; binds_endpoint := true; NodeServe.local_addr := Some (SocketV4 2130706433 443);
     cover_local_addr := None; listens := Ok tt |}.
Definition node (m : Machine) : Node := {| NodeServe.disk := disk []; NodeServe.machine := m; log := [] |}.
Definition machine : Machine :=
  {| NodeSocket.entries := list_to_map
       [(Path.from (str "/"), Here {| NodeSocket.kind := Directory; NodeSocket.mode := 493 |});
        (Path.from (str "/etc"), Here {| NodeSocket.kind := Directory; NodeSocket.mode := 493 |});
        (Path.from (str "/etc/velum"), Here {| NodeSocket.kind := Directory; NodeSocket.mode := 448 |})];
     NodeSocket.faults := []; NodeSocket.umask := 18 |}.

Definition same_event (e : Event) (k : nat) : bool :=
  match e, k with
  | CoverBound _, 0%nat | EndpointBound _, 1%nat | CoverSpawned _, 2%nat | AdminSpawned _ _, 3%nat | SignalsWatched, 4%nat
  | Served _, 5%nat | SignalsAborted, 6%nat | AdminStopped, 7%nat | CoverTold, 8%nat | CoverAwaited, 9%nat => true
  | _, _ => false
  end.
Definition went (l : list Event) (ks : list nat) : bool :=
  (length l =? length ks)%nat && forallb (fun '(e, k) => same_event e k) (zip l ks).

Lemma serve_ends_what_it_started_witness :
  match serve answers config_toml (node machine) with
  | Ret (r, s') => r = Ok tt /\ went (log s') [1; 3; 4; 5; 6; 7; 8]%nat = true /\
      exists loaded, ran answers loaded (log s') r
  | _ => False
  end.
Proof.
  pose proof (serve_ends_what_it_started answers config_toml (node machine) eq_refl) as H. unfold wp_or_panic in H.
  assert (match serve answers config_toml (node machine) with
          | Ret (Ok _, s') => went (log s') [1; 3; 4; 5; 6; 7; 8]%nat | _ => false end = true) as Hr by (vm_compute; reflexivity).
  destruct (serve answers config_toml (node machine)) as [[[[]|e] s']| |]; try discriminate Hr.
  split; [reflexivity|]. split; [exact Hr|].
  destruct H as (_ & [((e & He) & _)|(conf & loaded & _ & _ & [(_ & [])|Hran])]); [discriminate He|]. exists loaded. exact Hran.
Defined.
(** A directory for the socket that others can enter: the node gives up before it serves. *)
Example open_directory :
  match serve answers config_toml
    (node (NodeSocket.set_entries (<[Path.from (str "/etc/velum/.velum-admin") := Here {| NodeSocket.kind := Directory; NodeSocket.mode := 511 |}]>
       (NodeSocket.entries machine)) machine)) with
  | Ret (Err (CannotSpawnAdmin (DirectoryNotPrivate _)), s') => went (log s') [1]%nat
  | _ => false
  end = true.
Proof. vm_compute. reflexivity. Qed.
End ServeExamples.
