(* ===== verification/DeploymentExamples.v ===== *)
(** Concrete runs of deploying and removing a node, at which the theorems of
    [NodeDeployment] apply. *)
From S2P Require Import Prelude Net Str Utf8 Admission NodeFiles NodeConfig NodeExamples NodeDeployment NodeCommands.
Import Utf8.

#[local] Existing Instance NodeExamples.toml.
#[local] Existing Instance NodeExamples.libraries.
#[local] Existing Instance test_ct_eq.
#[local] Existing Instance test_ct_eq_laws.

#[local] Instance File_eq_dec : EqDecision File.
Proof. solve_decision. Defined.

Definition relay_program : Path := Path.from (str "/opt/Velum Relay/velum").
Definition operator : Environment :=
  {| xdg_config_home := None; home := Some (str "/root"); current_dir := Path.from (str "/");
     current_exe := Some relay_program |}.
Definition run_of {R} (m : outcome (R * Host)) : option (R * Host) := match m with Ret r => Some r | _ => None end.
(** The disk of a configured node with its program; the file calls have
    [faults], [systemctl] answers [answers]. *)
Definition machine (faults : list (option nat)) (answers : list (option bool)) : Host :=
  {| disk := {| files := <[relay_program := private_file (str "program")]> (files (NodeExamples.disk []));
                NodeFiles.faults := faults; umask := 420 |};
     asked := []; statuses := answers |}.

Lemma unit_not_injected_witness :
  nth_error (lines (render_unit relay_program config_toml 10)) 7 =
    Some (str "ExecStart=" ++ quoted (str "/opt/Velum Relay/velum") ++ str " serve --config " ++ quoted (str "/etc/velum/config.toml")) /\
  forall secs', render_unit relay_program config_toml 10 <> render_unit (Path.from (str "/opt/Velum")) config_toml secs'.
Proof.
  destruct (unit_not_injected relay_program config_toml 10 ltac:(vm_compute; reflexivity) ltac:(vm_compute; reflexivity))
    as [Hlines Hinj].
  split; [rewrite Hlines; vm_compute; reflexivity|]. intros secs' Heq.
  destruct (Hinj (Path.from (str "/opt/Velum")) config_toml secs' ltac:(vm_compute; reflexivity) ltac:(vm_compute; reflexivity) Heq)
    as [Hd _].
  vm_compute in Hd. discriminate Hd.
Defined.

(** A service that is not active yet is started; the unit is in place. *)
Definition deploying (dry_run : bool) : M Host DeployError Deployed := deploy operator config_toml None dry_run.
Definition fresh_machine : Host := machine [] [Some false; Some true; Some true; Some true].
Lemma deploy_spec_witness :
  match deploying false fresh_machine with
  | Ret (Ok d, s') => deployed operator config_toml relay_program false fresh_machine (Ok d) s' /\
      nth_error (asked s') 3 = Some [str "start"; unit_name config_toml]
  | _ => False
  end.
Proof.
  pose proof (deploy_spec operator config_toml None false fresh_machine) as H.
  change (Path.join_path (current_dir operator) config_toml) with config_toml in H.
  change (Path.join_path (current_dir operator) (binary_of operator None)) with relay_program in H. cbv zeta in H. unfold wp_or_panic in H.
  assert (option_map (fun r => (is_ok r.1, nth_error (asked r.2) 3))
    (run_of (deploying false fresh_machine))
    = Some (true, Some [str "start"; unit_name config_toml])) as Hr by (vm_compute; reflexivity).
  unfold deploying in *. destruct (deploy _ _ _ _ _) as [[[d|e] s']| |]; try discriminate Hr.
  split; [exact H|].
  change (Some (true, nth_error (asked s') 3) = Some (true, Some [str "start"; unit_name config_toml])) in Hr. by apply Some_inj, pair_eq in Hr as [_ Hr].
Defined.

(** *** Removing what was deployed *)
Definition deployed_machine : Host :=
  match deploying false (machine [] [Some false; Some true; Some true; Some true; Some true; Some true]) with
  | Ret (_, s') => s'
  | _ => machine [] []
  end.
Lemma uninstall_spec_witness :
  match uninstall operator config_toml true deployed_machine with
  | Ret (Ok report, s') => service_removed report = true /\ removed operator config_toml true deployed_machine report s' /\
      files (disk s') = delete config_toml (files (disk (machine [] [])))
  | _ => False
  end.
Proof.
  pose proof (uninstall_spec operator config_toml true deployed_machine eq_refl) as H.
  change (Path.join_path (current_dir operator) config_toml) with config_toml in H. cbv zeta in H. unfold wp in H.
  assert (option_map (fun '(r, s') => (match r with Ok report => service_removed report | Err _ => false end,
      bool_decide (files (disk s') = delete config_toml (files (disk (machine [] []))))))
    (run_of (uninstall operator config_toml true deployed_machine)) = Some (true, true)) as Hr
    by (vm_compute; reflexivity).
  destruct (uninstall _ _ _ _) as [[[report|e] s']| |]; try discriminate Hr.
  change (Some (service_removed report, bool_decide (files (disk s') = delete config_toml (files (disk (machine [] []))))) = Some (true, true)) in Hr.
  apply Some_inj, pair_eq in Hr as [Hs Hr]. split; [exact Hs|]. split; [exact H|]. by eapply bool_decide_eq_true_1.
Defined.
