(* ===== verification/ClientApi.v ===== *)
(** The direct client API ([velum-client-api/src/lib.rs]): the configuration
    of a connection, its establishment, control records and datagrams.  What
    [quinn], [rustls] and the network answer is an input. *)
From S2P Require Import Prelude Net Str Utf8 IpText SocketText Datagram Relay Carriers Runtime.

Definition MAX_CREDENTIAL_BYTES : N := 128.
Definition OPEN_HEADER_BYTES : N := 4.
(** The [usize] of the platforms the client is built for. *)
Definition USIZE_MAX : N := U64_MAX.

(** A certificate is known by its DER bytes. *)
Inductive ClientTrust :=
| System
| CustomRoots (certificates : list (list byte))
| Insecure.

(** [connect_timeout] is a number of nanoseconds. *)
Record ClientConfig := {
  relay_address : SocketAddr;
  server_name : Str;
  credential : list byte;
  trust : ClientTrust;
  connect_timeout : N
}.
Inductive ClientConfigError :=
| EmptyServerName
| InvalidCredentialLength
| MissingRootCertificate
| ZeroConnectTimeout.

#[export] Instance ClientTrust_eq_dec : EqDecision ClientTrust. Proof. solve_decision. Defined.
#[export] Instance ClientConfig_eq_dec : EqDecision ClientConfig. Proof. solve_decision. Defined.

Definition no_roots (trust : ClientTrust) : bool :=
  match trust with CustomRoots certificates => is_empty certificates | _ => false end.

Module ClientConfig.
Definition new (relay_address : SocketAddr) (server_name : Str) (credential : list byte) (trust : ClientTrust)
  (connect_timeout : N) : result ClientConfig ClientConfigError :=
  if is_empty server_name then Err EmptyServerName
  else if is_empty credential || (MAX_CREDENTIAL_BYTES <? len credential) then Err InvalidCredentialLength
  else if no_roots trust then Err MissingRootCertificate
  else if connect_timeout =? 0 then Err ZeroConnectTimeout
  else Ok {| relay_address := relay_address; server_name := server_name; credential := credential; trust := trust;
             connect_timeout := connect_timeout |}.
End ClientConfig.

(** ** Connecting

    What is configured for the handshake: how the certificate of the server is
    verified, and the transport. *)
Inductive Verifier :=
| PlatformVerifier
| RootVerifier (roots : list (list byte))
| NoVerifier.
Record QuinnConfig := { verifier : Verifier; transport : TransportConfig }.

Inductive Handshake := HandshakeDone | HandshakeFailed | HandshakeTimedOut.

(** The answers of the libraries during one [connect]. *)
Record Quinn := {
  platform_verifier : bool;
  root_added : list byte -> bool;
  roots_usable : list (list byte) -> bool;
  insecure_usable : bool;
  idle_timeout_fits : N -> bool;
  endpoint_bound : bool;
  dialing : SocketAddr -> Str -> bool;
  handshake : QuinnConfig -> Handshake
}.

Section connect.
Variable quinn : Quinn.

Definition insecure_client_config : result Verifier ClientError :=
  if insecure_usable quinn then Ok NoVerifier else Err ErrorCertificate.

Fixpoint add_roots (roots certificates : list (list byte)) : result (list (list byte)) ClientError :=
  match certificates with
  | [] => Ok roots
  | certificate :: certificates =>
    if root_added quinn certificate then add_roots (roots ++ [certificate]) certificates
    else Err ErrorCertificate
  end.

Definition verifier_for (trust : ClientTrust) : result Verifier ClientError :=
  match trust with
  | System => if platform_verifier quinn then Ok PlatformVerifier else Err ErrorCertificate
  | CustomRoots certificates =>
    let? roots := add_roots [] certificates in
    if roots_usable quinn roots then Ok (RootVerifier roots) else Err ErrorCertificate
  | Insecure => insecure_client_config
  end.

Definition client_transport : QuicTransportProfile :=
  {| max_bidirectional_streams := max_bidirectional_streams profile_default;
     stream_receive_window := stream_receive_window profile_default;
     connection_receive_window := connection_receive_window profile_default;
     send_window := send_window profile_default;
     idle_timeout := idle_timeout profile_default;
     keep_alive_interval := Some (10 * 1000000000);
     datagram_receive_buffer_bytes := datagram_receive_buffer_bytes profile_default;
     datagram_send_buffer_bytes := datagram_send_buffer_bytes profile_default |}.

(** [Client]: the connection is one for the configuration it was made with. *)
Record Client := { client_quinn : QuinnConfig; client_credential : list byte }.

Definition connect (config : ClientConfig) : result Client ClientError :=
  let? verifier := verifier_for (trust config) in
  let? transport :=
    match QuicTransportProfile.build (idle_timeout_fits quinn) client_transport with
    | Ok transport => Ok transport
    | Err _ => Err ErrorTransport
    end in
  let client_config := {| verifier := verifier; transport := transport |} in
  if negb (endpoint_bound quinn) then Err ErrorConnection
  else if negb (dialing quinn (relay_address config) (server_name config)) then Err ErrorConnection
  else
    match handshake quinn client_config with
    | HandshakeTimedOut => Err ErrorConnectTimeout
    | HandshakeFailed => Err ErrorConnection
    | HandshakeDone => Ok {| client_quinn := client_config; client_credential := credential config |}
    end.
End connect.

(** ** Streams *)
Definition encode_open (credential : list byte) (target : SocketAddr) : result (list byte) ClientError :=
  match u16_try_from (len credential) with
  | None => Err ErrorControlTooLarge
  | Some credential_length =>
    let target := Utf8.encode (IpDisplay.display_socket target) in
    match u16_try_from (len target) with
    | None => Err ErrorControlTooLarge
    | Some target_length =>
      match checked_add USIZE_MAX OPEN_HEADER_BYTES (len credential) ≫= fun value => checked_add USIZE_MAX value (len target) with
      | None => Err ErrorControlTooLarge
      | Some _ =>
        Ok (to_be_bytes 2 credential_length ++ to_be_bytes 2 target_length ++ credential ++ target)
      end
    end
  end.

(** What [quinn] answers on a new stream: whether it opens, and whether it
    takes the control record.  The stream is what was written to it. *)
Definition open_stream (self : Client) (target : SocketAddr) (opened written : bool)
  : result (list byte) ClientError :=
  if negb opened then Err ErrorTransport
  else
    let? control := encode_open (client_credential self) target in
    if written then Ok control else Err ErrorTransport.

(** ** Datagrams

    The state is what was handed to the connection. *)
Record ClientDatagram := { datagram_session : DatagramSessionId; source : SocketAddr; payload : list byte }.

Definition send_datagram (self : Client) (connection : QuicConnection) (session_id : DatagramSessionId)
  (destination : SocketAddr) (payload : list byte) : M (list (list byte)) ClientError unit :=
  let! encoded :=
    map_err (fun _ => ErrorDatagramTooLarge)
      (run_outcome (Datagram.encode (ClientToServer (client_credential self) session_id destination payload))) in
  let! maximum := ok_or (max_datagram_size connection) ErrorDatagramUnavailable in
  reject_if (maximum <? len encoded) ErrorDatagramTooLarge ;!
  reject_if (negb (datagram_sent connection)) ErrorTransport ;!
  modify (fun handed => handed ++ [encoded]).

Definition receive_datagram (connection : QuicConnection) : outcome (result ClientDatagram ClientError) :=
  match datagram_read connection with
  | None => Ret (Err ErrorTransport)
  | Some encoded =>
    match Datagram.decode encoded with
    | Ret (Ok (ServerToClient session_id source payload)) =>
      Ret (Ok {| datagram_session := session_id; source := source; payload := payload |})
    | Ret (Ok (ClientToServer _ _ _ _)) => Ret (Err ErrorProtocol)
    | Ret (Err _) => Ret (Err ErrorProtocol)
    | Panic => Panic
    | OutOfFuel => OutOfFuel
    end
  end.

(** ** What the operations do *)
Lemma config_new_spec a n c t d :
  match ClientConfig.new a n c t d with
  | Ok config =>
    config = {| relay_address := a; server_name := n; credential := c; trust := t; connect_timeout := d |} /\
    n <> [] /\ c <> [] /\ len c <= MAX_CREDENTIAL_BYTES /\ t <> CustomRoots [] /\ d <> 0
  | Err EmptyServerName => n = []
  | Err InvalidCredentialLength => n <> [] /\ (c = [] \/ MAX_CREDENTIAL_BYTES < len c)
  | Err MissingRootCertificate => n <> [] /\ c <> [] /\ len c <= MAX_CREDENTIAL_BYTES /\ t = CustomRoots []
  | Err ZeroConnectTimeout => n <> [] /\ c <> [] /\ len c <= MAX_CREDENTIAL_BYTES /\ t <> CustomRoots [] /\ d = 0
  end.
Proof.
  unfold ClientConfig.new. destruct n as [|x n]; [done|]. cbn [is_empty].
  destruct c as [|b c]; [by cbn; auto|]. cbn [is_empty orb].
  destruct (N.ltb_spec MAX_CREDENTIAL_BYTES (len (b :: c))) as [Hl|Hl]; [by auto|].
  destruct (no_roots t) eqn:Ht.
  - destruct t as [|[|]|]; done.
  - assert (t <> CustomRoots []) by (by intros ->). destruct (N.eqb_spec d 0) as [->|]; by split_and!.
Qed.

Lemma config_new_Ok a n c t d config :
  ClientConfig.new a n c t d = Ok config <->
  config = {| relay_address := a; server_name := n; credential := c; trust := t; connect_timeout := d |} /\
  n <> [] /\ c <> [] /\ len c <= MAX_CREDENTIAL_BYTES /\ t <> CustomRoots [] /\ d <> 0.
Proof.
  pose proof (config_new_spec a n c t d) as H. split.
  - intros Heq. by rewrite Heq in H.
  - intros (-> & Hn & Hc & Hl & Ht & Hd). destruct (ClientConfig.new a n c t d) as [config'|[]].
    + by destruct H as [-> _].
    + done.
    + destruct H as [_ [->|H]]; [done|lia].
    + by destruct H as (_ & _ & _ & ?).
    + by destruct H as (_ & _ & _ & _ & ?).
Qed.

Lemma add_roots_Ok quinn roots certificates all :
  add_roots quinn roots certificates = Ok all -> all = roots ++ certificates /\ Forall (fun c => root_added quinn c = true) certificates.
Proof.
  revert roots. induction certificates as [|c l IH]; cbn; intros roots.
  - intros [= <-]. by rewrite app_nil_r.
  - destruct (root_added quinn c) eqn:Hc; [|done]. intros [-> Hl]%IH. split; [by rewrite <-app_assoc|by constructor].
Qed.

(** The verification of a server that the trust asks for. *)
Definition verifies (trust : ClientTrust) : Verifier :=
  match trust with
  | System => PlatformVerifier
  | CustomRoots certificates => RootVerifier certificates
  | Insecure => NoVerifier
  end.

Lemma verifier_for_Ok quinn trust v : verifier_for quinn trust = Ok v -> v = verifies trust.
Proof.
  destruct trust as [|certificates|]; cbn.
  - by destruct (platform_verifier quinn); [intros [= <-]|].
  - intros (roots & [-> _]%add_roots_Ok & Hr)%and_then_Ok. by destruct (roots_usable quinn _); [injection Hr as <-|].
  - unfold insecure_client_config. by destruct (insecure_usable quinn); [intros [= <-]|].
Qed.

Lemma connect_Ok quinn config client :
  connect quinn config = Ok client ->
  client_credential client = credential config /\ verifier (client_quinn client) = verifies (trust config) /\
  QuicTransportProfile.build (idle_timeout_fits quinn) client_transport = Ok (transport (client_quinn client)).
Proof.
  unfold connect. intros (v & Hv%verifier_for_Ok & H)%and_then_Ok. apply and_then_Ok in H as (t & Ht & H).
  destruct (endpoint_bound quinn), (dialing quinn _ _); try done. cbn [negb] in H.
  destruct (handshake quinn _); try done. injection H as <-. cbn. split_and!; [done..|].
  by destruct (QuicTransportProfile.build _ _); [injection Ht as ->|].
Qed.

(** The record of the client is the record the node's crate writes itself. *)
Lemma encode_open_relay c target :
  valid_request {| open_secret := c; Relay.target := target |} ->
  exists bytes, encode_open c target = Ok bytes /\
    Relay.encode_open {| open_secret := c; Relay.target := target |} = Ok bytes.
Proof.
  intros Hr. pose proof Hr as (Hne & Hs & Hp). destruct (encode_open_ok _ Hr) as [Henc Ht]. cbn in *.
  eexists. split; [|exact Henc]. unfold encode_open, u16_try_from, Relay.MAX_SECRET_BYTES in *.
  rewrite (proj2 (N.leb_le _ _)) by (unfold U16_MAX; lia).
  rewrite (proj2 (N.leb_le _ _)) by (unfold U16_MAX; lia).
  unfold checked_add, OPEN_HEADER_BYTES, USIZE_MAX.
  rewrite (proj2 (N.leb_le (4 + _) _)) by (unfold U64_MAX; lia). cbn [mbind option_bind].
  by rewrite (proj2 (N.leb_le _ _)) by (unfold U64_MAX; lia).
Qed.

Lemma encode_client_cases c i a p :
  credential_length_ok (len c) = true ->
  (exists bytes, Datagram.encode (ClientToServer c i a p) = Ret (Ok bytes)) \/
  (MAX_DATAGRAM_PAYLOAD_BYTES < len p /\ exists e, Datagram.encode (ClientToServer c i a p) = Ret (Err e)).
Proof.
  intros Hc. destruct (N.lt_ge_cases MAX_DATAGRAM_PAYLOAD_BYTES (len p)) as [Hp|Hp].
  - right. split; [done|]. unfold Datagram.encode. rewrite Hc. cbn [negb]. apply N.ltb_lt in Hp as ->. eauto.
  - left. apply credential_length_ok_spec in Hc as Hr.
    destruct (u8_try_from_small (len c)) as [l Hl%u8_try_from_byte]; [unfold MAX_DATAGRAM_CREDENTIAL_BYTES in *; lia|].
    eexists. by apply (encode_client_eq c i a p l).
Qed.

(** How a [send_datagram] ends. *)
Definition sent_or_refused (self : Client) (connection : QuicConnection) (d : Datagram) (payload : list byte)
  (handed : list (list byte)) (r : result unit ClientError) (handed' : list (list byte)) : Prop :=
  match r with
  | Ok _ => exists bytes maximum, Datagram.encode d = Ret (Ok bytes) /\ max_datagram_size connection = Some maximum /\
              len bytes <= maximum /\ handed' = handed ++ [bytes]
  | Err e => handed' = handed /\
      match e with
      | ErrorDatagramTooLarge =>
        MAX_DATAGRAM_PAYLOAD_BYTES < len payload \/
        exists bytes maximum, Datagram.encode d = Ret (Ok bytes) /\ max_datagram_size connection = Some maximum /\
          maximum < len bytes
      | ErrorDatagramUnavailable => max_datagram_size connection = None
      | ErrorTransport => datagram_sent connection = false
      | _ => False
      end
  end.

Lemma send_datagram_run self connection id destination payload handed :
  credential_length_ok (len (client_credential self)) = true ->
  let d := ClientToServer (client_credential self) id destination payload in
  exists r handed', send_datagram self connection id destination payload handed = Ret (r, handed') /\
    sent_or_refused self connection d payload handed r handed'.
Proof.
  intros Hc d. unfold send_datagram, map_err, run_outcome, bind. fold d.
  destruct (encode_client_cases (client_credential self) id destination payload Hc) as [[b Hb]|(Hp & e & He)].
  - fold d in Hb. rewrite Hb. unfold sent_or_refused. destruct (max_datagram_size connection) as [m|] eqn:Hm; cbn; [|by repeat eexists].
    destruct (N.ltb_spec m (len b)) as [Hl|Hl]; cbn; [by repeat eexists; eauto 10|].
    destruct (datagram_sent connection) eqn:Hs; cbn; repeat eexists; eauto.
  - fold d in He. rewrite He. repeat eexists. by left.
Qed.

Lemma receive_datagram_total connection : exists r, receive_datagram connection = Ret r.
Proof.
  unfold receive_datagram. destruct (datagram_read connection) as [b|]; [|eauto].
  destruct (Datagram.decode_spec b) as (r & -> & _). destruct r as [[]|]; eauto.
Qed.
Lemma receive_datagram_Ok connection id source payload :
  receive_datagram connection = Ret (Ok {| datagram_session := id; source := source; payload := payload |}) <->
  DatagramSessionId.wf id /\ SocketAddr.wf source /\ SocketAddr.plain source /\
  exists bytes, datagram_read connection = Some bytes /\ Datagram.encode (ServerToClient id source payload) = Ret (Ok bytes).
Proof.
  unfold receive_datagram. split.
  - destruct (datagram_read connection) as [b|]; [|done].
    destruct (Datagram.decode b) as [[[]|]| |] eqn:Hd; try done. intros [= -> -> ->].
    apply decode_accepts in Hd as [(Hi & Ha & Hp) He]. eauto 10.
  - intros (Hi & Ha & Hp & b & -> & He). assert (wf_datagram (ServerToClient id source payload)) as Hwf by done.
    by rewrite (decode_encode _ _ Hwf He).
Qed.

(** ** Properties *)

(** C39. The two crates speak one protocol: a connected client verifies the
    server the way its configuration says and no other, a stream it opens
    begins with a control record that the node reads back as the same
    credential and target, a datagram it hands over is at most what the
    connection takes and is decoded by the node as the same credential,
    session, destination and payload, and what it receives is exactly what a
    server encoded. *)
Theorem client_speaks_to_node quinn a n c t d config client :
  ClientConfig.new a n c t d = Ok config -> connect quinn config = Ok client ->
  verifier (client_quinn client) = verifies t /\
  (forall target rest, SocketText.printable target -> exists bytes,
     open_stream client target true true = Ok bytes /\
     read_open_request (bytes ++ rest) (max_control_bytes config_default) =
       Ok ({| open_secret := c; Relay.target := target |}, rest)) /\
  (forall connection id destination payload handed, exists r handed',
     send_datagram client connection id destination payload handed = Ret (r, handed') /\
     sent_or_refused client connection (ClientToServer c id destination payload) payload handed r handed' /\
     (r = Ok tt -> DatagramSessionId.wf id -> SocketAddr.wf destination -> SocketAddr.plain destination ->
      exists bytes, handed' = handed ++ [bytes] /\
        Datagram.decode bytes = Ret (Ok (ClientToServer c id destination payload)))) /\
  (forall connection id source payload,
     receive_datagram connection = Ret (Ok {| datagram_session := id; source := source; payload := payload |}) <->
     DatagramSessionId.wf id /\ SocketAddr.wf source /\ SocketAddr.plain source /\
     exists bytes, datagram_read connection = Some bytes /\
       Datagram.encode (ServerToClient id source payload) = Ret (Ok bytes)).
Proof.
  intros Hnew Hc. pose proof (config_new_spec a n c t d) as Hspec. rewrite Hnew in Hspec.
  destruct Hspec as (-> & _ & Hne & Hlen & _). apply connect_Ok in Hc as (Hcred & Hver & _). cbn in Hcred, Hver.
  split_and!; [done| | |apply receive_datagram_Ok].
  - intros target rest Hp.
    assert (valid_request {| open_secret := c; Relay.target := target |}) as Hv by done.
    destruct (encode_open_relay c target Hv) as (bytes & Hb & Henc).
    destruct (open_request_round_trip _ rest (max_control_bytes config_default) Hv) as (b & Hb' & _ & Hmax & Hread).
    assert (b = bytes) as -> by congruence. exists bytes. unfold open_stream. rewrite Hcred, Hb. by split; [|apply Hread].
  - intros connection id destination payload handed.
    destruct (send_datagram_run client connection id destination payload handed) as (r & handed' & Hrun & Hs).
    { rewrite Hcred. apply credential_length_ok_spec. unfold MAX_CREDENTIAL_BYTES, MAX_DATAGRAM_CREDENTIAL_BYTES in *.
      destruct c; [done|]. rewrite len_cons in *. lia. }
    rewrite Hcred in Hs. exists r, handed'. split_and!; [done..|]. intros -> Hi Ha Hp.
    destruct Hs as (bytes & maximum & He & _ & _ & Hh). exists bytes. split; [done|]. by apply decode_encode.
Qed.

(** ** A concrete connection *)
Module ClientApiExamples.
Definition quinn : Quinn :=
  {| platform_verifier := true; root_added := fun _ => true; roots_usable := fun _ => true; insecure_usable := true;
     idle_timeout_fits := fun _ => true; endpoint_bound := true; dialing := fun _ _ => true;
     handshake := fun _ => HandshakeDone |}.
Definition relay : SocketAddr := SocketV4 (ipv4 192 0 2 1) 443.
Definition config : ClientConfig :=
  {| relay_address := relay; server_name := str "relay.example"; credential := [x07]; trust := CustomRoots [[x30]];
     connect_timeout := 1000000000 |}.
Definition connection : QuicConnection :=
  {| rtt_millis := 1; stats := counters_default; close_reason := false; max_datagram_size := Some 1200;
     datagram_sent := true; stream_opened := true; stream_accepted := true; datagram_read := None |}.

Lemma client_speaks_to_node_witness :
  exists client, connect quinn config = Ok client /\ verifier (client_quinn client) = RootVerifier [[x30]] /\
    exists bytes, open_stream client relay true true = Ok bytes /\
      read_open_request bytes (max_control_bytes config_default) =
        Ok ({| open_secret := [x07]; Relay.target := relay |}, []).
Proof.
  assert (exists client, connect quinn config = Ok client) as [client Hc] by (eexists; vm_compute; reflexivity).
  exists client. split; [exact Hc|].
  destruct (client_speaks_to_node quinn relay (str "relay.example") [x07] (CustomRoots [[x30]]) 1000000000 config client)
    as (Hv & Hs & _); [vm_compute; reflexivity|exact Hc|].
  split; [exact Hv|]. destruct (Hs relay []) as (bytes & Hb & Hr); [repeat split; vm_compute; done|].
  exists bytes. rewrite app_nil_r in Hr. by split.
Defined.
End ClientApiExamples.
