(* ===== verification/ClientAbi.v ===== *)
(** The values of the C interface ([velum-client-ffi]: [abi.rs],
    [configuration.rs], [profile.rs], [enrollment.rs], the status maps of
    [lib.rs], [control.rs] and [engine.rs]): what is copied from the caller's
    memory, what is written to it, and the numbers of every status.

    A slice of the caller is a pointer, null or to bytes of which the caller
    promises as many as the length says. *)
From S2P Require Import Prelude Net Str Utf8 IpText SocketText Routing ClientProfile Enrollment NodePool Runtime ClientApi.

Definition ABI_VERSION : N := 2.
Definition RUNTIME_ABI_VERSION : N := 2.
Definition PROFILE_ABI_VERSION : N := 3.
Definition ENROLLMENT_ABI_VERSION : N := 1.
Definition ENGINE_ABI_VERSION : N := 1.

Record VelumByteSlice := { pointer : option (list byte); slice_length : N }.
Record VelumMutableByteSlice := { mutable_pointer : bool; mutable_length : N }.
Record VelumClientConfigInput := {
  input_relay_address : VelumByteSlice;
  input_server_name : VelumByteSlice;
  input_credential : VelumByteSlice;
  input_certificate_pem : VelumByteSlice;
  input_connect_timeout_millis : N;
  input_trust_mode : N
}.
Definition VELUM_TRUST_SYSTEM : N := 0.
Definition VELUM_TRUST_CUSTOM_CA : N := 1.
Definition VELUM_TRUST_INSECURE : N := 2.

(** ** Statuses *)
Module VelumStatus.
Inductive t :=
| Ok | InvalidArgument | InvalidHandle | Configuration | Certificate | ConnectTimeout | Connection | ControlTooLarge
| Transport | DatagramTooLarge | DatagramUnavailable | Protocol.
Definition as_i32 (s : t) : N :=
  match s with
  | Ok => 0 | InvalidArgument => 1 | InvalidHandle => 2 | Configuration => 3 | Certificate => 4 | ConnectTimeout => 5
  | Connection => 6 | ControlTooLarge => 7 | Transport => 8 | DatagramTooLarge => 9 | DatagramUnavailable => 10
  | Protocol => 11
  end.
End VelumStatus.

Module VelumControlStatus.
Inductive t := Ok | InvalidArgument | InvalidHandle | Configuration | Certificate | Busy | Internal.
Definition as_i32 (s : t) : N :=
  match s with
  | Ok => 0 | InvalidArgument => 1 | InvalidHandle => 2 | Configuration => 3 | Certificate => 4 | Busy => 5 | Internal => 6
  end.
End VelumControlStatus.

Module VelumProfileStatus.
Inductive t := Ok | InvalidArgument | Syntax | UnsupportedVersion | Limit | Validation | BufferTooSmall | Internal.
Definition as_i32 (s : t) : N :=
  match s with
  | Ok => 0 | InvalidArgument => 1 | Syntax => 2 | UnsupportedVersion => 3 | Limit => 4 | Validation => 5
  | BufferTooSmall => 6 | Internal => 7
  end.
End VelumProfileStatus.

Definition VelumRuntimePhase (p : RuntimePhase) : N :=
  match p with Stopped => 0 | Connecting => 1 | Online => 2 | Stopping => 3 | Failed => 4 end.
(** [None] is 0. *)
Definition VelumRuntimeFailure (f : option RuntimeFailure) : N :=
  match f with
  | None => 0
  | Some Certificate => 1
  | Some ConnectTimeout => 2
  | Some Connection => 3
  | Some ControlTooLarge => 4
  | Some DatagramTooLarge => 5
  | Some DatagramUnavailable => 6
  | Some Protocol => 7
  | Some Transport => 8
  end.

Record VelumRuntimeSnapshotV1 := {
  abi_revision : N;
  abi_generation : N;
  abi_phase : N;
  abi_failure : N
}.
Definition abi_snapshot_default : VelumRuntimeSnapshotV1 :=
  {| abi_revision := 0; abi_generation := 0; abi_phase := 0; abi_failure := 0 |}.
Definition snapshot_from (snapshot : RuntimeSnapshot) : VelumRuntimeSnapshotV1 :=
  {| abi_revision := revision snapshot; abi_generation := generation snapshot;
     abi_phase := VelumRuntimePhase (phase snapshot); abi_failure := VelumRuntimeFailure (failure snapshot) |}.

Record VelumEngineNodeSnapshotV1 := {
  profile_generation : N;
  configured : N;
  abi_is_default : N;
  abi_runtime : VelumRuntimeSnapshotV1
}.

Definition status_for_client (error : ClientError) : VelumStatus.t :=
  match error with
  | ErrorCertificate => VelumStatus.Certificate
  | ErrorConnectTimeout => VelumStatus.ConnectTimeout
  | ErrorConnection => VelumStatus.Connection
  | ErrorControlTooLarge => VelumStatus.ControlTooLarge
  | ErrorDatagramTooLarge => VelumStatus.DatagramTooLarge
  | ErrorDatagramUnavailable => VelumStatus.DatagramUnavailable
  | ErrorProtocol => VelumStatus.Protocol
  | ErrorTransport => VelumStatus.Transport
  end.
Definition status_for_runtime (error : RuntimeError) : VelumStatus.t :=
  match error with
  | ClientFailed error => status_for_client error
  | Busy | ExecutorUnavailable | NotOnline | Superseded => VelumStatus.Transport
  end.
Definition status_for_failure (failure : RuntimeFailure) : VelumStatus.t :=
  match failure with
  | Certificate => VelumStatus.Certificate
  | ConnectTimeout => VelumStatus.ConnectTimeout
  | Connection => VelumStatus.Connection
  | ControlTooLarge => VelumStatus.ControlTooLarge
  | DatagramTooLarge => VelumStatus.DatagramTooLarge
  | DatagramUnavailable => VelumStatus.DatagramUnavailable
  | Protocol => VelumStatus.Protocol
  | Transport => VelumStatus.Transport
  end.
Definition status_for_engine (error : NodePoolError) : VelumControlStatus.t :=
  match error with
  | Empty | DuplicateNode | MissingDefault | UnknownNode => VelumControlStatus.Configuration
  | PoolSuperseded | ConnectionFailed | PoolRuntime _ => VelumControlStatus.Internal
  end.
Definition status_for_profile (error : ProfileError.t) : VelumProfileStatus.t :=
  match ProfileError.kind error with
  | Syntax => VelumProfileStatus.Syntax
  | UnsupportedVersion => VelumProfileStatus.UnsupportedVersion
  | Limit => VelumProfileStatus.Limit
  | Validation => VelumProfileStatus.Validation
  end.

(** ** Copying the caller's bytes *)
Inductive ConfigurationInputError := InputInvalidArgument | InputConfiguration | InputCertificate.
Definition client_status_from (error : ConfigurationInputError) : VelumStatus.t :=
  match error with
  | InputInvalidArgument => VelumStatus.InvalidArgument
  | InputConfiguration => VelumStatus.Configuration
  | InputCertificate => VelumStatus.Certificate
  end.
Definition control_status_from (error : ConfigurationInputError) : VelumControlStatus.t :=
  match error with
  | InputInvalidArgument => VelumControlStatus.InvalidArgument
  | InputConfiguration => VelumControlStatus.Configuration
  | InputCertificate => VelumControlStatus.Certificate
  end.

Definition copy_bytes (value : VelumByteSlice) : result (list byte) ConfigurationInputError :=
  if slice_length value =? 0 then Ok []
  else match pointer value with
       | None => Err InputInvalidArgument
       | Some memory => Ok (prefix_to (slice_length value) memory)
       end.

Definition mutable_bytes (value : VelumMutableByteSlice) : result N VelumStatus.t :=
  if (mutable_length value =? 0) || negb (mutable_pointer value) then Err VelumStatus.InvalidArgument
  else Ok (mutable_length value).

(** [text]: identifiers and aliases of the engine. *)
Definition text (value : VelumByteSlice) : result Str VelumControlStatus.t :=
  match copy_bytes value with
  | Err e => Err (control_status_from e)
  | Ok bytes =>
    match Utf8.decode bytes with
    | None => Err VelumControlStatus.InvalidArgument
    | Some value => if is_empty value || (128 <? len bytes) then Err VelumControlStatus.Configuration else Ok value
    end
  end.

(** ** A connection's configuration

    [pem_reader_iter] reads the certificates of a PEM text. *)
Section configuration.
Variable pem_reader_iter : list byte -> option (list (list byte)).

Definition parse_configuration (relay_address server_name credential certificate_pem : list byte)
  (connect_timeout_millis trust_mode : N) : result ClientConfig ConfigurationInputError :=
  match Utf8.decode relay_address ≫= IpParser.parse_socket with
  | None => Err InputInvalidArgument
  | Some relay_address =>
    match Utf8.decode server_name with
    | None => Err InputInvalidArgument
    | Some server_name =>
      let? trust :=
        if trust_mode =? VELUM_TRUST_SYSTEM then Ok ClientApi.System
        else if trust_mode =? VELUM_TRUST_CUSTOM_CA then
          match pem_reader_iter certificate_pem with
          | Some certificates => Ok (CustomRoots certificates)
          | None => Err InputCertificate
          end
        else if trust_mode =? VELUM_TRUST_INSECURE then Ok Insecure
        else Err InputConfiguration in
      match ClientConfig.new relay_address server_name credential trust (connect_timeout_millis * 1000000) with
      | Ok config => Ok config
      | Err MissingRootCertificate => Err InputCertificate
      | Err (EmptyServerName | InvalidCredentialLength | ZeroConnectTimeout) => Err InputConfiguration
      end
    end
  end.

(** [None] is a null pointer. *)
Definition configuration_from_input (input : option VelumClientConfigInput)
  : result ClientConfig ConfigurationInputError :=
  match input with
  | None => Err InputInvalidArgument
  | Some input =>
    let? relay_address := copy_bytes (input_relay_address input) in
    let? server_name := copy_bytes (input_server_name input) in
    let? credential := copy_bytes (input_credential input) in
    let? certificate_pem := copy_bytes (input_certificate_pem input) in
    parse_configuration relay_address server_name credential certificate_pem
      (input_connect_timeout_millis input) (input_trust_mode input)
  end.
End configuration.

(** ** Texts returned in the caller's buffer

    The memory a call may write: what [out_required] or [out_written] points
    to, and the buffer. *)
Record Memory := { out : N; buffer : list byte }.
Definition write_out (n : N) (m : Memory) : Memory := {| out := n; buffer := buffer m |}.
Definition copy_nonoverlapping (source : list byte) (m : Memory) : Memory :=
  {| out := out m; buffer := source ++ suffix_from (len source) (buffer m) |}.

(** What a call returns; an early return is an error of [M]. *)
Definition returned (r : result VelumProfileStatus.t VelumProfileStatus.t) : VelumProfileStatus.t :=
  match r with Ok s => s | Err s => s end.
Definition call_status (m : M Memory VelumProfileStatus.t VelumProfileStatus.t) (s : Memory)
  : outcome (VelumProfileStatus.t * Memory) :=
  match m s with Ret (r, s') => Ret (returned r, s') | Panic => Panic | OutOfFuel => OutOfFuel end.

(** [canonical_profile] and [canonical_enrollment] *)
Definition canonical_profile `{ProfileYaml} (input : VelumByteSlice) : outcome (result (list byte) VelumProfileStatus.t) :=
  Ret match copy_bytes input with
      | Err _ => Err VelumProfileStatus.InvalidArgument
      | Ok source =>
        match Profiles.from_yaml source with
        | Err e => Err (status_for_profile e)
        | Ok profile =>
          match Profiles.to_canonical_yaml profile with
          | Ok text => Ok (Utf8.encode text)
          | Err _ => Err VelumProfileStatus.Internal
          end
        end
      end.

Definition canonical_enrollment `{BundleJson} (input : VelumByteSlice) : outcome (result (list byte) VelumProfileStatus.t) :=
  match copy_bytes input with
  | Err _ => Ret (Err VelumProfileStatus.InvalidArgument)
  | Ok source =>
    match EnrollmentJson.from_json source with
    | Ret (Err e) => Ret (Err (status_for_profile e))
    | Ret (Ok enrollment) =>
      match EnrollmentJson.to_canonical_json enrollment with
      | Ret (Ok text) => Ret (Ok (Utf8.encode text))
      | Ret (Err _) => Ret (Err VelumProfileStatus.Internal)
      | Panic => Panic
      | OutOfFuel => OutOfFuel
      end
    | Panic => Panic
    | OutOfFuel => OutOfFuel
    end
  end.

Section exported.
Variable canonical : VelumByteSlice -> outcome (result (list byte) VelumProfileStatus.t).

(** The body the two [.._validate_v1] share; [out_required] is not null. *)
Definition validate (input : VelumByteSlice) (out_required : bool) : M Memory VelumProfileStatus.t VelumProfileStatus.t :=
  reject_if (negb out_required) VelumProfileStatus.InvalidArgument ;!
  let! canonical := run_outcome (canonical input) in
  modify (write_out (len canonical)) ;!
  ret VelumProfileStatus.Ok.

(** The body the two [.._normalize_v1] share. *)
Definition normalize (input : VelumByteSlice) (output : VelumMutableByteSlice) (out_written : bool)
  : M Memory VelumProfileStatus.t VelumProfileStatus.t :=
  reject_if (negb out_written) VelumProfileStatus.InvalidArgument ;!
  let! canonical := run_outcome (canonical input) in
  modify (write_out (len canonical)) ;!
  reject_if (mutable_length output <? len canonical) VelumProfileStatus.BufferTooSmall ;!
  if is_empty canonical then ret VelumProfileStatus.Ok
  else
    reject_if (negb (mutable_pointer output)) VelumProfileStatus.InvalidArgument ;!
    modify (copy_nonoverlapping canonical) ;!
    ret VelumProfileStatus.Ok.
End exported.

Definition velum_client_profile_validate_v1 `{ProfileYaml} (input : VelumByteSlice) (out_required : bool) :=
  call_status (validate canonical_profile input out_required).
Definition velum_client_profile_normalize_v1 `{ProfileYaml} (input : VelumByteSlice) (output : VelumMutableByteSlice)
  (out_written : bool) := call_status (normalize canonical_profile input output out_written).
Definition velum_client_enrollment_validate_v1 `{BundleJson} (input : VelumByteSlice) (out_required : bool) :=
  call_status (validate canonical_enrollment input out_required).
Definition velum_client_enrollment_normalize_v1 `{BundleJson} (input : VelumByteSlice) (output : VelumMutableByteSlice)
  (out_written : bool) := call_status (normalize canonical_enrollment input output out_written).

(** What [serde_json] reads into a [String] is Unicode. *)
Class UnicodeJson (J : BundleJson) : Prop :=
  json_unicode : forall source b, json_from_slice source = inl b -> Forall Utf8.scalar (Enrollment.credential b).

(** ** The two kinds of texts, as the exported calls use them

    What the canonical form of a text is: the text, of bounded size, is read;
    what it says is well formed once every reference to a node is the
    identifier of that node, or the credential is in lower case; and that is
    what is written.  Reading the credential of an enrolment panics when a
    pair of bytes cuts a character in two. *)
Definition slice_of (bytes : list byte) : VelumByteSlice := {| pointer := Some bytes; slice_length := len bytes |}.

Definition profile_form `{ProfileYaml} (input : VelumByteSlice) (text : list byte) : Prop :=
  exists source p q yaml,
    copy_bytes input = Ok source /\ len source <= MAX_PROFILE_BYTES /\ yaml_from_slice source = inl p /\
    profile_wf q /\ normalized p q /\ yaml_to_string q = inl yaml /\ text = Utf8.encode yaml.
Definition enrollment_form `{BundleJson} (input : VelumByteSlice) (text : list byte) : Prop :=
  exists source b b' json,
    copy_bytes input = Ok source /\ len source <= MAX_ENROLLMENT_BYTES /\ json_from_slice source = inl b /\
    bundle_wf b' /\ b' = set_credential (to_ascii_lowercase (Enrollment.credential b)) b /\
    json_to_string b' = inl json /\ text = Utf8.encode json.
Definition enrollment_panic `{BundleJson} (input : VelumByteSlice) : Prop :=
  exists source b,
    copy_bytes input = Ok source /\ len source <= MAX_ENROLLMENT_BYTES /\ json_from_slice source = inl b /\
    check_node b = Ok tt /\ len (Utf8.encode (Enrollment.credential b)) mod 2 = 0 /\ cuts_character (Enrollment.credential b).

(** What the calls rely on, of either kind: a success is the canonical form
    of the input and, within [limit] bytes, its own; a text beyond is refused. *)
Class CanonicalText (canonical : VelumByteSlice -> outcome (result (list byte) VelumProfileStatus.t)) (limit : N)
  (form : VelumByteSlice -> list byte -> Prop) (panics : VelumByteSlice -> Prop) : Prop := {
  canonical_form : forall input text, canonical input = Ret (Ok text) -> form input text;
  canonical_stable : forall input text,
    canonical input = Ret (Ok text) -> len text <= limit -> canonical (slice_of text) = Ret (Ok text);
  canonical_limit : forall input source,
    copy_bytes input = Ok source -> limit < len source -> canonical input = Ret (Err VelumProfileStatus.Limit);
  canonical_errors : forall input status, canonical input = Ret (Err status) -> status <> VelumProfileStatus.Ok;
  canonical_panics : forall input, canonical input = Panic <-> panics input;
  canonical_ends : forall input, canonical input <> OutOfFuel
}.

Lemma copy_slice_of bytes : copy_bytes (slice_of bytes) = Ok bytes.
Proof.
  unfold copy_bytes, slice_of. cbn [slice_length pointer]. destruct (N.eqb_spec (len bytes) 0) as [Hl|Hl].
  - by destruct bytes; [|rewrite len_cons in Hl; lia].
  - f_equal. unfold prefix_to. apply take_ge. unfold len. lia.
Qed.

Lemma status_for_profile_error e : status_for_profile e <> VelumProfileStatus.Ok.
Proof. unfold status_for_profile. by destruct (ProfileError.kind e). Qed.

#[export] Instance profile_text `{Y : ProfileYaml, !ProfileYamlLaws Y} :
  CanonicalText canonical_profile MAX_PROFILE_BYTES profile_form (fun _ => False).
Proof.
  split; unfold canonical_profile.
  - intros input bytes. destruct (copy_bytes input) as [source|] eqn:Hc; [|done].
    unfold Profiles.from_yaml, Profiles.to_canonical_yaml.
    destruct (N.leb_spec (len source) MAX_PROFILE_BYTES) as [Hl|]; [|done]. cbn [require and_then].
    destruct (yaml_from_slice source) as [p|] eqn:Hp; [|done].
    destruct (ClientProfile.validate_and_normalize p) as [q|] eqn:Hq; [|done].
    destruct (normalize_spec _ _ Hq) as (Hwf & Hn & Hagain). rewrite Hagain. cbn [and_then].
    destruct (yaml_to_string q) as [yaml|] eqn:Hy; [|done]. intros <-%Ret_Ok_inj. by exists source, p, q, yaml.
  - intros input bytes. rewrite copy_slice_of. destruct (copy_bytes input) as [source|]; [|done].
    destruct (Profiles.from_yaml source) as [p|]; [|done].
    destruct (Profiles.to_canonical_yaml p) as [text|] eqn:Ht; [|done]. intros <-%Ret_Ok_inj Hlen.
    destruct (canonical_yaml_round_trip p text Ht Hlen) as (q & -> & _ & ->). done.
  - intros input source -> Hl. unfold Profiles.from_yaml. by rewrite (proj2 (N.leb_gt _ _) Hl).
  - intros input status. destruct (copy_bytes input); [|by intros [= <-]].
    destruct (Profiles.from_yaml _); [|intros [= <-]; apply status_for_profile_error].
    destruct (Profiles.to_canonical_yaml _); [done|by intros [= <-]].
  - done.
  - done.
Qed.

(** What reading an enrolment comes to. *)
Lemma from_json_normalized `{J : BundleJson, !UnicodeJson J} source b :
  EnrollmentJson.from_json source = Ret (Ok b) ->
  len source <= MAX_ENROLLMENT_BYTES /\ exists b0, json_from_slice source = inl b0 /\ bundle_wf b /\
    b = set_credential (to_ascii_lowercase (Enrollment.credential b0)) b0 /\ EnrollmentBundle.normalized b = Ret (Ok b).
Proof.
  unfold EnrollmentJson.from_json. destruct (N.ltb_spec MAX_ENROLLMENT_BYTES (len source)) as [|Hl]; [done|].
  destruct (json_from_slice source) as [b'|] eqn:Hj; [|done]. intros Hn.
  destruct (normalized_Ok _ _ (json_unicode _ _ Hj) Hn) as (Hwf & Hb & _ & Hagain). split; [done|]. by exists b'.
Qed.
Lemma from_json_panics `{J : BundleJson, !UnicodeJson J} source :
  EnrollmentJson.from_json source = Panic <->
  len source <= MAX_ENROLLMENT_BYTES /\ exists b, json_from_slice source = inl b /\
    check_node b = Ok tt /\ len (Utf8.encode (Enrollment.credential b)) mod 2 = 0 /\ cuts_character (Enrollment.credential b).
Proof.
  unfold EnrollmentJson.from_json. destruct (N.ltb_spec MAX_ENROLLMENT_BYTES (len source)) as [Hl|Hl];
    [split; [done|by intros [? _]; lia]|].
  destruct (json_from_slice source) as [b|] eqn:Hj; [|by split; [|intros (_ & ? & ? & _)]].
  rewrite (normalized_panics _ (json_unicode _ _ Hj)). naive_solver.
Qed.

#[export] Instance enrollment_text `{J : BundleJson, !BundleJsonLaws J, !UnicodeJson J} :
  CanonicalText canonical_enrollment MAX_ENROLLMENT_BYTES enrollment_form enrollment_panic.
Proof.
  split; unfold canonical_enrollment.
  - intros input bytes. destruct (copy_bytes input) as [source|] eqn:Hc; [|done].
    destruct (EnrollmentJson.from_json source) as [[b|]| |] eqn:Hb; try done.
    destruct (from_json_normalized _ _ Hb) as (Hl & b0 & Hj & Hwf & Hlow & Hagain).
    unfold EnrollmentJson.to_canonical_json. rewrite Hagain. destruct (json_to_string b) as [json|] eqn:Hs; [|done].
    intros <-%Ret_Ok_inj. by exists source, b0, b, json.
  - intros input bytes. rewrite copy_slice_of. destruct (copy_bytes input) as [source|]; [|done].
    destruct (EnrollmentJson.from_json source) as [[b|]| |] eqn:Hb; try done.
    destruct (from_json_normalized _ _ Hb) as (_ & _ & _ & _ & _ & Hagain).
    destruct (EnrollmentJson.to_canonical_json b) as [[text|]| |] eqn:Ht; try done. intros <-%Ret_Ok_inj Hlen.
    by rewrite (canonical_reads_back b text Hagain Ht Hlen), Ht.
  - intros input source -> Hl. unfold EnrollmentJson.from_json. by rewrite (proj2 (N.ltb_lt _ _) Hl).
  - intros input status. destruct (copy_bytes input); [|by intros [= <-]].
    destruct (EnrollmentJson.from_json _) as [[b|]| |] eqn:Hb; try done.
    + destruct (EnrollmentJson.to_canonical_json b) as [[]| |]; try done. by intros [= <-].
    + intros [= <-]. apply status_for_profile_error.
  - intros input. unfold enrollment_panic. destruct (copy_bytes input) as [source|] eqn:Hc;
      [|by split; [|intros (? & ? & ? & _)]].
    pose proof (from_json_panics source) as Hp. destruct (EnrollmentJson.from_json source) as [[b|]| |] eqn:Hb.
    + destruct (from_json_normalized _ _ Hb) as (_ & _ & _ & _ & _ & Hagain).
      destruct (to_canonical_total b Hagain) as [[text|e] ->]; naive_solver.
    + naive_solver.
    + naive_solver.
    + naive_solver.
  - intros input. destruct (copy_bytes input) as [source|]; [|done].
    destruct (EnrollmentJson.from_json source) as [[b|]| |] eqn:Hb; try done.
    + destruct (from_json_normalized _ _ Hb) as (_ & _ & _ & _ & _ & Hagain).
      by destruct (to_canonical_total b Hagain) as [[text|e] ->].
    + unfold EnrollmentJson.from_json in Hb. repeat case_match; try done. by apply normalized_ends in Hb.
Qed.

(** ** What the calls do *)
Definition normalized_memory (text : list byte) (m : Memory) : Memory :=
  {| out := len text; buffer := text ++ suffix_from (len text) (buffer m) |}.

(** What two exported calls promise about the caller's memory: where the
    text is an error both report it and write nothing; where it has a
    canonical form, the first returns the size of it, and the second that
    size and exactly the form, or the size only when the buffer is smaller or
    null; within the limit the form is its own canonical form, beyond it is
    refused.  They do not return where reading the text panics. *)
Definition two_calls (form : VelumByteSlice -> list byte -> Prop) (panics : VelumByteSlice -> Prop) (limit : N)
  (validate_v1 : VelumByteSlice -> bool -> Memory -> outcome (VelumProfileStatus.t * Memory))
  (normalize_v1 : VelumByteSlice -> VelumMutableByteSlice -> bool -> Memory -> outcome (VelumProfileStatus.t * Memory)) : Prop :=
  (forall input m, validate_v1 input false m = Ret (VelumProfileStatus.InvalidArgument, m) /\
     forall output, normalize_v1 input output false m = Ret (VelumProfileStatus.InvalidArgument, m)) /\
  (forall input m, validate_v1 input true m = Panic <-> panics input) /\
  (forall input m, validate_v1 input true m <> OutOfFuel) /\
  (forall input m s m', validate_v1 input true m = Ret (s, m') -> s <> VelumProfileStatus.Ok ->
     m' = m /\ forall output, normalize_v1 input output true m = Ret (s, m)) /\
  (forall input m m', validate_v1 input true m = Ret (VelumProfileStatus.Ok, m') ->
     exists text, form input text /\ m' = write_out (len text) m /\
       (forall output m1, mutable_pointer output = true -> len (buffer m1) = mutable_length output ->
          normalize_v1 input output true m1 =
            Ret (if mutable_length output <? out m' then (VelumProfileStatus.BufferTooSmall, write_out (len text) m1)
                 else (VelumProfileStatus.Ok, normalized_memory text m1)) /\
          (out m' <= mutable_length output -> len (buffer (normalized_memory text m1)) = len (buffer m1))) /\
       (forall output m1, mutable_pointer output = false -> text <> [] ->
          exists s, normalize_v1 input output true m1 = Ret (s, write_out (len text) m1) /\ s <> VelumProfileStatus.Ok) /\
       (len text <= limit ->
          validate_v1 (slice_of text) true m = Ret (VelumProfileStatus.Ok, m') /\
          forall output m1, mutable_pointer output = true -> out m' <= mutable_length output ->
            normalize_v1 (slice_of text) output true m1 = Ret (VelumProfileStatus.Ok, normalized_memory text m1)) /\
       (limit < len text -> validate_v1 (slice_of text) true m = Ret (VelumProfileStatus.Limit, m))).

Section calls.
Context (canonical : VelumByteSlice -> outcome (result (list byte) VelumProfileStatus.t)) (limit : N)
  (form : VelumByteSlice -> list byte -> Prop) (panics : VelumByteSlice -> Prop).

Lemma validate_run input m :
  call_status (validate canonical input true) m =
  match canonical input with
  | Ret (Ok text) => Ret (VelumProfileStatus.Ok, write_out (len text) m)
  | Ret (Err s) => Ret (s, m)
  | Panic => Panic
  | OutOfFuel => OutOfFuel
  end.
Proof. unfold call_status, validate, bind, run_outcome. cbn. by destruct (canonical input) as [[]| |]. Qed.

Lemma normalize_run input output m :
  mutable_pointer output = true ->
  call_status (normalize canonical input output true) m =
  match canonical input with
  | Ret (Ok text) =>
    Ret (if mutable_length output <? len text then (VelumProfileStatus.BufferTooSmall, write_out (len text) m)
         else (VelumProfileStatus.Ok, normalized_memory text m))
  | Ret (Err s) => Ret (s, m)
  | Panic => Panic
  | OutOfFuel => OutOfFuel
  end.
Proof.
  intros Hp. unfold call_status, normalize, bind, run_outcome. cbn. destruct (canonical input) as [[text|]| |]; try done.
  cbn. rewrite Hp. destruct (_ <? _); [done|]. by destruct text.
Qed.

Lemma normalize_error input output m s :
  canonical input = Ret (Err s) -> call_status (normalize canonical input output true) m = Ret (s, m).
Proof. intros H. unfold call_status, normalize, bind, run_outcome. cbn. by rewrite H. Qed.

Lemma normalize_null input output m text :
  mutable_pointer output = false -> canonical input = Ret (Ok text) -> text <> [] ->
  exists s, call_status (normalize canonical input output true) m = Ret (s, write_out (len text) m) /\ s <> VelumProfileStatus.Ok.
Proof.
  intros Hp Hc Ht. unfold call_status, normalize, bind, run_outcome. cbn. rewrite Hc. cbn. rewrite Hp.
  destruct (_ <? _); [by eexists|]. destruct text; [done|]. by eexists.
Qed.

Lemma two_calls_ok `{!CanonicalText canonical limit form panics} :
  two_calls form panics limit (fun i o => call_status (validate canonical i o))
    (fun i o w => call_status (normalize canonical i o w)).
Proof.
  split_and!.
  - done.
  - intros input m. rewrite validate_run, <-canonical_panics. by destruct (canonical input) as [[]| |].
  - intros input m. rewrite validate_run. pose proof (canonical_ends input). by destruct (canonical input) as [[]| |].
  - intros input m s m'. rewrite validate_run. destruct (canonical input) as [[text|e]| |] eqn:Hc; try done.
    + by intros [= <- _].
    + intros [= <- <-] _. split; [done|]. intros output. by apply normalize_error.
  - intros input m m'. rewrite validate_run. destruct (canonical input) as [[text|s]| |] eqn:Hc; try done.
    2: { intros [= -> _]. by destruct (canonical_errors _ _ Hc). }
    intros [= <-]. exists text. cbn [out write_out]. split_and!; [by apply canonical_form|done|..].
    + intros output m1 Hp Hl. rewrite normalize_run, Hc by done. split; [done|]. intros Hle.
      cbn [buffer normalized_memory]. rewrite len_app, len_suffix_from. lia.
    + intros output m1 Hp Ht. by apply normalize_null.
    + intros Hlen. pose proof (canonical_stable _ _ Hc Hlen) as Hagain. rewrite validate_run, Hagain. split; [done|].
      intros output m1 Hp Hle. by rewrite normalize_run, Hagain, (proj2 (N.ltb_ge _ _)).
    + intros Hlen. by rewrite validate_run, (canonical_limit _ _ (copy_slice_of text) Hlen).
Qed.
End calls.

(** No status is [Ok] but a success, and a failed connection is reported the
    same by the call that waits for it as by the snapshot it leaves. *)
Lemma statuses_agree :
  (forall e, status_for_failure (failure_from e) = status_for_client e) /\
  (forall e, status_for_runtime e <> VelumStatus.Ok) /\ (forall e, status_for_engine e <> VelumControlStatus.Ok) /\
  (forall e, client_status_from e <> VelumStatus.Ok /\ control_status_from e <> VelumControlStatus.Ok).
Proof. split_and!; [by intros []|by intros [| | | |[]]|by intros []|by intros []]. Qed.

(** Nothing of a snapshot is lost in the numbers of the interface. *)
Lemma snapshot_from_inj s s' : snapshot_from s = snapshot_from s' -> s = s'.
Proof.
  destruct s as [r g p f], s' as [r' g' p' f']. unfold snapshot_from. cbn. intros H. injection H as -> -> Hp Hf.
  assert (p = p') as -> by (destruct p, p'; done).
  assert (f = f') as -> by (destruct f as [[]|], f' as [[]|]; done). done.
Qed.

(** ** Properties *)

(** C38. The exported calls on texts keep their contract with the caller's
    buffer, for profiles and for enrolments.  Where they succeed the text is
    the canonical form of what was passed: what it says, with the nodes by
    their identifiers or the credential in lower case, is well formed.  The
    sizes of the two calls agree, a buffer that is too small or null is not
    touched, one that is large enough gets exactly that text, and an error
    writes nothing.  A canonical text within the limit is its own canonical
    form, and one beyond it is refused.  No profile makes the calls panic; an
    enrolment does exactly when a pair of bytes cuts a character of its
    credential. *)
Theorem text_calls_contract `{Y : ProfileYaml, !ProfileYamlLaws Y, J : BundleJson, !BundleJsonLaws J, !UnicodeJson J} :
  two_calls profile_form (fun _ => False) MAX_PROFILE_BYTES velum_client_profile_validate_v1
    velum_client_profile_normalize_v1 /\
  two_calls enrollment_form enrollment_panic MAX_ENROLLMENT_BYTES velum_client_enrollment_validate_v1 velum_client_enrollment_normalize_v1.
Proof. split; apply two_calls_ok, _. Qed.

Section exact.
Variable pem_reader_iter : list byte -> option (list (list byte)).

(** The trust that a mode and a PEM text ask for. *)
Definition trust_asked (mode : N) (certificate_pem : list byte) (trust : ClientTrust) : Prop :=
  match trust with
  | ClientApi.System => mode = VELUM_TRUST_SYSTEM
  | CustomRoots certificates =>
    mode = VELUM_TRUST_CUSTOM_CA /\ certificates <> [] /\ pem_reader_iter certificate_pem = Some certificates
  | Insecure => mode = VELUM_TRUST_INSECURE
  end.

Lemma parse_configuration_Ok address name secret pem millis mode config :
  parse_configuration pem_reader_iter address name secret pem millis mode = Ok config <->
  Utf8.decode address ≫= IpParser.parse_socket = Some (relay_address config) /\
  Utf8.decode name = Some (server_name config) /\ server_name config <> [] /\
  secret = credential config /\ 1 <= len secret <= MAX_CREDENTIAL_BYTES /\
  trust_asked mode pem (trust config) /\
  connect_timeout config = millis * 1000000 /\ millis <> 0.
Proof.
  unfold parse_configuration.
  destruct (Utf8.decode address ≫= IpParser.parse_socket) as [a|]; [|split; [done|by intros (? & _)]].
  destruct (Utf8.decode name) as [n|]; [|split; [done|by intros (_ & ? & _)]].
  assert (forall t, match ClientConfig.new a n secret t (millis * 1000000) with
                    | Ok config => Ok config
                    | Err MissingRootCertificate => Err InputCertificate
                    | Err (EmptyServerName | InvalidCredentialLength | ZeroConnectTimeout) => Err InputConfiguration
                    end = Ok config <-> ClientConfig.new a n secret t (millis * 1000000) = Ok config) as Hnew
    by (intros t; destruct (ClientConfig.new _ _ _ _ _) as [c|[]]; split; congruence).
  rewrite and_then_Ok. setoid_rewrite Hnew. setoid_rewrite config_new_Ok. split.
  - intros (t & Ht & -> & Hn & Hs & Hl & Hr & Hd). cbn [relay_address server_name credential trust connect_timeout].
    assert (1 <= len secret) by (destruct secret; [done|rewrite len_cons; lia]).
    split_and!; try done; [|intros ->; done].
    unfold trust_asked. destruct (N.eqb_spec mode VELUM_TRUST_SYSTEM) as [->|]; [by injection Ht as <-|].
    destruct (N.eqb_spec mode VELUM_TRUST_CUSTOM_CA) as [->|].
    + destruct (pem_reader_iter pem) as [certificates|]; [|done]. injection Ht as <-. split_and!; congruence.
    + destruct (N.eqb_spec mode VELUM_TRUST_INSECURE) as [->|]; [|done]. by injection Ht as <-.
  - destruct config as [a' n' s' t d]. cbn [relay_address server_name credential trust connect_timeout].
    intros ([= ->] & [= ->] & Hn & -> & [Hl1 Hl2] & Ht & -> & Hd). exists t. split.
    + unfold trust_asked in Ht. destruct t; [by subst| |by subst]. by destruct Ht as (-> & _ & ->).
    + split_and!; try done; [by intros ->| |lia]. intros ->. by destruct Ht as (_ & ? & _).
Qed.

(** A configuration comes out of the interface exactly when every slice
    that is read is not null unless empty, the address and the name are text
    and the address parses, the name is not empty, the credential has 1 to 128
    bytes, the timeout is positive and the trust mode is known; then it is
    exactly what was copied, and verification is off only in the mode that
    asks for it. *)
Theorem configuration_exact input config :
  configuration_from_input pem_reader_iter input = Ok config <->
  exists i address name pem,
    input = Some i /\ copy_bytes (input_relay_address i) = Ok address /\ copy_bytes (input_server_name i) = Ok name /\
    copy_bytes (input_credential i) = Ok (credential config) /\ copy_bytes (input_certificate_pem i) = Ok pem /\
    Utf8.decode address ≫= IpParser.parse_socket = Some (relay_address config) /\
    Utf8.decode name = Some (server_name config) /\ server_name config <> [] /\
    1 <= len (credential config) <= MAX_CREDENTIAL_BYTES /\
    trust_asked (input_trust_mode i) pem (trust config) /\
    connect_timeout config = input_connect_timeout_millis i * 1000000 /\ input_connect_timeout_millis i <> 0.
Proof.
  unfold configuration_from_input. destruct input as [i|]; [|split; [done|by intros (? & ? & ? & ? & ? & _)]].
  repeat setoid_rewrite and_then_Ok. setoid_rewrite parse_configuration_Ok. split.
  - intros (address & Ha & name & Hn & secret & Hs & pem & Hp & H1 & H2 & H3 & -> & H4). by exists i, address, name, pem.
  - intros (i' & address & name & pem & [= <-] & Ha & Hn & Hs & Hp & H1 & H2 & H3 & H4). naive_solver.
Qed.
End exact.

(** ** A concrete text *)
Module ClientAbiExamples.
#[local] Existing Instances ProfileExamples.one_profile ProfileExamples.one_profile_laws EnrollmentExamples.one_bundle
  EnrollmentExamples.one_bundle_laws.
#[local] Instance unicode_bundle : UnicodeJson EnrollmentExamples.one_bundle.
Proof.
  intros source b. cbn [json_from_slice EnrollmentExamples.one_bundle].
  destruct (decide _); [|done]. intros Heq. assert (EnrollmentExamples.issued = b) as <- by congruence.
  apply (bool_decide_unpack _). vm_compute. exact I.
Qed.

(** The canonical form of a profile into a buffer of four bytes, and into one
    of a single byte. *)
Definition two_bytes : VelumByteSlice := slice_of (Utf8.encode (str "v1")).
Definition room (n : nat) : VelumMutableByteSlice := {| mutable_pointer := true; mutable_length := N.of_nat n |}.
Definition memory (n : nat) : Memory := {| out := 0; buffer := replicate n xff |}.

Lemma text_calls_contract_witness :
  velum_client_profile_validate_v1 two_bytes true (memory 4) = Ret (VelumProfileStatus.Ok, write_out 2 (memory 4)) /\
  exists text, profile_form two_bytes text /\ len text = 2 /\
    velum_client_profile_normalize_v1 two_bytes (room 4) true (memory 4) =
      Ret (VelumProfileStatus.Ok, normalized_memory text (memory 4)) /\
    velum_client_profile_normalize_v1 two_bytes (room 1) true (memory 1) =
      Ret (VelumProfileStatus.BufferTooSmall, write_out (len text) (memory 1)).
Proof.
  assert (velum_client_profile_validate_v1 two_bytes true (memory 4) =
    Ret (VelumProfileStatus.Ok, write_out 2 (memory 4))) as Hv by (vm_compute; reflexivity).
  split; [exact Hv|]. destruct text_calls_contract as [(_ & _ & _ & _ & Hp) _].
  destruct (Hp _ _ _ Hv) as (text & Hform & Hm & Hn & _). exists text.
  split; [exact Hform|]. split; [by injection Hm|]. split.
  - exact (proj1 (Hn (room 4) (memory 4) eq_refl eq_refl)).
  - exact (proj1 (Hn (room 1) (memory 1) eq_refl eq_refl)).
Defined.

(** A credential with a wide character, scanned or pasted, takes the process
    down: the panic leaves an [extern] function. *)
Example enrollment_call_panics :
  let J := {| json_from_slice _ := inl (EnrollmentExamples.with_credential [97; 233; 97]); json_to_string _ := inr [] |} in
  velum_client_enrollment_validate_v1 two_bytes true (memory 0) = Panic.
Proof. vm_compute. reflexivity. Qed.

Example status_numbers :
  VelumStatus.as_i32 VelumStatus.Protocol = 11 /\ VelumControlStatus.as_i32 VelumControlStatus.Internal = 6 /\
  VelumProfileStatus.as_i32 VelumProfileStatus.Internal = 7 /\ VelumRuntimePhase Failed = 4 /\
  VelumRuntimeFailure (Some Transport) = 8.
Proof. done. Qed.
End ClientAbiExamples.
