(* ===== verification/ClientHandles.v ===== *)
(** The handles of the C interface ([velum-client-ffi]: [handles.rs],
    [control.rs], [streams.rs]): the table of handles, and the calls on
    runtimes and streams, each a task whose critical sections interleave with
    those of all other calls and with the connection tasks of the runtimes.

    A client or stream entry behind its [Arc] is known by its place in a
    heap.  No mutex is poisoned: nothing panics while it holds one, short of
    2^64 revisions of a runtime. *)
From S2P Require Import Prelude Net Str Utf8 IpText Routing Runtime ClientApi ClientAbi.

(** ** The table of handles *)
Record HandleTable := {
  next_handle : N;
  clients : gmap N nat;
  streams : gmap N nat;
  engines : gmap N nat
}.
Definition table_default : HandleTable := {| next_handle := 0; clients := ∅; streams := ∅; engines := ∅ |}.

Module HandleTable.
Definition next (self : HandleTable) : option (N * HandleTable) :=
  match checked_add U64_MAX (next_handle self) 1 with
  | None => None
  | Some n =>
    Some (n, {| next_handle := n; clients := clients self; streams := streams self; engines := engines self |})
  end.
Definition insert_client (self : HandleTable) (client : nat) : option (N * HandleTable) :=
  match next self with
  | None => None
  | Some (handle, self) =>
    Some (handle, {| next_handle := next_handle self; clients := <[handle := client]> (clients self);
                     streams := streams self; engines := engines self |})
  end.
(** The entry of the stream is made by the caller of this function here. *)
Definition insert_stream (self : HandleTable) (stream : nat) : option (N * HandleTable) :=
  match next self with
  | None => None
  | Some (handle, self) =>
    Some (handle, {| next_handle := next_handle self; clients := clients self;
                     streams := <[handle := stream]> (streams self); engines := engines self |})
  end.
Definition insert_engine (self : HandleTable) (engine : nat) : option (N * HandleTable) :=
  match next self with
  | None => None
  | Some (handle, self) =>
    Some (handle, {| next_handle := next_handle self; clients := clients self;
                     streams := streams self; engines := <[handle := engine]> (engines self) |})
  end.
Definition remove_client (self : HandleTable) (handle : N) : HandleTable :=
  {| next_handle := next_handle self; clients := delete handle (clients self); streams := streams self;
     engines := engines self |}.
Definition remove_stream (self : HandleTable) (handle : N) : HandleTable :=
  {| next_handle := next_handle self; clients := clients self; streams := delete handle (streams self);
     engines := engines self |}.
Definition remove_engine (self : HandleTable) (handle : N) : HandleTable :=
  {| next_handle := next_handle self; clients := clients self; streams := streams self;
     engines := delete handle (engines self) |}.
Definition retain_streams (self : HandleTable) (keep : nat -> bool) : HandleTable :=
  {| next_handle := next_handle self; clients := clients self;
     streams := filter (fun kv => keep kv.2 = true) (streams self); engines := engines self |}.
End HandleTable.

(** ** Entries

    [holder] is the call that has the mutex of [command]; the one of [proxy]
    is only ever taken by that call.  [stream_generation] is what the runtime
    reported of the stream. *)
Record ClientEntry := {
  runtime : Runtime.World;
  destroyed : bool;
  proxy : option N;
  holder : option nat
}.
Definition client_new (runtime : Runtime.World) : ClientEntry :=
  {| runtime := runtime; destroyed := false; proxy := None; holder := None |}.

Record StreamEntry := {
  client_handle : N;
  stream_generation : N;
  cancelled : bool;
  send_holder : option nat;
  receive_holder : option nat
}.
Definition stream_new (client_handle generation : N) : StreamEntry :=
  {| client_handle := client_handle; stream_generation := generation; cancelled := false;
     send_holder := None; receive_holder := None |}.
Definition cancel (stream : StreamEntry) : StreamEntry :=
  {| client_handle := client_handle stream; stream_generation := stream_generation stream; cancelled := true;
     send_holder := send_holder stream; receive_holder := receive_holder stream |}.

(** ** Calls in progress *)

(** What is done under the mutex of [command]. *)
Inductive Command :=
| Start (configuration : ClientConfig)
| Snapshot
| Stop
| ProxyStart (requested_port : N) (policy : RoutingPolicy)
| ProxyStop.
(** [velum_client_runtime_destroy] or [velum_client_close] *)
Inductive Retirement := Destroy | Close.
Inductive Io := Write (input : list byte) | Read (length : N) | Finish.

Inductive Value :=
| NoValue
| Handle (h : N)
| GenerationValue (g : N)
| SnapshotValue (s : VelumRuntimeSnapshotV1)
| Port (p : N)
| Count (n : N).
Inductive Reply :=
| ControlReply (status : VelumControlStatus.t) (out : Value)
| ClientReply (status : VelumStatus.t) (out : Value).

Inductive Task :=
| Creating
| Looking (h : N) (c : Command)
| Locking (e : nat) (h : N) (c : Command)
| Running (e : nat) (h : N) (c : Command)
| Binding (e : nat) (requested_port : N) (policy : RoutingPolicy)
| Invalidating (e : nat) (h : N)
| StoppingRuntime (e : nat) (h : N)
| StreamLooking (h : N) (target : SocketAddr)
| Choosing (e : nat) (h : N) (target : SocketAddr)
| Opening (e : nat) (h g : N)
| Publishing (e : nat) (h g : N)
| Inserting (e : nat) (h g : N)
| Retiring (h : N) (k : Retirement)
| RetireLocking (e : nat) (k : Retirement)
| RetireProxy (e : nat) (k : Retirement)
| RetireRuntime (e : nat) (k : Retirement)
| ConnectStarting (configuration : ClientConfig)
| ConnectWaiting (r : Runtime.World)
| ConnectInserting (r : Runtime.World)
| StreamFinding (s : N) (io : Io)
| StreamLocking (i : nat) (io : Io)
| StreamIo (i : nat) (io : Io)
| StreamClosing (s : N)
| StreamCancelling (i : nat)
| Returned (r : Reply).

(** *** The exported functions, up to their first lock

    A flag says that an output pointer is not null. *)
Section calls.
Variable pem_reader_iter : list byte -> option (list (list byte)).

Definition control (status : VelumControlStatus.t) : Task := Returned (ControlReply status NoValue).
Definition client (status : VelumStatus.t) : Task := Returned (ClientReply status NoValue).

Definition velum_client_runtime_create (out_runtime_handle : bool) : Task :=
  if negb out_runtime_handle then control VelumControlStatus.InvalidArgument else Creating.

Definition velum_client_runtime_start_v1 (runtime_handle : N) (input : option VelumClientConfigInput)
  (out_generation : bool) : Task :=
  if negb out_generation then control VelumControlStatus.InvalidArgument
  else
    match configuration_from_input pem_reader_iter input with
    | Err error => control (control_status_from error)
    | Ok configuration => Looking runtime_handle (Start configuration)
    end.

Definition velum_client_runtime_snapshot_v1 (runtime_handle : N) (out_snapshot : bool) : Task :=
  if negb out_snapshot then control VelumControlStatus.InvalidArgument else Looking runtime_handle Snapshot.

Definition velum_client_runtime_stop (runtime_handle : N) (out_generation : bool) : Task :=
  if negb out_generation then control VelumControlStatus.InvalidArgument else Looking runtime_handle Stop.

Definition start_proxy_with_policy (runtime_handle requested_port : N) (policy : RoutingPolicy) (out_port : bool) : Task :=
  if negb out_port then control VelumControlStatus.InvalidArgument
  else Looking runtime_handle (ProxyStart requested_port policy).

(** [RoutingPolicy::default()] *)
Definition velum_client_runtime_proxy_start (runtime_handle requested_port : N) (out_port : bool) : Task :=
  start_proxy_with_policy runtime_handle requested_port RoutingPolicy.proxy_all out_port.

Definition velum_client_runtime_proxy_start_v2 (runtime_handle requested_port : N) (rules : VelumByteSlice)
  (out_port : bool) : Task :=
  match copy_bytes rules with
  | Err error => control (control_status_from error)
  | Ok bytes =>
    match Utf8.decode bytes with
    | None => control VelumControlStatus.Configuration
    | Some text =>
      match RoutingPolicy.from_str text with
      | Ok policy =>
        if is_empty (Routing.rules policy) then control VelumControlStatus.Configuration
        else start_proxy_with_policy runtime_handle requested_port policy out_port
      | Err _ => control VelumControlStatus.Configuration
      end
    end
  end.

Definition velum_client_runtime_proxy_stop (runtime_handle : N) : Task := Looking runtime_handle ProxyStop.
Definition velum_client_runtime_destroy (runtime_handle : N) : Task := Retiring runtime_handle Destroy.
Definition velum_client_close (client_handle : N) : Task := Retiring client_handle Close.

Definition velum_client_connect (input : option VelumClientConfigInput) (out_client_handle : bool) : Task :=
  if negb out_client_handle then client VelumStatus.InvalidArgument
  else
    match configuration_from_input pem_reader_iter input with
    | Err error => client (client_status_from error)
    | Ok configuration => ConnectStarting configuration
    end.

Definition velum_client_open_stream (client_handle : N) (target_address : VelumByteSlice) (out_stream_handle : bool) : Task :=
  if negb out_stream_handle then client VelumStatus.InvalidArgument
  else
    match copy_bytes target_address with
    | Err error => client (client_status_from error)
    | Ok value =>
      match Utf8.decode value ≫= IpParser.parse_socket with
      | None => client (client_status_from InputInvalidArgument)
      | Some target => StreamLooking client_handle target
      end
    end.

Definition velum_client_stream_write (stream_handle : N) (input : VelumByteSlice) : Task :=
  match copy_bytes input with
  | Err error => client (client_status_from error)
  | Ok input => StreamFinding stream_handle (Write input)
  end.

Definition velum_client_stream_read (stream_handle : N) (output : VelumMutableByteSlice) (out_read : bool) : Task :=
  if negb out_read then client VelumStatus.InvalidArgument
  else
    match mutable_bytes output with
    | Err status => client status
    | Ok length => StreamFinding stream_handle (Read length)
    end.

Definition velum_client_stream_finish (stream_handle : N) : Task := StreamFinding stream_handle Finish.
Definition velum_client_stream_close (stream_handle : N) : Task := StreamClosing stream_handle.

(** A call of the interface. *)
Inductive Call :=
| CallCreate (out : bool)
| CallStart (h : N) (input : option VelumClientConfigInput) (out : bool)
| CallSnapshot (h : N) (out : bool)
| CallStop (h : N) (out : bool)
| CallProxyStart (h port : N) (out : bool)
| CallProxyStartV2 (h port : N) (rules : VelumByteSlice) (out : bool)
| CallProxyStop (h : N)
| CallDestroy (h : N)
| CallConnect (input : option VelumClientConfigInput) (out : bool)
| CallClose (h : N)
| CallOpenStream (h : N) (target : VelumByteSlice) (out : bool)
| CallWrite (s : N) (input : VelumByteSlice)
| CallRead (s : N) (output : VelumMutableByteSlice) (out : bool)
| CallFinish (s : N)
| CallStreamClose (s : N).

Definition call (c : Call) : Task :=
  match c with
  | CallCreate out => velum_client_runtime_create out
  | CallStart h input out => velum_client_runtime_start_v1 h input out
  | CallSnapshot h out => velum_client_runtime_snapshot_v1 h out
  | CallStop h out => velum_client_runtime_stop h out
  | CallProxyStart h port out => velum_client_runtime_proxy_start h port out
  | CallProxyStartV2 h port rules out => velum_client_runtime_proxy_start_v2 h port rules out
  | CallProxyStop h => velum_client_runtime_proxy_stop h
  | CallDestroy h => velum_client_runtime_destroy h
  | CallConnect input out => velum_client_connect input out
  | CallClose h => velum_client_close h
  | CallOpenStream h target out => velum_client_open_stream h target out
  | CallWrite s input => velum_client_stream_write s input
  | CallRead s output out => velum_client_stream_read s output out
  | CallFinish s => velum_client_stream_finish s
  | CallStreamClose s => velum_client_stream_close s
  end.
End calls.

(** ** The process *)
Record World := {
  table : HandleTable;
  entries : list ClientEntry;
  stream_entries : list StreamEntry;
  tasks : gmap nat Task
}.
Definition initial : World := {| table := table_default; entries := []; stream_entries := []; tasks := ∅ |}.

Definition put (t : nat) (x : Task) (w : World) : World :=
  {| table := table w; entries := entries w; stream_entries := stream_entries w; tasks := <[t := x]> (tasks w) |}.
Definition set_table (tb : HandleTable) (w : World) : World :=
  {| table := tb; entries := entries w; stream_entries := stream_entries w; tasks := tasks w |}.
Definition set_entries (l : list ClientEntry) (w : World) : World :=
  {| table := table w; entries := l; stream_entries := stream_entries w; tasks := tasks w |}.
Definition set_streams (l : list StreamEntry) (w : World) : World :=
  {| table := table w; entries := entries w; stream_entries := l; tasks := tasks w |}.

Definition update (e : nat) (f : ClientEntry -> ClientEntry) (w : World) : World := set_entries (alter f e (entries w)) w.
Definition update_stream (i : nat) (f : StreamEntry -> StreamEntry) (w : World) : World :=
  set_streams (alter f i (stream_entries w)) w.
Definition hold (h : option nat) (x : ClientEntry) : ClientEntry :=
  {| runtime := runtime x; destroyed := destroyed x; proxy := proxy x; holder := h |}.
Definition set_runtime (r : Runtime.World) (x : ClientEntry) : ClientEntry :=
  {| runtime := r; destroyed := destroyed x; proxy := proxy x; holder := holder x |}.
Definition set_proxy (p : option N) (x : ClientEntry) : ClientEntry :=
  {| runtime := runtime x; destroyed := destroyed x; proxy := p; holder := holder x |}.
Definition set_destroyed (x : ClientEntry) : ClientEntry :=
  {| runtime := runtime x; destroyed := true; proxy := proxy x; holder := holder x |}.
Definition hold_stream (io : Io) (h : option nat) (x : StreamEntry) : StreamEntry :=
  match io with
  | Read _ => {| client_handle := client_handle x; stream_generation := stream_generation x; cancelled := cancelled x;
                 send_holder := send_holder x; receive_holder := h |}
  | Write _ | Finish => {| client_handle := client_handle x; stream_generation := stream_generation x;
                 cancelled := cancelled x; send_holder := h; receive_holder := receive_holder x |}
  end.
Definition io_holder (io : Io) (x : StreamEntry) : option nat :=
  match io with Read _ => receive_holder x | Write _ | Finish => send_holder x end.

(** The end of a call that has the mutex of [command]. *)
Definition finish (t e : nat) (r : Reply) (w : World) : World := put t (Returned r) (update e (hold None) w).

(** [HandleTable::invalidate_streams] *)
Definition of_client (h : N) (w : World) (i : nat) : bool :=
  match stream_entries w !! i with Some x => client_handle x =? h | None => false end.
Definition invalidate_streams (h : N) (w : World) : World :=
  set_table (HandleTable.retain_streams (table w) (fun i => negb (of_client h w i)))
    (set_streams (imap (fun i x => if bool_decide (i ∈ (map_to_list (streams (table w))).*2) && (client_handle x =? h)
                                   then cancel x else x) (stream_entries w)) w).

(** The runtime's own operations, with the task that [start] spawns and the
    one that [stop] aborts and joins.  [stop] is one step here, without the
    moment in which [Stopping] is published: the call has the mutex of the
    entry, under which snapshots are taken too, and all that is read without
    it, [is_generation_online], answers the same in [Stopping] as in
    [Stopped]. *)
Definition runtime_start (r : Runtime.World) : outcome (result N RuntimeError * Runtime.World) :=
  match ClientRuntime.start_with true (inner r) with
  | Ret (Ok g, i) => Ret (Ok g, with_tasks (<[g := Dialing]> (Runtime.tasks r)) (with_inner i r))
  | Ret (Err e, i) => Ret (Err e, with_inner i r)
  | Panic => Panic
  | OutOfFuel => OutOfFuel
  end.
Definition runtime_stop (r : Runtime.World) : outcome (N * Runtime.World) :=
  match ClientRuntime.stop (E := unit) (inner r) with
  | Ret (Ok (g, t), i) => Ret (g, with_aborted t (with_inner i r))
  | Ret (Err _, _) | Panic => Panic
  | OutOfFuel => OutOfFuel
  end.
Definition online (x : ClientEntry) (g : N) : bool := ClientRuntime.is_generation_online (inner (runtime x)) g.
Definition seen (x : ClientEntry) : RuntimeSnapshot := published (inner (runtime x)).

(** What the network answers to a call that waits for it. *)
Inductive Answer :=
| NoAnswer
| OpenAnswer (r : result unit ClientError)
| BindAnswer (address : option N)
| WriteAnswer (r : result unit ClientError)
| ReadAnswer (r : result (option N) ClientError).

(** *** Commands *)
Definition run_start (t e : nat) (x : ClientEntry) (w : World) : option World :=
  match runtime_start (runtime x) with
  | Ret (Ok g, r) => Some (finish t e (ControlReply VelumControlStatus.Ok (GenerationValue g)) (update e (set_runtime r) w))
  | Ret (Err Busy, r) => Some (finish t e (ControlReply VelumControlStatus.Busy NoValue) (update e (set_runtime r) w))
  | Ret (Err _, r) => Some (finish t e (ControlReply VelumControlStatus.Internal NoValue) (update e (set_runtime r) w))
  | Panic | OutOfFuel => None
  end.

(** A command that has the mutex and was not turned away. *)
Definition run_command (t e : nat) (h : N) (c : Command) (x : ClientEntry) (w : World) : option World :=
  match c with
  | Start _ => run_start t e x w
  | Snapshot =>
    Some (finish t e (ControlReply VelumControlStatus.Ok (SnapshotValue (snapshot_from (seen x)))) w)
  | Stop => Some (put t (Invalidating e h) (update e (set_proxy None) w))
  | ProxyStart requested_port policy =>
    Some (match proxy x with
          | Some _ => finish t e (ControlReply VelumControlStatus.Busy NoValue) w
          | None =>
            if online x (generation (seen x)) then put t (Binding e requested_port policy) w
            else finish t e (ControlReply VelumControlStatus.Internal NoValue) w
          end)
  | ProxyStop => Some (finish t e (ControlReply VelumControlStatus.Ok NoValue) (update e (set_proxy None) w))
  end.

Definition command_step (t : nat) (a : Answer) (w : World) (k : Task) : option World :=
  match k with
  | Looking h c =>
    Some (match clients (table w) !! h with
          | None => put t (control VelumControlStatus.InvalidHandle) w
          | Some e => put t (Locking e h c) w
          end)
  | Locking e h c =>
    match entries w !! e with
    | Some {| holder := None; destroyed := d |} =>
      Some (if d then put t (control VelumControlStatus.InvalidHandle) w
            else put t (Running e h c) (update e (hold (Some t)) w))
    | _ => None
    end
  | Running e h c => match entries w !! e with Some x => run_command t e h c x w | None => None end
  | Binding e requested_port policy =>
    match a with
    | BindAnswer (Some port) =>
      Some (finish t e (ControlReply VelumControlStatus.Ok (Port port)) (update e (set_proxy (Some port)) w))
    | BindAnswer None => Some (finish t e (ControlReply VelumControlStatus.Internal NoValue) w)
    | _ => None
    end
  | Invalidating e h => Some (put t (StoppingRuntime e h) (invalidate_streams h w))
  | StoppingRuntime e h =>
    match entries w !! e with
    | None => None
    | Some x =>
      match runtime_stop (runtime x) with
      | Ret (g, r) =>
        Some (finish t e (ControlReply VelumControlStatus.Ok (GenerationValue g)) (update e (set_runtime r) w))
      | Panic | OutOfFuel => None
      end
    end
  | _ => None
  end.

(** *** Opening a stream *)
Definition open_stream_step (t : nat) (a : Answer) (w : World) (k : Task) : option World :=
  match k with
  | StreamLooking h target =>
    Some (match clients (table w) !! h with
          | None => put t (client VelumStatus.InvalidHandle) w
          | Some e => put t (Choosing e h target) w
          end)
  | Choosing e h target =>
    match entries w !! e with
    | None => None
    | Some x =>
      match eval ClientRuntime.active_client (inner (runtime x)) with
      | Ret (Ok (g, _)) => Some (put t (Opening e h g) w)
      | Ret (Err error) => Some (put t (client (status_for_runtime error)) w)
      | Panic | OutOfFuel => None
      end
    end
  | Opening e h g =>
    match a, entries w !! e with
    | OpenAnswer opened, Some x =>
      match eval (ClientRuntime.open_stream_check g opened) (inner (runtime x)) with
      | Ret (Ok g) => Some (put t (Publishing e h g) w)
      | Ret (Err error) => Some (put t (client (status_for_runtime error)) w)
      | Panic | OutOfFuel => None
      end
    | _, _ => None
    end
  (** [publish_stream_handle] *)
  | Publishing e h g =>
    match entries w !! e with
    | Some {| holder := None |} as o =>
      match o with
      | Some x =>
        Some (if destroyed x || negb (online x g) then put t (client VelumStatus.Transport) w
              else put t (Inserting e h g) (update e (hold (Some t)) w))
      | None => None
      end
    | _ => None
    end
  | Inserting e h g =>
    Some (match clients (table w) !! h with
          | None => finish t e (ClientReply VelumStatus.InvalidHandle NoValue) w
          | Some current =>
            if negb (bool_decide (current = e)) then finish t e (ClientReply VelumStatus.InvalidHandle NoValue) w
            else
              match HandleTable.insert_stream (table w) (length (stream_entries w)) with
              | None => finish t e (ClientReply VelumStatus.Transport NoValue) w
              | Some (s, table) =>
                finish t e (ClientReply VelumStatus.Ok (Handle s))
                  (set_table table (set_streams (stream_entries w ++ [stream_new h g]) w))
              end
          end)
  | _ => None
  end.

(** *** Retiring and connecting *)
Definition retired (k : Retirement) (ok : bool) : Reply :=
  match k with
  | Destroy => ControlReply (if ok then VelumControlStatus.Ok else VelumControlStatus.InvalidHandle) NoValue
  | Close => ClientReply (if ok then VelumStatus.Ok else VelumStatus.InvalidHandle) NoValue
  end.

Definition retire_step (t : nat) (w : World) (k : Task) : option World :=
  match k with
  | Retiring h k =>
    let entry := clients (table w) !! h in
    let w := invalidate_streams h w in
    let w := set_table (HandleTable.remove_client (table w) h) w in
    Some (match entry with
          | None => put t (Returned (retired k false)) w
          | Some e => put t (RetireLocking e k) w
          end)
  | RetireLocking e k =>
    match entries w !! e with
    | Some {| holder := None |} =>
      Some (put t (RetireProxy e k) (update e (fun x => set_destroyed (hold (Some t) x)) w))
    | _ => None
    end
  | RetireProxy e k => Some (put t (RetireRuntime e k) (update e (set_proxy None) w))
  | RetireRuntime e k =>
    match entries w !! e with
    | None => None
    | Some x =>
      match runtime_stop (runtime x) with
      | Ret (_, r) => Some (finish t e (retired k true) (update e (set_runtime r) w))
      | Panic | OutOfFuel => None
      end
    end
  | _ => None
  end.

Definition create_step (t : nat) (w : World) (k : Task) : option World :=
  match k with
  | Creating =>
    Some (match HandleTable.insert_client (table w) (length (entries w)) with
          | None => put t (control VelumControlStatus.Internal) w
          | Some (handle, table) =>
            put t (Returned (ControlReply VelumControlStatus.Ok (Handle handle)))
              (set_table table (set_entries (entries w ++ [client_new Runtime.initial]) w))
          end)
  (** [wait_until_connected], on a runtime that nobody else has yet. *)
  | ConnectStarting _ =>
    match runtime_start Runtime.initial with
    | Ret (Ok _, r) => Some (put t (ConnectWaiting r) w)
    | Ret (Err error, _) => Some (put t (client (status_for_runtime error)) w)
    | Panic | OutOfFuel => None
    end
  | ConnectWaiting r =>
    let snapshot := published (inner r) in
    match phase snapshot with
    | Online => Some (put t (ConnectInserting r) w)
    | Failed => Some (put t (client (status_for_failure (default Transport (failure snapshot)))) w)
    | Stopped | Stopping => Some (put t (client (status_for_runtime Superseded)) w)
    | Connecting => None
    end
  | ConnectInserting r =>
    Some (match HandleTable.insert_client (table w) (length (entries w)) with
          | None => put t (client VelumStatus.Transport) w
          | Some (handle, table) =>
            put t (Returned (ClientReply VelumStatus.Ok (Handle handle)))
              (set_table table (set_entries (entries w ++ [client_new r]) w))
          end)
  | _ => None
  end.

(** *** Streams

    [biased]: a stream that is cancelled is not read or written any more. *)
Definition unit_reply (r : result unit ClientError) : Reply :=
  match r with
  | Ok _ => ClientReply VelumStatus.Ok NoValue
  | Err error => ClientReply (status_for_client error) NoValue
  end.
Definition io_reply (io : Io) (a : Answer) : option Reply :=
  match io, a with
  | (Write _ | Finish), WriteAnswer r => Some (unit_reply r)
  | Read _, ReadAnswer (Ok (Some n)) => Some (ClientReply VelumStatus.Ok (Count n))
  | Read _, ReadAnswer (Ok None) => Some (ClientReply VelumStatus.Ok (Count 0))
  | Read _, ReadAnswer (Err error) => Some (ClientReply (status_for_client error) NoValue)
  | _, _ => None
  end.

Definition stream_step (t : nat) (a : Answer) (w : World) (k : Task) : option World :=
  match k with
  | StreamFinding s io =>
    Some (match streams (table w) !! s with
          | None => put t (client VelumStatus.InvalidHandle) w
          | Some i => put t (StreamLocking i io) w
          end)
  | StreamLocking i io =>
    match stream_entries w !! i with
    | None => None
    | Some x =>
      match io_holder io x with
      | Some _ => None
      | None => Some (put t (StreamIo i io) (update_stream i (hold_stream io (Some t)) w))
      end
    end
  | StreamIo i io =>
    match stream_entries w !! i with
    | None => None
    | Some x =>
      if cancelled x
      then Some (put t (client VelumStatus.Transport) (update_stream i (hold_stream io None) w))
      else match io_reply io a with
           | Some r => Some (put t (Returned r) (update_stream i (hold_stream io None) w))
           | None => None
           end
    end
  | StreamClosing s =>
    let stream := streams (table w) !! s in
    let w := set_table (HandleTable.remove_stream (table w) s) w in
    Some (match stream with
          | None => put t (client VelumStatus.InvalidHandle) w
          | Some i => put t (StreamCancelling i) w
          end)
  | StreamCancelling i =>
    Some (put t (Returned (ClientReply VelumStatus.Ok NoValue)) (update_stream i cancel w))
  | _ => None
  end.

(** The next step of a call, [None] while it waits. *)
Definition advance (t : nat) (a : Answer) (w : World) : option World :=
  match tasks w !! t with
  | None => None
  | Some k =>
    match k with
    | Looking _ _ | Locking _ _ _ | Running _ _ _ | Binding _ _ _ | Invalidating _ _ | StoppingRuntime _ _ =>
      command_step t a w k
    | StreamLooking _ _ | Choosing _ _ _ | Opening _ _ _ | Publishing _ _ _ | Inserting _ _ _ => open_stream_step t a w k
    | Retiring _ _ | RetireLocking _ _ | RetireProxy _ _ | RetireRuntime _ _ => retire_step t w k
    | Creating | ConnectStarting _ | ConnectWaiting _ | ConnectInserting _ => create_step t w k
    | StreamFinding _ _ | StreamLocking _ _ | StreamIo _ _ | StreamClosing _ | StreamCancelling _ => stream_step t a w k
    | Returned _ => None
    end
  end.

(** A runtime's connection task makes a step of its own: it never starts or
    stops the runtime, whose last reference is not dropped before its entry's. *)
Definition background (r r' : Runtime.World) : Prop :=
  Runtime.step r r' /\ host r' = true /\ generation (snap r') = generation (snap r).

Inductive step (pem_reader_iter : list byte -> option (list (list byte))) (w : World) : World -> Prop :=
| step_call t c : tasks w !! t = None -> step pem_reader_iter w (put t (call pem_reader_iter c) w)
| step_advance t a w' : advance t a w = Some w' -> step pem_reader_iter w w'
| step_background e x r :
    entries w !! e = Some x -> background (runtime x) r ->
    step pem_reader_iter w (update e (set_runtime r) w)
| step_connecting t k r r' :
    tasks w !! t = Some k -> k = ConnectWaiting r \/ k = ConnectInserting r -> background r r' ->
    step pem_reader_iter w
      (put t (match k with ConnectWaiting _ => ConnectWaiting r' | _ => ConnectInserting r' end) w)
(** The table is shared with the calls on engines. *)
| step_insert_engine engine handle tb :
    HandleTable.insert_engine (table w) engine = Some (handle, tb) -> step pem_reader_iter w (set_table tb w)
| step_remove_engine handle : step pem_reader_iter w (set_table (HandleTable.remove_engine (table w) handle) w).

(** ** What the runtimes do under the calls *)
Definition live_runtime (r : Runtime.World) : Prop :=
  Runtime.reachable r /\ host r = true /\ Runtime.mutex r = None.
Definition stopped (r : Runtime.World) : Prop := phase (snap r) = Stopped.

Lemma live_initial : live_runtime Runtime.initial.
Proof. split; [apply rtc_refl|done]. Qed.
Lemma live_rests r : live_runtime r -> rests r.
Proof. intros (Hr & _ & Hm). by apply reachable_rests. Qed.

Lemma start_with_Err s e i : ClientRuntime.start_with true s = Ret (Err e, i) -> e = Busy /\ i = s.
Proof.
  intros H. unfold_runtime H. destruct s as [[[r gen ph f]] c t p cl].
  destruct ph; run_inv H; repeat case_match; simplify_eq; done.
Qed.

Lemma runtime_start_spec r o r' :
  live_runtime r -> runtime_start r = Ret (o, r') ->
  live_runtime r' /\
  match o with
  | Ok g => g = generation (snap r) + 1 /\ generation (snap r') = g /\ phase (snap r') = Connecting
  | Err e => e = Busy /\ r' = r
  end.
Proof.
  intros (Hr & Hh & Hm). unfold runtime_start.
  destruct (ClientRuntime.start_with true (inner r)) as [[[g|e] i]| |] eqn:Hs; try done; intros [= <- <-].
  - pose proof (start_with_Ok _ _ _ Hs) as (_ & _ & Hg & Hi). split; [split|].
    + eapply rtc_r; [exact Hr|]. by apply (step_start r g i).
    + by split.
    + unfold snap, current. by rewrite Hi.
  - apply start_with_Err in Hs as [-> ->]. assert (with_inner (inner r) r = r) as -> by by destruct r. done.
Qed.

(** The two publications of a [stop], one after the other. *)
Lemma stop_steps r g t i :
  live_runtime r -> ClientRuntime.stop (E := unit) (inner r) = Ret (Ok (g, t), i) ->
  live_runtime (with_aborted t (with_inner i r)).
Proof.
  intros (Hr & Hh & Hm) Hs. split; [|by destruct t].
  destruct (ClientRuntime.stop_begin (E := unit) (inner r)) as [[[[g0|]|] i0]| |] eqn:Hb;
    unfold ClientRuntime.stop, bind in Hs; rewrite Hb in Hs; try done.
  - destruct (ClientRuntime.stop_finish g0 i0) as [[[t0|] i1]| |] eqn:Hf; try done. injection Hs as -> -> ->.
    pose proof (step_stop_begins r g i0 Hh Hm Hb) as H1.
    pose proof (step_stop_ends (with_mutex (Some g) (with_inner i0 r)) g t i eq_refl Hf) as H2.
    apply (rtc_r _ _ _ (rtc_r _ _ _ Hr H1)) in H2. by destruct r, t; cbn in *; subst.
  - injection Hs as _ <- <-. pose proof (step_stop_idle r i0 Hh Hm Hb) as H1.
    apply (rtc_r _ _ _ Hr) in H1. by destruct r.
Qed.

Lemma runtime_stop_spec r g r' :
  live_runtime r -> runtime_stop r = Ret (g, r') ->
  live_runtime r' /\ stopped r' /\ generation (snap r') = g /\ generation (snap r) <= g.
Proof.
  intros Hr. unfold runtime_stop.
  destruct (ClientRuntime.stop (inner r)) as [[[[g' t]|] i]| |] eqn:Hs; try done. intros [= -> <-].
  split; [by eapply stop_steps|].
  unfold stopped, snap, current. apply stop_Ok in Hs as [(Hp & -> & -> & ->)|(_ & -> & _ & ->)]; cbn.
  - split_and!; [done..|]. apply N.le_refl.
  - unfold current. split_and!; [done..|lia].
Qed.

(** What goes on behind a runtime leaves its mutex alone: a [stop] would change
    the generation. *)
Lemma background_mutex r r' : background r r' -> Runtime.mutex r = None -> Runtime.mutex r' = None.
Proof.
  intros (Hs & _ & Hg) Hm. destruct Hs; try done.
  apply stop_begin_Ok in H1 as (_ & -> & ->). unfold snap in Hg. cbn in Hg. lia.
Qed.

Lemma background_live r r' : live_runtime r -> background r r' -> live_runtime r'.
Proof.
  intros (Hr & _ & Hm) Hb. pose proof (background_mutex _ _ Hb Hm) as Hm'. destruct Hb as (Hs & Hh & _).
  split_and!; [by eapply rtc_r|done..].
Qed.

(** A stopped runtime stays stopped until it is started. *)
Lemma background_stopped r r' : live_runtime r -> background r r' -> stopped r -> stopped r'.
Proof.
  unfold stopped, snap. intros (_ & _ & Hm) (Hs & Hh & Hg) Hp. unfold snap in Hg. destruct Hs; cbn in *; try done.
  - apply start_with_Ok in H1 as (_ & _ & -> & ->). unfold current in *. cbn in *. lia.
  - apply complete_connect_Ok in H2 as [(_ & _ & ->)|(_ & Hc & _)]; [done|congruence].
  - destruct r0; by injection H1 as <-.
  - apply connection_closed_Ok in H1 as [(_ & ->)|(_ & Hc & _)]; [done|congruence].
  - apply stop_begin_Ok in H1 as [_ ->]. done.
  - by apply stop_begin_Ok in H1 as (Hn & _).
  - congruence.
Qed.

(** ** The invariant *)
Definition in_table (tb : HandleTable) (h : N) : Prop :=
  is_Some (clients tb !! h) \/ is_Some (streams tb !! h) \/ is_Some (engines tb !! h).
(** No handle stands for two things, and those given out are counted. *)
Record table_ok (tb : HandleTable) : Prop := {
  ta_bound : forall h, in_table tb h -> 0 < h <= next_handle tb;
  ta_client : forall h, is_Some (clients tb !! h) -> streams tb !! h = None /\ engines tb !! h = None;
  ta_stream : forall h, is_Some (streams tb !! h) -> engines tb !! h = None
}.

(** The entry whose mutex of [command] a call has. *)
Definition holds (k : Task) : option nat :=
  match k with
  | Running e _ _ | Binding e _ _ | Invalidating e _ | StoppingRuntime e _ | Inserting e _ _ | RetireProxy e _
  | RetireRuntime e _ => Some e
  | _ => None
  end.
(** The stream a call reads or writes. *)
Definition uses (k : Task) : option (nat * Io) := match k with StreamIo i io => Some (i, io) | _ => None end.
Definition is_read (io : Io) : bool := match io with Read _ => true | Write _ | Finish => false end.

Section invariant.
Context (w : World).

(** Nothing but [e] is, or will be, found under handle [h]. *)
Definition known (e : nat) (h : N) : Prop :=
  (e < length (entries w))%nat /\ h <= next_handle (table w) /\ forall e', clients (table w) !! h = Some e' -> e' = e.
Definition gone (e : nat) : Prop := (e < length (entries w))%nat /\ forall h, clients (table w) !! h <> Some e.
Definition held (t e : nat) (P : ClientEntry -> Prop) : Prop :=
  exists x, entries w !! e = Some x /\ holder x = Some t /\ P x.
Definition no_streams (h : N) : Prop :=
  forall s i x, streams (table w) !! s = Some i -> stream_entries w !! i = Some x -> client_handle x <> h.

Definition task_ok (t : nat) (k : Task) : Prop :=
  match k with
  | Creating | Looking _ _ | StreamLooking _ _ | Retiring _ _ | ConnectStarting _ | StreamFinding _ _ | StreamClosing _
  | Returned _ => True
  | Locking e h _ | Choosing e h _ | Opening e h _ | Publishing e h _ => known e h
  | Running e h _ | Inserting e h _ => known e h /\ held t e (fun x => destroyed x = false)
  | Invalidating e h => known e h /\ held t e (fun x => destroyed x = false /\ proxy x = None)
  | Binding e _ _ => held t e (fun x => destroyed x = false)
  | StoppingRuntime e h => known e h /\ held t e (fun x => destroyed x = false /\ proxy x = None) /\ no_streams h
  | RetireLocking e _ => gone e
  | RetireProxy e _ => gone e /\ held t e (fun x => destroyed x = true)
  | RetireRuntime e _ => gone e /\ held t e (fun x => destroyed x = true /\ proxy x = None)
  | ConnectWaiting r | ConnectInserting r => live_runtime r
  | StreamLocking i _ => (i < length (stream_entries w))%nat
  | StreamIo i io => exists x, stream_entries w !! i = Some x /\ io_holder io x = Some t
  | StreamCancelling i => (i < length (stream_entries w))%nat /\ forall s, streams (table w) !! s <> Some i
  end.

Record entries_ok : Prop := {
  en_clients : forall h e, clients (table w) !! h = Some e -> exists x, entries w !! e = Some x /\ destroyed x = false;
  en_once : forall h h' e, clients (table w) !! h = Some e -> clients (table w) !! h' = Some e -> h = h';
  en_locks : forall e x t, entries w !! e = Some x -> holder x = Some t ->
    exists k, tasks w !! t = Some k /\ holds k = Some e;
  en_destroyed : forall e x, entries w !! e = Some x -> destroyed x = true -> holder x = None ->
    proxy x = None /\ stopped (runtime x);
  en_runtime : forall e x, entries w !! e = Some x -> live_runtime (runtime x)
}.

Record streams_ok : Prop := {
  so_open : forall s i, streams (table w) !! s = Some i -> exists x, stream_entries w !! i = Some x /\
    cancelled x = false /\ is_Some (clients (table w) !! client_handle x);
  so_once : forall s s' i, streams (table w) !! s = Some i -> streams (table w) !! s' = Some i -> s = s';
  so_locks : forall i x io t, stream_entries w !! i = Some x -> io_holder io x = Some t ->
    exists io', tasks w !! t = Some (StreamIo i io') /\ is_read io = is_read io'
}.

Record handles_ok : Prop := {
  ho_table : table_ok (table w);
  ho_entries : entries_ok;
  ho_streams : streams_ok;
  ho_tasks : forall t k, tasks w !! t = Some k -> task_ok t k
}.
End invariant.

Lemma initial_handles_ok : handles_ok initial.
Proof.
  split; [split|split|split|]; cbn; try done; try by intros h [? H].
  intros h [[? H]|[[? H]|[? H]]]; done.
Qed.

(** *** What one call may change of what the others rely on *)
Record evolves (t : option nat) (w w' : World) : Prop := {
  ev_entries : forall e x, entries w !! e = Some x -> exists x', entries w' !! e = Some x' /\
    (destroyed x = true -> destroyed x' = true) /\
    forall t', Some t' <> t -> holder x = Some t' -> holder x' = Some t' /\ destroyed x' = destroyed x /\ proxy x' = proxy x;
  ev_handles : next_handle (table w) <= next_handle (table w');
  ev_clients : forall h e, clients (table w') !! h = Some e ->
    clients (table w) !! h = Some e \/ (next_handle (table w) < h /\ (length (entries w) <= e)%nat);
  ev_stream_entries : forall i x, stream_entries w !! i = Some x -> exists x', stream_entries w' !! i = Some x' /\
    client_handle x' = client_handle x /\
    forall t' io, Some t' <> t -> io_holder io x = Some t' -> io_holder io x' = Some t';
  ev_streams : forall s i, streams (table w') !! s = Some i ->
    streams (table w) !! s = Some i \/
    ((length (stream_entries w) <= i)%nat /\ exists x' e x, stream_entries w' !! i = Some x' /\
       clients (table w) !! client_handle x' = Some e /\ entries w !! e = Some x /\ holder x = t /\ is_Some t)
}.

Lemma lookup_grows {A} (l l' : list A) : (forall i x, l !! i = Some x -> is_Some (l' !! i)) -> (length l <= length l')%nat.
Proof.
  intros H. destruct (decide (length l = 0%nat)); [lia|].
  assert (length l - 1 < length l)%nat as [x Hx]%lookup_lt_is_Some by lia. apply H, lookup_lt_is_Some in Hx. lia.
Qed.

Section evolves.
Context {t : option nat} {w w' : World} (Hev : evolves t w w').

Lemma evolves_entries : (length (entries w) <= length (entries w'))%nat.
Proof. apply lookup_grows. intros i x Hx. destruct (ev_entries _ _ _ Hev i x Hx) as (x' & Hx' & _). eauto. Qed.
Lemma evolves_streams : (length (stream_entries w) <= length (stream_entries w'))%nat.
Proof. apply lookup_grows. intros i x Hx. destruct (ev_stream_entries _ _ _ Hev i x Hx) as (x' & Hx' & _). eauto. Qed.

Lemma evolves_known e h : known w e h -> known w' e h.
Proof.
  intros (He & Hh & Hc). pose proof evolves_entries. pose proof (ev_handles _ _ _ Hev). split_and!; [lia..|].
  intros e' [He'|[Hlt _]]%(ev_clients _ _ _ Hev); [by apply Hc|lia].
Qed.
Lemma evolves_gone e : gone w e -> gone w' e.
Proof.
  intros [He Hc]. pose proof evolves_entries. split; [lia|].
  intros h [He'|[_ Hle]]%(ev_clients _ _ _ Hev); [by destruct (Hc h)|lia].
Qed.
Lemma evolves_held t' e (P : ClientEntry -> Prop) :
  Some t' <> t -> (forall x x', destroyed x' = destroyed x -> proxy x' = proxy x -> P x -> P x') ->
  held w t' e P -> held w' t' e P.
Proof.
  intros Hne HP (x & Hx & Ht & Hp). destruct (ev_entries _ _ _ Hev e x Hx) as (x' & Hx' & _ & Hk).
  destruct (Hk t' Hne Ht) as (Hh & Hd & Hpr). exists x'. split_and!; [done..|]. by apply (HP x).
Qed.
Lemma evolves_no_streams t' e h (P : ClientEntry -> Prop) :
  Some t' <> t -> streams_ok w -> known w e h -> held w t' e P -> no_streams w h -> no_streams w' h.
Proof.
  intros Hne Hok (_ & _ & Hc) (x & Hx & Ht & _) Hno s i y [Hs|(Hle & y' & e' & x' & Hy' & Hcl & Hx' & Hh & _)]%(ev_streams _ _ _ Hev) Hy.
  - destruct (so_open _ Hok s i Hs) as (y0 & Hy0 & _). destruct (ev_stream_entries _ _ _ Hev i y0 Hy0) as (y1 & Hy1 & Hch & _).
    assert (y1 = y) as -> by congruence. rewrite Hch. by apply (Hno s i y0).
  - intros <-. assert (y' = y) as -> by congruence. apply Hc in Hcl as ->. assert (x' = x) as -> by congruence. congruence.
Qed.

Lemma evolves_task_ok t' k : Some t' <> t -> streams_ok w -> task_ok w t' k -> task_ok w' t' k.
Proof.
  intros Hne Hok. pose proof (evolves_held t') as Hheld. pose proof evolves_streams as Hlen.
  destruct k; cbn; try done; try apply evolves_known; try apply evolves_gone.
  - intros [? ?]. split; [by apply evolves_known|]. apply Hheld; [done|congruence|done].
  - apply Hheld; [done|congruence].
  - intros [? ?]. split; [by apply evolves_known|]. apply Hheld; [done| |done]. intros x x' -> ->. done.
  - intros (Hk & Hh & Hn). split_and!; [by apply evolves_known| |by eapply evolves_no_streams].
    apply Hheld; [done| |done]. intros x x' -> ->. done.
  - intros [? ?]. split; [by apply evolves_known|]. apply Hheld; [done|congruence|done].
  - intros [? ?]. split; [by apply evolves_gone|]. apply Hheld; [done|congruence|done].
  - intros [? ?]. split; [by apply evolves_gone|]. apply Hheld; [done| |done]. intros x x' -> ->. done.
  - lia.
  - intros (x & Hx & Ht). destruct (ev_stream_entries _ _ _ Hev _ _ Hx) as (x' & Hx' & _ & Hk). exists x'. split; [done|].
    by apply Hk.
  - intros [Hl Hn]. split; [lia|]. intros s [Hs|[Hle _]]%(ev_streams _ _ _ Hev); [by destruct (Hn s)|lia].
Qed.
End evolves.

(** *** Every step keeps the invariant *)
Lemma call_step_ok t w w' :
  handles_ok w -> evolves t w w' -> (forall t', Some t' <> t -> tasks w' !! t' = tasks w !! t') ->
  (forall t0 k, t = Some t0 -> tasks w' !! t0 = Some k -> task_ok w' t0 k) ->
  table_ok (table w') -> entries_ok w' -> streams_ok w' -> handles_ok w'.
Proof.
  intros [_ _ Hs Ht] Hev Htasks Hown Htb Hen Hst. split; [done..|]. intros t' k Hk.
  destruct (decide (Some t' = t)) as [<-|Hne]; [by apply (Hown t' k)|].
  rewrite Htasks in Hk by done. by apply (evolves_task_ok Hev); [| |apply Ht].
Qed.

Lemma evolves_same t w w' :
  table w' = table w -> entries w' = entries w -> stream_entries w' = stream_entries w -> evolves t w w'.
Proof.
  intros Ht He Hs. split; rewrite ?Ht, ?He, ?Hs; eauto 10.
Qed.

Definition before {A} (w : World) (t : nat) (f : Task -> option A) : option A := tasks w !! t ≫= f.

(** A call goes on without touching anything else. *)
Lemma put_ok w t k :
  handles_ok w -> before w t holds = holds k -> before w t uses = uses k -> task_ok w t k -> handles_ok (put t k w).
Proof.
  intros Hok Hh Hu Hk. apply (call_step_ok (Some t) w); [done|by apply evolves_same|..].
  - intros t' Hne. cbn. apply lookup_insert_ne. congruence.
  - intros t0 k' [= <-]. cbn. rewrite lookup_insert_eq. intros [= <-]. exact Hk.
  - apply Hok.
  - destruct (ho_entries _ Hok) as [H1 H2 H3 H4 H5]. split; cbn; [done|done| |done|done].
    intros e x t' Hx Ht'. destruct (H3 e x t' Hx Ht') as (k' & Hk' & He). destruct (decide (t' = t)) as [->|Hne].
    + exists k. rewrite lookup_insert_eq. split; [done|]. rewrite <-Hh. unfold before. by rewrite Hk'.
    + exists k'. by rewrite lookup_insert_ne.
  - destruct (ho_streams _ Hok) as [H1 H2 H3]. split; cbn; [done|done|]. intros i x io t' Hx Ht'.
    destruct (H3 i x io t' Hx Ht') as (io' & Hk' & Hs). destruct (decide (t' = t)) as [->|Hne].
    + exists io'. rewrite lookup_insert_eq. split; [|done]. unfold before in Hu. rewrite Hk' in Hu. cbn in Hu.
      destruct k; try done. cbn in Hu. congruence.
    + exists io'. by rewrite lookup_insert_ne.
Qed.

(** A call changes the entry whose mutex it takes, has or gives back. *)
Definition set_entry (e : nat) (y : ClientEntry) (w : World) : World := set_entries (<[e := y]> (entries w)) w.

Lemma alter_insert {A} (f : A -> A) e x (l : list A) : l !! e = Some x -> alter f e l = <[e := f x]> l.
Proof.
  intros Hx. apply list_eq. intros i. destruct (decide (i = e)) as [->|Hne].
  - rewrite list_lookup_alter_eq, Hx, list_lookup_insert_eq by (by eapply lookup_lt_Some). done.
  - by rewrite list_lookup_alter_ne, list_lookup_insert_ne.
Qed.
Lemma update_entry e f x w : entries w !! e = Some x -> update e f w = set_entry e (f x) w.
Proof. intros Hx. unfold update, set_entry. by rewrite (alter_insert f e x). Qed.
Lemma update_set_entry e f y w : (e < length (entries w))%nat -> update e f (set_entry e y w) = set_entry e (f y) w.
Proof.
  intros He. rewrite (update_entry e f y); [|by apply list_lookup_insert_eq].
  unfold set_entry. cbn. by rewrite list_insert_insert, decide_True.
Qed.

Record entry_moves (w : World) (t : nat) (k : Task) (e : nat) (x y : ClientEntry) : Prop := {
  em_entry : entries w !! e = Some x;
  em_before : holder x = None /\ before w t holds = None \/ holder x = Some t /\ before w t holds = Some e;
  em_after : holder y = None /\ holds k = None \/ holder y = Some t /\ holds k = Some e;
  em_uses : before w t uses = None /\ uses k = None;
  em_destroyed : destroyed x = true -> destroyed y = true;
  em_gone : destroyed y = true -> destroyed x = true \/ gone w e;
  em_left : destroyed y = true -> holder y = None -> proxy y = None /\ stopped (runtime y);
  em_runtime : live_runtime (runtime y)
}.

Lemma entry_ok w t k e x y :
  handles_ok w -> entry_moves w t k e x y -> task_ok (set_entry e y w) t k -> handles_ok (put t k (set_entry e y w)).
Proof.
  intros Hok [Hx Hb Ha [Hu1 Hu2] Hd Hg Hl Hr] Hk. pose proof (lookup_lt_Some _ _ _ Hx) as Hlt.
  apply (call_step_ok (Some t) w); [done| | | |apply Hok|..].
  - split; cbn; [|lia|by auto|intros i z Hz; by exists z|by auto]. intros e' x' Hx'.
    destruct (decide (e' = e)) as [->|Hne].
    + assert (x' = x) as -> by congruence. exists y. rewrite list_lookup_insert_eq by done. split_and!; [done..|].
      intros t' Hne Ht'. destruct Hb as [[Hb _]|[Hb _]]; congruence.
    + exists x'. by rewrite list_lookup_insert_ne.
  - intros t' Hne. cbn. apply lookup_insert_ne. congruence.
  - intros t0 k' [= <-]. cbn. rewrite lookup_insert_eq. intros [= <-]. exact Hk.
  - destruct (ho_entries _ Hok) as [H1 H2 H3 H4 H5]. split; cbn; [|done|..].
    + intros h e' He'. destruct (H1 h e' He') as (x' & Hx' & Hdx). destruct (decide (e' = e)) as [->|Hne].
      * exists y. rewrite list_lookup_insert_eq by done. split; [done|]. assert (x' = x) as -> by congruence.
        destruct (destroyed y) eqn:Hy; [|done]. destruct (Hg eq_refl) as [?|[_ Hgone]]; [congruence|by destruct (Hgone h)].
      * exists x'. by rewrite list_lookup_insert_ne.
    + intros e' x' t' Hx' Ht'. destruct (decide (e' = e)) as [->|Hne].
      * rewrite list_lookup_insert_eq in Hx' by done. assert (x' = y) as -> by congruence.
        destruct Ha as [[Ha _]|[Ha Hk']]; [congruence|]. assert (t' = t) as -> by congruence.
        exists k. by rewrite lookup_insert_eq.
      * rewrite list_lookup_insert_ne in Hx' by done. destruct (H3 e' x' t' Hx' Ht') as (k' & Hk' & He').
        exists k'. rewrite lookup_insert_ne; [done|]. intros <-. unfold before in Hb. rewrite Hk' in Hb. cbn in Hb.
        destruct Hb as [[_ Hb]|[_ Hb]]; congruence.
    + intros e' x' Hx'. destruct (decide (e' = e)) as [->|Hne].
      * rewrite list_lookup_insert_eq in Hx' by done. assert (x' = y) as -> by congruence. done.
      * rewrite list_lookup_insert_ne in Hx' by done. by apply (H4 e').
    + intros e' x' Hx'. destruct (decide (e' = e)) as [->|Hne].
      * rewrite list_lookup_insert_eq in Hx' by done. by assert (x' = y) as -> by congruence.
      * rewrite list_lookup_insert_ne in Hx' by done. by apply (H5 e').
  - destruct (ho_streams _ Hok) as [H1 H2 H3]. split; cbn; [done|done|]. intros i z io t' Hz Ht'.
    destruct (H3 i z io t' Hz Ht') as (io' & Hk' & Hs). exists io'. rewrite lookup_insert_ne; [done|]. intros <-.
    unfold before in Hu1. by rewrite Hk' in Hu1.
Qed.

(** A call takes or gives back the mutex of a stream, or cancels it. *)
Definition set_stream_entry (i : nat) (y : StreamEntry) (w : World) : World := set_streams (<[i := y]> (stream_entries w)) w.
Lemma update_stream_entry i f x w : stream_entries w !! i = Some x -> update_stream i f w = set_stream_entry i (f x) w.
Proof. intros Hx. unfold update_stream, set_stream_entry. by rewrite (alter_insert f i x). Qed.

Lemma io_holder_hold io io' h x :
  io_holder io' (hold_stream io h x) = if Bool.eqb (is_read io') (is_read io) then h else io_holder io' x.
Proof. by destruct io, io'. Qed.
Lemma io_holder_read io io' x : is_read io = is_read io' -> io_holder io x = io_holder io' x.
Proof. by destruct io, io'. Qed.

Record stream_moves (w : World) (t : nat) (k : Task) (i : nat) (x y : StreamEntry) : Prop := {
  sm_entry : stream_entries w !! i = Some x;
  sm_client : client_handle y = client_handle x;
  sm_cancel : cancelled y = cancelled x \/ forall s, streams (table w) !! s <> Some i;
  sm_locks : forall io, io_holder io y = io_holder io x \/
    (io_holder io x = None /\ io_holder io y = Some t /\ exists io', k = StreamIo i io' /\ is_read io = is_read io') \/
    (io_holder io x = Some t /\ io_holder io y = None);
  sm_before : forall j io, before w t uses = Some (j, io) -> j = i /\ io_holder io y = None;
  sm_holds : before w t holds = None /\ holds k = None
}.

Lemma stream_entry_ok w t k i x y :
  handles_ok w -> stream_moves w t k i x y -> task_ok (set_stream_entry i y w) t k ->
  handles_ok (put t k (set_stream_entry i y w)).
Proof.
  intros Hok [Hx Hc Hcan Hlk Hb [Hh1 Hh2]] Hk. pose proof (lookup_lt_Some _ _ _ Hx) as Hlt.
  apply (call_step_ok (Some t) w); [done| | | |apply Hok|..].
  - split; cbn; [by eauto 10|lia|by auto| |by auto]. intros j z Hz. destruct (decide (j = i)) as [->|Hne].
    + assert (z = x) as -> by congruence. exists y. rewrite list_lookup_insert_eq by done. split_and!; [done..|].
      intros t' io Hne Ht'. destruct (Hlk io) as [->|[(Hn & _)|(Hn & _)]]; congruence.
    + exists z. by rewrite list_lookup_insert_ne.
  - intros t' Hne. cbn. apply lookup_insert_ne. congruence.
  - intros t0 k' [= <-]. cbn. rewrite lookup_insert_eq. intros [= <-]. exact Hk.
  - destruct (ho_entries _ Hok) as [H1 H2 H3 H4 H5]. split; cbn; [done|done| |done|done]. intros e z t' Hz Ht'.
    destruct (H3 e z t' Hz Ht') as (k' & Hk' & He). exists k'. rewrite lookup_insert_ne; [done|]. intros <-.
    unfold before in Hh1. rewrite Hk' in Hh1. cbn in Hh1. congruence.
  - destruct (ho_streams _ Hok) as [H1 H2 H3]. split; cbn; [|done|].
    + intros s j Hj. destruct (H1 s j Hj) as (z & Hz & Hcz & Hcl). destruct (decide (j = i)) as [->|Hne].
      * exists y. rewrite list_lookup_insert_eq by done. assert (z = x) as -> by congruence.
        destruct Hcan as [->|Hn]; [by rewrite Hc|by destruct (Hn s)].
      * exists z. by rewrite list_lookup_insert_ne.
    + assert (forall j z io, stream_entries w !! j = Some z -> io_holder io z = Some t -> j = i /\ io_holder io y = None) as Hown.
      { intros j z io Hz Ht'. destruct (H3 j z io t Hz Ht') as (io' & Hk' & Hr). unfold before in Hb. rewrite Hk' in Hb.
        destruct (Hb j io' eq_refl) as [-> Hn]. by rewrite (io_holder_read io io' y). }
      intros j z io t' Hz Ht'. destruct (decide (j = i)) as [->|Hne].
      * rewrite list_lookup_insert_eq in Hz by done. assert (z = y) as -> by congruence.
        destruct (Hlk io) as [Heq|[(_ & Hn & io' & -> & Hr)|(_ & Hn)]]; [|assert (t' = t) as -> by congruence|congruence].
        -- rewrite Heq in Ht'. destruct (decide (t' = t)) as [->|Hnt]; [destruct (Hown i x io Hx Ht'); congruence|].
           destruct (H3 i x io t' Hx Ht') as (io' & Hk' & Hr). exists io'. by rewrite lookup_insert_ne.
        -- exists io'. by rewrite lookup_insert_eq.
      * rewrite list_lookup_insert_ne in Hz by done.
        destruct (decide (t' = t)) as [->|Hnt]; [by destruct (Hown j z io Hz Ht')|].
        destruct (H3 j z io t' Hz Ht') as (io' & Hk' & Hr). exists io'. by rewrite lookup_insert_ne.
Qed.

(** *** Changes of the table *)
Lemma table_removed tb tb' :
  table_ok tb -> next_handle tb' = next_handle tb ->
  (forall h x, clients tb' !! h = Some x -> clients tb !! h = Some x) ->
  (forall h x, streams tb' !! h = Some x -> streams tb !! h = Some x) ->
  (forall h x, engines tb' !! h = Some x -> engines tb !! h = Some x) -> table_ok tb'.
Proof.
  intros [H1 H2 H3] Hn Hc Hs He.
  assert (forall (m m' : gmap N nat) h, (forall h x, m' !! h = Some x -> m !! h = Some x) -> m !! h = None -> m' !! h = None) as Hnone.
  { intros m m' h Hsub Hnm. destruct (m' !! h) as [x|] eqn:Hx; [|done]. apply Hsub in Hx. congruence. }
  split.
  - intros h Hin. rewrite Hn. apply H1.
    destruct Hin as [[x Hx]|[[x Hx]|[x Hx]]]; [left|right; left|right; right]; exists x; auto.
  - intros h [x Hx]. destruct (H2 h) as [? ?]; [exists x; auto|]. split; [by apply (Hnone (streams tb))|by apply (Hnone (engines tb))].
  - intros h [x Hx]. apply (Hnone (engines tb)); [done|]. apply H3. exists x. auto.
Qed.

Lemma next_spec tb n tb' : HandleTable.next tb = Some (n, tb') ->
  n = next_handle tb + 1 /\ n <= U64_MAX /\
  tb' = {| next_handle := n; clients := clients tb; streams := streams tb; engines := engines tb |}.
Proof.
  unfold HandleTable.next. destruct (checked_add _ _ _) as [m|] eqn:Hm; [|done]. apply checked_add_Some in Hm as [-> ?].
  by intros [= <- <-].
Qed.

(** A handle is new: nothing is known under it. *)
Lemma fresh_handle tb h : table_ok tb -> next_handle tb < h ->
  clients tb !! h = None /\ streams tb !! h = None /\ engines tb !! h = None.
Proof.
  intros [H1 _ _] Hlt. unfold in_table in H1. split_and!; apply eq_None_not_Some; intros Hx;
    destruct (H1 h) as [_ Hle]; auto; lia.
Qed.

Lemma table_inserted tb n (c s e : gmap N nat) v :
  table_ok tb -> n = next_handle tb + 1 ->
  (c = <[n := v]> (clients tb) /\ s = streams tb /\ e = engines tb \/
   c = clients tb /\ s = <[n := v]> (streams tb) /\ e = engines tb \/
   c = clients tb /\ s = streams tb /\ e = <[n := v]> (engines tb)) ->
  table_ok {| next_handle := n; clients := c; streams := s; engines := e |}.
Proof.
  intros Htb -> Hcase. pose proof Htb as [H1 H2 H3]. destruct (fresh_handle tb (next_handle tb + 1) Htb) as (Hc & Hs & He); [lia|].
  unfold in_table in *. split; unfold in_table; cbn [clients streams engines next_handle].
  - intros h Hin. destruct (decide (h = next_handle tb + 1)) as [->|Hne]; [lia|].
    assert (0 < h <= next_handle tb); [|lia]. apply H1.
    destruct Hcase as [(-> & -> & ->)|[(-> & -> & ->)|(-> & -> & ->)]]; by rewrite lookup_insert_ne in Hin by done.
  - intros h. destruct (decide (h = next_handle tb + 1)) as [->|Hne].
    + destruct Hcase as [(-> & -> & ->)|[(-> & -> & ->)|(-> & -> & ->)]]; [done|by rewrite Hc; intros []..].
    + destruct Hcase as [(-> & -> & ->)|[(-> & -> & ->)|(-> & -> & ->)]]; rewrite ?lookup_insert_ne by done; apply H2.
  - intros h. destruct (decide (h = next_handle tb + 1)) as [->|Hne].
    + destruct Hcase as [(-> & -> & ->)|[(-> & -> & ->)|(-> & -> & ->)]]; [done|done|by rewrite Hs; intros []].
    + destruct Hcase as [(-> & -> & ->)|[(-> & -> & ->)|(-> & -> & ->)]]; rewrite ?lookup_insert_ne by done; apply H3.
Qed.

(** Only the table, the heap of streams and new entries change. *)
Lemma table_step_ok t w w' :
  handles_ok w -> evolves t w w' -> tasks w' = tasks w ->
  (forall t0 k, t = Some t0 -> tasks w !! t0 = Some k -> task_ok w' t0 k) ->
  table_ok (table w') -> entries_ok w' -> streams_ok w' -> handles_ok w'.
Proof. intros Hok Hev Ht Hown. apply (call_step_ok t w); [done|done|by rewrite Ht|by rewrite Ht]. Qed.

Lemma entries_same w w' :
  handles_ok w -> clients (table w') = clients (table w) -> entries w' = entries w -> tasks w' = tasks w -> entries_ok w'.
Proof. intros [_ [H1 H2 H3 H4 H5] _ _] Hc He Ht. by split; rewrite ?Hc, ?He, ?Ht. Qed.
Lemma streams_same w w' :
  handles_ok w -> clients (table w') = clients (table w) -> streams (table w') = streams (table w) ->
  stream_entries w' = stream_entries w -> tasks w' = tasks w -> streams_ok w'.
Proof. intros [_ _ [H1 H2 H3] _] Hc Hst He Ht. by split; rewrite ?Hc, ?Hst, ?He, ?Ht. Qed.

Lemma invalidated h w i x' :
  stream_entries (invalidate_streams h w) !! i = Some x' ->
  exists x, stream_entries w !! i = Some x /\ client_handle x' = client_handle x /\
    (forall io, io_holder io x' = io_holder io x) /\ (client_handle x <> h -> x' = x).
Proof.
  unfold invalidate_streams. cbn. rewrite list_lookup_imap. destruct (stream_entries w !! i) as [x|]; [|done].
  cbn. intros [= <-]. exists x. split; [done|]. destruct (bool_decide _), (N.eqb_spec (client_handle x) h); cbn; by destruct x.
Qed.
Lemma kept h w s i :
  streams (table (invalidate_streams h w)) !! s = Some i ->
  streams (table w) !! s = Some i /\ forall x, stream_entries w !! i = Some x -> client_handle x <> h.
Proof.
  unfold invalidate_streams. cbn. rewrite map_lookup_filter_Some. cbn. intros [Hs Hn]. split; [done|].
  intros x Hx. unfold of_client in Hn. rewrite Hx in Hn. by destruct (N.eqb_spec (client_handle x) h).
Qed.

Lemma invalidate_ok h w : handles_ok w -> handles_ok (invalidate_streams h w) /\ no_streams (invalidate_streams h w) h.
Proof.
  intros Hok. destruct (ho_streams _ Hok) as [H1 H2 H3]. split.
  - apply (table_step_ok None w); [done| |done|done|..].
    + split; cbn; [by eauto 10|lia|by auto| |].
      * intros i x Hx. rewrite list_lookup_imap, Hx. cbn. eexists. split; [done|].
        destruct (_ && _); by split_and!.
      * intros s i Hs. left. by apply (kept h w s i) in Hs as [? _].
    + apply (table_removed (table w)); [apply Hok|done|by cbn..| |by cbn]. intros s i Hs. by apply kept in Hs as [? _].
    + by apply (entries_same w).
    + split.
      * intros s i Hs. apply kept in Hs as [Hs Hn]. destruct (H1 s i Hs) as (x & Hx & Hc & Hcl).
        assert (exists x', stream_entries (invalidate_streams h w) !! i = Some x') as [x' Hx'].
        { cbn. rewrite list_lookup_imap, Hx. by eexists. }
        destruct (invalidated h w i x' Hx') as (x0 & Hx0 & Hch & _ & Hkeep). assert (x0 = x) as -> by congruence.
        rewrite (Hkeep (Hn x Hx)) in Hx'. by exists x.
      * intros s s' i [Hs _]%kept [Hs' _]%kept. by apply (H2 s s' i).
      * intros i x' io t Hx' Ht. destruct (invalidated h w i x' Hx') as (x & Hx & _ & Hio & _). rewrite Hio in Ht.
        by apply (H3 i x).
  - intros s i x' [Hs Hn]%kept Hx'. destruct (invalidated h w i x' Hx') as (x & Hx & -> & _). by apply Hn.
Qed.

Lemma remove_client_ok h w :
  handles_ok w -> no_streams w h -> handles_ok (set_table (HandleTable.remove_client (table w) h) w).
Proof.
  intros Hok Hno. apply (table_step_ok None w); [done| |done|done|..].
  - split; cbn; [by eauto 10|lia| |by eauto|by auto]. intros h' e [_ He]%lookup_delete_Some. by left.
  - apply (table_removed (table w)); [apply Hok|done| |by cbn..]. cbn. by intros h' e [_ He]%lookup_delete_Some.
  - destruct (ho_entries _ Hok) as [H1 H2 H3 H4 H5]. split; cbn; [| |done..].
    + intros h' e [_ He]%lookup_delete_Some. by apply (H1 h').
    + intros h' h'' e [_ He]%lookup_delete_Some [_ He']%lookup_delete_Some. by apply (H2 h' h'' e).
  - destruct (ho_streams _ Hok) as [H1 H2 H3]. split; cbn; [|done..]. intros s i Hs.
    destruct (H1 s i Hs) as (x & Hx & Hc & Hcl). exists x. split_and!; [done..|].
    rewrite lookup_delete_ne; [done|]. intros Heq. by apply (Hno s i x).
Qed.

Lemma insert_client_ok n tb r w :
  handles_ok w -> live_runtime r -> HandleTable.insert_client (table w) (length (entries w)) = Some (n, tb) ->
  handles_ok (set_table tb (set_entries (entries w ++ [client_new r]) w)).
Proof.
  intros Hok Hr. unfold HandleTable.insert_client. destruct (HandleTable.next (table w)) as [[m tb0]|] eqn:Hnext; [|done].
  apply next_spec in Hnext as (-> & _ & ->). cbn [next_handle clients streams engines]. intros [= <- <-].
  set (n := next_handle (table w) + 1).
  destruct (fresh_handle (table w) n (ho_table _ Hok)) as (Hc & Hs & _); [unfold n; lia|].
  apply (table_step_ok None w); [done| |done|done|..].
  - split; cbn; [|unfold n; lia| |by eauto|by auto].
    + intros e x Hx. exists x. by rewrite lookup_app_l by (by eapply lookup_lt_Some).
    + intros h e [[<- <-]|[_ He]]%lookup_insert_Some; [right; unfold n; split; lia|by left].
  - apply (table_inserted (table w) n _ _ _ (length (entries w))); [apply Hok|done|by left].
  - destruct (ho_entries _ Hok) as [H1 H2 H3 H4 H5].
    assert (forall h e, clients (table w) !! h = Some e -> (e < length (entries w))%nat) as Hlt.
    { intros h e (x & Hx & _)%H1. by eapply lookup_lt_Some. }
    assert (forall e x, (entries w ++ [client_new r]) !! e = Some x -> entries w !! e = Some x \/ x = client_new r) as Hcase.
    { intros e x [Hx|[_ Hx]]%lookup_app_Some; [by left|]. right. destruct (e - _)%nat; [by injection Hx|done]. }
    split; cbn.
    + intros h e [[<- <-]|[_ He]]%lookup_insert_Some.
      * exists (client_new r). by rewrite lookup_app_r, Nat.sub_diag by lia.
      * destruct (H1 h e He) as (x & Hx & Hd). exists x. by rewrite lookup_app_l by (by eapply lookup_lt_Some).
    + intros h h' e [[<- <-]|[_ He]]%lookup_insert_Some [[<- Hl]|[_ He']]%lookup_insert_Some; [done| | |by apply (H2 h h' e)].
      * apply Hlt in He'. lia.
      * apply Hlt in He. lia.
    + intros e x t [Hx| ->]%Hcase Ht; [by apply (H3 e x)|done].
    + intros e x [Hx| ->]%Hcase; [by apply (H4 e)|done].
    + intros e x [Hx| ->]%Hcase; [by apply (H5 e)|done].
  - destruct (ho_streams _ Hok) as [H1 H2 H3]. split; cbn; [|done..]. intros s i Hi.
    destruct (H1 s i Hi) as (x & Hx & Hcx & [e He]). exists x. split_and!; [done..|].
    rewrite lookup_insert_ne; [by exists e|]. intros Heq. congruence.
Qed.

Lemma remove_stream_ok s w : handles_ok w -> handles_ok (set_table (HandleTable.remove_stream (table w) s) w).
Proof.
  intros Hok. apply (table_step_ok None w); [done| |done|done|..].
  - split; cbn; [by eauto 10|lia|by auto|by eauto|]. intros s' i [_ Hi]%lookup_delete_Some. by left.
  - apply (table_removed (table w)); [apply Hok|done|by cbn| |by cbn]. cbn. by intros s' i [_ Hi]%lookup_delete_Some.
  - by apply (entries_same w).
  - destruct (ho_streams _ Hok) as [H1 H2 H3]. split; cbn; [| |done].
    + intros s' i [_ Hi]%lookup_delete_Some. by apply (H1 s').
    + intros s' s'' i [_ Hi]%lookup_delete_Some [_ Hi']%lookup_delete_Some. by apply (H2 s' s'' i).
Qed.

Lemma insert_engine_ok engine n tb w :
  handles_ok w -> HandleTable.insert_engine (table w) engine = Some (n, tb) -> handles_ok (set_table tb w).
Proof.
  intros Hok. unfold HandleTable.insert_engine. destruct (HandleTable.next (table w)) as [[m tb0]|] eqn:Hnext; [|done].
  apply next_spec in Hnext as (-> & _ & ->). cbn [next_handle clients streams engines]. intros [= <- <-].
  apply (table_step_ok None w); [done| |done|done| |by apply (entries_same w)|by apply (streams_same w)].
  - split; cbn; [by eauto 10|lia|by auto|by eauto|by auto].
  - apply (table_inserted (table w) _ _ _ _ engine); [apply Hok|done|]. by right; right.
Qed.
Lemma remove_engine_ok h w : handles_ok w -> handles_ok (set_table (HandleTable.remove_engine (table w) h) w).
Proof.
  intros Hok. apply (table_step_ok None w); [done| |done|done| |by apply (entries_same w)|by apply (streams_same w)].
  - split; cbn; [by eauto 10|lia|by auto|by eauto|by auto].
  - apply (table_removed (table w)); [apply Hok|done|by cbn..|]. cbn. by intros h' e [_ He]%lookup_delete_Some.
Qed.

(** The runtime of an entry moves on by itself. *)
Lemma background_ok e x r w :
  handles_ok w -> entries w !! e = Some x -> background (runtime x) r -> handles_ok (set_entry e (set_runtime r x) w).
Proof.
  intros Hok Hx Hb. pose proof (lookup_lt_Some _ _ _ Hx) as Hlt. destruct (ho_entries _ Hok) as [H1 H2 H3 H4 H5].
  assert (forall e' x', entries (set_entry e (set_runtime r x) w) !! e' = Some x' ->
    e' = e /\ x' = set_runtime r x \/ entries w !! e' = Some x') as Hcase.
  { intros e' x'. cbn. rewrite list_lookup_insert. case_decide as Hd; [|by right]. intros [= <-]. left. by destruct Hd. }
  assert (forall e' x', entries w !! e' = Some x' -> exists y, entries (set_entry e (set_runtime r x) w) !! e' = Some y /\
    destroyed y = destroyed x' /\ holder y = holder x' /\ proxy y = proxy x') as Hkeep.
  { intros e' x' Hx'. cbn. destruct (decide (e' = e)) as [->|Hne].
    - rewrite list_lookup_insert_eq by done. assert (x' = x) as -> by congruence. by eexists.
    - rewrite list_lookup_insert_ne by done. by eexists. }
  apply (table_step_ok None w); [done| |done|done|apply Hok| |by apply (streams_same w)].
  - split; [|done|by auto|by eauto|by auto]. intros e' x' (y & Hy & Hd & Hh & Hp)%Hkeep. exists y. split; [done|].
    rewrite Hd, Hh, Hp. by split_and!.
  - split; [|done|..].
    + intros h e' (x' & Hx' & Hd)%H1. apply Hkeep in Hx' as (y & Hy & Hdy & _). exists y. by rewrite Hdy.
    + intros e' x' t [[-> ->]|Hx']%Hcase Ht; [by apply (H3 e x)|by apply (H3 e' x')].
    + intros e' x' [[-> ->]|Hx']%Hcase Hd Ht; [|by apply (H4 e')]. cbn in *.
      destruct (H4 e x Hx Hd Ht) as [Hp Hs]. split; [done|]. apply (background_stopped (runtime x)); [by apply (H5 e)|done..].
    + intros e' x' [[-> ->]|Hx']%Hcase; [|by apply (H5 e')]. cbn. apply (background_live (runtime x)); [by apply (H5 e)|done].
Qed.

(** *** The steps of a call *)
Lemma finish_updated t e x f r w :
  entries w !! e = Some x ->
  finish t e r (update e f w) = put t (Returned r) (set_entry e (hold None (f x)) w).
Proof.
  intros Hx. unfold finish. rewrite (update_entry e f x w Hx), update_set_entry; [done|]. by eapply lookup_lt_Some.
Qed.
Lemma finish_entry t e x r w :
  entries w !! e = Some x -> finish t e r w = put t (Returned r) (set_entry e (hold None x) w).
Proof. intros Hx. unfold finish. by rewrite (update_entry e (hold None) x w Hx). Qed.

Section steps.
Context (w : World) (t : nat) (k0 : Task) (Hok : handles_ok w) (Hk0 : tasks w !! t = Some k0).

Lemma before_call {A} (f : Task -> option A) : before w t f = f k0.
Proof. unfold before. by rewrite Hk0. Qed.
Lemma own_task : task_ok w t k0.
Proof. by apply (ho_tasks _ Hok). Qed.
Lemma live e x : entries w !! e = Some x -> live_runtime (runtime x).
Proof. apply (en_runtime _ (ho_entries _ Hok)). Qed.

(** The call keeps the mutex it has, if any. *)
Lemma goes_on k : holds k = holds k0 -> uses k = uses k0 -> task_ok w t k -> handles_ok (put t k w).
Proof. intros Hh Hu. apply put_ok; [done|by rewrite before_call|by rewrite before_call]. Qed.

(** The call that has the mutex of [e] gives it back. *)
Lemma gives_back e x y r :
  holds k0 = Some e -> uses k0 = None -> entries w !! e = Some x -> holder x = Some t -> destroyed y = destroyed x ->
  live_runtime (runtime y) -> (destroyed y = true -> proxy y = None /\ stopped (runtime y)) ->
  handles_ok (put t (Returned r) (set_entry e (hold None y) w)).
Proof.
  intros Hh Hu Hx Ht Hd Hr Hl. apply (entry_ok w t _ e x); [done| |done].
  split; cbn; rewrite ?before_call; try (by auto); rewrite Hd; auto.
Qed.
(** It changes its entry and keeps it. *)
Lemma keeps e x y k :
  holds k0 = Some e -> uses k0 = None -> holds k = Some e -> uses k = None -> entries w !! e = Some x -> holder x = Some t ->
  holder y = Some t -> destroyed y = destroyed x -> runtime y = runtime x -> task_ok (set_entry e y w) t k ->
  handles_ok (put t k (set_entry e y w)).
Proof.
  intros Hh Hu Hhk Huk Hx Ht Hy Hd Hr Hk. apply (entry_ok w t k e x); [done| |done].
  split; cbn; rewrite ?before_call, ?Hd, ?Hr, ?Hy; auto; [done|by apply (live e)].
Qed.
(** It takes the mutex of an entry that is free. *)
Lemma takes e x y k :
  holds k0 = None -> uses k0 = None -> holds k = Some e -> uses k = None -> entries w !! e = Some x -> holder x = None ->
  holder y = Some t -> (destroyed y = destroyed x \/ destroyed y = true /\ gone w e) -> runtime y = runtime x ->
  task_ok (set_entry e y w) t k -> handles_ok (put t k (set_entry e y w)).
Proof.
  intros Hh Hu Hhk Huk Hx Ht Hy Hd Hr Hk. apply (entry_ok w t k e x); [done| |done].
  split; cbn; rewrite ?before_call, ?Hr, ?Hy; auto; [| |done|by apply (live e)]; intuition congruence.
Qed.
End steps.

Lemma known_set_entry e y e' h w : known w e' h -> known (set_entry e y w) e' h.
Proof. unfold known, set_entry. cbn. by rewrite length_insert. Qed.
Lemma gone_set_entry e y e' w : gone w e' -> gone (set_entry e y w) e'.
Proof. unfold gone, set_entry. cbn. by rewrite length_insert. Qed.
Lemma held_set_entry e x y t (P : ClientEntry -> Prop) w :
  entries w !! e = Some x -> holder y = Some t -> P y -> held (set_entry e y w) t e P.
Proof.
  intros Hx Ht HP. exists y. split_and!; [|done..]. apply list_lookup_insert_eq. by eapply lookup_lt_Some.
Qed.
Lemma client_known w h e : handles_ok w -> clients (table w) !! h = Some e -> known w e h.
Proof.
  intros Hok He. destruct (en_clients _ (ho_entries _ Hok) h e He) as (x & Hx & _).
  split_and!; [by eapply lookup_lt_Some| |congruence]. apply (ta_bound _ (ho_table _ Hok)). left. by exists e.
Qed.

Lemma command_step_ok t a w k0 w' :
  handles_ok w -> tasks w !! t = Some k0 -> command_step t a w k0 = Some w' -> handles_ok w'.
Proof.
  intros Hok Hk0 Hs. pose proof (own_task w t k0 Hok Hk0) as Htask. destruct k0; cbn in Hs; try done; cbn in Htask.
  - injection Hs as <-. destruct (clients (table w) !! h) as [e|] eqn:He; apply (goes_on w t _ Hok Hk0); try done.
    by apply client_known.
  - destruct (entries w !! e) as [[r d p [|]]|] eqn:Hx; [done| |done]. injection Hs as <-.
    destruct d; [by apply (goes_on w t _ Hok Hk0)|]. rewrite (update_entry _ _ _ _ Hx).
    eapply (takes w t _ Hok Hk0); try done; [by left|]. split; [by apply known_set_entry|by eapply held_set_entry].
  - destruct Htask as [Hkn (x & Hx & Ht & Hd)]. rewrite Hx in Hs. pose proof (live w Hok e x Hx) as Hlive.
    destruct c; cbn in Hs.
    + unfold run_start in Hs. destruct (runtime_start (runtime x)) as [[o r]| |] eqn:Hrun; try done.
      apply runtime_start_spec in Hrun as [Hr _]; [|done].
      assert (exists reply, w' = finish t e reply (update e (set_runtime r) w)) as [reply ->]
        by (destruct o as [g|[]]; injection Hs as <-; eauto).
      rewrite (finish_updated _ _ _ _ _ _ Hx). apply (gives_back w t _ Hok Hk0 e x); try done. cbn. congruence.
    + injection Hs as <-. rewrite (finish_entry _ _ _ _ _ Hx). apply (gives_back w t _ Hok Hk0 e x); try done. congruence.
    + injection Hs as <-. rewrite (update_entry _ _ _ _ Hx). apply (keeps w t _ Hok Hk0 e x); try done.
      split; [by apply known_set_entry|by eapply held_set_entry].
    + injection Hs as <-. destruct (proxy x); [|destruct (online x _)].
      * rewrite (finish_entry _ _ _ _ _ Hx). apply (gives_back w t _ Hok Hk0 e x); try done. congruence.
      * apply (goes_on w t _ Hok Hk0); try done. by exists x.
      * rewrite (finish_entry _ _ _ _ _ Hx). apply (gives_back w t _ Hok Hk0 e x); try done. congruence.
    + injection Hs as <-. rewrite (finish_updated _ _ _ _ _ _ Hx). apply (gives_back w t _ Hok Hk0 e x); try done. cbn. congruence.
  - destruct Htask as (x & Hx & Ht & Hd). pose proof (live w Hok e x Hx).
    destruct a as [| |[port|]| |]; try done; injection Hs as <-;
      rewrite ?(finish_updated _ _ _ _ _ _ Hx), ?(finish_entry _ _ _ _ _ Hx);
      apply (gives_back w t _ Hok Hk0 e x); try done; cbn; congruence.
  - injection Hs as <-. destruct Htask as [Hkn Hh]. destruct (invalidate_ok h w Hok) as [Hok' Hno].
    by apply (goes_on _ t _ Hok' Hk0).
  - destruct Htask as (Hkn & (x & Hx & Ht & Hd & Hp) & _). rewrite Hx in Hs.
    destruct (runtime_stop (runtime x)) as [[g r]| |] eqn:Hrun; try done. injection Hs as <-.
    apply runtime_stop_spec in Hrun as (Hr & Hst & _); [|by apply (live w Hok e)].
    rewrite (finish_updated _ _ _ _ _ _ Hx). by apply (gives_back w t _ Hok Hk0 e x).
Qed.

Lemma insert_stream_ok t e h g n tb w x :
  handles_ok w -> clients (table w) !! h = Some e -> entries w !! e = Some x -> holder x = Some t ->
  (forall k, tasks w !! t = Some k -> exists g, k = Inserting e h g) -> destroyed x = false ->
  HandleTable.insert_stream (table w) (length (stream_entries w)) = Some (n, tb) ->
  handles_ok (set_table tb (set_streams (stream_entries w ++ [stream_new h g]) w)).
Proof.
  intros Hok He Hx Ht Hown Hd. unfold HandleTable.insert_stream.
  destruct (HandleTable.next (table w)) as [[m tb0]|] eqn:Hnext; [|done].
  apply next_spec in Hnext as (-> & _ & ->). cbn [next_handle clients streams engines]. intros [= <- <-].
  set (n := next_handle (table w) + 1).
  destruct (ho_streams _ Hok) as [H1 H2 H3].
  assert (forall s i, streams (table w) !! s = Some i -> (i < length (stream_entries w))%nat) as Hlt.
  { intros s i (y & Hy & _)%H1. by eapply lookup_lt_Some. }
  apply (table_step_ok (Some t) w); [done| |done|..].
  - split; cbn; [by eauto 10|unfold n; lia|by auto| |].
    + intros i y Hy. exists y. by rewrite lookup_app_l by (by eapply lookup_lt_Some).
    + intros s i [[<- <-]|[_ Hi]]%lookup_insert_Some; [right|by left]. split; [done|].
      exists (stream_new h g), e, x. rewrite lookup_app_r, Nat.sub_diag by lia. by split_and!.
  - intros t0 k [= <-] Hk. destruct (Hown k Hk) as [g' ->]. destruct (client_known w h e Hok He) as (? & ? & ?).
    cbn. split; [|by exists x]. split_and!; cbn; [done|unfold n; lia|done].
  - apply (table_inserted (table w) n _ _ _ (length (stream_entries w))); [apply Hok|done|by right; left].
  - by apply (entries_same w).
  - assert (forall i y, (stream_entries w ++ [stream_new h g]) !! i = Some y ->
      stream_entries w !! i = Some y \/ y = stream_new h g) as Hcase.
    { intros i y [Hy|[_ Hy]]%lookup_app_Some; [by left|]. right. destruct (i - _)%nat; [by injection Hy|done]. }
    split; cbn.
    + intros s i [[<- <-]|[_ Hi]]%lookup_insert_Some.
      * exists (stream_new h g). rewrite lookup_app_r, Nat.sub_diag by lia. split_and!; [done..|]. by exists e.
      * destruct (H1 s i Hi) as (y & Hy & Hc). exists y. by rewrite lookup_app_l by (by eapply lookup_lt_Some).
    + intros s s' i [[<- <-]|[_ Hi]]%lookup_insert_Some [[<- Hl]|[_ Hi']]%lookup_insert_Some; [done| | |by apply (H2 s s' i)].
      * apply Hlt in Hi'. lia.
      * apply Hlt in Hi. lia.
    + intros i y io t' [Hy| ->]%Hcase Ht'; [by apply (H3 i y)|by destruct io].
Qed.

Lemma open_stream_step_ok t a w k0 w' :
  handles_ok w -> tasks w !! t = Some k0 -> open_stream_step t a w k0 = Some w' -> handles_ok w'.
Proof.
  intros Hok Hk0 Hs. pose proof (own_task w t k0 Hok Hk0) as Htask. destruct k0; cbn in Hs; try done; cbn in Htask.
  - injection Hs as <-. destruct (clients (table w) !! h) as [e|] eqn:He; apply (goes_on w t _ Hok Hk0); try done.
    by apply client_known.
  - destruct (entries w !! e) as [x|]; [|done].
    destruct (eval _ _) as [[[g c]|]| |]; try done; injection Hs as <-; by apply (goes_on w t _ Hok Hk0).
  - destruct a as [|opened| | |]; try done. destruct (entries w !! e) as [x|]; [|done].
    destruct (eval _ _) as [[g'|]| |]; try done; injection Hs as <-; by apply (goes_on w t _ Hok Hk0).
  - destruct (entries w !! e) as [[r d p [|]]|] eqn:Hx; [done| |done]. injection Hs as <-.
    destruct (d || _) eqn:Hd; [by apply (goes_on w t _ Hok Hk0)|]. apply orb_false_iff in Hd as [-> _].
    rewrite (update_entry _ _ _ _ Hx). eapply (takes w t _ Hok Hk0); try done; [by left|].
    split; [by apply known_set_entry|by eapply held_set_entry].
  - destruct Htask as [Hkn (x & Hx & Ht & Hd)]. injection Hs as <-.
    assert (forall r, handles_ok (finish t e r w)) as Hrefuse.
    { intros r. rewrite (finish_entry _ _ _ _ _ Hx). apply (gives_back w t _ Hok Hk0 e x); try done; [by apply (live w Hok e)|congruence]. }
    destruct (clients (table w) !! h) as [current|] eqn:Hc; [|apply Hrefuse].
    case_bool_decide as Heq; cbn; [subst current|apply Hrefuse].
    destruct (HandleTable.insert_stream _ _) as [[n tb]|] eqn:Hins; [|apply Hrefuse].
    assert (handles_ok (set_table tb (set_streams (stream_entries w ++ [stream_new h g]) w))) as Hok'.
    { apply (insert_stream_ok t e h g n tb w x Hok Hc Hx Ht); [|done|done]. intros k Hk. exists g. congruence. }
    assert (entries (set_table tb (set_streams (stream_entries w ++ [stream_new h g]) w)) !! e = Some x) as Hx' by done.
    rewrite (finish_entry _ _ _ _ _ Hx'). apply (gives_back _ t _ Hok' Hk0 e x); try done; [by apply (live w Hok e)|congruence].
Qed.

Lemma retire_step_ok t w k0 w' :
  handles_ok w -> tasks w !! t = Some k0 -> retire_step t w k0 = Some w' -> handles_ok w'.
Proof.
  intros Hok Hk0 Hs. pose proof (own_task w t k0 Hok Hk0) as Htask. destruct k0; cbn -[invalidate_streams] in Hs; try done; cbn in Htask.
  - injection Hs as <-. destruct (invalidate_ok h w Hok) as [Hok' Hno].
    apply (remove_client_ok h) in Hok' as Hrem; [|done].
    destruct (clients (table w) !! h) as [e|] eqn:He; apply (goes_on _ t _ Hrem Hk0); try done.
    split; [by apply (client_known w h e Hok He)|]. cbn. intros h' [Hne He']%lookup_delete_Some.
    apply Hne. by apply (en_once _ (ho_entries _ Hok) h h' e).
  - destruct (entries w !! e) as [[r d p [|]]|] eqn:Hx; [done| |done]. injection Hs as <-. rewrite (update_entry _ _ _ _ Hx).
    eapply (takes w t _ Hok Hk0); try done; [by right|]. split; [by apply gone_set_entry|by eapply held_set_entry].
  - destruct Htask as [Hg (x & Hx & Ht & Hd)]. injection Hs as <-. rewrite (update_entry _ _ _ _ Hx).
    apply (keeps w t _ Hok Hk0 e x); try done. split; [by apply gone_set_entry|by eapply held_set_entry].
  - destruct Htask as [Hg (x & Hx & Ht & Hd & Hp)]. rewrite Hx in Hs.
    destruct (runtime_stop (runtime x)) as [[g r]| |] eqn:Hrun; try done. injection Hs as <-.
    apply runtime_stop_spec in Hrun as (Hr & Hst & _); [|by apply (live w Hok e)].
    rewrite (finish_updated _ _ _ _ _ _ Hx). by apply (gives_back w t _ Hok Hk0 e x).
Qed.

Lemma create_step_ok t w k0 w' :
  handles_ok w -> tasks w !! t = Some k0 -> create_step t w k0 = Some w' -> handles_ok w'.
Proof.
  intros Hok Hk0 Hs. pose proof (own_task w t k0 Hok Hk0) as Htask. destruct k0; cbn -[runtime_start] in Hs; try done; cbn in Htask.
  - injection Hs as <-. destruct (HandleTable.insert_client _ _) as [[n tb]|] eqn:Hins; [|by apply (goes_on w t _ Hok Hk0)].
    apply (insert_client_ok n tb _ w Hok live_initial) in Hins. by apply (goes_on _ t _ Hins Hk0).
  - destruct (runtime_start Runtime.initial) as [[[g|error] r]| |] eqn:Hrun; try done; injection Hs as <-.
    apply runtime_start_spec in Hrun as [Hr _]; [|apply live_initial]. by apply (goes_on w t _ Hok Hk0).
  - destruct (phase _); try done; injection Hs as <-; by apply (goes_on w t _ Hok Hk0).
  - injection Hs as <-. destruct (HandleTable.insert_client _ _) as [[n tb]|] eqn:Hins; [|by apply (goes_on w t _ Hok Hk0)].
    apply (insert_client_ok n tb _ w Hok Htask) in Hins. by apply (goes_on _ t _ Hins Hk0).
Qed.

Lemma stream_step_ok t a w k0 w' :
  handles_ok w -> tasks w !! t = Some k0 -> stream_step t a w k0 = Some w' -> handles_ok w'.
Proof.
  intros Hok Hk0 Hs. pose proof (own_task w t k0 Hok Hk0) as Htask. destruct k0; cbn in Hs; try done; cbn in Htask.
  - injection Hs as <-. destruct (streams (table w) !! s) as [i|] eqn:Hi; apply (goes_on w t _ Hok Hk0); try done.
    destruct (so_open _ (ho_streams _ Hok) s i Hi) as (x & Hx & _). by eapply lookup_lt_Some.
  - destruct (stream_entries w !! i) as [x|] eqn:Hx; [|done]. destruct (io_holder io x) eqn:Hfree; [done|].
    injection Hs as <-. rewrite (update_stream_entry _ _ _ _ Hx). apply (stream_entry_ok w t _ i x); [done| |].
    + split; try done; [by destruct io|by destruct io; left| |by unfold before; rewrite Hk0..].
      intros io'. rewrite io_holder_hold. destruct (Bool.eqb_spec (is_read io') (is_read io)) as [Hr|]; [right; left|by left].
      split_and!; [by rewrite (io_holder_read io' io)|done|by exists io].
    + exists (hold_stream io (Some t) x). split; [|by rewrite io_holder_hold, Bool.eqb_reflx].
      apply list_lookup_insert_eq. by eapply lookup_lt_Some.
  - destruct Htask as (x & Hx & Ht). rewrite Hx in Hs.
    assert (forall r, handles_ok (put t (Returned r) (update_stream i (hold_stream io None) w))) as Hfree.
    { intros r. rewrite (update_stream_entry _ _ _ _ Hx). apply (stream_entry_ok w t _ i x); [done| |done].
      split; try done; [by destruct io|by destruct io; left| | |by unfold before; rewrite Hk0].
      - intros io'. rewrite io_holder_hold.
        destruct (Bool.eqb_spec (is_read io') (is_read io)) as [Hr|]; [right; right|by left].
        by rewrite (io_holder_read io' io).
      - unfold before. rewrite Hk0. cbn. intros j io' [= <- <-]. split; [done|]. by rewrite io_holder_hold, Bool.eqb_reflx. }
    destruct (cancelled x); [injection Hs as <-; apply Hfree|].
    destruct (io_reply io a); [|done]. injection Hs as <-. apply Hfree.
  - injection Hs as <-. apply (remove_stream_ok s) in Hok as Hok'.
    destruct (streams (table w) !! s) as [i|] eqn:Hi; apply (goes_on _ t _ Hok' Hk0); try done.
    destruct (so_open _ (ho_streams _ Hok) s i Hi) as (x & Hx & _). split; [by eapply lookup_lt_Some|].
    cbn. intros s' [Hne Hi']%lookup_delete_Some. apply Hne. by apply (so_once _ (ho_streams _ Hok) s s' i).
  - injection Hs as <-. destruct Htask as [[x Hx]%lookup_lt_is_Some Hno]. rewrite (update_stream_entry _ _ _ _ Hx).
    apply (stream_entry_ok w t _ i x); [done| |done].
    split; try done; [by right|by left|by unfold before; rewrite Hk0..].
Qed.

Lemma call_advance_ok t a w w' : handles_ok w -> advance t a w = Some w' -> handles_ok w'.
Proof.
  unfold advance. intros Hok. destruct (tasks w !! t) as [k|] eqn:Hk; [|done].
  destruct k; intros Hadv; first
    [ exact (command_step_ok _ _ _ _ _ Hok Hk Hadv) | exact (open_stream_step_ok _ _ _ _ _ Hok Hk Hadv)
    | exact (retire_step_ok _ _ _ _ Hok Hk Hadv) | exact (create_step_ok _ _ _ _ Hok Hk Hadv)
    | exact (stream_step_ok _ _ _ _ _ Hok Hk Hadv) | discriminate Hadv ].
Qed.

Lemma call_quiet pem c w t : holds (call pem c) = None /\ uses (call pem c) = None /\ task_ok w t (call pem c).
Proof.
  destruct c; cbn; unfold velum_client_runtime_create, velum_client_runtime_start_v1, velum_client_runtime_snapshot_v1,
    velum_client_runtime_stop, velum_client_runtime_proxy_start, velum_client_runtime_proxy_start_v2,
    start_proxy_with_policy, velum_client_connect, velum_client_open_stream, velum_client_stream_write,
    velum_client_stream_read; repeat case_match; done.
Qed.

Lemma step_handles_ok pem w w' : step pem w w' -> handles_ok w -> handles_ok w'.
Proof.
  destruct 1 as [t c Hnone|t a w' Hadv|e x r Hx Hb|t k r r' Hk Hcase Hb|engine handle tb Hins|handle]; intros Hok.
  - destruct (call_quiet pem c w t) as (Hh & Hu & Ht). apply put_ok;
      [done|by unfold before; rewrite Hnone, Hh|by unfold before; rewrite Hnone, Hu|done].
  - by eapply call_advance_ok.
  - rewrite (update_entry _ _ _ _ Hx). by apply background_ok.
  - pose proof (own_task w t k Hok Hk) as Htask. apply (goes_on w t k Hok Hk); [by destruct Hcase; subst k..|].
    destruct Hcase; subst k; cbn in *; by apply (background_live r).
  - by eapply insert_engine_ok.
  - by apply remove_engine_ok.
Qed.

Definition reachable (pem : list byte -> option (list (list byte))) : World -> Prop := rtc (step pem) initial.
Lemma rtc_handles_ok pem w w' : rtc (step pem) w w' -> handles_ok w -> handles_ok w'.
Proof. induction 1; eauto using step_handles_ok. Qed.
Lemma reachable_handles_ok pem w : reachable pem w -> handles_ok w.
Proof. intros H. exact (rtc_handles_ok _ _ _ H initial_handles_ok). Qed.

(** ** What a step does to one entry, to the table and to the calls *)
Inductive entry_change (x : ClientEntry) : ClientEntry -> Prop :=
| change_none : entry_change x x
| change_holder h : entry_change x (hold h x)
| change_destroyed h : entry_change x (set_destroyed (hold h x))
| change_proxy_stopped : entry_change x (set_proxy None x)
| change_proxy_stopped_free : entry_change x (hold None (set_proxy None x))
| change_proxy_started p : destroyed x = false -> entry_change x (hold None (set_proxy (Some p) x))
| change_started o r :
    destroyed x = false -> runtime_start (runtime x) = Ret (o, r) -> entry_change x (hold None (set_runtime r x))
| change_stopped g r : runtime_stop (runtime x) = Ret (g, r) -> entry_change x (hold None (set_runtime r x))
| change_background r : background (runtime x) r -> entry_change x (set_runtime r x).

Definition entries_change (w w' : World) : Prop :=
  forall e x, entries w !! e = Some x -> exists x', entries w' !! e = Some x' /\ entry_change x x'.

Lemma entries_change_same w w' : entries w' = entries w -> entries_change w w'.
Proof. intros Heq e x Hx. rewrite Heq. exists x. split; [done|constructor]. Qed.
Lemma entries_change_one w e x y w' :
  entries w !! e = Some x -> entry_change x y -> entries w' = <[e := y]> (entries w) -> entries_change w w'.
Proof.
  intros Hx Hc Heq e' x' Hx'. rewrite Heq. destruct (decide (e' = e)) as [->|Hne].
  - assert (x' = x) as -> by congruence. exists y. split; [|done]. apply list_lookup_insert_eq. by eapply lookup_lt_Some.
  - exists x'. split; [by rewrite list_lookup_insert_ne|constructor].
Qed.
Lemma entries_change_app w l w' : entries w' = entries w ++ l -> entries_change w w'.
Proof.
  intros Heq e x Hx. rewrite Heq. exists x. split; [|constructor]. rewrite lookup_app_l; [done|]. by eapply lookup_lt_Some.
Qed.

(** [finish] on an entry, with or without a change before. *)
Lemma finish_change t e x r w w0 :
  entries w !! e = Some x -> entries w0 = entries w -> entries_change w (finish t e r w0).
Proof.
  intros Hx H0. assert (entries w0 !! e = Some x) as Hx0 by by rewrite H0. rewrite (finish_entry _ _ _ _ _ Hx0).
  eapply entries_change_one; [exact Hx|apply (change_holder _ None)|]. cbn. by rewrite H0.
Qed.
Lemma finish_updated_change t e x f r w :
  entries w !! e = Some x -> entry_change x (hold None (f x)) -> entries_change w (finish t e r (update e f w)).
Proof. intros Hx Hc. rewrite (finish_updated _ _ _ _ _ _ Hx). by eapply entries_change_one. Qed.
Lemma update_change t k e x f w :
  entries w !! e = Some x -> entry_change x (f x) -> entries_change w (put t k (update e f w)).
Proof. intros Hx Hc. rewrite (update_entry _ _ _ _ Hx). by eapply entries_change_one. Qed.
Create HintDb changes.
#[local] Hint Resolve entries_change_same finish_change finish_updated_change update_change : changes.
#[local] Hint Constructors entry_change : changes.
Ltac entry_changes := repeat case_match; simplify_eq/=; eauto with changes.

Lemma command_entries t a w k w' :
  handles_ok w -> tasks w !! t = Some k -> command_step t a w k = Some w' -> entries_change w w'.
Proof.
  intros Hok Hk Hs. pose proof (own_task w t k Hok Hk) as Htask. destruct k; cbn in Hs; try done; cbn in Htask.
  - entry_changes.
  - entry_changes.
  - destruct Htask as [_ (x & Hx & _ & Hd)]. rewrite Hx in Hs. destruct c; cbn in Hs; try by entry_changes.
    unfold run_start in Hs. destruct (runtime_start (runtime x)) as [[o r]| |] eqn:Hrun; entry_changes.
  - destruct Htask as (x & Hx & _ & Hd). entry_changes.
  - entry_changes.
  - entry_changes.
Qed.

Lemma open_stream_entries t a w k w' :
  handles_ok w -> tasks w !! t = Some k -> open_stream_step t a w k = Some w' -> entries_change w w'.
Proof.
  intros Hok Hk Hs. pose proof (own_task w t k Hok Hk) as Htask. destruct k; cbn in Hs; try done; cbn in Htask.
  - entry_changes.
  - entry_changes.
  - entry_changes.
  - entry_changes.
  - destruct Htask as [_ (x & Hx & _)]. entry_changes.
Qed.

Lemma retire_entries t w k w' :
  handles_ok w -> tasks w !! t = Some k -> retire_step t w k = Some w' -> entries_change w w'.
Proof.
  intros Hok Hk Hs. pose proof (own_task w t k Hok Hk) as Htask.
  destruct k; cbn -[invalidate_streams] in Hs; try done; cbn in Htask.
  - entry_changes.
  - entry_changes.
  - destruct Htask as [_ (x & Hx & _)]. entry_changes.
  - entry_changes.
Qed.
Lemma create_entries t w k w' : create_step t w k = Some w' -> entries_change w w'.
Proof.
  destruct k; cbn -[runtime_start]; intros Hs; try done; entry_changes; by eapply (entries_change_app w [_]).
Qed.
Lemma stream_entries_change t a w k w' : stream_step t a w k = Some w' -> entries_change w w'.
Proof. destruct k; cbn; intros Hs; try done; entry_changes. Qed.

Lemma step_entries pem w w' : handles_ok w -> step pem w w' -> entries_change w w'.
Proof.
  intros Hok. destruct 1 as [t c Hnone|t a w' Hadv|e x r Hx Hb|t k r r' Hk Hcase Hb|engine handle tb Hins|handle];
    try by apply entries_change_same.
  - unfold advance in Hadv. destruct (tasks w !! t) as [k|] eqn:Hk; [|done]. destruct k; first
      [ exact (command_entries _ _ _ _ _ Hok Hk Hadv) | exact (open_stream_entries _ _ _ _ _ Hok Hk Hadv)
      | exact (retire_entries _ _ _ _ Hok Hk Hadv) | exact (create_entries _ _ _ _ Hadv)
      | exact (stream_entries_change _ _ _ _ _ Hadv) | discriminate Hadv ].
  - rewrite (update_entry _ _ _ _ Hx). eapply entries_change_one; [exact Hx|by apply change_background|done].
Qed.

Record table_grows (tb tb' : HandleTable) : Prop := {
  gr_next : next_handle tb <= next_handle tb';
  gr_clients : forall h v, h <= next_handle tb -> clients tb' !! h = Some v -> clients tb !! h = Some v;
  gr_streams : forall h v, h <= next_handle tb -> streams tb' !! h = Some v -> streams tb !! h = Some v;
  gr_engines : forall h v, h <= next_handle tb -> engines tb' !! h = Some v -> engines tb !! h = Some v
}.
Lemma table_grows_refl tb : table_grows tb tb.
Proof. by split. Qed.
Lemma table_grows_trans tb tb' tb'' : table_grows tb tb' -> table_grows tb' tb'' -> table_grows tb tb''.
Proof.
  intros [Hn Hc Hs He] [Hn' Hc' Hs' He']. split; [lia|..]; intros h v Hh Hv;
    [apply Hc, Hc'|apply Hs, Hs'|apply He, He']; done || lia.
Qed.
Lemma insert_client_grows tb v n tb' : HandleTable.insert_client tb v = Some (n, tb') -> table_grows tb tb'.
Proof.
  unfold HandleTable.insert_client. destruct (HandleTable.next tb) as [[m tb0]|] eqn:Hnext; [|done].
  apply next_spec in Hnext as (-> & _ & ->). intros [= _ <-]. split; cbn; [lia| |done|done].
  intros h x Hh [[? _]|[_ ?]]%lookup_insert_Some; [lia|done].
Qed.
Lemma insert_stream_grows tb v n tb' : HandleTable.insert_stream tb v = Some (n, tb') -> table_grows tb tb'.
Proof.
  unfold HandleTable.insert_stream. destruct (HandleTable.next tb) as [[m tb0]|] eqn:Hnext; [|done].
  apply next_spec in Hnext as (-> & _ & ->). intros [= _ <-]. split; cbn; [lia|done| |done].
  intros h x Hh [[? _]|[_ ?]]%lookup_insert_Some; [lia|done].
Qed.
Lemma insert_engine_grows tb v n tb' : HandleTable.insert_engine tb v = Some (n, tb') -> table_grows tb tb'.
Proof.
  unfold HandleTable.insert_engine. destruct (HandleTable.next tb) as [[m tb0]|] eqn:Hnext; [|done].
  apply next_spec in Hnext as (-> & _ & ->). intros [= _ <-]. split; cbn; [lia|done|done|].
  intros h x Hh [[? _]|[_ ?]]%lookup_insert_Some; [lia|done].
Qed.
Lemma remove_grows tb h :
  table_grows tb (HandleTable.remove_client tb h) /\ table_grows tb (HandleTable.remove_stream tb h) /\
  table_grows tb (HandleTable.remove_engine tb h).
Proof. split_and!; split; cbn; try done; by intros ? ? _ [_ ?]%lookup_delete_Some. Qed.
Lemma invalidate_grows h w : table_grows (table w) (table (invalidate_streams h w)).
Proof. split; cbn; [done..| |done]. intros s i _ Hs. by apply (kept h w s i) in Hs as [? _]. Qed.

Lemma step_table pem w w' : step pem w w' -> table_grows (table w) (table w').
Proof.
  destruct 1 as [t c Hnone|t a w' Hadv|e x r Hx Hb|t k r r' Hk Hcase Hb|engine handle tb Hins|handle];
    try apply table_grows_refl.
  - unfold advance in Hadv. destruct (tasks w !! t) as [k|]; [|done].
    destruct k; cbn -[invalidate_streams runtime_start] in Hadv; unfold run_command, run_start in Hadv;
      repeat case_match; simplify_eq/=;
      first [ apply table_grows_refl | by eapply insert_client_grows | by eapply insert_stream_grows
            | apply invalidate_grows | apply remove_grows
            | eapply table_grows_trans; [apply invalidate_grows|apply remove_grows] ].
  - by eapply insert_engine_grows.
  - apply remove_grows.
Qed.

(** How many steps a call has left at most. *)
Definition weight (k : Task) : nat :=
  match k with
  | Returned _ => 0
  | Creating | Binding _ _ _ | StoppingRuntime _ _ | Inserting _ _ _ | RetireRuntime _ _ | ConnectInserting _ | StreamIo _ _
  | StreamCancelling _ => 1
  | Invalidating _ _ | Publishing _ _ _ | RetireProxy _ _ | ConnectWaiting _ | StreamLocking _ _ | StreamClosing _ => 2
  | Running _ _ _ | Opening _ _ _ | RetireLocking _ _ | ConnectStarting _ | StreamFinding _ _ => 3
  | Locking _ _ _ | Choosing _ _ _ | Retiring _ _ => 4
  | Looking _ _ | StreamLooking _ _ => 5
  end.

Ltac run_advance H :=
  unfold advance in H; cbn -[invalidate_streams runtime_start] in H;
  unfold command_step, open_stream_step, retire_step, create_step, stream_step, run_command, run_start in H.

Lemma advance_tasks t a w w' :
  advance t a w = Some w' ->
  exists k k', tasks w !! t = Some k /\ tasks w' = <[t := k']> (tasks w) /\ (weight k' < weight k)%nat.
Proof.
  unfold advance. destruct (tasks w !! t) as [k|] eqn:Hk; [|done]. intros Hadv. exists k.
  destruct k; cbn -[invalidate_streams runtime_start] in Hadv; unfold run_command, run_start in Hadv;
    repeat case_match; simplify_eq/=; (eexists; split_and!; [done|done|cbn; lia]).
Qed.

(** An open stream was open before, or is being published. *)
Definition was_open (w : World) (s : N) (i : nat) (x' : StreamEntry) : Prop :=
  streams (table w) !! s = Some i /\ exists x, stream_entries w !! i = Some x /\
    client_handle x' = client_handle x /\ stream_generation x' = stream_generation x.
Definition published_now (w : World) (x' : StreamEntry) : Prop :=
  exists t e h g, tasks w !! t = Some (Inserting e h g) /\ clients (table w) !! h = Some e /\ x' = stream_new h g.

Lemma was_open_same w s i x' :
  streams (table w) !! s = Some i -> stream_entries w !! i = Some x' -> was_open w s i x'.
Proof. intros Hs Hx. split; [done|]. by exists x'. Qed.
Lemma was_open_alter w s i j f x' :
  streams (table w) !! s = Some i -> alter f j (stream_entries w) !! i = Some x' ->
  (forall x, client_handle (f x) = client_handle x /\ stream_generation (f x) = stream_generation x) -> was_open w s i x'.
Proof.
  intros Hs Hx Hf. split; [done|]. destruct (decide (i = j)) as [->|Hne].
  - rewrite list_lookup_alter_eq in Hx. apply fmap_Some in Hx as (x & Hx & ->). exists x. by destruct (Hf x).
  - rewrite list_lookup_alter_ne in Hx by done. by exists x'.
Qed.
Lemma was_open_kept h w s i x' :
  streams (table (invalidate_streams h w)) !! s = Some i -> stream_entries (invalidate_streams h w) !! i = Some x' ->
  was_open w s i x'.
Proof.
  intros [Hs Hn]%kept Hx. destruct (invalidated h w i x' Hx) as (x & Hx0 & Hc & _ & Heq). split; [done|].
  exists x. by rewrite (Heq (Hn x Hx0)).
Qed.

Lemma insert_client_streams tb v n tb' : HandleTable.insert_client tb v = Some (n, tb') -> streams tb' = streams tb.
Proof.
  unfold HandleTable.insert_client. destruct (HandleTable.next tb) as [[m tb0]|] eqn:Hnext; [|done].
  apply next_spec in Hnext as (-> & _ & ->). by intros [= _ <-].
Qed.
Lemma insert_engine_streams tb v n tb' : HandleTable.insert_engine tb v = Some (n, tb') -> streams tb' = streams tb.
Proof.
  unfold HandleTable.insert_engine. destruct (HandleTable.next tb) as [[m tb0]|] eqn:Hnext; [|done].
  apply next_spec in Hnext as (-> & _ & ->). by intros [= _ <-].
Qed.
Lemma insert_stream_streams tb v n tb' : HandleTable.insert_stream tb v = Some (n, tb') -> streams tb' = <[n := v]> (streams tb).
Proof.
  unfold HandleTable.insert_stream. destruct (HandleTable.next tb) as [[m tb0]|] eqn:Hnext; [|done].
  apply next_spec in Hnext as (-> & _ & ->). by intros [= <- <-].
Qed.

Lemma advance_streams t a w w' s i x' :
  handles_ok w -> advance t a w = Some w' -> streams (table w') !! s = Some i -> stream_entries w' !! i = Some x' ->
  was_open w s i x' \/ published_now w x'.
Proof.
  intros Hok. unfold advance. destruct (tasks w !! t) as [k|] eqn:Hk; [|done]. intros Hadv Hs Hx.
  destruct k; cbn -[invalidate_streams runtime_start] in Hadv; unfold run_command, run_start in Hadv;
    repeat case_match; simplify_eq/=; try (by left; apply was_open_same).
  - left. apply was_open_same; [|done]. by rewrite <-(insert_client_streams _ _ _ _ H).
  - left. by apply (was_open_kept h).
  - rewrite (insert_stream_streams _ _ _ _ H1) in Hs. apply lookup_insert_Some in Hs as [[_ <-]|[_ Hs]].
    + right. exists t, e, h, g. rewrite lookup_app_r, Nat.sub_diag in Hx by lia.
      apply negb_false_iff, bool_decide_eq_true in H0. subst. split_and!; [done..|by injection Hx].
    + left. apply was_open_same; [done|]. destruct (so_open _ (ho_streams _ Hok) s i Hs) as (y & Hy & _).
      by rewrite lookup_app_l in Hx by (by eapply lookup_lt_Some).
  - left. by apply (was_open_kept h).
  - left. by apply (was_open_kept h).
  - left. apply was_open_same; [|done]. by rewrite <-(insert_client_streams _ _ _ _ H).
  - left. eapply was_open_alter; [done..|]. by destruct io.
  - left. eapply was_open_alter; [done..|]. by destruct io.
  - left. eapply was_open_alter; [done..|]. by destruct io.
  - left. apply lookup_delete_Some in Hs as [_ Hs]. by apply was_open_same.
  - left. apply lookup_delete_Some in Hs as [_ Hs]. by apply was_open_same.
  - left. by eapply was_open_alter.
Qed.

Lemma step_streams pem w w' s i x' :
  handles_ok w -> step pem w w' -> streams (table w') !! s = Some i -> stream_entries w' !! i = Some x' ->
  was_open w s i x' \/ published_now w x'.
Proof.
  intros Hok.
  destruct 1 as [t c Hnone|t a w' Hadv|e x r Hx Hb|t k r r' Hk Hcase Hb|engine handle tb Hins|handle];
    try by (left; apply was_open_same).
  - by eapply advance_streams.
  - intros Hs Hx. left. apply was_open_same; [|done]. by rewrite <-(insert_engine_streams _ _ _ _ Hins).
Qed.

(** A stream is published only of a generation that is online. *)
Lemma step_inserting pem w w' t e h g :
  step pem w w' -> tasks w' !! t = Some (Inserting e h g) ->
  tasks w !! t = Some (Inserting e h g) \/ exists x, entries w !! e = Some x /\ online x g = true.
Proof.
  destruct 1 as [t0 c Hnone|t0 a w' Hadv|e0 x r Hx Hb|t0 k r r' Hk Hcase Hb|engine handle tb Hins|handle]; cbn; eauto.
  - intros [[-> Hc]|[_ ?]]%lookup_insert_Some; [|by left]. exfalso.
    destruct (call_quiet pem c w t) as (Hh & _). by rewrite Hc in Hh.
  - unfold advance in Hadv. destruct (tasks w !! t0) as [k|] eqn:Hk; [|done]. intros Ht.
    destruct (decide (t0 = t)) as [->|Hne].
    + right. destruct k; cbn -[invalidate_streams runtime_start] in Hadv; unfold run_command, run_start in Hadv;
        repeat case_match; simplify_eq/=; rewrite lookup_insert_eq in Ht; try discriminate Ht.
      injection Ht as -> -> ->. eexists. split; [eassumption|].
      match goal with H : _ || negb _ = false |- _ => apply orb_false_iff in H as [_ H%negb_false_iff]; exact H end.
    + left. assert (advance t0 a w = Some w') as (_ & k' & _ & Heq & _)%advance_tasks by (unfold advance; by rewrite Hk).
      by rewrite Heq, lookup_insert_ne in Ht.
  - intros [[-> Hc]|[_ ?]]%lookup_insert_Some; [|by left]. by destruct Hcase; subst k.
Qed.

(** ** Steps of one call among those of the others *)
Lemma step_mine pem w w' t k :
  step pem w w' -> tasks w !! t = Some k -> (forall r, k <> ConnectWaiting r /\ k <> ConnectInserting r) ->
  tasks w' !! t = Some k \/ exists a, advance t a w = Some w'.
Proof.
  intros Hstep Hk Hnc.
  destruct Hstep as [t0 c Hnone|t0 a w' Hadv|e x r Hx Hb|t0 k0 r r' Hk0 Hcase Hb|engine handle tb Hins|handle]; try by left.
  - left. cbn. rewrite lookup_insert_ne; [done|congruence].
  - destruct (decide (t0 = t)) as [->|Hne]; [right; by exists a|left].
    apply advance_tasks in Hadv as (_ & k' & _ & -> & _). by rewrite lookup_insert_ne.
  - left. cbn. destruct (decide (t0 = t)) as [->|Hne]; [|by rewrite lookup_insert_ne].
    destruct (Hnc r) as [H1 H2]. assert (k0 = k) as -> by congruence. by destruct Hcase.
Qed.

Definition dead (x : ClientEntry) : Prop := destroyed x = true /\ proxy x = None /\ stopped (runtime x).
Lemma dead_change x x' : live_runtime (runtime x) -> entry_change x x' -> dead x -> dead x'.
Proof.
  intros Hr Hc (Hd & Hp & Hs). destruct Hc as [|h|h| | |p Hd'|o r Hd' _|g r Hst|r Hb]; try done; try congruence.
  - apply runtime_stop_spec in Hst as (_ & Hst & _); [|done]. by split_and!.
  - split_and!; [done..|]. by apply (background_stopped (runtime x)).
Qed.

(** The number of the connection an entry has, or had last. *)
Definition entry_generation (x : ClientEntry) : N := generation (snap (runtime x)).
Lemma change_generation x x' :
  live_runtime (runtime x) -> entry_change x x' ->
  entry_generation x <= entry_generation x' /\
  (entry_generation x' = entry_generation x -> stopped (runtime x) -> stopped (runtime x')).
Proof.
  unfold entry_generation. intros Hr Hc. destruct Hc as [|h|h| | |p Hd'|o r Hd' Hst|g r Hst|r Hb]; cbn; try by split.
  - apply runtime_start_spec in Hst as [_ Hst]; [|done]. destruct o as [g|e].
    + destruct Hst as (-> & -> & _). split; [lia|]. lia.
    + destruct Hst as (_ & ->). by split.
  - apply runtime_stop_spec in Hst as (_ & Hst & -> & Hle); [|done]. by split.
  - pose proof Hb as (_ & _ & Hg). rewrite Hg. split; [done|]. intros _. by apply background_stopped.
Qed.

Lemma step_known pem w w' e h : handles_ok w -> step pem w w' -> known w e h -> known w' e h.
Proof.
  intros Hok Hstep (He & Hh & Hc). pose proof (step_table _ _ _ Hstep) as [Hn Hcl _ _]. split_and!; [|lia|].
  - apply lookup_lt_is_Some in He as [x Hx]. destruct (step_entries _ _ _ Hok Hstep e x Hx) as (x' & Hx' & _).
    by eapply lookup_lt_Some.
  - intros e' He'. by apply Hc, Hcl.
Qed.

(** *** Streams that are no longer open

    A stream leaves the table cancelled, or with a [close] that cancels it next. *)
Definition settled (w : World) : Prop :=
  forall i x, stream_entries w !! i = Some x ->
    cancelled x = true \/ (exists s, streams (table w) !! s = Some i) \/ exists t, tasks w !! t = Some (StreamCancelling i).

Lemma settled_kept w w' :
  (forall i t, tasks w !! t = Some (StreamCancelling i) -> tasks w' !! t = Some (StreamCancelling i)) ->
  (forall s i, streams (table w) !! s = Some i -> streams (table w') !! s = Some i) ->
  (forall i x', stream_entries w' !! i = Some x' ->
     (exists x, stream_entries w !! i = Some x /\ cancelled x' = cancelled x) \/ exists s, streams (table w') !! s = Some i) ->
  settled w -> settled w'.
Proof.
  intros Ht Hs He Hset i x' Hx'. destruct (He i x' Hx') as [(x & Hx & ->)|Hopen]; [|by right; left].
  destruct (Hset i x Hx) as [?|[[s Hi]|[t Hi]]]; [by left|right; left; eauto|right; right; eauto].
Qed.
(** A call other than the end of a [close]. *)
Lemma settled_put t k k' w w' :
  tasks w !! t = Some k -> (forall i, k <> StreamCancelling i) -> tasks w' = <[t := k']> (tasks w) ->
  (forall s i, streams (table w) !! s = Some i -> streams (table w') !! s = Some i) ->
  (forall i x', stream_entries w' !! i = Some x' ->
     (exists x, stream_entries w !! i = Some x /\ cancelled x' = cancelled x) \/ exists s, streams (table w') !! s = Some i) ->
  settled w -> settled w'.
Proof.
  intros Hk Hn Ht. apply settled_kept. intros i t' Ht'. rewrite Ht, lookup_insert_ne; [done|]. intros <-. by apply (Hn i); congruence.
Qed.
Lemma same_entries w w' : stream_entries w' = stream_entries w ->
  forall i x', stream_entries w' !! i = Some x' ->
    (exists x, stream_entries w !! i = Some x /\ cancelled x' = cancelled x) \/ exists s, streams (table w') !! s = Some i.
Proof. intros -> i x' Hx'. left. by exists x'. Qed.

Lemma invalidated_open h w s i x :
  streams (table w) !! s = Some i -> stream_entries w !! i = Some x -> client_handle x = h ->
  exists x', stream_entries (invalidate_streams h w) !! i = Some x' /\ cancelled x' = true.
Proof.
  intros Hs Hx <-. cbn. rewrite list_lookup_imap, Hx. cbn. eexists. split; [done|].
  rewrite bool_decide_eq_true_2, N.eqb_refl; [done|]. apply list_elem_of_fmap. exists (s, i). by rewrite elem_of_map_to_list.
Qed.
Lemma invalidated_grows h w i x :
  stream_entries w !! i = Some x -> exists x', stream_entries (invalidate_streams h w) !! i = Some x' /\
    (cancelled x = true -> cancelled x' = true).
Proof. intros Hx. cbn. rewrite list_lookup_imap, Hx. cbn. eexists. split; [done|]. by destruct (_ && _). Qed.
Lemma settled_invalidate h w : settled w -> settled (invalidate_streams h w).
Proof.
  intros Hset i x' Hx'. destruct (invalidated h w i x' Hx') as (x & Hx & _ & _ & Heq).
  destruct (invalidated_grows h w i x Hx) as (x0 & Hx0 & Hc). assert (x0 = x') as -> by congruence.
  destruct (Hset i x Hx) as [?|[[s Hi]|[t Hi]]]; [by left; apply Hc| |by right; right; exists t].
  destruct (N.eq_dec (client_handle x) h) as [Hh|Hh].
  - left. destruct (invalidated_open h w s i x Hi Hx Hh) as (x1 & Hx1 & ?). congruence.
  - right; left. exists s. unfold invalidate_streams. cbn. apply map_lookup_filter_Some. split; [done|]. cbn.
    unfold of_client. rewrite Hx. by destruct (N.eqb_spec (client_handle x) h).
Qed.

Lemma altered_entries f j w : (forall x, cancelled (f x) = cancelled x) ->
  forall i x', alter f j (stream_entries w) !! i = Some x' -> exists x, stream_entries w !! i = Some x /\ cancelled x' = cancelled x.
Proof.
  intros Hf i x' Hx'. destruct (decide (i = j)) as [->|Hne].
  - rewrite list_lookup_alter_eq in Hx'. apply fmap_Some in Hx' as (x & Hx & ->). by exists x.
  - rewrite list_lookup_alter_ne in Hx' by done. by exists x'.
Qed.
Lemma hold_stream_cancelled io h x : cancelled (hold_stream io h x) = cancelled x.
Proof. by destruct io. Qed.

Lemma settled_inserted tb v n tb' s i :
  table_ok tb -> HandleTable.insert_stream tb v = Some (n, tb') -> streams tb !! s = Some i -> streams tb' !! s = Some i.
Proof.
  intros Hok Hins Hs. rewrite (insert_stream_streams _ _ _ _ Hins). rewrite lookup_insert_ne; [done|]. intros ->.
  unfold HandleTable.insert_stream in Hins. destruct (HandleTable.next tb) as [[m tb0]|] eqn:Hnext; [|done].
  apply next_spec in Hnext as (-> & _ & ->). injection Hins as <- _.
  destruct (fresh_handle tb (next_handle tb + 1)) as (_ & Hf & _); [done|lia|congruence].
Qed.

Lemma rtc_keeps pem (P : World -> Prop) w w' :
  (forall v v', handles_ok v -> step pem v v' -> P v -> P v') -> rtc (step pem) w w' -> handles_ok w -> P w -> P w'.
Proof. intros HP. induction 1; eauto using step_handles_ok. Qed.

Lemma advance_settled t a w w' : handles_ok w -> advance t a w = Some w' -> settled w -> settled w'.
Proof.
  intros Hok Hadv Hset. unfold advance in Hadv. destruct (tasks w !! t) as [k|] eqn:Hk; [|done].
  destruct k; cbn -[invalidate_streams runtime_start] in Hadv; unfold run_command, run_start in Hadv;
    repeat case_match; simplify_eq/=;
    try (refine (settled_put t _ _ w _ Hk _ _ _ _ Hset); [done|reflexivity|done|apply same_entries; reflexivity]);
    try (refine (settled_put t _ _ w _ Hk _ _ _ _ Hset); [done|reflexivity|done|];
         intros j y Hy; left; by apply (altered_entries _ _ _ (hold_stream_cancelled _ _) j y Hy));
    try (refine (settled_put t _ _ w _ Hk _ _ _ _ Hset); [done|reflexivity| |apply same_entries; reflexivity];
         intros s j Hs; cbn; by erewrite insert_client_streams by eassumption).
  - refine (settled_put t _ _ (invalidate_streams h w) _ Hk _ _ _ _ (settled_invalidate h w Hset)); [done|reflexivity|done|by apply same_entries].
  - refine (settled_put t _ _ w _ Hk _ _ _ _ Hset); [done|reflexivity| |].
    + intros s j Hs. cbn. eapply settled_inserted; [apply Hok|eassumption|done].
    + intros j y Hy. cbn in Hy |- *. apply lookup_app_Some in Hy as [Hy|[Hle Hy]]; [by left; exists y|right].
      exists n0. rewrite (insert_stream_streams _ _ _ _ H1), lookup_insert_eq. f_equal.
      apply lookup_lt_Some in Hy. cbn in Hy. lia.
  - refine (settled_put t _ _ (invalidate_streams h w) _ Hk _ _ _ _ (settled_invalidate h w Hset)); [done|reflexivity|done|by apply same_entries].
  - refine (settled_put t _ _ (invalidate_streams h w) _ Hk _ _ _ _ (settled_invalidate h w Hset)); [done|reflexivity|done|by apply same_entries].
  - intros j y Hy. cbn in Hy |- *. destruct (Hset j y Hy) as [?|[[s' Hs']|[t' Ht']]]; [by left|right..].
    + destruct (decide (s' = s)) as [->|Hne]; [right; exists t; rewrite lookup_insert_eq; congruence|].
      left. exists s'. by rewrite lookup_delete_ne.
    + right. exists t'. rewrite lookup_insert_ne; [done|]. by intros <-; congruence.
  - refine (settled_put t _ _ w _ Hk _ _ _ _ Hset); [done|reflexivity| |by apply same_entries].
    intros s' j Hs'. cbn. rewrite lookup_delete_ne; [done|]. by intros <-; congruence.
  - intros j y Hy. cbn in Hy |- *. destruct (decide (j = i)) as [->|Hne].
    + rewrite list_lookup_alter_eq in Hy. apply fmap_Some in Hy as (x & _ & ->). by left.
    + rewrite list_lookup_alter_ne in Hy by done.
      destruct (Hset j y Hy) as [?|[?|[t' Ht']]]; [by left|by right; left|right; right].
      exists t'. rewrite lookup_insert_ne; [done|]. by intros <-; congruence.
Qed.

Lemma step_settled pem w w' : handles_ok w -> step pem w w' -> settled w -> settled w'.
Proof.
  intros Hok. destruct 1 as [t c Hnone|t a w' Hadv|e x r Hx Hb|t k r r' Hk Hcase Hb|engine handle tb Hins|handle].
  - apply settled_kept; [|done|by apply same_entries]. intros i t' Ht'. cbn. rewrite lookup_insert_ne; [done|]. by intros <-; congruence.
  - by apply (advance_settled t a).
  - by apply settled_kept; [..|apply same_entries].
  - apply settled_kept; [|done|by apply same_entries]. intros i t' Ht'. cbn. rewrite lookup_insert_ne; [done|].
    intros <-. destruct Hcase; congruence.
  - apply settled_kept; [done| |by apply same_entries]. intros s i Hs. cbn. by rewrite (insert_engine_streams _ _ _ _ Hins).
  - by apply settled_kept; [..|apply same_entries].
Qed.
Lemma reachable_settled pem w : reachable pem w -> settled w.
Proof.
  intros Hr. apply (rtc_keeps pem settled _ _ (step_settled pem) Hr initial_handles_ok). by intros i x Hx.
Qed.

Definition cancelled_at (i : nat) (w : World) : Prop := exists x, stream_entries w !! i = Some x /\ cancelled x = true.
Lemma cancelled_alter i j f w : (forall x, cancelled x = true -> cancelled (f x) = true) ->
  cancelled_at i w -> exists x, alter f j (stream_entries w) !! i = Some x /\ cancelled x = true.
Proof.
  intros Hf (x & Hx & Hc). destruct (decide (i = j)) as [->|Hne].
  - exists (f x). rewrite list_lookup_alter_eq, Hx. split; [done|by apply Hf].
  - exists x. by rewrite list_lookup_alter_ne.
Qed.
(** Nothing takes a cancellation back. *)
Lemma step_cancelled pem i w w' : step pem w w' -> cancelled_at i w -> cancelled_at i w'.
Proof.
  intros Hstep Hc. pose proof Hc as (x & Hx & Hxc). destruct Hstep as [|t a w' Hadv| | | |]; try done.
  unfold advance in Hadv. destruct (tasks w !! t) as [k|] eqn:Hk; [|done].
  destruct k; cbn -[invalidate_streams runtime_start] in Hadv; unfold run_command, run_start in Hadv;
    repeat case_match; simplify_eq/=; try exact Hc;
    try (destruct (invalidated_grows h w i x Hx) as (x' & Hx' & Hc'); exists x'; by split; [|apply Hc']);
    try (apply (cancelled_alter i _ _ _); [|done]; intros y Hy; by rewrite ?hold_stream_cancelled).
  exists x. split; [|done]. by apply lookup_app_l_Some.
Qed.

(** *** Destroying a runtime *)
Definition retired_ok (h : N) (e t : nat) (k : Retirement) (w : World) : Prop :=
  clients (table w) !! h = None /\ h <= next_handle (table w) /\
  (tasks w !! t = Some (RetireLocking e k) \/ tasks w !! t = Some (RetireProxy e k) \/
   tasks w !! t = Some (RetireRuntime e k) \/
   tasks w !! t = Some (Returned (retired k true)) /\ exists x, entries w !! e = Some x /\ dead x).

Lemma step_retired_ok pem h e t k w w' :
  handles_ok w -> step pem w w' -> retired_ok h e t k w -> retired_ok h e t k w'.
Proof.
  intros Hok Hstep (Hn & Hh & Hcase). pose proof (step_table _ _ _ Hstep) as [Hnext Hcl _ _]. split_and!.
  - destruct (clients (table w') !! h) as [e'|] eqn:He; [|done]. apply Hcl in He; [congruence|done].
  - lia.
  - destruct Hcase as [Ht|[Ht|[Ht|[Ht (x & Hx & Hdead)]]]].
    + destruct (step_mine _ _ _ _ _ Hstep Ht) as [?|[a Hadv]]; [done|by left|]. right; left. run_advance Hadv.
      rewrite Ht in Hadv. repeat case_match; simplify_eq/=. by rewrite lookup_insert_eq.
    + destruct (step_mine _ _ _ _ _ Hstep Ht) as [?|[a Hadv]]; [done|by right; left|]. right; right; left. run_advance Hadv.
      rewrite Ht in Hadv. simplify_eq/=. by rewrite lookup_insert_eq.
    + destruct (step_mine _ _ _ _ _ Hstep Ht) as [?|[a Hadv]]; [done|by right; right; left|]. right; right; right.
      destruct (own_task w t _ Hok Ht) as [_ (x & Hx & _ & Hd & Hp)]. run_advance Hadv. rewrite Ht, Hx in Hadv.
      destruct (runtime_stop (runtime x)) as [[g r]| |] eqn:Hst; [|done..]. injection Hadv as <-.
      apply runtime_stop_spec in Hst as (_ & Hst & _); [|by apply (live w Hok e)].
      rewrite (finish_updated _ _ _ _ _ _ Hx). cbn. rewrite lookup_insert_eq. split; [done|].
      exists (hold None (set_runtime r x)). rewrite list_lookup_insert_eq by (by eapply lookup_lt_Some). by split_and!.
    + right; right; right. destruct (step_entries _ _ _ Hok Hstep e x Hx) as (x' & Hx' & Hc). split.
      * destruct (step_mine _ _ _ _ _ Hstep Ht) as [?|[a Hadv]]; [done|done|]. unfold advance in Hadv. by rewrite Ht in Hadv.
      * exists x'. split; [done|]. apply (dead_change x); [by apply (live w Hok e)|done|done].
Qed.

(** *** Stopping a runtime *)
Definition stopped_since (g : N) (e : nat) (h : N) (w : World) : Prop :=
  known w e h /\
  (exists x, entries w !! e = Some x /\ g <= entry_generation x /\ (entry_generation x = g -> stopped (runtime x))) /\
  (forall s i x, streams (table w) !! s = Some i -> stream_entries w !! i = Some x -> client_handle x = h ->
     g < stream_generation x) /\
  (forall t g', tasks w !! t = Some (Inserting e h g') -> g < g').

Lemma online_generation x g : live_runtime (runtime x) -> online x g = true -> entry_generation x = g /\ ~ stopped (runtime x).
Proof.
  intros Hr. pose proof (con_published _ (live_rests _ Hr)) as Hpub.
  unfold online, ClientRuntime.is_generation_online, entry_generation, stopped. rewrite Hpub.
  intros [Hg%N.eqb_eq Hp%bool_decide_eq_true]%andb_true_iff. split; [done|]. congruence.
Qed.

Lemma step_stopped_since pem g e h w w' :
  handles_ok w -> step pem w w' -> stopped_since g e h w -> stopped_since g e h w'.
Proof.
  intros Hok Hstep (Hkn & (x & Hx & Hg & Hst) & Hs & Hi). split_and!.
  - by apply (step_known pem w).
  - destruct (step_entries _ _ _ Hok Hstep e x Hx) as (x' & Hx' & Hc). exists x'.
    destruct (change_generation x x' (live w Hok e x Hx) Hc) as [Hle Hkeep]. split_and!; [done|lia|].
    intros Heq. assert (entry_generation x = g) as Hxg by lia. apply Hkeep; [congruence|by apply Hst].
  - intros s i y Hy Hyi Hch. destruct (step_streams _ _ _ s i y Hok Hstep Hy Hyi) as [(Hs0 & y0 & Hy0 & Hc0 & ->)|Hnow].
    + apply (Hs s i y0); [done|done|congruence].
    + destruct Hnow as (t & e' & h' & g' & Ht & He' & ->). cbn in Hch |- *. subst h'.
      destruct Hkn as (_ & _ & Hkn). apply Hkn in He' as ->. by apply (Hi t).
  - intros t g' Ht. destruct (step_inserting _ _ _ _ _ _ _ Hstep Ht) as [?|(x0 & Hx0 & Hon)]; [by apply (Hi t)|].
    assert (x0 = x) as -> by congruence. destruct (online_generation x g' (live w Hok e x Hx) Hon) as [Hxg Hns].
    destruct (N.eq_dec (entry_generation x) g) as [Heq|Hne]; [|lia]. exfalso. by apply Hns, Hst.
Qed.

(** *** Progress *)
Lemma runtime_start_total r :
  live_runtime r -> revision (snap r) + 2 <= U64_MAX -> exists o r', runtime_start r = Ret (o, r').
Proof.
  intros Hr Hroom. pose proof (live_rests _ Hr) as Hc. pose proof (con_phase _ Hc) as Hst.
  pose proof (con_numbers _ Hc) as Hnum. unfold runtime_start, snap in *.
  destruct (active (phase (current (inner r)))) eqn:Hact.
  - assert (ClientRuntime.start_with true (inner r) = Ret (Err Busy, inner r)) as ->; [|by repeat eexists].
    destruct (inner r) as [[[rv gen ph fl]] c t p cl]. by destruct ph.
  - destruct (start_with_total (inner r) Hact Hst Hnum Hroom) as [i ->]. by repeat eexists.
Qed.
Lemma runtime_stop_total r :
  live_runtime r -> revision (snap r) + 2 <= U64_MAX -> exists g r', runtime_stop r = Ret (g, r').
Proof.
  intros Hr Hroom. pose proof (con_numbers _ (live_rests _ Hr)) as Hnum. unfold runtime_stop, snap in *.
  destruct (stop_total (E := unit) (inner r) Hnum Hroom) as (g & t & i & ->). by repeat eexists.
Qed.
Lemma active_client_total s : exists o, eval ClientRuntime.active_client s = Ret o.
Proof.
  unfold eval, ClientRuntime.active_client, bind, get. destruct (negb _); [by eexists|]. by destruct (Runtime.client s); eexists.
Qed.
Lemma open_stream_check_total g o s : exists r, eval (ClientRuntime.open_stream_check g o) s = Ret r.
Proof.
  unfold eval, ClientRuntime.open_stream_check, bind, get, reject_if. destruct o; [|by eexists].
  by destruct (negb _); eexists.
Qed.

Definition headroom (w : World) : Prop :=
  forall e x, entries w !! e = Some x -> revision (snap (runtime x)) + 2 <= U64_MAX.
(** A [velum_client_connect] whose own runtime is still dialling. *)
Definition dialling (k : Task) : Prop := exists r, k = ConnectWaiting r /\ phase (published (inner r)) = Connecting.
(** What may answer the call next. *)
Definition answer_for (k : Task) : Answer :=
  match k with
  | Opening _ _ _ => OpenAnswer (Ok tt)
  | Binding _ _ _ => BindAnswer None
  | StreamIo _ (Write _ | Finish) => WriteAnswer (Ok tt)
  | StreamIo _ (Read _) => ReadAnswer (Ok None)
  | _ => NoAnswer
  end.
(** Whether a call waits for a mutex, and which calls have it. *)
Definition locking (k : Task) : bool :=
  match k with Locking _ _ _ | Publishing _ _ _ | RetireLocking _ _ | StreamLocking _ _ => true | _ => false end.
Definition blocks (k k' : Task) : Prop :=
  match k with
  | Locking e _ _ | Publishing e _ _ | RetireLocking e _ => holds k' = Some e
  | StreamLocking i io => exists io', uses k' = Some (i, io') /\ is_read io = is_read io'
  | _ => False
  end.

Lemma advance_unlocked t k w :
  handles_ok w -> headroom w -> tasks w !! t = Some k -> (forall r, k <> Returned r) -> ~ dialling k -> locking k = false ->
  exists w', advance t (answer_for k) w = Some w'.
Proof.
  intros Hok Hroom Hk Hnr Hnd Ha. pose proof (own_task w t k Hok Hk) as Htask. unfold advance. rewrite Hk.
  destruct k; try discriminate Ha; cbn -[runtime_start invalidate_streams eval ClientRuntime.open_stream_check]; cbn in Htask; try by eexists.
  - destruct Htask as [_ (x & Hx & _)]. rewrite Hx. destruct c; cbn; try by eexists.
    unfold run_start. destruct (runtime_start_total (runtime x) (live w Hok e x Hx) (Hroom e x Hx)) as (o & r & ->).
    destruct o as [|[]]; by eexists.
  - destruct Htask as (_ & (x & Hx & _) & _). rewrite Hx.
    destruct (runtime_stop_total (runtime x) (live w Hok e x Hx) (Hroom e x Hx)) as (g & r & ->). by eexists.
  - destruct Htask as [[x Hx]%lookup_lt_is_Some _]. rewrite Hx. destruct (active_client_total (inner (runtime x))) as [[[g c]|] ->]; by eexists.
  - destruct Htask as [[x Hx]%lookup_lt_is_Some _]. rewrite Hx.
    destruct (open_stream_check_total g (Ok tt) (inner (runtime x))) as [[g'|] ->]; by eexists.
  - destruct Htask as [_ (x & Hx & _)]. rewrite Hx.
    destruct (runtime_stop_total (runtime x) (live w Hok e x Hx) (Hroom e x Hx)) as (g & r & ->). by eexists.
  - destruct (phase (published (inner r))) eqn:Hp; try by eexists. destruct Hnd. by exists r.
  - destruct Htask as (x & Hx & _). rewrite Hx. destruct (cancelled x); [by eexists|]. destruct io; by eexists.
  - by destruct (Hnr r).
Qed.

(** A call waits for the network, or for a call that does not wait for a mutex. *)
Definition can_go_on (t : nat) (k : Task) (w : World) : Prop :=
  exists t' k' a w', tasks w !! t' = Some k' /\ advance t' a w = Some w' /\ (t' = t \/ blocks k k').

Lemma holder_goes_on t k t' k' w :
  handles_ok w -> headroom w -> tasks w !! t' = Some k' -> (holds k' <> None \/ uses k' <> None) -> blocks k k' ->
  can_go_on t k w.
Proof.
  intros Hok Hroom Hk' Hh Hb. destruct (advance_unlocked t' k' w Hok Hroom Hk') as [w' Hw'].
  - intros r ->. by destruct Hh.
  - intros (r & -> & _). by destruct Hh.
  - destruct k'; try done; by destruct Hh.
  - exists t', k', (answer_for k'), w'. auto.
Qed.

Lemma call_progress t k w :
  handles_ok w -> headroom w -> tasks w !! t = Some k -> (forall r, k <> Returned r) -> ~ dialling k -> can_go_on t k w.
Proof.
  intros Hok Hroom Hk Hnr Hnd. destruct (locking k) eqn:Hl.
  2: { destruct (advance_unlocked t k w Hok Hroom Hk Hnr Hnd Hl) as [w' Hw']. exists t, k, (answer_for k), w'. auto. }
  assert (forall w', advance t NoAnswer w = Some w' -> can_go_on t k w) as Hnow by (intros w' Hw'; exists t, k, NoAnswer, w'; auto).
  assert (forall e r d p h, entries w !! e = Some {| runtime := r; destroyed := d; proxy := p; holder := Some h |} ->
    (forall k', holds k' = Some e -> blocks k k') -> can_go_on t k w) as Hmutex.
  { intros e r d p h Hx Hb. destruct (en_locks _ (ho_entries _ Hok) e _ h Hx eq_refl) as (k' & Hk' & Hhold).
    apply (holder_goes_on t k h k' w Hok Hroom Hk'); [left; congruence|by apply Hb]. }
  pose proof (own_task w t k Hok Hk) as Htask. unfold advance in Hnow. rewrite Hk in Hnow.
  destruct k; try discriminate Hl; cbn in Htask, Hnow.
  - destruct Htask as [[[r d p [hd|]] Hx]%lookup_lt_is_Some _]; [by eapply Hmutex|]. rewrite Hx in Hnow. by eapply Hnow.
  - destruct Htask as [[[r d p [hd|]] Hx]%lookup_lt_is_Some _]; [by eapply Hmutex|]. rewrite Hx in Hnow. by eapply Hnow.
  - destruct Htask as [[[r d p [hd|]] Hx]%lookup_lt_is_Some _]; [by eapply Hmutex|]. rewrite Hx in Hnow. by eapply Hnow.
  - apply lookup_lt_is_Some in Htask as [x Hx]. rewrite Hx in Hnow. destruct (io_holder io x) as [h|] eqn:Hh; [|by eapply Hnow].
    destruct (so_locks _ (ho_streams _ Hok) i x io h Hx Hh) as (io' & Hk' & Hr).
    apply (holder_goes_on t _ h _ w Hok Hroom Hk'); [by right|by exists io'].
Qed.

(** ** Properties *)

(** C34. Over every history of calls, answers and connection events the table
    of handles is sound: a handle stands for one thing and is never given out
    again once it was; every open stream is not cancelled and belongs to a
    client that is open and not destroyed; and whoever has the mutex of an
    entry is a call that is still running. *)
Theorem handles_consistent pem w w' (Hr : reachable pem w) (Hstep : step pem w w') :
  table_ok (table w') /\ table_grows (table w) (table w') /\
  (forall s i, streams (table w') !! s = Some i -> exists x e y,
     stream_entries w' !! i = Some x /\ cancelled x = false /\ clients (table w') !! client_handle x = Some e /\
     entries w' !! e = Some y /\ destroyed y = false) /\
  (forall e x t, entries w' !! e = Some x -> holder x = Some t -> exists k, tasks w' !! t = Some k /\ holds k = Some e).
Proof.
  pose proof (step_handles_ok _ _ _ Hstep (reachable_handles_ok _ _ Hr)) as Hok.
  split_and!; [apply Hok|by apply (step_table pem)| |apply (ho_entries _ Hok)].
  intros s i (x & Hx & Hc & [e He])%(so_open _ (ho_streams _ Hok)).
  destruct (en_clients _ (ho_entries _ Hok) _ e He) as (y & Hy & Hd). by exists x, e, y.
Qed.

(** C35. A runtime that is destroyed is gone for good: from the moment its
    handle is taken out of the table no call finds it or a stream of it,
    whatever was in progress.  Every stream that was open then is cancelled
    and stays so, and so is every stream the runtime ever had, but one whose
    own [close] has taken it out and cancels it next.  Once [destroy] has
    returned the proxy is stopped and the connection closed, and nothing
    starts them again. *)
Theorem destroy_is_final pem w h k e t w1 w2
    (Hr : reachable pem w) (Ht : tasks w !! t = Some (Retiring h k)) (He : clients (table w) !! h = Some e)
    (Hadv : advance t NoAnswer w = Some w1) (Hsteps : rtc (step pem) w1 w2) :
  clients (table w2) !! h = None /\ no_streams w2 h /\
  (forall s i x, streams (table w) !! s = Some i -> stream_entries w !! i = Some x -> client_handle x = h ->
     exists x2, stream_entries w2 !! i = Some x2 /\ cancelled x2 = true) /\
  (forall i x, stream_entries w2 !! i = Some x -> client_handle x = h ->
     cancelled x = true \/ exists t', tasks w2 !! t' = Some (StreamCancelling i)) /\
  forall r, tasks w2 !! t = Some (Returned r) ->
    r = retired k true /\ exists x, entries w2 !! e = Some x /\ destroyed x = true /\ proxy x = None /\ stopped (runtime x).
Proof.
  pose proof (reachable_handles_ok _ _ Hr) as Hok. pose proof (call_advance_ok _ _ _ _ Hok Hadv) as Hok1.
  pose proof (rtc_handles_ok _ _ _ Hsteps Hok1) as Hok2.
  assert (settled w2) as Hset.
  { apply (rtc_keeps pem settled w1); [apply step_settled|done|done|].
    apply (step_settled pem w); [done|by eapply step_advance|by apply (reachable_settled pem)]. }
  assert (retired_ok h e t k w1 /\
    forall s i x, streams (table w) !! s = Some i -> stream_entries w !! i = Some x -> client_handle x = h ->
      cancelled_at i w1) as [H1 Hcan].
  { destruct (client_known w h e Hok He) as (_ & Hle & _). run_advance Hadv. rewrite Ht, He in Hadv. injection Hadv as <-. split.
    - split_and!; cbn; [apply lookup_delete_eq|done|left; apply lookup_insert_eq].
    - intros s i x Hs Hx Hch. exact (invalidated_open h w s i x Hs Hx Hch). }
  pose proof (rtc_keeps pem _ _ _ (step_retired_ok pem h e t k) Hsteps Hok1 H1) as (Hn & _ & Hcase).
  assert (no_streams w2 h) as Hno.
  { intros s i x Hs Hx Heq. destruct (so_open _ (ho_streams _ Hok2) s i Hs) as (x' & Hx' & _ & [e' He']).
    assert (x' = x) as -> by congruence. congruence. }
  split_and!; [done|done| | |].
  - intros s i x Hs Hx Hch. apply (rtc_keeps pem (cancelled_at i) w1); [by intros v v' _; apply step_cancelled|done|done|].
    by apply (Hcan s i x).
  - intros i x Hx Hch. destruct (Hset i x Hx) as [?|[[s Hs]|?]]; [by left| |by right]. by destruct (Hno s i x).
  - intros r Hret. destruct Hcase as [Hc|[Hc|[Hc|[Hc Hx]]]]; rewrite Hret in Hc; [done..|]. by injection Hc as ->.
Qed.

(** A runtime that is stopped takes its streams with it: when [stop]
    returns generation [g] there is no stream of the handle, no proxy and no
    connection, and any stream that is ever open under the handle again was
    opened by a later connection, even one whose opening was under way. *)
Theorem stop_ends_streams pem w t a w1 w2 e h g
    (Hr : reachable pem w) (Ht : tasks w !! t = Some (StoppingRuntime e h)) (Hadv : advance t a w = Some w1)
    (Hret : tasks w1 !! t = Some (Returned (ControlReply VelumControlStatus.Ok (GenerationValue g))))
    (Hsteps : rtc (step pem) w1 w2) :
  no_streams w1 h /\
  (exists x, entries w1 !! e = Some x /\ proxy x = None /\ stopped (runtime x) /\ entry_generation x = g) /\
  (forall s i x, streams (table w2) !! s = Some i -> stream_entries w2 !! i = Some x -> client_handle x = h ->
     g < stream_generation x).
Proof.
  pose proof (reachable_handles_ok _ _ Hr) as Hok. pose proof (call_advance_ok _ _ _ _ Hok Hadv) as Hok1.
  destruct (own_task w t _ Hok Ht) as (Hkn & (x & Hx & Hh & Hd & Hp) & Hno).
  run_advance Hadv. rewrite Ht, Hx in Hadv. destruct (runtime_stop (runtime x)) as [[g' r]| |] eqn:Hst; [|done..].
  injection Hadv as <-. apply runtime_stop_spec in Hst as (_ & Hst & Hg & _); [|by apply (live w Hok e)].
  rewrite (finish_updated _ _ _ _ _ _ Hx) in *. cbn in Hret. rewrite lookup_insert_eq in Hret.
  assert (g' = g) as -> by congruence.
  set (y := hold None (set_runtime r x)) in *. set (w1 := put t _ (set_entry e y w)) in *.
  assert (entries w1 !! e = Some y) as Hy by (apply list_lookup_insert_eq; by eapply lookup_lt_Some).
  assert (no_streams w1 h) as Hno1 by exact Hno.
  split_and!; [done|by exists y|].
  assert (stopped_since g e h w1) as H1.
  { split_and!; [by apply known_set_entry|exists y; split_and!; [done|by rewrite <-Hg|done]| |].
    - intros s i z Hs Hz Hch. by destruct (Hno1 s i z).
    - intros t' g' Ht'. cbn in Ht'. apply lookup_insert_Some in Ht' as [[_ ?]|[Hne Ht']]; [done|].
      destruct (own_task w t' _ Hok Ht') as [_ (x' & Hx' & Hh' & _)]. congruence. }
  apply (rtc_keeps pem _ _ _ (step_stopped_since pem g e h) Hsteps Hok1 H1).
Qed.

(** C37. Every call returns: it takes at most five steps, and while revisions
    are left it can take its next one, once the network answers, or waits for
    a call that can; only a [connect] waits for its own connection.  A call
    on a stream that was closed returns whatever the network does. *)
Theorem calls_finish pem w t k (Hr : reachable pem w) (Hk : tasks w !! t = Some k) :
  (forall a w', advance t a w = Some w' -> exists k', tasks w' !! t = Some k' /\ (weight k' < weight k <= 5)%nat) /\
  (headroom w -> (forall r, k <> Returned r) -> ~ dialling k -> can_go_on t k w) /\
  (forall i io x a, k = StreamIo i io -> stream_entries w !! i = Some x -> cancelled x = true ->
     exists w', advance t a w = Some w' /\ tasks w' !! t = Some (client VelumStatus.Transport)).
Proof.
  pose proof (reachable_handles_ok _ _ Hr) as Hok. split_and!.
  - intros a w' Hadv. apply advance_tasks in Hadv as (k0 & k' & Hk0 & -> & Hlt). assert (k0 = k) as -> by congruence.
    exists k'. rewrite lookup_insert_eq. split; [done|]. split; [done|]. destruct k; cbn; lia.
  - intros Hroom Hnr Hnd. by apply call_progress.
  - intros i io x a -> Hx Hc. unfold advance. rewrite Hk. cbn. rewrite Hx, Hc. eexists. split; [done|].
    cbn. apply lookup_insert_eq.
Qed.
