(* ===== verification/TunHandles.v ===== *)
(** The C interface to the packet engine of Android
    ([velum-client-ffi/src/tun.rs]): the calls that run an engine, of which one
    at a time holds the place for the active one, and the call that stops it.
    Each critical section is one step, and the turns of an engine, also of the
    tasks it leaves behind when its call returns, come between. *)
From S2P Require Import Prelude Runtime Tun Copying AndroidTun ClientHandles.

(** A call in progress: it found the runtime it was given, has put the sender of
    its engine's signal into the place for the active one, or runs the engine
    ([block_on]) until that returns. *)
Inductive TunCall :=
| FoundRuntime (runtime : nat) (tun_fd : Z) (mtu : N)
| Activated (runtime : nat) (tun_fd : Z) (mtu : N) (stopped : Watch)
| RunningTun (engine : Engine)
| NotStarted (e : IoError)
| ReturnedTun (engine : option Engine) (code : Z).
(** [next_session] is the counter of [relay_udp], one for the process. *)
Record TunWorld := { active : option N; calls : gmap N TunCall; next_session : N }.
Definition tun_initial : TunWorld := {| active := None; calls := ∅; next_session := 1 |}.
Definition set_call (id : N) (c : TunCall) (w : TunWorld) : TunWorld :=
  {| active := active w; calls := <[id := c]> (calls w); next_session := next_session w |}.
Definition set_active (a : option N) (w : TunWorld) : TunWorld :=
  {| active := a; calls := calls w; next_session := next_session w |}.

Definition velum_client_android_tun_run_v2 (table : HandleTable) (runtime_handle : N) (tun_fd : Z) (mtu : N) : TunCall :=
  if (tun_fd <? 0)%Z then ReturnedTun None (-1)
  else if mtu <? 576 then ReturnedTun None (-1)
  else match clients table !! runtime_handle with
       | None => ReturnedTun None (-1)
       | Some entry => FoundRuntime entry tun_fd mtu
       end.
Definition velum_client_android_tun_run (table : HandleTable) (runtime_handle : N) (tun_fd : Z) : TunCall :=
  velum_client_android_tun_run_v2 table runtime_handle tun_fd 1500.

(** [if active.is_none() { *active = Some(shutdown) }]: the place knows the call
    whose signal it can send. *)
Definition activate (id : N) (w : TunWorld) : option TunWorld :=
  c ← calls w !! id;
  match c with
  | FoundRuntime runtime fd mtu =>
    match active w with
    | None => Some (set_active (Some id) (set_call id (Activated runtime fd mtu (channel false)) w))
    | Some _ => Some (set_call id (ReturnedTun None (-3)) w)
    end
  | _ => None
  end.
(** [online] is what the runtime says when the engine looks. *)
Definition run_engine (id : N) (online : bool) (accepts_mtu : N -> bool) (w : TunWorld) : option TunWorld :=
  c ← calls w !! id;
  match c with
  | Activated runtime fd mtu stopped =>
    match started (start online accepts_mtu fd mtu stopped 0 (next_session w)) with
    | Ok engine => Some (set_call id (RunningTun engine) w)
    | Err e => Some (set_call id (NotStarted e) w)
    end
  | _ => None
  end.
(** The turns an engine takes by itself: only the owner of the sender signals. *)
Definition of_engine (t : Turn) : bool := match t with Signals _ | SenderDropped => false | _ => true end.
Definition engine_of (c : TunCall) : option Engine :=
  match c with RunningTun engine | ReturnedTun (Some engine) _ => Some engine | _ => None end.
Definition with_engine (engine : Engine) (c : TunCall) : TunCall :=
  match c with RunningTun _ => RunningTun engine | ReturnedTun (Some _) code => ReturnedTun (Some engine) code | c => c end.
Definition engine_turn (id : N) (t : Turn) (w : TunWorld) : option TunWorld :=
  c ← calls w !! id;
  engine ← engine_of c;
  engine ← (if of_engine t then turn t (set_numbers (next_session w) engine) else None);
  Some {| active := active w; calls := <[id := with_engine engine c]> (calls w); next_session := numbers engine |}.
(** Once the engine has returned, [active.take()] drops the sender. *)
Definition finish (id : N) (w : TunWorld) : option TunWorld :=
  c ← calls w !! id;
  match c with
  | RunningTun engine =>
    match main engine with
    | AndroidTun.Returned r =>
      Some (set_active None (set_call id (ReturnedTun (Some (set_signal (drop_sender (signal engine)) engine)) (if is_ok r then 0 else -4)%Z) w))
    | _ => None
    end
  | NotStarted _ => Some (set_active None (set_call id (ReturnedTun None (-4)) w))
  | _ => None
  end.
(** [shutdown.send_replace(true)], if there is one; the answer is always 0. *)
Definition signalled (c : TunCall) : TunCall :=
  match c with
  | Activated runtime fd mtu stopped => Activated runtime fd mtu (send_replace true stopped)
  | RunningTun engine => RunningTun (set_signal (send_replace true (signal engine)) engine)
  | c => c
  end.
Definition velum_client_android_tun_stop (w : TunWorld) : TunWorld :=
  match active w with
  | None => w
  | Some id => match calls w !! id with Some c => set_call id (signalled c) w | None => w end
  end.

Inductive TunEvent :=
| RunCalled (id : N) (table : HandleTable) (runtime_handle : N) (tun_fd : Z) (mtu : N)
| Activates (id : N)
| RunsEngine (id : N) (online : bool) (accepts_mtu : N -> bool)
| EngineTurns (id : N) (t : Turn)
| Finishes (id : N)
| StopCalled.
Definition tun_step (e : TunEvent) (w : TunWorld) : option TunWorld :=
  match e with
  | RunCalled id table handle fd mtu =>
    if fresh_id id (calls w) then Some (set_call id (velum_client_android_tun_run_v2 table handle fd mtu) w) else None
  | Activates id => activate id w
  | RunsEngine id online accepts_mtu => run_engine id online accepts_mtu w
  | EngineTurns id t => engine_turn id t w
  | Finishes id => finish id w
  | StopCalled => Some (velum_client_android_tun_stop w)
  end.
Fixpoint tun_steps (l : list TunEvent) (w : TunWorld) : option TunWorld :=
  match l with [] => Some w | e :: l => w ← tun_step e w; tun_steps l w end.

(** ** One engine at a time *)
Definition holding (c : TunCall) : bool := match c with Activated _ _ _ _ | RunningTun _ | NotStarted _ => true | _ => false end.
Definition call_ok (n : N) (c : TunCall) : Prop :=
  match c with
  | Activated _ _ _ stopped => sees stopped 0
  | RunningTun engine => sound engine /\ numbers engine <= n
  | ReturnedTun (Some engine) _ => sound engine /\ numbers engine <= n /\ sender_dropped (signal engine) = true
  | _ => True
  end.
Record tun_world_ok (w : TunWorld) : Prop := {
  tw_active : forall id c, calls w !! id = Some c -> holding c = true <-> active w = Some id;
  tw_there : forall id, active w = Some id -> is_Some (calls w !! id);
  tw_calls : forall id c, calls w !! id = Some c -> call_ok (next_session w) c;
  tw_counter : 0 < next_session w
}.

(** A counter that has moved on takes no number back. *)
Lemma sound_numbers n w : sound w -> numbers w <= n -> sound (set_numbers n w).
Proof.
  intros [Hs Hu Hg Hn] Hle. split; [by apply (slots_ok_same w)| |destruct Hg; by split|cbn; lia].
  unfold udp_fine in *. cbn. by eapply udp_ok_number.
Qed.
Lemma sound_signal s w :
  sound w -> (forall seen, sees (signal w) seen -> sees s seen) -> sound (set_signal s w).
Proof. intros [Hs Hu [] Hn] Hsees. split; [by apply (slots_ok_same w)|by apply (udp_fine_same w)|split; cbn; eauto|done]. Qed.
Lemma sound_stopped w : sound w -> sound (set_signal (send_replace true (signal w)) w).
Proof. intros Hw. apply sound_signal; [done|]. intros seen. apply sees_send. Qed.
Lemma sound_dropped w : sound w -> sound (set_signal (drop_sender (signal w)) w).
Proof. intros Hw. by apply sound_signal. Qed.
Lemma call_ok_le n n' c : call_ok n c -> n <= n' -> call_ok n' c.
Proof. destruct c as [| |engine| |[engine|] ?]; cbn; try done; intuition lia. Qed.

Lemma set_call_ok id c c' w :
  tun_world_ok w -> calls w !! id = Some c -> holding c' = holding c -> call_ok (next_session w) c' -> tun_world_ok (set_call id c' w).
Proof.
  intros [Ha Ht Hc Hn] Hid Hh Hok. split; cbn; [| | |done].
  - intros i d [[<- <-]|[_ Hl]]%lookup_insert_Some; [rewrite Hh|]; by apply Ha.
  - intros i Hi%Ht. apply lookup_insert_is_Some. destruct (decide (id = i)); auto.
  - intros i d [[<- <-]|[_ Hl]]%lookup_insert_Some; [done|by eapply Hc].
Qed.
Lemma fresh_call_ok id c w : tun_world_ok w -> calls w !! id = None -> holding c = false -> call_ok (next_session w) c -> tun_world_ok (set_call id c w).
Proof.
  intros [Ha Ht Hc Hn] Hid Hh Hok. split; cbn; [| | |done].
  - intros i d [[<- <-]|[_ Hl]]%lookup_insert_Some; [|by apply Ha]. rewrite Hh. split; [done|]. intros [x Hx]%Ht. congruence.
  - intros i Hi%Ht. apply lookup_insert_is_Some. destruct (decide (id = i)); auto.
  - intros i d [[<- <-]|[_ Hl]]%lookup_insert_Some; [done|by eapply Hc].
Qed.

Lemma activate_ok id w w' : activate id w = Some w' -> tun_world_ok w -> tun_world_ok w' /\ next_session w' = next_session w.
Proof.
  unfold activate. intros (c & Hid & H)%bind_Some Hok. destruct c as [runtime fd mtu| | | |]; try done.
  destruct (active w) as [a|] eqn:Ha; injection H as <-; (split; [|done]); [by eapply set_call_ok|].
  destruct Hok as [Hact Ht Hc Hn]. split; cbn; [| | |done].
  - intros i d [[<- <-]|[Hne Hl]]%lookup_insert_Some; [by split|]. rewrite (Hact _ _ Hl), Ha. split; [done|]. congruence.
  - intros i [= <-]. by rewrite lookup_insert_eq.
  - intros i d [[<- <-]|[_ Hl]]%lookup_insert_Some; [by split|by eapply Hc].
Qed.
Lemma run_engine_ok id online accepts_mtu w w' :
  run_engine id online accepts_mtu w = Some w' -> tun_world_ok w -> tun_world_ok w' /\ next_session w' = next_session w.
Proof.
  unfold run_engine. intros (c & Hid & H)%bind_Some Hok. destruct c as [|runtime fd mtu stopped| | |]; try done.
  pose proof (tw_calls _ Hok _ _ Hid) as Hsees. cbn in Hsees.
  destruct (started (start online accepts_mtu fd mtu stopped 0 (next_session w))) as [engine|e] eqn:Hst; injection H as <-; (split; [|done]);
    (eapply set_call_ok; [done|exact Hid|done|]); [|done].
  destruct (start_sound _ _ _ _ _ _ _ _ Hst Hsees (tw_counter _ Hok)) as [Hs Hn]. cbn. split; [done|lia].
Qed.
Lemma turn_keeps_dropped t w w' : turn t w = Some w' -> of_engine t = true -> signal w' = signal w.
Proof.
  intros H Ht. destruct t; try done; cbn in H; unfold main_changed, main_accepted, main_clears, with_tcp, udp_numbers, with_udp, udp_adds, udp_removes,
    receives, looks, hands, receiver_changed, receiver_cancelled in H;
    repeat (case_match; try done); repeat (apply bind_Some in H as (? & ? & H)); repeat (case_match; try done); simplify_option_eq; done.
Qed.
Lemma engine_turn_ok id t w w' :
  engine_turn id t w = Some w' -> next_session w < U64_MAX -> tun_world_ok w ->
  tun_world_ok w' /\ next_session w <= next_session w' <= next_session w + 1.
Proof.
  unfold engine_turn. intros (c & Hid & (engine & He & (engine' & Ht & [= <-])%bind_Some)%bind_Some)%bind_Some Hb Hok.
  destruct (of_engine t) eqn:Hown; [|done].
  pose proof (tw_calls _ Hok _ _ Hid) as Hcall.
  assert (sound engine /\ numbers engine <= next_session w) as [Hs Hn] by (destruct c as [| | | |[]]; cbn in *; simplify_eq; intuition).
  pose proof (sound_numbers _ _ Hs Hn) as Hs'. destruct (turn_fine _ _ _ Ht ltac:(split; [apply Hs'|exact Hb]) (so_udp _ Hs')) as [_ Hrange].
  destruct (engine_turn_sound _ _ _ Ht Hb Hs') as [He' _]. cbn [numbers set_numbers] in Hrange. split; [|cbn; lia].
  pose proof (turn_keeps_dropped _ _ _ Ht Hown) as Hsig.
  destruct Hok as [Hact Hth Hc Hp]. split; cbn.
  - intros i d [[<- <-]|[_ Hl]]%lookup_insert_Some; [|by apply Hact]. rewrite <-(Hact _ _ Hid). by destruct c as [| | | |[]].
  - intros i Hi%Hth. apply lookup_insert_is_Some. destruct (decide (id = i)); auto.
  - intros i d [[<- <-]|[_ Hl]]%lookup_insert_Some; [|eapply call_ok_le; [by eapply Hc|lia]].
    destruct c as [| | | |[]]; cbn in *; simplify_eq; try done; rewrite Hsig; cbn; intuition lia.
  - lia.
Qed.
Lemma released_ok id c c' w :
  tun_world_ok w -> calls w !! id = Some c -> holding c = true -> holding c' = false -> call_ok (next_session w) c' ->
  tun_world_ok (set_active None (set_call id c' w)).
Proof.
  intros [Ha Ht Hc Hn] Hid Hh Hh' Hok. assert (active w = Some id) as Hact by by apply (Ha _ _ Hid). split; cbn; [|done| |done].
  - intros i d [[<- <-]|[Hne Hl]]%lookup_insert_Some; [by rewrite Hh'|]. rewrite (Ha _ _ Hl), Hact. split; [|done]. congruence.
  - intros i d [[<- <-]|[_ Hl]]%lookup_insert_Some; [done|by eapply Hc].
Qed.
Lemma tun_finish_ok id w w' : finish id w = Some w' -> tun_world_ok w -> tun_world_ok w' /\ next_session w' = next_session w.
Proof.
  unfold finish. intros (c & Hid & H)%bind_Some Hok. pose proof (tw_calls _ Hok _ _ Hid) as Hcall. destruct c as [| |engine|e|]; try done.
  - destruct (main engine); try done. injection H as <-. split; [|done]. eapply released_ok; try done. destruct Hcall.
    split; [by apply sound_dropped|done].
  - injection H as <-. split; [|done]. by eapply released_ok.
Qed.
Lemma tun_stop_ok w : tun_world_ok w -> tun_world_ok (velum_client_android_tun_stop w).
Proof.
  intros Hok. unfold velum_client_android_tun_stop. destruct (active w) as [id|]; [|done]. destruct (calls w !! id) as [c|] eqn:Hid; [|done].
  pose proof (tw_calls _ Hok _ _ Hid) as Hcall. eapply set_call_ok; [done|done|by destruct c|].
  destruct c; cbn in *; try done; [by apply sees_send|]. destruct Hcall. split; [by apply sound_stopped|done].
Qed.
Lemma tun_step_ok e w w' :
  tun_step e w = Some w' -> next_session w < U64_MAX -> tun_world_ok w -> tun_world_ok w' /\ next_session w' <= next_session w + 1.
Proof.
  intros H Hb Hok. destruct e as [id table handle fd mtu|id|id online accepts|id t|id|]; cbn in H.
  - unfold fresh_id in H. case_bool_decide as Hid; [|done]. injection H as <-. split; [|cbn; lia]. apply fresh_call_ok; try done.
    all: unfold velum_client_android_tun_run_v2; repeat case_match; done.
  - destruct (activate_ok _ _ _ H Hok). split; [done|lia].
  - destruct (run_engine_ok _ _ _ _ _ H Hok). split; [done|lia].
  - destruct (engine_turn_ok _ _ _ _ H Hb Hok). split; [done|lia].
  - destruct (tun_finish_ok _ _ _ H Hok). split; [done|lia].
  - injection H as <-. split; [by apply tun_stop_ok|]. unfold velum_client_android_tun_stop. repeat case_match; cbn; lia.
Qed.
Lemma tun_initial_ok : tun_world_ok tun_initial.
Proof. by split. Qed.
Lemma tun_steps_ok l w : tun_steps l tun_initial = Some w -> 1 + len l <= U64_MAX -> tun_world_ok w /\ next_session w <= 1 + len l.
Proof.
  change 1 with (next_session tun_initial). generalize tun_initial tun_initial_ok. induction l as [|e l IH]; intros w0 H0; cbn.
  - intros [= ->] _. split; [done|lia].
  - intros (v & He & Hl)%bind_Some Hb. rewrite len_cons in *. destruct (tun_step_ok _ _ _ He ltac:(lia) H0) as [Hv Hn].
    destruct (IH v Hv Hl ltac:(lia)). split; [done|lia].
Qed.

(** At most one engine runs at a time: a call gets the place for the active one
    exactly when nobody has it, and is refused with -3 otherwise.  What an
    engine leaves behind when its call returns, flows still at work, can come
    to its end, and does not keep the next engine from its place. *)
Theorem tun_engines_alone l w (Hrun : tun_steps l tun_initial = Some w) (Hbound : 1 + len l + 1796 <= U64_MAX) :
  (forall id id' c c', calls w !! id = Some c -> calls w !! id' = Some c' -> holding c = true -> holding c' = true -> id = id') /\
  (forall id runtime fd mtu, calls w !! id = Some (FoundRuntime runtime fd mtu) ->
     exists w', activate id w = Some w' /\
       if bool_decide (active w = None) then active w' = Some id /\ calls w' !! id = Some (Activated runtime fd mtu (channel false))
       else active w' = active w /\ calls w' !! id = Some (ReturnedTun None (-3))) /\
  (forall id engine code, calls w !! id = Some (ReturnedTun (Some engine) code) ->
     active w <> Some id /\
     exists l' engine', turns l' (set_numbers (next_session w) engine) = Some engine' /\ Forall (fun t => winds_down t = true) l' /\ all_over engine').
Proof.
  destruct (tun_steps_ok _ _ Hrun ltac:(lia)) as [[Ha Ht Hc Hn] Hnext]. split; [|split].
  - intros id id' c c' Hid Hid' Hh Hh'. apply (Ha _ _ Hid) in Hh. apply (Ha _ _ Hid') in Hh'. congruence.
  - intros id runtime fd mtu Hid. unfold activate. rewrite Hid. cbn. destruct (active w) as [a|] eqn:Hact; eexists; (split; [done|]);
      [rewrite bool_decide_eq_false_2 by done|rewrite bool_decide_eq_true_2 by done]; cbn; by rewrite lookup_insert_eq.
  - intros id engine code Hid. split; [intros Hact; by apply (Ha _ _ Hid) in Hact|].
    destruct (Hc _ _ Hid) as (Hs & Hle & Hdrop). pose proof (sound_numbers _ _ Hs Hle) as Hs'.
    destruct (stopping_ends 1796 _ Hs' (or_intror Hdrop)) as (l' & engine' & Hl' & Hw & Hover & _); [|cbn; lia|by exists l', engine'].
    pose proof (left_to_do_bound _ (so_slots _ Hs')) as H. unfold MAX_TCP_FLOWS, MAX_UDP_FLOWS in H. lia.
Qed.

(** ** Stopping *)
Lemma winds_down_of_engine t : winds_down t = true -> of_engine t = true.
Proof. by destruct t. Qed.
Lemma tun_steps_app l l' w : tun_steps (l ++ l') w = (w' ← tun_steps l w; tun_steps l' w').
Proof. revert w. induction l as [|e l IH]; intros w; cbn; [done|]. by destruct (tun_step e w); cbn. Qed.
(** The turns of an engine alone are steps of its call. *)
Lemma engine_turns_are_steps id l w engine engine' :
  calls w !! id = Some (RunningTun engine) -> turns l (set_numbers (next_session w) engine) = Some engine' ->
  Forall (fun t => winds_down t = true) l ->
  exists w' last, tun_steps (EngineTurns id <$> l) w = Some w' /\ calls w' !! id = Some (RunningTun last) /\ active w' = active w /\
    engine' = set_numbers (next_session w') last.
Proof.
  revert w engine. induction l as [|t l IH]; intros w engine Hid Hl Hall; cbn in Hl.
  - injection Hl as <-. exists w, engine. done.
  - apply Forall_cons in Hall as [Ht Hall]. apply bind_Some in Hl as (next & Hnext & Hl).
    set (w1 := {| active := active w; calls := <[id := RunningTun next]> (calls w); next_session := numbers next |}).
    assert (tun_step (EngineTurns id t) w = Some w1) as Hstep.
    { cbn. unfold engine_turn. rewrite Hid. cbn. by rewrite (winds_down_of_engine _ Ht), Hnext. }
    destruct (IH w1 next) as (w' & last & Hs & Hlast & Hact & Heq); [by cbn; rewrite lookup_insert_eq|by destruct next|done|].
    exists w', last. cbn [fmap list_fmap tun_steps]. by rewrite Hstep.
Qed.

(** The call that runs the engine comes back, and everything it started is over. *)
Definition over_and_out (id : N) (w : TunWorld) : Prop :=
  active w = None /\ exists engine code, calls w !! id = Some (ReturnedTun engine code) /\ (code = 0 \/ code = -4)%Z /\
    match engine with Some engine => all_over engine | None => True end.
Lemma running_comes_back id w engine :
  tun_world_ok w -> calls w !! id = Some (RunningTun engine) -> stopping engine -> next_session w + 1796 <= U64_MAX ->
  exists l w', tun_steps l w = Some w' /\ over_and_out id w' /\ (length l <= 1797)%nat.
Proof.
  intros [Ha Ht Hc Hn] Hid Hstop Hb. destruct (Hc _ _ Hid) as [Hs Hle]. pose proof (sound_numbers _ _ Hs Hle) as Hs'.
  destruct (stopping_ends 1796 _ Hs' Hstop) as (l & engine' & Hl & Hall & Hover & Hlen); [|cbn; lia|].
  { pose proof (left_to_do_bound _ (so_slots _ Hs')) as H. unfold MAX_TCP_FLOWS, MAX_UDP_FLOWS in H. lia. }
  destruct (engine_turns_are_steps _ _ _ _ _ Hid Hl Hall) as (w1 & last & Hw1 & Hlast & Hact & ->).
  destruct Hover as [[r Hr] Hrest]. cbn in Hr.
  exists ((EngineTurns id <$> l) ++ [Finishes id]). rewrite tun_steps_app, Hw1. cbn. unfold finish. rewrite Hlast. cbn. rewrite Hr. cbn.
  eexists; split; [done|]. split; [|rewrite length_app, length_fmap; cbn; lia]. split; [done|]. cbn. do 2 eexists. rewrite lookup_insert_eq.
  split; [done|]. split; [destruct (is_ok r); auto|]. split; [by exists r|exact Hrest].
Qed.

(** A call to stop the engine is answered at once and cannot be lost: whatever
    the call that has the active engine is at, even before the engine runs, it
    can then come back in at most 1798 steps,
    with nothing left that it started, and the place for the active engine is
    free again.  Without an active engine, stopping changes nothing. *)
Theorem tun_stop_ends_the_run l w (Hrun : tun_steps l tun_initial = Some w) (Hbound : 1 + len l + 1796 <= U64_MAX) :
  match active w with
  | None => velum_client_android_tun_stop w = w
  | Some id => exists l' w', tun_steps l' (velum_client_android_tun_stop w) = Some w' /\ over_and_out id w' /\ (length l' <= 1798)%nat
  end.
Proof.
  destruct (tun_steps_ok _ _ Hrun ltac:(lia)) as [Hok Hnext]. pose proof (tun_stop_ok _ Hok) as Hok'.
  unfold velum_client_android_tun_stop in *. destruct (active w) as [id|] eqn:Hact; [|done].
  destruct (tw_there _ Hok _ Hact) as [c Hid]. rewrite Hid in *. pose proof (proj2 (tw_active _ Hok _ _ Hid) Hact) as Hh.
  destruct c as [|runtime fd mtu stopped|engine|e|]; try done; cbn [signalled] in *.
  - set (v := set_call id _ w) in *. assert (calls v !! id = Some (Activated runtime fd mtu (send_replace true stopped))) as Hv by apply lookup_insert_eq.
    assert (is_Some (tun_step (RunsEngine id true (fun _ => true)) v)) as [v1 Hstep].
    { cbn. unfold run_engine. rewrite Hv. cbn. destruct (started _); by eexists. }
    destruct (run_engine_ok _ _ _ _ _ Hstep Hok') as [Hok1 Hn1].
    assert (exists l' w', tun_steps l' v1 = Some w' /\ over_and_out id w' /\ (length l' <= 1797)%nat) as (l' & w' & Hl' & Hw' & Hlen).
    { cbn in Hstep. unfold run_engine in Hstep. rewrite Hv in Hstep. cbn in Hstep.
      destruct (started _) as [engine|e] eqn:Hst; injection Hstep as <-.
      - eapply running_comes_back; [done|apply lookup_insert_eq| |cbn; lia]. left. unfold start in Hst.
        destruct (_ || _); [done|]. cbn in Hst. by injection Hst as <-.
      - eexists [Finishes id], _. cbn. unfold finish. cbn. rewrite lookup_insert_eq. cbn. split; [done|]. split; [|lia].
        split; [done|]. do 2 eexists. cbn. rewrite lookup_insert_eq. split; [done|]. split; [by right|done]. }
    exists (RunsEngine id true (fun _ => true) :: l'), w'. cbn [tun_steps]. rewrite Hstep. cbn. split; [done|]. split; [done|lia].
  - destruct (running_comes_back id _ _ Hok' (lookup_insert_eq _ _ _) (or_introl eq_refl) ltac:(cbn; lia)) as (l' & w' & Hl' & Hw' & Hlen).
    exists l', w'. split; [done|]. split; [done|lia].
  - eexists [Finishes id], _. cbn. unfold finish. cbn. rewrite lookup_insert_eq. cbn. split; [done|]. split; [|lia].
    split; [done|]. do 2 eexists. cbn. rewrite lookup_insert_eq. split; [done|]. split; [by right|done].
Qed.

(** ** Two calls, one of which is refused, and a stop *)
Module TunHandleExamples.
Definition table : HandleTable := {| next_handle := 7; clients := {[ 7 := 0%nat ]}; streams := ∅; engines := ∅ |}.
Definition refused_arguments : list TunCall :=
  [velum_client_android_tun_run table 7 (-1); velum_client_android_tun_run_v2 table 7 1 500; velum_client_android_tun_run table 8 1].
Example arguments_refused : refused_arguments = replicate 3 (ReturnedTun None (-1)).
Proof. reflexivity. Qed.
Definition two_calls : list TunEvent :=
  [RunCalled 0 table 7 5 1500; RunCalled 1 table 7 6 1280; Activates 1; Activates 0; RunsEngine 1 true (fun _ => true);
   EngineTurns 1 (MainAccepted 0 (Ok (AcceptedUdp AndroidExamples.resolver))); EngineTurns 1 (UdpNumbers 0)].
Definition after_two_calls : TunWorld := match tun_steps two_calls tun_initial with Some w => w | None => tun_initial end.
Example the_other_refused : (calls after_two_calls !! 0, active after_two_calls) = (Some (ReturnedTun None (-3)), Some 1).
Proof. vm_compute. reflexivity. Qed.
Lemma tun_stop_ends_the_run_witness :
  active after_two_calls = Some 1 /\
  exists l w, tun_steps l (velum_client_android_tun_stop after_two_calls) = Some w /\ over_and_out 1 w.
Proof.
  pose proof (tun_stop_ends_the_run two_calls after_two_calls eq_refl ltac:(vm_compute; discriminate)) as H.
  assert (active after_two_calls = Some 1) as Ha by (vm_compute; reflexivity). split; [exact Ha|]. rewrite Ha in H.
  destruct H as (l & w & Hl & Hw & _). exists l, w. exact (conj Hl Hw).
Defined.
Lemma tun_engines_alone_witness :
  forall id c, calls after_two_calls !! id = Some c -> holding c = true -> id = 1.
Proof.
  intros id c Hid Hh. assert (holding <$> (calls after_two_calls !! 1) = Some true) as H1 by (vm_compute; reflexivity).
  destruct (calls after_two_calls !! 1) as [c1|] eqn:Hc1; [|discriminate]. injection H1 as H1.
  exact (proj1 (tun_engines_alone two_calls after_two_calls eq_refl ltac:(vm_compute; discriminate)) id 1 c c1 Hid Hc1 Hh H1).
Defined.
End TunHandleExamples.
