(* ===== verification/EngineHandles.v ===== *)
(** The calls of the C interface on engines
    ([velum-client-ffi/src/engine.rs]): pools of node connections behind
    handles of the same table, each call a task whose critical sections
    interleave with those of all others, with the pool's own calls and with
    the connections that a proxy has accepted.

    An engine entry behind its [Arc] is known by its place in a heap; [holder]
    is the call that has the mutex of [command], under which alone that of
    [proxy] is taken.  No mutex is poisoned. *)
From S2P Require Import Prelude Net Str Utf8 Routing Runtime ClientProfile NodePool ClientApi ClientAbi ClientHandles.

Definition Pool : Type := NodePool.World ClientConfig.

Record EngineEntry := { pool : Pool; destroyed : bool; proxy : option N; holder : option nat }.
(** [NodePool::default()] *)
Definition engine_new : EngineEntry := {| pool := NodePool.initial; destroyed := false; proxy := None; holder := None |}.

Record VelumEngineNodeInput := {
  input_id : VelumByteSlice;
  input_alias : VelumByteSlice;
  input_configuration : VelumClientConfigInput
}.

(** ** Calls in progress *)

(** What is done under the mutex of [command]. *)
Inductive Command :=
| Activate (nodes : list (ResolvedNode ClientConfig)) (default_node : Str)
| Snapshot (reference : Str)
| Stop
| ProxyStart (requested_port : N) (policy : RoutingPolicy)
| ProxyStop.
(** The calls of the pool that a call blocks on. *)
Inductive Blocking :=
| Activates (nodes : list (ResolvedNode ClientConfig)) (default_node : Str)
| Stops
| Destroys.

Inductive Value :=
| NoValue
| Handle (h : N)
| GenerationValue (g : N)
| SnapshotValue (s : VelumEngineNodeSnapshotV1)
| Port (p : N).

Inductive Task :=
| Creating
| Looking (h : N) (c : Command)
| Locking (e : nat) (c : Command)
| Running (e : nat) (c : Command)
| Pooling (e : nat) (b : Blocking)
| Waiting (e k : nat) (b : Blocking)
| Binding (e : nat) (requested_port : N) (policy : RoutingPolicy)
| Retiring (h : N)
| RetireLocking (e : nat)
| RetireProxy (e : nat)
| Returned (status : VelumControlStatus.t) (out : Value).

(** *** The exported functions, up to their first lock

    A flag says that an output pointer is not null. *)
Section calls.
Variable pem_reader_iter : list byte -> option (list (list byte)).

Definition failed (status : VelumControlStatus.t) : Task := Returned status NoValue.

Definition velum_client_engine_create (out_engine_handle : bool) : Task :=
  if negb out_engine_handle then failed VelumControlStatus.InvalidArgument else Creating.

(** The body of the loop over [inputs]. *)
Definition resolve_input (input : VelumEngineNodeInput) : result (ResolvedNode ClientConfig) VelumControlStatus.t :=
  let? id := text (input_id input) in
  let? alias := text (input_alias input) in
  match configuration_from_input pem_reader_iter (Some (input_configuration input)) with
  | Ok configuration => Ok (Build_ResolvedNode id alias configuration)
  | Err error => Err (control_status_from error)
  end.
Fixpoint resolve_inputs (inputs : list VelumEngineNodeInput)
  : result (list (ResolvedNode ClientConfig)) VelumControlStatus.t :=
  match inputs with
  | [] => Ok []
  | input :: inputs =>
    let? node := resolve_input input in
    let? resolved := resolve_inputs inputs in
    Ok (node :: resolved)
  end.

(** [nodes] is the memory behind the pointer. *)
Definition velum_client_engine_activate_v1 (engine_handle : N) (nodes : option (list VelumEngineNodeInput))
  (node_count : N) (default_node : VelumByteSlice) (out_generation : bool) : Task :=
  match nodes with
  | None => failed VelumControlStatus.InvalidArgument
  | Some nodes =>
    if negb out_generation || (node_count =? 0) || (MAX_NODES <? node_count)
    then failed VelumControlStatus.InvalidArgument
    else
      match text default_node with
      | Err status => failed status
      | Ok default_node =>
        match resolve_inputs (prefix_to node_count nodes) with
        | Err status => failed status
        | Ok resolved => Looking engine_handle (Activate resolved default_node)
        end
      end
  end.

Definition velum_client_engine_node_snapshot_v1 (engine_handle : N) (reference : VelumByteSlice) (out_snapshot : bool) : Task :=
  if negb out_snapshot then failed VelumControlStatus.InvalidArgument
  else
    match text reference with
    | Err status => failed status
    | Ok reference => Looking engine_handle (Snapshot reference)
    end.

Definition velum_client_engine_stop (engine_handle : N) (out_generation : bool) : Task :=
  if negb out_generation then failed VelumControlStatus.InvalidArgument else Looking engine_handle Stop.

Definition velum_client_engine_destroy (engine_handle : N) : Task := Retiring engine_handle.

Definition velum_client_engine_proxy_start_v1 (engine_handle requested_port : N) (rules : VelumByteSlice) (out_port : bool) : Task :=
  if negb out_port then failed VelumControlStatus.InvalidArgument
  else
    match copy_bytes rules with
    | Err error => failed (control_status_from error)
    | Ok rules =>
      match Utf8.decode rules with
      | None => failed VelumControlStatus.Configuration
      | Some rules =>
        match RoutingPolicy.from_str rules with
        | Ok policy =>
          if is_empty (Routing.rules policy) then failed VelumControlStatus.Configuration
          else Looking engine_handle (ProxyStart requested_port policy)
        | Err _ => failed VelumControlStatus.Configuration
        end
      end
    end.

Definition velum_client_engine_proxy_stop (engine_handle : N) : Task := Looking engine_handle ProxyStop.

Inductive Call :=
| CallCreate (out : bool)
| CallActivate (h : N) (nodes : option (list VelumEngineNodeInput)) (node_count : N) (default_node : VelumByteSlice) (out : bool)
| CallNodeSnapshot (h : N) (reference : VelumByteSlice) (out : bool)
| CallStop (h : N) (out : bool)
| CallDestroy (h : N)
| CallProxyStart (h port : N) (rules : VelumByteSlice) (out : bool)
| CallProxyStop (h : N).

Definition call (c : Call) : Task :=
  match c with
  | CallCreate out => velum_client_engine_create out
  | CallActivate h nodes node_count default_node out => velum_client_engine_activate_v1 h nodes node_count default_node out
  | CallNodeSnapshot h reference out => velum_client_engine_node_snapshot_v1 h reference out
  | CallStop h out => velum_client_engine_stop h out
  | CallDestroy h => velum_client_engine_destroy h
  | CallProxyStart h port rules out => velum_client_engine_proxy_start_v1 h port rules out
  | CallProxyStop h => velum_client_engine_proxy_stop h
  end.
End calls.

(** ** The process *)
Record World := { table : HandleTable; entries : list EngineEntry; tasks : gmap nat Task }.
Definition initial : World := {| table := table_default; entries := []; tasks := ∅ |}.

Definition put (t : nat) (x : Task) (w : World) : World :=
  {| table := table w; entries := entries w; tasks := <[t := x]> (tasks w) |}.
Definition set_table (tb : HandleTable) (w : World) : World :=
  {| table := tb; entries := entries w; tasks := tasks w |}.
Definition set_entries (l : list EngineEntry) (w : World) : World :=
  {| table := table w; entries := l; tasks := tasks w |}.
Definition update (e : nat) (f : EngineEntry -> EngineEntry) (w : World) : World := set_entries (alter f e (entries w)) w.

Definition hold (h : option nat) (x : EngineEntry) : EngineEntry :=
  {| pool := pool x; destroyed := destroyed x; proxy := proxy x; holder := h |}.
Definition set_pool (p : Pool) (x : EngineEntry) : EngineEntry :=
  {| pool := p; destroyed := destroyed x; proxy := proxy x; holder := holder x |}.
Definition set_proxy (p : option N) (x : EngineEntry) : EngineEntry :=
  {| pool := pool x; destroyed := destroyed x; proxy := p; holder := holder x |}.
Definition set_destroyed (x : EngineEntry) : EngineEntry :=
  {| pool := pool x; destroyed := true; proxy := proxy x; holder := holder x |}.
(** [stop_proxy] *)
Definition stop_proxy : EngineEntry -> EngineEntry := set_proxy None.

(** The end of a call that has the mutex of [command]. *)
Definition finish (t e : nat) (status : VelumControlStatus.t) (out : Value) (w : World) : World :=
  put t (Returned status out) (update e (hold None) w).

(** What a call is told from outside: a free name for its call of the pool, what
    the runtime of each entry publishes when the lock of the entry is taken,
    the address of a listener. *)
Inductive Answer :=
| NoAnswer
| PoolTask (k : nat)
| Readings (runtimes : nat -> option RuntimeSnapshot)
| BindAnswer (address : option N).

(** The node of a reference in a snapshot of the pool. *)
Definition find_node (reference : Str) (snapshot : NodePoolSnapshot) : option NodeSnapshot :=
  head (filter (fun node => str_eqb (snapshot_id node) reference || str_eqb (snapshot_alias node) reference = true)
          (snapshot_nodes snapshot)).
Definition node_reply (snapshot : NodePoolSnapshot) (node : NodeSnapshot) : VelumEngineNodeSnapshotV1 :=
  {| profile_generation := snapshot_generation snapshot; configured := 1;
     abi_is_default := if is_default node then 1 else 0;
     abi_runtime := match snapshot_runtime node with Some r => snapshot_from r | None => abi_snapshot_default end |}.
(** [ProxyRuntime::is_default_online] *)
Definition is_default_online (snapshot : NodePoolSnapshot) : bool :=
  match head (filter (fun node => is_default node = true) (snapshot_nodes snapshot)) ≫= snapshot_runtime with
  | Some r => bool_decide (phase r = Online)
  | None => false
  end.

(** *** Commands *)
Definition run_command (t e : nat) (c : Command) (a : Answer) (x : EngineEntry) (w : World) : option World :=
  match c with
  | Activate nodes default_node => Some (put t (Pooling e (Activates nodes default_node)) (update e stop_proxy w))
  | Snapshot reference =>
    match a with
    | Readings readings =>
      let snapshot := pool_snapshot ClientConfig readings (pool x) in
      Some (match find_node reference snapshot with
            | None => finish t e VelumControlStatus.Configuration NoValue w
            | Some node => finish t e VelumControlStatus.Ok (SnapshotValue (node_reply snapshot node)) w
            end)
    | _ => None
    end
  | Stop => Some (put t (Pooling e Stops) (update e stop_proxy w))
  | ProxyStart requested_port policy =>
    match proxy x with
    | Some _ => Some (finish t e VelumControlStatus.Busy NoValue w)
    | None =>
      match a with
      | Readings readings =>
        Some (if is_default_online (pool_snapshot ClientConfig readings (pool x)) then put t (Binding e requested_port policy) w
              else finish t e VelumControlStatus.Internal NoValue w)
      | _ => None
      end
    end
  | ProxyStop => Some (finish t e VelumControlStatus.Ok NoValue (update e stop_proxy w))
  end.

Definition command_step (t : nat) (a : Answer) (w : World) (x : Task) : option World :=
  match x with
  | Looking h c =>
    Some (match engines (table w) !! h with
          | None => put t (failed VelumControlStatus.InvalidHandle) w
          | Some e => put t (Locking e c) w
          end)
  | Locking e c =>
    match entries w !! e with
    | Some {| holder := None; destroyed := d |} =>
      Some (if d then put t (failed VelumControlStatus.InvalidHandle) w
            else put t (Running e c) (update e (hold (Some t)) w))
    | _ => None
    end
  | Running e c => match entries w !! e with Some x => run_command t e c a x w | None => None end
  | Binding e requested_port policy =>
    match a with
    | BindAnswer (Some port) => Some (finish t e VelumControlStatus.Ok (Port port) (update e (set_proxy (Some port)) w))
    | BindAnswer None => Some (finish t e VelumControlStatus.Internal NoValue w)
    | _ => None
    end
  | _ => None
  end.

(** *** Blocking on the pool *)
Definition pool_call (b : Blocking) : NodePool.Call ClientConfig :=
  match b with
  | Activates nodes default_node => NodePool.CallActivate nodes default_node
  | Stops | Destroys => NodePool.CallStop
  end.
Definition pool_reply (b : Blocking) (o : result Outcome NodePoolError) : option (VelumControlStatus.t * Value) :=
  match b, o with
  | Destroys, Ok (OfGeneration _) => Some (VelumControlStatus.Ok, NoValue)
  | (Activates _ _ | Stops), Ok (OfGeneration g) => Some (VelumControlStatus.Ok, GenerationValue g)
  | Activates _ _, Err error => Some (status_for_engine error, NoValue)
  | _, _ => None
  end.
Definition block_on (t : nat) (a : Answer) (w : World) (x : Task) : option World :=
  match x with
  | Pooling e b =>
    match a, entries w !! e with
    | PoolTask k, Some x =>
      match NodePool.tasks (pool x) !! k with
      | Some _ => None
      | None => Some (put t (Waiting e k b)
                       (update e (set_pool (NodePool.put _ k (NodePool.call _ (pool_call b)) (pool x))) w))
      end
    | _, _ => None
    end
  | Waiting e k b =>
    match entries w !! e ≫= (fun x => NodePool.tasks (pool x) !! k) with
    | Some (NodePool.Returned o) =>
      match pool_reply b o with
      | Some (status, out) => Some (finish t e status out w)
      | None => None
      end
    | _ => None
    end
  | _ => None
  end.

(** *** Creating and destroying *)
Definition create_step (t : nat) (w : World) (x : Task) : option World :=
  match x with
  | Creating =>
    Some (match HandleTable.insert_engine (table w) (length (entries w)) with
          | None => put t (failed VelumControlStatus.Internal) w
          | Some (handle, table) =>
            put t (Returned VelumControlStatus.Ok (Handle handle)) (set_table table (set_entries (entries w ++ [engine_new]) w))
          end)
  | _ => None
  end.
Definition destroy_step (t : nat) (w : World) (x : Task) : option World :=
  match x with
  | Retiring h =>
    let entry := engines (table w) !! h in
    let w := set_table (HandleTable.remove_engine (table w) h) w in
    Some (match entry with
          | None => put t (failed VelumControlStatus.InvalidHandle) w
          | Some e => put t (RetireLocking e) w
          end)
  | RetireLocking e =>
    match entries w !! e with
    | Some {| holder := None |} =>
      Some (put t (RetireProxy e) (update e (fun x => set_destroyed (hold (Some t) x)) w))
    | _ => None
    end
  | RetireProxy e => Some (put t (Pooling e Destroys) (update e stop_proxy w))
  | _ => None
  end.

(** The next step of a call, [None] while it waits. *)
Definition advance (t : nat) (a : Answer) (w : World) : option World :=
  match tasks w !! t with
  | None => None
  | Some x =>
    match x with
    | Looking _ _ | Locking _ _ | Running _ _ | Binding _ _ _ => command_step t a w x
    | Pooling _ _ | Waiting _ _ _ => block_on t a w x
    | Creating => create_step t w x
    | Retiring _ | RetireLocking _ | RetireProxy _ => destroy_step t w x
    | Returned _ _ => None
    end
  end.

(** The calls on clients and streams change their own part of the table. *)
Definition other_handles (tb tb' : HandleTable) : Prop :=
  table_grows tb tb' /\ engines tb' = engines tb.

(** A connection that a proxy accepted opens its stream with the pool at any
    time, also once the proxy was stopped. *)
Inductive step (pem_reader_iter : list byte -> option (list (list byte))) (w : World) : World -> Prop :=
| step_call t c : tasks w !! t = None -> step pem_reader_iter w (put t (call pem_reader_iter c) w)
| step_advance t a w' : advance t a w = Some w' -> step pem_reader_iter w w'
| step_pool e x k a p :
    entries w !! e = Some x -> NodePool.advance _ k a (pool x) = Some p -> step pem_reader_iter w (update e (set_pool p) w)
| step_serve e x k reference :
    entries w !! e = Some x -> NodePool.tasks (pool x) !! k = None ->
    step pem_reader_iter w (update e (set_pool (NodePool.put _ k (NodePool.call _ (NodePool.CallOpenStream _ reference)) (pool x))) w)
| step_other tb : other_handles (table w) tb -> step pem_reader_iter w (set_table tb w).

(** ** What the pool does under a call *)

(** The calls of the pool that replace its profile: the engine makes them one at
    a time, connections never. *)
Definition changing (z : NodePool.Task ClientConfig) : bool :=
  match z with
  | NodePool.Activating _ _ | NodePool.Storing _ _ _ | NodePool.Numbering _ _ | NodePool.Replacing _ _ _
  | NodePool.Stopping _ | NodePool.Draining _ _ _ | NodePool.StoppingRuntime _ _ _ _ _ => true
  | _ => false
  end.

Definition same_profile (p q : Prepared ClientConfig) : Prop :=
  prepared_default _ q = prepared_default _ p /\ prepared_aliases _ q = prepared_aliases _ p /\
  dom (prepared_nodes _ q) = dom (prepared_nodes _ p).
(** The profile in use is the one prepared. *)
Definition in_use (p : Prepared ClientConfig) (s : PoolState) : Prop :=
  default_node s = prepared_default _ p /\ aliases s = prepared_aliases _ p /\ dom (nodes s) = dom (prepared_nodes _ p).

(** Where a call that blocks finds its call of the pool. *)
Definition activation_runs (l : list (ResolvedNode ClientConfig)) (d : Str) (z : NodePool.Task ClientConfig) (s : PoolState) : Prop :=
  match z with
  | NodePool.Activating _ q | NodePool.Storing _ q _ | NodePool.Numbering _ q | NodePool.Replacing _ q _ =>
    exists p, prepare _ l d = Ok p /\ same_profile p q
  | NodePool.Draining _ _ (Some g) | NodePool.StoppingRuntime _ _ _ _ (Some g) | NodePool.Returned (Ok (OfGeneration g)) =>
    NodePool.generation s = g /\ exists p, prepare _ l d = Ok p /\ in_use p s
  | NodePool.Returned (Err _) => True
  | _ => False
  end.
Definition stop_runs (z : NodePool.Task ClientConfig) (s : PoolState) : Prop :=
  match z with
  | NodePool.Stopping _ => True
  | NodePool.Draining _ _ None | NodePool.StoppingRuntime _ _ _ _ None => nodes s = ∅
  | NodePool.Returned (Ok (OfGeneration g)) => NodePool.generation s = g /\ nodes s = ∅
  | _ => False
  end.
Definition runs (b : Blocking) (z : NodePool.Task ClientConfig) (s : PoolState) : Prop :=
  match b with Activates l d => activation_runs l d z s | Stops | Destroys => stop_runs z s end.

Lemma pool_call_runs b s : runs b (NodePool.call _ (pool_call b)) s.
Proof.
  destruct b as [l d| |]; cbn; try done. destruct (prepare _ l d) as [p|] eqn:Hp; [|done].
  destruct (prepared_nodes _ p !! _); [|done]. by exists p.
Qed.

(** A step of one call of the pool leaves the others where they are. *)
Lemma pool_others k a (p p' : Pool) k' :
  NodePool.advance _ k a p = Some p' -> k' <> k -> NodePool.tasks p' !! k' = NodePool.tasks p !! k'.
Proof.
  intros Hadv Hne.
  pose proof (fun e r h (v : Pool) => proj1 (set_entry_parts _ e r h v)) as Hset.
  revert Hadv.
  unfold NodePool.advance, activate_step, stop_step, stop_state_step, runtime_for_step, NodePool.open_stream_step.
  destruct (NodePool.tasks p !! k) as [z|]; [|done].
  destruct z; try (destruct a as [|[[]|]|[[]|]]); try discriminate;
    repeat match goal with
    | |- match ?x with _ => _ end = Some _ -> _ => destruct x; try discriminate
    end;
    intros [= <-]; cbn; rewrite lookup_insert_ne by done; rewrite ?Hset; cbn; rewrite ?Hset; done.
Qed.

(** A connection never changes the profile in use. *)
Lemma pool_serves k a (p p' : Pool) z :
  NodePool.advance _ k a p = Some p' -> NodePool.tasks p !! k = Some z -> changing z = false ->
  NodePool.state p' = NodePool.state p /\ forall z', NodePool.tasks p' !! k = Some z' -> changing z' = false.
Proof.
  intros Hadv Hz.
  pose proof (fun e r h (v : Pool) => proj2 (set_entry_parts _ e r h v)) as Hset.
  assert (forall (v : Pool) y z', NodePool.tasks (NodePool.put _ k y v) !! k = Some z' -> z' = y) as Hput.
  { intros v y z'. cbn. rewrite lookup_insert_eq. congruence. }
  revert Hadv.
  unfold NodePool.advance, activate_step, stop_step, stop_state_step, runtime_for_step, NodePool.open_stream_step. rewrite Hz.
  destruct z; try (destruct a as [|[[]|]|[[]|]]); try discriminate; intros Hadv; intros Hc; try discriminate Hc; revert Hadv;
    repeat match goal with
    | |- match ?x with _ => _ end = Some _ -> _ => destruct x; try discriminate
    end;
    intros [= <-]; (split; [cbn; rewrite ?Hset; cbn; rewrite ?Hset; done|intros z' ->%Hput; try done]).
  all: try (unfold found; by destruct k0). all: by destruct (_ =? _).
Qed.

Lemma dom_publish g (p : Prepared ClientConfig) heap :
  dom (nodes (publish _ g p heap).1) = dom (prepared_nodes _ p).
Proof.
  apply set_eq. intros key. rewrite !elem_of_dom. split.
  - intros [e (i & entry & Hi & _)%publish_nodes]. exists entry. apply ordered_lookup. by exists i.
  - intros [entry [i Hi]%ordered_lookup]. exists (length heap + i)%nat. apply publish_nodes. by exists i, entry.
Qed.

Lemma same_profile_store p q r : same_profile p q -> same_profile p (store_default _ r q).
Proof.
  intros (H1 & H2 & H3). split_and!; [done..|]. cbn. rewrite <-H3. apply set_eq. intros key. rewrite !elem_of_dom.
  destruct (decide (key = prepared_default _ q)) as [->|Hne]; [by rewrite lookup_alter_eq, fmap_is_Some|by rewrite lookup_alter_ne].
Qed.

(** The call of the pool that an engine's call waits for goes on as it should. *)
Lemma pool_runs b k a (p p' : Pool) z :
  NodePool.advance _ k a p = Some p' -> NodePool.tasks p !! k = Some z -> runs b z (NodePool.state p) ->
  exists z', NodePool.tasks p' !! k = Some z' /\ runs b z' (NodePool.state p').
Proof.
  intros Hadv Hz Hr.
  pose proof (fun e r h (v : Pool) => proj2 (set_entry_parts _ e r h v)) as Hset.
  assert (forall (v : Pool) y, runs b y (NodePool.state v) ->
    exists z', NodePool.tasks (NodePool.put _ k y v) !! k = Some z' /\ runs b z' (NodePool.state (NodePool.put _ k y v))) as Hput.
  { intros v y Hy. exists y. split; [apply lookup_insert_eq|exact Hy]. }
  revert Hadv.
  unfold NodePool.advance, activate_step, stop_step, stop_state_step, runtime_for_step, NodePool.open_stream_step. rewrite Hz.
  destruct z as [q|q r|q|q g| |l [g|]|e r l [g|]| | | | | | | | | |o]; destruct b as [ns d| |]; try done; cbn in Hr.
  all: try (intros [= <-]; apply Hput; cbn; rewrite ?Hset; done).
  all: try (destruct l as [|e l]; [|destruct (NodePool.heap p !! e) as [[al c [r|] [h|]]|]; try done];
    intros [= <-]; apply Hput; cbn; rewrite ?Hset; done).
  - destruct a as [|[[]|]|]; try done; intros [= <-]; by apply Hput.
  - intros [= <-]. apply Hput. cbn. destruct Hr as (p0 & Hp & Hq). exists p0. split; [done|by apply same_profile_store].
  - destruct (publish _ g q (NodePool.heap p)) as [s h] eqn:Hpub. intros [= <-]. apply Hput. cbn.
    pose proof (dom_publish g q (NodePool.heap p)) as Hdom. rewrite Hpub in Hdom.
    destruct Hr as (p0 & Hp & H1 & H2 & H3). injection Hpub as <- <-. split; [done|]. exists p0. split; [done|].
    split_and!; [done|done|]. by rewrite <-H3.
Qed.

(** Stopping a pool that has no profile leaves it without one. *)
Lemma pool_stays_empty k a (p p' : Pool) z :
  NodePool.advance _ k a p = Some p' -> NodePool.tasks p !! k = Some z -> stop_runs z (NodePool.state p) \/ changing z = false ->
  nodes (NodePool.state p) = ∅ -> nodes (NodePool.state p') = ∅.
Proof.
  intros Hadv Hz [Hr|Hc] He; [|destruct (pool_serves _ _ _ _ _ Hadv Hz Hc) as [-> _]; done].
  pose proof (fun e r h (v : Pool) => proj2 (set_entry_parts _ e r h v)) as Hset.
  revert Hadv.
  unfold NodePool.advance, activate_step, stop_step, stop_state_step, runtime_for_step, NodePool.open_stream_step. rewrite Hz.
  destruct z as [q|q r|q|q g| |l [g|]|e r l [g|]| | | | | | | | | |o]; try done; try (intros [= <-]; cbn; rewrite ?Hset; done).
  destruct l as [|e l]; [|destruct (NodePool.heap p !! e) as [[al c [r|] [h|]]|]; try done];
    intros [= <-]; cbn; rewrite ?Hset; done.
Qed.

(** A pool without a profile whose calls have returned has stopped every runtime
    it started. *)
Definition idle (p : Pool) : Prop := forall k z, NodePool.tasks p !! k = Some z -> exists o, z = NodePool.Returned o.
Lemma idle_stopped (p : Pool) :
  NodePool.pool_ok _ p -> idle p -> nodes (NodePool.state p) = ∅ ->
  forall r, (r < NodePool.started p)%nat -> r ∈ NodePool.stopped p.
Proof.
  intros [_ _ _ _ [_ _ Hfound _] Howned _] Hidle Hn r Hr. destruct (decide (r ∈ NodePool.stopped p)) as [|Hs]; [done|].
  destruct (Hfound r Hr Hs) as [[e|t] Hl]; cbn in Hl.
  - apply bind_Some in Hl as (entry & He & Hrt). destruct (Howned e entry r He Hrt) as [[key Hkey]|(t & z & Hz & He')].
    + by rewrite Hn in Hkey.
    + destruct (Hidle t z Hz) as [o ->]. by apply elem_of_nil in He'.
  - apply bind_Some in Hl as (z & Hz & Hh). by destruct (Hidle t z Hz) as [o ->].
Qed.

(** ** The invariant *)

(** The entry whose mutex a call has. *)
Definition holding (y : Task) : option nat :=
  match y with Running e _ | Pooling e _ | Waiting e _ _ | Binding e _ _ | RetireProxy e => Some e | _ => None end.
Definition destroying (y : Task) : bool :=
  match y with RetireProxy _ | Pooling _ Destroys | Waiting _ _ Destroys => true | _ => false end.
(** What the holder of the mutex knows of the entry. *)
Definition engaged (y : Task) (X : EngineEntry) : Prop :=
  match y with
  | Pooling _ _ => proxy X = None
  | Waiting _ k b => proxy X = None /\ exists z, NodePool.tasks (pool X) !! k = Some z /\ runs b z (NodePool.state (pool X))
  | _ => True
  end.
Definition unnamed (w : World) (e : nat) : Prop := forall h, engines (table w) !! h <> Some e.
(** What a call knows of an entry it has still to lock. *)
Definition found_entry (w : World) (y : Task) : Prop :=
  match y with
  | Locking e _ => (e < length (entries w))%nat
  | RetireLocking e => (e < length (entries w))%nat /\ unnamed w e
  | _ => True
  end.

Record entry_ok (n : nat) (w : World) (e : nat) (X : EngineEntry) : Prop := {
  eo_pool : exists m, (m <= n)%nat /\ nsteps (NodePool.step _) m NodePool.initial (pool X);
  eo_holder : forall t, holder X = Some t -> exists y, tasks w !! t = Some y /\ holding y = Some e;
  eo_changing : forall k z, NodePool.tasks (pool X) !! k = Some z -> changing z = true ->
    exists t b, tasks w !! t = Some (Waiting e k b);
  eo_destroyed : destroyed X = true -> unnamed w e /\ (holder X = None -> proxy X = None /\ nodes (NodePool.state (pool X)) = ∅)
}.
Record task_ok (w : World) (t : nat) (y : Task) : Prop := {
  to_holding : forall e, holding y = Some e -> exists X, entries w !! e = Some X /\ holder X = Some t /\
    destroyed X = destroying y /\ engaged y X;
  to_found : found_entry w y
}.
Record engines_ok (n : nat) (w : World) : Prop := {
  en_table : forall h e, engines (table w) !! h = Some e -> h <= next_handle (table w) /\ (e < length (entries w))%nat;
  en_once : forall h h' e, engines (table w) !! h = Some e -> engines (table w) !! h' = Some e -> h = h';
  en_entries : forall e X, entries w !! e = Some X -> entry_ok n w e X;
  en_tasks : forall t y, tasks w !! t = Some y -> task_ok w t y
}.

Lemma engines_initial : engines_ok 0 initial.
Proof. split; try done. Qed.

Lemma pool_step_reach n m (p p' : Pool) :
  (m <= n)%nat -> nsteps (NodePool.step _) m NodePool.initial p -> NodePool.step _ p p' ->
  exists m', (m' <= S n)%nat /\ nsteps (NodePool.step _) m' NodePool.initial p'.
Proof. intros Hm Hn Hs. exists (S m). split; [lia|by eapply nsteps_r]. Qed.

(** *** A call that has no mutex, before and after

    It may change the table, as long as no entry gets another handle. *)
Lemma engine_quiet_ok n w t y tb :
  engines_ok n w -> (forall z, tasks w !! t = Some z -> holding z = None) -> holding y = None ->
  next_handle (table w) <= next_handle tb ->
  (forall h e, engines tb !! h = Some e -> engines (table w) !! h = Some e) ->
  found_entry (set_table tb w) y -> engines_ok (S n) (put t y (set_table tb w)).
Proof.
  intros [Htb Honce Hen Hta] Hz Hy Hnext Hsub Hf. split; cbn.
  - intros h e Hh. destruct (Htb h e (Hsub h e Hh)). split; [lia|done].
  - intros h h' e Hh Hh'. apply (Honce h h' e); auto.
  - intros e X HX. destruct (Hen e X HX) as [(m & Hm & Hn) Hho Hch Hde]. split.
    + exists m. split; [lia|done].
    + intros t' Ht'. destruct (Hho t' Ht') as (z & Ht & He). exists z. split; [|done]. cbn. rewrite lookup_insert_ne; [done|].
      intros <-. rewrite (Hz z Ht) in He. done.
    + intros k z Hk Hc. destruct (Hch k z Hk Hc) as (t' & b & Ht). exists t', b. cbn. rewrite lookup_insert_ne; [done|].
      intros <-. by specialize (Hz _ Ht).
    + intros Hd. destruct (Hde Hd) as [Hu Hrest]. split; [|done]. intros h Hh. apply (Hu h). by apply Hsub.
  - intros t' z [[<- <-]|[Hne Ht]]%lookup_insert_Some.
    + split; [by rewrite Hy|]. exact Hf.
    + destruct (Hta t' z Ht) as [H1 H2]. split; [exact H1|]. destruct z; try done. destruct H2 as [H2 H3]. split; [done|].
      intros h Hh. apply (H3 h). by apply Hsub.
Qed.

Section entry.
Context (n : nat) (w : World) (e : nat) (X : EngineEntry).
Hypotheses (Hok : engines_ok n w) (HX : entries w !! e = Some X).

Lemma holder_of t x : tasks w !! t = Some x -> holding x = Some e -> holder X = Some t.
Proof. intros Ht Hh. destruct (to_holding _ _ _ (en_tasks _ _ Hok t x Ht) e Hh) as (X0 & HX0 & Hho & _). congruence. Qed.
(** Only the call that waits for it changes the profile of a pool. *)
Lemma changing_waits k z : NodePool.tasks (pool X) !! k = Some z -> changing z = true ->
  exists t b, tasks w !! t = Some (Waiting e k b) /\ holder X = Some t.
Proof.
  intros Hk Hc. destruct (eo_changing _ _ _ _ (en_entries _ _ Hok e X HX) k z Hk Hc) as (t & b & Ht). exists t, b.
  split; [done|]. by apply (holder_of t (Waiting e k b)).
Qed.
Lemma changing_own t x k z : tasks w !! t = Some x -> holding x = Some e \/ holder X = None ->
  NodePool.tasks (pool X) !! k = Some z -> changing z = true -> exists b, x = Waiting e k b.
Proof.
  intros Ht Hx Hk Hc. destruct (changing_waits k z Hk Hc) as (t' & b & Ht' & Hh). exists b.
  destruct Hx as [Hx|Hx]; [|congruence]. assert (t' = t) as -> by (pose proof (holder_of t x Ht Hx); congruence). congruence.
Qed.

(** *** A call that has the mutex before or after *)
Lemma own_ok t x y X' :
  tasks w !! t = Some x -> holding x = Some e \/ holding x = None /\ holder X = None ->
  (forall e', holding y = Some e' -> e' = e) -> holder X' = (if holding y then Some t else None) ->
  (exists m, (m <= S n)%nat /\ nsteps (NodePool.step _) m NodePool.initial (pool X')) ->
  (forall k z, NodePool.tasks (pool X') !! k = Some z -> changing z = true -> exists b, y = Waiting e k b) ->
  (holding y = Some e -> destroyed X' = destroying y /\ engaged y X') ->
  (destroyed X' = true -> unnamed w e /\ (holding y = None -> proxy X' = None /\ nodes (NodePool.state (pool X')) = ∅)) ->
  (forall w', found_entry w' y) -> engines_ok (S n) (put t y (set_entries (<[e := X']> (entries w)) w)).
Proof.
  intros Ht Hx Hye HX' Hp Hch Hy Hd Hf. pose proof Hok as [Htb Honce Hen Hta].
  pose proof (lookup_lt_Some _ _ _ HX) as Hlt. split; cbn.
  - intros h e' Hh. rewrite length_insert. by apply Htb.
  - exact Honce.
  - intros e' Y [(<- & <- & _)|[Hne HY]]%list_lookup_insert_Some.
    + split; [done| | |].
      * intros t' Ht'. rewrite HX' in Ht'. destruct (holding y) as [e'|] eqn:Hhy; [|done]. injection Ht' as <-.
        exists y. cbn. rewrite lookup_insert_eq. split; [done|]. by rewrite Hhy, (Hye e' eq_refl).
      * intros k z Hk Hc. destruct (Hch k z Hk Hc) as [b ->]. exists t, b. cbn. by rewrite lookup_insert_eq.
      * intros Hde. destruct (Hd Hde) as [Hu Hr]. split; [done|]. intros Hn. apply Hr. rewrite HX' in Hn. by destruct (holding y).
    + destruct (Hen e' Y HY) as [(m & Hm & Hs) Hho Hc Hde]. split; [exists m; split; [lia|done]| | |done].
      * intros t' Ht'. destruct (Hho t' Ht') as (z & Hz & He). exists z. split; [|done]. cbn. rewrite lookup_insert_ne; [done|].
        intros <-. assert (z = x) as -> by congruence. destruct Hx as [?|[? _]]; congruence.
      * intros k z Hk Hcz. destruct (Hc k z Hk Hcz) as (t' & b & Hw). exists t', b. cbn. rewrite lookup_insert_ne; [done|].
        intros <-. assert (x = Waiting e' k b) as -> by congruence. destruct Hx as [?|[? _]]; cbn in *; congruence.
  - intros t' z [[<- <-]|[Hne Hz]]%lookup_insert_Some.
    + split; [|apply Hf]. intros e' He'. pose proof (Hye e' He') as ->. exists X'. cbn.
      rewrite list_lookup_insert_eq by done. rewrite HX', He'. by destruct (Hy He').
    + destruct (Hta t' z Hz) as [H1 H2]. split.
      * intros e' He'. destruct (H1 e' He') as (Y & HY & Hr). exists Y. cbn. rewrite list_lookup_insert_ne; [done|].
        intros <-. pose proof (holder_of t' z Hz He') as Hh. destruct Hx as [Hx|[_ Hx]]; [|congruence].
        pose proof (holder_of t x Ht Hx). congruence.
      * destruct z; try done; cbn in *; rewrite length_insert; done.
Qed.

(** *** The pool moves on by itself *)
Lemma pool_moves p :
  (exists m, (m <= S n)%nat /\ nsteps (NodePool.step _) m NodePool.initial p) ->
  (forall k z, NodePool.tasks p !! k = Some z -> changing z = true ->
     exists z', NodePool.tasks (pool X) !! k = Some z' /\ changing z' = true) ->
  (forall t k b z, tasks w !! t = Some (Waiting e k b) -> NodePool.tasks (pool X) !! k = Some z ->
     runs b z (NodePool.state (pool X)) -> exists z', NodePool.tasks p !! k = Some z' /\ runs b z' (NodePool.state p)) ->
  (holder X = None -> NodePool.state p = NodePool.state (pool X)) ->
  engines_ok (S n) (set_entries (<[e := set_pool p X]> (entries w)) w).
Proof.
  intros Hp Hch Hrun Hst. pose proof Hok as [Htb Honce Hen Hta]. pose proof (lookup_lt_Some _ _ _ HX) as Hlt. split; cbn.
  - intros h e' Hh. rewrite length_insert. by apply Htb.
  - exact Honce.
  - intros e' Y [(<- & <- & _)|[Hne HY]]%list_lookup_insert_Some.
    + destruct (Hen e X HX) as [_ Hho Hc Hde]. split; [done|exact Hho| |].
      * intros k z Hk Hcz. destruct (Hch k z Hk Hcz) as (z' & Hz' & Hc'). by apply (Hc k z').
      * intros Hd. destruct (Hde Hd) as [Hu Hr]. split; [done|]. cbn. intros Hn. rewrite (Hst Hn). by apply Hr.
    + destruct (Hen e' Y HY) as [(m & Hm & Hs) Hho Hc Hde]. split; [exists m; split; [lia|done]|done..].
  - intros t z Hz. destruct (Hta t z Hz) as [H1 H2]. split.
    + intros e' He'. destruct (H1 e' He') as (Y & HY & Hho & Hd & Heng). cbn. destruct (decide (e' = e)) as [->|Hne].
      * exists (set_pool p X). rewrite list_lookup_insert_eq by done. assert (Y = X) as -> by congruence.
        split_and!; [done..|]. destruct z; try done. cbn in *. destruct Heng as (Hpr & z' & Hk & Hr). split; [done|].
        simplify_eq. by eapply Hrun.
      * exists Y. by rewrite list_lookup_insert_ne.
    + destruct z; try done; cbn in *; rewrite length_insert; done.
Qed.
End entry.

Lemma update_insert e f w X : entries w !! e = Some X -> update e f w = set_entries (<[e := f X]> (entries w)) w.
Proof. intros HX. unfold update. by rewrite (alter_insert f e X). Qed.

Lemma update_update e f g w X : entries w !! e = Some X ->
  update e g (update e f w) = set_entries (<[e := g (f X)]> (entries w)) w.
Proof.
  intros HX. pose proof (lookup_lt_Some _ _ _ HX). rewrite (update_insert e f w X) by done. unfold update, set_entries. cbn.
  rewrite (alter_insert g e (f X)) by (by rewrite list_lookup_insert_eq). by rewrite list_insert_insert_eq.
Qed.

Lemma pool_reach n w e X p : engines_ok n w -> entries w !! e = Some X -> NodePool.step _ (pool X) p ->
  exists m, (m <= S n)%nat /\ nsteps (NodePool.step _) m NodePool.initial p.
Proof. intros Hok HX Hs. destruct (eo_pool _ _ _ _ (en_entries _ _ Hok e X HX)) as (m & Hm & Hn). by eapply pool_step_reach. Qed.
Lemma pool_same n w e X : engines_ok n w -> entries w !! e = Some X ->
  exists m, (m <= S n)%nat /\ nsteps (NodePool.step _) m NodePool.initial (pool X).
Proof. intros Hok HX. destruct (eo_pool _ _ _ _ (en_entries _ _ Hok e X HX)) as (m & Hm & Hn). exists m. split; [lia|done]. Qed.

Lemma pool_advances_ok n w e X k a p :
  engines_ok n w -> entries w !! e = Some X -> NodePool.advance _ k a (pool X) = Some p ->
  engines_ok (S n) (update e (set_pool p) w).
Proof.
  intros Hok HX Hadv. rewrite (update_insert _ _ _ X) by done.
  assert (exists z, NodePool.tasks (pool X) !! k = Some z) as [z Hz].
  { unfold NodePool.advance in Hadv. destruct (NodePool.tasks (pool X) !! k) as [z|]; [by exists z|done]. }
  apply pool_moves; [done|done|..].
  - eapply pool_reach; [done|done|by eapply NodePool.step_advance].
  - intros k' z' Hk' Hc. destruct (decide (k' = k)) as [->|Hne].
    + exists z. split; [done|]. destruct (changing z) eqn:Hcz; [done|].
      destruct (pool_serves _ _ _ _ _ Hadv Hz Hcz) as [_ Hs]. specialize (Hs z' Hk'). congruence.
    + exists z'. split; [|done]. by rewrite <-(pool_others _ _ _ _ k' Hadv).
  - intros t k' b z' Ht Hz' Hr. destruct (decide (k' = k)) as [->|Hne].
    + by apply (pool_runs b k a (pool X) p z').
    + exists z'. rewrite (pool_others _ _ _ _ k' Hadv) by done. split; [done|]. destruct (changing z) eqn:Hc.
      * destruct (changing_own n w e X Hok HX t _ k z Ht (or_introl eq_refl) Hz Hc) as [b' [= ? ?]]. congruence.
      * by destruct (pool_serves _ _ _ _ _ Hadv Hz Hc) as [-> _].
  - intros Hno. destruct (changing z) eqn:Hc; [|by apply (pool_serves _ _ _ _ _ Hadv Hz Hc)].
    destruct (changing_waits n w e X Hok HX k z Hz Hc) as (t & b & _ & Hh). congruence.
Qed.

Lemma pool_serve_ok n w e X k reference :
  engines_ok n w -> entries w !! e = Some X -> NodePool.tasks (pool X) !! k = None ->
  engines_ok (S n)
    (update e (set_pool (NodePool.put _ k (NodePool.call _ (NodePool.CallOpenStream _ reference)) (pool X))) w).
Proof.
  intros Hok HX Hk. rewrite (update_insert _ _ _ X) by done. apply pool_moves; [done|done|..|done].
  - eapply pool_reach; [done|done|by apply NodePool.step_call].
  - intros k' z Hz Hc. cbn in Hz. apply lookup_insert_Some in Hz as [[<- <-]|[Hne Hz]]; [done|by exists z].
  - intros t k' b z Ht Hz Hr. exists z. cbn. rewrite lookup_insert_ne; [done|]. intros <-. congruence.
Qed.

Definition standing (w : World) (t e : nat) (X : EngineEntry) (x : Task) : Prop :=
  tasks w !! t = Some x /\ entries w !! e = Some X /\ (holding x = Some e \/ holding x = None /\ holder X = None).
(** What a call does that does not touch the pool. *)
Lemma plain_ok n w t e X X' x y :
  engines_ok n w -> standing w t e X x -> (forall e', holding y = Some e' -> e' = e) ->
  holder X' = (if holding y then Some t else None) -> pool X' = pool X -> (forall k b, x <> Waiting e k b) ->
  (holding y = Some e -> destroyed X' = destroying y /\ engaged y X') ->
  (destroyed X' = true -> unnamed w e /\ (holding y = None -> proxy X' = None /\ nodes (NodePool.state (pool X)) = ∅)) ->
  (forall w', found_entry w' y) -> engines_ok (S n) (put t y (set_entries (<[e := X']> (entries w)) w)).
Proof.
  intros Hok (Ht & HX & Hx) Hy Hho Hp Hno Heng Hd Hf. apply (own_ok n w e X Hok HX t x y X'); try done; rewrite ?Hp; try done.
  - by apply (pool_same n w e).
  - intros k z Hk Hc. destruct (changing_own n w e X Hok HX t x k z Ht) as [b Hb]; [destruct Hx as [?|[_ ?]]; auto|done|done|].
    by destruct (Hno k b).
Qed.
Lemma holding_stands n w t e x : engines_ok n w -> tasks w !! t = Some x -> holding x = Some e ->
  exists X, standing w t e X x /\ holder X = Some t /\ destroyed X = destroying x /\ engaged x X.
Proof.
  intros Hok Ht Hh. destruct (to_holding _ _ _ (en_tasks _ _ Hok t x Ht) e Hh) as (X & HX & Hr). exists X. split; [|done].
  split_and!; auto.
Qed.
(** The end of a command. *)
Lemma finish_ok n w t e X f x status out :
  engines_ok n w -> standing w t e X x -> destroyed (f X) = false -> pool (f X) = pool X -> (forall k b, x <> Waiting e k b) ->
  engines_ok (S n) (finish t e status out (update e f w)).
Proof.
  intros Hok Hst Hd Hp Hno. pose proof Hst as (Ht & HX & Hx). unfold finish. rewrite (update_update _ _ _ _ X) by done.
  apply (plain_ok n w t e X _ x); try done. intros Hde. cbn in Hde. congruence.
Qed.
Lemma same_world w e X : entries w !! e = Some X -> set_entries (<[e := X]> (entries w)) w = w.
Proof. intros HX. rewrite list_insert_id by done. by destruct w. Qed.
Lemma finish_same n w t e X x status out :
  engines_ok n w -> standing w t e X x -> destroyed X = false -> (forall k b, x <> Waiting e k b) ->
  engines_ok (S n) (finish t e status out w).
Proof.
  intros Hok Hst Hd Hno. pose proof (finish_ok n w t e X (fun X => X) x status out Hok Hst Hd eq_refl Hno) as Hf.
  destruct Hst as (_ & HX & _). rewrite (update_insert _ _ _ X), same_world in Hf by done. exact Hf.
Qed.

(** *** Every step keeps the invariant *)
Lemma quiet_put n w t y :
  engines_ok n w -> (forall z, tasks w !! t = Some z -> holding z = None) -> holding y = None -> found_entry w y ->
  engines_ok (S n) (put t y w).
Proof. intros Hok Hz Hy Hf. by apply (engine_quiet_ok n w t y (table w)). Qed.

Lemma run_command_ok n w t e c a X w' :
  engines_ok n w -> tasks w !! t = Some (Running e c) -> entries w !! e = Some X ->
  run_command t e c a X w = Some w' -> engines_ok (S n) w'.
Proof.
  intros Hok Ht HX Hrun. destruct (holding_stands n w t e _ Hok Ht eq_refl) as (X0 & Hst & Hho & Hd & _).
  assert (X0 = X) as -> by (destruct Hst as (_ & ? & _); congruence). cbn in Hd.
  assert (forall status out, engines_ok (S n) (finish t e status out w)) as Hfin.
  { intros status out. by apply (finish_same n w t e X _ _ _ Hok Hst). }
  assert (forall y, holding y = Some e -> destroying y = false -> (forall X', proxy X' = None -> engaged y X') ->
    (forall v, found_entry v y) -> engines_ok (S n) (put t y (update e stop_proxy w))) as Hstop.
  { intros y Hy Hde Heng Hf. rewrite (update_insert _ _ _ X) by done. apply (plain_ok n w t e X _ _ y Hok Hst).
    - congruence.
    - by rewrite Hy.
    - done.
    - done.
    - intros _. split; [by rewrite Hde|by apply Heng].
    - cbn. congruence.
    - done. }
  destruct c as [ns d|reference| |port policy|]; cbn in Hrun.
  - apply Some_inj in Hrun as <-. by apply Hstop.
  - destruct a; try done. apply Some_inj in Hrun as <-. by destruct (find_node _ _).
  - apply Some_inj in Hrun as <-. by apply Hstop.
  - destruct (proxy X) eqn:Hpx; [apply Some_inj in Hrun as <-; apply Hfin|]. destruct a; try done. apply Some_inj in Hrun as <-.
    destruct (is_default_online _); [|apply Hfin]. rewrite <-(same_world w e X HX).
    apply (plain_ok n w t e X X _ _ Hok Hst); cbn; try done; congruence.
  - apply Some_inj in Hrun as <-. by apply (finish_ok n w t e X stop_proxy _ _ _ Hok Hst).
Qed.

Lemma engine_command_step_ok n w t a x w' :
  engines_ok n w -> tasks w !! t = Some x -> command_step t a w x = Some w' -> engines_ok (S n) w'.
Proof.
  intros Hok Ht Hstep. destruct x as [|h c|e c|e c|e b|e k b|e port policy| | | |]; try done; cbn in Hstep.
  - apply Some_inj in Hstep as <-. assert (forall z, tasks w !! t = Some z -> holding z = None) as Hz.
    { intros z Hz. by simplify_eq. }
    destruct (engines (table w) !! h) as [e|] eqn:Hh; [|by apply quiet_put]. apply quiet_put; try done.
    by apply (en_table _ _ Hok h).
  - destruct (entries w !! e) as [[p d px [|]]|] eqn:HX; try done. apply Some_inj in Hstep as <-.
    destruct d; [apply quiet_put; try done; intros z Hz; by simplify_eq|]. rewrite (update_insert _ _ _ _ HX).
    apply (plain_ok n w t e _ _ _ _ Hok (conj Ht (conj HX (or_intror (conj eq_refl eq_refl))))); cbn; try done. congruence.
  - destruct (entries w !! e) as [X|] eqn:HX; [|done]. by apply (run_command_ok n w t e c a X).
  - destruct (holding_stands n w t e _ Hok Ht eq_refl) as (X & Hst & Hho & Hd & _). cbn in Hd.
    destruct a as [| | |[address|]]; try done; apply Some_inj in Hstep as <-.
    + by apply (finish_ok n w t e X _ _ _ _ Hok Hst).
    + by apply (finish_same n w t e X _ _ _ Hok Hst).
Qed.

Lemma block_on_ok n w t a x w' :
  engines_ok n w -> tasks w !! t = Some x -> block_on t a w x = Some w' -> engines_ok (S n) w'.
Proof.
  intros Hok Ht Hstep. destruct x as [|h c|e c|e c|e b|e k b|e port policy| | | |]; try done; cbn in Hstep;
    destruct (holding_stands n w t e _ Hok Ht eq_refl) as (X & Hst & Hho & Hd & Heng); destruct Hst as (_ & HX & Hx);
    rewrite HX in Hstep; cbn in Hstep, Heng.
  - destruct a as [|k| |]; try done. destruct (NodePool.tasks (pool X) !! k) eqn:Hk; [done|]. apply Some_inj in Hstep as <-.
    rewrite (update_insert _ _ _ X) by done. apply (own_ok n w e X Hok HX t _ _ _ Ht Hx); cbn; try done.
    + congruence.
    + eapply pool_reach; [done|done|by apply NodePool.step_call].
    + intros k' z [[<- <-]|[Hne Hz]]%lookup_insert_Some Hc; [by exists b|].
      by destruct (changing_own n w e X Hok HX t _ k' z Ht (or_introl eq_refl) Hz Hc).
    + intros _. split; [done|]. split; [done|]. exists (NodePool.call _ (pool_call b)). rewrite lookup_insert_eq.
      split; [done|]. apply pool_call_runs.
    + intros Hde. split; [|done]. by apply (eo_destroyed _ _ _ _ (en_entries _ _ Hok e X HX)).
  - destruct Heng as (Hpx & z & Hz & Hr). rewrite Hz in Hstep. destruct z as [| | | | | | | | | | | | | | | |o]; try done.
    destruct (pool_reply b o) as [[status out]|] eqn:Hrep; [|done]. apply Some_inj in Hstep as <-. unfold finish.
    rewrite (update_insert _ _ _ X) by done. apply (own_ok n w e X Hok HX t _ _ _ Ht Hx); cbn; try done.
    + by apply (pool_same n w e).
    + intros k' z Hk' Hc. destruct (changing_own n w e X Hok HX t _ k' z Ht (or_introl eq_refl) Hk' Hc) as [b' [= -> <-]].
      assert (z = NodePool.Returned o) as -> by congruence. done.
    + intros Hde. split; [by apply (eo_destroyed _ _ _ _ (en_entries _ _ Hok e X HX))|]. intros _. split; [done|].
      rewrite Hd in Hde. destruct b; try done. cbn in Hr. destruct o as [[g| |]|]; try done. by destruct Hr.
Qed.

Lemma destroy_step_ok n w t x w' :
  engines_ok n w -> tasks w !! t = Some x -> destroy_step t w x = Some w' -> engines_ok (S n) w'.
Proof.
  intros Hok Ht Hstep. destruct x as [|h c|e c|e c|e b|e k b|e port policy|h|e|e|]; try done; cbn in Hstep.
  - apply Some_inj in Hstep as <-.
    assert (forall z, tasks w !! t = Some z -> holding z = None) as Hz by (intros z Hz; by simplify_eq).
    assert (forall h' e, engines (HandleTable.remove_engine (table w) h) !! h' = Some e -> engines (table w) !! h' = Some e) as Hsub.
    { intros h' e He. cbn in He. by apply lookup_delete_Some in He as [_ ?]. }
    destruct (engines (table w) !! h) as [e|] eqn:Hh; apply engine_quiet_ok; try done.
    split; [by apply (en_table _ _ Hok h)|]. intros h' He. cbn in He. apply lookup_delete_Some in He as [Hne He].
    apply Hne. by apply (en_once _ _ Hok h h' e).
  - destruct (entries w !! e) as [[p d px [|]]|] eqn:HX; try done. apply Some_inj in Hstep as <-.
    rewrite (update_insert _ _ _ _ HX).
    apply (plain_ok n w t e _ _ _ _ Hok (conj Ht (conj HX (or_intror (conj eq_refl eq_refl))))); cbn; try done; [congruence|].
    intros _. split; [|done]. by apply (to_found _ _ _ (en_tasks _ _ Hok t _ Ht)).
  - apply Some_inj in Hstep as <-. destruct (holding_stands n w t e _ Hok Ht eq_refl) as (X & Hst & Hho & Hd & _).
    pose proof Hst as (_ & HX & _). rewrite (update_insert _ _ _ X) by done.
    apply (plain_ok n w t e X _ _ _ Hok Hst); cbn; try done; [congruence|].
    intros _. split; [|done]. by apply (eo_destroyed _ _ _ _ (en_entries _ _ Hok e X HX)).
Qed.

Lemma insert_engine_spec tb v handle tb' : HandleTable.insert_engine tb v = Some (handle, tb') ->
  handle = next_handle tb + 1 /\ next_handle tb' = handle /\ engines tb' = <[handle := v]> (engines tb).
Proof.
  unfold HandleTable.insert_engine. destruct (HandleTable.next tb) as [[m tb0]|] eqn:Hnext; [|done].
  apply next_spec in Hnext as (-> & _ & ->). by intros [= <- <-].
Qed.
Lemma engine_create_step_ok n w t x w' :
  engines_ok n w -> tasks w !! t = Some x -> create_step t w x = Some w' -> engines_ok (S n) w'.
Proof.
  intros Hok Ht Hstep. destruct x; try done. cbn in Hstep. apply Some_inj in Hstep as <-.
  assert (forall z, tasks w !! t = Some z -> holding z = None) as Hz by (intros z Hz; by simplify_eq).
  destruct (HandleTable.insert_engine _ _) as [[handle tb]|] eqn:Hins; [|by apply quiet_put].
  apply insert_engine_spec in Hins as (-> & Hnext & Heng). pose proof Hok as [Htb Honce Hen Hta].
  assert (forall h e, engines tb !! h = Some e -> h = next_handle (table w) + 1 /\ e = length (entries w) \/
    engines (table w) !! h = Some e) as Hin.
  { intros h e. rewrite Heng. intros [[<- <-]|[_ He]]%lookup_insert_Some; [by left|by right]. }
  assert (forall e, (e < length (entries w))%nat -> unnamed w e -> forall h, engines tb !! h <> Some e) as Hun.
  { intros e Hlt Hu h [[_ ->]|He]%Hin; [lia|by apply (Hu h)]. }
  split; cbn.
  - rewrite length_app. cbn. intros h e [[-> ->]|He]%Hin; [lia|]. destruct (Htb h e He). lia.
  - intros h h' e [[-> ->]|He]%Hin [[-> Heq]|He']%Hin; try done.
    + by apply Htb in He' as [_ ?%Nat.lt_irrefl].
    + subst e. by apply Htb in He as [_ ?%Nat.lt_irrefl].
    + by apply (Honce h h' e).
  - intros e X [HX|[HX He]]%lookup_app_Some.
    + destruct (Hen e X HX) as [(m & Hm & Hn) Hho Hch Hde]. split; [exists m; split; [lia|done]|..]; cbn.
      * intros t' Ht'. destruct (Hho t' Ht') as (y & Hy & Hh). exists y. split; [|done]. rewrite lookup_insert_ne; [done|].
        intros <-. by rewrite (Hz y Hy) in Hh.
      * intros k z Hk Hc. destruct (Hch k z Hk Hc) as (t' & b & Hw). exists t', b. rewrite lookup_insert_ne; [done|].
        intros <-. by specialize (Hz _ Hw).
      * intros Hd. destruct (Hde Hd) as [Hu Hr]. split; [|done].
        exact (Hun e (lookup_lt_Some _ _ _ HX) Hu).
    + apply list_lookup_singleton_Some in He as [_ <-]. split; try done. exists 0%nat. split; [lia|constructor].
  - intros t' y [[<- <-]|[Hne Hy]]%lookup_insert_Some; [by split|]. destruct (Hta t' y Hy) as [H1 H2]. split.
    + intros e He. destruct (H1 e He) as (X & HX & Hr). exists X. split; [|done]. by apply lookup_app_l_Some.
    + destruct y; try done; cbn in *; rewrite length_app; [lia|]. destruct H2 as [Hlt Hu]. split; [lia|exact (Hun e Hlt Hu)].
Qed.

Lemma engine_advance_ok n w t a w' : engines_ok n w -> advance t a w = Some w' -> engines_ok (S n) w'.
Proof.
  intros Hok Hadv. unfold advance in Hadv. destruct (tasks w !! t) as [x|] eqn:Ht; [|done].
  destruct x; first [by apply (engine_command_step_ok n w t a _ _ Hok Ht Hadv)|by apply (block_on_ok n w t a _ _ Hok Ht Hadv)|
    by apply (engine_create_step_ok n w t _ _ Hok Ht Hadv)|by apply (destroy_step_ok n w t _ _ Hok Ht Hadv)|done].
Qed.

Lemma engine_call_quiet pem_reader_iter c : holding (call pem_reader_iter c) = None /\ forall w, found_entry w (call pem_reader_iter c).
Proof.
  destruct c; cbn; try done; unfold velum_client_engine_create, velum_client_engine_activate_v1,
    velum_client_engine_node_snapshot_v1, velum_client_engine_stop, velum_client_engine_proxy_start_v1, failed; repeat case_match; done.
Qed.

Lemma step_ok pem_reader_iter n w w' : engines_ok n w -> step pem_reader_iter w w' -> engines_ok (S n) w'.
Proof.
  intros Hok [t c Ht|t a w1 Hadv|e X k a p HX Hadv|e X k reference HX Hk|tb [Hgr Heng]].
  - destruct (engine_call_quiet pem_reader_iter c) as [Hh Hf]. apply quiet_put; [done|intros z Hz; congruence|done|apply Hf].
  - by apply (engine_advance_ok n w t a).
  - by apply (pool_advances_ok n w e X k a).
  - by apply (pool_serve_ok n w e X).
  - pose proof Hok as [Htb Honce Hen Hta]. split; cbn; rewrite ?Heng; [| done| |].
    + intros h e He. destruct (Htb h e He). split; [pose proof (gr_next _ _ Hgr); lia|done].
    + intros e X HX. destruct (Hen e X HX) as [(m & Hm & Hn) Hho Hch Hde]. split; [exists m; split; [lia|done]|done|done|].
      unfold unnamed. cbn. by rewrite Heng.
    + intros t y Hy. destruct (Hta t y Hy) as [H1 H2]. split; [done|]. destruct y; try done. cbn in *. unfold unnamed. cbn. by rewrite Heng.
Qed.
Lemma engine_reach_ok pem_reader_iter n w : nsteps (step pem_reader_iter) n initial w -> engines_ok n w.
Proof.
  revert w. induction n as [|n IH]; intros w Hn; [inversion Hn; subst; apply engines_initial|].
  apply nsteps_inv_r in Hn as (v & Hn & Hs). apply (step_ok pem_reader_iter n v); [by apply IH|done].
Qed.

(** ** A destroyed engine *)
Definition fades (X X' : EngineEntry) : Prop :=
  destroyed X' = true /\ (proxy X = None -> proxy X' = None) /\ NodePool.state (pool X') = NodePool.state (pool X).
(** What calls do to entries that were destroyed. *)
Definition fading (w w' : World) : Prop :=
  forall e X, entries w !! e = Some X -> destroyed X = true -> exists X', entries w' !! e = Some X' /\ fades X X'.
Lemma fading_same w w' : entries w' = entries w -> fading w w'.
Proof. intros Heq e X HX Hd. exists X. by rewrite Heq. Qed.
Lemma fading_trans w w' w'' : fading w w' -> fading w' w'' -> fading w w''.
Proof.
  intros H1 H2 e X HX Hd. destruct (H1 e X HX Hd) as (X1 & HX1 & Hd1 & Hp1 & Hs1).
  destruct (H2 e X1 HX1 Hd1) as (X2 & HX2 & Hd2 & Hp2 & Hs2). exists X2. split; [done|]. split_and!; [done|auto|congruence].
Qed.
Lemma fading_put t y w w' : fading w w' -> fading w (put t y w').
Proof. done. Qed.
Lemma fading_update e f w :
  (forall X, entries w !! e = Some X -> destroyed X = true -> fades X (f X)) -> fading w (update e f w).
Proof.
  intros Hf e' X HX Hd. unfold update. cbn. destruct (decide (e' = e)) as [->|Hne].
  - exists (f X). rewrite list_lookup_alter_eq, HX. split; [done|by apply Hf].
  - exists X. by rewrite list_lookup_alter_ne.
Qed.
Lemma fading_update_all e f w w' : (forall X, destroyed X = true -> fades X (f X)) -> fading w w' -> fading w (update e f w').
Proof. intros Hf Hw. eapply fading_trans; [exact Hw|]. apply fading_update. auto. Qed.
Lemma fading_finish t e status out w w' : fading w w' -> fading w (finish t e status out w').
Proof. intros Hw. apply fading_put, fading_update_all; [done|exact Hw]. Qed.

Lemma command_fades n w t a x w' :
  engines_ok n w -> tasks w !! t = Some x -> command_step t a w x = Some w' -> fading w w'.
Proof.
  intros Hok Ht Hstep. assert (fading w w) as Hsame by (by apply fading_same).
  assert (forall e, fading w (update e stop_proxy w)) as Hstop by (intros e; by apply fading_update_all).
  destruct x as [|h c|e c|e c|e b|e k b|e port policy| | | |]; try done; cbn in Hstep.
  - apply Some_inj in Hstep as <-. by destruct (engines (table w) !! h).
  - destruct (entries w !! e) as [[p d px [|]]|]; try done. apply Some_inj in Hstep as <-.
    destruct d; [done|]. by apply fading_put, fading_update_all.
  - destruct (entries w !! e) as [X|]; [|done]. destruct c as [ns d|reference| |port policy|]; cbn in Hstep.
    + apply Some_inj in Hstep as <-. apply fading_put, Hstop.
    + destruct a; try done. apply Some_inj in Hstep as <-. by destruct (find_node _ _); apply fading_finish.
    + apply Some_inj in Hstep as <-. apply fading_put, Hstop.
    + destruct (proxy X); [apply Some_inj in Hstep as <-; by apply fading_finish|]. destruct a; try done.
      apply Some_inj in Hstep as <-. destruct (is_default_online _); [done|by apply fading_finish].
    + apply Some_inj in Hstep as <-. apply fading_finish, Hstop.
  - destruct a as [| | |[address|]]; try done; apply Some_inj in Hstep as <-; apply fading_finish; [|done].
    apply fading_update. intros X HX Hd. destruct (holding_stands n w t e _ Hok Ht eq_refl) as (Y & (_ & HY & _) & _ & Hdy & _).
    assert (Y = X) as -> by congruence. cbn in Hdy. congruence.
Qed.
Lemma advance_fades n w t a w' : engines_ok n w -> advance t a w = Some w' -> fading w w'.
Proof.
  intros Hok Hadv. unfold advance in Hadv. destruct (tasks w !! t) as [x|] eqn:Ht; [|done].
  assert (fading w w) as Hsame by (by apply fading_same).
  destruct x as [|h c|e c|e c|e b|e k b|e port policy|h|e|e|]; try (by apply (command_fades n w t a _ w' Hok Ht)); try done; cbn in Hadv.
  - apply Some_inj in Hadv as <-. destruct (HandleTable.insert_engine _ _) as [[handle tb]|]; [|done].
    intros e X HX Hd. exists X. split; [by apply lookup_app_l_Some|done].
  - destruct a as [|k| |]; try done. destruct (entries w !! e) as [X|] eqn:HX; [|done]. destruct (NodePool.tasks (pool X) !! k); [done|].
    apply Some_inj in Hadv as <-. apply fading_put, fading_update. intros Y HY Hd. assert (Y = X) as -> by congruence. done.
  - destruct (entries w !! e ≫= _) as [[]|]; try done. destruct (pool_reply b o) as [[status out]|]; [|done].
    apply Some_inj in Hadv as <-. by apply fading_finish.
  - apply Some_inj in Hadv as <-. by destruct (engines (table w) !! h).
  - destruct (entries w !! e) as [[p d px [|]]|]; try done. apply Some_inj in Hadv as <-. by apply fading_put, fading_update_all.
  - apply Some_inj in Hadv as <-. by apply fading_put, fading_update_all.
Qed.

Definition gone (w : World) (e : nat) : Prop :=
  exists X, entries w !! e = Some X /\ destroyed X = true /\ proxy X = None /\ nodes (NodePool.state (pool X)) = ∅.
Lemma fading_gone w w' e : fading w w' -> gone w e -> gone w' e.
Proof.
  intros Hf (X & HX & Hd & Hp & Hn). destruct (Hf e X HX Hd) as (X' & HX' & Hd' & Hp' & Hs). exists X'.
  split_and!; [done|done|auto|by rewrite Hs].
Qed.
Lemma gone_step pem_reader_iter n w w' e : engines_ok n w -> step pem_reader_iter w w' -> gone w e -> gone w' e.
Proof.
  intros Hok [t c Ht|t a w1 Hadv|e' X k a p HX Hadv|e' X k reference HX Hk|tb Htb] Hg; [done|..|done].
  - apply (fading_gone w); [|done]. by apply (advance_fades n w t a).
  - destruct Hg as (Y & HY & Hd & Hp & Hn). unfold gone, update. cbn. destruct (decide (e' = e)) as [->|Hne].
    + assert (Y = X) as -> by congruence. exists (set_pool p X). rewrite list_lookup_alter_eq, HX. split_and!; [done..|]. cbn.
      destruct (NodePool.tasks (pool X) !! k) as [z|] eqn:Hz; [|unfold NodePool.advance in Hadv; by rewrite Hz in Hadv].
      apply (pool_stays_empty k a (pool X) p z Hadv Hz); [|done]. destruct (changing z) eqn:Hc; [left|by right].
      destruct (changing_waits n w e X Hok HX k z Hz Hc) as (t & b & Ht & _).
      destruct (holding_stands n w t e _ Hok Ht eq_refl) as (Y & (_ & HY' & _) & _ & Hdy & _ & z' & Hz' & Hr).
      assert (Y = X) as -> by congruence. assert (z' = z) as -> by congruence. rewrite Hd in Hdy. by destruct b.
    + exists Y. by rewrite list_lookup_alter_ne.
  - apply (fading_gone w); [|done]. apply fading_update. intros Y HY Hd. assert (Y = X) as -> by congruence. done.
Qed.

(** What a call that blocked on the pool leaves when it returns. *)
Definition answers (b : Blocking) (status : VelumControlStatus.t) (out : Value) (s : PoolState) : Prop :=
  match b, out with
  | Activates l d, GenerationValue g =>
    status = VelumControlStatus.Ok /\ NodePool.generation s = g /\ exists p, prepare _ l d = Ok p /\ in_use p s
  | Activates _ _, NoValue => status <> VelumControlStatus.Ok
  | Stops, GenerationValue g => status = VelumControlStatus.Ok /\ NodePool.generation s = g /\ nodes s = ∅
  | Destroys, NoValue => status = VelumControlStatus.Ok /\ nodes s = ∅
  | _, _ => False
  end.
Lemma pool_reply_answers b o s status out :
  runs b (NodePool.Returned o) s -> pool_reply b o = Some (status, out) -> answers b status out s.
Proof.
  destruct b, o as [[g| |]|error]; cbn; try done; intros Hr [= <- <-]; cbn; try naive_solver.
  by destruct error.
Qed.
Lemma returns n w t e k b a w' :
  engines_ok n w -> tasks w !! t = Some (Waiting e k b) -> advance t a w = Some w' ->
  exists X status out, entries w' !! e = Some X /\ proxy X = None /\ holder X = None /\ destroyed X = destroying (Waiting e k b) /\
    tasks w' !! t = Some (Returned status out) /\ answers b status out (NodePool.state (pool X)).
Proof.
  intros Hok Ht Hadv. destruct (holding_stands n w t e _ Hok Ht eq_refl) as (X & (_ & HX & _) & _ & Hd & Hpx & z & Hz & Hr).
  unfold advance in Hadv. rewrite Ht in Hadv. unfold block_on in Hadv. rewrite HX in Hadv. cbn in Hadv. rewrite Hz in Hadv.
  destruct z as [| | | | | | | | | | | | | | | |o]; try done. destruct (pool_reply b o) as [[status out]|] eqn:Hrep; [|done].
  apply Some_inj in Hadv as <-. exists (hold None X), status, out. unfold finish, update. cbn.
  rewrite list_lookup_alter_eq, HX, lookup_insert_eq. split_and!; try done. by apply (pool_reply_answers b o).
Qed.

(** The mutex of an engine makes the answers of its calls exact: when an
    activation reports a generation, that is the generation of the pool and its
    profile is the one that was handed in, with its default node; when a stop
    reports a generation, the pool has no profile; an activation that failed
    reports why.  Either way the proxy of the engine is gone. *)
Theorem engine_answers_exact pem_reader_iter n w t e k b a w' :
  nsteps (step pem_reader_iter) n initial w -> tasks w !! t = Some (Waiting e k b) -> advance t a w = Some w' ->
  exists X status out, entries w' !! e = Some X /\ proxy X = None /\ holder X = None /\
    tasks w' !! t = Some (Returned status out) /\ answers b status out (NodePool.state (pool X)).
Proof.
  intros Hn Ht Hadv. destruct (returns n w t e k b a w' (engine_reach_ok _ _ _ Hn) Ht Hadv) as (X & status & out & H1 & H2 & H3 & _ & H5 & H6).
  by exists X, status, out.
Qed.

(** Destroying an engine is final: once the call has returned, no handle stands
    for the engine, it has no proxy and its pool no profile, and this never
    changes again, whatever calls were waiting for it, whatever other handles
    are made or removed, and whatever the connections of its proxy still do;
    a command that found the engine before is refused; and once the calls of
    the pool have returned, every runtime the engine ever started is
    stopped. *)
Theorem engine_destroy_final pem_reader_iter n w t e k a w1 m w2 :
  nsteps (step pem_reader_iter) n initial w -> tasks w !! t = Some (Waiting e k Destroys) -> advance t a w = Some w1 ->
  nsteps (step pem_reader_iter) m w1 w2 -> N.of_nat (S (n + m)) < U64_MAX - 1 ->
  tasks w1 !! t = Some (Returned VelumControlStatus.Ok NoValue) /\
  (forall h, engines (table w2) !! h <> Some e) /\
  (forall t' c a' w3, tasks w2 !! t' = Some (Locking e c) -> advance t' a' w2 = Some w3 ->
     tasks w3 !! t' = Some (Returned VelumControlStatus.InvalidHandle NoValue)) /\
  exists X, entries w2 !! e = Some X /\ proxy X = None /\ nodes (NodePool.state (pool X)) = ∅ /\
    (idle (pool X) -> forall r, (r < NodePool.started (pool X))%nat -> r ∈ NodePool.stopped (pool X)).
Proof.
  intros Hn Ht Hadv Hm Hmax. pose proof (engine_reach_ok _ _ _ Hn) as Hok.
  destruct (returns n w t e k _ a w1 Hok Ht Hadv) as (X & status & out & HX & Hpx & _ & Hd & Hret & Hans).
  assert (engines_ok (S n + m) w2 /\ gone w2 e) as [Hok2 (X2 & HX2 & Hd2 & Hpx2 & Hn2)].
  { assert (engines_ok (S n) w1) as Hok1 by (by apply (engine_advance_ok n w t a)).
    assert (gone w1 e) as Hg1 by (exists X; split_and!; [done..|]; destruct out; cbn in Hans; try done; by apply Hans).
    clear -Hok1 Hg1 Hm. revert Hok1 Hg1. generalize (S n). induction Hm as [w|m w v w' Hs _ IH]; intros i Hok Hg.
    - by rewrite Nat.add_0_r.
    - rewrite Nat.add_succ_r. apply (IH (S i)); [by eapply step_ok|by eapply gone_step]. }
  pose proof (en_entries _ _ Hok2 e X2 HX2) as [(i & Hi & Hreach) _ _ Hde]. split_and!.
  - destruct out; cbn in Hans; try done. by destruct Hans as [-> _].
  - by apply Hde.
  - intros t' c a' w3 Ht' Hadv'. unfold advance in Hadv'. rewrite Ht' in Hadv'. cbn in Hadv'. rewrite HX2 in Hadv'.
    destruct X2 as [p d px [|]]; [done|]. cbn in Hd2. subst d. apply Some_inj in Hadv' as <-. apply lookup_insert_eq.
  - exists X2. split_and!; try done. intros Hidle. apply idle_stopped; try done.
    apply (NodePool.reach_ok _ i); [done|lia].
Qed.

(** *** No deadlock *)
Definition moves (w w' : World) : Prop :=
  (exists t a, advance t a w = Some w') \/
  (exists e X k a p, entries w !! e = Some X /\ NodePool.advance _ k a (pool X) = Some p /\ w' = update e (set_pool p) w).

Lemma holder_moves n w t e x :
  engines_ok n w -> N.of_nat n < U64_MAX - 1 -> tasks w !! t = Some x -> holding x = Some e -> exists w', moves w w'.
Proof.
  intros Hok Hmax Ht Hh. destruct (holding_stands n w t e x Hok Ht Hh) as (X & (_ & HX & _) & _ & _ & Heng).
  assert (forall a w', advance t a w = Some w' -> exists w', moves w w') as Hadv by (intros a w' Ha; exists w'; left; by exists t, a).
  destruct x as [|h c|e0 c|e0 c|e0 b|e0 k b|e0 port policy|h|e0|e0|]; try done; cbn in Hh; injection Hh as ->.
  - pose proof (Hadv (Readings (fun _ => None))) as Hr. unfold advance in Hr. rewrite Ht in Hr. cbn in Hr. rewrite HX in Hr.
    destruct c; cbn in Hr; try (by eapply Hr). destruct (proxy X); by eapply Hr.
  - pose proof (Hadv (PoolTask (fresh (dom (NodePool.tasks (pool X)))))) as Hr. unfold advance in Hr. rewrite Ht in Hr. cbn in Hr.
    rewrite HX in Hr. assert (NodePool.tasks (pool X) !! fresh (dom (NodePool.tasks (pool X))) = None) as Hfresh
      by (apply not_elem_of_dom; apply is_fresh). rewrite Hfresh in Hr. by eapply Hr.
  - destruct Heng as (_ & z & Hz & Hr). destruct (eo_pool _ _ _ _ (en_entries _ _ Hok e X HX)) as (m & Hm & Hreach).
    destruct (NodePool.returned _ z) eqn:Hret.
    + destruct z as [| | | | | | | | | | | | | | | |o]; try discriminate Hret. pose proof (Hadv NoAnswer) as Ha. unfold advance in Ha. rewrite Ht in Ha. cbn in Ha. rewrite HX in Ha. cbn in Ha. rewrite Hz in Ha.
      destruct b, o as [[g| |]|error]; try done; cbn in Ha; by eapply Ha.
    + destruct (pool_progress _ (pool X) k z) as (k' & a & p & Hp); [apply (NodePool.reach_ok _ m); [done|lia]|done|by intros o ->|].
      eexists. right. by exists e, X, k', a, p.
  - pose proof (Hadv (BindAnswer None)) as Hr. unfold advance in Hr. rewrite Ht in Hr. by eapply Hr.
  - pose proof (Hadv NoAnswer) as Hr. unfold advance in Hr. rewrite Ht in Hr. by eapply Hr.
Qed.

(** As long as a call has not returned, some call or some call of a pool can go
    on, once the network answers: the mutexes of engines and of the entries of
    their pools are never waited for in a circle. *)
Theorem engine_calls_progress pem_reader_iter n w t x :
  nsteps (step pem_reader_iter) n initial w -> N.of_nat n < U64_MAX - 1 ->
  tasks w !! t = Some x -> (forall status out, x <> Returned status out) -> exists w', moves w w'.
Proof.
  intros Hn%engine_reach_ok Hmax Ht Hno.
  assert (forall w', advance t NoAnswer w = Some w' -> exists w', moves w w') as Hadv by (intros w' Ha; exists w'; left; by exists t, NoAnswer).
  unfold advance in Hadv. rewrite Ht in Hadv.
  assert (forall e, (e < length (entries w))%nat -> (exists w', moves w w') \/
    exists p d px, entries w !! e = Some {| pool := p; destroyed := d; proxy := px; holder := None |}) as Hmutex.
  { intros e [[p d px [t'|]] HX]%lookup_lt_is_Some; [left|right; by exists p, d, px].
    destruct (eo_holder _ _ _ _ (en_entries _ _ Hn e _ HX) t' eq_refl) as (y & Hy & Hh). by apply (holder_moves n w t' e y). }
  pose proof (to_found _ _ _ (en_tasks _ _ Hn t x Ht)) as Hf.
  destruct x as [|h c|e c|e c|e b|e k b|e port policy|h|e|e|]; try (by eapply holder_moves); try (by eapply Hadv).
  - destruct (Hmutex e Hf) as [?|(p & d & px & HX)]; [done|]. cbn in Hadv. rewrite HX in Hadv. by eapply Hadv.
  - destruct Hf as [Hf _]. destruct (Hmutex e Hf) as [?|(p & d & px & HX)]; [done|]. cbn in Hadv. rewrite HX in Hadv. by eapply Hadv.
  - by destruct (Hno status out).
Qed.

(** ** Schedules *)
Section play.
Variable pem_reader_iter : list byte -> option (list (list byte)).
Inductive Event := Calls (t : nat) (c : Call) | Steps (t : nat) (a : Answer) | Pools (e k : nat) (a : NodePool.Answer).
Definition play_event (v : Event) (w : World) : option World :=
  match v with
  | Calls t c => match tasks w !! t with None => Some (put t (call pem_reader_iter c) w) | Some _ => None end
  | Steps t a => advance t a w
  | Pools e k a =>
    match entries w !! e with
    | None => None
    | Some X => (fun p => update e (set_pool p) w) <$> NodePool.advance _ k a (pool X)
    end
  end.
Fixpoint play (l : list Event) (w : World) : option World :=
  match l with [] => Some w | v :: l => play_event v w ≫= play l end.
Lemma engine_play_steps l w w' : play l w = Some w' -> nsteps (step pem_reader_iter) (length l) w w'.
Proof.
  revert w. induction l as [|v l IH]; intros w; cbn; [intros [= <-]; constructor|].
  intros (w1 & Hv & Hl)%bind_Some. apply (nsteps_l _ _ _ w1); [|by apply IH]. destruct v as [t c|t a|e k a]; cbn in Hv.
  - destruct (tasks w !! t) eqn:Ht; [done|]. apply Some_inj in Hv as <-. by apply step_call.
  - by eapply step_advance.
  - destruct (entries w !! e) as [X|] eqn:HX; [|done]. apply fmap_Some in Hv as (p & Hp & ->). by eapply step_pool.
Qed.
End play.

(** ** At concrete inputs *)
Module EngineExamples.
Definition no_pem (_ : list byte) : option (list (list byte)) := None.
Definition bytes_of (s : String.string) : VelumByteSlice := slice_of (Utf8.encode (str s)).
Definition node_input : VelumEngineNodeInput :=
  {| input_id := bytes_of "node-one"; input_alias := bytes_of "primary";
     input_configuration :=
       {| input_relay_address := bytes_of "192.0.2.1:443"; input_server_name := bytes_of "relay.example";
          input_credential := slice_of (replicate 32 x07); input_certificate_pem := slice_of [];
          input_connect_timeout_millis := 60000; input_trust_mode := VELUM_TRUST_SYSTEM |} |}.

Definition view (t : nat) (w : World) : option Task := tasks w !! t.

(** Task 0 creates an engine, task 1 activates its profile. *)
Definition activation : list Event :=
  [Calls 0 (CallCreate true); Steps 0 NoAnswer;
   Calls 1 (CallActivate 1 (Some [node_input]) 1 (bytes_of "primary") true); Steps 1 NoAnswer; Steps 1 NoAnswer; Steps 1 NoAnswer;
   Steps 1 (PoolTask 0); Pools 0 0 (StartAnswer (Ok tt)); Pools 0 0 NodePool.NoAnswer; Pools 0 0 NodePool.NoAnswer;
   Pools 0 0 NodePool.NoAnswer; Pools 0 0 NodePool.NoAnswer].
(** Task 3 finds the engine before task 2 destroys it. *)
Definition destruction : list Event :=
  activation ++ [Steps 1 NoAnswer; Calls 3 (CallStop 1 true); Steps 3 NoAnswer; Calls 2 (CallDestroy 1); Steps 2 NoAnswer;
   Steps 2 NoAnswer; Steps 2 NoAnswer; Steps 2 (PoolTask 1); Pools 0 1 NodePool.NoAnswer; Pools 0 1 NodePool.NoAnswer;
   Pools 0 1 NodePool.NoAnswer; Pools 0 1 NodePool.NoAnswer].

Lemma engine_played_result {B} (f : World -> B) l w b :
  play no_pem l initial = Some w -> option_map f (play no_pem l initial) = Some b -> f w = b.
Proof. intros ->. by intros [= <-]. Qed.
Definition activates_primary (w : World) : bool :=
  match tasks w !! 1%nat with Some (Waiting 0 0 (Activates _ d)) => str_eqb d (str "primary") | _ => false end.
Definition goes_on (t : nat) (w : World) : bool := match advance t NoAnswer w with Some _ => true | None => false end.

Lemma engine_answers_exact_witness :
  exists w w' X, play no_pem activation initial = Some w /\ advance 1 NoAnswer w = Some w' /\ entries w' !! 0%nat = Some X /\
    tasks w' !! 1%nat = Some (Returned VelumControlStatus.Ok (GenerationValue 1)) /\
    NodePool.generation (NodePool.state (pool X)) = 1.
Proof.
  destruct (play no_pem activation initial) as [w|] eqn:Hw; [|by vm_compute in Hw].
  assert (activates_primary w = true) as Hprimary by (apply (engine_played_result _ _ _ _ Hw); by vm_compute).
  assert (option_map (view 1) (play no_pem activation initial ≫= advance 1 NoAnswer) =
    Some (Some (Returned VelumControlStatus.Ok (GenerationValue 1)))) as Hend by by vm_compute.
  rewrite Hw in Hend. cbn [option_bind mbind] in Hend. destruct (advance 1 NoAnswer w) as [w'|] eqn:Ha; [|discriminate Hend].
  apply Some_inj in Hend. unfold activates_primary in Hprimary. destruct (tasks w !! 1%nat) as [x|] eqn:Ht; [|discriminate Hprimary].
  destruct x as [| | | | |[|e] [|k] [l d| |]| | | | |]; try discriminate Hprimary.
  destruct (engine_answers_exact no_pem (length activation) w 1 0 0 _ NoAnswer w' (engine_play_steps _ _ _ _ Hw) Ht Ha)
    as (X & status & out & HX & _ & _ & Hret & Hans).
  unfold view in Hend. exists w, w', X. split; [reflexivity|]. split; [exact Ha|]. split; [exact HX|]. split; [exact Hend|].
  rewrite Hend in Hret. injection Hret as <- <-. apply Hans.
Defined.

Lemma engine_destroy_final_witness :
  exists w w1 X, play no_pem destruction initial = Some w /\ advance 2 NoAnswer w = Some w1 /\ entries w1 !! 0%nat = Some X /\
    tasks w1 !! 2%nat = Some (Returned VelumControlStatus.Ok NoValue) /\ proxy X = None /\ engines (table w1) !! 1 <> Some 0%nat.
Proof.
  destruct (play no_pem destruction initial) as [w|] eqn:Hw; [|by vm_compute in Hw].
  assert (view 2 w = Some (Waiting 0 1 Destroys)) as Ht by (apply (engine_played_result _ _ _ _ Hw); by vm_compute).
  destruct (advance 2 NoAnswer w) as [w1|] eqn:Ha;
    [|assert (goes_on 2 w = true) as Hsome by (apply (engine_played_result _ _ _ _ Hw); by vm_compute);
      unfold goes_on in Hsome; rewrite Ha in Hsome; discriminate Hsome].
  destruct (engine_destroy_final no_pem (length destruction) w 2 0 1 NoAnswer w1 0 w1 (engine_play_steps _ _ _ _ Hw) Ht Ha
    (nsteps_O _ _) ltac:(reflexivity)) as (Hret & Hun & _ & X & HX & Hpx & _).
  exists w, w1, X. split; [reflexivity|]. split; [exact Ha|]. split; [exact HX|]. split; [exact Hret|]. split; [exact Hpx|].
  apply Hun.
Defined.

Lemma engine_calls_progress_witness : exists w, play no_pem destruction initial = Some w /\ exists w', moves w w'.
Proof.
  destruct (play no_pem destruction initial) as [w|] eqn:Hw; [|by vm_compute in Hw]. exists w. split; [reflexivity|].
  assert (view 2 w = Some (Waiting 0 1 Destroys)) as Ht by (apply (engine_played_result _ _ _ _ Hw); by vm_compute).
  apply (engine_calls_progress no_pem (length destruction) w 2 _ (engine_play_steps _ _ _ _ Hw) ltac:(reflexivity) Ht). intros status out Heq.
  discriminate Heq.
Defined.
End EngineExamples.
