(* ===== verification/ClientExamples.v ===== *)
(** Concrete runs of the C interface ([ClientHandles]): a runtime is created,
    started and connects, a stream is opened, and the runtime is stopped and
    destroyed while other calls are under way. *)
From S2P Require Import Prelude Net Str Utf8 IpText Routing Runtime ClientApi ClientAbi ClientHandles.

Module HandleExamples.
Definition pem (_ : list byte) : option (list (list byte)) := None.

(** *** Connection events, computed *)
Definition connects (r : Runtime.World) : option Runtime.World :=
  let g := generation (snap r) in
  match Runtime.tasks r !! g with
  | Some Dialing =>
    Some {| inner := inner r; host := host r; alive := alive r; Runtime.tasks := <[g := HasResult (Ok (created r))]> (Runtime.tasks r);
            aborted := aborted r; created := S (created r); ended := ended r; Runtime.mutex := Runtime.mutex r |}
  | _ => None
  end.
Definition completes (r : Runtime.World) : option Runtime.World :=
  let g := generation (snap r) in
  match Runtime.tasks r !! g, alive r, Runtime.mutex r with
  | Some (HasResult result), true, None =>
    match ClientRuntime.complete_connect (E := unit) g result (inner r) with
    | Ret (Ok o, i) =>
      Some (with_tasks (match o with Some c => <[g := Watching c]> (Runtime.tasks r) | None => delete g (Runtime.tasks r) end)
              (with_inner i r))
    | _ => None
    end
  | _, _, _ => None
  end.

Lemma connects_background r r' : host r = true -> connects r = Some r' -> background r r'.
Proof.
  unfold connects. intros Hh. destruct (Runtime.tasks r !! _) as [[]|] eqn:Hg; try done. intros [= <-].
  split; [by apply step_connected|done].
Qed.
Lemma completes_background r r' : host r = true -> completes r = Some r' -> background r r'.
Proof.
  unfold completes. intros Hh. destruct (Runtime.tasks r !! _) as [[]|] eqn:Hg; try done.
  destruct (alive r) eqn:Ha, (Runtime.mutex r) eqn:Hm; try done.
  destruct (ClientRuntime.complete_connect _ _ _) as [[[o|] i]| |] eqn:Hc; try done. intros [= <-].
  split; [by eapply step_complete|]. split; [done|]. unfold snap, current. cbn.
  apply complete_connect_Ok in Hc as [(_ & _ & ->)|(_ & _ & Hc)]; [done|].
  destruct r0; by destruct Hc as [_ ->].
Qed.

(** *** Histories *)
Inductive Event := Calls (t : nat) (c : Call) | Steps (t : nat) (a : Answer) | Connects (e : nat) | Completes (e : nat).
Definition on_runtime (f : Runtime.World -> option Runtime.World) (e : nat) (w : World) : option World :=
  match entries w !! e with
  | Some x =>
    if host (runtime x)
    then match f (runtime x) with Some r => Some (update e (set_runtime r) w) | None => None end
    else None
  | None => None
  end.
Definition happens (v : Event) (w : World) : option World :=
  match v with
  | Calls t c => match tasks w !! t with None => Some (put t (call pem c) w) | Some _ => None end
  | Steps t a => advance t a w
  | Connects e => on_runtime connects e w
  | Completes e => on_runtime completes e w
  end.
Fixpoint play (l : list Event) (w : World) : option World :=
  match l with
  | [] => Some w
  | v :: l => match happens v w with Some w => play l w | None => None end
  end.

Lemma on_runtime_step f e w w' :
  (forall r r', host r = true -> f r = Some r' -> background r r') -> on_runtime f e w = Some w' -> step pem w w'.
Proof.
  unfold on_runtime. intros Hf. destruct (entries w !! e) as [x|] eqn:Hx; [|done].
  destruct (host (runtime x)) eqn:Hh; [|done]. destruct (f (runtime x)) as [r|] eqn:Hr; [|done]. intros [= <-].
  eapply step_background; [done|]. by apply Hf.
Qed.
Lemma happens_step v w w' : happens v w = Some w' -> step pem w w'.
Proof.
  destruct v; cbn.
  - destruct (tasks w !! t) eqn:Ht; [done|]. intros [= <-]. by apply step_call.
  - by apply step_advance.
  - apply on_runtime_step, connects_background.
  - apply on_runtime_step, completes_background.
Qed.
Lemma play_calls l w w' : play l w = Some w' -> rtc (step pem) w w'.
Proof.
  revert w. induction l as [|v l IH]; cbn; intros w; [intros [= <-]; apply rtc_refl|].
  destruct (happens v w) as [w1|] eqn:Hv; [|done]. intros H. eapply rtc_l; [by eapply happens_step|by apply IH].
Qed.
Lemma play_app l l' w w2 : play (l ++ l') w = Some w2 -> exists w1, play l w = Some w1 /\ play l' w1 = Some w2.
Proof.
  revert w. induction l as [|v l IH]; cbn; intros w; [by exists w|]. destruct (happens v w); [apply IH|done].
Qed.
(** A history with one step of a call picked out. *)
Lemma play_split l t a l' w w3 :
  play (l ++ Steps t a :: l') w = Some w3 ->
  exists w1 w2, play l w = Some w1 /\ advance t a w1 = Some w2 /\ play l' w2 = Some w3.
Proof.
  intros (w1 & H1 & H2)%play_app. cbn in H2. destruct (advance t a w1) as [w2|] eqn:Ha; [|done]. by exists w1, w2.
Qed.
Lemma played {B} (f : World -> B) l w v b : play l v = Some w -> option_map f (play l v) = Some b -> f w = b.
Proof. intros ->. by intros [= <-]. Qed.

Definition bytes (s : String.string) : VelumByteSlice := slice_of (Utf8.encode (str s)).
Definition input : VelumClientConfigInput :=
  {| input_relay_address := bytes "192.0.2.1:443"; input_server_name := bytes "relay.example";
     input_credential := bytes "secret"; input_certificate_pem := {| pointer := None; slice_length := 0 |};
     input_connect_timeout_millis := 1000; input_trust_mode := VELUM_TRUST_SYSTEM |}.
Definition quietly (t n : nat) : list Event := replicate n (Steps t NoAnswer).

(** Runtime 1 comes online; task 2 opens stream 2 of it. *)
Definition connected : list Event :=
  Calls 0 (CallCreate true) :: quietly 0 1 ++ Calls 1 (CallStart 1 (Some input) true) :: quietly 1 3 ++
  [Connects 0; Completes 0] ++
  Calls 2 (CallOpenStream 1 (bytes "192.0.2.10:443") true) :: quietly 2 2 ++ Steps 2 (OpenAnswer (Ok tt)) :: quietly 2 2.
(** Task 3 opens another, and has checked that the runtime is online, when task 4 stops it. *)
Definition stopping : list Event :=
  connected ++ Calls 3 (CallOpenStream 1 (bytes "192.0.2.10:443") true) :: quietly 3 2 ++ [Steps 3 (OpenAnswer (Ok tt))] ++
  Calls 4 (CallStop 1 true) :: quietly 4 4.
(** Task 5 reads stream 2 when task 6 destroys the runtime. *)
Definition destroying : list Event :=
  connected ++ Calls 5 (CallRead 2 {| mutable_pointer := true; mutable_length := 16 |} true) :: quietly 5 2 ++
  [Calls 6 (CallDestroy 1)].

Example opened_stream : option_map (fun w => tasks w !! 2%nat) (play connected initial) =
  Some (Some (Returned (ClientReply VelumStatus.Ok (Handle 2)))).
Proof. vm_compute. reflexivity. Qed.
Example refused_stream : option_map (fun w => tasks w !! 3%nat) (play (stopping ++ quietly 4 1 ++ quietly 3 1) initial) =
  Some (Some (Returned (ClientReply VelumStatus.Transport NoValue))).
Proof. vm_compute. reflexivity. Qed.

(** Closing the stream is on its way. *)
Lemma handles_consistent_witness :
  exists w w', play connected initial = Some w /\ w' = put 9 (StreamClosing 2) w /\ streams (table w') !! 2 = Some 0%nat /\
    exists x e y, stream_entries w' !! 0%nat = Some x /\ cancelled x = false /\ clients (table w') !! client_handle x = Some e /\
      entries w' !! e = Some y /\ destroyed y = false.
Proof.
  destruct (play connected initial) as [w|] eqn:Hw; [|by vm_compute in Hw].
  assert (streams (table w) !! 2 = Some 0%nat) as Hs by (apply (played (fun w => streams (table w) !! 2) _ _ _ _ Hw); by vm_compute).
  assert (tasks w !! 9%nat = None) as Hn by (apply (played (fun w => tasks w !! 9%nat) _ _ _ _ Hw); by vm_compute).
  assert (step pem w (put 9 (StreamClosing 2) w)) as Hstep by exact (step_call pem w 9 (CallStreamClose 2) Hn).
  exists w, (put 9 (StreamClosing 2) w). split; [reflexivity|]. split; [reflexivity|]. split; [exact Hs|].
  destruct (handles_consistent pem w _ (play_calls _ _ _ Hw) Hstep) as (_ & _ & Hopen & _).
  exact (Hopen 2 0%nat Hs).
Defined.

Lemma destroy_is_final_witness :
  exists w2, play (destroying ++ Steps 6 NoAnswer :: quietly 6 3 ++ quietly 5 1) initial = Some w2 /\
    clients (table w2) !! 1 = None /\ tasks w2 !! 5%nat = Some (client VelumStatus.Transport) /\
    (exists x, stream_entries w2 !! 0%nat = Some x /\ cancelled x = true) /\
    exists x, entries w2 !! 0%nat = Some x /\ destroyed x = true /\ proxy x = None /\ stopped (runtime x).
Proof.
  destruct (play (destroying ++ Steps 6 NoAnswer :: quietly 6 3 ++ quietly 5 1) initial) as [w2|] eqn:Hw; [|by vm_compute in Hw].
  assert (tasks w2 !! 6%nat = Some (Returned (retired Destroy true)) /\ tasks w2 !! 5%nat = Some (client VelumStatus.Transport))
    as [Hret Hread] by (split; [apply (played (fun w => tasks w !! 6%nat) _ _ _ _ Hw)|apply (played (fun w => tasks w !! 5%nat) _ _ _ _ Hw)];
      by vm_compute).
  apply play_split in Hw as (w & w1 & Hw & Hadv & Hrest).
  assert (tasks w !! 6%nat = Some (Retiring 1 Destroy)) as Ht by (apply (played (fun w => tasks w !! 6%nat) _ _ _ _ Hw); by vm_compute).
  assert (clients (table w) !! 1 = Some 0%nat) as Hc by (apply (played (fun w => clients (table w) !! 1) _ _ _ _ Hw); by vm_compute).
  assert (streams (table w) !! 2 = Some 0%nat) as Hs by (apply (played (fun w => streams (table w) !! 2) _ _ _ _ Hw); by vm_compute).
  assert (option_map client_handle (stream_entries w !! 0%nat) = Some 1) as Hh
    by (apply (played (fun w => option_map client_handle (stream_entries w !! 0%nat)) _ _ _ _ Hw); by vm_compute).
  destruct (stream_entries w !! 0%nat) as [x|] eqn:Hx; [|discriminate Hh]. injection Hh as Hh.
  exists w2. split; [reflexivity|].
  destruct (destroy_is_final pem w 1 Destroy 0 6 w1 w2 (play_calls _ _ _ Hw) Ht Hc Hadv (play_calls _ _ _ Hrest))
    as (Hn & _ & Hcancelled & _ & Hdone).
  split; [exact Hn|]. split; [exact Hread|]. split; [exact (Hcancelled 2 0%nat x Hs Hx Hh)|]. exact (proj2 (Hdone _ Hret)).
Defined.

Lemma stop_ends_streams_witness :
  exists w1, play (stopping ++ [Steps 4 NoAnswer]) initial = Some w1 /\ no_streams w1 1.
Proof.
  destruct (play (stopping ++ [Steps 4 NoAnswer]) initial) as [w1|] eqn:Hw; [|by vm_compute in Hw].
  assert (tasks w1 !! 4%nat = Some (Returned (ControlReply VelumControlStatus.Ok (GenerationValue 2)))) as Hret
    by (apply (played (fun w => tasks w !! 4%nat) _ _ _ _ Hw); by vm_compute).
  apply play_split in Hw as (w & w1' & Hw & Hadv & Hrest). injection Hrest as ->.
  assert (tasks w !! 4%nat = Some (StoppingRuntime 0 1)) as Ht by (apply (played (fun w => tasks w !! 4%nat) _ _ _ _ Hw); by vm_compute).
  exists w1. split; [reflexivity|].
  exact (proj1 (stop_ends_streams pem w 4 NoAnswer w1 w1 0 1 2 (play_calls _ _ _ Hw) Ht Hadv Hret (rtc_refl _ _))).
Defined.

(** The read that waits on stream 2 when task 6 has taken it away. *)
Lemma calls_finish_witness :
  exists w, play (destroying ++ quietly 6 1) initial = Some w /\
    exists w', advance 5 NoAnswer w = Some w' /\ tasks w' !! 5%nat = Some (client VelumStatus.Transport).
Proof.
  destruct (play (destroying ++ quietly 6 1) initial) as [w|] eqn:Hw; [|by vm_compute in Hw]. exists w. split; [reflexivity|].
  assert (tasks w !! 5%nat = Some (StreamIo 0 (Read 16))) as Ht by (apply (played (fun w => tasks w !! 5%nat) _ _ _ _ Hw); by vm_compute).
  assert (option_map cancelled (stream_entries w !! 0%nat) = Some true) as Hc
    by (apply (played (fun w => option_map cancelled (stream_entries w !! 0%nat)) _ _ _ _ Hw); by vm_compute).
  destruct (stream_entries w !! 0%nat) as [x|] eqn:Hx; [|discriminate Hc].
  destruct (calls_finish pem w 5 _ (play_calls _ _ _ Hw) Ht) as (_ & _ & Hio).
  exact (Hio 0%nat (Read 16) x NoAnswer eq_refl Hx ltac:(by injection Hc)).
Defined.
End HandleExamples.
