(* ===== verification/Architecture.v ===== *)
(** The check of the architecture contract ([src/xtask/src/architecture.rs]):
    which module owns a package or a file, which modules may depend on which,
    and that no module depends on itself.  Globs ([globset]) and the parsers of
    the contract and of cargo's metadata are parameters. *)
From S2P Require Import Prelude Str NodeFiles.

(** ** Data *)
Record Governance := { governed_paths : list Str; excluded_paths : list Str }.
Record Module_ := {
  paths : list Str;
  owner : Str;
  may_depend_on : list Str;
  public_api : list Str
}.
Record ForbiddenDependency := { from : Str; to : list Str }.
Record Contract := {
  version : N;
  governance : Governance;
  modules : gmap Str Module_;
  forbidden_dependencies : list ForbiddenDependency;
  gates : gmap Str N
}.

(** What cargo says of a package of the workspace; [in_workspace] is whether a
    dependency has a path. *)
Record Dependency := { dependency_name : Str; in_workspace : bool }.
Record Package := { package_name : Str; manifest_path : Path; dependencies : list Dependency }.

(** The files under a directory; [None] where it, or one of its entries, cannot
    be read. *)
Inductive Entry :=
| AFile
| ADirectory (listing : option (list (option (Str * Entry))))
| AnOther.
Definition Listing : Type := option (list (option (Str * Entry))).

Inductive ContractError :=
| UnsupportedVersion (v : N)
| NoGovernedPaths
| NoOwner (name : Str)
| NoPaths (name : Str)
| UnknownAllowed (name dependency : Str)
| UnknownSource (name : Str)
| UnknownTarget (name target : Str)
| UnsupportedGate (gate : Str)
| GateThreshold (gate : Str)
| PackageUnowned (package root_path : Str)
| PackageAmbiguous (package root_path : Str) (names : list Str)
| FileUnowned (relative : Str)
| FileAmbiguous (relative : Str) (names : list Str)
| MissingApi (name api : Str)
| NotAllowed (name target : Str)
| ExplicitlyForbidden (name target : Str)
| CycleIncludes (name : Str).
Inductive Failure :=
| InvalidGlob (pattern : Str)
| InvalidGlobSet
| NoManifestParent (package : Str)
| OutsideWorkspace (path : Path)
| CannotReadDirectory (directory : Path)
| CannotReadEntry
| CannotReadContract
| CannotParseContract
| MetadataFailed
| ContractFailed (errors : list ContractError).

Definition SUPPORTED_GATES : list Str :=
  [str "dependency_cycles"; str "forbidden_dependencies"; str "unowned_modules"; str "unowned_governed_files"].

(** [globset] *)
Class Globs := {
  Glob : Type;
  GlobSet : Type;
  glob_new : Str -> option Glob;
  glob_build : list Glob -> option GlobSet;
  is_match : GlobSet -> Str -> bool
}.

(** ** Helpers of the loops *)
Fixpoint try_map {A B E} (f : A -> result B E) (l : list A) : result (list B) E :=
  match l with
  | [] => Ok []
  | a :: l => let? b := f a in let? l := try_map f l in Ok (b :: l)
  end.
Fixpoint concat_outcomes {A B} (f : A -> outcome (list B)) (l : list A) : outcome (list B) :=
  match l with
  | [] => Ret []
  | a :: l =>
    match f a with
    | Ret errors =>
      match concat_outcomes f l with Ret rest => Ret (errors ++ rest) | Panic => Panic | OutOfFuel => OutOfFuel end
    | Panic => Panic
    | OutOfFuel => OutOfFuel
    end
  end.
Definition edge_leb (e e' : Str * Str) : bool :=
  if bool_decide (e.1 = e'.1) then str_leb e.2 e'.2 else str_leb e.1 e'.1.
Definition sorted_edges (edges : gset (Str * Str)) : list (Str * Str) := merge_sort edge_leb (elements edges).
Definition sorted_names (names : gset Str) : list Str := merge_sort str_leb (elements names).

(** ** The contract by itself *)
Definition error_if (b : bool) (e : ContractError) : list ContractError := if b then [e] else [].
Definition known (contract : Contract) (name : Str) : bool := bool_decide (is_Some (modules contract !! name)).
Definition validate_module (contract : Contract) (entry : Str * Module_) : list ContractError :=
  let '(name, module) := entry in
  error_if (bool_decide (trim (owner module) = [])) (NoOwner name)
  ++ error_if (bool_decide (paths module = [])) (NoPaths name)
  ++ (may_depend_on module ≫= fun dependency => error_if (negb (known contract dependency)) (UnknownAllowed name dependency)).
Definition validate_forbidden (contract : Contract) (forbidden : ForbiddenDependency) : list ContractError :=
  error_if (negb (known contract (from forbidden))) (UnknownSource (from forbidden))
  ++ (to forbidden ≫= fun target => error_if (negb (known contract target)) (UnknownTarget (from forbidden) target)).
Definition validate_gate (entry : Str * N) : list ContractError :=
  let '(gate, threshold) := entry in
  if negb (bool_decide (gate ∈ SUPPORTED_GATES)) then [UnsupportedGate gate]
  else error_if (negb (threshold =? 0)) (GateThreshold gate).
Definition validate_contract (contract : Contract) : list ContractError :=
  error_if (negb (version contract =? 1)) (UnsupportedVersion (version contract))
  ++ error_if (bool_decide (governed_paths (governance contract) = [])) NoGovernedPaths
  ++ (ordered (modules contract) ≫= validate_module contract)
  ++ (forbidden_dependencies contract ≫= validate_forbidden contract)
  ++ (ordered (gates contract) ≫= validate_gate).

(** ** Paths in the workspace *)
Fixpoint strip_components (p q : list Str) : option (list Str) :=
  match p, q with
  | [], q => Some q
  | a :: p, b :: q => if bool_decide (a = b) then strip_components p q else None
  | _ :: _, [] => None
  end.
Definition strip_path_prefix (root path : Path) : option (list Str) :=
  if bool_decide (absolute root = absolute path) then strip_components (components root) (components path) else None.
Fixpoint joined_by_slash (l : list Str) : Str :=
  match l with [] => [] | [name] => name | name :: l => name ++ [47] ++ joined_by_slash l end.
Definition relative_path (root path : Path) : result Str Failure :=
  match strip_path_prefix root path with
  | Some relative => Ok (replace [92] [47] (joined_by_slash relative))
  | None => Err (OutsideWorkspace path)
  end.
Definition package_root (root : Path) (package : Package) : result Str Failure :=
  match Path.parent (manifest_path package) with
  | None => Err (NoManifestParent (package_name package))
  | Some package_root => relative_path root package_root
  end.

(** [walk_files]: the directories still to read are a stack.  The fuel is one
    more than the directories there are. *)
Definition skipped (root path : Path) : bool :=
  bool_decide (path = Path.join root (str ".git")) || bool_decide (path = Path.join root (str "target")).
Fixpoint read_entries (root directory : Path) (entries : list (option (Str * Entry)))
    (files : list Path) (pending : list (Path * Listing)) : result (list Path * list (Path * Listing)) Failure :=
  match entries with
  | [] => Ok (files, pending)
  | None :: _ => Err CannotReadEntry
  | Some (name, entry) :: entries =>
    let path := Path.join directory name in
    if skipped root path then read_entries root directory entries files pending
    else
      match entry with
      | ADirectory listing => read_entries root directory entries files ((path, listing) :: pending)
      | AFile => read_entries root directory entries (files ++ [path]) pending
      | AnOther => read_entries root directory entries files pending
      end
  end.
Fixpoint walk_loop (fuel : nat) (root : Path) (pending : list (Path * Listing)) (files : list Path)
  : outcome (result (list Path) Failure) :=
  match fuel with
  | O => OutOfFuel
  | S fuel =>
    match pending with
    | [] => Ret (Ok files)
    | (directory, None) :: _ => Ret (Err (CannotReadDirectory directory))
    | (directory, Some entries) :: pending =>
      match read_entries root directory entries files pending with
      | Ok (files, pending) => walk_loop fuel root pending files
      | Err e => Ret (Err e)
      end
    end
  end.
Fixpoint directories (e : Entry) : nat :=
  match e with
  | ADirectory (Some l) => S (sum_list_with (fun o => match o with Some (_, e) => directories e | None => O end) l)
  | ADirectory None => 1
  | _ => 0
  end%nat.
Definition walk_files (root : Path) (listing : Listing) : outcome (result (list Path) Failure) :=
  walk_loop (S (directories (ADirectory listing))) root [(root, listing)] [].

(** ** Dependencies between modules *)
Section globs.
Context `{Globs}.

Record CompiledContract := { governed : GlobSet; excluded : GlobSet; module_paths : list (Str * GlobSet) }.

Definition compile_globs (patterns : list Str) : result GlobSet Failure :=
  let? globs := try_map (fun pattern => match glob_new pattern with Some g => Ok g | None => Err (InvalidGlob pattern) end) patterns in
  match glob_build globs with Some set => Ok set | None => Err InvalidGlobSet end.
Definition compile (contract : Contract) : result CompiledContract Failure :=
  let? governed := compile_globs (governed_paths (governance contract)) in
  let? excluded := compile_globs (excluded_paths (governance contract)) in
  let? module_paths :=
    try_map (fun '(name, module) => let? globs := compile_globs (paths module) in Ok (name, globs)) (ordered (modules contract)) in
  Ok {| governed := governed; excluded := excluded; module_paths := module_paths |}.

Definition is_governed (compiled : CompiledContract) (path : Str) : bool :=
  is_match (governed compiled) path && negb (is_match (excluded compiled) path).
Definition matching_modules (compiled : CompiledContract) (path : Str) : list Str :=
  map fst (filter (fun '(name, globs) => is_match globs path = true) (module_paths compiled)).

(** The first loop of [evaluate]. *)
Record Packages := {
  package_errors : list ContractError;
  package_modules : gmap Str Str;
  active_modules : gset Str
}.
Definition one_package (compiled : CompiledContract) (package : Package) (root_path : Str) (acc : Packages) : Packages :=
  if negb (is_governed compiled root_path) then acc
  else
    match matching_modules compiled (root_path ++ str "/Cargo.toml") with
    | [] =>
      {| package_errors := package_errors acc ++ [PackageUnowned (package_name package) root_path];
         package_modules := package_modules acc; active_modules := active_modules acc |}
    | [module] =>
      {| package_errors := package_errors acc; package_modules := <[package_name package := module]> (package_modules acc);
         active_modules := {[module]} ∪ active_modules acc |}
    | names =>
      {| package_errors := package_errors acc ++ [PackageAmbiguous (package_name package) root_path names];
         package_modules := package_modules acc; active_modules := active_modules acc |}
    end.
Fixpoint packages_loop (root : Path) (compiled : CompiledContract) (packages : list Package) (acc : Packages)
  : result Packages Failure :=
  match packages with
  | [] => Ok acc
  | package :: packages =>
    let? root_path := package_root root package in
    packages_loop root compiled packages (one_package compiled package root_path acc)
  end.

Definition one_file (root : Path) (compiled : CompiledContract) (path : Path) : result (list ContractError) Failure :=
  let? relative := relative_path root path in
  Ok (if negb (is_governed compiled relative) then []
      else match matching_modules compiled relative with
           | [] => [FileUnowned relative]
           | [_] => []
           | names => [FileAmbiguous relative names]
           end).
Definition validate_governed_files (root : Path) (listing : Listing) (compiled : CompiledContract)
  : outcome (result (list ContractError) Failure) :=
  match walk_files root listing with
  | Ret (Ok files) => Ret (let? errors := try_map (one_file root compiled) files in Ok (concat errors))
  | Ret (Err e) => Ret (Err e)
  | Panic => Panic
  | OutOfFuel => OutOfFuel
  end.

(** [contract.modules[name]] *)
Definition module_at (contract : Contract) (name : Str) : outcome Module_ :=
  match modules contract !! name with Some module => Ret module | None => Panic end.
(** [api_is_file]: whether the path of a public interface, under the root, is a
    file. *)
Definition validate_public_apis (api_is_file : Str -> bool) (contract : Contract) (active : gset Str)
  : outcome (list ContractError) :=
  concat_outcomes (fun name =>
    match module_at contract name with
    | Ret module => Ret (public_api module ≫= fun api => error_if (negb (api_is_file api)) (MissingApi name api))
    | Panic => Panic
    | OutOfFuel => OutOfFuel
    end) (sorted_names active).

Definition dependency_edges (packages : list Package) (package_modules : gmap Str Str) : gset (Str * Str) :=
  list_to_set (packages ≫= fun package =>
    match package_modules !! package_name package with
    | None => []
    | Some from =>
      dependencies package ≫= fun dependency =>
        if in_workspace dependency then
          match package_modules !! dependency_name dependency with
          | Some to => if bool_decide (from = to) then [] else [(from, to)]
          | None => []
          end
        else []
    end).

Definition one_edge (contract : Contract) (e : Str * Str) : outcome (list ContractError) :=
  match module_at contract e.1 with
  | Ret module =>
    Ret (error_if (negb (existsb (fun candidate => bool_decide (candidate = e.2)) (may_depend_on module))) (NotAllowed e.1 e.2)
         ++ error_if (existsb (fun rule => bool_decide (from rule = e.1) && existsb (fun target => bool_decide (target = e.2)) (to rule))
                        (forbidden_dependencies contract)) (ExplicitlyForbidden e.1 e.2))
  | Panic => Panic
  | OutOfFuel => OutOfFuel
  end.
Definition validate_edges (contract : Contract) (edges : gset (Str * Str)) : outcome (list ContractError) :=
  concat_outcomes (one_edge contract) (sorted_edges edges).
End globs.

(** [reaches]: depth first, with the modules visited so far.  The fuel is one
    more than the modules there are. *)
Fixpoint any_visited (f : Str -> gset Str -> outcome (bool * gset Str)) (l : list Str) (visited : gset Str)
  : outcome (bool * gset Str) :=
  match l with
  | [] => Ret (false, visited)
  | next :: l =>
    match f next visited with
    | Ret (true, visited) => Ret (true, visited)
    | Ret (false, visited) => any_visited f l visited
    | Panic => Panic
    | OutOfFuel => OutOfFuel
    end
  end.
Definition successors (edges : gset (Str * Str)) (current : Str) : list Str :=
  map snd (filter (fun e => e.1 = current) (sorted_edges edges)).
Fixpoint reaches (fuel : nat) (current target : Str) (edges : gset (Str * Str)) (visited : gset Str) (first : bool)
  : outcome (bool * gset Str) :=
  match fuel with
  | O => OutOfFuel
  | S fuel =>
    if negb first && bool_decide (current = target) then Ret (true, visited)
    else if bool_decide (current ∈ visited) then Ret (false, visited)
    else
      any_visited (fun next visited => reaches fuel next target edges visited false) (successors edges current)
        ({[current]} ∪ visited)
  end.
Definition edge_nodes (edges : gset (Str * Str)) : gset Str :=
  list_to_set (elements edges ≫= fun e => [e.1; e.2]).
Definition validate_cycles (edges : gset (Str * Str)) : outcome (list ContractError) :=
  concat_outcomes (fun start =>
    match reaches (S (size (edge_nodes edges))) start start edges ∅ true with
    | Ret (found, _) => Ret (error_if found (CycleIncludes start))
    | Panic => Panic
    | OutOfFuel => OutOfFuel
    end) (sorted_names (edge_nodes edges)).

(** ** All of it *)
Section evaluate.
Context `{Globs}.

Record Report := { reported_modules : list Str }.
Definition evaluate (root : Path) (contract : Contract) (packages : list Package) (listing : Listing) (api_is_file : Str -> bool)
  : outcome (result Report Failure) :=
  match compile contract with
  | Err e => Ret (Err e)
  | Ok compiled =>
    match packages_loop root compiled packages
            {| package_errors := validate_contract contract; package_modules := ∅; active_modules := ∅ |} with
    | Err e => Ret (Err e)
    | Ok acc =>
      let edges := dependency_edges packages (package_modules acc) in
      match validate_governed_files root listing compiled with
      | Ret (Err e) => Ret (Err e)
      | Ret (Ok file_errors) =>
        match validate_public_apis api_is_file contract (active_modules acc), validate_edges contract edges, validate_cycles edges with
        | Ret api_errors, Ret edge_errors, Ret cycle_errors =>
          let errors := package_errors acc ++ file_errors ++ api_errors ++ edge_errors ++ cycle_errors in
          Ret (match errors with
               | [] => Ok {| reported_modules := sorted_names (active_modules acc) |}
               | _ => Err (ContractFailed errors)
               end)
        | OutOfFuel, _, _ | _, OutOfFuel, _ | _, _, OutOfFuel => OutOfFuel
        | _, _, _ => Panic
        end
      | Panic => Panic
      | OutOfFuel => OutOfFuel
      end
    end
  end.

(** [check], with what it reads: the text of the contract and cargo's metadata. *)
Definition check (parse : Str -> option Contract) (root : Path) (source : option Str) (metadata : option (list Package))
    (listing : Listing) (api_is_file : Str -> bool) : outcome (result Report Failure) :=
  match source with
  | None => Ret (Err CannotReadContract)
  | Some source =>
    match parse source with
    | None => Ret (Err CannotParseContract)
    | Some contract =>
      match metadata with
      | None => Ret (Err MetadataFailed)
      | Some packages => evaluate root contract packages listing api_is_file
      end
    end
  end.
End evaluate.

(** ** The depth-first search is sound and complete *)
Section search.
Context (edges : gset (Str * Str)) (target : Str).
Definition edge (a b : Str) : Prop := (a, b) ∈ edges.

Lemma elem_of_sorted_edges e : e ∈ sorted_edges edges <-> e ∈ edges.
Proof. unfold sorted_edges. by rewrite merge_sort_Permutation, elem_of_elements. Qed.
Lemma elem_of_sorted_names names n : n ∈ sorted_names names <-> n ∈ names.
Proof. unfold sorted_names. by rewrite merge_sort_Permutation, elem_of_elements. Qed.
Lemma elem_of_successors a b : b ∈ successors edges a <-> edge a b.
Proof.
  unfold successors, edge. rewrite list_elem_of_fmap. split.
  - intros ([x y] & -> & [Hx He]%list_elem_of_filter). apply elem_of_sorted_edges in He. cbn in *. by subst x.
  - intros He. exists (a, b). split; [done|]. apply list_elem_of_filter. split; [done|by apply elem_of_sorted_edges].
Qed.
Lemma elem_of_edge_nodes n : n ∈ edge_nodes edges <-> exists m, edge n m \/ edge m n.
Proof.
  unfold edge_nodes, edge. rewrite elem_of_list_to_set, list_elem_of_bind. split.
  - intros ([a b] & Hn & He%elem_of_elements). cbn in Hn. rewrite !elem_of_cons in Hn.
    destruct Hn as [->|[->|Hn%not_elem_of_nil]]; eauto. done.
  - intros [m [He|He]]; (eexists; split; [|by apply elem_of_elements]); cbn; rewrite !elem_of_cons; auto.
Qed.

(** What was newly visited has all its successors visited, and none of them is
    the target. *)
Definition closed (visited visited' : gset Str) : Prop :=
  visited ⊆ visited' /\
  forall a b, a ∈ visited' -> a ∉ visited -> edge a b -> b ∈ visited' /\ b <> target.
Lemma closed_refl v : closed v v.
Proof. split; [done|]. by intros a b H1 H2. Qed.
Lemma closed_trans v1 v2 v3 : closed v1 v2 -> closed v2 v3 -> closed v1 v3.
Proof.
  intros [H12 C12] [H23 C23]. split; [by etransitivity|]. intros a b Ha Hn Hab.
  destruct (decide (a ∈ v2)) as [H2|H2]; [|by eapply C23].
  destruct (C12 a b H2 Hn Hab). split; [by apply H23|done].
Qed.

(** What a search of one module answers. *)
Definition found (current : Str) (visited : gset Str) (r : outcome (bool * gset Str)) : Prop :=
  match r with
  | Ret (true, _) => rtc edge current target
  | Ret (false, visited') => current ∈ visited' /\ current <> target /\ closed visited visited'
  | _ => False
  end.
Lemma any_visited_spec (f : Str -> gset Str -> outcome (bool * gset Str)) (l : list Str) (W : gset Str -> Prop) visited :
  (forall next v, next ∈ l -> W v -> found next v (f next v)) ->
  (forall v v', v ⊆ v' -> W v -> W v') -> W visited ->
  match any_visited f l visited with
  | Ret (true, _) => exists next, next ∈ l /\ rtc edge next target
  | Ret (false, visited') =>
    closed visited visited' /\ forall next, next ∈ l -> next ∈ visited' /\ next <> target
  | _ => False
  end.
Proof.
  revert visited. induction l as [|next l IH]; intros visited Hf HW Hv; cbn [any_visited].
  { split; [apply closed_refl|]. by intros n ?%not_elem_of_nil. }
  pose proof (Hf next visited (list_elem_of_here _ _) Hv) as Hn. unfold found in Hn.
  destruct (f next visited) as [[[] v1]| |] eqn:Hr; [|..|done|done].
  { exists next. split; [left|done]. }
  destruct Hn as (Hin & Hne & Hc).
  specialize (IH v1 (fun n v Hn => Hf n v (list_elem_of_further _ _ _ Hn)) HW (HW _ _ (proj1 Hc) Hv)).
  destruct (any_visited f l v1) as [[[] v2]| |]; [| |done|done].
  - destruct IH as (n & Hn & Hreach). exists n. split; [by right|done].
  - destruct IH as [Hc2 Hall]. split; [by eapply closed_trans|]. intros n [->|Hn]%elem_of_cons; [|by apply Hall].
    split; [by apply Hc2|done].
Qed.

(** The modules that are still to be visited bound the recursion. *)
Definition unvisited (visited : gset Str) : nat := size (edge_nodes edges ∖ visited).
Lemma unvisited_mono v v' : v ⊆ v' -> (unvisited v' <= unvisited v)%nat.
Proof. intros Hv. unfold unvisited. apply subseteq_size. set_solver. Qed.
Lemma unvisited_less v n : n ∈ edge_nodes edges -> n ∉ v -> (unvisited ({[n]} ∪ v) < unvisited v)%nat.
Proof. intros Hn Hv. unfold unvisited. apply subset_size. split; [set_solver|]. intros Hs. specialize (Hs n). set_solver. Qed.

Lemma visit_spec fuel current visited :
  (forall next v, next ∈ edge_nodes edges -> (unvisited v < fuel)%nat ->
     found next v (reaches fuel next target edges v false)) ->
  current ∈ edge_nodes edges -> current ∉ visited -> (unvisited visited < S fuel)%nat ->
  match any_visited (fun next v => reaches fuel next target edges v false) (successors edges current) ({[current]} ∪ visited) with
  | Ret (true, _) => exists next, edge current next /\ rtc edge next target
  | Ret (false, visited') => current ∈ visited' /\ closed visited visited'
  | _ => False
  end.
Proof.
  intros Hrec Hc Hv Hfuel. pose proof (unvisited_less _ _ Hc Hv) as Hless.
  assert (forall v v', v ⊆ v' -> (unvisited v < fuel)%nat -> (unvisited v' < fuel)%nat) as Hmono
    by (intros v v' Hvv; pose proof (unvisited_mono _ _ Hvv); lia).
  assert (forall next v, next ∈ successors edges current -> (unvisited v < fuel)%nat ->
    found next v (reaches fuel next target edges v false)) as Hf
    by (intros next v Hn%elem_of_successors Hlt; apply Hrec; [apply elem_of_edge_nodes; eauto|done]).
  assert (unvisited ({[current]} ∪ visited) < fuel)%nat as Hroom by lia.
  pose proof (any_visited_spec _ _ _ ({[current]} ∪ visited) Hf Hmono Hroom) as H.
  destruct (any_visited _ _ _) as [[[] v']| |]; [| |done|done].
  - destruct H as (next & Hn & Hr). exists next. by rewrite <- elem_of_successors.
  - destruct H as [[Hsub Hcl] Hall]. split; [apply Hsub; set_solver|]. split; [set_solver|]. intros a b Ha Hna Hab.
    destruct (decide (a = current)) as [->|Hne]; [by apply Hall, elem_of_successors|]. apply (Hcl a b); set_solver.
Qed.

Lemma reaches_spec fuel : forall current visited,
  current ∈ edge_nodes edges -> (unvisited visited < fuel)%nat ->
  found current visited (reaches fuel current target edges visited false).
Proof.
  induction fuel as [|fuel IH]; intros current visited Hc Hfuel; [lia|]. cbn [reaches negb andb].
  case_bool_decide as Heq; [rewrite Heq; apply rtc_refl|]. case_bool_decide as Hv.
  { cbn. split; [done|split; [done|apply closed_refl]]. }
  pose proof (visit_spec fuel current visited (fun next v Hn Hlt => IH next v Hn Hlt) Hc Hv Hfuel) as H.
  destruct (any_visited _ _ _) as [[[] v']| |]; [| |done|done].
  - destruct H as (next & He & Hr). by eapply rtc_l.
  - cbn. by destruct H.
Qed.

(** A search from a module for itself finds it exactly when it is on a cycle. *)
Lemma search_cycle : target ∈ edge_nodes edges ->
  match reaches (S (size (edge_nodes edges))) target target edges ∅ true with
  | Ret (b, _) => b = true <-> tc edge target target
  | _ => False
  end.
Proof.
  intros Ht. cbn [reaches negb andb]. rewrite bool_decide_eq_false_2 by set_solver.
  assert (unvisited ∅ = size (edge_nodes edges)) as Hsize by (unfold unvisited; by rewrite difference_empty_L).
  pose proof (visit_spec (size (edge_nodes edges)) target ∅ (fun next v Hn Hlt => reaches_spec _ next v Hn Hlt) Ht
    ltac:(set_solver) ltac:(lia)) as H.
  destruct (any_visited _ _ _) as [[[] v']| |]; [| |done|done].
  - destruct H as (next & He & Hr). split; [intros _|done]. by eapply tc_rtc_r; [apply tc_once|].
  - destruct H as (Hin & _ & Hcl). split; [done|]. intros Htc. exfalso.
    assert (forall a b, tc edge a b -> a ∈ v' -> b ∈ v' /\ b <> target) as Hno.
    { induction 1 as [a b Hab|a b c Hab _ IH]; intros Ha;
        destruct (Hcl a b Ha (not_elem_of_empty a) Hab) as [Hb Hne]; [done|by apply IH]. }
    by destruct (Hno _ _ Htc Hin).
Qed.
End search.

(** ** Lists of errors *)
Lemma error_if_nil b e : error_if b e = [] <-> b = false.
Proof. by destruct b. Qed.
Lemma bind_nil {A B} (f : A -> list B) (l : list A) : l ≫= f = [] <-> forall a, a ∈ l -> f a = [].
Proof.
  induction l as [|a l IH]; cbn; [split; [by intros _ a ?%not_elem_of_nil|done]|].
  rewrite app_nil, IH. split.
  - intros [Ha Hl] b [->|Hb]%elem_of_cons; auto.
  - intros H. split; [apply H; left|intros b Hb; apply H; by right].
Qed.
Lemma concat_outcomes_spec {A B} (f : A -> outcome (list B)) (P : A -> Prop) (l : list A) :
  (forall a, a ∈ l -> exists es, f a = Ret es /\ (es = [] <-> P a)) ->
  exists es, concat_outcomes f l = Ret es /\ (es = [] <-> forall a, a ∈ l -> P a).
Proof.
  induction l as [|a l IH]; intros Hf.
  { exists []. split; [done|]. split; [by intros _ a ?%not_elem_of_nil|done]. }
  destruct (Hf a) as (e1 & H1 & P1); [left|]. destruct IH as (e2 & H2 & P2); [intros b Hb; apply Hf; by right|].
  exists (e1 ++ e2). cbn. rewrite H1, H2. split; [done|]. rewrite app_nil, P1, P2. split.
  - intros [Ha Hl] b [->|Hb]%elem_of_cons; auto.
  - intros H. split; [apply H; left|intros b Hb; apply H; by right].
Qed.
Lemma try_map_spec {A B E} (f : A -> result B E) (l : list A) :
  match try_map f l with
  | Ok bs => Forall2 (fun a b => f a = Ok b) l bs
  | Err e => exists a, a ∈ l /\ f a = Err e
  end.
Proof.
  induction l as [|a l IH]; cbn; [by constructor|]. destruct (f a) as [b|e] eqn:Ha; cbn; [|exists a; split; [left|done]].
  destruct (try_map f l) as [bs|e]; cbn; [by constructor|]. destruct IH as (x & Hx & Hf). exists x. split; [by right|done].
Qed.

(** *** The contract by itself *)
Record contract_ok (contract : Contract) : Prop := {
  ok_version : version contract = 1;
  ok_governed : governed_paths (governance contract) <> [];
  ok_modules : forall name module, modules contract !! name = Some module ->
    trim (owner module) <> [] /\ paths module <> [] /\
    forall dependency, dependency ∈ may_depend_on module -> is_Some (modules contract !! dependency);
  ok_forbidden : forall rule, rule ∈ forbidden_dependencies contract ->
    is_Some (modules contract !! from rule) /\ forall target, target ∈ to rule -> is_Some (modules contract !! target);
  ok_gates : forall gate threshold, gates contract !! gate = Some threshold -> gate ∈ SUPPORTED_GATES /\ threshold = 0
}.

Lemma known_false contract name : negb (known contract name) = false <-> is_Some (modules contract !! name).
Proof. unfold known. rewrite negb_false_iff. apply bool_decide_eq_true. Qed.
Lemma validate_module_nil contract name module :
  validate_module contract (name, module) = [] <->
  trim (owner module) <> [] /\ paths module <> [] /\
  forall dependency, dependency ∈ may_depend_on module -> is_Some (modules contract !! dependency).
Proof.
  cbn [validate_module]. rewrite !app_nil, !error_if_nil, !bool_decide_eq_false, bind_nil.
  split; intros (H1 & H2 & H3); (split; [done|split; [done|]]); intros d Hd.
  - by apply known_false, error_if_nil with (UnknownAllowed name d), H3.
  - by apply error_if_nil, known_false, H3.
Qed.
Lemma validate_forbidden_nil contract rule :
  validate_forbidden contract rule = [] <->
  is_Some (modules contract !! from rule) /\ forall target, target ∈ to rule -> is_Some (modules contract !! target).
Proof.
  unfold validate_forbidden. rewrite app_nil, error_if_nil, known_false, bind_nil.
  split; intros (H1 & H2); (split; [done|]); intros d Hd.
  - by apply known_false, error_if_nil with (UnknownTarget (from rule) d), H2.
  - by apply error_if_nil, known_false, H2.
Qed.
Lemma validate_gate_nil gate threshold :
  validate_gate (gate, threshold) = [] <-> gate ∈ SUPPORTED_GATES /\ threshold = 0.
Proof.
  unfold validate_gate. case_bool_decide as Hg; cbn [negb]; [|by split; [|intros []]].
  rewrite error_if_nil, negb_false_iff, N.eqb_eq. tauto.
Qed.
Lemma validate_contract_nil contract : validate_contract contract = [] <-> contract_ok contract.
Proof.
  unfold validate_contract. rewrite !app_nil, !error_if_nil, negb_false_iff, N.eqb_eq, bool_decide_eq_false, !bind_nil.
  split.
  - intros (H1 & H2 & H3 & H4 & H5). constructor; [done|done|..].
    + intros name module Hm. by apply (validate_module_nil contract name module), H3, elem_of_ordered.
    + intros rule Hr. by apply validate_forbidden_nil, H4.
    + intros gate threshold Hg. by apply validate_gate_nil, H5, elem_of_ordered.
  - intros [H1 H2 H3 H4 H5]. split; [done|split; [done|split; [|split]]].
    + intros [name module] Hm%elem_of_ordered. by apply (validate_module_nil contract name module), (H3 name).
    + intros rule Hr. by apply validate_forbidden_nil, H4.
    + intros [gate threshold] Hg%elem_of_ordered. by apply (validate_gate_nil gate threshold), H5.
Qed.

(** *** The walk finds the files of the tree *)
Section walk.
Context (root : Path).
Inductive in_tree : Path -> list (option (Str * Entry)) -> Path -> Prop :=
| in_tree_file directory l name :
    Some (name, AFile) ∈ l -> skipped root (Path.join directory name) = false ->
    in_tree directory l (Path.join directory name)
| in_tree_sub directory l name l' p :
    Some (name, ADirectory (Some l')) ∈ l -> skipped root (Path.join directory name) = false ->
    in_tree (Path.join directory name) l' p -> in_tree directory l p.
Inductive unreadable : Path -> Listing -> Prop :=
| unreadable_here directory : unreadable directory None
| unreadable_entry directory l : None ∈ l -> unreadable directory (Some l)
| unreadable_sub directory l name sub :
    Some (name, ADirectory sub) ∈ l -> skipped root (Path.join directory name) = false ->
    unreadable (Path.join directory name) sub -> unreadable directory (Some l).

Definition listed (directory : Path) (l : list (option (Str * Entry))) (entry : Entry) (p : Path) : Prop :=
  exists name, Some (name, entry) ∈ l /\ skipped root p = false /\ p = Path.join directory name.
Lemma listed_cons directory o l entry p :
  listed directory (o :: l) entry p <->
  (exists name, o = Some (name, entry) /\ skipped root p = false /\ p = Path.join directory name) \/ listed directory l entry p.
Proof.
  split.
  - intros (name & [He|Hl]%elem_of_cons & Hs & Hp); [left|right]; by exists name.
  - intros [(name & -> & Hs & Hp)|(name & Hl & Hs & Hp)]; exists name; (split; [|done]); [left|by right].
Qed.

Definition pending_size (pending : list (Path * Listing)) : nat := sum_list_with (fun d => directories (ADirectory d.2)) pending.
Definition entries_size (l : list (option (Str * Entry))) : nat :=
  sum_list_with (fun o => match o with Some (_, e) => directories e | None => O end) l.

Lemma read_entries_spec directory l files pending :
  match read_entries root directory l files pending with
  | Ok (files', pending') =>
    None ∉ l /\
    (forall p, p ∈ files' <-> p ∈ files \/ listed directory l AFile p) /\
    (forall d sub, (d, sub) ∈ pending' <-> (d, sub) ∈ pending \/ listed directory l (ADirectory sub) d) /\
    (pending_size pending' <= pending_size pending + entries_size l)%nat
  | Err _ => None ∈ l
  end.
Proof.
  revert files pending. induction l as [|o l IH]; intros files pending; cbn [read_entries].
  { split; [apply not_elem_of_nil|]. split; [|split; [|cbn; lia]].
    - intros p. split; [by left|]. by intros [?|(n & ?%not_elem_of_nil & _)].
    - intros d sub. split; [by left|]. by intros [?|(n & ?%not_elem_of_nil & _)]. }
  destruct o as [[name entry]|]; [|left].
  assert (forall files1 pending1,
    (forall p, p ∈ files1 <-> p ∈ files \/ (entry = AFile /\ skipped root p = false /\ p = Path.join directory name)) ->
    (forall d sub, (d, sub) ∈ pending1 <-> (d, sub) ∈ pending \/ (entry = ADirectory sub /\ skipped root d = false /\ d = Path.join directory name)) ->
    (pending_size pending1 <= pending_size pending + directories entry)%nat ->
    match read_entries root directory l files1 pending1 with
    | Ok (files', pending') =>
      None ∉ Some (name, entry) :: l /\
      (forall p, p ∈ files' <-> p ∈ files \/ listed directory (Some (name, entry) :: l) AFile p) /\
      (forall d sub, (d, sub) ∈ pending' <-> (d, sub) ∈ pending \/ listed directory (Some (name, entry) :: l) (ADirectory sub) d) /\
      (pending_size pending' <= pending_size pending + entries_size (Some (name, entry) :: l))%nat
    | Err _ => None ∈ Some (name, entry) :: l
    end) as Hstep.
  { intros files1 pending1 Hfiles Hpending Hsize. specialize (IH files1 pending1).
    destruct (read_entries root directory l files1 pending1) as [[files' pending']|e]; [|by right].
    destruct IH as (Hno & Hf & Hp & Hle). split; [by apply not_elem_of_cons|]. split; [|split].
    - intros p. rewrite Hf, Hfiles, listed_cons. split; [intros [[?|(-> & ? & ?)]|?]|intros [?|[(? & [= -> ->] & ? & ?)|?]]]; eauto 8.
    - intros d sub. rewrite Hp, Hpending, listed_cons.
      split; [intros [[?|(-> & ? & ?)]|?]|intros [?|[(? & [= -> ->] & ? & ?)|?]]]; eauto 8.
    - unfold entries_size in *. cbn [sum_list_with]. lia. }
  destruct (skipped root (Path.join directory name)) eqn:Hskip.
  - apply Hstep; [| |lia]; intros; split; [by left|intros [?|(_ & ? & ->)]; congruence|by left|intros [?|(_ & ? & ->)]; congruence].
  - destruct entry as [|sub|].
    + apply Hstep; [| |lia]; intros; [rewrite elem_of_app, list_elem_of_singleton; naive_solver|naive_solver].
    + apply Hstep; [naive_solver| |unfold pending_size; cbn [sum_list_with snd]; lia].
      intros d sub'. rewrite elem_of_cons. split; [intros [[= -> ->]|?]; auto|]. intros [?|([= <-] & _ & ->)]; auto.
    + apply Hstep; [naive_solver|naive_solver|lia].
Qed.

Lemma in_tree_unfold directory l p :
  in_tree directory l p <->
  listed directory l AFile p \/
  exists d l', listed directory l (ADirectory (Some l')) d /\ in_tree d l' p.
Proof.
  split.
  - intros [d k name Hin Hs|d k name l' q Hin Hs Ht]; [left; by exists name|]. right. eexists _, l'.
    split; [by exists name|done].
  - intros [(name & Hin & Hs & ->)|(d & l' & (name & Hin & Hs & ->) & Ht)]; [by apply in_tree_file|by eapply in_tree_sub].
Qed.

Lemma walk_loop_spec fuel : forall pending files, (pending_size pending < fuel)%nat ->
  exists r, walk_loop fuel root pending files = Ret r /\
  match r with
  | Ok files' =>
    (forall p, p ∈ files' <-> p ∈ files \/ exists d l, (d, Some l) ∈ pending /\ in_tree d l p) /\
    (forall d sub, (d, sub) ∈ pending -> ~ unreadable d sub)
  | Err _ => exists d sub, (d, sub) ∈ pending /\ unreadable d sub
  end.
Proof.
  induction fuel as [|fuel IH]; intros pending files Hfuel; [lia|]. cbn [walk_loop].
  destruct pending as [|[directory [l|]] pending].
  { eexists. split; [done|]. split; [|by intros d sub ?%not_elem_of_nil]. intros p. split; [by left|].
    by intros [?|(d & l & ?%not_elem_of_nil & _)]. }
  2:{ eexists. split; [done|]. exists directory, None. split; [left|constructor]. }
  pose proof (read_entries_spec directory l files pending) as Hread.
  destruct (read_entries root directory l files pending) as [[files1 pending1]|e].
  2:{ eexists. split; [done|]. exists directory, (Some l). split; [left|by apply unreadable_entry]. }
  destruct Hread as (Hno & Hfiles & Hpending & Hsize).
  assert (S (entries_size l) + pending_size pending < S fuel)%nat as Hroom by exact Hfuel.
  destruct (IH pending1 files1) as (r & Hr & Hspec); [lia|]. exists r. split; [done|]. destruct r as [files'|e].
  - destruct Hspec as [Hf Hu]. split.
    + intros p. rewrite Hf, Hfiles. setoid_rewrite Hpending. setoid_rewrite elem_of_cons. split.
      * intros [[?|Hl]|(d & l' & [?|Hl] & Ht)]; [by left|right..].
        -- exists directory, l. split; [by left|]. apply in_tree_unfold. by left.
        -- exists d, l'. split; [by right|done].
        -- exists directory, l. split; [by left|]. apply in_tree_unfold. right. by exists d, l'.
      * intros [?|(d & l' & [[= -> ->]|Hin] & Ht)]; [by left; left|..].
        -- apply in_tree_unfold in Ht as [Ht|(d & k & Hl & Ht)]; [by left; right|]. right. exists d, k. split; [by right|done].
        -- right. exists d, l'. split; [by left|done].
    + intros d sub [[= -> ->]|Hin]%elem_of_cons Hbad; [|eapply Hu; [|exact Hbad]; apply Hpending; by left].
      inversion Hbad as [| |? ? name sub Hin Hs Hsub]; subst; [done|]. eapply Hu; [|exact Hsub]. apply Hpending. right. by exists name.
  - destruct Hspec as (d & sub & [Hin|(name & Hin & Hs & ->)]%Hpending & Hbad).
    + exists d, sub. split; [by right|done].
    + exists directory, (Some l). split; [left|]. by eapply unreadable_sub.
Qed.
Lemma walk_files_spec listing :
  exists r, walk_files root listing = Ret r /\
  match r with
  | Ok files => ~ unreadable root listing /\ forall p, p ∈ files <-> exists l, listing = Some l /\ in_tree root l p
  | Err _ => unreadable root listing
  end.
Proof.
  unfold walk_files. destruct (walk_loop_spec (S (directories (ADirectory listing))) [(root, listing)] []) as (r & Hr & Hspec);
    [unfold pending_size; cbn [sum_list_with snd]; lia|]. exists r. split; [done|]. destruct r as [files|e].
  - destruct Hspec as [Hf Hu]. split; [apply Hu; left|]. intros p. rewrite Hf. split.
    + intros [?%not_elem_of_nil|(d & l & [= -> <-]%list_elem_of_singleton & Ht)]; [done|by exists l].
    + intros (l & -> & Ht). right. exists root, l. split; [left|done].
  - destruct Hspec as (d & sub & [= -> ->]%list_elem_of_singleton & Hbad). exact Hbad.
Qed.
End walk.

(** *** Ownership *)
Section ownership.
Context `{Globs} (contract : Contract) (compiled : CompiledContract) (Hcompiled : compile contract = Ok compiled).

Definition owns (path name : Str) : Prop := exists globs, (name, globs) ∈ module_paths compiled /\ is_match globs path = true.
Definition owned_once (path name : Str) : Prop := owns path name /\ forall other, owns path other -> other = name.

Lemma compiled_names : (module_paths compiled).*1 = (ordered (modules contract)).*1.
Proof.
  revert Hcompiled. unfold compile. destruct (compile_globs (governed_paths _)) as [g|]; [|done]. cbn [and_then].
  destruct (compile_globs (excluded_paths _)) as [x|]; [|done]. cbn [and_then].
  match goal with |- context [try_map ?f ?l] => pose proof (try_map_spec f l) as Ht; destruct (try_map f l) as [ps|] end; [|done].
  intros [= <-]. cbn [module_paths]. induction Ht as [|[name module] [name' globs] l ps Hone _ IH]; [done|].
  destruct (compile_globs (paths module)); [|done]. injection Hone as -> _. cbn. by f_equal.
Qed.
Lemma compiled_NoDup : NoDup (module_paths compiled).*1.
Proof. rewrite compiled_names. apply ordered_keys_NoDup. Qed.
Lemma owns_module path name : owns path name -> is_Some (modules contract !! name).
Proof.
  intros (globs & Hin & _). assert (name ∈ (ordered (modules contract)).*1) as Hn.
  { rewrite <- compiled_names. apply list_elem_of_fmap. by exists (name, globs). }
  apply list_elem_of_fmap in Hn as ([n module] & -> & Hm%elem_of_ordered). by exists module.
Qed.

Lemma elem_of_matching path name : name ∈ matching_modules compiled path <-> owns path name.
Proof.
  unfold matching_modules, owns. rewrite list_elem_of_fmap. split.
  - intros ([n globs] & -> & [Hm Hin]%list_elem_of_filter). by exists globs.
  - intros (globs & Hin & Hm). exists (name, globs). split; [done|]. by apply list_elem_of_filter.
Qed.
Lemma matching_NoDup path : NoDup (matching_modules compiled path).
Proof.
  unfold matching_modules. pose proof compiled_NoDup as Hnd. induction (module_paths compiled) as [|[name globs] l IH]; [constructor|].
  cbn in Hnd. apply NoDup_cons in Hnd as [Hno Hnd]. rewrite filter_cons. destruct (decide _); [|by apply IH].
  cbn. apply NoDup_cons. split; [|by apply IH]. intros ([n g] & -> & [_ Hin]%list_elem_of_filter)%list_elem_of_fmap.
  apply Hno, list_elem_of_fmap. by exists (n, g).
Qed.
Lemma matching_one path name : matching_modules compiled path = [name] <-> owned_once path name.
Proof.
  unfold owned_once. setoid_rewrite <- elem_of_matching. split.
  - intros ->. split; [left|]. by intros other ?%list_elem_of_singleton.
  - intros [Hin Hall]. pose proof (matching_NoDup path) as Hnd. destruct (matching_modules compiled path) as [|a l]; [by apply not_elem_of_nil in Hin|].
    assert (a = name) as -> by (apply Hall; left). destruct l as [|b l]; [done|]. exfalso.
    assert (b = name) as -> by (apply Hall; right; left). apply NoDup_cons in Hnd as [Hno _]. apply Hno. left.
Qed.

(** Packages and files that nobody governs need no owner. *)
Definition governed_ok (path owned : Str) : Prop := is_governed compiled path = true -> exists name, owned_once owned name.
Lemma governed_ok_matching path owned :
  governed_ok path owned <->
  negb (is_governed compiled path) = true \/ exists name, matching_modules compiled owned = [name].
Proof.
  unfold governed_ok. setoid_rewrite <- matching_one. destruct (is_governed compiled path); cbn; split.
  - intros Hok. right. by apply Hok.
  - intros [?|?] _; done.
  - intros _. by left.
  - done.
Qed.
End ownership.

(** *** Packages *)
Section packages.
Context `{Globs} (root : Path) (contract : Contract) (compiled : CompiledContract) (Hcompiled : compile contract = Ok compiled).

Definition manifest_of (root_path : Str) : Str := root_path ++ str "/Cargo.toml".
Definition module_of (package : Package) (name : Str) : Prop :=
  exists root_path, package_root root package = Ok root_path /\ is_governed compiled root_path = true /\
    owned_once compiled (manifest_of root_path) name.
Definition package_ok (package : Package) : Prop :=
  exists root_path, package_root root package = Ok root_path /\ governed_ok compiled root_path (manifest_of root_path).
Lemma module_of_unique package m m' : module_of package m -> module_of package m' -> m = m'.
Proof. intros (r & Hr & _ & _ & Hall) (r' & Hr' & _ & Ho & _). assert (r' = r) as -> by congruence. symmetry. by apply Hall. Qed.

Definition no_module (package : Package) : Prop := forall name, ~ module_of package name.

(** What one package adds. *)
Record adds (package : Package) (acc acc' : Packages) : Prop := {
  adds_errors : package_errors acc' = [] <-> package_errors acc = [] /\ package_ok package;
  adds_active : forall m, m ∈ active_modules acc' <-> m ∈ active_modules acc \/ module_of package m;
  adds_modules : forall n m, package_modules acc' !! n = Some m <->
    (n = package_name package /\ module_of package m) \/
    ((n = package_name package -> no_module package) /\ package_modules acc !! n = Some m)
}.
Lemma adds_no_module package acc acc' :
  no_module package -> (package_errors acc' = [] <-> package_errors acc = [] /\ package_ok package) ->
  active_modules acc' = active_modules acc -> package_modules acc' = package_modules acc -> adds package acc acc'.
Proof.
  intros Hno He Ha Hm. constructor; [done|intros m; rewrite Ha|intros n m; rewrite Hm].
  - split; [by left|]. intros [?|Hmod]; [done|]. by apply Hno in Hmod.
  - split; [intros ?; by right|]. intros [[_ Hmod]|[_ ?]]; [by apply Hno in Hmod|done].
Qed.
Lemma one_package_adds package root_path acc :
  package_root root package = Ok root_path -> adds package acc (one_package compiled package root_path acc).
Proof.
  intros Hroot. assert (forall m, module_of package m <->
    is_governed compiled root_path = true /\ matching_modules compiled (manifest_of root_path) = [m]) as Hmod.
  { intros m. unfold module_of. setoid_rewrite <- (matching_one _ _ Hcompiled). rewrite Hroot.
    split; [intros (r & [= <-] & ?); done|intros ?; by exists root_path]. }
  assert (package_ok package <->
    negb (is_governed compiled root_path) = true \/ exists m, matching_modules compiled (manifest_of root_path) = [m]) as Hok.
  { unfold package_ok. setoid_rewrite (governed_ok_matching _ _ Hcompiled). rewrite Hroot.
    split; [intros (r & [= <-] & ?); done|intros ?; by exists root_path]. }
  unfold one_package. fold (manifest_of root_path). destruct (is_governed compiled root_path) eqn:Hg; cbn [negb] in *.
  2:{ apply adds_no_module; try done; [by intros m [? _]%Hmod|]. rewrite Hok. split; [intros ?; split; [done|by left]|by intros []]. }
  destruct (matching_modules compiled (manifest_of root_path)) as [|m [|m' l]] eqn:Hm.
  - apply adds_no_module; try done; [by intros m [_ ?]%Hmod|]. cbn. rewrite Hok, app_nil.
    split; [by intros [_ ?]|]. by intros [_ [?|[m ?]]].
  - constructor; cbn.
    + rewrite Hok. split; [intros ?; split; [done|right; by exists m]|by intros []].
    + intros n. rewrite elem_of_union, elem_of_singleton, Hmod. split; [intros [->|?]; auto|]. intros [?|[_ [= ->]]]; auto.
    + intros n k. rewrite lookup_insert_Some, Hmod. split.
      * intros [[<- ->]|[Hne ?]]; [by left|]. right. split; [by intros ->|done].
      * intros [[-> [_ [= ->]]]|[Hno ?]]; [by left|]. right. split; [|done]. intros <-. apply (Hno eq_refl m). by apply Hmod.
  - apply adds_no_module; try done; [by intros n [_ ?]%Hmod|]. cbn. rewrite Hok, app_nil.
    split; [by intros [_ ?]|]. by intros [_ [?|[n ?]]].
Qed.

(** What all of them add. *)
Record adds_all (packages : list Package) (acc acc' : Packages) : Prop := {
  all_roots : forall p, p ∈ packages -> is_ok (package_root root p) = true;
  all_errors : package_errors acc' = [] <-> package_errors acc = [] /\ forall p, p ∈ packages -> package_ok p;
  all_active : forall m, m ∈ active_modules acc' <-> m ∈ active_modules acc \/ exists p, p ∈ packages /\ module_of p m;
  all_modules : NoDup (map package_name packages) -> forall n m, package_modules acc' !! n = Some m <->
    (exists p, p ∈ packages /\ package_name p = n /\ module_of p m) \/
    ((forall p, p ∈ packages -> package_name p = n -> no_module p) /\ package_modules acc !! n = Some m)
}.
Lemma adds_all_nil acc : adds_all [] acc acc.
Proof.
  constructor; [by intros p ?%not_elem_of_nil|..].
  - split; [|by intros []]. intros ?. split; [done|]. by intros p ?%not_elem_of_nil.
  - intros m. split; [by left|]. by intros [?|(p & ?%not_elem_of_nil & _)].
  - intros _ n m. split; [intros ?; right; split; [by intros p ?%not_elem_of_nil|done]|].
    by intros [(p & ?%not_elem_of_nil & _)|[_ ?]].
Qed.
Lemma adds_all_cons package packages acc acc1 acc' :
  is_ok (package_root root package) = true -> adds package acc acc1 -> adds_all packages acc1 acc' ->
  adds_all (package :: packages) acc acc'.
Proof.
  intros Hroot [He Ha Hm] [Hr HE HA HM]. constructor.
  - intros p [->|Hp]%elem_of_cons; [done|by apply Hr].
  - rewrite HE, He. setoid_rewrite elem_of_cons. naive_solver.
  - intros m. rewrite HA, Ha. setoid_rewrite elem_of_cons. naive_solver.
  - cbn [map]. intros [Hno Hnd]%NoDup_cons n m. rewrite (HM Hnd), Hm. setoid_rewrite elem_of_cons. split.
    + intros [(p & Hp & Hn & Hmod)|[Hrest [[-> Hmod]|[Hfirst Hacc]]]].
      * left. exists p. auto.
      * left. exists package. auto.
      * right. split; [|done]. intros p [->|Hp] Hn; [by apply Hfirst|by eapply Hrest].
    + intros [(p & [->|Hp] & <- & Hmod)|[Hrest Hacc]].
      * right. split; [|by left]. intros q Hq Hn. exfalso. apply Hno. rewrite <- Hn. by apply list_elem_of_fmap_2.
      * left. by exists p.
      * right. split; [intros p Hp; apply Hrest; by right|]. right. split; [|done]. intros ->. apply Hrest; [by left|done].
Qed.
Lemma packages_loop_spec packages acc :
  match packages_loop root compiled packages acc with
  | Ok acc' => adds_all packages acc acc'
  | Err _ => exists p, p ∈ packages /\ is_ok (package_root root p) = false
  end.
Proof.
  revert acc. induction packages as [|package packages IH]; intros acc; cbn [packages_loop]; [apply adds_all_nil|].
  destruct (package_root root package) as [root_path|e] eqn:Hroot; cbn [and_then].
  2:{ exists package. split; [left|by rewrite Hroot]. }
  specialize (IH (one_package compiled package root_path acc)).
  destruct (packages_loop _ _ _ _) as [acc'|e].
  - eapply adds_all_cons; [by rewrite Hroot|by apply one_package_adds|exact IH].
  - destruct IH as (p & Hp & Hbad). exists p. split; [by right|done].
Qed.

(** *** Dependencies *)
Definition depends (packages : list Package) (a b : Str) : Prop :=
  a <> b /\ exists p q d, p ∈ packages /\ q ∈ packages /\ d ∈ dependencies p /\ in_workspace d = true /\
    dependency_name d = package_name q /\ module_of p a /\ module_of q b.
Lemma dependency_edges_spec packages errors acc a b :
  NoDup (map package_name packages) ->
  adds_all packages {| package_errors := errors; package_modules := ∅; active_modules := ∅ |} acc ->
  edge (dependency_edges packages (package_modules acc)) a b <-> depends packages a b.
Proof.
  intros Hnd [_ _ _ HM]. specialize (HM Hnd). cbn [package_modules] in HM.
  assert (forall p m, p ∈ packages -> package_modules acc !! package_name p = Some m <-> module_of p m) as Hmod.
  { intros p m Hp. rewrite HM, lookup_empty. split; [|intros ?; left; by exists p].
    intros [(q & Hq & Hn & ?)|[_ ?]]; [|done]. assert (q = p) as ->; [|done].
    apply list_elem_of_lookup in Hp as [i Hi], Hq as [j Hj].
    assert (i = j) as ->; [|congruence]. eapply NoDup_lookup; [exact Hnd| |]; rewrite list_lookup_fmap;
      [rewrite Hi; reflexivity|rewrite Hj; cbn; by rewrite Hn]. }
  unfold edge, dependency_edges, depends. rewrite elem_of_list_to_set, list_elem_of_bind. split.
  - intros (p & He & Hp). destruct (package_modules acc !! package_name p) as [m|] eqn:Hm; [|by apply not_elem_of_nil in He].
    apply list_elem_of_bind in He as (d & He & Hd). destruct (in_workspace d) eqn:Hw; [|by apply not_elem_of_nil in He].
    destruct (package_modules acc !! dependency_name d) as [k|] eqn:Hk; [|by apply not_elem_of_nil in He].
    case_bool_decide as Hne; [by apply not_elem_of_nil in He|]. apply list_elem_of_singleton in He as [= -> ->]. split; [done|].
    pose proof Hk as Hk'. apply HM in Hk' as [(q & Hq & Hn & Hmq)|[_ ?]]; [|by rewrite lookup_empty in *].
    exists p, q, d. apply Hmod in Hm; [|done]. by repeat split.
  - intros (Hne & p & q & d & Hp & Hq & Hd & Hw & Hn & Hpa & Hqb). exists p. split; [|done].
    apply Hmod in Hpa as ->; [|done]. apply list_elem_of_bind. exists d. split; [|done]. rewrite Hw, Hn.
    apply Hmod in Hqb as ->; [|done]. rewrite bool_decide_eq_false_2 by done. left.
Qed.
End packages.

(** ** The check accepts exactly the workspaces that conform *)
Section conformance.
Context `{Globs} (root : Path) (contract : Contract) (packages : list Package) (listing : Listing) (api_is_file : Str -> bool).

(** What the contract asks of a workspace. *)
Record conforms (compiled : CompiledContract) : Prop := {
  conf_contract : contract_ok contract;
  conf_packages : forall p, p ∈ packages -> package_ok root compiled p;
  conf_readable : ~ unreadable root root listing;
  conf_files : forall l path, listing = Some l -> in_tree root root l path ->
    exists relative, relative_path root path = Ok relative /\ governed_ok compiled relative relative;
  conf_apis : forall p m module api, p ∈ packages -> module_of root compiled p m -> modules contract !! m = Some module ->
    api ∈ public_api module -> api_is_file api = true;
  conf_allowed : forall a b module, depends root compiled packages a b -> modules contract !! a = Some module ->
    b ∈ may_depend_on module;
  conf_not_forbidden : forall a b rule, depends root compiled packages a b -> rule ∈ forbidden_dependencies contract ->
    from rule = a -> b ∉ to rule;
  conf_acyclic : forall m, ~ tc (depends root compiled packages) m m
}.

Lemma existsb_str l (b : Str) : existsb (fun candidate => bool_decide (candidate = b)) l = true <-> b ∈ l.
Proof.
  rewrite existsb_exists. split.
  - intros (x & Hx & ->%bool_decide_eq_true). by apply list_elem_of_In.
  - intros Hb. exists b. split; [by apply list_elem_of_In|by apply bool_decide_eq_true].
Qed.
Lemma one_file_spec compiled path :
  compile contract = Ok compiled ->
  match one_file root compiled path with
  | Ok errors => exists relative, relative_path root path = Ok relative /\ (errors = [] <-> governed_ok compiled relative relative)
  | Err _ => is_ok (relative_path root path) = false
  end.
Proof.
  intros Hc. unfold one_file. destruct (relative_path root path) as [relative|]; [|done]. cbn [and_then]. exists relative. split; [done|].
  rewrite (governed_ok_matching contract compiled Hc). destruct (is_governed compiled relative); cbn [negb].
  - destruct (matching_modules compiled relative) as [|m [|m' l]]; split; try done; try (by intros [?|[? ?]]).
    intros _. right. by exists m.
  - split; [by left|done].
Qed.
Lemma governed_files_spec compiled :
  compile contract = Ok compiled ->
  exists r, validate_governed_files root listing compiled = Ret r /\
  match r with
  | Ok errors => ~ unreadable root root listing /\
      (errors = [] <-> forall l path, listing = Some l -> in_tree root root l path ->
         exists relative, relative_path root path = Ok relative /\ governed_ok compiled relative relative)
  | Err _ => unreadable root root listing \/
      exists l path, listing = Some l /\ in_tree root root l path /\ is_ok (relative_path root path) = false
  end.
Proof.
  intros Hc. unfold validate_governed_files. destruct (walk_files_spec root listing) as (r & -> & Hr).
  destruct r as [files|e]; [|eexists; split; [done|by left]]. destruct Hr as [Hread Hfiles].
  pose proof (try_map_spec (one_file root compiled) files) as Ht. eexists. split; [done|].
  destruct (try_map (one_file root compiled) files) as [errors|e]; cbn [and_then].
  - split; [done|]. transitivity (forall path, path ∈ files ->
      exists relative, relative_path root path = Ok relative /\ governed_ok compiled relative relative).
    2:{ setoid_rewrite Hfiles. naive_solver. }
    clear Hfiles. induction Ht as [|path es files errors Hone _ IH]; [split; [by intros _ p ?%not_elem_of_nil|done]|].
    pose proof (one_file_spec compiled path Hc) as Hspec. rewrite Hone in Hspec. destruct Hspec as (relative & Hrel & Hes).
    cbn [concat]. rewrite app_nil, IH, Hes. setoid_rewrite elem_of_cons. split.
    + intros [Hok Hall] p [->|Hp]; [by exists relative|by apply Hall].
    + intros Hall. split; [|by intros p Hp; apply Hall; right].
      destruct (Hall path) as (r & Hr & Hok); [by left|]. assert (r = relative) as -> by congruence. exact Hok.
  - right. destruct Ht as (path & Hp & Hone). pose proof (one_file_spec compiled path Hc) as Hspec. rewrite Hone in Hspec.
    apply Hfiles in Hp as (l & -> & Ht). by exists l, path.
Qed.

Lemma public_apis_spec compiled active :
  compile contract = Ok compiled -> (forall m, m ∈ active <-> exists p, p ∈ packages /\ module_of root compiled p m) ->
  exists es, validate_public_apis api_is_file contract active = Ret es /\
  (es = [] <-> forall p m module api, p ∈ packages -> module_of root compiled p m -> modules contract !! m = Some module ->
     api ∈ public_api module -> api_is_file api = true).
Proof.
  intros Hc Hactive. unfold validate_public_apis. edestruct (concat_outcomes_spec
    (fun name => match module_at contract name with
                 | Ret module => Ret (public_api module ≫= fun api => error_if (negb (api_is_file api)) (MissingApi name api))
                 | Panic => Panic | OutOfFuel => OutOfFuel end)
    (fun m => forall module api, modules contract !! m = Some module -> api ∈ public_api module -> api_is_file api = true)
    (sorted_names active)) as (es & -> & Hes).
  - intros m Hm. apply elem_of_sorted_names, Hactive in Hm as (p & Hp & r & _ & _ & Ho & _).
    destruct (owns_module contract compiled Hc _ _ Ho) as [module Hmod]. unfold module_at. rewrite Hmod.
    eexists. split; [done|]. rewrite bind_nil. setoid_rewrite error_if_nil. setoid_rewrite negb_false_iff.
    split; [|intros Hall api Hapi; by eapply Hall]. intros Hall module' api Hm' Hapi. apply Hall.
    by assert (module' = module) as <- by congruence.
  - exists es. split; [done|]. rewrite Hes. setoid_rewrite elem_of_sorted_names. setoid_rewrite Hactive. naive_solver.
Qed.

Lemma validate_edges_spec compiled edges :
  compile contract = Ok compiled -> (forall a b, edge edges a b <-> depends root compiled packages a b) ->
  exists es, validate_edges contract edges = Ret es /\
  (es = [] <->
   (forall a b module, depends root compiled packages a b -> modules contract !! a = Some module -> b ∈ may_depend_on module) /\
   (forall a b rule, depends root compiled packages a b -> rule ∈ forbidden_dependencies contract -> from rule = a -> b ∉ to rule)).
Proof.
  intros Hc Hedges. unfold validate_edges. edestruct (concat_outcomes_spec (one_edge contract)
    (fun '(a, b) => (forall module, modules contract !! a = Some module -> b ∈ may_depend_on module) /\
       (forall rule, rule ∈ forbidden_dependencies contract -> from rule = a -> b ∉ to rule)) (sorted_edges edges)) as (es & -> & Hes).
  - intros [a b] He. apply elem_of_sorted_edges, Hedges in He as (_ & p & q & d & _ & _ & _ & _ & _ & (r & _ & _ & Ho & _) & _).
    destruct (owns_module contract compiled Hc _ _ Ho) as [module Hmod]. unfold one_edge, module_at. cbn [fst snd]. rewrite Hmod.
    eexists. split; [done|]. rewrite app_nil, !error_if_nil, negb_false_iff, existsb_str. split.
    + intros [Hallowed Hforbidden]. split; [by intros ? [= <-]|]. intros rule Hrule Hfrom Hto.
      assert (existsb (fun rule => bool_decide (from rule = a) && existsb (fun target => bool_decide (target = b)) (to rule))
                (forbidden_dependencies contract) = true); [|congruence].
      apply existsb_exists. exists rule. split; [by apply list_elem_of_In|]. apply andb_true_iff.
      split; [by apply bool_decide_eq_true|by apply existsb_str].
    + intros [Hallowed Hforbidden]. split; [by apply Hallowed|]. apply not_true_is_false.
      intros (rule & Hrule & [Hf%bool_decide_eq_true Ht%existsb_str]%andb_true_iff)%existsb_exists.
      by apply (Hforbidden rule); [apply list_elem_of_In|..].
  - exists es. split; [done|]. rewrite Hes. setoid_rewrite elem_of_sorted_edges. split.
    + intros Hall. split; intros a b ? Hd ?; by apply (Hall (a, b)); [apply Hedges|..].
    + intros [H1 H2] [a b] He%Hedges. split; intros ? ?; [by eapply H1|by eapply H2].
Qed.

Lemma validate_cycles_spec edges :
  exists es, validate_cycles edges = Ret es /\ (es = [] <-> forall m, ~ tc (edge edges) m m).
Proof.
  unfold validate_cycles. edestruct (concat_outcomes_spec
    (fun start => match reaches (S (size (edge_nodes edges))) start start edges ∅ true with
                  | Ret (found, _) => Ret (error_if found (CycleIncludes start))
                  | Panic => Panic | OutOfFuel => OutOfFuel end)
    (fun m => ~ tc (edge edges) m m) (sorted_names (edge_nodes edges))) as (es & -> & Hes).
  - intros m Hm%elem_of_sorted_names. pose proof (search_cycle edges m Hm) as Hs.
    destruct (reaches _ _ _ _ _ _) as [[b v]| |]; [|done..]. eexists. split; [done|]. rewrite error_if_nil, <- Hs. by destruct b.
  - exists es. split; [done|]. rewrite Hes. setoid_rewrite elem_of_sorted_names. split; [|by intros Hall m _].
    intros Hall m Htc. apply (Hall m); [|done]. apply elem_of_edge_nodes. inversion Htc; eauto.
Qed.
Lemma tc_ext (R S : Str -> Str -> Prop) : (forall a b, R a b <-> S a b) -> forall a b, tc R a b <-> tc S a b.
Proof.
  intros HRS a b. split; induction 1 as [a b Hab|a b c Hab _ IH];
    [apply tc_once|eapply tc_l; [|exact IH]|apply tc_once|eapply tc_l; [|exact IH]]; by apply HRS.
Qed.
End conformance.

(** C40. The check of the architecture contract always answers, without a panic,
    and accepts a workspace exactly when its contract is well formed, every
    governed package and file is owned by exactly one module, the public
    interfaces of the modules in use exist, modules depend only on what they are
    allowed and never on what is forbidden, and no module depends on itself
    through others; it then reports exactly the modules that own a package. *)
Theorem architecture_checked `{Globs} root contract packages listing api_is_file :
  NoDup (map package_name packages) ->
  exists r, evaluate root contract packages listing api_is_file = Ret r /\
  (is_ok r = true <-> exists compiled, compile contract = Ok compiled /\
     conforms root contract packages listing api_is_file compiled) /\
  (forall report compiled, r = Ok report -> compile contract = Ok compiled ->
     forall m, m ∈ reported_modules report <-> exists p, p ∈ packages /\ module_of root compiled p m).
Proof.
  intros Hnd. unfold evaluate. destruct (compile contract) as [compiled|e] eqn:Hc.
  2:{ eexists. split; [done|]. split; [split; [done|by intros (? & [=] & _)]|done]. }
  pose proof (packages_loop_spec root contract compiled Hc packages
    {| package_errors := validate_contract contract; package_modules := ∅; active_modules := ∅ |}) as Hp.
  destruct (packages_loop _ _ _ _) as [acc|e].
  2:{ destruct Hp as (p & Hp & Hroot). eexists. split; [done|]. split; [split; [done|]|done].
      intros (compiled' & Heq & Hconf). assert (compiled' = compiled) as -> by congruence.
      destruct (conf_packages _ _ _ _ _ _ Hconf p Hp) as (r & Hr & _). by rewrite Hr in Hroot. }
  assert (forall a b, edge (dependency_edges packages (package_modules acc)) a b <-> depends root compiled packages a b) as Hedges
    by (intros a b; eapply dependency_edges_spec; [done|exact Hp]).
  assert (forall m, m ∈ active_modules acc <-> exists p, p ∈ packages /\ module_of root compiled p m) as Hactive.
  { intros m. rewrite (all_active _ _ _ _ _ Hp). cbn. split; [intros [?%not_elem_of_empty|?]; done|by right]. }
  destruct (governed_files_spec root contract listing compiled Hc) as (files & -> & Hfiles).
  destruct files as [file_errors|e].
  2:{ eexists. split; [done|]. split; [split; [done|]|done].
      intros (compiled' & Heq & Hconf). assert (compiled' = compiled) as -> by congruence. exfalso.
      destruct Hfiles as [Hbad|(l & path & Hl & Ht & Hbad)]; [by apply (conf_readable _ _ _ _ _ _ Hconf)|].
      destruct (conf_files _ _ _ _ _ _ Hconf l path Hl Ht) as (r & Hr & _). by rewrite Hr in Hbad. }
  destruct (public_apis_spec root contract packages api_is_file compiled _ Hc Hactive) as (api_errors & -> & Hapis).
  destruct (validate_edges_spec root contract packages compiled _ Hc Hedges) as (edge_errors & -> & Hallowed).
  destruct (validate_cycles_spec (dependency_edges packages (package_modules acc))) as (cycle_errors & -> & Hcycles).
  set (errors := package_errors acc ++ file_errors ++ api_errors ++ edge_errors ++ cycle_errors).
  assert (errors = [] <-> conforms root contract packages listing api_is_file compiled) as Hall.
  { unfold errors. rewrite !app_nil, (all_errors _ _ _ _ _ Hp), (proj2 Hfiles), Hapis, Hallowed, Hcycles. cbn [package_errors].
    rewrite validate_contract_nil. setoid_rewrite (tc_ext _ _ Hedges). split.
    - intros ([H1 H2] & H3 & H4 & [H5 H6] & H7). constructor; try done. apply Hfiles.
    - intros []. repeat (split; [done|]). done. }
  eexists. split; [done|]. split.
  - destruct errors as [|e es].
    + split; [intros _; exists compiled; split; [done|by apply Hall]|done].
    + split; [done|]. intros (compiled' & Heq & Hconf). assert (compiled' = compiled) as -> by congruence.
      by apply Hall in Hconf.
  - intros report compiled' Hr Heq m. assert (compiled' = compiled) as -> by congruence.
    destruct errors; [|done]. injection Hr as <-. cbn. rewrite elem_of_sorted_names. apply Hactive.
Qed.

(** ** A workspace of two crates *)
Module ArchitectureExamples.
(** Globs that are prefixes. *)
#[local] Instance prefixes : Globs := {|
  Glob := Str; GlobSet := list Str; glob_new p := Some p; glob_build l := Some l;
  is_match set path := existsb (fun p => starts_with_str p path) set
|}.
Definition module_ (path : Str) (allowed : list Str) : Module_ :=
  {| paths := [path]; owner := str "core"; may_depend_on := allowed; public_api := [path ++ str "src/lib.rs"] |}.
Definition two_modules (protocol_may : list Str) : Contract := {|
  version := 1;
  governance := {| governed_paths := [str "crates/"]; excluded_paths := [str "crates/old"] |};
  modules := {[ str "session" := module_ (str "crates/session/") [str "protocol"];
                str "protocol" := module_ (str "crates/protocol/") protocol_may ]};
  forbidden_dependencies := [{| from := str "protocol"; to := [] |}];
  gates := {[ str "dependency_cycles" := 0 ]}
|}.
Definition root : Path := Path.from (str "/work").
Definition package (name : Str) (deps : list Str) : Package :=
  {| package_name := name; manifest_path := Path.join_path root (Path.from (str "crates/" ++ name ++ str "/Cargo.toml"));
     dependencies := map (fun d => {| dependency_name := d; in_workspace := true |}) deps |}.
Definition crate_files : Entry :=
  ADirectory (Some [Some (str "Cargo.toml", AFile); Some (str "src", ADirectory (Some [Some (str "lib.rs", AFile)]))]).
Definition tree : Listing :=
  Some [Some (str ".git", ADirectory None); Some (str "README.md", AFile);
        Some (str "crates", ADirectory (Some [Some (str "session", crate_files); Some (str "protocol", crate_files)]))].
Definition library_exists (api : Str) : bool := contains_str (str "lib.rs") api.
Definition layered : list Package := [package (str "session") [str "protocol"]; package (str "protocol") []].
Definition circular : list Package := [package (str "session") [str "protocol"]; package (str "protocol") [str "session"]].

Example layered_accepted :
  evaluate root (two_modules []) layered tree library_exists
  = Ret (Ok {| reported_modules := [str "protocol"; str "session"] |}).
Proof. vm_compute. reflexivity. Qed.
Example circular_refused :
  evaluate root (two_modules [str "session"]) circular tree library_exists
  = Ret (Err (ContractFailed [CycleIncludes (str "protocol"); CycleIncludes (str "session")])).
Proof. vm_compute. reflexivity. Qed.

Lemma architecture_checked_witness :
  exists compiled, compile (two_modules []) = Ok compiled /\
    conforms root (two_modules []) layered tree library_exists compiled.
Proof.
  assert (NoDup (map package_name layered)) as Hnd by (eapply bool_decide_eq_true_1; vm_compute; reflexivity).
  destruct (architecture_checked root (two_modules []) layered tree library_exists Hnd) as (r & Hr & Hok & _).
  apply Hok. rewrite layered_accepted in Hr. injection Hr as <-. reflexivity.
Defined.
End ArchitectureExamples.
