(* ===== verification/Docs.v ===== *)
(** The check of the links in the documentation ([src/xtask/src/docs.rs]):
    which Markdown files there are, the links outside code fences, and whether
    each leads to a file of the repository and to a heading of it.  Symbolic
    links are left out; which characters outside ASCII are alphanumeric is a
    table of the standard library and a parameter. *)
From S2P Require Import Prelude Str.

(** ** The repository

    What is under a directory; [None] where it, or one of its entries, or the
    text of a file, cannot be read. *)
Inductive Entry :=
| AFile (text : option Str)
| ADirectory (listing : option (list (option (Str * Entry))))
| AnOther.
(** The components of a path below the root of the repository, or of the file system. *)
Definition Relative : Type := list Str.

Fixpoint entry_named (name : Str) (l : list (option (Str * Entry))) : option Entry :=
  match l with
  | [] => None
  | Some (n, e) :: l => if bool_decide (n = name) then Some e else entry_named name l
  | None :: l => entry_named name l
  end.
Fixpoint find (path : Relative) (e : Entry) : option Entry :=
  match path with
  | [] => Some e
  | name :: path =>
    match e with
    | ADirectory (Some l) => match entry_named name l with Some e => find path e | None => None end
    | _ => None
    end
  end.

Inductive Failure :=
| CannotRead (path : Relative)
| CannotReadDirectory (path : Relative)
| CannotReadEntry.
Inductive Problem := LinkEscapes | MissingTarget | MissingHeading (fragment : Str) (target : Relative).
Record DocError := { source : Relative; line : N; destination : Str; problem : Problem }.

(** ** Markdown files *)
(** [Path::extension] of a file name. *)
Definition extension (name : Str) : option Str :=
  match rsplit_once 46 name with
  | Some ([], _) | None => None
  | Some (_, extension) => Some extension
  end.
Definition is_markdown (path : Relative) : bool :=
  match last path with Some name => bool_decide (extension name = Some (str "md")) | None => false end.

Fixpoint collect_markdown (path : Relative) (e : Entry) : result (list Relative) Failure :=
  match e with
  | AFile _ => Ok (if is_markdown path then [path] else [])
  | AnOther | ADirectory None => Err (CannotReadDirectory path)
  | ADirectory (Some l) =>
    (fix entries l :=
       match l with
       | [] => Ok []
       | None :: _ => Err CannotReadEntry
       | Some (name, e) :: l =>
         let? files := collect_markdown (path ++ [name]) e in
         let? rest := entries l in
         Ok (files ++ rest)
       end) l
  end.
Fixpoint top_level (l : list (option (Str * Entry))) : result (list Relative) Failure :=
  match l with
  | [] => Ok []
  | None :: _ => Err CannotReadEntry
  | Some (name, e) :: l =>
    let? rest := top_level l in
    Ok (match e with AFile _ => if is_markdown [name] then [[name]] else [] | _ => [] end ++ rest)
  end.

Fixpoint path_leb (p q : Relative) : bool :=
  match p, q with
  | [], _ => true
  | _ :: _, [] => false
  | a :: p, b :: q => if bool_decide (a = b) then path_leb p q else str_leb a b
  end.
(** [Vec::dedup] *)
Fixpoint dedup (l : list Relative) : list Relative :=
  match l with
  | a :: ((b :: _) as l) => if bool_decide (a = b) then dedup l else a :: dedup l
  | l => l
  end.
Definition collected (name : Str) (repository : Entry) : result (list Relative) Failure :=
  match find [name] repository with Some e => collect_markdown [name] e | None => Ok [] end.
Definition markdown_files (repository : Entry) : result (list Relative) Failure :=
  match repository with
  | ADirectory (Some l) =>
    let? files := top_level l in
    let? docs := collected (str "docs") repository in
    let? experiments := collected (str "experiments") repository in
    Ok (dedup (merge_sort path_leb (files ++ docs ++ experiments)))
  | _ => Err (CannotReadDirectory [])
  end.

(** ** Links *)
(** What comes before and after the first occurrence of a text. *)
Fixpoint split_at_str (p s : Str) : option (Str * Str) :=
  match strip_prefix p s with
  | Some rest => Some ([], rest)
  | None =>
    match s with
    | [] => None
    | c :: s => match split_at_str p s with Some (before, after) => Some (c :: before, after) | None => None end
    end
  end.

(** What a link says its destination is: without angle brackets, without a title. *)
Definition clean_destination (text : Str) : Str :=
  let raw := trim text in
  let raw := match strip_prefix [60] raw with
             | Some value => default raw (strip_suffix [62] value)
             | None => raw
             end in
  trim (match split_at_str [32; 34] raw with Some (path, _) => path | None => raw end).
Fixpoint destinations (fuel : nat) (rest : Str) : outcome (list Str) :=
  match fuel with
  | O => OutOfFuel
  | S fuel =>
    match split_at_str (str "](") rest with
    | None => Ret []
    | Some (_, destination) =>
      match split_once 41 destination with
      | None => Ret []
      | Some (text, rest) =>
        match destinations fuel rest with
        | Ret links => Ret (clean_destination text :: links)
        | Panic => Panic
        | OutOfFuel => OutOfFuel
        end
      end
    end
  end.
(** Every turn takes at least three characters. *)
Definition link_destinations (line : Str) : outcome (list Str) := destinations (S (length line)) line.

(** ** Headings *)
Class Unicode := { is_alphanumeric : Char -> bool }.

Section docs.
Context `{Unicode}.

Definition slug_char (c : Char) : option Char :=
  if is_alphanumeric c || (c =? 45) || (c =? 95) then Some (char_to_ascii_lowercase c)
  else if is_whitespace c then Some 45
  else None.
Definition slug (heading : Str) : Str := omap slug_char heading.
Definition heading_of (line : Str) : option Str :=
  match strip_prefix [35] (trim_start is_whitespace line) with
  | None => None
  | Some heading =>
    let heading := trim (trim_start (fun c => c =? 35) heading) in
    if is_empty heading then None else Some (slug heading)
  end.
Definition headings (text : Str) : gset Str := list_to_set (omap heading_of (lines text)).

(** ** Validating

    [root] is where the repository lies in the file system. *)
Context (root : list Str) (repository : Entry).

(** [normalize(base.join(path))] of absolute paths. *)
Definition step_into (path : list Str) (component : Str) : list Str :=
  if is_empty component || bool_decide (component = [46]) then path
  else if bool_decide (component = [46; 46]) then removelast path
  else path ++ [component].
Definition normalize_joined (base : list Str) (path : Str) : list Str :=
  foldl step_into (if starts_with 47 path then [] else base) (split 47 path).
(** [strip_prefix(root)] *)
Fixpoint below (root path : list Str) : option Relative :=
  match root, path with
  | [], path => Some path
  | a :: root, b :: path => if bool_decide (a = b) then below root path else None
  | _ :: _, [] => None
  end.

Definition is_external (destination : Str) : bool :=
  is_empty destination || starts_with_str (str "http://") destination || starts_with_str (str "https://") destination
  || starts_with_str (str "mailto:") destination.
Definition target_of (source : Relative) (destination : Str) : list Str * option Str :=
  let '(path_part, fragment) :=
    match split_once 35 destination with Some (path, fragment) => (path, Some fragment) | None => (destination, None) end in
  (if is_empty path_part then root ++ source else normalize_joined (root ++ removelast source) path_part, fragment).
Definition read_to_string (path : Relative) : result Str Failure :=
  match find path repository with Some (AFile (Some text)) => Ok text | _ => Err (CannotRead path) end.

Definition validate_link (source : Relative) (line : N) (destination : Str) : result (list DocError) Failure :=
  let error problem := [{| source := source; line := line; destination := destination; problem := problem |}] in
  if is_external destination then Ok []
  else
    let '(path, fragment) := target_of source destination in
    match below root path with
    | None => Ok (error LinkEscapes)
    | Some target =>
      match find target repository with
      | None => Ok (error MissingTarget)
      | Some _ =>
        match fragment with
        | Some fragment =>
          if negb (is_empty fragment) && is_markdown path then
            let? text := read_to_string target in
            Ok (if bool_decide (fragment ∈ headings text) then [] else error (MissingHeading fragment target))
          else Ok []
        | None => Ok []
        end
      end
    end.

Fixpoint validate_links (source : Relative) (line : N) (links : list Str) : result (list DocError) Failure :=
  match links with
  | [] => Ok []
  | destination :: links =>
    let? errors := validate_link source line destination in
    let? rest := validate_links source line links in
    Ok (errors ++ rest)
  end.
Definition is_fence (line : Str) : bool := starts_with_str [96; 96; 96] (trim_start is_whitespace line).
Fixpoint validate_lines (source : Relative) (n : N) (fenced : bool) (l : list Str) : outcome (result (list DocError) Failure) :=
  match l with
  | [] => Ret (Ok [])
  | line :: l =>
    if is_fence line then validate_lines source (n + 1) (negb fenced) l
    else if fenced then validate_lines source (n + 1) fenced l
    else
      match link_destinations line with
      | Ret links =>
        match validate_links source n links with
        | Ok errors =>
          match validate_lines source (n + 1) fenced l with
          | Ret (Ok rest) => Ret (Ok (errors ++ rest))
          | other => other
          end
        | Err e => Ret (Err e)
        end
      | Panic => Panic
      | OutOfFuel => OutOfFuel
      end
  end.
Definition validate_file (source : Relative) : outcome (result (list DocError) Failure) :=
  match read_to_string source with
  | Err e => Ret (Err e)
  | Ok text => validate_lines source 1 false (lines text)
  end.
Fixpoint validate_files (files : list Relative) : outcome (result (list DocError) Failure) :=
  match files with
  | [] => Ret (Ok [])
  | path :: files =>
    match validate_file path with
    | Ret (Ok errors) =>
      match validate_files files with Ret (Ok rest) => Ret (Ok (errors ++ rest)) | other => other end
    | other => other
    end
  end.

Inductive CheckError := CannotCheck (e : Failure) | CheckFailed (errors : list DocError).
Definition check : outcome (result N CheckError) :=
  match markdown_files repository with
  | Err e => Ret (Err (CannotCheck e))
  | Ok markdown =>
    match validate_files markdown with
    | Ret (Ok []) => Ret (Ok (len markdown))
    | Ret (Ok errors) => Ret (Err (CheckFailed errors))
    | Ret (Err e) => Ret (Err (CannotCheck e))
    | Panic => Panic
    | OutOfFuel => OutOfFuel
    end
  end.
End docs.

(** ** Links of a line *)
Lemma split_at_str_spec p s before after : split_at_str p s = Some (before, after) -> s = before ++ p ++ after.
Proof.
  revert before. induction s as [|c s IH]; intros before; cbn [split_at_str].
  - destruct (strip_prefix p []) as [rest|] eqn:Hp; [|done]. intros [= <- <-]. by apply strip_prefix_Some in Hp.
  - destruct (strip_prefix p (c :: s)) as [rest|] eqn:Hp.
    + intros [= <- <-]. by apply strip_prefix_Some in Hp.
    + destruct (split_at_str p s) as [[b a]|]; [|done]. intros [= <- <-]. cbn. by rewrite (IH b eq_refl).
Qed.
(** The first place where the text stands. *)
Lemma split_at_link before after :
  contains_str (str "](") before = false -> split_at_str (str "](") (before ++ str "](" ++ after) = Some (before, after).
Proof.
  induction before as [|c s IH]; cbn [app]; intros Hc; [done|].
  cbn [contains_str] in Hc. apply orb_false_iff in Hc as [Hp Hc]. specialize (IH Hc).
  change (split_at_str (str "](") (c :: s ++ str "](" ++ after)) with
    (match strip_prefix (str "](") (c :: s ++ str "](" ++ after) with
     | Some rest => Some ([], rest)
     | None => match split_at_str (str "](") (s ++ str "](" ++ after) with Some (b, a) => Some (c :: b, a) | None => None end
     end).
  rewrite IH. destruct (strip_prefix (str "](") (c :: s ++ str "](" ++ after)) as [rest|] eqn:Hs; [|done].
  apply strip_prefix_Some in Hs. exfalso. revert Hp Hs. cbn. intros Hp Hs. injection Hs as -> Hs.
  destruct s as [|d s]; [by cbn in Hs|]. cbn in Hs. injection Hs as -> Hs. by cbn in Hp.
Qed.

Lemma split_once_shorter c s a b : split_once c s = Some (a, b) -> (length b < length s)%nat.
Proof.
  revert a. induction s as [|d s IH]; intros a; cbn; [done|]. destruct (d =? c); [intros [= <- <-]; lia|].
  destruct (split_once c s) as [[x y]|]; [|done]. intros [= <- <-]. specialize (IH x eq_refl). lia.
Qed.
Lemma destinations_enough fuel fuel' s :
  (length s < fuel)%nat -> (length s < fuel')%nat ->
  destinations fuel s = destinations fuel' s /\ exists links, destinations fuel s = Ret links.
Proof.
  revert fuel' s. induction fuel as [|fuel IH]; intros [|fuel'] s Hf Hf'; [lia..|]. cbn [destinations].
  destruct (split_at_str (str "](") s) as [[before destination]|] eqn:Hs; [|eauto].
  apply split_at_str_spec in Hs as ->. destruct (split_once 41 destination) as [[text rest]|] eqn:Ho; [|eauto].
  apply split_once_shorter in Ho. rewrite !length_app in Hf, Hf'. cbn in Hf, Hf'.
  destruct (IH fuel' rest) as (He & links & Hl); [lia..|]. rewrite <-He, Hl. eauto.
Qed.

(** Every line has its links: reading them always ends. *)
Definition links_of (line : Str) : list Str := match link_destinations line with Ret links => links | _ => [] end.
Lemma link_destinations_total line : link_destinations line = Ret (links_of line).
Proof.
  unfold links_of. destruct (destinations_enough (S (length line)) (S (length line)) line) as (_ & links & Hl); [lia..|].
  unfold link_destinations. by rewrite Hl.
Qed.

(** The links of a line are read from left to right: up to the next place where a label
    ends and a destination begins nothing counts, the destination goes up to the next
    closing parenthesis, and reading goes on behind it. *)
Theorem links_of_line before text rest :
  contains_str (str "](") before = false -> 41 ∉ text ->
  links_of before = [] /\
  links_of (before ++ str "](" ++ text ++ 41 :: rest) = clean_destination text :: links_of rest.
Proof.
  intros Hb Ht. split.
  - unfold links_of, link_destinations. cbn [destinations].
    destruct (split_at_str (str "](") before) as [[b a]|] eqn:Hs; [|done]. apply split_at_str_spec in Hs. exfalso.
    subst before. clear Ht. induction b as [|c b IH]; [by cbn in Hb|]. cbn [app contains_str] in Hb.
    apply orb_false_iff in Hb as [_ Hb]. by apply IH.
  - unfold links_of, link_destinations at 1. cbn [destinations]. rewrite split_at_link, split_once_free by done.
    match goal with
    | |- context [destinations ?fuel rest] =>
      rewrite (proj1 (destinations_enough fuel (S (length rest)) rest ltac:(rewrite !length_app; cbn; rewrite ?length_app; cbn; lia) ltac:(lia)))
    end.
    fold (link_destinations rest). by rewrite link_destinations_total.
Qed.

(** ** What a valid documentation is *)
Section meaning.
Context `{Unicode} (root : list Str) (repository : Entry).

Definition resolves (source : Relative) (destination : Str) : Prop :=
  is_external destination = true \/
  exists target, below root (target_of root source destination).1 = Some target /\ is_Some (find target repository) /\
    forall fragment, (target_of root source destination).2 = Some fragment -> fragment <> [] ->
      is_markdown (target_of root source destination).1 = true ->
      exists text, find target repository = Some (AFile (Some text)) /\ fragment ∈ headings text.

(** A line counts if it is no fence and as many fences were opened before it as closed. *)
Definition fences (l : list Str) : nat := length (filter (fun line => is_fence line = true) l).
Definition outside_from (fenced : bool) (l : list Str) (i : nat) : Prop :=
  exists line, l !! i = Some line /\ is_fence line = false /\ Nat.even (fences (take i l)) = negb fenced.
Definition link_in (text : Str) (destination : Str) : Prop :=
  exists i line, lines text !! i = Some line /\ outside_from false (lines text) i /\ destination ∈ links_of line.

Lemma validate_link_ok source line destination :
  validate_link root repository source line destination = Ok [] <-> resolves source destination.
Proof.
  unfold validate_link, resolves. destruct (is_external destination); [by split; [left|]|].
  destruct (target_of root source destination) as [path fragment]. cbn [fst snd].
  destruct (below root path) as [target|]; [|split; [done|intros [?|(? & ? & _)]; done]].
  destruct (find target repository) as [e|] eqn:Hf;
    [|split; [done|intros [?|(? & [= <-] & [? He] & _)]; [done|congruence]]].
  assert (forall P : Prop, (false = true \/ exists t, Some target = Some t /\ is_Some (find t repository) /\ P) <-> P) as Hone.
  { intros P. split; [intros [?|(? & _ & _ & ?)]; done|]. intros HP. right. exists target. rewrite Hf. eauto. }
  destruct fragment as [fragment|]; [|split; [intros _; right; exists target; rewrite Hf; split_and!; [done|eauto|done]|done]].
  destruct fragment as [|c fragment]; cbn [is_empty negb andb].
  { split; [|done]. intros _. right. exists target. rewrite Hf. split_and!; [done|eauto|]. by intros ? [= <-]. }
  destruct (is_markdown path);
    [|split; [|done]; intros _; right; exists target; rewrite Hf; split_and!; [done|eauto|done]].
  unfold read_to_string. rewrite Hf. split.
  - destruct e as [[text|]| |]; cbn [and_then]; try done. destruct (bool_decide _) eqn:Hb; [|done]. intros _. right.
    exists target. rewrite Hf. split_and!; [done|eauto|]. intros f [= <-] _ _. exists text. split; [done|].
    by apply bool_decide_eq_true in Hb.
  - intros [?|(t & [= <-] & _ & Ht)]; [done|]. rewrite Hf in Ht.
    destruct (Ht _ eq_refl ltac:(done) eq_refl) as (text & [= ->] & Hin). cbn [and_then]. by rewrite bool_decide_eq_true_2.
Qed.
Lemma validate_links_ok source line links :
  validate_links root repository source line links = Ok [] <-> Forall (resolves source) links.
Proof.
  induction links as [|d l IH]; cbn [validate_links]; [by split; [constructor|]|].
  rewrite Forall_cons, <-(validate_link_ok source line), <-IH.
  destruct (validate_link root repository source line d) as [[|? ?]|]; cbn [and_then]; [|split; [|by intros [? _]]..].
  - destruct (validate_links root repository source line l) as [[|? ?]|]; cbn; (split; [by intros|by intros [_ ?]]).
  - destruct (validate_links root repository source line l) as [?|]; by cbn.
  - done.
Qed.

Lemma outside_from_fence fenced line l i :
  is_fence line = true -> outside_from fenced (line :: l) (S i) <-> outside_from (negb fenced) l i.
Proof.
  intros Hf. unfold outside_from, fences. change ((line :: l) !! S i) with (l !! i). cbn [take]. rewrite filter_cons_True by done.
  cbn [length]. rewrite Nat.even_succ, <-Nat.negb_even. split; intros (x & Hx & Hn & He); exists x; (split; [done|]); (split; [done|]);
    destruct (Nat.even _), fenced; done.
Qed.
Lemma outside_from_plain fenced line l i :
  is_fence line = false -> outside_from fenced (line :: l) (S i) <-> outside_from fenced l i.
Proof.
  intros Hf. unfold outside_from, fences. change ((line :: l) !! S i) with (l !! i). cbn [take].
  by rewrite filter_cons_False by (by rewrite Hf).
Qed.

Definition lines_resolve (source : Relative) (fenced : bool) (l : list Str) : Prop :=
  forall i line d, l !! i = Some line -> outside_from fenced l i -> d ∈ links_of line -> resolves source d.
(** Reading the lines always ends, and finds nothing exactly when all of their links resolve. *)
Lemma validate_lines_ok source n fenced l :
  (exists r, validate_lines root repository source n fenced l = Ret r) /\
  (validate_lines root repository source n fenced l = Ret (Ok []) <-> lines_resolve source fenced l).
Proof.
  revert n fenced. induction l as [|line l IH]; intros n fenced; cbn [validate_lines].
  { split; [eauto|]. split; [|done]. intros _ i x d Hi. done. }
  destruct (is_fence line) eqn:Hf.
  { destruct (IH (n + 1) (negb fenced)) as [? ->]. split; [done|]. unfold lines_resolve. split.
    - intros Hall [|i] x d Hi Ho Hd; [destruct Ho as (y & Hy & Hn & _); injection Hy as <-; congruence|].
      eapply Hall; [exact Hi|by rewrite <-(outside_from_fence fenced line)|done].
    - intros Hall i x d Hi Ho Hd. eapply (Hall (S i)); [exact Hi|by rewrite outside_from_fence|done]. }
  destruct fenced.
  { destruct (IH (n + 1) true) as [? ->]. split; [done|]. unfold lines_resolve. split.
    - intros Hall [|i] x d Hi Ho Hd; [by destruct Ho as (y & Hy & Hn & He)|].
      eapply Hall; [exact Hi|by rewrite <-(outside_from_plain true line)|done].
    - intros Hall i x d Hi Ho Hd. eapply (Hall (S i)); [exact Hi|by rewrite outside_from_plain|done]. }
  rewrite link_destinations_total. destruct (IH (n + 1) false) as [[r Hr] Hiff].
  assert (lines_resolve source false (line :: l) <-> Forall (resolves source) (links_of line) /\ lines_resolve source false l) as ->.
  { unfold lines_resolve. split.
    - intros Hall. split; [rewrite Forall_forall; intros d Hd; apply (Hall 0%nat line d eq_refl); [by exists line|done]|].
      intros i x d Hi Ho Hd. eapply (Hall (S i)); [exact Hi|by rewrite outside_from_plain|done].
    - rewrite Forall_forall. intros [Hline Hall] [|i] x d Hi Ho Hd; [injection Hi as <-; by apply Hline|].
      eapply Hall; [exact Hi|by rewrite <-(outside_from_plain false line)|done]. }
  rewrite <-Hiff, <-(validate_links_ok source n). rewrite Hr.
  destruct (validate_links root repository source n (links_of line)) as [[|? ?]|]; destruct r as [[|? ?]|];
    (split; [eauto|]); cbn; naive_solver.
Qed.

(** ** The files *)
Definition names_of (l : list (option (Str * Entry))) : list Str := omap (fmap fst) l.
(** No directory has two entries of the same name. *)
Definition well_formed (e : Entry) : Prop :=
  forall path l, find path e = Some (ADirectory (Some l)) -> NoDup (names_of l).
(** Everything that is walked through is a file or a directory that can be read. *)
Definition readable (e : Entry) : Prop :=
  forall path x, find path e = Some x -> (exists text, x = AFile text) \/ exists l, x = ADirectory (Some l) /\ None ∉ l.

Lemma entry_named_some name e l : NoDup (names_of l) -> Some (name, e) ∈ l -> entry_named name l = Some e.
Proof.
  induction l as [|[[n x]|] l IH]; intros Hnd Hin; [by apply elem_of_nil in Hin|..].
  - cbn in Hnd. apply NoDup_cons in Hnd as [Hn Hnd]. cbn [entry_named].
    apply elem_of_cons in Hin as [[= -> ->]|Hin]; [by rewrite bool_decide_eq_true_2|].
    rewrite bool_decide_eq_false_2; [by apply IH|]. intros ->. apply Hn. apply list_elem_of_omap. by exists (Some (name, e)).
  - cbn in Hnd |- *. apply IH; [done|]. apply elem_of_cons in Hin as [?|?]; done.
Qed.
Lemma entry_named_in name e l : entry_named name l = Some e -> Some (name, e) ∈ l.
Proof.
  induction l as [|[[n x]|] l IH]; cbn [entry_named]; [done| |].
  - destruct (bool_decide (n = name)) eqn:Hb; [|intros He; right; by apply IH].
    apply bool_decide_eq_true in Hb as ->. intros [= ->]. by left.
  - intros He. right. by apply IH.
Qed.

(** Entries are nested: what holds of a directory once it holds of its entries holds of all. *)
Fixpoint entries_within (e : Entry) : nat :=
  match e with
  | ADirectory (Some l) => S (sum_list_with (fun o => match o with Some (_, e) => entries_within e | None => O end) l)
  | _ => O
  end.
Lemma entries_within_lt name e l : Some (name, e) ∈ l -> (entries_within e < entries_within (ADirectory (Some l)))%nat.
Proof.
  cbn [entries_within]. induction l as [|o l IH]; intros Hin; [by apply elem_of_nil in Hin|]. cbn [sum_list_with].
  apply elem_of_cons in Hin as [<-|Hin]; [lia|]. specialize (IH Hin). lia.
Qed.
Lemma Entry_induction (P : Entry -> Prop) :
  (forall text, P (AFile text)) -> P AnOther -> P (ADirectory None) ->
  (forall l, (forall name e, Some (name, e) ∈ l -> P e) -> P (ADirectory (Some l))) -> forall e, P e.
Proof.
  intros Hfile Hother Hnone Hdir e. induction e as [e IH] using (induction_ltof1 _ entries_within).
  destruct e as [text|[l|]|]; [apply Hfile| |exact Hnone|exact Hother]. apply Hdir. intros name x Hin. apply IH.
  by eapply entries_within_lt.
Qed.

Lemma well_formed_entry name e l : well_formed (ADirectory (Some l)) -> Some (name, e) ∈ l -> well_formed e.
Proof.
  intros Hwf Hin path k Hk. apply (Hwf (name :: path)). cbn [find]. by rewrite (entry_named_some name e) by (done || by apply (Hwf [])).
Qed.

Lemma readable_directory l :
  NoDup (names_of l) ->
  readable (ADirectory (Some l)) <-> None ∉ l /\ forall name e, Some (name, e) ∈ l -> readable e.
Proof.
  intros Hnd. split.
  - intros Hr. split; [by destruct (Hr [] _ eq_refl) as [[? ?]|(? & [= <-] & ?)]|].
    intros name e Hin below x Hx. apply (Hr (name :: below)). cbn [find]. by rewrite (entry_named_some name e).
  - intros [Hn Hall] [|name below] x; cbn [find]; [intros [= <-]; right; by exists l|].
    destruct (entry_named name l) as [e|] eqn:He; [|done]. apply entry_named_in in He. by apply (Hall _ _ He).
Qed.

(** The loop over the entries of a directory. *)
Definition collect_entries (path : Relative) : list (option (Str * Entry)) -> result (list Relative) Failure :=
  fix entries l :=
    match l with
    | [] => Ok []
    | None :: _ => Err CannotReadEntry
    | Some (name, e) :: l =>
      let? files := collect_markdown (path ++ [name]) e in
      let? rest := entries l in
      Ok (files ++ rest)
    end.
(** Collecting succeeds exactly on what can be read, and finds the Markdown files below. *)
Definition collects (path : Relative) (e : Entry) : Prop :=
  (readable e <-> exists files, collect_markdown path e = Ok files) /\
  forall files, collect_markdown path e = Ok files -> forall p,
    p ∈ files <-> exists below text, p = path ++ below /\ find below e = Some (AFile text) /\ is_markdown p = true.
Lemma collect_entries_spec path l :
  (forall name e, Some (name, e) ∈ l -> collects (path ++ [name]) e) ->
  (None ∉ l /\ (forall name e, Some (name, e) ∈ l -> readable e) <-> exists files, collect_entries path l = Ok files) /\
  forall files, collect_entries path l = Ok files -> forall p,
    p ∈ files <-> exists name e below text, Some (name, e) ∈ l /\ p = path ++ name :: below /\
      find below e = Some (AFile text) /\ is_markdown p = true.
Proof.
  induction l as [|o l IH]; intros Hall.
  { split; [split; [by exists []|intros _; split; [apply not_elem_of_nil|by intros ? ? ?%elem_of_nil]]|].
    intros files [= <-] p. split; [by intros ?%elem_of_nil|by intros (? & ? & ? & ? & ?%elem_of_nil & _)]. }
  destruct IH as [IHr IHf]; [intros name e Hin; apply Hall; by right|].
  destruct o as [[name e]|]; cbn [collect_entries].
  2:{ split; [|done]. split; [intros [Hn _]; destruct Hn; by left|by intros [? ?]]. }
  destruct (Hall name e ltac:(by left)) as [Hr Hf]. fold (collect_entries path l) in *.
  destruct (collect_markdown (path ++ [name]) e) as [files|f] eqn:Hc; cbn [and_then].
  2:{ split; [|done]. split; [|by intros [? ?]]. intros [_ Hreads].
      destruct (proj1 Hr (Hreads name e ltac:(by left))) as [? ?]. done. }
  destruct (collect_entries path l) as [rest|f] eqn:He; cbn [and_then].
  2:{ split; [|done]. split; [|by intros [? ?]]. intros [Hn Hreads]. destruct (proj1 IHr) as [? ?]; [|done].
      split; [intros ?; apply Hn; by right|]. intros n x Hin. apply (Hreads n). by right. }
  split.
  - split; [eauto|]. intros _. destruct (proj2 IHr) as [Hn Hreads]; [by eexists|]. split; [by intros [|]%elem_of_cons|].
    intros n x [[= -> ->]|Hin]%elem_of_cons; [apply Hr; by eexists|by apply (Hreads n)].
  - intros ? [= <-] p. rewrite elem_of_app, (Hf _ eq_refl), (IHf _ eq_refl). split.
    + intros [(below & text & -> & Hb & Hm)|(n & x & below & text & Hin & -> & Hb & Hm)].
      * exists name, e, below, text. rewrite <-app_assoc in *. split_and!; [by left|done..].
      * exists n, x, below, text. split_and!; [by right|done..].
    + intros (n & x & below & text & [[= -> ->]|Hin]%elem_of_cons & -> & Hb & Hm).
      * left. exists below, text. by rewrite <-app_assoc.
      * right. by exists n, x, below, text.
Qed.

Lemma collect_markdown_spec e path : well_formed e -> collects path e.
Proof.
  revert path. induction e as [text| | |l IH] using Entry_induction; intros path Hwf.
  - split.
    + split; [cbn; eauto|]. intros _ [|name below] x; cbn; [|done]. intros [= <-]. eauto.
    + cbn. intros files [= <-] p. split.
      * destruct (is_markdown path) eqn:Hm; [|by intros ?%elem_of_nil]. intros ->%list_elem_of_singleton.
        exists [], text. by rewrite app_nil_r.
      * intros ([|name below] & t & -> & Hf & Hm); [|done]. rewrite app_nil_r in *. rewrite Hm. by apply list_elem_of_singleton.
  - split; [|done]. split; [|by intros [? ?]]. intros Hr. by destruct (Hr [] AnOther eq_refl) as [[? ?]|(? & ? & _)].
  - split; [|done]. split; [|by intros [? ?]]. intros Hr. by destruct (Hr [] (ADirectory None) eq_refl) as [[? ?]|(? & ? & _)].
  - pose proof (Hwf [] l eq_refl) as Hnd.
    destruct (collect_entries_spec path l) as [Hr Hf].
    { intros name e Hin. apply (IH name e Hin). by eapply well_formed_entry. }
    unfold collects. change (collect_markdown path (ADirectory (Some l))) with (collect_entries path l).
    rewrite readable_directory by done. split; [done|]. intros files Hfiles p. rewrite (Hf files Hfiles). split.
    + intros (name & e & below & text & Hin & -> & Hb & Hm). exists (name :: below), text. split; [done|]. split; [|done].
      cbn [find]. by rewrite (entry_named_some name e).
    + intros ([|name below] & text & -> & Hb & Hm); [done|]. cbn [find] in Hb.
      destruct (entry_named name l) as [e|] eqn:He; [|done]. exists name, e, below, text.
      split; [by apply entry_named_in|done].
Qed.

Lemma elem_of_dedup l p : p ∈ dedup l <-> p ∈ l.
Proof.
  induction l as [|a l IH]; [done|]. destruct l as [|b l]; [done|].
  change (dedup (a :: b :: l)) with (if bool_decide (a = b) then dedup (b :: l) else a :: dedup (b :: l)).
  destruct (bool_decide (a = b)) eqn:Hab.
  - apply bool_decide_eq_true in Hab as ->. rewrite IH, (elem_of_cons (b :: l)). split; [by right|intros [->|?]; [by left|done]].
  - by rewrite elem_of_cons, IH, (elem_of_cons (b :: l)).
Qed.
Lemma top_level_spec l :
  (None ∉ l <-> exists files, top_level l = Ok files) /\
  forall files, top_level l = Ok files -> forall p,
    p ∈ files <-> exists name text, p = [name] /\ Some (name, AFile text) ∈ l /\ is_markdown [name] = true.
Proof.
  induction l as [|[[n e]|] l [IHr IHf]]; cbn [top_level].
  - split; [split; [by exists []|intros _; apply not_elem_of_nil]|].
    intros ? [= <-] p. split; [by intros ?%elem_of_nil|by intros (? & ? & _ & ?%elem_of_nil & _)].
  - destruct (top_level l) as [rest|f]; cbn [and_then].
    2:{ split; [|done]. split; [|by intros [? ?]]. intros Hn. destruct (proj1 IHr) as [? ?]; [|done]. intros ?. apply Hn. by right. }
    split.
    + split; [eauto|]. intros _ [|Hin]%elem_of_cons; [done|]. revert Hin. apply IHr. by eexists.
    + intros ? [= <-] p. rewrite elem_of_app, (IHf _ eq_refl). split.
      * intros [Hp|(name & text & -> & Hin & Hm)]; [|exists name, text; split; [done|split; [by right|done]]].
        destruct e as [text| |]; [|by apply elem_of_nil in Hp..]. destruct (is_markdown [n]) eqn:Hm; [|by apply elem_of_nil in Hp].
        apply list_elem_of_singleton in Hp as ->. exists n, text. split; [done|split; [by left|done]].
      * intros (name & text & -> & [[= -> <-]|Hin]%elem_of_cons & Hm); [left; rewrite Hm; by left|right; eauto].
  - split; [|done]. split; [intros Hn; destruct Hn; by left|by intros [? ?]].
Qed.

(** The documentation: the Markdown files of the repository itself and those under
    [docs] and [experiments]. *)
Definition documentation (path : Relative) : Prop :=
  is_markdown path = true /\ (exists text, find path repository = Some (AFile text)) /\
  ((exists name, path = [name]) \/ head path = Some (str "docs") \/ head path = Some (str "experiments")).
Definition can_be_read : Prop :=
  (exists l, repository = ADirectory (Some l) /\ None ∉ l) /\
  forall name e, name = str "docs" \/ name = str "experiments" -> find [name] repository = Some e -> readable e.

Lemma collected_spec name :
  well_formed repository ->
  ((forall e, find [name] repository = Some e -> readable e) <-> exists files, collected name repository = Ok files) /\
  forall files, collected name repository = Ok files -> forall p,
    p ∈ files <-> head p = Some name /\ is_markdown p = true /\ exists text, find p repository = Some (AFile text).
Proof.
  intros Hwf. unfold collected. destruct (find [name] repository) as [e|] eqn:He.
  - assert (well_formed e) as Hwfe.
    { intros path l Hl. apply (Hwf (name :: path)). cbn [find] in He |- *. destruct repository as [|[l'|]|]; try done.
      destruct (entry_named name l') as [x|]; [|done]. by injection He as ->. }
    assert (forall path, find (name :: path) repository = find path e) as Hfind.
    { intros path. cbn [find] in He |- *. destruct repository as [|[l'|]|]; try done.
      destruct (entry_named name l') as [x|]; [|done]. by injection He as ->. }
    destruct (collect_markdown_spec e [name] Hwfe) as [Hr Hf]. rewrite <-Hr. split; [naive_solver|].
    intros files Hfiles p. rewrite (Hf _ Hfiles). split.
    + intros (below & text & -> & Hb & Hm). split; [done|]. split; [done|]. exists text. by rewrite <-Hb, <-Hfind.
    + intros (Hh & Hm & text & Ht). destruct p as [|n below]; [done|]. injection Hh as ->.
      exists below, text. by rewrite <-Hfind.
  - split; [split; [by exists []|done]|]. intros ? [= <-] p. split; [by intros ?%elem_of_nil|].
    intros (Hh & _ & text & Ht). destruct p as [|n below]; [done|]. injection Hh as ->. exfalso.
    cbn [find] in He, Ht. destruct repository as [|[l'|]|]; try done. by destruct (entry_named name l').
Qed.

Lemma markdown_files_spec :
  well_formed repository ->
  (can_be_read <-> exists files, markdown_files repository = Ok files) /\
  forall files, markdown_files repository = Ok files -> forall p, p ∈ files <-> documentation p.
Proof.
  intros Hwf. destruct (collected_spec (str "docs") Hwf) as [Hdr Hdf].
  destruct (collected_spec (str "experiments") Hwf) as [Her Hef].
  unfold markdown_files, can_be_read, documentation. destruct repository as [text|[l|]|] eqn:Hrep;
    try (split; [split; [by intros [(? & ? & _) _]|by intros [? ?]]|done]).
  destruct (top_level_spec l) as [Htr Htf].
  destruct (top_level l) as [files|f] eqn:Htop; cbn [and_then].
  2:{ split; [|done]. split; [|by intros [? ?]]. intros [(? & [= <-] & Hn) _]. by destruct (proj1 Htr Hn). }
  destruct (collected (str "docs") (ADirectory (Some l))) as [docs|f] eqn:Hdocs; cbn [and_then].
  2:{ split; [|done]. split; [|by intros [? ?]]. intros [_ Hall]. destruct (proj1 Hdr) as [? ?]; [|done]. intros e. apply Hall. by left. }
  destruct (collected (str "experiments") (ADirectory (Some l))) as [experiments|f] eqn:Hexp; cbn [and_then].
  2:{ split; [|done]. split; [|by intros [? ?]]. intros [_ Hall]. destruct (proj1 Her) as [? ?]; [|done]. intros e. apply Hall. by right. }
  split.
  - split; [eauto|]. intros _. split; [exists l; split; [done|]; apply Htr; by eexists|].
    intros name e [-> | ->]; [apply Hdr|apply Her]; by eexists.
  - intros ? [= <-] p. rewrite elem_of_dedup, merge_sort_Permutation, !elem_of_app,
      (Htf _ eq_refl), (Hdf _ eq_refl), (Hef _ eq_refl). split.
    + intros [(name & text & -> & Hin & Hm)|[(Hh & Hm & Ht)|(Hh & Hm & Ht)]]; [|by eauto 10..].
      split; [done|]. split; [|left; by exists name]. exists text. cbn [find].
      by rewrite (entry_named_some name (AFile text)) by (done || by apply (Hwf [])).
    + intros (Hm & [text Ht] & [[name ->]|[Hh|Hh]]); [left|by eauto 10..]. exists name, text. split; [done|]. split; [|done].
      cbn [find] in Ht. destruct (entry_named name l) as [e|] eqn:He; [|done]. injection Ht as ->. by apply entry_named_in.
Qed.

(** *** The whole check *)
Definition file_resolves (path : Relative) : Prop :=
  exists text, find path repository = Some (AFile (Some text)) /\
    forall destination, link_in text destination -> resolves path destination.
Lemma validate_file_ok path :
  (exists r, validate_file root repository path = Ret r) /\
  (validate_file root repository path = Ret (Ok []) <-> file_resolves path).
Proof.
  unfold validate_file, file_resolves, read_to_string.
  destruct (find path repository) as [[[text|]| |]|]; try (split; [eauto|split; [done|by intros (? & ? & _)]]).
  destruct (validate_lines_ok path 1 false (lines text)) as [Hr ->]. split; [done|]. unfold lines_resolve, link_in. split.
  - intros Hall. exists text. split; [done|]. intros d (i & line & Hi & Ho & Hd). by eapply Hall.
  - intros (? & [= <-] & Hall) i line d Hi Ho Hd. apply Hall. by exists i, line.
Qed.
Lemma validate_files_ok files :
  (exists r, validate_files root repository files = Ret r) /\
  (validate_files root repository files = Ret (Ok []) <-> Forall file_resolves files).
Proof.
  induction files as [|path l [[r IHr] IH]]; cbn [validate_files]; [by split; [eauto|]|].
  destruct (validate_file_ok path) as [[rf Hf] Hok]. rewrite Forall_cons, <-Hok, <-IH, Hf, IHr.
  destruct rf as [[|? ?]|]; destruct r as [[|? ?]|]; (split; [eauto|]); cbn; naive_solver.
Qed.

(** The check always ends, and accepts the documentation exactly when it is right: the
    directories can be walked, every Markdown file of it can be read, and every link in it
    outside a code fence either leads out of the repository by its scheme or to a file or
    directory of the repository, with the heading it names if it names one of a Markdown
    file.  A link that is accepted never leads above the root. *)
Theorem docs_checked (Hwf : well_formed repository) :
  (exists r, check root repository = Ret r) /\
  ((exists n, check root repository = Ret (Ok n)) <->
   can_be_read /\ forall path, documentation path -> file_resolves path).
Proof.
  destruct (markdown_files_spec Hwf) as [Hr Hf]. unfold check. rewrite Hr.
  destruct (markdown_files repository) as [files|f].
  2:{ split; [eauto|]. split; [by intros [? ?]|by intros [[? ?] _]]. }
  specialize (Hf _ eq_refl). destruct (validate_files_ok files) as [[r Hv] Hok]. rewrite Hv.
  split; [destruct r as [[|? ?]|]; eauto|].
  assert (Forall file_resolves files <-> forall path, documentation path -> file_resolves path) as Hall.
  { rewrite Forall_forall. split; intros Hfiles p Hp; apply Hfiles; by apply Hf. }
  rewrite <-Hall, <-Hok, Hv. destruct r as [[|? ?]|]; split; try (by intros [? ?]).
  all: intros _; eauto.
Qed.
End meaning.

(** ** A repository *)
Module DocsExamples.
#[local] Instance ascii_table : Unicode := {| is_alphanumeric c := is_ascii_alphanumeric c |}.
Definition text_file (s : String.string) : Entry := AFile (Some (str s)).
Definition root : list Str := [str "home"; str "velum"].
Definition repository (readme : String.string) : Entry :=
  ADirectory (Some
    [Some (str "README.md", text_file readme);
     Some (str "src", ADirectory (Some []));
     Some (str "docs", ADirectory (Some [Some (str "guide.md", text_file "# Known Heading
See [the start](../README.md).")]))]).
Definition verdict (readme : String.string) : option (result N (list Problem)) :=
  match check root (repository readme) with
  | Ret (Ok n) => Some (Ok n)
  | Ret (Err (CheckFailed errors)) => Some (Err (map problem errors))
  | _ => None
  end.
Example valid : verdict "[a](docs/guide.md#known-heading) [b](src) [c](https://x.org)" = Some (Ok 2).
Proof. vm_compute. reflexivity. Qed.
Example fenced : verdict "```md
[missing](missing.md)
```" = Some (Ok 2).
Proof. vm_compute. reflexivity. Qed.
Example broken : verdict "[a](missing.md) [b](../other/x.md) [c](docs/guide.md#unknown)" =
  Some (Err [MissingTarget; LinkEscapes; MissingHeading (str "unknown") [str "docs"; str "guide.md"]]).
Proof. vm_compute. reflexivity. Qed.
(** A comment in a code block counts as a heading all the same. *)
Example heading_in_fence : verdict "[a](README.md#setup)
```sh
# setup
```" = Some (Ok 2).
Proof. vm_compute. reflexivity. Qed.
(** Out of the repository and back again. *)
Example around : verdict "[a](../velum/docs/guide.md)" = Some (Ok 2).
Proof. vm_compute. reflexivity. Qed.

Lemma no_names_twice readme : well_formed (repository readme).
Proof.
  intros [|n [|m path]] l; cbn [find repository]; [intros [= <-]; vm_compute; repeat constructor; set_solver| |].
  - cbn [entry_named]. repeat case_bool_decide; cbn [find]; try done; intros [= <-]; vm_compute; repeat constructor; set_solver.
  - cbn [entry_named]. repeat case_bool_decide; cbn [find entry_named]; try done. case_bool_decide; [|done]. by destruct path.
Qed.
Lemma docs_checked_witness :
  can_be_read (repository "[a](docs/guide.md#known-heading)") /\
  forall path, documentation (repository "[a](docs/guide.md#known-heading)") path ->
    file_resolves root (repository "[a](docs/guide.md#known-heading)") path.
Proof.
  apply (docs_checked root (repository "[a](docs/guide.md#known-heading)") (no_names_twice _)).
  exists 2. vm_compute. reflexivity.
Defined.
Example line_of_links : links_of (str "a](b.md) and [c](<d e.md>) [f](g.md " ++ [34] ++ str "title" ++ [34; 41]) = [str "b.md"; str "d e.md"; str "g.md"].
Proof. vm_compute. reflexivity. Qed.
End DocsExamples.
