(* ===== verification/CiMetrics.v ===== *)
(** The health of continuous integration ([src/xtask/src/ci_metrics.rs]):
    durations, their 95th percentile, the rate of runs that passed only when
    they were run again, and the two budgets.  Times are parsed by the [time]
    crate, a parameter; a rate is a double of IEEE 754. *)
From Stdlib Require Import SpecFloat.
From S2P Require Import Prelude Str.
Open Scope N_scope.

Definition DURATION_MINIMUM_SAMPLES : N := 20.
Definition FLAKE_MINIMUM_SAMPLES : N := 100.
Definition REQUIRED_CI_P95_BUDGET_SECONDS : N := 900.

(** ** Doubles *)
Definition f64_of (n : N) : spec_float := binary_normalize 53 1024 (Z.of_N n) 0 false.
Definition f64_div (a b : spec_float) : spec_float := SFdiv 53 1024 a b.
(** [0.01]: the nearest double. *)
Definition FLAKE_RATE_BUDGET : spec_float := S754_finite false 5764607523034235 (-59).

(** ** Runs *)
Record WorkflowRun := { conclusion : option Str; run_attempt : N; run_started_at : Str; updated_at : Str }.
Inductive BudgetStatus := InsufficientEvidence | Pass | Fail_.
#[export] Instance BudgetStatus_eq_dec : EqDecision BudgetStatus. Proof. solve_decision. Defined.
Record Metrics := {
  schema_version : N;
  eligible_runs : N;
  successful_reruns : N;
  required_ci_p95_seconds : option N;
  flaky_run_rate : option spec_float;
  duration_budget : BudgetStatus;
  flake_budget : BudgetStatus
}.
Inductive MetricsError :=
| InvalidStart
| InvalidUpdate
| UpdatedBeforeStart
| CannotReadRuns
| CannotParseRuns
| CannotSerialize
| CannotWriteMetrics
| BudgetExceeded.

(** The [time] crate: nanoseconds since the epoch. *)
Class Rfc3339 := { parse_time : Str -> option Z }.

Definition concluded (r : WorkflowRun) (s : String.string) : bool := bool_decide (conclusion r = Some (str s)).
Definition eligible (r : WorkflowRun) : bool := concluded r "success" || concluded r "failure" || concluded r "timed_out".
Definition rerun (r : WorkflowRun) : bool := concluded r "success" && (1 <? run_attempt r).

Definition percentile_95 (sorted : list N) : option N :=
  if is_empty sorted then None
  else
    let rank := (95 * len sorted + 99) / 100 in
    sorted !! N.to_nat (rank - 1).

Definition duration_status (samples : N) (p95 : option N) : BudgetStatus :=
  if samples <? DURATION_MINIMUM_SAMPLES then InsufficientEvidence
  else if match p95 with Some seconds => seconds <=? REQUIRED_CI_P95_BUDGET_SECONDS | None => false end then Pass
  else Fail_.
Definition flake_status (samples : N) (rate : option spec_float) : BudgetStatus :=
  if samples <? FLAKE_MINIMUM_SAMPLES then InsufficientEvidence
  else if match rate with Some rate => SFleb rate FLAKE_RATE_BUDGET | None => false end then Pass
  else Fail_.

Section metrics.
Context `{Rfc3339}.

(** [(updated - started).whole_seconds()] cuts towards zero. *)
Definition duration (r : WorkflowRun) : result N MetricsError :=
  match parse_time (run_started_at r) with
  | None => Err InvalidStart
  | Some started =>
    match parse_time (updated_at r) with
    | None => Err InvalidUpdate
    | Some updated =>
      let seconds := Z.quot (updated - started) 1000000000 in
      if (seconds <? 0)%Z then Err UpdatedBeforeStart else Ok (Z.to_N seconds)
    end
  end.
Fixpoint durations (l : list WorkflowRun) : result (list N) MetricsError :=
  match l with
  | [] => Ok []
  | r :: l => let? d := duration r in let? ds := durations l in Ok (d :: ds)
  end.

Definition evaluate (runs : list WorkflowRun) : result Metrics MetricsError :=
  let eligible := List.filter eligible runs in
  let? ds := durations eligible in
  let p95 := percentile_95 (merge_sort N.le ds) in
  let reruns := len (List.filter rerun eligible) in
  let rate := if is_empty eligible then None else Some (f64_div (f64_of reruns) (f64_of (len eligible))) in
  Ok {| schema_version := 1; eligible_runs := len eligible; successful_reruns := reruns; required_ci_p95_seconds := p95; flaky_run_rate := rate;
        duration_budget := duration_status (len eligible) p95; flake_budget := flake_status (len eligible) rate |}.

(** [evaluate_files]: the metrics are written before the budgets are looked at. *)
Record Files := { runs_read : option (option (list WorkflowRun)); serializes : bool; writes : bool }.
Definition evaluate_files (io : Files) : result unit MetricsError * option Metrics :=
  match runs_read io with
  | None => (Err CannotReadRuns, None)
  | Some None => (Err CannotParseRuns, None)
  | Some (Some runs) =>
    match evaluate runs with
    | Err e => (Err e, None)
    | Ok metrics =>
      if negb (serializes io) then (Err CannotSerialize, None)
      else if negb (writes io) then (Err CannotWriteMetrics, None)
      else
        (if bool_decide (duration_budget metrics = Fail_) || bool_decide (flake_budget metrics = Fail_)
         then Err BudgetExceeded else Ok tt, Some metrics)
    end
  end.
End metrics.

(** ** The percentile *)
Definition at_most (l : list N) (x : N) : N := len (filter (fun y => y <= x) l).
Lemma sorted_at_most l i x :
  Sorted N.le l -> l !! i = Some x -> N.of_nat (S i) <= at_most l x.
Proof.
  intros Hs Hi. apply Sorted_StronglySorted in Hs; [|intros ???; lia].
  unfold at_most, len. revert i Hi. induction Hs as [|y l Hs IH Hall]; intros [|i] Hi; [done|done|injection Hi as ->|].
  - rewrite filter_cons_True by lia. cbn [length]. lia.
  - rewrite Forall_forall in Hall. assert (y <= x) by (apply Hall; by eapply list_elem_of_lookup_2).
    rewrite filter_cons_True by done. cbn [length]. specialize (IH i Hi). lia.
Qed.
Lemma sorted_below l i x y :
  Sorted N.le l -> l !! i = Some x -> y < x -> at_most l y <= N.of_nat i.
Proof.
  intros Hs Hi Hlt. apply Sorted_StronglySorted in Hs; [|intros ???; lia].
  unfold at_most, len. revert i Hi. induction Hs as [|z l Hs IH Hall]; intros [|i] Hi; [done|done|injection Hi as ->|].
  - rewrite filter_cons_False by lia.
    assert (filter (fun z => z <= y) l = []) as ->; [|cbn; lia].
    clear Hs IH. induction Hall as [|z l Hz Hall IH]; [done|]. rewrite filter_cons_False by lia. exact IH.
  - specialize (IH i Hi). rewrite filter_cons. destruct (decide (z <= y)); cbn [length]; lia.
Qed.

(** The percentile is the smallest duration that at least 95 percent of the runs do not
    exceed; without runs there is none. *)
Theorem percentile_is_nearest_rank l :
  match percentile_95 (merge_sort N.le l) with
  | None => l = []
  | Some x =>
    x ∈ l /\ 95 * len l <= 100 * at_most l x /\ forall y, y < x -> 100 * at_most l y < 95 * len l
  end.
Proof.
  assert (merge_sort N.le l ≡ₚ l) as Hperm by apply merge_sort_Permutation.
  assert (Sorted N.le (merge_sort N.le l)) as Hs by (apply Sorted_merge_sort; intros ??; lia).
  assert (len (merge_sort N.le l) = len l) as Hlen by (unfold len; by rewrite Hperm).
  assert (forall x, at_most (merge_sort N.le l) x = at_most l x) as Hcount by (intros x; unfold at_most, len; by rewrite Hperm).
  unfold percentile_95. rewrite Hlen. destruct (is_empty (merge_sort N.le l)) eqn:He.
  { apply is_empty_true in He. rewrite He in Hperm. by apply Permutation_nil_l in Hperm. }
  assert (0 < len l) as Hpos.
  { rewrite <-Hlen. destruct (merge_sort N.le l); [done|]. rewrite len_cons. lia. }
  set (rank := (95 * len l + 99) / 100).
  assert (100 * rank <= 95 * len l + 99) as Hle by (unfold rank; apply N.Div0.mul_div_le).
  assert (95 * len l < 100 * rank + 1) as Hlt.
  { pose proof (N.mod_lt (95 * len l + 99) 100 ltac:(done)). pose proof (N.div_mod' (95 * len l + 99) 100). fold rank in H0. lia. }
  assert (N.to_nat (rank - 1) < length (merge_sort N.le l))%nat as Hin.
  { unfold len in *. lia. }
  destruct (lookup_lt_is_Some_2 _ _ Hin) as [x Hx]. rewrite Hx. split_and!.
  - rewrite <-Hperm. by eapply list_elem_of_lookup_2.
  - pose proof (sorted_at_most _ _ _ Hs Hx) as Ha. rewrite Hcount in Ha. lia.
  - intros y Hy. pose proof (sorted_below _ _ _ _ Hs Hx Hy) as Ha. rewrite Hcount in Ha. lia.
Qed.

(** ** The budgets *)
Definition flaky_exact (n : N) : bool :=
  forallb (fun k => Bool.eqb (SFleb (f64_div (f64_of k) (f64_of n)) FLAKE_RATE_BUDGET) (100 * k <=? n))
    (map N.of_nat (seq 0 (S (N.to_nat n)))).
Lemma flaky_exact_all : forallb (fun n => flaky_exact (N.of_nat n)) (seq 100 51) = true.
Proof. vm_compute. reflexivity. Qed.

(** From the least evidence the budget asks for to half as much again, the rounding of the
    rate never decides: it is within its budget exactly when no more than one run in a
    hundred passed only when run again. *)
Theorem flake_rate_exact n k :
  100 <= n <= 150 -> k <= n -> SFleb (f64_div (f64_of k) (f64_of n)) FLAKE_RATE_BUDGET = true <-> 100 * k <= n.
Proof.
  intros Hn Hk. pose proof flaky_exact_all as Hall. rewrite forallb_forall in Hall.
  specialize (Hall (N.to_nat n) ltac:(apply in_seq; lia)). rewrite N2Nat.id in Hall. unfold flaky_exact in Hall.
  rewrite forallb_forall in Hall.
  assert (In k (map N.of_nat (seq 0 (S (N.to_nat n))))) as Hin.
  { apply in_map_iff. exists (N.to_nat k). split; [lia|apply in_seq; lia]. }
  specialize (Hall k Hin). apply eqb_prop in Hall. rewrite Hall. apply N.leb_le.
Qed.

Section evaluated.
Context `{Rfc3339}.

(** The command fails exactly when something could not be read or written or a budget that
    has enough evidence is exceeded, and whenever it reports a budget it has written what it
    computed. *)
Theorem ci_health_spec io :
  match evaluate_files io with
  | (Ok _, written) => exists runs metrics, runs_read io = Some (Some runs) /\ evaluate runs = Ok metrics /\ written = Some metrics /\
      duration_budget metrics <> Fail_ /\ flake_budget metrics <> Fail_
  | (Err BudgetExceeded, written) => exists runs metrics, runs_read io = Some (Some runs) /\ evaluate runs = Ok metrics /\
      written = Some metrics /\ (duration_budget metrics = Fail_ \/ flake_budget metrics = Fail_)
  | (Err _, written) => written = None
  end.
Proof.
  unfold evaluate_files. destruct (runs_read io) as [[runs|]|]; [|done..].
  destruct (evaluate runs) as [metrics|e] eqn:He.
  - destruct (serializes io); [|done]. destruct (writes io); [|done]. cbn [negb].
    do 2 case_bool_decide; cbn [orb]; exists runs, metrics; naive_solver.
  - destruct e; try done. exfalso. unfold evaluate in He. destruct (durations _) as [ds|e] eqn:Hd; [done|]. cbn in He. injection He as ->.
    induction (List.filter eligible runs) as [|r l IH]; cbn in Hd; [done|].
    unfold duration in Hd. destruct (parse_time (run_started_at r)); [|done]. destruct (parse_time (updated_at r)); [|done].
    destruct (Z.quot _ _ <? 0)%Z; [done|]. cbn in Hd. destruct (durations l); [done|]. by apply IH.
Qed.
End evaluated.

(** ** Samples *)
Module MetricsExamples.
(** A time is written as its seconds. *)
#[local] Instance seconds_only : Rfc3339 :=
  {| parse_time s := match parse_uint U64_MAX s with Some n => Some (Z.of_N n * 1000000000)%Z | None => None end |}.
Definition a_run (seconds attempt : N) (c : String.string) : WorkflowRun :=
  {| conclusion := Some (str c); run_attempt := attempt; run_started_at := str "100"; updated_at := display_uint (100 + seconds) |}.
Definition statuses (runs : list WorkflowRun) : option (option N * BudgetStatus * BudgetStatus) :=
  match evaluate runs with Ok m => Some (required_ci_p95_seconds m, duration_budget m, flake_budget m) | Err _ => None end.
Example one_sample : statuses [a_run 60 1 "success"] = Some (Some 60, InsufficientEvidence, InsufficientEvidence).
Proof. vm_compute. reflexivity. Qed.
Example too_slow : statuses (replicate 20 (a_run 960 1 "success")) = Some (Some 960, Fail_, InsufficientEvidence).
Proof. vm_compute. reflexivity. Qed.
Example one_rerun_in_a_hundred :
  statuses (a_run 60 2 "success" :: replicate 99 (a_run 60 1 "failure")) = Some (Some 60, Pass, Pass).
Proof. vm_compute. reflexivity. Qed.
Example two_reruns_in_a_hundred :
  statuses (a_run 60 2 "success" :: a_run 70 3 "success" :: replicate 98 (a_run 60 1 "success")) = Some (Some 60, Pass, Fail_).
Proof. vm_compute. reflexivity. Qed.
Example not_counted : statuses (replicate 30 (a_run 60 1 "cancelled")) = Some (None, InsufficientEvidence, InsufficientEvidence).
Proof. vm_compute. reflexivity. Qed.
End MetricsExamples.
