(* ===== verification/Examples.v ===== *)
(** Concrete runs of the stateful components, at which their theorems apply:
    a session that negotiated, attached and sent, the dispatcher and the
    delivery between two sessions, the traffic host on a small machine. *)
From S2P Require Import Prelude Net Protocol Carrier Crypto Frame Session Dispatcher Simulator Delivery.
From S2P Require Import HelperProtocol TrafficHost Journal.

(** ** Sessions *)
Definition after (op : Operation (H := test_hmac)) (s : SessionTracer) : SessionTracer :=
  match step op s with Ret s' => s' | _ => s end.

Lemma after_Inv op s : Inv s -> can_run op s -> Inv (after op s).
Proof.
  intros HI Hc. destruct (step_preserves op s HI Hc) as (s' & Heq & HI').
  unfold after. by rewrite Heq.
Qed.

Lemma reachable_after lim op s :
  usize_limits lim -> reachable (H := test_hmac) lim s -> Inv s -> can_run op s ->
  reachable (H := test_hmac) lim (after op s).
Proof.
  intros Hl Hr HI Hc. destruct (step_preserves op s HI Hc) as (s' & Heq & _).
  unfold after. rewrite Heq. by eapply reachable_step.
Qed.

Definition test_limits : FlowLimits :=
  {| max_flows := 2; max_pending_segments := 4; max_pending_bytes := 16;
     max_session_pending_segments := 4; max_session_pending_bytes := 16;
     max_pending_age := 10; max_events := 8 |}.

Lemma test_limits_usize : usize_limits test_limits.
Proof. done. Qed.

(** A session of epoch 5: fresh, negotiated, with flow 0 open, with two
    segments in flight. *)
Definition fresh : SessionTracer :=
  {| transition := TransitionState.new 5; attachment_replay := ReplayWindow.default;
     negotiated := None; accepted_attachment := None; retiring_attachment := None;
     tick := 0; next_flow := 0; pending_segments := 0; pending_bytes := 0;
     limits := test_limits; flows := ∅; events := [] |}.
Definition bound : SessionTracer := after (OpBind test_parameters) fresh.
Definition opened : SessionTracer := after OpOpen bound.
Definition sent_one : SessionTracer := after (OpSend 0 [x41]) opened.
Definition sent_two : SessionTracer := after (OpSend 0 [x42; x43]) sent_one.

Lemma fresh_Inv : Inv fresh.
Proof. exact (new_Inv 5 test_limits fresh test_limits_usize ltac:(done) eq_refl). Qed.
Lemma bound_Inv : Inv bound.
Proof. by apply after_Inv; [apply fresh_Inv|]. Qed.
Lemma opened_Inv : Inv opened.
Proof. by apply after_Inv; [apply bound_Inv|]. Qed.

Lemma can_send_one : can_run (H := test_hmac) (OpSend 0 [x41]) opened.
Proof. split; [|done]. intros f Hf. vm_compute in Hf. by injection Hf as <-. Qed.
Lemma can_send_two : can_run (H := test_hmac) (OpSend 0 [x42; x43]) sent_one.
Proof. split; [|done]. intros f Hf. vm_compute in Hf. by injection Hf as <-. Qed.

Lemma sent_one_Inv : Inv sent_one.
Proof. apply after_Inv; [apply opened_Inv|apply can_send_one]. Qed.
Lemma sent_two_Inv : Inv sent_two.
Proof. apply after_Inv; [apply sent_one_Inv|apply can_send_two]. Qed.

Lemma fresh_reachable : reachable (H := test_hmac) test_limits fresh.
Proof. by apply (reachable_new _ 5). Qed.
Lemma sent_two_reachable : reachable (H := test_hmac) test_limits sent_two.
Proof.
  apply reachable_after; [done| |apply sent_one_Inv|apply can_send_two].
  apply reachable_after; [done| |apply opened_Inv|apply can_send_one].
  apply reachable_after; [done| |apply bound_Inv|done].
  apply reachable_after; [done|apply fresh_reachable|apply fresh_Inv|done].
Qed.

Lemma session_safety_witness :
  Inv sent_two /\
  forall op, can_run (H := test_hmac) op sent_two -> exists s', step op sent_two = Ret s'.
Proof. exact (session_safety test_limits sent_two test_limits_usize sent_two_reachable). Defined.

Lemma acknowledge_exact_witness :
  exists s' f released,
    SessionTracer.acknowledge {| ack_flow_id := 0; ack_epoch := 5; through := 0 |} sent_two
      = Ret (Ok tt, s') /\
    flows sent_two !! 0 = Some f /\ pending f = released ++ unacked 0 (pending f) /\
    pending_segments s' + len released = 2.
Proof.
  destruct (acknowledge_exact sent_two {| ack_flow_id := 0; ack_epoch := 5; through := 0 |} _
              sent_two_Inv ltac:(vm_compute; reflexivity))
    as (f & released & Hf & _ & Hp & _ & _ & Hn & _).
  eexists _, f, released. split; [vm_compute; reflexivity|]. exact (conj Hf (conj Hp Hn)).
Defined.

Lemma flow_id_never_reused_witness :
  exists s1 s2,
    SessionTracer.open_reliable_flow_with_id 0 bound = Ret (Ok tt, s1) /\
    run (H := test_hmac) [OpClose 0] s1 = Ret s2 /\
    forall s3, SessionTracer.open_reliable_flow_with_id 0 s2 <> Ret (Ok tt, s3).
Proof.
  eexists _, _. split; [vm_compute; reflexivity|]. split; [vm_compute; reflexivity|].
  intros s3. eapply (flow_id_never_reused (H := test_hmac) 0 bound _ [OpClose 0]);
    vm_compute; reflexivity.
Defined.

(** An attachment of carrier 1 with the proof the authenticator computes. *)
Definition test_carrier_attachment : CarrierAttachment :=
  {| att_carrier := 1; att_epoch := 5; att_attachment_id := test_attachment;
     att_parameters := test_parameters;
     att_proof := {| proof_bytes := test_sign [x05]
       (attachment_context test_session 5 test_attachment test_parameters) |} |}.
Definition attached : SessionTracer :=
  after (OpAuthenticate test_authenticator test_session test_carrier_attachment) bound.
Definition attached_later : SessionTracer := after (OpAdvanceTime 1) attached.

Lemma attached_Inv : Inv attached.
Proof. by apply after_Inv; [apply bound_Inv|]. Qed.
Lemma attached_later_Inv : Inv attached_later.
Proof. by apply after_Inv; [apply attached_Inv|]. Qed.

Lemma attachment_accepted_once_witness :
  accepted_attachment attached = Some (identity test_carrier_attachment) /\
  forall b s3, SessionTracer.authenticate_carrier_attachment test_authenticator test_session b
    attached_later <> Ret (Ok Accepted, s3).
Proof.
  pose proof (fun b s3 =>
    attachment_accepted_once test_authenticator test_session test_carrier_attachment
      bound attached [OpAdvanceTime 1] attached_later test_authenticator test_session b s3
      bound_Inv ltac:(vm_compute; reflexivity) ltac:(vm_compute; reflexivity)
      attached_later_Inv ltac:(vm_compute; reflexivity)) as Hall.
  split; [|exact (fun b s3 => proj2 (Hall b s3))].
  exact (proj2 (proj2 (proj2 (proj1 (Hall test_carrier_attachment bound))))).
Defined.

Lemma advance_time_evicts_witness :
  exists ids s', SessionTracer.advance_time (E := Empty_set) 10 sent_two = Ret (Ok ids, s') /\
    (0 ∈ ids <-> expired sent_two (tick sent_two + 10) 0).
Proof.
  destruct (advance_time_evicts (E := Empty_set) sent_two 10 sent_two_Inv ltac:(by vm_compute))
    as (ids & s' & Hrun & _ & _ & _ & Hids & _).
  exists ids, s'. exact (conj Hrun (Hids 0)).
Defined.

Lemma send_spec_witness :
  exists r s', SessionTracer.send 0 [x41] opened = Ret (r, s').
Proof.
  destruct (send_spec opened 0 [x41] opened_Inv (proj1 can_send_one) (proj2 can_send_one))
    as (r & s' & Hrun & _).
  exists r, s'. exact Hrun.
Defined.

Lemma resume_spec_witness :
  exists gs f, flows sent_two !! 0 = Some f /\
    SessionTracer.resume_unacknowledged sent_two 0 = Ok gs /\
    bytes <$> gs = (fun p => bytes (segment p)) <$> pending f.
Proof.
  destruct (flows sent_two !! 0) as [f|] eqn:Hf; [|by vm_compute in Hf].
  destruct (resume_spec sent_two 0 f sent_two_Inv Hf) as (gs & Hgs & Hb & _).
  exists gs, f. exact (conj eq_refl (conj Hgs Hb)).
Defined.

Lemma transition_window_witness :
  exists s1, SessionTracer.begin_transition attached = Ret (Ok 6, s1) /\
    TransitionState.validate (transition s1) 5 = Retiring.
Proof.
  eexists. split; [vm_compute; reflexivity|].
  exact (proj1 (proj2 (proj2 (proj2
    (transition_window attached _ 6 attached_Inv ltac:(vm_compute; reflexivity)))))).
Defined.

(** ** The dispatcher *)
Definition test_dispatcher : SessionFrameDispatcher (H := test_hmac) :=
  SessionFrameDispatcher.new test_session 1 test_authenticator.

(** A carrier that did not attach sends data and an end of the connection. *)
Lemma unattached_carrier_powerless_witness :
  exists rs d' s',
    dispatch_all [FStreamData 0 5 0 [x41]; FConnectionClose CodeProtocolViolation]
      (test_dispatcher, opened) = Ret (rs, (d', s')) /\
    ((exists response, Ok (AttachmentAccepted response) ∈ rs) \/
     Forall (fun r => is_ok r = false) rs /\ d' = test_dispatcher /\ only_events opened s').
Proof.
  eexists _, _, _. split; [vm_compute; reflexivity|].
  apply (unattached_carrier_powerless test_dispatcher opened
           [FStreamData 0 5 0 [x41]; FConnectionClose CodeProtocolViolation]);
    [apply opened_Inv|vm_compute; reflexivity|vm_compute; reflexivity].
Defined.

Lemma dispatch_safe_witness :
  exists r d' s',
    SessionFrameDispatcher.dispatch (FStreamOpen 3) (test_dispatcher, attached)
      = Ret (r, (d', s')) /\ Inv s'.
Proof.
  destruct (dispatch_safe test_dispatcher attached (FStreamOpen 3) attached_Inv I)
    as (r & d' & s' & Hrun & HI & _).
  exists r, d', s'. exact (conj Hrun HI).
Defined.

(** ** The in-memory carrier *)
Definition chunk (n : Sequence) (b : list byte) : Segment :=
  {| flow_id := 0; epoch := 5; sequence := n; bytes := b |}.

Definition test_carrier_ops : list CarrierOp :=
  [Transmit (chunk 0 [x41]) DuplicateSegment; Transmit (chunk 1 [x42]) (Delay 3);
   Transmit (chunk 2 [x43]) Drop; Advance 2].

Lemma carrier_conserves_witness :
  exists i o c', carrier_run test_carrier_ops InMemoryCarrier.new = Ret (i, o, c') /\
    in_flight InMemoryCarrier.new ++ i ≡ₚ o ++ in_flight c'.
Proof.
  eexists _, _, _. split; [vm_compute; reflexivity|].
  apply (carrier_conserves test_carrier_ops). vm_compute. reflexivity.
Defined.

(** ** Two sessions *)
Definition w0 : World :=
  {| sender := opened; receiver := opened; sent := []; delivered := []; wire := [] |}.
Definition w_sent : World :=
  {| sender := sent_one; receiver := opened; sent := [[x41]]; delivered := [];
     wire := [chunk 0 [x41]] |}.
Definition w_lost : World :=
  {| sender := sent_two; receiver := opened; sent := [[x41]; [x42; x43]]; delivered := [];
     wire := [chunk 0 [x41]; chunk 1 [x42; x43]] |}.
Definition received : SessionTracer := after (OpReceive (chunk 0 [x41])) opened.
(** The second segment is still on its way. *)
Definition w_half : World :=
  {| sender := sent_two; receiver := received; sent := [[x41]; [x42; x43]];
     delivered := [[x41]]; wire := [chunk 0 [x41]; chunk 1 [x42; x43]] |}.

Lemma w0_initial : Delivery.initial 0 w0.
Proof. split_and!; try done; apply opened_Inv. Qed.

Lemma w_half_reachable : world_reachable (H := test_hmac) 0 w0 w_half.
Proof.
  apply (world_next _ w0 w_lost); [apply (world_next _ w0 w_sent);
    [apply (world_next _ w0 w0); [apply world_refl|]|]|].
  - eapply (step_send 0 w0 [x41]); [apply can_send_one|vm_compute; reflexivity].
  - eapply (step_send 0 w_sent [x42; x43]); [apply can_send_two|vm_compute; reflexivity].
  - eapply (step_receive 0 w_lost (chunk 0 [x41]) (Ok (Delivered [x41])));
      [by left|done| |vm_compute; reflexivity].
    intros f Hf. vm_compute in Hf. by injection Hf as <-.
Qed.

Lemma delivery_is_prefix_witness : delivered w_half `prefix_of` sent w_half.
Proof. exact (delivery_is_prefix 0 w0 w_half w0_initial w_half_reachable). Defined.

Lemma resume_completes_witness :
  exists gs r', SessionTracer.resume_unacknowledged (sender w_half) 0 = Ok gs /\
    deliver (receiver w_half) gs (delivered w_half) = Ret (r', [[x41]; [x42; x43]]).
Proof.
  destruct (flows (sender w_half) !! 0) as [fs|] eqn:Hfs; [|by vm_compute in Hfs].
  destruct (flows (receiver w_half) !! 0) as [fr|] eqn:Hfr; [|by vm_compute in Hfr].
  apply (resume_completes 0 w0 w_half fs fr w0_initial w_half_reachable Hfs Hfr).
  - left; by vm_compute.
  - vm_compute in Hfr. injection Hfr as <-. intros fin Hfin. discriminate Hfin.
  - by vm_compute.
Defined.

(** ** The helper protocol

    A codec of a single request stands in for JSON. *)
Module HostExamples.
Import HelperProtocol TrafficHost.

#[local] Instance Request_eq_dec : EqDecision Request.
Proof. solve_decision. Defined.

Definition request (i g : N) (c : Command) : Request :=
  {| req_version := PROTOCOL_VERSION; req_request_id := i; req_profile_generation := g;
     req_capabilities := ∅; command := c |}.

#[local] Instance test_json : Json Request :=
  {| to_vec r := if decide (r = request 1 0 Hello) then Some [x48] else None;
     from_slice b := if decide (b = [x48]) then Some (request 1 0 Hello) else None |}.
#[local] Instance test_json_laws : JsonLaws Request test_json.
Proof. constructor. intros v body. cbn. repeat case_decide; by intros [= <-]; subst. Qed.

Definition hello_frame : list byte := to_be_bytes 4 1 ++ [x48].

Lemma request_push_witness :
  exists r d', RequestDecoder.push (hello_frame ++ [x00]) RequestDecoder.new = Ret (r, d') /\
    decoder_ok d'.
Proof.
  destruct (request_push (hello_frame ++ [x00]) RequestDecoder.new ltac:(done))
    as (r & d' & Hrun & Hok & _).
  exists r, d'. exact (conj Hrun Hok).
Defined.

Lemma request_stream_witness :
  push_all [take 2 hello_frame; drop 2 hello_frame ++ hello_frame] RequestDecoder.new =
    Ret (Ok [request 1 0 Hello; request 1 0 Hello], RequestDecoder.new).
Proof.
  apply (request_stream (J := test_json) [request 1 0 Hello; request 1 0 Hello]
           [hello_frame; hello_frame]).
  - repeat (apply Forall2_cons; split; [by vm_compute|]). done.
  - repeat (apply Forall_cons; split; [by vm_compute|]). done.
  - by vm_compute.
Defined.

(** *** A machine

    A journal that never fails and a platform that is on or off. *)
Definition Machine : Type := option RecoveryRecord * bool.

#[local] Instance machine_journal : RecoveryJournal Machine :=
  {| journal_load w := Ok w.1;
     journal_write r w := (Ok tt, (Some r, w.2));
     journal_clear w := (Ok tt, (None, w.2)) |}.
#[local] Instance machine_backend : PlatformBackend Machine :=
  {| backend_start c w := (Ok tt, (w.1, true));
     backend_stop w := (Ok tt, (w.1, false));
     backend_recover r w := (Ok tt, (w.1, false)) |}.
#[local] Instance machine_journal_laws : JournalLaws Machine machine_journal.
Proof.
  refine (Build_JournalLaws Machine machine_journal (fun w => w.1) _ _ _); [|done..].
  by intros w o [= <-].
Defined.
#[local] Instance machine_backend_laws :
  BackendLaws Machine machine_journal machine_backend machine_journal_laws.
Proof.
  by refine (Build_BackendLaws Machine machine_journal machine_backend machine_journal_laws
               (fun w => w.2 = true) _ _ _ _ _ _ _ _).
Defined.

Definition idle : Machine := (None, false).
Definition parameters : StartParameters :=
  {| mtu := 1500; ipv4 := Some {| address := V4 (Net.ipv4 10 0 0 2); prefix_length := 24 |};
     ipv6 := None; dns := [V4 (Net.ipv4 10 0 0 1)] |}.
Definition host : TrafficHost Machine :=
  {| machine := idle; capabilities := ∅; state := Stopped; generation := 0;
     recovery_required := false; responses := ∅ |}.
Definition lifetime : list Request := [request 1 3 (Start parameters); request 2 3 Status].

Lemma idle_recoverable : recoverable idle.
Proof. done. Qed.
Lemma host_is_ok : host_ok host.
Proof. exact (new_ok idle ∅ host idle_recoverable eq_refl). Qed.

Lemma host_lifecycle_witness :
  exists h', handle_all lifetime host = Ret h' /\ state h' = Running /\
    exists r, stored (machine h') = Some r /\ rec_profile_generation r = generation h'.
Proof.
  destruct (host_lifecycle idle ∅ host lifetime idle_recoverable eq_refl)
    as (h' & Hrun & _ & _ & _ & Hrunning).
  exists h'. split; [exact Hrun|].
  assert (state h' = Running) as Hs by (vm_compute in Hrun; by injection Hrun as <-).
  exact (conj Hs (Hrunning Hs)).
Defined.

(** The machine crashes after the journal was written and the platform was
    started. *)
Lemma host_crash_safe_witness :
  exists h', handle_all lifetime
      {| machine := {| budget := 2; inner := idle |}; capabilities := ∅; state := Stopped;
         generation := 0; recovery_required := false; responses := ∅ |} = Ret h' /\
    installed (inner (machine h')) /\
    forall h2, TrafficHost.new (inner (machine h')) ∅ = Ok h2 -> recovery_required h2 = true.
Proof.
  destruct (host_crash_safe idle 2 ∅ _ lifetime idle_recoverable eq_refl) as (h' & Hrun & Hcrash).
  exists h'. split; [exact Hrun|].
  assert (installed (inner (machine h'))) as Hi by (vm_compute in Hrun; by injection Hrun as <-).
  exact (conj Hi (fun h2 Hnew => proj1 (Hcrash ∅ h2 Hnew Hi))).
Defined.

Lemma stale_generation_refused_witness :
  exists h1 resp h2,
    handle_all lifetime host = Ret h1 /\
    TrafficHost.handle (request 3 2 Stop) h1 = Ret (Ok resp, h2) /\
    (exists e, response resp = CommandErr e) /\ machine h2 = machine h1.
Proof.
  destruct (handle_all_ok lifetime host host_is_ok) as (h1 & Hrun & Hok & _).
  destruct (stale_generation_refused h1 (request 3 2 Stop) Hok) as (resp & h2 & Hh & _ & Hst).
  exists h1, resp, h2. split; [exact Hrun|]. split; [exact Hh|].
  destruct Hst as (He & Hm & _).
  - vm_compute in Hrun. by injection Hrun as <-.
  - vm_compute in Hrun. by injection Hrun as <-.
  - exact (conj He Hm).
Defined.

Lemma retry_idempotent_witness :
  exists resp h1, TrafficHost.handle (request 7 3 (Start parameters)) host = Ret (Ok resp, h1) /\
    TrafficHost.handle (request 7 4 Stop) h1 = Ret (Ok resp, h1).
Proof.
  eexists _, _. split; [vm_compute; reflexivity|].
  apply (retry_idempotent host (request 7 3 (Start parameters)) _ _ (request 7 4 Stop) host_is_ok).
  - vm_compute. reflexivity.
  - right; left. by vm_compute.
  - reflexivity.
Defined.

(** *** The journal *)
Definition test_record : RecoveryRecord :=
  {| rec_profile_generation := 3; configuration := parameters |}.
#[local] Instance RecoveryRecord_eq_dec : EqDecision RecoveryRecord.
Proof. solve_decision. Defined.
#[local] Instance record_json : Json RecoveryRecord :=
  {| to_vec r := if decide (r = test_record) then Some [x52] else None;
     from_slice b := if decide (b = [x52]) then Some test_record else None |}.
#[local] Instance record_json_laws : JsonLaws RecoveryRecord record_json.
Proof. constructor. intros v body. cbn. repeat case_decide; by intros [= <-]; subst. Qed.

(** The rename fails: the old state stands. *)
Definition faulty : FileSystem :=
  {| target := None; temporary := None;
     faults := [false; false; false; false; false; false; true] |}.

Lemma journal_atomic_witness :
  exists r fs', FileRecoveryJournal.write false test_record faulty = Ret (r, fs') /\
    (durable fs' = durable faulty \/ durable fs' = Some test_record).
Proof.
  destruct (proj1 (journal_atomic (J := record_json) false test_record faulty))
    as (r & fs' & Hrun & _ & Hd).
  exists r, fs'. exact (conj Hrun Hd).
Defined.
End HostExamples.
